(* ===== verification/_CoqProject ===== *)
-Q . S2P
Prelude.v
Float.v
Number.v
NumericFor.v
Bytecode.v
Verifier.v
Dominance.v
VerifierTotal.v
Codec.v
Wire.v
Encode.v
RoundTrip.v
Lexer.v
LexerGrammar.v
LexerSpec.v
LexerTheorems.v
Ast.v
Parser.v
ParserGrammar.v
ParserSpec.v
ParserTheorems.v
Table.v
TableSpec.v
TableSet.v
TableKeys.v
TableNext.v
TableHeap.v
TableTheorems.v
TableWeak.v
Alloc.v
AllocBalance.v
AllocTheorems.v
AllocNormalize.v
AllocWorld.v
CAllocator.v
ToNumber.v
ToNumberTheorems.v
Strings.v
LookupCache.v
Pattern.v
PatternSpec.v
PatternTheorems.v
PatternSearch.v
Resolve.v
ResolveSpec.v
ResolveState.v
ResolveNames.v
ResolveScopes.v
ResolveExits.v
ResolveFunctions.v
ResolveTree.v
ResolveTheorems.v
GcState.v
GcBits.v
ShortStrings.v
Heap.v
Barrier.v
Collector.v
HeapEdges.v
TableEdges.v
HeapInv.v
HeapMark.v
HeapLive.v
HeapChange.v
HeapRounds.v
HeapProgress.v
HeapAtomic.v
HeapFinish.v
HeapSweep.v
HeapCycle.v
HeapBegin.v
HeapReclaim.v
HeapTermination.v
HeapStores.v
HeapPublish.v
HeapTables.v
HeapRoots.v
HeapFinalizers.v
HeapSteps.v
HeapFindings.v
