(* ===== verification/Prelude.v ===== *)
(** RivetLua: the core of a Lua 5.4/5.5 implementation in Rust.

    * The program and the part modelled here

    RivetLua compiles Lua source to its own register bytecode, RVLU v2, and
    runs it. The crate rivetlua-core holds what every other crate trusts: the
    values and the arithmetic (crates/rivetlua-core/src/value.rs, number.rs),
    the typed bytecode with the effects of each instruction
    (bytecode/mod.rs), and, in bytecode/codec.rs, the verifier that every
    module must pass before the virtual machine runs it and the binary format
    that modules are stored in. The virtual machine itself
    (crates/rivetlua-runtime) relies on the verifier: it indexes registers,
    constants and prototypes as the instructions say. The numeric [for] is the
    piece of the machine whose correctness rests on all of them: number.rs
    compares and adds, vm/numeric_for.rs steps the loop, the verifier pairs the
    two instructions.

    The crate rivetlua-compiler turns source text into that bytecode. Its front
    end is modelled: the lexer (lexer/), whose tokens are all the parser
    (parser/mod.rs) sees, and the syntax tree (ast.rs).

    The data of a running program lives in tables (crates/rivetlua-runtime/src/
    table.rs): an array of optional values and an open-addressing hash whose
    deleted keys stay as dead keys for [next]. The machine reads them through a
    cache of integer lookups (vm/mod.rs), and the collector sweeps the weak ones.

    All objects live in the heap of the machine (runtime/heap.rs, gc/mod.rs,
    roots.rs): slots with generations, and an incremental and generational
    collector whose rounds run between the operations of the program. A write
    barrier in every store keeps the two consistent. Every allocation goes through
    a ledger (runtime/alloc.rs), which holds it to a limit and may ask the host; the
    C API (capi/allocator.rs) asks the [lua_Alloc] of its state.

    The library functions take arguments from the machine and give strings back to
    the heap. Modelled are the patterns, the reading of numeric strings, and the
    functions on plain strings (runtime/stdlib/).

    * Files

    - Prelude: the result type with errors and panics, the state monad, machine
      integers, little-endian bytes, lists indexed by integers as the code
      indexes its vectors, and the [ensures] rules by which the totality proofs
      go through the code's structure.
    - Float: IEEE 754 binary64 and the methods of [f64] that are called.
    - Number: value.rs, number.rs and the profile table.
    - NumericFor: runtime/vm/numeric_for.rs.
    - Bytecode: bytecode/mod.rs and the data types of bytecode/codec.rs.
    - Verifier: the verifier of bytecode/codec.rs ([verify_module] and all it
      calls), and what it guarantees of accepted modules.
    - Dominance, VerifierTotal: the graph algorithms of the verifier proved
      against their specification; the verifier is total; the numeric-for
      pairing.
    - Codec: the reader, the writer, [encode_module] and [decode_module].
    - Wire: the format as a specification, and the decoder against it.
    - Encode: the encoder against the format, with and without an allocation
      bound.
    - RoundTrip: whole modules.
    - Lexer: compiler/lexer/mod.rs, cursor.rs and scanner.rs.
    - LexerGrammar, LexerSpec, LexerTheorems: the lexical grammar as a
      specification, each scanning function against it, and [lex] as a whole.
    - Ast: compiler/ast.rs. Parser: compiler/parser/mod.rs.
    - ParserGrammar, ParserSpec, ParserTheorems: the grammar of the language over
      the tokens as a specification, each parsing function against it, and
      [parse] on the chunks of the lexer.

    - Table: runtime/table.rs, with the comparison of values in vm/ops.rs.
    - TableSpec: a table as a finite map ([contents]) and its invariant
      ([table_ok]); lookups. TableSet: each mutation against the map. TableKeys:
      the keys of values. TableNext, TableHeap: traversal. TableWeak: the sweep
      of weak tables. TableTheorems: the theorems on sequences of operations, and
      a concrete heap for the witnesses (Demo).
    - Alloc: the ledger of runtime/alloc.rs, its reservations, charges and collections
      of charges. AllocBalance: sums over what is held, and the laws of the host.
      AllocTheorems, AllocNormalize: each operation keeps the balance; collections.
      AllocWorld: a ledger with all that it gave out, and any sequence of operations
      (AllocDemo has the witnesses). CAllocator: capi/allocator.rs.
    - LookupCache: [raw_read_table_cached] of runtime/vm/mod.rs.
    - ToNumber: [parse_number_bytes] and [number] of runtime/stdlib/basic.rs.
      ToNumberTheorems: numeric strings against the numerals of the language.
    - Strings: runtime/stdlib/string.rs without patterns, [format], [gsub] and packing:
      the texts of integers, substrings, bytes and repetition, and a concrete machine
      (StringsDemo).
    - Pattern: the matcher of the string library, runtime/stdlib/pattern.rs.
      PatternSpec: the items of a pattern and all its matches at a position, the
      preferred first. PatternTheorems: the matcher against that. PatternSearch:
      searches, matches at a position and plain texts.

    - Resolve: compiler/resolve/mod.rs, a state per function.
    - ResolveSpec: static scoping as rules over environments, from a syntax tree to
      a resolved tree, and what an upvalue stands for ([chain]).
    - ResolveState: the invariant between the state of the resolver and an
      environment, and the rules of [yields]: a computation that keeps it and whose
      result follows from the rules. ResolveNames, ResolveScopes, ResolveExits,
      ResolveFunctions: each group of operations against them. ResolveTree:
      induction over syntax trees and every construct. ResolveTheorems: modules,
      and the front end as a whole.

    - GcState: gc/mod.rs, the phase, colours and parameters of the collector.
      GcBits: its pages of bits as a map from slots to colours; the parameters.
      ShortStrings: the index of interned strings of heap.rs.
    - Heap: payloads, slots, checked access, marking and roots (heap.rs, roots.rs,
      gc/trace.rs and the traversals of closure.rs, upvalue.rs, coroutine.rs,
      call.rs). Barrier: the write barriers, the stores behind them, finalizer
      registration, reclaiming. Collector: the phases of a cycle, whole collections,
      modes, parameters and the allocation that drives collections.
    - HeapEdges, TableEdges: the references of an object as a graph, and what the
      operations on tables do to them. HeapInv: the invariant [gc_inv]. HeapMark:
      marking. HeapChange: changes in place.
    - HeapRounds, HeapAtomic, HeapFinish, HeapSweep, HeapCycle, HeapBegin: each phase
      keeps the invariant. HeapProgress, HeapTermination: each round decreases a
      measure, so that cycles end. HeapLive, HeapReclaim: which objects live at the
      start of a full cycle ([lives]), that nothing else is marked, and that the sweep
      leaves nothing else.
    - HeapStores, HeapPublish, HeapTables, HeapRoots, HeapFinalizers: the operations
      of the program keep the invariant.
    - HeapSteps: operations and rounds as a step relation from a new VM, the theorems
      about it, and a heap at hand for the witnesses (HeapDemo). HeapFindings: three
      runs in which a live object is reclaimed.

    Definitions keep the names of the functions they translate; where several
    code paths share one shape the definition names it (for example
    [read_counted] for a count within a limit and then the elements).

    * Conventions

    A fallible function returns [res E A]: [Ok], [Err] with the code's typed
    error, or [Crash], which is a panic of the Rust code (an index out of range,
    a failed unwrap) or exhausted fuel. [total] is the absence of [Crash].
    Integers are [Z] with their width written where the code checks or wraps it
    (u8 to u64, i64; usize is 64 bits). A [Vec] is a list; its capacity is
    modelled where the code inspects it.

    The interfaces to what is not in the repository: [Allocator] (what
    try_reserve_exact returns, and the capacities of the vectors that the
    verifier adds up), the platform's [powf], and for hexadecimal floats [powi],
    whose precision its documentation leaves open. No law is assumed of them; the
    theorems hold whatever they do. The budget that the compiler's callers charge
    for numerals is the type class [NumericBudget]; whether [try_reserve] finds room
    in the resolver, [Reserver].

    Tables are written against three interfaces. [Heap] is what they ask of the
    heap (the kind of an object, the bytes of a string), [Ledger] the allocation
    ledger, [Hasher] the hash function of the standard library, of which nothing
    is assumed. [HeapLaws] and [LedgerLaws] state what the first two promise:
    lookups return, live references with one identity are one reference, and the
    ledger's errors are those it may give; Demo is an instance of all of them.

    The ledger itself is written against [AllocationAdmission], the host that admits
    and releases bytes and may reach the ledger meanwhile, and [RustAllocator], whether
    the allocator of Rust has room. [AdmissionLaws] states what the host promises: which
    tokens it has lent ([lent]), and that it leaves the balance alone. [CAllocator]
    discharges it for a C state from [LuaAllocLaws], the contract of [lua_Alloc]. The
    string library is written against [Machine], which reserves and allocates strings
    and may refuse, and [FloatText], the text of a float; nothing is assumed of either.

    The heap adds three: [HeapLedger] extends [Ledger] by the reservations of the
    heap, with [HeapLedgerLaws] for what they return; [Suspended] is what a
    suspended coroutine or a parked execution of the host holds, of which nothing is
    assumed but its references; [Finalizers] runs the queue of finalizers, which
    enters the interpreter, and [FinalizersLaws] says that it keeps the invariant and
    the pause of the collector.

    The scanner and the parser keep their state behind [&mut self]: they are in
    the state monad [ST], in which an error keeps the state. A specification of
    one run is [spec]; the scanner's rules speak of the text on both sides of the
    cursor ([LexerSpec.At]), the parser's of the index of the next token, the
    depth and the nodes reserved ([ParserSpec.reads]).

    * Theorems

    - Verified bytecode is safe to run (Verifier, VerifierTotal): control never
      leaves the instructions, the open result list is determined by the
      program counter, registers are in the frame, a numeric [for] is entered
      only through its preparation, and the structural facts of modules.
    - The verifier and the decoder are total on all inputs (VerifierTotal,
      RoundTrip).
    - The format (RoundTrip, Encode): the decoder accepts exactly the format,
      the encoder produces exactly the format, both round trips, the bounded
      encoder refines the unbounded one; and two places where the encoder, the
      verifier and the decoder disagree.
    - Numbers (Number, NumericFor): exact comparison and conversion between the
      subtypes, floor division, shifts, arithmetic modulo 2^64; the values a
      numeric [for] visits and its errors.
    - Tables (TableTheorems, TableWeak, LookupCache): raw sets and gets are those of
      a finite map, raw equality is equality of keys, [next] visits each field
      once, the length is the first gap, the weak sweep removes exactly the dead
      pairs, the cache never returns an old value; and a traversal that clears
      the fields it visits can skip some.
    - The heap (HeapSteps): after any operations and rounds, in any order, what the
      program can reach is still in its slot, with its generation
      ([reachable_not_reclaimed]); a round never panics and keeps [gc_inv]
      ([round_keeps_invariant]); a cycle ends ([run_cycle_ends]); after a full cycle
      of the incremental mode what does not live is gone ([unreachable_reclaimed]; a
      major cycle of the generational mode may keep more, as the remembered set marks
      children of old owners). The operations are
      [permitted] when the references that they store are of intact objects, as those
      are that were read from roots, and under the conditions that [permitted] lists
      for weak tables, weak modes, finalizers and the queue of the shutdown.
      HeapFindings shows runs of the code outside of them in which a live object is
      reclaimed: a store into the array of a table with weak keys, the long string
      key of a pair in an all-weak table, the shutdown in a cycle. A set of a table
      entry is proved to keep the invariant when it returns ([post]): that a set on a
      well-formed table does not panic is in TableSet, and a heap may hold others.
    - The ledger (AllocWorld, CAllocator): after any operations, in any order and with
      any refusals (and fewer than 2^64 attempts), its balances are the sums over what is live and the host has lent
      exactly the tokens of that; a granted request is within the limit, a refused one
      changes no balance, and what is reserved can be committed; a C host's blocks are
      those of what is live, with their sizes.
    - Numeric strings and the string library (ToNumberTheorems, Strings): a
      string with a numeral is the number of that numeral, within the digits that the
      code reads as the compiler does; the texts of integers read back;
      [sub], [byte], [char] and [rep] against the manual, with the bytes they reserve;
      and strings on which the code departs from the compiler.
    - The parameters of the collector (GcBits): they round down by less than one
      seventeenth.
    - Patterns (PatternSearch): a search finds the first position with a match and
      there the match that comes first in the order of backtracking; errors only
      where they are due; matches and captures lie in the source; plain find is
      the first occurrence, and the search on patterns without special bytes.
    - Effects (Bytecode): the stored flag byte is the effect record.
    - Names (ResolveTheorems): the resolver is static scoping, it is total and never
      reports a broken table of its own, its tables of functions, bindings and
      upvalues are well formed, and it accepts what the lexer and the parser return.
    - The front end (LexerTheorems, ParserTheorems): both stages are total and
      their diagnostics are inside the source; the tokens are those of the lexical
      grammar, the tree is that of the tokens, with operator precedences and
      spans; trees are within the node limit; the values of integer numerals; and
      sources on which the code departs from Lua.

    * Fuel

    Every loop that is not structural runs on fuel computed from its input: the
    worklist of the dataflow check on one more than the number of instructions
    (each enters it once), the depth-first search on the number of edges and
    nodes, the passes of the dominator iteration on the code's own work budget,
    the tree numbering on twice the number of nodes. [verify_module_total] and
    [decode_module_total] prove that it never runs out, so no theorem is about
    a truncated run. The numeric [for] is run on any fuel at least its number of
    iterations, which the theorem gives. The loops of the scanner run on one more
    round than the input has bytes and those of the parser on one more than there
    are tokens, each round but the last consuming one; the recursion of the parser
    ([calls]) on one more than [max_parse_depth], which the code itself enforces;
    [lex_total] and [parse_total] prove that this is enough. The search for the
    length of a table runs on one more round than it has slots
    ([border_len_first_gap]); the loop of the pattern matcher on one more round
    than the pattern has bytes, since each item is further in it, deeper matches
    included ([match_loop_agrees]); the doubling of [ref_hash_len] on 70 rounds, since a
    length doubled 64 times is no longer a [usize]. [run_cycle] runs on
    [cycle_measure] of the heap, which weighs the white objects, the work list, the
    slots still to be swept and the phase; [run_cycle_ends] proves that every round of
    a cycle decreases it.

    * Not modelled

    The optional side tables of a verified module (always empty after
    [verify_module]) and Display implementations. Of the heap: which object owns
    which charge of the ledger (the heap sees the reservations that can fail, the
    ledger all its owners), the capacities of vectors, the constant tables of modules, files and
    host state, the constructors of objects other than tables and values around
    [publish_payload], and the running of a finalizer. The import and export of
    official Lua bytecode, which stands on the core modelled here; the interpreter
    loop and the rest of the standard library, which call the tables, the heap, the
    numbers, the patterns and the strings modelled here; code generation of the compiler and its
    budgets; host interfaces, the C API but its allocator, the command line and native code generation,
    which are glue to the operating system and to foreign code. *)

From Stdlib Require Import ZArith Lia.
From stdpp Require Import base list numbers strings.

#[export] Set Default Proof Using "Type".

Declare Scope rivet_scope.
Delimit Scope rivet_scope with rivet.
Open Scope Z_scope.

(** ** Results, panics and state *)

(** What stops a Rust computation without a [Result]: a panic (failed
    [unwrap], slice index out of range) or, in the model only, fuel. *)
Inductive crash := Panicked | OutOfFuel.

(** [Result<A, E>], with the two ways of not returning one. *)
Inductive res (E A : Type) :=
  | Ok (a : A)
  | Err (e : E)
  | Crash (c : crash).
Arguments Ok {E A} a.
Arguments Err {E A} e.
Arguments Crash {E A} c.

#[export] Instance res_ret E : MRet (res E) := fun A a => Ok a.
#[export] Instance res_bind E : MBind (res E) := fun A B f m =>
  match m with Ok a => f a | Err e => Err e | Crash c => Crash c end.

(** A computation over a mutable receiver: the state survives an error, as it
    does behind a Rust [&mut]. *)
Definition ST (S E A : Type) : Type := S -> res E A * S.

#[export] Instance st_ret S E : MRet (ST S E) := fun A a s => (Ok a, s).
#[export] Instance st_bind S E : MBind (ST S E) := fun A B f m s =>
  match m s with
  | (Ok a, s') => f a s'
  | (Err e, s') => (Err e, s')
  | (Crash c, s') => (Crash c, s')
  end.

#[export] Instance st_fmap S E : FMap (ST S E) := fun A B f m s =>
  match m s with
  | (Ok a, s') => (Ok (f a), s')
  | (Err e, s') => (Err e, s')
  | (Crash c, s') => (Crash c, s')
  end.

Definition get {S E} : ST S E S := fun s => (Ok s, s).
Definition put {S E} (s : S) : ST S E unit := fun _ => (Ok tt, s).
Definition fail {S E A} (e : E) : ST S E A := fun s => (Err e, s).
Definition crash_with {S E A} (c : crash) : ST S E A := fun s => (Crash c, s).
Definition lift {S E A} (r : res E A) : ST S E A := fun s => (r, s).

(** [.unwrap()] of an [Option]. *)
Definition unwrap {S E A} (o : option A) : ST S E A :=
  match o with Some a => mret a | None => crash_with Panicked end.

(** [loop { .. }]: the body returns [inl] to go round again with new locals,
    [inr] to break with a value. *)
Fixpoint iter {S E X B} (fuel : nat) (body : X -> ST S E (X + B)) (x : X) : ST S E B :=
  match fuel with
  | O => crash_with OutOfFuel
  | Datatypes.S fuel =>
      r ← body x;
      match r with
      | inl x' => iter fuel body x'
      | inr b => mret b
      end
  end.

(** ** A specification of one run

    [spec m s Q R]: run from [s], [m] does not crash; a success satisfies [Q],
    an error [R]. *)
Definition spec {S E A} (m : ST S E A) (s : S)
    (Q : A -> S -> Prop) (R : E -> S -> Prop) : Prop :=
  match m s with
  | (Ok a, s') => Q a s'
  | (Err e, s') => R e s'
  | (Crash _, _) => False
  end.

Section spec_rules.
Context {S E : Type}.
Implicit Types (s : S) (R : E -> S -> Prop).

Lemma spec_ret {A} (a : A) s (Q : A -> S -> Prop) R : Q a s -> spec (mret a) s Q R.
Proof. done. Qed.

Lemma spec_fail {A} (e : E) s (Q : A -> S -> Prop) R : R e s -> spec (fail e) s Q R.
Proof. done. Qed.

Lemma spec_get s (Q : S -> S -> Prop) R : Q s s -> spec (E := E) get s Q R.
Proof. done. Qed.

Lemma spec_put s s' (Q : unit -> S -> Prop) R : Q tt s' -> spec (put s') s Q R.
Proof. done. Qed.

Lemma spec_bind {A B} (m : ST S E A) (f : A -> ST S E B) s (Q : B -> S -> Prop) R :
  spec m s (fun a s' => spec (f a) s' Q R) R -> spec (m ≫= f) s Q R.
Proof.
  unfold spec, mbind, st_bind. by destruct (m s) as [[a | e | c] s'].
Qed.

Lemma spec_weaken {A} (m : ST S E A) s (Q Q' : A -> S -> Prop) R R' :
  spec m s Q R ->
  (forall a s', Q a s' -> Q' a s') -> (forall e s', R e s' -> R' e s') ->
  spec m s Q' R'.
Proof.
  unfold spec. destruct (m s) as [[a | e | c] s']; eauto.
Qed.

(** The cut rule: use a known specification of [m], then the continuation. *)
Lemma spec_seq {A B} (m : ST S E A) (f : A -> ST S E B) s
    (P : A -> S -> Prop) (Q : B -> S -> Prop) R R' :
  spec m s P R ->
  (forall a s', P a s' -> spec (f a) s' Q R') ->
  (forall e s', R e s' -> R' e s') ->
  spec (m ≫= f) s Q R'.
Proof. intros Hm Hf HR. apply spec_bind. by eapply spec_weaken. Qed.

Lemma spec_conj {A} (m : ST S E A) s (Q1 Q2 : A -> S -> Prop) R1 R2 :
  spec m s Q1 R1 -> spec m s Q2 R2 ->
  spec m s (fun a s' => Q1 a s' /\ Q2 a s') (fun e s' => R1 e s' /\ R2 e s').
Proof. unfold spec. destruct (m s) as [[a | e | c] s']; auto. Qed.

Lemma spec_ok {A} (m : ST S E A) s (Q : A -> S -> Prop) R a s' :
  spec m s Q R -> m s = (Ok a, s') -> Q a s'.
Proof. unfold spec. intros H E'. by rewrite E' in H. Qed.

Lemma spec_total {A} (m : ST S E A) s (Q : A -> S -> Prop) R c s' :
  spec m s Q R -> m s <> (Crash c, s').
Proof. unfold spec. intros H E'. by rewrite E' in H. Qed.

(** Loops with an invariant over the locals and the state, and a measure
    that every further round decreases. *)
Lemma spec_iter {X B} (body : X -> ST S E (X + B)) (I : X -> S -> Prop)
    (measure : X -> S -> nat) (Q : B -> S -> Prop) R fuel x s :
  (forall x s, I x s ->
     spec (body x) s
       (fun r s' => match r with
                    | inl x' => I x' s' /\ (measure x' s' < measure x s)%nat
                    | inr b => Q b s'
                    end) R) ->
  I x s -> (measure x s < fuel)%nat -> spec (iter fuel body x) s Q R.
Proof.
  intros Hbody. revert x s.
  induction fuel as [|fuel IH]; intros x s HI Hm; [lia |].
  simpl. eapply spec_bind, spec_weaken; [by apply Hbody | | done].
  intros [x' | b] s' H; [| exact H].
  destruct H as [HI' Hlt]. apply IH; [done | lia].
Qed.

(** A run that keeps an invariant, whether it succeeds or fails. *)
Definition keeps {A} (I : S -> Prop) (m : ST S E A) : Prop :=
  forall s, I s -> spec m s (fun _ s' => I s') (fun _ s' => I s').

Lemma keeps_ret {A} (I : S -> Prop) (a : A) : keeps I (mret a).
Proof. intros s Hs. exact Hs. Qed.

Lemma keeps_fail {A} (I : S -> Prop) e : keeps (A := A) I (fail e).
Proof. intros s Hs. exact Hs. Qed.

Lemma keeps_get (I : S -> Prop) : keeps I get.
Proof. intros s Hs. exact Hs. Qed.

Lemma keeps_bind {A B} (I : S -> Prop) (m : ST S E A) (f : A -> ST S E B) :
  keeps I m -> (forall a, keeps I (f a)) -> keeps I (m ≫= f).
Proof. intros Hm Hf s Hs. eapply spec_seq; [by apply Hm | intros a s' Hs'; by apply Hf | done]. Qed.

(** What is known of the state when it is read. *)
Lemma keeps_read {B} (I : S -> Prop) (f : S -> ST S E B) :
  (forall s, I s -> spec (f s) s (fun _ s' => I s') (fun _ s' => I s')) -> keeps I (get ≫= f).
Proof. intros Hf s Hs. apply spec_bind, spec_get. by apply Hf. Qed.

Lemma keeps_if {A} (I : S -> Prop) (b : bool) (m n : ST S E A) : keeps I m -> keeps I n -> keeps I (if b then m else n).
Proof. by destruct b. Qed.

Lemma keeps_spec {A} (I : S -> Prop) (m : ST S E A) s : keeps I m -> I s -> spec m s (fun _ s' => I s') (fun _ s' => I s').
Proof. intros Hm. apply Hm. Qed.
End spec_rules.


(** Inversion of a successful or failed bind. *)
Lemma bind_Ok {S E A B} (m : ST S E A) (f : A -> ST S E B) s b s' :
  (m ≫= f) s = (Ok b, s') <->
  exists a s1, m s = (Ok a, s1) /\ f a s1 = (Ok b, s').
Proof.
  unfold mbind, st_bind. split.
  - destruct (m s) as [[a | e | c] s1] eqn:Hm; intros H; try discriminate.
    by exists a, s1.
  - by intros (a & s1 & -> & H).
Qed.

Lemma res_bind_Ok {E A B} (m : res E A) (f : A -> res E B) b :
  m ≫= f = Ok b <-> exists a, m = Ok a /\ f a = Ok b.
Proof.
  unfold mbind, res_bind. split.
  - destruct m as [a | e | c]; intros H; try discriminate. by exists a.
  - by intros (a & -> & H).
Qed.

(** ** Machine integers *)

Definition U16_MAX : Z := 65535.
Definition U32_MAX : Z := 4294967295.
Definition U64_MAX : Z := 18446744073709551615.
(** The targets of the modelled configuration are 64-bit. *)
Definition USIZE_MAX : Z := U64_MAX.
Definition I64_MIN : Z := -9223372036854775808.
Definition I64_MAX : Z := 9223372036854775807.

Definition u8 (z : Z) : Prop := 0 <= z <= 255.
Definition u16 (z : Z) : Prop := 0 <= z <= U16_MAX.
Definition u32 (z : Z) : Prop := 0 <= z <= U32_MAX.
Definition u64 (z : Z) : Prop := 0 <= z <= U64_MAX.
Definition usize (z : Z) : Prop := 0 <= z <= USIZE_MAX.
Definition i64 (z : Z) : Prop := I64_MIN <= z <= I64_MAX.

(** [as u64] of an integer, [as i64] of an integer: two's complement. *)
Definition wrap_u64 (z : Z) : Z := z mod 18446744073709551616.
Definition wrap_i64 (z : Z) : Z :=
  (z + 9223372036854775808) mod 18446744073709551616 - 9223372036854775808.

(** [i64::checked_add]. *)
Definition checked_add_i64 (a b : Z) : option Z :=
  if (I64_MIN <=? a + b) && (a + b <=? I64_MAX) then Some (a + b) else None.

(** [usize::checked_add]. *)
Definition checked_add_usize (a b : Z) : option Z :=
  if a + b <=? USIZE_MAX then Some (a + b) else None.

(** Unfolds every named bound and range, for [lia]. *)
Ltac unfold_ranges :=
  unfold u8, u16, u32, u64, usize, i64, U16_MAX, U32_MAX, USIZE_MAX, U64_MAX,
    I64_MIN, I64_MAX in *.
Ltac range_lia := unfold_ranges; lia.

Lemma wrap_i64_range z : i64 (wrap_i64 z).
Proof.
  unfold wrap_i64. pose proof (Z.mod_pos_bound (z + 9223372036854775808) 18446744073709551616).
  range_lia.
Qed.

Lemma wrap_i64_id z : i64 z -> wrap_i64 z = z.
Proof. unfold wrap_i64. intros H. rewrite Z.mod_small; range_lia. Qed.

Lemma wrap_i64_mod z : wrap_i64 z mod 18446744073709551616 = z mod 18446744073709551616.
Proof.
  unfold wrap_i64. rewrite Zminus_mod_idemp_l.
  f_equal. lia.
Qed.

Lemma wrap_u64_range z : u64 (wrap_u64 z).
Proof.
  unfold wrap_u64. pose proof (Z.mod_pos_bound z 18446744073709551616). range_lia.
Qed.

Lemma wrap_u64_id z : u64 z -> wrap_u64 z = z.
Proof. unfold wrap_u64. intros H. apply Z.mod_small. range_lia. Qed.

Lemma wrap_i64_eq a b :
  a mod 18446744073709551616 = b mod 18446744073709551616 -> wrap_i64 a = wrap_i64 b.
Proof.
  intros H. unfold wrap_i64. f_equal.
  rewrite <- (Zplus_mod_idemp_l a), <- (Zplus_mod_idemp_l b). by rewrite H.
Qed.

Lemma wrap_i64_u64 z : wrap_i64 (wrap_u64 z) = wrap_i64 z.
Proof. apply wrap_i64_eq. unfold wrap_u64. by rewrite Z.mod_mod. Qed.

Lemma wrap_u64_i64 z : wrap_u64 (wrap_i64 z) = wrap_u64 z.
Proof. apply wrap_i64_mod. Qed.

(** ** Slices indexed by [usize] *)

Definition zlen {A} (l : list A) : Z := Z.of_nat (length l).

(** [slice.get(i)]. *)
Definition zget {A} (l : list A) (i : Z) : option A :=
  if (0 <=? i) && (i <? zlen l) then l !! Z.to_nat i else None.

Lemma zlen_eq {A} (l : list A) : zlen l = Z.of_nat (length l).
Proof. done. Qed.

Lemma zlen_nonneg {A} (l : list A) : 0 <= zlen l.
Proof. unfold zlen. lia. Qed.

Lemma zlen_app {A} (l k : list A) : zlen (l ++ k) = zlen l + zlen k.
Proof. unfold zlen. rewrite length_app. lia. Qed.

Lemma zlen_cons {A} (x : A) l : zlen (x :: l) = 1 + zlen l.
Proof. unfold zlen. simpl. lia. Qed.

Lemma zlen_nil {A} : zlen (@nil A) = 0.
Proof. done. Qed.

Lemma zget_Some {A} (l : list A) i x :
  zget l i = Some x <-> 0 <= i /\ l !! Z.to_nat i = Some x.
Proof.
  unfold zget, zlen. destruct (0 <=? i) eqn:H0; simpl.
  - destruct (i <? Z.of_nat (length l)) eqn:H1; split.
    + intros H. split; [lia | done].
    + by intros [_ H].
    + done.
    + intros [_ H]. apply lookup_lt_Some in H. lia.
  - split; [done | lia].
Qed.

Lemma zget_lt {A} (l : list A) i x : zget l i = Some x -> 0 <= i < zlen l.
Proof.
  rewrite zget_Some. intros [? H%lookup_lt_Some]. unfold zlen. lia.
Qed.

Lemma zget_is_Some {A} (l : list A) i : 0 <= i < zlen l -> exists x, zget l i = Some x.
Proof.
  unfold zlen. intros H. destruct (lookup_lt_is_Some_2 l (Z.to_nat i)) as [x Hx]; [lia |].
  exists x. apply zget_Some. split; [lia | done].
Qed.

Lemma zget_None {A} (l : list A) i : zget l i = None <-> i < 0 \/ zlen l <= i.
Proof.
  split.
  - intros H. destruct (decide (0 <= i < zlen l)) as [Hin | ]; [| lia].
    apply zget_is_Some in Hin as [x Hx]. congruence.
  - intros H. destruct (zget l i) eqn:Hg; [| done]. apply zget_lt in Hg. lia.
Qed.

Lemma zget_app_l {A} (l k : list A) i : i < zlen l -> zget (l ++ k) i = zget l i.
Proof.
  unfold zget. intros H. rewrite zlen_app. pose proof (zlen_nonneg k).
  destruct (0 <=? i) eqn:Hi; simpl; [| done].
  destruct (i <? zlen l) eqn:Hl; [| lia].
  destruct (i <? zlen l + zlen k) eqn:Hk; [| lia].
  apply lookup_app_l. unfold zlen in H. lia.
Qed.

Lemma zget_app_r {A} (l k : list A) i : zget (l ++ k) (zlen l + i) = if 0 <=? i then zget k i else zget l (zlen l + i).
Proof.
  destruct (0 <=? i) eqn:H0.
  - unfold zget. rewrite zlen_app. pose proof (zlen_nonneg l). rewrite H0.
    replace (0 <=? zlen l + i) with true by lia. simpl.
    replace (zlen l + i <? zlen l + zlen k) with (i <? zlen k) by lia.
    destruct (i <? zlen k); [| done].
    rewrite lookup_app_r by (unfold zlen; lia). f_equal. unfold zlen. lia.
  - apply zget_app_l. lia.
Qed.

Lemma zget_app_mid {A} (pre : list A) x post : zget (pre ++ x :: post) (zlen pre) = Some x.
Proof.
  rewrite <- (Z.add_0_r (zlen pre)), zget_app_r. done.
Qed.

(** ** Vectors

    [v[i]] and [v[i] = x], which panic out of range, and [contains]. *)

Definition zinsert {A} (l : list A) (i : Z) (x : A) : list A := <[Z.to_nat i := x]> l.

Definition vget {E A} (l : list A) (i : Z) : res E A :=
  match zget l i with Some x => Ok x | None => Crash Panicked end.
Definition vset {E A} (l : list A) (i : Z) (x : A) : res E (list A) :=
  match zget l i with Some _ => Ok (zinsert l i x) | None => Crash Panicked end.

Definition contains {A} `{EqDecision A} (l : list A) (x : A) : bool :=
  existsb (fun y => bool_decide (y = x)) l.

Lemma contains_spec {A} `{EqDecision A} (l : list A) (x : A) : contains l x = true <-> x ∈ l.
Proof.
  unfold contains. rewrite existsb_exists. split.
  - intros (y & Hy & H). apply bool_decide_eq_true in H. subst. by apply list_elem_of_In.
  - intros H. exists x. split; [by apply list_elem_of_In | by apply bool_decide_eq_true].
Qed.

Lemma contains_false {A} `{EqDecision A} (l : list A) (x : A) : contains l x = false <-> x ∉ l.
Proof. rewrite <- contains_spec. by destruct (contains l x). Qed.

Lemma zlen_zinsert {A} (l : list A) i x : zlen (zinsert l i x) = zlen l.
Proof. unfold zlen, zinsert. by rewrite length_insert. Qed.

Lemma zget_zinsert_eq {A} (l : list A) i x : 0 <= i < zlen l -> zget (zinsert l i x) i = Some x.
Proof.
  unfold zlen, zinsert. intros H. apply zget_Some. split; [lia |].
  apply list_lookup_insert_eq. lia.
Qed.

Lemma zget_zinsert_ne {A} (l : list A) i j x :
  0 <= i -> i <> j -> zget (zinsert l i x) j = zget l j.
Proof.
  intros Hi H. unfold zget. rewrite zlen_zinsert. unfold zinsert.
  destruct (Z.leb_spec 0 j); cbn [andb]; [| done].
  destruct (j <? zlen l); [| done]. apply list_lookup_insert_ne. lia.
Qed.

(** ** Early returns and loops of a [Result] *)

(** [if b { return Err(e); }] *)
Definition fail_if {E} (b : bool) (e : E) : res E unit := if b then Err e else Ok tt.

(** [for x in l { f(x)?; }] and [for x in l { acc = f(acc, x)?; }]. *)
Fixpoint for_each {E A} (f : A -> res E unit) (l : list A) : res E unit :=
  match l with
  | [] => Ok tt
  | x :: l => f x ≫= fun _ => for_each f l
  end.

Fixpoint fold_res {E A B} (f : B -> A -> res E B) (acc : B) (l : list A) : res E B :=
  match l with
  | [] => Ok acc
  | x :: l => f acc x ≫= fun acc => fold_res f acc l
  end.

(** [iter().enumerate()]. *)
Definition enumerate {A} (l : list A) : list (Z * A) :=
  combine (map Z.of_nat (seq 0 (length l))) l.

(** A result that is not a panic and has not run out of fuel. *)
Definition total {E A} (r : res E A) : Prop := forall c, r <> Crash c.

(** [ensures m Q]: [m] does not crash, and a success satisfies [Q]. *)
Definition ensures {E A} (m : res E A) (Q : A -> Prop) : Prop :=
  match m with Ok a => Q a | Err _ => True | Crash _ => False end.

Lemma fail_if_Ok {E} b (e : E) : fail_if b e = Ok tt <-> b = false.
Proof. unfold fail_if. by destruct b. Qed.

Lemma for_each_Ok {E A} (f : A -> res E unit) l :
  for_each f l = Ok tt <-> Forall (fun x => f x = Ok tt) l.
Proof.
  induction l as [| x l IH]; cbn [for_each]; [done |].
  rewrite res_bind_Ok, Forall_cons, <- IH. split; [by intros ([] & ? & ?) | by eauto].
Qed.

Lemma total_bind {E A B} (m : res E A) (f : A -> res E B) :
  total m -> (forall a, m = Ok a -> total (f a)) -> total (m ≫= f).
Proof.
  unfold total, mbind, res_bind. destruct m as [a | e | c]; intros Hm Hf c'; [by apply Hf | done |].
  by destruct (Hm c).
Qed.

Lemma total_fail_if {E} b (e : E) : total (fail_if b e).
Proof. unfold total, fail_if. by destruct b. Qed.

Lemma total_for_each {E A} (f : A -> res E unit) l :
  (forall x, x ∈ l -> total (f x)) -> total (for_each f l).
Proof.
  induction l as [| x l IH]; intros H; cbn [for_each]; [done |].
  apply total_bind; [apply H; left | intros _ _; apply IH; intros; apply H; by right].
Qed.

(** A loop invariant of [fold_res] over the elements taken so far. *)
Lemma fold_res_ind {E A B} (f : B -> A -> res E B) (I : list A -> B -> Prop) acc l :
  I [] acc ->
  (forall pre x post acc, l = pre ++ x :: post -> I pre acc ->
     match f acc x with Ok acc' => I (pre ++ [x]) acc' | Err _ => True | Crash _ => False end) ->
  match fold_res f acc l with Ok acc' => I l acc' | Err _ => True | Crash _ => False end.
Proof.
  intros H0 Hstep.
  assert (forall post pre acc, l = pre ++ post -> I pre acc ->
    match fold_res f acc post with Ok acc' => I l acc' | Err _ => True | Crash _ => False end) as G.
  { clear acc H0. induction post as [| x post IH]; intros pre acc Hl HI; cbn [fold_res].
    - by rewrite app_nil_r in Hl; subst.
    - pose proof (Hstep pre x post acc Hl HI) as Hx. unfold mbind, res_bind.
      destruct (f acc x) as [acc' | |]; [| done..].
      apply (IH (pre ++ [x])); [| done]. by rewrite <- app_assoc. }
  by apply (G l []).
Qed.

Lemma ensures_total {E A} (m : res E A) Q : ensures m Q -> total m.
Proof. intros H c ->. done. Qed.

Lemma total_ensures {E A} (m : res E A) : total m -> ensures m (fun a => m = Ok a).
Proof. destruct m as [a | e | c]; [done | done |]. intros H. by destruct (H c). Qed.

Lemma ensures_Ok {E A} (m : res E A) Q a : ensures m Q -> m = Ok a -> Q a.
Proof. by intros H ->. Qed.

Lemma ensures_weaken {E A} (m : res E A) (P Q : A -> Prop) :
  ensures m P -> (forall a, P a -> Q a) -> ensures m Q.
Proof. destruct m; cbn; auto. Qed.

Lemma ensures_bind {E A B} (m : res E A) (f : A -> res E B) P Q :
  ensures m P -> (forall a, P a -> ensures (f a) Q) -> ensures (m ≫= f) Q.
Proof. destruct m; cbn; auto. Qed.

Lemma ensures_fail_if {E} b (e : E) (Q : unit -> Prop) : (b = false -> Q tt) -> ensures (fail_if b e) Q.
Proof. destruct b; cbn; auto. Qed.

Lemma ensures_vget {E A} (l : list A) i (Q : A -> Prop) :
  0 <= i < zlen l -> (forall x, zget l i = Some x -> Q x) -> ensures (@vget E A l i) Q.
Proof. intros Hi HQ. unfold vget. destruct (zget_is_Some l i Hi) as [x Hx]. rewrite Hx. by apply HQ. Qed.

Lemma ensures_vset {E A} (l : list A) i x (Q : list A -> Prop) :
  0 <= i < zlen l -> Q (zinsert l i x) -> ensures (@vset E A l i x) Q.
Proof. intros Hi HQ. unfold vset. destruct (zget_is_Some l i Hi) as [y Hy]. by rewrite Hy. Qed.

Lemma ensures_fold {E A B} (f : B -> A -> res E B) (I : list A -> B -> Prop) acc l :
  I [] acc ->
  (forall pre x post acc, l = pre ++ x :: post -> I pre acc -> ensures (f acc x) (I (pre ++ [x]))) ->
  ensures (fold_res f acc l) (I l).
Proof. apply fold_res_ind. Qed.

Lemma ensures_for_each {E A} (f : A -> res E unit) (P : A -> Prop) l :
  (forall x, x ∈ l -> ensures (f x) (fun _ => P x)) -> ensures (for_each f l) (fun _ => Forall P l).
Proof.
  induction l as [| x l IH]; intros H; cbn [for_each]; [constructor |].
  eapply ensures_bind; [apply H; left | intros [] Hx].
  eapply ensures_weaken; [apply IH; intros; apply H; by right | intros [] Hl; by constructor].
Qed.

Lemma fold_res_Ok {E A B} (f : B -> A -> res E B) (I : list A -> B -> Prop) acc l acc' :
  fold_res f acc l = Ok acc' -> I [] acc ->
  (forall pre x post a a', l = pre ++ x :: post -> I pre a -> f a x = Ok a' -> I (pre ++ [x]) a') ->
  I l acc'.
Proof.
  intros Hf H0 Hstep.
  assert (forall post pre acc, l = pre ++ post -> I pre acc -> fold_res f acc post = Ok acc' -> I l acc') as G.
  { clear acc Hf H0. induction post as [| x post IH]; intros pre acc Hl HI; cbn [fold_res].
    - intros [= <-]. by rewrite app_nil_r in Hl; subst.
    - intros (a & Ha & Hf)%res_bind_Ok. apply (IH (pre ++ [x]) a); [by rewrite <- app_assoc | | done].
      by eapply Hstep. }
  by apply (G l [] acc).
Qed.

Lemma enumerate_elem {A} (l : list A) i x : (i, x) ∈ enumerate l <-> zget l i = Some x.
Proof.
  unfold enumerate. rewrite zget_Some.
  assert (forall k, (i, x) ∈ combine (map Z.of_nat (seq k (length l))) l <->
     Z.of_nat k <= i /\ l !! Z.to_nat (i - Z.of_nat k) = Some x) as H.
  { induction l as [| y l IH]; intros k; cbn [length seq map combine].
    - rewrite lookup_nil. split; [by intros ?%elem_of_nil | by intros [_ ?]].
    - rewrite elem_of_cons, IH. split.
      + intros [[= -> ->] | [Hk Hl]].
        * split; [lia |]. by replace (Z.to_nat (Z.of_nat k - Z.of_nat k)) with 0%nat by lia.
        * split; [lia |].
          by replace (Z.to_nat (i - Z.of_nat k)) with (S (Z.to_nat (i - Z.of_nat (S k)))) by lia.
      + intros [Hk Hl]. destruct (decide (i = Z.of_nat k)) as [-> |].
        * left. replace (Z.to_nat (Z.of_nat k - Z.of_nat k)) with 0%nat in Hl by lia. cbn in Hl; congruence.
        * right. split; [lia |].
          by replace (Z.to_nat (i - Z.of_nat k)) with (S (Z.to_nat (i - Z.of_nat (S k)))) in Hl by lia. }
  rewrite (H 0%nat). cbn. by rewrite Z.sub_0_r.
Qed.

(** ** Byte strings *)

Definition bytes_of_string (s : string) : list Z :=
  map (fun c => Z.of_nat (Ascii.nat_of_ascii c)) (String.list_ascii_of_string s).

(** [x.to_le_bytes()] of an [n]-byte integer, and its inverse. *)
Fixpoint le_bytes (n : nat) (v : Z) : list Z :=
  match n with
  | O => []
  | S n => v mod 256 :: le_bytes n (v / 256)
  end.

Fixpoint le_val (bs : list Z) : Z :=
  match bs with
  | [] => 0
  | b :: bs => b + 256 * le_val bs
  end.

Lemma length_le_bytes n v : length (le_bytes n v) = n.
Proof. revert v. induction n as [|n IH]; intros v; simpl; [done | by rewrite IH]. Qed.

Lemma zlen_le_bytes n v : zlen (le_bytes n v) = Z.of_nat n.
Proof. unfold zlen. by rewrite length_le_bytes. Qed.

Lemma le_bytes_u8 n v : Forall u8 (le_bytes n v).
Proof.
  revert v. induction n as [|n IH]; intros v; simpl; constructor; [| done].
  pose proof (Z.mod_pos_bound v 256). range_lia.
Qed.

Lemma le_val_bytes n v : le_val (le_bytes n v) = v mod 2 ^ (8 * Z.of_nat n).
Proof.
  revert v. induction n as [|n IH]; intros v; simpl.
  - by rewrite Z.mod_1_r.
  - rewrite IH.
    replace (8 * Z.of_nat (S n)) with (8 + 8 * Z.of_nat n) by lia.
    rewrite Z.pow_add_r by lia. change (2 ^ 8) with 256.
    rewrite Z.rem_mul_r by lia. done.
Qed.

Lemma le_bytes_val bs : Forall u8 bs -> le_bytes (length bs) (le_val bs) = bs.
Proof.
  induction 1 as [|b bs Hb Hbs IH]; simpl; [done |].
  unfold u8 in Hb.
  replace ((b + 256 * le_val bs) mod 256) with b
    by (rewrite Z.mul_comm, Z.mod_add by lia; symmetry; apply Z.mod_small; lia).
  replace ((b + 256 * le_val bs) / 256) with (le_val bs)
    by (rewrite Z.mul_comm, Z.div_add by lia; rewrite Z.div_small; lia).
  by rewrite IH.
Qed.

Lemma le_val_range bs : Forall u8 bs -> 0 <= le_val bs < 2 ^ (8 * zlen bs).
Proof.
  induction 1 as [|b bs Hb Hbs IH]; simpl; [done |].
  rewrite zlen_cons, Z.mul_add_distr_l, Z.pow_add_r; [| lia | pose proof (zlen_nonneg bs); lia].
  change (2 ^ (8 * 1)) with 256. unfold u8 in Hb. lia.
Qed.

(** A run that always returns. *)
Definition returns {S E A} (m : ST S E A) : Prop := keeps (fun _ => True) m.

Lemma returns_bind {S E A B} (m : ST S E A) (f : A -> ST S E B) : returns m -> (forall a, returns (f a)) -> returns (m ≫= f).
Proof. apply keeps_bind. Qed.

Lemma spec_returns {S E A} (m : ST S E A) R :
  (forall s, spec m s (fun _ _ => True) (fun e _ => R e)) -> returns m.
Proof. intros Hm s _. by eapply spec_weaken. Qed.

Lemma spec_lift {S E A} (r : res E A) s (Q : A -> S -> Prop) R :
  total r -> (forall a, r = Ok a -> Q a s) -> (forall e, r = Err e -> R e s) -> spec (lift r) s Q R.
Proof. intros Ht HQ HR. unfold spec, lift. destruct r as [a | e | k]; [by apply HQ | by apply HR | by destruct (Ht k)]. Qed.

Lemma keeps_lift {S E A} (I : S -> Prop) (r : res E A) : total r -> keeps I (lift r).
Proof. intros Ht s Hs. by apply spec_lift. Qed.

(** ** Records

    [r.field = v]: a record type gives its expansion ([Eta]: the constructor applied
    to the fields), and [set_field proj] is the record with one field replaced. *)
Class Eta (R : Type) := eta : R -> R.

Ltac set_field proj :=
  let r := fresh "r" in
  let v := fresh "v" in
  intros r v;
  let whole := constr:(eta r) in
  let whole := eval cbv beta delta [eta] in whole in
  let whole := lazymatch whole with ?f ?x => let f := eval red in f in eval cbv beta in (f x) end in
  lazymatch eval pattern (proj r) in whole with
  | ?f _ => let updated := eval cbv beta in (f v) in exact updated
  end.

(** [for _ in 0..n { body }] for a machine integer [n], the body breaking with [inr]. *)
Fixpoint loop_pos {S E X B} (body : X -> ST S E (X + B)) (n : positive) (x : X) : ST S E (X + B) :=
  match n with
  | xH => body x
  | xO n => r ← loop_pos body n x; match r with inl x => loop_pos body n x | inr b => mret (inr b) end
  | xI n =>
      r ← loop_pos body n x;
      match r with
      | inl x => r ← loop_pos body n x; match r with inl x => body x | inr b => mret (inr b) end
      | inr b => mret (inr b)
      end
  end.

Definition loop_times {S E X B} (body : X -> ST S E (X + B)) (n : Z) (x : X) : ST S E (X + B) :=
  match n with Zpos p => loop_pos body p x | _ => mret (inl x) end.

(** An invariant of the loop; [loop_pos] makes at least one round. *)
Lemma spec_loop_pos {S E X B} (body : X -> ST S E (X + B)) (I J : X -> S -> Prop) (Q : B -> S -> Prop) R n x s :
  (forall x s, I x s -> spec (body x) s (fun r s' => match r with inl x' => J x' s' | inr b => Q b s' end) R) ->
  (forall x s, J x s -> I x s) -> I x s ->
  spec (loop_pos body n x) s (fun r s' => match r with inl x' => J x' s' | inr b => Q b s' end) R.
Proof.
  intros Hbody HJ. revert x s.
  assert (forall m : X -> ST S E (X + B),
    (forall x s, I x s -> spec (m x) s (fun r s' => match r with inl x' => J x' s' | inr b => Q b s' end) R) ->
    forall (k : ST S E (X + B)) s, spec k s (fun r s' => match r with inl x' => J x' s' | inr b => Q b s' end) R ->
    spec (r ← k; match r with inl x => m x | inr b => mret (inr b) end) s
      (fun r s' => match r with inl x' => J x' s' | inr b => Q b s' end) R) as Hseq.
  { intros m Hm k s Hk. eapply spec_seq; [exact Hk | | done].
    intros [x' | b] s' H; [by apply Hm, HJ | exact H]. }
  induction n as [n IH | n IH |]; intros x s HI; cbn [loop_pos]; [| | by apply Hbody].
  - eapply spec_seq; [by apply IH | | done]. intros [x' | b] s' H; [| exact H].
    apply Hseq; [exact Hbody |]. by apply IH, HJ.
  - apply Hseq; [exact IH | by apply IH].
Qed.

(** Splitting a boolean conjunction or disjunction in a hypothesis. *)
Ltac bool_hyps :=
  repeat match goal with
    | H : _ && _ = true |- _ => apply andb_prop in H; destruct H
    | H : _ || _ = false |- _ => apply orb_false_elim in H; destruct H
    | H : negb _ = true |- _ => apply negb_true_iff in H
    | H : negb _ = false |- _ => apply negb_false_iff in H
    end.

Create HintDb rivet.
Create Rewrite HintDb zlen.
#[export] Hint Resolve wrap_i64_range wrap_u64_range zlen_nonneg le_bytes_u8 : rivet.
#[export] Hint Rewrite @zlen_app @zlen_cons @zlen_nil zlen_le_bytes : zlen.
#[export] Hint Resolve keeps_ret keeps_fail keeps_get : rivet.
