(* ===== verification/Float.v ===== *)
(** IEEE 754 binary64 as the source's [f64] uses it: the Standard Library's
    axiom-free [spec_float] with 53 bits of precision, the [std] methods the
    crates call ([trunc], [floor], [ceil], [fract], casts, comparisons), and
    their exact meaning on the integer multiples of 2^-1074 that finite floats
    are. NaN sign and payload are not modelled. *)

From Stdlib Require Import ZArith Lia SpecFloat.
From stdpp Require Import base list numbers.
From S2P Require Import Prelude.

Local Open Scope Z_scope.

Definition f64 : Type := spec_float.

Definition prec : Z := 53.
Definition emax : Z := 1024.

#[export] Instance f64_eq_dec : EqDecision f64.
Proof. intros x y. unfold Decision. repeat decide equality. Defined.

(** Arithmetic, rounded to nearest, ties to even. *)
Definition f64_add : f64 -> f64 -> f64 := SFadd prec emax.
Definition f64_sub : f64 -> f64 -> f64 := SFsub prec emax.
Definition f64_mul : f64 -> f64 -> f64 := SFmul prec emax.
Definition f64_div : f64 -> f64 -> f64 := SFdiv prec emax.
Definition f64_neg : f64 -> f64 := SFopp.

(** [partial_cmp], [==], [<], [<=], [>=]. *)
Definition f64_partial_cmp : f64 -> f64 -> option comparison := SFcompare.
Definition f64_eqb : f64 -> f64 -> bool := SFeqb.
Definition f64_ltb : f64 -> f64 -> bool := SFltb.
Definition f64_geb (x y : f64) : bool := SFleb y x.

Definition f64_is_nan (x : f64) : bool :=
  match x with S754_nan => true | _ => false end.
Definition f64_is_finite (x : f64) : bool :=
  match x with S754_zero _ | S754_finite _ _ _ => true | _ => false end.

Definition f64_infinity : f64 := S754_infinity false.
Definition f64_neg_infinity : f64 := S754_infinity true.
Definition f64_zero : f64 := S754_zero false.

(** [n as f64]: rounded to nearest, ties to even. *)
Definition i64_as_f64 (n : Z) : f64 := binary_normalize prec emax n 0 false.

(** [i64::MIN as f64] and the literal [9_223_372_036_854_775_808.0]. *)
Definition f64_i64_min : f64 := S754_finite true 4503599627370496 11.
Definition f64_two63 : f64 := S754_finite false 4503599627370496 11.

(** The float of the integer [q], for [0 <= q < 2^53]: no rounding. *)
Definition f64_of_small (s : bool) (q : Z) : f64 :=
  match q with
  | Zpos p =>
      let d := Zpos (digits2_pos p) in
      S754_finite s (Z.to_pos (Z.shiftl q (53 - d))) (d - 53)
  | _ => S754_zero s
  end.

(** The magnitude's integer part. *)
Definition int_part (m : positive) (e : Z) : Z :=
  if 0 <=? e then Z.shiftl (Zpos m) e else Z.shiftr (Zpos m) (- e).

Definition f64_trunc (x : f64) : f64 :=
  match x with
  | S754_finite s m e => if 0 <=? e then x else f64_of_small s (int_part m e)
  | _ => x
  end.

(** Whether the float has a fractional part. *)
Definition inexact_int (m : positive) (e : Z) : bool :=
  if 0 <=? e then false else negb (Z.shiftl (int_part m e) (- e) =? Zpos m).

Definition f64_floor (x : f64) : f64 :=
  match x with
  | S754_finite s m e =>
      if 0 <=? e then x
      else f64_of_small s (int_part m e + (if s && inexact_int m e then 1 else 0))
  | _ => x
  end.

Definition f64_ceil (x : f64) : f64 :=
  match x with
  | S754_finite s m e =>
      if 0 <=? e then x
      else f64_of_small s (int_part m e + (if negb s && inexact_int m e then 1 else 0))
  | _ => x
  end.

(** [x - x.trunc()]; the difference is representable, so it is given exactly. *)
Definition f64_fract (x : f64) : f64 :=
  match x with
  | S754_finite s m e =>
      if 0 <=? e then S754_zero false
      else
        match Zpos m - Z.shiftl (int_part m e) (- e) with
        | Zpos p =>
            let e' := Z.max (Zpos (digits2_pos p) + e - 53) (-1074) in
            S754_finite s (Z.to_pos (Z.shiftl (Zpos p) (e - e'))) e'
        | _ => S754_zero false
        end
  | S754_zero _ => S754_zero false
  | S754_infinity _ | S754_nan => S754_nan
  end.

(** [x as i64]: truncation that saturates; NaN gives 0. *)
Definition f64_as_i64 (x : f64) : Z :=
  match x with
  | S754_nan => 0
  | S754_zero _ => 0
  | S754_infinity s => if s then I64_MIN else I64_MAX
  | S754_finite s m e =>
      Z.max I64_MIN (Z.min I64_MAX (cond_Zopp s (int_part m e)))
  end.

(** A float produced by the hardware: canonical mantissa, exponent in range. *)
Definition valid (x : f64) : Prop := valid_binary prec emax x = true.

(** ** Exact values *)

(** 2^1074: the integer 1 in units of the least subnormal. *)
Definition ONE : Z := 2 ^ 1074.

(** A finite float's exact value in those units. *)
Definition scaled (x : f64) : Z :=
  match x with
  | S754_finite s m e => cond_Zopp s (Zpos m) * 2 ^ (e + 1074)
  | _ => 0
  end.

#[global] Opaque ONE.

Lemma ONE_pos : 0 < ONE.
Proof. Transparent ONE. unfold ONE. apply Z.pow_pos_nonneg; lia. Qed.

Lemma ONE_eq : ONE = 2 ^ 1074.
Proof. done. Qed.
#[global] Opaque ONE.

Lemma digits2_pos_bounds p :
  2 ^ (Zpos (digits2_pos p) - 1) <= Zpos p < 2 ^ Zpos (digits2_pos p).
Proof.
  induction p as [p IH | p IH |]; simpl digits2_pos; [| | done].
  all: rewrite Pos2Z.inj_succ.
  all: replace (Z.succ (Zpos (digits2_pos p)) - 1) with (Z.succ (Zpos (digits2_pos p) - 1)) by lia.
  all: rewrite !Z.pow_succ_r by lia.
  all: lia.
Qed.

(** The shape of a valid finite float: either a full 53-bit mantissa or the
    least exponent. *)
Lemma valid_finite s m e :
  valid (S754_finite s m e) ->
  -1074 <= e <= 971 /\ Zpos m < 2 ^ 53 /\ (e = -1074 \/ 2 ^ 52 <= Zpos m).
Proof.
  unfold valid. simpl. unfold bounded, canonical_mantissa, fexp, SpecFloat.emin, prec, emax.
  intros H. bool_hyps. pose proof (digits2_pos_bounds m) as [Hlo Hhi].
  set (d := Zpos (digits2_pos m)) in *.
  assert (d <= 53) by lia.
  split; [lia |]. split.
  - eapply Z.lt_le_trans; [exact Hhi |]. apply Z.pow_le_mono_r; lia.
  - destruct (decide (e = -1074)); [by left | right].
    assert (d = 53) as Hd by lia. rewrite Hd in Hlo. exact Hlo.
Qed.

Lemma cmp_finite_pos m1 e1 m2 e2 :
  valid (S754_finite false m1 e1) -> valid (S754_finite false m2 e2) ->
  (Zpos m1 * 2 ^ (e1 + 1074) ?= Zpos m2 * 2 ^ (e2 + 1074)) =
  match Z.compare e1 e2 with
  | Lt => Lt
  | Gt => Gt
  | Eq => Pos.compare_cont Eq m1 m2
  end.
Proof.
  intros [H1 [H1b H1c]]%valid_finite [H2 [H2b H2c]]%valid_finite.
  assert (forall ma ea mb eb, ea < eb -> -1074 <= ea -> 0 < ma < 2 ^ 53 -> 2 ^ 52 <= mb ->
    ma * 2 ^ (ea + 1074) < mb * 2 ^ (eb + 1074)) as Hlt.
  { intros ma ea mb eb Hab Ha Hma Hmb.
    assert (2 ^ (ea + 1074 + 1) <= 2 ^ (eb + 1074)) by (apply Z.pow_le_mono_r; lia).
    rewrite Z.pow_add_r in * by lia. change (2 ^ 1) with 2 in *.
    change (2 ^ 53) with (2 * 2 ^ 52) in *.
    assert (0 < 2 ^ (ea + 1074)) by (apply Z.pow_pos_nonneg; lia).
    assert (0 < 2 ^ 52) by done.
    nia. }
  destruct (Z.compare_spec e1 e2) as [-> | Hlt12 | Hgt12].
  - change (Pos.compare_cont Eq m1 m2) with (Zpos m1 ?= Zpos m2).
    symmetry. apply Zmult_compare_compat_r.
    apply Z.lt_gt, Z.pow_pos_nonneg; lia.
  - apply Z.compare_lt_iff. apply Hlt; lia.
  - apply Z.compare_gt_iff. apply Hlt; lia.
Qed.

Lemma valid_sign s s' m e : valid (S754_finite s m e) -> valid (S754_finite s' m e).
Proof. done. Qed.

Lemma Zcompare_opp a b : (- a ?= - b) = CompOpp (a ?= b).
Proof. rewrite Z.compare_opp. apply Z.compare_antisym. Qed.

Lemma scaled_pos_finite m e : -1074 <= e -> 0 < Zpos m * 2 ^ (e + 1074).
Proof. intros H. apply Z.mul_pos_pos; [lia |]. apply Z.pow_pos_nonneg; lia. Qed.

(** Comparison of finite floats is comparison of their exact values. *)
Lemma f64_partial_cmp_scaled x y :
  valid x -> valid y -> f64_is_finite x = true -> f64_is_finite y = true ->
  f64_partial_cmp x y = Some (scaled x ?= scaled y).
Proof.
  intros Hx Hy Fx Fy. unfold f64_partial_cmp.
  destruct x as [sx | | | sx mx ex]; try discriminate;
    destruct y as [sy | | | sy my ey]; try discriminate; cbn [SFcompare scaled].
  - done.
  - apply valid_finite in Hy as [Hy _]. pose proof (scaled_pos_finite my ey).
    destruct sy; cbn [cond_Zopp]; f_equal; symmetry;
      [apply Z.compare_gt_iff | apply Z.compare_lt_iff]; nia.
  - apply valid_finite in Hx as [Hx _]. pose proof (scaled_pos_finite mx ex).
    destruct sx; cbn [cond_Zopp]; f_equal; symmetry;
      [apply Z.compare_lt_iff | apply Z.compare_gt_iff]; nia.
  - pose proof (valid_finite _ _ _ Hx) as [Hex _]. pose proof (valid_finite _ _ _ Hy) as [Hey _].
    pose proof (cmp_finite_pos mx ex my ey Hx Hy) as Hc.
    pose proof (scaled_pos_finite mx ex). pose proof (scaled_pos_finite my ey).
    f_equal. destruct sx, sy; cbn [cond_Zopp].
    + rewrite !Zopp_mult_distr_l_reverse, Zcompare_opp, Hc. by destruct (ex ?= ey).
    + symmetry. apply Z.compare_lt_iff. nia.
    + symmetry. apply Z.compare_gt_iff. nia.
    + by rewrite Hc.
Qed.

(** ** Casts and rounding methods, exactly *)

Lemma f64_of_small_spec s q :
  0 <= q < 2 ^ 53 ->
  scaled (f64_of_small s q) = cond_Zopp s q * ONE /\
  valid (f64_of_small s q) /\ f64_is_finite (f64_of_small s q) = true.
Proof.
  intros Hq. destruct q as [| p |]; [by destruct s | | lia].
  unfold f64_of_small. pose proof (digits2_pos_bounds p) as [Hlo Hhi].
  assert (0 < Zpos (digits2_pos p)) as Hd0 by lia.
  set (d := Zpos (digits2_pos p)) in *.
  assert (d <= 53) as Hd.
  { destruct (decide (d <= 53)); [done |].
    assert (2 ^ 53 <= 2 ^ (d - 1)) by (apply Z.pow_le_mono_r; lia). lia. }
  assert (Z.shiftl (Zpos p) (53 - d) = Zpos p * 2 ^ (53 - d)) as Hs by (apply Z.shiftl_mul_pow2; lia).
  assert (0 < Zpos p * 2 ^ (53 - d)) by (apply Z.mul_pos_pos; [lia | apply Z.pow_pos_nonneg; lia]).
  assert (Zpos (Z.to_pos (Z.shiftl (Zpos p) (53 - d))) = Zpos p * 2 ^ (53 - d)) as Hm
    by (rewrite Z2Pos.id; lia).
  split; [| split; [| done]].
  - cbn [scaled]. rewrite Hm, ONE_eq.
    replace (d - 53 + 1074) with (1074 - (53 - d)) by lia.
    assert (2 ^ 1074 = 2 ^ (53 - d) * 2 ^ (1074 - (53 - d))) as -> by (rewrite <- Z.pow_add_r by lia; f_equal; lia).
    destruct s; cbn [cond_Zopp]; ring.
  - unfold valid. cbn [valid_binary]. unfold bounded, canonical_mantissa, fexp, SpecFloat.emin, prec, emax.
    pose proof (digits2_pos_bounds (Z.to_pos (Z.shiftl (Zpos p) (53 - d)))) as [Hlo' Hhi'].
    rewrite Hm in Hlo', Hhi'.
    assert (0 < Zpos (digits2_pos (Z.to_pos (Z.shiftl (Zpos p) (53 - d))))) as Hd0' by lia.
    set (d' := Zpos (digits2_pos (Z.to_pos _))) in *. clearbody d'.
    assert (2 ^ 52 <= Zpos p * 2 ^ (53 - d) < 2 ^ 53) as [Hb1 Hb2].
    { replace (2 ^ 52) with (2 ^ (d - 1) * 2 ^ (53 - d)) by (rewrite <- Z.pow_add_r by lia; f_equal; lia).
      replace (2 ^ 53) with (2 ^ d * 2 ^ (53 - d)) by (rewrite <- Z.pow_add_r by lia; f_equal; lia).
      assert (0 < 2 ^ (53 - d)) by (apply Z.pow_pos_nonneg; lia). nia. }
    assert (d' = 53) as ->.
    { assert (d' - 1 < 53); [| assert (52 < d'); [| lia]].
      - apply (Z.pow_lt_mono_r_iff 2 _ 53); [lia | lia |]. eapply Z.le_lt_trans; eassumption.
      - apply (Z.pow_lt_mono_r_iff 2 52); [lia | lia |]. eapply Z.le_lt_trans; eassumption. }
    apply andb_true_intro. split; lia.
Qed.

Lemma int_part_spec m e :
  -1074 <= e -> int_part m e = Zpos m * 2 ^ (e + 1074) / ONE.
Proof.
  intros He. unfold int_part. pose proof ONE_pos as Hone. rewrite ONE_eq in *.
  destruct (Z.leb_spec 0 e).
  - rewrite Z.shiftl_mul_pow2, Z.pow_add_r, Z.mul_assoc by lia.
    by rewrite Z.div_mul by (apply Z.pow_nonzero; lia).
  - rewrite Z.shiftr_div_pow2 by lia.
    replace (2 ^ 1074) with (2 ^ (- e) * 2 ^ (e + 1074)) by (rewrite <- Z.pow_add_r by lia; f_equal; lia).
    rewrite Z.div_mul_cancel_r; [done | |]; apply Z.pow_nonzero; lia.
Qed.

Lemma inexact_int_spec m e :
  -1074 <= e -> inexact_int m e = negb (Zpos m * 2 ^ (e + 1074) mod ONE =? 0).
Proof.
  intros He. unfold inexact_int. pose proof (int_part_spec m e He) as Hi.
  unfold int_part in *. rewrite ONE_eq in *. destruct (Z.leb_spec 0 e).
  - rewrite Z.pow_add_r, Z.mul_assoc by lia.
    by rewrite Z.mod_mul by (apply Z.pow_nonzero; lia).
  - f_equal. rewrite Z.shiftl_mul_pow2 by lia. rewrite Z.shiftr_div_pow2 by lia.
    replace (2 ^ 1074) with (2 ^ (- e) * 2 ^ (e + 1074)) by (rewrite <- Z.pow_add_r by lia; f_equal; lia).
    assert (0 < 2 ^ (- e)) by (apply Z.pow_pos_nonneg; lia).
    assert (0 < 2 ^ (e + 1074)) by (apply Z.pow_pos_nonneg; lia).
    rewrite Z.mul_mod_distr_r by lia.
    pose proof (Z.div_mod (Zpos m) (2 ^ (- e))).
    apply eq_bool_prop_intro. rewrite !Is_true_true, !Z.eqb_eq. nia.
Qed.

(** The integer part of a fraction is small enough to be exact. *)
Lemma int_part_small s m e :
  valid (S754_finite s m e) -> e < 0 -> 0 <= int_part m e < 2 ^ 52.
Proof.
  intros [He [Hm _]]%valid_finite Hneg. unfold int_part.
  replace (0 <=? e) with false by lia.
  rewrite Z.shiftr_div_pow2 by lia.
  assert (2 ^ 1 <= 2 ^ (- e)) by (apply Z.pow_le_mono_r; lia).
  change (2 ^ 1) with 2 in *. change (2 ^ 53) with (2 * 2 ^ 52) in Hm.
  split; [apply Z.div_pos; lia |]. apply Z.div_lt_upper_bound; nia.
Qed.

Lemma scaled_integral s m e :
  0 <= e -> scaled (S754_finite s m e) = cond_Zopp s (Zpos m * 2 ^ e) * ONE.
Proof.
  intros He. cbn [scaled]. rewrite ONE_eq, Z.pow_add_r by lia.
  destruct s; cbn [cond_Zopp]; ring.
Qed.

Lemma f64_trunc_spec x :
  valid x -> f64_is_finite x = true ->
  scaled (f64_trunc x) = Z.quot (scaled x) ONE * ONE /\
  valid (f64_trunc x) /\ f64_is_finite (f64_trunc x) = true.
Proof.
  intros Hv Hf. pose proof ONE_pos as Hone.
  destruct x as [s | | | s m e]; try discriminate; [done |].
  pose proof (valid_finite _ _ _ Hv) as [He _].
  cbn [f64_trunc]. destruct (Z.leb_spec 0 e).
  - split; [| done]. rewrite scaled_integral by lia. rewrite Z.quot_mul by lia. done.
  - pose proof (int_part_small _ _ _ Hv ltac:(lia)) as Hi.
    destruct (f64_of_small_spec s (int_part m e)) as (Hs & Hv' & Hf');
      [change (2 ^ 53) with (2 * 2 ^ 52); lia |].
    split; [| done]. rewrite Hs. f_equal.
    rewrite int_part_spec by lia. cbn [scaled].
    pose proof (scaled_pos_finite m e ltac:(lia)).
    destruct s; cbn [cond_Zopp].
    + rewrite Z.mul_opp_l, Z.quot_opp_l by lia. by rewrite Z.quot_div_nonneg by lia.
    + by rewrite Z.quot_div_nonneg by lia.
Qed.

Lemma f64_floor_spec x :
  valid x -> f64_is_finite x = true ->
  scaled (f64_floor x) = (scaled x / ONE) * ONE /\
  valid (f64_floor x) /\ f64_is_finite (f64_floor x) = true.
Proof.
  intros Hv Hf. pose proof ONE_pos as Hone.
  destruct x as [s | | | s m e]; try discriminate; [by rewrite Z.div_0_l by lia |].
  pose proof (valid_finite _ _ _ Hv) as [He _].
  cbn [f64_floor]. destruct (Z.leb_spec 0 e).
  - split; [| done]. rewrite scaled_integral by lia. by rewrite Z.div_mul by lia.
  - pose proof (int_part_small _ _ _ Hv ltac:(lia)) as Hi.
    destruct (f64_of_small_spec s (int_part m e + (if s && inexact_int m e then 1 else 0)))
      as (Hs & Hv' & Hf');
      [change (2 ^ 53) with (2 * 2 ^ 52); destruct (s && inexact_int m e); lia |].
    split; [| done]. rewrite Hs. f_equal.
    rewrite inexact_int_spec, int_part_spec by lia. cbn [scaled].
    set (v := Zpos m * 2 ^ (e + 1074)).
    destruct s; cbn [cond_Zopp andb]; [| fold v; ring].
    rewrite Z.mul_opp_l. fold v.
    destruct (Z.eqb_spec (v mod ONE) 0) as [Hz | Hz]; cbn [negb].
    + rewrite Z.div_opp_l_z by lia. ring.
    + rewrite Z.div_opp_l_nz by lia. ring.
Qed.

Lemma f64_ceil_spec x :
  valid x -> f64_is_finite x = true ->
  scaled (f64_ceil x) = - ((- scaled x) / ONE) * ONE /\
  valid (f64_ceil x) /\ f64_is_finite (f64_ceil x) = true.
Proof.
  intros Hv Hf. pose proof ONE_pos as Hone.
  destruct x as [s | | | s m e]; try discriminate.
  { cbn [f64_ceil scaled]. by rewrite Z.div_0_l by lia. }
  pose proof (valid_finite _ _ _ Hv) as [He _].
  cbn [f64_ceil]. destruct (Z.leb_spec 0 e).
  - split; [| done]. rewrite scaled_integral by lia.
    rewrite <- Z.mul_opp_l, Z.div_mul by lia. lia.
  - pose proof (int_part_small _ _ _ Hv ltac:(lia)) as Hi.
    destruct (f64_of_small_spec s (int_part m e + (if negb s && inexact_int m e then 1 else 0)))
      as (Hs & Hv' & Hf');
      [change (2 ^ 53) with (2 * 2 ^ 52); destruct (negb s && inexact_int m e); lia |].
    split; [| done]. rewrite Hs. f_equal.
    rewrite inexact_int_spec, int_part_spec by lia. cbn [scaled].
    set (v := Zpos m * 2 ^ (e + 1074)).
    destruct s; cbn [cond_Zopp andb negb].
    + rewrite Z.mul_opp_l. fold v. rewrite Z.opp_involutive. ring.
    + fold v. destruct (Z.eqb_spec (v mod ONE) 0) as [Hz | Hz]; cbn [negb].
      * rewrite Z.div_opp_l_z by lia. ring.
      * rewrite Z.div_opp_l_nz by lia. ring.
Qed.

(** [as i64] of a float holding an in-range integer. *)
Lemma f64_as_i64_exact x n :
  valid x -> f64_is_finite x = true -> scaled x = n * ONE -> i64 n -> f64_as_i64 x = n.
Proof.
  intros Hv Hf Hs Hn. pose proof ONE_pos as Hone.
  destruct x as [s | | | s m e]; try discriminate.
  - cbn [scaled f64_as_i64] in *. nia.
  - pose proof (valid_finite _ _ _ Hv) as [He _].
    cbn [scaled f64_as_i64] in *. rewrite int_part_spec by lia.
    assert (cond_Zopp s (Zpos m * 2 ^ (e + 1074) / ONE) = n) as ->; [| range_lia].
    destruct s; cbn [cond_Zopp] in *.
    + assert (Zpos m * 2 ^ (e + 1074) = - n * ONE) as -> by lia.
      rewrite Z.div_mul by lia. lia.
    + rewrite Hs. by apply Z.div_mul; lia.
Qed.

Lemma scaled_i64_min : scaled f64_i64_min = I64_MIN * ONE.
Proof. rewrite ONE_eq. unfold f64_i64_min, I64_MIN. cbn [scaled cond_Zopp]. vm_compute. done. Qed.

Lemma scaled_two63 : scaled f64_two63 = (I64_MAX + 1) * ONE.
Proof. rewrite ONE_eq. unfold f64_two63, I64_MAX. cbn [scaled cond_Zopp]. vm_compute. done. Qed.

Lemma f64_ltb_scaled x y :
  valid x -> valid y -> f64_is_finite x = true -> f64_is_finite y = true ->
  f64_ltb x y = (scaled x <? scaled y).
Proof.
  intros. unfold f64_ltb, SFltb. change (SFcompare x y) with (f64_partial_cmp x y).
  rewrite f64_partial_cmp_scaled by done. by unfold Z.ltb; destruct (scaled x ?= scaled y).
Qed.

Lemma f64_geb_scaled x y :
  valid x -> valid y -> f64_is_finite x = true -> f64_is_finite y = true ->
  f64_geb x y = (scaled y <=? scaled x).
Proof.
  intros. unfold f64_geb, SFleb. change (SFcompare y x) with (f64_partial_cmp y x).
  rewrite f64_partial_cmp_scaled by done. by unfold Z.leb; destruct (scaled y ?= scaled x).
Qed.

Lemma valid_i64_min : valid f64_i64_min /\ valid f64_two63.
Proof. split; vm_compute; done. Qed.

(** [x.fract() == 0.0] holds exactly when [x] is an integer. *)
Lemma f64_fract_zero x :
  valid x -> f64_is_finite x = true ->
  f64_eqb (f64_fract x) f64_zero = (scaled x mod ONE =? 0).
Proof.
  intros Hv Hf. pose proof ONE_pos as Hone.
  destruct x as [s | | | s m e]; try discriminate; [by rewrite Z.mod_0_l by lia |].
  pose proof (valid_finite _ _ _ Hv) as [He _].
  assert ((scaled (S754_finite s m e) mod ONE =? 0) = negb (inexact_int m e)) as ->.
  { rewrite inexact_int_spec by lia. cbn [scaled]. rewrite negb_involutive.
    destruct s; cbn [cond_Zopp]; [| done].
    rewrite Z.mul_opp_l. set (v := Zpos m * 2 ^ (e + 1074)).
    apply eq_bool_prop_intro. rewrite !Is_true_true, !Z.eqb_eq.
    split; intros Hz; [| by apply Z.mod_opp_l_z; lia].
    rewrite <- (Z.opp_involutive v). by apply Z.mod_opp_l_z; lia. }
  unfold inexact_int. cbn [f64_fract]. pose proof (int_part_spec m e ltac:(lia)) as Hi.
  destruct (Z.leb_spec 0 e); [done |].
  assert (Z.shiftl (int_part m e) (- e) <= Zpos m) as Hle.
  { unfold int_part. replace (0 <=? e) with false by lia.
    rewrite Z.shiftl_mul_pow2, Z.shiftr_div_pow2 by lia.
    rewrite Z.mul_comm. apply Z.mul_div_le. apply Z.pow_pos_nonneg; lia. }
  destruct (Zpos m - Z.shiftl (int_part m e) (- e)) eqn:Hd; [| | lia].
  - replace (Z.shiftl (int_part m e) (- e) =? Zpos m) with true by lia. done.
  - replace (Z.shiftl (int_part m e) (- e) =? Zpos m) with false by lia.
    by destruct s.
Qed.
