(* ===== verification/Number.v ===== *)
(** The value and number core (crates/rivetlua-core: value.rs, number.rs,
    error.rs, limits.rs, profile.rs): value classification and identities, the
    two number subtypes, and the one set of arithmetic, comparison and bit
    operations every other crate calls. *)

From Stdlib Require Import ZArith Lia SpecFloat.
From stdpp Require Import base list numbers.
From S2P Require Import Prelude Float.

Local Open Scope Z_scope.

(** ** Identities (value.rs) *)

(** [next_unique_id]: the counter's old value, or nothing once it is full. The
    counter is returned as [fetch_update] leaves it. *)
Definition next_unique_id (counter : Z) : option Z * Z :=
  match (if counter + 1 <=? U64_MAX then Some (counter + 1) else None) with
  | Some next => ((if counter =? 0 then None else Some counter), next)
  | None => (None, counter)
  end.

Record VmId := { vm_number : Z }.
Record HostFunctionId := { hf_vm : VmId; hf_token : Z }.
Record SlotId := { slot_index : Z }.
Record Generation := { generation_value : Z }.

(** [Generation::next]. *)
Definition generation_next (g : Generation) : option Generation :=
  if generation_value g + 1 <=? U64_MAX
  then Some {| generation_value := generation_value g + 1 |} else None.

Record ObjectId := { oid_vm : VmId; oid_slot : SlotId; oid_generation : Generation }.

Inductive ObjectRef :=
  | Opaque_ref (id : Z)
  | Heap_ref (id : ObjectId) (token : option Z).

(** [ObjectRef::identity], [ObjectRef::runtime_token]. *)
Definition identity (r : ObjectRef) : option ObjectId :=
  match r with Opaque_ref _ => None | Heap_ref id _ => Some id end.
Definition runtime_token (r : ObjectRef) : option Z :=
  match r with Heap_ref _ token => token | Opaque_ref _ => None end.

(** [ObjectRef::new_runtime], with the token counter it takes from. *)
Definition new_runtime (id : ObjectId) (counter : Z) : option ObjectRef * Z :=
  match next_unique_id counter with
  | (Some token, counter') => (Some (Heap_ref id (Some token)), counter')
  | (None, counter') => (None, counter')
  end.

(** ** Values (value.rs) *)

Inductive Value :=
  | VNil
  | VBoolean (b : bool)
  | VInteger (n : Z)
  | VFloat (x : f64)
  | VLightUserdata (address : Z)
  | VCFunction (f : HostFunctionId)
  | VObject (r : ObjectRef).

Inductive ValueKind :=
  | KNil | KBoolean | KInteger | KFloat | KLightUserdata | KCFunction | KObject.

Definition value_kind (v : Value) : ValueKind :=
  match v with
  | VNil => KNil
  | VBoolean _ => KBoolean
  | VInteger _ => KInteger
  | VFloat _ => KFloat
  | VLightUserdata _ => KLightUserdata
  | VCFunction _ => KCFunction
  | VObject _ => KObject
  end.

Definition is_truthy (v : Value) : bool :=
  match v with VNil | VBoolean false => false | _ => true end.

Definition select_and (left right : Value) : Value := if is_truthy left then right else left.
Definition select_or (left right : Value) : Value := if is_truthy left then left else right.

(** ** Errors (error.rs) *)

Inductive Operation :=
  | OpFloorDivide | OpModulo | OpBitAnd | OpBitOr | OpBitXor | OpBitNot
  | OpShiftLeft | OpShiftRight | OpConvertToInteger | OpConvertToNumber.

Inductive CoreErrorKind :=
  | IntegerDivideByZero | IntegerModuloByZero | NotInteger | NotNumeric.

Record CoreError := core_error {
  ce_operation : Operation;
  ce_operand : ValueKind;
  ce_kind : CoreErrorKind
}.

(** ** Profiles (bytecode/mod.rs, profile.rs) *)

Inductive LuaProfile := Lua55 | Lua54.
#[export] Instance LuaProfile_eq_dec : EqDecision LuaProfile.
Proof. solve_decision. Defined.

Record ProfileRules := {
  global_declarations : bool;
  named_vararg_rule : bool;
  readonly_for_control : bool;
  table_create : bool
}.

Definition rules (p : LuaProfile) : ProfileRules :=
  match p with
  | Lua55 => {| global_declarations := true; named_vararg_rule := true;
                readonly_for_control := true; table_create := true |}
  | Lua54 => {| global_declarations := false; named_vararg_rule := false;
                readonly_for_control := false; table_create := false |}
  end.

(** ** Numbers (number.rs) *)

Inductive Number := Integer (n : Z) | Float (x : f64).

#[export] Instance Number_eq_dec : EqDecision Number.
Proof. solve_decision. Defined.

(** A number as the machine holds it. *)
Definition number_ok (n : Number) : Prop :=
  match n with Integer n => i64 n | Float x => valid x end.

Definition as_float (n : Number) : f64 :=
  match n with Integer n => i64_as_f64 n | Float x => x end.

Definition number_from_value (v : Value) : res CoreError Number :=
  match v with
  | VInteger n => Ok (Integer n)
  | VFloat x => Ok (Float x)
  | other => Err (core_error OpConvertToNumber (value_kind other) NotNumeric)
  end.

Definition add (l r : Number) : Number :=
  match l, r with
  | Integer l, Integer r => Integer (wrap_i64 (l + r))
  | _, _ => Float (f64_add (as_float l) (as_float r))
  end.

Definition subtract (l r : Number) : Number :=
  match l, r with
  | Integer l, Integer r => Integer (wrap_i64 (l - r))
  | _, _ => Float (f64_sub (as_float l) (as_float r))
  end.

Definition multiply (l r : Number) : Number :=
  match l, r with
  | Integer l, Integer r => Integer (wrap_i64 (l * r))
  | _, _ => Float (f64_mul (as_float l) (as_float r))
  end.

Definition negate (v : Number) : Number :=
  match v with
  | Integer n => Integer (wrap_i64 (- n))
  | Float x => Float (f64_neg x)
  end.

Definition divide (l r : Number) : Number := Float (f64_div (as_float l) (as_float r)).

(** [f64::powf] is the platform's; its value is an argument of [power]. *)
Definition power (powf : f64 -> f64 -> f64) (l r : Number) : Number :=
  Float (powf (as_float l) (as_float r)).

Definition floor_divide (l r : Number) : res CoreError Number :=
  match l, r with
  | Integer l, Integer r =>
      if r =? 0 then Err (core_error OpFloorDivide KInteger IntegerDivideByZero)
      else if (l =? I64_MIN) && (r =? -1) then Ok (Integer I64_MIN)
      else
        let quotient := Z.quot l r in
        let remainder := Z.rem l r in
        let quotient :=
          if negb (remainder =? 0) && negb (Bool.eqb (0 <? remainder) (0 <? r))
          then wrap_i64 (quotient - 1) else quotient in
        Ok (Integer quotient)
  | _, _ => Ok (Float (f64_floor (f64_div (as_float l) (as_float r))))
  end.

Definition modulo (l r : Number) : res CoreError Number :=
  match l, r with
  | Integer l, Integer r =>
      if r =? 0 then Err (core_error OpModulo KInteger IntegerModuloByZero)
      else if (l =? I64_MIN) && (r =? -1) then Ok (Integer 0)
      else
        let remainder := Z.rem l r in
        let remainder :=
          if negb (remainder =? 0) && negb (Bool.eqb (0 <? remainder) (0 <? r))
          then wrap_i64 (remainder + r) else remainder in
        Ok (Integer remainder)
  | _, _ =>
      let quotient := f64_floor (f64_div (as_float l) (as_float r)) in
      Ok (Float (f64_sub (as_float l) (f64_mul quotient (as_float r))))
  end.

Definition compare_integer_float (integer : Z) (float : f64) : option comparison :=
  if f64_is_nan float then None
  else if f64_eqb float f64_infinity then Some Lt
  else if f64_eqb float f64_neg_infinity then Some Gt
  else if f64_ltb float f64_i64_min then Some Gt
  else if f64_geb float f64_two63 then Some Lt
  else
    let truncated := f64_trunc float in
    let converted := f64_as_i64 truncated in
    match Z.compare integer converted with
    | Eq =>
        if f64_ltb truncated float then Some Lt
        else if f64_ltb float truncated then Some Gt
        else Some Eq
    | ordering => Some ordering
    end.

Definition compare (l r : Number) : option comparison :=
  match l, r with
  | Integer l, Integer r => Some (Z.compare l r)
  | Float l, Float r => f64_partial_cmp l r
  | Integer i, Float x => compare_integer_float i x
  | Float x, Integer i => CompOpp <$> compare_integer_float i x
  end.

Definition equal (l r : Number) : bool :=
  match compare l r with Some Eq => true | _ => false end.

Definition to_integer (v : Number) (op : Operation) : res CoreError Z :=
  match v with
  | Integer n => Ok n
  | Float x =>
      if f64_is_finite x && f64_eqb (f64_fract x) f64_zero
         && f64_geb x f64_i64_min && f64_ltb x f64_two63
      then Ok (f64_as_i64 x)
      else Err (core_error op KFloat NotInteger)
  end.

Definition bit_and (l r : Number) : res CoreError Number :=
  l ← to_integer l OpBitAnd; r ← to_integer r OpBitAnd; Ok (Integer (Z.land l r)).
Definition bit_or (l r : Number) : res CoreError Number :=
  l ← to_integer l OpBitOr; r ← to_integer r OpBitOr; Ok (Integer (Z.lor l r)).
Definition bit_xor (l r : Number) : res CoreError Number :=
  l ← to_integer l OpBitXor; r ← to_integer r OpBitXor; Ok (Integer (Z.lxor l r)).
Definition bit_not (v : Number) : res CoreError Number :=
  n ← to_integer v OpBitNot; Ok (Integer (Z.lnot n)).

Definition shift (value amount : Number) (op : Operation) (left : bool) : res CoreError Number :=
  value ← to_integer value op;
  amount ← to_integer amount op;
  let magnitude := Z.abs amount in
  if 64 <=? magnitude then Ok (Integer 0)
  else
    let result :=
      if Bool.eqb (0 <=? amount) left
      then wrap_i64 (Z.shiftl value magnitude)
      else wrap_i64 (Z.shiftr (wrap_u64 value) magnitude) in
    Ok (Integer result).

Definition shift_left (v amount : Number) : res CoreError Number := shift v amount OpShiftLeft true.
Definition shift_right (v amount : Number) : res CoreError Number := shift v amount OpShiftRight false.

Example add_wraps : add (Integer I64_MAX) (Integer 1) = Integer I64_MIN.
Proof. reflexivity. Qed.
Example divide_3_2 : divide (Integer 3) (Integer 2) = Float (S754_finite false 6755399441055744 (-52)).
Proof. reflexivity. Qed.
Example modulo_3_m2 : modulo (Integer 3) (Integer (-2)) = Ok (Integer (-1)).
Proof. reflexivity. Qed.
Example compare_2p53 :
  compare (Integer 9007199254740993) (Float (i64_as_f64 9007199254740992)) = Some Gt.
Proof. reflexivity. Qed.
Example to_integer_6 : to_integer (Float (i64_as_f64 6)) OpBitAnd = Ok 6.
Proof. reflexivity. Qed.

(** ** Integer arithmetic *)

Lemma wrap_i64_testbit z k : 0 <= k < 64 -> Z.testbit (wrap_i64 z) k = Z.testbit z k.
Proof.
  intros Hk.
  rewrite <- (Z.mod_pow2_bits_low (wrap_i64 z) 64 k) by lia.
  rewrite <- (Z.mod_pow2_bits_low z 64 k) by lia.
  f_equal. apply wrap_i64_mod.
Qed.

Lemma wrap_u64_testbit z k : 0 <= k -> Z.testbit (wrap_u64 z) k = (k <? 64) && Z.testbit z k.
Proof.
  intros Hk. unfold wrap_u64. change 18446744073709551616 with (2 ^ 64).
  destruct (Z.ltb_spec k 64).
  - by rewrite Z.mod_pow2_bits_low by lia.
  - by rewrite Z.mod_pow2_bits_high by lia.
Qed.

(** Rounding the truncated quotient towards minus infinity, as the two
    routines do, gives the floor quotient and the remainder with the
    divisor's sign. *)
Lemma floor_correction l r :
  r <> 0 ->
  l / r = (if negb (Z.rem l r =? 0) && negb (Bool.eqb (0 <? Z.rem l r) (0 <? r))
           then Z.quot l r - 1 else Z.quot l r) /\
  l mod r = (if negb (Z.rem l r =? 0) && negb (Bool.eqb (0 <? Z.rem l r) (0 <? r))
             then Z.rem l r + r else Z.rem l r).
Proof.
  intros Hr. pose proof (Z.quot_rem' l r) as Hqr.
  assert (Z.abs (Z.rem l r) < Z.abs r) as Hb by (apply Z.rem_bound_abs; done).
  set (q := Z.quot l r) in *. set (m := Z.rem l r) in *. clearbody q m.
  destruct (Z.eqb_spec m 0); cbn [negb andb].
  { split; symmetry; [apply (Z.div_unique l r q m) | apply (Z.mod_unique l r q m)]; lia. }
  destruct (Z.ltb_spec 0 m), (Z.ltb_spec 0 r); cbn [Bool.eqb negb];
    (split; symmetry;
      first [apply (Z.div_unique l r q m); lia | apply (Z.mod_unique l r q m); lia
            | apply (Z.div_unique l r (q - 1) (m + r)); lia
            | apply (Z.mod_unique l r (q - 1) (m + r)); lia]).
Qed.

Lemma mod_i64 l r : i64 l -> i64 r -> r <> 0 -> i64 (l mod r).
Proof.
  intros Hl Hr Hz. destruct (decide (0 < r)).
  - pose proof (Z.mod_pos_bound l r). range_lia.
  - pose proof (Z.mod_neg_bound l r). range_lia.
Qed.

Lemma div_i64 l r : i64 l -> i64 r -> r <> 0 -> ~ (l = I64_MIN /\ r = -1) -> i64 (l / r).
Proof.
  intros Hl Hr Hz Hno. pose proof (Z.div_mod l r Hz) as Hdm.
  unfold_ranges. destruct (decide (0 < r)).
  - pose proof (Z.mod_pos_bound l r). nia.
  - pose proof (Z.mod_neg_bound l r). destruct (decide (r = -1)); [nia |]. nia.
Qed.

(** Integer [//] and [%] are floor division and its remainder: the code's
    truncating division with a correction, its special case for
    [i64::MIN // -1] and its [wrapping_*] calls compute the mathematical floor
    quotient (wrapped only at that one point) and the remainder with the
    divisor's sign; a zero divisor is the typed error. *)
Theorem integer_division_floor l r :
  i64 l -> i64 r ->
  floor_divide (Integer l) (Integer r) =
    (if r =? 0 then Err (core_error OpFloorDivide KInteger IntegerDivideByZero)
     else Ok (Integer (wrap_i64 (l / r)))) /\
  modulo (Integer l) (Integer r) =
    (if r =? 0 then Err (core_error OpModulo KInteger IntegerModuloByZero)
     else Ok (Integer (l mod r))).
Proof.
  intros Hl Hr. unfold floor_divide, modulo.
  destruct (Z.eqb_spec r 0) as [| Hz]; [done |].
  destruct ((l =? I64_MIN) && (r =? -1)) eqn:Hsp.
  { bool_hyps. assert (l = I64_MIN) as -> by lia. by assert (r = -1) as -> by lia. }
  assert (~ (l = I64_MIN /\ r = -1)) as Hno.
  { intros [-> ->]. discriminate. }
  destruct (floor_correction l r Hz) as [Hd Hm].
  pose proof (div_i64 l r Hl Hr Hz Hno) as Hdr. pose proof (mod_i64 l r Hl Hr Hz) as Hmr.
  destruct (negb (Z.rem l r =? 0) && negb (Bool.eqb (0 <? Z.rem l r) (0 <? r)));
    rewrite <- Hd, <- Hm; by rewrite !wrap_i64_id.
Qed.

Lemma integer_division_floor_witness :
  floor_divide (Integer (-7)) (Integer 2) = Ok (Integer (-4)) /\
  modulo (Integer (-7)) (Integer 2) = Ok (Integer 1).
Proof. apply (integer_division_floor (-7) 2); range_lia. Defined.

(** The wrapping operations are the ring operations modulo [2^64]: whatever
    the order in which a sum or product is folded, its i64 result depends only
    on the exact value modulo [2^64], and is that value when it fits. *)
Theorem integer_ring_mod l r :
  add (Integer l) (Integer r) = Integer (wrap_i64 (l + r)) /\
  subtract (Integer l) (Integer r) = add (Integer l) (negate (Integer r)) /\
  (forall m, add (add (Integer l) (Integer r)) (Integer m) =
             add (Integer l) (add (Integer r) (Integer m))) /\
  (forall m, multiply (Integer m) (add (Integer l) (Integer r)) =
             add (multiply (Integer m) (Integer l)) (multiply (Integer m) (Integer r))) /\
  (forall m, multiply (multiply (Integer l) (Integer r)) (Integer m) =
             multiply (Integer l) (multiply (Integer r) (Integer m))).
Proof.
  cbn [add subtract multiply negate].
  split_and!; [done | ..]; intros; f_equal; apply wrap_i64_eq.
  - by rewrite (Z.add_mod _ (wrap_i64 _)), wrap_i64_mod, <- Z.add_mod.
  - by rewrite (Z.add_mod (wrap_i64 _)), wrap_i64_mod, <- Z.add_mod,
      (Z.add_mod l (wrap_i64 _)), wrap_i64_mod, <- Z.add_mod, Z.add_assoc.
  - by rewrite (Z.mul_mod _ (wrap_i64 _)), wrap_i64_mod, <- Z.mul_mod,
      (Z.add_mod (wrap_i64 _)), !wrap_i64_mod, <- Z.add_mod, Z.mul_add_distr_l.
  - by rewrite (Z.mul_mod (wrap_i64 _)), wrap_i64_mod, <- Z.mul_mod,
      (Z.mul_mod l (wrap_i64 _)), wrap_i64_mod, <- Z.mul_mod, Z.mul_assoc.
Qed.

(** ** Exact comparison and conversion *)

(** The exact value of a finite number, in units of [2^-1074]. *)
Definition exact (n : Number) : Z :=
  match n with Integer i => i * ONE | Float x => scaled x end.

Definition finite (n : Number) : bool :=
  match n with Integer _ => true | Float x => f64_is_finite x end.

Lemma quot_cases s d :
  0 < d ->
  (0 <= s -> 0 <= s - Z.quot s d * d < d) /\ (s <= 0 -> - d < s - Z.quot s d * d <= 0).
Proof.
  intros Hd. pose proof (Z.quot_rem' s d) as Hqr. rewrite (Z.mul_comm d) in Hqr.
  split; intros Hs.
  - pose proof (Z.rem_bound_pos s d Hs Hd). lia.
  - pose proof (Z.rem_bound_pos (- s) d ltac:(lia) Hd). rewrite Z.rem_opp_l in * by lia. lia.
Qed.

(** Comparing an integer with the truncation and then the truncation with
    the float is comparing the integer with the float. *)
Lemma compare_through_trunc i s d :
  0 < d ->
  match i ?= Z.quot s d with
  | Eq => if Z.quot s d * d <? s then Lt else if s <? Z.quot s d * d then Gt else Eq
  | o => o
  end = (i * d ?= s).
Proof.
  intros Hd. destruct (quot_cases s d Hd) as [Hq1 Hq2].
  set (q := Z.quot s d) in *. clearbody q. symmetry.
  destruct (Z.compare_spec i q) as [-> | Hlt | Hgt].
  - destruct (Z.ltb_spec (q * d) s); [by apply Z.compare_lt_iff |].
    destruct (Z.ltb_spec s (q * d)); [by apply Z.compare_gt_iff |].
    apply Z.compare_eq_iff. lia.
  - apply Z.compare_lt_iff. nia.
  - apply Z.compare_gt_iff. nia.
Qed.

Lemma quot_i64 s : I64_MIN * ONE <= s -> s < (I64_MAX + 1) * ONE -> i64 (Z.quot s ONE).
Proof.
  pose proof ONE_pos as Hone. destruct (quot_cases s ONE Hone). unfold_ranges. nia.
Qed.

Lemma compare_integer_float_exact i x :
  i64 i -> valid x -> f64_is_finite x = true ->
  compare_integer_float i x = Some (i * ONE ?= scaled x).
Proof.
  intros Hi Hv Hf. pose proof ONE_pos as Hone. destruct valid_i64_min as [Vmin Vmax].
  destruct (f64_trunc_spec x Hv Hf) as (Hts & Htv & Htf).
  unfold compare_integer_float.
  replace (f64_is_nan x) with false by (by destruct x).
  replace (f64_eqb x f64_infinity) with false by (destruct x as [? | [] | | [] ? ?]; done).
  replace (f64_eqb x f64_neg_infinity) with false by (destruct x as [? | [] | | [] ? ?]; done).
  rewrite (f64_ltb_scaled x f64_i64_min), f64_geb_scaled, scaled_i64_min, scaled_two63 by done.
  destruct (Z.ltb_spec (scaled x) (I64_MIN * ONE)).
  { f_equal. symmetry. apply Z.compare_gt_iff. unfold_ranges. nia. }
  destruct (Z.leb_spec ((I64_MAX + 1) * ONE) (scaled x)).
  { f_equal. symmetry. apply Z.compare_lt_iff. unfold_ranges. nia. }
  rewrite (f64_as_i64_exact (f64_trunc x) (Z.quot (scaled x) ONE)) by (auto using quot_i64).
  rewrite !f64_ltb_scaled, Hts by done.
  rewrite <- (compare_through_trunc i (scaled x) ONE Hone).
  destruct (i ?= Z.quot (scaled x) ONE); [| done..].
  destruct (_ <? scaled x); [done |]. by destruct (scaled x <? _).
Qed.

(** C38: [compare] is the exact mathematical order on finite numbers of either
    subtype: no integer is rounded to a float on the way, so 2^53 + 1 is
    greater than 2^53 as a float. *)
Theorem compare_exact l r :
  number_ok l -> number_ok r -> finite l = true -> finite r = true ->
  compare l r = Some (exact l ?= exact r).
Proof.
  intros Hl Hr Fl Fr. pose proof ONE_pos as Hone.
  destruct l as [l | l], r as [r | r]; cbn [number_ok finite exact compare] in *.
  - f_equal. destruct (Z.compare_spec l r); symmetry.
    + subst. apply Z.compare_refl.
    + apply Z.compare_lt_iff. nia.
    + apply Z.compare_gt_iff. nia.
  - by apply compare_integer_float_exact.
  - rewrite compare_integer_float_exact by done. cbn. f_equal. symmetry. apply Z.compare_antisym.
  - by apply f64_partial_cmp_scaled.
Qed.

Lemma compare_exact_witness :
  compare (Integer 9007199254740993) (Float (i64_as_f64 9007199254740992)) =
  Some (exact (Integer 9007199254740993) ?= exact (Float (i64_as_f64 9007199254740992))).
Proof. apply compare_exact; [cbn [number_ok]; range_lia | vm_compute; done | done | vm_compute; done]. Defined.

Lemma compare_integer_float_None i x : compare_integer_float i x = None <-> x = S754_nan.
Proof.
  unfold compare_integer_float. split; [| by intros ->].
  destruct x as [? | ? | | ? ? ?]; cbn [f64_is_nan]; try done; intros H;
    repeat case_match; congruence.
Qed.

Lemma f64_partial_cmp_None x y : f64_partial_cmp x y = None <-> x = S754_nan \/ y = S754_nan.
Proof.
  unfold f64_partial_cmp. split.
  - destruct x as [? | [] | | [] ? ?], y as [? | [] | | [] ? ?]; cbn [SFcompare];
      try (discriminate || by auto); repeat case_match; discriminate.
  - intros [-> | ->]; [by destruct y | by destruct x as [? | ? | | ? ? ?]].
Qed.

Lemma f64_partial_cmp_antisym x y : f64_partial_cmp y x = CompOpp <$> f64_partial_cmp x y.
Proof.
  unfold f64_partial_cmp.
  destruct x as [? | [] | | [] mx ex], y as [? | [] | | [] my ey]; try done;
    cbn [SFcompare]; change (Pos.compare_cont Eq ?a ?b) with (Pos.compare a b);
    rewrite (Z.compare_antisym ex ey), (Pos.compare_antisym mx my);
    destruct (ex ?= ey); try done; by destruct (Pos.compare mx my).
Qed.

(** On all numbers, NaN and infinities included: [compare] is undefined exactly
    when an operand is NaN, and swapping the operands reverses the answer, so
    [<], [<=] and [==] derived from it agree with each other. *)
Theorem compare_total_but_nan l r :
  (compare l r = None <-> l = Float S754_nan \/ r = Float S754_nan) /\
  compare r l = CompOpp <$> compare l r.
Proof.
  destruct l as [l | l], r as [r | r]; cbn [compare].
  - split; [intuition congruence |]. cbn. f_equal. apply Z.compare_antisym.
  - rewrite compare_integer_float_None. split; [intuition congruence | done].
  - rewrite fmap_None, compare_integer_float_None. split; [intuition congruence |].
    by destruct (compare_integer_float r l) as [[] |].
  - rewrite f64_partial_cmp_None. split; [intuition congruence |]. apply f64_partial_cmp_antisym.
Qed.

(** [to_integer] succeeds exactly on the finite numbers whose exact value is
    an integer of the i64 range, and returns that integer; any other operand is
    the typed error naming the operation. *)
Theorem to_integer_exact v op n :
  number_ok v ->
  (to_integer v op = Ok n <-> finite v = true /\ exact v = n * ONE /\ i64 n) /\
  (forall k, to_integer v op <> Crash k) /\
  (forall e, to_integer v op = Err e -> e = core_error op KFloat NotInteger).
Proof.
  intros Hv. pose proof ONE_pos as Hone. destruct valid_i64_min as [Vmin Vmax].
  destruct v as [i | x]; cbn [number_ok finite exact to_integer] in *.
  { split_and!; [| done..]. split; [intros [= ->]; done |]. intros (_ & H & _). f_equal. nia. }
  split_and!; [| intros k; by case_match | intros e; case_match; congruence].
  destruct (f64_is_finite x) eqn:Hf; cbn [andb]; [| split; [done | by intros []]].
  rewrite f64_fract_zero, f64_geb_scaled, f64_ltb_scaled, scaled_i64_min, scaled_two63 by done.
  split.
  - destruct (_ && _) eqn:Hc; [| done]. bool_hyps. intros [= <-].
    assert (scaled x = scaled x / ONE * ONE) as Hs.
    { pose proof (Z.div_mod (scaled x) ONE). lia. }
    assert (i64 (scaled x / ONE)) as Hr by (unfold_ranges; nia).
    rewrite (f64_as_i64_exact x (scaled x / ONE)) by done. done.
  - intros (_ & Hs & Hn). rewrite (f64_as_i64_exact x n) by done.
    rewrite Hs, Z.mod_mul by lia. unfold i64 in Hn.
    replace (I64_MIN * ONE <=? n * ONE) with true by nia.
    by replace (n * ONE <? (I64_MAX + 1) * ONE) with true by nia.
Qed.

Lemma to_integer_exact_witness :
  (to_integer (Float (i64_as_f64 6)) OpBitAnd = Ok 6 <->
     finite (Float (i64_as_f64 6)) = true /\
     exact (Float (i64_as_f64 6)) = 6 * ONE /\ i64 6) /\
  (forall k, to_integer (Float (i64_as_f64 6)) OpBitAnd <> Crash k) /\
  (forall e, to_integer (Float (i64_as_f64 6)) OpBitAnd = Err e ->
     e = core_error OpBitAnd KFloat NotInteger).
Proof. apply to_integer_exact. vm_compute. done. Defined.

(** ** Shifts *)

(** [a << n] bit by bit, for every i64 amount: bit [k] of the result is bit
    [k - n] of the operand and zero where that bit does not exist; [a >> n] is
    the logical shift, [a << -n], also for the amount [i64::MIN] that has no
    i64 negation. *)
Theorem shift_bits v n :
  i64 v -> i64 n ->
  exists l r,
    shift_left (Integer v) (Integer n) = Ok (Integer l) /\ i64 l /\
    shift_right (Integer v) (Integer n) = Ok (Integer r) /\ i64 r /\
    (forall k, 0 <= k < 64 ->
       Z.testbit l k = (0 <=? k - n) && (k - n <? 64) && Z.testbit v (k - n)) /\
    (forall k, 0 <= k < 64 ->
       Z.testbit r k = (0 <=? k + n) && (k + n <? 64) && Z.testbit v (k + n)).
Proof.
  intros Hv Hn. unfold shift_left, shift_right, shift. cbn [to_integer mbind res_bind].
  destruct (Z.leb_spec 64 (Z.abs n)).
  { exists 0, 0. split_and!; try done; intros k Hk; rewrite Z.testbit_0_l; symmetry.
    - destruct (Z.leb_spec 0 (k - n)), (Z.ltb_spec (k - n) 64); try done; lia.
    - destruct (Z.leb_spec 0 (k + n)), (Z.ltb_spec (k + n) 64); try done; lia. }
  do 2 eexists. split_and!; [reflexivity | | reflexivity | | |];
    [by case_match; apply wrap_i64_range..| |]; intros k Hk;
    destruct (Z.leb_spec 0 n); cbn [Bool.eqb]; rewrite wrap_i64_testbit by lia;
    rewrite ?Z.shiftl_spec, ?Z.shiftr_spec, ?wrap_u64_testbit by lia.
  - replace (k - Z.abs n) with (k - n) by lia. destruct (Z.leb_spec 0 (k - n)); cbn [andb].
    + by replace (k - n <? 64) with true by lia.
    + by rewrite Z.testbit_neg_r.
  - replace (k + Z.abs n) with (k - n) by lia. by replace (0 <=? k - n) with true by lia.
  - replace (k + Z.abs n) with (k + n) by lia. by replace (0 <=? k + n) with true by lia.
  - replace (k - Z.abs n) with (k + n) by lia. destruct (Z.leb_spec 0 (k + n)); cbn [andb].
    + by replace (k + n <? 64) with true by lia.
    + by rewrite Z.testbit_neg_r.
Qed.

Lemma shift_bits_witness :
  exists l r,
    shift_left (Integer 5) (Integer (-9223372036854775808)) = Ok (Integer l) /\ i64 l /\
    shift_right (Integer 5) (Integer (-9223372036854775808)) = Ok (Integer r) /\ i64 r /\
    (forall k, 0 <= k < 64 ->
       Z.testbit l k = (0 <=? k - -9223372036854775808) && (k - -9223372036854775808 <? 64)
                       && Z.testbit 5 (k - -9223372036854775808)) /\
    (forall k, 0 <= k < 64 ->
       Z.testbit r k = (0 <=? k + -9223372036854775808) && (k + -9223372036854775808 <? 64)
                       && Z.testbit 5 (k + -9223372036854775808)).
Proof. apply (shift_bits 5 (-9223372036854775808)); range_lia. Defined.

(** ** Float remainder *)

(** The float remainder by an infinity is NaN for every dividend of either
    subtype: the code subtracts [floor (l / r) * r], and zero times an infinity
    is NaN. (Lua's own remainder returns the dividend, or the infinity when the
    signs differ.) *)
Theorem modulo_infinite_divisor l s :
  modulo l (Float (S754_infinity s)) = Ok (Float S754_nan).
Proof.
  destruct l as [n | x]; cbn [modulo as_float].
  - by destruct (i64_as_f64 n) as [[] | [] | | [] ? ?], s.
  - by destruct x as [[] | [] | | [] ? ?], s.
Qed.

(** ** Unique identities *)

(** [n] successive allocations. *)
Fixpoint draw_ids (n : nat) (counter : Z) : list (option Z) :=
  match n with
  | O => []
  | S n => let (id, counter) := next_unique_id counter in id :: draw_ids n counter
  end.

Lemma draw_ids_ge n counter id :
  0 <= counter -> In (Some id) (draw_ids n counter) -> counter <= id /\ 0 < id /\ u64 id.
Proof.
  revert counter. induction n as [| n IH]; intros counter Hc; cbn [draw_ids]; [done |].
  unfold next_unique_id. destruct (Z.leb_spec (counter + 1) U64_MAX) as [Hm | Hm].
  - destruct (Z.eqb_spec counter 0) as [-> | Hz]; intros [Heq | Hin].
    + discriminate.
    + apply IH in Hin; range_lia.
    + injection Heq as <-. split_and!; range_lia.
    + apply IH in Hin; range_lia.
  - intros [Heq | Hin]; [done |]. by apply IH.
Qed.

Lemma draw_ids_NoDup n counter : 0 <= counter -> NoDup (omap id (draw_ids n counter)).
Proof.
  revert counter. induction n as [| n IH]; intros counter Hc; cbn [draw_ids]; [constructor |].
  unfold next_unique_id. destruct (Z.leb_spec (counter + 1) U64_MAX); [| by apply IH].
  destruct (counter =? 0); cbn; [apply IH; lia |].
  constructor; [| apply IH; lia].
  intros (o & Hin & Ho)%list_elem_of_omap. cbn in Ho. subst o.
  apply list_elem_of_In in Hin. apply draw_ids_ge in Hin; lia.
Qed.

(** Allocated identities are never zero and never repeat, however many are
    drawn from the shared counter and wherever it starts: at the top the
    counter sticks and the allocation fails instead of wrapping. *)
Theorem unique_ids_distinct n counter :
  0 <= counter ->
  NoDup (omap id (draw_ids n counter)) /\
  Forall (fun i => 0 < i <= U64_MAX) (omap id (draw_ids n counter)).
Proof.
  intros Hc. split; [by apply draw_ids_NoDup |].
  apply Forall_forall. intros i Hi. apply list_elem_of_In in Hi.
  apply list_elem_of_omap in Hi as (o & Hin & Ho). cbn in Ho. subst o.
  apply list_elem_of_In in Hin. apply draw_ids_ge in Hin; [| done]. range_lia.
Qed.

Lemma unique_ids_distinct_witness :
  NoDup (omap id (draw_ids 3 18446744073709551613)) /\
  Forall (fun i => 0 < i <= U64_MAX) (omap id (draw_ids 3 18446744073709551613)).
Proof. apply unique_ids_distinct. lia. Defined.
