(* ===== verification/NumericFor.v ===== *)
(** The numeric [for] of the virtual machine
    (crates/rivetlua-runtime/src/vm/numeric_for.rs): [prepare] and [next], and
    the sequence of values a loop shows its body. *)

From Stdlib Require Import ZArith Lia SpecFloat.
From stdpp Require Import base list numbers.
From S2P Require Import Prelude Float Number.

Local Open Scope Z_scope.

(** The kinds of [RuntimeErrorKind] that a numeric [for] raises. *)
Inductive RuntimeErrorKind :=
  | NumericForZeroStep
  | InvalidNumericForState
  | Core (e : CoreError).

Inductive Prepared :=
  | Skip
  | PEnter (control limit step visible : Value).

Inductive Advanced :=
  | Exit
  | AEnter (control visible : Value).

(** [number_from_value(v)?]: the error converted by [From<CoreError>]. *)
Definition number_of (v : Value) : res RuntimeErrorKind Number :=
  match number_from_value v with
  | Ok n => Ok n
  | Err e => Err (Core e)
  | Crash c => Crash c
  end.

Definition float (number : Number) : res RuntimeErrorKind f64 :=
  match number with
  | Float value => Ok value
  | Integer _ =>
      match add (Float f64_zero) number with
      | Float value => Ok value
      | Integer _ => Err InvalidNumericForState
      end
  end.

Definition integer_limit (limit : Number) (positive : bool) : option Z :=
  match limit with
  | Integer value => Some value
  | Float value =>
      if f64_is_nan value then if negb positive then Some I64_MIN else None
      else
        let rounded := if positive then f64_floor value else f64_ceil value in
        if f64_geb rounded f64_two63 then if positive then Some I64_MAX else None
        else if f64_ltb rounded f64_i64_min then if negb positive then Some I64_MIN else None
        else Some (f64_as_i64 rounded)
  end.

(** [matches!(step, Number::Integer(0) | Number::Float(0.0))]. *)
Definition is_zero (step : Number) : bool :=
  match step with Integer n => n =? 0 | Float x => f64_eqb x f64_zero end.

(** [compare(l, r) == Some(ordering)]. *)
Definition compares (l r : Number) (ordering : comparison) : bool :=
  bool_decide (compare l r = Some ordering).

Definition prepare (initial limit step : Value) : res RuntimeErrorKind Prepared :=
  initial ← number_of initial;
  step ← number_of step;
  if is_zero step then Err NumericForZeroStep
  else
    limit ← number_of limit;
    match initial, step with
    | Integer initial, Integer step =>
        let positive := compares (Integer step) (Integer 0) Gt in
        match integer_limit limit positive with
        | None => Ok Skip
        | Some limit =>
            let out_of_range :=
              if positive then compares (Integer initial) (Integer limit) Gt
              else compares (Integer initial) (Integer limit) Lt in
            if out_of_range then Ok Skip
            else Ok (PEnter (VInteger initial) (VInteger limit) (VInteger step) (VInteger initial))
        end
    | _, _ =>
        initial ← float initial;
        limit ← float limit;
        step ← float step;
        let positive := compares (Float step) (Float f64_zero) Gt in
        let out_of_range :=
          if positive then compares (Float initial) (Float limit) Gt
          else compares (Float initial) (Float limit) Lt in
        if out_of_range then Ok Skip
        else Ok (PEnter (VFloat initial) (VFloat limit) (VFloat step) (VFloat initial))
    end.

(** [next] is at or before the limit, in the direction of the step. *)
Definition in_range (step next limit : Number) (zero : Number) : bool :=
  if compares step zero Gt
  then compares next limit Lt || compares next limit Eq
  else compares next limit Gt || compares next limit Eq.

Definition next (control limit step : Value) : res RuntimeErrorKind Advanced :=
  match control, limit, step with
  | VInteger control, VInteger limit, VInteger step =>
      if step =? 0 then Err InvalidNumericForState
      else
        match checked_add_i64 control step with
        | None => Ok Exit
        | Some next =>
            if in_range (Integer step) (Integer next) (Integer limit) (Integer 0)
            then Ok (AEnter (VInteger next) (VInteger next))
            else Ok Exit
        end
  | VFloat control, VFloat limit, VFloat step =>
      if f64_eqb step f64_zero then Err InvalidNumericForState
      else
        match add (Float control) (Float step) with
        | Integer _ => Err InvalidNumericForState
        | Float next =>
            if in_range (Float step) (Float next) (Float limit) (Float f64_zero)
            then Ok (AEnter (VFloat next) (VFloat next))
            else Ok Exit
        end
  | _, _, _ => Err InvalidNumericForState
  end.

(** ** The loop

    [NumericForPrepare] writes the four registers once, [NumericForNext] reads
    control, limit and step and writes control and visible; the registers of
    the first three are the loop's own. So the values the body sees are the
    visible of [prepare] and then that of each [next]. *)

Fixpoint advance_all (fuel : nat) (control limit step : Value)
    : res RuntimeErrorKind (list Value) :=
  match fuel with
  | O => Crash OutOfFuel
  | S fuel =>
      advanced ← next control limit step;
      match advanced with
      | Exit => Ok []
      | AEnter control visible =>
          rest ← advance_all fuel control limit step;
          Ok (visible :: rest)
      end
  end.

Definition run_for (fuel : nat) (initial limit step : Value)
    : res RuntimeErrorKind (list Value) :=
  prepared ← prepare initial limit step;
  match prepared with
  | Skip => Ok []
  | PEnter control limit step visible =>
      rest ← advance_all fuel control limit step;
      Ok (visible :: rest)
  end.

Example for_1_3 :
  run_for 5 (VInteger 1) (VFloat (S754_finite false 7881299347898368 (-51))) (VInteger 1) =
  Ok [VInteger 1; VInteger 2; VInteger 3].
Proof. vm_compute. reflexivity. Qed.

(** A loop up to the largest integer ends without wrapping. *)
Example for_max :
  run_for 5 (VInteger (I64_MAX - 1)) (VInteger I64_MAX) (VInteger 1) =
  Ok [VInteger (I64_MAX - 1); VInteger I64_MAX].
Proof. vm_compute. reflexivity. Qed.

(** ** The integer loop *)

Lemma compares_integers a b o : compares (Integer a) (Integer b) o = bool_decide ((a ?= b) = o).
Proof. unfold compares. cbn [compare]. apply bool_decide_ext. split; congruence. Qed.

Lemma compares_Gt a b : compares (Integer a) (Integer b) Gt = (b <? a).
Proof.
  rewrite compares_integers. apply eq_bool_prop_intro. rewrite bool_decide_spec, Is_true_true, Z.ltb_lt.
  rewrite Z.compare_gt_iff. done.
Qed.
Lemma compares_Lt a b : compares (Integer a) (Integer b) Lt = (a <? b).
Proof.
  rewrite compares_integers. apply eq_bool_prop_intro. rewrite bool_decide_spec, Is_true_true, Z.ltb_lt.
  rewrite Z.compare_lt_iff. done.
Qed.
Lemma compares_Eq a b : compares (Integer a) (Integer b) Eq = (a =? b).
Proof.
  rewrite compares_integers. apply eq_bool_prop_intro. rewrite bool_decide_spec, Is_true_true, Z.eqb_eq.
  rewrite Z.compare_eq_iff. done.
Qed.

(** [x] is not past [limit] when the loop steps by [step]. *)
Definition reaches (step x : Z) (limit : Number) : Prop :=
  if 0 <? step then compare (Integer x) limit = Some Lt \/ compare (Integer x) limit = Some Eq
  else compare (Integer x) limit = Some Gt \/ compare (Integer x) limit = Some Eq.

Lemma reaches_integer step x limit :
  reaches step x (Integer limit) <-> if 0 <? step then x <= limit else limit <= x.
Proof.
  unfold reaches. cbn [compare]. destruct (0 <? step), (Z.compare_spec x limit); intuition (congruence || lia).
Qed.

Lemma div_bounds a d : 0 < d -> a / d * d <= a < (a / d + 1) * d.
Proof. intros Hd. pose proof (Z.div_mod a d ltac:(lia)). pose proof (Z.mod_pos_bound a d Hd). lia. Qed.

Lemma reaches_float step x y :
  i64 x -> valid y -> f64_is_finite y = true ->
  reaches step x (Float y) <-> if 0 <? step then x * ONE <= scaled y else scaled y <= x * ONE.
Proof.
  intros Hx Hv Hf. unfold reaches. cbn [compare]. rewrite compare_integer_float_exact by done.
  destruct (0 <? step), (Z.compare_spec (x * ONE) (scaled y)); intuition (congruence || lia).
Qed.

Lemma limit_up y :
  valid y -> f64_is_finite y = true ->
  match integer_limit (Float y) true with
  | Some l => i64 l /\ forall x, i64 x -> (x * ONE <= scaled y <-> x <= l)
  | None => forall x, i64 x -> ~ x * ONE <= scaled y
  end.
Proof.
  intros Hv Hf. pose proof ONE_pos as Hone. destruct valid_i64_min as [Vmin Vmax].
  destruct (f64_floor_spec y Hv Hf) as (Hr & Vr & Fr). cbn [integer_limit negb].
  replace (f64_is_nan y) with false by (by destruct y).
  pose proof (div_bounds (scaled y) ONE Hone) as Hq. set (q := scaled y / ONE) in *. clearbody q.
  rewrite f64_geb_scaled, f64_ltb_scaled, scaled_two63, scaled_i64_min, Hr by done.
  destruct (Z.leb_spec ((I64_MAX + 1) * ONE) (q * ONE)); [| destruct (Z.ltb_spec (q * ONE) (I64_MIN * ONE))].
  - assert (I64_MAX < q) by nia. split; [done |]. intros x Hx. unfold_ranges. split; nia.
  - assert (q < I64_MIN) by nia. intros x Hx. unfold_ranges. nia.
  - assert (i64 q) as Hi by (unfold_ranges; nia). rewrite (f64_as_i64_exact _ q) by done.
    split; [done |]. intros x Hx. split; nia.
Qed.

Lemma limit_down y :
  valid y -> f64_is_finite y = true ->
  match integer_limit (Float y) false with
  | Some l => i64 l /\ forall x, i64 x -> (scaled y <= x * ONE <-> l <= x)
  | None => forall x, i64 x -> ~ scaled y <= x * ONE
  end.
Proof.
  intros Hv Hf. pose proof ONE_pos as Hone. destruct valid_i64_min as [Vmin Vmax].
  destruct (f64_ceil_spec y Hv Hf) as (Hr & Vr & Fr). cbn [integer_limit negb].
  replace (f64_is_nan y) with false by (by destruct y).
  pose proof (div_bounds (- scaled y) ONE Hone) as Hq. set (q := - scaled y / ONE) in *. clearbody q.
  rewrite f64_geb_scaled, f64_ltb_scaled, scaled_two63, scaled_i64_min, Hr by done.
  destruct (Z.leb_spec ((I64_MAX + 1) * ONE) (- q * ONE)); [| destruct (Z.ltb_spec (- q * ONE) (I64_MIN * ONE))].
  - assert (I64_MAX < - q) by nia. intros x Hx. unfold_ranges. nia.
  - assert (- q < I64_MIN) by nia. split; [done |]. intros x Hx. unfold_ranges. split; nia.
  - assert (i64 (- q)) as Hi by (unfold_ranges; nia). rewrite (f64_as_i64_exact _ (- q)) by done.
    split; [done |]. intros x Hx. split; nia.
Qed.

Lemma reaches_infinity step x s :
  reaches step x (Float (S754_infinity s)) <-> s = negb (0 <? step).
Proof. unfold reaches. destruct (0 <? step), s; cbn; intuition congruence. Qed.

(** The limit, clipped to an integer, keeps the same integers on its side. *)
Lemma integer_limit_spec step limit :
  number_ok limit -> limit <> Float S754_nan ->
  match integer_limit limit (0 <? step) with
  | Some l => i64 l /\ forall x, i64 x -> (reaches step x limit <-> reaches step x (Integer l))
  | None => forall x, i64 x -> ~ reaches step x limit
  end.
Proof.
  intros Hv Hnan. destruct limit as [l | y]; [split; [done | reflexivity] |].
  cbn [number_ok] in Hv. destruct (f64_is_finite y) eqn:Hf.
  - pose proof (limit_up y Hv Hf) as Hup. pose proof (limit_down y Hv Hf) as Hdown.
    pose proof (fun x Hx => reaches_float step x y Hx Hv Hf) as Hr.
    destruct (0 <? step) eqn:Hs.
    + destruct (integer_limit (Float y) true).
      * split; [tauto |]. intros x Hx. rewrite Hr, reaches_integer, Hs by done. by apply Hup.
      * intros x Hx. rewrite Hr by done. by apply Hup.
    + destruct (integer_limit (Float y) false).
      * split; [tauto |]. intros x Hx. rewrite Hr, reaches_integer, Hs by done. by apply Hdown.
      * intros x Hx. rewrite Hr by done. by apply Hdown.
  - assert (exists s, y = S754_infinity s) as [s ->] by (destruct y; try done; eauto).
    pose proof (fun x => reaches_integer step x) as Hi.
    pose proof (fun x => reaches_infinity step x s) as Hs.
    destruct (0 <? step), s; cbn [integer_limit f64_is_nan]; cbn in *; first [split; [done |] | idtac];
      intros x Hx; rewrite ?Hi, Hs; unfold_ranges; intuition (congruence || lia).
Qed.

Lemma in_range_integer step x limit :
  in_range (Integer step) (Integer x) (Integer limit) (Integer 0) =
  if 0 <? step then x <=? limit else limit <=? x.
Proof.
  unfold in_range. rewrite !compares_Gt, compares_Lt, compares_Eq.
  destruct (0 <? step); lia.
Qed.

Lemma map_seqZ_shift {A} (f : Z -> A) m n :
  map f (seqZ (m + 1) n) = map (fun k => f (k + 1)) (seqZ m n).
Proof.
  rewrite Z.add_comm, <- fmap_add_seqZ.
  change (Z.add 1 <$> seqZ m n) with (map (Z.add 1) (seqZ m n)). rewrite map_map.
  apply map_ext. intros k. f_equal. lia.
Qed.

Lemma map_seqZ_succ {A} (f : Z -> A) m (n : nat) :
  map f (seqZ m (Z.of_nat (S n))) = f m :: map (fun k => f (k + 1)) (seqZ m (Z.of_nat n)).
Proof.
  rewrite seqZ_cons by lia. replace (Z.pred (Z.of_nat (S n))) with (Z.of_nat n) by lia.
  cbn [map]. by rewrite <- map_seqZ_shift.
Qed.

(** From [control], the next [n] values and no more. *)
Lemma advance_all_integers n control limit step fuel :
  i64 limit -> step <> 0 -> (n < fuel)%nat ->
  (forall k, 0 <= k -> (k <= Z.of_nat n <-> if 0 <? step then control + k * step <= limit
                                             else limit <= control + k * step)) ->
  i64 control ->
  advance_all fuel (VInteger control) (VInteger limit) (VInteger step) =
  Ok (map (fun k => VInteger (control + k * step)) (seqZ 1 (Z.of_nat n))).
Proof.
  intros Hl Hs. revert n control. induction fuel as [| fuel IH]; intros n control Hn Hk Hc; [lia |].
  cbn [advance_all next]. replace (step =? 0) with false by lia.
  unfold checked_add_i64. pose proof (in_range_integer step (control + step) limit) as Hr.
  pose proof (Hk 1 ltac:(lia)) as H1. replace (control + 1 * step) with (control + step) in H1 by lia.
  pose proof (Hk 0 ltac:(lia)) as H0.
  destruct n as [| n].
  - assert ((if 0 <? step then control + step <=? limit else limit <=? control + step) = false) as Hf
      by (destruct (0 <? step); lia). rewrite Hf in Hr.
    destruct (_ && _); [| done]. by rewrite Hr.
  - assert ((if 0 <? step then control + step <=? limit else limit <=? control + step) = true) as Hf
      by (destruct (0 <? step); lia). rewrite Hf in Hr.
    assert (i64 (control + step)) as Hc' by (unfold_ranges; destruct (Z.ltb_spec 0 step); lia).
    replace ((I64_MIN <=? control + step) && (control + step <=? I64_MAX)) with true by range_lia.
    rewrite Hr. cbn [mbind res_bind]. rewrite (IH n (control + step)); [| lia | | done].
    + cbn [mbind res_bind]. rewrite map_seqZ_succ. f_equal. f_equal; [f_equal; lia |].
      apply map_ext. intros k. f_equal. lia.
    + intros k Hk0. specialize (Hk (k + 1) ltac:(lia)).
      replace (control + (k + 1) * step) with (control + step + k * step) in Hk by lia.
      rewrite <- Hk. lia.
Qed.

Definition value_of (n : Number) : Value :=
  match n with Integer n => VInteger n | Float x => VFloat x end.

Lemma number_of_value n : number_of (value_of n) = Ok n.
Proof. by destruct n. Qed.

(** The multiples that a loop reaches are an initial segment. *)
Lemma reached_steps i l step :
  i64 i -> i64 l -> step <> 0 ->
  (if 0 <? step then i <= l else l <= i) ->
  exists n : nat, forall k, 0 <= k ->
    (k <= Z.of_nat n <-> if 0 <? step then i + k * step <= l else l <= i + k * step).
Proof.
  intros Hi Hl Hs H0. exists (Z.to_nat (Z.abs (l - i) / Z.abs step)). intros k Hk.
  pose proof (div_bounds (Z.abs (l - i)) (Z.abs step) ltac:(lia)) as Hq.
  assert (0 <= Z.abs (l - i) / Z.abs step) by (apply Z.div_pos; lia).
  rewrite Z2Nat.id by done. set (q := Z.abs (l - i) / Z.abs step) in *. clearbody q.
  destruct (Z.ltb_spec 0 step); split; intros; nia.
Qed.

(** C37: The values an integer [for] shows its body are exactly the arithmetic
    progression from the initial value for as long as it stays in the i64 range
    and on the limit's side, whether the limit is an integer, a finite float or
    an infinity: no value is skipped or repeated, the counter never wraps, and
    the loop ends. *)
Theorem integer_for_visits i step limit :
  i64 i -> i64 step -> step <> 0 -> number_ok limit -> limit <> Float S754_nan ->
  exists n : nat,
    (forall k, 0 <= k ->
       (k < Z.of_nat n <-> forall j, 0 <= j <= k ->
          i64 (i + j * step) /\ reaches step (i + j * step) limit)) /\
    forall fuel, (n <= fuel)%nat ->
      run_for fuel (VInteger i) (value_of limit) (VInteger step) =
      Ok (map (fun k => VInteger (i + k * step)) (seqZ 0 (Z.of_nat n))).
Proof.
  intros Hi Hstep Hs Hv Hnan. pose proof (integer_limit_spec step limit Hv Hnan) as Hlim.
  unfold run_for, prepare. rewrite number_of_value. cbn [number_of number_from_value mbind res_bind is_zero].
  replace (step =? 0) with false by lia. rewrite compares_Gt.
  destruct (integer_limit limit (0 <? step)) as [l |]; cycle 1.
  { exists 0%nat. split; [| done]. intros k Hk. split; [lia |]. intros Hj.
    destruct (Hj 0 ltac:(lia)) as [Hi0 Hr]. by apply Hlim in Hr. }
  destruct Hlim as [Hl Hlim]. rewrite compares_Gt, compares_Lt.
  assert (forall x, i64 x -> (reaches step x limit <-> if 0 <? step then x <= l else l <= x)) as Hr
    by (intros x Hx; rewrite Hlim by done; apply reaches_integer).
  destruct (if 0 <? step then l <? i else i <? l) eqn:Hout.
  { exists 0%nat. split; [| done]. intros k Hk. split; [lia |].
    intros Hj. destruct (Hj 0 ltac:(lia)) as [Hi0 H0]. apply Hr in H0; [| done].
    destruct (0 <? step); lia. }
  destruct (reached_steps i l step Hi Hl Hs) as [n Hn]; [destruct (0 <? step); lia |].
  exists (S n). split.
  - intros k Hk. rewrite Nat2Z.inj_succ. split.
    + intros Hkn j Hj. pose proof (proj1 (Hn j ltac:(lia)) ltac:(lia)) as Hjl.
      assert (i64 (i + j * step)) as Hx by (unfold_ranges; destruct (Z.ltb_spec 0 step); nia).
      split; [done |]. by apply Hr.
    + intros Hj. destruct (Hj k ltac:(lia)) as [Hx Hk'%Hr]; [| done].
      apply Hn in Hk'; lia.
  - intros fuel Hf.
    cbn [mbind res_bind]. rewrite (advance_all_integers n) by done.
    cbn [mbind res_bind]. rewrite map_seqZ_succ. do 2 f_equal; [f_equal; lia |].
    apply (map_seqZ_shift (fun k => VInteger (i + k * step)) 0).
Qed.

Lemma integer_for_visits_witness :
  exists n : nat, run_for 10 (VInteger 10) (VFloat (S754_infinity true)) (VInteger (-4611686018427387904)) =
    Ok (map (fun k => VInteger (10 + k * -4611686018427387904)) (seqZ 0 (Z.of_nat n))).
Proof.
  destruct (integer_for_visits 10 (-4611686018427387904) (Float (S754_infinity true)))
    as (n & Hk & Hrun); [range_lia | range_lia | lia | done | done |].
  exists n. apply Hrun. destruct (decide (n <= 10)%nat); [done |]. exfalso.
  destruct (proj1 (Hk 10 ltac:(lia)) ltac:(lia) 10 ltac:(lia)) as [Hi _]. unfold_ranges. lia.
Defined.

(** ** Errors *)

(** A nonzero integer does not become a zero float. *)
Lemma shr_1_m r : 0 <= shr_m r -> shr_m (shr_1 r) = shr_m r / 2 /\ 0 <= shr_m (shr_1 r).
Proof.
  destruct r as [m r s]. cbn [shr_m]. intros Hm. unfold shr_1.
  destruct m as [| [p | p |] | p]; cbn [shr_m]; try done.
  - split; [| lia]. rewrite Pos2Z.inj_xI. apply (Z.div_unique _ _ _ 1); lia.
  - split; [| lia]. rewrite Pos2Z.inj_xO. apply (Z.div_unique _ _ _ 0); lia.
Qed.

Lemma iter_pos_shr p r :
  0 <= shr_m r ->
  shr_m (SpecFloat.iter_pos shr_1 p r) = shr_m r / 2 ^ Zpos p /\ 0 <= shr_m (SpecFloat.iter_pos shr_1 p r).
Proof.
  revert r. induction p as [p IH | p IH |]; intros r Hr; cbn [SpecFloat.iter_pos].
  - destruct (shr_1_m r Hr) as [E1 H1]. destruct (IH _ H1) as [E2 H2]. destruct (IH _ H2) as [E3 H3].
    split; [| done]. rewrite E3, E2, E1, !Z.div_div by (try lia; apply Z.pow_pos_nonneg; lia).
    f_equal. replace (Zpos p~1) with (1 + (Zpos p + Zpos p)) by lia.
    by rewrite !Z.pow_add_r by lia.
  - destruct (IH _ Hr) as [E2 H2]. destruct (IH _ H2) as [E3 H3].
    split; [| done]. rewrite E3, E2, !Z.div_div by (try lia; apply Z.pow_pos_nonneg; lia).
    f_equal. replace (Zpos p~0) with (Zpos p + Zpos p) by lia.
    by rewrite Z.pow_add_r by lia.
  - by apply shr_1_m.
Qed.

Lemma shr_round m e n :
  0 <= m -> shr_m (fst (shr (shr_record_of_loc m loc_Exact) e n)) = m / 2 ^ Z.max 0 n.
Proof.
  intros Hm. unfold shr. destruct n as [| p | p]; cbn [fst shr_record_of_loc shr_m].
  - by rewrite Z.div_1_r.
  - by apply (iter_pos_shr p).
  - by rewrite Z.div_1_r.
Qed.

Lemma round_at_least m l : m <= round_nearest_even m l.
Proof. unfold round_nearest_even. repeat case_match; lia. Qed.

Lemma round_at_most m l : round_nearest_even m l <= m + 1.
Proof. unfold round_nearest_even. repeat case_match; lia. Qed.

(** A shift to 53 bits of a number of at most 120 bits. *)
Lemma shr_fexp_nonzero m e :
  1 <= m < 2 ^ 120 -> -1000 <= e ->
  1 <= shr_m (fst (shr_fexp prec emax m e loc_Exact)) <= m /\
  e <= snd (shr_fexp prec emax m e loc_Exact) <= e + 67.
Proof.
  intros Hm He. unfold shr_fexp. rewrite shr_round by lia.
  assert (exists d, Zdigits2 m = d /\ 1 <= d <= 120 /\ 2 ^ (d - 1) <= m) as (d & -> & Hd & Hlo).
  { destruct m as [| m |]; try lia. eexists. split; [done |]. cbn [Zdigits2].
    pose proof (digits2_pos_bounds m) as [Hlo Hhi].
    assert (0 < Zpos (digits2_pos m)) by lia. set (d := Zpos (digits2_pos m)) in *. clearbody d.
    assert (d - 1 < 120) by (apply (Z.pow_lt_mono_r_iff 2); lia). lia. }
  set (n := fexp prec emax (d + e) - e).
  assert (n = Z.max (d - 53) (- 1074 - e)) as Hn
    by (unfold n, fexp, SpecFloat.emin, prec, emax; lia).
  split.
  - assert (Z.max 0 n <= d - 1) as Hn1 by lia.
    assert (0 < 2 ^ Z.max 0 n) by (apply Z.pow_pos_nonneg; lia).
    assert (2 ^ Z.max 0 n <= 2 ^ (d - 1)) by (apply Z.pow_le_mono_r; lia).
    split; [apply Z.div_le_lower_bound; lia |]. apply Z.div_le_upper_bound; nia.
  - unfold shr. destruct n eqn:E; cbn [snd]; lia.
Qed.

Lemma iter_xO m k : Zpos (Pos.iter xO m k) = Zpos m * 2 ^ Zpos k.
Proof.
  induction k as [| k IH] using Pos.peano_ind; [cbn; lia |].
  rewrite Pos.iter_succ, Pos2Z.inj_succ, Z.pow_succ_r by lia.
  rewrite Pos2Z.inj_xO, IH. ring.
Qed.

(** An integer of at most 64 bits, rounded to a float, keeps its sign and stays
    nonzero and finite. *)
Lemma binary_round_nonzero s m :
  Zpos m < 2 ^ 64 -> exists m' e', binary_round prec emax s m 0 = S754_finite s m' e'.
Proof.
  intros Hm. unfold binary_round.
  assert (exists M e, shl_align m 0 (fexp prec emax (Zpos (digits2_pos m) + 0)) = (M, e) /\
    1 <= Zpos M < 2 ^ 118 /\ -53 <= e <= 0) as (M & e & -> & HM & He).
  { unfold shl_align. set (ex := fexp prec emax _).
    assert (-53 <= ex) as Hn by (unfold ex, fexp, SpecFloat.emin, prec, emax; lia).
    destruct (ex - 0) as [| k | k] eqn:E; do 2 eexists; (split; [done |]); try (split; lia).
    rewrite iter_xO. assert (0 < 2 ^ Zpos k <= 2 ^ 53) as [Hk0 Hk]
      by (split; [apply Z.pow_pos_nonneg; lia | apply Z.pow_le_mono_r; lia]).
    split; [nia | lia]. }
  unfold binary_round_aux.
  destruct (shr_fexp_nonzero (Zpos M) e) as [H1 E1]; [lia | lia |].
  destruct (shr_fexp prec emax (Zpos M) e loc_Exact) as [r1 e1]. cbn [fst snd] in *.
  set (m2 := round_nearest_even _ _).
  pose proof (round_at_least (shr_m r1) (loc_of_shr_record r1)) as Hlo.
  pose proof (round_at_most (shr_m r1) (loc_of_shr_record r1)) as Hhi. fold m2 in Hlo, Hhi.
  destruct (shr_fexp_nonzero m2 e1) as [H2 E2]; [lia | lia |].
  destruct (shr_fexp prec emax m2 e1 loc_Exact) as [r2 e2]. cbn [fst snd] in *.
  destruct (shr_m r2) as [| p |]; try lia.
  replace (e2 <=? emax - prec) with true by (unfold emax, prec; lia). eauto.
Qed.

(** What stops a numeric [for]: a control value that is not a number, in the
    order initial, step, limit, with a zero step reported before the limit. *)
Definition for_error (initial limit step : Value) : option RuntimeErrorKind :=
  match number_of initial with
  | Err e => Some e
  | _ =>
      match number_of step with
      | Err e => Some e
      | Ok step =>
          if is_zero step then Some NumericForZeroStep
          else match number_of limit with Err e => Some e | _ => None end
      | Crash _ => None
      end
  end.

Lemma number_of_cases v : (exists n, number_of v = Ok n /\ v = value_of n) \/ exists e, number_of v = Err e.
Proof. destruct v; cbn; eauto. Qed.

(** The state [prepare] leaves and [next] keeps: one subtype, a nonzero step. *)
Definition loop_state (control limit step : Value) : Prop :=
  match control, limit, step with
  | VInteger _, VInteger _, VInteger step => step <> 0
  | VFloat _, VFloat _, VFloat step => f64_eqb step f64_zero = false
  | _, _, _ => False
  end.

Lemma next_loop_state control limit step :
  loop_state control limit step ->
  next control limit step = Ok Exit \/
  exists c v, next control limit step = Ok (AEnter c v) /\ loop_state c limit step.
Proof.
  destruct control, limit, step; cbn [loop_state]; try done; intros Hs; cbn [next].
  - replace (n1 =? 0) with false by lia. destruct (checked_add_i64 n n1); [| by left].
    destruct (in_range _ _ _ _); [right; by do 2 eexists | by left].
  - rewrite Hs. cbn [add as_float]. destruct (in_range _ _ _ _); [right; by do 2 eexists | by left].
Qed.

Lemma advance_all_no_error fuel control limit step e :
  loop_state control limit step -> advance_all fuel control limit step <> Err e.
Proof.
  revert control. induction fuel as [| fuel IH]; intros control Hs; cbn [advance_all]; [done |].
  destruct (next_loop_state _ _ _ Hs) as [-> | (c & v & -> & Hc)]; cbn [mbind res_bind]; [done |].
  specialize (IH c Hc). by destruct (advance_all fuel c limit step).
Qed.

Lemma float_of n : exists x, float n = Ok x /\ (number_ok n -> is_zero n = false -> f64_eqb x f64_zero = false).
Proof.
  destruct n as [n | x]; cbn [float add as_float is_zero number_ok]; [| eauto].
  eexists. split; [done |]. intros Hn Hz. unfold i64_as_f64, binary_normalize.
  destruct n as [| p | p]; [done | |];
    [destruct (binary_round_nonzero false p) as (m & e & ->) |
     destruct (binary_round_nonzero true p) as (m & e & ->)]; try (unfold_ranges; lia); done.
Qed.

Lemma skip_or_enter (b : bool) p :
  (if b then Ok Skip else Ok p) = @Ok RuntimeErrorKind _ Skip \/
  (if b then Ok Skip else Ok p) = @Ok RuntimeErrorKind _ p.
Proof. destruct b; auto. Qed.

Lemma prepare_loop_state initial limit step :
  number_ok step -> is_zero step = false ->
  prepare (value_of initial) (value_of limit) (value_of step) = Ok Skip \/
  exists c l s v, prepare (value_of initial) (value_of limit) (value_of step) = Ok (PEnter c l s v) /\
    loop_state c l s.
Proof.
  intros Hn Hz. unfold prepare. rewrite !number_of_value. cbn [mbind res_bind]. rewrite Hz.
  destruct (float_of initial) as (fi & -> & _). destruct (float_of limit) as (fl & -> & _).
  destruct (float_of step) as (fs & -> & Hf). specialize (Hf Hn Hz). cbn [mbind res_bind].
  assert (loop_state (VFloat fi) (VFloat fl) (VFloat fs)) as Hfloat by done.
  destruct initial, step;
    try (destruct (skip_or_enter (if compares (Float fs) (Float f64_zero) Gt
           then compares (Float fi) (Float fl) Gt else compares (Float fi) (Float fl) Lt)
           (PEnter (VFloat fi) (VFloat fl) (VFloat fs) (VFloat fi))) as [-> | ->];
         [by left | right; by do 4 eexists]).
  destruct (integer_limit _ _) as [l |]; [| by left].
  destruct (if compares _ _ _ then _ else _); [by left |].
  right. do 4 eexists. split; [done |]. cbn [loop_state is_zero] in *. lia.
Qed.

(** A numeric [for] fails only when it starts, and then exactly as [for_error]
    says: once [prepare] has accepted the three control values, no [next] ever
    reports an invalid state, however many rounds the loop makes and in
    whichever of the two subtypes it runs. *)
Theorem for_fails_only_at_start initial limit step fuel :
  (forall n, step = VInteger n -> i64 n) -> (forall x, step = VFloat x -> valid x) ->
  match for_error initial limit step with
  | Some e => run_for fuel initial limit step = Err e
  | None => forall e, run_for fuel initial limit step <> Err e
  end.
Proof.
  intros Hi Hx. unfold for_error, run_for.
  destruct (number_of_cases initial) as [(i & Hin & ->) | [e He]];
    [| unfold prepare; by rewrite He].
  destruct (number_of_cases step) as [(s & Hsn & ->) | [e He]];
    [| unfold prepare; by rewrite Hin, He].
  assert (number_ok s) as Hok by (destruct s; [by apply Hi | by apply Hx]).
  rewrite Hin, Hsn. destruct (is_zero s) eqn:Hz.
  { unfold prepare. rewrite Hin, Hsn. cbn [mbind res_bind]. by rewrite Hz. }
  destruct (number_of_cases limit) as [(l & Hln & ->) | [e He]].
  - rewrite Hln. intros e.
    destruct (prepare_loop_state i l s Hok Hz) as [-> | (c & l' & s' & v & -> & Hst)];
      cbn [mbind res_bind]; [done |].
    pose proof (advance_all_no_error fuel c l' s' e Hst). by destruct (advance_all fuel c l' s').
  - unfold prepare. rewrite Hin, Hsn. cbn [mbind res_bind]. by rewrite Hz, He.
Qed.

Lemma for_fails_only_at_start_witness :
  run_for 3 (VFloat f64_zero) VNil (VInteger 0) = Err NumericForZeroStep /\
  forall e, run_for 1000 (VFloat f64_zero) (VInteger 10) (VInteger 1) <> Err e.
Proof.
  split.
  - apply (for_fails_only_at_start (VFloat f64_zero) VNil (VInteger 0) 3); [by intros n [= <-] | done].
  - apply (for_fails_only_at_start (VFloat f64_zero) (VInteger 10) (VInteger 1) 1000);
      [by intros n [= <-] | done].
Defined.
