(* ===== verification/Bytecode.v ===== *)
(** The typed bytecode and its effect contract
    (crates/rivetlua-core/src/bytecode/mod.rs), with the module data that
    bytecode/codec.rs adds around it: identifiers, instructions, the effects of
    each instruction, limits, prototypes and modules. *)

From Stdlib Require Import ZArith Lia.
From stdpp Require Import base list numbers strings.
From S2P Require Import Prelude Number.

Local Open Scope Z_scope.

(** ** Identifiers (bytecode/mod.rs)

    The newtypes around [u16] and [u32]; [.0] is the identity here. *)

Definition Register : Set := Z.
Definition ConstId : Set := Z.
Definition UpvalueId : Set := Z.
Definition ProtoId : Set := Z.
Definition InstructionOffset : Set := Z.
Definition BytecodeVersion : Set := Z.

#[export] Instance Register_eq_dec : EqDecision Register := Z.eq_dec.
#[export] Instance UpvalueId_eq_dec : EqDecision UpvalueId := Z.eq_dec.
#[export] Instance ProtoId_eq_dec : EqDecision ProtoId := Z.eq_dec.

Definition RVLU_V1 : BytecodeVersion := 1.
Definition RVLU_V2 : BytecodeVersion := 2.

Inductive ProfileRequirement := Any | Only (p : LuaProfile).

Inductive ResultMode := Fixed (count : Z) | All.
#[export] Instance ResultMode_eq_dec : EqDecision ResultMode.
Proof. solve_decision. Defined.

Inductive EnvironmentSource :=
  | RootExternal
  | ParentFrame (parent : ProtoId) (register : Register)
  | ParentLocal (upvalue : UpvalueId)
  | ParentUpvalue (upvalue : UpvalueId).
#[export] Instance EnvironmentSource_eq_dec : EqDecision EnvironmentSource.
Proof. solve_decision. Defined.

Record FrameLayout := {
  register_limit : Z;
  initial_top : Register;
  dynamic_top : Register;
  return_base : Register;
  environment : Register;
  environment_source : EnvironmentSource;
  registers_start_as_nil : bool
}.

Module Unary.
Inductive UnaryOperation := Negate | Not | Length | BitNot.
#[export] Instance UnaryOperation_eq_dec : EqDecision UnaryOperation.
Proof. solve_decision. Defined.
End Unary.
Export (hints) Unary.

Module Binary.
Inductive BinaryOperation :=
  | Or | And | Equal | NotEqual | Less | LessEqual | Greater | GreaterEqual
  | Pipe | BitXor | Ampersand | ShiftLeft | ShiftRight | Concat | Add
  | Subtract | Multiply | Divide | FloorDivide | Modulo | Power.
#[export] Instance BinaryOperation_eq_dec : EqDecision BinaryOperation.
Proof. solve_decision. Defined.
End Binary.
Export (hints) Binary.

Module Op.
Inductive Opcode :=
  | LoadConst | LoadNil | Move | GetUpvalue | SetUpvalue | NewTable | GetTable
  | SetTable | UnaryOp | BinaryOp | Jump | JumpIfFalse | Closure | Call
  | TailCall | Vararg | Return | Close | NumericForPrepare | NumericForNext.
Definition ALL : list Opcode :=
  [LoadConst; LoadNil; Move; GetUpvalue; SetUpvalue; NewTable; GetTable;
   SetTable; UnaryOp; BinaryOp; Jump; JumpIfFalse; Closure; Call; TailCall;
   Vararg; Return; Close; NumericForPrepare; NumericForNext].
End Op.

Module Flow.
Inductive ControlFlow := Linear | Jump | ConditionalJump | Terminal.
End Flow.

(** ** Instructions *)

Inductive Instruction :=
  | LoadConst (dest : Register) (constant : ConstId)
  | LoadNil (start : Register) (count : Z)
  | Move (dest src : Register)
  | GetUpvalue (dest : Register) (upvalue : UpvalueId)
  | SetUpvalue (upvalue : UpvalueId) (src : Register)
  | NewTable (dest : Register)
  | GetTable (dest table key : Register)
  | SetTable (table key value : Register)
  | UnaryOp (dest : Register) (op : Unary.UnaryOperation) (src : Register)
  | BinaryOp (dest : Register) (op : Binary.BinaryOperation) (left right : Register)
  | Jump (target : InstructionOffset)
  | JumpIfFalse (condition : Register) (target : InstructionOffset)
  | Closure (dest : Register) (proto : ProtoId)
  | Call (base : Register) (arg_count : Z) (result_mode : ResultMode)
  | TailCall (base : Register) (arg_count : Z) (result_mode : ResultMode)
  | Vararg (base : Register) (result_mode : ResultMode)
  | Return (base : Register) (result_mode : ResultMode)
  | Close (base : Register) (count : Z)
  | NumericForPrepare (control limit step visible : Register) (exit : InstructionOffset)
  | NumericForNext (control limit step visible : Register) (target exit : InstructionOffset).
#[export] Instance Instruction_eq_dec : EqDecision Instruction.
Proof. solve_decision. Defined.

Definition opcode (i : Instruction) : Op.Opcode :=
  match i with
  | LoadConst _ _ => Op.LoadConst
  | LoadNil _ _ => Op.LoadNil
  | Move _ _ => Op.Move
  | GetUpvalue _ _ => Op.GetUpvalue
  | SetUpvalue _ _ => Op.SetUpvalue
  | NewTable _ => Op.NewTable
  | GetTable _ _ _ => Op.GetTable
  | SetTable _ _ _ => Op.SetTable
  | UnaryOp _ _ _ => Op.UnaryOp
  | BinaryOp _ _ _ _ => Op.BinaryOp
  | Jump _ => Op.Jump
  | JumpIfFalse _ _ => Op.JumpIfFalse
  | Closure _ _ => Op.Closure
  | Call _ _ _ => Op.Call
  | TailCall _ _ _ => Op.TailCall
  | Vararg _ _ => Op.Vararg
  | Return _ _ => Op.Return
  | Close _ _ => Op.Close
  | NumericForPrepare _ _ _ _ _ => Op.NumericForPrepare
  | NumericForNext _ _ _ _ _ _ => Op.NumericForNext
  end.

Definition profile_requirement (i : Instruction) : ProfileRequirement := Any.

(** ** Effects *)

Record InstructionEffects := {
  reads : list Register;
  writes : list Register;
  control_flow : Flow.ControlFlow;
  allocates : bool;
  writes_heap : bool;
  may_call : bool;
  may_yield : bool;
  may_error : bool;
  safe_point : bool
}.

Definition ALLOCATES : Z := Z.shiftl 1 0.
Definition WRITES_HEAP : Z := Z.shiftl 1 1.
Definition MAY_CALL : Z := Z.shiftl 1 2.
Definition MAY_YIELD : Z := Z.shiftl 1 3.
Definition MAY_ERROR : Z := Z.shiftl 1 4.
Definition SAFE_POINT : Z := Z.shiftl 1 5.

(** A union of flag bits. *)
Definition flags (fs : list Z) : Z := fold_left Z.lor fs 0.

Definition KNOWN_FLAGS : Z :=
  flags [ALLOCATES; WRITES_HEAP; MAY_CALL; MAY_YIELD; MAY_ERROR; SAFE_POINT].

Definition encoded_flags (e : InstructionEffects) : Z :=
  flags [if allocates e then ALLOCATES else 0;
         if writes_heap e then WRITES_HEAP else 0;
         if may_call e then MAY_CALL else 0;
         if may_yield e then MAY_YIELD else 0;
         if may_error e then MAY_ERROR else 0;
         if safe_point e then SAFE_POINT else 0].

Definition canonical_effect_flags (i : Instruction) : Z :=
  match i with
  | NewTable _ | Closure _ _ => flags [ALLOCATES; MAY_ERROR; SAFE_POINT]
  | GetTable _ _ _ => flags [MAY_CALL; MAY_YIELD; MAY_ERROR; SAFE_POINT]
  | SetTable _ _ _ => flags [WRITES_HEAP; MAY_CALL; MAY_YIELD; MAY_ERROR; SAFE_POINT]
  | BinaryOp _ Binary.Concat _ _ =>
      flags [ALLOCATES; MAY_CALL; MAY_YIELD; MAY_ERROR; SAFE_POINT]
  | UnaryOp _ _ _ | BinaryOp _ _ _ _ => flags [MAY_CALL; MAY_YIELD; MAY_ERROR; SAFE_POINT]
  | SetUpvalue _ _ => flags [WRITES_HEAP; SAFE_POINT]
  | Call _ _ _ | TailCall _ _ _ | Close _ _ =>
      flags [MAY_CALL; MAY_YIELD; MAY_ERROR; SAFE_POINT]
  | NumericForPrepare _ _ _ _ _ | NumericForNext _ _ _ _ _ _ => flags [MAY_ERROR; SAFE_POINT]
  | _ => 0
  end.

(** [u16::saturating_add]. *)
Definition saturating_add_u16 (a b : Z) : Z := Z.min U16_MAX (a + b).

(** [(0..count).map(|offset| Register(base.saturating_add(offset)))]. *)
Definition register_span (base : Register) (count : Z) : list Register :=
  map (fun offset => saturating_add_u16 base (Z.of_nat offset)) (seq 0 (Z.to_nat count)).

Definition result_span (base : Register) (mode : ResultMode) : list Register :=
  match mode with Fixed count => register_span base count | All => [base] end.

Definition effects (i : Instruction) : InstructionEffects :=
  let '(reads, writes, control_flow) :=
    match i with
    | LoadConst dest _ => ([], [dest], Flow.Linear)
    | LoadNil start count => ([], register_span start count, Flow.Linear)
    | Move dest src => ([src], [dest], Flow.Linear)
    | GetUpvalue dest _ => ([], [dest], Flow.Linear)
    | SetUpvalue _ src => ([src], [], Flow.Linear)
    | NewTable dest => ([], [dest], Flow.Linear)
    | GetTable dest table key => ([table; key], [dest], Flow.Linear)
    | SetTable table key value => ([table; key; value], [], Flow.Linear)
    | UnaryOp dest _ src => ([src], [dest], Flow.Linear)
    | BinaryOp dest _ lhs rhs => ([lhs; rhs], [dest], Flow.Linear)
    | Jump _ => ([], [], Flow.Jump)
    | JumpIfFalse condition _ => ([condition], [], Flow.ConditionalJump)
    | Closure dest _ => ([], [dest], Flow.Linear)
    | Call base arg_count result_mode =>
        (register_span base (arg_count + 1), result_span base result_mode, Flow.Linear)
    | TailCall base arg_count result_mode =>
        (register_span base (arg_count + 1), result_span base result_mode, Flow.Terminal)
    | Vararg base result_mode => ([], result_span base result_mode, Flow.Linear)
    | Return base result_mode => (result_span base result_mode, [], Flow.Terminal)
    | Close base count => (register_span base count, [], Flow.Linear)
    | NumericForPrepare control limit step visible _
    | NumericForNext control limit step visible _ _ =>
        ([control; limit; step], [control; visible], Flow.ConditionalJump)
    end in
  let f := canonical_effect_flags i in
  {| reads := reads; writes := writes; control_flow := control_flow;
     allocates := negb (Z.land f ALLOCATES =? 0);
     writes_heap := negb (Z.land f WRITES_HEAP =? 0);
     may_call := negb (Z.land f MAY_CALL =? 0);
     may_yield := negb (Z.land f MAY_YIELD =? 0);
     may_error := negb (Z.land f MAY_ERROR =? 0);
     safe_point := negb (Z.land f SAFE_POINT =? 0) |}.

(** ** Limits *)

Record IrLimits := {
  ir_max_prototypes : Z;
  ir_max_instructions : Z;
  ir_max_registers : Z;
  ir_max_upvalues_per_prototype : Z
}.

Definition IrLimits_default : IrLimits :=
  {| ir_max_prototypes := 4096; ir_max_instructions := 100000;
     ir_max_registers := 4096; ir_max_upvalues_per_prototype := 255 |}.

(** ** Modules (bytecode/codec.rs) *)

Definition RVLU_MAGIC : list Z := bytes_of_string "RVLU".
Definition RVLU_NUMERIC_I64_F64 : Z := 1.

Inductive BytecodeErrorCode := CompileLimit | Verify | AllocationFailed.

Record BytecodeError := bytecode_error {
  be_code : BytecodeErrorCode;
  be_offset : Z;
  be_message : string
}.

Record VerifyLimits := {
  max_module_bytes : Z;
  max_artifact_bytes : Z;
  max_prototypes : Z;
  max_instructions : Z;
  max_constants : Z;
  max_registers : Z;
  max_upvalues_per_prototype : Z
}.

Definition VerifyLimits_default : VerifyLimits :=
  {| max_module_bytes := 16 * 1024 * 1024; max_artifact_bytes := 16 * 1024 * 1024;
     max_prototypes := 4096; max_instructions := 100000; max_constants := 100000;
     max_registers := 4096; max_upvalues_per_prototype := 255 |}.

Record BytecodeSpan := { start_byte : Z; end_byte : Z }.
#[export] Instance BytecodeSpan_eq_dec : EqDecision BytecodeSpan.
Proof. solve_decision. Defined.

Record BytecodeBindingId := { bb_function : Z; bb_ordinal : Z }.
#[export] Instance BytecodeBindingId_eq_dec : EqDecision BytecodeBindingId.
Proof. solve_decision. Defined.

Inductive BytecodeExitKind := ExitNormal | ExitReturn | ExitBreak | ExitGoto | ExitError.
#[export] Instance BytecodeExitKind_eq_dec : EqDecision BytecodeExitKind.
Proof. solve_decision. Defined.

Inductive BytecodeUpvalueSource :=
  | FromParentLocal (binding : BytecodeBindingId)
  | FromParentUpvalue (upvalue : UpvalueId).

Record BytecodeUpvalue := { bu_id : UpvalueId; bu_source : BytecodeUpvalueSource }.

Record BytecodeClosePath := {
  cp_kind : BytecodeExitKind;
  cp_span : BytecodeSpan;
  from_scope : Z;
  target_scope : option Z;
  cp_bindings : list BytecodeBindingId;
  cp_registers : list Register
}.
#[export] Instance BytecodeClosePath_eq_dec : EqDecision BytecodeClosePath.
Proof. solve_decision. Defined.

Inductive BytecodeConstant :=
  | CInteger (n : Z)
  | CFloatBits (bits : Z)
  | CName (bytes : list Z)
  | CString (bytes : list Z)
  | CBoolean (b : bool).

Record BytecodeInstruction := {
  bi_instruction : Instruction;
  bi_span : BytecodeSpan;
  bi_close_path : option BytecodeClosePath
}.

Record BytecodePrototype := {
  p_id : ProtoId;
  p_function : Z;
  p_parent : option ProtoId;
  p_span : BytecodeSpan;
  register_count : Z;
  parameter_count : Z;
  is_variadic : bool;
  named_vararg : option (BytecodeBindingId * Register);
  frame : FrameLayout;
  global_environment : Register;
  global_environment_binding : BytecodeBindingId;
  binding_registers : list (BytecodeBindingId * Register);
  constants : list BytecodeConstant;
  upvalues : list BytecodeUpvalue;
  instructions : list BytecodeInstruction;
  close_paths : list BytecodeClosePath
}.

Record BytecodeModule := {
  format_version : BytecodeVersion;
  m_profile : LuaProfile;
  numeric_config : Z;
  m_span : BytecodeSpan;
  function_prototypes : list (Z * ProtoId);
  prototypes : list BytecodePrototype
}.

(** [verify] and [limit], the two error constructors of codec.rs. *)
Definition verify (offset : Z) (message : string) : BytecodeError :=
  bytecode_error Verify offset message.
Definition limit (offset : Z) (message : string) : BytecodeError :=
  bytecode_error CompileLimit offset message.

(** ** The two effect computations agree

    The flag byte the encoder writes from the opcode alone is the encoding of
    the full effect record, uses no bit outside [KNOWN_FLAGS], and the control
    flow of the record is terminal exactly for [Return] and [TailCall]. *)
Theorem effects_flags_canonical i :
  encoded_flags (effects i) = canonical_effect_flags i /\
  Z.land (canonical_effect_flags i) (Z.lnot KNOWN_FLAGS) = 0 /\
  u8 (canonical_effect_flags i) /\
  (control_flow (effects i) = Flow.Terminal <->
     (exists b m, i = Return b m) \/ (exists b a m, i = TailCall b a m)).
Proof.
  split_and!.
  - by destruct i as [| | | | | | | | | ? [] | | | | | | | | | |].
  - by destruct i as [| | | | | | | | | ? [] | | | | | | | | | |].
  - destruct i as [| | | | | | | | | ? [] | | | | | | | | | |]; vm_compute; split; discriminate.
  - destruct i; cbn; split; first [discriminate | intros [(? & ? & ?) | (? & ? & ? & ?)]; discriminate | eauto].
Qed.
