(* ===== verification/Verifier.v ===== *)
(** The bytecode verifier (crates/rivetlua-core/src/bytecode/codec.rs): the
    structural checks of a prototype and its instructions, the numeric-for
    pairing and its dominance check, the control-flow and open-result dataflow
    worklist, and [verify_module]. *)

From Stdlib Require Import ZArith Lia.
From stdpp Require Import base list numbers strings relations.
From S2P Require Import Prelude Number Bytecode.

Local Open Scope Z_scope.

(** ** The allocator

    What the code asks of [alloc::vec::Vec] and cannot compute itself: whether
    [try_reserve_exact] succeeds and the capacity it leaves (from the length,
    the capacity and the additional elements), and the total capacity, in
    bytes, of the control-flow vectors at the two places where they are
    summed (nothing on overflow). *)
Class Allocator := {
  try_reserve_exact : Z -> Z -> Z -> option Z;
  cfg_initial_bytes : BytecodePrototype -> option Z;
  cfg_allocated_bytes : BytecodePrototype -> option Z
}.

(** [try_reserve_exact]'s contract: room for what was asked, and no change
    when there already is. *)
Class AllocatorLaws (A : Allocator) := {
  try_reserve_exact_room len cap add cap' :
    try_reserve_exact len cap add = Some cap' -> len + add <= cap' /\ cap <= cap';
  try_reserve_exact_same len cap add :
    len + add <= cap -> try_reserve_exact len cap add = Some cap
}.

(** An allocator that gives exactly what is asked and never refuses. *)
Definition exact_allocator : Allocator := {|
  try_reserve_exact len cap add := Some (Z.max cap (len + add));
  cfg_initial_bytes _ := Some 0;
  cfg_allocated_bytes _ := Some 0
|}.

#[export] Instance exact_allocator_laws : AllocatorLaws exact_allocator.
Proof.
  split; cbn; intros len cap add.
  - intros cap' [= <-]. lia.
  - intros H. f_equal. lia.
Qed.

(** ** Frames, ranges and targets *)

Definition register_in_frame (p : BytecodePrototype) (base : Register) (count : Z)
    (message : string) : res BytecodeError unit :=
  if base + count <=? U32_MAX
  then fail_if (register_count p <=? base + count) (verify 0 message)
  else Err (verify 0 message).

Definition validate_result_range (p : BytecodePrototype) (base : Register) (mode : ResultMode)
    : res BytecodeError unit :=
  match mode with
  | Fixed count =>
      if count =? 0 then register_in_frame p base 0 "RVLU result base 超出 frame"
      else register_in_frame p base (count - 1) "RVLU result range 超出 frame"
  | All => register_in_frame p base 0 "RVLU open result base 超出 frame"
  end.

Definition require_upvalue (p : BytecodePrototype) (upvalue : UpvalueId) : res BytecodeError unit :=
  if existsb (fun candidate => bu_id candidate =? upvalue) (upvalues p)
  then Ok tt else Err (verify 0 "RVLU upvalue index 無效").

Definition require_jump_target (p : BytecodePrototype) (index : Z) (target : InstructionOffset)
    : res BytecodeError unit :=
  fail_if ((zlen (instructions p) <=? target) || (target =? index))
    (verify 0 "RVLU jump target 無效或 self-loop").

(** ** Close paths *)

Definition opt_eqb {A} `{EqDecision A} (a b : option A) : bool := bool_decide (a = b).

(** The register a binding is mapped to. *)
Definition find_binding (p : BytecodePrototype) (binding : BytecodeBindingId) : option Register :=
  snd <$> find (fun entry => bool_decide (entry.1 = binding)) (binding_registers p).

Definition validate_close_path (p : BytecodePrototype) (path : BytecodeClosePath)
    : res BytecodeError unit :=
  fail_if ((end_byte (cp_span path) <? start_byte (cp_span path))
           || (end_byte (p_span p) <? end_byte (cp_span path))
           || negb (zlen (cp_bindings path) =? zlen (cp_registers path)))
    (verify 0 "RVLU ClosePath metadata 無效");;
  for_each (fun entry : BytecodeBindingId * Register =>
      let (binding, register) := entry in
      fail_if (negb (opt_eqb (find_binding p binding) (Some register)))
        (verify 0 "RVLU ClosePath binding/register 不符"))
    (combine (cp_bindings path) (cp_registers path)).

Definition is_close (i : Instruction) : bool :=
  match i with Close _ _ => true | _ => false end.

(** One iteration of the [while] of [validate_close_sequences], at an index
    inside the instructions; the next index. *)
Definition close_sequence_step (p : BytecodePrototype) (index : Z) (entry : BytecodeInstruction)
    : res BytecodeError Z :=
  match is_close (bi_instruction entry), bi_close_path entry with
  | true, Some path =>
      fail_if (zlen (cp_registers path) =? 0) (verify 0 "RVLU ClosePath 不可對應空 Close 序列");;
      for_each (fun oe : Z * Register =>
          let (offset, expected) := oe in
          match zget (instructions p) (index + offset) with
          | None => Err (verify 0 "RVLU ClosePath Close 序列缺漏")
          | Some actual =>
              match bi_instruction actual, bi_close_path actual with
              | Close base 1, Some actual_path =>
                  fail_if (negb ((base =? expected) && bool_decide (actual_path = path)))
                    (verify 0 "RVLU ClosePath Close 順序或連續性不符")
              | _, _ => Err (verify 0 "RVLU ClosePath Close 順序或連續性不符")
              end
          end)
        (enumerate (cp_registers path));;
      match checked_add_usize index (zlen (cp_registers path)) with
      | None => Err (limit 0 "RVLU ClosePath 序列長度溢位")
      | Some after_close =>
          let pending_tail_call :=
            bool_decide (cp_kind path = ExitReturn)
            && match bi_instruction <$> zget (instructions p) after_close with
               | Some (TailCall _ _ All) => true
               | _ => false
               end in
          fail_if pending_tail_call
            (verify 0 "RVLU 有 pending ClosePath 的 return 不可使用 TailCall(All)");;
          Ok after_close
      end
  | _, _ => Ok (index + 1)
  end.

Fixpoint close_sequences_loop (fuel : nat) (p : BytecodePrototype) (index : Z)
    : res BytecodeError unit :=
  match zget (instructions p) index with
  | None => Ok tt
  | Some entry =>
      match fuel with
      | O => Crash OutOfFuel
      | S fuel => next ← close_sequence_step p index entry; close_sequences_loop fuel p next
      end
  end.

Definition validate_close_sequences (p : BytecodePrototype) : res BytecodeError unit :=
  close_sequences_loop (length (instructions p)) p 0.

Definition validate_close_declaration_markers (p : BytecodePrototype) : res BytecodeError unit :=
  declared ← fold_res (fun declared entry =>
      match bi_instruction entry, bi_close_path entry with
      | Move dest _, Some path =>
          binding ← vget (cp_bindings path) 0;
          fail_if (contains declared binding) (verify 0 "RVLU close binding 宣告 marker 重複");;
          fail_if (negb (existsb (fun exit =>
                      existsb (fun cr : BytecodeBindingId * Register =>
                          bool_decide (cr.1 = binding) && (cr.2 =? dest))
                        (combine (cp_bindings exit) (cp_registers exit)))
                    (close_paths p)))
            (verify 0 "RVLU close binding 宣告 marker 無對應出口");;
          Ok (declared ++ [binding])
      | _, _ => Ok declared
      end) [] (instructions p);
  for_each (fun path =>
      for_each (fun binding =>
          fail_if (negb (contains declared binding)) (verify 0 "RVLU close binding 缺少宣告 marker"))
        (cp_bindings path))
    (close_paths p).

Definition validate_metadata (p : BytecodePrototype) : res BytecodeError unit :=
  bindings ← fold_res (fun bindings (entry : BytecodeBindingId * Register) =>
      let (binding, register) := entry in
      fail_if (contains bindings binding || (register_count p <=? register))
        (verify 0 "RVLU binding/register metadata 無效");;
      Ok (bindings ++ [binding])) [] (binding_registers p);
  fail_if (bool_decide (environment_source (frame p) = RootExternal)
           && negb (contains bindings (global_environment_binding p)))
    (verify 0 "RVLU root environment binding 缺少 register");;
  ids ← fold_res (fun ids upvalue =>
      fail_if ((zlen (upvalues p) <=? bu_id upvalue) || contains ids (bu_id upvalue))
        (verify 0 "RVLU upvalue metadata 無效");;
      Ok (ids ++ [bu_id upvalue])) [] (upvalues p);
  for_each (validate_close_path p) (close_paths p);;
  validate_close_sequences p.

(** ** Instruction shapes *)

Definition validate_numeric_for_registers (register : Register -> res BytecodeError unit)
    (control limit step visible : Register) : res BytecodeError unit :=
  for_each register [control; limit; step; visible];;
  fail_if ((control =? limit) || (control =? step) || (control =? visible)
           || (limit =? step) || (limit =? visible) || (step =? visible))
    (verify 0 "RVLU NumericFor 控制/limit/step/可見 variable register 必須分離").

(** The register is that of a binding a direct child captures. *)
Definition captured (p : BytecodePrototype) (module : BytecodeModule) (base : Register) : bool :=
  existsb (fun entry : BytecodeBindingId * Register =>
      (entry.2 =? base)
      && existsb (fun child =>
             opt_eqb (p_parent child) (Some (p_id p))
             && existsb (fun upvalue =>
                    match bu_source upvalue with
                    | FromParentLocal local => bool_decide (local = entry.1)
                    | FromParentUpvalue _ => false
                    end)
                  (upvalues child))
           (prototypes module))
    (binding_registers p).

(** The first [match] of [validate_instruction_shape]: operands in range. *)
Definition validate_operands (p : BytecodePrototype) (module : BytecodeModule) (index : Z)
    (i : Instruction) : res BytecodeError unit :=
  let register r := register_in_frame p r 0 "RVLU register 超出 frame" in
  let range base count := register_in_frame p base count "RVLU register range 超出 frame" in
  match i with
  | LoadConst dest constant =>
      register dest;;
      fail_if (zlen (constants p) <=? constant) (verify 0 "RVLU constant index 無效")
  | LoadNil start count =>
      fail_if (count =? 0) (verify 0 "RVLU LoadNil count 不可為零");;
      range start (count - 1)
  | Move dest src => register dest;; register src
  | GetUpvalue dest upvalue => register dest;; require_upvalue p upvalue
  | SetUpvalue upvalue src => require_upvalue p upvalue;; register src
  | NewTable dest => register dest
  | GetTable dest table key => register dest;; register table;; register key
  | SetTable table key value => register table;; register key;; register value
  | UnaryOp dest _ src => register dest;; register src
  | BinaryOp dest op lhs rhs =>
      fail_if (bool_decide (op = Binary.And) || bool_decide (op = Binary.Or))
        (verify 0 "RVLU v2 不可用 BinaryOp 表示 and/or");;
      register dest;; register lhs;; register rhs
  | Jump target => require_jump_target p index target
  | JumpIfFalse condition target => register condition;; require_jump_target p index target
  | Closure dest proto =>
      register dest;;
      fail_if (negb (existsb (fun candidate =>
                  (p_id candidate =? proto) && opt_eqb (p_parent candidate) (Some (p_id p)))
                (prototypes module)))
        (verify 0 "RVLU Closure child prototype 無效")
  | Call base arg_count result_mode | TailCall base arg_count result_mode =>
      (if arg_count =? U16_MAX then register base else range base arg_count);;
      validate_result_range p base result_mode
  | Vararg base result_mode =>
      fail_if (negb (is_variadic p)) (verify 0 "RVLU 非 variadic prototype 不可使用 Vararg");;
      register base;;
      validate_result_range p base result_mode
  | Return base result_mode => register base;; validate_result_range p base result_mode
  | Close base count =>
      if count =? 0
      then register base;;
           fail_if (negb (captured p module base))
             (verify 0 "RVLU scope Close 未對應直接 child capture")
      else range base (count - 1)
  | NumericForPrepare control limit step visible exit =>
      validate_numeric_for_registers register control limit step visible;;
      require_jump_target p index exit;;
      fail_if (exit <=? index) (verify 0 "RVLU NumericForPrepare exit 必須為前向 CFG edge")
  | NumericForNext control limit step visible target exit =>
      validate_numeric_for_registers register control limit step visible;;
      (if target =? index then Ok tt else require_jump_target p index target);;
      require_jump_target p index exit;;
      fail_if ((index <? target) || (exit <=? index))
        (verify 0 "RVLU NumericForNext 必須有後向或自身回邊與前向 exit CFG edge")
  end.

(** The second [match]: which instructions carry a close path, and which. *)
Definition validate_close_link (p : BytecodePrototype) (entry : BytecodeInstruction)
    : res BytecodeError unit :=
  match bi_instruction entry, bi_close_path entry with
  | Move dest _, Some path =>
      validate_close_path p path;;
      fail_if (negb (bool_decide (cp_kind path = ExitNormal))
               || negb (opt_eqb (target_scope path) (Some (from_scope path)))
               || negb (zlen (cp_bindings path) =? 1)
               || negb (bool_decide (cp_registers path = [dest]))
               || negb (bool_decide (cp_span path = bi_span entry)))
        (verify 0 "RVLU close binding 宣告 marker 無效")
  | Close _ 0, None => Ok tt
  | Close base 1, Some path =>
      validate_close_path p path;;
      fail_if ((opt_eqb (target_scope path) (Some (from_scope path))
                && (negb (bool_decide (cp_kind path = ExitGoto))
                    || negb (bool_decide (cp_span path = bi_span entry))))
               || negb (contains (close_paths p) path)
               || negb (contains (cp_registers path) base))
        (verify 0 "RVLU Close 缺少對應 ClosePath")
  | Close _ _, _ => Err (verify 0 "RVLU Close 必須連結單一 ClosePath")
  | _, Some _ => Err (verify 0 "非 Close instruction 不可攜帶 ClosePath")
  | _, None => Ok tt
  end.

Definition validate_instruction_shape (p : BytecodePrototype) (module : BytecodeModule) (index : Z)
    (entry : BytecodeInstruction) : res BytecodeError unit :=
  validate_operands p module index (bi_instruction entry);;
  validate_close_link p entry.

(** ** Control flow and open results *)

Definition dynamic_consumer (i : Instruction) : bool :=
  match i with
  | Call _ arg_count _ | TailCall _ arg_count _ => arg_count =? U16_MAX
  | _ => false
  end.

Definition outer_base (i : Instruction) : option Register :=
  match i with Call base _ _ | TailCall base _ _ => Some base | _ => None end.

(** The backward scan for the producer of a dynamic call's arguments, from
    [previous] down. *)
Fixpoint dynamic_source (p : BytecodePrototype) (outer producer : Register) (previous : nat)
    : res BytecodeError (option Register) :=
  entry ← vget (instructions p) (Z.of_nat previous);
  match bi_instruction entry with
  | Move dest src =>
      if (dest <? outer) && (src <? producer) then
        match previous with
        | O => Err (verify 0 "RVLU 動態 call 缺少 open producer")
        | S previous => dynamic_source p outer producer previous
        end
      else Ok None
  | Call base _ All | Vararg base All => Ok (Some base)
  | _ => Ok None
  end.

Definition check_dynamic_call (p : BytecodePrototype) (index : Z) (i : Instruction)
    (open : option Register) : res BytecodeError unit :=
  match open with
  | None => Err (verify 0 "RVLU 動態 call 引數缺少 open producer")
  | Some producer =>
      match outer_base i with
      | None => Err (verify 0 "RVLU 動態 call consumer 類型無效")
      | Some outer =>
          if index =? 0 then Err (verify 0 "RVLU 動態 call 缺少 open producer")
          else
            source ← dynamic_source p outer producer (Z.to_nat (index - 1));
            fail_if (negb (opt_eqb source (Some producer)) || (producer <=? outer))
              (verify 0 "RVLU 動態 call 引數 producer 順序或 base 無效")
      end
  end.

(** What may run while a result list is open. *)
Definition top_preserving_move (open : option Register) (i : Instruction) : bool :=
  match open, i with
  | Some producer, Move dest src => (dest <? producer) && (src <? producer)
  | _, _ => false
  end.

Definition accepts_open (i : Instruction) : bool :=
  match i with Close _ _ | Return _ All => true | _ => false end.

Definition next_open (open : option Register) (i : Instruction)
    : res BytecodeError (option Register) :=
  match i with
  | Call base _ All | Vararg base All => Ok (Some base)
  | Call _ arg_count _ => Ok (if arg_count =? U16_MAX then None else open)
  | Return base All =>
      match open with
      | Some producer =>
          if base <=? producer then Ok None
          else Err (verify 0 "RVLU Return(All) 缺少可涵蓋的 open result")
      | None => Err (verify 0 "RVLU Return(All) 缺少可涵蓋的 open result")
      end
  | TailCall _ _ All => Ok None
  | _ => Ok open
  end.

Definition cfg_successors (count index : Z) (i : Instruction) : res BytecodeError (list Z) :=
  match i with
  | Jump target => Ok [target]
  | JumpIfFalse _ target =>
      fail_if (negb (index + 1 <? count)) (verify 0 "RVLU conditional jump fall-through 到 proto 尾端");;
      Ok [target; index + 1]
  | NumericForPrepare _ _ _ _ exit =>
      fail_if (negb (index + 1 <? count)) (verify 0 "RVLU NumericForPrepare fall-through 到 proto 尾端");;
      Ok [exit; index + 1]
  | NumericForNext _ _ _ _ target exit => Ok [target; exit]
  | Return _ _ | TailCall _ _ _ => Ok []
  | _ =>
      fail_if (negb (index + 1 <? count)) (verify 0 "RVLU reachable fall-through 到 proto 尾端");;
      Ok [index + 1]
  end.

(** The states of the instructions (unvisited, or visited with the open result
    list's base, if any) and the worklist, its last element first. *)
Definition CfgState : Type := list (option (option Register)) * list Z.

Definition visit_successor (max : Z) (open : option Register) (s : CfgState) (successor : Z)
    : res BytecodeError CfgState :=
  let (states, worklist) := s in
  match zget states successor with
  | None => Err (verify 0 "RVLU CFG successor 超出範圍")
  | Some (Some existing) =>
      fail_if (negb (opt_eqb existing open)) (verify 0 "RVLU CFG join dynamic top 不一致");;
      Ok (states, worklist)
  | Some None =>
      fail_if (max <=? zlen worklist) (limit 0 "RVLU CFG worklist 超過限制");;
      Ok (zinsert states successor (Some open), successor :: worklist)
  end.

(** One round of the worklist: the instruction at [index] is checked in its
    state and its successors are given theirs. *)
Definition cfg_step (p : BytecodePrototype) (max : Z) (index : Z)
    (states : list (option (option Register))) (worklist : list Z) : res BytecodeError CfgState :=
  state ← vget states index;
  match state with
  | None => Err (verify 0 "RVLU CFG worklist state 遺失")
  | Some open =>
      entry ← vget (instructions p) index;
      let i := bi_instruction entry in
      (if dynamic_consumer i then check_dynamic_call p index i open else Ok tt);;
      fail_if (bool_decide (is_Some open) && negb (accepts_open i)
               && negb (dynamic_consumer i) && negb (top_preserving_move open i))
        (verify 0 "RVLU open result 未立即流向 Return(All)");;
      open ← next_open open i;
      successors ← cfg_successors (zlen (instructions p)) index i;
      fold_res (visit_successor max open) (states, worklist) successors
  end.

Fixpoint cfg_loop (fuel : nat) (p : BytecodePrototype) (max : Z) (s : CfgState)
    : res BytecodeError unit :=
  match s with
  | (_, []) => Ok tt
  | (states, index :: worklist) =>
      match fuel with
      | O => Crash OutOfFuel
      | S fuel => s ← cfg_step p max index states worklist; cfg_loop fuel p max s
      end
  end.

(** Every instruction enters the worklist at most once, so as many rounds as
    instructions are enough. *)
Definition verify_control_and_dataflow (p : BytecodePrototype) (limits : VerifyLimits)
    : res BytecodeError unit :=
  let count := zlen (instructions p) in
  fail_if (count =? 0) (verify 0 "RVLU prototype 不可空且不得 fall-through");;
  fail_if (dynamic_top (frame p) <? initial_top (frame p))
    (verify 0 "RVLU frame dynamic top 不可低於 initial top");;
  fail_if (max_instructions limits <? count) (limit 0 "RVLU CFG worklist 超過限制");;
  let states := zinsert (repeat None (length (instructions p))) 0 (Some None) in
  cfg_loop (length (instructions p)) p (max_instructions limits) (states, [0]).

(** ** Numeric-for pairs *)

(** The four registers, the instruction index and the exit of a
    [NumericForPrepare]. *)
Definition Prepare : Type := (Z * Z * Z * Z) * Z * InstructionOffset.

Definition prepare_of (entry : Z * BytecodeInstruction) : option Prepare :=
  match bi_instruction entry.2 with
  | NumericForPrepare control limit step visible exit =>
      Some ((control, limit, step, visible), entry.1, exit)
  | _ => None
  end.

Definition is_prepare (i : Instruction) : bool :=
  match i with NumericForPrepare _ _ _ _ _ => true | _ => false end.
Definition is_next (i : Instruction) : bool :=
  match i with NumericForNext _ _ _ _ _ _ => true | _ => false end.

Definition count_instructions (f : Instruction -> bool) (p : BytecodePrototype) : Z :=
  zlen (List.filter (fun entry => f (bi_instruction entry)) (instructions p)).

(** [usize::checked_mul]. *)
Definition checked_mul_usize (a b : Z) : option Z :=
  if a * b <=? USIZE_MAX then Some (a * b) else None.

(** [a.checked_mul(b).is_none_or(|bound| used > bound)]. *)
Definition exceeds_bound (a b used : Z) : bool :=
  match checked_mul_usize a b with Some bound => bound <? used | None => true end.

(** The pair, by instruction index, that a [NumericForNext] belongs to. *)
Definition pair_next (prepares : list Prepare) (next_index : Z) (i : Instruction)
    : res BytecodeError (option (Z * Z)) :=
  match i with
  | NumericForNext control limit step visible target exit =>
      match List.filter (fun pr : Prepare =>
              bool_decide (pr.1.1 = (control, limit, step, visible))) prepares with
      | [] => Err (verify 0 "RVLU NumericForNext 必須唯一配對 NumericForPrepare")
      | _ :: _ :: _ => Err (verify 0 "RVLU NumericForNext 必須唯一配對 NumericForPrepare")
      | [(_, prepare_index, prepare_exit)] =>
          fail_if (negb (prepare_exit =? exit)
                   || negb (opt_eqb (checked_add_usize prepare_index 1) (Some target))
                   || (next_index <? target))
            (verify 0 "RVLU NumericForPrepare/Next 的 body target 或 exit 不符");;
          Ok (Some (prepare_index, next_index))
      end
  | _ => Ok None
  end.

Section Dominance.
Context `{Allocator}.

(** The control-flow graph of [validate_numeric_for_body_dominance]: each
    [NumericForPrepare] at [index] has an extra node, its gate, on the edge
    to its body. *)
Definition push_at (edges : list (list Z)) (node successor : Z) : res BytecodeError (list (list Z)) :=
  successors ← vget edges node;
  vset edges node (successors ++ [successor]).

Definition assign_gates (p : BytecodePrototype) : res BytecodeError (list (option Z) * Z) :=
  fold_res (fun (s : list (option Z) * Z) (entry : Z * BytecodeInstruction) =>
      let (gates, next_gate) := s in
      if is_prepare (bi_instruction entry.2)
      then gates ← vset gates entry.1 (Some next_gate); Ok (gates, next_gate + 1)
      else Ok s)
    (repeat None (length (instructions p)), zlen (instructions p))
    (enumerate (instructions p)).

Definition add_edges (count : Z) (gates : list (option Z)) (edges : list (list Z))
    (entry : Z * BytecodeInstruction) : res BytecodeError (list (list Z)) :=
  let (index, instruction) := entry in
  match bi_instruction instruction with
  | Jump target => push_at edges index target
  | JumpIfFalse _ target =>
      edges ← push_at edges index target;
      if index + 1 <? count then push_at edges index (index + 1) else Ok edges
  | NumericForPrepare _ _ _ _ exit =>
      edges ← push_at edges index exit;
      gate ← vget gates index;
      match gate with
      | Some gate => edges ← push_at edges index gate; push_at edges gate (index + 1)
      | None => Ok edges
      end
  | NumericForNext _ _ _ _ target exit =>
      edges ← push_at edges index target; push_at edges index exit
  | Return _ _ | TailCall _ _ _ => Ok edges
  | _ => if index + 1 <? count then push_at edges index (index + 1) else Ok edges
  end.

Definition cfg_edges (p : BytecodePrototype) (gates : list (option Z)) (next_gate : Z)
    : res BytecodeError (list (list Z)) :=
  fold_res (add_edges (zlen (instructions p)) gates) (repeat [] (Z.to_nat next_gate))
    (enumerate (instructions p)).

Definition cfg_predecessors (edges : list (list Z)) : res BytecodeError (list (list Z)) :=
  fold_res (fun predecessors (ns : Z * list Z) =>
      fold_res (fun predecessors successor => push_at predecessors successor ns.1)
        predecessors ns.2)
    (repeat [] (length edges)) (enumerate edges).

(** The depth-first search: the stack has its last element first, and each
    finished node is put in front, which is [postorder] once reversed. *)
Fixpoint dfs (fuel : nat) (edges : list (list Z)) (visited : list bool) (postorder : list Z)
    (stack : list (Z * Z)) : res BytecodeError (list bool * list Z) :=
  match stack with
  | [] => Ok (visited, postorder)
  | (node, next_successor) :: rest =>
      match fuel with
      | O => Crash OutOfFuel
      | S fuel =>
          successors ← vget edges node;
          if next_successor <? zlen successors then
            successor ← vget successors next_successor;
            seen ← vget visited successor;
            let stack := (node, next_successor + 1) :: rest in
            if (seen : bool) then dfs fuel edges visited postorder stack
            else
              visited ← vset visited successor true;
              dfs fuel edges visited postorder ((successor, 0) :: stack)
          else dfs fuel edges visited (node :: postorder) rest
      end
  end.

Definition dfs_fuel (edges : list (list Z)) : nat :=
  (length (concat edges) + length edges + 1)%nat.

Definition spend_work (work : Z) : res BytecodeError Z :=
  if 1 <=? work then Ok (work - 1) else Err (limit 0 "RVLU CFG dominator 工作量超過限制").

Definition idom_of (idom : list (option Z)) (node : Z) : res BytecodeError Z :=
  d ← vget idom node;
  match d with Some d => Ok d | None => Err (verify 0 "RVLU CFG dominator state 無效") end.

(** [while left != right]: the two inner loops advance the node that comes
    later in the order; with [left = right] neither of them moves. *)
Fixpoint intersect (fuel : nat) (order : list Z) (idom : list (option Z)) (work left right : Z)
    : res BytecodeError (Z * Z) :=
  if left =? right then Ok (left, work)
  else
    match fuel with
    | O => Crash OutOfFuel
    | S fuel =>
        l ← vget order left;
        r ← vget order right;
        if r <? l then
          work ← spend_work work; left ← idom_of idom left;
          intersect fuel order idom work left right
        else if l <? r then
          work ← spend_work work; right ← idom_of idom right;
          intersect fuel order idom work left right
        else intersect fuel order idom work left right
    end.

Definition join_predecessor (order : list Z) (idom : list (option Z))
    (s : option Z * Z) (predecessor : Z) : res BytecodeError (option Z * Z) :=
  let (candidate, work) := s in
  work ← spend_work work;
  known ← vget idom predecessor;
  match known, candidate with
  | None, _ => Ok (candidate, work)
  | Some _, None => Ok (Some predecessor, work)
  | Some _, Some current =>
      joined ← intersect (S (Z.to_nat work)) order idom work predecessor current;
      Ok (Some joined.1, joined.2)
  end.

(** One pass over the nodes: the dominators, whether one changed, and the
    work left. *)
Definition dominator_pass (predecessors : list (list Z)) (order : list Z)
    (s : list (option Z) * bool * Z) (node : Z) : res BytecodeError (list (option Z) * bool * Z) :=
  let '(idom, changed, work) := s in
  preds ← vget predecessors node;
  cw ← fold_res (join_predecessor order idom) (None, work) preds;
  old ← vget idom node;
  if opt_eqb old cw.1 then Ok (idom, changed, cw.2)
  else idom ← vset idom node cw.1; Ok (idom, true, cw.2).

Fixpoint dominators (fuel : nat) (predecessors : list (list Z)) (order nodes : list Z)
    (idom : list (option Z)) (work : Z) : res BytecodeError (list (option Z)) :=
  match fuel with
  | O => Crash OutOfFuel
  | S fuel =>
      s ← fold_res (dominator_pass predecessors order) (idom, false, work) nodes;
      let '(idom, changed, work) := s in
      if (changed : bool) then dominators fuel predecessors order nodes idom work
      else Ok idom
  end.

Definition node_order (n : nat) (postorder : list Z) : res BytecodeError (list Z) :=
  fold_res (fun order (pn : Z * Z) => vset order pn.2 pn.1)
    (repeat USIZE_MAX n) (enumerate postorder).

Definition dominator_children (idom : list (option Z)) : res BytecodeError (list (list Z)) :=
  fold_res (fun children (np : Z * option Z) =>
      match np.2 with
      | Some parent => push_at children parent np.1
      | None => Ok children
      end)
    (repeat [] (length idom)) (tail (enumerate idom)).

(** The entry and exit ticks of every node of the dominator tree. *)
Fixpoint number_tree (fuel : nat) (children : list (list Z)) (entry exit : list Z) (tick : Z)
    (stack : list (Z * bool)) : res BytecodeError (list Z * list Z) :=
  match stack with
  | [] => Ok (entry, exit)
  | (node, leaving) :: stack =>
      match fuel with
      | O => Crash OutOfFuel
      | S fuel =>
          let tick := tick + 1 in
          if (leaving : bool) then
            exit ← vset exit node tick;
            number_tree fuel children entry exit tick stack
          else
            entry ← vset entry node tick;
            nodes ← vget children node;
            number_tree fuel children entry exit tick
              (map (fun child => (child, false)) nodes ++ (node, true) :: stack)
      end
  end.

(** [prepare]'s gate dominates [next] by the tree's intervals, unless [next]
    is not reachable. *)
Definition check_pair (gates : list (option Z)) (visited : list bool) (entry exit : list Z)
    (pn : Z * Z) : res BytecodeError unit :=
  let (prepare, next) := pn in
  reachable ← vget visited next;
  if negb reachable then Ok tt
  else
    gate ← vget gates prepare;
    match gate with
    | None => Err (verify 0 "RVLU NumericForPrepare gate 缺失")
    | Some gate =>
        seen ← vget visited gate;
        eg ← vget entry gate; en ← vget entry next;
        xn ← vget exit next; xg ← vget exit gate;
        fail_if (negb seen || negb ((eg <=? en) && (xn <=? xg)))
          (verify 0 "RVLU NumericForNext 路徑未經對應 NumericForPrepare body entry")
    end.

Definition check_capacity (count : Z) (used : option Z) : res BytecodeError unit :=
  match used with
  | None => Err (limit 0 "RVLU NumericFor CFG 容量溢位")
  | Some used =>
      fail_if (exceeds_bound count 768 used) (limit 0 "RVLU NumericFor CFG 實際容量超過預掃描上界")
  end.

Definition validate_numeric_for_body_dominance (p : BytecodePrototype) (pairs : list (Z * Z))
    : res BytecodeError unit :=
  if zlen pairs =? 0 then Ok tt
  else
    let count := zlen (instructions p) in
    gn ← assign_gates p;
    let (gates, next_gate) := gn : list (option Z) * Z in
    let n := Z.to_nat next_gate in
    edges ← cfg_edges p gates next_gate;
    predecessors ← cfg_predecessors edges;
    visited ← vset (repeat false n) 0 true;
    vp ← dfs (dfs_fuel edges) edges visited [] [(0, 0)];
    let (visited, postorder) := vp : list bool * list Z in
    order ← node_order n postorder;
    idom ← vset (repeat None n) 0 (Some 0);
    check_capacity count (cfg_initial_bytes p);;
    let work := Z.min USIZE_MAX (count * 128) in
    idom ← dominators (S (S (Z.to_nat work))) predecessors order (tail postorder) idom work;
    children ← dominator_children idom;
    ee ← number_tree (2 * n) children (repeat 0 n) (repeat 0 n) 0 [(0, false)];
    let (entry, exit) := ee : list Z * list Z in
    check_capacity count (cfg_allocated_bytes p);;
    for_each (check_pair gates visited entry exit) pairs.

Definition validate_numeric_for_pairs (p : BytecodePrototype) : res BytecodeError unit :=
  let prepare_count := count_instructions is_prepare p in
  let next_count := count_instructions is_next p in
  match try_reserve_exact 0 0 prepare_count with
  | None => Err (limit 0 "RVLU NumericFor Prepare 索引配置失敗")
  | Some prepares_capacity =>
      let prepares := omap prepare_of (enumerate (instructions p)) in
      match try_reserve_exact 0 0 next_count with
      | None => Err (limit 0 "RVLU NumericFor pair 索引配置失敗")
      | Some pairs_capacity =>
          pairs ← fold_res (fun pairs (entry : Z * BytecodeInstruction) =>
              found ← pair_next prepares entry.1 (bi_instruction entry.2);
              Ok (match found with Some pn => pairs ++ [pn] | None => pairs end))
            [] (enumerate (instructions p));
          (* size_of::<Prepare>() is 24, size_of::<(usize, usize)>() is 16. *)
          let scratch :=
            bytes ← checked_mul_usize prepares_capacity 24;
            pair_bytes ← checked_mul_usize pairs_capacity 16;
            checked_add_usize bytes pair_bytes in
          match scratch with
          | None => Err (limit 0 "RVLU NumericFor pair 容量溢位")
          | Some scratch =>
              fail_if (exceeds_bound (zlen (instructions p)) 256 scratch)
                (limit 0 "RVLU NumericFor pair 容量超過預准入上界");;
              validate_numeric_for_body_dominance p pairs
          end
      end
  end.
End Dominance.

(** ** Prototypes and modules *)

Section VerifyModule.
Context `{Allocator}.

Definition validate_named_vararg (p : BytecodePrototype) (module : BytecodeModule)
    : res BytecodeError unit :=
  match named_vararg p with
  | None => Ok tt
  | Some (binding, register) =>
      if negb (is_variadic p) then Err (verify 0 "RVLU named vararg 必須標記 variadic")
      else if negb (bool_decide (m_profile module = Lua55))
      then Err (verify 0 "lua54 不可攜帶 named vararg metadata")
      else
        fail_if ((register_count p <=? register)
                 || negb (existsb (fun entry : BytecodeBindingId * Register =>
                             bool_decide (entry.1 = binding) && (entry.2 =? register))
                           (binding_registers p)))
          (verify 0 "RVLU named vararg binding/register 無效")
  end.

Definition find_prototype (module : BytecodeModule) (id : ProtoId) : option BytecodePrototype :=
  find (fun candidate => p_id candidate =? id) (prototypes module).

Definition validate_environment (p : BytecodePrototype) (module : BytecodeModule)
    : res BytecodeError unit :=
  match environment_source (frame p) with
  | RootExternal =>
      fail_if (bool_decide (is_Some (p_parent p)))
        (verify 0 "非 root frame 不可使用外部 environment source")
  | ParentFrame parent register =>
      match find_prototype module parent with
      | None => Err (verify 0 "RVLU environment parent prototype 不存在")
      | Some parent_prototype =>
          fail_if (negb (opt_eqb (p_parent p) (Some parent))
                   || negb (register =? environment (frame parent_prototype)))
            (verify 0 "RVLU ParentFrame environment source 無效")
      end
  | ParentLocal upvalue =>
      match zget (upvalues p) upvalue with
      | None => Err (verify 0 "RVLU environment upvalue 不存在")
      | Some source =>
          fail_if (match bu_source source with FromParentLocal _ => false | _ => true end)
            (verify 0 "RVLU environment upvalue source 不符")
      end
  | ParentUpvalue upvalue =>
      match zget (upvalues p) upvalue with
      | None => Err (verify 0 "RVLU environment upvalue 不存在")
      | Some source =>
          fail_if (match bu_source source with FromParentUpvalue _ => false | _ => true end)
            (verify 0 "RVLU environment upvalue source 不符")
      end
  end.

Definition validate_instruction_entry (p : BytecodePrototype) (module : BytecodeModule)
    (ie : Z * BytecodeInstruction) : res BytecodeError unit :=
  fail_if ((end_byte (bi_span ie.2) <? start_byte (bi_span ie.2))
           || (end_byte (p_span p) <? end_byte (bi_span ie.2)))
    (verify 0 "RVLU instruction span 無效");;
  validate_instruction_shape p module ie.1 ie.2.

Definition validate_prototype (p : BytecodePrototype) (module : BytecodeModule)
    (limits : VerifyLimits) : res BytecodeError unit :=
  fail_if ((end_byte (p_span p) <? start_byte (p_span p))
           || (end_byte (m_span module) <? end_byte (p_span p)))
    (verify 0 "RVLU prototype span 無效");;
  fail_if ((max_registers limits <? register_count p)
           || (max_registers limits <? register_limit (frame p))
           || (register_count p <=? environment (frame p))
           || (register_count p <=? return_base (frame p))
           || (register_count p <? initial_top (frame p))
           || (register_count p <? dynamic_top (frame p)))
    (limit 0 "RVLU frame register 超過限制");;
  fail_if (register_count p <=? parameter_count p) (verify 0 "RVLU parameter count 超出 frame");;
  validate_named_vararg p module;;
  fail_if (max_constants limits <? zlen (constants p)) (limit 0 "RVLU constant 數超過限制");;
  fail_if (max_instructions limits <? zlen (instructions p))
    (limit 0 "RVLU instruction 數超過限制");;
  fail_if (max_upvalues_per_prototype limits <? zlen (upvalues p))
    (limit 0 "RVLU upvalue 數超過限制");;
  fail_if (match p_parent p with
           | Some parent => negb (existsb (fun candidate => p_id candidate =? parent) (prototypes module))
           | None => false
           end) (verify 0 "RVLU parent prototype 不存在");;
  fail_if (negb (environment (frame p) =? global_environment p))
    (verify 0 "RVLU frame environment slot 不符");;
  validate_environment p module;;
  validate_metadata p;;
  for_each (validate_instruction_entry p module) (enumerate (instructions p));;
  validate_close_declaration_markers p;;
  validate_numeric_for_pairs p;;
  verify_control_and_dataflow p limits.

(** [a.checked_add(b)] with [limit(0, message)] on overflow. *)
Definition add_or_limit (message : string) (a b : Z) : res BytecodeError Z :=
  match checked_add_usize a b with Some c => Ok c | None => Err (limit 0 message) end.

Definition scan_add : Z -> Z -> res BytecodeError Z := add_or_limit "transport scan work 溢位".

Definition constant_payload (c : BytecodeConstant) : Z :=
  match c with CName bytes | CString bytes => zlen bytes | _ => 0 end.

Definition scan_path (units : Z) (path : BytecodeClosePath) : res BytecodeError Z :=
  units ← scan_add units (zlen (cp_bindings path));
  scan_add units (zlen (cp_registers path)).

Definition scan_prototype (units : Z) (p : BytecodePrototype) : res BytecodeError Z :=
  units ← scan_add units (zlen (constants p));
  units ← scan_add units (zlen (instructions p));
  units ← scan_add units (zlen (upvalues p));
  units ← scan_add units (zlen (binding_registers p));
  units ← scan_add units (zlen (close_paths p));
  units ← fold_res (fun units c => scan_add units (constant_payload c)) units (constants p);
  fold_res scan_path units (close_paths p ++ omap bi_close_path (instructions p)).

Definition module_transport_scan_units (module : BytecodeModule) : res BytecodeError Z :=
  units ← scan_add (zlen (prototypes module)) 1;
  fold_res scan_prototype units (prototypes module).

(** The module with its scan work; the three sidecars of the code's
    [VerifiedModule] are absent from what [verify_module] builds. *)
Record VerifiedModule := { vm_module : BytecodeModule; vm_transport_scan_units : Z }.

(** The locals of the loop of [verify_module] over the prototypes. *)
Record Seen := {
  seen_prototypes : list ProtoId;
  seen_functions : list Z;
  total_instructions : Z;
  total_constants : Z
}.

Definition verify_each (module : BytecodeModule) (limits : VerifyLimits) (s : Seen)
    (p : BytecodePrototype) : res BytecodeError Seen :=
  ti ← add_or_limit "RVLU instruction 總量溢位" (total_instructions s) (zlen (instructions p));
  tc ← add_or_limit "RVLU constant 總量溢位" (total_constants s) (zlen (constants p));
  fail_if (max_instructions limits <? ti) (limit 0 "RVLU module instruction 總量超過限制");;
  fail_if (max_constants limits <? tc) (limit 0 "RVLU module constant 總量超過限制");;
  fail_if (contains (seen_prototypes s) (p_id p)) (verify 0 "RVLU prototype ID 重複");;
  fail_if (contains (seen_functions s) (p_function p)) (verify 0 "RVLU function ID 重複");;
  validate_prototype p module limits;;
  Ok {| seen_prototypes := seen_prototypes s ++ [p_id p];
        seen_functions := seen_functions s ++ [p_function p];
        total_instructions := ti; total_constants := tc |}.

Definition check_function_mapping (module : BytecodeModule) (fp : Z * ProtoId)
    : res BytecodeError unit :=
  match find_prototype module fp.2 with
  | None => Err (verify 0 "RVLU function/prototype map 指向不存在 prototype")
  | Some candidate =>
      fail_if (negb (p_function candidate =? fp.1)) (verify 0 "RVLU function/prototype map 不符")
  end.

Definition verify_module (module : BytecodeModule) (expected_profile : LuaProfile)
    (limits : VerifyLimits) : res BytecodeError VerifiedModule :=
  fail_if (negb (format_version module =? RVLU_V2))
    (verify 0 "RVLU v1 或未知 format version 不可驗證");;
  fail_if (negb (bool_decide (m_profile module = expected_profile))) (verify 0 "RVLU profile 不符");;
  fail_if (negb (numeric_config module =? RVLU_NUMERIC_I64_F64))
    (verify 0 "RVLU numeric configuration 不支援");;
  fail_if (end_byte (m_span module) <? start_byte (m_span module))
    (verify 0 "RVLU module span 無效");;
  fail_if (max_prototypes limits <? zlen (prototypes module))
    (limit 0 "RVLU prototype 數超過限制");;
  fail_if (negb (zlen (function_prototypes module) =? zlen (prototypes module)))
    (verify 0 "RVLU function/prototype map 長度不符");;
  fold_res (verify_each module limits)
    {| seen_prototypes := []; seen_functions := []; total_instructions := 0; total_constants := 0 |}
    (prototypes module);;
  for_each (check_function_mapping module) (function_prototypes module);;
  units ← module_transport_scan_units module;
  Ok {| vm_module := module; vm_transport_scan_units := units |}.
End VerifyModule.

(** ** A module that verifies

    [for i = 1, 1, 1 do local x = i end return ...], with an open result list
    returned by the root function. *)
Definition demo_span : BytecodeSpan := {| start_byte := 0; end_byte := 40 |}.
Definition demo_instruction (i : Instruction) : BytecodeInstruction :=
  {| bi_instruction := i; bi_span := demo_span; bi_close_path := None |}.
Definition demo_binding : BytecodeBindingId := {| bb_function := 0; bb_ordinal := 0 |}.
Definition demo_prototype : BytecodePrototype := {|
  p_id := 0; p_function := 0; p_parent := None; p_span := demo_span;
  register_count := 8; parameter_count := 0; is_variadic := true; named_vararg := None;
  frame := {| register_limit := 8; initial_top := 1; dynamic_top := 6; return_base := 0;
              environment := 0; environment_source := RootExternal;
              registers_start_as_nil := true |};
  global_environment := 0; global_environment_binding := demo_binding;
  binding_registers := [(demo_binding, 0)];
  constants := [CInteger 1; CName (bytes_of_string "x"); CBoolean true; CFloatBits 4607182418800017408];
  upvalues := [];
  instructions := map demo_instruction
    [LoadConst 1 0; LoadConst 2 0; LoadConst 3 0; NumericForPrepare 1 2 3 4 6; Move 5 4;
     NumericForNext 1 2 3 4 4 6; Vararg 5 All; Return 5 All];
  close_paths := []
|}.
Definition demo_module : BytecodeModule := {|
  format_version := RVLU_V2; m_profile := Lua55; numeric_config := 1; m_span := demo_span;
  function_prototypes := [(0, 0)]; prototypes := [demo_prototype]
|}.

Example demo_verifies :
  @verify_module exact_allocator demo_module Lua55 VerifyLimits_default =
  Ok {| vm_module := demo_module; vm_transport_scan_units := 16 |}.
Proof. vm_compute. reflexivity. Qed.

(** A jump into the loop body past [NumericForPrepare] is refused by the
    dominance check. *)
Example demo_bypass_refused :
  @validate_numeric_for_pairs exact_allocator
    {| p_id := 0; p_function := 0; p_parent := None; p_span := demo_span;
       register_count := 8; parameter_count := 0; is_variadic := true; named_vararg := None;
       frame := frame demo_prototype; global_environment := 0;
       global_environment_binding := demo_binding; binding_registers := []; constants := [];
       upvalues := [];
       instructions := map demo_instruction
         [JumpIfFalse 1 2; NumericForPrepare 1 2 3 4 4; LoadNil 5 1;
          NumericForNext 1 2 3 4 2 4; Return 5 (Fixed 0)];
       close_paths := [] |} =
  Err (verify 0 "RVLU NumericForNext 路徑未經對應 NumericForPrepare body entry").
Proof. vm_compute. reflexivity. Qed.

(** ** Operands stay in the frame *)

(** Takes apart a successful chain of checks. *)
Ltac res_ok :=
  repeat match goal with
    | H : (_ ≫= _) = Ok _ |- _ =>
        let x := fresh "x" in let H1 := fresh "H" in let H2 := fresh "H" in
        apply res_bind_Ok in H as (x & H1 & H2)
    | u : unit |- _ => destruct u
    | H : fail_if _ _ = Ok _ |- _ => apply fail_if_Ok in H
    end.

Lemma register_in_frame_Ok p base count message :
  register_in_frame p base count message = Ok tt <->
  base + count < register_count p /\ base + count <= U32_MAX.
Proof.
  unfold register_in_frame. destruct (Z.leb_spec (base + count) U32_MAX).
  - rewrite fail_if_Ok. lia.
  - split; [done | lia].
Qed.

Lemma elem_of_register_span base count r :
  base + count <= U16_MAX + 1 -> r ∈ register_span base count -> base <= r < base + count.
Proof.
  unfold register_span, saturating_add_u16. intros Hb (k & -> & Hk)%list_elem_of_fmap.
  apply elem_of_seq in Hk. lia.
Qed.

(** A [u16] count. *)
Definition mode_ok (mode : ResultMode) : Prop :=
  match mode with Fixed n => u16 n | All => True end.

Lemma result_span_in_frame p base mode r :
  0 <= base -> register_count p <= U16_MAX ->
  mode_ok mode ->
  validate_result_range p base mode = Ok tt ->
  r ∈ result_span base mode -> 0 <= r < register_count p.
Proof.
  intros Hb Hc Hn Hv Hr. destruct mode as [n |]; cbn [mode_ok validate_result_range result_span] in *.
  - destruct (Z.eqb_spec n 0) as [-> |].
    + by apply elem_of_nil in Hr.
    + apply register_in_frame_Ok in Hv. apply elem_of_register_span in Hr; range_lia.
  - apply register_in_frame_Ok in Hv. apply list_elem_of_singleton in Hr. lia.
Qed.

(** The operands as the machine holds them: registers and counts are [u16]. *)
Definition operands_ok (i : Instruction) : Prop :=
  match i with
  | LoadConst dest constant => u16 dest /\ u32 constant
  | LoadNil start count => u16 start /\ u16 count
  | Move dest src => u16 dest /\ u16 src
  | GetUpvalue dest upvalue => u16 dest /\ u16 upvalue
  | SetUpvalue upvalue src => u16 upvalue /\ u16 src
  | NewTable dest => u16 dest
  | GetTable a b c | SetTable a b c => u16 a /\ u16 b /\ u16 c
  | UnaryOp dest _ src => u16 dest /\ u16 src
  | BinaryOp dest _ lhs rhs => u16 dest /\ u16 lhs /\ u16 rhs
  | Jump target => u32 target
  | JumpIfFalse condition target => u16 condition /\ u32 target
  | Closure dest proto => u16 dest /\ u32 proto
  | Call base arg_count mode | TailCall base arg_count mode =>
      u16 base /\ u16 arg_count /\ mode_ok mode
  | Vararg base mode | Return base mode => u16 base /\ mode_ok mode
  | Close base count => u16 base /\ u16 count
  | NumericForPrepare a b c d exit => u16 a /\ u16 b /\ u16 c /\ u16 d /\ u32 exit
  | NumericForNext a b c d target exit =>
      u16 a /\ u16 b /\ u16 c /\ u16 d /\ u32 target /\ u32 exit
  end.

Lemma elem_of_3 {A} (x a b c : A) : x ∈ [a; b; c] -> x = a \/ x = b \/ x = c.
Proof. rewrite !elem_of_cons, elem_of_nil. tauto. Qed.

Lemma numeric_for_registers_Ok p control limit step visible :
  validate_numeric_for_registers
    (fun r => register_in_frame p r 0 "RVLU register 超出 frame") control limit step visible = Ok tt ->
  NoDup [control; limit; step; visible] /\
  Forall (fun r => r < register_count p) [control; limit; step; visible].
Proof.
  unfold validate_numeric_for_registers. intros H. res_ok. bool_hyps. split.
  - repeat constructor; rewrite ?elem_of_cons, ?elem_of_nil; lia.
  - apply for_each_Ok in H0. eapply List.Forall_impl; [| exact H0].
    intros r Hr%register_in_frame_Ok. lia.
Qed.

(** Turns every accepted range check and list membership into arithmetic. *)
Ltac in_frame :=
  repeat match goal with
    | H : register_in_frame _ _ _ _ = Ok _ |- _ => apply register_in_frame_Ok in H
    | H : validate_numeric_for_registers _ _ _ _ _ = Ok _ |- _ =>
        apply numeric_for_registers_Ok in H as [_ H]
    | H : Forall _ (_ :: _) |- _ => apply Forall_cons in H as [? H]
    | H : _ \/ _ |- _ => destruct H
    | H : _ /\ _ |- _ => destruct H
    | H : _ ∈ [] |- _ => by apply elem_of_nil in H
    | H : _ ∈ _ :: _ |- _ => apply elem_of_cons in H as [-> | H]
    | H : _ ∈ register_span _ _ |- _ => apply elem_of_register_span in H; [| range_lia]
    | H : _ ∈ result_span _ _, V : validate_result_range _ _ _ = Ok _ |- _ =>
        eapply result_span_in_frame in V; [exact V | range_lia | range_lia | assumption | exact H]
    end.

(** Registers an accepted instruction reads or writes exist in its frame: the
    interpreter's register accesses, as the effect record lists them, are in
    bounds. A dynamic call reads up to the open result list's end instead of a
    fixed count, so only its writes are listed. *)
Lemma accepted_effects_in_frame p module index i r :
  register_count p <= U16_MAX -> operands_ok i ->
  validate_operands p module index i = Ok tt ->
  (r ∈ writes (effects i) \/ (r ∈ reads (effects i) /\ dynamic_consumer i = false)) ->
  0 <= r < register_count p.
Proof.
  intros Hc Ho Hv Hr.
  destruct i; unfold effects in Hr; cbn [reads writes dynamic_consumer operands_ok validate_operands] in *;
    repeat case_match; try (destruct Hr as [? | [? ?]]; discriminate);
    res_ok; in_frame; try range_lia.
Qed.

(** ** The control-flow graph an accepted prototype runs on *)

Inductive branch_target : Instruction -> Z -> Prop :=
  | bt_jump target : branch_target (Jump target) target
  | bt_jump_if_false condition target : branch_target (JumpIfFalse condition target) target
  | bt_prepare control limit step visible exit :
      branch_target (NumericForPrepare control limit step visible exit) exit
  | bt_next_body control limit step visible target exit :
      branch_target (NumericForNext control limit step visible target exit) target
  | bt_next_exit control limit step visible target exit :
      branch_target (NumericForNext control limit step visible target exit) exit.

Definition falls_through (i : Instruction) : Prop :=
  match i with
  | Jump _ | NumericForNext _ _ _ _ _ _ | Return _ _ | TailCall _ _ _ => False
  | _ => True
  end.

Definition control_edge (i : Instruction) (pc pc' : Z) : Prop :=
  branch_target i pc' \/ (falls_through i /\ pc' = pc + 1).

(** The open result list after an instruction: where it starts, if there is
    one. *)
Definition open_after (open : option Register) (i : Instruction) : option Register :=
  match i with
  | Call base _ All | Vararg base All => Some base
  | Call _ arg_count _ => if arg_count =? U16_MAX then None else open
  | Return _ All | TailCall _ _ All => None
  | _ => open
  end.

(** When an instruction may run: an open result list is only closed over,
    returned from at or above the returned base, passed to a dynamic call
    below it, or left alone by a move below it; and a dynamic call or an open
    return needs one. *)
Definition open_legal (open : option Register) (i : Instruction) : Prop :=
  match open with
  | Some producer =>
      match i with
      | Close _ _ => True
      | Return base All => base <= producer
      | Call base arg_count _ | TailCall base arg_count _ => arg_count = U16_MAX /\ base < producer
      | Move dest src => dest < producer /\ src < producer
      | _ => False
      end
  | None =>
      match i with
      | Return _ All => False
      | Call _ arg_count _ | TailCall _ arg_count _ => arg_count <> U16_MAX
      | _ => True
      end
  end.

(** The machine's program counter and open result list; what the registers hold
    does not matter here, so every branch may be taken. *)
Inductive run_step (p : BytecodePrototype) : Z * option Register -> Z * option Register -> Prop :=
  | run_step_intro pc open entry pc' :
      zget (instructions p) pc = Some entry ->
      control_edge (bi_instruction entry) pc pc' ->
      run_step p (pc, open) (pc', open_after open (bi_instruction entry)).

Section Dataflow.
Context (p : BytecodePrototype) (max : Z).

Lemma cfg_successors_edges index i succs :
  cfg_successors (zlen (instructions p)) index i = Ok succs ->
  forall pc, control_edge i index pc <-> pc ∈ succs.
Proof.
  intros H pc. unfold control_edge.
  assert (forall a b : Z, pc ∈ [a; b] <-> pc = a \/ pc = b) as H2
    by (intros; by rewrite !elem_of_cons, elem_of_nil; tauto).
  assert (forall a : Z, pc ∈ [a] <-> pc = a) as H1 by (intros; apply list_elem_of_singleton).
  destruct i; cbn [cfg_successors falls_through] in *; res_ok; simplify_eq;
    rewrite ?H1, ?H2, ?elem_of_nil; split; intros Hx;
    try (destruct Hx as [Hx | Hx]); try (inversion Hx; subst; tauto); try tauto;
    subst; eauto using branch_target.
Qed.

Lemma next_open_Ok open i open' :
  next_open open i = Ok open' ->
  open' = open_after open i /\
  match i with
  | Return base All => exists producer, open = Some producer /\ base <= producer
  | _ => True
  end.
Proof.
  intros H. destruct i; cbn [next_open open_after] in *; repeat case_match; simplify_eq; try done.
  split; [done |]. eexists. split; [done | lia].
Qed.

Lemma check_dynamic_call_Ok index i open :
  dynamic_consumer i = true -> check_dynamic_call p index i open = Ok tt ->
  exists producer outer, open = Some producer /\ outer_base i = Some outer /\ outer < producer.
Proof.
  unfold check_dynamic_call. intros Hd H. destruct open as [producer |]; [| done].
  destruct (outer_base i) as [outer |]; [| done]. destruct (index =? 0); [done |].
  res_ok. bool_hyps. exists producer, outer. split_and!; [done.. | lia].
Qed.

Lemma cfg_step_Ok index states worklist s' :
  cfg_step p max index states worklist = Ok s' ->
  exists open entry succs,
    zget states index = Some (Some open) /\
    zget (instructions p) index = Some entry /\
    open_legal open (bi_instruction entry) /\
    (forall pc, control_edge (bi_instruction entry) index pc <-> pc ∈ succs) /\
    fold_res (visit_successor max (open_after open (bi_instruction entry))) (states, worklist) succs
      = Ok s'.
Proof.
  unfold cfg_step, vget. intros H.
  destruct (zget states index) as [[open |] |]; [| discriminate..].
  cbn [mbind res_bind] in H.
  destruct (zget (instructions p) index) as [entry |]; [| discriminate].
  cbn [mbind res_bind] in H. res_ok.
  match goal with Hn : next_open _ _ = _ |- _ => apply next_open_Ok in Hn as [-> Hret] end.
  match goal with Hs : cfg_successors _ _ _ = _ |- _ => pose proof (cfg_successors_edges _ _ _ Hs) as He end.
  exists open, entry. eexists. split_and!; [done | done | | exact He | eassumption].
  destruct (dynamic_consumer (bi_instruction entry)) eqn:Hd.
  - match goal with Hc : check_dynamic_call _ _ _ _ = _ |- _ =>
      apply (check_dynamic_call_Ok index _ _ Hd) in Hc as (producer & outer & -> & Ho & Hlt) end.
    destruct (bi_instruction entry); try discriminate; cbn in *; simplify_eq; split; lia.
  - destruct open as [producer |].
    + destruct (bi_instruction entry) as [| | | | | | | | | | | | | | | |? [] | | |]; cbn in *;
        try discriminate; try tauto; bool_hyps; try lia.
      by destruct Hret as (? & [= <-] & ?).
    + destruct (bi_instruction entry) as [| | | | | | | | | | | | | | | |? [] | | |]; cbn in *;
        try done; try lia. by destruct Hret as (? & ? & ?).
Qed.

(** The states still unvisited. *)
Definition unvisited (states : list (option (option Register))) : nat :=
  length (List.filter (fun s => match s with None => true | Some _ => false end) states).

Lemma unvisited_insert states i x :
  zget states i = Some None -> S (unvisited (zinsert states i (Some x))) = unvisited states.
Proof.
  intros [_ H]%zget_Some. unfold unvisited, zinsert.
  generalize dependent (Z.to_nat i). induction states as [| s states IH]; intros [| k] H; cbn in *;
    try done; simplify_eq; [done |].
  specialize (IH _ H). destruct s; [exact IH | exact (f_equal S IH)].
Qed.

(** What [visit_successor] keeps: the recorded states, the worklist and the
    potential; what it adds: the successor's state, on the worklist when new. *)
Definition visited_from (open : option Register) (s : CfgState) (pre : list Z) (s' : CfgState) : Prop :=
  length s'.1 = length s.1 /\
  (forall pc o, zget s.1 pc = Some (Some o) -> zget s'.1 pc = Some (Some o)) /\
  (forall pc, pc ∈ pre -> zget s'.1 pc = Some (Some open)) /\
  (forall pc o, zget s'.1 pc = Some (Some o) -> zget s.1 pc = Some (Some o) \/ pc ∈ s'.2) /\
  (forall pc, pc ∈ s.2 -> pc ∈ s'.2) /\
  (forall pc, pc ∈ s'.2 -> pc ∈ s.2 \/ zget s'.1 pc = Some (Some open)) /\
  (unvisited s'.1 + length s'.2 = unvisited s.1 + length s.2)%nat.

Lemma visit_successor_step open s pre pc s1 :
  visited_from open s pre s1 ->
  match visit_successor max open s1 pc with
  | Ok s2 => visited_from open s (pre ++ [pc]) s2
  | Err _ => True
  | Crash _ => False
  end.
Proof.
  intros (Hl & Hk & Hp & Hn & Hw & Hb & Hm). unfold visit_successor. destruct s1 as [st wl].
  cbn [fst snd] in *.
  destruct (zget st pc) as [[existing |] |] eqn:Hpc; [| | done]; unfold fail_if.
  - destruct (negb (opt_eqb existing open)) eqn:Heq; [done |]. cbn [mbind res_bind].
    apply negb_false_iff, bool_decide_eq_true in Heq. subst existing.
    split_and!; cbn [fst snd]; try done.
    intros q [Hq | ->%list_elem_of_singleton]%elem_of_app; eauto.
  - destruct (max <=? zlen wl); [done |]. cbn [mbind res_bind].
    pose proof (zget_lt _ _ _ Hpc) as Hr.
    assert (zget (zinsert st pc (Some open)) pc = Some (Some open)) as Hnew
      by (by apply zget_zinsert_eq).
    assert (forall q o, zget st q = Some (Some o) -> zget (zinsert st pc (Some open)) q = Some (Some o)) as Hold.
    { intros q o Hq. destruct (decide (q = pc)) as [-> |]; [congruence |].
      by rewrite zget_zinsert_ne by lia. }
    split_and!; cbn [fst snd]; [| by eauto | | | | |].
    + unfold zinsert. by rewrite length_insert.
    + intros q [Hq | ->%list_elem_of_singleton]%elem_of_app; eauto.
    + intros q o Hq. destruct (decide (q = pc)) as [-> | Hne]; [right; left |].
      rewrite zget_zinsert_ne in Hq by lia. destruct (Hn q o Hq); [by left | right; by right].
    + intros q Hq. right. by apply Hw.
    + intros q [-> | Hq]%elem_of_cons; [by right |].
      destruct (Hb q Hq); [by left | right; by apply Hold].
    + pose proof (unvisited_insert _ _ open Hpc). cbn [length]. lia.
Qed.

Lemma visit_successors open s succs :
  match fold_res (visit_successor max open) s succs with
  | Ok s' => visited_from open s succs s'
  | Err _ => True
  | Crash _ => False
  end.
Proof.
  apply (fold_res_ind (visit_successor max open) (visited_from open s)).
  - split_and!; try done; intros; [by apply elem_of_nil in H | by left | by left].
  - intros pre pc post s1 _ H. by apply visit_successor_step.
Qed.

Lemma vget_Some {E A} (l : list A) i x : zget l i = Some x -> @vget E A l i = Ok x.
Proof. unfold vget. by intros ->. Qed.

Lemma total_Ok {E A} (a : A) : total (@Ok E A a).
Proof. done. Qed.
Lemma total_Err {E A} (e : E) : total (@Err E A e).
Proof. done. Qed.
Hint Resolve total_Ok total_Err total_fail_if : rivet.

Lemma dynamic_source_total outer producer previous :
  (previous < length (instructions p))%nat -> total (dynamic_source p outer producer previous).
Proof.
  assert (forall n, (n < length (instructions p))%nat ->
    exists entry, zget (instructions p) (Z.of_nat n) = Some entry) as Hget
    by (intros n Hn; apply zget_is_Some; unfold zlen; lia).
  induction previous as [| previous IH]; intros Hp; cbn [dynamic_source];
    destruct (Hget _ Hp) as [entry He]; rewrite (vget_Some _ _ _ He); cbn [mbind res_bind];
    repeat case_match; auto with rivet lia.
Qed.

Lemma cfg_step_total index states worklist open :
  zget states index = Some (Some open) -> length states = length (instructions p) ->
  total (cfg_step p max index states worklist).
Proof.
  intros Hs Hl. pose proof (zget_lt _ _ _ Hs) as Hr. unfold zlen in Hr.
  destruct (zget_is_Some (instructions p) index) as [entry He]; [unfold zlen; lia |].
  unfold cfg_step. rewrite (vget_Some _ _ _ Hs). cbn [mbind res_bind].
  rewrite (vget_Some _ _ _ He). cbn [mbind res_bind].
  apply total_bind.
  { unfold check_dynamic_call. repeat case_match; auto with rivet.
    apply total_bind; [apply dynamic_source_total; lia | auto with rivet]. }
  intros _ _. apply total_bind; [auto with rivet | intros _ _].
  apply total_bind; [by destruct (bi_instruction entry); cbn; repeat case_match | intros open' _].
  apply total_bind.
  { destruct (bi_instruction entry); cbn [cfg_successors]; auto with rivet;
      (apply total_bind; auto with rivet). }
  intros succs _ c Hc. pose proof (visit_successors open' (states, worklist) succs) as H.
  by rewrite Hc in H.
Qed.

Definition processed (states : list (option (option Register))) (pc : Z) (open : option Register)
    : Prop :=
  exists entry,
    zget (instructions p) pc = Some entry /\ open_legal open (bi_instruction entry) /\
    forall pc', control_edge (bi_instruction entry) pc pc' ->
      zget states pc' = Some (Some (open_after open (bi_instruction entry))).

Definition cfg_inv (s : CfgState) : Prop :=
  length s.1 = length (instructions p) /\
  (forall pc, pc ∈ s.2 -> exists o, zget s.1 pc = Some (Some o)) /\
  (forall pc o, zget s.1 pc = Some (Some o) -> pc ∈ s.2 \/ processed s.1 pc o).

(** One round keeps the invariant, extends the states and uses up one unit
    of the potential. *)
Lemma cfg_step_inv index states worklist :
  cfg_inv (states, index :: worklist) ->
  match cfg_step p max index states worklist with
  | Ok s' =>
      cfg_inv s' /\
      (forall pc o, zget states pc = Some (Some o) -> zget s'.1 pc = Some (Some o)) /\
      (unvisited s'.1 + length s'.2 = unvisited states + length worklist)%nat
  | Err _ => True
  | Crash _ => False
  end.
Proof.
  intros (Hl & Hw & Hp). cbn [fst snd] in *.
  destruct (Hw index) as [open0 H0]; [left |].
  pose proof (cfg_step_total index states worklist open0 H0 Hl) as Ht.
  destruct (cfg_step p max index states worklist) as [s' | | c] eqn:Hstep; [| done | by destruct (Ht c)].
  apply cfg_step_Ok in Hstep as (open & entry & succs & Hs & He & Hlegal & Hsucc & Hfold).
  pose proof (visit_successors (open_after open (bi_instruction entry)) (states, worklist) succs) as Hv.
  rewrite Hfold in Hv. destruct Hv as (Vl & Vk & Vp & Vn & Vw & Vb & Vm). cbn [fst snd] in *.
  split_and!; [| done | done]. split_and!; [congruence | |].
  - intros pc Hpc. destruct (Vb pc Hpc) as [Hin |]; [| by eexists].
    destruct (Hw pc) as [o Ho]; [by right |]. exists o. by apply Vk.
  - intros pc o Ho. destruct (Vn pc o Ho) as [Hold | Hnew]; [| by left].
    destruct (Hp pc o Hold) as [[-> | Hin]%elem_of_cons | (e & Hge & Hle & Hed)].
    + right. simplify_eq. exists entry. split_and!; [done.. |].
      intros pc' Hed. apply Vp. by apply Hsucc.
    + left. by apply Vw.
    + right. exists e. split_and!; [done.. |]. intros pc' Hc. by apply Vk, Hed.
Qed.

Lemma cfg_loop_inv fuel s :
  cfg_inv s -> (unvisited s.1 + length s.2 <= fuel)%nat ->
  match cfg_loop fuel p max s with
  | Ok _ => exists states,
      (forall pc o, zget s.1 pc = Some (Some o) -> zget states pc = Some (Some o)) /\
      (forall pc o, zget states pc = Some (Some o) -> processed states pc o)
  | Err _ => True
  | Crash _ => False
  end.
Proof.
  revert s. induction fuel as [| fuel IH]; intros [states [| index worklist]] Hi Hm; cbn [cfg_loop].
  1, 3: exists states; split; [done |]; intros pc o Ho; destruct Hi as (_ & _ & Hp);
    by destruct (Hp pc o Ho) as [?%elem_of_nil |].
  - cbn [fst snd length] in Hm. lia.
  - pose proof (cfg_step_inv index states worklist Hi) as Hstep.
    destruct (cfg_step p max index states worklist) as [s' | |]; [| done..].
    destruct Hstep as (Hi' & Hk & Hm'). cbn [mbind res_bind fst snd length] in *.
    specialize (IH s' Hi' ltac:(lia)). destruct (cfg_loop fuel p max s'); [| done..].
    destruct IH as (st & Hst & Hproc). exists st. split; [| done]. intros pc o Ho. by apply Hst, Hk.
Qed.
End Dataflow.

Lemma nonempty_zlen {A} (l : list A) : (zlen l =? 0) = false -> l <> [].
Proof. by intros H ->. Qed.

Lemma cfg_inv_initial p :
  instructions p <> [] ->
  let s := (zinsert (repeat None (length (instructions p))) 0 (Some None), [0]) in
  cfg_inv p s /\ (unvisited s.1 + length s.2 <= length (instructions p))%nat /\
  zget s.1 0 = Some (Some None).
Proof.
  intros Hne s. set (n := length (instructions p)) in *.
  assert (0 < n)%nat as Hn by (subst n; destruct (instructions p); [done | cbn; lia]).
  assert (zget (repeat (@None (option Register)) n) 0 = Some None) as H0.
  { apply zget_Some. split; [lia |]. by destruct n; [lia |]. }
  assert (zget s.1 0 = Some (Some None)) as H1.
  { apply zget_zinsert_eq. by apply zget_lt in H0. }
  split_and!; [split_and! | | done].
  - subst s. cbn [fst]. unfold zinsert. by rewrite length_insert, repeat_length.
  - intros pc ->%list_elem_of_singleton. by eexists.
  - intros pc o Ho. destruct (decide (pc = 0)) as [-> |]; [left; left |].
    subst s. cbn [fst] in Ho. rewrite zget_zinsert_ne in Ho by lia.
    apply zget_Some in Ho as [_ Ho%list_elem_of_lookup_2%list_elem_of_In]. by apply repeat_spec in Ho.
  - pose proof (unvisited_insert _ _ None H0) as Hu. subst s. cbn [fst snd length].
    assert (unvisited (repeat None n) <= n)%nat; [| lia].
    unfold unvisited. clear. induction n; cbn; lia.
Qed.

(** The dataflow check terminates: its worklist never runs for more rounds
    than there are instructions, it never indexes out of range, and so always
    accepts or returns a typed error. *)
Lemma dataflow_total p limits : total (verify_control_and_dataflow p limits).
Proof.
  unfold verify_control_and_dataflow.
  do 3 (apply total_bind; [apply total_fail_if | intros [] ?%fail_if_Ok]).
  destruct (cfg_inv_initial p) as (Hi & Hm & _); [by apply nonempty_zlen |].
  pose proof (cfg_loop_inv p (max_instructions limits) _ _ Hi Hm) as H'.
  intros c Hc. by rewrite Hc in H'.
Qed.

(** From the entry, whichever branches are taken, the program counter is on an
    instruction that is legal for the open result list, whose base depends on
    the program counter alone. *)
Lemma dataflow_reachable p limits pc open :
  verify_control_and_dataflow p limits = Ok tt ->
  rtc (run_step p) (0, None) (pc, open) ->
  (exists entry, zget (instructions p) pc = Some entry /\ open_legal open (bi_instruction entry)) /\
  (forall open', rtc (run_step p) (0, None) (pc, open') -> open' = open).
Proof.
  unfold verify_control_and_dataflow. intros Hv Hrun. res_ok.
  destruct (cfg_inv_initial p) as (Hi & Hm & Hz); [by apply nonempty_zlen |].
  pose proof (cfg_loop_inv p (max_instructions limits) _ _ Hi Hm) as Hl.
  match goal with Hc : cfg_loop _ _ _ _ = _ |- _ => rewrite Hc in Hl end.
  destruct Hl as (states & Hk & Hp). specialize (Hk _ _ Hz).
  assert (forall s, rtc (run_step p) (0, None) s -> zget states s.1 = Some (Some s.2)) as Hreach.
  { intros s Hs. apply rtc_ind_r with (P := fun s => zget states s.1 = Some (Some s.2)) in Hs; [done.. |].
    intros s1 s2 _ [pc1 open1 entry pc' He Hed] Hs1. cbn [fst snd] in *.
    destruct (Hp _ _ Hs1) as (entry' & He' & _ & Hsucc). simplify_eq. by apply Hsucc. }
  pose proof (Hreach _ Hrun) as Hs. cbn [fst snd] in Hs. split.
  - destruct (Hp _ _ Hs) as (entry & He & Hlegal & _). eauto.
  - intros open' Hrun'. pose proof (Hreach _ Hrun') as Hs'. cbn [fst snd] in Hs'. congruence.
Qed.

(** ** Accepted modules *)

Lemma enumerate_entry {A} (l : list A) i x : zget l i = Some x -> (i, x) ∈ enumerate l.
Proof. by rewrite enumerate_elem. Qed.

Section Accepted.
Context `{Allocator}.

Lemma validate_prototype_Ok p module limits :
  validate_prototype p module limits = Ok tt ->
  register_count p <= max_registers limits /\
  zlen (instructions p) <= max_instructions limits /\
  zlen (constants p) <= max_constants limits /\
  zlen (upvalues p) <= max_upvalues_per_prototype limits /\
  (forall parent, p_parent p = Some parent -> exists q, q ∈ prototypes module /\ p_id q = parent) /\
  (forall index entry, zget (instructions p) index = Some entry ->
     validate_operands p module index (bi_instruction entry) = Ok tt /\
     validate_close_link p entry = Ok tt) /\
  validate_metadata p = Ok tt /\
  validate_numeric_for_pairs p = Ok tt /\
  verify_control_and_dataflow p limits = Ok tt.
Proof.
  unfold validate_prototype. intros Hv. res_ok. bool_hyps.
  split_and!; try done; try lia.
  - intros parent Hp. rewrite Hp in *.
    match goal with Hn : negb (existsb _ _) = false |- _ => apply negb_false_iff, existsb_exists in Hn as (q & Hq & He) end.
    exists q. split; [by apply list_elem_of_In | lia].
  - intros index entry He%enumerate_entry.
    match goal with Hf : for_each (validate_instruction_entry _ _) _ = _ |- _ =>
      apply for_each_Ok in Hf; rewrite List.Forall_forall in Hf end.
    match goal with Hf : (forall _, In _ _ -> _) |- _ =>
      specialize (Hf _ (proj1 (list_elem_of_In _ _) He)) end.
    unfold validate_instruction_entry, validate_instruction_shape in *. res_ok. cbn [fst snd] in *. by split.
Qed.

Lemma add_or_limit_Ok message a b c : add_or_limit message a b = Ok c -> c = a + b.
Proof. unfold add_or_limit, checked_add_usize. destruct (_ <=? _); [by intros [= <-] | done]. Qed.

(** The locals of the loop over the prototypes, as the prototypes seen so
    far determine them. *)
Lemma verify_each_inv module limits (pre : list BytecodePrototype) s p s' :
  seen_prototypes s = map p_id pre -> seen_functions s = map p_function pre ->
  verify_each module limits s p = Ok s' ->
  seen_prototypes s' = map p_id (pre ++ [p]) /\ seen_functions s' = map p_function (pre ++ [p]) /\
  (p_id p ∉ map p_id pre) /\ (p_function p ∉ map p_function pre) /\
  total_instructions s' = total_instructions s + zlen (instructions p) /\
  total_constants s' = total_constants s + zlen (constants p) /\
  total_instructions s' <= max_instructions limits /\ total_constants s' <= max_constants limits /\
  validate_prototype p module limits = Ok tt.
Proof.
  intros Hp Hf Hv. unfold verify_each in Hv. res_ok.
  repeat match goal with Ha : add_or_limit _ _ _ = _ |- _ => apply add_or_limit_Ok in Ha end.
  simplify_eq. rewrite Hp, Hf in *. cbn [seen_prototypes seen_functions total_instructions total_constants].
  rewrite !map_app. split_and!; try done; try lia; by apply contains_false.
Qed.

Lemma verify_module_Ok module profile limits vm :
  verify_module module profile limits = Ok vm ->
  vm_module vm = module /\
  format_version module = RVLU_V2 /\ m_profile module = profile /\
  numeric_config module = RVLU_NUMERIC_I64_F64 /\
  zlen (prototypes module) <= max_prototypes limits /\
  zlen (function_prototypes module) = zlen (prototypes module) /\
  NoDup (map p_id (prototypes module)) /\ NoDup (map p_function (prototypes module)) /\
  zlen (concat (map instructions (prototypes module))) <= Z.max 0 (max_instructions limits) /\
  zlen (concat (map constants (prototypes module))) <= Z.max 0 (max_constants limits) /\
  (forall p, p ∈ prototypes module -> validate_prototype p module limits = Ok tt) /\
  (forall f id, (f, id) ∈ function_prototypes module ->
     exists p, find_prototype module id = Some p /\ p_function p = f).
Proof.
  unfold verify_module. intros Hv. res_ok. bool_hyps. simplify_eq. cbn [vm_module].
  match goal with Hf : fold_res _ _ _ = Ok ?s |- _ =>
    eapply (fold_res_Ok _ (fun pre s =>
      seen_prototypes s = map p_id pre /\ seen_functions s = map p_function pre /\
      NoDup (map p_id pre) /\ NoDup (map p_function pre) /\
      total_instructions s = zlen (concat (map instructions pre)) /\
      total_constants s = zlen (concat (map constants pre)) /\
      total_instructions s <= Z.max 0 (max_instructions limits) /\
      total_constants s <= Z.max 0 (max_constants limits) /\
      (forall p, p ∈ pre -> validate_prototype p module limits = Ok tt))) in Hf as HI
  end.
  - destruct HI as (_ & _ & Hid & Hfn & Hti & Htc & Hmi & Hmc & Hval).
    rewrite <- Hti, <- Htc.
    split_and!; try done; try lia.
    + by match goal with H : bool_decide _ = true |- _ => apply bool_decide_eq_true in H end.
    + intros f id Hin.
      match goal with Hf : for_each (check_function_mapping _) _ = _ |- _ =>
        apply for_each_Ok in Hf; rewrite List.Forall_forall in Hf;
        specialize (Hf _ (proj1 (list_elem_of_In _ _) Hin)); unfold check_function_mapping in Hf;
        cbn [fst snd] in Hf end.
      destruct (find_prototype module id) as [q |]; [| done]. res_ok. exists q. split; [done | lia].
  - cbn. split_and!; try done; try lia; try constructor. intros p Hp. by apply elem_of_nil in Hp.
  - intros pre p post s s' _ (Hp & Hf & Hid & Hfn & Hti & Htc & Hmi & Hmc & Hval) Hstep.
    apply (verify_each_inv module limits pre) in Hstep as (Hp' & Hf' & Hn & Hm & Hti' & Htc' & ? & ? & Hv);
      [| done..].
    rewrite (map_app p_id), (map_app p_function) in *.
    rewrite !map_app, !concat_app, !zlen_app. cbn [map concat]. rewrite !app_nil_r.
    split_and!; try done; try lia.
    + apply NoDup_app. split_and!; [done | | apply NoDup_singleton].
      intros x Hx ->%list_elem_of_singleton. by apply Hn.
    + apply NoDup_app. split_and!; [done | | apply NoDup_singleton].
      intros x Hx ->%list_elem_of_singleton. by apply Hm.
    + intros q [Hq | ->%list_elem_of_singleton]%elem_of_app; auto.
Qed.
End Accepted.

Section VerifiedModule.
Context `{Allocator}.

(** C11: What every accepted module looks like: the requested profile and format,
    distinct prototype and function identifiers, a map entry for each
    prototype count that points to a prototype of that function, the
    per-module totals of instructions and constants within the limits, every
    parent and every closure's child present, and every numeric for's four
    registers distinct. *)
Theorem verified_module_structure module profile limits vm :
  verify_module module profile limits = Ok vm ->
  vm_module vm = module /\
  format_version module = RVLU_V2 /\ m_profile module = profile /\
  NoDup (map p_id (prototypes module)) /\ NoDup (map p_function (prototypes module)) /\
  zlen (prototypes module) <= max_prototypes limits /\
  zlen (concat (map instructions (prototypes module))) <= Z.max 0 (max_instructions limits) /\
  zlen (concat (map constants (prototypes module))) <= Z.max 0 (max_constants limits) /\
  (forall f id, (f, id) ∈ function_prototypes module ->
     exists p, p ∈ prototypes module /\ p_id p = id /\ p_function p = f) /\
  (forall p, p ∈ prototypes module ->
     register_count p <= max_registers limits /\
     (forall parent, p_parent p = Some parent -> exists q, q ∈ prototypes module /\ p_id q = parent) /\
     (forall pc entry dest proto, zget (instructions p) pc = Some entry ->
        bi_instruction entry = Closure dest proto ->
        exists q, q ∈ prototypes module /\ p_id q = proto /\ p_parent q = Some (p_id p)) /\
     (forall pc entry control limit step visible exit, zget (instructions p) pc = Some entry ->
        bi_instruction entry = NumericForPrepare control limit step visible exit ->
        NoDup [control; limit; step; visible] /\ pc < exit < zlen (instructions p))).
Proof.
  intros (Hm & Hf & Hp & _ & Hl & _ & Hid & Hfn & Hi & Hc & Hv & Hmap)%verify_module_Ok.
  split_and!; try done.
  - intros f id (p & Hfind & Hfun)%Hmap. unfold find_prototype in Hfind.
    apply find_some in Hfind as [Hin Heq]. exists p.
    split_and!; [by apply list_elem_of_In | lia | done].
  - intros p Hin. specialize (Hv p Hin).
    apply validate_prototype_Ok in Hv as (Hr & _ & _ & _ & Hpar & Hops & _).
    split_and!; [done | done | |].
    + intros pc entry dest proto He Hcl. destruct (Hops _ _ He) as [Ho _]. rewrite Hcl in Ho.
      cbn [validate_operands] in Ho. res_ok.
      match goal with Hn : negb (existsb _ _) = false |- _ =>
        apply negb_false_iff, existsb_exists in Hn as (q & Hq & Hqe) end.
      bool_hyps. exists q. split_and!; [by apply list_elem_of_In | lia |].
      by match goal with Hn : opt_eqb _ _ = true |- _ => apply bool_decide_eq_true in Hn end.
    + intros pc entry control limit step visible exit He Hcl.
      destruct (Hops _ _ He) as [Ho _]. rewrite Hcl in Ho. cbn [validate_operands] in Ho.
      res_ok. match goal with Hn : validate_numeric_for_registers _ _ _ _ _ = _ |- _ =>
        apply numeric_for_registers_Ok in Hn as [Hnd _] end.
      unfold require_jump_target in *. res_ok. bool_hyps. split; [done | lia].
Qed.

End VerifiedModule.

(** The steps of the demo's prototype along its body and back to [Return]. *)
Lemma demo_run : rtc (run_step demo_prototype) (0, None) (7, Some 5).
Proof.
  assert (forall pc open entry pc' open', zget (instructions demo_prototype) pc = Some entry ->
    control_edge (bi_instruction entry) pc pc' -> open' = open_after open (bi_instruction entry) ->
    run_step demo_prototype (pc, open) (pc', open')) as Hstep by (intros; subst; by econstructor).
  do 3 (eapply rtc_l; [eapply Hstep; [reflexivity | right; split; reflexivity | reflexivity] | cbn]).
  eapply rtc_l; [eapply Hstep; [reflexivity | left; constructor | reflexivity] | cbn].
  eapply rtc_l; [eapply Hstep; [reflexivity | right; split; reflexivity | reflexivity] | cbn].
  apply rtc_refl.
Qed.

Lemma verified_module_structure_witness :
  exists vm, @verify_module exact_allocator demo_module Lua55 VerifyLimits_default = Ok vm /\
    vm_module vm = demo_module.
Proof.
  eexists. split; [vm_compute; reflexivity |].
  eapply (@verified_module_structure exact_allocator demo_module Lua55 VerifyLimits_default).
  vm_compute. reflexivity.
Defined.

