(* ===== verification/Dominance.v ===== *)
(** The numeric-for check of the verifier (codec.rs, [validate_numeric_for_pairs]
    and [validate_numeric_for_body_dominance]): it never panics or runs for
    ever, and what it accepts is right. The depth-first search, the iterated
    immediate dominators and the numbering of the dominator tree are verified
    one by one; together they show that every path to a [NumericForNext] goes
    through the successful branch of its [NumericForPrepare]. *)

From Stdlib Require Import ZArith Lia.
From stdpp Require Import base list numbers strings.
From S2P Require Import Prelude Number Bytecode Verifier.

Local Open Scope Z_scope.

(** ** Adjacency lists *)

Definition edge (edges : list (list Z)) (u v : Z) : Prop := exists l, zget edges u = Some l /\ v ∈ l.

Definition closed_graph (edges : list (list Z)) : Prop :=
  forall u v, edge edges u v -> 0 <= v < zlen edges.

Lemma edge_lt edges u v : edge edges u v -> 0 <= u < zlen edges.
Proof. intros (l & Hl & _). by eapply zget_lt. Qed.

Lemma zget_repeat {A} (x : A) n i : 0 <= i < Z.of_nat n -> zget (repeat x n) i = Some x.
Proof.
  intros Hi. apply zget_Some. split; [lia |].
  assert (Z.to_nat i < n)%nat as Hn by lia. revert Hn. generalize (Z.to_nat i). clear Hi.
  induction n as [| n IH]; intros [| k] Hk; cbn; [lia.. | done |]. apply IH. lia.
Qed.

Lemma zget_repeat_Some {A} (x y : A) n i : zget (repeat x n) i = Some y -> y = x.
Proof.
  intros H. pose proof (zget_lt _ _ _ H) as Hl. unfold zlen in Hl. rewrite repeat_length in Hl.
  rewrite zget_repeat in H by lia. by simplify_eq.
Qed.

Lemma zlen_repeat {A} (x : A) n : zlen (repeat x n) = Z.of_nat n.
Proof. unfold zlen. by rewrite repeat_length. Qed.

Lemma zget_zinsert {A} (l : list A) i j x :
  0 <= i < zlen l -> zget (zinsert l i x) j = if j =? i then Some x else zget l j.
Proof.
  intros Hi. destruct (Z.eqb_spec j i) as [-> |]; [by apply zget_zinsert_eq | apply zget_zinsert_ne; lia].
Qed.

Lemma edge_repeat_nil n u v : ~ edge (repeat [] n) u v.
Proof. intros (l & Hl%zget_repeat_Some & Hv). subst. by apply elem_of_nil in Hv. Qed.

Lemma push_at_edge edges n s :
  0 <= n < zlen edges ->
  ensures (push_at edges n s) (fun edges' => zlen edges' = zlen edges /\
    (forall u l, zget edges' u = Some l -> exists l0, zget edges u = Some l0 /\
       (l = l0 \/ (u = n /\ l = l0 ++ [s]))) /\
    forall u v, edge edges' u v <-> edge edges u v \/ (u = n /\ v = s)).
Proof.
  intros Hn. unfold push_at. apply (ensures_bind _ _ (fun l => zget edges n = Some l)).
  { by apply ensures_vget. }
  intros l Hl. apply ensures_vset; [done |]. rewrite zlen_zinsert. split_and!; [done | |].
  { intros u l'. rewrite zget_zinsert by done. destruct (Z.eqb_spec u n) as [-> |]; [| eauto].
    intros [= <-]. eauto. }
  intros u v. unfold edge. setoid_rewrite zget_zinsert; [| done].
  destruct (Z.eqb_spec u n) as [-> |].
  - rewrite Hl. split.
    + intros (l' & [= <-] & [Hv | ->%list_elem_of_singleton]%elem_of_app); eauto.
    + intros [(l' & [= <-] & Hv) | [_ ->]]; eexists; (split; [done |]); apply elem_of_app; [by left |].
      right. by apply list_elem_of_singleton.
  - split; [by left | by intros [? | [? _]]].
Qed.

(** The predecessor lists are the reversed graph. *)
Lemma cfg_predecessors_spec edges :
  closed_graph edges ->
  ensures (cfg_predecessors edges) (fun preds => zlen preds = zlen edges /\
    forall u v, edge preds v u <-> edge edges u v).
Proof.
  intros Hc. unfold cfg_predecessors.
  eapply ensures_weaken.
  { apply (ensures_fold _ (fun done preds => zlen preds = zlen edges /\
      forall u v, edge preds v u <-> exists l, (u, l) ∈ done /\ v ∈ l)).
    { unfold zlen. rewrite repeat_length. split; [done |]. intros u v. split.
      - by intros ?%edge_repeat_nil.
      - by intros (l & ?%elem_of_nil & _). }
    intros pre [node succs] post acc Hl [Hz Hacc].
    assert (zget edges node = Some succs) as Hnode.
    { apply enumerate_elem. rewrite Hl. apply elem_of_app. right. left. }
    eapply ensures_weaken.
    { apply (ensures_fold _ (fun done preds => zlen preds = zlen edges /\
        forall u v, edge preds v u <-> edge acc v u \/ (u = node /\ v ∈ done))).
      { split; [done |]. intros u v. rewrite elem_of_nil. tauto. }
      intros pre' v post' acc' Hl' [Hz' Hacc'].
      eapply ensures_weaken; [apply push_at_edge |].
      { rewrite Hz'. apply (Hc node v). exists succs. split; [done |].
        cbn [snd] in Hl'. rewrite Hl'. apply elem_of_app. right. left. }
      intros acc2 (Hz2 & _ & H2). split; [lia |]. intros u w. rewrite H2, Hacc'.
      rewrite elem_of_app, list_elem_of_singleton. cbn [fst]. tauto. }
    intros acc' [Hz' Hacc']. split; [done |]. intros u v. rewrite Hacc', Hacc.
    setoid_rewrite elem_of_app. setoid_rewrite list_elem_of_singleton. split.
    - intros [(l & ? & ?) | [-> ?]]; eauto.
    - intros (l & [? | [= -> ->]] & ?); eauto. }
  intros preds [Hz Hp]. split; [done |]. intros u v. rewrite Hp. unfold edge.
  by setoid_rewrite enumerate_elem.
Qed.

(** ** Depth-first search *)

(** The nodes on a path from node 0, last first. *)
Inductive walk (edges : list (list Z)) : Z -> list Z -> Prop :=
  | walk_start : walk edges 0 [0]
  | walk_step u v l : walk edges u l -> edge edges u v -> walk edges v (v :: l).

Definition marked (visited : list bool) (v : Z) : Prop := zget visited v = Some true.

(** Rounds left: every unmarked node will be pushed once, every node on the
    stack has its remaining successors and its removal. *)
Fixpoint unmarked_weight (edges : list (list Z)) (visited : list bool) : nat :=
  match edges, visited with
  | l :: edges, b :: visited => (if b then 0 else S (length l)) + unmarked_weight edges visited
  | _, _ => 0
  end%nat.

Definition entry_weight (edges : list (list Z)) (ni : Z * Z) : nat :=
  match zget edges ni.1 with Some l => S (length l - Z.to_nat ni.2) | None => 0 end%nat.

Definition stack_weight (edges : list (list Z)) (stack : list (Z * Z)) : nat :=
  foldr (fun ni w => entry_weight edges ni + w)%nat 0%nat stack.

Lemma stack_weight_cons edges node i l stack :
  zget edges node = Some l ->
  stack_weight edges ((node, i) :: stack) =
  (S (length l - Z.to_nat i) + stack_weight edges stack)%nat.
Proof. intros Hl. cbn. unfold entry_weight. cbn [fst snd]. by rewrite Hl. Qed.

Lemma unmarked_weight_mark edges visited v l :
  zget edges v = Some l -> zget visited v = Some false ->
  (unmarked_weight edges (zinsert visited v true) + S (length l) = unmarked_weight edges visited)%nat.
Proof.
  rewrite !zget_Some. intros [Hv He] [_ Hb]. unfold zinsert. revert He Hb. generalize (Z.to_nat v). clear.
  revert visited. induction edges as [| l0 edges IH]; intros [| b visited] [| k] He Hb;
    cbn in *; simplify_eq; [lia |]. pose proof (IH _ _ He Hb). rewrite <- Nat.add_assoc. by f_equal.
Qed.

Lemma unmarked_weight_fresh edges n :
  length edges = n ->
  unmarked_weight edges (repeat false n) = (length (concat edges) + length edges)%nat.
Proof.
  revert n. induction edges as [| l edges IH]; intros [| n] Hn; cbn in *; try lia.
  rewrite IH by lia. rewrite length_app. lia.
Qed.

Section DepthFirst.
Context (edges : list (list Z)) (Hedges : closed_graph edges).

Record dfs_inv (visited : list bool) (postorder : list Z) (stack : list (Z * Z)) : Prop := {
  di_len : zlen visited = zlen edges;
  di_marked : forall v, marked visited v <-> v ∈ postorder \/ v ∈ stack.*1;
  di_nodup : NoDup (stack.*1 ++ postorder);
  di_post : forall u v, u ∈ postorder -> edge edges u v -> marked visited v;
  di_stack : forall u i l j v, (u, i) ∈ stack -> zget edges u = Some l -> 0 <= j < i ->
    zget l j = Some v -> marked visited v;
  di_index : forall u i, (u, i) ∈ stack -> 0 <= i;
  di_walk : forall v, marked visited v -> exists l, walk edges v l;
  di_root : (stack = [] /\ exists rest, postorder = 0 :: rest) \/ exists pre i, stack = pre ++ [(0, i)]
}.

Lemma marked_zinsert visited v w :
  0 <= v < zlen visited -> marked (zinsert visited v true) w <-> marked visited w \/ w = v.
Proof.
  intros Hv. unfold marked. rewrite zget_zinsert by done.
  destruct (Z.eqb_spec w v); intuition congruence.
Qed.

(** The three things a round does keep the invariant. *)
Lemma dfs_inv_skip visited postorder node i l s rest :
  dfs_inv visited postorder ((node, i) :: rest) ->
  zget edges node = Some l -> zget l i = Some s -> marked visited s ->
  dfs_inv visited postorder ((node, i + 1) :: rest).
Proof.
  intros [Hl Hm Hn Hp Hs Hi Hw Hr] He Hget Hsm. split; try done.
  - intros u k l' j v [[= -> ->] | Hu]%elem_of_cons He' Hj Hv; [| by eapply (Hs u); [by right | ..]].
    simplify_eq. destruct (decide (j = i)) as [-> | ]; [by simplify_eq |].
    eapply (Hs node i); [by left | done | | done]. lia.
  - intros u k [[= -> ->] | Hu]%elem_of_cons; [| apply (Hi u); by right].
    pose proof (Hi node i ltac:(by left)). lia.
  - destruct Hr as [[? _] | (pre & k & Hpre)]; [done |]. right.
    destruct pre as [| x pre]; simplify_eq/=; [by eexists [], _ | by eexists (_ :: pre), _].
Qed.

Lemma dfs_inv_push visited postorder node i l s rest :
  dfs_inv visited postorder ((node, i) :: rest) ->
  zget edges node = Some l -> zget l i = Some s -> zget visited s = Some false ->
  dfs_inv (zinsert visited s true) postorder ((s, 0) :: (node, i + 1) :: rest).
Proof.
  intros Hinv He Hget Hsm. pose proof (zget_lt _ _ _ Hsm) as Hslt.
  assert (~ marked visited s) as Hns by (unfold marked; congruence).
  destruct Hinv as [Hl Hm Hn Hp Hs Hi Hw Hr]. split.
  - by rewrite zlen_zinsert.
  - intros v. rewrite marked_zinsert, Hm by done. cbn. rewrite !elem_of_cons. tauto.
  - cbn in *. constructor; [| done]. rewrite Hm in Hns. cbn in Hns.
    rewrite elem_of_cons, elem_of_app. rewrite elem_of_cons in Hns. tauto.
  - intros u v Hu Huv. apply marked_zinsert; [done |]. left. by eapply Hp.
  - intros u k l' j v [[= -> ->] | [[= -> ->] | Hu]%elem_of_cons]%elem_of_cons He' Hj Hv; [lia | |];
      apply marked_zinsert; try done.
    + simplify_eq. destruct (decide (j = i)) as [-> | ]; [right; by simplify_eq |]. left.
      eapply (Hs node i); [by left | done | | done]. lia.
    + left. by eapply (Hs u); [by right | ..].
  - intros u k [[= -> ->] | [[= -> ->] | Hu]%elem_of_cons]%elem_of_cons; [lia | | apply (Hi u); by right].
    pose proof (Hi node i ltac:(by left)). lia.
  - intros v [Hv | ->]%marked_zinsert; [by apply Hw | | done].
    destruct (Hw node) as [lw Hlw]; [apply Hm; right; left |].
    exists (s :: lw). eapply walk_step; [done |]. exists l. split; [done |].
    apply zget_Some in Hget as [_ Hget]. by eapply list_elem_of_lookup_2.
  - destruct Hr as [[? _] | (pre & k & Hpre)]; [done |]. right.
    destruct pre as [| x pre]; simplify_eq/=;
      [by eexists [_], _ | by eexists (_ :: _ :: pre), _].
Qed.

Lemma dfs_inv_finish visited postorder node i l rest :
  dfs_inv visited postorder ((node, i) :: rest) ->
  zget edges node = Some l -> zlen l <= i ->
  dfs_inv visited (node :: postorder) rest.
Proof.
  intros [Hl Hm Hn Hp Hs Hi Hw Hr] He Hend. split; try done.
  - intros v. rewrite Hm. cbn. rewrite !elem_of_cons. tauto.
  - by rewrite <- Permutation_middle.
  - intros u v [-> | Hu]%elem_of_cons Huv; [| by eapply Hp].
    destruct Huv as (l' & He' & [j Hj]%list_elem_of_lookup). simplify_eq.
    assert (zget l (Z.of_nat j) = Some v) as Hz.
    { apply zget_Some. rewrite Nat2Z.id. split; [lia | done]. }
    pose proof (zget_lt _ _ _ Hz). eapply (Hs node i); [by left | done | | done]. lia.
  - intros u k l' j v Hu. apply (Hs u). by right.
  - intros u k Hu. apply (Hi u). by right.
  - destruct Hr as [[? _] | (pre & k & Hpre)]; [done |].
    destruct pre as [| x pre]; simplify_eq/=; [left; eauto | right; eauto].
Qed.

Lemma dfs_spec fuel visited postorder stack :
  dfs_inv visited postorder stack ->
  (unmarked_weight edges visited + stack_weight edges stack <= fuel)%nat ->
  ensures (dfs fuel edges visited postorder stack)
    (fun vp => dfs_inv vp.1 vp.2 [] ).
Proof using Hedges.
  revert visited postorder stack. induction fuel as [| fuel IH];
    intros visited postorder [| [node i] rest] Hinv Hf; cbn [dfs]; try done.
  - exfalso. assert (marked visited node) as Hm by (apply (di_marked _ _ _ Hinv); right; left).
    pose proof (zget_lt _ _ _ Hm) as Hlt. rewrite (di_len _ _ _ Hinv) in Hlt.
    destruct (zget_is_Some edges node Hlt) as [l Hl].
    rewrite (stack_weight_cons _ _ _ l) in Hf by done. lia.
  - assert (marked visited node) as Hm by (apply (di_marked _ _ _ Hinv); right; left).
    pose proof (zget_lt _ _ _ Hm) as Hlt. rewrite (di_len _ _ _ Hinv) in Hlt.
    pose proof (di_index _ _ _ Hinv node i ltac:(by left)) as Hi.
    apply (ensures_bind _ _ (fun l => zget edges node = Some l)); [by apply ensures_vget | intros l Hl].
    rewrite (stack_weight_cons _ _ _ l) in Hf by done.
    destruct (Z.ltb_spec i (zlen l)) as [Hil | Hil].
    + apply (ensures_bind _ _ (fun s => zget l i = Some s)); [apply ensures_vget; [lia | done] | intros s Hs].
      assert (0 <= s < zlen edges) as Hse.
      { apply (Hedges node). exists l. split; [done |]. apply zget_Some in Hs as [_ Hs].
        by eapply list_elem_of_lookup_2. }
      apply (ensures_bind _ _ (fun b => zget visited s = Some b));
        [apply ensures_vget; [by rewrite (di_len _ _ _ Hinv) | done] | intros b Hb].
      destruct b.
      * apply IH; [by eapply dfs_inv_skip |].
        rewrite (stack_weight_cons _ _ _ l) by done. unfold zlen in Hil. lia.
      * apply (ensures_bind _ _ (fun visited' => visited' = zinsert visited s true)).
        { apply ensures_vset; [by rewrite (di_len _ _ _ Hinv) | done]. }
        intros visited' ->. apply IH; [by eapply dfs_inv_push |].
        destruct (zget_is_Some edges s Hse) as [ls Hls].
        pose proof (unmarked_weight_mark edges visited s ls Hls Hb).
        rewrite (stack_weight_cons _ _ _ ls), (stack_weight_cons _ _ _ l) by done.
        unfold zlen in Hil. lia.
    + apply IH; [by eapply dfs_inv_finish |]. lia.
Qed.

(** From node 0: the marked nodes are the finished ones, each once, with 0
    last, and no edge leaves them. *)
Lemma dfs_reaches n :
  zlen edges = Z.of_nat n -> 0 < zlen edges ->
  ensures (dfs (dfs_fuel edges) edges (zinsert (repeat false n) 0 true) [] [(0, 0)])
    (fun vp => zlen vp.1 = zlen edges /\ NoDup vp.2 /\ (exists rest, vp.2 = 0 :: rest) /\
       (forall v, marked vp.1 v <-> v ∈ vp.2) /\
       (forall v, marked vp.1 v -> exists l, walk edges v l) /\
       forall u v, u ∈ vp.2 -> edge edges u v -> v ∈ vp.2).
Proof using Hedges.
  intros Hn H0. eapply ensures_weaken.
  { apply dfs_spec.
    - split; cbn [fst fmap list_fmap app].
      + by rewrite zlen_zinsert, zlen_repeat.
      + intros v. rewrite marked_zinsert by (rewrite zlen_repeat; lia). unfold marked. cbn.
        rewrite list_elem_of_singleton, elem_of_nil. split; [| tauto].
        intros [?%zget_repeat_Some | ?]; [done | by right].
      + apply NoDup_singleton.
      + by intros u v ?%elem_of_nil.
      + intros u i l j v [= -> ->]%list_elem_of_singleton. lia.
      + by intros u i [= -> ->]%list_elem_of_singleton.
      + intros v [?%zget_repeat_Some | ->]%marked_zinsert; [done | | rewrite zlen_repeat; lia].
        exists [0]. constructor.
      + right. by exists [], 0.
    - destruct (zget_is_Some edges 0 ltac:(lia)) as [l Hl]. unfold dfs_fuel.
      pose proof (unmarked_weight_mark edges (repeat false n) 0 l Hl ltac:(apply zget_repeat; lia)).
      rewrite unmarked_weight_fresh in * by (unfold zlen in Hn; lia).
      rewrite (stack_weight_cons _ _ _ l) by done. cbn [stack_weight foldr]. lia. }
  intros [visited postorder] [Hl Hm Hnd Hp Hs Hi Hw Hr]. cbn [fst snd] in *.
  split_and!; try done.
  - destruct Hr as [[_ ?] | (pre & i & Hpre)]; [done | by destruct pre].
  - intros v. rewrite Hm. cbn. rewrite elem_of_nil. tauto.
  - intros u v Hu Huv. apply (Hp u v Hu) in Huv. apply Hm in Huv as [? | ?%elem_of_nil]; done.
Qed.
End DepthFirst.

(** ** Dominators *)

(** The ancestors of a node along the immediate dominators found so far. *)
Inductive anc (idom : list (option Z)) : Z -> Z -> Prop :=
  | anc_refl v : anc idom v v
  | anc_step v d a : zget idom v = Some (Some d) -> anc idom d a -> anc idom v a.

Lemma anc_trans idom u v w : anc idom u v -> anc idom v w -> anc idom u w.
Proof. induction 1; [done |]. intros. eapply anc_step; eauto. Qed.

(** Ancestors of one node are comparable. *)
Lemma anc_chain idom v a b : anc idom v a -> anc idom v b -> anc idom a b \/ anc idom b a.
Proof.
  intros Ha. revert b. induction Ha as [v | v d a Hd Ha IH]; intros b Hb; [by left |].
  inversion Hb as [? | ? d' ? Hd' Hb']; subst; [right; by apply (anc_step _ _ d) |].
  simplify_eq. by apply IH.
Qed.

Lemma anc_root idom a : zget idom 0 = Some (Some 0) -> anc idom 0 a -> a = 0.
Proof.
  intros H0 Ha. remember 0 as v eqn:Hv in Ha. induction Ha as [v | v d a Hd Ha IH]; [done |].
  subst. apply IH. congruence.
Qed.

Section Dominators.
Context (edges preds : list (list Z)) (order reach : list Z).
Context (Hpreds : forall u v, edge preds v u -> 0 <= u < zlen edges).
Context (Hzp : zlen preds = zlen edges) (Hzo : zlen order = zlen edges).
Context (Hroot : 0 ∈ reach) (Hreach : forall v, v ∈ reach -> 0 <= v < zlen edges).
Context (Horder : forall u v x, u ∈ reach -> v ∈ reach -> zget order u = Some x -> zget order v = Some x -> u = v).

(** Immediate dominators are only given to reachable nodes with a
    predecessor, and are reachable. *)
Record idom_inv (idom : list (option Z)) : Prop := {
  ii_len : zlen idom = zlen edges;
  ii_root : zget idom 0 = Some (Some 0);
  ii_reach : forall v d, zget idom v = Some (Some d) -> v ∈ reach /\ d ∈ reach;
  ii_pred : forall v d, zget idom v = Some (Some d) -> v = 0 \/ exists u, edge preds v u
}.

Definition known (idom : list (option Z)) (v : Z) : Prop := exists d, zget idom v = Some (Some d).

Lemma ensures_spend_work work :
  ensures (spend_work work) (fun work' => work' = work - 1 /\ 0 <= work').
Proof. unfold spend_work. destruct (Z.leb_spec 1 work); cbn; lia. Qed.

Lemma ensures_idom_of idom v :
  0 <= v < zlen idom -> ensures (idom_of idom v) (fun d => zget idom v = Some (Some d)).
Proof.
  intros Hv. unfold idom_of. eapply ensures_bind; [by apply (ensures_vget _ _ (fun d => zget idom v = Some d)) |].
  by intros [d |] Hd.
Qed.

(** The walk up from two nodes stops at a common ancestor; each step spends
    work, so it stops before the fuel does. *)
Lemma intersect_spec fuel idom work left right :
  idom_inv idom -> left ∈ reach -> right ∈ reach -> 0 <= work -> (Z.to_nat work < fuel)%nat ->
  ensures (intersect fuel order idom work left right) (fun cw =>
    0 <= cw.2 <= work /\ cw.1 ∈ reach /\ anc idom left cw.1 /\ anc idom right cw.1).
Proof using Hreach Horder Hzo.
  intros Hi. revert work left right. induction fuel as [| fuel IH]; intros work l r Hl Hr Hw Hf; [lia |].
  cbn [intersect]. destruct (Z.eqb_spec l r) as [-> | Hne].
  { cbn. split_and!; [lia.. | done | constructor | constructor]. }
  pose proof (Hreach l Hl). pose proof (Hreach r Hr). pose proof (ii_len _ Hi).
  eapply ensures_bind; [apply (ensures_vget _ _ (fun x => zget order l = Some x)); [lia | done] | intros x Hx].
  eapply ensures_bind; [apply (ensures_vget _ _ (fun x => zget order r = Some x)); [lia | done] | intros y Hy].
  destruct (Z.ltb_spec y x); [| destruct (Z.ltb_spec x y)].
  - eapply ensures_bind; [apply ensures_spend_work | intros work' [-> Hw']].
    eapply ensures_bind; [apply ensures_idom_of; lia | intros d Hd].
    eapply ensures_weaken; [apply IH; try lia; try done; by apply (ii_reach _ Hi _ _ Hd) |].
    intros [c w] (Hw2 & Hc & Ha & Hb). split_and!; [cbn in *; lia.. | done | by apply (anc_step _ _ d) | done].
  - eapply ensures_bind; [apply ensures_spend_work | intros work' [-> Hw']].
    eapply ensures_bind; [apply ensures_idom_of; lia | intros d Hd].
    eapply ensures_weaken; [apply IH; try lia; try done; by apply (ii_reach _ Hi _ _ Hd) |].
    intros [c w] (Hw2 & Hc & Ha & Hb). split_and!; [cbn in *; lia.. | done | done | by apply (anc_step _ _ d)].
  - exfalso. apply Hne. eapply (Horder l r x); [done.. |]. by replace x with y by lia.
Qed.

(** What a pass computes for one node: a common ancestor of its predecessors
    that have an immediate dominator. *)
Definition joined (idom : list (option Z)) (ps : list Z) (candidate : option Z) : Prop :=
  match candidate with
  | Some c => c ∈ reach /\ (exists u, u ∈ ps) /\ forall u, u ∈ ps -> known idom u -> anc idom u c
  | None => forall u, u ∈ ps -> ~ known idom u
  end.

Lemma join_spec idom work ps :
  idom_inv idom -> 0 <= work -> (forall u, u ∈ ps -> 0 <= u < zlen edges) ->
  ensures (fold_res (join_predecessor order idom) (None, work) ps) (fun cw =>
    0 <= cw.2 /\ cw.2 + zlen ps <= work /\ joined idom ps cw.1).
Proof using Hreach Horder Hzo.
  intros Hi Hw Hps. apply (ensures_fold _ (fun ps cw => 0 <= cw.2 /\ cw.2 + zlen ps <= work /\ joined idom ps cw.1)).
  { cbn [fst snd joined]. split_and!; [done | unfold zlen; cbn; lia |]. by intros u ?%elem_of_nil. }
  intros pre u post [candidate w] -> (Hw0 & Hw1 & Hj). cbn [fst snd] in *. unfold join_predecessor.
  eapply ensures_bind; [apply ensures_spend_work | intros work' [-> Hw']].
  assert (0 <= u < zlen edges) as Hu by (apply Hps, elem_of_app; right; left).
  eapply ensures_bind; [apply (ensures_vget _ _ (fun d => zget idom u = Some d));
    [by rewrite (ii_len _ Hi) | done] | intros d Hd].
  assert (zlen (pre ++ [u]) = zlen pre + 1) as Hz by (rewrite zlen_app; done).
  destruct d as [d |]; [destruct candidate as [current |] |].
  - destruct Hj as (Hcur & _ & Hj). eapply ensures_bind.
    { apply intersect_spec; [done | by apply (ii_reach _ Hi _ _ Hd) | done | lia | lia]. }
    intros [c w2] (Hw2 & Hc & Ha & Hb). cbn [ensures fst snd joined] in *. split_and!; [lia | lia | done | exists u; apply elem_of_app; right; left |].
    intros v [Hv | ->%list_elem_of_singleton]%elem_of_app Hk; [| done].
    eapply anc_trans; [by apply Hj | done].
  - cbn [ensures fst snd joined] in *. split_and!; [lia | lia | by apply (ii_reach _ Hi _ _ Hd) | |].
    { exists u. apply elem_of_app. right. left. }
    intros v [Hv | ->%list_elem_of_singleton]%elem_of_app Hk; [| constructor]. by apply Hj in Hv.
  - assert (~ known idom u) as Hnk by (intros [d Hd']; congruence).
    cbn [ensures fst snd]. split_and!; [lia | lia |]. destruct candidate as [c |]; cbn [joined] in *.
    + split_and!; [tauto | exists u; apply elem_of_app; right; left |]. intros v [Hv | ->%list_elem_of_singleton]%elem_of_app Hk; [by apply Hj | done].
    + intros v [Hv | ->%list_elem_of_singleton]%elem_of_app; [by apply Hj | done].
Qed.

(** At a fixpoint, every node's immediate dominator is what a pass gives. *)
Definition stable (idom : list (option Z)) (v : Z) : Prop :=
  forall ps d, zget preds v = Some ps -> zget idom v = Some d -> joined idom ps d.

Definition pass_inv (idom0 : list (option Z)) (work0 : Z) (done : list Z)
    (s : list (option Z) * bool * Z) : Prop :=
  idom_inv s.1.1 /\ 0 <= s.2 <= work0 /\
  (s.1.2 = true -> s.2 < work0) /\
  (s.1.2 = false -> s.1.1 = idom0 /\ forall v, v ∈ done -> stable idom0 v).

Lemma pass_step idom0 work0 pre s v :
  v ∈ reach -> v <> 0 -> pass_inv idom0 work0 pre s ->
  ensures (dominator_pass preds order s v) (pass_inv idom0 work0 (pre ++ [v])).
Proof using Hpreds Hzp Hreach Horder Hzo.
  destruct s as [[idom changed] work]. intros Hv Hv0 (Hi & Hw & Ht & Hf). cbn [fst snd] in *.
  unfold dominator_pass. pose proof (Hreach v Hv) as Hvr. pose proof (ii_len _ Hi) as Hlen.
  eapply ensures_bind; [apply (ensures_vget _ _ (fun ps => zget preds v = Some ps)); [lia | done] | intros ps Hps].
  eapply ensures_bind; [apply (join_spec idom work ps Hi); [lia |] |].
  { intros u Hu. apply (Hpreds u v). by exists ps. }
  intros [c w] (Hw0 & Hw1 & Hj). cbn [fst snd] in *. pose proof (zlen_nonneg ps).
  eapply ensures_bind; [apply (ensures_vget _ _ (fun d => zget idom v = Some d)); [lia | done] | intros old Hold].
  unfold opt_eqb. destruct (bool_decide_reflect (old = c)) as [-> | Hne].
  - cbn. split_and!; cbn [fst snd]; [done | lia | lia | intros Hch; specialize (Ht Hch); lia |].
    intros Hch. destruct (Hf Hch) as [-> Hst]. split; [done |].
    intros u [Hu | ->%list_elem_of_singleton]%elem_of_app; [by apply Hst |].
    intros ps' d Hps' Hd. by simplify_eq.
  - eapply ensures_bind; [by apply (ensures_vset _ _ _ (fun l => l = zinsert idom v c)); [lia |] |].
    intros idom' ->.
    assert (exists u, u ∈ ps) as [u Hu].
    { destruct c as [c |]; [by destruct Hj as (_ & ? & _) |]. destruct old as [d |]; [| done].
      destruct (ii_pred _ Hi _ _ Hold) as [? | [u (ps' & Hps' & Hu)]]; [done |]. simplify_eq. eauto. }
    assert (1 <= zlen ps).
    { destruct ps as [| ? ps]; [by apply elem_of_nil in Hu |]. rewrite zlen_cons. pose proof (zlen_nonneg ps). lia. }
    cbn. split_and!; cbn [fst snd]; [| lia | lia | lia | done].
    assert (forall x d, zget (zinsert idom v c) x = Some (Some d) ->
      (x = v /\ c = Some d) \/ zget idom x = Some (Some d)) as Hget.
    { intros x d. rewrite zget_zinsert by lia. destruct (Z.eqb_spec x v); intuition congruence. }
    split.
    + by rewrite zlen_zinsert.
    + rewrite zget_zinsert_ne by lia. apply Hi.
    + intros x d [[-> ->] | Hx]%Hget; [by destruct Hj | by apply (ii_reach _ Hi)].
    + intros x d [[-> ->] | Hx]%Hget; [right; exists u; by exists ps | by apply (ii_pred _ Hi _ d)].
Qed.

Lemma dominators_spec fuel nodes idom work :
  (forall v, v ∈ nodes -> v ∈ reach /\ v <> 0) ->
  idom_inv idom -> 0 <= work -> (Z.to_nat work < fuel)%nat ->
  ensures (dominators fuel preds order nodes idom work)
    (fun idom => idom_inv idom /\ forall v, v ∈ nodes -> stable idom v).
Proof using Hpreds Hzp Hreach Horder Hzo.
  intros Hnodes. revert idom work. induction fuel as [| fuel IH]; intros idom work Hi Hw Hf; [lia |].
  cbn [dominators]. eapply ensures_bind.
  { apply (ensures_fold _ (pass_inv idom work)).
    - split_and!; cbn; [done | lia | lia | done |]. intros _. split; [done |]. by intros v ?%elem_of_nil.
    - intros pre v post s -> Hs. apply pass_step; [| | done]; apply Hnodes, elem_of_app; right; left. }
  intros [[idom' []] work'] (Hi' & Hw' & Ht & Hs); cbn [fst snd] in *.
  - specialize (Ht eq_refl). apply IH; [done | lia | lia].
  - destruct (Hs eq_refl) as [-> Hst]. done.
Qed.

(** The fixpoint is sound: whatever is above a node in the tree is on every
    path to it, and the tree's root is above every node that has a path. *)
Lemma stable_dominates idom v l :
  (forall u v, edge edges u v -> edge preds v u) ->
  (forall u v, u ∈ reach -> edge edges u v -> v ∈ reach) ->
  idom_inv idom -> (forall v, v ∈ reach -> v <> 0 -> stable idom v) ->
  walk edges v l -> v ∈ reach /\ known idom v /\ anc idom v 0 /\ forall a, anc idom v a -> a ∈ l.
Proof using Hreach Hroot.
  intros Hback Hclosed Hi Hst. pose proof (ii_root _ Hi) as Hroot0.
  induction 1 as [| u v l Hw (Hu & [d Hd] & Hu0 & IH) Huv].
  { split_and!; [done | by exists 0 | constructor |].
    intros a ->%anc_root; [left | done]. }
  pose proof (Hclosed u v Hu Huv) as Hv. pose proof (Hreach v Hv) as Hvr.
  destruct (decide (v = 0)) as [-> | Hv0].
  { split_and!; [done | by exists 0 | constructor |]. intros a ->%anc_root; [left | done]. }
  destruct (Hback u v Huv) as (ps & Hps & Hin).
  destruct (zget_is_Some idom v) as [c Hc]; [by rewrite (ii_len _ Hi) |].
  pose proof (Hst v Hv Hv0 ps c Hps Hc) as Hj.
  destruct c as [c |]; [| by destruct (Hj u Hin); exists d].
  destruct Hj as (_ & _ & Hj). specialize (Hj u Hin (ex_intro _ d Hd)).
  split_and!; [done | by exists c | |].
  - apply (anc_step _ _ c); [done |]. destruct (anc_chain _ _ _ _ Hj Hu0) as [? | H0c]; [done |].
    apply anc_root in H0c as ->; [constructor | done].
  - intros a Ha. inversion Ha as [? | ? c' ? Hc' Ha']; subst; [left |]. simplify_eq.
    right. apply IH. by eapply anc_trans.
Qed.
End Dominators.

(** ** The numbered dominator tree *)

Lemma enumerate_fst {A} (l : list A) : map fst (enumerate l) = map Z.of_nat (seq 0 (length l)).
Proof.
  unfold enumerate. generalize 0%nat. induction l as [| x l IH]; intros k; cbn; [done |]. by rewrite IH.
Qed.

Lemma enumerate_NoDup {A} (l : list A) : NoDup (map fst (enumerate l)).
Proof. rewrite enumerate_fst. apply NoDup_fmap_2; [intros ???; lia | apply NoDup_seq]. Qed.

Lemma enumerate_tail {A} (l : list A) v o :
  (v, o) ∈ tail (enumerate l) <-> 0 < v /\ zget l v = Some o.
Proof.
  rewrite <- enumerate_elem. pose proof (enumerate_NoDup l) as Hn.
  assert (forall w x, (w, x) ∈ enumerate l -> 0 <= w) as Hpos
    by (intros w x ?%enumerate_elem%zget_lt; lia).
  destruct l as [| x l]; [cbn; rewrite elem_of_nil; tauto |].
  change (enumerate (x :: l)) with ((0, x) :: combine (map Z.of_nat (seq 1 (length l))) l) in *.
  cbn [tail map fst] in *. apply NoDup_cons in Hn as [H0 _]. split.
  - intros Hv. assert (v <> 0); [| specialize (Hpos v o ltac:(by right)); split; [lia | by right]].
    intros ->. apply H0. change 0 with (fst (0, o)). by apply list_elem_of_fmap_2.
  - intros [Hv [[= -> ->] | Hv']%elem_of_cons]; [lia | done].
Qed.

(** The pairs of an enumeration before one of them have other indices. *)
Lemma NoDup_fst_split {A} (l pre post : list (Z * A)) v o :
  NoDup (map fst l) -> l = pre ++ (v, o) :: post -> forall o', ((v, o') ∉ pre).
Proof.
  intros Hn -> o' Hin. rewrite map_app in Hn. apply NoDup_app in Hn as (_ & Hn & _).
  apply (Hn v); [change v with (fst (v, o')); by apply list_elem_of_fmap_2 | left].
Qed.

Lemma dominator_children_spec idom :
  (forall v d, zget idom v = Some (Some d) -> 0 <= d < zlen idom) ->
  ensures (dominator_children idom) (fun children => zlen children = zlen idom /\
    (forall u v, edge children u v <-> 0 < v /\ zget idom v = Some (Some u)) /\
    forall u l, zget children u = Some l -> NoDup l).
Proof.
  intros Hd. unfold dominator_children.
  assert (NoDup (map fst (tail (enumerate idom)))) as Hnodup.
  { pose proof (enumerate_NoDup idom) as Hn. destruct (enumerate idom); [done |].
    by apply NoDup_cons in Hn as [_ Hn]. }
  eapply ensures_weaken.
  { apply (ensures_fold _ (fun done children => zlen children = zlen idom /\
      (forall u v, edge children u v <-> (v, Some u) ∈ done) /\
      forall u l, zget children u = Some l -> NoDup l)).
    { split_and!; [by rewrite zlen_repeat | |].
      - intros u v. split; [by intros ?%edge_repeat_nil | by intros ?%elem_of_nil].
      - intros u l ->%zget_repeat_Some. constructor. }
    intros pre [v o] post children Hl (Hz & He & Hn).
    pose proof (NoDup_fst_split _ _ _ _ _ Hnodup Hl) as Hnot.
    assert (zget idom v = Some o) as Hv by (apply enumerate_tail; rewrite Hl; apply elem_of_app; right; left).
    destruct o as [d |]; cbn [fst snd].
    - eapply ensures_weaken; [apply push_at_edge; rewrite Hz; by apply (Hd v) |].
      intros children' (Hz' & Hlists & He'). split_and!; [lia | |].
      + intros u w. rewrite He', He, elem_of_app, list_elem_of_singleton. intuition congruence.
      + intros u l (l0 & Hl0 & [-> | [-> ->]])%Hlists; [by apply (Hn u) |].
        apply NoDup_app. split_and!; [by apply (Hn d) | | apply NoDup_singleton].
        intros w Hw ->%list_elem_of_singleton. apply (Hnot (Some d)), He. by exists l0.
    - split_and!; [done | | done]. intros u w.
      rewrite He, elem_of_app, list_elem_of_singleton. intuition congruence. }
  intros children (Hz & He & Hn). split_and!; [done | | done]. intros u v. by rewrite He, enumerate_tail.
Qed.

(** Each entry of the stack is below the nodes still open underneath it. *)
Fixpoint stack_ok (idom : list (option Z)) (stack : list (Z * bool)) : Prop :=
  match stack with
  | [] => True
  | (c, _) :: rest => (forall u, (u, true) ∈ rest -> anc idom c u) /\ stack_ok idom rest
  end.

Definition zeros (entry : list Z) : nat := length (List.filter (fun t => t =? 0) entry).

Definition open_nodes (stack : list (Z * bool)) : nat := length (List.filter snd stack).

Lemma zeros_insert entry v x :
  zget entry v = Some 0 -> 0 < x -> S (zeros (zinsert entry v x)) = zeros entry.
Proof.
  rewrite zget_Some. intros [_ Hv] Hx. unfold zinsert, zeros. revert Hv. generalize (Z.to_nat v).
  induction entry as [| t entry IH]; intros [| k] Hk; cbn in *; simplify_eq.
  - replace (x =? 0) with false by lia. done.
  - destruct (t =? 0); cbn; by rewrite IH.
Qed.

Lemma zeros_repeat n : zeros (repeat 0 n) = n.
Proof. unfold zeros. induction n; cbn; [done | by f_equal]. Qed.

Section Numbering.
Context (idom : list (option Z)) (children : list (list Z)).
Context (Hlen : zlen children = zlen idom).
Context (Hedge : forall u v, edge children u v <-> 0 < v /\ zget idom v = Some (Some u)).
Context (Hnodup : forall u l, zget children u = Some l -> NoDup l).

Definition entered (entry : list Z) (v : Z) : Prop := exists t, zget entry v = Some t /\ 0 < t.

Record tree_inv (entry exit : list Z) (tick : Z) (stack : list (Z * bool)) : Prop := {
  ti_entry_len : zlen entry = zlen idom;
  ti_exit_len : zlen exit = zlen idom;
  ti_entry : forall v t, zget entry v = Some t -> 0 <= t <= tick;
  ti_exit : forall v t, zget exit v = Some t -> 0 <= t <= tick;
  ti_nodup : NoDup stack;
  ti_false : forall v, (v, false) ∈ stack -> zget entry v = Some 0;
  ti_true : forall v, (v, true) ∈ stack <-> entered entry v /\ zget exit v = Some 0;
  ti_left : forall v x, zget exit v = Some x -> 0 < x -> exists t, zget entry v = Some t /\ 0 < t < x;
  ti_above : stack_ok idom stack;
  ti_order : forall u v tu tv, zget entry u = Some tu -> zget entry v = Some tv -> 0 < tu <= tv ->
    anc idom v u \/ exists x, zget exit u = Some x /\ 0 < x < tv;
  ti_parent : forall u c, edge children u c -> entered entry c \/ (c, false) ∈ stack -> entered entry u;
  ti_child : forall u c, edge children u c -> entered entry u -> entered entry c \/ (c, false) ∈ stack;
  ti_root : entered entry 0 \/ (0, false) ∈ stack
}.

Lemma tree_inv_leave entry exit tick v rest :
  tree_inv entry exit tick ((v, true) :: rest) ->
  tree_inv entry (zinsert exit v (tick + 1)) (tick + 1) rest.
Proof.
  intros [Hle Hlx He Hx Hn Hf Ht Hl Ha Ho Hp Hc Hr].
  destruct (proj1 (Ht v) ltac:(left)) as [[tv [Htv Htv0]] Hxv].
  pose proof (zget_lt _ _ _ Hxv) as Hvr. pose proof (He v tv Htv).
  assert (forall w, zget (zinsert exit v (tick + 1)) w = if w =? v then Some (tick + 1) else zget exit w) as Hget
    by (intros; by apply zget_zinsert).
  apply NoDup_cons in Hn as [Hvn Hn]. split; try done.
  - by rewrite zlen_zinsert.
  - intros w t Hw. specialize (He w t Hw). lia.
  - intros w t. rewrite Hget. destruct (w =? v); [intros [= <-]; lia |]. intros Hw. specialize (Hx w t Hw). lia.
  - intros w Hw. apply Hf. by right.
  - intros w. rewrite Hget. destruct (Z.eqb_spec w v) as [-> | Hne].
    + split; [done |]. intros [_ [=]]. lia.
    + rewrite <- Ht, elem_of_cons. intuition congruence.
  - intros w x. rewrite Hget. destruct (Z.eqb_spec w v) as [-> | Hne]; [| apply Hl].
    intros [= <-] _. exists tv. split; [done | lia].
  - by destruct Ha.
  - intros u w tu tw Hu Hw Hle'. destruct (Ho u w tu tw Hu Hw Hle') as [? | (x & Hxu & Hx0)]; [by left |].
    right. exists x. rewrite Hget. destruct (Z.eqb_spec u v) as [-> |]; [simplify_eq; lia | done].
  - intros u c Huc [Hcc | Hcc]; apply (Hp u c Huc); [by left | right; by right].
  - intros u c Huc Hu. destruct (Hc u c Huc Hu) as [? | Hs]; [by left | right].
    by apply elem_of_cons in Hs as [? | ?].
  - destruct Hr as [? | Hs]; [by left | right]. by apply elem_of_cons in Hs as [? | ?].
Qed.

Lemma stack_ok_push v nodes rest :
  (forall c, c ∈ nodes -> zget idom c = Some (Some v)) ->
  (forall u, (u, true) ∈ rest -> anc idom v u) -> stack_ok idom rest ->
  stack_ok idom (map (fun c => (c, false)) nodes ++ (v, true) :: rest).
Proof.
  intros Hc Hv Hr. induction nodes as [| c nodes IH]; cbn; [done |].
  split; [| apply IH; intros; apply Hc; by right].
  intros u Hu. apply (anc_step _ _ v); [apply Hc; left |].
  apply elem_of_app in Hu as [(? & [=] & _)%list_elem_of_fmap | Hu].
  apply elem_of_cons in Hu as [[= ->] | Hu]; [constructor | by apply Hv].
Qed.

(** Entering [v]: its children go on the stack over it. *)
Definition entered_stack (nodes : list Z) (v : Z) (rest : list (Z * bool)) : list (Z * bool) :=
  map (fun c => (c, false)) nodes ++ (v, true) :: rest.

Lemma elem_of_entered nodes v rest c b :
  (c, b) ∈ entered_stack nodes v rest <->
  (b = false /\ c ∈ nodes) \/ (c = v /\ b = true) \/ (c, b) ∈ rest.
Proof.
  unfold entered_stack. rewrite elem_of_app, elem_of_cons. split.
  - intros [(? & [= -> ->] & ?)%list_elem_of_fmap | [[= -> ->] | ?]]; auto.
  - intros [[-> ?] | [[-> ->] | ?]]; auto. left. by apply (list_elem_of_fmap_2 (fun c => (c, false))).
Qed.

Section Enter.
Context (entry exit : list Z) (tick v : Z) (rest : list (Z * bool)) (nodes : list Z).
Context (Hinv : tree_inv entry exit tick ((v, false) :: rest)) (Hnodes : zget children v = Some nodes).
Context (Htick : 0 <= tick).

Lemma Hv0 : zget entry v = Some 0.
Proof using Hinv. apply (ti_false _ _ _ _ Hinv). left. Qed.

Lemma enter_get w : zget (zinsert entry v (tick + 1)) w = if w =? v then Some (tick + 1) else zget entry w.
Proof using Hinv. apply zget_zinsert. exact (zget_lt _ _ _ Hv0). Qed.

Lemma enter_entered w : entered (zinsert entry v (tick + 1)) w <-> w = v \/ entered entry w.
Proof using Hinv Htick.
  unfold entered. rewrite enter_get. destruct (Z.eqb_spec w v) as [-> |].
  - split; [by left |]. intros _. exists (tick + 1). split; [done | lia].
  - split; [by right | by intros [? | ?]].
Qed.

(** A child of [v] has not been seen yet. *)
Lemma enter_fresh c : c ∈ nodes -> zget idom c = Some (Some v) /\ c <> v /\ zget entry c = Some 0 /\
  ~ (c, false) ∈ rest.
Proof using Hinv Hnodes Hedge Hlen.
  intros Hc. assert (edge children v c) as Hvc by (by exists nodes).
  assert (~ (entered entry c \/ (c, false) ∈ (v, false) :: rest)) as Hno.
  { intros Hcs. apply (ti_parent _ _ _ _ Hinv v c Hvc) in Hcs as (t & Ht & Ht0). pose proof Hv0. simplify_eq. lia. }
  pose proof Hvc as [Hc0 Hcv]%Hedge. pose proof (zget_lt _ _ _ Hcv) as Hcr.
  rewrite <- (ti_entry_len _ _ _ _ Hinv) in Hcr. apply zget_is_Some in Hcr as [t Ht].
  pose proof (ti_entry _ _ _ _ Hinv c t Ht) as Ht0. split_and!; [done | | |].
  - intros ->. apply Hno. right. left.
  - destruct (decide (t = 0)) as [-> |]; [done |]. destruct Hno. left. exists t. split; [done | lia].
  - intros ?. apply Hno. right. by right.
Qed.

Lemma enter_exit : zget exit v = Some 0.
Proof using Hinv.
  pose proof (zget_lt _ _ _ Hv0) as Hr.
  rewrite (ti_entry_len _ _ _ _ Hinv), <- (ti_exit_len _ _ _ _ Hinv) in Hr.
  apply zget_is_Some in Hr as [x Hx]. pose proof (ti_exit _ _ _ _ Hinv v x Hx).
  destruct (decide (x = 0)) as [-> |]; [done |].
  destruct (ti_left _ _ _ _ Hinv v x Hx ltac:(lia)) as (t & Ht & ?). pose proof Hv0. simplify_eq. lia.
Qed.

Lemma enter_above u : (u, true) ∈ rest -> anc idom v u.
Proof using Hinv. intros Hu. apply (proj1 (ti_above _ _ _ _ Hinv)). done. Qed.

Lemma enter_nodup : NoDup (entered_stack nodes v rest).
Proof using Hinv Hnodes Hedge Hlen Hnodup.
  pose proof (ti_nodup _ _ _ _ Hinv) as [_ Hn]%NoDup_cons. apply NoDup_app. split_and!.
  - apply NoDup_fmap_2; [by intros ?? [= ->] | by apply (Hnodup v)].
  - intros [c b] (? & [= -> ->] & Hc)%list_elem_of_fmap. apply enter_fresh in Hc as (_ & _ & _ & Hc).
    by intros [[=] | ?]%elem_of_cons.
  - apply NoDup_cons. split; [| done]. intros Hvt.
    destruct (proj1 (ti_true _ _ _ _ Hinv v) ltac:(by right)) as [(t & Ht & ?) _].
    pose proof Hv0. simplify_eq. lia.
Qed.

(** The new node is ordered after everything that has been entered. *)
Lemma enter_order u w tu tw :
  zget (zinsert entry v (tick + 1)) u = Some tu -> zget (zinsert entry v (tick + 1)) w = Some tw ->
  0 < tu <= tw -> anc idom w u \/ exists x, zget exit u = Some x /\ 0 < x < tw.
Proof using Hinv Htick.
  rewrite !enter_get. destruct (Z.eqb_spec w v) as [-> | Hw], (Z.eqb_spec u v) as [-> | Hu].
  - intros _ _ _. left. constructor.
  - intros Htu [= <-] Htt. pose proof (zget_lt _ _ _ Htu) as Hr.
    rewrite (ti_entry_len _ _ _ _ Hinv), <- (ti_exit_len _ _ _ _ Hinv) in Hr.
    apply zget_is_Some in Hr as [x Hx]. pose proof (ti_exit _ _ _ _ Hinv u x Hx).
    destruct (decide (x = 0)) as [-> |]; [left | right; exists x; split; [done | lia]].
    apply enter_above. assert ((u, true) ∈ (v, false) :: rest) as [[=] | ?]%elem_of_cons; [| done].
    apply (ti_true _ _ _ _ Hinv). split; [| done]. exists tu. split; [done | lia].
  - intros [= <-] Htw Htt. pose proof (ti_entry _ _ _ _ Hinv w tw Htw). lia.
  - apply (ti_order _ _ _ _ Hinv).
Qed.

Lemma tree_inv_enter :
  tree_inv (zinsert entry v (tick + 1)) exit (tick + 1) (entered_stack nodes v rest).
Proof using Hinv Hnodes Hedge Hlen Hnodup Htick.
  pose proof enter_nodup as Hnd. pose proof enter_order as Hord.
  pose proof enter_exit as Hxv. pose proof enter_entered as Hent. pose proof enter_get as Hget.
  pose proof enter_fresh as Hfresh. pose proof enter_above as Habove.
  destruct Hinv as [Hle Hlx He Hx Hn Hf Ht Hl Ha Ho Hp Hc Hr]. split; try done.
  - by rewrite zlen_zinsert.
  - intros w t. rewrite Hget. destruct (w =? v); [intros [= <-]; lia |]. intros Hw. specialize (He w t Hw). lia.
  - intros w t Hw. specialize (Hx w t Hw). lia.
  - intros w [[_ Hw] | [[_ [=]] | Hw]]%elem_of_entered; rewrite Hget.
    + destruct (Hfresh w Hw) as (_ & Hne & Hw0 & _). by rewrite (proj2 (Z.eqb_neq w v)).
    + destruct (Z.eqb_spec w v) as [-> |]; [| apply Hf; by right].
      by apply NoDup_cons in Hn as [? _].
  - intros w. rewrite elem_of_entered, Hent. split.
    + intros [[[=] _] | [[-> _] | Hw]]; [by split; [left |] |].
      destruct (proj1 (Ht w) ltac:(by right)). by split; [right |].
    + intros [[-> | Hw] Hxw]; [by right; left | right; right].
      by assert ((w, true) ∈ (v, false) :: rest) as [[=] | ?]%elem_of_cons by (by apply Ht).
  - intros w x Hw Hx0. destruct (Hl w x Hw Hx0) as (t & Htw & Htx). exists t. rewrite Hget.
    destruct (Z.eqb_spec w v) as [-> |]; [simplify_eq; lia | done].
  - apply stack_ok_push; [intros c Hcn; by apply Hfresh | done | by destruct Ha].
  - intros u c Huc Hcs. apply Hent.
    destruct (decide (u = v)) as [-> | Hu]; [by left | right].
    destruct Hcs as [[-> | Hcs]%Hent | [[_ Hcs] | [[_ [=]] | Hcs]]%elem_of_entered].
    + apply (Hp u v Huc). right. left.
    + apply (Hp u c Huc). by left.
    + apply Hfresh in Hcs as [Hcv _]. apply Hedge in Huc as [_ Hcu]. congruence.
    + apply (Hp u c Huc). right. by right.
  - intros u c Huc [-> | Hu]%Hent.
    + right. apply elem_of_entered. left. split; [done |]. destruct Huc as (l & Hl' & ?). by simplify_eq.
    + destruct (Hc u c Huc Hu) as [Hcc | [[= ->] | Hcc]%elem_of_cons].
      * left. apply Hent. by right.
      * left. apply Hent. by left.
      * right. apply elem_of_entered. by right; right.
  - destruct Hr as [? | [[= ->] | ?]%elem_of_cons].
    + left. apply Hent. by right.
    + left. apply Hent. by left.
    + right. apply elem_of_entered. by right; right.
Qed.
End Enter.

Lemma open_nodes_entered nodes v rest :
  open_nodes (entered_stack nodes v rest) = S (open_nodes rest).
Proof.
  unfold open_nodes, entered_stack. induction nodes as [| c nodes IH]; cbn; done.
Qed.

Lemma number_tree_spec fuel entry exit tick stack :
  0 <= tick -> tree_inv entry exit tick stack ->
  (open_nodes stack + 2 * zeros entry <= fuel)%nat ->
  ensures (number_tree fuel children entry exit tick stack)
    (fun ee => exists tick, tree_inv ee.1 ee.2 tick []).
Proof using Hlen Hedge Hnodup.
  revert entry exit tick stack. induction fuel as [| fuel IH];
    intros entry exit tick [| [v []] rest] Ht Hinv Hf; cbn [number_tree]; try (by exists tick).
  - cbn in Hf. lia.
  - exfalso. pose proof (ti_false _ _ _ _ Hinv v ltac:(left)) as Hv.
    pose proof (zeros_insert _ _ 1 Hv ltac:(lia)). lia.
  - pose proof (proj2 (proj1 (ti_true _ _ _ _ Hinv v) ltac:(left))) as Hx.
    eapply ensures_bind; [apply (ensures_vset _ _ _ (fun l => l = zinsert exit v (tick + 1)));
      [by apply (zget_lt _ _ 0) | done] | intros exit' ->].
    apply IH; [lia | by apply tree_inv_leave |]. cbn in Hf. unfold open_nodes. lia.
  - pose proof (ti_false _ _ _ _ Hinv v ltac:(left)) as Hv.
    eapply ensures_bind; [apply (ensures_vset _ _ _ (fun l => l = zinsert entry v (tick + 1)));
      [by apply (zget_lt _ _ 0) | done] | intros entry' ->].
    eapply ensures_bind; [apply (ensures_vget _ _ (fun l => zget children v = Some l)); [| done] | intros nodes Hl].
    { rewrite Hlen, <- (ti_entry_len _ _ _ _ Hinv). by apply (zget_lt _ _ 0). }
    apply IH; [lia | by apply tree_inv_enter |]. fold (entered_stack nodes v rest). rewrite open_nodes_entered.
    pose proof (zeros_insert _ _ (tick + 1) Hv ltac:(lia)). cbn in Hf. unfold open_nodes in *. lia.
Qed.

(** The numbering decides ancestry: for two nodes below the root, nested
    intervals mean an ancestor. *)
Lemma number_tree_anc n :
  zlen idom = Z.of_nat n -> 0 < zlen idom ->
  ensures (number_tree (2 * n) children (repeat 0 n) (repeat 0 n) 0 [(0, false)])
    (fun ee => zlen ee.1 = zlen idom /\ zlen ee.2 = zlen idom /\
       forall u v eu ev xu xv,
         anc idom u 0 -> anc idom v 0 ->
         zget ee.1 u = Some eu -> zget ee.1 v = Some ev -> zget ee.2 u = Some xu -> zget ee.2 v = Some xv ->
         eu <= ev -> xv <= xu -> anc idom v u).
Proof using Hlen Hedge Hnodup.
  intros Hn H0. eapply ensures_weaken.
  { apply number_tree_spec; [done | | unfold open_nodes; cbn; rewrite zeros_repeat; lia].
    assert (forall v t, zget (repeat 0 n) v = Some t -> t = 0) as Hz by (intros v t; apply zget_repeat_Some).
    assert (forall v, ~ entered (repeat 0 n) v) as Hne by (intros v (t & Ht%Hz & ?); lia).
    split; try (by rewrite zlen_repeat).
    - intros v t ->%Hz. lia.
    - intros v t ->%Hz. lia.
    - apply NoDup_singleton.
    - intros v [= ->]%list_elem_of_singleton. apply zget_repeat. lia.
    - intros v. split; [by intros [=]%list_elem_of_singleton | by intros [?%Hne _]].
    - intros v x ->%Hz. lia.
    - split; [by intros u ?%elem_of_nil | done].
    - intros u v tu tv ->%Hz. lia.
    - intros u c [Hc _]%Hedge [?%Hne | [= ->]%list_elem_of_singleton]; [done | lia].
    - by intros u c _ ?%Hne.
    - right. left. }
  intros [entry exit] [tick Hinv]. cbn [fst snd] in *.
  split_and!; [apply (ti_entry_len _ _ _ _ Hinv) | apply (ti_exit_len _ _ _ _ Hinv) |].
  assert (forall v a, anc idom v a -> a = 0 -> entered entry v) as Hreached.
  { induction 1 as [v | v d a Hd Ha IH]; intros ->.
    - by destruct (ti_root _ _ _ _ Hinv) as [? | ?%elem_of_nil].
    - pose proof (zget_lt _ _ _ Hd). destruct (decide (v = 0)) as [-> |].
      { by destruct (ti_root _ _ _ _ Hinv) as [? | ?%elem_of_nil]. }
      destruct (ti_child _ _ _ _ Hinv d v) as [? | ?%elem_of_nil]; [| by apply IH | done..].
      apply Hedge. split; [lia | done]. }
  intros u v eu ev xu xv Hu Hv Heu Hev Hxu Hxv Hle Hge.
  destruct (Hreached u 0 Hu eq_refl) as (t & Ht & Ht0). simplify_eq.
  destruct (Hreached v 0 Hv eq_refl) as (t & Ht & Ht1). simplify_eq.
  destruct (ti_order _ _ _ _ Hinv u v eu ev) as [? | (x & Hx & Hx0)]; [done.. | lia | done |]. simplify_eq.
  assert (xv <> 0) as Hxv0.
  { intros ->. assert ((v, true) ∈ []) as ?%elem_of_nil; [| done].
    apply (ti_true _ _ _ _ Hinv). split; [by exists ev | done]. }
  pose proof (ti_exit _ _ _ _ Hinv v xv Hxv).
  destruct (ti_left _ _ _ _ Hinv v xv Hxv ltac:(lia)) as (t & Ht' & ?). simplify_eq. lia.
Qed.
End Numbering.

(** ** The graph of a prototype *)

Section ControlFlow.
Context (p : BytecodePrototype).
Abbreviation count := (zlen (instructions p)).

(** Every branch goes to an instruction, as [require_jump_target] checks. *)
Definition targets_in_range : Prop :=
  forall pc entry target, zget (instructions p) pc = Some entry ->
    branch_target (bi_instruction entry) target -> 0 <= target < count.

Record gates_ok (gates : list (option Z)) (next_gate : Z) : Prop := {
  go_len : zlen gates = count;
  go_next : count <= next_gate;
  go_range : forall i g, zget gates i = Some (Some g) -> count <= g < next_gate;
  go_inj : forall i j g, zget gates i = Some (Some g) -> zget gates j = Some (Some g) -> i = j;
  go_prepare : forall i entry, zget (instructions p) i = Some entry ->
    (is_prepare (bi_instruction entry) = true <-> exists g, zget gates i = Some (Some g))
}.

Lemma assign_gates_spec : ensures (assign_gates p) (fun gn => gates_ok gn.1 gn.2).
Proof.
  unfold assign_gates. eapply ensures_weaken.
  { apply (ensures_fold _ (fun done gn => zlen gn.1 = count /\ count <= gn.2 /\
      (forall i g, zget gn.1 i = Some (Some g) -> count <= g < gn.2) /\
      (forall i j g, zget gn.1 i = Some (Some g) -> zget gn.1 j = Some (Some g) -> i = j) /\
      (forall i, (exists g, zget gn.1 i = Some (Some g)) <->
         exists entry, (i, entry) ∈ done /\ is_prepare (bi_instruction entry) = true))).
    { cbn [fst snd]. split_and!; [by rewrite zlen_repeat | done | | |].
      - by intros i g ?%zget_repeat_Some.
      - by intros i j g ?%zget_repeat_Some.
      - intros i. split; [by intros (g & ?%zget_repeat_Some) | by intros (e & ?%elem_of_nil & _)]. }
    intros pre [i entry] post [gates next] Hl (Hz & Hn & Hr & Hinj & Hp). cbn [fst snd] in *.
    assert (0 <= i < count) as Hi.
    { apply (zget_lt _ _ entry), enumerate_elem. rewrite Hl. apply elem_of_app. right. left. }
    pose proof (NoDup_fst_split _ _ _ _ _ (enumerate_NoDup _) Hl) as Hnot.
    destruct (is_prepare (bi_instruction entry)) eqn:Hpe.
    - eapply ensures_bind; [apply (ensures_vset _ _ _ (fun l => l = zinsert gates i (Some next))); [lia | done] |].
      intros gates' ->. cbn.
      assert (forall j, zget (zinsert gates i (Some next)) j =
        if j =? i then Some (Some next) else zget gates j) as Hget by (intros j; apply zget_zinsert; lia).
      split_and!; [by rewrite zlen_zinsert | lia | | |].
      + intros j g. rewrite Hget. destruct (j =? i); [intros [= <-]; lia |]. intros Hj. apply Hr in Hj. lia.
      + intros j k g. rewrite !Hget. destruct (Z.eqb_spec j i) as [-> |], (Z.eqb_spec k i) as [-> |]; try done.
        * intros [= <-] Hk. apply Hr in Hk. lia.
        * intros Hj [= <-]. apply Hr in Hj. lia.
        * apply Hinj.
      + intros j. setoid_rewrite Hget. setoid_rewrite elem_of_app. setoid_rewrite list_elem_of_singleton.
        destruct (Z.eqb_spec j i) as [-> |].
        * split; [| by eauto]. intros _. exists entry. by split; [right |].
        * rewrite Hp. split; [intros (e & ? & ?); eauto | intros (e & [? | [= -> ->]] & ?); eauto].
          done.
    - cbn. split_and!; try done. intros j. rewrite Hp. setoid_rewrite elem_of_app.
      setoid_rewrite list_elem_of_singleton. split; [intros (e & ? & ?); eauto |].
      intros (e & [? | [= -> ->]] & ?); [eauto | congruence]. }
  intros [gates next] (Hz & Hn & Hr & Hinj & Hp). cbn [fst snd] in *. split; try done.
  intros i entry Hi. rewrite Hp. setoid_rewrite enumerate_elem. split; [eauto |].
  intros (e & He & ?). by simplify_eq.
Qed.

(** The edges an instruction needs in the graph. *)
Definition has_flow (gates : list (option Z)) (edges : list (list Z)) (index : Z) (i : Instruction) : Prop :=
  (forall target, branch_target i target -> edge edges index target) /\
  (falls_through i -> is_prepare i = false -> index + 1 < count -> edge edges index (index + 1)) /\
  (forall g, zget gates index = Some (Some g) -> edge edges index g /\ edge edges g (index + 1)).

(** [edges'] is [edges] with more edges, still inside the graph. *)
Definition extends (edges edges' : list (list Z)) : Prop :=
  zlen edges' = zlen edges /\ (forall u v, edge edges u v -> edge edges' u v) /\
  (closed_graph edges -> closed_graph edges').

Lemma extends_refl edges : extends edges edges.
Proof. by split_and!. Qed.
Lemma extends_trans e1 e2 e3 : extends e1 e2 -> extends e2 e3 -> extends e1 e3.
Proof. intros (Hz & He & Hc) (Hz' & He' & Hc'). split_and!; [congruence | auto | auto]. Qed.

Lemma push_extends edges u v :
  0 <= u < zlen edges -> 0 <= v < zlen edges ->
  ensures (push_at edges u v) (fun edges' => extends edges edges' /\ edge edges' u v).
Proof.
  intros Hu Hv. eapply ensures_weaken; [by apply push_at_edge |].
  intros edges' (Hz & _ & He). split; [| apply He; by right]. split_and!; [done | intros; apply He; by left |].
  intros Hc x y [Hxy | [-> ->]]%He; rewrite Hz; [by apply (Hc x) | done].
Qed.

Lemma has_flow_extends gates edges edges' index i :
  extends edges edges' -> has_flow gates edges index i -> has_flow gates edges' index i.
Proof.
  intros (_ & He & _) (Hb & Hf & Hg). split_and!; [auto | auto |].
  intros g Hgate. destruct (Hg g Hgate). auto.
Qed.

Lemma fall_extends edges index :
  count <= zlen edges -> 0 <= index < count ->
  ensures (if index + 1 <? count then push_at edges index (index + 1) else Ok edges)
    (fun edges' => extends edges edges' /\ (index + 1 < count -> edge edges' index (index + 1))).
Proof.
  intros Hz Hi. destruct (Z.ltb_spec (index + 1) count).
  - eapply ensures_weaken; [apply push_extends; lia | tauto].
  - split; [apply extends_refl | lia].
Qed.

Lemma add_edges_spec gates next edges index entry :
  targets_in_range -> gates_ok gates next -> zlen edges = next ->
  zget (instructions p) index = Some entry ->
  ensures (add_edges count gates edges (index, entry))
    (fun edges' => extends edges edges' /\ has_flow gates edges' index (bi_instruction entry)).
Proof.
  intros Ht Hg Hz He. pose proof (zget_lt _ _ _ He) as Hi. pose proof (go_next _ _ Hg) as Hn.
  pose proof (Ht index entry) as Htarget. specialize (Htarget) with (1 := He).
  pose proof (go_prepare _ _ Hg index entry He) as Hprep.
  assert (is_prepare (bi_instruction entry) = false ->
    forall g edges', zget gates index = Some (Some g) -> edge edges' index g /\ edge edges' g (index + 1)) as Hnog.
  { intros Hf g edges' Hgate. rewrite Hf in Hprep. by discriminate (proj2 Hprep (ex_intro _ g Hgate)). }
  unfold add_edges. destruct (bi_instruction entry) eqn:Hinstr; cbn [is_prepare] in *;
    try (eapply ensures_weaken; [apply fall_extends; lia |]; intros edges' [Hx Hf]; split; [done |];
         split_and!; [by inversion 1 | by auto | by intros; apply Hnog]).
  - (* Jump *)
    pose proof (Htarget target ltac:(constructor)).
    eapply ensures_weaken; [apply push_extends; lia |]. intros edges' [Hx Hf].
    split; [done |]. split_and!; [by inversion 1; subst | done | by intros; apply Hnog].
  - (* JumpIfFalse *)
    pose proof (Htarget target ltac:(constructor)).
    eapply ensures_bind; [apply push_extends; lia |]. intros edges1 [Hx1 Hf1].
    pose proof (proj1 Hx1) as Hz1.
    eapply ensures_weaken; [apply fall_extends; lia |]. intros edges' [Hx Hf].
    split; [by eapply extends_trans |]. split_and!; [| by auto | by intros; apply Hnog].
    inversion 1; subst. by apply Hx.
  - (* TailCall *)
    split; [apply extends_refl |]. split_and!; [by inversion 1 | done | by intros; apply Hnog].
  - (* Return *)
    split; [apply extends_refl |]. split_and!; [by inversion 1 | done | by intros; apply Hnog].
  - (* NumericForPrepare *)
    destruct (proj1 Hprep eq_refl) as [g Hgate]. pose proof (go_range _ _ Hg _ _ Hgate) as Hgr.
    pose proof (Htarget exit ltac:(constructor)).
    eapply ensures_bind; [apply push_extends; lia |]. intros e1 [Hx1 Hf1]. pose proof (proj1 Hx1).
    eapply ensures_bind; [apply (ensures_vget _ _ (fun o => zget gates index = Some o));
      [by rewrite (go_len _ _ Hg) | done] | intros o Ho].
    cbn beta in Ho. rewrite Hgate in Ho. injection Ho as <-.
    eapply ensures_bind; [apply push_extends; lia |]. intros e2 [Hx2 Hf2]. pose proof (proj1 Hx2).
    eapply ensures_weaken; [apply push_extends; lia |]. intros e3 [Hx3 Hf3].
    split; [by do 2 (eapply extends_trans; [done |]) |]. split_and!; [| done |].
    + inversion 1; subst. by apply Hx3, Hx2.
    + intros g' Hg'. simplify_eq. split; [by apply Hx3 | done].
  - (* NumericForNext *)
    pose proof (Htarget target ltac:(constructor)). pose proof (Htarget exit ltac:(constructor)).
    eapply ensures_bind; [apply push_extends; lia |]. intros e1 [Hx1 Hf1]. pose proof (proj1 Hx1).
    eapply ensures_weaken; [apply push_extends; lia |]. intros e2 [Hx2 Hf2].
    split; [by eapply extends_trans |]. split_and!; [| done | by intros; apply Hnog].
    inversion 1; subst; [by apply Hx2 | done].
Qed.

Lemma cfg_edges_spec gates next :
  targets_in_range -> gates_ok gates next ->
  ensures (cfg_edges p gates next) (fun edges => zlen edges = next /\ closed_graph edges /\
    forall index entry, zget (instructions p) index = Some entry ->
      has_flow gates edges index (bi_instruction entry)).
Proof.
  intros Ht Hg. pose proof (go_next _ _ Hg). pose proof (zlen_nonneg (instructions p)).
  unfold cfg_edges. eapply ensures_weaken.
  { apply (ensures_fold _ (fun done edges => zlen edges = next /\ closed_graph edges /\
      forall index entry, (index, entry) ∈ done -> has_flow gates edges index (bi_instruction entry))).
    { split_and!; [rewrite zlen_repeat; lia | by intros u v ?%edge_repeat_nil | by intros ?? ?%elem_of_nil]. }
    intros pre [index entry] post edges Hl (Hz & Hc & Hf).
    eapply ensures_weaken; [apply (add_edges_spec gates next); try done |].
    { apply enumerate_elem. rewrite Hl. apply elem_of_app. right. left. }
    intros edges' [Hx Hnew]. split_and!; [by rewrite (proj1 Hx) | by apply Hx |].
    intros i e [Hin | [= -> ->]%list_elem_of_singleton]%elem_of_app; [| done].
    eapply has_flow_extends; [done | by apply Hf]. }
  intros edges (Hz & Hc & Hf). split_and!; [done.. |]. intros index entry He. apply Hf. by apply enumerate_elem.
Qed.

(** ** Paths of the program

    [flow pc entered]: the program counter can reach [pc] along branches, and
    [entered] lists the [NumericForPrepare]s it left by their successful
    branch, into the body. *)
Inductive flow : Z -> list Z -> Prop :=
  | flow_start : flow 0 []
  | flow_branch pc entered entry target :
      flow pc entered -> zget (instructions p) pc = Some entry ->
      branch_target (bi_instruction entry) target -> flow target entered
  | flow_next pc entered entry :
      flow pc entered -> zget (instructions p) pc = Some entry ->
      falls_through (bi_instruction entry) ->
      flow (pc + 1) (if is_prepare (bi_instruction entry) then pc :: entered else entered).

(** A path of the program is a path of the graph, with a gate on it only where
    the program entered a body. *)
Lemma flow_walk gates next edges pc entered :
  targets_in_range -> gates_ok gates next ->
  (forall index entry, zget (instructions p) index = Some entry ->
     has_flow gates edges index (bi_instruction entry)) ->
  flow pc entered -> pc < count ->
  exists l, walk edges pc l /\
    forall k g, zget gates k = Some (Some g) -> g ∈ l -> k ∈ entered.
Proof.
  intros Ht Hg Hf. induction 1 as [| pc entered entry target Hfl IH He Hb | pc entered entry Hfl IH He Hft]; intros Hpc.
  - exists [0]. split; [constructor |]. intros k g Hk ->%list_elem_of_singleton.
    apply (go_range _ _ Hg) in Hk. lia.
  - pose proof (zget_lt _ _ _ He). destruct IH as (l & Hw & Hl); [lia |]. exists (target :: l).
    split; [eapply walk_step; [done |]; by apply (proj1 (Hf pc entry He)) |].
    intros k g Hk [-> | Hin]%elem_of_cons; [| by apply (Hl k g)].
    apply (go_range _ _ Hg) in Hk. lia.
  - pose proof (zget_lt _ _ _ He). destruct IH as (l & Hw & Hl); [lia |].
    destruct (Hf pc entry He) as (_ & Hfall & Hgate).
    destruct (is_prepare (bi_instruction entry)) eqn:Hp.
    + destruct (proj1 (go_prepare _ _ Hg pc entry He) Hp) as [g Hg0].
      destruct (Hgate g Hg0) as [H1 H2]. exists (pc + 1 :: g :: l).
      split; [by do 2 (eapply walk_step; [| done]) |].
      intros k g' Hk [-> | [-> | Hin]%elem_of_cons]%elem_of_cons.
      * apply (go_range _ _ Hg) in Hk. lia.
      * rewrite (go_inj _ _ Hg k pc g Hk Hg0). left.
      * right. by apply (Hl k g').
    + exists (pc + 1 :: l). split; [by eapply walk_step; [| apply Hfall] |].
      intros k g Hk [-> | Hin]%elem_of_cons; [| by apply (Hl k g)].
      apply (go_range _ _ Hg) in Hk. lia.
Qed.
End ControlFlow.

Lemma node_order_spec n postorder :
  NoDup postorder -> (forall v, v ∈ postorder -> 0 <= v < Z.of_nat n) ->
  ensures (node_order n postorder) (fun order => zlen order = Z.of_nat n /\
    forall u v x, u ∈ postorder -> v ∈ postorder -> zget order u = Some x -> zget order v = Some x -> u = v).
Proof.
  intros Hn Hr. unfold node_order. eapply ensures_weaken.
  { apply (ensures_fold _ (fun done order => zlen order = Z.of_nat n /\
      forall i v, (i, v) ∈ done -> zget order v = Some i)).
    { split; [apply zlen_repeat | by intros ?? ?%elem_of_nil]. }
    intros pre [i v] post order Hl (Hz & Ho).
    assert (forall i v, (i, v) ∈ enumerate postorder -> v ∈ postorder) as Hmem.
    { intros j w Hjw%enumerate_elem. apply zget_Some in Hjw as [_ Hw]. by eapply list_elem_of_lookup_2. }
    assert (forall j w, (j, w) ∈ pre -> w <> v) as Hne.
    { intros j w Hj ->. assert ((j, v) ∈ enumerate postorder) as Hj' by (rewrite Hl; apply elem_of_app; by left).
      assert ((i, v) ∈ enumerate postorder) as Hi' by (rewrite Hl; apply elem_of_app; right; left).
      apply enumerate_elem, zget_Some in Hj' as [? Hj']. apply enumerate_elem, zget_Some in Hi' as [? Hi'].
      pose proof (NoDup_lookup _ _ _ _ Hn Hi' Hj'). assert (i = j) as -> by lia.
      by eapply (NoDup_fst_split _ _ _ _ _ (enumerate_NoDup _) Hl). }
    assert (0 <= v < zlen order) as Hv.
    { rewrite Hz. apply Hr, (Hmem i). rewrite Hl. apply elem_of_app. right. left. }
    apply ensures_vset; [done |]. rewrite zlen_zinsert. split; [done |].
    intros j w Hjw. cbn [fst snd]. rewrite zget_zinsert by done.
    apply elem_of_app in Hjw as [Hjw | [= -> ->]%list_elem_of_singleton]; [| by rewrite Z.eqb_refl].
    rewrite (proj2 (Z.eqb_neq w v)) by (by eapply Hne). by apply Ho. }
  intros order [Hz Ho]. split; [done |].
  assert (forall v, v ∈ postorder -> exists i, (i, v) ∈ enumerate postorder) as Hex.
  { intros v [i Hi]%list_elem_of_lookup. exists (Z.of_nat i). apply enumerate_elem, zget_Some.
    rewrite Nat2Z.id. split; [lia | done]. }
  intros u v x [i Hi]%Hex [j Hj]%Hex Hu Hv.
  rewrite (Ho i u Hi) in Hu. rewrite (Ho j v Hj) in Hv. simplify_eq.
  apply enumerate_elem in Hi, Hj. congruence.
Qed.

(** ** The check as a whole *)

Section Check.
Context `{Allocator}.
Context (p : BytecodePrototype).
Context (Htargets : targets_in_range p).

(** A pair names two instructions, the first a [NumericForPrepare]. *)
Definition pair_ok (kn : Z * Z) : Prop :=
  (exists entry, zget (instructions p) kn.1 = Some entry /\ is_prepare (bi_instruction entry) = true) /\
  0 <= kn.2 < zlen (instructions p).

(** The dominator tree that the first three phases build, with what they
    guarantee of it. *)
Record tree_ok (gates : list (option Z)) (edges : list (list Z)) (visited : list bool)
    (idom : list (option Z)) : Prop := {
  tr_gates : gates_ok p gates (zlen edges);
  tr_flow : forall index entry, zget (instructions p) index = Some entry ->
    has_flow p gates edges index (bi_instruction entry);
  tr_visited : zlen visited = zlen edges;
  tr_idom : zlen idom = zlen edges;
  tr_range : forall v d, zget idom v = Some (Some d) -> 0 <= d < zlen idom;
  tr_walk : forall v l, walk edges v l -> marked visited v /\ anc idom v 0 /\ forall a, anc idom v a -> a ∈ l;
  tr_root : forall v, marked visited v -> anc idom v 0
}.

Lemma ensures_spend_capacity count used (Q : unit -> Prop) : Q tt -> ensures (check_capacity count used) Q.
Proof. intros HQ. unfold check_capacity. destruct used; [by apply ensures_fail_if | done]. Qed.

Lemma check_pair_spec gates edges visited idom entry exit kn :
  tree_ok gates edges visited idom -> pair_ok kn ->
  zlen entry = zlen idom -> zlen exit = zlen idom ->
  (forall u v eu ev xu xv, anc idom u 0 -> anc idom v 0 ->
     zget entry u = Some eu -> zget entry v = Some ev -> zget exit u = Some xu -> zget exit v = Some xv ->
     eu <= ev -> xv <= xu -> anc idom v u) ->
  ensures (check_pair gates visited entry exit kn) (fun _ => forall entered, flow p kn.2 entered -> kn.1 ∈ entered).
Proof using Htargets.
  destruct kn as [k n]. intros Ht [(e & He & Hp) Hn] Hze Hzx Hanc. cbn [fst snd] in *.
  pose proof (tr_gates _ _ _ _ Ht) as Hg. pose proof (go_next _ _ _ Hg) as Hnext.
  pose proof (zget_lt _ _ _ He) as Hk. pose proof (tr_visited _ _ _ _ Ht). pose proof (tr_idom _ _ _ _ Ht).
  pose proof (fun entered Hfl => flow_walk p _ _ edges n entered Htargets Hg (tr_flow _ _ _ _ Ht) Hfl ltac:(lia)) as Hwalk.
  unfold check_pair.
  eapply ensures_bind; [apply (ensures_vget _ _ (fun b => zget visited n = Some b)); [lia | done] | intros b Hb].
  destruct b; cbn [negb]; cycle 1.
  { intros entered (l & Hw & _)%Hwalk. apply (tr_walk _ _ _ _ Ht) in Hw as [Hm _].
    unfold marked in Hm. cbn beta in Hb. congruence. }
  destruct (proj1 (go_prepare _ _ _ Hg k e He) Hp) as [g Hgate]. pose proof (go_range _ _ _ Hg _ _ Hgate).
  eapply ensures_bind; [apply (ensures_vget _ _ (fun o => o = Some g)); [rewrite (go_len _ _ _ Hg); lia | congruence] |].
  intros o ->.
  eapply ensures_bind; [apply (ensures_vget _ _ (fun b => zget visited g = Some b)); [lia | done] | intros sg Hsg].
  eapply ensures_bind; [apply (ensures_vget _ _ (fun x => zget entry g = Some x)); [lia | done] | intros eg Heg].
  eapply ensures_bind; [apply (ensures_vget _ _ (fun x => zget entry n = Some x)); [lia | done] | intros en Hen].
  eapply ensures_bind; [apply (ensures_vget _ _ (fun x => zget exit n = Some x)); [lia | done] | intros xn Hxn].
  eapply ensures_bind; [apply (ensures_vget _ _ (fun x => zget exit g = Some x)); [lia | done] | intros xg Hxg].
  apply ensures_fail_if. intros Hok. destruct sg; [| done]. cbn in Hok. bool_hyps.
  intros entered (l & Hw & Hl)%Hwalk. apply (Hl k g Hgate), (tr_walk _ _ _ _ Ht n l Hw).
  apply (Hanc g n eg en xg xn); [by apply (tr_root _ _ _ _ Ht) | by apply (tr_root _ _ _ _ Ht) | done.. | lia | lia].
Qed.

(** The search and the dominators on a graph. *)
Lemma dominators_of_graph gates edges preds visited postorder order work fuel :
  gates_ok p gates (zlen edges) -> closed_graph edges ->
  (forall index entry, zget (instructions p) index = Some entry ->
     has_flow p gates edges index (bi_instruction entry)) ->
  zlen preds = zlen edges -> (forall u v, edge preds v u <-> edge edges u v) ->
  zlen visited = zlen edges -> NoDup postorder -> (exists rest, postorder = 0 :: rest) ->
  (forall v, marked visited v <-> v ∈ postorder) ->
  (forall v, marked visited v -> exists l, walk edges v l) ->
  (forall u v, u ∈ postorder -> edge edges u v -> v ∈ postorder) ->
  zlen order = zlen edges ->
  (forall u v x, u ∈ postorder -> v ∈ postorder -> zget order u = Some x -> zget order v = Some x -> u = v) ->
  0 <= work -> (Z.to_nat work < fuel)%nat -> 0 < zlen edges ->
  ensures (dominators fuel preds order (tail postorder)
      (zinsert (repeat None (Z.to_nat (zlen edges))) 0 (Some 0)) work)
    (tree_ok gates edges visited).
Proof.
  intros Hg Hclosed Hflow Hzp Hpreds Hzv Hnodup [rest Hroot] Hmarked Hwalks Hreach Hzo Horder Hw Hfuel H0.
  assert (forall v, v ∈ postorder -> 0 <= v < zlen edges) as Hrange.
  { intros v Hv%Hmarked. rewrite <- Hzv. by apply (zget_lt _ _ true). }
  assert (0 ∈ postorder) as Hin0 by (rewrite Hroot; left).
  assert (forall u v, edge preds v u -> 0 <= u < zlen edges) as Hpe
    by (intros u v Huv%Hpreds; by eapply edge_lt).
  eapply ensures_weaken.
  { apply (dominators_spec edges preds order postorder); try done.
    - rewrite Hroot in *. cbn [tail]. apply NoDup_cons in Hnodup as [Hn0 _].
      intros v Hv. split; [by right | by intros ->].
    - assert (forall v d, zget (zinsert (repeat None (Z.to_nat (zlen edges))) 0 (Some 0)) v = Some (Some d) ->
        v = 0 /\ d = 0) as Hinit.
      { intros v d. rewrite zget_zinsert by (rewrite zlen_repeat; lia).
        destruct (Z.eqb_spec v 0) as [-> |]; [by intros [= <-] | by intros ?%zget_repeat_Some]. }
      split.
      + rewrite zlen_zinsert, zlen_repeat. lia.
      + apply zget_zinsert_eq. rewrite zlen_repeat. lia.
      + by intros v d [-> ->]%Hinit.
      + intros v d [-> _]%Hinit. by left. }
  intros idom (Hi & Hstable).
  assert (forall v l, walk edges v l -> v ∈ postorder /\ known idom v /\ anc idom v 0 /\
    forall a, anc idom v a -> a ∈ l) as Hdom.
  { intros v l. apply (stable_dominates edges preds postorder); try done.
    - intros u w Huw. by apply Hpreds.
    - intros w Hw' Hw0. apply Hstable. rewrite Hroot in *. by apply elem_of_cons in Hw' as [? | ?]. }
  split; try done.
  - apply Hi.
  - intros v d Hd. rewrite (ii_len _ _ _ _ Hi). apply Hrange. by apply (ii_reach _ _ _ _ Hi v d).
  - intros v l Hvl. apply Hdom in Hvl as (Hv & _ & Ha & Hall). split_and!; [by apply Hmarked | done | done].
  - intros v [l Hl]%Hwalks. by apply (Hdom v l).
Qed.

Lemma body_dominance_spec pairs :
  (forall kn, kn ∈ pairs -> pair_ok kn) ->
  ensures (validate_numeric_for_body_dominance p pairs)
    (fun _ => Forall (fun kn => forall entered, flow p kn.2 entered -> kn.1 ∈ entered) pairs).
Proof using Htargets.
  intros Hpairs. unfold validate_numeric_for_body_dominance.
  destruct (Z.eqb_spec (zlen pairs) 0) as [Hz | Hz].
  { destruct pairs as [| kn pairs]; [constructor |]. rewrite zlen_cons in Hz. pose proof (zlen_nonneg pairs). lia. }
  assert (0 < zlen (instructions p)) as Hcount.
  { destruct pairs as [| kn pairs]; [done |]. destruct (Hpairs kn ltac:(left)) as [_ ?]. lia. }
  eapply ensures_bind; [apply assign_gates_spec | intros [gates next] Hg]. cbn [fst snd] in *.
  pose proof (go_next _ _ _ Hg) as Hnext.
  eapply ensures_bind; [by apply (cfg_edges_spec p gates next) | intros edges (<- & Hclosed & Hflow)].
  assert (zlen edges = Z.of_nat (Z.to_nat (zlen edges))) as Hn by lia.
  eapply ensures_bind; [by apply cfg_predecessors_spec | intros preds (Hzp & Hpreds)].
  eapply ensures_bind; [apply (ensures_vset _ _ _ (fun l => l = zinsert (repeat false (Z.to_nat (zlen edges))) 0 true));
    [rewrite zlen_repeat; lia | done] | intros visited0 ->].
  eapply ensures_bind; [apply (dfs_reaches edges Hclosed (Z.to_nat (zlen edges))); lia |].
  intros [visited postorder] (Hzv & Hnodup & Hroot & Hmarked & Hwalks & Hreach). cbn [fst snd] in *.
  eapply ensures_bind.
  { apply node_order_spec; [done |]. intros v Hv%Hmarked. rewrite <- Hn, <- Hzv. by apply (zget_lt _ _ true). }
  intros order (Hzo & Horder).
  eapply ensures_bind; [apply (ensures_vset _ _ _ (fun l => l = zinsert (repeat None (Z.to_nat (zlen edges))) 0 (Some 0)));
    [rewrite zlen_repeat; lia | done] | intros idom0 ->].
  eapply ensures_bind; [by apply (ensures_spend_capacity _ _ (fun _ => True)) | intros _ _].
  assert (0 <= Z.min USIZE_MAX (zlen (instructions p) * 128)) by (unfold_ranges; lia).
  eapply ensures_bind; [apply (dominators_of_graph gates edges preds visited postorder order); try done; lia |].
  intros idom Htree. pose proof (tr_idom _ _ _ _ Htree) as Hzi.
  eapply ensures_bind; [apply dominator_children_spec, (tr_range _ _ _ _ Htree) |].
  intros children (Hzc & Hedge & Hnd).
  eapply ensures_bind; [by apply (number_tree_anc idom children Hzc Hedge Hnd); lia |].
  intros [entry exit] (Hze & Hzx & Hanc). cbn [fst snd] in *.
  eapply ensures_bind; [by apply (ensures_spend_capacity _ _ (fun _ => True)) | intros _ _].
  apply ensures_for_each. intros kn Hkn. eapply check_pair_spec; [done | by apply Hpairs | done..].
Qed.
End Check.
