(* ===== verification/VerifierTotal.v ===== *)
(** [verify_module] as a whole: on any module whatever, hostile or not, it
    returns, accepting or with a typed error, without a panic or an endless
    loop; and every [NumericForNext] of a module it accepts can only be reached
    through the body edge of its own [NumericForPrepare]. *)

From Stdlib Require Import ZArith Lia.
From stdpp Require Import base list numbers strings.
From S2P Require Import Prelude Number Bytecode Verifier Dominance.

Local Open Scope Z_scope.

(** The operands as the Rust types hold them, [u16] and [u32]. *)
Definition machine_operands (p : BytecodePrototype) : Prop :=
  forall pc entry, zget (instructions p) pc = Some entry -> operands_ok (bi_instruction entry).

(** ** Checks without loops of their own *)

Lemma total_fold {E A B} (f : B -> A -> res E B) acc l :
  (forall acc x, x ∈ l -> total (f acc x)) -> total (fold_res f acc l).
Proof.
  revert acc. induction l as [| x l IH]; intros acc H; cbn [fold_res]; [done |].
  apply total_bind; [apply H; left | intros a _; apply IH; intros; apply H; by right].
Qed.

(** Chains of checks: binds, loops, branches and constructors. *)
Ltac totals :=
  repeat first
    [ apply total_fail_if | apply total_Ok | apply total_Err
    | apply total_for_each; intros ? ? | apply total_fold; intros ? ? ?
    | apply total_bind; [| intros ? ?] | case_match ].

Lemma register_in_frame_total p base count message : total (register_in_frame p base count message).
Proof. unfold register_in_frame. totals. Qed.
Lemma validate_result_range_total p base mode : total (validate_result_range p base mode).
Proof. unfold validate_result_range, register_in_frame. totals. Qed.

Lemma validate_operands_total p module index i : total (validate_operands p module index i).
Proof.
  unfold validate_operands, validate_numeric_for_registers, require_jump_target, require_upvalue.
  totals; apply register_in_frame_total || apply validate_result_range_total.
Qed.

Lemma validate_close_path_total p path : total (validate_close_path p path).
Proof. unfold validate_close_path. totals. Qed.

Lemma validate_close_link_total p entry : total (validate_close_link p entry).
Proof. unfold validate_close_link. totals; apply validate_close_path_total. Qed.

Lemma scan_total module : total (module_transport_scan_units module).
Proof. unfold module_transport_scan_units, scan_prototype, scan_path, scan_add, add_or_limit. totals. Qed.

(** ** The close sequences *)

(** Each round of the [while] moves past at least one instruction. *)
Lemma close_sequence_step_spec p index entry :
  ensures (close_sequence_step p index entry) (fun next => index < next).
Proof.
  unfold close_sequence_step.
  destruct (is_close (bi_instruction entry)); [| cbn; lia].
  destruct (bi_close_path entry) as [path |]; [| cbn; lia].
  eapply (ensures_bind _ _ (fun _ => 0 < zlen (cp_registers path))).
  { apply ensures_fail_if. pose proof (zlen_nonneg (cp_registers path)). lia. }
  intros _ Hr. eapply (ensures_bind _ _ (fun _ => True)).
  { eapply ensures_weaken; [apply total_ensures; totals | done]. }
  intros _ _. unfold checked_add_usize. destruct (_ <=? _); [| done].
  eapply ensures_bind; [by apply (ensures_fail_if _ _ (fun _ => True)) | intros _ _]. cbn. lia.
Qed.

Lemma close_sequences_total p fuel index :
  0 <= index -> zlen (instructions p) <= index + Z.of_nat fuel -> total (close_sequences_loop fuel p index).
Proof.
  revert index. induction fuel as [| fuel IH]; intros index H0 Hf; cbn [close_sequences_loop].
  - destruct (zget (instructions p) index) eqn:He; [| done]. apply zget_lt in He. lia.
  - destruct (zget (instructions p) index) as [entry |]; [| done].
    pose proof (close_sequence_step_spec p index entry) as Hs. apply total_bind.
    + by eapply ensures_total.
    + intros next Hn. pose proof (ensures_Ok _ _ _ Hs Hn) as Hlt. cbn beta in Hlt. apply IH; lia.
Qed.

Lemma validate_metadata_total p : total (validate_metadata p).
Proof.
  unfold validate_metadata. totals.
  apply close_sequences_total; unfold zlen; lia.
Qed.

Lemma validate_markers_total p :
  (forall entry, entry ∈ instructions p -> validate_close_link p entry = Ok tt) ->
  total (validate_close_declaration_markers p).
Proof.
  intros Hlink. unfold validate_close_declaration_markers. apply total_bind; [| intros; totals].
  apply total_fold. intros declared entry Hin. specialize (Hlink entry Hin).
  unfold validate_close_link in Hlink.
  destruct (bi_instruction entry); try done. destruct (bi_close_path entry) as [path |]; [| done].
  res_ok. bool_hyps. destruct (zget_is_Some (cp_bindings path) 0) as [b Hb]; [lia |].
  rewrite (vget_Some _ _ _ Hb). totals.
Qed.

(** ** Pairing *)

(** [k] is the [NumericForPrepare] that the [NumericForNext] at [n] belongs
    to: the only one with its registers, with its exit, and its body starts at
    [n]'s target, before [n]. *)
Record pair_of (p : BytecodePrototype) (n : Z) (control limit step visible target exit k : Z) : Prop := {
  po_prepare : exists entry, zget (instructions p) k = Some entry /\
    bi_instruction entry = NumericForPrepare control limit step visible exit;
  po_target : target = k + 1;
  po_before : target <= n;
  po_unique : forall k' entry exit', zget (instructions p) k' = Some entry ->
    bi_instruction entry = NumericForPrepare control limit step visible exit' -> k' = k
}.

Lemma elem_of_prepares p control limit step visible k exit :
  (((control, limit, step, visible), k, exit) : Prepare) ∈ omap prepare_of (enumerate (instructions p)) <->
  exists entry, zget (instructions p) k = Some entry /\
    bi_instruction entry = NumericForPrepare control limit step visible exit.
Proof.
  rewrite list_elem_of_omap. split.
  - intros ([i entry] & Hin%enumerate_elem & Hp). unfold prepare_of in Hp. cbn [fst snd] in Hp.
    destruct (bi_instruction entry) eqn:Hi; simplify_eq. eauto.
  - intros (entry & He & Hi). exists (k, entry). split; [by apply enumerate_elem |].
    unfold prepare_of. cbn [fst snd]. by rewrite Hi.
Qed.

Lemma pair_next_spec p n i :
  0 <= n < zlen (instructions p) ->
  ensures (pair_next (omap prepare_of (enumerate (instructions p))) n i) (fun found =>
    match i with
    | NumericForNext control limit step visible target exit =>
        exists k, found = Some (k, n) /\ pair_of p n control limit step visible target exit k
    | _ => found = None
    end).
Proof.
  intros Hn. unfold pair_next. destruct i; try done.
  set (prepares := omap prepare_of (enumerate (instructions p))).
  set (same := fun pr : Prepare => bool_decide (pr.1.1 = (control, limit, step, visible))).
  assert (forall pr, pr ∈ List.filter same prepares <-> pr ∈ prepares /\ pr.1.1 = (control, limit, step, visible)) as Hsame.
  { intros pr. rewrite !list_elem_of_In, filter_In. unfold same. by rewrite bool_decide_eq_true. }
  destruct (List.filter same prepares) as [| [[key k] exit'] [| pr prs]]; [done | | done].
  assert (((key, k, exit') : Prepare) ∈ prepares /\ key = (control, limit, step, visible)) as [Hin ->]
    by (apply (Hsame (key, k, exit')); left).
  pose proof Hin as (entry & He & Hi)%elem_of_prepares.
  eapply ensures_bind; [apply (ensures_fail_if _ _ (fun _ => exit' = exit /\ target = k + 1 /\ target <= n)) |].
  { intros Hok. bool_hyps. unfold opt_eqb, checked_add_usize in *.
    match goal with Hb : bool_decide _ = true |- _ => apply bool_decide_eq_true in Hb end.
    case_match; simplify_eq. lia. }
  intros _ (-> & Ht & Hle). exists k. split; [done |]. split; [eauto | done | done |].
  intros k' entry' exit2 He' Hi'.
  assert ((((control, limit, step, visible), k', exit2) : Prepare) ∈
    [(((control, limit, step, visible), k, exit) : Prepare)]) as [= -> _]%list_elem_of_singleton; [| done].
  apply Hsame. split; [| done]. apply elem_of_prepares. eauto.
Qed.

Section Admission.
Context `{Allocator}.

Lemma pairs_spec p :
  targets_in_range p ->
  ensures (validate_numeric_for_pairs p) (fun _ =>
    forall n entry control limit step visible target exit,
      zget (instructions p) n = Some entry ->
      bi_instruction entry = NumericForNext control limit step visible target exit ->
      exists k, pair_of p n control limit step visible target exit k /\
        forall entered, flow p n entered -> k ∈ entered).
Proof.
  intros Ht. unfold validate_numeric_for_pairs.
  destruct (try_reserve_exact 0 0 _) as [c1 |]; [| done].
  destruct (try_reserve_exact 0 0 _) as [c2 |]; [| done].
  eapply ensures_bind.
  { apply (ensures_fold _ (fun done pairs =>
      (forall kn, kn ∈ pairs -> pair_ok p kn) /\
      forall n entry control limit step visible target exit, (n, entry) ∈ done ->
        bi_instruction entry = NumericForNext control limit step visible target exit ->
        exists k, (k, n) ∈ pairs /\ pair_of p n control limit step visible target exit k)).
    { split; [by intros ? ?%elem_of_nil | by intros ? ? ? ? ? ? ? ? ?%elem_of_nil]. }
    intros pre [n entry] post pairs Hl (Hok & Hall). cbn [fst snd].
    assert (zget (instructions p) n = Some entry) as He
      by (apply enumerate_elem; rewrite Hl; apply elem_of_app; right; left).
    pose proof (zget_lt _ _ _ He) as Hn.
    eapply ensures_bind; [by apply pair_next_spec | intros found Hfound].
    destruct (bi_instruction entry) eqn:Hi; subst;
      try (split; [done | intros m e ? ? ? ? ? ? [Hin | [= -> ->]%list_elem_of_singleton]%elem_of_app Hm;
                          [by eapply Hall | congruence]]).
    destruct Hfound as (k & -> & Hpair). split.
    - intros kn [Hkn | ->%list_elem_of_singleton]%elem_of_app; [by apply Hok |].
      split; [| done]. destruct (po_prepare _ _ _ _ _ _ _ _ _ Hpair) as (e & He' & Hi').
      exists e. cbn [fst]. by rewrite Hi'.
    - intros m e c l s v t x [Hin | [= -> ->]%list_elem_of_singleton]%elem_of_app Hm.
      + destruct (Hall _ _ _ _ _ _ _ _ Hin Hm) as (k' & ? & ?). exists k'. split; [apply elem_of_app; by left | done].
      + rewrite Hi in Hm. injection Hm as <- <- <- <- <- <-. exists k. split; [apply elem_of_app; right; left | done]. }
  intros pairs (Hok & Hall). destruct (checked_mul_usize c1 24 ≫= _); [| done].
  eapply ensures_bind; [by apply (ensures_fail_if _ _ (fun _ => True)) | intros _ _].
  eapply ensures_weaken; [by apply body_dominance_spec |]. intros [] Hdom.
  intros n entry c l s v t x He Hi.
  destruct (Hall n entry c l s v t x ltac:(by apply enumerate_elem) Hi) as (k & Hk & Hpair).
  exists k. split; [done |]. rewrite Forall_forall in Hdom. by apply (Hdom (k, n)).
Qed.

(** What the shape check accepted has its branch targets among the
    instructions. *)
Lemma accepted_targets p module :
  machine_operands p ->
  (forall index entry, zget (instructions p) index = Some entry ->
     validate_operands p module index (bi_instruction entry) = Ok tt) ->
  targets_in_range p.
Proof.
  intros Hm Hv pc entry target He Hb. specialize (Hv pc entry He). specialize (Hm pc entry He).
  assert (forall index t, require_jump_target p index t = Ok tt -> t < zlen (instructions p)) as Hreq.
  { intros index t Hr. unfold require_jump_target in Hr. apply fail_if_Ok in Hr. bool_hyps. lia. }
  pose proof (zget_lt _ _ _ He) as Hpc.
  destruct Hb; cbn [validate_operands operands_ok] in *; res_ok;
    repeat match goal with Hr : require_jump_target _ _ _ = _ |- _ => apply Hreq in Hr end;
    unfold_ranges; try lia.
Qed.

Lemma validate_prototype_total p module limits :
  machine_operands p -> total (validate_prototype p module limits).
Proof.
  intros Hm. unfold validate_prototype.
  do 3 (apply total_bind; [apply total_fail_if | intros _ _]).
  apply total_bind; [unfold validate_named_vararg; totals | intros _ _].
  do 5 (apply total_bind; [apply total_fail_if | intros _ _]).
  apply total_bind; [unfold validate_environment; totals | intros _ _].
  apply total_bind; [apply validate_metadata_total | intros _ _].
  apply total_bind.
  { apply total_for_each. intros ie _. unfold validate_instruction_entry, validate_instruction_shape.
    apply total_bind; [apply total_fail_if | intros _ _].
    apply total_bind; [apply validate_operands_total | intros _ _]. apply validate_close_link_total. }
  intros [] Hall. apply for_each_Ok in Hall. rewrite Forall_forall in Hall.
  assert (forall index entry, zget (instructions p) index = Some entry ->
    validate_operands p module index (bi_instruction entry) = Ok tt /\
    validate_close_link p entry = Ok tt) as Hops.
  { intros index entry He%enumerate_elem. specialize (Hall _ He).
    unfold validate_instruction_entry, validate_instruction_shape in Hall. res_ok. by split. }
  apply total_bind.
  { apply validate_markers_total. intros entry [i Hi]%list_elem_of_lookup.
    apply (Hops (Z.of_nat i)). apply zget_Some. rewrite Nat2Z.id. split; [lia | done]. }
  intros _ _. apply total_bind; [| intros _ _; apply dataflow_total].
  eapply ensures_total, pairs_spec, (accepted_targets p module Hm). intros. by apply Hops.
Qed.

Lemma verify_total module profile limits :
  (forall p, p ∈ prototypes module -> machine_operands p) ->
  total (verify_module module profile limits).
Proof.
  intros Hm. unfold verify_module.
  do 6 (apply total_bind; [apply total_fail_if | intros _ _]).
  apply total_bind.
  { apply total_fold. intros s p Hp. unfold verify_each, add_or_limit.
    do 2 (apply total_bind; [totals | intros ? _]).
    do 4 (apply total_bind; [apply total_fail_if | intros _ _]).
    apply total_bind; [by apply validate_prototype_total, Hm | done]. }
  intros _ _. apply total_bind; [unfold check_function_mapping; totals | intros _ _].
  apply total_bind; [apply scan_total | done].
Qed.

(** C12: The verifier is total: on every module whose operands are machine words it
    returns, with an acceptance or a typed error. No index is out of range, no
    loop of the close sequences, the dataflow worklist, the depth-first search,
    the dominator iteration or the tree numbering runs for ever, whatever the
    instructions, the control flow and the allocator do. *)
Theorem verify_module_total module profile limits :
  (forall p, p ∈ prototypes module -> machine_operands p) ->
  total (verify_module module profile limits).
Proof. apply verify_total. Qed.

(** C7: Numeric mode is only entered by preparing it: in a module that verifies,
    every way for the program counter to reach a [NumericForNext] has left the
    [NumericForPrepare] with the same four registers and exit, the only one
    there is, by its body edge; the loop's back edge goes to the start of that
    body. *)
Theorem numeric_for_prepared module profile limits vm p n entered entry
    control limit step visible target exit :
  verify_module module profile limits = Ok vm ->
  p ∈ prototypes module -> machine_operands p ->
  flow p n entered -> zget (instructions p) n = Some entry ->
  bi_instruction entry = NumericForNext control limit step visible target exit ->
  exists k, k ∈ entered /\ pair_of p n control limit step visible target exit k.
Proof.
  intros (_ & _ & _ & _ & _ & _ & _ & _ & _ & _ & Hv & _)%verify_module_Ok Hp Hm Hflow He Hi.
  specialize (Hv p Hp). apply validate_prototype_Ok in Hv as (_ & _ & _ & _ & _ & Hops & _ & Hpairs & _).
  assert (targets_in_range p) as Ht by (apply (accepted_targets p module Hm); intros; by apply Hops).
  destruct (ensures_Ok _ _ _ (pairs_spec p Ht) Hpairs n entry _ _ _ _ _ _ He Hi) as (k & Hpair & Hk).
  exists k. split; [by apply Hk | done].
Qed.
End Admission.

(** ** On the demo module *)

Lemma demo_operands p : p ∈ prototypes demo_module -> machine_operands p.
Proof.
  intros ->%list_elem_of_singleton pc entry [_ He]%zget_Some.
  revert He. generalize (Z.to_nat pc) as i. intros i.
  do 8 (destruct i as [| i]; [intros [= <-]; cbn; unfold mode_ok; range_lia || (unfold_ranges; cbn; intuition lia) |]).
  done.
Qed.

Lemma verify_module_total_witness :
  total (@verify_module exact_allocator demo_module Lua55 VerifyLimits_default).
Proof. apply verify_module_total. exact demo_operands. Defined.

Lemma demo_flow : flow demo_prototype 5 [3].
Proof.
  assert (forall pc entered entry pc', flow demo_prototype pc entered ->
    zget (instructions demo_prototype) pc = Some entry -> falls_through (bi_instruction entry) ->
    pc' = pc + 1 ->
    flow demo_prototype pc' (if is_prepare (bi_instruction entry) then pc :: entered else entered)) as Hnext
    by (intros; subst; by eapply flow_next).
  eapply (Hnext 4 [3] (demo_instruction (Move 5 4)) 5); [| reflexivity | exact I | reflexivity].
  eapply (Hnext 3 [] (demo_instruction (NumericForPrepare 1 2 3 4 6)) 4); [| reflexivity | exact I | reflexivity].
  eapply (Hnext 2 [] (demo_instruction (LoadConst 3 0)) 3); [| reflexivity | exact I | reflexivity].
  eapply (Hnext 1 [] (demo_instruction (LoadConst 2 0)) 2); [| reflexivity | exact I | reflexivity].
  eapply (Hnext 0 [] (demo_instruction (LoadConst 1 0)) 1); [| reflexivity | exact I | reflexivity].
  constructor.
Qed.

Lemma numeric_for_prepared_witness : exists k, k ∈ [3] /\ pair_of demo_prototype 5 1 2 3 4 4 6 k.
Proof.
  eapply (@numeric_for_prepared exact_allocator demo_module Lua55 VerifyLimits_default
    {| vm_module := demo_module; vm_transport_scan_units := 16 |} demo_prototype 5 [3]
    (demo_instruction (NumericForNext 1 2 3 4 4 6))).
  - vm_compute. reflexivity.
  - left.
  - apply demo_operands. left.
  - exact demo_flow.
  - reflexivity.
  - reflexivity.
Defined.
