(* ===== verification/Codec.v ===== *)
(** The RVLU v2 binary format (crates/rivetlua-core/src/bytecode/codec.rs): the
    bounded writer, the offset-checked reader, the encoding and decoding of
    every part of a module, and [encode_module] and [decode_module]. *)

From Stdlib Require Import ZArith Lia.
From stdpp Require Import base list numbers strings.
From S2P Require Import Prelude Number Bytecode Verifier.

Local Open Scope Z_scope.

(** [u32::try_from] of a length. *)
Definition checked_u32 (value offset : Z) (message : string) : res BytecodeError Z :=
  if value <=? U32_MAX then Ok value else Err (limit offset message).

(** ** The writer *)

(** The vector's capacity is tracked where the code reads it, under a bound:
    there it changes by [try_reserve_exact] alone. *)
Record Writer := {
  w_bytes : list Z;
  w_capacity : Z;
  w_bound : option Z;
  w_failure : option BytecodeError
}.

Definition with_limit (bound : option Z) : Writer :=
  {| w_bytes := []; w_capacity := 0; w_bound := bound; w_failure := None |}.

Definition push_bytes (w : Writer) (value : list Z) : Writer :=
  {| w_bytes := w_bytes w ++ value; w_capacity := w_capacity w;
     w_bound := w_bound w; w_failure := w_failure w |}.
Definition set_failure (w : Writer) (e : BytecodeError) : Writer :=
  {| w_bytes := w_bytes w; w_capacity := w_capacity w; w_bound := w_bound w;
     w_failure := Some e |}.
Definition set_capacity (w : Writer) (capacity : Z) : Writer :=
  {| w_bytes := w_bytes w; w_capacity := capacity; w_bound := w_bound w;
     w_failure := w_failure w |}.

Definition finish (w : Writer) : res BytecodeError (list Z) :=
  match w_failure w with Some e => Err e | None => Ok (w_bytes w) end.

(** A computation on a fresh writer, then [finish]. *)
Definition run_writer (bound : option Z) (m : ST Writer BytecodeError unit)
    : res BytecodeError (list Z) :=
  match m (with_limit bound) with
  | (Ok _, w) => finish w
  | (Err e, _) => Err e
  | (Crash c, _) => Crash c
  end.

Section WriterOps.
Context `{Allocator}.

Definition write (value : list Z) (w : Writer) : Writer :=
  match w_failure w with
  | Some _ => w
  | None =>
      match w_bound w with
      | None => push_bytes w value
      | Some bound =>
          match checked_add_usize (zlen (w_bytes w)) (zlen value) with
          | None => set_failure w (limit 0 "RVLU 輸出長度溢位")
          | Some stop =>
              if bound <? stop then set_failure w (limit 0 "RVLU 輸出超出預准入")
              else if w_capacity w <? stop then
                match try_reserve_exact (zlen (w_bytes w)) (w_capacity w) (zlen value) with
                | None =>
                    set_failure w (bytecode_error AllocationFailed 0 "RVLU 輸出配置失敗")
                | Some capacity =>
                    let w := set_capacity w capacity in
                    if bound <? capacity
                    then set_failure w (limit 0 "RVLU 實際容量超出預准入")
                    else push_bytes w value
                end
              else push_bytes w value
          end
      end
  end.

Definition write_bytes (value : list Z) : ST Writer BytecodeError unit :=
  fun w => (Ok tt, write value w).
Definition write_u8 (v : Z) : ST Writer BytecodeError unit := write_bytes [v].
Definition write_u16 (v : Z) : ST Writer BytecodeError unit := write_bytes (le_bytes 2 v).
Definition write_u32 (v : Z) : ST Writer BytecodeError unit := write_bytes (le_bytes 4 v).
Definition write_u64 (v : Z) : ST Writer BytecodeError unit := write_bytes (le_bytes 8 v).
(** [to_le_bytes] of an [i64]: the two's complement bytes. *)
Definition write_i64 (v : Z) : ST Writer BytecodeError unit := write_bytes (le_bytes 8 (wrap_u64 v)).

Definition write_blob (value : list Z) : ST Writer BytecodeError unit :=
  len ← lift (checked_u32 (zlen value) 0 "RVLU blob 過大");
  write_u32 len;;
  write_bytes value.

(** [for x in l { f(writer, x); }]. *)
Fixpoint write_each {A} (f : A -> ST Writer BytecodeError unit) (l : list A)
    : ST Writer BytecodeError unit :=
  match l with
  | [] => mret tt
  | x :: l => f x;; write_each f l
  end.

(** The length as a [u32], then the elements. *)
Definition write_counted {A} (f : A -> ST Writer BytecodeError unit) (l : list A)
    (message : string) : ST Writer BytecodeError unit :=
  len ← lift (checked_u32 (zlen l) 0 message);
  write_u32 len;;
  write_each f l.
End WriterOps.

(** ** The reader *)

Record Reader := { r_bytes : list Z; r_base : Z; r_offset : Z }.

Definition new_at (bytes : list Z) (base : Z) : Reader :=
  {| r_bytes := bytes; r_base := base; r_offset := 0 |}.

Definition location (r : Reader) : Z :=
  match checked_add_usize (r_base r) (r_offset r) with Some l => l | None => USIZE_MAX end.

Definition is_empty (r : Reader) : bool := r_offset r =? zlen (r_bytes r).

(** [bytes.get(a..b)]. *)
Definition slice (bytes : list Z) (a b : Z) : option (list Z) :=
  if (a <=? b) && (b <=? zlen bytes)
  then Some (take (Z.to_nat (b - a)) (drop (Z.to_nat a) bytes)) else None.

Abbreviation Read := (ST Reader BytecodeError).

Definition read_location : Read Z := fun r => (Ok (location r), r).

Definition read_take (count : Z) : Read (list Z) := fun r =>
  match checked_add_usize (r_offset r) count with
  | None => (Err (verify (location r) "RVLU offset overflow"), r)
  | Some stop =>
      match slice (r_bytes r) (r_offset r) stop with
      | None => (Err (verify (location r) "RVLU bytes 截斷"), r)
      | Some value =>
          (Ok value, {| r_bytes := r_bytes r; r_base := r_base r; r_offset := stop |})
      end
  end.

Definition read_u8 : Read Z := le_val <$> read_take 1.
Definition read_u16 : Read Z := le_val <$> read_take 2.
Definition read_u32 : Read Z := le_val <$> read_take 4.
Definition read_u64 : Read Z := le_val <$> read_take 8.
Definition read_i64 : Read Z := (fun bs => wrap_i64 (le_val bs)) <$> read_take 8.

Definition read_count (limit_value : Z) (message : string) : Read Z :=
  offset ← read_location;
  count ← read_u32;
  if limit_value <? count then fail (limit offset message) else mret count.

Definition read_blob : Read (list Z) := len ← read_u32; read_take len.

Record ReadSection := { s_bytes : list Z; s_start : Z }.

Definition read_section : Read ReadSection :=
  len ← read_u32;
  start ← read_location;
  bytes ← read_take len;
  mret {| s_bytes := bytes; s_start := start |}.

(** [for _ in 0..count { v.push(read(reader)?); }]. *)
Fixpoint read_n {A} (read : Read A) (count : nat) : Read (list A) :=
  match count with
  | O => mret []
  | S count => x ← read; l ← read_n read count; mret (x :: l)
  end.

Definition read_list {A} (read : Read A) (count : Z) : Read (list A) :=
  read_n read (Z.to_nat count).

(** A count within a limit, then that many elements. *)
Definition read_counted {A} (read : Read A) (limit_value : Z) (message : string) : Read (list A) :=
  count ← read_count limit_value message; read_list read count.

(** The trailing-bytes check that ends every record. *)
Definition read_end (message : string) : Read unit := fun r =>
  if is_empty r then (Ok tt, r) else (Err (verify (location r) message), r).

Definition read_all {A} (m : Read A) (message : string) : Read A :=
  x ← m; read_end message;; mret x.

Definition run_reader {A} (m : Read A) (bytes : list Z) (base : Z) : res BytecodeError A :=
  (m (new_at bytes base)).1.

(** [Err(verify(reader.location() - 1, message))]. *)
Definition fail_before {A} (back : Z) (message : string) : Read A :=
  offset ← read_location; fail (verify (offset - back) message).

(** ** Tags *)

Definition profile_tag (p : LuaProfile) : Z := match p with Lua55 => 0 | Lua54 => 1 end.
Definition parse_profile (tag offset : Z) : res BytecodeError LuaProfile :=
  match tag with
  | 0 => Ok Lua55
  | 1 => Ok Lua54
  | _ => Err (verify offset "RVLU profile tag 無效")
  end.

Definition unary_tag (op : Unary.UnaryOperation) : Z :=
  match op with Unary.Negate => 0 | Unary.Not => 1 | Unary.Length => 2 | Unary.BitNot => 3 end.
Definition parse_unary (tag offset : Z) : res BytecodeError Unary.UnaryOperation :=
  match tag with
  | 0 => Ok Unary.Negate
  | 1 => Ok Unary.Not
  | 2 => Ok Unary.Length
  | 3 => Ok Unary.BitNot
  | _ => Err (verify offset "RVLU unary op 無效")
  end.

Definition binary_tag (op : Binary.BinaryOperation) : Z :=
  match op with
  | Binary.Or => 0 | Binary.And => 1 | Binary.Equal => 2 | Binary.NotEqual => 3
  | Binary.Less => 4 | Binary.LessEqual => 5 | Binary.Greater => 6
  | Binary.GreaterEqual => 7 | Binary.Pipe => 8 | Binary.BitXor => 9
  | Binary.Ampersand => 10 | Binary.ShiftLeft => 11 | Binary.ShiftRight => 12
  | Binary.Concat => 13 | Binary.Add => 14 | Binary.Subtract => 15
  | Binary.Multiply => 16 | Binary.Divide => 17 | Binary.FloorDivide => 18
  | Binary.Modulo => 19 | Binary.Power => 20
  end.
Definition parse_binary (tag offset : Z) : res BytecodeError Binary.BinaryOperation :=
  match tag with
  | 0 => Ok Binary.Or | 1 => Ok Binary.And | 2 => Ok Binary.Equal | 3 => Ok Binary.NotEqual
  | 4 => Ok Binary.Less | 5 => Ok Binary.LessEqual | 6 => Ok Binary.Greater
  | 7 => Ok Binary.GreaterEqual | 8 => Ok Binary.Pipe | 9 => Ok Binary.BitXor
  | 10 => Ok Binary.Ampersand | 11 => Ok Binary.ShiftLeft | 12 => Ok Binary.ShiftRight
  | 13 => Ok Binary.Concat | 14 => Ok Binary.Add | 15 => Ok Binary.Subtract
  | 16 => Ok Binary.Multiply | 17 => Ok Binary.Divide | 18 => Ok Binary.FloorDivide
  | 19 => Ok Binary.Modulo | 20 => Ok Binary.Power
  | _ => Err (verify offset "RVLU binary op 無效")
  end.

Definition exit_tag (kind : BytecodeExitKind) : Z :=
  match kind with
  | ExitNormal => 0 | ExitReturn => 1 | ExitBreak => 2 | ExitGoto => 3 | ExitError => 4
  end.
Definition parse_exit (tag offset : Z) : res BytecodeError BytecodeExitKind :=
  match tag with
  | 0 => Ok ExitNormal | 1 => Ok ExitReturn | 2 => Ok ExitBreak | 3 => Ok ExitGoto
  | 4 => Ok ExitError
  | _ => Err (verify offset "RVLU close exit kind 無效")
  end.

(** A flag byte that must be 0 or 1. *)
Definition read_flag (message : string) : Read bool :=
  tag ← read_u8;
  match tag with
  | 0 => mret false
  | 1 => mret true
  | _ => fail_before 1 message
  end.

Definition u8_of_bool (b : bool) : Z := if b then 1 else 0.

(** ** The parts of a module *)

Section Parts.
Context `{Allocator}.

Definition write_span (span : BytecodeSpan) : ST Writer BytecodeError unit :=
  write_u64 (start_byte span);; write_u64 (end_byte span).

Definition write_binding (b : BytecodeBindingId) : ST Writer BytecodeError unit :=
  write_u32 (bb_function b);; write_u32 (bb_ordinal b).

Definition write_optional_proto (proto : option ProtoId) : ST Writer BytecodeError unit :=
  match proto with
  | Some proto => write_u8 1;; write_u32 proto
  | None => write_u8 0
  end.

Definition write_result_mode (mode : ResultMode) : ST Writer BytecodeError unit :=
  match mode with
  | Fixed count => write_u8 0;; write_u16 count
  | All => write_u8 1
  end.

Definition write_instruction (i : Instruction) : ST Writer BytecodeError unit :=
  match i with
  | LoadConst dest constant => write_u8 0;; write_u16 dest;; write_u32 constant
  | LoadNil start count => write_u8 1;; write_u16 start;; write_u16 count
  | Move dest src => write_u8 2;; write_u16 dest;; write_u16 src
  | GetUpvalue dest upvalue => write_u8 3;; write_u16 dest;; write_u16 upvalue
  | SetUpvalue upvalue src => write_u8 4;; write_u16 upvalue;; write_u16 src
  | NewTable dest => write_u8 5;; write_u16 dest
  | GetTable dest table key => write_u8 6;; write_u16 dest;; write_u16 table;; write_u16 key
  | SetTable table key value => write_u8 7;; write_u16 table;; write_u16 key;; write_u16 value
  | UnaryOp dest op src => write_u8 8;; write_u16 dest;; write_u8 (unary_tag op);; write_u16 src
  | BinaryOp dest op lhs rhs =>
      write_u8 9;; write_u16 dest;; write_u8 (binary_tag op);; write_u16 lhs;; write_u16 rhs
  | Jump target => write_u8 10;; write_u32 target
  | JumpIfFalse condition target => write_u8 11;; write_u16 condition;; write_u32 target
  | Closure dest proto => write_u8 12;; write_u16 dest;; write_u32 proto
  | Call base arg_count mode =>
      write_u8 13;; write_u16 base;; write_u16 arg_count;; write_result_mode mode
  | TailCall base arg_count mode =>
      write_u8 14;; write_u16 base;; write_u16 arg_count;; write_result_mode mode
  | Vararg base mode => write_u8 15;; write_u16 base;; write_result_mode mode
  | Return base mode => write_u8 16;; write_u16 base;; write_result_mode mode
  | Close base count => write_u8 17;; write_u16 base;; write_u16 count
  | NumericForPrepare control limit step visible exit =>
      write_u8 18;; write_u16 control;; write_u16 limit;; write_u16 step;;
      write_u16 visible;; write_u32 exit
  | NumericForNext control limit step visible target exit =>
      write_u8 19;; write_u16 control;; write_u16 limit;; write_u16 step;;
      write_u16 visible;; write_u32 target;; write_u32 exit
  end.

Definition write_environment_source (source : EnvironmentSource) : ST Writer BytecodeError unit :=
  match source with
  | RootExternal => write_u8 0
  | ParentFrame parent register => write_u8 1;; write_u32 parent;; write_u16 register
  | ParentLocal upvalue => write_u8 2;; write_u16 upvalue
  | ParentUpvalue upvalue => write_u8 3;; write_u16 upvalue
  end.

Definition write_frame (f : FrameLayout) : ST Writer BytecodeError unit :=
  write_u16 (register_limit f);; write_u16 (initial_top f);; write_u16 (dynamic_top f);;
  write_u16 (return_base f);; write_u16 (environment f);;
  write_environment_source (environment_source f);;
  write_u8 (u8_of_bool (registers_start_as_nil f)).

Definition write_optional_scope (scope : option Z) : ST Writer BytecodeError unit :=
  match scope with
  | Some scope => write_u8 1;; write_u32 scope
  | None => write_u8 0
  end.

Definition write_close_path (close : BytecodeClosePath) : ST Writer BytecodeError unit :=
  write_u8 (exit_tag (cp_kind close));;
  write_span (cp_span close);;
  write_u32 (from_scope close);;
  write_optional_scope (target_scope close);;
  write_counted write_binding (cp_bindings close) "RVLU close bindings 過大";;
  write_counted write_u16 (cp_registers close) "RVLU close registers 過大".
End Parts.

Definition read_span : Read BytecodeSpan :=
  start ← read_u64;
  stop ← read_u64;
  if stop <? start then fail_before 16 "RVLU span 無效"
  else mret {| start_byte := start; end_byte := stop |}.

Definition read_binding : Read BytecodeBindingId :=
  function ← read_u32; ordinal ← read_u32;
  mret {| bb_function := function; bb_ordinal := ordinal |}.

Definition read_optional_proto : Read (option ProtoId) :=
  tag ← read_u8;
  match tag with
  | 0 => mret None
  | 1 => Some <$> read_u32
  | _ => fail_before 1 "RVLU parent flag 無效"
  end.

Definition read_result_mode : Read ResultMode :=
  tag ← read_u8;
  match tag with
  | 0 => Fixed <$> read_u16
  | 1 => mret All
  | _ => fail_before 1 "RVLU result mode 無效"
  end.

Definition read_instruction : Read Instruction :=
  offset ← read_location;
  tag ← read_u8;
  match tag with
  | 0 => dest ← read_u16; constant ← read_u32; mret (LoadConst dest constant)
  | 1 => start ← read_u16; count ← read_u16; mret (LoadNil start count)
  | 2 => dest ← read_u16; src ← read_u16; mret (Move dest src)
  | 3 => dest ← read_u16; upvalue ← read_u16; mret (GetUpvalue dest upvalue)
  | 4 => upvalue ← read_u16; src ← read_u16; mret (SetUpvalue upvalue src)
  | 5 => dest ← read_u16; mret (NewTable dest)
  | 6 => dest ← read_u16; table ← read_u16; key ← read_u16; mret (GetTable dest table key)
  | 7 => table ← read_u16; key ← read_u16; value ← read_u16; mret (SetTable table key value)
  | 8 =>
      dest ← read_u16; tag ← read_u8; op ← lift (parse_unary tag offset); src ← read_u16;
      mret (UnaryOp dest op src)
  | 9 =>
      dest ← read_u16; tag ← read_u8; op ← lift (parse_binary tag offset);
      lhs ← read_u16; rhs ← read_u16; mret (BinaryOp dest op lhs rhs)
  | 10 => target ← read_u32; mret (Jump target)
  | 11 => condition ← read_u16; target ← read_u32; mret (JumpIfFalse condition target)
  | 12 => dest ← read_u16; proto ← read_u32; mret (Closure dest proto)
  | 13 =>
      base ← read_u16; arg_count ← read_u16; mode ← read_result_mode;
      mret (Call base arg_count mode)
  | 14 =>
      base ← read_u16; arg_count ← read_u16; mode ← read_result_mode;
      mret (TailCall base arg_count mode)
  | 15 => base ← read_u16; mode ← read_result_mode; mret (Vararg base mode)
  | 16 => base ← read_u16; mode ← read_result_mode; mret (Return base mode)
  | 17 => base ← read_u16; count ← read_u16; mret (Close base count)
  | 18 =>
      control ← read_u16; limit ← read_u16; step ← read_u16; visible ← read_u16;
      exit ← read_u32; mret (NumericForPrepare control limit step visible exit)
  | 19 =>
      control ← read_u16; limit ← read_u16; step ← read_u16; visible ← read_u16;
      target ← read_u32; exit ← read_u32;
      mret (NumericForNext control limit step visible target exit)
  | _ => fail (verify offset "RVLU opcode 無效")
  end.

Definition read_environment_source : Read EnvironmentSource :=
  offset ← read_location;
  tag ← read_u8;
  match tag with
  | 0 => mret RootExternal
  | 1 => parent ← read_u32; register ← read_u16; mret (ParentFrame parent register)
  | 2 => ParentLocal <$> read_u16
  | 3 => ParentUpvalue <$> read_u16
  | _ => fail (verify offset "RVLU environment source 無效")
  end.

Definition read_frame : Read FrameLayout :=
  register_limit ← read_u16; initial_top ← read_u16; dynamic_top ← read_u16;
  return_base ← read_u16; environment ← read_u16;
  environment_source ← read_environment_source;
  registers_start_as_nil ← read_flag "RVLU frame nil flag 無效";
  mret {| register_limit := register_limit; initial_top := initial_top;
          dynamic_top := dynamic_top; return_base := return_base;
          environment := environment; environment_source := environment_source;
          registers_start_as_nil := registers_start_as_nil |}.

Definition read_optional_scope : Read (option Z) :=
  tag ← read_u8;
  match tag with
  | 0 => mret None
  | 1 => Some <$> read_u32
  | _ => fail_before 1 "RVLU close target scope 無效"
  end.

Definition read_close_path (limits : VerifyLimits) : Read BytecodeClosePath :=
  offset ← read_location;
  tag ← read_u8;
  kind ← lift (parse_exit tag offset);
  span ← read_span;
  from ← read_u32;
  target ← read_optional_scope;
  bindings ← read_counted read_binding (max_constants limits) "RVLU close bindings 超過限制";
  registers ← read_counted read_u16 (max_registers limits) "RVLU close registers 超過限制";
  if negb (zlen bindings =? zlen registers)
  then fail (verify offset "RVLU close bindings/registers 長度不符")
  else mret {| cp_kind := kind; cp_span := span; from_scope := from; target_scope := target;
               cp_bindings := bindings; cp_registers := registers |}.

(** ** Modules *)

Definition remaining (total used start : Z) (message : string) : res BytecodeError Z :=
  if used <=? total then Ok (total - used) else Err (limit start message).

Section Modules.
Context `{Allocator}.

(** A length-prefixed section. *)
Definition write_section (bytes : list Z) (message : string) : ST Writer BytecodeError unit :=
  len ← lift (checked_u32 (zlen bytes) 0 message);
  write_u32 len;;
  write_bytes bytes.

Definition write_constant (c : BytecodeConstant) : ST Writer BytecodeError unit :=
  match c with
  | CInteger v => write_u8 0;; write_i64 v
  | CFloatBits v => write_u8 1;; write_u64 v
  | CName v => write_u8 2;; write_blob v
  | CString v => write_u8 3;; write_blob v
  | CBoolean b => write_u8 4;; write_u8 (u8_of_bool b)
  end.

Definition encode_constants (cs : list BytecodeConstant) (limits : VerifyLimits)
    (bound : option Z) : res BytecodeError (list Z) :=
  fail_if (max_constants limits <? zlen cs) (limit 0 "RVLU constant 數超過限制");;
  run_writer bound (write_counted write_constant cs "RVLU constant 數過大").

Definition write_optional_close_path (path : option BytecodeClosePath)
    : ST Writer BytecodeError unit :=
  match path with
  | Some path => write_u8 1;; write_close_path path
  | None => write_u8 0
  end.

Definition write_entry (entry : BytecodeInstruction) : ST Writer BytecodeError unit :=
  write_instruction (bi_instruction entry);;
  write_u8 (canonical_effect_flags (bi_instruction entry));;
  write_span (bi_span entry);;
  write_optional_close_path (bi_close_path entry).

Definition encode_instructions (entries : list BytecodeInstruction) (limits : VerifyLimits)
    (bound : option Z) : res BytecodeError (list Z) :=
  fail_if (max_instructions limits <? zlen entries) (limit 0 "RVLU instruction 數超過限制");;
  run_writer bound (write_counted write_entry entries "RVLU instruction 數過大").

Definition write_binding_register (br : BytecodeBindingId * Register)
    : ST Writer BytecodeError unit :=
  write_binding br.1;; write_u16 br.2.

Definition write_upvalue_source (source : BytecodeUpvalueSource) : ST Writer BytecodeError unit :=
  match source with
  | FromParentLocal binding => write_u8 0;; write_binding binding
  | FromParentUpvalue parent => write_u8 1;; write_u16 parent
  end.

Definition write_upvalue (u : BytecodeUpvalue) : ST Writer BytecodeError unit :=
  write_u16 (bu_id u);; write_upvalue_source (bu_source u).

Definition encode_metadata (p : BytecodePrototype) (limits : VerifyLimits) (bound : option Z)
    : res BytecodeError (list Z) :=
  fail_if (max_upvalues_per_prototype limits <? zlen (upvalues p))
    (limit 0 "RVLU upvalue 數超過限制");;
  run_writer bound
    (write_counted write_binding_register (binding_registers p) "RVLU binding metadata 過大";;
     write_counted write_upvalue (upvalues p) "RVLU upvalue metadata 過大";;
     write_counted write_close_path (close_paths p) "RVLU close metadata 過大").

Definition write_named_vararg (v : option (BytecodeBindingId * Register))
    : ST Writer BytecodeError unit :=
  match v with
  | Some (binding, register) => write_u8 1;; write_binding binding;; write_u16 register
  | None => write_u8 0
  end.

Definition encode_prototype (p : BytecodePrototype) (limits : VerifyLimits) (bound : option Z)
    : res BytecodeError (list Z) :=
  run_writer bound
    (write_u32 (p_id p);;
     write_u32 (p_function p);;
     write_optional_proto (p_parent p);;
     write_span (p_span p);;
     write_u16 (register_count p);;
     write_u16 (parameter_count p);;
     write_u8 (u8_of_bool (is_variadic p));;
     write_named_vararg (named_vararg p);;
     write_frame (frame p);;
     write_u16 (global_environment p);;
     write_binding (global_environment_binding p);;
     bytes ← lift (encode_constants (constants p) limits bound);
     write_section bytes "RVLU constants section 太大";;
     bytes ← lift (encode_instructions (instructions p) limits bound);
     write_section bytes "RVLU instructions section 太大";;
     bytes ← lift (encode_metadata p limits bound);
     write_section bytes "RVLU metadata section 太大").

Definition encode_prototype_section (module : BytecodeModule) (limits : VerifyLimits)
    (bound : option Z) : res BytecodeError (list Z) :=
  run_writer bound
    (write_counted (fun p =>
         record ← lift (encode_prototype p limits bound);
         write_section record "RVLU prototype record 太大")
       (prototypes module) "RVLU prototype 數過大").

Definition check_module_bytes (limits : VerifyLimits) : ST Writer BytecodeError unit := fun w =>
  if max_module_bytes limits <? zlen (w_bytes w)
  then (Err (limit 0 "RVLU module bytes 超過限制"), w) else (Ok tt, w).

Definition write_module (module : BytecodeModule) (limits : VerifyLimits) (bound : option Z)
    : ST Writer BytecodeError unit :=
  write_bytes RVLU_MAGIC;;
  write_u16 RVLU_V2;;
  write_u8 (profile_tag (m_profile module));;
  write_u8 (numeric_config module);;
  write_span (m_span module);;
  bytes ← lift (encode_prototype_section module limits bound);
  write_section bytes "RVLU prototype section 太大".

Definition encode_verified_module_bytes_inner (verified : VerifiedModule) (limits : VerifyLimits)
    (bound : option Z) : res BytecodeError (list Z) :=
  run_writer bound
    (write_module (vm_module verified) limits bound;; check_module_bytes limits).

Definition encode_verified_module_bytes (verified : VerifiedModule) (limits : VerifyLimits)
    : res BytecodeError (list Z) := encode_verified_module_bytes_inner verified limits None.

Definition encode_verified_module_bytes_bounded (verified : VerifiedModule)
    (limits : VerifyLimits) (bound : Z) : res BytecodeError (list Z) :=
  encode_verified_module_bytes_inner verified limits (Some bound).

Record EncodedModule := { em_bytes : list Z; em_verified : VerifiedModule }.

Definition encode_module (module : BytecodeModule) (expected_profile : LuaProfile)
    (limits : VerifyLimits) : res BytecodeError EncodedModule :=
  verified ← verify_module module expected_profile limits;
  bytes ← encode_verified_module_bytes verified limits;
  Ok {| em_bytes := bytes; em_verified := verified |}.

(** *** Decoding *)

Definition read_constant : Read BytecodeConstant :=
  tag_offset ← read_location;
  tag ← read_u8;
  match tag with
  | 0 => CInteger <$> read_i64
  | 1 => CFloatBits <$> read_u64
  | 2 => CName <$> read_blob
  | 3 => CString <$> read_blob
  | 4 =>
      flag ← read_u8;
      match flag with
      | 0 => mret (CBoolean false)
      | 1 => mret (CBoolean true)
      | _ => fail (verify tag_offset "RVLU boolean constant 無效")
      end
  | _ => fail (verify tag_offset "RVLU constant tag 無效")
  end.

Definition decode_constants (bytes : list Z) (limits : VerifyLimits) (base : Z)
    : res BytecodeError (list BytecodeConstant) :=
  run_reader
    (read_all
       (read_counted read_constant (max_constants limits) "RVLU constant 數超過限制")
       "RVLU constants section 尾端 bytes 無效") bytes base.

Definition read_optional_close_path (limits : VerifyLimits) : Read (option BytecodeClosePath) :=
  tag ← read_u8;
  match tag with
  | 0 => mret None
  | 1 => Some <$> read_close_path limits
  | _ => fail_before 1 "RVLU instruction close flag 無效"
  end.

(** [!flags] of a byte is [255 - flags]. *)
Definition read_entry (limits : VerifyLimits) : Read BytecodeInstruction :=
  instruction ← read_instruction;
  effect_offset ← read_location;
  encoded_effects ← read_u8;
  if negb (Z.land encoded_effects (255 - KNOWN_FLAGS) =? 0)
  then fail (verify effect_offset "RVLU instruction effect flags 含未知 bit")
  else if negb (encoded_effects =? canonical_effect_flags instruction)
  then fail (verify effect_offset "RVLU instruction effect flags 與 canonical effect 不符")
  else
    span ← read_span;
    close_path ← read_optional_close_path limits;
    mret {| bi_instruction := instruction; bi_span := span; bi_close_path := close_path |}.

Definition decode_instructions (bytes : list Z) (limits : VerifyLimits) (base : Z)
    : res BytecodeError (list BytecodeInstruction) :=
  run_reader
    (read_all
       (read_counted (read_entry limits) (max_instructions limits) "RVLU instruction 數超過限制")
       "RVLU instructions section 尾端 bytes 無效") bytes base.

Definition read_binding_register : Read (BytecodeBindingId * Register) :=
  binding ← read_binding; register ← read_u16; mret (binding, register).

Definition read_upvalue_source : Read BytecodeUpvalueSource :=
  offset ← read_location;
  tag ← read_u8;
  match tag with
  | 0 => FromParentLocal <$> read_binding
  | 1 => FromParentUpvalue <$> read_u16
  | _ => fail (verify offset "RVLU upvalue source 無效")
  end.

Definition read_upvalue : Read BytecodeUpvalue :=
  id ← read_u16; source ← read_upvalue_source; mret {| bu_id := id; bu_source := source |}.

Definition Metadata : Type :=
  list (BytecodeBindingId * Register) * list BytecodeUpvalue * list BytecodeClosePath.

Definition decode_metadata (bytes : list Z) (limits : VerifyLimits) (base : Z)
    : res BytecodeError Metadata :=
  run_reader
    (read_all
       (bindings ← read_counted read_binding_register (max_constants limits)
                     "RVLU binding metadata 超過限制";
        us ← read_counted read_upvalue (max_upvalues_per_prototype limits)
               "RVLU upvalue 數超過限制";
        paths ← read_counted (read_close_path limits) (max_constants limits)
                  "RVLU close metadata 超過限制";
        mret (bindings, us, paths))
       "RVLU metadata section 尾端 bytes 無效") bytes base.

Definition read_named_vararg : Read (option (BytecodeBindingId * Register)) :=
  tag ← read_u8;
  match tag with
  | 0 => mret None
  | 1 => Some <$> read_binding_register
  | _ => fail_before 1 "RVLU named vararg flag 無效"
  end.

Definition decode_prototype (bytes : list Z) (limits : VerifyLimits) (base : Z)
    : res BytecodeError BytecodePrototype :=
  run_reader
    (read_all
       (id ← read_u32;
        function ← read_u32;
        parent ← read_optional_proto;
        span ← read_span;
        register_count ← read_u16;
        parameter_count ← read_u16;
        is_variadic ← read_flag "RVLU vararg flag 無效";
        named_vararg ← read_named_vararg;
        frame ← read_frame;
        global_environment ← read_u16;
        global_environment_binding ← read_binding;
        section ← read_section;
        constants ← lift (decode_constants (s_bytes section) limits (s_start section));
        section ← read_section;
        instructions ← lift (decode_instructions (s_bytes section) limits (s_start section));
        section ← read_section;
        metadata ← lift (decode_metadata (s_bytes section) limits (s_start section));
        mret {| p_id := id; p_function := function; p_parent := parent; p_span := span;
                register_count := register_count; parameter_count := parameter_count;
                is_variadic := is_variadic; named_vararg := named_vararg; frame := frame;
                global_environment := global_environment;
                global_environment_binding := global_environment_binding;
                binding_registers := metadata.1.1; constants := constants;
                upvalues := metadata.1.2; instructions := instructions;
                close_paths := metadata.2 |})
       "RVLU prototype record 尾端 bytes 無效") bytes base.

Definition bounded_limits (limits : VerifyLimits) (instructions constants : Z) : VerifyLimits :=
  {| max_module_bytes := max_module_bytes limits;
     max_artifact_bytes := max_artifact_bytes limits;
     max_prototypes := max_prototypes limits;
     max_instructions := instructions; max_constants := constants;
     max_registers := max_registers limits;
     max_upvalues_per_prototype := max_upvalues_per_prototype limits |}.

(** The loop over the prototype records, with the totals so far. *)
Fixpoint read_prototypes (limits : VerifyLimits) (count : nat) (ti tc : Z)
    : Read (list BytecodePrototype) :=
  match count with
  | O => mret []
  | S count =>
      record ← read_section;
      ri ← lift (remaining (max_instructions limits) ti (s_start record)
                   "RVLU module instruction 總量超過限制");
      rc ← lift (remaining (max_constants limits) tc (s_start record)
                   "RVLU module constant 總量超過限制");
      p ← lift (decode_prototype (s_bytes record) (bounded_limits limits ri rc) (s_start record));
      ti ← lift (match checked_add_usize ti (zlen (instructions p)) with
                 | Some t => Ok t
                 | None => Err (limit (s_start record) "RVLU instruction 總量溢位")
                 end);
      tc ← lift (match checked_add_usize tc (zlen (constants p)) with
                 | Some t => Ok t
                 | None => Err (limit (s_start record) "RVLU constant 總量溢位")
                 end);
      rest ← read_prototypes limits count ti tc;
      mret (p :: rest)
  end.

Definition decode_prototype_section (section : ReadSection) (limits : VerifyLimits)
    : res BytecodeError (list BytecodePrototype) :=
  run_reader
    (read_all
       (count ← read_count (max_prototypes limits) "RVLU prototype 數超過限制";
        read_prototypes limits (Z.to_nat count) 0 0)
       "RVLU prototype section 尾端 bytes 無效") (s_bytes section) (s_start section).

Definition read_module (expected_profile : LuaProfile) (limits : VerifyLimits)
    : Read BytecodeModule :=
  magic ← read_take 4;
  if negb (bool_decide (magic = RVLU_MAGIC)) then fail (verify 0 "RVLU magic 不符")
  else
    version ← read_u16;
    if version =? RVLU_V1 then fail (verify 4 "RVLU v1 語意不完整，明確拒絕")
    else if negb (version =? RVLU_V2) then fail (verify 4 "RVLU format version 不支援")
    else
      tag ← read_u8;
      profile ← lift (parse_profile tag 6);
      if negb (bool_decide (profile = expected_profile)) then fail (verify 6 "RVLU profile 不符")
      else
        config ← read_u8;
        if negb (config =? RVLU_NUMERIC_I64_F64)
        then fail (verify 7 "RVLU numeric configuration 不支援")
        else
          span ← read_span;
          section ← read_section;
          read_end "RVLU module 有未宣告尾端 bytes";;
          ps ← lift (decode_prototype_section section limits);
          mret {| format_version := version; m_profile := profile; numeric_config := config;
                  m_span := span;
                  function_prototypes := map (fun p => (p_function p, p_id p)) ps;
                  prototypes := ps |}.

Definition decode_module (bytes : list Z) (expected_profile : LuaProfile)
    (limits : VerifyLimits) : res BytecodeError VerifiedModule :=
  fail_if (max_module_bytes limits <? zlen bytes) (limit 0 "RVLU module bytes 超過限制");;
  module ← run_reader (read_module expected_profile limits) bytes 0;
  verify_module module expected_profile limits.
End Modules.

Example demo_round_trip :
  (encoded ← @encode_module exact_allocator demo_module Lua55 VerifyLimits_default;
   @decode_module exact_allocator (em_bytes encoded) Lua55 VerifyLimits_default) =
  Ok {| vm_module := demo_module; vm_transport_scan_units := 16 |}.
Proof. vm_compute. reflexivity. Qed.
