(* ===== verification/Wire.v ===== *)
(** The RVLU wire format as a specification, and the codec against it: which
    bytes each part of a module is written as, that the encoder produces them,
    and that the decoder accepts exactly them. *)

From Stdlib Require Import ZArith Lia.
From stdpp Require Import base list numbers strings.
From S2P Require Import Prelude Number Bytecode Verifier Codec.

Local Open Scope Z_scope.

(** ** Readers as relations

    A reader at an offset inside its bytes, and the bytes it has left. *)
Definition rok (r : Reader) : Prop :=
  0 <= r_offset r <= zlen (r_bytes r) /\ zlen (r_bytes r) <= USIZE_MAX /\ Forall u8 (r_bytes r).

Definition rest (r : Reader) : list Z := drop (Z.to_nat (r_offset r)) (r_bytes r).

Definition advance (r : Reader) (n : Z) : Reader :=
  {| r_bytes := r_bytes r; r_base := r_base r; r_offset := r_offset r + n |}.

(** [codec read R]: [read] succeeds exactly when the bytes it has left start
    with an encoding, in [R], of the value it returns, and consumes that
    encoding. *)
Definition codec {A} (read : Read A) (R : A -> list Z -> Prop) : Prop :=
  forall r a r', rok r ->
    (read r = (Ok a, r') <->
     exists bs post, R a bs /\ rest r = bs ++ post /\ r' = advance r (zlen bs)).

Lemma advance_rest r bs post : rok r -> rest r = bs ++ post -> rest (advance r (zlen bs)) = post.
Proof.
  unfold rest, advance. cbn [r_bytes r_offset]. intros [Ho _] H.
  replace (Z.to_nat (r_offset r + zlen bs)) with (Z.to_nat (r_offset r) + length bs)%nat
    by (unfold zlen in *; lia).
  rewrite <- drop_drop, H. apply drop_app_length.
Qed.

Lemma rest_length r bs post : rok r -> rest r = bs ++ post -> r_offset r + zlen bs <= zlen (r_bytes r).
Proof.
  intros [Ho _] H%(f_equal (@length Z)). unfold rest in H.
  rewrite length_drop, length_app in H. unfold zlen in *. lia.
Qed.

Lemma advance_rok r bs post : rok r -> rest r = bs ++ post -> rok (advance r (zlen bs)).
Proof.
  intros Hr H. pose proof (rest_length _ _ _ Hr H). destruct Hr as (Ho & Hl & Hb).
  unfold rok, advance. cbn [r_bytes r_offset]. pose proof (zlen_nonneg bs). split_and!; [lia.. | done].
Qed.

Lemma rest_u8 r bs post : rok r -> rest r = bs ++ post -> Forall u8 bs.
Proof.
  intros (_ & _ & Hb) H. apply (Forall_drop _ (Z.to_nat (r_offset r))) in Hb.
  unfold rest in H. rewrite H in Hb. by apply Forall_app in Hb as [].
Qed.

Lemma advance_0 r : advance r (zlen (@nil Z)) = r.
Proof. destruct r. unfold advance. cbn. f_equal. rewrite zlen_nil. lia. Qed.

Lemma advance_advance r (bs1 bs2 : list Z) :
  advance (advance r (zlen bs1)) (zlen bs2) = advance r (zlen (bs1 ++ bs2)).
Proof. unfold advance. cbn. f_equal. rewrite zlen_app. lia. Qed.

Section codec_rules.
Context {A B : Type}.

Lemma codec_iff (read : Read A) (R R' : A -> list Z -> Prop) :
  codec read R -> (forall a bs, Forall u8 bs -> R a bs <-> R' a bs) -> codec read R'.
Proof.
  intros Hc HR r a r' Hr. rewrite (Hc r a r' Hr). split; intros (bs & post & Ha & He & ->);
    exists bs, post; (split_and!; [| done..]); apply HR; eauto using rest_u8.
Qed.

Lemma codec_ret (x : A) : codec (mret x) (fun a bs => a = x /\ bs = []).
Proof.
  intros r a r' Hr. split.
  - intros [= <- <-]. exists [], (rest r). by rewrite advance_0.
  - intros (bs & post & [-> ->] & _ & ->). by rewrite advance_0.
Qed.

Lemma codec_fail (e : BytecodeError) : codec (fail e : Read A) (fun _ _ => False).
Proof. intros r a r' _. split; [done | by intros (? & ? & [] & _)]. Qed.

Lemma codec_fail_before back message : codec (fail_before back message : Read A) (fun _ _ => False).
Proof. intros r a r' _. split; [done | by intros (? & ? & [] & _)]. Qed.

(** An early return. *)
Lemma codec_guard (b : bool) (e : BytecodeError) (read : Read A) R :
  codec read R -> codec (if b then fail e else read) (fun a bs => b = false /\ R a bs).
Proof.
  intros H. destruct b; (eapply codec_iff; [first [apply codec_fail | exact H] |]);
    intros; intuition congruence.
Qed.

Lemma codec_guard_before (b : bool) back message (read : Read A) R :
  codec read R -> codec (if b then fail_before back message else read) (fun a bs => b = false /\ R a bs).
Proof.
  intros H. destruct b; (eapply codec_iff; [first [apply codec_fail_before | exact H] |]);
    intros; intuition congruence.
Qed.

Lemma codec_lift (x : res BytecodeError A) :
  codec (lift x) (fun a bs => x = Ok a /\ bs = []).
Proof.
  intros r a r' _. unfold lift. split.
  - intros [= -> <-]. exists [], (rest r). by rewrite advance_0.
  - intros (bs & post & [-> ->] & _ & ->). by rewrite advance_0.
Qed.

Lemma codec_bind (read : Read A) (k : A -> Read B) R1 R2 :
  codec read R1 -> (forall a, codec (k a) (R2 a)) ->
  codec (read ≫= k) (fun b bs => exists a bs1 bs2, R1 a bs1 /\ R2 a b bs2 /\ bs = bs1 ++ bs2).
Proof.
  intros H1 H2 r b r' Hr. rewrite bind_Ok. split.
  - intros (a & r1 & Ha & Hb). apply H1 in Ha as (bs1 & post1 & Ra & He1 & ->); [| done].
    apply H2 in Hb as (bs2 & post2 & Rb & He2 & ->); [| by eapply advance_rok].
    rewrite (advance_rest _ _ _ Hr He1) in He2. subst post1.
    exists (bs1 ++ bs2), post2. rewrite <- app_assoc. split_and!; [| done | by rewrite advance_advance].
    eauto 10.
  - intros (bs & post & (a & bs1 & bs2 & Ra & Rb & ->) & He & ->).
    rewrite <- app_assoc in He.
    exists a, (advance r (zlen bs1)). split; [apply H1; eauto 10 |].
    apply H2; [by eapply advance_rok |]. exists bs2, post.
    split_and!; [done | by eapply advance_rest | by rewrite advance_advance].
Qed.

(** The location is only used in errors. *)
Lemma codec_location (k : Z -> Read B) R :
  (forall l, codec (k l) R) -> codec (read_location ≫= k) R.
Proof. intros H r b r' Hr. by apply (H (location r)). Qed.

Lemma codec_fmap (read : Read A) (f : A -> B) R :
  codec read R -> codec (f <$> read) (fun b bs => exists a, R a bs /\ b = f a).
Proof.
  intros H r b r' Hr. unfold fmap, st_fmap. split.
  - destruct (read r) as [[a | e | c] r1] eqn:He; intros [= <- <-].
    apply H in He as (bs & post & Ra & Hrest & ->); [| done]. eauto 10.
  - intros (bs & post & (a & Ra & ->) & Hrest & ->).
    by rewrite (proj2 (H r a _ Hr)) by eauto 10.
Qed.
End codec_rules.

Lemma codec_take n : 0 <= n -> codec (read_take n) (fun a bs => a = bs /\ zlen bs = n).
Proof.
  intros Hn r a r' Hr. pose proof Hr as (Ho & Hl & _). unfold read_take, checked_add_usize, slice. split.
  - destruct (_ <=? USIZE_MAX); [| done].
    destruct (_ && _) eqn:Hb; [| done]. bool_hyps. intros [= <- <-].
    exists (take (Z.to_nat n) (rest r)), (drop (Z.to_nat n) (rest r)).
    assert (zlen (take (Z.to_nat n) (rest r)) = n) as Hz.
    { unfold zlen, rest in *. rewrite length_take, length_drop. lia. }
    rewrite take_drop. unfold rest, advance in *. split_and!; [| done | done | by rewrite Hz].
    f_equal. lia.
  - intros (bs & post & [-> Hz] & He & ->).
    pose proof (rest_length _ _ _ Hr He). rewrite Hz in *.
    replace (r_offset r + n <=? USIZE_MAX) with true by lia.
    replace ((r_offset r <=? r_offset r + n) && (r_offset r + n <=? zlen (r_bytes r))) with true by lia.
    change (drop (Z.to_nat (r_offset r)) (r_bytes r)) with (rest r). rewrite He.
    replace (Z.to_nat (r_offset r + n - r_offset r)) with (length bs) by (unfold zlen in *; lia).
    by rewrite take_app_length.
Qed.

(** ** Integers *)

(** An [n]-byte unsigned integer and its encoding. *)
Definition wire_int (n : nat) (v : Z) (bs : list Z) : Prop :=
  0 <= v < 2 ^ (8 * Z.of_nat n) /\ bs = le_bytes n v.

Lemma codec_int n : codec (le_val <$> read_take (Z.of_nat n)) (wire_int n).
Proof.
  eapply codec_iff; [apply codec_fmap, codec_take; lia |].
  intros v bs Hb. unfold wire_int. split.
  - intros (bs' & [-> Hl] & ->). pose proof (le_val_range bs Hb) as Hr. rewrite Hl in Hr.
    split; [done |]. replace n with (length bs) by (unfold zlen in Hl; lia). by rewrite le_bytes_val.
  - intros [Hv ->]. exists (le_bytes n v). rewrite le_val_bytes, zlen_le_bytes.
    by rewrite Z.mod_small.
Qed.

Definition wire_u8 (v : Z) (bs : list Z) : Prop := u8 v /\ bs = [v].
Definition wire_u16 (v : Z) (bs : list Z) : Prop := u16 v /\ bs = le_bytes 2 v.
Definition wire_u32 (v : Z) (bs : list Z) : Prop := u32 v /\ bs = le_bytes 4 v.
Definition wire_u64 (v : Z) (bs : list Z) : Prop := u64 v /\ bs = le_bytes 8 v.
Definition wire_i64 (v : Z) (bs : list Z) : Prop := i64 v /\ bs = le_bytes 8 (wrap_u64 v).

Lemma codec_u8 : codec read_u8 wire_u8.
Proof.
  eapply codec_iff; [apply (codec_int 1) |]. intros v bs _. unfold wire_int, wire_u8.
  change (2 ^ (8 * Z.of_nat 1)) with 256. cbn [le_bytes].
  split; intros [Hv ->]; (split; [range_lia |]); by rewrite Z.mod_small by range_lia.
Qed.
Lemma codec_u16 : codec read_u16 wire_u16.
Proof.
  eapply codec_iff; [apply (codec_int 2) |]. intros v bs _. unfold wire_int, wire_u16.
  change (2 ^ (8 * Z.of_nat 2)) with 65536. split; intros [Hv ->]; (split; [range_lia | done]).
Qed.
Lemma codec_u32 : codec read_u32 wire_u32.
Proof.
  eapply codec_iff; [apply (codec_int 4) |]. intros v bs _. unfold wire_int, wire_u32.
  change (2 ^ (8 * Z.of_nat 4)) with 4294967296. split; intros [Hv ->]; (split; [range_lia | done]).
Qed.
Lemma codec_u64 : codec read_u64 wire_u64.
Proof.
  eapply codec_iff; [apply (codec_int 8) |]. intros v bs _. unfold wire_int, wire_u64.
  change (2 ^ (8 * Z.of_nat 8)) with 18446744073709551616.
  split; intros [Hv ->]; (split; [range_lia | done]).
Qed.
Lemma codec_i64 : codec read_i64 wire_i64.
Proof.
  unfold read_i64. eapply codec_iff; [apply codec_fmap, codec_take; lia |].
  intros v bs Hb. unfold wire_i64. split.
  - intros (bs' & [-> Hl] & ->). pose proof (le_val_range bs Hb) as Hr. rewrite Hl in Hr.
    split; [apply wrap_i64_range |]. rewrite wrap_u64_i64.
    rewrite wrap_u64_id by (unfold u64, U64_MAX; lia).
    replace 8%nat with (length bs) by (unfold zlen in Hl; lia). by rewrite le_bytes_val.
  - intros [Hv ->]. exists (le_bytes 8 (wrap_u64 v)). rewrite le_val_bytes, zlen_le_bytes.
    pose proof (wrap_u64_range v). split; [done |]. rewrite Z.mod_small by range_lia.
    by rewrite wrap_i64_u64, wrap_i64_id.
Qed.

(** ** Sections, counts and lists *)

Lemma codec_count limit_value message :
  codec (read_count limit_value message) (fun c bs => wire_u32 c bs /\ c <= limit_value).
Proof.
  apply codec_location. intros offset.
  eapply codec_iff; [apply (codec_bind read_u32 _ wire_u32
    (fun count c bs => (c = count /\ bs = []) /\ count <= limit_value)); [apply codec_u32 |] |].
  - intros count. destruct (Z.ltb_spec limit_value count).
    + eapply codec_iff; [apply codec_fail |]. intros a bs _. split; [done | lia].
    + eapply codec_iff; [apply codec_ret |]. intros a bs _. tauto.
  - intros c bs _. split.
    + intros (c' & bs1 & bs2 & Hw & [[-> ->] Hl] & ->). by rewrite app_nil_r.
    + intros [Hw Hl]. exists c, bs, []. by rewrite app_nil_r.
Qed.

Definition wire_blob (v : list Z) (bs : list Z) : Prop :=
  zlen v <= U32_MAX /\ Forall u8 v /\ bs = le_bytes 4 (zlen v) ++ v.

Lemma codec_blob : codec read_blob wire_blob.
Proof.
  eapply codec_iff; [eapply codec_bind; [apply codec_u32 |] |].
  - intros len. apply (codec_iff _ (fun a bs => 0 <= len /\ a = bs /\ zlen bs = len)).
    + intros r a r' Hr. destruct (Z.ltb_spec len 0).
      * split; [| by intros (? & ? & (? & _) & _); lia].
        unfold read_take, checked_add_usize, slice. destruct (_ <=? USIZE_MAX); [| done].
        replace (r_offset r <=? r_offset r + len) with false by lia. done.
      * rewrite (codec_take len H r a r' Hr). split; intros (bs & post & Hp & ?); exists bs, post; tauto.
    + intros a bs _. exact (iff_refl _).
  - intros v bs Hb. unfold wire_blob, wire_u32. cbn beta. split.
    + intros (len & bs1 & bs2 & [Hl ->] & (_ & -> & <-) & ->). apply Forall_app in Hb as [_ Hb].
      split_and!; [range_lia | done | done].
    + intros (Hl & Hv & ->). exists (zlen v), (le_bytes 4 (zlen v)), v.
      pose proof (zlen_nonneg v). split_and!; try done; range_lia.
Qed.

(** A reader that accepts exactly the values of [ok], in the form [wire]. *)
Abbreviation reads read ok wire := (codec read (fun a bs => ok a /\ bs = wire a)).

Lemma codec_n {A} (read : Read A) ok wire n :
  reads read ok wire ->
  codec (read_n read n) (fun l bs => length l = n /\ Forall ok l /\ bs = concat (map wire l)).
Proof.
  intros H. induction n as [| n IH]; cbn [read_n].
  - eapply codec_iff; [apply codec_ret |]. intros l bs _. split.
    + intros [-> ->]. by repeat constructor.
    + intros (Hl & _ & ->). by destruct l.
  - eapply codec_iff.
    { eapply codec_bind; [exact H | intros x]. eapply codec_bind; [exact IH | intros l]. apply codec_ret. }
    intros l bs _. cbn beta. split.
    + intros (x & bs1 & bs2 & [Hx ->] & (l' & bs3 & bs4 & (Hl & Ho & ->) & [-> ->] & ->) & ->).
      rewrite app_nil_r. cbn [length map concat]. split_and!; [lia | by constructor | done].
    + intros (Hl & Ho & ->). destruct l as [| x l]; [done |]. apply Forall_cons in Ho as [Hx Ho].
      exists x, (wire x), (concat (map wire l)). split_and!; [done | done | | done].
      exists l, (concat (map wire l)), []. rewrite app_nil_r. cbn in Hl. split_and!; try done; lia.
Qed.

Definition wire_list {A} (wire : A -> list Z) (l : list A) : list Z :=
  le_bytes 4 (zlen l) ++ concat (map wire l).

Lemma wire_list_eq {A} (wire : A -> list Z) l :
  wire_list wire l = le_bytes 4 (zlen l) ++ concat (map wire l).
Proof. done. Qed.

Lemma codec_counted {A} (read : Read A) ok wire limit_value message :
  reads read ok wire ->
  codec (read_counted read limit_value message)
    (fun l bs => (zlen l <= limit_value /\ zlen l <= U32_MAX /\ Forall ok l) /\ bs = wire_list wire l).
Proof.
  intros H. eapply codec_iff.
  { eapply codec_bind; [apply codec_count | intros count]. apply (codec_n read ok wire _ H). }
  intros l bs _. cbn beta. unfold wire_u32, wire_list. split.
  - intros (c & bs1 & bs2 & [[Hc ->] Hl] & (Hn & Ho & ->) & ->).
    assert (c = zlen l) as -> by (unfold zlen; range_lia). split_and!; try done; range_lia.
  - intros ((Hl & Hu & Ho) & ->). pose proof (zlen_nonneg l).
    eexists (zlen l), _, _. split_and!; [range_lia | done | done | | done | done | done].
    unfold zlen. lia.
Qed.

(** A section is its length and its bytes; it also tells where the bytes
    start. *)
Lemma read_section_Ok r s r1 :
  rok r ->
  read_section r = (Ok s, r1) <->
  exists bs post, wire_blob (s_bytes s) bs /\ rest r = bs ++ post /\ r1 = advance r (zlen bs) /\
    s_start s = location (advance r 4).
Proof.
  intros Hr. pose proof (codec_blob r) as Hblob. unfold read_section. split.
    - intros (len & r2 & Hlen & (st & r3 & [= <- <-] & (bytes & r4 & Hb & [= <- <-])%bind_Ok)%bind_Ok)%bind_Ok.
      assert (read_blob r = (Ok bytes, r4)) as Hbl by (apply bind_Ok; eauto).
      apply Hblob in Hbl as (bs & post & Hw & He & ->); [| done]. exists bs, post. split_and!; [done.. |].
      apply codec_u32 in Hlen as (bs1 & post1 & [_ ->] & _ & ->); [| done]. by rewrite zlen_le_bytes.
    - intros (bs & post & Hw & He & -> & Hst). destruct s as [bytes st]. cbn in *.
      assert (read_blob r = (Ok bytes, advance r (zlen bs))) as Hbl by (apply Hblob; eauto).
      apply bind_Ok in Hbl as (len & r2 & Hlen & Hb).
      pose proof Hlen as Hl2. apply codec_u32 in Hl2 as (bs1 & post1 & [_ ->] & _ & Hr2); [| done].
      rewrite zlen_le_bytes in Hr2.
      apply bind_Ok. exists len, r2. split; [done |]. apply bind_Ok. exists (location r2), r2.
      split; [done |]. apply bind_Ok. exists bytes, (advance r (zlen bs)). split; [done |].
      by subst.
Qed.

Lemma codec_section {B} (k : ReadSection -> Read B) (R : list Z -> B -> list Z -> Prop) :
  (forall bytes start, Forall u8 bytes -> zlen bytes <= U32_MAX ->
     codec (k {| s_bytes := bytes; s_start := start |}) (R bytes)) ->
  codec (read_section ≫= k) (fun b bs => exists body bs2,
    (zlen body <= U32_MAX /\ Forall u8 body) /\ R body b bs2 /\
    bs = (le_bytes 4 (zlen body) ++ body) ++ bs2).
Proof.
  intros H r b r' Hr. rewrite bind_Ok.
  pose proof (fun s r1 => read_section_Ok r s r1 Hr) as Hs.
  split.
  - intros (s & r1 & (bs & post & (Hl & Hu & ->) & He & -> & Hst)%Hs & Hk).
    destruct s as [bytes st]. cbn [s_bytes s_start] in *.
    apply (H bytes st Hu Hl) in Hk as (bs2 & post2 & HR & He2 & ->); [| by eapply advance_rok].
    rewrite (advance_rest _ _ _ Hr He) in He2. subst post.
    exists ((le_bytes 4 (zlen bytes) ++ bytes) ++ bs2), post2. rewrite <- !app_assoc in *.
    split_and!; [| done | by rewrite advance_advance, <- !app_assoc].
    exists bytes, bs2. by rewrite <- !app_assoc.
  - intros (bs & post & (body & bs2 & [Hl Hu] & HR & ->) & He & ->).
    rewrite <- (app_assoc _ bs2 post) in He.
    exists {| s_bytes := body; s_start := location (advance r 4) |},
      (advance r (zlen (le_bytes 4 (zlen body) ++ body))). split.
    + apply Hs.
      exists (le_bytes 4 (zlen body) ++ body), (bs2 ++ post). by split_and!.
    + apply (H body _ Hu Hl); [by eapply advance_rok |].
      exists bs2, post. split_and!; [done | by eapply advance_rest | by rewrite advance_advance].
Qed.

(** A whole buffer decoded by [read_all]. *)
Lemma run_read_all {A} (m : Read A) R message bytes base a :
  codec m R -> Forall u8 bytes -> zlen bytes <= USIZE_MAX ->
  run_reader (read_all m message) bytes base = Ok a <-> R a bytes.
Proof.
  intros Hm Hb Hl. unfold run_reader, read_all.
  assert (rok (new_at bytes base)) as Hr.
  { unfold rok, new_at. cbn. pose proof (zlen_nonneg bytes). split_and!; [lia.. | done]. }
  assert (rest (new_at bytes base) = bytes) as He by done.
  assert (forall bs : list Z, is_empty (advance (new_at bytes base) (zlen bs)) = (zlen bs =? zlen bytes)) as Hemp by done.
  split.
  - destruct ((m ≫= _) (new_at bytes base)) as [[x | |] r'] eqn:Hx; intros [= ->].
    apply bind_Ok in Hx as (x & r1 & Ha & Hx). apply bind_Ok in Hx as ([] & r2 & Hend & [= -> ->]).
    apply Hm in Ha as (bs & post & HR & Hrest & ->); [| done]. rewrite He in Hrest.
    unfold read_end in Hend. rewrite Hemp in Hend.
    destruct (Z.eqb_spec (zlen bs) (zlen bytes)) as [Hz |]; [| done].
    assert (post = []) as ->.
    { subst bytes. rewrite zlen_app in Hz. destruct post; [done |]. rewrite zlen_cons in Hz.
      pose proof (zlen_nonneg post). lia. }
    rewrite app_nil_r in Hrest. by subst.
  - intros HR. assert (m (new_at bytes base) = (Ok a, advance (new_at bytes base) (zlen bytes))) as Ha.
    { apply Hm; [done |]. exists bytes, []. by rewrite app_nil_r. }
    unfold mbind, st_bind. rewrite Ha. unfold read_end. rewrite Hemp, Z.eqb_refl. done.
Qed.

(** ** The wire format *)

Definition span_ok (s : BytecodeSpan) : Prop :=
  u64 (start_byte s) /\ u64 (end_byte s) /\ start_byte s <= end_byte s.
Definition wire_span (s : BytecodeSpan) : list Z := le_bytes 8 (start_byte s) ++ le_bytes 8 (end_byte s).

Definition binding_ok (b : BytecodeBindingId) : Prop := u32 (bb_function b) /\ u32 (bb_ordinal b).
Definition wire_binding (b : BytecodeBindingId) : list Z :=
  le_bytes 4 (bb_function b) ++ le_bytes 4 (bb_ordinal b).

Definition option_ok {A} (ok : A -> Prop) (o : option A) : Prop :=
  match o with Some x => ok x | None => True end.
Definition wire_option {A} (wire : A -> list Z) (o : option A) : list Z :=
  match o with Some x => 1 :: wire x | None => [0] end.

Definition wire_mode (m : ResultMode) : list Z :=
  match m with Fixed count => 0 :: le_bytes 2 count | All => [1] end.

Definition instruction_tag (i : Instruction) : Z :=
  match i with
  | LoadConst _ _ => 0 | LoadNil _ _ => 1 | Move _ _ => 2 | GetUpvalue _ _ => 3
  | SetUpvalue _ _ => 4 | NewTable _ => 5 | GetTable _ _ _ => 6 | SetTable _ _ _ => 7
  | UnaryOp _ _ _ => 8 | BinaryOp _ _ _ _ => 9 | Jump _ => 10 | JumpIfFalse _ _ => 11
  | Closure _ _ => 12 | Call _ _ _ => 13 | TailCall _ _ _ => 14 | Vararg _ _ => 15
  | Return _ _ => 16 | Close _ _ => 17 | NumericForPrepare _ _ _ _ _ => 18
  | NumericForNext _ _ _ _ _ _ => 19
  end.

Definition wire_operands (i : Instruction) : list Z :=
  match i with
  | LoadConst a b | JumpIfFalse a b | Closure a b => le_bytes 2 a ++ le_bytes 4 b
  | LoadNil a b | Move a b | GetUpvalue a b | SetUpvalue a b | Close a b => le_bytes 2 a ++ le_bytes 2 b
  | NewTable a => le_bytes 2 a
  | GetTable a b c | SetTable a b c => le_bytes 2 a ++ le_bytes 2 b ++ le_bytes 2 c
  | UnaryOp a op b => le_bytes 2 a ++ [unary_tag op] ++ le_bytes 2 b
  | BinaryOp a op b c => le_bytes 2 a ++ [binary_tag op] ++ le_bytes 2 b ++ le_bytes 2 c
  | Jump t => le_bytes 4 t
  | Call a n m | TailCall a n m => le_bytes 2 a ++ le_bytes 2 n ++ wire_mode m
  | Vararg a m | Return a m => le_bytes 2 a ++ wire_mode m
  | NumericForPrepare a b c d t =>
      le_bytes 2 a ++ le_bytes 2 b ++ le_bytes 2 c ++ le_bytes 2 d ++ le_bytes 4 t
  | NumericForNext a b c d t u =>
      le_bytes 2 a ++ le_bytes 2 b ++ le_bytes 2 c ++ le_bytes 2 d ++ le_bytes 4 t ++ le_bytes 4 u
  end.

Definition wire_instruction (i : Instruction) : list Z := instruction_tag i :: wire_operands i.

Definition source_ok (s : EnvironmentSource) : Prop :=
  match s with
  | RootExternal => True
  | ParentFrame parent register => u32 parent /\ u16 register
  | ParentLocal upvalue | ParentUpvalue upvalue => u16 upvalue
  end.
Definition wire_source (s : EnvironmentSource) : list Z :=
  match s with
  | RootExternal => [0]
  | ParentFrame parent register => 1 :: le_bytes 4 parent ++ le_bytes 2 register
  | ParentLocal upvalue => 2 :: le_bytes 2 upvalue
  | ParentUpvalue upvalue => 3 :: le_bytes 2 upvalue
  end.

Definition frame_ok (f : FrameLayout) : Prop :=
  u16 (register_limit f) /\ u16 (initial_top f) /\ u16 (dynamic_top f) /\ u16 (return_base f) /\
  u16 (environment f) /\ source_ok (environment_source f).
Definition wire_frame (f : FrameLayout) : list Z :=
  le_bytes 2 (register_limit f) ++ le_bytes 2 (initial_top f) ++ le_bytes 2 (dynamic_top f) ++
  le_bytes 2 (return_base f) ++ le_bytes 2 (environment f) ++ wire_source (environment_source f) ++
  [u8_of_bool (registers_start_as_nil f)].

(** A close path in its machine ranges, and the limits a reader puts on it. *)
Definition path_ok (limits : VerifyLimits) (c : BytecodeClosePath) : Prop :=
  span_ok (cp_span c) /\ u32 (from_scope c) /\ option_ok u32 (target_scope c) /\
  Forall binding_ok (cp_bindings c) /\ Forall u16 (cp_registers c) /\
  zlen (cp_bindings c) = zlen (cp_registers c) /\ zlen (cp_bindings c) <= U32_MAX /\
  zlen (cp_bindings c) <= max_constants limits /\ zlen (cp_registers c) <= max_registers limits.
Definition wire_path (c : BytecodeClosePath) : list Z :=
  exit_tag (cp_kind c) :: wire_span (cp_span c) ++ le_bytes 4 (from_scope c) ++
  wire_option (le_bytes 4) (target_scope c) ++
  wire_list wire_binding (cp_bindings c) ++ wire_list (le_bytes 2) (cp_registers c).

Definition constant_ok (c : BytecodeConstant) : Prop :=
  match c with
  | CInteger n => i64 n
  | CFloatBits bits => u64 bits
  | CName v | CString v => zlen v <= U32_MAX /\ Forall u8 v
  | CBoolean _ => True
  end.
Definition wire_constant (c : BytecodeConstant) : list Z :=
  match c with
  | CInteger n => 0 :: le_bytes 8 (wrap_u64 n)
  | CFloatBits bits => 1 :: le_bytes 8 bits
  | CName v => 2 :: le_bytes 4 (zlen v) ++ v
  | CString v => 3 :: le_bytes 4 (zlen v) ++ v
  | CBoolean b => [4; u8_of_bool b]
  end.

Definition entry_ok (limits : VerifyLimits) (e : BytecodeInstruction) : Prop :=
  operands_ok (bi_instruction e) /\ span_ok (bi_span e) /\ option_ok (path_ok limits) (bi_close_path e).
Definition wire_entry (e : BytecodeInstruction) : list Z :=
  wire_instruction (bi_instruction e) ++ [canonical_effect_flags (bi_instruction e)] ++
  wire_span (bi_span e) ++ wire_option wire_path (bi_close_path e).

Definition binding_register_ok (br : BytecodeBindingId * Register) : Prop := binding_ok br.1 /\ u16 br.2.
Definition wire_binding_register (br : BytecodeBindingId * Register) : list Z :=
  wire_binding br.1 ++ le_bytes 2 br.2.

Definition upvalue_source_ok (s : BytecodeUpvalueSource) : Prop :=
  match s with FromParentLocal b => binding_ok b | FromParentUpvalue up => u16 up end.
Definition wire_upvalue_source (s : BytecodeUpvalueSource) : list Z :=
  match s with FromParentLocal b => 0 :: wire_binding b | FromParentUpvalue up => 1 :: le_bytes 2 up end.

Definition upvalue_ok (u : BytecodeUpvalue) : Prop := u16 (bu_id u) /\ upvalue_source_ok (bu_source u).
Definition wire_upvalue (u : BytecodeUpvalue) : list Z :=
  le_bytes 2 (bu_id u) ++ wire_upvalue_source (bu_source u).

(** A length-prefixed section. *)
Definition wire_section (body : list Z) : list Z := le_bytes 4 (zlen body) ++ body.

Definition wire_metadata (p : BytecodePrototype) : list Z :=
  wire_list wire_binding_register (binding_registers p) ++ wire_list wire_upvalue (upvalues p) ++
  wire_list wire_path (close_paths p).

Definition wire_prototype (p : BytecodePrototype) : list Z :=
  le_bytes 4 (p_id p) ++ le_bytes 4 (p_function p) ++ wire_option (le_bytes 4) (p_parent p) ++
  wire_span (p_span p) ++ le_bytes 2 (register_count p) ++ le_bytes 2 (parameter_count p) ++
  [u8_of_bool (is_variadic p)] ++ wire_option wire_binding_register (named_vararg p) ++
  wire_frame (frame p) ++ le_bytes 2 (global_environment p) ++
  wire_binding (global_environment_binding p) ++
  wire_section (wire_list wire_constant (constants p)) ++
  wire_section (wire_list wire_entry (instructions p)) ++
  wire_section (wire_metadata p).

Definition wire_module (m : BytecodeModule) : list Z :=
  RVLU_MAGIC ++ le_bytes 2 RVLU_V2 ++ [profile_tag (m_profile m)] ++ [numeric_config m] ++
  wire_span (m_span m) ++
  wire_section (wire_list (fun p => wire_section (wire_prototype p)) (prototypes m)).

(** ** Tags *)

Lemma unary_tag_spec tag offset op : parse_unary tag offset = Ok op <-> tag = unary_tag op.
Proof.
  split; [| by intros ->; destruct op].
  unfold parse_unary. repeat case_match; intros; simplify_eq; done.
Qed.
Lemma binary_tag_spec tag offset op : parse_binary tag offset = Ok op <-> tag = binary_tag op.
Proof.
  split; [| by intros ->; destruct op].
  unfold parse_binary. repeat case_match; intros; simplify_eq; done.
Qed.
Lemma exit_tag_spec tag offset kind : parse_exit tag offset = Ok kind <-> tag = exit_tag kind.
Proof.
  split; [| by intros ->; destruct kind].
  unfold parse_exit. repeat case_match; intros; simplify_eq; done.
Qed.
Lemma profile_tag_spec tag offset p : parse_profile tag offset = Ok p <-> tag = profile_tag p.
Proof.
  split; [| by intros ->; destruct p].
  unfold parse_profile. repeat case_match; intros; simplify_eq; done.
Qed.

Lemma unary_tag_u8 op : u8 (unary_tag op).
Proof. destruct op; vm_compute; split; discriminate. Qed.
Lemma binary_tag_u8 op : u8 (binary_tag op).
Proof. destruct op; vm_compute; split; discriminate. Qed.
Lemma exit_tag_u8 kind : u8 (exit_tag kind).
Proof. destruct kind; vm_compute; split; discriminate. Qed.
#[export] Hint Resolve unary_tag_u8 binary_tag_u8 exit_tag_u8 : rivet.

(** ** Each reader accepts exactly its part of the format *)

Create HintDb codec.
#[export] Hint Resolve codec_u8 codec_u16 codec_u32 codec_u64 codec_i64 codec_blob : codec.

(** Follows a straight-line reader, building its relation. *)
Ltac codec_steps :=
  repeat lazymatch goal with
    | |- codec (mret _) _ => apply codec_ret
    | |- codec (fail _) _ => apply codec_fail
    | |- codec (fail_before _ _) _ => apply codec_fail_before
    | |- codec (lift _) _ => apply codec_lift
    | |- codec (if _ then fail _ else _) _ => apply codec_guard
    | |- codec (if _ then fail_before _ _ else _) _ => apply codec_guard_before
    | |- codec (_ <$> _) _ => eapply codec_fmap
    | |- codec (read_counted _ _ _) _ => eapply codec_counted
    | |- codec (read_location ≫= _) _ => apply codec_location; intros ?
    | |- codec (read_section ≫= _) _ => fail
    | |- codec (_ ≫= _) _ => eapply codec_bind; [| intros ?]
    | |- codec _ _ => solve [eauto 1 with codec nocore]
    end.

(** Takes a built relation apart. *)
Ltac wire_elim :=
  cbn [wire_option option_ok wire_mode mode_ok wire_source source_ok instruction_tag
       wire_operands operands_ok wire_constant constant_ok wire_upvalue_source upvalue_source_ok] in *;
  unfold wire_u8, wire_u16, wire_u32, wire_u64, wire_i64, wire_blob in *;
  repeat match goal with
    | H : exists _, _ |- _ => destruct H
    | H : _ /\ _ |- _ => destruct H
    | H : parse_unary _ _ = Ok _ |- _ => apply unary_tag_spec in H
    | H : parse_binary _ _ = Ok _ |- _ => apply binary_tag_spec in H
    | H : parse_exit _ _ = Ok _ |- _ => apply exit_tag_spec in H
    end; simplify_eq; rewrite ?app_nil_r, <- ?app_assoc in *.

(** Builds a relation from its value: opens it into its parts, lets the
    equations fix them, and checks their ranges. *)
Ltac wire_open :=
  cbn [wire_option option_ok wire_mode mode_ok wire_source source_ok instruction_tag
       wire_operands operands_ok wire_constant constant_ok wire_upvalue_source upvalue_source_ok];
  unfold wire_u8, wire_u16, wire_u32, wire_u64, wire_i64, wire_blob;
  repeat lazymatch goal with
    | |- exists _, _ => eexists
    | |- _ /\ _ => split
    end.
Ltac wire_close :=
  lazymatch goal with
  | |- parse_unary _ _ = _ => apply unary_tag_spec; reflexivity
  | |- parse_binary _ _ = _ => apply binary_tag_spec; reflexivity
  | |- parse_exit _ _ = _ => apply exit_tag_spec; reflexivity
  | |- @eq (list Z) ?x ?y => first [has_evar x; reflexivity | has_evar y; reflexivity | idtac]
  | |- _ = _ => try reflexivity
  | _ => idtac
  end;
  try eassumption; try solve [auto with rivet];
  rewrite ?app_nil_r, <- ?app_assoc; try done.
Ltac wire_intro := wire_open; wire_close.

Lemma codec_span : reads read_span span_ok wire_span.
Proof.
  unfold read_span. eapply codec_iff; [codec_steps |].
  intros s bs _. unfold span_ok, wire_span. split; intros; wire_elim; cbn [start_byte end_byte].
  - split_and!; try done. lia.
  - destruct s. wire_intro. cbn in *. lia.
Qed.
#[export] Hint Resolve codec_span : codec.

Lemma codec_binding : reads read_binding binding_ok wire_binding.
Proof.
  eapply codec_iff; [unfold read_binding; codec_steps |].
  intros b bs _. unfold binding_ok, wire_binding. split; intros; wire_elim; [done |].
  destruct b. wire_intro.
Qed.
#[export] Hint Resolve codec_binding : codec.

(** An optional part behind a flag byte. *)
Lemma codec_option {A} (read : Read A) ok wire message :
  reads read ok wire ->
  reads (tag ← read_u8;
         match tag with
         | 0 => mret None
         | 1 => Some <$> read
         | _ => fail_before 1 message
         end) (option_ok ok) (wire_option wire).
Proof.
  intros H. eapply codec_iff.
  { eapply (codec_bind _ _ _ (fun tag o bs => option_ok ok o /\ tag :: bs = wire_option wire o));
      [codec_steps | intros tag].
    destruct tag as [| [] |]; (eapply codec_iff; [codec_steps; exact H |]);
      intros [x |] bs _; split; intros; wire_elim; try done; wire_intro. }
  intros [x |] bs _; split; intros; wire_elim; try done; wire_intro.
Qed.

Lemma codec_mode : reads read_result_mode mode_ok wire_mode.
Proof.
  eapply codec_iff.
  { eapply (codec_bind _ _ _ (fun tag m bs => mode_ok m /\ tag :: bs = wire_mode m));
      [codec_steps | intros tag].
    destruct tag as [| [] |]; (eapply codec_iff; [codec_steps |]);
      intros [n |] bs _; split; intros; wire_elim; try done; wire_intro. }
  intros [n |] bs _; split; intros; wire_elim; try done; wire_intro; range_lia.
Qed.
#[export] Hint Resolve codec_mode : codec.

Lemma instruction_tag_u8 i : u8 (instruction_tag i).
Proof. destruct i; vm_compute; split; discriminate. Qed.

Lemma codec_instruction : reads read_instruction operands_ok wire_instruction.
Proof.
  unfold read_instruction. apply codec_location. intros offset. eapply codec_iff.
  { eapply (codec_bind _ _ _ (fun tag i bs => operands_ok i /\ tag = instruction_tag i /\ bs = wire_operands i));
      [codec_steps | intros tag].
    repeat case_match; subst;
      (eapply codec_iff; [codec_steps |]);
      intros i bs _; split; intros; wire_elim; try done;
      try (match goal with i : Instruction |- _ => destruct i; try done end; wire_elim; wire_intro).
  }
  intros i bs _. split.
  - intros (t & bs1 & bs2 & [_ ->] & (Ho & -> & ->) & ->). done.
  - intros [Ho ->]. exists (instruction_tag i), [instruction_tag i], (wire_operands i).
    split; [split; [apply instruction_tag_u8 | done] | done].
Qed.
#[export] Hint Resolve codec_instruction : codec.

Lemma codec_source : reads read_environment_source source_ok wire_source.
Proof.
  unfold read_environment_source. apply codec_location. intros offset. eapply codec_iff.
  { eapply (codec_bind _ _ _ (fun tag x bs => source_ok x /\ tag :: bs = wire_source x));
      [codec_steps | intros tag].
    repeat case_match; (eapply codec_iff; [codec_steps |]);
      intros x bs _; split; intros; wire_elim; try done;
      try (destruct x; wire_elim; try done; wire_intro). }
  intros x bs _. split; intros; wire_elim; [done |].
  destruct x; wire_elim; wire_intro; range_lia.
Qed.
#[export] Hint Resolve codec_source : codec.

Lemma codec_flag message : reads (read_flag message) (fun _ => True) (fun b => [u8_of_bool b]).
Proof.
  unfold read_flag. eapply codec_iff.
  { eapply (codec_bind _ _ _ (fun tag b bs => tag = u8_of_bool b /\ bs = [])); [codec_steps | intros tag].
    repeat case_match; (eapply codec_iff; [codec_steps |]); intros [] bs _; split; intros; wire_elim; done. }
  intros b bs _. split; intros; wire_elim; [done |].
  wire_intro. destruct b; vm_compute; split; discriminate.
Qed.
#[export] Hint Resolve codec_flag : codec.

Lemma codec_frame : reads read_frame frame_ok wire_frame.
Proof.
  unfold read_frame. eapply codec_iff; [codec_steps |].
  intros f bs _. unfold frame_ok, wire_frame. split; intros; wire_elim; [done |].
  destruct f. wire_intro.
Qed.
#[export] Hint Resolve codec_frame : codec.

Lemma codec_optional_scope : reads read_optional_scope (option_ok u32) (wire_option (le_bytes 4)).
Proof. apply codec_option. codec_steps. Qed.
Lemma codec_optional_proto : reads read_optional_proto (option_ok u32) (wire_option (le_bytes 4)).
Proof. apply codec_option. codec_steps. Qed.
#[export] Hint Resolve codec_optional_scope codec_optional_proto : codec.

Lemma codec_close_path limits : reads (read_close_path limits) (path_ok limits) wire_path.
Proof.
  unfold read_close_path. apply codec_location. intros offset. eapply codec_iff; [codec_steps |].
  intros c bs _. unfold path_ok, wire_path. split; intros; wire_elim.
  - cbn [cp_kind cp_span from_scope target_scope cp_bindings cp_registers].
    bool_hyps. split_and!; try done; try lia.
  - destruct c as [k s f t b r]. cbn [cp_kind cp_span from_scope target_scope cp_bindings cp_registers] in *.
    wire_intro; lia.
Qed.
#[export] Hint Resolve codec_close_path : codec.

Lemma codec_constant : reads read_constant constant_ok wire_constant.
Proof.
  unfold read_constant. apply codec_location. intros offset. eapply codec_iff.
  { eapply (codec_bind _ _ _ (fun tag c bs => constant_ok c /\ tag :: bs = wire_constant c));
      [codec_steps | intros tag].
    repeat case_match; try (eapply codec_iff; [codec_steps |];
      intros c bs _; split; intros; wire_elim; try done;
      (destruct c; wire_elim; try done; wire_intro)).
    eapply codec_iff.
    { eapply (codec_bind _ _ _ (fun tag c bs => exists b, c = CBoolean b /\ tag = u8_of_bool b /\ bs = []));
        [codec_steps | intros flag].
      repeat case_match; (eapply codec_iff; [codec_steps |]); intros c bs _; split; intros; wire_elim; try done.
      all: try (by destruct x). eauto. eauto. }
    intros c bs _. split; intros; wire_elim; [done |]. destruct c as [| | | | b]; wire_elim; try done.
    wire_intro. destruct b; vm_compute; split; discriminate. }
  intros c bs _. split; intros; wire_elim; [done |].
  destruct c; wire_elim; wire_intro; range_lia.
Qed.
#[export] Hint Resolve codec_constant : codec.

Lemma canonical_flags_known i :
  (Z.land (canonical_effect_flags i) (255 - KNOWN_FLAGS) =? 0) = true /\ u8 (canonical_effect_flags i).
Proof.
  destruct i as [| | | | | | | | | ? [] | | | | | | | | | |]; (split; [reflexivity |]); vm_compute;
    split; discriminate.
Qed.

Lemma codec_entry limits : reads (read_entry limits) (entry_ok limits) wire_entry.
Proof.
  unfold read_entry. eapply codec_iff.
  { codec_steps. apply codec_option. codec_steps. }
  intros e bs _. unfold entry_ok, wire_entry. split; intros; wire_elim.
  - cbn [bi_instruction bi_span bi_close_path]. bool_hyps.
    match goal with H : (_ =? canonical_effect_flags _) = true |- _ => apply Z.eqb_eq in H; subst end.
    split_and!; done.
  - destruct e as [i s c]. cbn [bi_instruction bi_span bi_close_path] in *.
    destruct (canonical_flags_known i) as [Hk Hu].
    wire_intro; apply negb_false_iff; [done | apply Z.eqb_refl].
Qed.
#[export] Hint Resolve codec_entry : codec.

Lemma codec_binding_register : reads read_binding_register binding_register_ok wire_binding_register.
Proof.
  unfold read_binding_register. eapply codec_iff; [codec_steps |].
  intros [b r] bs _. unfold binding_register_ok, wire_binding_register.
  split; intros; wire_elim; cbn [fst snd] in *; [done |]. wire_intro.
Qed.
#[export] Hint Resolve codec_binding_register : codec.

Lemma codec_named_vararg :
  reads read_named_vararg (option_ok binding_register_ok) (wire_option wire_binding_register).
Proof. apply codec_option. codec_steps. Qed.
#[export] Hint Resolve codec_named_vararg : codec.

Lemma codec_upvalue_source : reads read_upvalue_source upvalue_source_ok wire_upvalue_source.
Proof.
  unfold read_upvalue_source. apply codec_location. intros offset. eapply codec_iff.
  { eapply (codec_bind _ _ _ (fun tag s bs => upvalue_source_ok s /\ tag :: bs = wire_upvalue_source s));
      [codec_steps | intros tag].
    repeat case_match; (eapply codec_iff; [codec_steps |]);
      intros c bs _; split; intros; wire_elim; try done;
      (destruct c; wire_elim; try done; wire_intro). }
  intros s bs _. split; intros; wire_elim; [done |].
  destruct s; wire_elim; wire_intro; range_lia.
Qed.
#[export] Hint Resolve codec_upvalue_source : codec.

Lemma codec_upvalue : reads read_upvalue upvalue_ok wire_upvalue.
Proof.
  unfold read_upvalue. eapply codec_iff; [codec_steps |].
  intros u bs _. unfold upvalue_ok, wire_upvalue. split; intros; wire_elim; [done |].
  destruct u. wire_intro.
Qed.
#[export] Hint Resolve codec_upvalue : codec.

(** ** Sections *)

Definition list_ok {A} (limit_value : Z) (ok : A -> Prop) (l : list A) : Prop :=
  zlen l <= limit_value /\ zlen l <= U32_MAX /\ Forall ok l.

(** A section's bytes, as [read_section] hands them out. *)
Definition body_ok (bytes : list Z) : Prop := zlen bytes <= U32_MAX /\ Forall u8 bytes.

Lemma body_ok_usize bytes : body_ok bytes -> zlen bytes <= USIZE_MAX.
Proof. intros [H _]. range_lia. Qed.

Lemma decode_constants_iff bytes limits base cs :
  body_ok bytes ->
  decode_constants bytes limits base = Ok cs <->
  list_ok (max_constants limits) constant_ok cs /\ bytes = wire_list wire_constant cs.
Proof.
  intros Hb. pose proof (body_ok_usize _ Hb). destruct Hb. unfold decode_constants.
  rewrite run_read_all; [| codec_steps | done | done]. reflexivity.
Qed.

Lemma decode_instructions_iff bytes limits base l :
  body_ok bytes ->
  decode_instructions bytes limits base = Ok l <->
  list_ok (max_instructions limits) (entry_ok limits) l /\ bytes = wire_list wire_entry l.
Proof.
  intros Hb. pose proof (body_ok_usize _ Hb). destruct Hb. unfold decode_instructions.
  rewrite run_read_all; [| codec_steps | done | done]. reflexivity.
Qed.

Definition wire_metadata_parts (m : Metadata) : list Z :=
  wire_list wire_binding_register m.1.1 ++ wire_list wire_upvalue m.1.2 ++ wire_list wire_path m.2.

Definition metadata_ok (limits : VerifyLimits) (m : Metadata) : Prop :=
  list_ok (max_constants limits) binding_register_ok m.1.1 /\
  list_ok (max_upvalues_per_prototype limits) upvalue_ok m.1.2 /\
  list_ok (max_constants limits) (path_ok limits) m.2.

Lemma decode_metadata_iff bytes limits base m :
  body_ok bytes ->
  decode_metadata bytes limits base = Ok m <->
  metadata_ok limits m /\ bytes = wire_metadata_parts m.
Proof.
  intros Hb. pose proof (body_ok_usize _ Hb). destruct Hb as [Hl Hu]. unfold decode_metadata.
  rewrite run_read_all; [| codec_steps | done | done].
  unfold metadata_ok, wire_metadata_parts, list_ok. destruct m as [[a b] c].
  split; intros; wire_elim; cbn [fst snd] in *; [done |].
  wire_intro.
Qed.

(** ** Prototypes

    The encodings of the parts stay folded from here on. *)
#[local] Opaque le_bytes wire_list wire_option wire_span wire_binding wire_frame wire_entry
  wire_constant wire_path wire_upvalue wire_binding_register u8_of_bool zlen.

Definition metadata_of (p : BytecodePrototype) : Metadata :=
  (binding_registers p, upvalues p, close_paths p).

(** A prototype in its machine ranges, within the limits and the section
    lengths. *)
Definition prototype_ok (limits : VerifyLimits) (p : BytecodePrototype) : Prop :=
  u32 (p_id p) /\ u32 (p_function p) /\ option_ok u32 (p_parent p) /\ span_ok (p_span p) /\
  u16 (register_count p) /\ u16 (parameter_count p) /\
  option_ok binding_register_ok (named_vararg p) /\ frame_ok (frame p) /\
  u16 (global_environment p) /\ binding_ok (global_environment_binding p) /\
  list_ok (max_constants limits) constant_ok (constants p) /\
  list_ok (max_instructions limits) (entry_ok limits) (instructions p) /\
  metadata_ok limits (metadata_of p) /\
  zlen (wire_list wire_constant (constants p)) <= U32_MAX /\
  zlen (wire_list wire_entry (instructions p)) <= U32_MAX /\
  zlen (wire_metadata p) <= U32_MAX.

(** A section decoded by a function that does not depend on where it starts. *)
Lemma codec_decoded {A} (decode : list Z -> Z -> res BytecodeError A) (ok : A -> Prop) wire
    {B} (k : A -> Read B) R :
  (forall bytes start a, body_ok bytes -> decode bytes start = Ok a <-> ok a /\ bytes = wire a) ->
  (forall a, codec (k a) (R a)) ->
  codec (section ← read_section; a ← lift (decode (s_bytes section) (s_start section)); k a)
    (fun b bs => exists a bs2, ok a /\ body_ok (wire a) /\ R a b bs2 /\ bs = wire_section (wire a) ++ bs2).
Proof.
  intros Hd Hk. eapply codec_iff.
  { apply (codec_section _ (fun body b bs => exists a, ok a /\ body = wire a /\ R a b bs)).
    intros bytes start Hu Hl. cbn [s_bytes s_start]. eapply codec_iff.
    { eapply (codec_bind _ _ _ R); [apply codec_lift | apply Hk]. }
    intros b bs _. cbn beta. split.
    - intros (a & bs1 & bs2 & [Ha ->] & HR & ->). apply Hd in Ha as [Ho ->]; [| done]. by exists a.
    - intros (a & Ho & -> & HR). exists a, [], bs. split_and!; try done. by apply Hd. }
  intros b bs _. unfold wire_section, body_ok. split.
  - intros (body & bs2 & Hb & (a & Ho & -> & HR) & ->). eauto 10.
  - intros (a & bs2 & Ho & Hb & HR & ->). exists (wire a), bs2. split_and!; try tauto. eauto.
Qed.

Lemma decode_prototype_iff bytes limits base p :
  body_ok bytes ->
  decode_prototype bytes limits base = Ok p <-> prototype_ok limits p /\ bytes = wire_prototype p.
Proof.
  intros Hb. pose proof (body_ok_usize _ Hb). destruct Hb as [Hl Hu]. unfold decode_prototype.
  rewrite run_read_all; [| | done | done].
  2: { codec_steps.
    eapply (codec_decoded (fun b s => decode_constants b limits s));
      [intros; by apply decode_constants_iff | intros ?].
    eapply (codec_decoded (fun b s => decode_instructions b limits s));
      [intros; by apply decode_instructions_iff | intros ?].
    eapply (codec_decoded (fun b s => decode_metadata b limits s));
      [intros; by apply decode_metadata_iff | intros ?; codec_steps]. }
  unfold prototype_ok, wire_prototype. split; intros; wire_elim.
  - repeat match goal with Hm : Metadata |- _ => destruct Hm as [[? ?] ?] end.
    repeat match goal with Hm : body_ok _ |- _ => destruct Hm as [? _] end.
    split_and!; done.
  - repeat match goal with Hm : Forall u8 (_ ++ _) |- _ => apply Forall_app in Hm as [? ?] end.
    destruct p as [p1 p2 p3 p4 p5 p6 p7 p8 p9 p10 p11 p12 p13 p14 p15 p16].
    unfold wire_metadata, metadata_of, wire_metadata_parts in *.
    cbn [p_id p_function p_parent p_span register_count parameter_count is_variadic named_vararg
     frame global_environment global_environment_binding binding_registers constants upvalues
     instructions close_paths fst snd] in *.
    repeat match goal with Hm : Forall u8 (wire_section _) |- _ =>
      unfold wire_section in Hm; apply Forall_app in Hm as [_ Hm] end.
    wire_open; lazymatch goal with |- metadata_ok _ _ => eassumption | _ => idtac end; wire_close;
      cbn [fst snd]; by split.
Qed.

(** The prototype records in order: each within what the totals before it
    leave of the module's limits. *)
Fixpoint prototypes_ok (limits : VerifyLimits) (ti tc : Z) (ps : list BytecodePrototype) : Prop :=
  match ps with
  | [] => True
  | p :: ps =>
      zlen (wire_prototype p) <= U32_MAX /\
      ti <= max_instructions limits /\ tc <= max_constants limits /\
      prototype_ok (bounded_limits limits (max_instructions limits - ti) (max_constants limits - tc)) p /\
      ti + zlen (instructions p) <= USIZE_MAX /\ tc + zlen (constants p) <= USIZE_MAX /\
      prototypes_ok limits (ti + zlen (instructions p)) (tc + zlen (constants p)) ps
  end.

Lemma remaining_Ok total used start message x :
  remaining total used start message = Ok x <-> used <= total /\ x = total - used.
Proof.
  unfold remaining. destruct (Z.leb_spec used total); split; intros; simplify_eq; try tauto.
  - f_equal. destruct H0. lia.
  - lia.
Qed.

Lemma checked_add_Ok a b start message x :
  (match checked_add_usize a b with
   | Some t => Ok t | None => Err (limit start message) end) = (Ok x : res BytecodeError Z) <->
  a + b <= USIZE_MAX /\ x = a + b.
Proof.
  unfold checked_add_usize. destruct (Z.leb_spec (a + b) USIZE_MAX); split; intros; simplify_eq; try tauto.
  - f_equal. destruct H0. lia.
  - lia.
Qed.

Lemma codec_prototypes limits n ti tc :
  codec (read_prototypes limits n ti tc) (fun ps bs =>
    length ps = n /\ prototypes_ok limits ti tc ps /\
    bs = concat (map (fun p => wire_section (wire_prototype p)) ps)).
Proof.
  revert ti tc. induction n as [| n IH]; intros ti tc; cbn [read_prototypes].
  { eapply codec_iff; [apply codec_ret |]. intros ps bs _. split.
    - by intros [-> ->].
    - intros (Hl & _ & ->). by destruct ps. }
  eapply codec_iff.
  { apply (codec_section _ (fun body ps bs => exists p rest,
      ps = p :: rest /\ body = wire_prototype p /\ length rest = n /\
      ti <= max_instructions limits /\ tc <= max_constants limits /\
      prototype_ok (bounded_limits limits (max_instructions limits - ti) (max_constants limits - tc)) p /\
      ti + zlen (instructions p) <= USIZE_MAX /\ tc + zlen (constants p) <= USIZE_MAX /\
      prototypes_ok limits (ti + zlen (instructions p)) (tc + zlen (constants p)) rest /\
      bs = concat (map (fun p => wire_section (wire_prototype p)) rest))).
    intros bytes start Hu Hl. cbn [s_bytes s_start]. eapply codec_iff.
    { do 5 (eapply codec_bind; [apply codec_lift | intros ?]).
      eapply codec_bind; [apply IH | intros ?]. apply codec_ret. }
    intros ps bs _. cbn beta. split; intros; wire_elim.
    - repeat match goal with
        | H : remaining _ _ _ _ = Ok _ |- _ => apply remaining_Ok in H as [? ->]
        | H : match checked_add_usize _ _ with _ => _ end = Ok _ |- _ => apply checked_add_Ok in H as [? ->]
        | H : decode_prototype _ _ _ = Ok _ |- _ => apply decode_prototype_iff in H as [? ->]; [| done]
        end.
      eexists _, _. rewrite ?app_nil_r. by split_and!.
    - eexists _, _, _. split; [split; [by apply remaining_Ok | reflexivity] |]. split; [| reflexivity].
      eexists _, _, _. split; [split; [by apply remaining_Ok | reflexivity] |]. split; [| reflexivity].
      eexists _, _, _. split; [split; [by apply decode_prototype_iff | reflexivity] |]. split; [| reflexivity].
      eexists _, _, _. split; [split; [by apply checked_add_Ok | reflexivity] |]. split; [| reflexivity].
      eexists _, _, _. split; [split; [by apply checked_add_Ok | reflexivity] |]. split; [| reflexivity].
      eexists _, _, []. split; [by split_and! |]. split; [done |]. by rewrite app_nil_r. }
  intros ps bs Hu. split.
  - intros (body & bs2 & [Hb _] & (p & rest & -> & -> & <- & ?) & ->). wire_elim.
    cbn [length prototypes_ok map concat]. unfold wire_section. rewrite <- app_assoc. by split_and!.
  - intros (Hl & Ho & ->). destruct ps as [| p ps]; [done |]. cbn [prototypes_ok map concat length] in *.
    wire_elim. apply Forall_app in Hu as [Hu _]. unfold wire_section in Hu.
    apply Forall_app in Hu as [_ Hu].
    eexists (wire_prototype p), _. split; [done |]. split; [| reflexivity].
    exists p, ps. by split_and!.
Qed.

Lemma decode_prototype_section_iff bytes start limits ps :
  body_ok bytes ->
  decode_prototype_section {| s_bytes := bytes; s_start := start |} limits = Ok ps <->
  (zlen ps <= max_prototypes limits /\ zlen ps <= U32_MAX /\ prototypes_ok limits 0 0 ps) /\
  bytes = wire_list (fun p => wire_section (wire_prototype p)) ps.
Proof.
  intros Hb. pose proof (body_ok_usize _ Hb). destruct Hb as [Hl Hu].
  unfold decode_prototype_section. cbn [s_bytes s_start].
  rewrite run_read_all; [| eapply codec_bind; [apply codec_count | intros; apply codec_prototypes] | done | done].
  rewrite wire_list_eq. unfold wire_u32. split; intros; wire_elim.
  - pose proof (zlen_nonneg ps). assert (x = zlen ps) as -> by (rewrite zlen_eq in *; range_lia).
    split_and!; try done; range_lia.
  - pose proof (zlen_nonneg ps). exists (zlen ps), (le_bytes 4 (zlen ps)), (concat (map (fun p => wire_section (wire_prototype p)) ps)).
    split_and!; try done; try range_lia. rewrite zlen_eq. lia.
Qed.

(** ** Modules *)

(** A reader that consumes everything it has left. *)
Definition ends {A} (read : Read A) (R : A -> list Z -> Prop) : Prop :=
  forall r a, rok r -> ((exists r', read r = (Ok a, r')) <-> R a (rest r)).

Section ends_rules.
Context {A B : Type}.

Lemma ends_bind (read : Read A) (k : A -> Read B) R1 R2 :
  codec read R1 -> (forall a, ends (k a) (R2 a)) ->
  ends (read ≫= k) (fun b bs => exists a bs1 bs2, R1 a bs1 /\ R2 a b bs2 /\ bs = bs1 ++ bs2).
Proof.
  intros H1 H2 r b Hr. split.
  - intros (r' & (a & r1 & Ha & Hb)%bind_Ok).
    apply H1 in Ha as (bs & post & HR & He & ->); [| done].
    exists a, bs, post. split_and!; [done | | done].
    rewrite <- (advance_rest _ _ _ Hr He). apply H2; [by eapply advance_rok | by eexists].
  - intros (a & bs1 & bs2 & Ha & Hb & He).
    rewrite <- (advance_rest _ _ _ Hr He) in Hb. apply H2 in Hb as [r' Hb]; [| by eapply advance_rok].
    exists r'. apply bind_Ok. exists a, (advance r (zlen bs1)). split; [| done]. apply H1; eauto 10.
Qed.

Lemma ends_guard (b : bool) (e : BytecodeError) (read : Read A) R :
  ends read R -> ends (if b then fail e else read) (fun a bs => b = false /\ R a bs).
Proof.
  intros H r a Hr. destruct b.
  - split; [by intros [] | by intros []].
  - rewrite (H r a Hr). tauto.
Qed.

Lemma ends_end message (read : Read A) (P : A -> Prop) :
  codec read (fun a bs => P a /\ bs = []) ->
  ends (read_end message;; read) (fun a bs => P a /\ bs = []).
Proof.
  intros H r a Hr. pose proof Hr as [Ho _]. unfold mbind, st_bind, read_end, is_empty.
  destruct (Z.eqb_spec (r_offset r) (zlen (r_bytes r))) as [He |].
  - assert (rest r = []) as Hrest.
    { unfold rest. by rewrite He, zlen_eq, Nat2Z.id, drop_all. }
    rewrite Hrest. split.
    + intros (r' & Ha). apply H in Ha as (bs & post & [HP ->] & _ & _); [| done]. done.
    + intros [HP _]. eexists. apply H; [done |]. exists [], []. by rewrite Hrest.
  - split; [by intros [] |]. intros [_ Hd%(f_equal length)]. unfold rest in Hd.
    rewrite length_drop in Hd. cbn in Hd. rewrite !zlen_eq in *. lia.
Qed.

Lemma ends_section (k : ReadSection -> Read B) (R : list Z -> B -> list Z -> Prop) :
  (forall bytes start, body_ok bytes -> ends (k {| s_bytes := bytes; s_start := start |}) (R bytes)) ->
  ends (read_section ≫= k) (fun b bs => exists body bs2,
    body_ok body /\ R body b bs2 /\ bs = wire_section body ++ bs2).
Proof.
  intros H r b Hr. split.
  - intros (r' & (s & r1 & (bs & post & (Hl & Hu & ->) & He & -> & _)%read_section_Ok & Hk)%bind_Ok); [| done].
    destruct s as [body start]. cbn [s_bytes] in *. exists body, post.
    split_and!; [done | | done].
    rewrite <- (advance_rest _ _ _ Hr He). apply (H body start); [done | by eapply advance_rok | by eexists].
  - intros (body & bs2 & [Hl Hu] & HR & He). unfold wire_section in He.
    rewrite <- (advance_rest _ _ _ Hr He) in HR.
    apply (H body (location (advance r 4))) in HR as [r' Hk]; [| done | by eapply advance_rok].
    exists r'. apply bind_Ok.
    exists {| s_bytes := body; s_start := location (advance r 4) |}, (advance r (zlen (le_bytes 4 (zlen body) ++ body))).
    split; [| done]. apply read_section_Ok; [done |]. eexists _, _. by split_and!.
Qed.
End ends_rules.

Definition canonical_map (ps : list BytecodePrototype) : list (Z * ProtoId) :=
  map (fun p => (p_function p, p_id p)) ps.

Definition module_ok (profile : LuaProfile) (limits : VerifyLimits) (m : BytecodeModule) : Prop :=
  format_version m = RVLU_V2 /\ m_profile m = profile /\ numeric_config m = RVLU_NUMERIC_I64_F64 /\
  span_ok (m_span m) /\ function_prototypes m = canonical_map (prototypes m) /\
  zlen (prototypes m) <= max_prototypes limits /\ zlen (prototypes m) <= U32_MAX /\
  zlen (wire_list (fun p => wire_section (wire_prototype p)) (prototypes m)) <= U32_MAX /\
  prototypes_ok limits 0 0 (prototypes m).

Lemma codec_magic : codec (read_take 4) (fun a bs => a = bs /\ zlen bs = 4).
Proof. apply codec_take. lia. Qed.
#[export] Hint Resolve codec_magic : codec.

Lemma run_ends {A} (m : Read A) R bytes a :
  ends m R -> Forall u8 bytes -> zlen bytes <= USIZE_MAX ->
  run_reader m bytes 0 = Ok a <-> R a bytes.
Proof.
  intros Hm Hb Hl. unfold run_reader.
  assert (rok (new_at bytes 0)) as Hr.
  { unfold rok, new_at. cbn. pose proof (zlen_nonneg bytes). split_and!; [lia.. | done]. }
  rewrite <- (Hm _ a Hr : _ <-> R a bytes).
  destruct (m (new_at bytes 0)) as [x r']. cbn. split; [intros -> | intros (? & [= -> _])]; eauto.
Qed.

Lemma read_module_iff profile limits bytes m :
  Forall u8 bytes -> zlen bytes <= USIZE_MAX ->
  run_reader (read_module profile limits) bytes 0 = Ok m <->
  module_ok profile limits m /\ bytes = wire_module m.
Proof.
  intros Hu Hl. unfold read_module. rewrite run_ends; [| | done | done].
  2: { repeat lazymatch goal with
       | |- ends (if _ then fail _ else _) _ => apply ends_guard
       | |- ends (read_section ≫= _) _ => apply ends_section; intros ???
       | |- ends (_ ≫= _) _ => eapply ends_bind; [solve [codec_steps] | intros ?]
       end.
       apply (ends_end _ _ (fun x => exists ps,
         (zlen ps <= max_prototypes limits /\ zlen ps <= U32_MAX /\ prototypes_ok limits 0 0 ps) /\
         bytes0 = wire_list (fun p => wire_section (wire_prototype p)) ps /\
         x = {| format_version := a0; m_profile := a2; numeric_config := a3; m_span := a4;
                function_prototypes := canonical_map ps; prototypes := ps |})).
       eapply codec_iff; [codec_steps |]. intros x bs _. cbn beta. split.
       - intros (ps & bs1 & bs2 & [Hps ->] & [-> ->] & ->).
         apply decode_prototype_section_iff in Hps; [| done]. destruct Hps. eauto 10.
       - intros ((ps & Hps & Hb & ->) & ->). exists ps, [], [].
         split_and!; try done. apply decode_prototype_section_iff; done. }
  unfold module_ok, wire_module. split; intros; wire_elim.
  - cbn [format_version m_profile numeric_config m_span function_prototypes prototypes].
    bool_hyps.
    repeat match goal with
      | H : bool_decide _ = true |- _ => apply bool_decide_eq_true in H
      | H : (_ =? _) = true |- _ => apply Z.eqb_eq in H
      | H : parse_profile _ _ = Ok _ |- _ => apply profile_tag_spec in H
      end; subst.
    split_and!; try done. by destruct H15.
  - destruct m as [v pr nc sp fp ps].
    cbn [format_version m_profile numeric_config m_span function_prototypes prototypes] in *.
    subst v nc fp.
    assert (Forall u8 (wire_list (fun p => wire_section (wire_prototype p)) ps)) as Hbody.
    { unfold wire_section at 1 in Hu. by repeat (apply Forall_app in Hu as [_ Hu]). }
    exists RVLU_MAGIC, RVLU_MAGIC. eexists. split; [done |]. split; [| reflexivity].
    split; [by rewrite bool_decide_eq_true_2 |].
    exists RVLU_V2. eexists _, _. split; [split; [vm_compute; split; discriminate | reflexivity] |].
    split; [| reflexivity]. split; [done |]. split; [done |].
    exists (profile_tag pr). eexists _, _.
    split; [split; [destruct pr; vm_compute; split; discriminate | reflexivity] |].
    split; [| reflexivity].
    exists pr. eexists _, _. split; [split; [by apply profile_tag_spec | reflexivity] |].
    split; [| reflexivity]. split; [by rewrite bool_decide_eq_true_2 |].
    exists RVLU_NUMERIC_I64_F64. eexists _, _.
    split; [split; [vm_compute; split; discriminate | reflexivity] |].
    split; [| reflexivity]. split; [done |].
    exists sp. eexists _, _. split; [by split |]. split; [| reflexivity].
    exists (wire_list (fun p => wire_section (wire_prototype p)) ps), [].
    split; [by split |]. split; [split; [| done]; by exists ps |]. by rewrite app_nil_r.
Qed.
