(* ===== verification/Encode.v ===== *)
(** The encoder against the wire format: without an allocation bound it writes
    exactly the format, under a bound it writes the same bytes or fails; with
    [Wire], the round trips of whole modules. *)

From Stdlib Require Import ZArith Lia.
From stdpp Require Import base list numbers strings.
From S2P Require Import Prelude Number Bytecode Verifier Codec Wire.

Local Open Scope Z_scope.

(** ** Writers as byte strings *)

(** A writer without a bound that has not failed. *)
Definition unbounded (w : Writer) : Prop := w_bound w = None /\ w_failure w = None.

(** [writes m P bs]: on an unbounded writer [m] appends [bs] when [P] holds and
    fails with an error when it does not. *)
Definition writes (m : ST Writer BytecodeError unit) (P : Prop) (bs : list Z) : Prop :=
  forall w, unbounded w ->
    (forall c w', m w <> (Crash c, w')) /\
    (forall w', m w = (Ok tt, w') <-> P /\ w' = push_bytes w bs).

Lemma push_nil w : push_bytes w [] = w.
Proof. destruct w. unfold push_bytes. cbn. by rewrite app_nil_r. Qed.
Lemma push_push w a b : push_bytes (push_bytes w a) b = push_bytes w (a ++ b).
Proof. unfold push_bytes. cbn. by rewrite <- app_assoc. Qed.
Lemma unbounded_push w bs : unbounded w -> unbounded (push_bytes w bs).
Proof. done. Qed.

Section Writes.
Context `{Allocator}.

Lemma writes_weaken m P P' bs bs' : writes m P bs -> (P <-> P') -> bs = bs' -> writes m P' bs'.
Proof. intros Hm HP <- w Hw. destruct (Hm w Hw) as [Ht Hs]. split; [done |]. intros w'. by rewrite Hs, HP. Qed.

Lemma writes_ret : writes (mret tt) True [].
Proof.
  intros w Hw. split; [done |]. intros w'. rewrite push_nil.
  split; [by intros [= <-] | by intros [_ ->]].
Qed.

Lemma writes_bytes bs : writes (write_bytes bs) True bs.
Proof.
  intros w [Hb Hf]. unfold write_bytes, write. rewrite Hb, Hf. split; [done |].
  intros w'. split; [by intros [= <-] | by intros [_ ->]].
Qed.

Lemma writes_bind m k P Q a b :
  writes m P a -> writes k Q b -> writes (m;; k) (P /\ Q) (a ++ b).
Proof.
  intros Hm Hk w Hw. destruct (Hm w Hw) as [Ht Hs]. unfold mbind, st_bind.
  destruct (m w) as [[[] | e | c] w1] eqn:He.
  - destruct (proj1 (Hs w1) eq_refl) as [HP ->].
    destruct (Hk _ (unbounded_push w a Hw)) as [Ht2 Hs2].
    split; [done |]. intros w'. rewrite Hs2, push_push. tauto.
  - split; [done |]. intros w'. split; [done |]. intros [[HP _] _].
    discriminate (proj2 (Hs (push_bytes w a)) (conj HP eq_refl)).
  - by destruct (Ht c w1).
Qed.

(** A fallible value used by the rest. *)
Lemma writes_lift {A} (r : res BytecodeError A) (k : A -> ST Writer BytecodeError unit) P x Q b :
  total r -> (forall a, r = Ok a <-> P /\ a = x) -> writes (k x) Q b ->
  writes (a ← lift r; k a) (P /\ Q) b.
Proof.
  intros Ht Hr Hk w Hw. unfold mbind, st_bind, lift. destruct r as [a | e | c].
  - destruct (proj1 (Hr a) eq_refl) as [HP ->]. destruct (Hk w Hw) as [Ht2 Hs2].
    split; [done |]. intros w'. rewrite Hs2. tauto.
  - split; [done |]. intros w'. split; [done |]. intros [[HP _] _].
    discriminate (proj2 (Hr x) (conj HP eq_refl)).
  - by destruct (Ht c).
Qed.

Lemma checked_u32_spec v offset message a :
  checked_u32 v offset message = Ok a <-> v <= U32_MAX /\ a = v.
Proof.
  unfold checked_u32. destruct (Z.leb_spec v U32_MAX); split; intros; simplify_eq; try done.
  - f_equal. by destruct H1.
  - lia.
Qed.
Lemma checked_u32_total v offset message : total (checked_u32 v offset message).
Proof. unfold checked_u32. by case_match. Qed.

Lemma writes_u8 v : writes (write_u8 v) True [v].
Proof. apply writes_bytes. Qed.
Lemma writes_u16 v : writes (write_u16 v) True (le_bytes 2 v).
Proof. apply writes_bytes. Qed.
Lemma writes_u32 v : writes (write_u32 v) True (le_bytes 4 v).
Proof. apply writes_bytes. Qed.
Lemma writes_u64 v : writes (write_u64 v) True (le_bytes 8 v).
Proof. apply writes_bytes. Qed.
Lemma writes_i64 v : writes (write_i64 v) True (le_bytes 8 (wrap_u64 v)).
Proof. apply writes_bytes. Qed.

Lemma writes_section bytes message :
  writes (write_section bytes message) (zlen bytes <= U32_MAX) (wire_section bytes).
Proof.
  eapply writes_weaken.
  { eapply writes_lift; [apply checked_u32_total | intros; apply checked_u32_spec |].
    apply writes_bind; [apply writes_u32 | apply writes_bytes]. }
  - tauto.
  - done.
Qed.

Lemma writes_blob v : writes (write_blob v) (zlen v <= U32_MAX) (le_bytes 4 (zlen v) ++ v).
Proof. apply (writes_section v "RVLU blob 過大"). Qed.

Lemma writes_each {A} (f : A -> ST Writer BytecodeError unit) P wire l :
  (forall x, writes (f x) (P x) (wire x)) ->
  writes (write_each f l) (Forall P l) (concat (map wire l)).
Proof.
  intros Hf. induction l as [| x l IH]; cbn [write_each map concat].
  - eapply writes_weaken; [apply writes_ret | | done]. split; [constructor | done].
  - eapply writes_weaken; [apply writes_bind; [apply Hf | exact IH] | | done].
    by rewrite Forall_cons.
Qed.

Lemma writes_counted {A} (f : A -> ST Writer BytecodeError unit) P wire l message :
  (forall x, writes (f x) (P x) (wire x)) ->
  writes (write_counted f l message) (zlen l <= U32_MAX /\ Forall P l) (wire_list wire l).
Proof.
  intros Hf. eapply writes_weaken.
  { eapply writes_lift; [apply checked_u32_total | intros; apply checked_u32_spec |].
    apply writes_bind; [apply writes_u32 | by apply writes_each]. }
  - tauto.
  - done.
Qed.

Lemma writes_counted_always {A} (f : A -> ST Writer BytecodeError unit) wire l message :
  (forall x, writes (f x) True (wire x)) ->
  writes (write_counted f l message) (zlen l <= U32_MAX) (wire_list wire l).
Proof.
  intros Hf. eapply writes_weaken; [exact (writes_counted f _ wire l message Hf) | | done].
  split; [by intros [] | intros Hl]. split; [done |]. by apply Forall_true.
Qed.
End Writes.

Create HintDb writes.
#[export] Hint Resolve writes_u8 writes_u16 writes_u32 writes_u64 writes_i64 writes_blob
  writes_section : writes.

(** Follows a sequence of writes. *)
Ltac writes_steps :=
  eapply writes_weaken;
  [ repeat lazymatch goal with
      | |- writes (write_counted _ _ _) _ _ =>
          eapply writes_counted_always; intros ?; solve [eauto 1 with writes nocore]
      | |- writes (_;; _) _ _ => eapply writes_bind
      | |- writes _ _ _ => solve [eauto 1 with writes nocore]
      end
  | try tauto | rewrite <- ?app_assoc; try reflexivity ].

(** ** The parts *)

Section Parts.
Context `{Allocator}.

Lemma writes_span s : writes (write_span s) True (wire_span s).
Proof. unfold write_span. writes_steps. Qed.
Hint Resolve writes_span : writes.
Lemma writes_binding b : writes (write_binding b) True (wire_binding b).
Proof. unfold write_binding. writes_steps. Qed.
Hint Resolve writes_binding : writes.
Lemma writes_mode m : writes (write_result_mode m) True (wire_mode m).
Proof. unfold write_result_mode. destruct m; writes_steps. Qed.
Hint Resolve writes_mode : writes.

Lemma writes_instruction i : writes (write_instruction i) True (wire_instruction i).
Proof. unfold write_instruction. destruct i; writes_steps. Qed.
Hint Resolve writes_instruction : writes.

Lemma writes_source s : writes (write_environment_source s) True (wire_source s).
Proof. unfold write_environment_source. destruct s; writes_steps. Qed.
Hint Resolve writes_source : writes.
Lemma writes_frame f : writes (write_frame f) True (wire_frame f).
Proof. unfold write_frame, wire_frame. writes_steps. Qed.
Hint Resolve writes_frame : writes.
Lemma writes_scope s : writes (write_optional_scope s) True (wire_option (le_bytes 4) s).
Proof. unfold write_optional_scope. destruct s; writes_steps. Qed.
Hint Resolve writes_scope : writes.
Lemma writes_parent s : writes (write_optional_proto s) True (wire_option (le_bytes 4) s).
Proof. unfold write_optional_proto. destruct s; writes_steps. Qed.
Hint Resolve writes_parent : writes.

(** What the encoder checks of a close path: its counts fit [u32]. *)
Definition path_encodable (c : BytecodeClosePath) : Prop :=
  zlen (cp_bindings c) <= U32_MAX /\ zlen (cp_registers c) <= U32_MAX.

Lemma writes_path c : writes (write_close_path c) (path_encodable c) (wire_path c).
Proof.
  unfold write_close_path, path_encodable, wire_path. writes_steps.
Qed.
Hint Resolve writes_path : writes.

Definition constant_encodable (c : BytecodeConstant) : Prop :=
  match c with CName v | CString v => zlen v <= U32_MAX | _ => True end.

Lemma writes_constant c : writes (write_constant c) (constant_encodable c) (wire_constant c).
Proof. unfold write_constant. destruct c; writes_steps; cbn; tauto. Qed.
Hint Resolve writes_constant : writes.

Definition entry_encodable (e : BytecodeInstruction) : Prop :=
  option_ok path_encodable (bi_close_path e).

Lemma writes_optional_path c :
  writes (write_optional_close_path c) (option_ok path_encodable c) (wire_option wire_path c).
Proof. unfold write_optional_close_path. destruct c; writes_steps; cbn; tauto. Qed.
Hint Resolve writes_optional_path : writes.

Lemma writes_entry e : writes (write_entry e) (entry_encodable e) (wire_entry e).
Proof. unfold write_entry, wire_entry, entry_encodable. writes_steps. Qed.
Hint Resolve writes_entry : writes.

Lemma writes_binding_register br :
  writes (write_binding_register br) True (wire_binding_register br).
Proof. unfold write_binding_register. writes_steps. Qed.
Hint Resolve writes_binding_register : writes.
Lemma writes_upvalue_source s : writes (write_upvalue_source s) True (wire_upvalue_source s).
Proof. unfold write_upvalue_source. destruct s; writes_steps. Qed.
Hint Resolve writes_upvalue_source : writes.
Lemma writes_upvalue u : writes (write_upvalue u) True (wire_upvalue u).
Proof. unfold write_upvalue. writes_steps. Qed.
Hint Resolve writes_upvalue : writes.
Lemma writes_named_vararg v :
  writes (write_named_vararg v) True (wire_option wire_binding_register v).
Proof. unfold write_named_vararg. destruct v as [[b r] |]; writes_steps. Qed.
Hint Resolve writes_named_vararg : writes.

(** A whole buffer: the bytes, when the conditions hold. *)
Lemma run_writer_iff m P bs x :
  writes m P bs -> total (run_writer None m) /\ (run_writer None m = Ok x <-> P /\ x = bs).
Proof.
  intros Hm. destruct (Hm (with_limit None)) as [Ht Hs]; [done |]. unfold run_writer.
  destruct (m (with_limit None)) as [[[] | e | c] w] eqn:He.
  - destruct (proj1 (Hs w) eq_refl) as [HP ->]. split; [done |]. cbn.
    split; [by intros [= <-] | by intros [_ ->]].
  - split; [done |]. split; [done |]. intros [HP _].
    discriminate (proj2 (Hs (push_bytes (with_limit None) bs)) (conj HP eq_refl)).
  - by destruct (Ht c w).
Qed.

(** A count check, then a whole buffer. *)
Lemma checked_run_writer_iff b (e : BytecodeError) m P bs x :
  writes m P bs ->
  total (fail_if b e;; run_writer None m) /\
  ((fail_if b e;; run_writer None m) = Ok x <-> (b = false /\ P) /\ x = bs).
Proof.
  intros Hm. destruct (run_writer_iff m P bs x Hm) as [Ht Hs].
  destruct b; cbn [fail_if mbind res_bind]; [| rewrite Hs; tauto].
  split; [done |]. split; [done |]. intros [[? _] _]. done.
Qed.

(** *** Prototypes and modules *)

#[local] Opaque le_bytes wire_list wire_option wire_span wire_binding wire_frame wire_entry
  wire_constant wire_path wire_upvalue wire_binding_register u8_of_bool zlen wire_section.

Definition prototype_encodable (limits : VerifyLimits) (p : BytecodePrototype) : Prop :=
  (zlen (constants p) <= max_constants limits /\ zlen (constants p) <= U32_MAX /\
   Forall constant_encodable (constants p) /\
   zlen (wire_list wire_constant (constants p)) <= U32_MAX) /\
  (zlen (instructions p) <= max_instructions limits /\ zlen (instructions p) <= U32_MAX /\
   Forall entry_encodable (instructions p) /\
   zlen (wire_list wire_entry (instructions p)) <= U32_MAX) /\
  zlen (upvalues p) <= max_upvalues_per_prototype limits /\ zlen (upvalues p) <= U32_MAX /\
  zlen (binding_registers p) <= U32_MAX /\ zlen (close_paths p) <= U32_MAX /\
  Forall path_encodable (close_paths p) /\ zlen (wire_metadata p) <= U32_MAX.

Lemma encode_constants_iff cs limits x :
  total (encode_constants cs limits None) /\
  (encode_constants cs limits None = Ok x <->
   (zlen cs <= max_constants limits /\ zlen cs <= U32_MAX /\ Forall constant_encodable cs) /\
   x = wire_list wire_constant cs).
Proof.
  unfold encode_constants.
  destruct (checked_run_writer_iff (max_constants limits <? zlen cs)
    (limit 0 "RVLU constant 數超過限制") _ _ _ x
    (writes_counted write_constant constant_encodable wire_constant cs "RVLU constant 數過大"
       writes_constant)) as [Ht Hs].
  split; [exact Ht |]. rewrite Hs, Z.ltb_ge. tauto.
Qed.

Lemma encode_instructions_iff es limits x :
  total (encode_instructions es limits None) /\
  (encode_instructions es limits None = Ok x <->
   (zlen es <= max_instructions limits /\ zlen es <= U32_MAX /\ Forall entry_encodable es) /\
   x = wire_list wire_entry es).
Proof.
  unfold encode_instructions.
  destruct (checked_run_writer_iff (max_instructions limits <? zlen es)
    (limit 0 "RVLU instruction 數超過限制") _ _ _ x
    (writes_counted write_entry entry_encodable wire_entry es "RVLU instruction 數過大"
       writes_entry)) as [Ht Hs].
  split; [exact Ht |]. rewrite Hs, Z.ltb_ge. tauto.
Qed.

Lemma encode_metadata_iff p limits x :
  total (encode_metadata p limits None) /\
  (encode_metadata p limits None = Ok x <->
   (zlen (upvalues p) <= max_upvalues_per_prototype limits /\ zlen (upvalues p) <= U32_MAX /\
    zlen (binding_registers p) <= U32_MAX /\ zlen (close_paths p) <= U32_MAX /\
    Forall path_encodable (close_paths p)) /\
   x = wire_metadata p).
Proof.
  unfold encode_metadata, wire_metadata.
  destruct (checked_run_writer_iff (max_upvalues_per_prototype limits <? zlen (upvalues p))
    (limit 0 "RVLU upvalue 數超過限制") _ _ _ x
    (writes_bind _ _ _ _ _ _
       (writes_counted_always write_binding_register wire_binding_register (binding_registers p)
          "RVLU binding metadata 過大" writes_binding_register)
       (writes_bind _ _ _ _ _ _
          (writes_counted_always write_upvalue wire_upvalue (upvalues p)
             "RVLU upvalue metadata 過大" writes_upvalue)
          (writes_counted write_close_path path_encodable wire_path (close_paths p)
             "RVLU close metadata 過大" writes_path)))) as [Ht Hs].
  split; [exact Ht |]. rewrite Hs, Z.ltb_ge. tauto.
Qed.

#[local] Opaque wire_metadata.

Lemma encode_prototype_iff p limits x :
  total (encode_prototype p limits None) /\
  (encode_prototype p limits None = Ok x <-> prototype_encodable limits p /\ x = wire_prototype p).
Proof.
  unfold encode_prototype.
  match goal with |- total (run_writer None ?m) /\ _ =>
    eassert (writes m _ _) as Hm end.
  { repeat (apply writes_bind; [solve [eauto 1 with writes nocore] |]).
    eapply writes_lift; [apply (encode_constants_iff (constants p) limits []) |
      intros; apply encode_constants_iff |].
    apply writes_bind; [apply writes_section |].
    eapply writes_lift; [apply (encode_instructions_iff (instructions p) limits []) |
      intros; apply encode_instructions_iff |].
    apply writes_bind; [apply writes_section |].
    eapply writes_lift; [apply (encode_metadata_iff p limits []) |
      intros; apply encode_metadata_iff |].
    apply writes_section. }
  destruct (run_writer_iff _ _ _ x Hm) as [Ht Hs].
  split; [exact Ht |]. rewrite Hs. unfold prototype_encodable, wire_prototype.
  rewrite <- ?app_assoc. f_equiv. clear. tauto.
Qed.

Definition module_encodable (limits : VerifyLimits) (m : BytecodeModule) : Prop :=
  zlen (prototypes m) <= U32_MAX /\
  Forall (fun p => prototype_encodable limits p /\ zlen (wire_prototype p) <= U32_MAX) (prototypes m) /\
  zlen (wire_list (fun p => wire_section (wire_prototype p)) (prototypes m)) <= U32_MAX /\
  zlen (wire_module m) <= max_module_bytes limits.

Lemma encode_prototype_section_iff m limits x :
  total (encode_prototype_section m limits None) /\
  (encode_prototype_section m limits None = Ok x <->
   (zlen (prototypes m) <= U32_MAX /\
    Forall (fun p => prototype_encodable limits p /\ zlen (wire_prototype p) <= U32_MAX) (prototypes m)) /\
   x = wire_list (fun p => wire_section (wire_prototype p)) (prototypes m)).
Proof.
  unfold encode_prototype_section. apply run_writer_iff. apply writes_counted. intros p.
  eapply writes_lift; [apply (encode_prototype_iff p limits []) | intros; apply encode_prototype_iff |].
  apply writes_section.
Qed.

(** The last check looks at everything written so far. *)
Lemma run_writer_check m P bs limits x :
  writes m P bs ->
  total (run_writer None (m;; check_module_bytes limits)) /\
  (run_writer None (m;; check_module_bytes limits) = Ok x <->
   (P /\ zlen bs <= max_module_bytes limits) /\ x = bs).
Proof.
  intros Hm. destruct (Hm (with_limit None)) as [Ht Hs]; [done |].
  unfold run_writer, mbind, st_bind, check_module_bytes.
  destruct (m (with_limit None)) as [[[] | e | c] w] eqn:He.
  - destruct (proj1 (Hs w) eq_refl) as [HP ->]. cbn [push_bytes w_bytes with_limit app].
    destruct (Z.ltb_spec (max_module_bytes limits) (zlen bs)).
    + split; [done |]. split; [done |]. intros [[_ ?] _]. lia.
    + split; [done |]. cbn. split; [by intros [= <-] | by intros [_ ->]].
  - split; [done |]. split; [done |]. intros [[HP _] _].
    discriminate (proj2 (Hs (push_bytes (with_limit None) bs)) (conj HP eq_refl)).
  - by destruct (Ht c w).
Qed.

Lemma encode_verified_iff vm limits x :
  total (encode_verified_module_bytes vm limits) /\
  (encode_verified_module_bytes vm limits = Ok x <->
   module_encodable limits (vm_module vm) /\ x = wire_module (vm_module vm)).
Proof.
  unfold encode_verified_module_bytes, encode_verified_module_bytes_inner.
  set (m := vm_module vm). eassert (writes (write_module m limits None) _ _) as Hm.
  { unfold write_module. apply writes_bind; [apply writes_bytes |].
    do 3 (apply writes_bind; [solve [eauto 1 with writes nocore] |]).
    apply writes_bind; [apply writes_span |].
    eapply writes_lift; [apply (encode_prototype_section_iff m limits []) |
      intros; apply encode_prototype_section_iff |].
    apply writes_section. }
  destruct (run_writer_check _ _ _ limits x Hm) as [Ht Hs].
  split; [exact Ht |]. rewrite Hs. unfold module_encodable, wire_module.
  f_equiv. clear. tauto.
Qed.
End Parts.

(** ** Under an allocation bound *)

Section Bounded.
Context `{Allocator}.
Context (bound : Z) (Hbound : 0 <= bound).

(** A bounded writer and an unbounded one at the same point, within the
    bound. *)
Definition agrees (wb wu : Writer) : Prop :=
  w_bound wb = Some bound /\ unbounded wu /\ w_bytes wb = w_bytes wu /\
  zlen (w_bytes wb) <= bound.

(** When [mb] leaves a writer that has not failed, it had not failed before,
    and [mu] does the same without the bound. A failure is kept to the end. *)
Definition refines (mb mu : ST Writer BytecodeError unit) : Prop :=
  forall wb wb', mb wb = (Ok tt, wb') -> w_failure wb' = None ->
    w_failure wb = None /\
    forall wu, agrees wb wu -> exists wu', mu wu = (Ok tt, wu') /\ agrees wb' wu'.

Lemma refines_ret : refines (mret tt) (mret tt).
Proof. intros wb wb' [= <-] Hf. split; [done |]. eauto. Qed.

Lemma refines_bytes bs : refines (write_bytes bs) (write_bytes bs).
Proof.
  intros wb wb' [= <-] Hf. unfold write in *. destruct (w_failure wb) as [e |] eqn:Hw; [congruence |].
  split; [done |]. intros wu (Hb & [Hub Huf] & Hbs & Hl).
  rewrite Hb in Hf |- *. unfold write_bytes, write. rewrite Huf, Hub. eexists. split; [done |].
  unfold checked_add_usize, agrees, unbounded in *.
  repeat case_match; cbn [w_failure set_failure push_bytes set_capacity w_bound w_bytes] in *;
    bool_hyps; simplify_eq; rewrite ?Hbs in *; split_and!; try done; rewrite ?zlen_app; lia.
Qed.

Lemma refines_bind mb mu kb ku : refines mb mu -> refines kb ku -> refines (mb;; kb) (mu;; ku).
Proof.
  intros Hm Hk wb wb' Hrun Hf. unfold mbind, st_bind in *.
  destruct (mb wb) as [[[] | |] w1] eqn:He; simplify_eq.
  destruct (Hk _ _ Hrun Hf) as [Hf1 Hk1]. destruct (Hm _ _ He Hf1) as [Hf0 Hm1].
  split; [done |]. intros wu Ha. destruct (Hm1 wu Ha) as (w2 & -> & Ha1).
  destruct (Hk1 w2 Ha1) as (w3 & -> & Ha2). eauto.
Qed.

Lemma refines_lift {A} (rb ru : res BytecodeError A) kb ku :
  (forall a, rb = Ok a -> ru = Ok a) -> (forall a, refines (kb a) (ku a)) ->
  refines (a ← lift rb; kb a) (a ← lift ru; ku a).
Proof.
  intros Hr Hk wb wb' Hrun Hf. unfold mbind, st_bind, lift in *.
  destruct rb as [a | |]; simplify_eq. rewrite (Hr a eq_refl). exact (Hk a _ _ Hrun Hf).
Qed.

Lemma refines_each {A} (fb fu : A -> ST Writer BytecodeError unit) l :
  (forall x, refines (fb x) (fu x)) -> refines (write_each fb l) (write_each fu l).
Proof.
  intros Hf. induction l; cbn [write_each]; [apply refines_ret | by apply refines_bind].
Qed.

Lemma refines_counted {A} (fb fu : A -> ST Writer BytecodeError unit) l message :
  (forall x, refines (fb x) (fu x)) ->
  refines (write_counted fb l message) (write_counted fu l message).
Proof.
  intros Hf. apply refines_lift; [done | intros len].
  apply refines_bind; [apply refines_bytes | by apply refines_each].
Qed.

(** What every writer that is the same with and without a bound needs. *)
Ltac refine_parts :=
  repeat first
    [ apply refines_ret | apply refines_bytes
    | progress unfold write_u8, write_u16, write_u32, write_u64, write_i64, write_blob, write_section
    | apply refines_counted; intros ?
    | apply refines_lift; [done | intros ?] | apply refines_bind | case_match ].

Lemma refines_span s : refines (write_span s) (write_span s).
Proof. unfold write_span. refine_parts. Qed.
Lemma refines_close_path c : refines (write_close_path c) (write_close_path c).
Proof. unfold write_close_path, write_span, write_optional_scope, write_binding. refine_parts. Qed.
#[local] Opaque write_close_path.
Lemma refines_constant c : refines (write_constant c) (write_constant c).
Proof. unfold write_constant. refine_parts. Qed.
Lemma refines_entry e : refines (write_entry e) (write_entry e).
Proof.
  unfold write_entry, write_instruction, write_result_mode, write_span, write_optional_close_path.
  refine_parts; apply refines_close_path.
Qed.

(** A nested writer under the bound. *)
Lemma run_refines mb mu bytes :
  refines mb mu -> run_writer (Some bound) mb = Ok bytes ->
  run_writer None mu = Ok bytes /\ zlen bytes <= bound.
Proof using Type*.
  intros Hm Hrun. unfold run_writer in *.
  destruct (mb (with_limit (Some bound))) as [[[] | |] wb] eqn:He; simplify_eq.
  unfold finish in Hrun. destruct (w_failure wb) as [e |] eqn:Hf; simplify_eq.
  destruct (Hm _ _ He Hf) as [_ Hu].
  destruct (Hu (with_limit None)) as (wu & -> & _ & [_ Huf] & Hbs & Hl); [done |].
  unfold finish. by rewrite Huf, <- Hbs.
Qed.

Lemma constants_refine cs limits bytes :
  encode_constants cs limits (Some bound) = Ok bytes -> encode_constants cs limits None = Ok bytes.
Proof using Type*.
  unfold encode_constants. intros ([] & -> & Hr)%res_bind_Ok. cbn [mbind res_bind].
  eapply run_refines; [| exact Hr]. apply refines_counted, refines_constant.
Qed.
Lemma instructions_refine es limits bytes :
  encode_instructions es limits (Some bound) = Ok bytes -> encode_instructions es limits None = Ok bytes.
Proof using Type*.
  unfold encode_instructions. intros ([] & -> & Hr)%res_bind_Ok. cbn [mbind res_bind].
  eapply run_refines; [| exact Hr]. apply refines_counted, refines_entry.
Qed.
Lemma metadata_refine p limits bytes :
  encode_metadata p limits (Some bound) = Ok bytes -> encode_metadata p limits None = Ok bytes.
Proof using Type*.
  unfold encode_metadata. intros ([] & -> & Hr)%res_bind_Ok. cbn [mbind res_bind].
  eapply run_refines; [| exact Hr].
  apply refines_bind; [| apply refines_bind]; apply refines_counted; intros;
    [| | apply refines_close_path];
    unfold write_binding_register, write_upvalue, write_upvalue_source, write_binding; refine_parts.
Qed.
Lemma prototype_refine p limits bytes :
  encode_prototype p limits (Some bound) = Ok bytes -> encode_prototype p limits None = Ok bytes.
Proof using Type*.
  unfold encode_prototype. intros Hr. eapply run_refines; [| exact Hr].
  unfold write_optional_proto, write_span, write_named_vararg, write_binding, write_frame,
    write_environment_source.
  repeat (apply refines_bind; [solve [refine_parts] |]).
  apply refines_lift; [apply constants_refine | intros ?]. apply refines_bind; [refine_parts |].
  apply refines_lift; [apply instructions_refine | intros ?]. apply refines_bind; [refine_parts |].
  apply refines_lift; [apply metadata_refine | intros ?]. refine_parts.
Qed.
Lemma prototype_section_refine m limits bytes :
  encode_prototype_section m limits (Some bound) = Ok bytes ->
  encode_prototype_section m limits None = Ok bytes.
Proof using Type*.
  unfold encode_prototype_section. intros Hr. eapply run_refines; [| exact Hr].
  apply refines_counted. intros p. apply refines_lift; [apply prototype_refine | intros ?].
  refine_parts.
Qed.

Lemma refines_check limits : refines (check_module_bytes limits) (check_module_bytes limits).
Proof.
  intros wb wb' Hc Hf. unfold check_module_bytes in *.
  destruct (max_module_bytes limits <? zlen (w_bytes wb)) eqn:Hl; simplify_eq. split; [done |].
  intros wu Ha. pose proof Ha as (_ & _ & <- & _). rewrite Hl. eauto.
Qed.

Lemma module_refines m limits :
  refines (write_module m limits (Some bound)) (write_module m limits None).
Proof using Type*.
  unfold write_module.
  repeat (apply refines_bind; [solve [unfold write_span; refine_parts] |]).
  apply refines_lift; [apply prototype_section_refine | intros ?]. refine_parts.
Qed.

(** The memory-admission bound of [encode_verified_module_bytes_bounded] is
    transparent: when the bounded encoder succeeds, the unbounded one
    produces the same bytes, and they fit the bound; the nested writers of
    the sections are each held to the bound too, and a failure recorded
    anywhere surfaces at the end. *)
Theorem bounded_encode_refines vm limits bytes :
  encode_verified_module_bytes_bounded vm limits bound = Ok bytes ->
  encode_verified_module_bytes vm limits = Ok bytes /\ zlen bytes <= bound.
Proof using Type*.
  intros Hr. eapply run_refines; [| exact Hr].
  apply refines_bind; [apply module_refines | apply refines_check].
Qed.
End Bounded.

Lemma bounded_encode_refines_witness :
  exists vm bytes, zlen bytes = 365 /\
    @encode_verified_module_bytes exact_allocator vm VerifyLimits_default = Ok bytes.
Proof.
  exists {| vm_module := demo_module; vm_transport_scan_units := 16 |}. eexists. split; [| 
  apply (@bounded_encode_refines exact_allocator 4096); [lia | vm_compute; reflexivity]].
  vm_compute. reflexivity.
Defined.
