(* ===== verification/RoundTrip.v ===== *)
(** Whole modules through the codec: the decoder accepts exactly the wire
    format, encoding then decoding gives the module back, decoding then
    encoding gives the bytes back, and an allocation bound changes nothing but
    whether encoding succeeds. *)

From Stdlib Require Import ZArith Lia.
From stdpp Require Import base list numbers strings.
From S2P Require Import Prelude Number Bytecode Verifier Dominance VerifierTotal Codec Wire Encode.

Local Open Scope Z_scope.

(** ** The format is made of bytes *)

Create HintDb wire.
Lemma Forall_u8_app a b : Forall u8 a -> Forall u8 b -> Forall u8 (a ++ b).
Proof. intros. by apply Forall_app. Qed.
Lemma Forall_u8_cons x l : u8 x -> Forall u8 l -> Forall u8 (x :: l).
Proof. by constructor. Qed.
Lemma Forall_u8_nil : Forall u8 [].
Proof. constructor. Qed.
Lemma u8_of_bool_u8 b : u8 (u8_of_bool b).
Proof. destruct b; vm_compute; split; discriminate. Qed.
Lemma profile_tag_u8 p : u8 (profile_tag p).
Proof. destruct p; vm_compute; split; discriminate. Qed.
Lemma canonical_flags_u8 i : u8 (canonical_effect_flags i).
Proof. apply canonical_flags_known. Qed.
Lemma u8_small n : 0 <= n <= 255 -> u8 n.
Proof. done. Qed.
Lemma Forall_u8_concat {A} (wire : A -> list Z) l :
  Forall (fun x => Forall u8 (wire x)) l -> Forall u8 (concat (map wire l)).
Proof. induction 1; cbn; [constructor | by apply Forall_u8_app]. Qed.
Lemma wire_list_u8 {A} (wire : A -> list Z) l :
  Forall (fun x => Forall u8 (wire x)) l -> Forall u8 (wire_list wire l).
Proof. intros H. apply Forall_u8_app; [apply le_bytes_u8 | by apply Forall_u8_concat]. Qed.
Lemma wire_section_u8 body : Forall u8 body -> Forall u8 (wire_section body).
Proof. intros H. apply Forall_u8_app; [apply le_bytes_u8 | done]. Qed.
#[local] Opaque le_bytes wire_list wire_section u8_of_bool.
#[export] Hint Resolve Forall_u8_app Forall_u8_cons Forall_u8_nil u8_of_bool_u8 profile_tag_u8
  canonical_flags_u8 wire_list_u8 wire_section_u8 le_bytes_u8 unary_tag_u8 binary_tag_u8
  exit_tag_u8 instruction_tag_u8 : wire.
#[export] Hint Extern 2 (u8 _) => (range_lia) : wire.

Lemma wire_option_u8 {A} (wire : A -> list Z) o :
  option_ok (fun x => Forall u8 (wire x)) o -> Forall u8 (wire_option wire o).
Proof. destruct o; cbn [option_ok wire_option]; auto with wire. Qed.
Lemma wire_span_u8 s : Forall u8 (wire_span s).
Proof. unfold wire_span. auto with wire. Qed.
Lemma wire_binding_u8 s : Forall u8 (wire_binding s).
Proof. unfold wire_binding. auto with wire. Qed.
#[local] Opaque wire_option wire_span wire_binding.
#[export] Hint Resolve wire_option_u8 wire_span_u8 wire_binding_u8 : wire.
Lemma wire_instruction_u8 i : Forall u8 (wire_instruction i).
Proof.
  unfold wire_instruction. apply Forall_u8_cons; [apply instruction_tag_u8 |].
  destruct i; unfold wire_operands, wire_mode; repeat case_match; auto 10 with wire.
Qed.
Lemma wire_source_u8 s : Forall u8 (wire_source s).
Proof. destruct s; unfold wire_source; auto with wire. Qed.
#[local] Opaque wire_instruction wire_source.
#[export] Hint Resolve wire_instruction_u8 wire_source_u8 : wire.
Lemma wire_frame_u8 f : Forall u8 (wire_frame f).
Proof. unfold wire_frame. auto 10 with wire. Qed.
Lemma wire_binding_register_u8 br : Forall u8 (wire_binding_register br).
Proof. unfold wire_binding_register. auto with wire. Qed.
Lemma wire_upvalue_u8 u : Forall u8 (wire_upvalue u).
Proof. unfold wire_upvalue, wire_upvalue_source. case_match; auto with wire. Qed.
#[local] Opaque wire_frame wire_binding_register wire_upvalue.
#[export] Hint Resolve wire_frame_u8 wire_binding_register_u8 wire_upvalue_u8 : wire.
Lemma option_u32_u8 o : option_ok (fun x => Forall u8 (le_bytes 4 x)) o.
Proof. destruct o; cbn [option_ok wire_option]; auto with wire. Qed.
Lemma wire_path_u8 c : Forall u8 (wire_path c).
Proof.
  unfold wire_path. pose proof (option_u32_u8 (target_scope c)).
  repeat first [apply Forall_u8_app | apply Forall_u8_cons]; auto with wire;
    apply wire_list_u8, Forall_true; auto with wire.
Qed.
#[local] Opaque wire_path.
#[export] Hint Resolve wire_path_u8 option_u32_u8 : wire.
Lemma wire_constant_u8 c : constant_ok c -> Forall u8 (wire_constant c).
Proof. destruct c; cbn [constant_ok wire_constant]; intuition auto with wire. Qed.
Lemma wire_entry_u8 e : Forall u8 (wire_entry e).
Proof.
  unfold wire_entry. repeat apply Forall_u8_app; auto with wire.
  apply wire_option_u8. destruct (bi_close_path e); cbn [option_ok]; auto with wire.
Qed.
#[local] Opaque wire_constant wire_entry.
#[export] Hint Resolve wire_constant_u8 wire_entry_u8 : wire.

Lemma wire_prototype_u8 p : Forall constant_ok (constants p) -> Forall u8 (wire_prototype p).
Proof.
  intros Hc. unfold wire_prototype, wire_metadata.
  assert (option_ok (fun x => Forall u8 (wire_binding_register x)) (named_vararg p)) as Hn
    by (destruct (named_vararg p); cbn [option_ok]; auto with wire).
  repeat apply Forall_u8_app; auto with wire.
  - apply wire_section_u8, wire_list_u8. eapply Forall_impl; [exact Hc |]. apply wire_constant_u8.
  - apply wire_section_u8, wire_list_u8, Forall_true. auto with wire.
  - apply wire_section_u8. repeat apply Forall_u8_app; apply wire_list_u8, Forall_true; auto with wire.
Qed.

Lemma prototypes_ok_constants limits ti tc ps :
  prototypes_ok limits ti tc ps -> Forall (fun p => Forall constant_ok (constants p)) ps.
Proof.
  revert ti tc. induction ps as [| p ps IH]; intros ti tc; cbn; [constructor |].
  intros (_ & _ & _ & Hp & _ & _ & Hps). constructor; [| by eapply IH].
  unfold prototype_ok, list_ok in Hp. tauto.
Qed.

Lemma wire_module_u8 profile limits m : module_ok profile limits m -> Forall u8 (wire_module m).
Proof.
  intros (_ & _ & Hn & _ & _ & _ & _ & _ & Hps). unfold wire_module. rewrite Hn.
  apply prototypes_ok_constants in Hps.
  assert (Forall u8 RVLU_MAGIC) by (repeat constructor; vm_compute; discriminate).
  assert (Forall u8 [profile_tag (m_profile m)]) by auto with wire.
  assert (Forall u8 [RVLU_NUMERIC_I64_F64]) by (repeat constructor; vm_compute; discriminate).
  assert (Forall u8 (wire_list (fun p => wire_section (wire_prototype p)) (prototypes m))).
  { apply wire_list_u8. eapply Forall_impl; [exact Hps |].
    intros p Hp. by apply wire_section_u8, wire_prototype_u8. }
  auto 10 with wire.
Qed.

(** ** Modules *)

(** A module as the decoder rebuilds it: the function map in the order of the
    prototypes. *)
Definition with_canonical_map (m : BytecodeModule) : BytecodeModule :=
  {| format_version := format_version m; m_profile := m_profile m;
     numeric_config := numeric_config m; m_span := m_span m;
     function_prototypes := canonical_map (prototypes m); prototypes := prototypes m |}.

Lemma list_ok_Forall {A} limit_value (ok P : A -> Prop) l :
  (forall x, ok x -> P x) -> list_ok limit_value ok l -> Forall P l.
Proof. intros H (_ & _ & Hl). by eapply Forall_impl. Qed.

Lemma path_ok_encodable limits c : path_ok limits c -> path_encodable c.
Proof. unfold path_ok, path_encodable. intros (_ & _ & _ & _ & _ & -> & ? & _). done. Qed.

Lemma prototype_ok_encodable limits limits' p :
  max_constants limits <= max_constants limits' ->
  max_instructions limits <= max_instructions limits' ->
  max_upvalues_per_prototype limits <= max_upvalues_per_prototype limits' ->
  prototype_ok limits p -> prototype_encodable limits' p.
Proof.
  intros Hc Hi Hu (_ & _ & _ & _ & _ & _ & _ & _ & _ & _ & Hcs & His & (Hb & Hup & Hcp) & Lc & Li & Lm).
  unfold metadata_of in *. cbn [fst snd] in *.
  assert (Forall constant_encodable (constants p)).
  { eapply list_ok_Forall; [| exact Hcs]. intros []; cbn; tauto. }
  assert (Forall entry_encodable (instructions p)).
  { eapply list_ok_Forall; [| exact His]. intros e (_ & _ & Ho). unfold entry_encodable.
    destruct (bi_close_path e); cbn in *; [by eapply path_ok_encodable | done]. }
  assert (Forall path_encodable (close_paths p)).
  { eapply list_ok_Forall; [| exact Hcp]. intros e. apply path_ok_encodable. }
  unfold prototype_encodable, list_ok in *. split_and!; try tauto; lia.
Qed.

Lemma prototypes_ok_encodable limits ti tc ps :
  0 <= ti -> 0 <= tc -> prototypes_ok limits ti tc ps ->
  Forall (fun p => prototype_encodable limits p /\ zlen (wire_prototype p) <= U32_MAX) ps.
Proof.
  revert ti tc. induction ps as [| p ps IH]; intros ti tc Hi Hc; cbn [prototypes_ok]; [constructor |].
  intros (Hl & _ & _ & Hp & _ & _ & Hps). constructor.
  - split; [| done]. eapply prototype_ok_encodable; [.. | exact Hp]; cbn; lia.
  - pose proof (zlen_nonneg (instructions p)). pose proof (zlen_nonneg (constants p)).
    eapply (IH _ _ _ _ Hps). Unshelve. all: lia.
Qed.

Lemma module_ok_encodable profile limits m :
  module_ok profile limits m -> zlen (wire_module m) <= max_module_bytes limits ->
  module_encodable limits m.
Proof.
  intros (_ & _ & _ & _ & _ & _ & Hn & Hl & Hps) Hm. split_and!; try done.
  by eapply prototypes_ok_encodable; [.. | exact Hps].
Qed.

(** ** The decoder never panics *)

Definition never_crashes {S E A} (m : ST S E A) : Prop := forall s c s', m s <> (Crash c, s').

Section NeverCrashes.
Context {S E : Type}.

Lemma nc_ret {A} (a : A) : never_crashes (S := S) (E := E) (mret a).
Proof. done. Qed.
Lemma nc_fail {A} (e : E) : never_crashes (S := S) (A := A) (fail e).
Proof. done. Qed.
Lemma nc_bind {A B} (m : ST S E A) (f : A -> ST S E B) :
  never_crashes m -> (forall a, never_crashes (f a)) -> never_crashes (m ≫= f).
Proof.
  intros Hm Hf s c s'. unfold mbind, st_bind. destruct (m s) as [[a | e | k] s1] eqn:He; [apply Hf | done |].
  by apply Hm in He.
Qed.
Lemma nc_fmap {A B} (f : A -> B) (m : ST S E A) : never_crashes m -> never_crashes (f <$> m).
Proof.
  intros Hm s c s'. unfold fmap, st_fmap. destruct (m s) as [[a | e | k] s1] eqn:He; [done | done |].
  by apply Hm in He.
Qed.
Lemma nc_lift {A} (r : res E A) : total r -> never_crashes (S := S) (lift r).
Proof. intros Hr s c s' [= Hc _]. by apply Hr in Hc. Qed.
End NeverCrashes.

Create HintDb nocrash.
#[export] Hint Resolve nc_ret nc_fail nc_bind nc_fmap nc_lift : nocrash.

Lemma nc_take n : never_crashes (read_take n).
Proof. intros r c r'. unfold read_take. repeat case_match; done. Qed.
Lemma nc_location : never_crashes read_location.
Proof. done. Qed.
Lemma nc_fail_before {A} back message : never_crashes (@fail_before A back message).
Proof. done. Qed.
Lemma nc_end message : never_crashes (read_end message).
Proof. intros r c r'. unfold read_end. by case_match. Qed.
Lemma nc_n {A} (read : Read A) n : never_crashes read -> never_crashes (read_n read n).
Proof. intros H. induction n; cbn [read_n]; auto with nocrash. Qed.
#[export] Hint Resolve nc_take nc_location nc_fail_before nc_end nc_n : nocrash.

(** Unfolds a reader down to these. *)
Ltac never_crashes_tac :=
  repeat first
    [ solve [eauto 4 with nocrash] | apply nc_bind; [| intros ?] | apply nc_fmap
    | apply nc_lift; unfold total | case_match ].

Lemma run_reader_total {A} (m : Read A) bytes base : never_crashes m -> total (run_reader m bytes base).
Proof.
  intros Hm c. unfold run_reader. destruct (m (new_at bytes base)) as [r r'] eqn:He. cbn. intros ->.
  by apply Hm in He.
Qed.

Lemma nc_span : never_crashes read_span.
Proof. unfold read_span, read_u64. never_crashes_tac. Qed.
Lemma nc_count l m : never_crashes (read_count l m).
Proof. unfold read_count, read_u32. never_crashes_tac. Qed.
Lemma nc_counted {A} (read : Read A) l m : never_crashes read -> never_crashes (read_counted read l m).
Proof. intros H. unfold read_counted, read_list. apply nc_bind; [apply nc_count | auto with nocrash]. Qed.
Lemma nc_all {A} (m : Read A) message : never_crashes m -> never_crashes (read_all m message).
Proof. intros H. unfold read_all. never_crashes_tac. Qed.
Lemma nc_section : never_crashes read_section.
Proof. unfold read_section, read_u32. never_crashes_tac. Qed.
Lemma nc_binding : never_crashes read_binding.
Proof. unfold read_binding, read_u32. never_crashes_tac. Qed.
#[export] Hint Resolve nc_span nc_count nc_counted nc_all nc_section nc_binding : nocrash.

Lemma nc_instruction : never_crashes read_instruction.
Proof.
  unfold read_instruction, read_result_mode, read_u8, read_u16, read_u32, parse_unary, parse_binary.
  never_crashes_tac.
Qed.
Lemma nc_frame : never_crashes read_frame.
Proof.
  unfold read_frame, read_environment_source, read_flag, read_u8, read_u16, read_u32.
  never_crashes_tac.
Qed.
Lemma nc_close_path limits : never_crashes (read_close_path limits).
Proof.
  unfold read_close_path, read_optional_scope, parse_exit, read_u8, read_u16, read_u32.
  never_crashes_tac.
Qed.
Lemma nc_binding_register : never_crashes read_binding_register.
Proof. unfold read_binding_register, read_u16. never_crashes_tac. Qed.
Lemma nc_upvalue : never_crashes read_upvalue.
Proof. unfold read_upvalue, read_upvalue_source, read_u8, read_u16. never_crashes_tac. Qed.
Lemma nc_constant : never_crashes read_constant.
Proof.
  unfold read_constant, read_blob, read_i64, read_u8, read_u32, read_u64. never_crashes_tac.
Qed.
#[export] Hint Resolve nc_instruction nc_frame nc_close_path nc_binding_register nc_upvalue
  nc_constant : nocrash.
Lemma nc_entry limits : never_crashes (read_entry limits).
Proof. unfold read_entry, read_optional_close_path, read_u8. never_crashes_tac. Qed.
#[export] Hint Resolve nc_entry : nocrash.

Lemma decode_prototype_total bytes limits base : total (decode_prototype bytes limits base).
Proof.
  apply run_reader_total, nc_all.
  unfold read_optional_proto, read_named_vararg, read_flag, read_u8, read_u16, read_u32,
    decode_constants, decode_instructions, decode_metadata.
  repeat first
    [ solve [eauto 4 with nocrash] | apply nc_bind; [| intros ?] | apply nc_fmap
    | apply nc_lift, run_reader_total, nc_all | case_match ].
Qed.

Lemma nc_prototypes limits count ti tc : never_crashes (read_prototypes limits count ti tc).
Proof.
  revert ti tc. induction count as [| count IH]; intros ti tc; cbn [read_prototypes]; [done |].
  repeat first
    [ apply IH | apply nc_lift, decode_prototype_total | apply nc_lift; unfold remaining; by case_match
    | solve [eauto 4 with nocrash] | apply nc_bind; [| intros ?] ].
Qed.

Lemma nc_module profile limits : never_crashes (read_module profile limits).
Proof.
  unfold read_module, read_u8, read_u16, parse_profile.
  repeat first
    [ apply nc_lift, run_reader_total, nc_all, nc_bind; [apply nc_count | intros ?; apply nc_prototypes]
    | solve [eauto 4 with nocrash] | apply nc_bind; [| intros ?] | case_match
    | apply nc_lift; unfold total; by case_match ].
Qed.

Lemma prototypes_ok_operands limits ti tc ps :
  prototypes_ok limits ti tc ps -> forall p, p ∈ ps -> machine_operands p.
Proof.
  revert ti tc. induction ps as [| q ps IH]; intros ti tc; cbn; [by intros _ p ?%elem_of_nil |].
  intros (_ & _ & _ & Hq & _ & _ & Hps) p [-> | Hin]%elem_of_cons; [| by eapply IH].
  unfold prototype_ok, list_ok in Hq. destruct Hq as (_ & _ & _ & _ & _ & _ & _ & _ & _ & _ & _ & (_ & _ & Hi) & _).
  intros pc entry [_ He]%zget_Some. rewrite Forall_forall in Hi.
  by destruct (Hi entry (list_elem_of_lookup_2 _ _ _ He)).
Qed.

Section Theorems.
Context `{Allocator}.

Lemma decode_module_iff bytes profile limits vm :
  Forall u8 bytes -> zlen bytes <= USIZE_MAX ->
  decode_module bytes profile limits = Ok vm <->
  zlen bytes <= max_module_bytes limits /\
  exists m, module_ok profile limits m /\ bytes = wire_module m /\
    verify_module m profile limits = Ok vm.
Proof.
  intros Hu Hl. unfold decode_module. rewrite res_bind_Ok. split.
  - intros ([] & Hb%fail_if_Ok & (m & Hm & Hv)%res_bind_Ok).
    apply read_module_iff in Hm as [Ho He]; [| done..]. split; [lia |]. by exists m.
  - intros (Hb & m & Ho & He & Hv). exists tt. split; [apply fail_if_Ok; lia |].
    apply res_bind_Ok. exists m. split; [by apply read_module_iff | done].
Qed.

(** C4: The decoder accepts a byte string exactly when it fits the limit and is
    the wire encoding of a module that is within its machine ranges and
    limits and verifies: a decoder that skipped a tag check, a trailing-byte
    check or a length check would accept more, one that read a field wrongly
    less. *)
Theorem decode_module_exact bytes profile limits vm :
  Forall u8 bytes -> zlen bytes <= USIZE_MAX ->
  decode_module bytes profile limits = Ok vm <->
  zlen bytes <= max_module_bytes limits /\
  exists m, module_ok profile limits m /\ bytes = wire_module m /\
    verify_module m profile limits = Ok vm.
Proof. apply decode_module_iff. Qed.

(** C10: The encoder refines the wire format: it succeeds exactly on the modules
    that verify and whose counts and lengths fit, and then it produces the
    format's bytes; the serialisation of a verified module never panics. *)
Theorem encode_module_exact module profile limits :
  (forall vm, total (encode_verified_module_bytes vm limits)) /\
  forall e, encode_module module profile limits = Ok e <->
    verify_module module profile limits = Ok (em_verified e) /\
    module_encodable limits (vm_module (em_verified e)) /\
    em_bytes e = wire_module (vm_module (em_verified e)).
Proof.
  split; [intros vm; exact (proj1 (encode_verified_iff vm limits [])) | intros e].
  unfold encode_module. rewrite res_bind_Ok. split.
  - intros (vm & Hv & (bytes & Hb & [= <-])%res_bind_Ok). cbn [em_verified em_bytes].
    apply encode_verified_iff in Hb as [Ho ->]. done.
  - intros (Hv & Ho & He). exists (em_verified e). split; [done |].
    apply res_bind_Ok. exists (em_bytes e). split; [by apply encode_verified_iff | by destruct e].
Qed.

Lemma find_prototype_canonical m p :
  NoDup (map p_id (prototypes m)) -> p ∈ prototypes m ->
  find_prototype m (p_id p) = Some p.
Proof.
  unfold find_prototype. induction (prototypes m) as [| q ps IH]; cbn [map find]; [by intros _ ?%elem_of_nil |].
  intros [Hn Hps]%NoDup_cons [-> | Hin]%elem_of_cons.
  - by rewrite Z.eqb_refl.
  - destruct (Z.eqb_spec (p_id q) (p_id p)) as [He |]; [| by apply IH].
    exfalso. apply Hn. rewrite He. by apply list_elem_of_fmap_2.
Qed.

Lemma canonical_map_checked m :
  NoDup (map p_id (prototypes m)) ->
  for_each (check_function_mapping m) (canonical_map (prototypes m)) = Ok tt.
Proof.
  intros Hn. apply for_each_Ok, List.Forall_forall. intros fp Hin%list_elem_of_In.
  apply list_elem_of_fmap in Hin as (p & -> & Hp). unfold check_function_mapping. cbn [fst snd].
  rewrite find_prototype_canonical by done. by rewrite Z.eqb_refl.
Qed.

(** Only the function map of the module differs, and that of the decoder is
    always right. *)
Lemma verify_canonical m profile limits vm :
  verify_module m profile limits = Ok vm ->
  verify_module (with_canonical_map m) profile limits =
    Ok {| vm_module := with_canonical_map m; vm_transport_scan_units := vm_transport_scan_units vm |}.
Proof.
  intros Hv. pose proof (verify_module_Ok _ _ _ _ Hv) as (_ & _ & _ & _ & _ & _ & Hid & _).
  assert (zlen (canonical_map (prototypes m)) = zlen (prototypes m)) as Hlen
    by (unfold zlen, canonical_map; by rewrite length_map).
  pose proof (canonical_map_checked (with_canonical_map m) Hid) as Hmap.
  unfold verify_module in *.
  change (fold_res (verify_each (with_canonical_map m) limits)) with (fold_res (verify_each m limits)).
  change (module_transport_scan_units (with_canonical_map m)) with (module_transport_scan_units m).
  cbn [with_canonical_map format_version m_profile numeric_config m_span
    function_prototypes prototypes] in *. rewrite Hlen, Z.eqb_refl. cbn [negb fail_if].
  repeat match type of Hv with (fail_if ?b _ ≫= _) = _ =>
    destruct b; cbn [fail_if mbind res_bind] in Hv |- *; [discriminate |] end.
  apply res_bind_Ok in Hv as (s & -> & Hv). cbn [mbind res_bind].
  rewrite Hmap. cbn [mbind res_bind].
  apply res_bind_Ok in Hv as (_ & _ & (u & -> & [= <-])%res_bind_Ok). done.
Qed.


(** C9: Decoding then encoding gives the bytes back: the format is canonical, no
    two byte strings decode to the same module. *)
Theorem decode_encode_module bytes profile limits vm :
  Forall u8 bytes -> zlen bytes <= USIZE_MAX ->
  decode_module bytes profile limits = Ok vm ->
  encode_verified_module_bytes vm limits = Ok bytes.
Proof.
  intros Hu Hl (Hb & m & Ho & -> & Hv)%decode_module_iff; [| done..].
  pose proof (verify_module_Ok _ _ _ _ Hv) as (He & _).
  apply encode_verified_iff. rewrite He. split; [| done].
  by eapply module_ok_encodable.
Qed.
(** C13: Decoding is total: on every byte string, whatever it holds, the decoder
    and the verifier behind it return a module or a typed error; no input makes
    them panic, index out of range or run for ever. *)
Theorem decode_module_total bytes profile limits :
  Forall u8 bytes -> zlen bytes <= USIZE_MAX -> total (decode_module bytes profile limits).
Proof.
  intros Hu Hl. unfold decode_module. apply total_bind; [apply total_fail_if | intros _ _].
  apply total_bind; [apply run_reader_total, nc_module | intros m Hm].
  apply read_module_iff in Hm as [(_ & _ & _ & _ & _ & _ & _ & _ & Ho) _]; [| done..].
  by eapply verify_total, prototypes_ok_operands.
Qed.
End Theorems.

(** ** The theorems on a concrete module *)

Definition demo_verified : VerifiedModule :=
  {| vm_module := demo_module; vm_transport_scan_units := 16 |}.

Lemma demo_bytes_u8 : Forall u8 (wire_module demo_module).
Proof. vm_compute. repeat constructor; discriminate. Qed.

Lemma demo_prototypes_ok : prototypes_ok VerifyLimits_default 0 0 [demo_prototype].
Proof.
  repeat first [apply Forall_nil_2 | apply Forall_cons_2 | split | exact I]; vm_compute; try done.
Qed.

Lemma decode_module_exact_witness :
  exists m, wire_module demo_module = wire_module m /\
    @verify_module exact_allocator m Lua55 VerifyLimits_default = Ok demo_verified.
Proof.
  destruct (proj1 (@decode_module_exact exact_allocator (wire_module demo_module) Lua55
    VerifyLimits_default demo_verified demo_bytes_u8 ltac:(vm_compute; discriminate)))
    as (_ & m & _ & He & Hv); [vm_compute; reflexivity | by exists m].
Defined.

Lemma decode_module_total_witness :
  total (@decode_module exact_allocator (wire_module demo_module) Lua55 VerifyLimits_default).
Proof. apply decode_module_total; [exact demo_bytes_u8 | vm_compute; discriminate]. Defined.


Lemma decode_encode_module_witness :
  @encode_verified_module_bytes exact_allocator demo_verified VerifyLimits_default =
    Ok (wire_module demo_module).
Proof.
  apply (@decode_encode_module exact_allocator (wire_module demo_module) Lua55 VerifyLimits_default).
  - exact demo_bytes_u8.
  - vm_compute. discriminate.
  - vm_compute. reflexivity.
Defined.

(** ** Where the encoder and the decoder disagree *)

(** A function with one constant and two bound locals. *)
Definition two_locals_prototype : BytecodePrototype := {|
  p_id := 0; p_function := 0; p_parent := None; p_span := demo_span;
  register_count := 4; parameter_count := 0; is_variadic := false; named_vararg := None;
  frame := {| register_limit := 4; initial_top := 1; dynamic_top := 3; return_base := 0;
              environment := 0; environment_source := RootExternal;
              registers_start_as_nil := true |};
  global_environment := 0; global_environment_binding := demo_binding;
  binding_registers := [(demo_binding, 0); ({| bb_function := 0; bb_ordinal := 1 |}, 1)];
  constants := [CInteger 1]; upvalues := [];
  instructions := map demo_instruction [LoadConst 1 0; Return 0 (Fixed 0)]; close_paths := []
|}.
Definition two_locals_module : BytecodeModule := {|
  format_version := RVLU_V2; m_profile := Lua55; numeric_config := 1; m_span := demo_span;
  function_prototypes := [(0, 0)]; prototypes := [two_locals_prototype]
|}.
Definition one_constant_limits : VerifyLimits :=
  let d := VerifyLimits_default in
  {| max_module_bytes := max_module_bytes d; max_artifact_bytes := max_artifact_bytes d;
     max_prototypes := max_prototypes d;
     max_instructions := max_instructions d; max_constants := 1; max_registers := max_registers d;
     max_upvalues_per_prototype := max_upvalues_per_prototype d |}.

(** The verifier and the encoder hold only the constants to [max_constants],
    the decoder also holds to it the bound locals, the close paths and the
    bindings of each close path: under one and the same set of limits there is
    a module that [encode_module] serialises and [decode_module] refuses. *)
Theorem encode_decode_limit_gap :
  exists module limits e offset,
    @encode_module exact_allocator module Lua55 limits = Ok e /\
    @decode_module exact_allocator (em_bytes e) Lua55 limits =
      Err (limit offset "RVLU binding metadata 超過限制").
Proof.
  exists two_locals_module, one_constant_limits,
    {| em_verified := {| vm_module := two_locals_module; vm_transport_scan_units := 7 |};
       em_bytes := wire_module two_locals_module |}, 167.
  split; vm_compute; reflexivity.
Qed.

(** A second function, and a module whose function map lists the first one
    twice and the second one never. *)
Definition other_prototype : BytecodePrototype := {|
  p_id := 1; p_function := 1; p_parent := None; p_span := demo_span;
  register_count := 4; parameter_count := 0; is_variadic := false; named_vararg := None;
  frame := frame two_locals_prototype;
  global_environment := 0;
  global_environment_binding := {| bb_function := 1; bb_ordinal := 0 |};
  binding_registers := [({| bb_function := 1; bb_ordinal := 0 |}, 0)];
  constants := [CInteger 1]; upvalues := [];
  instructions := map demo_instruction [LoadConst 1 0; Return 0 (Fixed 0)]; close_paths := []
|}.
Definition repeated_map_module : BytecodeModule := {|
  format_version := RVLU_V2; m_profile := Lua55; numeric_config := 1; m_span := demo_span;
  function_prototypes := [(0, 0); (0, 0)];
  prototypes := [two_locals_prototype; other_prototype]
|}.

(** [verify_module] compares the length of the function map with the number of
    prototypes and checks each entry, but not that the entries are distinct: it
    accepts a map that repeats one function and omits another, and the encoder
    drops it, so that such a module does not survive the round trip. *)
Theorem function_map_not_preserved :
  exists module e vm f,
    @encode_module exact_allocator module Lua55 VerifyLimits_default = Ok e /\
    @decode_module exact_allocator (em_bytes e) Lua55 VerifyLimits_default = Ok vm /\
    (f ∈ map p_function (prototypes module)) /\
    (f ∉ map fst (function_prototypes module)) /\
    vm_module vm <> module.
Proof.
  exists repeated_map_module,
    {| em_verified := {| vm_module := repeated_map_module; vm_transport_scan_units := 12 |};
       em_bytes := wire_module repeated_map_module |},
    {| vm_module := with_canonical_map repeated_map_module; vm_transport_scan_units := 12 |}, 1.
  split_and!; [vm_compute; reflexivity | vm_compute; reflexivity | | |].
  - right. left.
  - apply (bool_decide_unpack _). vm_compute. exact I.
  - discriminate.
Qed.
