(* ===== verification/Lexer.v ===== *)
(** The lexer of the compiler (crates/rivetlua-compiler/src/lexer: mod.rs,
    cursor.rs, scanner.rs): the cursor, tokens and diagnostics, the scanning of
    names, numerals, strings and comments, and [lex]. *)

From Stdlib Require Import ZArith Lia SpecFloat Strings.Byte.
From stdpp Require Import base list numbers strings.
From S2P Require Import Prelude Float Number.

Local Open Scope Z_scope.

(** Byte literals: ["a"%u8] is [b'a']. *)
Definition u8_of_byte (b : Byte.byte) : Z := Z.of_N (Byte.to_N b).
Definition byte_of_u8 (z : Z) : option Byte.byte :=
  if z <? 0 then None else Byte.of_N (Z.to_N z).
Declare Scope u8_scope.
Delimit Scope u8_scope with u8.
String Notation Z u8_of_byte byte_of_u8 : u8_scope.
(** [b'\n'], [b'\r'], [b'\t'] and the double quote. *)
Abbreviation LF := 10 (only parsing).
Abbreviation CR := 13 (only parsing).
Abbreviation TAB := 9 (only parsing).
Abbreviation DQUOTE := 34 (only parsing).

(** ** Data (lexer/mod.rs) *)

Record CompileLimits := {
  max_source_bytes : Z; max_token_bytes : Z; max_tokens : Z; max_lines : Z;
  max_ast_nodes : Z; max_parse_depth : Z; max_statements : Z; max_list_entries : Z;
  max_parameters : Z; max_bindings_per_function : Z; max_scope_depth : Z;
  max_labels : Z; max_gotos : Z; max_upvalues_per_function : Z
}.

Definition CompileLimits_default : CompileLimits := {|
  max_source_bytes := 1024 * 1024; max_token_bytes := 64 * 1024; max_tokens := 100000;
  max_lines := 100000; max_ast_nodes := 100000; max_parse_depth := 128;
  max_statements := 50000; max_list_entries := 50000; max_parameters := 255;
  max_bindings_per_function := 100000; max_scope_depth := 128; max_labels := 50000;
  max_gotos := 50000; max_upvalues_per_function := 255
|}.

Inductive DiagnosticCode := Lex | CompileLimit | Parse | Resolve.

Record Span := { span_start : Z; span_end : Z }.
Record SourcePosition := { p_line : Z; p_column : Z }.

Record Diagnostic := {
  d_code : DiagnosticCode; d_span : Span; d_start : SourcePosition;
  d_end : SourcePosition; d_message : string
}.

Module Keyword.
Inductive Keyword :=
  | And | Break | Do | Else | ElseIf | End | False | For | Function | Goto | If | In
  | Local | Nil | Not | Or | Repeat | Return | Then | True | Until | While | Global.
#[global] Instance Keyword_eq_dec : EqDecision Keyword.
Proof. solve_decision. Defined.
End Keyword.

Module Symbol.
Inductive Symbol :=
  | Plus | Minus | Star | Slash | FloorSlash | Percent | Caret | Hash | Ampersand
  | Pipe | Tilde | ShiftLeft | ShiftRight | EqualEqual | NotEqual | Less | LessEqual
  | Greater | GreaterEqual | Assign | OpenParen | CloseParen | OpenBrace | CloseBrace
  | OpenBracket | CloseBracket | Semicolon | Colon | DoubleColon | Comma | Dot | Concat
  | Vararg.
#[global] Instance Symbol_eq_dec : EqDecision Symbol.
Proof. solve_decision. Defined.
End Symbol.

Module Literal.
Inductive Literal :=
  | Name (bytes : list Z)
  | Integer (n : Number)
  | Float (n : Number)
  | String (bytes : list Z).
End Literal.

Module TokenKind.
Inductive TokenKind :=
  | Eof
  | Keyword (k : Keyword.Keyword)
  | Name
  | Integer
  | Float
  | String
  | Symbol (s : Symbol.Symbol).
#[global] Instance TokenKind_eq_dec : EqDecision TokenKind.
Proof. solve_decision. Defined.
End TokenKind.

Record Token := {
  kind : TokenKind.TokenKind; span : Span; start : SourcePosition; stop : SourcePosition;
  literal : option Literal.Literal
}.

Record LexedChunk := { ch_profile : LuaProfile; source_len : Z; ch_tokens : list Token }.

Inductive NumericCharge :=
  | DecimalFast (bytes : Z)
  | DecimalConservative (bytes : Z)
  | HexPowi.

(** The caller's budget for numeral conversions: a state and an error. *)
Class NumericBudget (B E : Type) := before_conversion : NumericCharge -> ST B E unit.

Inductive ScanError E :=
  | SDiagnostic (d : Diagnostic)
  | SBudget (e : E).
Arguments SDiagnostic {E} d.
Arguments SBudget {E} e.

#[export] Instance UnmeteredNumeric : NumericBudget unit Empty_set := fun _ => mret tt.

(** ** The cursor (lexer/cursor.rs) *)

Record Cursor := {
  c_input : list Z; c_profile : LuaProfile; c_offset : Z; c_line : Z; c_column : Z
}.

Definition Cursor_new (input : list Z) (profile : LuaProfile) : Cursor :=
  {| c_input := input; c_profile := profile; c_offset := 0; c_line := 1; c_column := 1 |}.

Definition cursor_peek (c : Cursor) : option Z := zget (c_input c) (c_offset c).

Definition cursor_peek_n (c : Cursor) (distance : Z) : option Z :=
  match checked_add_usize (c_offset c) distance with
  | Some offset => zget (c_input c) offset
  | None => None
  end.

Definition cursor_position (c : Cursor) : SourcePosition :=
  {| p_line := c_line c; p_column := c_column c |}.

Definition with_offset (c : Cursor) (offset : Z) : Cursor :=
  {| c_input := c_input c; c_profile := c_profile c; c_offset := offset; c_line := c_line c;
     c_column := c_column c |}.
Definition with_line (c : Cursor) (line : Z) : Cursor :=
  {| c_input := c_input c; c_profile := c_profile c; c_offset := c_offset c; c_line := line;
     c_column := c_column c |}.
Definition with_column (c : Cursor) (column : Z) : Cursor :=
  {| c_input := c_input c; c_profile := c_profile c; c_offset := c_offset c; c_line := c_line c;
     c_column := column |}.

(** [self.field = self.field.checked_add(1).ok_or(message)?]. *)
Definition bump (value : Cursor -> Z) (set : Cursor -> Z -> Cursor) (message : string)
    : ST Cursor string unit :=
  fun c =>
    match checked_add_usize (value c) 1 with
    | Some v => (Ok tt, set c v)
    | None => (Err message, c)
    end.

Definition is_newline (byte : Z) : bool := (byte =? LF) || (byte =? CR).

(** The two-byte line ends. *)
Definition newline_pair (byte : Z) (next : option Z) : bool :=
  match next with
  | Some next => ((byte =? LF) && (next =? CR)) || ((byte =? CR) && (next =? LF))
  | None => false
  end.

(** The index [offset + 1] is at most the length of the slice. *)
Definition cursor_advance (limits : CompileLimits) : ST Cursor string unit := fun c =>
  match cursor_peek c with
  | None => (Ok tt, c)
  | Some byte =>
      (if is_newline byte then
         let next := zget (c_input c) (c_offset c + 1) in
         bump c_offset with_offset "byte offset 溢位";;
         (if newline_pair byte next then bump c_offset with_offset "byte offset 溢位" else mret tt);;
         bump c_line with_line "行數溢位";;
         c ← get;
         if max_lines limits <? c_line c then fail "行數超過編譯限制"
         else put (with_column c 1)
       else
         bump c_offset with_offset "byte offset 溢位";;
         bump c_column with_column "欄位溢位") c
  end.

Definition Diagnostic_at (code : DiagnosticCode) (start_byte : Z) (start : SourcePosition)
    (cursor : Cursor) (message : string) : Diagnostic :=
  {| d_code := code; d_span := {| span_start := start_byte; span_end := c_offset cursor |};
     d_start := start; d_end := cursor_position cursor; d_message := message |}.

(** ** The state of a scan: the cursor and the tokens so far *)

Record Scanner := { cursor : Cursor; tokens : list Token }.
Definition set_cursor (s : Scanner) (c : Cursor) : Scanner := {| cursor := c; tokens := tokens s |}.

Abbreviation Scan := (ST Scanner Diagnostic).

Definition peek : Scan (option Z) := fun s => (Ok (cursor_peek (cursor s)), s).
Definition peek_n (distance : Z) : Scan (option Z) :=
  fun s => (Ok (cursor_peek_n (cursor s) distance), s).
Definition offset : Scan Z := fun s => (Ok (c_offset (cursor s)), s).
Definition position : Scan SourcePosition := fun s => (Ok (cursor_position (cursor s)), s).

Definition lex_error (cursor : Cursor) (start_byte : Z) (start : SourcePosition)
    (message : string) : Diagnostic :=
  Diagnostic_at Lex start_byte start cursor message.

(** [return Err(lex_error(cursor, start_byte, start, message))]. *)
Definition lex_fail {A} (start_byte : Z) (start : SourcePosition) (message : string) : Scan A :=
  fun s => (Err (lex_error (cursor s) start_byte start message), s).

(** [loop { .. }]: each round but the last consumes a byte of the input, so
    one more round than it has bytes is enough. *)
Definition loop {X B} (body : X -> Scan (X + B)) (x : X) : Scan B :=
  fun s => iter (S (length (c_input (cursor s)))) body x s.

(** [while cursor.peek().is_some_and(p) { .. }] with one local. *)
Definition while_peek {X} (p : Z -> bool) (body : X -> Scan X) (x : X) : Scan X :=
  loop (fun x =>
    byte ← peek;
    match byte with
    | Some byte => if p byte then inl <$> body x else mret (inr x)
    | None => mret (inr x)
    end) x.

(** ** Character classes *)

Definition is_ascii_digit (byte : Z) : bool := ("0"%u8 <=? byte) && (byte <=? "9"%u8).
Definition is_ascii_alphabetic (byte : Z) : bool :=
  (("a"%u8 <=? byte) && (byte <=? "z"%u8)) || (("A"%u8 <=? byte) && (byte <=? "Z"%u8)).
Definition is_ascii_hexdigit (byte : Z) : bool :=
  is_ascii_digit byte || (("a"%u8 <=? byte) && (byte <=? "f"%u8))
    || (("A"%u8 <=? byte) && (byte <=? "F"%u8)).
Definition is_space (byte : Z) : bool :=
  (byte =? " "%u8) || (byte =? TAB) || (byte =? 11) || (byte =? 12) || (byte =? LF) || (byte =? CR).
Definition is_name_start (byte : Z) : bool := is_ascii_alphabetic byte || (byte =? "_"%u8).
Definition is_name_continue (byte : Z) : bool := is_name_start byte || is_ascii_digit byte.
Definition hex_value (byte : Z) : option Z :=
  if is_ascii_digit byte then Some (byte - "0"%u8)
  else if ("a"%u8 <=? byte) && (byte <=? "f"%u8) then Some (byte - "a"%u8 + 10)
  else if ("A"%u8 <=? byte) && (byte <=? "F"%u8) then Some (byte - "A"%u8 + 10)
  else None.

(** [peeked == Some(byte)], [peeked.is_some_and(p)]. *)
Definition is_byte (peeked : option Z) (byte : Z) : bool := bool_decide (peeked = Some byte).
Definition some_and (p : Z -> bool) (peeked : option Z) : bool :=
  match peeked with Some byte => p byte | None => false end.

(** ** Steps shared by the scanners *)

Section Scanners.
Context (limits : CompileLimits).

Definition push_token (token : Token) : Scan unit := fun s =>
  if max_tokens limits <=? zlen (tokens s)
  then (Err (Diagnostic_at CompileLimit (span_start (span token)) (start token) (cursor s)
               "token 數超過編譯限制"), s)
  else (Ok tt, {| cursor := cursor s; tokens := tokens s ++ [token] |}).

Definition emit (start_byte : Z) (start : SourcePosition) (kind : TokenKind.TokenKind)
    (literal : option Literal.Literal) : Scan unit := fun s =>
  push_token
    {| kind := kind;
       span := {| span_start := start_byte; span_end := c_offset (cursor s) |};
       start := start; stop := cursor_position (cursor s); literal := literal |} s.

Definition advance (start_byte : Z) (start : SourcePosition) : Scan unit := fun s =>
  match cursor_advance limits (cursor s) with
  | (Err message, c) => (Err (Diagnostic_at CompileLimit start_byte start c message), set_cursor s c)
  | (Crash k, c) => (Crash k, set_cursor s c)
  | (Ok _, c) =>
      if max_token_bytes limits <? Z.max 0 (c_offset c - start_byte)
      then (Err (Diagnostic_at CompileLimit start_byte start c "token 超過編譯限制"), set_cursor s c)
      else (Ok tt, set_cursor s c)
  end.

(** [bytes] with the byte pushed. *)
Definition push_literal_byte (bytes : list Z) (byte : Z) (start_byte : Z) (start : SourcePosition)
    : Scan (list Z) := fun s =>
  if max_token_bytes limits <=? zlen bytes
  then (Err (Diagnostic_at CompileLimit start_byte start (cursor s) "literal 超過編譯限制"), s)
  else (Ok (bytes ++ [byte]), s).

Definition append_input_byte := push_literal_byte.

Definition consume_number_byte (bytes : list Z) (start_byte : Z) (start : SourcePosition)
    : Scan (list Z) :=
  byte ← peek;
  byte ← unwrap byte;
  bytes ← append_input_byte bytes byte start_byte start;
  advance start_byte start;;
  mret bytes.

Definition consume_space : Scan unit :=
  start ← position; start_byte ← offset; advance start_byte start.

(** ** Names *)

Definition keyword (profile : LuaProfile) (name : list Z) : option Keyword.Keyword :=
  let table := [
    ("and", Keyword.And); ("break", Keyword.Break); ("do", Keyword.Do);
    ("else", Keyword.Else); ("elseif", Keyword.ElseIf); ("end", Keyword.End);
    ("false", Keyword.False); ("for", Keyword.For); ("function", Keyword.Function);
    ("goto", Keyword.Goto); ("if", Keyword.If); ("in", Keyword.In); ("local", Keyword.Local);
    ("nil", Keyword.Nil); ("not", Keyword.Not); ("or", Keyword.Or);
    ("repeat", Keyword.Repeat); ("return", Keyword.Return); ("then", Keyword.Then);
    ("true", Keyword.True); ("until", Keyword.Until); ("while", Keyword.While)]%string in
  match find (fun entry => bool_decide (bytes_of_string entry.1 = name)) table with
  | Some entry => Some entry.2
  | None =>
      if bool_decide (bytes_of_string "global" = name) && global_declarations (rules profile)
      then Some Keyword.Global else None
  end.

Definition scan_name : Scan unit :=
  start ← position;
  start_byte ← offset;
  bytes ← while_peek is_name_continue
            (fun bytes =>
               byte ← peek;
               byte ← unwrap byte;
               bytes ← append_input_byte bytes byte start_byte start;
               advance start_byte start;;
               mret bytes) [];
  s ← get;
  match keyword (c_profile (cursor s)) bytes with
  | Some k => emit start_byte start (TokenKind.Keyword k) None
  | None => emit start_byte start TokenKind.Name (Some (Literal.Name bytes))
  end.

(** ** Long brackets *)

(** [while cursor.peek_n(distance) == Some(b'=') { .. }] and what follows it. *)
Fixpoint count_equals (fuel : nat) (c : Cursor) (distance equals : Z) : res unit (option Z) :=
  match fuel with
  | O => Crash OutOfFuel
  | S fuel =>
      if is_byte (cursor_peek_n c distance) "="%u8 then
        match checked_add_usize equals 1, checked_add_usize distance 1 with
        | Some equals, Some distance => count_equals fuel c distance equals
        | _, _ => Err tt
        end
      else if is_byte (cursor_peek_n c distance) "["%u8 then Ok (Some equals)
      else if 0 <? equals then Err tt else Ok None
  end.

Definition long_opening_separator (c : Cursor) : res unit (option Z) :=
  if negb (is_byte (cursor_peek c) "["%u8) then Ok None
  else count_equals (S (length (c_input c))) c 1 0.

Definition long_closing_separator (c : Cursor) (equals : Z) : bool :=
  if negb (is_byte (cursor_peek c) "]"%u8) then false
  else
    match checked_add_usize equals 1 with
    | None => false
    | Some last =>
        forallb (fun distance => is_byte (cursor_peek_n c distance) "="%u8) (seqZ 1 equals)
        && is_byte (cursor_peek_n c last) "]"%u8
    end.

(** [for _ in 0..n { advance(..)?; }]. *)
Fixpoint advance_times (n : nat) (start_byte : Z) (start : SourcePosition) : Scan unit :=
  match n with
  | O => mret tt
  | S n => advance start_byte start;; advance_times n start_byte start
  end.

Definition consume_long_separator (start_byte : Z) (start : SourcePosition) (equals : Z) : Scan unit :=
  match checked_add_usize equals 2 with
  | None => lex_fail start_byte start "long delimiter 長度溢位"
  | Some n => advance_times (Z.to_nat n) start_byte start
  end.

(** A newline is read as [b'\n'], whichever way it is written. *)
Definition scan_long_string (equals : Z) : Scan unit :=
  start ← position;
  start_byte ← offset;
  consume_long_separator start_byte start equals;;
  first ← peek;
  (if some_and is_newline first then advance start_byte start else mret tt);;
  bytes ← loop (fun bytes =>
    byte ← peek;
    match byte with
    | None => lex_fail start_byte start "long 字串未結束"
    | Some byte =>
        s ← get;
        if (byte =? "]"%u8) && long_closing_separator (cursor s) equals then
          consume_long_separator start_byte start equals;;
          mret (inr bytes)
        else
          bytes ← (if is_newline byte then push_literal_byte bytes LF start_byte start
                   else append_input_byte bytes byte start_byte start);
          advance start_byte start;;
          mret (inl bytes)
    end) [];
  emit start_byte start TokenKind.String (Some (Literal.String bytes)).

Definition scan_long_comment (comment_start_byte : Z) (comment_start : SourcePosition) (equals : Z)
    : Scan unit :=
  consume_long_separator comment_start_byte comment_start equals;;
  loop (fun _ =>
    byte ← peek;
    match byte with
    | None => lex_fail comment_start_byte comment_start "long 註解未結束"
    | Some byte =>
        s ← get;
        if (byte =? "]"%u8) && long_closing_separator (cursor s) equals
        then consume_long_separator comment_start_byte comment_start equals;; mret (inr tt)
        else advance comment_start_byte comment_start;; mret (inl tt)
    end) tt.

Definition scan_short_comment : Scan unit :=
  start ← position;
  start_byte ← offset;
  advance start_byte start;;
  advance start_byte start;;
  first ← peek;
  s ← get;
  separator ← (if is_byte first "["%u8 then
                 match long_opening_separator (cursor s) with
                 | Ok separator => mret separator
                 | Err _ =>
                     lex_fail (c_offset (cursor s)) (cursor_position (cursor s)) "long delimiter 不合法"
                 | Crash k => crash_with k
                 end
               else mret None);
  match separator with
  | Some equals => scan_long_comment start_byte start equals
  | None =>
      while_peek (fun byte => negb (is_newline byte)) (fun _ => advance start_byte start) tt
  end.

(** ** Short strings *)

(** The number of bytes and the prefix of the first. *)
Definition unicode_length (value : Z) : option (Z * Z) :=
  if value <=? 0x7f then Some (1, 0x00)
  else if value <=? 0x7ff then Some (2, 0xc0)
  else if value <=? 0xffff then Some (3, 0xe0)
  else if value <=? 0x1fffff then Some (4, 0xf0)
  else if value <=? 0x3ffffff then Some (5, 0xf8)
  else if value <=? 0x7fffffff then Some (6, 0xfc)
  else None.

Definition as_u8 (z : Z) : Z := Z.land z 255.

(** [for shift in (0..n).rev()]. *)
Fixpoint push_continuation (n : nat) (bytes : list Z) (value start_byte : Z) (start : SourcePosition)
    : Scan (list Z) :=
  match n with
  | O => mret bytes
  | S n =>
      let byte := Z.lor 0x80 (as_u8 (Z.land (Z.shiftr value (Z.of_nat n * 6)) 0x3f)) in
      bytes ← push_literal_byte bytes byte start_byte start;
      push_continuation n bytes value start_byte start
  end.

Definition push_unicode_escape_bytes (bytes : list Z) (value start_byte : Z) (start : SourcePosition)
    : Scan (list Z) :=
  match unicode_length value with
  | None => lex_fail start_byte start "Unicode escape 超出 Lua 範圍"
  | Some (length, prefix) =>
      let first_shift := (length - 1) * 6 in
      bytes ← push_literal_byte bytes (Z.lor prefix (as_u8 (Z.shiftr value first_shift)))
                start_byte start;
      push_continuation (Z.to_nat (length - 1)) bytes value start_byte start
  end.

(** [value.checked_mul(16).and_then(|value| value.checked_add(digit))] of a [u32]. *)
Definition push_hex_digit_u32 (value digit : Z) : option Z :=
  if U32_MAX <? value * 16 then None
  else if U32_MAX <? value * 16 + digit then None else Some (value * 16 + digit).

Definition scan_unicode_escape (bytes : list Z) (start_byte : Z) (start : SourcePosition)
    : Scan (list Z) :=
  advance start_byte start;;
  brace ← peek;
  (if is_byte brace "{"%u8 then mret tt else lex_fail start_byte start "Unicode escape 格式不合法");;
  advance start_byte start;;
  value ← loop (fun '(value, has_digits) =>
    byte ← peek;
    match byte with
    | None => lex_fail start_byte start "Unicode escape 未結束"
    | Some byte =>
        if byte =? "}"%u8 then
          if (has_digits : bool) then advance start_byte start;; mret (inr value)
          else lex_fail start_byte start "Unicode escape 缺少十六進位數字"
        else
          match hex_value byte with
          | None => lex_fail start_byte start "Unicode escape 格式不合法"
          | Some digit =>
              match push_hex_digit_u32 value digit with
              | None => lex_fail start_byte start "Unicode escape 超出 Lua 範圍"
              | Some next_value =>
                  if 0x7fffffff <? next_value
                  then lex_fail start_byte start "Unicode escape 超出 Lua 範圍"
                  else advance start_byte start;; mret (inl (next_value, true))
              end
          end
    end) (0, false);
  push_unicode_escape_bytes bytes value start_byte start.

(** [for _ in 0..3] with its [break]. *)
Fixpoint scan_decimal_escape (n : nat) (value : Z) (start_byte : Z) (start : SourcePosition) : Scan Z :=
  match n with
  | O => mret value
  | S n =>
      digit ← peek;
      match digit with
      | Some digit =>
          if is_ascii_digit digit then
            let value := value * 10 + (digit - "0"%u8) in
            if 255 <? value then lex_fail start_byte start "十進位 escape 超過 255"
            else advance start_byte start;; scan_decimal_escape n value start_byte start
          else mret value
      | None => mret value
      end
  end.

Definition scan_hex_digit (start_byte : Z) (start : SourcePosition) : Scan Z :=
  byte ← peek;
  match byte ≫= hex_value with
  | Some digit => mret digit
  | None => lex_fail start_byte start "十六進位 escape 不合法"
  end.

(** The escapes of one byte. *)
Definition simple_escape (escape : Z) : option Z :=
  match escape with
  | "a"%u8 => Some 0x07
  | "b"%u8 => Some 0x08
  | "f"%u8 => Some 0x0c
  | "n"%u8 => Some LF
  | "r"%u8 => Some CR
  | "t"%u8 => Some TAB
  | "v"%u8 => Some 0x0b
  | "\"%u8 | "'"%u8 | 34 => Some escape
  | _ => None
  end.

(** One escape, from the byte after the backslash. *)
Definition scan_escape (bytes : list Z) (escape start_byte : Z) (start : SourcePosition)
    : Scan (list Z) :=
  match simple_escape escape with
  | Some value =>
      bytes ← push_literal_byte bytes value start_byte start;
      advance start_byte start;;
      mret bytes
  | None =>
      if escape =? "x"%u8 then
        advance start_byte start;;
        high ← scan_hex_digit start_byte start;
        advance start_byte start;;
        low ← scan_hex_digit start_byte start;
        bytes ← push_literal_byte bytes (high * 16 + low) start_byte start;
        advance start_byte start;;
        mret bytes
      else if escape =? "z"%u8 then
        advance start_byte start;;
        while_peek is_space (fun _ => advance start_byte start) tt;;
        mret bytes
      else if escape =? "u"%u8 then scan_unicode_escape bytes start_byte start
      else if is_ascii_digit escape then
        value ← scan_decimal_escape 3 0 start_byte start;
        push_literal_byte bytes (as_u8 value) start_byte start
      else if is_newline escape then
        bytes ← push_literal_byte bytes LF start_byte start;
        advance start_byte start;;
        mret bytes
      else lex_fail start_byte start "短字串 escape 不合法"
  end.

Definition scan_short_string : Scan unit :=
  start ← position;
  start_byte ← offset;
  quote ← peek;
  quote ← unwrap quote;
  advance start_byte start;;
  bytes ← loop (fun bytes =>
    byte ← peek;
    match byte with
    | None => lex_fail start_byte start "短字串未結束"
    | Some byte =>
        if byte =? quote then advance start_byte start;; mret (inr bytes)
        else if is_newline byte then lex_fail start_byte start "短字串含未轉義換行"
        else if negb (byte =? "\"%u8) then
          bytes ← append_input_byte bytes byte start_byte start;
          advance start_byte start;;
          mret (inl bytes)
        else
          advance start_byte start;;
          escape ← peek;
          match escape with
          | None => lex_fail start_byte start "短字串 escape 未結束"
          | Some escape => inl <$> scan_escape bytes escape start_byte start
          end
    end) [];
  emit start_byte start TokenKind.String (Some (Literal.String bytes)).

(** ** Symbols *)

(** [s] if the next bytes are not [c]; if they are, they are consumed. *)
Definition symbol_pair (c : Z) (two one : Symbol.Symbol) (start_byte : Z) (start : SourcePosition)
    : Scan Symbol.Symbol :=
  next ← peek_n 1;
  if is_byte next c then advance start_byte start;; mret two else mret one.

(** The less and greater signs, with their shift. *)
Definition symbol_angle (c : Z) (equal shift one : Symbol.Symbol) (start_byte : Z)
    (start : SourcePosition) : Scan Symbol.Symbol :=
  next ← peek_n 1;
  if is_byte next "="%u8 then advance start_byte start;; mret equal
  else if is_byte next c then advance start_byte start;; mret shift
  else mret one.

Definition symbol_dot (start_byte : Z) (start : SourcePosition) : Scan Symbol.Symbol :=
  next ← peek_n 1;
  third ← peek_n 2;
  if is_byte next "."%u8 && is_byte third "."%u8 then
    advance start_byte start;; advance start_byte start;; mret Symbol.Vararg
  else if is_byte next "."%u8 then advance start_byte start;; mret Symbol.Concat
  else mret Symbol.Dot.

(** The symbol that begins with [first], with all but its last byte consumed. *)
Definition symbol_of (first start_byte : Z) (start : SourcePosition) : Scan Symbol.Symbol :=
  match first with
  | "+"%u8 => mret Symbol.Plus
  | "-"%u8 => mret Symbol.Minus
  | "*"%u8 => mret Symbol.Star
  | "/"%u8 => symbol_pair "/"%u8 Symbol.FloorSlash Symbol.Slash start_byte start
  | "%"%u8 => mret Symbol.Percent
  | "^"%u8 => mret Symbol.Caret
  | "#"%u8 => mret Symbol.Hash
  | "&"%u8 => mret Symbol.Ampersand
  | "|"%u8 => mret Symbol.Pipe
  | "~"%u8 => symbol_pair "="%u8 Symbol.NotEqual Symbol.Tilde start_byte start
  | "<"%u8 => symbol_angle "<"%u8 Symbol.LessEqual Symbol.ShiftLeft Symbol.Less start_byte start
  | ">"%u8 =>
      symbol_angle ">"%u8 Symbol.GreaterEqual Symbol.ShiftRight Symbol.Greater start_byte start
  | "="%u8 => symbol_pair "="%u8 Symbol.EqualEqual Symbol.Assign start_byte start
  | "("%u8 => mret Symbol.OpenParen
  | ")"%u8 => mret Symbol.CloseParen
  | "{"%u8 => mret Symbol.OpenBrace
  | "}"%u8 => mret Symbol.CloseBrace
  | "["%u8 => mret Symbol.OpenBracket
  | "]"%u8 => mret Symbol.CloseBracket
  | ";"%u8 => mret Symbol.Semicolon
  | ":"%u8 => symbol_pair ":"%u8 Symbol.DoubleColon Symbol.Colon start_byte start
  | ","%u8 => mret Symbol.Comma
  | "."%u8 => symbol_dot start_byte start
  | _ => advance start_byte start;; lex_fail start_byte start "未知詞法元素"
  end.

Definition scan_symbol : Scan unit :=
  start ← position;
  start_byte ← offset;
  first ← peek;
  first ← unwrap first;
  symbol ← symbol_of first start_byte start;
  advance start_byte start;;
  emit start_byte start (TokenKind.Symbol symbol) None.

(** ** Numerals *)

(** [while cursor.peek().is_some_and(p) { consume_number_byte(..)?; }] *)
Definition consume_digits (p : Z -> bool) (bytes : list Z) (start_byte : Z) (start : SourcePosition)
    : Scan (list Z) :=
  while_peek p (fun bytes => consume_number_byte bytes start_byte start) bytes.

(** A decimal point that does not start a concatenation. *)
Definition at_point : Scan bool :=
  point ← peek;
  next ← peek_n 1;
  mret (is_byte point "."%u8 && negb (is_byte next "."%u8)).

(** The exponent, after its letter [p] or [e] has been seen. *)
Definition scan_exponent (bytes : list Z) (message : string) (start_byte : Z) (start : SourcePosition)
    : Scan (list Z) :=
  bytes ← consume_number_byte bytes start_byte start;
  sign ← peek;
  bytes ← (if is_byte sign "+"%u8 || is_byte sign "-"%u8
           then consume_number_byte bytes start_byte start else mret bytes);
  let exponent_start := zlen bytes in
  bytes ← consume_digits is_ascii_digit bytes start_byte start;
  if zlen bytes =? exponent_start then lex_fail start_byte start message else mret bytes.

(** The hexadecimal branch. [digits] counts the bytes that its two loops consume. *)
Definition scan_hexadecimal_text (start_byte : Z) (start : SourcePosition) : Scan (list Z) :=
  bytes ← consume_number_byte [] start_byte start;
  bytes ← consume_number_byte bytes start_byte start;
  let before := zlen bytes in
  bytes ← consume_digits is_ascii_hexdigit bytes start_byte start;
  let digits := zlen bytes - before in
  point ← at_point;
  r ← (if point : bool then
         bytes ← consume_number_byte bytes start_byte start;
         let before := zlen bytes in
         bytes ← consume_digits is_ascii_hexdigit bytes start_byte start;
         mret (bytes, digits + (zlen bytes - before))
       else mret (bytes, digits));
  let '(bytes, digits) := r in
  if digits =? 0 then lex_fail start_byte start "十六進位 numeral 缺少數字"
  else
    letter ← peek;
    if is_byte letter "p"%u8 || is_byte letter "P"%u8
    then scan_exponent bytes "十六進位 exponent 不合法" start_byte start
    else mret bytes.

Definition scan_decimal_text (start_byte : Z) (start : SourcePosition) : Scan (list Z) :=
  bytes ← consume_digits is_ascii_digit [] start_byte start;
  point ← at_point;
  bytes ← (if point : bool then
             bytes ← consume_number_byte bytes start_byte start;
             consume_digits is_ascii_digit bytes start_byte start
           else mret bytes);
  letter ← peek;
  if is_byte letter "e"%u8 || is_byte letter "E"%u8
  then scan_exponent bytes "decimal exponent 不合法" start_byte start
  else mret bytes.

(** The text of a numeral. *)
Definition scan_numeral_text (start_byte : Z) (start : SourcePosition) : Scan (list Z) :=
  first ← peek;
  second ← peek_n 1;
  bytes ← (if is_byte first "0"%u8 && (is_byte second "x"%u8 || is_byte second "X"%u8)
           then scan_hexadecimal_text start_byte start else scan_decimal_text start_byte start);
  next ← peek;
  if some_and is_name_start next then
    consume_digits is_name_continue bytes start_byte start;;
    lex_fail start_byte start "numeral 不可黏接識別字"
  else mret bytes.
End Scanners.

(** ** Conversion of numerals *)

Inductive NumberError E :=
  | Syntax (message : string)
  | Budget (e : E).
Arguments Syntax {E} message.
Arguments Budget {E} e.

(** [position(|byte| p(byte)).unwrap_or(len)] and [split_at]. *)
Fixpoint split_before (p : Z -> bool) (bytes : list Z) : list Z * list Z :=
  match bytes with
  | [] => ([], [])
  | byte :: rest =>
      if p byte then ([], bytes)
      else let (before, after) := split_before p rest in (byte :: before, after)
  end.

Definition checked_u64 (z : Z) : option Z := if (0 <=? z) && (z <=? U64_MAX) then Some z else None.
Definition I32_MIN : Z := -2147483648.
Definition I32_MAX : Z := 2147483647.
Definition checked_i32 (z : Z) : option Z := if (I32_MIN <=? z) && (z <=? I32_MAX) then Some z else None.

Record Significand := {
  sg_digits : Z; sg_mantissa : Z; sg_fractional_digits : Z; sg_fractional : bool
}.

(** The loop over the significand; [None] is [return false]. *)
Fixpoint scan_significand (bytes : list Z) (s : Significand) : option Significand :=
  match bytes with
  | [] => Some s
  | byte :: bytes =>
      if byte =? "."%u8 then
        scan_significand bytes
          {| sg_digits := sg_digits s; sg_mantissa := sg_mantissa s;
             sg_fractional_digits := sg_fractional_digits s; sg_fractional := true |}
      else if negb (is_ascii_digit byte) then None
      else
        next_digits ← checked_add_usize (sg_digits s) 1;
        if 19 <? next_digits then None
        else
          scaled ← checked_u64 (sg_mantissa s * 10);
          next_mantissa ← checked_u64 (scaled + (byte - "0"%u8));
          next_fractional ← (if sg_fractional s then checked_i32 (sg_fractional_digits s + 1)
                             else Some (sg_fractional_digits s));
          scan_significand bytes
            {| sg_digits := next_digits; sg_mantissa := next_mantissa;
               sg_fractional_digits := next_fractional; sg_fractional := sg_fractional s |}
  end.

(** The loop over the exponent's digits. *)
Fixpoint scan_exponent_digits (negative : bool) (bytes : list Z) (exponent : Z) : option Z :=
  match bytes with
  | [] => Some exponent
  | byte :: bytes =>
      if negb (is_ascii_digit byte) then None
      else
        let digit := byte - "0"%u8 in
        scaled ← checked_i32 (exponent * 10);
        next ← checked_i32 (if negative then scaled - digit else scaled + digit);
        scan_exponent_digits negative bytes next
  end.

Definition explicit_exponent (exponent_with_marker : list Z) : option Z :=
  match exponent_with_marker with
  | [] => Some 0
  | _ :: exponent =>
      let negative := is_byte (head exponent) "-"%u8 in
      let exponent :=
        if is_byte (head exponent) "-"%u8 || is_byte (head exponent) "+"%u8
        then tail exponent else exponent in
      match exponent with
      | [] => None
      | _ => scan_exponent_digits negative exponent 0
      end
  end.

Definition decimal_native_fast_subset (bytes : list Z) : bool :=
  let (significand, exponent_with_marker) :=
    split_before (fun byte => (byte =? "e"%u8) || (byte =? "E"%u8)) bytes in
  match scan_significand significand
          {| sg_digits := 0; sg_mantissa := 0; sg_fractional_digits := 0; sg_fractional := false |} with
  | None => false
  | Some s =>
      if (sg_digits s =? 0) || (2 ^ 53 <? sg_mantissa s) then false
      else
        match explicit_exponent exponent_with_marker with
        | None => false
        | Some exponent =>
            match checked_i32 (exponent - sg_fractional_digits s) with
            | None => false
            | Some effective => (-22 <=? effective) && (effective <=? 22)
            end
        end
  end.

(** [str::parse] of a signed integer type with the bounds [lo] and [hi]. *)
Definition digits_value (base : Z) (bytes : list Z) : option Z :=
  fold_left (fun acc byte =>
      acc ← acc; digit ← hex_value byte; if digit <? base then Some (acc * base + digit) else None)
    bytes (Some 0).

Definition parse_int (lo hi : Z) (bytes : list Z) : option Z :=
  let negative := is_byte (head bytes) "-"%u8 in
  let digits :=
    if is_byte (head bytes) "-"%u8 || is_byte (head bytes) "+"%u8 then tail bytes else bytes in
  match digits with
  | [] => None
  | _ =>
      value ← digits_value 10 digits;
      let value := if negative then - value else value in
      if (lo <=? value) && (value <=? hi) then Some value else None
  end.

(** The float nearest to [m * 10^e], ties to even; [f64] parsing in the
    standard library is correctly rounded. *)
Definition decimal_to_f64 (m e : Z) : f64 :=
  match m with
  | Zpos p =>
      if 0 <=? e then binary_normalize prec emax (m * 10 ^ e) 0 false
      else
        let '(q, e', loc) := SFdiv_core_binary prec emax m 0 (10 ^ (- e)) 0 in
        binary_round_aux prec emax false q e' loc
  | _ => S754_zero false
  end.

(** [str::parse::<f64>] of an unsigned decimal: digits with an optional point,
    at least one digit, an optional exponent. The words [inf] and [nan] and a
    sign, which it also takes, cannot start a numeral. *)
Definition parse_f64 (bytes : list Z) : option f64 :=
  let (significand, exponent) :=
    split_before (fun byte => (byte =? "e"%u8) || (byte =? "E"%u8)) bytes in
  let (whole, point) := split_before (fun byte => byte =? "."%u8) significand in
  let fraction := tail point in
  match whole ++ fraction with
  | [] => None
  | digits =>
      m ← digits_value 10 digits;
      e ← (match exponent with
           | [] => Some 0
           | _ :: exponent =>
               let negative := is_byte (head exponent) "-"%u8 in
               let digits :=
                 if negative || is_byte (head exponent) "+"%u8 then tail exponent else exponent in
               match digits with
               | [] => None
               | _ => v ← digits_value 10 digits; Some (if negative then - v else v)
               end
           end);
      Some (decimal_to_f64 m (e - zlen fraction))
  end.

(** The value of an integer in hexadecimal, in a [u64]. *)
Fixpoint hex_u64 (bytes : list Z) (value : Z) : option Z :=
  match bytes with
  | [] => Some value
  | byte :: bytes =>
      digit ← hex_value byte;
      hex_u64 bytes (wrap_u64 (wrap_u64 (value * 16) + digit))
  end.

Definition f64_sixteen : f64 := i64_as_f64 16.
Definition f64_one : f64 := i64_as_f64 1.
Definition f64_two : f64 := i64_as_f64 2.

(** The loop over a hexadecimal mantissa. *)
Fixpoint hex_mantissa (bytes : list Z) (value scale : f64) (fractional : bool)
    : string + f64 :=
  match bytes with
  | [] => inr value
  | byte :: bytes =>
      if byte =? "."%u8 then
        if fractional then inl "十六進位小數點不合法"
        else hex_mantissa bytes value scale true
      else
        match hex_value byte with
        | None => inl "十六進位 numeral 不合法"
        | Some digit =>
            let digit := i64_as_f64 digit in
            if fractional then
              let scale := f64_div scale f64_sixteen in
              hex_mantissa bytes (f64_add value (f64_mul digit scale)) scale fractional
            else hex_mantissa bytes (f64_add (f64_mul value f64_sixteen) digit) scale fractional
        end
  end.

Section Numbers.
Context {B E : Type} `{NumericBudget B E}.
(** [f64::powi], whose precision the standard library leaves open. *)
Context (powi : f64 -> Z -> f64).

Definition syntax {A} (message : string) : ST B (NumberError E) A := fail (Syntax message).
Definition ok_or {A} (value : option A) (message : string) : ST B (NumberError E) A :=
  match value with Some value => mret value | None => syntax message end.
Definition charge (c : NumericCharge) : ST B (NumberError E) unit := fun b =>
  match before_conversion c b with
  | (Ok _, b) => (Ok tt, b)
  | (Err e, b) => (Err (Budget e), b)
  | (Crash k, b) => (Crash k, b)
  end.

Definition contains_any (set : list Z) (bytes : list Z) : bool := existsb (fun byte => contains set byte) bytes.

Definition finite_or (value : f64) (message : string) : ST B (NumberError E) Number :=
  if f64_is_finite value then mret (Float value) else syntax message.

Definition parse_hexadecimal (body : list Z) : ST B (NumberError E) Number :=
  if negb (contains_any ["."%u8; "p"%u8; "P"%u8] body) then
    value ← ok_or (hex_u64 body 0) "十六進位 numeral 不合法";
    mret (Integer (wrap_i64 value))
  else
    let (mantissa, exponent) := split_before (fun byte => (byte =? "p"%u8) || (byte =? "P"%u8)) body in
    exponent ← (match exponent with
                | [] => mret 0
                | _ :: exponent => ok_or (parse_int I32_MIN I32_MAX exponent) "十六進位 exponent 不合法"
                end);
    match hex_mantissa mantissa f64_zero f64_one false with
    | inl message => syntax message
    | inr value =>
        charge HexPowi;;
        finite_or (f64_mul value (powi f64_two exponent)) "十六進位浮點數超出範圍"
    end.

(** The text is ASCII: [scan_number] collects digits, letters, points and signs. *)
Definition parse_number (bytes : list Z) : ST B (NumberError E) Number :=
  if negb (forallb (fun byte => byte <? 128) bytes) then syntax "numeral 不是 ASCII"
  else if is_byte (head bytes) "0"%u8
          && (is_byte (head (tail bytes)) "x"%u8 || is_byte (head (tail bytes)) "X"%u8)
  then parse_hexadecimal (drop 2 bytes)
  else if contains_any ["."%u8; "e"%u8; "E"%u8] bytes then
    charge (if decimal_native_fast_subset bytes then DecimalFast (zlen bytes)
            else DecimalConservative (zlen bytes));;
    value ← ok_or (parse_f64 bytes) "浮點 numeral 不合法";
    mret (Float value)
  else
    match parse_int I64_MIN I64_MAX bytes with
    | Some value => mret (Integer value)
    | None =>
        charge (DecimalConservative (zlen bytes));;
        value ← ok_or (parse_f64 bytes) "整數 numeral 不合法";
        finite_or value "整數超出範圍"
    end.

(** ** The scan with its budget *)

Context (limits : CompileLimits).

Abbreviation ScanB := (ST (Scanner * B) (ScanError E)).

(** [?] on a scan without a budget: [From<Diagnostic>]. *)
Definition unmetered {A} (m : Scan A) : ScanB A := fun '(s, b) =>
  match m s with
  | (Ok a, s) => (Ok a, (s, b))
  | (Err d, s) => (Err (SDiagnostic d), (s, b))
  | (Crash k, s) => (Crash k, (s, b))
  end.

(** [map_err] of [parse_number]'s errors. *)
Definition parse_number_at (bytes : list Z) (start_byte : Z) (start : SourcePosition)
    : ScanB Number := fun '(s, b) =>
  match parse_number bytes b with
  | (Ok n, b) => (Ok n, (s, b))
  | (Err (Syntax message), b) =>
      (Err (SDiagnostic (lex_error (cursor s) start_byte start message)), (s, b))
  | (Err (Budget e), b) => (Err (SBudget e), (s, b))
  | (Crash k, b) => (Crash k, (s, b))
  end.

Definition scan_number : ScanB unit :=
  start ← unmetered position;
  start_byte ← unmetered offset;
  bytes ← unmetered (scan_numeral_text limits start_byte start);
  number ← parse_number_at bytes start_byte start;
  let '(kind, literal) :=
    match number with
    | Integer _ => (TokenKind.Integer, Literal.Integer number)
    | Float _ => (TokenKind.Float, Literal.Float number)
    end in
  unmetered (emit limits start_byte start kind (Some literal)).

(** One token, or one space or comment: the body of the loop. *)
Definition scan_one (byte : Z) : ScanB unit :=
  next ← unmetered (peek_n 1);
  if is_space byte then unmetered (consume_space limits)
  else if byte =? "["%u8 then
    unmetered (
      s ← get;
      match long_opening_separator (cursor s) with
      | Ok (Some equals) => scan_long_string limits equals
      | Ok None => scan_symbol limits
      | Err _ =>
          start ← position;
          start_byte ← offset;
          advance limits start_byte start;;
          lex_fail start_byte start "long delimiter 不合法"
      | Crash k => crash_with k
      end)
  else if is_name_start byte then unmetered (scan_name limits)
  else if is_ascii_digit byte || ((byte =? "."%u8) && some_and is_ascii_digit next) then scan_number
  else if (byte =? "'"%u8) || (byte =? DQUOTE) then unmetered (scan_short_string limits)
  else if (byte =? "-"%u8) && is_byte next "-"%u8 then unmetered (scan_short_comment limits)
  else unmetered (scan_symbol limits).

Definition scan : ScanB LexedChunk :=
  (fun sb => iter (S (length (c_input (cursor sb.1)))) (fun _ =>
     byte ← unmetered peek;
     match byte with
     | Some byte => scan_one byte;; mret (inl tt)
     | None => mret (inr tt)
     end) tt sb);;
  unmetered (
    at_end ← position;
    stop ← offset;
    push_token limits
      {| kind := TokenKind.Eof; span := {| span_start := stop; span_end := stop |};
         start := at_end; stop := at_end; literal := None |};;
    s ← get;
    mret {| ch_profile := c_profile (cursor s); source_len := c_offset (cursor s);
            ch_tokens := tokens s |}).

Definition lex_with_numeric_budget (input : list Z) (profile : LuaProfile)
    : ST B (ScanError E) LexedChunk := fun b =>
  if max_source_bytes limits <? zlen input then
    let first := {| p_line := 1; p_column := 1 |} in
    (Err (SDiagnostic {| d_code := CompileLimit; d_span := {| span_start := 0; span_end := 0 |};
                         d_start := first; d_end := first; d_message := "來源超過編譯限制" |}), b)
  else
    let (r, sb) := scan ({| cursor := Cursor_new input profile; tokens := [] |}, b) in (r, sb.2).
End Numbers.

Definition lex (powi : f64 -> Z -> f64) (input : list Z) (profile : LuaProfile)
    (limits : CompileLimits) : res Diagnostic LexedChunk :=
  match (lex_with_numeric_budget (E := Empty_set) powi limits input profile tt).1 with
  | Ok chunk => Ok chunk
  | Err (SDiagnostic d) => Err d
  | Err (SBudget never) => match never with end
  | Crash k => Crash k
  end.

(** The kinds and literals of a source, for the examples. *)
Definition lex_string (source : string) : res string (list (TokenKind.TokenKind * option Literal.Literal)) :=
  match lex (fun _ _ => f64_one) (bytes_of_string source) Lua55 CompileLimits_default with
  | Ok chunk => Ok (map (fun t => (kind t, literal t)) (ch_tokens chunk))
  | Err d => Err (d_message d)
  | Crash k => Crash k
  end.
