(* ===== verification/LexerGrammar.v ===== *)
(** The lexical grammar as a specification: the characters of a source and their
    positions, the texts of tokens and of the trivia between them, and how a
    source splits into both; with the facts about texts, digits and UTF-8 that
    the scanner's proofs use. *)

From Stdlib Require Import ZArith Lia.
From stdpp Require Import base list numbers strings.
From S2P Require Import Prelude Float Number Lexer.

Local Open Scope Z_scope.

(** ** Characters

    A character is a byte or one of the two-byte line ends. *)

Abbreviation Char := (list Z).

Fixpoint chars (bytes : list Z) : list Char :=
  match bytes with
  | [] => []
  | a :: rest =>
      match rest with
      | b :: rest' => if newline_pair a (Some b) then [a; b] :: chars rest' else [a] :: chars rest
      | [] => [[a]]
      end
  end.

Definition newline_char (c : Char) : bool := some_and is_newline (head c).

(** The position after the characters of a source's beginning. *)
Definition position_after (p : SourcePosition) (c : Char) : SourcePosition :=
  if newline_char c then {| p_line := p_line p + 1; p_column := 1 |}
  else {| p_line := p_line p; p_column := p_column p + 1 |}.
Definition position_of (pre : list Char) : SourcePosition :=
  fold_left position_after pre {| p_line := 1; p_column := 1 |}.

Definition offset_of (pre : list Char) : Z := zlen (concat pre).

Definition first_byte (post : list Char) : option Z := head (concat post).

(** ** The texts of tokens

    A text is the list of its characters; a rule that must know where a text
    ends also takes what follows it. *)

Definition bytes_chars (bytes : list Z) : list Char := map (fun b => [b]) bytes.
Definition text (s : string) : list Char := bytes_chars (bytes_of_string s).

(** Extended UTF-8: up to six bytes, 31 bits, the shortest form. *)
Definition utf8_lead (b : Z) : option (nat * Z) :=
  if b <? 0x80 then Some (0%nat, b)
  else if b <? 0xc0 then None
  else if b <? 0xe0 then Some (1%nat, b - 0xc0)
  else if b <? 0xf0 then Some (2%nat, b - 0xe0)
  else if b <? 0xf8 then Some (3%nat, b - 0xf0)
  else if b <? 0xfc then Some (4%nat, b - 0xf8)
  else if b <? 0xfe then Some (5%nat, b - 0xfc)
  else None.
Definition utf8_minimum (n : nat) : Z :=
  match n with
  | 0%nat => 0 | 1%nat => 0x80 | 2%nat => 0x800 | 3%nat => 0x10000 | 4%nat => 0x200000
  | _ => 0x4000000
  end.
Fixpoint utf8_tail (v : Z) (bytes : list Z) : option Z :=
  match bytes with
  | [] => Some v
  | b :: bytes => if (0x80 <=? b) && (b <? 0xc0) then utf8_tail (v * 64 + (b - 0x80)) bytes else None
  end.
Definition utf8_decode (bytes : list Z) : option Z :=
  match bytes with
  | [] => None
  | b :: rest =>
      match utf8_lead b with
      | Some (n, v) =>
          v ← utf8_tail v rest;
          if (length rest =? n)%nat && (utf8_minimum n <=? v) then Some v else None
      | None => None
      end
  end.

Definition simple_escapes : list (Z * Z) :=
  [("a"%u8, 7); ("b"%u8, 8); ("f"%u8, 12); ("n"%u8, 10); ("r"%u8, 13); ("t"%u8, 9); ("v"%u8, 11);
   ("\"%u8, "\"%u8); ("'"%u8, "'"%u8); (DQUOTE, DQUOTE)].

(** What follows a backslash, the bytes it stands for, the byte after it. *)
Inductive escape : list Char -> list Z -> option Z -> Prop :=
  | escape_simple e v next : (e, v) ∈ simple_escapes -> escape [[e]] [v] next
  | escape_hex h l hv lv next :
      hex_value h = Some hv -> hex_value l = Some lv ->
      escape (text "x" ++ [[h]; [l]]) [hv * 16 + lv] next
  | escape_spaces cs next :
      Forall (fun c => some_and is_space (head c) = true) cs -> some_and is_space next = false ->
      escape (text "z" ++ cs) [] next
  | escape_unicode ds v w next :
      ds <> [] -> digits_value 16 ds = Some v -> v <= 0x7fffffff -> utf8_decode w = Some v ->
      escape (text "u{" ++ bytes_chars ds ++ text "}") w next
  | escape_decimal ds v next :
      ds <> [] -> (length ds <= 3)%nat -> digits_value 10 ds = Some v -> v <= 255 ->
      length ds = 3%nat \/ some_and is_ascii_digit next = false ->
      escape (bytes_chars ds) [v] next
  | escape_newline c next : newline_char c = true -> escape [c] [LF] next.

(** Between the quotes [q]. *)
Inductive short_body (q : Z) : list Char -> list Z -> Prop :=
  | body_nil : short_body q [] []
  | body_byte b cs v :
      b <> q -> is_newline b = false -> b <> "\"%u8 -> short_body q cs v ->
      short_body q ([b] :: cs) (b :: v)
  | body_escape e w cs v :
      escape e w (first_byte (cs ++ [[q]])) -> short_body q cs v ->
      short_body q (["\"%u8] :: e ++ cs) (w ++ v).

Definition long_opening (n : nat) : list Char := text "[" ++ replicate n ["="%u8] ++ text "[".
Definition long_closing (n : nat) : list Char := text "]" ++ replicate n ["="%u8] ++ text "]".

(** A body in which the closing bracket does not begin. *)
Definition long_body (n : nat) (body : list Char) : Prop :=
  forall done todo, body = done ++ todo -> todo <> [] ->
    ~ (exists after, todo ++ long_closing n = long_closing n ++ after).

(** Line ends are read as one byte, one at the start not at all. *)
Definition normalise (c : Char) : list Z := if newline_char c then [LF] else c.
Definition long_value (body : list Char) : list Z :=
  concat (map normalise (match body with
                         | c :: rest => if newline_char c then rest else body
                         | [] => []
                         end)).

Definition symbol_text (s : Symbol.Symbol) : list Z :=
  match s with
  | Symbol.Plus => ["+"%u8] | Symbol.Minus => ["-"%u8] | Symbol.Star => ["*"%u8] | Symbol.Slash => ["/"%u8]
  | Symbol.FloorSlash => ["/"%u8; "/"%u8] | Symbol.Percent => ["%"%u8] | Symbol.Caret => ["^"%u8] | Symbol.Hash => ["#"%u8]
  | Symbol.Ampersand => ["&"%u8] | Symbol.Pipe => ["|"%u8] | Symbol.Tilde => ["~"%u8] | Symbol.ShiftLeft => ["<"%u8; "<"%u8]
  | Symbol.ShiftRight => [">"%u8; ">"%u8] | Symbol.EqualEqual => ["="%u8; "="%u8] | Symbol.NotEqual => ["~"%u8; "="%u8]
  | Symbol.Less => ["<"%u8] | Symbol.LessEqual => ["<"%u8; "="%u8] | Symbol.Greater => [">"%u8]
  | Symbol.GreaterEqual => [">"%u8; "="%u8] | Symbol.Assign => ["="%u8] | Symbol.OpenParen => ["("%u8]
  | Symbol.CloseParen => [")"%u8] | Symbol.OpenBrace => ["{"%u8] | Symbol.CloseBrace => ["}"%u8]
  | Symbol.OpenBracket => ["["%u8] | Symbol.CloseBracket => ["]"%u8] | Symbol.Semicolon => [";"%u8]
  | Symbol.Colon => [":"%u8] | Symbol.DoubleColon => [":"%u8; ":"%u8] | Symbol.Comma => [","%u8] | Symbol.Dot => ["."%u8]
  | Symbol.Concat => ["."%u8; "."%u8] | Symbol.Vararg => ["."%u8; "."%u8; "."%u8]
  end.

(** No longer symbol begins here, nor a comment, a numeral or a long bracket. *)
Definition symbol_ends (s : Symbol.Symbol) (post : list Char) : Prop :=
  (forall s' after, bytes_chars (symbol_text s) ++ post = bytes_chars (symbol_text s') ++ after ->
     (length (symbol_text s') <= length (symbol_text s))%nat) /\
  (s = Symbol.Minus -> first_byte post <> Some "-"%u8) /\
  (s = Symbol.Dot -> some_and is_ascii_digit (first_byte post) = false) /\
  (s = Symbol.OpenBracket -> forall n after, text "[" ++ post <> long_opening n ++ after).

Definition all (p : Z -> bool) (bytes : list Z) : Prop := Forall (fun b => p b = true) bytes.

Definition name_text (bytes : list Z) : Prop :=
  some_and is_name_start (head bytes) = true /\ all is_name_continue bytes.

Definition exponent_text (letters : list Z) (bytes : list Z) : Prop :=
  bytes = [] \/
  exists letter sign ds, bytes = letter :: sign ++ ds /\ (letter ∈ letters) /\
    (sign ∈ [[]; ["+"%u8]; ["-"%u8]]) /\ ds <> [] /\ all is_ascii_digit ds.
Definition point_text (digit : Z -> bool) (bytes : list Z) : Prop :=
  bytes = [] \/ exists ds, bytes = "."%u8 :: ds /\ all digit ds.
Definition numeral_text (bytes : list Z) : Prop :=
  (exists whole point exponent, bytes = whole ++ point ++ exponent /\
     all is_ascii_digit whole /\ point_text is_ascii_digit point /\
     exponent_text ["e"%u8; "E"%u8] exponent /\ (whole <> [] \/ (1 < length point)%nat)) \/
  (exists x whole point exponent, bytes = "0"%u8 :: x :: whole ++ point ++ exponent /\
     (x ∈ ["x"%u8; "X"%u8]) /\ all is_ascii_hexdigit whole /\ point_text is_ascii_hexdigit point /\
     exponent_text ["p"%u8; "P"%u8] exponent /\ (whole <> [] \/ (1 < length point)%nat)).

(** The text of a token with its kind and literal, and what follows it.
    [value] relates the text of a numeral to its number. *)
Inductive token_text (profile : LuaProfile) (value : list Z -> Number -> Prop) :
    list Char -> list Char -> TokenKind.TokenKind -> option Literal.Literal -> Prop :=
  | text_keyword bytes post k :
      name_text bytes -> some_and is_name_continue (first_byte post) = false ->
      keyword profile bytes = Some k ->
      token_text profile value (bytes_chars bytes) post (TokenKind.Keyword k) None
  | text_name bytes post :
      name_text bytes -> some_and is_name_continue (first_byte post) = false ->
      keyword profile bytes = None ->
      token_text profile value (bytes_chars bytes) post TokenKind.Name (Some (Literal.Name bytes))
  | text_integer bytes post n :
      numeral_text bytes -> some_and is_name_continue (first_byte post) = false ->
      value bytes (Integer n) ->
      token_text profile value (bytes_chars bytes) post TokenKind.Integer
        (Some (Literal.Integer (Integer n)))
  | text_float bytes post x :
      numeral_text bytes -> some_and is_name_continue (first_byte post) = false ->
      value bytes (Float x) ->
      token_text profile value (bytes_chars bytes) post TokenKind.Float
        (Some (Literal.Float (Float x)))
  | text_short q body v post :
      q = "'"%u8 \/ q = DQUOTE -> short_body q body v ->
      token_text profile value ([q] :: body ++ [[q]]) post TokenKind.String (Some (Literal.String v))
  | text_long n body post :
      long_body n body ->
      token_text profile value (long_opening n ++ body ++ long_closing n) post TokenKind.String
        (Some (Literal.String (long_value body)))
  | text_symbol s post :
      symbol_ends s post ->
      token_text profile value (bytes_chars (symbol_text s)) post (TokenKind.Symbol s) None.

(** What separates tokens. *)
Inductive trivia : list Char -> list Char -> Prop :=
  | trivia_space c post : some_and is_space (head c) = true -> trivia [c] post
  | trivia_line cs post :
      Forall (fun c => newline_char c = false) cs ->
      match first_byte post with Some b => is_newline b = true | None => True end ->
      (forall n after, cs ++ post <> long_opening n ++ after) ->
      trivia (text "--" ++ cs) post
  | trivia_long n body post :
      long_body n body -> trivia (text "--" ++ long_opening n ++ body ++ long_closing n) post.

Definition token_at (pre mid : list Char) (k : TokenKind.TokenKind) (l : option Literal.Literal) : Token :=
  {| kind := k; span := {| span_start := offset_of pre; span_end := offset_of (pre ++ mid) |};
     start := position_of pre; stop := position_of (pre ++ mid); literal := l |}.

(** How a source splits into trivia and the tokens of a chunk, each at its
    offsets and its positions, to the end. *)
Inductive tokens_of (profile : LuaProfile) (value : list Z -> Number -> Prop) :
    list Char -> list Char -> list Token -> Prop :=
  | tokens_end pre :
      tokens_of profile value pre [] [token_at pre [] TokenKind.Eof None]
  | tokens_trivia pre mid post ts :
      trivia mid post -> tokens_of profile value (pre ++ mid) post ts ->
      tokens_of profile value pre (mid ++ post) ts
  | tokens_token pre mid post k l ts :
      token_text profile value mid post k l -> tokens_of profile value (pre ++ mid) post ts ->
      tokens_of profile value pre (mid ++ post) (token_at pre mid k l :: ts).

Lemma list_pair_ind {A} (P : list A -> Prop) :
  P [] -> (forall a, P [a]) -> (forall a b l, P l -> P (b :: l) -> P (a :: b :: l)) -> forall l, P l.
Proof.
  intros H0 H1 H2 l. assert (P l /\ forall a, P (a :: l)) as []; [| done].
  induction l as [| b l [IH1 IH2]]; [by split |]. split; [by apply IH2 | intros a; by apply H2].
Qed.

Lemma chars_pair a b l :
  chars (a :: b :: l) =
  if newline_pair a (Some b) then [a; b] :: chars l else [a] :: chars (b :: l).
Proof. done. Qed.

Lemma concat_chars bytes : concat (chars bytes) = bytes.
Proof.
  induction bytes as [| a | a b l IH1 IH2] using list_pair_ind; [done..|].
  rewrite chars_pair. destruct (newline_pair a (Some b)); cbn [concat app]; congruence.
Qed.

Lemma chars_cons bytes c cs : chars bytes = c :: cs -> chars (concat cs) = cs /\ c <> [].
Proof.
  destruct bytes as [| a [| b l]]; [done | by intros [= <- <-] |].
  rewrite chars_pair. destruct (newline_pair a (Some b)); intros H;
    pose proof (f_equal tail H) as Ht; pose proof (f_equal head H) as Hh; cbn [head tail] in Hh, Ht;
    rewrite <- Ht, concat_chars; (split; [done | congruence]).
Qed.

(** [post] is how a suffix of a source splits into characters. *)
Definition is_chars (post : list Char) : Prop := chars (concat post) = post.

Lemma is_chars_chars bytes : is_chars (chars bytes).
Proof. unfold is_chars. by rewrite concat_chars. Qed.

Lemma is_chars_cons c post : is_chars (c :: post) -> is_chars post /\ c <> [].
Proof. apply chars_cons. Qed.

Lemma is_chars_app pre post : is_chars (pre ++ post) -> is_chars post.
Proof. induction pre; [done |]. cbn. intros [H _]%is_chars_cons. by apply IHpre. Qed.

(** How the first character is recognised from two bytes. *)
Lemma is_chars_split c post :
  is_chars (c :: post) ->
  exists a, head c = Some a /\
    c = if is_newline a && newline_pair a (head (tail (concat (c :: post))))
        then a :: take 1 (tail (concat (c :: post))) else [a].
Proof.
  unfold is_chars. intros H. destruct (concat (c :: post)) as [| a [| b l]]; [done | |];
    cbn [head tail take newline_pair].
  - injection H as <- _. exists a. by destruct (is_newline a).
  - rewrite chars_pair in H. exists a. destruct (newline_pair a (Some b)) eqn:Hp;
      pose proof (f_equal head H) as [= <-]; (split; [done |]); cbn [newline_pair] in Hp; rewrite Hp.
    + unfold is_newline. destruct (a =? LF), (a =? CR); done.
    + by destruct (is_newline a).
Qed.

Lemma not_newline_char c post a :
  is_chars (c :: post) -> head c = Some a -> is_newline a = false -> c = [a].
Proof.
  intros (a' & Ha & Hc)%is_chars_split Ha' Hn. rewrite Ha' in Ha. injection Ha as <-.
  by rewrite Hn in Hc.
Qed.

Lemma offset_of_nonneg pre : 0 <= offset_of pre.
Proof. apply zlen_nonneg. Qed.
Lemma offset_of_app pre mid : offset_of (pre ++ mid) = offset_of pre + offset_of mid.
Proof. unfold offset_of. by rewrite concat_app, zlen_app. Qed.
Lemma offset_of_single c : offset_of [c] = zlen c.
Proof. unfold offset_of. cbn. by rewrite app_nil_r. Qed.
Lemma position_of_snoc pre c : position_of (pre ++ [c]) = position_after (position_of pre) c.
Proof. unfold position_of. by rewrite fold_left_app. Qed.
Lemma zlen_pos_nonempty {A} (l : list A) : l <> [] -> 0 < zlen l.
Proof. destruct l; [done |]. rewrite zlen_cons. pose proof (zlen_nonneg l). lia. Qed.

Lemma zget_0 {A} (l : list A) : zget l 0 = head l.
Proof. by destruct l. Qed.
Lemma zget_1 {A} (l : list A) : zget l 1 = head (tail l).
Proof.
  destruct l as [| x [| y l]]; try done. unfold zget. rewrite !zlen_cons.
  pose proof (zlen_nonneg l). destruct (Z.ltb_spec 1 (1 + (1 + zlen l))); [done | lia].
Qed.

Lemma zget_2 {A} (l : list A) : zget l 2 = head (tail (tail l)).
Proof.
  destruct l as [| x [| y [| z l]]]; try done. unfold zget. rewrite !zlen_cons.
  pose proof (zlen_nonneg l). destruct (Z.ltb_spec 2 (1 + (1 + (1 + zlen l)))); [done | lia].
Qed.

Lemma is_byte_true o b : is_byte o b = true <-> o = Some b.
Proof. unfold is_byte. by rewrite bool_decide_eq_true. Qed.
Lemma is_byte_false o b : is_byte o b = false <-> o <> Some b.
Proof. unfold is_byte. by rewrite bool_decide_eq_false. Qed.

Lemma spec_run {S E A} (m m' : ST S E A) s Q R : m s = m' s -> spec m' s Q R -> spec m s Q R.
Proof. unfold spec. by intros ->. Qed.

Lemma concat_bytes_chars bs : concat (bytes_chars bs) = bs.
Proof. unfold bytes_chars. induction bs as [| b bs IH]; [done |]. cbn. by rewrite IH. Qed.

Lemma bytes_chars_app a b : bytes_chars (a ++ b) = bytes_chars a ++ bytes_chars b.
Proof. apply map_app. Qed.

(** ** UTF-8 *)

Lemma below_bool (f : Z -> bool) n :
  forallb f (seqZ 0 n) = true -> forall q, 0 <= q < n -> f q = true.
Proof.
  intros H q Hq. rewrite forallb_forall in H. apply H, list_elem_of_In, elem_of_seqZ. lia.
Qed.

Lemma continuation_byte x : 0 <= x -> Z.lor 0x80 (as_u8 (Z.land x 0x3f)) = 0x80 + x mod 64.
Proof.
  intros Hx. change 0x3f with (Z.ones 6). rewrite Z.land_ones by lia. change (2 ^ 6) with 64.
  pose proof (Z.mod_pos_bound x 64 ltac:(lia)) as Hb. apply Z.eqb_eq.
  apply (below_bool (fun q => Z.lor 0x80 (as_u8 q) =? 0x80 + q) 64); [vm_compute; reflexivity | done].
Qed.

Lemma shift_six v n : 0 <= v -> Z.shiftr v (Z.of_nat n * 6) = v / 64 ^ Z.of_nat n.
Proof.
  intros Hv. rewrite Z.shiftr_div_pow2 by lia. f_equal. rewrite Z.mul_comm, Z.pow_mul_r by lia. done.
Qed.

Lemma utf8_step v n :
  0 <= v -> v / 64 ^ Z.of_nat (S n) * 64 + (v / 64 ^ Z.of_nat n) mod 64 = v / 64 ^ Z.of_nat n.
Proof.
  intros Hv. assert (0 < 64 ^ Z.of_nat n) by (apply Z.pow_pos_nonneg; lia).
  rewrite Nat2Z.inj_succ, Z.pow_succ_r, (Z.mul_comm 64), <- Z.div_div by lia.
  set (x := v / 64 ^ Z.of_nat n). pose proof (Z.div_mod x 64 ltac:(lia)). lia.
Qed.

(** The first byte of a sequence of [n + 1], as the decoder reads it. *)
Lemma lead_byte v length prefix :
  0 <= v -> unicode_length v = Some (length, prefix) ->
  exists n, length = Z.of_nat n + 1 /\
    utf8_lead (Z.lor prefix (as_u8 (v / 64 ^ Z.of_nat n))) = Some (n, v / 64 ^ Z.of_nat n) /\
    utf8_minimum n <= v.
Proof.
  intros Hv. unfold unicode_length.
  set (leads := fun n prefix q => match utf8_lead (Z.lor prefix (as_u8 q)) with
    | Some (n', q') => (n' =? n)%nat && (q' =? q) | None => false end).
  assert (forall n bound prefix, forallb (leads n prefix) (seqZ 0 bound) = true ->
          v < bound * 64 ^ Z.of_nat n ->
          utf8_lead (Z.lor prefix (as_u8 (v / 64 ^ Z.of_nat n))) = Some (n, v / 64 ^ Z.of_nat n)) as Hlead.
  { intros n bound p Hb Hlt. assert (0 < 64 ^ Z.of_nat n) by (apply Z.pow_pos_nonneg; lia).
    pose proof (below_bool _ _ Hb (v / 64 ^ Z.of_nat n)) as Hl. unfold leads in Hl.
    destruct (utf8_lead _) as [[n' q'] |].
    - destruct (Nat.eqb_spec n' n) as [-> |]; cbn [andb] in Hl; [do 2 f_equal; apply Z.eqb_eq, Hl |
        enough (false = true) by done; apply Hl]; (split; [by apply Z.div_pos; lia | apply Z.div_lt_upper_bound; lia]).
    - enough (false = true) by done; apply Hl; (split; [by apply Z.div_pos; lia | apply Z.div_lt_upper_bound; lia]). }
  repeat match goal with |- context [if ?b then _ else _] => destruct b eqn:? end; intros [= <- <-].
  all: [> exists 0%nat | exists 1%nat | exists 2%nat | exists 3%nat | exists 4%nat | exists 5%nat ].
  all: split_and!; [done | | cbn; lia].
  all: [> apply (Hlead _ 128) | apply (Hlead _ 32) | apply (Hlead _ 16) | apply (Hlead _ 8) | apply (Hlead _ 4) | apply (Hlead _ 2) ].
  all: lazymatch goal with |- forallb _ _ = true => vm_compute; reflexivity | _ => cbn; lia end.
Qed.

(** ** Digits *)

Lemma hex_value_range b d : hex_value b = Some d -> 0 <= d < 16 /\ is_newline b = false.
Proof.
  unfold hex_value, is_ascii_digit, is_newline.
  repeat match goal with |- context [if ?b then _ else _] => destruct b eqn:? end; intros [= <-]; lia.
Qed.

Lemma digits_value_snoc base ds b :
  digits_value base (ds ++ [b]) =
  (v ← digits_value base ds; d ← hex_value b; if d <? base then Some (v * base + d) else None).
Proof. unfold digits_value. by rewrite fold_left_app. Qed.

Lemma digits_value_hex ds b v d :
  digits_value 16 ds = Some v -> hex_value b = Some d -> digits_value 16 (ds ++ [b]) = Some (v * 16 + d).
Proof.
  intros Hv Hd. rewrite digits_value_snoc, Hv, Hd. cbn [mbind option_bind].
  pose proof (hex_value_range _ _ Hd) as [Hr _]. by replace (d <? 16) with true by lia.
Qed.

Lemma digits_value_decimal ds b v :
  digits_value 10 ds = Some v -> is_ascii_digit b = true ->
  digits_value 10 (ds ++ [b]) = Some (v * 10 + (b - "0"%u8)).
Proof.
  intros Hv Hd. rewrite digits_value_snoc, Hv. unfold hex_value. rewrite Hd. cbn [mbind option_bind].
  unfold is_ascii_digit in Hd. by replace (b - 48 <? 10) with true by lia.
Qed.

Lemma digits_value_nonneg base ds v : 0 <= base -> digits_value base ds = Some v -> 0 <= v.
Proof.
  intros Hb. revert v. induction ds as [| b ds IH] using rev_ind; intros v; [by intros [= <-] |].
  rewrite digits_value_snoc. destruct (digits_value base ds) as [u |]; [| done].
  destruct (hex_value b) as [d |] eqn:Hd; [| done]. cbn [mbind option_bind].
  case_match; [| done]. intros [= <-]. specialize (IH u eq_refl). apply hex_value_range in Hd. nia.
Qed.

Lemma simple_escape_listed e v : simple_escape e = Some v -> (e, v) ∈ simple_escapes /\ is_newline e = false.
Proof.
  assert (forall l : list (Z * Z), existsb (fun p => bool_decide (p = (e, v))) l = true -> (e, v) ∈ l) as Hin.
  { intros l (p & Hp & ->%bool_decide_eq_true)%existsb_exists. by apply list_elem_of_In. }
  unfold simple_escape. intros H. repeat case_match; try done; injection H as <-; (split; [| done]); apply Hin; reflexivity.
Qed.

(** ** Prefixes *)

Lemma prefix_of_gets {A} (p l : list A) :
  (forall i, 0 <= i < zlen p -> zget l i = zget p i) -> exists after, l = p ++ after.
Proof.
  revert l. induction p as [| x p IH]; intros l H; [by exists l |].
  pose proof (zlen_nonneg p) as Hp. pose proof (H 0) as H0. rewrite zlen_cons, !zget_0 in H0.
  destruct l as [| y l]; [specialize (H0 ltac:(lia)); done |].
  specialize (H0 ltac:(lia)). cbn in H0. injection H0 as ->.
  destruct (IH l) as [after ->]; [| by exists after].
  intros i Hi. specialize (H (1 + i)). rewrite zlen_cons in H. specialize (H ltac:(lia)).
  change (x :: l) with ([x] ++ l) in H. change (x :: p) with ([x] ++ p) in H.
  change 1 with (zlen [x]) in H. rewrite !zget_app_r in H. by replace (0 <=? i) with true in H by lia.
Qed.

Lemma gets_of_prefix {A} (p after : list A) i : 0 <= i < zlen p -> zget (p ++ after) i = zget p i.
Proof. intros Hi. apply zget_app_l. lia. Qed.

(** Single bytes at the front are characters. *)
Lemma chars_prefix bs rest post :
  is_chars post -> concat post = bs ++ rest -> Forall (fun b => is_newline b = false) bs ->
  exists post', post = bytes_chars bs ++ post' /\ concat post' = rest.
Proof.
  intros Hc Hb Hn. revert post Hc Hb. induction Hn as [| b bs Hb _ IH]; intros post Hc Hpost; [by exists post |].
  destruct post as [| ch post]; [done |]. destruct (is_chars_cons _ _ Hc) as [Hc' Hne].
  assert (head ch = Some b) as Hh by (destruct ch; [done | by injection Hpost as ->]).
  pose proof (not_newline_char _ _ _ Hc Hh Hb) as ->. injection Hpost as Hpost.
  destruct (IH post Hc' Hpost) as (post' & -> & Hr). by exists post'.
Qed.

Lemma bytes_chars_cons b l : bytes_chars (b :: l) = [b] :: bytes_chars l.
Proof. done. Qed.
Lemma bytes_chars_replicate n b : bytes_chars (replicate n b) = replicate n [b].
Proof. induction n as [| n IH]; [done |]. cbn. by rewrite <- IH. Qed.

Definition bracket (b : Z) (n : nat) : list Z := b :: replicate n "="%u8 ++ [b].
Lemma long_opening_bytes n : long_opening n = bytes_chars (bracket "["%u8 n).
Proof.
  unfold long_opening, bracket. by rewrite bytes_chars_cons, bytes_chars_app, bytes_chars_replicate.
Qed.
Lemma long_closing_bytes n : long_closing n = bytes_chars (bracket "]"%u8 n).
Proof.
  unfold long_closing, bracket. by rewrite bytes_chars_cons, bytes_chars_app, bytes_chars_replicate.
Qed.
Lemma zlen_bracket b n : zlen (bracket b n) = Z.of_nat n + 2.
Proof. unfold bracket, zlen. cbn [length]. rewrite length_app, length_replicate. cbn. lia. Qed.
Lemma bracket_not_newline b n : is_newline b = false -> Forall (fun b => is_newline b = false) (bracket b n).
Proof.
  intros Hb. constructor; [done |]. apply Forall_app. split; [by apply Forall_replicate | by constructor].
Qed.
Lemma zget_bracket b n i :
  0 <= i < Z.of_nat n + 2 ->
  zget (bracket b n) i = Some (if (i =? 0) || (i =? Z.of_nat n + 1) then b else "="%u8).
Proof.
  intros Hi. unfold bracket. destruct (Z.eqb_spec i 0) as [-> |]; [done |]. cbn [orb].
  change (zget ([b] ++ replicate n 61 ++ [b]) i = Some (if i =? Z.of_nat n + 1 then b else 61)).
  assert (zlen (replicate n "="%u8) = Z.of_nat n) as Hr by (unfold zlen; by rewrite length_replicate).
  assert (exists j, i = zlen [b] + j /\ 0 <= j) as (j & -> & Hj)
    by (exists (i - 1); change (zlen [b]) with 1; lia).
  rewrite zget_app_r. replace (0 <=? j) with true by lia. change (zlen [b]) with 1 in *.
  destruct (Z.eqb_spec (1 + j) (Z.of_nat n + 1)).
  - replace j with (zlen (replicate n "="%u8) + 0) by lia. by rewrite zget_app_r.
  - rewrite zget_app_l by lia. apply zget_Some. split; [lia |]. apply lookup_replicate. lia.
Qed.
