(* ===== verification/LexerSpec.v ===== *)
(** The scanner against the lexical grammar: the cursor moves over characters,
    and each scanning function, run in front of a text it is called on, reads a
    token or a piece of trivia of the grammar or fails with a well-formed
    diagnostic. *)

From Stdlib Require Import ZArith Lia.
From stdpp Require Import base list numbers strings.
From S2P Require Import Prelude Float Number Lexer LexerGrammar.

Local Open Scope Z_scope.

(** ** The cursor between two parts of the source *)

Section Reading.
#[local] Set Default Proof Using "Type*".
Context (input : list Z) (profile : LuaProfile) (limits : CompileLimits).
Context (Hinput : zlen input <= USIZE_MAX).

Record cursor_at (pre post : list Char) (c : Cursor) : Prop := {
  ca_input : c_input c = input;
  ca_split : input = concat pre ++ concat post;
  ca_chars : is_chars post;
  ca_offset : c_offset c = offset_of pre;
  ca_position : cursor_position c = position_of pre;
  ca_profile : c_profile c = profile
}.

Lemma cursor_at_total pre post c : cursor_at pre post c -> offset_of pre + offset_of post = zlen input.
Proof. intros [_ H _ _ _ _]. unfold offset_of. by rewrite H, zlen_app. Qed.

Lemma peek_at pre post c : cursor_at pre post c -> cursor_peek c = first_byte post.
Proof.
  intros [Hi Hs _ Ho _ _]. unfold cursor_peek, first_byte, offset_of in *. rewrite Hi, Ho, Hs.
  rewrite <- (Z.add_0_r (zlen (concat pre))), zget_app_r. apply zget_0.
Qed.

Lemma peek_n_at pre post c d :
  cursor_at pre post c -> 0 <= d -> cursor_peek_n c d = zget (concat post) d.
Proof.
  intros Hc Hd. pose proof (cursor_at_total _ _ _ Hc) as Ht. destruct Hc as [Hi Hs _ Ho _ _].
  unfold cursor_peek_n, checked_add_usize. rewrite Ho, Hi.
  destruct (Z.leb_spec (offset_of pre + d) USIZE_MAX).
  - rewrite Hs. unfold offset_of. rewrite zget_app_r. by replace (0 <=? d) with true by lia.
  - symmetry. apply zget_None. right. unfold offset_of in *. lia.
Qed.

Lemma bump_spec value set message c (Q : unit -> Cursor -> Prop) (R : string -> Cursor -> Prop) :
  (value c + 1 <= USIZE_MAX -> Q tt (set c (value c + 1))) -> R message c ->
  spec (bump value set message) c Q R.
Proof.
  intros HQ HR. unfold spec, bump, checked_add_usize.
  destruct (Z.leb_spec (value c + 1) USIZE_MAX); auto.
Qed.

(** [Cursor::advance] moves over one character. *)
Lemma cursor_advance_at pre ch post c :
  cursor_at pre (ch :: post) c ->
  spec (cursor_advance limits) c (fun _ c' => cursor_at (pre ++ [ch]) post c' /\ c_line c' <= Z.max (c_line c) (max_lines limits))
    (fun _ c' => offset_of pre <= c_offset c' <= zlen input).
Proof.
  intros Hc. pose proof (cursor_at_total _ _ _ Hc) as Ht. pose proof (peek_at _ _ _ Hc) as Hp.
  pose proof Hc as [Hi Hs Hch Ho Hpos Hpr].
  destruct (is_chars_cons _ _ Hch) as [Hpost Hne]. destruct (is_chars_split _ _ Hch) as (a & Ha & Hsplit).
  assert (offset_of (ch :: post) = zlen ch + offset_of post) as Hoc
    by (unfold offset_of; cbn [concat]; apply zlen_app).
  pose proof (offset_of_nonneg post) as Hpn.
  assert (first_byte (ch :: post) = Some a) as Hf
    by (unfold first_byte; cbn [concat]; destruct ch; [done | exact Ha]).
  assert (zget (c_input c) (c_offset c + 1) = head (tail (concat (ch :: post)))) as Hnext.
  { rewrite Hi, Ho, Hs. unfold offset_of. rewrite zget_app_r. apply zget_1. }
  assert (newline_char ch = is_newline a) as Hnl by (unfold newline_char; by rewrite Ha).
  assert (forall c', c_input c' = input -> c_offset c' = offset_of pre + zlen ch ->
    cursor_position c' = position_of (pre ++ [ch]) -> c_profile c' = profile ->
    cursor_at (pre ++ [ch]) post c') as Hat.
  { intros c' ? Ho' ? ?. split; [done | | done | | done | done].
    - rewrite Hs, concat_app. cbn [concat]. by rewrite app_nil_r, <- app_assoc.
    - by rewrite Ho', offset_of_app, offset_of_single. }
  unfold cursor_position in Hpos. rewrite position_of_snoc in Hat. unfold position_after in Hat.
  rewrite Hnl, <- Hpos in Hat. cbn [p_line p_column] in Hat.
  pose proof (zlen_pos_nonempty ch Hne) as Hpc.
  eapply spec_run; [unfold cursor_advance; rewrite Hp, Hf, Hnext; reflexivity |].
  set (next := head (tail (concat (ch :: post)))) in *.
  destruct (is_newline a) eqn:Hn; cbn [andb] in Hsplit.
  - assert (zlen ch = if newline_pair a next then 2 else 1) as Hz.
    { rewrite Hsplit. destruct (newline_pair a next) eqn:Hnp; [| done].
      unfold next in *. destruct (concat (ch :: post)) as [| ? [| ? ?]]; done. }
    apply spec_bind, bump_spec; [intros _ | cbn [c_offset with_offset with_line]; lia].
    apply spec_bind. destruct (newline_pair a next).
    + apply bump_spec; [intros _ | cbn [c_offset with_offset]; lia].
      apply spec_bind, bump_spec; [intros _ | cbn [c_offset with_offset]; lia].
      apply spec_bind, spec_get. cbn [with_offset with_line c_line c_offset].
      destruct (Z.ltb_spec (max_lines limits) (c_line c + 1)); [apply spec_fail; cbn [c_offset with_offset with_line]; lia |].
      apply spec_put. split; [apply Hat; cbn [with_offset with_line with_column c_input c_offset c_profile]; auto; try lia | cbn [with_offset with_line with_column c_line]; lia].
    + apply spec_ret. apply spec_bind, bump_spec; [intros _ | cbn [c_offset with_offset]; lia].
      apply spec_bind, spec_get. cbn [with_offset with_line c_line c_offset].
      destruct (Z.ltb_spec (max_lines limits) (c_line c + 1)); [apply spec_fail; cbn [c_offset with_offset with_line]; lia |].
      apply spec_put. split; [apply Hat; cbn [with_offset with_line with_column c_input c_offset c_profile]; auto; try lia | cbn [with_offset with_line with_column c_line]; lia].
  - assert (zlen ch = 1) as Hz by (by rewrite Hsplit).
    apply spec_bind, bump_spec; [intros _ | cbn [c_offset with_offset with_line]; lia].
    apply bump_spec; [intros _ | cbn [c_offset with_offset]; lia].
    split; [apply Hat; cbn [with_offset with_line with_column c_input c_offset c_profile]; auto; try lia | cbn [with_offset with_line with_column c_line]; lia].
Qed.

(** ** One token

    Fixed: what precedes the token and the tokens so far. [At mid post]: the
    scanner has read [mid] of the token, [post] is ahead. *)

Definition diagnostic_ok (d : Diagnostic) : Prop :=
  (d_code d = Lex \/ d_code d = CompileLimit) /\
  0 <= span_start (d_span d) <= span_end (d_span d) /\ span_end (d_span d) <= zlen input.
Abbreviation failing := (fun (d : Diagnostic) (_ : Scanner) => diagnostic_ok d).

Section Token.
Context (pre : list Char) (ts : list Token).

Record At (mid post : list Char) (s : Scanner) : Prop := {
  at_cursor : cursor_at (pre ++ mid) post (cursor s);
  at_tokens : tokens s = ts;
  at_length : offset_of mid <= Z.max 0 (max_token_bytes limits)
}.

Abbreviation sb := (offset_of pre).
Abbreviation st := (position_of pre).

Lemma at_diagnostic mid post s code start message :
  At mid post s -> code = Lex \/ code = CompileLimit ->
  diagnostic_ok (Diagnostic_at code sb start (cursor s) message).
Proof.
  intros [Hc _ _] Hcode. pose proof (cursor_at_total _ _ _ Hc) as Ht.
  split; [done |]. cbn [Diagnostic_at d_span span_start span_end].
  rewrite (ca_offset _ _ _ Hc), offset_of_app in *.
  pose proof (offset_of_nonneg pre). pose proof (offset_of_nonneg mid). pose proof (offset_of_nonneg post). lia.
Qed.

Lemma at_peek mid post s (Q : option Z -> Scanner -> Prop) R :
  At mid post s -> Q (first_byte post) s -> spec peek s Q R.
Proof. intros [Hc _ _] HQ. unfold spec, peek. by rewrite (peek_at _ _ _ Hc). Qed.

Lemma at_peek_n mid post s d (Q : option Z -> Scanner -> Prop) R :
  At mid post s -> 0 <= d -> Q (zget (concat post) d) s -> spec (peek_n d) s Q R.
Proof. intros [Hc _ _] Hd HQ. unfold spec, peek_n. by rewrite (peek_n_at _ _ _ _ Hc). Qed.

Lemma at_fail {A} mid post s message (Q : A -> Scanner -> Prop) :
  At mid post s -> spec (lex_fail sb st message) s Q failing.
Proof. intros Hs. apply (at_diagnostic mid post); auto. Qed.

Lemma at_advance mid ch post s (Q : unit -> Scanner -> Prop) :
  At mid (ch :: post) s -> (forall s', At (mid ++ [ch]) post s' -> Q tt s') ->
  spec (advance limits sb st) s Q failing.
Proof.
  intros Hs HQ. pose proof (at_cursor _ _ _ Hs) as Hc.
  pose proof (cursor_advance_at _ _ _ _ Hc) as Ha. pose proof (offset_of_nonneg pre) as Hp.
  pose proof (offset_of_nonneg mid) as Hm.
  unfold spec, advance in *. destruct (cursor_advance limits (cursor s)) as [[[] | message | k] c']; [| | done].
  - destruct Ha as [Ha _]. pose proof (cursor_at_total _ _ _ Ha) as Ht. pose proof (ca_offset _ _ _ Ha) as Ho.
    rewrite <- app_assoc, offset_of_app in Ho, Ht. pose proof (offset_of_nonneg (mid ++ [ch])).
    pose proof (offset_of_nonneg post).
    destruct (Z.ltb_spec (max_token_bytes limits) (Z.max 0 (c_offset c' - sb))).
    + split; [by right |]. cbn. lia.
    + apply HQ. rewrite <- app_assoc in Ha. split; [done | by destruct Hs | lia].
  - split; [by right |]. cbn. rewrite offset_of_app in Ha. lia.
Qed.

(** At the end of the source nothing moves. *)
Lemma at_advance_end mid s (Q : unit -> Scanner -> Prop) :
  At mid [] s -> (forall s', At mid [] s' -> Q tt s') -> spec (advance limits sb st) s Q failing.
Proof.
  intros Hs HQ. pose proof (at_diagnostic mid [] s CompileLimit st "token 超過編譯限制" Hs) as Hd.
  destruct Hs as [Hc Hts Hl].
  unfold spec, advance, cursor_advance. rewrite (peek_at _ _ _ Hc). cbn [first_byte concat head].
  cbn [set_cursor]. destruct (Z.ltb_spec (max_token_bytes limits) (Z.max 0 (c_offset (cursor s) - sb))).
  - apply Hd. by right.
  - apply HQ. split; [done | done | done].
Qed.

Lemma at_push mid post s bytes byte (Q : list Z -> Scanner -> Prop) :
  At mid post s -> Q (bytes ++ [byte]) s ->
  spec (push_literal_byte limits bytes byte sb st) s Q failing.
Proof.
  intros Hs HQ. unfold spec, push_literal_byte.
  destruct (max_token_bytes limits <=? zlen bytes); [| done].
  apply (at_diagnostic mid post); auto.
Qed.

(** ** Loops *)

Lemma at_loop {X B} (body : X -> Scan (X + B)) (I : X -> list Char -> list Char -> Prop)
    (Q : B -> Scanner -> Prop) x mid post s :
  (forall x mid post s, At mid post s -> I x mid post ->
     spec (body x) s (fun r s' =>
       match r with
       | inl x' => exists mid' post', At mid' post' s' /\ I x' mid' post' /\ (length (concat post') < length (concat post))%nat
       | inr b => Q b s'
       end) failing) ->
  At mid post s -> I x mid post -> spec (loop body x) s Q failing.
Proof.
  intros Hbody Hs HI.
  set (left := fun s : Scanner => Z.to_nat (zlen input - c_offset (cursor s))).
  assert (forall mid post s, At mid post s -> left s = length (concat post)) as Hleft.
  { intros m p s' [Hc _ _]. pose proof (cursor_at_total _ _ _ Hc) as Ht. unfold left.
    rewrite (ca_offset _ _ _ Hc), <- Ht. unfold offset_of, zlen. lia. }
  unfold loop. pose proof (ca_input _ _ _ (at_cursor _ _ _ Hs)) as Hi. unfold spec. rewrite Hi.
  fold (spec (iter (S (length input)) body x) s Q failing).
  apply (spec_iter body (fun x s => exists mid post, At mid post s /\ I x mid post) (fun _ s => left s)).
  - intros x' s' (m & p & Hs' & HI'). eapply spec_weaken; [by eapply Hbody | | done].
    intros [x'' | b] s''; [| done]. intros (m' & p' & Hs'' & HI'' & Hlt).
    split; [by exists m', p' |]. by rewrite (Hleft _ _ _ Hs''), (Hleft _ _ _ Hs').
  - by exists mid, post.
  - rewrite (Hleft _ _ _ Hs). pose proof (ca_split _ _ _ (at_cursor _ _ _ Hs)) as Hsp.
    rewrite Hsp, length_app. lia.
Qed.

Lemma first_byte_cons mid post s ch :
  At mid (ch :: post) s -> exists b, first_byte (ch :: post) = Some b /\ head ch = Some b.
Proof.
  intros [Hc _ _]. destruct (is_chars_cons _ _ (ca_chars _ _ _ Hc)) as [_ Hne].
  destruct ch as [| b ch]; [done |]. by exists b.
Qed.

Lemma first_byte_Some mid post s b :
  At mid post s -> first_byte post = Some b -> exists ch post', post = ch :: post' /\ head ch = Some b.
Proof.
  intros Hs Hb. destruct post as [| ch post]; [done |].
  destruct (first_byte_cons _ _ _ _ Hs) as (b' & Hb' & Hh). exists ch, post. split; [done | congruence].
Qed.

Lemma length_concat_cons mid ch post s :
  At mid (ch :: post) s -> (length (concat post) < length (concat (ch :: post)))%nat.
Proof.
  intros [Hc _ _]. destruct (is_chars_cons _ _ (ca_chars _ _ _ Hc)) as [_ Hne].
  cbn [concat]. rewrite length_app. destruct ch; [done |]. cbn. lia.
Qed.

(** A [while] whose body reads one character: it stops at the first that does
    not satisfy the test. *)
Lemma at_while {X} p (body : X -> Scan X) (J : X -> list Char -> Prop) (Q : X -> Scanner -> Prop)
    x mid post s :
  (forall x got ch post s b,
     At (mid ++ got) (ch :: post) s -> head ch = Some b -> p b = true -> J x got ->
     spec (body x) s (fun x' s' => At (mid ++ got ++ [ch]) post s' /\ J x' (got ++ [ch])) failing) ->
  At mid post s -> J x [] ->
  (forall x' got post' s',
     At (mid ++ got) post' s' -> post = got ++ post' -> J x' got ->
     Forall (fun c => some_and p (head c) = true) got -> some_and p (first_byte post') = false ->
     Q x' s') ->
  spec (while_peek p body x) s Q failing.
Proof.
  intros Hbody Hs HJ HQ. unfold while_peek.
  apply (at_loop _ (fun x m q => exists got, m = mid ++ got /\ post = got ++ q /\ J x got /\
           Forall (fun c => some_and p (head c) = true) got) _ _ mid post); [| done |].
  2: { exists []. by rewrite app_nil_r. }
  clear x s Hs HJ. intros x m q s Hs (got & -> & Hpost & HJ & Hgot).
  apply spec_bind, (at_peek _ _ _ _ _ Hs). destruct (first_byte q) as [b |] eqn:Hb.
  2: { apply spec_ret. eapply HQ; [done.. |]. by rewrite Hb. }
  destruct (p b) eqn:Hp; [| apply spec_ret; eapply HQ; [done.. |]; by rewrite Hb].
  destruct (first_byte_Some _ _ _ _ Hs Hb) as (ch & q' & -> & Hh).
  pose proof (length_concat_cons _ _ _ _ Hs) as Hlt.
  pose proof (Hbody x got ch q' s b Hs Hh Hp HJ) as Hx. unfold spec, fmap, st_fmap in *.
  destruct (body x s) as [[x' | d | k] s']; [| done..]. destruct Hx as [Hs' HJ'].
  exists (mid ++ got ++ [ch]), q'. split_and!; [done | | done].
  exists (got ++ [ch]). split_and!; [done | by rewrite Hpost, <- app_assoc | done |].
  apply Forall_app. split; [done |]. constructor; [| done]. by rewrite Hh.
Qed.

(** ** Runs of single bytes *)

Lemma at_chars mid post s : At mid post s -> is_chars post.
Proof. intros [Hc _ _]. apply (ca_chars _ _ _ Hc). Qed.

Lemma at_single mid ch post s b :
  At mid (ch :: post) s -> head ch = Some b -> is_newline b = false -> ch = [b].
Proof. intros Hs%at_chars. by eapply not_newline_char. Qed.

Lemma single_run p got post :
  (forall b, p b = true -> is_newline b = false) -> is_chars (got ++ post) ->
  Forall (fun c => some_and p (head c) = true) got ->
  exists bs, got = bytes_chars bs /\ all p bs.
Proof.
  intros Hp Hc. induction 1 as [| c got H _ IH]; [by exists []; split; [| constructor] |].
  cbn [app] in Hc. pose proof (is_chars_cons _ _ Hc) as [Hc' _]. destruct (IH Hc') as (bs & -> & IH2).
  destruct (head c) as [b |] eqn:Hb; [| done]. cbn in H.
  rewrite (not_newline_char _ _ _ Hc Hb (Hp _ H)). exists (b :: bs). split; [done | by constructor].
Qed.

Lemma at_consume mid ch post s b bytes (Q : list Z -> Scanner -> Prop) :
  At mid (ch :: post) s -> head ch = Some b ->
  (forall s', At (mid ++ [ch]) post s' -> Q (bytes ++ [b]) s') ->
  spec (consume_number_byte limits bytes sb st) s Q failing.
Proof.
  intros Hs Hb HQ. unfold consume_number_byte, append_input_byte.
  destruct (first_byte_cons _ _ _ _ Hs) as (b' & Hf & Hb'). rewrite Hb in Hb'. injection Hb' as <-.
  apply spec_bind, (at_peek _ _ _ _ _ Hs). rewrite Hf. apply spec_bind, spec_ret.
  apply spec_bind, (at_push _ _ _ _ _ _ Hs).
  apply spec_bind, (at_advance _ _ _ _ _ Hs). intros s' Hs'. apply spec_ret. by apply HQ.
Qed.

(** A [while] that collects bytes. *)
Lemma at_collect p (body : list Z -> Scan (list Z)) bytes (Q : list Z -> Scanner -> Prop) mid post s :
  (forall b, p b = true -> is_newline b = false) ->
  (forall mid ch post s b bytes Q', At mid (ch :: post) s -> head ch = Some b ->
     (forall s', At (mid ++ [ch]) post s' -> Q' (bytes ++ [b]) s') ->
     spec (body bytes) s Q' failing) ->
  At mid post s ->
  (forall got post' s',
     At (mid ++ bytes_chars got) post' s' -> post = bytes_chars got ++ post' -> all p got ->
     some_and p (first_byte post') = false -> Q (bytes ++ got) s') ->
  spec (while_peek p body bytes) s Q failing.
Proof.
  intros Hp Hbody Hs HQ. eapply (at_while p body (fun x got => x = bytes ++ concat got)); [| exact Hs | |].
  - intros x got ch q s' b Hs' Hb Hpb ->. eapply Hbody; [exact Hs' | exact Hb |]. intros s'' Hs''.
    rewrite <- app_assoc in Hs''. split; [done |]. rewrite concat_app. cbn [concat].
    rewrite (at_single _ _ _ _ _ Hs' Hb (Hp _ Hpb)). by rewrite app_nil_r, app_assoc.
  - by rewrite app_nil_r.
  - intros x got post' s' Hs' -> -> Hall Hstop. pose proof (at_chars _ _ _ Hs) as Hch.
    destruct (single_run _ _ _ Hp Hch Hall) as (bs & -> & Hb). rewrite concat_bytes_chars. by eapply HQ.
Qed.

(** ** Tokens *)

Context (value : list Z -> Number -> Prop).

(** A scanner that began before [post] has read one token of it. *)
Definition token_read (post : list Char) (s : Scanner) : Prop :=
  exists mid post' k l,
    post = mid ++ post' /\ mid <> [] /\ token_text profile value mid post' k l /\
    cursor_at (pre ++ mid) post' (cursor s) /\ tokens s = ts ++ [token_at pre mid k l].

Lemma at_begin {A} post s (f : SourcePosition -> Z -> Scan A) (Q : A -> Scanner -> Prop) R :
  At [] post s -> spec (f st sb) s Q R ->
  spec (start ← position; start_byte ← offset; f start start_byte) s Q R.
Proof.
  intros [Hc _ _]. rewrite app_nil_r in Hc. pose proof (ca_offset _ _ _ Hc) as Ho.
  pose proof (ca_position _ _ _ Hc) as Hp. unfold spec, mbind, st_bind, position, offset. by rewrite Ho, Hp.
Qed.

Lemma at_get mid post s (Q : Scanner -> Scanner -> Prop) R :
  At mid post s -> Q s s -> spec (E := Diagnostic) get s Q R.
Proof. done. Qed.

Lemma at_emit mid post s k l (Q : unit -> Scanner -> Prop) :
  At mid post s ->
  (forall s', cursor_at (pre ++ mid) post (cursor s') -> tokens s' = ts ++ [token_at pre mid k l] -> Q tt s') ->
  spec (emit limits sb st k l) s Q failing.
Proof.
  intros Hs HQ. pose proof (at_diagnostic mid post s CompileLimit st "token 數超過編譯限制" Hs) as Hd.
  destruct Hs as [Hc Hts Hl]. unfold spec, emit, push_token. cbn [span span_start start].
  destruct (max_tokens limits <=? zlen (tokens s)); [apply Hd; by right |].
  apply HQ; [done |]. cbn [tokens]. rewrite Hts, (ca_offset _ _ _ Hc), (ca_position _ _ _ Hc). done.
Qed.

Lemma at_emit_token post0 mid post s k l :
  At mid post s -> post0 = mid ++ post -> mid <> [] -> token_text profile value mid post k l ->
  spec (emit limits sb st k l) s (fun _ => token_read post0) failing.
Proof. intros Hs -> Hm Ht. apply (at_emit _ _ _ _ _ _ Hs). intros s' Hc Hts. by exists mid, post, k, l. Qed.

(** Names and keywords. *)
Lemma name_continue_not_newline b : is_name_continue b = true -> is_newline b = false.
Proof.
  unfold is_name_continue, is_name_start, is_ascii_alphabetic, is_ascii_digit, is_newline. lia.
Qed.
Lemma name_start_continue b : is_name_start b = true -> is_name_continue b = true.
Proof. unfold is_name_continue. by intros ->. Qed.

Lemma scan_name_spec post s :
  At [] post s -> some_and is_name_start (first_byte post) = true ->
  spec (scan_name limits) s (fun _ => token_read post) failing.
Proof.
  intros Hs Hfirst. unfold scan_name. apply (at_begin _ _ _ _ _ Hs).
  apply spec_bind. eapply (at_collect is_name_continue); [apply name_continue_not_newline | | exact Hs |].
  { intros mid ch q s' b bytes Q' Hs' Hb HQ'. by eapply at_consume. }
  intros got post' s' Hs' -> Hall Hstop. cbn [app] in Hs' |- *.
  assert (name_text got) as Hname.
  { split; [| done]. destruct got as [| b got]; [| done]. exfalso. cbn [bytes_chars map app] in *.
    destruct (first_byte post') as [b |]; [| done]. cbn in *. by rewrite name_start_continue in Hstop. }
  assert (bytes_chars got <> []) as Hne by (destruct got; [by destruct Hname | done]).
  apply spec_bind, (at_get _ _ _ _ _ Hs'). rewrite (ca_profile _ _ _ (at_cursor _ _ _ Hs')).
  destruct (keyword profile got) eqn:Hk; eapply at_emit_token; try done; by constructor.
Qed.

(** Symbols. *)

(** All of the symbol but its last byte has been read. *)
Definition symbol_read (post : list Char) (sym : Symbol.Symbol) (s : Scanner) : Prop :=
  exists mid last post', At mid (last :: post') s /\ post = mid ++ last :: post' /\
    mid ++ [last] = bytes_chars (symbol_text sym) /\
    forall s' after, bytes_chars (symbol_text sym) ++ post' = bytes_chars (symbol_text s') ++ after ->
      (length (symbol_text s') <= length (symbol_text sym))%nat.

Lemma next_char mid b c post s :
  At mid ([b] :: post) s -> is_newline c = false -> head (concat post) = Some c ->
  exists post', post = [c] :: post'.
Proof.
  intros Hs Hn Hc. destruct (is_chars_cons _ _ (at_chars _ _ _ Hs)) as [Hch _].
  destruct post as [| ch post]; [done |]. destruct (is_chars_cons _ _ Hch) as [_ Hne].
  destruct ch as [| b' ch]; [done |]. cbn in Hc. injection Hc as ->.
  exists post. f_equal. by eapply not_newline_char.
Qed.

(** No longer symbol: by cases on it. *)
Ltac longest :=
  intros s' after He; destruct s'; cbn in He |- *; try lia; exfalso;
  try discriminate; injection He; intros; subst; cbn in *; congruence.

Lemma symbol_one b post s sym :
  At [] ([b] :: post) s -> bytes_chars (symbol_text sym) = [[b]] ->
  (forall s' after, bytes_chars (symbol_text sym) ++ post = bytes_chars (symbol_text s') ++ after ->
      (length (symbol_text s') <= length (symbol_text sym))%nat) ->
  symbol_read ([b] :: post) sym s.
Proof. intros Hs Ht Hl. by exists [], [b], post. Qed.

Lemma symbol_two b c post s sym :
  At [] ([b] :: [c] :: post) s -> bytes_chars (symbol_text sym) = [[b]; [c]] ->
  (forall s' after, bytes_chars (symbol_text sym) ++ post = bytes_chars (symbol_text s') ++ after ->
      (length (symbol_text s') <= length (symbol_text sym))%nat) ->
  spec (advance limits sb st;; mret sym) s (symbol_read ([b] :: [c] :: post)) failing.
Proof.
  intros Hs Ht Hl. apply spec_bind, (at_advance _ _ _ _ _ Hs). intros s' Hs'. apply spec_ret.
  by exists [[b]], [c], post.
Qed.

Lemma symbol_pair_spec b c two one post s :
  At [] ([b] :: post) s -> is_newline c = false ->
  bytes_chars (symbol_text two) = [[b]; [c]] -> bytes_chars (symbol_text one) = [[b]] ->
  (forall post', forall s' after, bytes_chars (symbol_text two) ++ post' = bytes_chars (symbol_text s') ++ after ->
      (length (symbol_text s') <= length (symbol_text two))%nat) ->
  (head (concat post) <> Some c -> forall s' after, bytes_chars (symbol_text one) ++ post = bytes_chars (symbol_text s') ++ after ->
      (length (symbol_text s') <= length (symbol_text one))%nat) ->
  spec (symbol_pair limits c two one sb st) s (symbol_read ([b] :: post)) failing.
Proof.
  intros Hs Hn H2 H1 L2 L1. unfold symbol_pair. apply spec_bind, (at_peek_n _ _ _ _ _ _ Hs); [lia |].
  rewrite zget_1. cbn [concat app tail]. destruct (is_byte (head (concat post)) c) eqn:Hc.
  - apply is_byte_true in Hc. destruct (next_char _ _ _ _ _ Hs Hn Hc) as [post' ->].
    apply symbol_two; [done..| apply L2].
  - apply is_byte_false in Hc. apply spec_ret. apply symbol_one; [done | done | by apply L1].
Qed.

Lemma symbol_angle_spec b equal shift one post s :
  At [] ([b] :: post) s -> is_newline b = false ->
  bytes_chars (symbol_text equal) = [[b]; ["="%u8]] -> bytes_chars (symbol_text shift) = [[b]; [b]] ->
  bytes_chars (symbol_text one) = [[b]] ->
  (forall post', forall s' after, bytes_chars (symbol_text equal) ++ post' = bytes_chars (symbol_text s') ++ after ->
      (length (symbol_text s') <= length (symbol_text equal))%nat) ->
  (forall post', forall s' after, bytes_chars (symbol_text shift) ++ post' = bytes_chars (symbol_text s') ++ after ->
      (length (symbol_text s') <= length (symbol_text shift))%nat) ->
  (head (concat post) <> Some "="%u8 -> head (concat post) <> Some b ->
   forall s' after, bytes_chars (symbol_text one) ++ post = bytes_chars (symbol_text s') ++ after ->
      (length (symbol_text s') <= length (symbol_text one))%nat) ->
  spec (symbol_angle limits b equal shift one sb st) s (symbol_read ([b] :: post)) failing.
Proof.
  intros Hs Hn H2 H3 H1 L2 L3 L1. unfold symbol_angle. apply spec_bind, (at_peek_n _ _ _ _ _ _ Hs); [lia |].
  rewrite zget_1. cbn [concat app tail]. destruct (is_byte (head (concat post)) "="%u8) eqn:Hc.
  { apply is_byte_true in Hc. destruct (next_char _ _ "="%u8 _ _ Hs eq_refl Hc) as [post' ->].
    apply symbol_two; [done..| apply L2]. }
  destruct (is_byte (head (concat post)) b) eqn:Hb.
  { apply is_byte_true in Hb. destruct (next_char _ _ _ _ _ Hs Hn Hb) as [post' ->].
    apply symbol_two; [done..| apply L3]. }
  apply is_byte_false in Hc, Hb. apply spec_ret. apply symbol_one; [done | done | by apply L1].
Qed.

Lemma symbol_dot_spec post s :
  At [] (["."%u8] :: post) s ->
  spec (symbol_dot limits sb st) s (symbol_read (["."%u8] :: post)) failing.
Proof.
  intros Hs. unfold symbol_dot. apply spec_bind, (at_peek_n _ _ _ _ _ _ Hs); [lia |].
  apply spec_bind, (at_peek_n _ _ _ _ _ _ Hs); [lia |]. rewrite zget_1, zget_2. cbn [concat app tail].
  destruct (is_byte (head (concat post)) "."%u8) eqn:H1; cbn [andb].
  2: { apply is_byte_false in H1. apply spec_ret. apply symbol_one; [done | done |]. longest. }
  apply is_byte_true in H1. destruct (next_char _ _ "."%u8 _ _ Hs eq_refl H1) as [p ->].
  cbn [concat app tail]. destruct (is_byte (head (concat p)) "."%u8) eqn:H2.
  - apply is_byte_true in H2.
    apply spec_bind, (at_advance _ _ _ _ _ Hs). intros s1 Hs1.
    destruct (next_char _ _ "."%u8 _ _ Hs1 eq_refl H2) as [q ->].
    apply spec_bind, (at_advance _ _ _ _ _ Hs1). intros s2 Hs2. apply spec_ret.
    exists [["."%u8]; ["."%u8]], ["."%u8], q. split_and!; [done..|]. longest.
  - apply is_byte_false in H2. apply symbol_two; [done | done |]. longest.
Qed.

Lemma symbol_of_spec b post s :
  At [] ([b] :: post) s -> spec (symbol_of limits b sb st) s (symbol_read ([b] :: post)) failing.
Proof.
  intros Hs.
  assert (forall Q : Symbol.Symbol -> Scanner -> Prop, spec (advance limits sb st;; lex_fail sb st "未知詞法元素") s Q failing) as Hbad.
  { intros Q. apply spec_bind, (at_advance _ _ _ _ _ Hs). intros s' Hs'. by eapply at_fail. }
  unfold symbol_of. repeat case_match; try apply Hbad;
    first [ apply spec_ret; apply symbol_one; [done | done | longest]
          | apply symbol_pair_spec; [done | done | done | done | intros ?; longest | intros ?; longest]
          | apply symbol_angle_spec; [done | done | done | done | done | intros ?; longest | intros ?; longest | intros ??; longest]
          | by apply symbol_dot_spec ].
Qed.

Definition symbol_allowed (post : list Char) : Prop :=
  (first_byte post = Some "-"%u8 -> head (tail (concat post)) <> Some "-"%u8) /\
  (first_byte post = Some "."%u8 -> some_and is_ascii_digit (head (tail (concat post))) = false) /\
  (first_byte post = Some "["%u8 -> forall n after, post <> long_opening n ++ after).

Lemma scan_symbol_spec post s b :
  At [] post s -> first_byte post = Some b -> is_newline b = false -> symbol_allowed post ->
  spec (scan_symbol limits) s (fun _ => token_read post) failing.
Proof.
  intros Hs Hb Hn (Hminus & Hdot & Hopen). destruct (first_byte_Some _ _ _ _ Hs Hb) as (ch & post' & -> & Hh).
  pose proof (at_single _ _ _ _ _ Hs Hh Hn) as ->. unfold scan_symbol. apply (at_begin _ _ _ _ _ Hs).
  apply spec_bind, (at_peek _ _ _ _ _ Hs). rewrite Hb. apply spec_bind, spec_ret.
  apply spec_bind. eapply spec_weaken; [by apply symbol_of_spec | | done].
  intros sym s1 (mid & last & q & Hs1 & Hpost & Htext & Hlong).
  apply spec_bind, (at_advance _ _ _ _ _ Hs1). intros s2 Hs2. rewrite Htext in Hs2.
  assert ([b] :: post' = bytes_chars (symbol_text sym) ++ q) as Hsplit by (by rewrite <- Htext, <- app_assoc).
  eapply at_emit_token; [exact Hs2 | done | by destruct sym |]. constructor.
  rewrite Hsplit in Hminus, Hdot, Hopen. split_and!; [done | | |]; intros ->; cbn in *; auto.
Qed.

(** Numerals: what has been read is the bytes collected. *)

Lemma digit_not_newline b : is_ascii_digit b = true -> is_newline b = false.
Proof. unfold is_ascii_digit, is_newline. lia. Qed.
Lemma hexdigit_not_newline b : is_ascii_hexdigit b = true -> is_newline b = false.
Proof. unfold is_ascii_hexdigit, is_ascii_digit, is_newline. lia. Qed.

Lemma at_digits p bytes post s (Q : list Z -> Scanner -> Prop) :
  (forall b, p b = true -> is_newline b = false) -> At (bytes_chars bytes) post s ->
  (forall got post' s', At (bytes_chars (bytes ++ got)) post' s' -> post = bytes_chars got ++ post' ->
     all p got -> some_and p (first_byte post') = false -> Q (bytes ++ got) s') ->
  spec (consume_digits limits p bytes sb st) s Q failing.
Proof.
  intros Hp Hs HQ. unfold consume_digits. eapply at_collect; [exact Hp | | exact Hs |].
  { intros mid ch q s' b bs Q' Hs' Hb HQ'. by eapply at_consume. }
  intros got post' s' Hs'. rewrite <- bytes_chars_app in Hs'. by apply HQ.
Qed.

Lemma at_byte bytes post s b (Q : list Z -> Scanner -> Prop) :
  At (bytes_chars bytes) post s -> first_byte post = Some b -> is_newline b = false ->
  (forall post' s', At (bytes_chars (bytes ++ [b])) post' s' -> post = [b] :: post' -> Q (bytes ++ [b]) s') ->
  spec (consume_number_byte limits bytes sb st) s Q failing.
Proof.
  intros Hs Hb Hn HQ. destruct (first_byte_Some _ _ _ _ Hs Hb) as (ch & post' & -> & Hh).
  pose proof (at_single _ _ _ _ _ Hs Hh Hn) as ->.
  eapply at_consume; [exact Hs | done |]. intros s' Hs'. apply (HQ post'); [| done].
  by rewrite bytes_chars_app.
Qed.

Lemma scan_exponent_spec bytes post s letter letters message :
  At (bytes_chars bytes) post s -> first_byte post = Some letter -> letter ∈ letters ->
  is_newline letter = false ->
  spec (scan_exponent limits bytes message sb st) s
    (fun bytes' s' => exists exp post', bytes' = bytes ++ exp /\ At (bytes_chars bytes') post' s' /\
       post = bytes_chars exp ++ post' /\ exponent_text letters exp /\
       some_and is_ascii_digit (first_byte post') = false) failing.
Proof.
  intros Hs Hb Hin Hn. unfold scan_exponent.
  apply spec_bind, (at_byte _ _ _ _ _ Hs Hb Hn). intros p1 s1 Hs1 ->.
  apply spec_bind, (at_peek _ _ _ _ _ Hs1).
  assert (forall sign post s', At (bytes_chars ((bytes ++ [letter]) ++ sign)) post s' ->
    p1 = bytes_chars sign ++ post -> sign ∈ [[]; ["+"%u8]; ["-"%u8]] ->
    spec (bytes0 ← consume_digits limits is_ascii_digit ((bytes ++ [letter]) ++ sign) sb st;
          if zlen bytes0 =? zlen ((bytes ++ [letter]) ++ sign) then lex_fail sb st message else mret bytes0) s'
      (fun bytes' s' => exists exp post', bytes' = bytes ++ exp /\ At (bytes_chars bytes') post' s' /\
         [letter] :: p1 = bytes_chars exp ++ post' /\ exponent_text letters exp /\
         some_and is_ascii_digit (first_byte post') = false) failing) as Hdigits.
  { intros sign q s' Hs' Hp1 Hsign. apply spec_bind, at_digits with (post := q);
      [apply digit_not_newline | exact Hs' |].
    intros got post' s'' Hs'' Hq Hall Hstop. destruct (Z.eqb_spec (zlen (((bytes ++ [letter]) ++ sign) ++ got))
      (zlen ((bytes ++ [letter]) ++ sign))) as [| Hne]; [by eapply at_fail |].
    apply spec_ret. exists (letter :: sign ++ got), post'. rewrite <- !app_assoc in *. split_and!; [done | done | | | done].
    - rewrite Hp1, Hq. cbn [bytes_chars map app]. f_equal. rewrite app_assoc. by rewrite <- bytes_chars_app.
    - right. exists letter, sign, got. split_and!; try done. intros ->. by rewrite !app_nil_r in Hne. }
  destruct (is_byte (first_byte p1) "+"%u8) eqn:Hplus; cbn [orb].
  - apply is_byte_true in Hplus. apply spec_bind, (at_byte _ _ _ _ _ Hs1 Hplus eq_refl).
    intros p2 s2 Hs2 Hp1. apply (Hdigits ["+"%u8] p2); [done | done |]. right. left.
  - destruct (is_byte (first_byte p1) "-"%u8) eqn:Hminus.
    + apply is_byte_true in Hminus. apply spec_bind, (at_byte _ _ _ _ _ Hs1 Hminus eq_refl).
      intros p2 s2 Hs2 Hp1. apply (Hdigits ["-"%u8] p2); [done | done |]. right. right. left.
    + apply spec_bind, spec_ret. rewrite <- (app_nil_r (bytes ++ [letter])).
      apply (Hdigits [] p1); [by rewrite app_nil_r | done | left].
Qed.

Lemma at_point_spec mid post s (Q : bool -> Scanner -> Prop) R :
  At mid post s ->
  (first_byte post = Some "."%u8 -> head (tail (concat post)) <> Some "."%u8 -> Q true s) ->
  ((first_byte post = Some "."%u8 -> head (tail (concat post)) = Some "."%u8) -> Q false s) -> spec at_point s Q R.
Proof.
  intros Hs Ht Hf. unfold at_point. apply spec_bind, (at_peek _ _ _ _ _ Hs).
  apply spec_bind, (at_peek_n _ _ _ _ _ _ Hs); [lia |]. rewrite zget_1. apply spec_ret.
  destruct (is_byte (first_byte post) "."%u8) eqn:H1; cbn [andb]; [| apply is_byte_false in H1; apply Hf; intros H; by rewrite H in H1].
  destruct (is_byte (head (tail (concat post))) "."%u8) eqn:H2; cbn [negb]; [apply is_byte_true in H2; auto |].
  apply is_byte_true in H1. apply is_byte_false in H2. auto.
Qed.

(** The text read so far, and no digit after it. *)
Definition text_read (post : list Char) (P : list Z -> Prop) (bytes : list Z) (s : Scanner) : Prop :=
  exists post', At (bytes_chars bytes) post' s /\ post = bytes_chars bytes ++ post' /\ P bytes /\
    some_and is_ascii_digit (first_byte post') = false.

(** The exponent that may follow the digits. *)
Lemma exponent_or_not bytes post post0 s a b message (P : list Z -> Prop) :
  At (bytes_chars bytes) post s -> post0 = bytes_chars bytes ++ post ->
  some_and is_ascii_digit (first_byte post) = false ->
  is_newline a = false -> is_newline b = false ->
  (forall exp, exponent_text [a; b] exp -> P (bytes ++ exp)) ->
  spec (letter ← peek; if is_byte letter a || is_byte letter b
        then scan_exponent limits bytes message sb st else mret bytes) s (text_read post0 P) failing.
Proof.
  intros Hs Hpost Hstop Ha Hb HP. apply spec_bind, (at_peek _ _ _ _ _ Hs).
  assert (forall letter, first_byte post = Some letter -> letter ∈ [a; b] -> is_newline letter = false ->
    spec (scan_exponent limits bytes message sb st) s (text_read post0 P) failing) as Hexp.
  { intros letter Hl Hin Hn. eapply spec_weaken; [by apply (scan_exponent_spec bytes post s letter [a; b]) | | done].
    intros bytes' s' (exp & post' & -> & Hs' & -> & He & Hd). exists post'. split_and!; try done; [| by apply HP].
    by rewrite Hpost, bytes_chars_app, app_assoc. }
  destruct (is_byte (first_byte post) a) eqn:Hba; cbn [orb].
  { apply is_byte_true in Hba. apply (Hexp a); [done | left | done]. }
  destruct (is_byte (first_byte post) b) eqn:Hbb.
  { apply is_byte_true in Hbb. apply (Hexp b); [done | right; left | done]. }
  apply spec_ret. exists post. split_and!; try done. rewrite <- (app_nil_r bytes). apply HP. by left.
Qed.

Lemma hexdigit_stop o : some_and is_ascii_hexdigit o = false -> some_and is_ascii_digit o = false.
Proof. destruct o; [| done]. cbn. unfold is_ascii_hexdigit. by intros [[-> _]%orb_false_elim _]%orb_false_elim. Qed.

Lemma scan_hexadecimal_spec post s x :
  At [] post s -> first_byte post = Some "0"%u8 -> head (tail (concat post)) = Some x ->
  x ∈ ["x"%u8; "X"%u8] ->
  spec (scan_hexadecimal_text limits sb st) s (text_read post numeral_text) failing.
Proof.
  intros Hs H0 Hx Hin. unfold scan_hexadecimal_text.
  assert (is_newline x = false) as Hxn by (by apply elem_of_cons in Hin as [-> | ->%list_elem_of_singleton]).
  apply spec_bind, (at_byte [] _ _ _ _ Hs H0 eq_refl). intros p1 s1 Hs1 ->.
  apply spec_bind, (at_byte _ _ _ x _ Hs1); [exact Hx | done |]. intros p2 s2 Hs2 ->. cbn [app] in Hs2 |- *.
  apply spec_bind, at_digits with (post := p2); [apply hexdigit_not_newline | exact Hs2 |].
  intros whole p3 s3 Hs3 -> Hw Hstop.
  assert (forall point p s', At (bytes_chars ((["0"%u8; x] ++ whole) ++ point)) p s' ->
    p3 = bytes_chars point ++ p -> point_text is_ascii_hexdigit point ->
    some_and is_ascii_digit (first_byte p) = false ->
    zlen whole + (zlen point - Z.min 1 (zlen point)) <> 0 ->
    spec (letter ← peek; if is_byte letter "p"%u8 || is_byte letter "P"%u8
          then scan_exponent limits ((["0"%u8; x] ++ whole) ++ point) "十六進位 exponent 不合法" sb st
          else mret ((["0"%u8; x] ++ whole) ++ point)) s'
      (text_read (["0"%u8] :: [x] :: bytes_chars whole ++ p3) numeral_text) failing) as Hend.
  { intros point p s' Hs' -> Hpt Hp Hcount. apply exponent_or_not with (post := p); try done.
    { rewrite !bytes_chars_app. cbn. by rewrite <- app_assoc. }
    intros exp Hexp. right. exists x, whole, point, exp. rewrite <- !app_assoc. split_and!; try done.
    destruct whole as [| w whole]; [| by left]. right. unfold zlen in Hcount. cbn in Hcount. lia. }
  apply spec_bind, (at_point_spec _ _ _ _ _ Hs3).
  - intros Hdot Hnd. apply spec_bind, spec_bind, (at_byte _ _ _ _ _ Hs3 Hdot eq_refl). intros p4 s4 Hs4 ->.
    apply spec_bind, at_digits with (post := p4); [apply hexdigit_not_newline | exact Hs4 |].
    intros frac p5 s5 Hs5 -> Hfr Hstop5. apply spec_ret.
    case_match eqn:Hc; [by eapply at_fail |]. rewrite <- app_assoc in Hs5 |- *.
    apply (Hend ("."%u8 :: frac) p5); [exact Hs5 | done | right; by exists frac | by apply hexdigit_stop |].
    revert Hc. rewrite !zlen_app, !zlen_cons, !zlen_nil. pose proof (zlen_nonneg frac). lia.
  - intros _. apply spec_bind, spec_ret. case_match eqn:Hc; [by eapply at_fail |].
    rewrite <- (app_nil_r (["0"%u8; x] ++ whole)).
    apply (Hend [] p3); [by rewrite app_nil_r | done | by left | by apply hexdigit_stop |].
    revert Hc. rewrite !zlen_app, !zlen_cons, !zlen_nil. lia.
Qed.

Lemma scan_decimal_spec post s :
  At [] post s ->
  some_and is_ascii_digit (first_byte post) = true \/
  (first_byte post = Some "."%u8 /\ some_and is_ascii_digit (head (tail (concat post))) = true) ->
  spec (scan_decimal_text limits sb st) s (text_read post numeral_text) failing.
Proof.
  intros Hs Hfirst. unfold scan_decimal_text.
  apply spec_bind, at_digits with (post := post); [apply digit_not_newline | exact Hs |]. cbn [app].
  intros whole p1 s1 Hs1 -> Hw Hstop.
  assert (forall point p s', At (bytes_chars (whole ++ point)) p s' ->
    p1 = bytes_chars point ++ p -> point_text is_ascii_digit point ->
    some_and is_ascii_digit (first_byte p) = false -> whole <> [] \/ (1 < length point)%nat ->
    spec (letter ← peek; if is_byte letter "e"%u8 || is_byte letter "E"%u8
          then scan_exponent limits (whole ++ point) "decimal exponent 不合法" sb st
          else mret (whole ++ point)) s' (text_read (bytes_chars whole ++ p1) numeral_text) failing) as Hend.
  { intros point p s' Hs' -> Hpt Hp Hcount. apply exponent_or_not with (post := p); try done.
    { by rewrite bytes_chars_app, app_assoc. }
    intros exp Hexp. left. exists whole, point, exp. by rewrite <- !app_assoc. }
  assert (whole = [] -> first_byte p1 = Some "."%u8 /\ some_and is_ascii_digit (head (tail (concat p1))) = true) as Hnil.
  { intros ->. cbn [bytes_chars map app] in Hfirst. destruct Hfirst as [Hf | Hf]; [congruence | done]. }
  apply spec_bind, (at_point_spec _ _ _ _ _ Hs1).
  - intros Hdot Hnd. apply spec_bind, spec_bind, (at_byte _ _ _ _ _ Hs1 Hdot eq_refl). intros p2 s2 Hs2 Hp1.
    apply at_digits with (post := p2); [apply digit_not_newline | exact Hs2 |].
    intros frac p3 s3 Hs3 Hp2 Hfr Hstop3. rewrite <- app_assoc in Hs3 |- *.
    apply (Hend ("."%u8 :: frac) p3); [exact Hs3 | by rewrite Hp1, Hp2 | right; by exists frac | done |].
    destruct whole; [right | by left]. destruct (Hnil eq_refl) as [_ Hd]. rewrite Hp1, Hp2 in Hd.
    destruct frac; [| cbn; lia]. cbn in Hd, Hstop3. unfold first_byte in Hstop3. cbn in Hd. congruence.
  - intros Hpt. apply spec_bind, spec_ret. pose proof (Hend [] p1 s1) as He. rewrite app_nil_r in He.
    apply He; [done | done | by left | done |]. left. intros Hw0. destruct (Hnil Hw0) as [Hf Hd].
    by rewrite (Hpt Hf) in Hd.
Qed.

(** Strings. *)

Lemma push_continuation_spec n bytes v mid post s (Q : list Z -> Scanner -> Prop) :
  At mid post s -> 0 <= v ->
  (forall w, length w = n -> utf8_tail (v / 64 ^ Z.of_nat n) w = Some v -> Q (bytes ++ w) s) ->
  spec (push_continuation limits n bytes v sb st) s Q failing.
Proof.
  intros Hs Hv. revert bytes. induction n as [| n IH]; intros bytes HQ; cbn [push_continuation].
  - apply spec_ret. rewrite <- (app_nil_r bytes). apply HQ; [done |]. cbn. by rewrite Z.div_1_r.
  - assert (0 <= v / 64 ^ Z.of_nat n) by (apply Z.div_pos; [done | apply Z.pow_pos_nonneg; lia]).
    rewrite shift_six, continuation_byte by done.
    apply spec_bind, (at_push _ _ _ _ _ _ Hs). apply IH. intros w Hw Ht.
    rewrite <- app_assoc. apply HQ; [cbn; by rewrite Hw |]. cbn [app utf8_tail].
    pose proof (Z.mod_pos_bound (v / 64 ^ Z.of_nat n) 64 ltac:(lia)).
    replace ((0x80 <=? _) && _) with true by lia. rewrite Z.add_simpl_l. by rewrite utf8_step.
Qed.

Lemma push_unicode_spec bytes v mid post s (Q : list Z -> Scanner -> Prop) :
  At mid post s -> 0 <= v ->
  (forall w, utf8_decode w = Some v -> Q (bytes ++ w) s) ->
  spec (push_unicode_escape_bytes limits bytes v sb st) s Q failing.
Proof.
  intros Hs Hv HQ. unfold push_unicode_escape_bytes. destruct (unicode_length v) as [[len prefix] |] eqn:Hu;
    [| by eapply at_fail].
  destruct (lead_byte _ _ _ Hv Hu) as (n & -> & Hlead & Hmin).
  rewrite Z.add_simpl_r, Nat2Z.id, shift_six by done.
  apply spec_bind, (at_push _ _ _ _ _ _ Hs), (push_continuation_spec _ _ _ _ _ _ _ Hs Hv).
  intros w Hw Ht. rewrite <- app_assoc. apply HQ. cbn [app utf8_decode]. rewrite Hlead, Ht. cbn [mbind option_bind].
  rewrite Hw, Nat.eqb_refl. by replace (utf8_minimum n <=? v) with true by lia.
Qed.

(** One escape of [post] has been read and its value pushed. *)
Definition escape_read (mid post : list Char) (bytes bytes' : list Z) (s : Scanner) : Prop :=
  exists esc w post', post = esc ++ post' /\ At (mid ++ esc) post' s /\ bytes' = bytes ++ w /\
    escape esc w (first_byte post').

Lemma at_skip mid post b s (Q : unit -> Scanner -> Prop) :
  At mid post s -> first_byte post = Some b -> is_newline b = false ->
  (forall post' s', post = [b] :: post' -> At (mid ++ [[b]]) post' s' -> Q tt s') ->
  spec (advance limits sb st) s Q failing.
Proof.
  intros Hs Hb Hn HQ. destruct (first_byte_Some _ _ _ _ Hs Hb) as (ch & post' & -> & Hh).
  pose proof (at_single _ _ _ _ _ Hs Hh Hn) as ->. apply (at_advance _ _ _ _ _ Hs). intros s'. by apply HQ.
Qed.

Lemma scan_hex_digit_spec mid post s (Q : Z -> Scanner -> Prop) :
  At mid post s ->
  (forall b d, first_byte post = Some b -> hex_value b = Some d -> Q d s) ->
  spec (scan_hex_digit sb st) s Q failing.
Proof.
  intros Hs HQ. unfold scan_hex_digit. apply spec_bind, (at_peek _ _ _ _ _ Hs).
  destruct (first_byte post) as [b |]; cbn [mbind option_bind]; [| by eapply at_fail].
  destruct (hex_value b) eqn:Hb; [by eapply spec_ret, HQ | by eapply at_fail].
Qed.

Lemma scan_decimal_escape_spec n mid post ds v s (Q : Z -> Scanner -> Prop) :
  At (mid ++ bytes_chars ds) post s -> digits_value 10 ds = Some v -> v <= 255 ->
  (forall got v' post' s', post = bytes_chars got ++ post' -> At (mid ++ bytes_chars (ds ++ got)) post' s' ->
     digits_value 10 (ds ++ got) = Some v' -> v' <= 255 -> (length got <= n)%nat ->
     length got = n \/ some_and is_ascii_digit (first_byte post') = false -> Q v' s') ->
  spec (scan_decimal_escape limits n v sb st) s Q failing.
Proof.
  revert post ds v s. induction n as [| n IH]; intros post ds v s Hs Hds Hv HQ; cbn [scan_decimal_escape].
  { apply spec_ret. apply (HQ [] v post); rewrite ?app_nil_r; auto. }
  apply spec_bind, (at_peek _ _ _ _ _ Hs).
  assert (some_and is_ascii_digit (first_byte post) = false -> spec (mret v) s Q failing) as Hstop.
  { intros Hf. apply spec_ret. apply (HQ [] v post); rewrite ?app_nil_r; auto. cbn. lia. }
  destruct (first_byte post) as [b |] eqn:Hb; [| by apply Hstop].
  destruct (is_ascii_digit b) eqn:Hd; [| by apply Hstop].
  destruct (Z.ltb_spec 255 (v * 10 + (b - 48))); [by eapply at_fail |].
  apply spec_bind, (at_skip _ _ _ _ _ Hs Hb (digit_not_newline _ Hd)). intros post' s' -> Hs'.
  rewrite <- app_assoc in Hs'. change [[b]] with (bytes_chars [b]) in Hs'. rewrite <- bytes_chars_app in Hs'.
  apply (IH post' (ds ++ [b]) (v * 10 + (b - 48)) s' Hs'); [by apply digits_value_decimal | done |].
  intros got v' post2 s2 -> Hs2 Hv' Hle Hlen Hend. rewrite <- app_assoc in Hs2, Hv'.
  apply (HQ (b :: got) v' post2); try done; cbn [length app]; [lia |]. destruct Hend; [left; lia | by right].
Qed.

Lemma scan_unicode_escape_spec mid post bytes s :
  At mid (["u"%u8] :: post) s ->
  spec (scan_unicode_escape limits bytes sb st) s (escape_read mid (["u"%u8] :: post) bytes) failing.
Proof.
  intros Hs. unfold scan_unicode_escape.
  apply spec_bind, (at_advance _ _ _ _ _ Hs). intros s1 Hs1.
  apply spec_bind, (at_peek _ _ _ _ _ Hs1). apply spec_bind.
  destruct (is_byte (first_byte post) "{"%u8) eqn:Hb; [| by eapply at_fail].
  apply is_byte_true in Hb. apply spec_ret.
  apply spec_bind, (at_skip _ _ _ _ _ Hs1 Hb eq_refl). intros p2 s2 -> Hs2.
  rewrite <- app_assoc in Hs2. apply spec_bind.
  eapply (at_loop _ (fun x m q => let '(v, has) := x in exists ds, m = mid ++ text "u{" ++ bytes_chars ds /\
    p2 = bytes_chars ds ++ q /\ digits_value 16 ds = Some v /\ 0 <= v <= 0x7fffffff /\
    has = negb (bool_decide (ds = [])))); [| exact Hs2 |].
  2: { exists []. by split_and!. }
  clear s s1 s2 Hs Hs1 Hs2. intros [v has] m q s Hs (ds & -> & -> & Hds & Hv & Hhas).
  apply spec_bind, (at_peek _ _ _ _ _ Hs). destruct (first_byte q) as [b |] eqn:Hq; [| by eapply at_fail].
  destruct (Z.eqb_spec b "}"%u8) as [-> |].
  - destruct has; [| by eapply at_fail].
    apply spec_bind, (at_skip _ _ _ _ _ Hs Hq eq_refl). intros q' s' -> Hs'. apply spec_ret.
    eapply push_unicode_spec; [exact Hs' | lia |]. intros w Hw.
    exists (text "u{" ++ bytes_chars ds ++ text "}"), w, q'. split_and!; try done.
    + change (text "u{") with [["u"%u8]; ["{"%u8]]. change (text "}") with [["}"%u8]].
      cbn [app]. by rewrite <- app_assoc.
    + rewrite <- !app_assoc in Hs'. exact Hs'.
    + apply (escape_unicode ds v); try done; [| lia]. intros ->. done.
  - destruct (hex_value b) as [d |] eqn:Hd; [| by eapply at_fail].
    destruct (hex_value_range _ _ Hd) as [Hdr Hdn].
    unfold push_hex_digit_u32. destruct (U32_MAX <? v * 16); [by eapply at_fail |].
    destruct (U32_MAX <? v * 16 + d); [by eapply at_fail |].
    destruct (Z.ltb_spec 0x7fffffff (v * 16 + d)); [by eapply at_fail |].
    apply spec_bind, (at_skip _ _ _ _ _ Hs Hq Hdn). intros q' s' -> Hs'. apply spec_ret.
    exists (mid ++ text "u{" ++ bytes_chars (ds ++ [b])), q'. rewrite bytes_chars_app.
    split_and!; [by rewrite <- !app_assoc in Hs' | | cbn; lia].
    exists (ds ++ [b]). split_and!; [by rewrite bytes_chars_app | by rewrite bytes_chars_app, <- app_assoc | | lia | lia |].
    + by apply digits_value_hex.
    + symmetry. apply negb_true_iff, bool_decide_eq_false. by destruct ds.
Qed.

Lemma scan_escape_spec mid ch post bytes e s :
  At mid (ch :: post) s -> head ch = Some e ->
  spec (scan_escape limits bytes e sb st) s (escape_read mid (ch :: post) bytes) failing.
Proof.
  intros Hs He. unfold scan_escape.
  assert (first_byte (ch :: post) = Some e) as Hf
    by (destruct (first_byte_cons _ _ _ _ Hs) as (b & -> & Hb); congruence).
  destruct (simple_escape e) as [v |] eqn:Hsimple.
  { destruct (simple_escape_listed _ _ Hsimple) as [Hin Hn].
    apply spec_bind, (at_push _ _ _ _ _ _ Hs).
    apply spec_bind, (at_skip _ _ _ _ _ Hs Hf Hn). intros post' s' [= -> ->] Hs'. apply spec_ret.
    exists [[e]], [v], post'. split_and!; try done. by constructor. }
  destruct (Z.eqb_spec e "x"%u8) as [-> |].
  { apply spec_bind, (at_skip _ _ _ _ _ Hs Hf eq_refl). intros p1 s1 [= -> ->] Hs1.
    apply spec_bind, (scan_hex_digit_spec _ _ _ _ Hs1). intros h hv Hh Hhv.
    apply spec_bind, (at_skip _ _ _ _ _ Hs1 Hh (proj2 (hex_value_range _ _ Hhv))). intros p2 s2 -> Hs2.
    apply spec_bind, (scan_hex_digit_spec _ _ _ _ Hs2). intros l lv Hl Hlv.
    apply spec_bind, (at_push _ _ _ _ _ _ Hs2).
    apply spec_bind, (at_skip _ _ _ _ _ Hs2 Hl (proj2 (hex_value_range _ _ Hlv))). intros p3 s3 -> Hs3.
    apply spec_ret. exists (text "x" ++ [[h]; [l]]), [hv * 16 + lv], p3. rewrite <- !app_assoc in Hs3.
    split_and!; try done. by constructor. }
  destruct (Z.eqb_spec e "z"%u8) as [-> |].
  { apply spec_bind, (at_skip _ _ _ _ _ Hs Hf eq_refl). intros p1 s1 [= -> ->] Hs1.
    apply spec_bind. eapply (at_while is_space _ (fun _ _ => True)); [| exact Hs1 | done |].
    { intros x got c q s' b Hs' Hb Hp _. eapply at_advance; [exact Hs' |]. intros s'' Hs''.
      by rewrite <- app_assoc in Hs''. }
    intros _ got p2 s2 Hs2 -> _ Hall Hstop. apply spec_ret.
    exists (text "z" ++ got), [], p2. rewrite <- app_assoc in Hs2.
    split_and!; try done; [by rewrite app_nil_r | by constructor]. }
  destruct (Z.eqb_spec e "u"%u8) as [-> |].
  { pose proof (at_single _ _ _ _ _ Hs He eq_refl) as ->. by apply scan_unicode_escape_spec. }
  destruct (is_ascii_digit e) eqn:Hd.
  { apply spec_bind. eapply (scan_decimal_escape_spec 3 mid _ [] 0); [by rewrite app_nil_r | done | done |].
    cbn [app]. intros ds v post' s' Hpost Hs' Hv Hle Hlen Hend. eapply at_push; [exact Hs' |].
    assert (ds <> []) as Hne.
    { intros ->. destruct Hend as [| Hend]; [done |]. cbn in Hpost. subst post'. rewrite Hf in Hend. cbn in Hend. congruence. }
    pose proof (digits_value_nonneg 10 _ _ ltac:(lia) Hv) as Hv0.
    exists (bytes_chars ds), [v], post'. split_and!; try done.
    - f_equal. unfold as_u8. change 255 with (Z.ones 8). rewrite Z.land_ones by lia.
      by rewrite Z.mod_small by lia.
    - by apply escape_decimal. }
  destruct (is_newline e) eqn:Hn; [| by eapply at_fail].
  apply spec_bind, (at_push _ _ _ _ _ _ Hs).
  apply spec_bind, (at_advance _ _ _ _ _ Hs). intros s' Hs'. apply spec_ret.
  exists [ch], [LF], post. split_and!; try done. constructor. unfold newline_char. by rewrite He.
Qed.

Lemma first_byte_prefix cs q after : first_byte (cs ++ [[q]] ++ after) = first_byte (cs ++ [[q]]).
Proof.
  unfold first_byte. rewrite !concat_app. cbn [concat app].
  destruct (concat cs); done.
Qed.

Lemma scan_short_string_spec post s q :
  At [] post s -> first_byte post = Some q -> q = "'"%u8 \/ q = DQUOTE ->
  spec (scan_short_string limits) s (fun _ => token_read post) failing.
Proof.
  intros Hs Hq Hquote. assert (is_newline q = false) as Hqn by (by destruct Hquote as [-> | ->]).
  unfold scan_short_string. apply (at_begin _ _ _ _ _ Hs).
  apply spec_bind, (at_peek _ _ _ _ _ Hs). rewrite Hq. apply spec_bind, spec_ret.
  apply spec_bind, (at_skip _ _ _ _ _ Hs Hq Hqn). intros p1 s1 -> Hs1. cbn [app] in Hs1.
  apply spec_bind. eapply (at_loop _ (fun bytes m r => exists got, m = [q] :: got /\ p1 = got ++ r /\
    forall cs v after, r = cs ++ [[q]] ++ after -> short_body q cs v -> short_body q (got ++ cs) (bytes ++ v)));
    [| exact Hs1 | by exists []].
  clear s s1 Hs Hs1. intros bytes m r s Hs (got & -> & Hp1 & Hbody).
  apply spec_bind, (at_peek _ _ _ _ _ Hs). destruct (first_byte r) as [b |] eqn:Hb; [| by eapply at_fail].
  destruct (first_byte_Some _ _ _ _ Hs Hb) as (ch & r' & -> & Hh).
  pose proof (length_concat_cons _ _ _ _ Hs) as Hlt.
  destruct (Z.eqb_spec b q) as [-> |].
  { apply spec_bind, (at_skip _ _ _ _ _ Hs Hb Hqn). intros r2 s2 [= -> ->] Hs2. apply spec_ret.
    eapply (at_emit_token _ (([q] :: got) ++ [[q]])); [exact Hs2 | | done |].
    - by rewrite Hp1, <- app_assoc.
    - apply (text_short _ _ q got bytes r2 Hquote). specialize (Hbody [] [] r2 eq_refl (body_nil q)).
      by rewrite !app_nil_r in Hbody. }
  destruct (is_newline b) eqn:Hn; [by eapply at_fail |].
  pose proof (at_single _ _ _ _ _ Hs Hh Hn) as ->.
  destruct (Z.eqb_spec b "\"%u8) as [-> |]; cbn [negb].
  - apply spec_bind, (at_advance _ _ _ _ _ Hs). intros s2 Hs2. apply spec_bind, (at_peek _ _ _ _ _ Hs2).
    destruct (first_byte r') as [e |] eqn:He; [| by eapply at_fail].
    destruct (first_byte_Some _ _ _ _ Hs2 He) as (ch & r2 & -> & Hh2).
    pose proof (scan_escape_spec _ _ _ bytes e s2 Hs2 Hh2) as Hesc. unfold spec, fmap, st_fmap in *.
    destruct (scan_escape limits bytes e sb st s2) as [[bytes' | d | k] s3]; [| done..].
    destruct Hesc as (esc & w & r3 & Hr & Hs3 & -> & Hescape).
    exists ((([q] :: got) ++ [["\"%u8]]) ++ esc), r3. split; [done |]. rewrite Hr in Hlt, Hp1 |- *. split.
    + exists (got ++ ["\"%u8] :: esc). split_and!; [by rewrite <- app_assoc | by rewrite Hp1, <- app_assoc |].
      intros cs v after -> Hcs. rewrite <- !app_assoc. apply (Hbody _ _ after).
      * cbn [app]. by rewrite Hr, <- app_assoc.
      * apply body_escape; [| done]. by rewrite first_byte_prefix in Hescape.
    + cbn [concat]. rewrite !concat_app, !length_app. cbn. lia.
  - apply spec_bind, (at_push _ _ _ _ _ _ Hs). apply spec_bind, (at_advance _ _ _ _ _ Hs). intros s2 Hs2.
    apply spec_ret. exists (([q] :: got) ++ [[b]]), r'. split_and!; [done | | done].
    exists (got ++ [[b]]). split_and!; [done | by rewrite Hp1, <- app_assoc |].
    intros cs v after -> Hcs. rewrite <- !app_assoc. apply (Hbody ([b] :: cs) (b :: v) after); [done |].
    by constructor.
Qed.

(** Long brackets. *)

Lemma peek_after_equals mid post s k rest :
  At mid post s -> concat post = "["%u8 :: replicate k "="%u8 ++ rest ->
  cursor_peek_n (cursor s) (1 + Z.of_nat k) = head rest.
Proof.
  intros Hs Hpost. rewrite (peek_n_at _ _ _ _ (at_cursor _ _ _ Hs)), Hpost by lia.
  change (zget ([91] ++ replicate k 61 ++ rest) (1 + Z.of_nat k) = head rest). rewrite app_assoc.
  replace (1 + Z.of_nat k) with (zlen ([91] ++ replicate k 61) + 0)
    by (unfold zlen; cbn [app length]; rewrite length_replicate; lia).
  by rewrite zget_app_r, zget_0.
Qed.

Lemma count_equals_spec mid post s k rest fuel :
  At mid post s -> concat post = "["%u8 :: replicate k "="%u8 ++ rest -> (length rest < fuel)%nat ->
  match count_equals fuel (cursor s) (1 + Z.of_nat k) (Z.of_nat k) with
  | Ok (Some equals) => exists n after, equals = Z.of_nat n /\ concat post = bracket "["%u8 n ++ after
  | Ok None => k = 0%nat /\ head rest <> Some "="%u8 /\ head rest <> Some "["%u8
  | Err _ => True
  | Crash _ => False
  end.
Proof.
  intros Hs. pose proof (at_cursor _ _ _ Hs) as Hc. pose proof (cursor_at_total _ _ _ Hc) as Ht.
  revert k rest. induction fuel as [| fuel IH]; intros k rest Hpost Hfuel; [lia |]. cbn [count_equals].
  assert (zlen (replicate k "="%u8) = Z.of_nat k) as Hr by (unfold zlen; by rewrite length_replicate).
  pose proof (peek_after_equals mid post s k rest Hs Hpost) as Hn.
  rewrite !Hn. unfold offset_of in Ht. rewrite Hpost, zlen_cons, zlen_app, Hr in Ht.
  pose proof (zlen_nonneg (concat (pre ++ mid))) as Hp.
  destruct (is_byte (head rest) "="%u8) eqn:He.
  - apply is_byte_true in He. destruct rest as [| b rest]; [done |]. injection He as ->.
    rewrite zlen_cons in Ht. pose proof (zlen_nonneg rest). unfold checked_add_usize.
    destruct (Z.leb_spec (Z.of_nat k + 1) USIZE_MAX); [| lia].
    destruct (Z.leb_spec (1 + Z.of_nat k + 1) USIZE_MAX); [| lia].
    assert (concat post = "["%u8 :: replicate (S k) "="%u8 ++ rest) as Hpost'.
    { rewrite Hpost. f_equal. by rewrite replicate_S_end, <- app_assoc. }
    specialize (IH (S k) rest Hpost' ltac:(cbn in Hfuel; lia)).
    replace (1 + Z.of_nat (S k)) with (1 + Z.of_nat k + 1) in IH by lia.
    replace (Z.of_nat (S k)) with (Z.of_nat k + 1) in IH by lia.
    destruct (count_equals _ _ _ _) as [[equals |] | |]; try done. by destruct IH.
  - apply is_byte_false in He. destruct (is_byte (head rest) "["%u8) eqn:Hb.
    + apply is_byte_true in Hb. destruct rest as [| b rest]; [done |]. injection Hb as ->.
      exists k, rest. split; [done |]. rewrite Hpost. unfold bracket. cbn [app]. by rewrite <- app_assoc.
    + apply is_byte_false in Hb. destruct (Z.ltb_spec 0 (Z.of_nat k)); [done |]. split_and!; [lia | done..].
Qed.

(** Equals signs after the bracket that lead to no second one. *)
Lemma count_equals_rejects mid post s k j rest fuel separator :
  At mid post s -> concat post = "["%u8 :: replicate (k + j) "="%u8 ++ rest ->
  head rest <> Some "="%u8 -> head rest <> Some "["%u8 -> (0 < k + j)%nat ->
  count_equals fuel (cursor s) (1 + Z.of_nat k) (Z.of_nat k) <> Ok separator.
Proof.
  intros Hs Hpost He Hb Hk. revert k fuel Hpost Hk. induction j as [| j IH]; intros k fuel Hpost Hk.
  - rewrite Nat.add_0_r in *. destruct fuel; [done |]. cbn [count_equals].
    rewrite !(peek_after_equals mid post s k rest Hs Hpost).
    apply is_byte_false in He, Hb. rewrite He, Hb. by replace (0 <? Z.of_nat k) with true by lia.
  - destruct fuel as [| fuel]; [done |]. cbn [count_equals].
    assert (concat post = "["%u8 :: replicate k "="%u8 ++ "="%u8 :: replicate j "="%u8 ++ rest) as Hpost'
      by (by rewrite Hpost, replicate_add, <- app_assoc).
    rewrite (peek_after_equals mid post s k _ Hs Hpost'). cbn [head]. rewrite (proj2 (is_byte_true _ _) eq_refl).
    unfold checked_add_usize. repeat case_match; simplify_eq; try done.
    replace (1 + Z.of_nat k + 1) with (1 + Z.of_nat (S k)) by lia.
    replace (Z.of_nat k + 1) with (Z.of_nat (S k)) by lia.
    apply IH; [by replace (S k + j)%nat with (k + S j)%nat by lia | lia].
Qed.

Lemma opening_spec mid post s :
  At mid post s ->
  match long_opening_separator (cursor s) with
  | Ok (Some equals) => exists n after, equals = Z.of_nat n /\ post = long_opening n ++ after
  | Ok None => forall n after, post <> long_opening n ++ after
  | Err _ => first_byte post = Some "["%u8
  | Crash _ => False
  end.
Proof.
  intros Hs. pose proof (at_cursor _ _ _ Hs) as Hc. unfold long_opening_separator.
  rewrite (peek_at _ _ _ Hc). destruct (is_byte (first_byte post) "["%u8) eqn:Hb; cbn [negb].
  2: { apply is_byte_false in Hb. intros n after ->. apply Hb. by rewrite long_opening_bytes. }
  apply is_byte_true in Hb. pose proof Hb as Hfirst. unfold first_byte in Hb.
  destruct (concat post) as [| b rest] eqn:Hpost; [done |]. injection Hb as ->.
  pose proof (ca_split _ _ _ Hc) as Hsplit. pose proof (ca_input _ _ _ Hc) as Hi.
  pose proof (count_equals_spec mid post s 0 rest (S (length (c_input (cursor s)))) Hs Hpost) as Hcount.
  change (1 + Z.of_nat 0) with 1 in Hcount. change (Z.of_nat 0) with 0 in Hcount.
  rewrite Hi, Hsplit, Hpost, length_app in *. cbn [length] in *. specialize (Hcount ltac:(lia)).
  destruct (count_equals _ _ 1 0) as [[equals |] | |]; try done.
  - destruct Hcount as (n & after & -> & Hn).
    destruct (chars_prefix (bracket "["%u8 n) after post) as (post' & -> & _);
      [apply (ca_chars _ _ _ Hc) | congruence | by apply bracket_not_newline |].
    exists n, post'. by rewrite long_opening_bytes.
  - destruct Hcount as (_ & He & Hbr). intros n after ->. rewrite long_opening_bytes, concat_app, concat_bytes_chars in Hpost.
    injection Hpost as <-. destruct n; cbn in *; congruence.
Qed.

Lemma closing_spec mid post s n :
  At mid post s ->
  long_closing_separator (cursor s) (Z.of_nat n) = true <-> exists after, post = long_closing n ++ after.
Proof.
  intros Hs. pose proof (at_cursor _ _ _ Hs) as Hc. pose proof (cursor_at_total _ _ _ Hc) as Ht.
  pose proof (offset_of_nonneg (pre ++ mid)).
  assert ((exists after, post = long_closing n ++ after) <->
    forall i, 0 <= i < Z.of_nat n + 2 -> zget (concat post) i = zget (bracket "]"%u8 n) i) as ->.
  { rewrite long_closing_bytes, <- (zlen_bracket "]"%u8 n). split.
    - intros (after & ->) i Hi. rewrite concat_app, concat_bytes_chars. by apply gets_of_prefix.
    - intros (after & Ha)%prefix_of_gets.
      destruct (chars_prefix (bracket "]"%u8 n) after post) as (post' & -> & _);
        [apply (ca_chars _ _ _ Hc) | done | by apply bracket_not_newline | by exists post']. }
  unfold long_closing_separator. rewrite (peek_at _ _ _ Hc). unfold first_byte. rewrite <- zget_0.
  split.
  - destruct (is_byte (zget (concat post) 0) "]"%u8) eqn:H0; [| done]. cbn [negb].
    unfold checked_add_usize. destruct (Z.of_nat n + 1 <=? USIZE_MAX); [| done].
    intros [Hall Hlast]%andb_prop i Hi. apply is_byte_true in H0, Hlast.
    rewrite zget_bracket by done. rewrite (peek_n_at _ _ _ _ Hc) in Hlast by lia.
    destruct (Z.eqb_spec i 0) as [-> |]; [done |]. destruct (Z.eqb_spec i (Z.of_nat n + 1)) as [-> |]; [done |].
    rewrite forallb_forall in Hall. specialize (Hall i). rewrite <- list_elem_of_In, elem_of_seqZ in Hall.
    specialize (Hall ltac:(lia)). apply is_byte_true in Hall. by rewrite (peek_n_at _ _ _ _ Hc) in Hall by lia.
  - intros Hget. pose proof (Hget 0 ltac:(lia)) as H0. rewrite zget_bracket in H0 by lia. cbn in H0.
    pose proof (Hget (Z.of_nat n + 1) ltac:(lia)) as H1. rewrite zget_bracket, Z.eqb_refl, orb_true_r in H1 by lia.
    pose proof (zget_lt _ _ _ H1) as Hlt. unfold offset_of in Ht, H.
    rewrite H0. cbn [is_byte]. rewrite (proj2 (is_byte_true _ _) eq_refl). cbn [negb].
    unfold checked_add_usize. destruct (Z.leb_spec (Z.of_nat n + 1) USIZE_MAX); [| lia].
    apply andb_true_intro. split.
    + apply forallb_forall. intros i. rewrite <- list_elem_of_In, elem_of_seqZ. intros Hi.
      apply is_byte_true. rewrite (peek_n_at _ _ _ _ Hc) by lia. rewrite Hget, zget_bracket by lia.
      by replace ((i =? 0) || (i =? Z.of_nat n + 1)) with false by lia.
    + apply is_byte_true. by rewrite (peek_n_at _ _ _ _ Hc) by lia.
Qed.

Lemma at_advance_times bs mid post s (Q : unit -> Scanner -> Prop) :
  At mid (bytes_chars bs ++ post) s ->
  (forall s', At (mid ++ bytes_chars bs) post s' -> Q tt s') ->
  spec (advance_times limits (length bs) sb st) s Q failing.
Proof.
  revert mid s. induction bs as [| b bs IH]; intros mid s Hs HQ; cbn [advance_times length].
  - apply spec_ret, HQ. by rewrite app_nil_r.
  - apply spec_bind, (at_advance _ _ _ _ _ Hs). intros s' Hs'. apply (IH _ _ Hs').
    intros s2 Hs2. rewrite <- app_assoc in Hs2. by apply HQ.
Qed.

Lemma at_separator b n mid post s (Q : unit -> Scanner -> Prop) :
  At mid (bytes_chars (bracket b n) ++ post) s ->
  (forall s', At (mid ++ bytes_chars (bracket b n)) post s' -> Q tt s') ->
  spec (consume_long_separator limits sb st (Z.of_nat n)) s Q failing.
Proof.
  intros Hs HQ. unfold consume_long_separator, checked_add_usize.
  case_match; [| by eapply at_fail]. simplify_eq.
  case_match; [| done]. simplify_eq.
  replace (Z.to_nat (Z.of_nat n + 2)) with (length (bracket b n))
    by (pose proof (zlen_bracket b n) as Hz; unfold zlen in Hz; lia).
  by eapply at_advance_times.
Qed.

(** The closing bracket begins nowhere in what has been read of a body. *)
Definition open_body (n : nat) (got rest : list Char) : Prop :=
  forall done todo, got = done ++ todo -> todo <> [] ->
    ~ (exists after, todo ++ rest = long_closing n ++ after).

Lemma open_body_nil n rest : open_body n [] rest.
Proof. intros d t Hd Ht. by destruct d, t. Qed.

Lemma open_body_snoc n got ch rest :
  open_body n got (ch :: rest) -> ~ (exists after, ch :: rest = long_closing n ++ after) ->
  open_body n (got ++ [ch]) rest.
Proof.
  intros Hgot Hch d t Hd Ht. destruct t as [| c t _] using rev_ind; [done |]. clear Ht.
  rewrite app_assoc in Hd. apply app_inj_tail in Hd as [Hd ->]. rewrite <- app_assoc. cbn [app].
  destruct t as [| c' t]; [done |]. by eapply Hgot.
Qed.

Lemma open_body_closed n got after : open_body n got (long_closing n ++ after) -> long_body n got.
Proof.
  intros H d t Hd Ht (after' & Ha). apply (H d t Hd Ht). exists (after' ++ after).
  by rewrite app_assoc, Ha, <- app_assoc.
Qed.

(** A line end in front changes nothing. *)
Lemma long_body_newline n c got : newline_char c = true -> long_body n got -> long_body n (c :: got).
Proof.
  intros Hc Hgot d t Hd Ht (after & Ha). destruct d as [| c' d].
  - cbn in Hd. subst t. rewrite long_closing_bytes in Ha. injection Ha as -> _. done.
  - injection Hd as -> Hd. by apply (Hgot d t Hd Ht); exists after.
Qed.

Lemma at_closed n mid post s : 
  At mid post s -> long_closing_separator (cursor s) (Z.of_nat n) = false ->
  ~ (exists after, post = long_closing n ++ after).
Proof. intros Hs Hf Ha. apply (closing_spec _ _ _ _ Hs) in Ha. congruence. Qed.

Lemma at_not_bracket n mid ch post s b :
  At mid (ch :: post) s -> head ch = Some b -> b <> "]"%u8 ->
  ~ (exists after, ch :: post = long_closing n ++ after).
Proof. intros Hs Hh Hb (after & Ha). rewrite long_closing_bytes in Ha. injection Ha as -> _. cbn in Hh. congruence. Qed.

(** The test for the end of a body, one character at a time. *)
Lemma at_body_char n mid got ch post s b :
  At mid (ch :: post) s -> head ch = Some b -> open_body n got (ch :: post) ->
  (b =? "]"%u8) && long_closing_separator (cursor s) (Z.of_nat n) = false ->
  open_body n (got ++ [ch]) post.
Proof.
  intros Hs Hh Hgot Hend. apply open_body_snoc; [done |].
  destruct (Z.eqb_spec b "]"%u8); cbn [andb] in Hend; [by eapply at_closed | by eapply at_not_bracket].
Qed.

Lemma normalise_char mid ch post s b :
  At mid (ch :: post) s -> head ch = Some b -> normalise ch = if is_newline b then [LF] else [b].
Proof.
  intros Hs Hh. unfold normalise, newline_char. rewrite Hh. cbn. destruct (is_newline b) eqn:Hn; [done |].
  by eapply at_single.
Qed.

Lemma scan_long_string_spec n post after s :
  At [] post s -> post = long_opening n ++ after ->
  spec (scan_long_string limits (Z.of_nat n)) s (fun _ => token_read post) failing.
Proof.
  intros Hs Hpost. unfold scan_long_string. apply (at_begin _ _ _ _ _ Hs).
  apply spec_bind, (at_separator "["%u8 n [] after); [by rewrite <- long_opening_bytes, <- Hpost |].
  rewrite <- long_opening_bytes. cbn [app]. intros s1 Hs1.
  apply spec_bind, (at_peek _ _ _ _ _ Hs1). apply spec_bind.
  assert (forall skipped rest s', At (long_opening n ++ skipped) rest s' -> after = skipped ++ rest ->
    (skipped = [] /\ some_and is_newline (first_byte rest) = false) \/ (exists c, skipped = [c] /\ newline_char c = true) ->
    spec (bytes ← loop (fun bytes =>
            byte ← peek;
            match byte with
            | None => lex_fail sb st "long 字串未結束"
            | Some byte =>
                s ← get;
                if (byte =? "]"%u8) && long_closing_separator (cursor s) (Z.of_nat n) then
                  consume_long_separator limits sb st (Z.of_nat n);; mret (inr bytes)
                else
                  bytes ← (if is_newline byte then push_literal_byte limits bytes LF sb st
                           else append_input_byte limits bytes byte sb st);
                  advance limits sb st;; mret (inl bytes)
            end) [];
          emit limits sb st TokenKind.String (Some (Literal.String bytes))) s' (fun _ => token_read post) failing) as Hbody.
  { intros skipped rest s' Hs' -> Hskip. apply spec_bind.
    eapply (at_loop _ (fun bytes m r => exists got, m = long_opening n ++ skipped ++ got /\ rest = got ++ r /\
      bytes = concat (map normalise got) /\ open_body n got r)); [| exact Hs' |].
    2: { exists []. rewrite app_nil_r. split_and!; [done..| apply open_body_nil]. }
    clear s s1 s' Hs Hs1 Hs'. intros bytes m r s Hs (got & -> & -> & -> & Hgot).
    apply spec_bind, (at_peek _ _ _ _ _ Hs). destruct (first_byte r) as [b |] eqn:Hb; [| by eapply at_fail].
    destruct (first_byte_Some _ _ _ _ Hs Hb) as (ch & r' & -> & Hh).
    pose proof (length_concat_cons _ _ _ _ Hs) as Hlt.
    apply spec_bind, (at_get _ _ _ _ _ Hs). destruct (_ && _) eqn:Hend.
    - apply andb_prop in Hend as [_ Hend]. apply (closing_spec _ _ _ _ Hs) in Hend as [rest Hrest].
      rewrite Hrest in Hs, Hgot. rewrite long_closing_bytes in Hs.
      apply spec_bind, (at_separator _ _ _ _ _ _ Hs). intros s2 Hs2. apply spec_ret.
      rewrite <- long_closing_bytes in Hs2. apply open_body_closed in Hgot.
      rewrite <- !app_assoc in Hs2.
      apply (at_emit_token _ (long_opening n ++ (skipped ++ got) ++ long_closing n) rest).
      + rewrite <- !app_assoc. exact Hs2.
      + rewrite Hpost, Hrest. by rewrite <- !app_assoc.
      + done.
      + replace (concat (map normalise got)) with (long_value (skipped ++ got)).
        2: { destruct Hskip as [[-> Hf] | (c & -> & Hc)]; unfold long_value; cbn [app]; [| by rewrite Hc].
             destruct got as [| c got]; [done |]. cbn [app] in Hf. unfold newline_char.
             destruct c as [| b' c]; [done |]. unfold first_byte in Hf. cbn in Hf |- *. by rewrite Hf. }
        apply text_long. destruct Hskip as [[-> _] | (c & -> & Hc)]; [done | by apply long_body_newline].
    - pose proof (normalise_char _ _ _ _ _ Hs Hh) as Hnorm.
      assert (forall s2, At (long_opening n ++ skipped ++ got) (ch :: r') s2 ->
        spec (advance limits sb st;; mret (inl (concat (map normalise got) ++ normalise ch))) s2
          (fun x s' => match x with
             | inl x' => exists m' q', At m' q' s' /\ (exists got0, m' = long_opening n ++ skipped ++ got0 /\
                 got ++ ch :: r' = got0 ++ q' /\ x' = concat (map normalise got0) /\ open_body n got0 q') /\
                 (length (concat q') < length (concat (ch :: r')))%nat
             | inr b => spec (emit limits sb st TokenKind.String (Some (Literal.String b))) s' (fun _ => token_read post) failing
             end) failing) as Hstep.
      { intros s2 Hs2. apply spec_bind, (at_advance _ _ _ _ _ Hs2). intros s3 Hs3. apply spec_ret.
        exists ((long_opening n ++ skipped ++ got) ++ [ch]), r'. split_and!; [done | | done].
        exists (got ++ [ch]). split_and!; [by rewrite <- !app_assoc | by rewrite <- app_assoc | |].
        - rewrite map_app, concat_app. cbn. by rewrite app_nil_r.
        - exact (at_body_char _ _ _ _ _ _ _ Hs Hh Hgot Hend). }
      rewrite Hnorm in Hstep. apply spec_bind. destruct (is_newline b);
        (apply (at_push _ _ _ _ _ _ Hs); by apply Hstep). }
  destruct (some_and is_newline (first_byte after)) eqn:Hnl.
  - destruct (first_byte after) as [b |] eqn:Hb; [| done].
    destruct (first_byte_Some _ _ _ _ Hs1 Hb) as (ch & rest & -> & Hh).
    apply (at_advance _ _ _ _ _ Hs1). intros s2 Hs2. apply (Hbody [ch] rest _ Hs2); [done |]. right.
    exists ch. unfold newline_char. by rewrite Hh.
  - apply spec_ret, (Hbody [] after); [by rewrite app_nil_r | done | by left].
Qed.

(** Spaces and comments. *)

Definition trivia_read (post : list Char) (s : Scanner) : Prop :=
  exists mid post', post = mid ++ post' /\ mid <> [] /\ trivia mid post' /\
    cursor_at (pre ++ mid) post' (cursor s) /\ tokens s = ts.

Lemma at_trivia mid post post0 s :
  At mid post s -> post0 = mid ++ post -> mid <> [] -> trivia mid post -> trivia_read post0 s.
Proof. intros [Hc Hts _] -> Hm Ht. by exists mid, post. Qed.

Lemma consume_space_spec post s b :
  At [] post s -> first_byte post = Some b -> is_space b = true ->
  spec (consume_space limits) s (fun _ => trivia_read post) failing.
Proof.
  intros Hs Hb Hsp. destruct (first_byte_Some _ _ _ _ Hs Hb) as (ch & post' & -> & Hh).
  apply (at_begin _ _ _ _ _ Hs), (at_advance _ _ _ _ _ Hs). intros s' Hs'.
  eapply at_trivia; [exact Hs' | done | done |]. constructor. by rewrite Hh.
Qed.

Lemma scan_long_comment_spec n mid post after s :
  At mid post s -> post = long_opening n ++ after ->
  spec (scan_long_comment limits sb st (Z.of_nat n)) s
    (fun _ s' => exists body post', after = body ++ long_closing n ++ post' /\ long_body n body /\
       At (mid ++ long_opening n ++ body ++ long_closing n) post' s') failing.
Proof.
  intros Hs ->. unfold scan_long_comment.
  rewrite long_opening_bytes in Hs. apply spec_bind, (at_separator _ _ _ _ _ _ Hs).
  rewrite <- long_opening_bytes. intros s1 Hs1.
  eapply (at_loop _ (fun _ m r => exists got, m = (mid ++ long_opening n) ++ got /\ after = got ++ r /\ open_body n got r));
    [| exact Hs1 |].
  2: { exists []. rewrite app_nil_r. split_and!; [done..| apply open_body_nil]. }
  clear s s1 Hs Hs1. intros _ m r s Hs (got & -> & -> & Hgot).
  apply spec_bind, (at_peek _ _ _ _ _ Hs). destruct (first_byte r) as [b |] eqn:Hb; [| by eapply at_fail].
  destruct (first_byte_Some _ _ _ _ Hs Hb) as (ch & r' & -> & Hh).
  pose proof (length_concat_cons _ _ _ _ Hs) as Hlt.
  apply spec_bind, (at_get _ _ _ _ _ Hs). destruct (_ && _) eqn:Hend.
  - apply andb_prop in Hend as [_ Hend]. apply (closing_spec _ _ _ _ Hs) in Hend as [rest Hrest].
    rewrite Hrest in Hs, Hgot |- *. rewrite long_closing_bytes in Hs.
    apply spec_bind, (at_separator _ _ _ _ _ _ Hs). intros s2 Hs2. apply spec_ret.
    rewrite <- long_closing_bytes in Hs2. apply open_body_closed in Hgot.
    exists got, rest. split_and!; [done | done |]. by rewrite <- !app_assoc in Hs2.
  - apply spec_bind, (at_advance _ _ _ _ _ Hs). intros s2 Hs2. apply spec_ret.
    exists (((mid ++ long_opening n) ++ got) ++ [ch]), r'. split_and!; [done | | done].
    exists (got ++ [ch]). split_and!; [by rewrite <- !app_assoc | by rewrite <- app_assoc |].
    exact (at_body_char _ _ _ _ _ _ _ Hs Hh Hgot Hend).
Qed.

Lemma scan_short_comment_spec post s :
  At [] post s -> first_byte post = Some "-"%u8 -> head (tail (concat post)) = Some "-"%u8 ->
  spec (scan_short_comment limits) s (fun _ => trivia_read post) failing.
Proof.
  intros Hs H1 H2. unfold scan_short_comment. apply (at_begin _ _ _ _ _ Hs).
  apply spec_bind, (at_skip _ _ _ _ _ Hs H1 eq_refl). intros p1 s1 -> Hs1.
  apply spec_bind, (at_skip _ _ "-"%u8 _ _ Hs1 H2 eq_refl). intros p2 s2 -> Hs2.
  apply spec_bind, (at_peek _ _ _ _ _ Hs2). apply spec_bind, (at_get _ _ _ _ _ Hs2).
  change ((([] ++ [["-"%u8]]) ++ [["-"%u8]])) with (text "--") in Hs2.
  change (["-"%u8] :: ["-"%u8] :: p2) with (text "--" ++ p2).
  assert ((forall n after, p2 <> long_opening n ++ after) ->
    spec (while_peek (fun byte => negb (is_newline byte)) (fun _ => advance limits sb st) tt) s2
      (fun _ => trivia_read (text "--" ++ p2)) failing) as Hline.
  { intros Hno. eapply (at_while _ _ (fun _ _ => True)); [| exact Hs2 | done |].
    { intros x got c q s' b Hs' Hb Hp _. eapply at_advance; [exact Hs' |]. intros s'' Hs''.
      by rewrite <- app_assoc in Hs''. }
    intros _ got p3 s3 Hs3 -> _ Hall Hstop. eapply at_trivia; [exact Hs3 | by rewrite app_assoc | done |].
    apply trivia_line; [| revert Hstop; destruct (first_byte p3) as [b |]; [apply negb_false_iff | done] | done].
    eapply Forall_impl; [exact Hall |]. intros c. unfold newline_char. destruct (head c); [| done].
    apply negb_true_iff. }
  pose proof (opening_spec _ _ _ Hs2) as Hopen. apply spec_bind.
  destruct (is_byte (first_byte p2) "["%u8) eqn:Hb.
  2: { apply is_byte_false in Hb. apply spec_ret, Hline. intros n after ->. by rewrite long_opening_bytes in Hb. }
  destruct (long_opening_separator (cursor s2)) as [[equals |] | |]; [| | |done].
  - destruct Hopen as (n & after & -> & ->). apply spec_ret.
    eapply spec_weaken; [by apply (scan_long_comment_spec n _ _ after _ Hs2) | | done].
    intros _ s3 (body & p3 & -> & Hbody & Hs3).
    eapply at_trivia; [exact Hs3 | by rewrite <- !app_assoc | done |]. by constructor.
  - by apply spec_ret, Hline.
  - pose proof (at_cursor _ _ _ Hs2) as Hc. pose proof (cursor_at_total _ _ _ Hc) as Ht.
    pose proof (offset_of_nonneg (pre ++ text "--")). pose proof (offset_of_nonneg p2).
    unfold spec, lex_fail, lex_error. split; [by left |]. cbn [Diagnostic_at d_span span_start span_end].
    rewrite (ca_offset _ _ _ Hc). lia.
Qed.

Lemma scan_numeral_text_spec post s :
  At [] post s ->
  some_and is_ascii_digit (first_byte post) = true \/
  (first_byte post = Some "."%u8 /\ some_and is_ascii_digit (head (tail (concat post))) = true) ->
  spec (scan_numeral_text limits sb st) s
    (fun bytes s' => exists post', At (bytes_chars bytes) post' s' /\ post = bytes_chars bytes ++ post' /\
       numeral_text bytes /\ bytes <> [] /\ some_and is_name_continue (first_byte post') = false) failing.
Proof.
  intros Hs Hfirst. unfold scan_numeral_text.
  apply spec_bind, (at_peek _ _ _ _ _ Hs). apply spec_bind, (at_peek_n _ _ _ _ _ _ Hs); [lia |].
  rewrite zget_1. apply spec_bind.
  apply spec_weaken with (Q := text_read post numeral_text) (R := failing); [| | done].
  { destruct (is_byte (first_byte post) "0"%u8) eqn:H0; [| by apply scan_decimal_spec]. cbn [andb].
    destruct (is_byte (head (tail (concat post))) "x"%u8) eqn:Hx; cbn [orb].
    { apply is_byte_true in H0, Hx. eapply scan_hexadecimal_spec; [done.. | left]. }
    destruct (is_byte (head (tail (concat post))) "X"%u8) eqn:HX; [| by apply scan_decimal_spec].
    apply is_byte_true in H0, HX. eapply scan_hexadecimal_spec; [done.. | right; left]. }
  intros bytes s' (post' & Hs' & -> & Hnum & Hstop). apply spec_bind, (at_peek _ _ _ _ _ Hs').
  destruct (some_and is_name_start (first_byte post')) eqn:Hn.
  - apply spec_bind, at_digits with (post := post'); [apply name_continue_not_newline | exact Hs' |].
    intros. by eapply at_fail.
  - apply spec_ret. exists post'. split_and!; try done.
    + intros ->. cbn [bytes_chars map app] in Hfirst. rewrite Hstop in Hfirst.
      destruct Hfirst as [| [Hf Hd]]; [done |]. destruct Hnum as [(w & p & e & Hnil & _ & _ & _ & Hlen) | (?&?&?&?&?&_)]; [| done].
      symmetry in Hnil. apply app_nil in Hnil as [-> [-> ->]%app_nil]. destruct Hlen as [| Hlen]; [done | cbn in Hlen; lia].
    + destruct (first_byte post'); [| done]. cbn in *. unfold is_name_continue. by rewrite Hn, Hstop.
Qed.
End Token.

(** ** Whole sources *)

Section Whole.
Context {B E : Type} `{NumericBudget B E} (powi : f64 -> Z -> f64).
Hypothesis Hbudget : forall c (b b' : B) k, before_conversion c b <> (Crash k, b').

(** The number that the text of a numeral stands for. *)
Definition numeral_value (bytes : list Z) (n : Number) : Prop :=
  exists b b', parse_number powi bytes b = (Ok n, b').

Abbreviation failing_metered := (fun (e : ScanError E) (_ : Scanner * B) =>
  match e with SDiagnostic d => diagnostic_ok d | SBudget _ => True end).

Lemma spec_unmetered {A} (m : Scan A) s b (Q : A -> Scanner * B -> Prop) :
  spec m s (fun a s' => Q a (s', b)) failing -> spec (unmetered m) (s, b) Q failing_metered.
Proof. unfold spec, unmetered. by destruct (m s) as [[a | d | k] s']. Qed.

Lemma spec_charge c b (Q : unit -> B -> Prop) :
  (forall b', Q tt b') -> spec (charge c) b Q (fun (_ : NumberError E) _ => True).
Proof.
  intros HQ. unfold spec, charge. destruct (before_conversion c b) as [[a | e | k] b'] eqn:Hc; [apply HQ | done |].
  by apply Hbudget in Hc.
Qed.

Lemma spec_ok_or {A} (o : option A) message b (Q : A -> B -> Prop) :
  (forall a, Q a b) -> spec (ok_or o message) b Q (fun (_ : NumberError E) _ => True).
Proof. intros HQ. by destruct o; [apply spec_ret, HQ |]. Qed.

Lemma spec_finite_or x message b (Q : Number -> B -> Prop) :
  (forall n, Q n b) -> spec (finite_or x message) b Q (fun (_ : NumberError E) _ => True).
Proof. intros HQ. unfold finite_or. destruct (f64_is_finite x); [apply spec_ret, HQ | done]. Qed.

Lemma parse_number_spec bytes b :
  spec (parse_number powi bytes) b (fun _ _ => True) (fun (_ : NumberError E) _ => True).
Proof.
  unfold parse_number, parse_hexadecimal.
  repeat first
    [ done | apply spec_bind | apply spec_charge; intros ? | apply spec_ok_or; intros ? | apply spec_finite_or
    | apply spec_ret | case_match ].
Qed.

Lemma scan_number_spec pre ts post s b :
  At pre ts [] post s ->
  some_and is_ascii_digit (first_byte post) = true \/
  (first_byte post = Some "."%u8 /\ some_and is_ascii_digit (head (tail (concat post))) = true) ->
  spec (scan_number powi limits) (s, b) (fun _ sb' => token_read pre ts numeral_value post sb'.1) failing_metered.
Proof.
  intros Hs Hfirst. unfold scan_number.
  apply spec_bind, spec_unmetered. pose proof (at_cursor _ _ _ _ _ Hs) as Hc. rewrite app_nil_r in Hc.
  unfold spec at 1, position. rewrite (ca_position _ _ _ Hc).
  apply spec_bind, spec_unmetered. unfold spec at 1, offset. rewrite (ca_offset _ _ _ Hc).
  apply spec_bind, spec_unmetered. eapply spec_weaken; [by apply scan_numeral_text_spec | | done].
  intros bytes s' (post' & Hs' & -> & Hnum & Hb & Hstop). apply spec_bind.
  pose proof (parse_number_spec bytes b) as Hp. unfold spec in Hp. unfold spec at 1. unfold parse_number_at.
  destruct (parse_number powi bytes b) as [[n | [message | e] | k] b'] eqn:Hn; [| | done | done].
  - assert (numeral_value bytes n) as Hvalue by (by exists b, b').
    assert (bytes_chars bytes <> []) as Hne by (by destruct bytes).
    destruct n; apply spec_unmetered; eapply at_emit_token; try done; by constructor.
  - by eapply (at_diagnostic pre ts); [| left].
Qed.

(** One round of the scan reads a piece of trivia or a token. *)
Lemma scan_one_spec pre ts post s b byte :
  At pre ts [] post s -> first_byte post = Some byte ->
  spec (scan_one powi limits byte) (s, b)
    (fun _ sb' => trivia_read pre ts post sb'.1 \/ token_read pre ts numeral_value post sb'.1) failing_metered.
Proof.
  intros Hs Hb. unfold scan_one.
  apply spec_bind, spec_unmetered, (at_peek_n _ _ _ _ _ _ _ _ Hs); [lia |]. rewrite zget_1.
  assert (forall m : Scan unit, spec m s (fun _ => token_read pre ts numeral_value post) failing ->
    spec (unmetered m) (s, b) (fun _ sb' => trivia_read pre ts post sb'.1 \/ token_read pre ts numeral_value post sb'.1)
      failing_metered) as Htoken.
  { intros m Hm. apply spec_unmetered. eapply spec_weaken; [exact Hm | by right | done]. }
  assert (forall m : Scan unit, spec m s (fun _ => trivia_read pre ts post) failing ->
    spec (unmetered m) (s, b) (fun _ sb' => trivia_read pre ts post sb'.1 \/ token_read pre ts numeral_value post sb'.1)
      failing_metered) as Htrivia.
  { intros m Hm. apply spec_unmetered. eapply spec_weaken; [exact Hm | by left | done]. }
  destruct (is_space byte) eqn:Hspace; [eapply Htrivia, consume_space_spec; done |].
  assert (is_newline byte = false) as Hn.
  { unfold is_space, is_newline in *. destruct (byte =? LF), (byte =? CR); rewrite ?orb_true_r in Hspace; done. }
  destruct (Z.eqb_spec byte "["%u8) as [-> |].
  { apply Htoken. apply spec_bind, (at_get _ _ _ _ _ _ _ Hs). pose proof (opening_spec _ _ _ _ _ Hs) as Hopen.
    destruct (long_opening_separator (cursor s)) as [[equals |] | |]; [| | |done].
    - destruct Hopen as (n & after & -> & Hpost). by eapply scan_long_string_spec.
    - eapply scan_symbol_spec; [done..|]. split_and!; [by rewrite Hb | by rewrite Hb | done].
    - apply (at_begin pre ts _ _ _ _ _ Hs). apply spec_bind, (at_skip pre ts _ _ _ _ _ Hs Hb eq_refl).
      intros post' s' _ Hs'. by eapply at_fail. }
  destruct (is_name_start byte) eqn:Hname; [eapply Htoken, scan_name_spec; [done |]; by rewrite Hb |].
  destruct (is_ascii_digit byte || (byte =? "."%u8) && some_and is_ascii_digit (head (tail (concat post)))) eqn:Hnum.
  { eapply spec_weaken; [apply (scan_number_spec pre ts post) | by right | done]; [done |]. rewrite Hb.
    apply orb_prop in Hnum as [| [->%Z.eqb_eq Hd]%andb_prop]; [by left | by right]. }
  apply orb_false_elim in Hnum as [Hdigit Hdot].
  destruct ((byte =? "'"%u8) || (byte =? DQUOTE)) eqn:Hquote.
  { eapply Htoken, scan_short_string_spec; [done.. |]. apply orb_prop in Hquote as [->%Z.eqb_eq | ->%Z.eqb_eq]; auto. }
  destruct ((byte =? "-"%u8) && is_byte (head (tail (concat post))) "-"%u8) eqn:Hminus.
  { apply andb_prop in Hminus as [->%Z.eqb_eq Hm%is_byte_true]. by apply Htrivia, scan_short_comment_spec. }
  apply Htoken. eapply scan_symbol_spec; [done..|]. unfold symbol_allowed. rewrite Hb. split_and!; intros [= ->].
  - apply is_byte_false. exact Hminus.
  - exact Hdot.
  - done.
Qed.

Lemma first_byte_None pre post c : cursor_at pre post c -> first_byte post = None -> post = [].
Proof.
  intros Hc Hf. destruct post as [| ch post]; [done |].
  destruct (is_chars_cons _ _ (ca_chars _ _ _ Hc)) as [_ Hne]. by destruct ch.
Qed.

Lemma read_shortens pre post mid post' c :
  cursor_at pre post c -> post = mid ++ post' -> mid <> [] ->
  (length (concat post') < length (concat post))%nat.
Proof.
  intros Hc -> Hm. destruct mid as [| ch mid]; [done |].
  destruct (is_chars_cons _ _ (ca_chars _ _ _ Hc)) as [_ Hne].
  cbn [app concat]. rewrite concat_app, !length_app. destruct ch; [done |]. cbn. lia.
Qed.

(** What has been read so far, whatever tokens follow. *)
Definition scanned (s : Scanner) (pre post : list Char) : Prop :=
  cursor_at pre post (cursor s) /\
  forall rest, tokens_of profile numeral_value pre post rest ->
    tokens_of profile numeral_value [] (chars input) (tokens s ++ rest).

Lemma scan_spec b :
  spec (scan powi limits) ({| cursor := Cursor_new input profile; tokens := [] |}, b)
    (fun chunk _ => tokens_of profile numeral_value [] (chars input) (ch_tokens chunk) /\
       ch_profile chunk = profile /\ source_len chunk = zlen input /\
       zlen (ch_tokens chunk) <= max_tokens limits) failing_metered.
Proof.
  unfold scan. apply spec_bind. set (s0 := {| cursor := Cursor_new input profile; tokens := [] |}).
  set (left := fun sb : Scanner * B => Z.to_nat (zlen input - c_offset (cursor sb.1))).
  assert (forall s pre post b, cursor_at pre post (cursor s) -> left (s, b) = length (concat post)) as Hleft.
  { intros s pre post b' Hc. pose proof (cursor_at_total _ _ _ Hc) as Ht. unfold left.
    cbn [fst]. rewrite (ca_offset _ _ _ Hc), <- Ht. unfold offset_of, zlen. lia. }
  assert (scanned s0 [] (chars input)) as H0.
  { split; [| done]. split; cbn; try done; [by rewrite concat_chars | apply is_chars_chars]. }
  eapply spec_run; [reflexivity |].
  apply (spec_iter _ (fun _ sb => exists pre post, scanned sb.1 pre post) (fun _ sb => left sb)).
  3: { rewrite (Hleft _ _ _ _ (proj1 H0)), concat_chars. cbn. lia. }
  2: { by exists [], (chars input). }
  - clear b H0. intros [] [s b] (pre & post & Hc & Htokens). cbn [fst] in *.
    assert (At pre (tokens s) [] post s) as Hs by (split; [by rewrite app_nil_r | done | change (offset_of []) with 0; lia]).
    apply spec_bind, spec_unmetered, (at_peek _ _ _ _ _ _ _ Hs).
    destruct (first_byte post) as [byte |] eqn:Hb.
    + apply spec_bind. eapply spec_weaken; [by apply (scan_one_spec pre (tokens s) post) | | done].
      intros _ [s' b'] Hread. apply spec_ret. cbn [fst] in *.
      assert (exists mid post', post = mid ++ post' /\ mid <> [] /\ scanned s' (pre ++ mid) post') as (mid & post' & Hpost & Hm & Hs').
      { destruct Hread as [(mid & post' & -> & Hm & Ht & Hc' & Hts) | (mid & post' & k & l & -> & Hm & Ht & Hc' & Hts)];
          exists mid, post'; (split_and!; [done | done |]); (split; [done |]); intros rest Hrest; rewrite Hts.
        - by apply Htokens, tokens_trivia.
        - rewrite <- app_assoc. by apply Htokens, tokens_token. }
      split; [by exists (pre ++ mid), post' |].
      rewrite (Hleft _ _ _ _ (proj1 Hs')), (Hleft _ _ _ _ Hc). by eapply read_shortens.
    + apply spec_ret. pose proof (first_byte_None _ _ _ Hc Hb) as ->.
      apply spec_unmetered. apply (at_begin pre (tokens s) [] s
        (fun at_end stop => push_token limits
           {| kind := TokenKind.Eof; span := {| span_start := stop; span_end := stop |};
              start := at_end; stop := at_end; literal := None |};;
         s ← get; mret {| ch_profile := c_profile (cursor s); source_len := c_offset (cursor s);
                          ch_tokens := tokens s |}) _ _ Hs).
      apply spec_bind. unfold spec at 1, push_token. cbn [span span_start start].
      destruct (Z.leb_spec (max_tokens limits) (zlen (tokens s))); [by eapply (at_diagnostic pre (tokens s)); [| right] |].
      apply spec_bind, spec_get, spec_ret. cbn [ch_tokens ch_profile source_len cursor tokens]. split_and!.
      * apply Htokens. pose proof (tokens_end profile numeral_value pre) as Heof.
        unfold token_at in Heof. by rewrite app_nil_r in Heof.
      * apply (ca_profile _ _ _ Hc).
      * rewrite (ca_offset _ _ _ Hc), <- (cursor_at_total _ _ _ Hc). change (offset_of []) with 0. lia.
      * rewrite zlen_app, zlen_cons, zlen_nil. lia.
Qed.
End Whole.
End Reading.
