(* ===== verification/LexerTheorems.v ===== *)
(** The lexer as a whole: it is total, it is sound for the lexical grammar, and
    its numerals have the values they write. *)

From Stdlib Require Import ZArith Lia.
From stdpp Require Import base list numbers strings.
From S2P Require Import Prelude Float Number Lexer LexerGrammar LexerSpec.

Local Open Scope Z_scope.

Lemma unmetered_never_crashes c (b b' : unit) k :
  before_conversion (E := Empty_set) c b <> (Crash k, b').
Proof. done. Qed.

(** What [lex] returns, in all three cases. *)
Lemma lex_spec powi input profile limits :
  zlen input <= USIZE_MAX ->
  match lex powi input profile limits with
  | Ok chunk =>
      tokens_of profile (numeral_value (B := unit) (E := Empty_set) powi) [] (chars input) (ch_tokens chunk) /\
      ch_profile chunk = profile /\ source_len chunk = zlen input /\
      zlen (ch_tokens chunk) <= max_tokens limits
  | Err d => diagnostic_ok input d
  | Crash _ => False
  end.
Proof.
  intros Hi. unfold lex, lex_with_numeric_budget. destruct (max_source_bytes limits <? zlen input).
  { cbn. split; [by right |]. pose proof (zlen_nonneg input). cbn. lia. }
  pose proof (scan_spec input profile limits Hi powi unmetered_never_crashes tt) as Hs. unfold spec in Hs.
  destruct (scan powi limits _) as [[chunk | [d | []] | k] sb]; done.
Qed.

(** C15: The lexer is total: on every input, valid source or not, it returns
    tokens or one diagnostic; it never panics, no loop runs for ever, and a
    diagnostic is a lexical or a limit error with a span inside the source. *)
Theorem lex_total powi input profile limits :
  zlen input <= USIZE_MAX ->
  total (lex powi input profile limits) /\
  forall d, lex powi input profile limits = Err d -> diagnostic_ok input d.
Proof.
  intros Hi. pose proof (lex_spec powi input profile limits Hi) as Hs. split.
  - intros k Hk. by rewrite Hk in Hs.
  - intros d Hd. by rewrite Hd in Hs.
Qed.

(** C14: The lexer is sound for the lexical grammar: the tokens it returns, in
    order, and spaces and comments between them, make up the whole source; each
    token has the offsets and the line and column positions of its text, the
    text is maximal, and the literal is what the text stands for, every escape,
    long bracket and line end of a string decoded. *)
Theorem lex_sound powi input profile limits chunk :
  zlen input <= USIZE_MAX -> lex powi input profile limits = Ok chunk ->
  tokens_of profile (numeral_value (B := unit) (E := Empty_set) powi) [] (chars input) (ch_tokens chunk) /\
  source_len chunk = zlen input /\ zlen (ch_tokens chunk) <= max_tokens limits.
Proof.
  intros Hi Hl. pose proof (lex_spec powi input profile limits Hi) as Hs. rewrite Hl in Hs.
  by destruct Hs as (? & _ & ? & ?).
Qed.

(** ** Integer numerals *)

Lemma digits_below_128 base ds v : digits_value base ds = Some v -> forallb (fun b => b <? 128) ds = true.
Proof.
  revert v. induction ds as [| b ds IH] using rev_ind; intros v; [done |].
  rewrite digits_value_snoc. destruct (digits_value base ds) as [u |]; [| done].
  destruct (hex_value b) as [d |] eqn:Hd; [| done]. intros _. rewrite forallb_app, (IH u eq_refl). cbn.
  revert Hd. unfold hex_value, is_ascii_digit.
  repeat match goal with |- context [if ?b then _ else _] => destruct b eqn:? end; intros [= <-]; lia.
Qed.

Lemma decimal_digits ds v : digits_value 10 ds = Some v -> all is_ascii_digit ds.
Proof.
  revert v. induction ds as [| b ds IH] using rev_ind; intros v; [constructor |].
  rewrite digits_value_snoc. destruct (digits_value 10 ds) as [u |]; [| done].
  destruct (hex_value b) as [d |] eqn:Hd; [| done]. cbn [mbind option_bind].
  destruct (Z.ltb_spec d 10); [| done]. intros _. apply Forall_app. split; [by eapply IH |]. constructor; [| constructor].
  revert Hd. unfold hex_value. destruct (is_ascii_digit b) eqn:Hb; [done |].
  repeat match goal with |- context [if ?b then _ else _] => destruct b eqn:? end; intros [= <-]; lia.
Qed.

Lemma all_not_contains p set ds :
  all p ds -> forallb (fun b => negb (p b)) set = true -> contains_any set ds = false.
Proof.
  intros Hall Hset. unfold contains_any. apply not_true_is_false. intros (b & Hb & Hin)%existsb_exists.
  apply contains_spec, list_elem_of_In in Hin. rewrite forallb_forall in Hset. specialize (Hset b Hin).
  unfold all in Hall. rewrite Forall_forall in Hall. rewrite (Hall b) in Hset; [done | by apply list_elem_of_In].
Qed.

Lemma hex_u64_snoc ds b acc :
  hex_u64 (ds ++ [b]) acc =
  (v ← hex_u64 ds acc; d ← hex_value b; Some (wrap_u64 (wrap_u64 (v * 16) + d))).
Proof.
  revert acc. induction ds as [| x ds IH]; intros acc; cbn [app hex_u64]; [by destruct (hex_value b) |].
  destruct (hex_value x); [| done]. cbn [mbind option_bind]. apply IH.
Qed.

(** The wrapping [u64] arithmetic computes the value modulo 2^64. *)
Lemma hex_u64_spec ds v : digits_value 16 ds = Some v -> hex_u64 ds 0 = Some (wrap_u64 v).
Proof.
  revert v. induction ds as [| b ds IH] using rev_ind; intros v; [by intros [= <-] |].
  rewrite digits_value_snoc, hex_u64_snoc. destruct (digits_value 16 ds) as [u |]; [| done].
  rewrite (IH u eq_refl). cbn [mbind option_bind]. destruct (hex_value b) as [d |] eqn:Hd; [| done].
  cbn [mbind option_bind]. pose proof (hex_value_range _ _ Hd) as [Hr _].
  replace (d <? 16) with true by lia. intros [= <-]. f_equal. unfold wrap_u64.
  by rewrite Z.mul_mod_idemp_l, Z.add_mod_idemp_l by lia.
Qed.

Lemma hex_digits ds v : digits_value 16 ds = Some v -> all is_ascii_hexdigit ds.
Proof.
  revert v. induction ds as [| b ds IH] using rev_ind; intros v; [constructor |].
  rewrite digits_value_snoc. destruct (digits_value 16 ds) as [u |]; [| done].
  destruct (hex_value b) as [d |] eqn:Hd; [| done]. intros _.
  apply Forall_app. split; [by eapply IH |]. constructor; [| constructor].
  revert Hd. unfold hex_value, is_ascii_hexdigit. destruct (is_ascii_digit b); [done |].
  repeat match goal with |- context [if ?b then _ else _] => destruct b eqn:? end; done.
Qed.

Lemma all_head p ds b : all p ds -> head ds = Some b -> p b = true.
Proof. by intros [| ? ? ? ?] [= ->]. Qed.

Lemma is_byte_digits p ds b : all p ds -> p b = false -> is_byte (head ds) b = false.
Proof. intros Hall Hb. apply is_byte_false. intros Hh. rewrite (all_head _ _ _ Hall Hh) in Hb. done. Qed.

Lemma all_tail p ds : all p ds -> all p (tail ds).
Proof. intros [|]; [constructor | done]. Qed.

Lemma split_before_none p ds : all is_ascii_digit ds -> (forall b, is_ascii_digit b = true -> p b = false) ->
  split_before p ds = (ds, []).
Proof. intros Hall Hp. induction Hall as [| b l Hb _ IH]; [done |]. cbn. by rewrite (Hp _ Hb), IH. Qed.

Lemma parse_int_digits ds v :
  ds <> [] -> digits_value 10 ds = Some v ->
  parse_int I64_MIN I64_MAX ds = if v <=? I64_MAX then Some v else None.
Proof.
  intros Hne Hv. pose proof (decimal_digits _ _ Hv) as Hall. unfold parse_int.
  rewrite !(is_byte_digits is_ascii_digit) by done. cbn [orb]. destruct ds as [| d ds]; [done |].
  rewrite Hv. cbn [mbind option_bind].
  pose proof (digits_value_nonneg 10 _ _ ltac:(lia) Hv). by replace (I64_MIN <=? v) with true by range_lia.
Qed.

Lemma parse_f64_digits ds v :
  ds <> [] -> digits_value 10 ds = Some v -> parse_f64 ds = Some (decimal_to_f64 v 0).
Proof.
  intros Hne Hv. pose proof (decimal_digits _ _ Hv) as Hall. unfold parse_f64.
  rewrite !(split_before_none _ ds) by (done || (intros b; unfold is_ascii_digit; lia)).
  cbn [tail]. rewrite app_nil_r. destruct ds as [| d ds]; [done |]. by rewrite Hv.
Qed.

(** A hexadecimal numeral of any length is its value modulo 2^64. *)
Lemma hexadecimal_numeral powi x ds v :
  x = "x"%u8 \/ x = "X"%u8 -> digits_value 16 ds = Some v ->
  parse_number (E := Empty_set) powi ("0"%u8 :: x :: ds) tt = (Ok (Integer (wrap_i64 v)), tt).
Proof.
  intros Hx Hv. unfold parse_number.
  pose proof (hex_digits _ _ Hv) as Hall. cbn [forallb].
  rewrite (digits_below_128 _ _ _ Hv).
  assert (is_byte (Some "0"%u8) "0"%u8 && (is_byte (Some x) "x"%u8 || is_byte (Some x) "X"%u8) = true) as Hp
    by (by destruct Hx as [-> | ->]).
  replace (x <? 128) with true by (by destruct Hx as [-> | ->]). cbn [andb negb head tail]. change (48 <? 128) with true.
  cbn [andb negb]. rewrite Hp. change (drop 2 (48 :: x :: ds)) with ds. unfold parse_hexadecimal.
  rewrite (all_not_contains is_ascii_hexdigit ["."%u8; "p"%u8; "P"%u8] _ Hall eq_refl). cbn [negb].
  rewrite (hex_u64_spec _ _ Hv). by rewrite <- (wrap_i64_u64 v).
Qed.

(** C36: Integer numerals: a decimal is the integer it writes when that is an
    [i64], and otherwise the nearest float, or an error when that is infinite;
    a hexadecimal of any length is its value modulo 2^64, as an [i64]. *)
Theorem integer_numerals powi ds x v :
  ds <> [] -> x = "x"%u8 \/ x = "X"%u8 ->
  (digits_value 10 ds = Some v ->
   parse_number (E := Empty_set) powi ds tt =
     if v <=? I64_MAX then (Ok (Integer v), tt)
     else if f64_is_finite (decimal_to_f64 v 0) then (Ok (Float (decimal_to_f64 v 0)), tt)
     else (Err (Syntax "整數超出範圍"), tt)) /\
  (digits_value 16 ds = Some v ->
   parse_number (E := Empty_set) powi ("0"%u8 :: x :: ds) tt = (Ok (Integer (wrap_i64 v)), tt)).
Proof.
  intros Hne Hx. split; intros Hv; [unfold parse_number |].
  - pose proof (decimal_digits _ _ Hv) as Hall.
    rewrite (digits_below_128 _ _ _ Hv), !(is_byte_digits is_ascii_digit (tail ds)) by (done || by apply all_tail).
    cbn [negb orb]. rewrite andb_false_r, (all_not_contains is_ascii_digit ["."%u8; "e"%u8; "E"%u8] _ Hall eq_refl).
    rewrite (parse_int_digits _ _ Hne Hv), (parse_f64_digits _ _ Hne Hv).
    destruct (v <=? I64_MAX); [done |]. generalize (decimal_to_f64 v 0) as f. intros f. by destruct f.
  - by apply hexadecimal_numeral.
Qed.

(** ** On a source *)

Definition demo_source : list Z := bytes_of_string "x = 'a\65' --[[c]]".

Lemma lex_total_witness :
  total (lex (fun _ _ => f64_one) demo_source Lua55 CompileLimits_default).
Proof. apply lex_total. vm_compute. discriminate. Defined.

Lemma lex_sound_witness :
  exists chunk, lex (fun _ _ => f64_one) demo_source Lua55 CompileLimits_default = Ok chunk /\
    tokens_of Lua55 (numeral_value (B := unit) (E := Empty_set) (fun _ _ => f64_one)) []
      (chars demo_source) (ch_tokens chunk).
Proof.
  eexists. split; [vm_compute; reflexivity |].
  eapply (lex_sound (fun _ _ => f64_one) demo_source Lua55 CompileLimits_default);
    [vm_compute; discriminate | vm_compute; reflexivity].
Defined.

Lemma integer_numerals_witness :
  parse_number (E := Empty_set) (fun _ _ => f64_one) (bytes_of_string "9223372036854775808") tt =
    (Ok (Float f64_two63), tt) /\
  parse_number (E := Empty_set) (fun _ _ => f64_one) (bytes_of_string "0xffffffffffffffffff") tt =
    (Ok (Integer (-1)), tt).
Proof.
  split.
  - apply (integer_numerals (fun _ _ => f64_one) (bytes_of_string "9223372036854775808") "x"%u8 9223372036854775808);
      [done | by left | reflexivity].
  - apply (integer_numerals (fun _ _ => f64_one) (bytes_of_string "ffffffffffffffffff") "x"%u8 4722366482869645213695);
      [done | by left | reflexivity].
Defined.

(** ** Comments that begin like a long bracket *)

Lemma scan_fails powi input profile limits byte rest d0 :
  input = byte :: rest -> zlen input <= USIZE_MAX ->
  (forall s, At input profile limits [] [] [] (chars input) s ->
     spec (scan_one (E := Empty_set) powi limits byte) (s, tt) (fun _ _ => False)
       (fun e _ => match e with SDiagnostic d => d0 d | SBudget _ => True end)) ->
  exists d, lex powi input profile limits = Err d.
Proof.
  intros Hin Hi Hone. pose proof (lex_spec powi input profile limits Hi) as Hspec.
  destruct (lex powi input profile limits) as [chunk | d | k] eqn:Hlex; [| by exists d | done]. exfalso. clear Hspec.
  assert (At input profile limits [] [] [] (chars input)
    {| cursor := Cursor_new input profile; tokens := [] |}) as Hs.
  { split; [| done | change (offset_of []) with 0; lia].
    split; cbn; try done; [by rewrite concat_chars | apply is_chars_chars]. }
  specialize (Hone _ Hs). unfold spec in Hone. revert Hlex. unfold lex, lex_with_numeric_budget.
  destruct (max_source_bytes limits <? zlen input); [done |].
  unfold scan. cbn [iter fst cursor Cursor_new c_input]. unfold mbind at 1, st_bind at 1.
  assert (peek {| cursor := Cursor_new input profile; tokens := [] |} =
    (Ok (Some byte), {| cursor := Cursor_new input profile; tokens := [] |})) as Hpeek by (by rewrite Hin).
  unfold mbind at 1, st_bind at 1. unfold mbind at 1, st_bind at 1. unfold unmetered at 1. rewrite Hpeek.
  unfold mbind at 1, st_bind at 1.
  destruct (scan_one powi limits byte _) as [[? | [? | []] | ?] ?]; done.
Qed.

(** A comment whose text begins with an incomplete long bracket, [--[=] with
    any number of equals signs and no second bracket, is an error whatever
    follows, where Lua reads it as a comment to the end of the line. *)
Theorem bracket_comment_rejected powi profile limits n rest :
  let input := "-"%u8 :: "-"%u8 :: "["%u8 :: replicate (S n) "="%u8 ++ rest in
  zlen input <= USIZE_MAX -> head rest <> Some "="%u8 -> head rest <> Some "["%u8 ->
  exists d, lex powi input profile limits = Err d.
Proof.
  intros input Hi He Hb. apply (scan_fails _ _ _ _ "-"%u8 (tail input) (diagnostic_ok input)); [done..|].
  intros s Hs. unfold scan_one. set (post := chars input) in *.
  assert (concat post = input) as Hpost by apply concat_chars.
  assert (first_byte post = Some "-"%u8) as H1 by (unfold first_byte; by rewrite Hpost).
  assert (head (tail (concat post)) = Some "-"%u8) as H2 by (by rewrite Hpost).
  apply spec_bind, (spec_unmetered input Hi unmetered_never_crashes). eapply (at_peek_n input profile limits Hi); [exact Hs | lia |].
  rewrite zget_1, H2. apply (spec_unmetered input Hi unmetered_never_crashes). unfold scan_short_comment.
  apply (at_begin input profile limits Hi [] [] _ _ _ _ _ Hs).
  apply spec_bind, (at_skip input profile limits Hi [] [] _ _ _ _ _ Hs H1 eq_refl). intros p1 s1 Hp1 Hs1.
  rewrite Hp1 in H2, Hpost. cbn in H2.
  apply spec_bind, (at_skip input profile limits Hi [] [] _ _ "-"%u8 _ _ Hs1 H2 eq_refl). intros p2 s2 -> Hs2.
  injection Hpost as Hpost.
  apply spec_bind, (at_peek input profile limits Hi _ _ _ _ _ _ _ Hs2), spec_bind, spec_get, spec_bind.
  unfold first_byte. rewrite Hpost. cbn [head].
  pose proof (fun sep => count_equals_rejects input profile limits Hi [] [] _ p2 s2 0 (S n) rest
    (S (length (c_input (cursor s2)))) sep Hs2 Hpost He Hb ltac:(lia)) as Hno.
  pose proof (opening_spec input profile limits Hi _ _ _ _ _ Hs2) as Hopen.
  unfold long_opening_separator in *. rewrite (peek_at _ _ Hi _ _ _ (at_cursor _ _ _ _ _ _ _ _ Hs2)) in *.
  unfold first_byte in *. rewrite Hpost in *. cbn [head is_byte] in *.
  change (is_byte (Some 91) 91) with true in *. cbn [negb] in *.
  change (1 + Z.of_nat 0) with 1 in Hno. change (Z.of_nat 0) with 0 in Hno.
  destruct (count_equals _ _ 1 0) as [sep | |]; [by destruct (Hno sep) | | done].
  pose proof (at_cursor _ _ _ _ _ _ _ _ Hs2) as Hc. pose proof (cursor_at_total _ _ Hi _ _ _ Hc) as Ht.
  unfold spec, lex_fail, lex_error. split; [by left |]. cbn [Diagnostic_at d_span span_start span_end].
  rewrite (ca_offset _ _ _ _ _ Hc). pose proof (offset_of_nonneg p2).
  pose proof (offset_of_nonneg ([] ++ ([] ++ [[45]]) ++ [[45]])). lia.
Qed.

Lemma bracket_comment_rejected_witness :
  exists d, lex (fun _ _ => f64_one) (bytes_of_string "--[==") Lua55 CompileLimits_default = Err d.
Proof.
  apply (bracket_comment_rejected (fun _ _ => f64_one) Lua55 CompileLimits_default 1 []);
    [vm_compute; discriminate | done | done].
Defined.
