(* ===== verification/Ast.v ===== *)
(** The syntax tree of the compiler (crates/rivetlua-compiler/src/ast.rs): the
    mutually recursive data of expressions, statements and blocks, their spans,
    and the number of nodes of a tree. *)

From Stdlib Require Import ZArith Lia.
From stdpp Require Import base list numbers strings.
From S2P Require Import Prelude Float Number Lexer.

Local Open Scope Z_scope.

(** ** Names and attributes *)

Record Attribute := { attr_name : list Z; attr_span : Span }.

Record LocalName := {
  ln_name : list Z; ln_attribute : option Attribute; ln_span : Span
}.

Record MethodName := { mn_name : list Z; mn_colon_span : Span; mn_span : Span }.

Record Vararg := { table_name : option LocalName; vararg_span : Span }.

Inductive FieldSeparator := FieldComma | FieldSemicolon.

Inductive UnaryOp := Negate | Not | Length | BitNot.

Module BinaryOp.
Inductive BinaryOp :=
  | Or | And | Equal | NotEqual | Less | LessEqual | Greater | GreaterEqual
  | Pipe | BitXor | Ampersand | ShiftLeft | ShiftRight | Concat | Add | Subtract
  | Multiply | Divide | FloorDivide | Modulo | Power.
#[global] Instance BinaryOp_eq_dec : EqDecision BinaryOp.
Proof. solve_decision. Defined.
End BinaryOp.

(** ** The tree *)

Set Warnings "-register-all".

Inductive Expr :=
  | Expr_Literal (literal : Literal.Literal) (span : Span)
  | Expr_Nil (span : Span)
  | Expr_Bool (value : bool) (span : Span)
  | Expr_Name (name : list Z) (span : Span)
  | Expr_Vararg (span : Span)
  | Expr_Unary (op : UnaryOp) (expression : Expr) (span : Span)
  | Expr_Binary (op : BinaryOp.BinaryOp) (left right : Expr) (span : Span)
  | Expr_Paren (expression : Expr) (span : Span)
  | Expr_Index (base index : Expr) (span : Span)
  | Expr_Field (base : Expr) (name : list Z) (span : Span)
  | Expr_Call (callee : Expr) (arguments : list Expr) (span : Span)
  | Expr_MethodCall (receiver : Expr) (method : list Z) (arguments : list Expr) (span : Span)
  | Expr_Function (body : FunctionBody) (span : Span)
  | Expr_TableConstructor (fields : list TableField) (span : Span)
with TableField :=
  | Field_Array (value : Expr) (separator : option FieldSeparator) (span : Span)
  | Field_Named (name : list Z) (value : Expr) (separator : option FieldSeparator) (span : Span)
  | Field_Indexed (key value : Expr) (separator : option FieldSeparator) (span : Span)
with FunctionBody :=
  | FunctionBody_ (parameters : list LocalName) (vararg : option Vararg) (body : Block) (span : Span)
with Block :=
  | Block_ (statements : list Stmt) (terminator : option Span) (span : Span)
with Stmt :=
  | Stmt_Empty (span : Span)
  | Stmt_Return (values : list Expr) (span : Span)
  | Stmt_Assignment (targets values : list Expr) (span : Span)
  | Stmt_Call (call : Expr) (span : Span)
  | Stmt_Local (names : list LocalName) (values : list Expr) (span : Span)
  | Stmt_Global (declaration : GlobalDeclaration) (span : Span)
  | Stmt_Break (span : Span)
  | Stmt_Goto (name : list Z) (name_span span : Span)
  | Stmt_Label (name : list Z) (name_span span : Span)
  | Stmt_Do (body : Block) (span : Span)
  | Stmt_If (clauses : list (Expr * Block)) (else_block : option Block) (span : Span)
  | Stmt_While (condition : Expr) (body : Block) (span : Span)
  | Stmt_Repeat (body : Block) (condition : Expr) (span : Span)
  | Stmt_NumericFor (name : LocalName) (initial limit : Expr) (step : option Expr) (body : Block)
      (span : Span)
  | Stmt_GenericFor (names : list LocalName) (values : list Expr) (body : Block) (span : Span)
  | Stmt_Function (name : Expr) (method : option MethodName) (body : FunctionBody) (span : Span)
  | Stmt_LocalFunction (name : LocalName) (body : FunctionBody) (span : Span)
with GlobalDeclaration :=
  | Global_Names (names : list LocalName) (values : list Expr) (prefix_attribute : option Attribute)
      (span : Span)
  | Global_Star (prefix_attribute : option Attribute) (span : Span)
  | Global_Function (name : list Z) (body : FunctionBody) (span : Span).

Record Module_ := { mod_profile : LuaProfile; mod_span : Span; root : Block }.

Definition body_parameters (f : FunctionBody) := let '(FunctionBody_ p _ _ _) := f in p.
Definition body_vararg (f : FunctionBody) := let '(FunctionBody_ _ v _ _) := f in v.
Definition body_block (f : FunctionBody) := let '(FunctionBody_ _ _ b _) := f in b.
Definition block_statements (b : Block) := let '(Block_ ss _ _) := b in ss.

(** [Expr::span]. *)
Definition expr_span (e : Expr) : Span :=
  match e with
  | Expr_Literal _ span | Expr_Nil span | Expr_Bool _ span | Expr_Name _ span
  | Expr_Vararg span | Expr_Unary _ _ span | Expr_Binary _ _ _ span | Expr_Paren _ span
  | Expr_Index _ _ span | Expr_Field _ _ span | Expr_Call _ _ span
  | Expr_MethodCall _ _ _ span | Expr_Function _ span | Expr_TableConstructor _ span => span
  end.

(** [TableField::set_separator]. *)
Definition set_separator (f : TableField) (separator : FieldSeparator) : TableField :=
  match f with
  | Field_Array value _ span => Field_Array value (Some separator) span
  | Field_Named name value _ span => Field_Named name value (Some separator) span
  | Field_Indexed key value _ span => Field_Indexed key value (Some separator) span
  end.

Definition is_return (s : Stmt) : bool := match s with Stmt_Return _ _ => true | _ => false end.

(** ** The size of a tree: its expressions, table fields, names declared,
    blocks and statements, the dotted name of a function statement not counted. *)

Definition total_size {A} (size : A -> Z) (l : list A) : Z := fold_right (fun x n => size x + n) 0 l.
Definition option_size {A} (size : A -> Z) (o : option A) : Z :=
  match o with Some x => size x | None => 0 end.

Fixpoint expr_size (e : Expr) : Z :=
  match e with
  | Expr_Literal _ _ | Expr_Nil _ | Expr_Bool _ _ | Expr_Name _ _ | Expr_Vararg _ => 1
  | Expr_Unary _ e _ | Expr_Paren e _ | Expr_Field e _ _ => 1 + expr_size e
  | Expr_Binary _ a b _ | Expr_Index a b _ => 1 + expr_size a + expr_size b
  | Expr_Call f es _ => 1 + expr_size f + total_size expr_size es
  | Expr_MethodCall f _ es _ => 1 + expr_size f + total_size expr_size es
  | Expr_Function f _ => 1 + body_size f
  | Expr_TableConstructor fs _ => 1 + total_size field_size fs
  end
with field_size (f : TableField) : Z :=
  match f with
  | Field_Array v _ _ | Field_Named _ v _ _ => 1 + expr_size v
  | Field_Indexed k v _ _ => 1 + expr_size k + expr_size v
  end
with body_size (f : FunctionBody) : Z :=
  let '(FunctionBody_ ps _ b _) := f in zlen ps + block_size b
with block_size (b : Block) : Z :=
  let '(Block_ ss _ _) := b in 1 + total_size stmt_size ss
with stmt_size (s : Stmt) : Z :=
  match s with
  | Stmt_Empty _ | Stmt_Break _ | Stmt_Goto _ _ _ | Stmt_Label _ _ _ => 1
  | Stmt_Return es _ => 1 + total_size expr_size es
  | Stmt_Local ns es _ => 1 + zlen ns + total_size expr_size es
  | Stmt_Assignment ts es _ => 1 + total_size expr_size ts + total_size expr_size es
  | Stmt_Call e _ => 1 + expr_size e
  | Stmt_Global d _ => 1 + global_size d
  | Stmt_Do b _ => 1 + block_size b
  | Stmt_If cs o _ =>
      1 + total_size (fun c => expr_size c.1 + block_size c.2) cs + option_size block_size o
  | Stmt_While e b _ | Stmt_Repeat b e _ => 1 + expr_size e + block_size b
  | Stmt_NumericFor _ a l o b _ => 2 + expr_size a + expr_size l + option_size expr_size o + block_size b
  | Stmt_GenericFor ns es b _ => 1 + zlen ns + total_size expr_size es + block_size b
  | Stmt_Function _ _ f _ => 1 + body_size f
  | Stmt_LocalFunction _ f _ => 2 + body_size f
  end
with global_size (d : GlobalDeclaration) : Z :=
  match d with
  | Global_Names ns es _ _ => 1 + zlen ns + total_size expr_size es
  | Global_Star _ _ => 1
  | Global_Function _ f _ => 1 + body_size f
  end.

Lemma total_size_snoc {A} (size : A -> Z) l x : total_size size (l ++ [x]) = total_size size l + size x.
Proof. unfold total_size. induction l as [| y l IH]; cbn [app fold_right]; lia. Qed.

Lemma set_separator_size f sep : field_size (set_separator f sep) = field_size f.
Proof. by destruct f. Qed.

Create Rewrite HintDb sizes.
#[export] Hint Rewrite @total_size_snoc : sizes.
