(* ===== verification/Parser.v ===== *)
(** The parser of the compiler (crates/rivetlua-compiler/src/parser/mod.rs):
    recursive descent over the tokens of the lexer, precedence climbing for
    expressions, and the limits on nodes, depth, statements and lists. *)

From Stdlib Require Import ZArith Lia.
From stdpp Require Import base list numbers strings.
From S2P Require Import Prelude Float Number Lexer Ast.

Local Open Scope Z_scope.

(** The state of [Parser]; the tokens, the limits and the profile do not change. *)
Record Parser := { ps_index : Z; ps_nodes : Z; ps_depth : Z; ps_statements : Z }.

Definition with_index (s : Parser) (i : Z) : Parser :=
  {| ps_index := i; ps_nodes := ps_nodes s; ps_depth := ps_depth s; ps_statements := ps_statements s |}.
Definition with_nodes (s : Parser) (n : Z) : Parser :=
  {| ps_index := ps_index s; ps_nodes := n; ps_depth := ps_depth s; ps_statements := ps_statements s |}.
Definition with_depth (s : Parser) (d : Z) : Parser :=
  {| ps_index := ps_index s; ps_nodes := ps_nodes s; ps_depth := d; ps_statements := ps_statements s |}.
Definition with_statements (s : Parser) (n : Z) : Parser :=
  {| ps_index := ps_index s; ps_nodes := ps_nodes s; ps_depth := ps_depth s; ps_statements := n |}.

Abbreviation ParseM := (ST Parser Diagnostic).

Definition join (a b : Span) : Span := {| span_start := span_start a; span_end := span_end b |}.

Definition diagnostic (t : option Token) (code : DiagnosticCode) (message : string) : Diagnostic :=
  match t with
  | Some t => {| d_code := code; d_span := span t; d_start := start t; d_end := stop t; d_message := message |}
  | None =>
      {| d_code := code; d_span := {| span_start := 0; span_end := 0 |};
         d_start := {| p_line := 1; p_column := 1 |}; d_end := {| p_line := 1; p_column := 1 |};
         d_message := message |}
  end.

(** [self.field += 1]: a counter that passes [usize::MAX] is an overflow. *)
Definition increment (n : Z) : ParseM Z :=
  match checked_add_usize n 1 with Some m => mret m | None => crash_with Panicked end.

Definition is_kind (k : TokenKind.TokenKind) (t : Token) : bool := bool_decide (kind t = k).
Definition is_symbol (sym : Symbol.Symbol) (t : Token) : bool := is_kind (TokenKind.Symbol sym) t.
Definition is_keyword (k : Keyword.Keyword) (t : Token) : bool := is_kind (TokenKind.Keyword k) t.

(** The operator a token is, its precedence, and whether it associates to the right. *)
Definition binary_operator (k : TokenKind.TokenKind) : option (BinaryOp.BinaryOp * Z * bool) :=
  match k with
  | TokenKind.Keyword Keyword.Or => Some (BinaryOp.Or, 1, false)
  | TokenKind.Keyword Keyword.And => Some (BinaryOp.And, 2, false)
  | TokenKind.Symbol s =>
      match s with
      | Symbol.Caret => Some (BinaryOp.Power, 13, true)
      | Symbol.Concat => Some (BinaryOp.Concat, 8, true)
      | Symbol.Plus => Some (BinaryOp.Add, 9, false)
      | Symbol.Minus => Some (BinaryOp.Subtract, 9, false)
      | Symbol.Star => Some (BinaryOp.Multiply, 10, false)
      | Symbol.Slash => Some (BinaryOp.Divide, 10, false)
      | Symbol.FloorSlash => Some (BinaryOp.FloorDivide, 10, false)
      | Symbol.Percent => Some (BinaryOp.Modulo, 10, false)
      | Symbol.EqualEqual => Some (BinaryOp.Equal, 3, false)
      | Symbol.NotEqual => Some (BinaryOp.NotEqual, 3, false)
      | Symbol.Less => Some (BinaryOp.Less, 3, false)
      | Symbol.LessEqual => Some (BinaryOp.LessEqual, 3, false)
      | Symbol.Greater => Some (BinaryOp.Greater, 3, false)
      | Symbol.GreaterEqual => Some (BinaryOp.GreaterEqual, 3, false)
      | Symbol.Pipe => Some (BinaryOp.Pipe, 4, false)
      | Symbol.Tilde => Some (BinaryOp.BitXor, 5, false)
      | Symbol.Ampersand => Some (BinaryOp.Ampersand, 6, false)
      | Symbol.ShiftLeft => Some (BinaryOp.ShiftLeft, 7, false)
      | Symbol.ShiftRight => Some (BinaryOp.ShiftRight, 7, false)
      | _ => None
      end
  | _ => None
  end.

Definition is_prefix_expr (e : Expr) : bool :=
  match e with
  | Expr_Name _ _ | Expr_Paren _ _ | Expr_Index _ _ _ | Expr_Field _ _ _ | Expr_Call _ _ _
  | Expr_MethodCall _ _ _ _ => true
  | _ => false
  end.

(** What may stand on the left of an assignment; a call; an open last value. *)
Definition is_assignable (e : Expr) : bool :=
  match e with Expr_Name _ _ | Expr_Field _ _ _ | Expr_Index _ _ _ => true | _ => false end.
Definition is_call (e : Expr) : bool :=
  match e with Expr_Call _ _ _ | Expr_MethodCall _ _ _ _ => true | _ => false end.
Definition is_open (e : option Expr) : bool :=
  match e with
  | Some (Expr_Call _ _ _ | Expr_MethodCall _ _ _ _ | Expr_Vararg _) => true
  | _ => false
  end.

Section Parsing.
Context (tokens : list Token) (limits : CompileLimits) (profile : LuaProfile).

(** ** Tokens *)

Definition current : ParseM Token := fun s =>
  lift (vget tokens (Z.min (ps_index s) (Z.max 0 (zlen tokens - 1)))) s.
Definition previous : ParseM Token := fun s => lift (vget tokens (Z.max 0 (ps_index s - 1))) s.

Definition eof : ParseM bool := t ← current; mret (is_kind TokenKind.Eof t).

Definition advance : ParseM unit :=
  at_end ← eof;
  if at_end : bool then mret tt else fun s => (Ok tt, with_index s (ps_index s + 1)).

(** [return Err(self.error(message))] and [return Err(self.limit(message))]. *)
Definition error {A} (message : string) : ParseM A :=
  t ← current; fail (diagnostic (Some t) Parse message).
Definition limit {A} (message : string) : ParseM A :=
  t ← current; fail (diagnostic (Some t) CompileLimit message).

(** [if self.current().kind == k { self.advance(); true } else { false }] *)
Definition take_kind (k : TokenKind.TokenKind) : ParseM bool :=
  t ← current; if is_kind k t then advance;; mret true else mret false.
Definition take_keyword (k : Keyword.Keyword) : ParseM bool := take_kind (TokenKind.Keyword k).
Definition take_symbol (s : Symbol.Symbol) : ParseM bool := take_kind (TokenKind.Symbol s).

Definition expect (s : Symbol.Symbol) : ParseM unit :=
  taken ← take_symbol s; if taken : bool then mret tt else error "缺少結束符號".
Definition expect_keyword (k : Keyword.Keyword) : ParseM unit :=
  taken ← take_keyword k; if taken : bool then mret tt else error "缺少結束關鍵字".

Definition finish (start : Span) : ParseM Span := p ← previous; mret (join start (span p)).

Definition reserve_node : ParseM unit :=
  s ← get;
  nodes ← increment (ps_nodes s);
  put (with_nodes s nodes);;
  if max_ast_nodes limits <? nodes then limit "AST node 超過編譯限制" else mret tt.

(** The literal of a [Name] token that has been passed. *)
Definition name_of (t : Token) : ParseM (list Z) :=
  match literal t with
  | Some (Literal.Name name) => mret name
  | _ => error "名稱 token 不完整"
  end.

Definition name : ParseM (list Z) :=
  t ← current;
  if negb (is_kind TokenKind.Name t) then error "預期名稱" else advance;; name_of t.

Definition binary : ParseM (option (BinaryOp.BinaryOp * Z * bool)) :=
  t ← current; mret (binary_operator (kind t)).

(** [loop { .. }] and [while c { .. }]: a round that goes on consumes a token,
    so one more round than there are tokens is enough. *)
Definition rounds {X B} (body : X -> ParseM (X + B)) (x : X) : ParseM B := iter (S (length tokens)) body x.
Definition while_taken {X} (taken : ParseM bool) (body : X -> ParseM X) : X -> ParseM X :=
  rounds (fun x => b ← taken; if b : bool then inl <$> body x else mret (inr x)).

(** [if n >= self.limits.max_list_entries { return Err(..) }] *)
Definition list_room {A} (l : list A) : ParseM unit :=
  if max_list_entries limits <=? zlen l then limit "list 超過編譯限制" else mret tt.

(** [self.depth += 1;] and the check of the limit. *)
Definition enter : ParseM unit :=
  s ← get;
  depth ← increment (ps_depth s);
  put (with_depth s depth);;
  if max_parse_depth limits <? depth then limit "解析深度超過編譯限制" else mret tt.
Definition leave : ParseM unit := fun s => (Ok tt, with_depth s (ps_depth s - 1)).

(** [self.statements += 1;] and the check of the limit. *)
Definition count_statement : ParseM unit :=
  s ← get;
  n ← increment (ps_statements s);
  put (with_statements s n);;
  if max_statements limits <? n then limit "陳述式數超過編譯限制" else mret tt.

(** ** Expressions

    [expr] and [block_until] call each other through everything below; they are
    parameters here and the knot is tied at the end. *)

Section Calls.
Context (expr : Z -> ParseM Expr) (block_until : list Keyword.Keyword -> ParseM Block).

Definition list_expr : ParseM (list Expr) :=
  at_end ← eof;
  if at_end : bool then mret [] else
  rounds (fun out =>
    list_room out;;
    e ← expr 0;
    more ← take_symbol Symbol.Comma;
    mret (if more : bool then inl (out ++ [e]) else inr (out ++ [e]))) [].

(** A parameter's name, with its node. *)
Definition parameter : ParseM LocalName :=
  t ← current; n ← name; reserve_node;;
  mret {| ln_name := n; ln_attribute := None; ln_span := span t |}.

Definition vararg_parameter : ParseM Vararg :=
  p ← previous;
  t ← current;
  table_name ←
    (if is_kind TokenKind.Name t then
       (if negb (named_vararg_rule (rules profile)) then error "具名 vararg table 僅支援 lua55" else mret tt);;
       t ← current; n ← name;
       mret (Some {| ln_name := n; ln_attribute := None; ln_span := span t |})
     else mret None);
  reserve_node;;
  mret {| table_name := table_name; vararg_span := span p |}.

Definition parameters : ParseM (list LocalName * option Vararg) :=
  rounds (fun params =>
    closed ← take_symbol Symbol.CloseParen;
    if closed : bool then mret (inr (params, None)) else
    (if max_parameters limits <=? zlen params then limit "參數超過編譯限制" else mret tt);;
    dots ← take_symbol Symbol.Vararg;
    if dots : bool then
      v ← vararg_parameter; expect Symbol.CloseParen;; mret (inr (params, Some v))
    else
    p ← parameter;
    more ← take_symbol Symbol.Comma;
    if more : bool then mret (inl (params ++ [p]))
    else expect Symbol.CloseParen;; mret (inr (params ++ [p], None))) [].

Definition function_body (start : Span) : ParseM FunctionBody :=
  expect Symbol.OpenParen;;
  params ← parameters;
  body ← block_until [Keyword.End];
  expect_keyword Keyword.End;;
  span ← finish start;
  mret (FunctionBody_ params.1 params.2 body span).

Definition function_expr : ParseM Expr :=
  t ← current;
  advance;;
  body ← function_body (span t);
  span ← finish (span t);
  reserve_node;;
  mret (Expr_Function body span).

(** One field, its separator not yet known. *)
Definition table_field : ParseM TableField :=
  t ← current;
  let field_start := span t in
  bracket ← take_symbol Symbol.OpenBracket;
  if bracket : bool then
    key ← expr 0;
    expect Symbol.CloseBracket;; expect Symbol.Assign;;
    value ← expr 0;
    reserve_node;;
    mret (Field_Indexed key value None (join field_start (expr_span value)))
  else
  s ← get;
  if is_kind TokenKind.Name t
     && bool_decide (kind <$> zget tokens (ps_index s + 1) = Some (TokenKind.Symbol Symbol.Assign))
  then
    n ← name;
    expect Symbol.Assign;;
    value ← expr 0;
    reserve_node;;
    mret (Field_Named n value None (join field_start (expr_span value)))
  else
    value ← expr 0;
    reserve_node;;
    mret (Field_Array value None (join field_start (expr_span value))).

Definition table : ParseM Expr :=
  t ← current;
  advance;;
  fields ← rounds (fun fields =>
    closed ← take_symbol Symbol.CloseBrace;
    if closed : bool then mret (inr fields) else
    at_end ← eof;
    if at_end : bool then error "缺少 table 結束符號" else
    list_room fields;;
    field ← table_field;
    comma ← take_symbol Symbol.Comma;
    if comma : bool then mret (inl (fields ++ [set_separator field FieldComma])) else
    semicolon ← take_symbol Symbol.Semicolon;
    if semicolon : bool then mret (inl (fields ++ [set_separator field FieldSemicolon])) else
    expect Symbol.CloseBrace;;
    mret (inr (fields ++ [field]))) [];
  reserve_node;;
  span ← finish (span t);
  mret (Expr_TableConstructor fields span).

(** [self.advance(); let e = self.expr(12)?;] and the operator around it. *)
Definition unary (t : Token) (op : UnaryOp) : ParseM Expr :=
  advance;;
  e ← expr 12;
  mret (Expr_Unary op e (join (span t) (expr_span e))).

Definition prefix : ParseM Expr :=
  reserve_node;;
  t ← current;
  match kind t with
  | TokenKind.Name => advance;; n ← name_of t; mret (Expr_Name n (span t))
  | TokenKind.Integer | TokenKind.Float | TokenKind.String =>
      advance;; l ← unwrap (literal t); mret (Expr_Literal l (span t))
  | TokenKind.Keyword Keyword.Nil => advance;; mret (Expr_Nil (span t))
  | TokenKind.Keyword Keyword.True => advance;; mret (Expr_Bool true (span t))
  | TokenKind.Keyword Keyword.False => advance;; mret (Expr_Bool false (span t))
  | TokenKind.Symbol Symbol.Vararg => advance;; mret (Expr_Vararg (span t))
  | TokenKind.Symbol Symbol.Minus => unary t Negate
  | TokenKind.Keyword Keyword.Not => unary t Not
  | TokenKind.Symbol Symbol.Hash => unary t Length
  | TokenKind.Symbol Symbol.Tilde => unary t BitNot
  | TokenKind.Symbol Symbol.OpenParen =>
      advance;;
      e ← expr 0;
      expect Symbol.CloseParen;;
      span ← finish (span t);
      mret (Expr_Paren e span)
  | TokenKind.Symbol Symbol.OpenBrace => table
  | TokenKind.Keyword Keyword.Function => function_expr
  | _ => error "unexpected symbol"
  end.

(** The arguments after an open parenthesis that has been taken. *)
Definition paren_arguments : ParseM (list Expr) :=
  closed ← take_symbol Symbol.CloseParen;
  if closed : bool then mret []
  else values ← list_expr; expect Symbol.CloseParen;; mret values.

(** The current token starts a call's only argument, a string or a table. *)
Definition starts_argument (t : Token) : bool :=
  is_kind TokenKind.String t || is_symbol Symbol.OpenBrace t.
Definition single_argument : ParseM Expr :=
  (if max_list_entries limits =? 0 then limit "list 超過編譯限制" else mret tt);; prefix.

Definition method_arguments : ParseM (list Expr) :=
  paren ← take_symbol Symbol.OpenParen;
  if paren : bool then paren_arguments else
  t ← current;
  if starts_argument t then argument ← single_argument; mret [argument]
  else error "方法呼叫缺少引數".

(** One round of [postfix]: [None] when nothing more belongs to the base. *)
Definition postfix_step (base : Expr) : ParseM (option Expr) :=
  if negb (is_prefix_expr base) then mret None else
  paren ← take_symbol Symbol.OpenParen;
  if paren : bool then
    arguments ← paren_arguments;
    span ← finish (expr_span base);
    reserve_node;;
    mret (Some (Expr_Call base arguments span))
  else
  t ← current;
  if starts_argument t then
    argument ← single_argument;
    reserve_node;;
    mret (Some (Expr_Call base [argument] (join (expr_span base) (expr_span argument))))
  else
  dot ← take_symbol Symbol.Dot;
  if dot : bool then
    n ← name;
    span ← finish (expr_span base);
    reserve_node;;
    mret (Some (Expr_Field base n span))
  else
  bracket ← take_symbol Symbol.OpenBracket;
  if bracket : bool then
    index ← expr 0;
    expect Symbol.CloseBracket;;
    span ← finish (expr_span base);
    reserve_node;;
    mret (Some (Expr_Index base index span))
  else
  colon ← take_symbol Symbol.Colon;
  if colon : bool then
    method ← name;
    arguments ← method_arguments;
    span ← finish (expr_span base);
    reserve_node;;
    mret (Some (Expr_MethodCall base method arguments span))
  else mret None.

Definition postfix (base : Expr) : ParseM Expr :=
  rounds (fun base =>
    next ← postfix_step base;
    mret (match next : option Expr with Some base => inl base | None => inr base end)) base.

(** One round of the operator loop. *)
Definition binary_step (min : Z) (left : Expr) : ParseM (Expr + Expr) :=
  operator ← binary;
  match operator with
  | None => mret (inr left)
  | Some (op, prec, to_right) =>
      if prec <? min then mret (inr left) else
      advance;;
      rhs ← expr (if to_right : bool then prec else prec + 1);
      reserve_node;;
      mret (inl (Expr_Binary op left rhs (join (expr_span left) (expr_span rhs))))
  end.

Definition expr_body (min : Z) : ParseM Expr :=
  enter;;
  left ← prefix;
  left ← postfix left;
  left ← rounds (binary_step min) left;
  leave;;
  mret left.

(** ** Statements *)

(** After the keyword or symbol that begins the statement; [start] is its span. *)

Definition label_statement (start : Span) : ParseM Stmt :=
  t ← current;
  n ← name;
  expect Symbol.DoubleColon;;
  reserve_node;;
  span' ← finish start;
  mret (Stmt_Label n (span t) span').

Definition function_name : ParseM (Expr * option MethodName) :=
  t ← current;
  n ← name;
  rounds (fun value =>
    dot ← take_symbol Symbol.Dot;
    if dot : bool then
      t ← current;
      n ← name;
      mret (inl (Expr_Field value n (join (expr_span value) (span t))))
    else
    colon ← take_symbol Symbol.Colon;
    if colon : bool then
      p ← previous;
      t ← current;
      n ← name;
      mret (inr (Expr_Field value n (join (expr_span value) (span t)),
                 Some {| mn_name := n; mn_colon_span := span p; mn_span := span t |}))
    else mret (inr (value, None))) (Expr_Name n (span t)).

Definition function_statement (start : Span) : ParseM Stmt :=
  named ← function_name;
  body ← function_body start;
  span ← finish start;
  mret (Stmt_Function named.1 named.2 body span).

Definition do_statement (start : Span) : ParseM Stmt :=
  body ← block_until [Keyword.End];
  expect_keyword Keyword.End;;
  span ← finish start;
  mret (Stmt_Do body span).

Definition while_statement (start : Span) : ParseM Stmt :=
  condition ← expr 0;
  expect_keyword Keyword.Do;;
  body ← block_until [Keyword.End];
  expect_keyword Keyword.End;;
  span ← finish start;
  mret (Stmt_While condition body span).

Definition repeat_statement (start : Span) : ParseM Stmt :=
  body ← block_until [Keyword.Until];
  expect_keyword Keyword.Until;;
  condition ← expr 0;
  span ← finish start;
  mret (Stmt_Repeat body condition span).

Definition clause : ParseM (Expr * Block) :=
  condition ← expr 0;
  expect_keyword Keyword.Then;;
  body ← block_until [Keyword.ElseIf; Keyword.Else; Keyword.End];
  mret (condition, body).

Definition if_statement (start : Span) : ParseM Stmt :=
  first ← clause;
  clauses ← while_taken (take_keyword Keyword.ElseIf)
    (fun clauses => c ← clause; list_room clauses;; mret (clauses ++ [c])) [first];
  has_else ← take_keyword Keyword.Else;
  else_block ← (if has_else : bool then Some <$> block_until [Keyword.End] else mret None);
  expect_keyword Keyword.End;;
  span ← finish start;
  mret (Stmt_If clauses else_block span).

Definition numeric_for (start : Span) (local : LocalName) : ParseM Stmt :=
  initial ← expr 0;
  expect Symbol.Comma;;
  limit ← expr 0;
  stepped ← take_symbol Symbol.Comma;
  step ← (if stepped : bool then Some <$> expr 0 else mret None);
  expect_keyword Keyword.Do;;
  body ← block_until [Keyword.End];
  expect_keyword Keyword.End;;
  span ← finish start;
  mret (Stmt_NumericFor local initial limit step body span).

Definition generic_for (start : Span) (local : LocalName) : ParseM Stmt :=
  names ← while_taken (take_symbol Symbol.Comma)
    (fun names =>
       list_room names;;
       t ← current;
       reserve_node;;
       n ← name;
       mret (names ++ [{| ln_name := n; ln_attribute := None; ln_span := span t |}])) [local];
  expect_keyword Keyword.In;;
  values ← list_expr;
  expect_keyword Keyword.Do;;
  body ← block_until [Keyword.End];
  expect_keyword Keyword.End;;
  span ← finish start;
  mret (Stmt_GenericFor names values body span).

Definition for_statement (start : Span) : ParseM Stmt :=
  local ← parameter;
  numeric ← take_symbol Symbol.Assign;
  if numeric : bool then numeric_for start local else generic_for start local.

Definition ends_return (t : Token) : bool :=
  is_kind TokenKind.Eof t || is_symbol Symbol.Semicolon t || is_keyword Keyword.End t
    || is_keyword Keyword.Else t || is_keyword Keyword.ElseIf t || is_keyword Keyword.Until t.

Definition too_many_returns (values : list Expr) : bool :=
  match profile with
  | Lua55 => (254 <? zlen values) && negb (is_open (last values))
  | Lua54 => false
  end.

Definition return_statement (start : Span) : ParseM Stmt :=
  t ← current;
  values ← (if ends_return t then mret [] else list_expr);
  if too_many_returns values then
    p ← previous; fail (diagnostic (Some p) Parse "too many returns")
  else
  span ← finish start;
  mret (Stmt_Return values span).

Definition goto_statement (start : Span) : ParseM Stmt :=
  n ← name;
  p ← previous;
  span' ← finish start;
  mret (Stmt_Goto n (span p) span').

Definition local_function (start : Span) : ParseM Stmt :=
  local ← parameter;
  body ← function_body start;
  span ← finish start;
  mret (Stmt_LocalFunction local body span).

(** An attribute, after its opening angle bracket. *)
Definition attribute : ParseM Attribute :=
  t ← current;
  n ← name;
  expect Symbol.Greater;;
  span' ← finish (span t);
  mret {| attr_name := n; attr_span := span' |}.

(** [if self.take_symbol(Symbol::Less) { .. } else { otherwise }] *)
Definition optional_attribute (otherwise : option Attribute) : ParseM (option Attribute) :=
  less ← take_symbol Symbol.Less;
  if less : bool then Some <$> attribute else mret otherwise.

Definition local_prefix_attribute : ParseM (option Attribute) :=
  less ← (match profile with Lua55 => take_symbol Symbol.Less | Lua54 => mret false end);
  if less : bool then
    t ← current;
    a ← attribute;
    if bool_decide (attr_name a = bytes_of_string "const") || bool_decide (attr_name a = bytes_of_string "close")
    then mret (Some a)
    else fail (diagnostic (Some t) Parse "未知 local attribute")
  else mret None.

Definition local_names (prefix_attribute : option Attribute) : ParseM (list LocalName) :=
  rounds (fun names =>
    list_room names;;
    t ← current;
    n ← name;
    attr ← optional_attribute prefix_attribute;
    (if attr is Some _ then reserve_node else mret tt);;
    reserve_node;;
    span ← finish (span t);
    let names := names ++ [{| ln_name := n; ln_attribute := attr; ln_span := span |}] in
    more ← take_symbol Symbol.Comma;
    mret (if more : bool then inl names else inr names)) [].

(** [if self.take_symbol(Symbol::Assign) { self.list_expr()? } else { Vec::new() }] *)
Definition optional_values : ParseM (list Expr) :=
  assigned ← take_symbol Symbol.Assign; if assigned : bool then list_expr else mret [].

Definition local_statement (start : Span) : ParseM Stmt :=
  is_function ← take_keyword Keyword.Function;
  if is_function : bool then local_function start else
  prefix_attribute ← local_prefix_attribute;
  names ← local_names prefix_attribute;
  values ← optional_values;
  span ← finish start;
  mret (Stmt_Local names values span).

Definition global_names : ParseM (list LocalName) :=
  rounds (fun names =>
    list_room names;;
    t ← current;
    n ← name;
    attr ← optional_attribute None;
    reserve_node;;
    let names := names ++ [{| ln_name := n; ln_attribute := attr; ln_span := span t |}] in
    more ← take_symbol Symbol.Comma;
    mret (if more : bool then inl names else inr names)) [].

Definition global_statement (start : Span) : ParseM Stmt :=
  prefix_attribute ← optional_attribute None;
  star ← take_symbol Symbol.Star;
  if star : bool then
    span ← finish start;
    reserve_node;;
    mret (Stmt_Global (Global_Star prefix_attribute span) span)
  else
  is_function ← take_keyword Keyword.Function;
  if is_function : bool then
    (if prefix_attribute is Some _ then error "global function 不接受前置 attribute" else mret tt);;
    n ← name;
    body ← function_body start;
    span ← finish start;
    reserve_node;;
    mret (Stmt_Global (Global_Function n body span) span)
  else
  names ← global_names;
  values ← optional_values;
  span ← finish start;
  reserve_node;;
  mret (Stmt_Global (Global_Names names values prefix_attribute span) span).

Definition assignment_or_call (start : Span) : ParseM Stmt :=
  first ← expr 0;
  targets ← while_taken (take_symbol Symbol.Comma)
    (fun targets => list_room targets;; e ← expr 0; mret (targets ++ [e])) [first];
  assigned ← take_symbol Symbol.Assign;
  if assigned : bool then
    values ← list_expr;
    if forallb is_assignable targets then
      span ← finish start;
      mret (Stmt_Assignment targets values span)
    else error "assignment 左側不可指派"
  else
  match targets with
  | [call] =>
      if is_call call then span ← finish start; mret (Stmt_Call call span)
      else error "只有函式呼叫可作獨立陳述式"
  | _ => error "只有函式呼叫可作獨立陳述式"
  end.

(** The statement a keyword begins. *)
Definition keyword_statement (k : Keyword.Keyword) : option (Span -> ParseM Stmt) :=
  match k with
  | Keyword.Function => Some function_statement
  | Keyword.Do => Some do_statement
  | Keyword.While => Some while_statement
  | Keyword.Repeat => Some repeat_statement
  | Keyword.If => Some if_statement
  | Keyword.For => Some for_statement
  | Keyword.Return => Some return_statement
  | Keyword.Break => Some (fun start => span ← finish start; mret (Stmt_Break span))
  | Keyword.Goto => Some goto_statement
  | Keyword.Local => Some local_statement
  | Keyword.Global => Some global_statement
  | _ => None
  end.

(** The tests of the source are on one token and exclude each other. *)
Definition statement : ParseM Stmt :=
  reserve_node;;
  t ← current;
  match kind t with
  | TokenKind.Symbol Symbol.DoubleColon => advance;; label_statement (span t)
  | TokenKind.Symbol Symbol.Semicolon => advance;; mret (Stmt_Empty (span t))
  | TokenKind.Keyword k =>
      match keyword_statement k with
      | Some parse => advance;; parse (span t)
      | None => assignment_or_call (span t)
      end
  | _ => assignment_or_call (span t)
  end.

(** [while !self.eof() && !ended(current) { .. }]: the statements of a block. *)
Definition statements_until (ended : Token -> bool) : ParseM (list Stmt) :=
  rounds (fun statements =>
    t ← current;
    if is_kind TokenKind.Eof t || ended t then mret (inr statements) else
    count_statement;;
    s ← statement;
    (if is_return s then
       take_symbol Symbol.Semicolon;;
       t ← current;
       if is_kind TokenKind.Eof t || ended t then mret tt else error "return 必須為 block 最後陳述式"
     else mret tt);;
    mret (inl (statements ++ [s]))) [].

Definition block_body (terminators : list Keyword.Keyword) : ParseM Block :=
  reserve_node;;
  enter;;
  t ← current;
  statements ← statements_until (fun t => existsb (fun k => is_keyword k t) terminators);
  at_end ← eof;
  if at_end : bool then error "缺少 block 結束關鍵字" else
  leave;;
  t' ← current;
  mret (Block_ statements (Some (span t')) (join (span t) (span t'))).

End Calls.

(** ** The knot

    Every call of [expr] or [block_until] is one deeper, and no deeper than
    [max_parse_depth]. *)
Fixpoint calls (fuel : nat) : (Z -> ParseM Expr) * (list Keyword.Keyword -> ParseM Block) :=
  match fuel with
  | O => (fun _ => crash_with OutOfFuel, fun _ => crash_with OutOfFuel)
  | S fuel =>
      let inner := calls fuel in
      (expr_body inner.1 inner.2, block_body inner.1 inner.2)
  end.

Definition call_fuel : nat := S (Z.to_nat (max_parse_depth limits)).
Definition expr : Z -> ParseM Expr := (calls call_fuel).1.
Definition block_until : list Keyword.Keyword -> ParseM Block := (calls call_fuel).2.

(** [Parser::module]. *)
Definition module (source_len : Z) : ParseM Module_ :=
  reserve_node;;
  statements ← statements_until expr block_until (fun _ => false);
  reserve_node;;
  let all := {| span_start := 0; span_end := source_len |} in
  mret {| mod_profile := profile; mod_span := all; root := Block_ statements None all |}.

End Parsing.

Definition parse_with_metrics (chunk : LexedChunk) (expected_profile : LuaProfile)
    (limits : CompileLimits) : res Diagnostic (Module_ * Z) :=
  match ch_tokens chunk with
  | [] => Err (diagnostic None Parse "token 串流缺少 EOF")
  | first :: _ =>
      if negb (bool_decide (ch_profile chunk = expected_profile))
      then Err (diagnostic (Some first) Parse "語言 profile 不符")
      else
        match module (ch_tokens chunk) limits expected_profile (source_len chunk)
                {| ps_index := 0; ps_nodes := 0; ps_depth := 0; ps_statements := 0 |} with
        | (Ok m, s) => Ok (m, ps_nodes s)
        | (Err e, _) => Err e
        | (Crash k, _) => Crash k
        end
  end.

Definition parse (chunk : LexedChunk) (expected_profile : LuaProfile) (limits : CompileLimits)
    : res Diagnostic Module_ :=
  m ← parse_with_metrics chunk expected_profile limits; mret m.1.
