(* ===== verification/ParserGrammar.v ===== *)
(** The grammar of the language over a list of tokens: which stretches of the
    tokens are an expression, a statement or a block, and the tree they stand
    for, with the operator precedences of the reference manual. A phrase is a
    pair of indices, the first token and the token after the last. *)

From Stdlib Require Import ZArith Lia.
From stdpp Require Import base list numbers strings.
From S2P Require Import Prelude Float Number Lexer Ast Parser.

Local Open Scope Z_scope.

(** ** Operators *)

Definition op_token (op : BinaryOp.BinaryOp) : TokenKind.TokenKind :=
  match op with
  | BinaryOp.Or => TokenKind.Keyword Keyword.Or
  | BinaryOp.And => TokenKind.Keyword Keyword.And
  | BinaryOp.Equal => TokenKind.Symbol Symbol.EqualEqual
  | BinaryOp.NotEqual => TokenKind.Symbol Symbol.NotEqual
  | BinaryOp.Less => TokenKind.Symbol Symbol.Less
  | BinaryOp.LessEqual => TokenKind.Symbol Symbol.LessEqual
  | BinaryOp.Greater => TokenKind.Symbol Symbol.Greater
  | BinaryOp.GreaterEqual => TokenKind.Symbol Symbol.GreaterEqual
  | BinaryOp.Pipe => TokenKind.Symbol Symbol.Pipe
  | BinaryOp.BitXor => TokenKind.Symbol Symbol.Tilde
  | BinaryOp.Ampersand => TokenKind.Symbol Symbol.Ampersand
  | BinaryOp.ShiftLeft => TokenKind.Symbol Symbol.ShiftLeft
  | BinaryOp.ShiftRight => TokenKind.Symbol Symbol.ShiftRight
  | BinaryOp.Concat => TokenKind.Symbol Symbol.Concat
  | BinaryOp.Add => TokenKind.Symbol Symbol.Plus
  | BinaryOp.Subtract => TokenKind.Symbol Symbol.Minus
  | BinaryOp.Multiply => TokenKind.Symbol Symbol.Star
  | BinaryOp.Divide => TokenKind.Symbol Symbol.Slash
  | BinaryOp.FloorDivide => TokenKind.Symbol Symbol.FloorSlash
  | BinaryOp.Modulo => TokenKind.Symbol Symbol.Percent
  | BinaryOp.Power => TokenKind.Symbol Symbol.Caret
  end.

(** The levels of the manual, lowest first: or, and, comparison, |, ~, &, shift,
    .., + -, * / // %, unary operators (12), ^. *)
Definition op_level (op : BinaryOp.BinaryOp) : Z :=
  match op with
  | BinaryOp.Or => 1
  | BinaryOp.And => 2
  | BinaryOp.Equal | BinaryOp.NotEqual | BinaryOp.Less | BinaryOp.LessEqual
  | BinaryOp.Greater | BinaryOp.GreaterEqual => 3
  | BinaryOp.Pipe => 4
  | BinaryOp.BitXor => 5
  | BinaryOp.Ampersand => 6
  | BinaryOp.ShiftLeft | BinaryOp.ShiftRight => 7
  | BinaryOp.Concat => 8
  | BinaryOp.Add | BinaryOp.Subtract => 9
  | BinaryOp.Multiply | BinaryOp.Divide | BinaryOp.FloorDivide | BinaryOp.Modulo => 10
  | BinaryOp.Power => 13
  end.

Definition right_assoc (op : BinaryOp.BinaryOp) : bool :=
  match op with BinaryOp.Concat | BinaryOp.Power => true | _ => false end.

Definition unary_level : Z := 12.
Definition operand_level : Z := 14.

Definition unary_operator (k : TokenKind.TokenKind) : option UnaryOp :=
  match k with
  | TokenKind.Symbol Symbol.Minus => Some Negate
  | TokenKind.Keyword Keyword.Not => Some Not
  | TokenKind.Symbol Symbol.Hash => Some Length
  | TokenKind.Symbol Symbol.Tilde => Some BitNot
  | _ => None
  end.

(** How tightly an expression holds together on the right of an operator, where
    a unary operator begins it, and on the left, where its operand is open. *)
Definition right_level (e : Expr) : Z :=
  match e with Expr_Binary op _ _ _ => op_level op | _ => operand_level end.
Definition left_level (e : Expr) : Z :=
  match e with
  | Expr_Binary op _ _ _ => op_level op
  | Expr_Unary _ _ _ => unary_level
  | _ => operand_level
  end.

Definition left_ok (op : BinaryOp.BinaryOp) (l : Expr) : Prop :=
  if right_assoc op then op_level op < left_level l else op_level op <= left_level l.
Definition right_ok (op : BinaryOp.BinaryOp) (r : Expr) : Prop :=
  if right_assoc op then op_level op <= right_level r else op_level op < right_level r.

Lemma binary_operator_token k op prec to_right :
  binary_operator k = Some (op, prec, to_right) ->
  k = op_token op /\ prec = op_level op /\ to_right = right_assoc op.
Proof. destruct k as [| [] | | | | | []]; cbn; intros [=]; subst; done. Qed.

Lemma op_token_operator op : binary_operator (op_token op) = Some (op, op_level op, right_assoc op).
Proof. by destruct op. Qed.

Lemma op_level_assoc op op' : op_level op = op_level op' -> right_assoc op = right_assoc op'.
Proof. by destruct op, op'. Qed.

(** ** Phrases *)

Section Grammar.
Context (tokens : list Token) (limits : CompileLimits) (profile : LuaProfile).

Definition kind_at (i : Z) : option TokenKind.TokenKind := kind <$> zget tokens i.
Definition sym (i : Z) (s : Symbol.Symbol) : Prop := kind_at i = Some (TokenKind.Symbol s).
Definition key (i : Z) (k : Keyword.Keyword) : Prop := kind_at i = Some (TokenKind.Keyword k).
Definition name_at (i : Z) (n : list Z) : Prop :=
  exists t, zget tokens i = Some t /\ kind t = TokenKind.Name /\ literal t = Some (Literal.Name n).

Definition tok_span (i : Z) : Span :=
  match zget tokens i with Some t => span t | None => {| span_start := 0; span_end := 0 |} end.

(** The source text of the tokens from [i] up to [j]. *)
Definition text (i j : Z) : Span :=
  {| span_start := span_start (tok_span i); span_end := span_end (tok_span (j - 1)) |}.

(** No operator of level at least [min] follows. *)
Definition stops (min j : Z) : Prop :=
  forall op, kind_at j = Some (op_token op) -> op_level op < min.

(** One or more phrases, with a token between them. *)
Inductive sep_by {A} (G : Z -> Z -> A -> Prop) (sep : TokenKind.TokenKind) : Z -> Z -> list A -> Prop :=
  | sep_one i j x : G i j x -> sep_by G sep i j [x]
  | sep_snoc i k j xs x :
      sep_by G sep i k xs -> kind_at k = Some sep -> G (k + 1) j x -> sep_by G sep i j (xs ++ [x]).

(** Any number of phrases in a row. *)
Inductive star {A} (G : Z -> Z -> A -> Prop) : Z -> Z -> list A -> Prop :=
  | star_nil i : star G i i []
  | star_snoc i k j xs x : star G i k xs -> G k j x -> star G i j (xs ++ [x]).

(** *** Names, attributes and parameters *)

Definition plain_name (i : Z) (n : LocalName) : Prop :=
  name_at i (ln_name n) /\ ln_attribute n = None /\ ln_span n = tok_span i.

Definition attribute_of (i j : Z) (a : Attribute) : Prop :=
  name_at i (attr_name a) /\ sym (i + 1) Symbol.Greater /\ j = i + 2 /\ attr_span a = text i j.

(** An attribute in angle brackets, or nothing and a default. *)
Definition optional_attribute_of (otherwise : option Attribute) (i j : Z) (a : option Attribute) : Prop :=
  (exists a', sym i Symbol.Less /\ attribute_of (i + 1) j a' /\ a = Some a') \/
  (~ sym i Symbol.Less /\ j = i /\ a = otherwise).

Definition local_name_of (prefix : option Attribute) (i j : Z) (n : LocalName) : Prop :=
  name_at i (ln_name n) /\ optional_attribute_of prefix (i + 1) j (ln_attribute n) /\ ln_span n = text i j.

Definition global_name_of (i j : Z) (n : LocalName) : Prop :=
  name_at i (ln_name n) /\ optional_attribute_of None (i + 1) j (ln_attribute n) /\ ln_span n = tok_span i.

(** Lua 5.5: an attribute before the names of a [local], [const] or [close]. *)
Definition local_prefix_of (i j : Z) (a : option Attribute) : Prop :=
  (exists a', profile = Lua55 /\ sym i Symbol.Less /\ attribute_of (i + 1) j a' /\ a = Some a' /\
     (attr_name a' = bytes_of_string "const" \/ attr_name a' = bytes_of_string "close")) \/
  (~ (profile = Lua55 /\ sym i Symbol.Less) /\ j = i /\ a = None).

(** Three dots and, in Lua 5.5, the name of their table. *)
Definition vararg_of (i j : Z) (v : Vararg) : Prop :=
  sym i Symbol.Vararg /\ vararg_span v = tok_span i /\
  match table_name v with
  | Some n => named_vararg_rule (rules profile) = true /\ plain_name (i + 1) n /\ j = i + 2
  | None => kind_at (i + 1) <> Some TokenKind.Name /\ j = i + 1
  end.

Definition parameter_comma (i j : Z) (n : LocalName) : Prop :=
  plain_name i n /\ sym (i + 1) Symbol.Comma /\ j = i + 2.

(** What stands between the parentheses of a function, up to the closing one. *)
Inductive parameters_of : Z -> Z -> list LocalName * option Vararg -> Prop :=
  | parameters_commas i j ps : star parameter_comma i j ps -> parameters_of i j (ps, None)
  | parameters_last i j ps p :
      star parameter_comma i j ps -> plain_name j p -> parameters_of i (j + 1) (ps ++ [p], None)
  | parameters_vararg i k j ps v :
      star parameter_comma i k ps -> vararg_of k j v -> parameters_of i j (ps, Some v).

Inductive dotted_name : Z -> Z -> Expr -> Prop :=
  | dotted_one i n : name_at i n -> dotted_name i (i + 1) (Expr_Name n (text i (i + 1)))
  | dotted_snoc i j e n :
      dotted_name i j e -> sym j Symbol.Dot -> name_at (j + 1) n ->
      dotted_name i (j + 2) (Expr_Field e n (text i (j + 2))).

Inductive function_name_of : Z -> Z -> Expr * option MethodName -> Prop :=
  | function_name_plain i j e : dotted_name i j e -> function_name_of i j (e, None)
  | function_name_method i j e n :
      dotted_name i j e -> sym j Symbol.Colon -> name_at (j + 1) n ->
      function_name_of i (j + 2)
        (Expr_Field e n (text i (j + 2)),
         Some {| mn_name := n; mn_colon_span := tok_span j; mn_span := tok_span (j + 1) |}).

(** *** Lists *)

(** A list of expressions within the limit. *)
Definition listed {A} (l : list A) : Prop := zlen l <= Z.max 1 (max_list_entries limits).

(** The right of an assignment: a list, or nothing at the end of the input. *)
Inductive values_of (G : Z -> Z -> Expr -> Prop) : Z -> Z -> list Expr -> Prop :=
  | values_list i j es : sep_by G (TokenKind.Symbol Symbol.Comma) i j es -> listed es -> values_of G i j es
  | values_at_end i : kind_at i = Some TokenKind.Eof -> values_of G i i [].

(** [= values], or nothing. *)
Inductive optional_values_of (G : Z -> Z -> Expr -> Prop) : Z -> Z -> list Expr -> Prop :=
  | values_some i j es : sym i Symbol.Assign -> values_of G (i + 1) j es -> optional_values_of G i j es
  | values_none i : ~ sym i Symbol.Assign -> optional_values_of G i i [].

(** The fields of a table, each with its separator but perhaps the last. *)
Definition separated (G : Z -> Z -> TableField -> Prop) (i j : Z) (f : TableField) : Prop :=
  exists k f', G i k f' /\ j = k + 1 /\
    ((sym k Symbol.Comma /\ f = set_separator f' FieldComma) \/
     (sym k Symbol.Semicolon /\ f = set_separator f' FieldSemicolon)).

Inductive fields_of (G : Z -> Z -> TableField -> Prop) : Z -> Z -> list TableField -> Prop :=
  | fields_separated i j fs : star (separated G) i j fs -> fields_of G i j fs
  | fields_last i k j fs f : star (separated G) i k fs -> G k j f -> fields_of G i j (fs ++ [f]).

(** A return is the last statement, and a semicolon may follow it. *)
Definition after_statement (s : Stmt) (k j : Z) : Prop :=
  if is_return s then (sym k Symbol.Semicolon /\ j = k + 1) \/ (~ sym k Symbol.Semicolon /\ j = k)
  else j = k.

Inductive statements_of (G : Z -> Z -> Stmt -> Prop) : Z -> Z -> list Stmt -> Prop :=
  | statements_nil i : statements_of G i i []
  | statements_snoc i k m j ss s :
      statements_of G i k ss -> existsb is_return ss = false -> G k m s -> after_statement s m j ->
      statements_of G i j (ss ++ [s]).

(** *** Expressions, statements and blocks *)

Definition is_literal_kind (k : TokenKind.TokenKind) : Prop :=
  k = TokenKind.Integer \/ k = TokenKind.Float \/ k = TokenKind.String.

Abbreviation comma := (TokenKind.Symbol Symbol.Comma).
Abbreviation elseif := (TokenKind.Keyword Keyword.ElseIf).
Abbreviation clause_ends := [Keyword.ElseIf; Keyword.Else; Keyword.End].

Inductive expr_of : Z -> Z -> Expr -> Prop :=
  | literal_of i t l :
      zget tokens i = Some t -> is_literal_kind (kind t) -> literal t = Some l ->
      expr_of i (i + 1) (Expr_Literal l (text i (i + 1)))
  | nil_of i : key i Keyword.Nil -> expr_of i (i + 1) (Expr_Nil (text i (i + 1)))
  | true_of i : key i Keyword.True -> expr_of i (i + 1) (Expr_Bool true (text i (i + 1)))
  | false_of i : key i Keyword.False -> expr_of i (i + 1) (Expr_Bool false (text i (i + 1)))
  | name_of i n : name_at i n -> expr_of i (i + 1) (Expr_Name n (text i (i + 1)))
  | dots_of i : sym i Symbol.Vararg -> expr_of i (i + 1) (Expr_Vararg (text i (i + 1)))
  | unary_of i j k op e :
      kind_at i = Some k -> unary_operator k = Some op -> expr_of (i + 1) j e ->
      unary_level <= right_level e -> expr_of i j (Expr_Unary op e (text i j))
  | binary_of i k j op l r :
      expr_of i k l -> kind_at k = Some (op_token op) -> expr_of (k + 1) j r ->
      left_ok op l -> right_ok op r -> expr_of i j (Expr_Binary op l r (text i j))
  | paren_of i j e :
      sym i Symbol.OpenParen -> expr_of (i + 1) j e -> sym j Symbol.CloseParen ->
      expr_of i (j + 1) (Expr_Paren e (text i (j + 1)))
  | index_of i k j e x :
      expr_of i k e -> is_prefix_expr e = true -> sym k Symbol.OpenBracket -> expr_of (k + 1) j x ->
      sym j Symbol.CloseBracket -> expr_of i (j + 1) (Expr_Index e x (text i (j + 1)))
  | field_of i k e n :
      expr_of i k e -> is_prefix_expr e = true -> sym k Symbol.Dot -> name_at (k + 1) n ->
      expr_of i (k + 2) (Expr_Field e n (text i (k + 2)))
  | call_of i k j e es :
      expr_of i k e -> is_prefix_expr e = true -> arguments_of k j es ->
      expr_of i j (Expr_Call e es (text i j))
  | method_of i k j e n es :
      expr_of i k e -> is_prefix_expr e = true -> sym k Symbol.Colon -> name_at (k + 1) n ->
      arguments_of (k + 2) j es -> expr_of i j (Expr_MethodCall e n es (text i j))
  | function_of i j f :
      key i Keyword.Function -> body_of i (i + 1) j f -> expr_of i j (Expr_Function f (text i j))
  | table_of i j fs :
      sym i Symbol.OpenBrace -> fields_of table_field_of (i + 1) j fs -> zlen fs <= Z.max 0 (max_list_entries limits) ->
      sym j Symbol.CloseBrace -> expr_of i (j + 1) (Expr_TableConstructor fs (text i (j + 1)))

with table_field_of : Z -> Z -> TableField -> Prop :=
  | indexed_of i k j x v :
      sym i Symbol.OpenBracket -> expr_of (i + 1) k x -> sym k Symbol.CloseBracket ->
      sym (k + 1) Symbol.Assign -> expr_of (k + 2) j v ->
      table_field_of i j (Field_Indexed x v None (text i j))
  | named_of i j n v :
      name_at i n -> sym (i + 1) Symbol.Assign -> expr_of (i + 2) j v ->
      table_field_of i j (Field_Named n v None (text i j))
  | array_of i j v :
      ~ sym i Symbol.OpenBracket ->
      ~ (kind_at i = Some TokenKind.Name /\ sym (i + 1) Symbol.Assign) -> expr_of i j v ->
      table_field_of i j (Field_Array v None (text i j))

with arguments_of : Z -> Z -> list Expr -> Prop :=
  | arguments_none i :
      sym i Symbol.OpenParen -> sym (i + 1) Symbol.CloseParen -> arguments_of i (i + 2) []
  | arguments_list i j es :
      sym i Symbol.OpenParen -> sep_by expr_of comma (i + 1) j es -> listed es ->
      sym j Symbol.CloseParen -> arguments_of i (j + 1) es
  | arguments_string i e :
      kind_at i = Some TokenKind.String -> expr_of i (i + 1) e -> arguments_of i (i + 1) [e]
  | arguments_table i j fs sp :
      sym i Symbol.OpenBrace -> expr_of i j (Expr_TableConstructor fs sp) ->
      arguments_of i j [Expr_TableConstructor fs sp]

(** A function from its parameters on; its span begins at the token [start]. *)
with body_of : Z -> Z -> Z -> FunctionBody -> Prop :=
  | body_of_ start i k j ps v b :
      sym i Symbol.OpenParen -> parameters_of (i + 1) k (ps, v) ->
      zlen ps <= Z.max 0 (max_parameters limits) -> sym k Symbol.CloseParen ->
      block_of [Keyword.End] (k + 1) j b -> key j Keyword.End ->
      body_of start i (j + 1) (FunctionBody_ ps v b (text start (j + 1)))

(** A block up to the keyword that ends it. *)
with block_of : list Keyword.Keyword -> Z -> Z -> Block -> Prop :=
  | block_of_ ends i j k ss :
      statements_of stmt_of i j ss -> key j k -> k ∈ ends ->
      block_of ends i j (Block_ ss (Some (tok_span j)) (text i (j + 1)))

with clause_of : Z -> Z -> Expr * Block -> Prop :=
  | clause_of_ i k j e b :
      expr_of i k e -> key k Keyword.Then -> block_of clause_ends (k + 1) j b -> clause_of i j (e, b)

with else_of : Z -> Z -> option Block -> Prop :=
  | else_some i j b : key i Keyword.Else -> block_of [Keyword.End] (i + 1) j b -> else_of i j (Some b)
  | else_none i : ~ key i Keyword.Else -> else_of i i None

(** The step of a numeric [for]. *)
with step_of : Z -> Z -> option Expr -> Prop :=
  | step_some i j e : sym i Symbol.Comma -> expr_of (i + 1) j e -> step_of i j (Some e)
  | step_none i : ~ sym i Symbol.Comma -> step_of i i None

with stmt_of : Z -> Z -> Stmt -> Prop :=
  | empty_of i : sym i Symbol.Semicolon -> stmt_of i (i + 1) (Stmt_Empty (text i (i + 1)))
  | label_of i n :
      sym i Symbol.DoubleColon -> name_at (i + 1) n -> sym (i + 2) Symbol.DoubleColon ->
      stmt_of i (i + 3) (Stmt_Label n (tok_span (i + 1)) (text i (i + 3)))
  | break_of i : key i Keyword.Break -> stmt_of i (i + 1) (Stmt_Break (text i (i + 1)))
  | goto_of i n :
      key i Keyword.Goto -> name_at (i + 1) n ->
      stmt_of i (i + 2) (Stmt_Goto n (tok_span (i + 1)) (text i (i + 2)))
  | do_of i j b :
      key i Keyword.Do -> block_of [Keyword.End] (i + 1) j b -> key j Keyword.End ->
      stmt_of i (j + 1) (Stmt_Do b (text i (j + 1)))
  | while_of i k j e b :
      key i Keyword.While -> expr_of (i + 1) k e -> key k Keyword.Do ->
      block_of [Keyword.End] (k + 1) j b -> key j Keyword.End ->
      stmt_of i (j + 1) (Stmt_While e b (text i (j + 1)))
  | repeat_of i k j e b :
      key i Keyword.Repeat -> block_of [Keyword.Until] (i + 1) k b -> key k Keyword.Until ->
      expr_of (k + 1) j e -> stmt_of i j (Stmt_Repeat b e (text i j))
  | if_of i k j cs o :
      key i Keyword.If -> sep_by clause_of elseif (i + 1) k cs -> listed cs -> else_of k j o ->
      key j Keyword.End -> stmt_of i (j + 1) (Stmt_If cs o (text i (j + 1)))
  | numeric_for_of i k1 k2 k3 j n a l o b :
      key i Keyword.For -> plain_name (i + 1) n -> sym (i + 2) Symbol.Assign ->
      expr_of (i + 3) k1 a -> sym k1 Symbol.Comma -> expr_of (k1 + 1) k2 l ->
      step_of k2 k3 o -> key k3 Keyword.Do -> block_of [Keyword.End] (k3 + 1) j b ->
      key j Keyword.End -> stmt_of i (j + 1) (Stmt_NumericFor n a l o b (text i (j + 1)))
  | generic_for_of i k1 k2 j ns es b :
      key i Keyword.For -> sep_by (fun i j n => plain_name i n /\ j = i + 1) comma (i + 1) k1 ns ->
      listed ns -> ~ sym (i + 2) Symbol.Assign -> key k1 Keyword.In ->
      sep_by expr_of comma (k1 + 1) k2 es -> listed es -> key k2 Keyword.Do ->
      block_of [Keyword.End] (k2 + 1) j b -> key j Keyword.End ->
      stmt_of i (j + 1) (Stmt_GenericFor ns es b (text i (j + 1)))
  | function_stmt_of i k j e m f :
      key i Keyword.Function -> function_name_of (i + 1) k (e, m) -> body_of i k j f ->
      stmt_of i j (Stmt_Function e m f (text i j))
  | local_function_of i j n f :
      key i Keyword.Local -> key (i + 1) Keyword.Function -> plain_name (i + 2) n ->
      body_of i (i + 3) j f -> stmt_of i j (Stmt_LocalFunction n f (text i j))
  | local_of i k1 k2 j prefix ns es :
      key i Keyword.Local -> ~ key (i + 1) Keyword.Function -> local_prefix_of (i + 1) k1 prefix ->
      sep_by (local_name_of prefix) comma k1 k2 ns -> listed ns ->
      optional_values_of expr_of k2 j es -> stmt_of i j (Stmt_Local ns es (text i j))
  | global_star_of i j prefix :
      key i Keyword.Global -> optional_attribute_of None (i + 1) j prefix -> sym j Symbol.Star ->
      stmt_of i (j + 1) (Stmt_Global (Global_Star prefix (text i (j + 1))) (text i (j + 1)))
  | global_function_of i j n f :
      key i Keyword.Global -> key (i + 1) Keyword.Function -> name_at (i + 2) n ->
      body_of i (i + 3) j f ->
      stmt_of i j (Stmt_Global (Global_Function n f (text i j)) (text i j))
  | global_of i k1 k2 j prefix ns es :
      key i Keyword.Global -> optional_attribute_of None (i + 1) k1 prefix ->
      ~ sym k1 Symbol.Star -> ~ key k1 Keyword.Function ->
      sep_by global_name_of comma k1 k2 ns -> listed ns -> optional_values_of expr_of k2 j es ->
      stmt_of i j (Stmt_Global (Global_Names ns es prefix (text i j)) (text i j))
  | return_none_of i :
      key i Keyword.Return -> stmt_of i (i + 1) (Stmt_Return [] (text i (i + 1)))
  | return_of i j es :
      key i Keyword.Return -> sep_by expr_of comma (i + 1) j es -> listed es ->
      too_many_returns profile es = false -> stmt_of i j (Stmt_Return es (text i j))
  | assignment_of i k j ts es :
      sep_by expr_of comma i k ts -> listed ts -> forallb is_assignable ts = true ->
      sym k Symbol.Assign -> values_of expr_of (k + 1) j es ->
      stmt_of i j (Stmt_Assignment ts es (text i j))
  | call_stmt_of i j e :
      expr_of i j e -> is_call e = true -> stmt_of i j (Stmt_Call e (text i j)).

(** A whole chunk: everything up to the end of the input. *)
Definition chunk_of (ss : list Stmt) : Prop := statements_of stmt_of 0 (zlen tokens - 1) ss.

(** ** The span of a phrase *)

Lemma text_one i : text i (i + 1) = tok_span i.
Proof. unfold text. replace (i + 1 - 1) with i by lia. by destruct (tok_span i). Qed.

Lemma join_text i k k' j : join (text i k) (text k' j) = text i j.
Proof. done. Qed.

Lemma expr_of_span i j e : expr_of i j e -> expr_span e = text i j.
Proof. by destruct 1. Qed.

Lemma sep_by_not_nil {A} (G : Z -> Z -> A -> Prop) sep i j : ~ sep_by G sep i j [].
Proof. intros H. remember [] as xs. destruct H as [| ? ? ? xs ? ? ?]; [done | by destruct xs]. Qed.

Lemma sep_by_single {A} (G : Z -> Z -> A -> Prop) sep i j x : sep_by G sep i j [x] -> G i j x.
Proof.
  intros H. remember [x] as l eqn:Hl. destruct H as [i j y Hy | i k j xs y Hxs _ _]; [by injection Hl as -> |].
  destruct xs as [| ? xs]; [by apply sep_by_not_nil in Hxs | by destruct xs].
Qed.

End Grammar.
