(* ===== verification/ParserSpec.v ===== *)
(** The parser against the grammar: every parsing function, run in front of any
    tokens of the lexer, reads a phrase of the grammar and has reserved at least
    as many nodes as its tree has, or fails with a diagnostic at a token. *)

From Stdlib Require Import ZArith Lia.
From stdpp Require Import base list numbers strings.
From S2P Require Import Prelude Float Number Lexer Ast Parser ParserGrammar.

Local Open Scope Z_scope.

(** What the parser relies on of the lexer: the last token, and no other, is the
    end of the input, and names and literals have their values. *)
Record tokens_ok (tokens : list Token) : Prop := {
  to_last : kind <$> zget tokens (zlen tokens - 1) = Some TokenKind.Eof;
  to_eof : forall i t, zget tokens i = Some t -> kind t = TokenKind.Eof -> i = zlen tokens - 1;
  to_name : forall i t, zget tokens i = Some t -> kind t = TokenKind.Name ->
    exists n, literal t = Some (Literal.Name n);
  to_literal : forall i t, zget tokens i = Some t -> is_literal_kind (kind t) -> is_Some (literal t)
}.

(** The counters stay below the limits, so they do not overflow. *)
Record limits_ok (limits : CompileLimits) : Prop := {
  lo_nodes : max_ast_nodes limits < USIZE_MAX;
  lo_depth : max_parse_depth limits < USIZE_MAX;
  lo_statements : max_statements limits < USIZE_MAX
}.

Section Reading.
#[local] Set Default Proof Using "Type*".
Context (tokens : list Token) (limits : CompileLimits) (profile : LuaProfile).
Context (Htok : tokens_ok tokens) (Hlim : limits_ok limits).

Abbreviation kind_at := (kind_at tokens).
Abbreviation sym := (sym tokens).
Abbreviation key := (key tokens).
Abbreviation name_at := (name_at tokens).
Abbreviation text := (text tokens).
Abbreviation tok_span := (tok_span tokens).

(** In front of token [i], at depth [d], with at least [c] nodes reserved. *)
Record At (i c d : Z) (s : Parser) : Prop := {
  at_index : ps_index s = i;
  at_range : 0 <= i < zlen tokens;
  at_depth : ps_depth s = d;
  at_nodes : 0 <= c <= ps_nodes s /\ ps_nodes s <= Z.max 0 (max_ast_nodes limits);
  at_depths : 0 <= d <= Z.max 0 (max_parse_depth limits);
  at_statements : 0 <= ps_statements s <= Z.max 0 (max_statements limits)
}.

Definition diagnostic_ok (d : Diagnostic) : Prop :=
  (d_code d = Parse \/ d_code d = CompileLimit) /\
  exists t, t ∈ tokens /\ d_span d = span t /\ d_start d = start t /\ d_end d = stop t.
Abbreviation failing := (fun (d : Diagnostic) (_ : Parser) => diagnostic_ok d).

(** [reads i c d m d' P]: run in front of token [i], [m] does not crash; if it
    succeeds it is in front of a token [j], at depth [d'], [P] holds of the
    result, [j] and a number of reserved nodes; if it fails, the diagnostic is
    at a token. *)
Definition reads {A} (i c d : Z) (m : ParseM A) (d' : Z) (P : A -> Z -> Z -> Prop) : Prop :=
  forall s, At i c d s -> spec m s (fun a s' => exists j c', P a j c' /\ At j c' d' s') failing.


Lemma reads_ret {A} i c d (a : A) P : P a i c -> reads i c d (mret a) d P.
Proof. intros HP s Hs. apply spec_ret. by exists i, c. Qed.

Lemma reads_bind {A B} i c d (m : ParseM B) (f : B -> ParseM A) d1 d2 P' P :
  reads i c d m d1 P' ->
  (forall b j c', P' b j c' -> reads j c' d1 (f b) d2 P) ->
  reads i c d (m ≫= f) d2 P.
Proof.
  intros Hm Hf s Hs. apply spec_bind. eapply spec_weaken; [by apply Hm | | done].
  intros b s' (j & c' & HP & Hs'). by eapply Hf.
Qed.

Lemma reads_weaken {A} i c d (m : ParseM A) d' P' P :
  reads i c d m d' P' -> (forall a j c', P' a j c' -> P a j c') -> reads i c d m d' P.
Proof.
  intros Hm HP s Hs. eapply spec_weaken; [by apply Hm | | done]. intros a s' (j & c' & ? & ?). eauto.
Qed.

Lemma at_less i c c' d s : At i c d s -> 0 <= c' <= c -> At i c' d s.
Proof. intros [] ?. split; try done. lia. Qed.

Lemma reads_less {A} i c c' d (m : ParseM A) d' P : 0 <= c' <= c -> reads i c' d m d' P -> reads i c d m d' P.
Proof. intros Hc Hm s Hs. apply Hm. by eapply at_less. Qed.

(** What is known of a position from being there. *)
Lemma reads_range {A} i c d (m : ParseM A) d' P :
  (0 <= i < zlen tokens -> 0 <= c -> 0 <= d <= Z.max 0 (max_parse_depth limits) -> reads i c d m d' P) ->
  reads i c d m d' P.
Proof. intros H s Hs. apply H; destruct Hs; try done. lia. Qed.

Lemma reads_fail {A} i c d e d' P : diagnostic_ok e -> reads (A := A) i c d (fail e) d' P.
Proof. intros He s _. by apply spec_fail. Qed.

Lemma tok_span_get i t : zget tokens i = Some t -> tok_span i = span t.
Proof. unfold ParserGrammar.tok_span. by intros ->. Qed.

Lemma kind_at_get i t : zget tokens i = Some t -> kind_at i = Some (kind t).
Proof. unfold ParserGrammar.kind_at. by intros ->. Qed.

(** *** The primitive operations *)

Lemma current_at i c d s :
  At i c d s -> exists t, zget tokens i = Some t /\ current tokens s = (Ok t, s).
Proof.
  intros Hs. destruct (at_range _ _ _ _ Hs) as [? ?]. destruct (zget_is_Some tokens i) as [t Ht]; [done |].
  exists t. split; [done |]. unfold current, lift, vget. rewrite (at_index _ _ _ _ Hs).
  replace (Z.min i (Z.max 0 (zlen tokens - 1))) with i by lia. by rewrite Ht.
Qed.

Lemma reads_current {A} i c d (f : Token -> ParseM A) d' P :
  (forall t, zget tokens i = Some t -> reads i c d (f t) d' P) ->
  reads i c d (current tokens ≫= f) d' P.
Proof.
  intros Hf s Hs. destruct (current_at _ _ _ _ Hs) as (t & Ht & Hc). unfold spec, mbind, st_bind. rewrite Hc.
  by apply Hf.
Qed.

Lemma reads_previous {A} i c d (f : Token -> ParseM A) d' P :
  1 <= i -> (forall t, zget tokens (i - 1) = Some t -> reads i c d (f t) d' P) ->
  reads i c d (previous tokens ≫= f) d' P.
Proof.
  intros Hi Hf s Hs. destruct (at_range _ _ _ _ Hs) as [? ?].
  destruct (zget_is_Some tokens (i - 1)) as [t Ht]; [lia |].
  unfold spec, mbind, st_bind, previous, lift, vget. rewrite (at_index _ _ _ _ Hs).
  replace (Z.max 0 (i - 1)) with (i - 1) by lia. rewrite Ht. by apply Hf.
Qed.

Lemma diagnostic_at_token i t code message :
  zget tokens i = Some t -> code = Parse \/ code = CompileLimit ->
  diagnostic_ok (diagnostic (Some t) code message).
Proof.
  intros Ht Hc. split; [done |]. exists t. split; [| done].
  apply zget_Some in Ht as [_ Ht]. by eapply list_elem_of_lookup_2.
Qed.

Lemma reads_error {A} i c d message d' P : reads (A := A) i c d (error tokens message) d' P.
Proof.
  unfold error. apply reads_current. intros t Ht. apply reads_fail. eapply diagnostic_at_token; [done | by left].
Qed.

Lemma reads_limit {A} i c d message d' P : reads (A := A) i c d (limit tokens message) d' P.
Proof.
  unfold limit. apply reads_current. intros t Ht. apply reads_fail. eapply diagnostic_at_token; [done | by right].
Qed.

(** [if b { return Err(..); }] *)
Lemma reads_guard {A} i c d (b : bool) (m : ParseM unit) (f : unit -> ParseM A) d' P :
  (forall P', reads i c d m d P') -> (b = false -> reads i c d (f tt) d' P) ->
  reads i c d ((if b then m else mret tt) ≫= f) d' P.
Proof.
  intros Hm Hf. destruct b.
  - by apply reads_bind with (d1 := d) (P' := fun _ _ _ => False).
  - eapply reads_bind with (d1 := d) (P' := fun _ j c' => j = i /\ c' = c); [by apply reads_ret |].
    intros [] ? ? [-> ->]. by apply Hf.
Qed.

Lemma is_kind_true k t : is_kind k t = true <-> kind t = k.
Proof. apply bool_decide_eq_true. Qed.
Lemma is_kind_false k t : is_kind k t = false <-> kind t <> k.
Proof. apply bool_decide_eq_false. Qed.

Lemma reads_eof {A} i c d (f : bool -> ParseM A) d' P :
  (kind_at i = Some TokenKind.Eof -> i = zlen tokens - 1 -> reads i c d (f true) d' P) ->
  (kind_at i <> Some TokenKind.Eof -> i < zlen tokens - 1 -> reads i c d (f false) d' P) ->
  reads i c d (eof tokens ≫= f) d' P.
Proof.
  intros Ht Hf s Hs. destruct (current_at _ _ _ _ Hs) as (t & Hget & Hc).
  unfold spec, mbind, st_bind, eof, mbind, st_bind. rewrite Hc. cbn [mret st_ret].
  pose proof (kind_at_get _ _ Hget) as Hk. destruct (at_range _ _ _ _ Hs).
  destruct (is_kind TokenKind.Eof t) eqn:He.
  - apply is_kind_true in He. rewrite He in Hk. apply Ht; [done | by eapply to_eof | done].
  - apply is_kind_false in He. apply Hf; [congruence | | done].
    destruct (Z.eq_dec i (zlen tokens - 1)) as [-> |]; [| lia].
    exfalso. pose proof (to_last _ Htok) as Hl. rewrite Hget in Hl. cbn in Hl. congruence.
Qed.

(** Only the last token is not passed. *)
Lemma reads_advance {A} i c d (f : unit -> ParseM A) d' P :
  kind_at i <> Some TokenKind.Eof -> reads (i + 1) c d (f tt) d' P ->
  reads i c d (advance tokens ≫= f) d' P.
Proof.
  intros Hk Hf. eapply reads_bind with (d1 := d) (P' := fun _ j c' => j = i + 1 /\ c' = c); [| by intros [] j c' [-> ->]].
  unfold advance. apply reads_eof; [done |]. intros _ Hi s Hs. unfold spec.
  exists (i + 1), c. split; [done |]. destruct Hs. split; cbn; try done; lia.
Qed.

Lemma reads_take {A} i c d k (f : bool -> ParseM A) d' P :
  k <> TokenKind.Eof ->
  (kind_at i = Some k -> reads (i + 1) c d (f true) d' P) ->
  (kind_at i <> Some k -> reads i c d (f false) d' P) ->
  reads i c d (take_kind tokens k ≫= f) d' P.
Proof.
  intros Hne Ht Hf s Hs. destruct (current_at _ _ _ _ Hs) as (t & Hget & Hc).
  pose proof (kind_at_get _ _ Hget) as Hk. apply spec_bind. unfold take_kind. apply spec_bind.
  unfold spec at 1. rewrite Hc.
  destruct (is_kind k t) eqn:He.
  - apply is_kind_true in He. rewrite He in Hk.
    assert (reads i c d (advance tokens ≫= fun _ => mret true ≫= f) d' P) as H.
    { apply reads_advance; [congruence |]. intros s' Hs'. apply spec_bind, spec_ret. by apply Ht. }
    specialize (H _ Hs). revert H. unfold spec, mbind, st_bind. by destruct (advance tokens s) as [[] ?].
  - apply spec_ret, Hf; [| done]. apply is_kind_false in He. congruence.
Qed.

Lemma reads_take_symbol {A} i c d y (f : bool -> ParseM A) d' P :
  (sym i y -> reads (i + 1) c d (f true) d' P) -> (~ sym i y -> reads i c d (f false) d' P) ->
  reads i c d (take_symbol tokens y ≫= f) d' P.
Proof. intros. by apply reads_take. Qed.

Lemma reads_take_keyword {A} i c d k (f : bool -> ParseM A) d' P :
  (key i k -> reads (i + 1) c d (f true) d' P) -> (~ key i k -> reads i c d (f false) d' P) ->
  reads i c d (take_keyword tokens k ≫= f) d' P.
Proof. intros. by apply reads_take. Qed.

Lemma reads_expect {A} i c d y (f : unit -> ParseM A) d' P :
  (sym i y -> reads (i + 1) c d (f tt) d' P) -> reads i c d (expect tokens y ≫= f) d' P.
Proof.
  intros Hf. eapply reads_bind with (d1 := d) (P' := fun _ j c' => sym i y /\ j = i + 1 /\ c' = c);
    [| intros [] j c' (? & -> & ->); by apply Hf].
  unfold expect. apply reads_take_symbol; intros; [| apply reads_error].
  by apply reads_ret.
Qed.

Lemma reads_expect_keyword {A} i c d k (f : unit -> ParseM A) d' P :
  (key i k -> reads (i + 1) c d (f tt) d' P) -> reads i c d (expect_keyword tokens k ≫= f) d' P.
Proof.
  intros Hf. eapply reads_bind with (d1 := d) (P' := fun _ j c' => key i k /\ j = i + 1 /\ c' = c);
    [| intros [] j c' (? & -> & ->); by apply Hf].
  unfold expect_keyword. apply reads_take_keyword; intros; [| apply reads_error].
  by apply reads_ret.
Qed.

Lemma reads_name {A} i c d (f : list Z -> ParseM A) d' P :
  (forall n, name_at i n -> reads (i + 1) c d (f n) d' P) ->
  reads i c d (name tokens ≫= f) d' P.
Proof.
  intros Hf. eapply reads_bind with (d1 := d) (P' := fun n j c' => name_at i n /\ j = i + 1 /\ c' = c);
    [| intros n j c' (? & -> & ->); by apply Hf].
  unfold name. apply reads_current. intros t Ht. destruct (is_kind TokenKind.Name t) eqn:Hk; [| apply reads_error].
  apply is_kind_true in Hk. cbn [negb]. apply reads_advance; [rewrite (kind_at_get _ _ Ht); congruence |].
  destruct (to_name _ Htok _ _ Ht Hk) as [n Hn]. unfold Parser.name_of. rewrite Hn. apply reads_ret.
  split; [by exists t | done].
Qed.

(** A counter below its limit goes up by one, and the limit is checked. *)
Lemma increment_spec n m s (Q : Z -> Parser -> Prop) R :
  n <= m -> m < USIZE_MAX -> Q (n + 1) s -> spec (increment n) s Q R.
Proof.
  intros Hn Hm HQ. unfold increment, checked_add_usize. replace (n + 1 <=? USIZE_MAX) with true by lia.
  by apply spec_ret.
Qed.

Lemma spec_limit {A} i c d d0 s message (Q : A -> Parser -> Prop) :
  At i c d s -> ps_index d0 = i -> spec (limit tokens message) d0 Q failing.
Proof.
  intros Hs Hi. destruct (current_at _ _ _ _ Hs) as (t & Ht & Hc).
  assert (current tokens d0 = (Ok t, d0)) as Hc'.
  { revert Hc. unfold current, lift. rewrite Hi, (at_index _ _ _ _ Hs). intros [= ->]. done. }
  unfold spec, limit, mbind, st_bind. rewrite Hc'. eapply diagnostic_at_token; [done | by right].
Qed.

Lemma reads_reserve_node {A} i c d (f : unit -> ParseM A) d' P :
  reads i (c + 1) d (f tt) d' P -> reads i c d (reserve_node tokens limits ≫= f) d' P.
Proof.
  intros Hf. eapply reads_bind with (d1 := d) (P' := fun _ j c' => j = i /\ c' = c + 1); [| by intros [] j c' [-> ->]].
  intros s Hs. unfold reserve_node. apply spec_bind, spec_get, spec_bind.
  destruct (at_nodes _ _ _ _ Hs). pose proof (lo_nodes _ Hlim).
  apply (increment_spec _ (Z.max 0 (max_ast_nodes limits))); [lia | unfold_ranges; lia |].
  apply spec_bind, spec_put. destruct (Z.ltb_spec (max_ast_nodes limits) (ps_nodes s + 1)).
  - eapply spec_limit; [done | apply Hs].
  - apply spec_ret. exists i, (c + 1). split; [done |]. destruct Hs. split; cbn; try done; lia.
Qed.

Lemma reads_count_statement {A} i c d (f : unit -> ParseM A) d' P :
  reads i c d (f tt) d' P -> reads i c d (count_statement tokens limits ≫= f) d' P.
Proof.
  intros Hf. eapply reads_bind with (d1 := d) (P' := fun _ j c' => j = i /\ c' = c); [| by intros [] j c' [-> ->]].
  intros s Hs. unfold count_statement. apply spec_bind, spec_get, spec_bind.
  destruct (at_statements _ _ _ _ Hs). pose proof (lo_statements _ Hlim).
  apply (increment_spec _ (Z.max 0 (max_statements limits))); [lia | unfold_ranges; lia |].
  apply spec_bind, spec_put. destruct (Z.ltb_spec (max_statements limits) (ps_statements s + 1)).
  - eapply spec_limit; [done | apply Hs].
  - apply spec_ret. exists i, c. split; [done |]. destruct Hs. split; cbn; try done; lia.
Qed.

(** One call deeper, and back. *)
Lemma reads_enter {A} i c d (f : unit -> ParseM A) d' P :
  (d < max_parse_depth limits -> reads i c (d + 1) (f tt) d' P) ->
  reads i c d (enter tokens limits ≫= f) d' P.
Proof.
  intros Hf. eapply reads_bind with (d1 := d + 1)
    (P' := fun _ j c' => d < max_parse_depth limits /\ j = i /\ c' = c);
    [| intros [] j c' (? & -> & ->); by apply Hf].
  intros s Hs. unfold enter. apply spec_bind, spec_get, spec_bind.
  pose proof (at_depth _ _ _ _ Hs) as Hd. pose proof (at_depths _ _ _ _ Hs). pose proof (lo_depth _ Hlim).
  apply (increment_spec _ (Z.max 0 (max_parse_depth limits))); [lia | unfold_ranges; lia |].
  apply spec_bind, spec_put. destruct (Z.ltb_spec (max_parse_depth limits) (ps_depth s + 1)).
  - eapply spec_limit; [done | apply Hs].
  - apply spec_ret. exists i, c. split; [lia |]. destruct Hs. split; cbn; try done; lia.
Qed.

Lemma reads_leave {A} i c d (f : unit -> ParseM A) d' P :
  0 <= d -> reads i c d (f tt) d' P -> reads i c (d + 1) (leave ≫= f) d' P.
Proof.
  intros Hd Hf s Hs. unfold leave, spec, mbind, st_bind. apply Hf.
  pose proof (at_depth _ _ _ _ Hs). destruct Hs. split; cbn; try done; lia.
Qed.

Lemma reads_finish {A} i c d start (f : Span -> ParseM A) d' P :
  1 <= i -> reads i c d (f (join start (tok_span (i - 1)))) d' P ->
  reads i c d (finish tokens start ≫= f) d' P.
Proof.
  intros Hi Hf. eapply reads_bind with (d1 := d) (P' := fun a j c' => a = join start (tok_span (i - 1)) /\ j = i /\ c' = c);
    [| by intros ? j c' (-> & -> & ->)].
  unfold finish. apply reads_previous; [done |]. intros t Ht. apply reads_ret. by rewrite (tok_span_get _ _ Ht).
Qed.

Lemma reads_list_room {A B} i c d (l : list B) (f : unit -> ParseM A) d' P :
  (zlen l < max_list_entries limits -> reads i c d (f tt) d' P) ->
  reads i c d (list_room tokens limits l ≫= f) d' P.
Proof.
  intros Hf. eapply reads_bind with (d1 := d) (P' := fun _ j c' => zlen l < max_list_entries limits /\ j = i /\ c' = c);
    [| intros [] j c' (? & -> & ->); by apply Hf].
  unfold list_room. destruct (Z.leb_spec (max_list_entries limits) (zlen l)); [apply reads_limit | by apply reads_ret].
Qed.

Lemma reads_fmap {A B} i c d (m : ParseM A) (g : A -> B) d' (P : B -> Z -> Z -> Prop) :
  reads i c d m d' (fun a => P (g a)) -> reads i c d (g <$> m) d' P.
Proof.
  intros Hm s Hs. specialize (Hm s Hs). revert Hm. unfold spec, fmap, st_fmap.
  by destruct (m s) as [[] ?].
Qed.

Lemma reads_some {A B} i c d (m : ParseM A) (f : option A -> ParseM B) d' P' P :
  reads i c d m d P' -> (forall a j c', P' a j c' -> reads j c' d (f (Some a)) d' P) ->
  reads i c d ((Some <$> m) ≫= f) d' P.
Proof.
  intros Hm Hf. eapply reads_bind with (d1 := d) (P' := fun o j c' => exists a, o = Some a /\ P' a j c').
  - apply reads_fmap. eapply reads_weaken; [exact Hm |]. eauto.
  - intros o j c' (a & -> & Ha). by apply Hf.
Qed.

(** [let x = if b { Some(m?) } else { None };] *)
Lemma reads_none {A B} i c d (a : A) (f : A -> ParseM B) d' P :
  reads i c d (f a) d' P -> reads i c d (mret a ≫= f) d' P.
Proof. intros Hf s Hs. apply spec_bind, spec_ret. by apply Hf. Qed.

(** A loop with an invariant: a round that goes on moves on, and the end of the
    input is the last place to be. *)
Lemma reads_rounds {X B} i c d (body : X -> ParseM (X + B)) x (I : X -> Z -> Z -> Prop) P :
  (forall x j c', I x j c' -> i <= j -> c <= c' -> reads j c' d (body x) d
     (fun r j' c'' => c' <= c'' /\
        match r with inl x' => j < j' /\ I x' j' c'' | inr b => j <= j' /\ P b j' c'' end)) ->
  I x i c -> reads i c d (rounds tokens body x) d P.
Proof.
  intros Hbody HI s Hs. unfold rounds.
  set (J := fun x (s : Parser) => exists j c', At j c' d s /\ I x j c' /\ i <= j /\ c <= c').
  eapply (spec_iter body J (fun _ s => Z.to_nat (zlen tokens - 1 - ps_index s))).
  - intros x' s' (j & c' & Hs' & HI' & Hj & Hc). eapply spec_weaken; [by apply Hbody | | done].
    intros [x'' | b] s'' (j' & c'' & (Hcc & H) & Hs''); [| destruct H; eauto].
    destruct H as [Hlt HI'']. split; [exists j', c''; split; [done |]; split; [done | lia] |].
    rewrite (at_index _ _ _ _ Hs'), (at_index _ _ _ _ Hs'').
    pose proof (at_range _ _ _ _ Hs'). pose proof (at_range _ _ _ _ Hs''). lia.
  - exists i, c. split; [done |]. split; [done | lia].
  - cbn beta. rewrite (at_index _ _ _ _ Hs). pose proof (at_range _ _ _ _ Hs). unfold zlen in *. lia.
Qed.

(** [while taken { .. }] *)
Lemma reads_while_taken {X} i c d k (body : X -> ParseM X) x (I : X -> Z -> Z -> Prop) P :
  k <> TokenKind.Eof ->
  (forall x j c', I x j c' -> i <= j -> c <= c' -> kind_at j = Some k ->
     reads (j + 1) c' d (body x) d (fun x' j' c'' => j < j' /\ c' <= c'' /\ I x' j' c'')) ->
  (forall x j c', I x j c' -> kind_at j <> Some k -> P x j c') ->
  I x i c -> reads i c d (while_taken tokens (take_kind tokens k) body x) d P.
Proof.
  intros Hk Hbody Hend HI. unfold while_taken. eapply reads_rounds; [| exact HI].
  intros x' j c' HI' Hj Hc. apply reads_take; [done | |].
  - intros Hkind. apply reads_fmap. eapply reads_weaken; [by apply Hbody |]. intros ? ? ? (? & ? & ?). done.
  - intros Hkind. apply reads_ret. split; [lia |]. split; [lia | by apply Hend].
Qed.

Lemma reads_finish_from {A} i0 i c d start (f : Span -> ParseM A) d' P :
  1 <= i -> span_start start = span_start (tok_span i0) -> reads i c d (f (text i0 i)) d' P ->
  reads i c d (finish tokens start ≫= f) d' P.
Proof.
  intros Hi Hs Hf. apply reads_finish; [done |].
  replace (join start (tok_span (i - 1))) with (text i0 i); [done |]. unfold join, ParserGrammar.text. by rewrite Hs.
Qed.

(** *** Lists with separators *)

Abbreviation comma := (TokenKind.Symbol Symbol.Comma).
Abbreviation listed := (@listed limits _).

Lemma listed_one {A} (x : A) : zlen [x] <= Z.max 1 (max_list_entries limits).
Proof. rewrite zlen_cons, zlen_nil. lia. Qed.

Lemma listed_snoc {A} (xs : list A) x :
  zlen xs < max_list_entries limits -> zlen (xs ++ [x]) <= Z.max 1 (max_list_entries limits).
Proof. rewrite zlen_app, zlen_cons, zlen_nil. lia. Qed.

(** A phrase that has been read, with the nodes of its tree reserved. *)
Definition phrase {A} (G : Z -> Z -> A -> Prop) (size : A -> Z) (i c : Z) (a : A) (j c' : Z) : Prop :=
  i < j /\ c <= c' /\ c + size a <= c' /\ G i j a.

(** A list of at least one, with commas between. *)
Lemma reads_comma_list {A} (G : Z -> Z -> A -> Prop) size i c d (item : list A -> ParseM (list A + list A)) :
  (forall xs j c', zlen xs < max_list_entries limits -> i <= j -> reads j c' d (item xs) d
     (fun r j' c'' => exists x k, phrase G size j c' x k c'' /\
        match r with
        | inl xs' => xs' = xs ++ [x] /\ sym k Symbol.Comma /\ j' = k + 1
        | inr xs' => xs' = xs ++ [x] /\ j' = k
        end)) ->
  reads i c d (rounds tokens (fun xs => list_room tokens limits xs;; item xs) []) d
    (phrase (fun i j xs => sep_by tokens G comma i j xs /\ zlen xs <= Z.max 1 (max_list_entries limits))
       (total_size size) i c).
Proof.
  intros Hitem. eapply reads_rounds with (I := fun xs j c' =>
    (xs = [] /\ j = i /\ c <= c') \/
    (exists k, j = k + 1 /\ i < k /\ c + total_size size xs <= c' /\ sep_by tokens G comma i k xs /\ sym k Symbol.Comma)).
  2: { left. split; [done |]. lia. }
  intros xs j c' HI Hj Hc. apply reads_list_room. intros Hroom.
  eapply reads_weaken; [by apply Hitem |]. intros r j' c'' (x & k & (Hlt & Hcc & Hs & HG) & Hr).
  assert (sep_by tokens G comma i k (xs ++ [x]) /\ c + total_size size (xs ++ [x]) <= c'') as [Hsep Htot].
  { rewrite total_size_snoc. destruct HI as [(-> & -> & ?) | (k' & -> & ? & ? & ? & ?)].
    - split; [by apply sep_one | cbn; lia].
    - split; [by eapply sep_snoc | lia]. }
  split; [lia |]. destruct r as [xs' | xs'].
  - destruct Hr as (-> & Hcomma & ->). split; [lia |]. right. exists k. split; [done |]. split; [lia |]. done.
  - destruct Hr as (-> & ->). split; [lia |]. split; [lia |]. split; [lia |]. split; [done |]. split; [done |]. by apply listed_snoc.
Qed.

(** The rest of a list whose first element has been read. *)
Lemma reads_rest {A} (G : Z -> Z -> A -> Prop) size k i j0 c0 c d (first : A) (item : list A -> ParseM (list A)) :
  k <> TokenKind.Eof -> phrase G size i c0 first j0 c ->
  (forall xs j c', j0 <= j -> c <= c' -> reads (j + 1) c' d (item xs) d
     (fun xs' j' c'' => exists x, zlen xs < max_list_entries limits /\ xs' = xs ++ [x] /\
        phrase G size (j + 1) c' x j' c'')) ->
  reads j0 c d (while_taken tokens (take_kind tokens k) item [first]) d
    (fun xs j c' => phrase (fun i j xs => sep_by tokens G k i j xs /\ zlen xs <= Z.max 1 (max_list_entries limits))
       (total_size size) i c0 xs j c' /\ kind_at j <> Some k /\ j0 <= j).
Proof.
  intros Hk (Hlt & Hcc & Hs & HG) Hitem.
  eapply reads_while_taken with (I := fun xs j c' =>
    phrase (fun i j xs => sep_by tokens G k i j xs /\ zlen xs <= Z.max 1 (max_list_entries limits))
       (total_size size) i c0 xs j c' /\ j0 <= j /\ c <= c'); [done | | |].
  - intros xs j c' ((? & ? & ? & Hsep & Hl) & ? & ?) Hj Hc Hkind. eapply reads_weaken; [by apply Hitem |].
    intros xs' j' c'' (x & Hroom & -> & (? & ? & ? & ?)). split; [lia |]. split; [lia |].
    split; [| lia]. split; [lia |]. split; [lia |]. rewrite total_size_snoc. split; [lia |].
    split; [by eapply sep_snoc | by apply listed_snoc].
  - intros xs j c' (Hp & Hj & _) Hne. done.
  - split; [| lia]. split; [lia |]. split; [lia |]. split; [cbn; lia |]. split; [by apply sep_one | apply listed_one].
Qed.

(** ** Names and parameters *)

Ltac norm := rewrite <- ?Z.add_assoc in *; change (1 + 1) with 2 in *; change (2 + 1) with 3 in *;
  change (1 + 2) with 3 in *.

Lemma parameter_spec i c d :
  reads i c d (parameter tokens limits) d
    (fun n j c' => plain_name tokens i n /\ j = i + 1 /\ c' = c + 1).
Proof.
  unfold parameter. apply reads_current. intros t Ht. apply reads_name. intros n Hn.
  apply reads_reserve_node, reads_ret. split; [| done]. split; [done |]. split; [done |].
  cbn. by rewrite (tok_span_get _ _ Ht).
Qed.

Lemma vararg_spec i c d :
  1 <= i -> sym (i - 1) Symbol.Vararg ->
  reads i c d (vararg_parameter tokens limits profile) d
    (fun v j c' => vararg_of tokens profile (i - 1) j v /\ i <= j /\ c <= c').
Proof.
  intros Hi Hsym. unfold vararg_parameter. apply reads_previous; [done |]. intros p Hp.
  apply reads_current. intros t Ht. eapply reads_bind with (d1 := d) (P' := fun o j c' => vararg_of tokens profile (i - 1) j {| table_name := o; vararg_span := span p |} /\ i <= j /\ c' = c).
  2: { intros o j c' (? & ? & ->). apply reads_reserve_node, reads_ret. split; [done | lia]. }
  pose proof (tok_span_get _ _ Hp) as Hsp. pose proof (kind_at_get _ _ Ht) as Hkt.
  unfold vararg_of. replace (i - 1 + 1) with i by lia.
  destruct (is_kind TokenKind.Name t) eqn:Hk.
  - destruct (named_vararg_rule (rules profile)) eqn:Hr; cbn [negb].
    2: { eapply reads_bind with (d1 := d) (P' := fun _ _ _ => False); [apply reads_error | done]. }
    apply reads_bind with (d1 := d) (P' := fun _ j c' => j = i /\ c' = c); [by apply reads_ret |].
    intros [] ? ? [-> ->]. apply reads_current. intros t' Ht'. apply reads_name. intros n Hn. apply reads_ret.
    split; [| lia]. split; [done |]. split; [done |]. cbn. split; [done |]. split; [| lia].
    split; [done |]. split; [done |]. by rewrite (tok_span_get _ _ Ht').
  - apply is_kind_false in Hk. apply reads_ret. split; [| lia]. split; [done |]. split; [done |]. cbn.
    split; [congruence | lia].
Qed.

Lemma parameters_spec i c d :
  reads i c d (parameters tokens limits profile) d
    (fun ps j c' => exists k, j = k + 1 /\ sym k Symbol.CloseParen /\ i <= k /\ c + zlen ps.1 <= c' /\
       parameters_of tokens profile i k ps /\ zlen ps.1 <= Z.max 0 (max_parameters limits)).
Proof.
  unfold parameters. eapply reads_rounds with (I := fun ps j c' =>
    i <= j /\ c + zlen ps <= c' /\ star (parameter_comma tokens) i j ps /\ zlen ps <= Z.max 0 (max_parameters limits)).
  2: { rewrite zlen_nil. split; [lia |]. split; [lia |]. split; [constructor | lia]. }
  intros ps j c' (Hij & Hcc & Hstar & Hmax) _ _. apply reads_take_symbol; intros Hclose.
  { apply reads_ret. split; [lia |]. split; [lia |]. exists j. do 3 (split; [done |]). split; [done |].
    split; [by constructor | done]. }
  apply reads_guard; [intros; apply reads_limit | intros Hroom%Z.leb_gt].
  apply reads_range. intros Hj0 _ _.
  apply reads_take_symbol; intros Hdots.
  - eapply reads_bind; [apply vararg_spec; [lia | by replace (j + 1 - 1) with j by lia] |].
    intros v k c'' (Hv & Hk & Hc''). replace (j + 1 - 1) with j in Hv by lia.
    apply reads_expect. intros Hc. apply reads_ret. split; [lia |]. split; [lia |]. exists k.
    split; [done |]. split; [done |]. split; [lia |]. cbn. split; [lia |]. split; [by eapply parameters_vararg | lia].
  - eapply reads_bind; [apply parameter_spec |]. intros p k c'' (Hp & -> & ->).
    apply reads_take_symbol; intros Hcomma.
    + apply reads_ret. split; [lia |]. split; [lia |]. split; [lia |]. rewrite zlen_app, zlen_cons, zlen_nil.
      split; [lia |]. split; [| lia]. norm. by eapply star_snoc.
    + apply reads_expect. intros Hc. apply reads_ret. split; [lia |]. split; [lia |]. exists (j + 1).
      split; [done |]. split; [done |]. split; [lia |]. cbn. rewrite zlen_app, zlen_cons, zlen_nil.
      split; [lia |]. split; [by apply parameters_last | lia].
Qed.

(** ** Expressions

    The calls of [expr] and [block_until] at depth [d] do what they promise. *)

(** An expression that ends where no operator of level [min] goes on. *)
Definition expression (min i c : Z) (e : Expr) (j c' : Z) : Prop :=
  phrase (expr_of tokens limits profile) expr_size i c e j c' /\ min <= right_level e /\ stops tokens min j.

Definition expr_promise (d : Z) (expr : Z -> ParseM Expr) : Prop :=
  forall i c min, 0 <= min <= 13 -> reads i c d (expr min) d (expression min i c).

Definition block (ends : list Keyword.Keyword) (i c : Z) (b : Block) (j c' : Z) : Prop :=
  i <= j /\ c <= c' /\ c + block_size b <= c' /\ block_of tokens limits profile ends i j b.

Definition block_promise (d : Z) (block_until : list Keyword.Keyword -> ParseM Block) : Prop :=
  forall i c ends, 1 <= i -> reads i c d (block_until ends) d (block ends i c).

Section Calls.
Context (expr : Z -> ParseM Expr) (block_until : list Keyword.Keyword -> ParseM Block) (d : Z).
Context (Hexpr : expr_promise d expr) (Hblock : block_promise d block_until).

Abbreviation expr_of := (expr_of tokens limits profile).
Abbreviation exprs := (phrase (fun i j xs => sep_by tokens expr_of comma i j xs /\ listed xs) (total_size expr_size)).

Lemma reads_expr {A} i c min (f : Expr -> ParseM A) P :
  0 <= min <= 13 ->
  (forall e j c', phrase expr_of expr_size i c e j c' -> min <= right_level e -> stops tokens min j ->
     reads j c' d (f e) d P) ->
  reads i c d (expr min ≫= f) d P.
Proof.
  intros Hm Hf. eapply reads_bind; [by apply Hexpr |]. intros e j c' (? & ? & ?). by apply Hf.
Qed.

Lemma reads_block {A} i c ends (f : Block -> ParseM A) P :
  1 <= i -> (forall b j c', block ends i c b j c' -> reads j c' d (f b) d P) ->
  reads i c d (block_until ends ≫= f) d P.
Proof. intros Hi Hf. eapply reads_bind; [by apply Hblock | done]. Qed.

Lemma list_expr_spec i c :
  reads i c d (list_expr tokens limits expr) d
    (fun es j c' => (kind_at i = Some TokenKind.Eof /\ es = [] /\ j = i /\ c' = c) \/ exprs i c es j c').
Proof.
  unfold list_expr. apply reads_eof; intros Heof Hi; [apply reads_ret; by left |].
  eapply reads_weaken; [apply (reads_comma_list expr_of expr_size) | by right].
  intros xs j c' _ _. apply (reads_expr j c' 0); [lia |]. intros e k c'' He _ _.
  apply reads_take_symbol; intros Hc; apply reads_ret; by exists e, k.
Qed.

(** The tokens after an opening parenthesis. *)
Lemma paren_arguments_spec i c :
  sym (i - 1) Symbol.OpenParen ->
  reads i c d (paren_arguments tokens limits expr) d
    (phrase (fun i j es => arguments_of tokens limits profile (i - 1) j es) (total_size expr_size) i c).
Proof.
  intros Hopen. unfold paren_arguments. apply reads_take_symbol; intros Hclose.
  - apply reads_ret. split; [lia |]. split; [lia |]. split; [cbn; lia |].
    replace (i + 1) with (i - 1 + 2) by lia. apply arguments_none; [done |]. by replace (i - 1 + 1) with i by lia.
  - eapply reads_bind; [apply list_expr_spec |].
    intros es j c' [(Heof & -> & -> & ->) | (? & ? & ? & ? & ?)]; apply reads_expect; intros Hend.
    { unfold ParserGrammar.sym in Hend. congruence. }
    apply reads_ret. split; [lia |]. split; [lia |]. split; [lia |].
    apply arguments_list; [done | by replace (i - 1 + 1) with i by lia | done | done].
Qed.

(** A function from its parameters on, its span from the token [i0]. *)
Definition function_phrase (i0 i c : Z) (f : FunctionBody) (j c' : Z) : Prop :=
  phrase (body_of tokens limits profile i0) body_size i c f j c'.

Lemma reads_function_body {A} i0 i c start (f : FunctionBody -> ParseM A) P :
  span_start start = span_start (tok_span i0) ->
  (forall b j c', function_phrase i0 i c b j c' -> reads j c' d (f b) d P) ->
  reads i c d (function_body tokens limits profile block_until start ≫= f) d P.
Proof.
  intros Hstart Hf. eapply reads_bind; [| exact Hf]. unfold function_body.
  apply reads_range. intros Hi _ _. apply reads_expect. intros Hopen.
  eapply reads_bind; [apply parameters_spec |]. intros [ps v] j c' (k & -> & Hclose & Hik & Hc & Hps & Hmax).
  cbn [fst snd] in *. pose proof (zlen_nonneg ps). apply reads_block; [lia |].
  intros b m c'' (Hm & Hc' & Hs & Hb). apply reads_expect_keyword. intros Hend.
  apply (reads_finish_from i0); [lia | done |]. apply reads_ret. split; [lia |]. split; [lia |].
  split; [cbn [body_size]; lia |]. by econstructor.
Qed.

Lemma table_field_spec i c :
  reads i c d (table_field tokens limits expr) d
    (phrase (table_field_of tokens limits profile) field_size i c).
Proof.
  unfold table_field. apply reads_current. intros t Ht. pose proof (tok_span_get _ _ Ht) as Hsp.
  apply reads_take_symbol; intros Hopen.
  - apply (reads_expr (i + 1) c 0); [lia |]. intros x k c1 (? & ? & ? & Hx) _ _.
    apply reads_expect. intros Hclose. apply reads_expect. intros Hassign.
    apply reads_expr; [lia |]. intros v j c2 (? & ? & ? & Hv) _ _. apply reads_reserve_node, reads_ret.
    rewrite <- Hsp, (expr_of_span _ _ _ _ _ _ Hv). norm.
    split; [lia |]. split; [lia |]. split; [cbn [field_size]; lia |]. by eapply indexed_of.
  - intros s Hs. apply spec_bind, spec_get. revert s Hs.
    assert (forall b, b = true <-> (kind_at i = Some TokenKind.Name /\ sym (i + 1) Symbol.Assign) ->
      reads i c d
        (if b : bool then n ← name tokens; expect tokens Symbol.Assign;; value ← expr 0;
           reserve_node tokens limits;; mret (Field_Named n value None (join (span t) (expr_span value)))
         else value ← expr 0; reserve_node tokens limits;;
           mret (Field_Array value None (join (span t) (expr_span value)))) d
        (phrase (table_field_of tokens limits profile) field_size i c)) as Hrest.
    { intros b Hb. destruct b.
      - apply reads_name. intros n Hn. apply reads_expect. intros Hassign.
        apply reads_expr; [lia |]. intros v j c2 (? & ? & ? & Hv) _ _. apply reads_reserve_node, reads_ret.
        rewrite <- Hsp, (expr_of_span _ _ _ _ _ _ Hv). norm.
        split; [lia |]. split; [lia |]. split; [cbn [field_size]; lia |]. by apply named_of.
      - apply reads_expr; [lia |]. intros v j c2 (? & ? & ? & Hv) _ _. apply reads_reserve_node, reads_ret.
        rewrite <- Hsp, (expr_of_span _ _ _ _ _ _ Hv).
        split; [lia |]. split; [lia |]. split; [cbn [field_size]; lia |]. apply array_of; [done | | done].
        by intros Hn%Hb. }
    intros s Hs. apply Hrest; [| done]. rewrite (at_index _ _ _ _ Hs), andb_true_iff, is_kind_true, bool_decide_eq_true.
    rewrite (kind_at_get _ _ Ht). unfold ParserGrammar.sym, ParserGrammar.kind_at. split; intros []; split; congruence.
Qed.

Lemma total_size_separated fs f sep :
  total_size field_size (fs ++ [set_separator f sep]) = total_size field_size fs + field_size f.
Proof. by rewrite total_size_snoc, set_separator_size. Qed.

(** At an opening brace. *)
Lemma table_spec i c t :
  zget tokens i = Some t -> kind t = TokenKind.Symbol Symbol.OpenBrace ->
  reads i c d (table tokens limits expr) d
    (fun e j c' => phrase expr_of expr_size i c e j c' /\ exists fs sp, e = Expr_TableConstructor fs sp).
Proof.
  intros Ht Hk. pose proof (kind_at_get _ _ Ht) as Hki. rewrite Hk in Hki. unfold table.
  apply reads_current. intros t' Ht'. apply reads_range. intros Hi _ _. apply reads_advance; [congruence |].
  eapply reads_bind with (d1 := d) (P' := fun fs j c' => exists k, j = k + 1 /\ i < k /\ c <= c' /\
    c + total_size field_size fs <= c' /\ sym k Symbol.CloseBrace /\
    fields_of tokens (table_field_of tokens limits profile) (i + 1) k fs /\ zlen fs <= Z.max 0 (max_list_entries limits)).
  2: { intros fs j c' (k & -> & Hik & Hc & Hs & Hclose & Hfs & Hmax). apply reads_reserve_node.
       apply (reads_finish_from i); [lia | by rewrite (tok_span_get _ _ Ht') |].
       apply reads_ret. split; [| by eauto]. split; [lia |]. split; [lia |]. split; [cbn [expr_size]; lia |].
       by apply table_of. }
  eapply reads_rounds with (I := fun fs j c' => i < j /\ c <= c' /\ c + total_size field_size fs <= c' /\
    star (separated tokens (table_field_of tokens limits profile)) (i + 1) j fs /\ zlen fs <= Z.max 0 (max_list_entries limits)).
  2: { change (zlen []) with 0. split; [lia |]. split; [lia |]. split; [cbn; lia |]. split; [constructor | lia]. }
  intros fs j c' (Hij & Hc & Hs & Hstar & Hmax) _ _. apply reads_take_symbol; intros Hclose.
  { apply reads_ret. split; [lia |]. split; [lia |]. exists j. do 5 (split; [done |]). split; [by constructor | done]. }
  apply reads_eof; intros Heof Hj; [apply reads_error |]. apply reads_list_room. intros Hroom.
  eapply reads_bind; [apply table_field_spec |]. intros f k c'' (Hjk & Hc' & Hsf & Hf).
  assert (forall sep, zlen (fs ++ [set_separator f sep]) <= Z.max 0 (max_list_entries limits)) as Hlen
    by (intros; rewrite zlen_app, zlen_cons, zlen_nil; lia).
  apply reads_take_symbol; intros Hcomma.
  { apply reads_ret. split; [lia |]. split; [lia |]. split; [lia |]. split; [lia |].
    rewrite total_size_separated. split; [lia |]. split; [| done].
    eapply star_snoc; [done |]. exists k, f. auto. }
  apply reads_take_symbol; intros Hsemi.
  { apply reads_ret. split; [lia |]. split; [lia |]. split; [lia |]. split; [lia |].
    rewrite total_size_separated. split; [lia |]. split; [| done].
    eapply star_snoc; [done |]. exists k, f. auto. }
  apply reads_expect. intros Hend. apply reads_ret. split; [lia |]. split; [lia |]. exists k.
  split; [done |]. split; [lia |]. split; [lia |]. rewrite total_size_snoc. split; [lia |]. split; [done |].
  split; [by eapply fields_last |]. rewrite zlen_app, zlen_cons, zlen_nil; lia.
Qed.

Lemma function_expr_spec i c t :
  zget tokens i = Some t -> kind t = TokenKind.Keyword Keyword.Function ->
  reads i c d (function_expr tokens limits profile block_until) d
    (fun e j c' => phrase expr_of expr_size i c e j c' /\ right_level e = operand_level /\ left_level e = operand_level).
Proof.
  intros Ht Hk. pose proof (kind_at_get _ _ Ht) as Hki. rewrite Hk in Hki. unfold function_expr.
  apply reads_current. intros t' Ht'. apply reads_range. intros Hi _ _. apply reads_advance; [congruence |].
  pose proof (tok_span_get _ _ Ht') as Hsp.
  apply (reads_function_body i); [by rewrite Hsp |]. intros f j c' (? & ? & ? & Hf).
  apply (reads_finish_from i); [lia | by rewrite Hsp |]. apply reads_reserve_node, reads_ret.
  split; [| done]. split; [lia |]. split; [lia |]. split; [cbn [expr_size]; lia |]. by apply function_of.
Qed.

(** An operand: an expression that no binary operator is the root of. A unary
    operation takes every tighter operator. *)
Definition operand (i c : Z) (e : Expr) (j c' : Z) : Prop :=
  phrase expr_of expr_size i c e j c' /\ right_level e = operand_level /\
  (left_level e = operand_level \/
   left_level e = unary_level /\ stops tokens unary_level j /\ is_prefix_expr e = false).

Lemma unary_spec i c t op :
  zget tokens i = Some t -> unary_operator (kind t) = Some op ->
  reads i (c + 1) d (unary tokens expr t op) d (operand i c).
Proof.
  intros Ht Hop. pose proof (kind_at_get _ _ Ht) as Hki. unfold unary.
  apply reads_range. intros Hi _ _. apply reads_advance.
  { intros He. rewrite Hki in He. injection He as He. by rewrite He in Hop. }
  apply reads_expr; [lia |]. intros e j c' (? & ? & ? & He) Hl Hst. apply reads_ret.
  rewrite (expr_of_span _ _ _ _ _ _ He), <- (tok_span_get _ _ Ht).
  split; [| split; [done | by right]].
  split; [lia |]. split; [lia |]. split; [cbn [expr_size]; lia |]. by eapply unary_of.
Qed.

(** One token that is an expression. *)
Lemma reads_token i c t e :
  zget tokens i = Some t -> kind t <> TokenKind.Eof -> expr_of i (i + 1) e -> expr_size e = 1 ->
  right_level e = operand_level -> left_level e = operand_level ->
  reads i (c + 1) d (advance tokens;; mret e) d (operand i c).
Proof.
  intros Ht Hk He Hs Hr Hl. apply reads_range. intros Hi _ _. apply reads_advance.
  { rewrite (kind_at_get _ _ Ht). congruence. }
  apply reads_ret. split; [| split; [done | by left]]. split; [lia |]. split; [lia |]. by split; [lia |].
Qed.

Lemma prefix_spec i c :
  reads i c d (prefix tokens limits profile expr block_until) d
    (fun e j c' => operand i c e j c' /\ (kind_at i = Some TokenKind.String -> j = i + 1) /\
       (sym i Symbol.OpenBrace -> exists fs sp, e = Expr_TableConstructor fs sp)).
Proof.
  unfold prefix. apply reads_range. intros Hi Hc0 _. apply reads_reserve_node, reads_current. intros t Ht.
  pose proof (kind_at_get _ _ Ht) as Hki. pose proof (tok_span_get _ _ Ht) as Hsp.
  rewrite <- Hsp, <- (text_one tokens i).
  assert (forall m, kind t <> TokenKind.String -> kind t <> TokenKind.Symbol Symbol.OpenBrace ->
    reads i (c + 1) d m d (operand i c) ->
    reads i (c + 1) d m d (fun e j c' => operand i c e j c' /\ (kind_at i = Some TokenKind.String -> j = i + 1) /\
       (sym i Symbol.OpenBrace -> exists fs sp, e = Expr_TableConstructor fs sp))) as Hplain.
  { intros m H1 H2 Hm. eapply reads_weaken; [exact Hm |]. intros e j c' He. split; [done |].
    unfold ParserGrammar.sym. rewrite Hki. split; congruence. }
  assert (is_literal_kind (kind t) -> reads i (c + 1) d
    (advance tokens;; l ← unwrap (literal t); mret (Expr_Literal l (text i (i + 1)))) d
    (fun e j c' => operand i c e j c' /\ (kind_at i = Some TokenKind.String -> j = i + 1) /\
       (sym i Symbol.OpenBrace -> exists fs sp, e = Expr_TableConstructor fs sp))) as Hliteral.
  { intros Hk. destruct (to_literal _ Htok _ _ Ht Hk) as [l Hl]. rewrite Hl. cbn [unwrap].
    apply reads_advance; [rewrite Hki; by destruct Hk as [-> | [-> | ->]] |].
    apply reads_ret. split; [split; [| split; [done | by left]] |].
    { split; [lia |]. split; [lia |]. split; [cbn [expr_size]; lia |]. by eapply literal_of. }
    split; [done |]. unfold ParserGrammar.sym. rewrite Hki. by destruct Hk as [-> | [-> | ->]]. }
  destruct (kind t) as [| [] | | | | | []] eqn:Hk; try apply reads_error;
    try (apply Hliteral; unfold is_literal_kind; tauto); try (apply Hplain; [congruence.. |]);
    try (eapply unary_spec; [done | by rewrite Hk]);
    try (eapply reads_token; [done | congruence | by econstructor | done..]).
  - eapply reads_weaken; [by eapply function_expr_spec |]. intros e j c' ((? & ? & ? & ?) & ? & ?).
    split; [| auto]. split; [lia |]. split; [lia |]. by split; [lia |].
  - destruct (to_name _ Htok _ _ Ht Hk) as [n Hn]. unfold Parser.name_of. rewrite Hn.
    apply reads_advance; [congruence |]. apply reads_ret. split; [| split; [done | by left]].
    split; [lia |]. split; [lia |]. split; [cbn [expr_size]; lia |]. constructor. by exists t.
  - apply reads_advance; [congruence |]. apply reads_expr; [lia |]. intros e j c' (? & ? & ? & He) _ _.
    apply reads_expect. intros Hclose. apply (reads_finish_from i); [lia | by rewrite text_one |]. apply reads_ret.
    split; [| split; [done | by left]]. split; [lia |]. split; [lia |]. split; [cbn [expr_size]; lia |]. by constructor.
  - eapply reads_weaken; [by eapply table_spec |]. intros e j c' ((? & ? & ? & ?) & fs & sp & ->).
    split; [split; [| split; [done | by left]] |]; [split; [lia |]; split; [lia |]; by split; [lia |] |].
    split; [congruence | eauto].
Qed.

(** The only argument of a call without parentheses. *)
Lemma single_argument_spec i c t :
  zget tokens i = Some t -> starts_argument t = true ->
  reads i c d (single_argument tokens limits profile expr block_until) d
    (fun e j c' => phrase (fun i j e => arguments_of tokens limits profile i j [e]) expr_size i c e j c' /\
       expr_span e = text i j).
Proof.
  intros Ht Hstart. unfold single_argument. apply reads_guard; [intros; apply reads_limit | intros Hroom].
  eapply reads_weaken; [apply prefix_spec |]. intros e j c' (((? & ? & ? & He) & _) & Hstr & Htab).
  split; [| by eapply expr_of_span]. split; [lia |]. split; [lia |]. split; [lia |]. cbn beta. unfold starts_argument, is_symbol in Hstart.
  apply orb_prop in Hstart as [Hk%is_kind_true | Hk%is_kind_true]; pose proof (kind_at_get _ _ Ht) as Hki; rewrite Hk in Hki.
  - specialize (Hstr Hki). subst j. by apply arguments_string.
  - destruct (Htab Hki) as (fs & sp & ->). by eapply arguments_table.
Qed.

Lemma method_arguments_spec i c :
  reads i c d (method_arguments tokens limits profile expr block_until) d
    (phrase (arguments_of tokens limits profile) (total_size expr_size) i c).
Proof.
  unfold method_arguments. apply reads_take_symbol; intros Hopen.
  - eapply reads_weaken; [apply paren_arguments_spec; by replace (i + 1 - 1) with i by lia |].
    intros es j c' (? & ? & ? & Hes). cbn beta in Hes. replace (i + 1 - 1) with i in Hes by lia.
    split; [lia |]. split; [lia |]. by split; [lia |].
  - apply reads_current. intros t Ht. destruct (starts_argument t) eqn:Hs; [| apply reads_error].
    eapply reads_bind; [by eapply single_argument_spec |]. intros e j c' ((? & ? & ? & ?) & _). apply reads_ret.
    split; [lia |]. split; [lia |]. split; [cbn; lia |]. done.
Qed.

Lemma postfix_step_spec i k c0 c base :
  phrase expr_of expr_size i c0 base k c ->
  reads k c d (postfix_step tokens limits profile expr block_until base) d
    (fun o j c' => match o with
       | None => j = k /\ c' = c
       | Some e => k < j /\ c <= c' /\ phrase expr_of expr_size i c0 e j c' /\ is_prefix_expr base = true /\
           is_prefix_expr e = true
       end).
Proof.
  intros (Hik & Hc & Hs & Hb). unfold postfix_step.
  destruct (is_prefix_expr base) eqn:Hp; cbn [negb]; [| by apply reads_ret].
  pose proof (expr_of_span _ _ _ _ _ _ Hb) as Hsp. apply reads_range. intros Hk _ _.
  assert (span_start (expr_span base) = span_start (tok_span i)) as Hstart by (by rewrite Hsp).
  assert (forall e j c', k < j -> c <= c' -> expr_of i j e -> c0 + expr_size e <= c' -> is_prefix_expr e = true ->
    k < j /\ c <= c' /\ phrase expr_of expr_size i c0 e j c' /\ true = true /\ is_prefix_expr e = true) as Hdone.
  { intros e j c' ? ? ? ? ?. split; [lia |]. split; [lia |]. split; [| done]. split; [lia |]. split; [lia |]. done. }
  apply reads_take_symbol; intros Hparen.
  { eapply reads_bind; [apply paren_arguments_spec; by replace (k + 1 - 1) with k by lia |].
    intros es j c' (? & ? & ? & Hes). cbn beta in Hes. replace (k + 1 - 1) with k in Hes by lia.
    apply (reads_finish_from i); [lia | done |]. apply reads_reserve_node, reads_ret.
    apply Hdone; [lia | lia | by eapply call_of | cbn [expr_size]; lia | done]. }
  apply reads_current. intros t Ht. destruct (starts_argument t) eqn:Harg.
  { eapply reads_bind; [by eapply single_argument_spec |]. intros e j c' ((? & ? & ? & He) & Hse).
    apply reads_reserve_node, reads_ret. rewrite Hsp, Hse, join_text.
    apply Hdone; [lia | lia | by eapply call_of | cbn [expr_size total_size fold_right]; lia | done]. }
  apply reads_take_symbol; intros Hdot.
  { apply reads_name. intros n Hn. apply (reads_finish_from i); [lia | done |]. apply reads_reserve_node, reads_ret.
    norm. apply Hdone; [lia | lia | by eapply field_of | cbn [expr_size]; lia | done]. }
  apply reads_take_symbol; intros Hbracket.
  { apply reads_expr; [lia |]. intros x j c' (? & ? & ? & Hx) _ _. apply reads_expect. intros Hclose.
    apply (reads_finish_from i); [lia | done |]. apply reads_reserve_node, reads_ret.
    apply Hdone; [lia | lia | by eapply index_of | cbn [expr_size]; lia | done]. }
  apply reads_take_symbol; intros Hcolon; [| by apply reads_ret].
  apply reads_name. intros n Hn. eapply reads_bind; [apply method_arguments_spec |].
  intros es j c' (? & ? & ? & Hes). apply (reads_finish_from i); [lia | done |]. apply reads_reserve_node, reads_ret.
  norm. apply Hdone; [lia | lia | by eapply method_of | cbn [expr_size]; lia | done].
Qed.

Lemma prefix_levels e : is_prefix_expr e = true -> right_level e = operand_level /\ left_level e = operand_level.
Proof. by destruct e. Qed.

Lemma postfix_spec i k c0 c base :
  operand i c0 base k c ->
  reads k c d (postfix tokens limits profile expr block_until base) d (fun e j c' => operand i c0 e j c' /\ c <= c').
Proof.
  intros Hb. unfold postfix. eapply reads_rounds with (I := fun e j c' => operand i c0 e j c' /\ c <= c'); [| split; [done | lia]].
  intros e j c' [(Hph & Hr & Hl) Hc] Hj _. eapply reads_bind; [by eapply postfix_step_spec |].
  intros [e' |] j' c''.
  - intros (? & ? & ? & _ & Hp). apply reads_ret. split; [lia |]. split; [lia |]. split; [| lia].
    destruct (prefix_levels _ Hp). by split; [| split; [| left]].
  - intros [-> ->]. apply reads_ret. by repeat (split; [lia |]).
Qed.

(** *** The operator loop *)

(** What the loop has read: no operator that follows binds tighter than the root. *)
Definition left_of (min i c : Z) (e : Expr) (j c' : Z) : Prop :=
  phrase expr_of expr_size i c e j c' /\ min <= right_level e /\
  forall op, kind_at j = Some (op_token op) -> left_ok op e.

Lemma op_level_range op : 1 <= op_level op <= 13.
Proof. by destruct op. Qed.

Lemma operand_left_of min i c e j c' : min <= 13 -> operand i c e j c' -> left_of min i c e j c'.
Proof.
  intros Hm (Hp & Hr & Hl). split; [done |]. unfold operand_level, unary_level in *. split; [lia |].
  intros op Hop. pose proof (op_level_range op). unfold left_ok.
  destruct Hl as [-> | (-> & Hst & _)]; [| specialize (Hst op Hop)]; destruct (right_assoc op); lia.
Qed.

Lemma binary_step_spec min i k c0 c left :
  0 <= min <= 13 -> left_of min i c0 left k c ->
  reads k c d (binary_step tokens limits expr min left) d
    (fun r j c' => c <= c' /\ match r with
       | inl e => k < j /\ left_of min i c0 e j c'
       | inr e => k <= j /\ expression min i c0 e j c'
       end).
Proof.
  intros Hmin (Hph & Hr & Hleft). unfold binary_step, binary. apply reads_bind with (d1 := d)
    (P' := fun o j c' => o = (t ← zget tokens k; binary_operator (kind t)) /\ j = k /\ c' = c).
  { apply reads_current. intros t Ht. apply reads_ret. by rewrite Ht. }
  intros o ? ? (-> & -> & ->). apply reads_range. intros Hk _ _.
  destruct (zget_is_Some tokens k Hk) as [t Ht]. rewrite Ht. cbn [mbind option_bind].
  pose proof (kind_at_get _ _ Ht) as Hki.
  destruct (binary_operator (kind t)) as [[[op prec] rt] |] eqn:Hop.
  2: { apply reads_ret. split; [lia |]. split; [lia |]. split; [done |]. split; [done |]. intros op Hk'.
       rewrite Hki in Hk'. injection Hk' as Hk'. by rewrite Hk', op_token_operator in Hop. }
  destruct (binary_operator_token _ _ _ _ Hop) as (Htk & -> & ->). rewrite Htk in Hki.
  destruct (Z.ltb_spec (op_level op) min).
  { apply reads_ret. split; [lia |]. split; [lia |]. split; [done |]. split; [done |]. intros op' Hk'.
    rewrite Hki in Hk'. injection Hk' as Hk'. assert (op' = op) as -> by (revert Hk'; by destruct op, op'). done. }
  apply reads_advance; [rewrite Hki; by destruct op |]. pose proof (op_level_range op).
  destruct Hph as (Hik & Hc & Hs & Hl). apply reads_expr.
  { destruct op; cbn [right_assoc op_level]; lia. }
  intros r j c' (? & ? & ? & Hrhs) Hrl Hst. apply reads_reserve_node, reads_ret.
  rewrite (expr_of_span _ _ _ _ _ _ Hl), (expr_of_span _ _ _ _ _ _ Hrhs), join_text.
  split; [lia |]. split; [lia |]. split; [| split; [cbn [right_level]; lia |]].
  - split; [lia |]. split; [lia |]. split; [cbn [expr_size]; lia |].
    apply binary_of with (k := k); [done | done | done | by apply Hleft |]. unfold right_ok. destruct (right_assoc op); lia.
  - intros op' Hop'. specialize (Hst op' Hop'). unfold left_ok. cbn [left_level].
    pose proof (op_level_assoc op op') as Hassoc. destruct (right_assoc op) eqn:Ha, (right_assoc op') eqn:Hb; lia.
Qed.

Lemma operators_spec min i k c0 c left :
  0 <= min <= 13 -> left_of min i c0 left k c ->
  reads k c d (rounds tokens (binary_step tokens limits expr min) left) d (expression min i c0).
Proof.
  intros Hmin Hl. eapply reads_rounds with (I := left_of min i c0); [| done].
  intros e j c' He _ _. eapply reads_weaken; [by apply binary_step_spec |].
  intros [e' | e'] j' c'' [? [? ?]]; done.
Qed.

(** ** Statements *)

Lemma function_name_spec i c :
  reads i c d (function_name tokens) d
    (fun r j c' => i < j /\ c' = c /\ function_name_of tokens i j r).
Proof.
  unfold function_name. apply reads_range. intros Hi _ _. apply reads_current. intros t Ht. apply reads_name. intros n Hn.
  rewrite <- (tok_span_get _ _ Ht), <- (text_one tokens i).
  eapply reads_weaken; [eapply reads_rounds with
    (P := fun r j c' => c' = c /\ function_name_of tokens i j r /\ i < j)
    (I := fun e j c' => i < j /\ c' = c /\ dotted_name tokens i j e /\ expr_span e = text i j) |].
  - intros e j c' (Hij & -> & He & Hsp) _ _. apply reads_take_symbol; intros Hdot.
    + apply reads_current. intros t' Ht'. apply reads_name. intros n' Hn'. apply reads_ret.
      rewrite <- (tok_span_get _ _ Ht'), Hsp, <- (text_one tokens (j + 1)), join_text. norm.
      split; [lia |]. split; [lia |]. split; [lia |]. split; [done |]. by split; [apply dotted_snoc |].
    + apply reads_take_symbol; intros Hcolon.
      * apply reads_previous; [lia |]. intros p Hpr. apply reads_current. intros t' Ht'. apply reads_name. intros n' Hn'.
        apply reads_ret. rewrite <- (tok_span_get _ _ Hpr), <- (tok_span_get _ _ Ht'), Hsp.
        rewrite <- (text_one tokens (j + 1)) at 1. rewrite join_text. replace (j + 1 - 1) with j by lia. norm.
        split; [lia |]. split; [lia |]. split; [done |]. split; [by apply function_name_method | lia].
      * apply reads_ret. split; [lia |]. split; [lia |]. split; [done |]. split; [by constructor | lia].
  - split; [lia |]. split; [done |]. by split; [constructor |].
  - intros r j c' (? & ? & ?). done.
Qed.

(** A statement after the token [i0] that begins it. *)
Definition rest_of_statement (i0 c0 : Z) (s : Stmt) (j c' : Z) : Prop :=
  phrase (stmt_of tokens limits profile) stmt_size i0 c0 s j c'.

Section Starts.
Context (i0 c : Z) (start : Span).
Context (Hi0 : 0 <= i0) (Hstart : start = tok_span i0).

Abbreviation statement_after m := (reads (i0 + 1) (c + 1) d m d (rest_of_statement i0 c)).

Lemma start_of : span_start start = span_start (tok_span i0).
Proof. by rewrite Hstart. Qed.

Ltac finish_from := apply (reads_finish_from i0); [lia | apply start_of |].
Ltac phrased := split; [lia |]; split; [lia |]; split; [cbn [stmt_size global_size option_size]; lia |]; norm.

Lemma label_statement_spec : sym i0 Symbol.DoubleColon -> statement_after (label_statement tokens limits start).
Proof.
  intros H0. unfold label_statement. apply reads_current. intros t Ht. apply reads_name. intros n Hn.
  apply reads_expect. intros H2. apply reads_reserve_node. finish_from. apply reads_ret.
  rewrite <- (tok_span_get _ _ Ht). phrased. by apply label_of.
Qed.

Lemma function_statement_spec :
  key i0 Keyword.Function -> statement_after (function_statement tokens limits profile block_until start).
Proof.
  intros H0. unfold function_statement. eapply reads_bind; [apply function_name_spec |].
  intros [e m] k c1 (Hk & -> & Hn). apply (reads_function_body i0); [apply start_of |].
  intros f j c2 (? & ? & ? & Hf). finish_from. apply reads_ret. phrased. by eapply function_stmt_of.
Qed.

Lemma do_statement_spec : key i0 Keyword.Do -> statement_after (do_statement tokens block_until start).
Proof.
  intros H0. unfold do_statement. apply reads_block; [lia |]. intros b j c1 (? & ? & ? & Hb).
  apply reads_expect_keyword. intros Hend. finish_from. apply reads_ret. phrased. by apply do_of.
Qed.

Lemma while_statement_spec : key i0 Keyword.While -> statement_after (while_statement tokens expr block_until start).
Proof.
  intros H0. unfold while_statement. apply reads_expr; [lia |]. intros e k c1 (? & ? & ? & He) _ _.
  apply reads_expect_keyword. intros Hdo. apply reads_block; [lia |]. intros b j c2 (? & ? & ? & Hb).
  apply reads_expect_keyword. intros Hend. finish_from. apply reads_ret. phrased. by eapply while_of.
Qed.

Lemma repeat_statement_spec : key i0 Keyword.Repeat -> statement_after (repeat_statement tokens expr block_until start).
Proof.
  intros H0. unfold repeat_statement. apply reads_block; [lia |]. intros b k c1 (? & ? & ? & Hb).
  apply reads_expect_keyword. intros Hun. apply reads_expr; [lia |]. intros e j c2 (? & ? & ? & He) _ _.
  finish_from. apply reads_ret. phrased. by eapply repeat_of.
Qed.

Abbreviation clause_size := (fun cl : Expr * Block => expr_size cl.1 + block_size cl.2).

Lemma clause_spec i c0 :
  0 <= i -> reads i c0 d (clause tokens expr block_until) d
    (phrase (clause_of tokens limits profile) clause_size i c0).
Proof.
  intros Hi. unfold clause. apply reads_expr; [lia |]. intros e k c1 (? & ? & ? & He) _ _.
  apply reads_expect_keyword. intros Hthen. apply reads_block; [lia |]. intros b j c2 (? & ? & ? & Hb).
  apply reads_ret. split; [lia |]. split; [lia |]. split; [cbn; lia |]. by eapply clause_of_.
Qed.

Lemma if_statement_spec : key i0 Keyword.If -> statement_after (if_statement tokens limits expr block_until start).
Proof.
  intros H0. unfold if_statement. eapply reads_bind; [apply clause_spec; lia |]. intros cl k c1 Hcl.
  pose proof Hcl as (Hk & _). eapply reads_bind; [eapply (reads_rest (clause_of tokens limits profile) clause_size); [done | exact Hcl |] |].
  { intros xs j c2 Hj Hc. eapply reads_bind; [apply clause_spec; lia |]. intros x m c3 Hx.
    apply reads_list_room. intros Hroom. apply reads_ret. by exists x. }
  intros cs m c2 ((? & ? & ? & Hcs & Hl) & _ & _). apply reads_take_keyword; intros Helse.
  - eapply reads_some; [apply Hblock; lia |]. intros b j c3 (? & ? & ? & Hb).
    apply reads_expect_keyword. intros Hend. finish_from. apply reads_ret. phrased.
    eapply if_of; [done | done | done | by apply else_some | done].
  - apply reads_none. apply reads_expect_keyword. intros Hend. finish_from. apply reads_ret. phrased.
    eapply if_of; [done | done | done | by apply else_none | done].
Qed.

Lemma numeric_for_spec k c0 local :
  key i0 Keyword.For -> plain_name tokens (i0 + 1) local -> sym (i0 + 2) Symbol.Assign ->
  k = i0 + 3 -> c0 = c + 2 ->
  reads k c0 d (numeric_for tokens expr block_until start local) d (rest_of_statement i0 c).
Proof.
  intros H0 Hn Ha -> ->. unfold numeric_for. apply reads_expr; [lia |]. intros a k1 c1 (? & ? & ? & He1) _ _.
  apply reads_expect. intros Hcomma. apply reads_expr; [lia |]. intros l k2 c2 (? & ? & ? & He2) _ _.
  assert (forall o k3 c3, k2 <= k3 -> c2 + option_size expr_size o <= c3 -> c2 <= c3 ->
    step_of tokens limits profile k2 k3 o ->
    reads k3 c3 d (expect_keyword tokens Keyword.Do;; body ← block_until [Keyword.End];
      expect_keyword tokens Keyword.End;; span ← finish tokens start;
      mret (Stmt_NumericFor local a l o body span)) d (rest_of_statement i0 c)) as Hrest.
  { intros o k3 c3 ? ? ? Ho. apply reads_expect_keyword. intros Hdo. apply reads_block; [lia |].
    intros b j c4 (? & ? & ? & Hb). apply reads_expect_keyword. intros Hend. finish_from. apply reads_ret. phrased.
    by eapply numeric_for_of. }
  apply reads_take_symbol; intros Hstep.
  - eapply reads_some; [by apply (Hexpr _ _ 0) |]. intros e k3 c3 ((? & ? & ? & He3) & _).
    apply Hrest; [lia | cbn [option_size]; lia | lia | by apply step_some].
  - apply reads_none, Hrest; [lia | cbn [option_size]; lia | lia | by apply step_none].
Qed.

Lemma total_size_one {A} (l : list A) : total_size (fun _ => 1) l = zlen l.
Proof. unfold total_size. induction l as [| x l IH]; [done |]. cbn [fold_right]. rewrite zlen_cons. lia. Qed.

Lemma generic_for_spec k c0 local :
  key i0 Keyword.For -> plain_name tokens (i0 + 1) local -> ~ sym (i0 + 2) Symbol.Assign ->
  k = i0 + 2 -> c0 = c + 2 ->
  reads k c0 d (generic_for tokens limits expr block_until start local) d (rest_of_statement i0 c).
Proof.
  intros H0 Hn Ha -> ->. unfold generic_for.
  eapply reads_bind; [eapply (reads_rest (fun i j n => plain_name tokens i n /\ j = i + 1) (fun _ => 1) comma (i0 + 1) _ (c + 1)) |].
  - done.
  - split; [lia |]. split; [lia |]. split; [lia |]. split; [done | lia].
  - intros xs j c1 Hj Hc. apply reads_list_room. intros Hroom. apply reads_current. intros t Ht.
    apply reads_reserve_node, reads_name. intros n Hname. apply reads_ret. eexists. split; [done |]. split; [done |].
    split; [lia |]. split; [lia |]. split; [lia |]. split; [| done]. split; [done |]. split; [done |].
    cbn. by rewrite (tok_span_get _ _ Ht).
  - intros ns k1 c1 ((? & ? & Hs & Hns & Hl) & _ & _). rewrite total_size_one in Hs. pose proof (zlen_nonneg ns).
    apply reads_expect_keyword. intros Hin. eapply reads_bind; [apply list_expr_spec |].
    intros es k2 c2 [(Heof & -> & -> & ->) | (? & ? & ? & Hes & Hle)]; apply reads_expect_keyword; intros Hdo.
    { unfold ParserGrammar.key in Hdo. congruence. }
    apply reads_block; [lia |]. intros b j c3 (? & ? & ? & Hb).
    apply reads_expect_keyword. intros Hend. finish_from. apply reads_ret. phrased. by eapply generic_for_of.
Qed.

Lemma for_statement_spec : key i0 Keyword.For -> statement_after (for_statement tokens limits expr block_until start).
Proof.
  intros H0. unfold for_statement. eapply reads_bind; [apply parameter_spec |]. intros local k c1 (Hn & -> & ->).
  norm. apply reads_take_symbol; intros Ha; norm; [apply numeric_for_spec | apply generic_for_spec]; done || lia.
Qed.

Lemma return_statement_spec :
  key i0 Keyword.Return -> statement_after (return_statement tokens limits profile expr start).
Proof.
  intros H0. unfold return_statement. apply reads_current. intros t Ht.
  assert (forall es j c1, i0 + 1 <= j -> c + 1 <= c1 -> c + 1 + total_size expr_size es <= c1 ->
    (too_many_returns profile es = false -> stmt_of tokens limits profile i0 j (Stmt_Return es (text i0 j))) ->
    reads j c1 d (if too_many_returns profile es
       then p ← previous tokens; fail (diagnostic (Some p) Parse "too many returns")
       else span ← finish tokens start; mret (Stmt_Return es span)) d (rest_of_statement i0 c)) as Hdone.
  { intros es j c1 Hj Hc Hs Hof. destruct (too_many_returns profile es).
    - apply reads_previous; [lia |]. intros p Hp. apply reads_fail. eapply diagnostic_at_token; [done | by left].
    - finish_from. apply reads_ret. phrased. auto. }
  destruct (ends_return t) eqn:Hends.
  - apply reads_none, Hdone; [lia | lia | cbn; lia | intros _; by apply return_none_of].
  - eapply reads_bind; [apply list_expr_spec |]. intros es j c1 [(Heof & _) | (? & ? & ? & Hes & Hl)].
    + exfalso. rewrite (kind_at_get _ _ Ht) in Heof. injection Heof as Hk. unfold ends_return, is_kind in Hends.
      rewrite Hk in Hends. done.
    + apply Hdone; [lia | lia | lia | intros Hmany; by apply return_of].
Qed.

Lemma goto_statement_spec : key i0 Keyword.Goto -> statement_after (goto_statement tokens start).
Proof.
  intros H0. unfold goto_statement. apply reads_name. intros n Hn. apply reads_previous; [lia |]. intros p Hp.
  finish_from. apply reads_ret. rewrite <- (tok_span_get _ _ Hp). replace (i0 + 1 + 1 - 1) with (i0 + 1) by lia.
  phrased. by apply goto_of.
Qed.

Lemma break_spec : key i0 Keyword.Break -> statement_after (span ← finish tokens start; mret (Stmt_Break span)).
Proof. intros H0. finish_from. apply reads_ret. phrased. by apply break_of. Qed.

Lemma local_function_spec :
  key i0 Keyword.Local -> key (i0 + 1) Keyword.Function ->
  reads (i0 + 2) (c + 1) d (local_function tokens limits profile block_until start) d (rest_of_statement i0 c).
Proof.
  intros H0 H1. unfold local_function. eapply reads_bind; [apply parameter_spec |]. intros n k c1 (Hn & -> & ->).
  apply (reads_function_body i0); [apply start_of |]. norm. change (2 + 1) with 3 in *.
  intros f j c2 (? & ? & ? & Hf). finish_from. apply reads_ret. phrased. by apply local_function_of.
Qed.

(** *** Declarations *)

Lemma attribute_spec i c0 :
  0 <= i -> reads i c0 d (attribute tokens) d (fun a j c' => attribute_of tokens i j a /\ i < j /\ c' = c0).
Proof.
  intros Hi. unfold attribute. apply reads_current. intros t Ht. apply reads_name. intros n Hn. apply reads_expect. intros Hg.
  apply (reads_finish_from i); [lia | by rewrite (tok_span_get _ _ Ht) |]. apply reads_ret. norm.
  split; [| lia]. by repeat (split; [done |]).
Qed.

Lemma optional_attribute_spec otherwise i c0 :
  0 <= i ->
  reads i c0 d (optional_attribute tokens otherwise) d
    (fun a j c' => optional_attribute_of tokens otherwise i j a /\ i <= j /\ c' = c0).
Proof.
  intros Hi. unfold optional_attribute. apply reads_take_symbol; intros Hl.
  - apply reads_fmap. eapply reads_weaken; [apply attribute_spec; lia |]. intros a j c' (? & ? & ->).
    split; [left; by exists a | lia].
  - apply reads_ret. split; [by right | lia].
Qed.

Lemma local_prefix_attribute_spec i c0 :
  0 <= i ->
  reads i c0 d (local_prefix_attribute tokens profile) d
    (fun a j c' => local_prefix_of tokens profile i j a /\ i <= j /\ c' = c0).
Proof.
  intros Hi. unfold local_prefix_attribute. destruct profile eqn:Hpr.
  2: { apply reads_none, reads_ret. split; [right | lia]. by split; [intros [] |]. }
  apply reads_take_symbol; intros Hl; [| apply reads_ret; split; [right | lia]; by split; [intros [] |]].
  apply reads_current. intros t Ht. eapply reads_bind; [apply attribute_spec; lia |]. intros a j c' (Ha & ? & ->).
  destruct (_ || _) eqn:Hn; [| apply reads_fail; eapply diagnostic_at_token; [done | by left]].
  apply reads_ret. split; [left | lia]. exists a. do 4 (split; [done |]).
  apply orb_prop in Hn as [Hn%bool_decide_eq_true | Hn%bool_decide_eq_true]; auto.
Qed.

(** [more ← self.take_symbol(Comma)] at the end of a round. *)
Lemma reads_more {A} (G : Z -> Z -> A -> Prop) size i k c0 c1 (xs : list A) x :
  phrase G size i c0 x k c1 ->
  reads k c1 d (more ← take_symbol tokens Symbol.Comma; mret (if more : bool then inl (xs ++ [x]) else inr (xs ++ [x]))) d
    (fun r j' c'' => exists x k, phrase G size i c0 x k c'' /\
       match r with
       | inl xs' => xs' = xs ++ [x] /\ sym k Symbol.Comma /\ j' = k + 1
       | inr xs' => xs' = xs ++ [x] /\ j' = k
       end).
Proof. intros Hx. apply reads_take_symbol; intros Hc; apply reads_ret; by exists x, k. Qed.

Lemma local_names_spec prefix i c0 :
  reads i c0 d (local_names tokens limits prefix) d
    (phrase (fun i j ns => sep_by tokens (local_name_of tokens prefix) comma i j ns /\ listed ns) zlen i c0).
Proof.
  eapply reads_weaken; [apply (reads_comma_list (local_name_of tokens prefix) (fun _ => 1)) |].
  2: { intros ns j c' (? & ? & Hs & ?). rewrite total_size_one in Hs. done. }
  intros xs k c1 _ _. apply reads_range. intros Hk _ _. apply reads_current. intros t Ht. apply reads_name. intros n Hn.
  eapply reads_bind; [apply optional_attribute_spec; lia |]. intros a j c2 (Ha & ? & ->).
  assert (forall c3, c1 <= c3 -> reads j c3 d (reserve_node tokens limits;; span ← finish tokens (span t);
    let names := xs ++ [{| ln_name := n; ln_attribute := a; ln_span := span |}] in
    more ← take_symbol tokens Symbol.Comma; mret (if more : bool then inl names else inr names)) d
    (fun r j' c'' => exists x m, phrase (local_name_of tokens prefix) (fun _ => 1) k c1 x m c'' /\
       match r with
       | inl xs' => xs' = xs ++ [x] /\ sym m Symbol.Comma /\ j' = m + 1
       | inr xs' => xs' = xs ++ [x] /\ j' = m
       end)) as Hrest.
  { intros c3 Hc. apply reads_reserve_node. apply (reads_finish_from k); [lia | by rewrite (tok_span_get _ _ Ht) |].
    apply reads_more. split; [lia |]. split; [lia |]. split; [lia |]. by split; [| split]. }
  destruct a; [apply reads_reserve_node, Hrest; lia | apply reads_none, Hrest; lia].
Qed.

Lemma global_names_spec i c0 :
  reads i c0 d (global_names tokens limits) d
    (phrase (fun i j ns => sep_by tokens (global_name_of tokens) comma i j ns /\ listed ns) zlen i c0).
Proof.
  eapply reads_weaken; [apply (reads_comma_list (global_name_of tokens) (fun _ => 1)) |].
  2: { intros ns j c' (? & ? & Hs & ?). rewrite total_size_one in Hs. done. }
  intros xs k c1 _ _. apply reads_range. intros Hk _ _. apply reads_current. intros t Ht. apply reads_name. intros n Hn.
  eapply reads_bind; [apply optional_attribute_spec; lia |]. intros a j c2 (Ha & ? & ->).
  apply reads_reserve_node. apply reads_more. split; [lia |]. split; [lia |]. split; [lia |].
  split; [done |]. split; [done |]. cbn. by rewrite (tok_span_get _ _ Ht).
Qed.

Lemma optional_values_spec i c0 :
  reads i c0 d (optional_values tokens limits expr) d
    (fun es j c' => i <= j /\ c0 <= c' /\ c0 + total_size expr_size es <= c' /\
       optional_values_of tokens limits expr_of i j es).
Proof.
  unfold optional_values. apply reads_take_symbol; intros Ha.
  - eapply reads_weaken; [apply list_expr_spec |].
    intros es j c' [(? & -> & -> & ->) | (? & ? & ? & ? & ?)]; (split; [lia |]; split; [lia |]);
      (split; [first [lia | cbn; lia] |]); apply values_some; try done; by constructor.
  - apply reads_ret. split; [lia |]. split; [lia |]. split; [cbn; lia |]. by constructor.
Qed.

Lemma local_statement_spec :
  key i0 Keyword.Local -> statement_after (local_statement tokens limits profile expr block_until start).
Proof.
  intros H0. unfold local_statement. apply reads_take_keyword; intros Hf.
  { norm. by apply local_function_spec. }
  eapply reads_bind; [apply local_prefix_attribute_spec; lia |]. intros prefix k1 c1 (Hp & ? & ->).
  eapply reads_bind; [apply local_names_spec |]. intros ns k2 c2 (? & ? & ? & Hns & Hl).
  eapply reads_bind; [apply optional_values_spec |]. intros es j c3 (? & ? & ? & Hv).
  finish_from. apply reads_ret. phrased. by eapply local_of.
Qed.

Lemma global_statement_spec :
  key i0 Keyword.Global -> statement_after (global_statement tokens limits profile expr block_until start).
Proof.
  intros H0. unfold global_statement.
  eapply reads_bind; [apply optional_attribute_spec; lia |]. intros prefix k1 c1 (Hp & ? & ->).
  apply reads_take_symbol; intros Hstar.
  { finish_from. apply reads_reserve_node, reads_ret. phrased. by apply global_star_of. }
  apply reads_take_keyword; intros Hfn.
  - destruct prefix as [a |]; [apply reads_bind with (d1 := d) (P' := fun _ _ _ => False); [apply reads_error | done] |].
    destruct Hp as [(? & _ & _ & [=]) | (Hl & -> & _)]. apply reads_none, reads_name. intros n Hn.
    apply (reads_function_body i0); [apply start_of |]. norm. intros f j c2 (? & ? & ? & Hf).
    finish_from. apply reads_reserve_node, reads_ret. phrased. by apply global_function_of.
  - eapply reads_bind; [apply global_names_spec |]. intros ns k2 c2 (? & ? & ? & Hns & Hl).
    eapply reads_bind; [apply optional_values_spec |]. intros es j c3 (? & ? & ? & Hv).
    finish_from. apply reads_reserve_node, reads_ret. phrased. by eapply global_of.
Qed.

End Starts.

(** At the first token of an assignment or a call. *)
Lemma assignment_or_call_spec i c t :
  zget tokens i = Some t ->
  reads i (c + 1) d (assignment_or_call tokens limits expr (span t)) d (rest_of_statement i c).
Proof.
  intros Ht. unfold assignment_or_call. apply reads_range. intros Hi _ _.
  assert (span_start (span t) = span_start (tok_span i)) as Hstart by (by rewrite (tok_span_get _ _ Ht)).
  apply reads_expr; [lia |]. intros e k c1 He _ _. pose proof He as (Hk & _).
  eapply reads_bind; [eapply (reads_rest expr_of expr_size); [done | exact He |] |].
  { intros xs j c2 Hj Hc. apply reads_list_room. intros Hroom. apply reads_expr; [lia |]. intros x m c3 Hx _ _.
    apply reads_ret. by exists x. }
  intros ts m c2 ((? & ? & ? & Hts & Hl) & _ & _). apply reads_take_symbol; intros Ha.
  - assert (forall es j c3, m + 1 <= j -> c2 + total_size expr_size es <= c3 -> c2 <= c3 ->
      values_of tokens limits expr_of (m + 1) j es ->
      reads j c3 d (if forallb is_assignable ts then span ← finish tokens (span t); mret (Stmt_Assignment ts es span)
        else error tokens "assignment 左側不可指派") d (rest_of_statement i c)) as Hdone.
    { intros es j c3 ? ? ? Hv. destruct (forallb is_assignable ts) eqn:Hall; [| apply reads_error].
      apply (reads_finish_from i); [lia | done |]. apply reads_ret. split; [lia |]. split; [lia |].
      split; [cbn [stmt_size]; lia |]. by eapply assignment_of. }
    eapply reads_bind; [apply list_expr_spec |].
    intros es j c3 [(? & -> & -> & ->) | (? & ? & ? & ? & ?)]; apply Hdone; try lia; [cbn; lia | by constructor..].
  - destruct ts as [| call [| ? ?]]; try apply reads_error.
    destruct (is_call call) eqn:Hcall; [| apply reads_error].
    apply (reads_finish_from i); [lia | done |]. apply reads_ret. split; [lia |]. split; [lia |].
    split; [cbn [stmt_size total_size fold_right] in *; lia |]. apply call_stmt_of; [| done].
    by eapply sep_by_single.
Qed.

Lemma keyword_statement_spec i c t k run :
  zget tokens i = Some t -> kind t = TokenKind.Keyword k -> 0 <= i ->
  keyword_statement tokens limits profile expr block_until k = Some run ->
  reads (i + 1) (c + 1) d (run (span t)) d (rest_of_statement i c).
Proof.
  intros Ht Hk Hi Hrun. assert (key i k) as Hkey by (unfold ParserGrammar.key; by rewrite (kind_at_get _ _ Ht), Hk).
  pose proof (eq_sym (tok_span_get _ _ Ht)) as Hsp.
  destruct k; try discriminate Hrun; injection Hrun as <-;
    [ apply break_spec | apply do_statement_spec | apply for_statement_spec | apply function_statement_spec
    | apply goto_statement_spec | apply if_statement_spec | apply local_statement_spec
    | apply repeat_statement_spec | apply return_statement_spec | apply while_statement_spec
    | apply global_statement_spec]; done.
Qed.

Lemma statement_spec i c :
  reads i c d (statement tokens limits profile expr block_until) d (rest_of_statement i c).
Proof.
  unfold statement. apply reads_range. intros Hi _ _. apply reads_reserve_node, reads_current. intros t Ht.
  pose proof (kind_at_get _ _ Ht) as Hki. pose proof (eq_sym (tok_span_get _ _ Ht)) as Hsp.
  destruct (kind t) as [| k | | | | | y] eqn:Hk; try (by apply assignment_or_call_spec).
  - destruct (keyword_statement tokens limits profile expr block_until k) as [run |] eqn:Hrun;
      [| by apply assignment_or_call_spec].
    apply reads_advance; [congruence |]. eapply keyword_statement_spec; [done | done | lia | done].
  - destruct y; try (by apply assignment_or_call_spec); (apply reads_advance; [congruence |]).
    + apply reads_ret. rewrite Hsp, <- (text_one tokens i). split; [lia |]. split; [lia |].
      split; [cbn [stmt_size]; lia |]. by apply empty_of.
    + apply label_statement_spec; [lia | done | done].
Qed.

(** ** Blocks *)

Abbreviation ends_at ended j := (exists t, zget tokens j = Some t /\ is_kind TokenKind.Eof t || ended t = true).
Abbreviation stmts_of := (statements_of tokens (stmt_of tokens limits profile)).

Definition some_statements (i c : Z) (ss : list Stmt) (j c' : Z) : Prop :=
  i <= j /\ c <= c' /\ c + total_size stmt_size ss <= c' /\ stmts_of i j ss.

(** What follows a statement: a return ends the block. *)
Lemma after_statement_spec ended s k c :
  reads k c d (if is_return s then
       take_symbol tokens Symbol.Semicolon;;
       t ← current tokens;
       if is_kind TokenKind.Eof t || ended t then mret tt else error tokens "return 必須為 block 最後陳述式"
     else mret tt) d
    (fun _ m c' => k <= m /\ c' = c /\ after_statement tokens s k m /\ (is_return s = true -> ends_at ended m)).
Proof.
  unfold after_statement. destruct (is_return s); [| apply reads_ret; split; [lia | done]].
  assert (forall m, k <= m -> (sym k Symbol.Semicolon /\ m = k + 1 \/ ~ sym k Symbol.Semicolon /\ m = k) ->
    reads m c d (t ← current tokens; if is_kind TokenKind.Eof t || ended t then mret tt
       else error tokens "return 必須為 block 最後陳述式") d
     (fun _ m c' => k <= m /\ c' = c /\
        (sym k Symbol.Semicolon /\ m = k + 1 \/ ~ sym k Symbol.Semicolon /\ m = k) /\ (true = true -> ends_at ended m))) as Hcheck.
  { intros m Hm Hafter. apply reads_current. intros t' Ht'. destruct (_ || _) eqn:He; [| apply reads_error].
    apply reads_ret. split; [done |]. split; [done |]. split; [done |]. intros _. by exists t'. }
  apply reads_take_symbol; intros Hsemi; apply Hcheck; auto; lia.
Qed.

Lemma statements_until_spec ended i c :
  reads i c d (statements_until tokens limits profile expr block_until ended) d
    (fun ss j c' => some_statements i c ss j c' /\ ends_at ended j).
Proof.
  unfold statements_until. eapply reads_weaken; [eapply reads_rounds with
    (P := fun ss j c' => some_statements i c ss j c' /\ ends_at ended j)
    (I := fun ss j c' => some_statements i c ss j c' /\ (existsb is_return ss = true -> ends_at ended j)) | done].
  2: { split; [| done]. split; [lia |]. split; [lia |]. split; [cbn; lia |]. constructor. }
  intros ss j c1 [(Hij & Hc & Hs & Hss) Hret] _ _. apply reads_current. intros t Ht.
  destruct (is_kind TokenKind.Eof t || ended t) eqn:Hend.
  { apply reads_ret. split; [lia |]. split; [lia |]. by split; [| exists t]. }
  assert (existsb is_return ss = false) as Hnone.
  { destruct (existsb is_return ss); [| done]. destruct Hret as (t' & Ht' & He); [done |]. congruence. }
  apply reads_count_statement. eapply reads_bind; [apply statement_spec |].
  intros s k c2 (Hjk & Hc2 & Hs2 & Hstmt). eapply reads_bind; [apply after_statement_spec |].
  intros [] m c3 (Hm & -> & Hafter & Hlast). apply reads_ret. split; [lia |]. split; [lia |]. split.
  - split; [lia |]. split; [lia |]. rewrite total_size_snoc. split; [lia |]. by eapply statements_snoc.
  - rewrite existsb_app, Hnone. cbn. by rewrite orb_false_r.
Qed.

Lemma existsb_is_keyword ends t :
  existsb (fun k => is_keyword k t) ends = true -> exists k, k ∈ ends /\ kind t = TokenKind.Keyword k.
Proof.
  intros (k & Hk & He)%existsb_exists. exists k. split; [by apply list_elem_of_In |]. by apply is_kind_true in He.
Qed.

End Calls.

(** ** The knot *)

Lemma expr_body_spec expr block_until d :
  0 <= d -> expr_promise (d + 1) expr -> block_promise (d + 1) block_until ->
  expr_promise d (expr_body tokens limits profile expr block_until).
Proof.
  intros Hd He Hb i c min Hmin. unfold expr_body. apply reads_enter. intros Hdepth.
  eapply reads_bind; [by apply prefix_spec |]. intros e k c1 [Hop _].
  eapply reads_bind; [by apply postfix_spec |]. intros e' k' c2 [Hop' _].
  eapply reads_bind; [eapply operators_spec; [done | done | done | eapply operand_left_of; [exact He | exact Hb | lia | exact Hop']] |].
  intros e'' j c3 He''. by apply reads_leave, reads_ret.
Qed.

Lemma block_body_spec expr block_until d :
  0 <= d -> expr_promise (d + 1) expr -> block_promise (d + 1) block_until ->
  block_promise d (block_body tokens limits profile expr block_until).
Proof.
  intros Hd He Hb i c ends Hi. unfold block_body. apply reads_reserve_node, reads_enter. intros Hdepth.
  apply reads_current. intros t Ht. eapply reads_bind; [by apply statements_until_spec |].
  intros ss j c1 ((Hij & Hc & Hs & Hss) & t' & Ht' & Hend). apply reads_eof; intros Heof Hj; [apply reads_error |].
  apply reads_leave; [done |]. apply reads_current. intros t'' Ht''. rewrite Ht'' in Ht'. injection Ht' as ->. apply reads_ret.
  assert (kind t' <> TokenKind.Eof) as Hne by (rewrite (kind_at_get _ _ Ht'') in Heof; congruence).
  apply orb_prop in Hend as [? %is_kind_true | (k & Hk & Hkind)%existsb_is_keyword]; [done |].
  split; [lia |]. split; [lia |]. split; [cbn [block_size]; lia |].
  assert (join (span t) (span t') = text i (j + 1)) as ->.
  { unfold ParserGrammar.text. replace (j + 1 - 1) with j by lia. by rewrite (tok_span_get _ _ Ht), (tok_span_get _ _ Ht''). }
  rewrite <- (tok_span_get _ _ Ht'').
  eapply block_of_; [done | | done]. unfold ParserGrammar.key. rewrite (kind_at_get _ _ Ht''). congruence.
Qed.

(** Fuel: a call at depth [d] needs one more than the depths that are left. *)
Lemma calls_spec fuel d :
  0 <= d -> Z.max 0 (max_parse_depth limits) - d < Z.of_nat fuel ->
  expr_promise d (calls tokens limits profile fuel).1 /\ block_promise d (calls tokens limits profile fuel).2.
Proof.
  revert d. induction fuel as [| fuel IH]; intros d Hd Hf.
  - split; intros i c ? _ s Hs; pose proof (at_depths _ _ _ _ Hs); lia.
  - destruct (IH (d + 1)) as [He Hb]; [lia | lia |].
    split; [by apply expr_body_spec | by apply block_body_spec].
Qed.

(** A chunk: the statements of the grammar, and two nodes more than they have. *)
Lemma module_spec source_len :
  reads 0 0 0 (module tokens limits profile source_len) 0
    (fun m _ c' => mod_profile m = profile /\ (2 <= c' /\ 1 + block_size (root m) <= c') /\
       mod_span m = {| span_start := 0; span_end := source_len |} /\
       exists ss, root m = Block_ ss None (mod_span m) /\ chunk_of tokens limits profile ss).
Proof.
  destruct (calls_spec (call_fuel limits) 0) as [He Hb]; [lia | unfold call_fuel; lia |].
  unfold module. apply reads_reserve_node. eapply reads_bind; [by apply statements_until_spec |].
  intros ss j c1 ((Hij & Hc & Hs & Hss) & t & Ht & Hend). apply reads_reserve_node, reads_ret. cbn [mod_profile mod_span root].
  split; [done |]. split; [cbn [block_size]; lia |]. split; [done |]. exists ss. split; [done |].
  rewrite orb_false_r in Hend. apply is_kind_true in Hend. unfold chunk_of. by rewrite <- (to_eof _ Htok _ _ Ht Hend).
Qed.

End Reading.
