(* ===== verification/ParserTheorems.v ===== *)
(** The front end as a whole: the parser on the chunks of the lexer is total,
    it is sound for the grammar, and its trees are within the node limit. *)

From Stdlib Require Import ZArith Lia.
From stdpp Require Import base list numbers strings.
From S2P Require Import Prelude Float Number Lexer LexerGrammar LexerSpec LexerTheorems Ast Parser ParserGrammar ParserSpec.

Local Open Scope Z_scope.

(** ** The tokens of the lexer *)

Lemma token_text_value profile value mid post k l :
  token_text profile value mid post k l ->
  k <> TokenKind.Eof /\ (k = TokenKind.Name -> exists n, l = Some (Literal.Name n)) /\
  (is_literal_kind k -> is_Some l).
Proof.
  destruct 1; (split; [done |]); (split; [intros Hk; first [discriminate Hk | eexists; reflexivity] |]);
    intros [Hk | [Hk | Hk]]; first [discriminate Hk | eexists; reflexivity].
Qed.

Lemma tokens_of_ok profile value pre post ts : tokens_of profile value pre post ts -> tokens_ok ts.
Proof.
  induction 1 as [pre | pre mid post ts _ _ IH | pre mid post k l ts Htext _ IH]; [| done |].
  - split.
    + done.
    + intros i t Ht _. apply zget_lt in Ht. change (zlen _) with 1 in *. lia.
    + intros i t Ht Hk. apply zget_Some in Ht as [_ Ht]. apply list_elem_of_lookup_2, list_elem_of_singleton in Ht. subst. discriminate Hk.
    + intros i t Ht Hk. apply zget_Some in Ht as [_ Ht]. apply list_elem_of_lookup_2, list_elem_of_singleton in Ht.
      subst. by destruct Hk as [Hk | [Hk | Hk]]; discriminate Hk.
  - destruct (token_text_value _ _ _ _ _ _ Htext) as (Hne & Hname & Hlit).
    set (t0 := token_at pre mid k l). pose proof (zget_app_r [t0] ts) as Hget. cbn [app] in Hget. change (zlen [t0]) with 1 in Hget.
    assert (0 < zlen ts) as Hpos.
    { pose proof (to_last _ IH) as Hl. destruct (zget ts (zlen ts - 1)) as [t |] eqn:Ht; [apply zget_lt in Ht; lia |].
      discriminate Hl. }
    assert (forall i t, zget (t0 :: ts) i = Some t -> (i = 0 /\ t = t0) \/ (1 <= i /\ zget ts (i - 1) = Some t)) as Hcase.
    { intros i t Ht. pose proof (zget_lt _ _ _ Ht). destruct (Z.eq_dec i 0) as [-> |].
      - left. split; [done |]. revert Ht. unfold zget. by intros [= <-].
      - right. split; [lia |]. specialize (Hget (i - 1)). replace (1 + (i - 1)) with i in Hget by lia.
        rewrite Hget in Ht. by replace (0 <=? i - 1) with true in Ht by lia. }
    split.
    + rewrite zlen_cons. specialize (Hget (zlen ts - 1)). replace (1 + (zlen ts - 1)) with (1 + zlen ts - 1) in Hget by lia.
      rewrite Hget. replace (0 <=? zlen ts - 1) with true by lia. apply IH.
    + intros i t Ht Hk. rewrite zlen_cons. destruct (Hcase _ _ Ht) as [[-> ->] | [Hi Ht']]; [done |].
      pose proof (to_eof _ IH _ _ Ht' Hk). lia.
    + intros i t Ht Hk. destruct (Hcase _ _ Ht) as [[-> ->] | [Hi Ht']]; [by apply Hname | by eapply to_name].
    + intros i t Ht Hk. destruct (Hcase _ _ Ht) as [[-> ->] | [Hi Ht']]; [by apply Hlit | by eapply to_literal].
Qed.

(** A chunk of the lexer. *)
Definition lexed (chunk : LexedChunk) : Prop :=
  exists powi input profile limits,
    zlen input <= USIZE_MAX /\ lex powi input profile limits = Ok chunk.

Lemma lexed_ok chunk : lexed chunk -> tokens_ok (ch_tokens chunk).
Proof.
  intros (powi & input & profile & limits & Hi & Hl). pose proof (lex_spec powi input profile limits Hi) as Hs.
  rewrite Hl in Hs. destruct Hs as [Hs _]. by eapply tokens_of_ok.
Qed.

(** What [parse_with_metrics] returns on any well-formed tokens. *)
Lemma parse_spec chunk profile limits :
  tokens_ok (ch_tokens chunk) -> limits_ok limits ->
  match parse_with_metrics chunk profile limits with
  | Ok (m, nodes) =>
      ch_profile chunk = profile /\ mod_profile m = profile /\
      mod_span m = {| span_start := 0; span_end := source_len chunk |} /\
      (exists ss, root m = Block_ ss None (mod_span m) /\ chunk_of (ch_tokens chunk) limits profile ss) /\
      2 <= nodes /\ 1 + block_size (root m) <= nodes /\ nodes <= Z.max 0 (max_ast_nodes limits)
  | Err d => diagnostic_ok (ch_tokens chunk) d
  | Crash _ => False
  end.
Proof.
  intros Htok Hlim. unfold parse_with_metrics. pose proof (to_last _ Htok) as Hlast.
  destruct (ch_tokens chunk) as [| first rest] eqn:Hts; [done |]. rewrite <- Hts in *.
  destruct (bool_decide (ch_profile chunk = profile)) eqn:Hp; cbn [negb].
  2: { apply diagnostic_at_token with (i := 0); [done | by rewrite Hts | by left]. }
  apply bool_decide_eq_true in Hp.
  pose proof (module_spec (ch_tokens chunk) limits profile Htok Hlim (source_len chunk)) as Hm.
  specialize (Hm {| ps_index := 0; ps_nodes := 0; ps_depth := 0; ps_statements := 0 |}).
  assert (0 < zlen (ch_tokens chunk)) as Hpos by (rewrite Hts, zlen_cons; pose proof (zlen_nonneg rest); lia).
  unfold spec in Hm. destruct (module _ _ _ _ _) as [[m | d | k] s].
  - destruct Hm as (j & c & (Hpr & Hc & Hsp & Hss) & Hs); [split; cbn; lia |].
    destruct (at_nodes _ _ _ _ _ _ Hs). do 3 (split; [done |]). split; [done |]. lia.
  - apply Hm. split; cbn; lia.
  - apply Hm. split; cbn; lia.
Qed.

(** C17: The parser is total on the tokens of the lexer: for every source text and
    all limits below the machine's, it returns a tree or one diagnostic, which is
    at one of the tokens; it does not panic (no index out of range, no missing
    literal, no overflow of a counter) and its recursion and loops end. *)
Theorem parse_total chunk profile limits :
  lexed chunk -> limits_ok limits ->
  total (parse chunk profile limits) /\
  forall d, parse chunk profile limits = Err d -> diagnostic_ok (ch_tokens chunk) d.
Proof.
  intros Hl Hlim. pose proof (parse_spec chunk profile limits (lexed_ok _ Hl) Hlim) as Hs.
  unfold parse. destruct (parse_with_metrics chunk profile limits) as [[m nodes] | d | k]; [| | done].
  - by split.
  - split; [done |]. by intros d' [= <-].
Qed.

(** C16: The parser is sound for the grammar: the statements it returns are spelled
    by the tokens of the chunk, all of them and in order, each node with the span
    of its tokens and the names and literals they carry; operators are grouped by
    the precedences of the manual, [..] and [^] to the right; only names, fields
    and elements are assigned to, only calls stand as statements, a return is last
    in its block; lists, parameters and tables are within their limits. *)
Theorem parse_sound chunk profile limits m :
  lexed chunk -> limits_ok limits -> parse chunk profile limits = Ok m ->
  exists ss, root m = Block_ ss None (mod_span m) /\ chunk_of (ch_tokens chunk) limits profile ss /\
    mod_profile m = profile /\ mod_span m = {| span_start := 0; span_end := source_len chunk |}.
Proof.
  intros Hl Hlim. pose proof (parse_spec chunk profile limits (lexed_ok _ Hl) Hlim) as Hs.
  unfold parse. destruct (parse_with_metrics chunk profile limits) as [[m' nodes] | d | k]; [| done | done].
  intros [= <-]. destruct Hs as (_ & Hp & Hsp & (ss & Hr & Hc) & _). by exists ss.
Qed.

(** C18: The tree is within the limit on nodes: the expressions, table fields,
    declared names, blocks and statements it holds, the dotted names of function
    statements apart, are at most the nodes the parser reports to the budget, and
    those at most [max_ast_nodes]. *)
Theorem parse_bounded chunk profile limits m nodes :
  lexed chunk -> limits_ok limits -> parse_with_metrics chunk profile limits = Ok (m, nodes) ->
  block_size (root m) < nodes <= max_ast_nodes limits.
Proof.
  intros Hl Hlim Hm. pose proof (parse_spec chunk profile limits (lexed_ok _ Hl) Hlim) as Hs.
  rewrite Hm in Hs. destruct Hs as (_ & _ & _ & _ & Hpos & Hsize & Hmax).
  lia.
Qed.

(** ** On sources *)

Abbreviation no_powi := (fun _ _ => f64_one).

Definition lex_source (source : string) : res Diagnostic LexedChunk :=
  lex no_powi (bytes_of_string source) Lua55 CompileLimits_default.

(** [lex] and [parse], one after the other, with a limit on the nodes. *)
Definition parse_source (max_nodes : Z) (source : string) : res Diagnostic (Module_ * Z) :=
  match lex_source source with
  | Ok chunk =>
      parse_with_metrics chunk Lua55
        {| max_source_bytes := 1024; max_token_bytes := 64; max_tokens := 100; max_lines := 100;
           max_ast_nodes := max_nodes; max_parse_depth := 16; max_statements := 50; max_list_entries := 50;
           max_parameters := 255; max_bindings_per_function := 100; max_scope_depth := 16;
           max_labels := 50; max_gotos := 50; max_upvalues_per_function := 255 |}
  | Err d => Err d
  | Crash k => Crash k
  end.

(** Incomplete lists are accepted where Lua reports an error: an assignment
    and a local declaration with nothing after the equals sign, at the end of the
    input, and a comma after the last parameter. *)
Theorem incomplete_lists_accepted :
  (exists m nodes sp1 sp2, parse_source 100 "x =" = Ok (m, nodes) /\
     block_statements (root m) = [Stmt_Assignment [Expr_Name (bytes_of_string "x") sp1] [] sp2]) /\
  (exists m nodes n sp, parse_source 100 "local x =" = Ok (m, nodes) /\
     block_statements (root m) = [Stmt_Local [n] [] sp]) /\
  (exists m nodes e f sp, parse_source 100 "function f(a,) end" = Ok (m, nodes) /\
     block_statements (root m) = [Stmt_Function e None f sp] /\ zlen (body_parameters f) = 1).
Proof.
  split; [| split].
  - eexists _, _, _, _. split; [vm_compute; reflexivity | reflexivity].
  - eexists _, _, _, _. split; [vm_compute; reflexivity | reflexivity].
  - eexists _, _, _, _, _. split; [vm_compute; reflexivity |]. split; reflexivity.
Qed.

(** The names of function statements escape the limit on nodes: a chunk is
    accepted whose one function name alone has more nodes than were counted. *)
Theorem function_names_not_counted :
  exists m nodes e f sp, parse_source 5 "function a.b.c.d.e.f.g.h() end" = Ok (m, nodes) /\
    block_statements (root m) = [Stmt_Function e None f sp] /\ nodes = 4 /\ expr_size e = 8.
Proof. eexists _, _, _, _, _. split; [vm_compute; reflexivity |]. split; [reflexivity |]. split; reflexivity. Qed.

Definition demo_chunk : LexedChunk :=
  match lex_source "local x <const> = -2 ^ 2 .. f{1, y = 2}" with
  | Ok chunk => chunk
  | _ => {| ch_profile := Lua55; source_len := 0; ch_tokens := [] |}
  end.

Lemma demo_chunk_lexed : lexed demo_chunk.
Proof.
  exists no_powi, (bytes_of_string "local x <const> = -2 ^ 2 .. f{1, y = 2}"), Lua55, CompileLimits_default.
  split; [vm_compute; discriminate | vm_compute; reflexivity].
Qed.

Lemma default_limits_ok : limits_ok CompileLimits_default.
Proof. by split. Qed.

Lemma parse_total_witness : total (parse demo_chunk Lua55 CompileLimits_default).
Proof. apply parse_total; [apply demo_chunk_lexed | apply default_limits_ok]. Defined.

Lemma parse_sound_witness :
  exists m ss, parse demo_chunk Lua55 CompileLimits_default = Ok m /\ root m = Block_ ss None (mod_span m) /\
    zlen ss = 1 /\ chunk_of (ch_tokens demo_chunk) CompileLimits_default Lua55 ss.
Proof.
  assert (exists m, parse demo_chunk Lua55 CompileLimits_default = Ok m /\ zlen (block_statements (root m)) = 1) as (m & Hm & Hlen)
    by (eexists; split; vm_compute; reflexivity).
  destruct (parse_sound demo_chunk Lua55 CompileLimits_default m demo_chunk_lexed default_limits_ok Hm) as (ss & Hr & Hc & _).
  exists m, ss. split; [exact Hm |]. split; [exact Hr |]. split; [by rewrite Hr in Hlen | exact Hc].
Defined.

Lemma parse_bounded_witness :
  exists m nodes, parse_with_metrics demo_chunk Lua55 CompileLimits_default = Ok (m, nodes) /\
    block_size (root m) < nodes <= max_ast_nodes CompileLimits_default.
Proof.
  assert (exists m nodes, parse_with_metrics demo_chunk Lua55 CompileLimits_default = Ok (m, nodes)) as (m & nodes & Hm)
    by (eexists _, _; vm_compute; reflexivity).
  exists m, nodes. split; [exact Hm |].
  exact (parse_bounded demo_chunk Lua55 CompileLimits_default m nodes demo_chunk_lexed default_limits_ok Hm).
Defined.
