(* ===== verification/Table.v ===== *)
(** The tables of the runtime (crates/rivetlua-runtime/src/table.rs): canonical
    keys, the array and the hash part, lookup, raw set as a prepared mutation,
    [next], borders, weak tables, and the two functions of vm/ops.rs and heap.rs
    that compare keys. The heap and the allocation ledger are interfaces. *)

From Stdlib Require Import ZArith Lia SpecFloat.
From stdpp Require Import base list numbers strings.
From S2P Require Import Prelude Float Number Lexer.

Local Open Scope Z_scope.

(** ** Errors, objects and strings *)

Inductive FailPoint :=
  | SlotReserve | ObjectReserve | ObjectInitialize | ModuleConstantsReserve | StringBytesReserve
  | UserdataBytesReserve | UserdataUservaluesReserve | TableArrayReserve | TableHashReserve
  | TableKeyReserve | TableInsert | TableArrayGrow | TableHashGrow | TableRehash | RootReserve
  | HostLease | ChildReserve | MarkReserve | WorkReserve | RememberedReserve
  | FrameRegistersReserve | FrameRootsReserve | CallFrameReserve | ReturnReserve
  | ClosureCapturesReserve | OpenUpvaluesReserve.

Inductive AllocationDomain := LuaHeap | Host.

(** Where and how an allocation was tried (alloc.rs). *)
Record AllocationSite := { site_file : string; site_line : Z; site_column : Z }.
Record AllocationAttempt := {
  attempt_site : AllocationSite; attempt_ordinal : Z; attempt_domain : AllocationDomain; attempt_bytes : Z;
  attempt_point : option FailPoint
}.

(** The variants that the modelled code returns. *)
Inductive VmError :=
  | AllocationFailed | IdentityExhausted | RootIdExhausted | WrongVm | StaleObject | StaleRoot
  | WrongObjectType | NilTableKey | NaNTableKey | ArithmeticOverflow | LedgerInvariant
  | InvalidGcStepBudget | WrongGcPhase | InvalidGcConfig | FinalizerGcReentry
  | InjectedFailure (point : FailPoint) | InjectedAllocation (attempt : AllocationAttempt).

Module ObjectKind.
Inductive ObjectKind :=
  | Value | ByteString | Table | Userdata | Closure | CClosure | Builtin | Coroutine | Upvalue
  | Module | File.
#[global] Instance ObjectKind_eq_dec : EqDecision ObjectKind.
Proof. solve_decision. Defined.
End ObjectKind.

Module WeakMode.
Inductive WeakMode := Strong | Keys | Values | All.
#[global] Instance WeakMode_eq_dec : EqDecision WeakMode.
Proof. solve_decision. Defined.
End WeakMode.

#[export] Instance ObjectId_eq_dec : EqDecision ObjectId.
Proof. unfold EqDecision, Decision. repeat decide equality. Defined.
#[export] Instance HostFunctionId_eq_dec : EqDecision HostFunctionId.
Proof. unfold EqDecision, Decision. repeat decide equality. Defined.
#[export] Instance VmId_eq_dec : EqDecision VmId.
Proof. unfold EqDecision, Decision. repeat decide equality. Defined.
#[export] Instance ObjectRef_eq_dec : EqDecision ObjectRef.
Proof. unfold EqDecision, Decision. repeat decide equality. Defined.

(** A byte string (string.rs): who owns its bytes, and the bytes. *)
Inductive StringBacking := Owned | ManagedShared | External.
Record ByteString := { backing : StringBacking; as_bytes : list Z }.

Definition shared_external (s : ByteString) : option ByteString :=
  match backing s with External => Some s | Owned | ManagedShared => None end.
Definition shared_table_key (s : ByteString) : option ByteString :=
  match backing s with ManagedShared | External => Some s | Owned => None end.

(** ** Interfaces *)

(** The heap, as tables look at it. *)
Class Heap := {
  heap_id : VmId;
  object_kind : ObjectRef -> res VmError ObjectKind.ObjectKind;
  with_byte_string : ObjectRef -> res VmError ByteString
}.

(** The ledger of allocations: the layout of the vectors' elements, and the
    requests that it may refuse; [try_reserve_exact] gives the capacity. *)
Class Ledger (L : Type) := {
  size_of_slot : Z;
  size_of_bucket : Z;
  size_of_string_key : Z;
  reserve_at : Z -> FailPoint -> ST L VmError unit;
  reserve_lua_backing_excess : Z -> FailPoint -> ST L VmError unit;
  checkpoint : FailPoint -> ST L VmError unit;
  try_reserve_exact : Z -> ST L VmError Z;
  commit_charge : ST L VmError unit
}.

(** The hasher of the standard library: any function of what is written to it. *)
Inductive HashItem :=
  | HashByte (b : Z) | HashWord (z : Z) | HashFloatBits (x : f64) | HashBool (b : bool)
  | HashFunction (f : HostFunctionId) | HashBytes (bytes : list Z) | HashId (id : ObjectId).
Class Hasher := { hasher_finish : list HashItem -> Z }.

(** [checked_bytes] of alloc.rs. *)
Definition checked_bytes {L} (count size : Z) : ST L VmError Z :=
  if count * size <=? USIZE_MAX then mret (count * size) else fail ArithmeticOverflow.

(** ** Keys *)

Record InlineStringKey := { isk_source : ObjectRef; isk_len : Z; isk_bytes : list Z }.
Definition inline_bytes (k : InlineStringKey) : list Z := take (Z.to_nat (isk_len k)) (isk_bytes k).

Record StringKey := { sk_source : ObjectRef; sk_bytes : ByteString }.
Record ObjectKey := { ok_source : ObjectRef; ok_id : ObjectId }.

Inductive CanonicalKey :=
  | KeyInteger (n : Z)
  | KeyFloat (x : f64)
  | KeyBoolean (b : bool)
  | KeyLightUserdata (address : Z)
  | KeyCFunction (f : HostFunctionId)
  | KeyShortString (k : InlineStringKey)
  | KeyByteString (k : StringKey)
  | KeyDeadShortString (k : InlineStringKey)
  | KeyObject (k : ObjectKey).

Module CanonicalKeyClass.
Inductive CanonicalKeyClass :=
  | Integer | Float | Boolean | LightUserdata | CFunction | ByteString | Object.
#[global] Instance CanonicalKeyClass_eq_dec : EqDecision CanonicalKeyClass.
Proof. solve_decision. Defined.
End CanonicalKeyClass.

Definition string_bytes (key : CanonicalKey) : option (list Z) :=
  match key with
  | KeyShortString k | KeyDeadShortString k => Some (inline_bytes k)
  | KeyByteString k => Some (as_bytes (sk_bytes k))
  | _ => None
  end.

Definition class (key : CanonicalKey) : CanonicalKeyClass.CanonicalKeyClass :=
  match key with
  | KeyInteger _ => CanonicalKeyClass.Integer
  | KeyFloat _ => CanonicalKeyClass.Float
  | KeyBoolean _ => CanonicalKeyClass.Boolean
  | KeyLightUserdata _ => CanonicalKeyClass.LightUserdata
  | KeyCFunction _ => CanonicalKeyClass.CFunction
  | KeyShortString _ | KeyByteString _ | KeyDeadShortString _ => CanonicalKeyClass.ByteString
  | KeyObject _ => CanonicalKeyClass.Object
  end.

Definition source_object (key : CanonicalKey) : option ObjectRef :=
  match key with
  | KeyShortString k | KeyDeadShortString k => Some (isk_source k)
  | KeyByteString k => Some (sk_source k)
  | KeyObject k => Some (ok_source k)
  | _ => None
  end.

Definition array_index (key : CanonicalKey) : option Z :=
  match key with
  | KeyInteger n => if 0 <? n then Some (n - 1) else None
  | _ => None
  end.

Definition as_value (key : CanonicalKey) : Value :=
  match key with
  | KeyInteger n => VInteger n
  | KeyFloat x => VFloat x
  | KeyBoolean b => VBoolean b
  | KeyLightUserdata a => VLightUserdata a
  | KeyCFunction f => VCFunction f
  | KeyShortString k | KeyDeadShortString k => VObject (isk_source k)
  | KeyByteString k => VObject (sk_source k)
  | KeyObject k => VObject (ok_source k)
  end.

(** [PartialEq for CanonicalKey]. *)
Definition key_eq (a b : CanonicalKey) : bool :=
  match string_bytes a, string_bytes b with
  | Some l, Some r => bool_decide (l = r)
  | _, _ =>
      match a, b with
      | KeyInteger a, KeyInteger b => a =? b
      | KeyFloat a, KeyFloat b => f64_eqb a b
      | KeyBoolean a, KeyBoolean b => Bool.eqb a b
      | KeyLightUserdata a, KeyLightUserdata b => a =? b
      | KeyCFunction a, KeyCFunction b => bool_decide (a = b)
      | KeyObject a, KeyObject b => bool_decide (ok_id a = ok_id b)
      | _, _ => false
      end
  end.

(** [Hash for CanonicalKey]: what is written to the hasher. *)
Definition hash_items (key : CanonicalKey) : list HashItem :=
  match key with
  | KeyInteger n => [HashByte 0; HashWord n]
  | KeyFloat x => [HashByte 1; HashFloatBits x]
  | KeyBoolean b => [HashByte 2; HashBool b]
  | KeyLightUserdata a => [HashByte 5; HashWord a]
  | KeyCFunction f => [HashByte 6; HashFunction f]
  | KeyShortString k | KeyDeadShortString k => [HashByte 3; HashBytes (inline_bytes k)]
  | KeyByteString k => [HashByte 3; HashBytes (as_bytes (sk_bytes k))]
  | KeyObject k => [HashByte 4; HashId (ok_id k)]
  end.

(** ** The table *)

Definition Bucket : Type := option (CanonicalKey * Value).

(** The charges, which only refund the ledger when the table is dropped, are
    left out. *)
Record Table := {
  metatable : option ObjectRef;
  weak_mode : WeakMode.WeakMode;
  hash_seed : Z;
  mutation_version : Z;
  array : list (option Value);
  hash : list Bucket
}.

Definition with_metatable (t : Table) (m : option ObjectRef) : Table :=
  {| metatable := m; weak_mode := weak_mode t; hash_seed := hash_seed t;
     mutation_version := mutation_version t; array := array t; hash := hash t |}.
Definition with_weak_mode (t : Table) (m : WeakMode.WeakMode) : Table :=
  {| metatable := metatable t; weak_mode := m; hash_seed := hash_seed t;
     mutation_version := mutation_version t; array := array t; hash := hash t |}.
Definition with_version (t : Table) (v : Z) : Table :=
  {| metatable := metatable t; weak_mode := weak_mode t; hash_seed := hash_seed t;
     mutation_version := v; array := array t; hash := hash t |}.
Definition with_array (t : Table) (a : list (option Value)) : Table :=
  {| metatable := metatable t; weak_mode := weak_mode t; hash_seed := hash_seed t;
     mutation_version := mutation_version t; array := a; hash := hash t |}.
Definition with_hash (t : Table) (h : list Bucket) : Table :=
  {| metatable := metatable t; weak_mode := weak_mode t; hash_seed := hash_seed t;
     mutation_version := mutation_version t; array := array t; hash := h |}.

Definition is_nil (v : Value) : bool := match v with VNil => true | _ => false end.

(** An entry whose value is not nil. *)
Definition live (b : Bucket) : bool := match b with Some (_, v) => negb (is_nil v) | None => false end.

Definition bump_mutation_version (t : Table) : Table :=
  with_version t (Z.min U64_MAX (mutation_version t + 1)).

Definition set_metatable (t : Table) (m : option ObjectRef) : Table :=
  with_metatable (if bool_decide (metatable t = m) then t else bump_mutation_version t) m.

Definition set_weak_mode (t : Table) (mode : WeakMode.WeakMode) : Table :=
  with_weak_mode (if bool_decide (weak_mode t = mode) then t else bump_mutation_version t) mode.

Definition lookup_cache_version (t : Table) (key : Z) : option Z :=
  let array_slot := (1 <=? key) && (key - 1 <? zlen (array t)) in
  if bool_decide (metatable t = None) && bool_decide (weak_mode t = WeakMode.Strong)
     && negb (mutation_version t =? U64_MAX) && negb array_slot
  then Some (mutation_version t) else None.

(** The value of the first live string key with these bytes, in bucket order. *)
Definition find_string (bytes : list Z) (h : list Bucket) : Value :=
  match find (fun b => match b with
                       | Some (k, v) => negb (is_nil v) && bool_decide (string_bytes k = Some bytes)
                       | None => false
                       end) h with
  | Some (Some (_, v)) => v
  | _ => VNil
  end.
Definition mode_value (t : Table) : Value := find_string (bytes_of_string "__mode") (hash t).
Definition finalizer_value (t : Table) : Value := find_string (bytes_of_string "__gc") (hash t).

Definition live_hash_count (t : Table) : Z := zlen (filter (fun b => live b = true) (hash t)).

Definition is_empty (t : Table) : bool :=
  forallb (fun v => match v with None => true | Some _ => false end) (array t) && (live_hash_count t =? 0).

(** ** Lookup *)

(** Every index computed here is below [count]. *)
Definition probe (start step count : Z) : Z :=
  if step <? count - start then start + step else step - (count - start).

(** The buckets in the order of the probes. *)
Definition probes (start count : Z) : list Z := map (fun step => probe start step count) (seqZ 0 count).

Definition bucket_key (b : option Bucket) : option CanonicalKey :=
  match b with Some (Some (k, _)) => Some k | _ => None end.

Section Lookup.
Context `{Hasher}.

Definition hash_start (seed : Z) (items : list HashItem) (count : Z) : Z :=
  hasher_finish ((if seed =? 0 then [] else [HashWord seed]) ++ items) mod count.

Definition bucket (t : Table) (key : CanonicalKey) (count : Z) : Z :=
  hash_start (hash_seed t) (hash_items key) count.

Definition find_any_hash (t : Table) (key : CanonicalKey) : option Z :=
  let count := zlen (hash t) in
  if count =? 0 then None else
  find (fun index => match bucket_key (zget (hash t) index) with
                     | Some stored => key_eq stored key
                     | None => false
                     end) (probes (bucket t key count) count).

Definition find_hash (t : Table) (key : CanonicalKey) : option Z :=
  match find_any_hash t key with
  | Some index =>
      match zget (hash t) index with
      | Some b => if live b then Some index else None
      | None => None
      end
  | None => None
  end.

Definition empty_bucket (t : Table) (buckets : list Bucket) (key : CanonicalKey) : res VmError Z :=
  let count := zlen buckets in
  if count =? 0 then Err LedgerInvariant else
  match find (fun index => match zget buckets index with Some None => true | _ => false end)
          (probes (bucket t key count) count) with
  | Some index => Ok index
  | None => Err LedgerInvariant
  end.

Definition hash_value (t : Table) (index : option Z) : Value :=
  match index with
  | Some index => match zget (hash t) index with Some (Some (_, v)) => v | _ => VNil end
  | None => VNil
  end.

Definition table_get (t : Table) (key : CanonicalKey) : Value :=
  match array_index key with
  | Some index =>
      match zget (array t) index with
      | Some (Some v) => v
      | _ => hash_value t (find_hash t key)
      end
  | None => hash_value t (find_hash t key)
  end.

Definition get_integer (t : Table) (key : Z) : Value := table_get t (KeyInteger key).

Definition get_byte_key (t : Table) (name : list Z) : Value :=
  let count := zlen (hash t) in
  if count =? 0 then VNil else
  let start := hash_start (hash_seed t) [HashByte 3; HashBytes name] count in
  find_string name (map (fun index => default None (zget (hash t) index)) (probes start count)).

(** [while let Some(next) = border.checked_add(1) { .. }]: every further round
    finds a field, so one more than there are slots is enough. *)
Fixpoint border_from (fuel : nat) (t : Table) (border : Z) : res VmError Z :=
  match fuel with
  | O => Crash OutOfFuel
  | S fuel =>
      match checked_add_i64 border 1 with
      | None => Ok border
      | Some next => if is_nil (get_integer t next) then Ok border else border_from fuel t next
      end
  end.
Definition border_len (t : Table) : res VmError Z :=
  border_from (S (length (array t) + length (hash t))) t 0.

End Lookup.

(** ** Comparison of values (vm/ops.rs, heap.rs) *)

Definition number_if (v : Value) : option Number :=
  match v with VInteger n => Some (Integer n) | VFloat x => Some (Float x) | _ => None end.

(** [PartialEq for Value], on values that are not both numbers. *)
Definition value_eq (l r : Value) : bool :=
  match l, r with
  | VNil, VNil => true
  | VBoolean a, VBoolean b => Bool.eqb a b
  | VInteger a, VInteger b => a =? b
  | VFloat a, VFloat b => f64_eqb a b
  | VLightUserdata a, VLightUserdata b => a =? b
  | VCFunction a, VCFunction b => bool_decide (a = b)
  | VObject a, VObject b => bool_decide (a = b)
  | _, _ => false
  end.

Definition equal_values (l r : Value) : bool :=
  match number_if l, number_if r with
  | Some l, Some r => Number.equal l r
  | _, _ => value_eq l r
  end.

(** The runtime errors of [next]: of the heap, or of a key that is not there. *)
Inductive NextError := NextVm (e : VmError) | InvalidNextKey.

Definition to_next {A} (r : res VmError A) : res NextError A :=
  match r with Ok a => Ok a | Err e => Err (NextVm e) | Crash c => Crash c end.

Section Comparison.
Context `{Heap}.

Definition raw_equal (l r : Value) : res VmError bool :=
  match l, r with
  | VObject a, VObject b =>
      ka ← object_kind a;
      strings ← (if bool_decide (ka = ObjectKind.ByteString)
                 then kb ← object_kind b; Ok (bool_decide (kb = ObjectKind.ByteString)) else Ok false);
      if strings : bool then
        sa ← with_byte_string a; sb ← with_byte_string b; Ok (bool_decide (as_bytes sa = as_bytes sb))
      else Ok (equal_values l r)
  | _, _ => Ok (equal_values l r)
  end.

(** [Vm::raw_equal_value]: the operands are checked first. *)
Definition check_operand (v : Value) : res VmError unit :=
  match v with
  | VObject o => object_kind o ≫= fun _ => Ok tt
  | VCFunction f => fail_if (negb (bool_decide (hf_vm f = heap_id))) WrongVm
  | _ => Ok tt
  end.
Definition raw_equal_value (l r : Value) : res VmError bool :=
  check_operand l ≫= fun _ => check_operand r ≫= fun _ => raw_equal l r.

Definition matches_previous (key : CanonicalKey) (previous : Value) : res VmError bool :=
  match string_bytes key with
  | Some bytes =>
      match previous with
      | VObject o =>
          k ← object_kind o;
          if bool_decide (k = ObjectKind.ByteString)
          then s ← with_byte_string o; Ok (bool_decide (as_bytes s = bytes)) else Ok false
      | _ => Ok false
      end
  | None =>
      match key, previous with
      | KeyObject k, VObject o => Ok (bool_decide (identity o = Some (ok_id k)))
      | KeyObject _, _ => Ok false
      | _, _ => raw_equal_value (as_value key) previous
      end
  end.

(** [i64::try_from(index).ok().and_then(|n| n.checked_add(1))]: the key of an array slot. *)
Definition slot_key (index : Z) : res VmError Z :=
  if (index <=? I64_MAX) && (index + 1 <=? I64_MAX) then Ok (index + 1) else Err ArithmeticOverflow.

(** The first array slot whose key is [previous]. *)
Fixpoint find_slot (previous : Value) (array : list (option Value)) (index : Z) : res VmError (option (Z * bool)) :=
  match array with
  | [] => Ok None
  | slot :: array =>
      number ← slot_key index;
      same ← raw_equal_value (VInteger number) previous;
      if same : bool then Ok (Some (index, match slot with Some _ => true | None => false end))
      else find_slot previous array (index + 1)
  end.

(** The first bucket, live or dead, whose key is [previous]. *)
Fixpoint find_previous (previous : Value) (h : list Bucket) (index : Z) : res VmError (option Z) :=
  match h with
  | [] => Ok None
  | None :: h => find_previous previous h (index + 1)
  | Some (key, _) :: h =>
      same ← matches_previous key previous;
      if same : bool then Ok (Some index) else find_previous previous h (index + 1)
  end.

(** Where the traversal goes on after [previous], in the array and in the hash. *)
Definition next_start (t : Table) (previous : Value) : res NextError (Z * Z) :=
  if is_nil previous then Ok (0, 0) else
  slot ← to_next (find_slot previous (array t) 0);
  match slot with
  | Some (index, true) => Ok (index + 1, 0)
  | _ =>
      matched ← to_next (find_previous previous (hash t) 0);
      match matched, slot with
      | Some index, _ => Ok (zlen (array t), index + 1)
      | None, Some (index, _) => Ok (index + 1, 0)
      | None, None => Err InvalidNextKey
      end
  end.

Fixpoint next_in_array (array : list (option Value)) (index : Z) : res NextError (option (Value * Value)) :=
  match array with
  | [] => Ok None
  | Some v :: _ => number ← to_next (slot_key index); Ok (Some (VInteger number, v))
  | None :: array => next_in_array array (index + 1)
  end.

Definition next_in_hash (h : list Bucket) : option (Value * Value) :=
  match find (fun b => live b) h with
  | Some (Some (key, v)) => Some (as_value key, v)
  | _ => None
  end.

Definition next_raw (t : Table) (previous : Value) : res NextError (option (Value * Value)) :=
  starts ← next_start t previous;
  found ← next_in_array (drop (Z.to_nat starts.1) (array t)) starts.1;
  match found with
  | Some entry => Ok (Some entry)
  | None => Ok (next_in_hash (drop (Z.to_nat starts.2) (hash t)))
  end.

End Comparison.

(** [for_each_raw]: the fields handed to [visit], array first. *)
Fixpoint visit_array {S} (visit : Value -> Value -> ST S VmError unit) (array : list (option Value)) (index : Z)
    : ST S VmError unit :=
  match array with
  | [] => mret tt
  | Some v :: array =>
      number ← lift (slot_key index); visit (VInteger number) v;; visit_array visit array (index + 1)
  | None :: array => visit_array visit array (index + 1)
  end.
Fixpoint each {S A} (visit : A -> ST S VmError unit) (l : list A) : ST S VmError unit :=
  match l with [] => mret tt | x :: l => visit x;; each visit l end.
Definition for_each_raw {S} (t : Table) (visit : Value -> Value -> ST S VmError unit) : ST S VmError unit :=
  visit_array visit (array t) 0;;
  each (fun b => match b with
                 | Some (key, v) => if is_nil v then mret tt else visit (as_value key) v
                 | None => mret tt
                 end) (hash t).

(** ** Raw set: a mutation is prepared, then applied *)

Inductive PreparedTableMutation :=
  | Noop
  | ArraySlot (index : Z) (value : Value)
  | HashSlot (index : Z) (value : Value) (dead_key : option CanonicalKey)
  | HashReplace (index : Z) (key : CanonicalKey) (value : Value)
  | HashInsert (index : Z) (key : CanonicalKey) (value : Value)
  | GrowArray (next : list (option Value)) (value : Value)
  | GrowHash (next : list Bucket) (existing_count : Z) (key : CanonicalKey) (value : Value).

Definition new_edges (m : PreparedTableMutation) : option ObjectRef * option ObjectRef :=
  let object v := match v with VObject o => Some o | _ => None end in
  match m with
  | Noop => (None, None)
  | ArraySlot _ v | HashSlot _ v _ | GrowArray _ v => (None, object v)
  | HashReplace _ key v | HashInsert _ key v | GrowHash _ _ key v => (source_object key, object v)
  end.

Section Mutations.
Context `{Hasher} {L : Type} `{Ledger L}.

(** [reserve_vec] of alloc.rs: a vector with room for [additional] elements. *)
Definition reserve_vec (additional size : Z) (point : FailPoint) : ST L VmError Z :=
  bytes ← checked_bytes additional size;
  reserve_at bytes point;;
  checkpoint point;;
  try_reserve_exact additional.

Definition checked_mul2 (n : Z) (least : Z) : ST L VmError Z :=
  if n * 2 <=? USIZE_MAX then mret (Z.max (n * 2) least) else fail ArithmeticOverflow.

(** [ByteString::try_from_bytes] and the commit of its ticket. *)
Definition copy_bytes (bytes : list Z) : ST L VmError ByteString :=
  reserve_vec (zlen bytes) 1 StringBytesReserve;;
  mret {| backing := Owned; as_bytes := bytes |}.

(** [CanonicalKey::make_dead]. *)
Definition make_dead (key : CanonicalKey) : ST L VmError CanonicalKey :=
  match key with
  | KeyShortString k => mret (KeyDeadShortString k)
  | KeyByteString k =>
      match shared_external (sk_bytes k) with
      | Some _ =>
          copy ← copy_bytes (as_bytes (sk_bytes k));
          commit_charge;;
          mret (KeyByteString {| sk_source := sk_source k; sk_bytes := copy |})
      | None => mret key
      end
  | _ => mret key
  end.

Definition occupied_count (t : Table) : Z :=
  zlen (filter is_Some (hash t)).

(** [capacity - capacity / 4] *)
Definition load_limit (capacity : Z) : Z := capacity - capacity / 4.

(** [next[..old].copy_from_slice(&self.array)] of a grown array. *)
Definition grown_array (t : Table) (new_capacity : Z) : list (option Value) :=
  array t ++ replicate (Z.to_nat (new_capacity - zlen (array t))) None.

Definition prepare_array_growth (t : Table) (index : Z) (value : Value) : ST L VmError PreparedTableMutation :=
  let old_capacity := zlen (array t) in
  new_capacity ← checked_mul2 old_capacity 4;
  checked_bytes new_capacity size_of_slot;;
  checked_bytes old_capacity size_of_slot;;
  reserve_vec new_capacity size_of_slot TableArrayGrow;;
  checkpoint TableInsert;;
  mret (GrowArray (zinsert (grown_array t new_capacity) index (Some value)) value).

Definition prepare_hash_insert (t : Table) (key : CanonicalKey) (value : Value) : ST L VmError PreparedTableMutation :=
  let count := live_hash_count t in
  let capacity := zlen (hash t) in
  let needed := count + 1 in
  if (capacity =? 0) || (capacity <=? occupied_count t) || (load_limit capacity <? needed) then
    new_capacity ← checked_mul2 capacity 1;
    (if new_capacity <? needed then fail LedgerInvariant else mret tt);;
    checked_bytes new_capacity size_of_bucket;;
    checked_bytes capacity size_of_bucket;;
    reserve_vec new_capacity size_of_bucket TableHashGrow;;
    checkpoint TableRehash;;
    checkpoint TableInsert;;
    mret (GrowHash (replicate (Z.to_nat new_capacity) None) count key value)
  else
    checkpoint TableInsert;;
    index ← lift (empty_bucket t (hash t) key);
    mret (HashInsert index key value).

(** A key that has no live bucket and no array slot of its own yet. *)
Definition prepare_new (t : Table) (key : CanonicalKey) (value : Value) : ST L VmError PreparedTableMutation :=
  match array_index key with
  | Some index =>
      if index <? zlen (array t) then checkpoint TableInsert;; mret (ArraySlot index value)
      else if index =? zlen (array t) then prepare_array_growth t index value
      else prepare_hash_insert t key value
  | None => prepare_hash_insert t key value
  end.

(** The slot of the array that the key has, when it holds a value. *)
Definition occupied_slot (t : Table) (key : CanonicalKey) : option Z :=
  match array_index key with
  | Some index => match zget (array t) index with Some (Some _) => Some index | _ => None end
  | None => None
  end.

Definition prepare_set (t : Table) (key : CanonicalKey) (value : Value) : ST L VmError PreparedTableMutation :=
  match occupied_slot t key with
  | Some index => mret (ArraySlot index value)
  | None =>
      match find_hash t key with
      | Some index =>
          if is_nil value then key ← make_dead key; mret (HashSlot index value (Some key))
          else mret (HashSlot index value None)
      | None =>
          if is_nil value then mret Noop else
          match find_any_hash t key with
          | Some index =>
              if live_hash_count t + 1 <=? load_limit (zlen (hash t))
              then checkpoint TableInsert;; mret (HashReplace index key value)
              else prepare_new t key value
          | None => prepare_new t key value
          end
      end
  end.

Definition commit_accounting (m : PreparedTableMutation) : ST L VmError unit :=
  match m with GrowArray _ _ | GrowHash _ _ _ _ => commit_charge | _ => mret tt end.

End Mutations.

(** [v[index] = x] in a growing vector. *)
Definition place {A} (l : list A) (entry : Z * A) : res VmError (list A) := vset l entry.1 entry.2.

(** The live buckets in order, from the start of the new vector on. *)
Definition rehash (old next : list Bucket) : res VmError (list Bucket) :=
  fold_res place next (enumerate (filter (fun b => live b = true) old)).

(** [PreparedTableMutation::apply]. *)
Definition apply_mutation (m : PreparedTableMutation) (t : Table) : res VmError Table :=
  match m with
  | Noop => Ok t
  | ArraySlot index value =>
      a ← vset (array t) index (if is_nil value then None else Some value);
      Ok (bump_mutation_version (with_array t a))
  | HashSlot index value dead_key =>
      h ← (if is_nil value
           then vset (hash t) index ((fun key => (key, VNil)) <$> dead_key)
           else b ← vget (hash t) index;
                match b with
                | Some (key, _) => vset (hash t) index (Some (key, value))
                | None => Ok (hash t)
                end);
      Ok (bump_mutation_version (with_hash t h))
  | HashReplace index key value | HashInsert index key value =>
      h ← vset (hash t) index (Some (key, value));
      Ok (bump_mutation_version (with_hash t h))
  | GrowArray next _ => Ok (bump_mutation_version (with_array t next))
  | GrowHash next existing_count key value =>
      h ← rehash (hash t) next;
      h ← vset h existing_count (Some (key, value));
      Ok (bump_mutation_version (with_hash t h))
  end.

(** ** Keys from values, and the raw accesses of [Vm] *)

Section RawAccess.
Context `{Hasher} `{Heap} {L : Type} `{Ledger L}.

(** The bytes of a long string key: shared with the string, or a copy. *)
Definition long_string_key (source : ObjectRef) (s : ByteString) : ST L VmError CanonicalKey :=
  bytes ← (match shared_table_key s with
           | Some shared => mret shared
           | None => copy ← copy_bytes (as_bytes s); commit_charge;; mret copy
           end);
  capacity ← reserve_vec 1 size_of_string_key TableKeyReserve;
  (if capacity - 1 =? 0 then mret tt
   else extra ← checked_bytes (capacity - 1) size_of_string_key;
        reserve_lua_backing_excess extra TableKeyReserve;; commit_charge);;
  commit_charge;;
  mret (KeyByteString {| sk_source := source; sk_bytes := bytes |}).

Definition string_key (source : ObjectRef) (s : ByteString) : ST L VmError CanonicalKey :=
  let len := zlen (as_bytes s) in
  if len <=? 8
  then mret (KeyShortString
         {| isk_source := source; isk_len := len;
            isk_bytes := as_bytes s ++ replicate (8 - length (as_bytes s)) 0 |})
  else long_string_key source s.

(** The finite float that an [i64] is equal to. *)
Definition integral_float (x : f64) : bool :=
  f64_is_finite x && f64_geb x (f64_neg f64_two63) && f64_ltb x f64_two63 && f64_eqb (f64_fract x) f64_zero.

Definition canonical_key (value : Value) : ST L VmError (option CanonicalKey) :=
  match value with
  | VNil => mret None
  | VInteger n => mret (Some (KeyInteger n))
  | VBoolean b => mret (Some (KeyBoolean b))
  | VLightUserdata a => mret (Some (KeyLightUserdata a))
  | VCFunction f =>
      if bool_decide (hf_vm f = heap_id) then mret (Some (KeyCFunction f)) else fail WrongVm
  | VFloat x =>
      if f64_is_nan x then mret None
      else if integral_float x then mret (Some (KeyInteger (f64_as_i64 x)))
      else mret (Some (KeyFloat x))
  | VObject source =>
      k ← lift (object_kind source);
      if bool_decide (k = ObjectKind.ByteString) then
        s ← lift (with_byte_string source); key ← string_key source s; mret (Some key)
      else
        match identity source with
        | Some id => mret (Some (KeyObject {| ok_source := source; ok_id := id |}))
        | None => fail StaleObject
        end
  end.

Definition is_nan_key (v : Value) : bool := match v with VFloat x => f64_is_nan x | _ => false end.

(** [Vm::raw_get] on the table it finds. *)
Definition raw_get (t : Table) (key : Value) : ST L VmError Value :=
  if is_nil key || is_nan_key key then mret VNil else
  canonical ← canonical_key key;
  match canonical with
  | Some key => mret (table_get t key)
  | None => mret VNil
  end.

(** [Vm::raw_set_with_new_key_source] on the table it finds; the write barrier
    of the collector is a step that may fail. *)
Definition raw_set (barrier : option ObjectRef -> option ObjectRef -> ST L VmError unit)
    (t : Table) (key value : Value) : ST L VmError (option ObjectRef * Table) :=
  (match value with
   | VCFunction f => if bool_decide (hf_vm f = heap_id) then mret tt else fail WrongVm
   | _ => mret tt
   end);;
  (if is_nil key then fail NilTableKey else if is_nan_key key then fail NaNTableKey else mret tt);;
  canonical ← canonical_key key;
  match canonical with
  | None => fail LedgerInvariant
  | Some canonical =>
      mutation ← prepare_set t canonical value;
      let edges := new_edges mutation in
      barrier edges.1 edges.2;;
      commit_accounting mutation;;
      t ← lift (apply_mutation mutation t);
      mret (edges.1, t)
  end.

End RawAccess.

(** ** Creation and accounting *)

Definition try_new {L} `{Ledger L} (array_capacity hash_capacity seed : Z) : ST L VmError Table :=
  reserve_vec array_capacity size_of_slot TableArrayReserve;;
  reserve_vec hash_capacity size_of_bucket TableHashReserve;;
  mret {| metatable := None; weak_mode := WeakMode.Strong; hash_seed := seed; mutation_version := 0;
          array := replicate (Z.to_nat array_capacity) None;
          hash := replicate (Z.to_nat hash_capacity) None |}.

Definition charge_bytes {L} `{Ledger L} (t : Table) : ST L VmError Z :=
  array_bytes ← checked_bytes (zlen (array t)) size_of_slot;
  hash_bytes ← checked_bytes (zlen (hash t)) size_of_bucket;
  if array_bytes + hash_bytes <=? USIZE_MAX then mret (array_bytes + hash_bytes) else fail ArithmeticOverflow.

(** ** What the collector sees *)

Section Tracing.
Context {S : Type} (visit : ObjectRef -> ST S VmError unit).

Definition visit_option (o : option ObjectRef) : ST S VmError unit :=
  match o with Some o => visit o | None => mret tt end.
Definition visit_value (v : Value) : ST S VmError unit :=
  match v with VObject o => visit o | _ => mret tt end.

Definition trace_children (t : Table) : ST S VmError unit :=
  visit_option (metatable t);;
  each (fun slot => match slot with Some v => visit_value v | None => mret tt end) (array t);;
  each (fun b => match b with
                 | Some (key, v) =>
                     if is_nil v then mret tt else visit_option (source_object key);; visit_value v
                 | None => mret tt
                 end) (hash t).

Definition object_of (v : Value) : option ObjectRef := match v with VObject o => Some o | _ => None end.

(** Keys that a table with weak keys holds without looking at them. *)
Definition live_key_without_scan (key : CanonicalKey) : bool :=
  match class key with
  | CanonicalKeyClass.Integer | CanonicalKeyClass.Float | CanonicalKeyClass.Boolean
  | CanonicalKeyClass.LightUserdata | CanonicalKeyClass.ByteString => true
  | _ => false
  end.

Definition strong_key (mode : WeakMode.WeakMode) (key : CanonicalKey) : bool :=
  bool_decide (mode = WeakMode.Values) ||
  (bool_decide (mode = WeakMode.Keys) && bool_decide (class key = CanonicalKeyClass.ByteString)).

Definition strong_value (is_string : ObjectRef -> res VmError bool) (mode : WeakMode.WeakMode)
    (key : CanonicalKey) (o : ObjectRef) : res VmError bool :=
  match mode with
  | WeakMode.Keys => Ok (live_key_without_scan key)
  | WeakMode.Values | WeakMode.All => is_string o
  | WeakMode.Strong => Ok true
  end.

Definition trace_gc_children (is_string : ObjectRef -> res VmError bool) (t : Table) : ST S VmError unit :=
  if bool_decide (weak_mode t = WeakMode.Strong) then trace_children t else
  visit_option (metatable t);;
  each (fun slot => match slot with
                    | Some (VObject o) =>
                        strong ← (if bool_decide (weak_mode t = WeakMode.Keys) then mret true else lift (is_string o));
                        if strong : bool then visit o else mret tt
                    | _ => mret tt
                    end) (array t);;
  each (fun b => match b with
                 | Some (key, v) =>
                     if is_nil v then mret tt else
                     (match source_object key with
                      | Some o => if strong_key (weak_mode t) key then visit o else mret tt
                      | None => mret tt
                      end);;
                     match v with
                     | VObject o =>
                         strong ← lift (strong_value is_string (weak_mode t) key o);
                         if strong : bool then visit o else mret tt
                     | _ => mret tt
                     end
                 | None => mret tt
                 end) (hash t).

Definition visit_ephemeron_pairs (pair : option ObjectRef -> ObjectRef -> ST S VmError unit) (t : Table)
    : ST S VmError unit :=
  if negb (bool_decide (weak_mode t = WeakMode.Keys)) then mret tt else
  each (fun b => match b with
                 | Some (key, VObject o) =>
                     pair (match key with KeyObject k => Some (ok_source k) | _ => None end) o
                 | _ => mret tt
                 end) (hash t).

Definition visit_live_weak_string_keys (t : Table) : ST S VmError unit :=
  if negb (bool_decide (weak_mode t = WeakMode.All)) then mret tt else
  each (fun b => match b with
                 | Some (key, v) =>
                     if negb (is_nil v) && bool_decide (class key = CanonicalKeyClass.ByteString)
                     then visit_option (source_object key) else mret tt
                 | None => mret tt
                 end) (hash t).

End Tracing.

(** ** Clearing dead pairs of weak tables *)

Section Clearing.
Context {L : Type} `{Ledger L}.
Context (is_dead is_live_key : ObjectRef -> res VmError bool) (clear_values clear_keys : bool).

(** The state of the sweep: the table, the pairs cleared, and the ledger. *)
Record Clearing := { cl_table : Table; cl_count : Z; cl_ledger : L }.

Definition cleared_pair (c : Clearing) (t : Table) : Clearing :=
  {| cl_table := bump_mutation_version t; cl_count := cl_count c + 1; cl_ledger := cl_ledger c |}.

Definition weak_values (mode : WeakMode.WeakMode) : bool :=
  clear_values && (bool_decide (mode = WeakMode.Values) || bool_decide (mode = WeakMode.All)).
Definition weak_keys (mode : WeakMode.WeakMode) : bool :=
  clear_keys && (bool_decide (mode = WeakMode.Keys) || bool_decide (mode = WeakMode.All)).

Definition dead_value (mode : WeakMode.WeakMode) (v : Value) : res VmError bool :=
  if weak_values mode then match v with VObject o => is_dead o | _ => Ok false end else Ok false.
Definition dead_key (mode : WeakMode.WeakMode) (key : CanonicalKey) : res VmError bool :=
  if weak_keys mode then match key with KeyObject k => is_dead (ok_source k) | _ => Ok false end else Ok false.

(** One slot of the array. *)
Definition clear_slot (index : Z) : ST Clearing VmError unit := fun c =>
  match zget (array (cl_table c)) index with
  | Some (Some (VObject o)) =>
      match is_dead o with
      | Ok true => (Ok tt, cleared_pair c (with_array (cl_table c) (zinsert (array (cl_table c)) index None)))
      | Ok false => (Ok tt, c)
      | Err e => (Err e, c)
      | Crash k => (Crash k, c)
      end
  | _ => (Ok tt, c)
  end.

Definition set_bucket (t : Table) (index : Z) (b : Bucket) : Table := with_hash t (zinsert (hash t) index b).

(** Whether the key of a pair whose value died is itself gone: only in a table
    with weak keys and values. *)
Definition key_is_dead (mode : WeakMode.WeakMode) (dk dv : bool) (key : CanonicalKey) : res VmError bool :=
  if negb dk && dv && bool_decide (mode = WeakMode.All)
  then match source_object key with
       | Some source => live ← is_live_key source; Ok (negb live)
       | None => Ok false
       end
  else Ok false.

(** [key.make_dead(ledger)?] on the key of a bucket. *)
Definition bury (index : Z) (key : CanonicalKey) : ST Clearing VmError unit := fun c =>
  match make_dead key (cl_ledger c) with
  | (Ok dead, l) =>
      (Ok tt, cleared_pair {| cl_table := cl_table c; cl_count := cl_count c; cl_ledger := l |}
                (set_bucket (cl_table c) index (Some (dead, VNil))))
  | (Err e, l) => (Err e, {| cl_table := cl_table c; cl_count := cl_count c; cl_ledger := l |})
  | (Crash k, l) => (Crash k, {| cl_table := cl_table c; cl_count := cl_count c; cl_ledger := l |})
  end.

Definition drop_bucket (index : Z) : ST Clearing VmError unit := fun c =>
  (Ok tt, cleared_pair c (set_bucket (cl_table c) index None)).

Definition clear_pair (mode : WeakMode.WeakMode) (index : Z) (key : CanonicalKey) (v : Value)
    : ST Clearing VmError unit :=
  dk ← lift (dead_key mode key);
  dv ← lift (dead_value mode v);
  if dk || dv then
    gone ← lift (key_is_dead mode dk dv key);
    if dk || gone then drop_bucket index else bury index key
  else mret tt.

(** One bucket of the hash. *)
Definition clear_bucket (index : Z) : ST Clearing VmError unit := fun c =>
  let t := cl_table c in
  match zget (hash t) index with
  | Some (Some (key, v)) =>
      if clear_values && is_nil v then
        (Ok tt, {| cl_table := bump_mutation_version (set_bucket t index None); cl_count := cl_count c;
                   cl_ledger := cl_ledger c |})
      else clear_pair (weak_mode t) index key v c
  | _ => (Ok tt, c)
  end.

(** A hash without a key, dead or live, is given back. *)
Definition release_hash (t : Table) : Table :=
  if negb (zlen (hash t) =? 0) && forallb (fun b : Bucket => match b with None => true | Some _ => false end) (hash t)
  then bump_mutation_version (with_hash t []) else t.

Definition clear_dead_weak_pairs (t : Table) (l : L) : res VmError Z * Table * L :=
  if bool_decide (weak_mode t = WeakMode.Strong) then (Ok 0, t, l) else
  match
    ((if weak_values (weak_mode t) then each clear_slot (seqZ 0 (zlen (array t))) else mret tt);;
     each clear_bucket (seqZ 0 (zlen (hash t)))) {| cl_table := t; cl_count := 0; cl_ledger := l |}
  with
  | (Ok _, c) => (Ok (cl_count c), release_hash (cl_table c), cl_ledger c)
  | (Err e, c) => (Err e, cl_table c, cl_ledger c)
  | (Crash k, c) => (Crash k, cl_table c, cl_ledger c)
  end.

End Clearing.

(** [restore_existing_byte_key]. *)
Definition restore_existing_byte_key (t : Table) (name : list Z) (value : Value) : res VmError Table :=
  let found b := match b with
                 | Some (key, v) => negb (is_nil v) && bool_decide (string_bytes key = Some name)
                 | None => false
                 end in
  match list_find (fun b => found b = true) (hash t) with
  | None => Err LedgerInvariant
  | Some (index, b) =>
      let h :=
        if is_nil value then <[index := None]> (hash t)
        else match b with
             | Some (key, _) => <[index := Some (key, value)]> (hash t)
             | None => hash t
             end in
      let h := if is_nil value && forallb (fun b : Bucket => match b with None => true | Some _ => false end) h
               then [] else h in
      Ok (bump_mutation_version (with_hash t h))
  end.

(** ** Two integer fields in one transaction *)

Inductive RefPairSlot :=
  | SlotArray (index : Z)
  | SlotHashExisting (index : Z)
  | SlotHashNew (index : Z).

Record RefPairEntry := { rp_key : Z; rp_value : Value; rp_slot : RefPairSlot }.

(** A grown vector, with the bytes of the old and the new one. *)
Record RefPairGrowth (A : Type) := { rg_next : list A; rg_old_bytes : Z; rg_new_bytes : Z }.
Arguments rg_next {A} _.
Arguments rg_old_bytes {A} _.
Arguments rg_new_bytes {A} _.

Record PreparedRefPair := {
  rp_entries : list RefPairEntry;
  rp_array_growth : option (RefPairGrowth (option Value));
  rp_hash_growth : option (RefPairGrowth Bucket)
}.

Section RefPairs.
Context `{Hasher} {L : Type} `{Ledger L}.

Definition ref_values (first second : Z * Value) : list (Z * Value) :=
  if first.1 =? second.1 then [second] else [first; second].

(** A key of the two is the next of the array. *)
Definition at_boundary (t : Table) (values : list (Z * Value)) (array_len : Z) : bool :=
  existsb (fun kv => bool_decide (array_index (KeyInteger kv.1) = Some array_len)
                     && bool_decide (find_hash t (KeyInteger kv.1) = None)) values.

(** [for _ in 0..2 { .. }] *)
Fixpoint ref_array_len (rounds : nat) (t : Table) (values : list (Z * Value)) (array_len : Z) : ST L VmError Z :=
  match rounds with
  | O => mret array_len
  | S rounds =>
      if at_boundary t values array_len
      then len ← checked_mul2 array_len 4; ref_array_len rounds t values len
      else mret array_len
  end.

Definition dead_bucket (t : Table) (index : Z) : bool :=
  match zget (hash t) index with Some (Some (_, v)) => is_nil v | _ => false end.

(** Where one of the keys goes, and how many hash entries that adds. *)
Definition ref_slot (t : Table) (array_len : Z) (k : Z) : ST L VmError (RefPairSlot * Z) :=
  let key := KeyInteger k in
  match occupied_slot t key with
  | Some index => mret (SlotArray index, 0)
  | None =>
      match find_any_hash t key with
      | Some index =>
          if dead_bucket t index then checkpoint TableInsert;; mret (SlotHashExisting index, 1)
          else mret (SlotHashExisting index, 0)
      | None =>
          checkpoint TableInsert;;
          match array_index key with
          | Some index => if index <? array_len then mret (SlotArray index, 0) else mret (SlotHashNew 0, 1)
          | None => mret (SlotHashNew 0, 1)
          end
      end
  end.

Fixpoint ref_slots (t : Table) (array_len : Z) (values : list (Z * Value))
    : ST L VmError (list RefPairEntry * Z) :=
  match values with
  | [] => mret ([], 0)
  | (k, v) :: values =>
      slot ← ref_slot t array_len k;
      rest ← ref_slots t array_len values;
      mret ({| rp_key := k; rp_value := v; rp_slot := slot.1 |} :: rest.1, slot.2 + rest.2)
  end.

(** [while required > hash_len.saturating_sub(hash_len / 4) || .. { hash_len *= 2 }]:
    the length passes [usize::MAX] before the fuel ends. *)
Fixpoint ref_hash_len (fuel : nat) (required occupied hash_len : Z) : ST L VmError Z :=
  match fuel with
  | O => crash_with OutOfFuel
  | S fuel =>
      if (load_limit hash_len <? required) || (hash_len <? occupied)
      then len ← checked_mul2 hash_len 1; ref_hash_len fuel required occupied len
      else mret hash_len
  end.

Definition ref_array_growth (t : Table) (array_len : Z) : ST L VmError (option (RefPairGrowth (option Value))) :=
  if zlen (array t) <? array_len then
    old_bytes ← checked_bytes (zlen (array t)) size_of_slot;
    new_bytes ← checked_bytes array_len size_of_slot;
    reserve_vec array_len size_of_slot TableArrayGrow;;
    mret (Some {| rg_next := grown_array t array_len; rg_old_bytes := old_bytes; rg_new_bytes := new_bytes |})
  else mret None.

Definition ref_hash_growth (t : Table) (hash_len : Z) : ST L VmError (option (RefPairGrowth Bucket)) :=
  if zlen (hash t) <? hash_len then
    old_bytes ← checked_bytes (zlen (hash t)) size_of_bucket;
    new_bytes ← checked_bytes hash_len size_of_bucket;
    reserve_vec hash_len size_of_bucket TableHashGrow;;
    checkpoint TableRehash;;
    mret (Some {| rg_next := replicate (Z.to_nat hash_len) None; rg_old_bytes := old_bytes; rg_new_bytes := new_bytes |})
  else mret None.

(** The live buckets before [index]: where a live bucket goes in a rehash. *)
Definition live_before (t : Table) (index : Z) : Z :=
  zlen (filter (fun b => live b = true) (take (Z.to_nat index) (hash t))).

Definition free_bucket (t : Table) (claimed : list Z) (k : Z) : option Z :=
  let count := zlen (hash t) in
  find (fun index => match zget (hash t) index with
                     | Some None => negb (bool_decide (index ∈ claimed))
                     | _ => false
                     end) (probes (bucket t (KeyInteger k) count) count).

(** The final buckets: in a grown hash the new entries follow the live ones. *)
Fixpoint ref_place (t : Table) (grown : bool) (next : Z) (claimed : list Z) (entries : list RefPairEntry)
    : res VmError (list RefPairEntry) :=
  match entries with
  | [] => Ok []
  | e :: entries =>
      let at_slot slot := {| rp_key := rp_key e; rp_value := rp_value e; rp_slot := slot |} in
      match rp_slot e, grown with
      | SlotHashExisting index, true =>
          if dead_bucket t index
          then rest ← ref_place t grown (next + 1) claimed entries; Ok (at_slot (SlotHashNew next) :: rest)
          else rest ← ref_place t grown next claimed entries;
               Ok (at_slot (SlotHashExisting (live_before t index)) :: rest)
      | SlotHashNew _, true =>
          rest ← ref_place t grown (next + 1) claimed entries; Ok (at_slot (SlotHashNew next) :: rest)
      | SlotHashNew _, false =>
          match free_bucket t claimed (rp_key e) with
          | Some empty =>
              rest ← ref_place t grown next (empty :: claimed) entries; Ok (at_slot (SlotHashNew empty) :: rest)
          | None => Err LedgerInvariant
          end
      | _, _ => rest ← ref_place t grown next claimed entries; Ok (e :: rest)
      end
  end.

Definition prepare_ref_pair (t : Table) (first second : Z * Value) : ST L VmError PreparedRefPair :=
  let values := ref_values first second in
  if existsb (fun kv => is_nil kv.2) values then fail LedgerInvariant else
  array_len ← ref_array_len 2 t values (zlen (array t));
  slots ← ref_slots t array_len values;
  array_growth ← ref_array_growth t array_len;
  hash_len ← ref_hash_len 70 (live_hash_count t + slots.2) (occupied_count t + slots.2) (zlen (hash t));
  hash_growth ← ref_hash_growth t hash_len;
  entries ← lift (ref_place t (match hash_growth with Some _ => true | None => false end)
                    (live_hash_count t) [] slots.1);
  mret {| rp_entries := entries; rp_array_growth := array_growth; rp_hash_growth := hash_growth |}.

Definition growth_bytes {A} (bytes : RefPairGrowth A -> Z) (g : option (RefPairGrowth A)) : Z :=
  match g with Some g => bytes g | None => 0 end.

(** The sums are checked before the first ticket is committed. *)
Definition commit_ref_pair (p : PreparedRefPair) : ST L VmError unit :=
  (if USIZE_MAX <? growth_bytes rg_new_bytes (rp_array_growth p) + growth_bytes rg_new_bytes (rp_hash_growth p)
   then fail ArithmeticOverflow else mret tt);;
  (if USIZE_MAX <? growth_bytes rg_old_bytes (rp_array_growth p) + growth_bytes rg_old_bytes (rp_hash_growth p)
   then fail ArithmeticOverflow else mret tt);;
  (match rp_array_growth p with Some _ => commit_charge | None => mret tt end);;
  match rp_hash_growth p with Some _ => commit_charge | None => mret tt end.

End RefPairs.

Definition apply_entry (t : Table) (e : RefPairEntry) : res VmError Table :=
  match rp_slot e with
  | SlotArray index => a ← vset (array t) index (Some (rp_value e)); Ok (with_array t a)
  | SlotHashExisting index =>
      b ← vget (hash t) index;
      match b with
      | Some (key, _) => h ← vset (hash t) index (Some (key, rp_value e)); Ok (with_hash t h)
      | None => Ok t
      end
  | SlotHashNew index =>
      h ← vset (hash t) index (Some (KeyInteger (rp_key e), rp_value e)); Ok (with_hash t h)
  end.

(** [PreparedRefPair::apply]. *)
Definition apply_ref_pair (p : PreparedRefPair) (t : Table) : res VmError Table :=
  let t := match rp_array_growth p with Some g => with_array t (rg_next g) | None => t end in
  t ← (match rp_hash_growth p with
       | Some g => h ← rehash (hash t) (rg_next g); Ok (with_hash t h)
       | None => Ok t
       end);
  t ← fold_res apply_entry t (rp_entries p);
  Ok (bump_mutation_version t).
