(* ===== verification/TableSpec.v ===== *)
(** Tables as finite maps: what a table holds, the invariant of its array and
    hash, and the lookups, sets and traversals against the map. *)

From Stdlib Require Import ZArith Lia SpecFloat.
From stdpp Require Import base list numbers gmap.
From S2P Require Import Prelude Float Number Lexer Table.

Local Open Scope Z_scope.

(** ** Keys as values *)

(** The identity of a key: what two equal keys share. *)
Inductive Key :=
  | AInteger (n : Z)
  | AFloat (x : f64)
  | ABoolean (b : bool)
  | ALightUserdata (address : Z)
  | AFunction (f : HostFunctionId)
  | AString (bytes : list Z)
  | AObject (id : ObjectId).

#[export] Instance Key_eq_dec : EqDecision Key.
Proof. solve_decision. Defined.

#[export] Instance HostFunctionId_countable : Countable HostFunctionId.
Proof.
  by refine (inj_countable' (fun f => (vm_number (hf_vm f), hf_token f))
    (fun p => {| hf_vm := {| vm_number := p.1 |}; hf_token := p.2 |}) _); intros [[] ?].
Defined.

#[export] Instance ObjectId_countable : Countable ObjectId.
Proof.
  by refine (inj_countable' (fun i => (vm_number (oid_vm i), slot_index (oid_slot i), generation_value (oid_generation i)))
    (fun p => {| oid_vm := {| vm_number := p.1.1 |}; oid_slot := {| slot_index := p.1.2 |};
                 oid_generation := {| generation_value := p.2 |} |}) _); intros [[] [] []].
Defined.

#[export] Instance f64_countable : Countable f64.
Proof.
  refine (inj_countable' (fun x : f64 => match x with
      | S754_zero s => (0, s, 0, 0)
      | S754_infinity s => (1, s, 0, 0)
      | S754_nan => (2, false, 0, 0)
      | S754_finite s m e => (3, s, Z.pos m, e)
      end)
    (fun p => let '(k, s, m, e) := p in
      if k =? 0 then S754_zero s else if k =? 1 then S754_infinity s
      else if k =? 2 then S754_nan else S754_finite s (Z.to_pos m) e) _).
  by intros [].
Defined.

#[export] Instance Key_countable : Countable Key.
Proof.
  refine (inj_countable' (fun k => match k with
      | AInteger n => inl (inl (inl n))
      | AFloat x => inl (inl (inr x))
      | ABoolean b => inl (inr (inl b))
      | ALightUserdata a => inl (inr (inr a))
      | AFunction f => inr (inl (inl f))
      | AString s => inr (inl (inr s))
      | AObject i => inr (inr i)
      end)
    (fun x => match x with
      | inl (inl (inl n)) => AInteger n
      | inl (inl (inr x)) => AFloat x
      | inl (inr (inl b)) => ABoolean b
      | inl (inr (inr a)) => ALightUserdata a
      | inr (inl (inl f)) => AFunction f
      | inr (inl (inr s)) => AString s
      | inr (inr i) => AObject i
      end) _).
  by intros [].
Defined.

Definition key_id (key : CanonicalKey) : Key :=
  match key with
  | KeyInteger n => AInteger n
  | KeyFloat x => AFloat x
  | KeyBoolean b => ABoolean b
  | KeyLightUserdata a => ALightUserdata a
  | KeyCFunction f => AFunction f
  | KeyShortString k | KeyDeadShortString k => AString (inline_bytes k)
  | KeyByteString k => AString (as_bytes (sk_bytes k))
  | KeyObject k => AObject (ok_id k)
  end.

(** The integer of the 64-bit range that a float is equal to. *)
Definition float_integer (x : f64) : option Z :=
  let n := scaled x / ONE in
  if f64_is_finite x && (scaled x mod ONE =? 0) && (I64_MIN <=? n) && (n <=? I64_MAX) then Some n else None.

(** What [canonical_key] guarantees: no float key is NaN or equal to an integer. *)
Definition key_ok (key : CanonicalKey) : Prop :=
  match key with
  | KeyInteger n => i64 n
  | KeyFloat x => valid x /\ f64_is_nan x = false /\ float_integer x = None
  | _ => True
  end.

Lemma f64_eqb_same x y :
  key_ok (KeyFloat x) -> key_ok (KeyFloat y) -> f64_eqb x y = true <-> x = y.
Proof.
  intros (_ & Hx & Ix) (_ & Hy & Iy).
  split; [| intros ->; destruct y as [| | | s m e]; cbn in *; try done].
  - unfold f64_eqb, SFeqb, SFcompare.
    destruct x as [s | s | | s m e], y as [s' | s' | | s' m' e']; try done; try (by destruct s, s').
    destruct s, s'; try done; destruct (Z.compare_spec e e') as [-> | |]; try done;
      destruct (Pcompare m m' Eq) eqn:Hm; try done; apply Pos.compare_eq in Hm; by subst.
  - by destruct s.
  - unfold f64_eqb, SFeqb, SFcompare. destruct s; rewrite Z.compare_refl; fold (Pos.compare m m);
      by rewrite Pos.compare_refl.
Qed.

(** Two keys are equal in the code exactly when they have one identity. *)
Lemma key_eq_id a b : key_ok a -> key_ok b -> key_eq a b = true <-> key_id a = key_id b.
Proof.
  intros Ha Hb. unfold key_eq.
  destruct a, b; cbn [string_bytes key_id]; try (split; intros; done || congruence);
    rewrite ?Z.eqb_eq, ?bool_decide_eq_true, ?eqb_true_iff; try (split; congruence).
  rewrite f64_eqb_same by done. split; congruence.
Qed.

(** ** Contents *)

Definition field : Type := Key * Value.

Definition slot_fields (start : Z) (a : list (option Value)) : list field :=
  omap (fun '(i, slot) => (fun v : Value => (AInteger (start + i + 1), v)) <$> slot) (enumerate a).

Definition bucket_field (b : Bucket) : option field :=
  match b with Some (key, v) => if is_nil v then None else Some (key_id key, v) | None => None end.

(** The fields in the order of a traversal. *)
Definition fields (t : Table) : list field := slot_fields 0 (array t) ++ omap bucket_field (hash t).

Definition contents (t : Table) : gmap Key Value := list_to_map (fields t).

(** The invariant of a table. *)
Record table_ok (t : Table) : Prop := {
  tk_length : zlen (array t) <= I64_MAX;
  tk_keys : forall i key v, zget (hash t) i = Some (Some (key, v)) -> key_ok key;
  tk_unique : forall i j key v key' v',
    zget (hash t) i = Some (Some (key, v)) -> zget (hash t) j = Some (Some (key', v')) ->
    key_id key = key_id key' -> i = j;
  tk_values : forall i, zget (array t) i <> Some (Some VNil);
  tk_disjoint : forall i v j key w,
    zget (array t) i = Some (Some v) -> zget (hash t) j = Some (Some (key, w)) -> w <> VNil ->
    key_id key <> AInteger (i + 1)
}.

(** A field of the array part and of the hash part. *)
Definition in_array (t : Table) (k : Key) (v : Value) : Prop :=
  exists i, k = AInteger (i + 1) /\ zget (array t) i = Some (Some v).
Definition in_hash (t : Table) (k : Key) (v : Value) : Prop :=
  exists i key, zget (hash t) i = Some (Some (key, v)) /\ key_id key = k /\ v <> VNil.
Definition holds (t : Table) (k : Key) (v : Value) : Prop := in_array t k v \/ in_hash t k v.

Lemma is_nil_true v : is_nil v = true <-> v = VNil.
Proof. by destruct v. Qed.
Lemma is_nil_false v : is_nil v = false <-> v <> VNil.
Proof. by destruct v. Qed.

Lemma zget_elem {A} (l : list A) x : x ∈ l <-> exists i, zget l i = Some x.
Proof.
  rewrite list_elem_of_lookup. split.
  - intros [i Hi]. exists (Z.of_nat i). apply zget_Some. split; [lia | by rewrite Nat2Z.id].
  - intros [i Hi]. apply zget_Some in Hi as [_ Hi]. eauto.
Qed.

Lemma elem_of_slot_fields start a k v :
  (k, v) ∈ slot_fields start a <-> exists i, k = AInteger (start + i + 1) /\ zget a i = Some (Some v).
Proof.
  unfold slot_fields. rewrite list_elem_of_omap. split.
  - intros ([i slot] & Hin & Hs). apply enumerate_elem in Hin. destruct slot; [| done].
    injection Hs as <- <-. eauto.
  - intros (i & -> & Hi). exists (i, Some v). split; [by apply enumerate_elem | done].
Qed.

Lemma elem_of_bucket_fields h k v :
  (k, v) ∈ omap bucket_field h <-> exists i key, zget h i = Some (Some (key, v)) /\ key_id key = k /\ v <> VNil.
Proof.
  rewrite list_elem_of_omap. split.
  - intros ([[key w] |] & Hin & Hb); [| done]. apply zget_elem in Hin as [i Hi]. cbn in Hb.
    destruct (is_nil w) eqn:Hn; [done |]. injection Hb as <- <-. apply is_nil_false in Hn. eauto.
  - intros (i & key & Hi & <- & Hv). exists (Some (key, v)). split; [apply zget_elem; eauto |].
    cbn. apply is_nil_false in Hv. by rewrite Hv.
Qed.

Lemma elem_of_fields t k v : (k, v) ∈ fields t <-> holds t k v.
Proof.
  unfold fields, holds. rewrite elem_of_app, elem_of_slot_fields, elem_of_bucket_fields. done.
Qed.

Lemma holds_fun t k v w : table_ok t -> holds t k v -> holds t k w -> v = w.
Proof.
  intros Ht [(i & Hk & Hi) | (i & key & Hi & Hk & Hv)] [(j & Hk' & Hj) | (j & key' & Hj & Hk' & Hw)].
  - rewrite Hk in Hk'. injection Hk' as ?. assert (i = j) as -> by lia. congruence.
  - destruct (tk_disjoint _ Ht i v j key' w Hi Hj Hw). congruence.
  - destruct (tk_disjoint _ Ht j w i key v Hj Hi Hv). congruence.
  - rewrite <- Hk in Hk'. assert (i = j) as -> by (eapply tk_unique; eauto). congruence.
Qed.

Lemma holds_not_nil t k v : table_ok t -> holds t k v -> v <> VNil.
Proof. intros Ht [(i & _ & Hi) | (i & key & _ & _ & Hv)]; [| done]. intros ->. by eapply tk_values. Qed.

Lemma NoDup_omap_fst {A} (f : A -> option field) (l : list A) :
  (forall i j x y k v w, zget l i = Some x -> zget l j = Some y -> f x = Some (k, v) -> f y = Some (k, w) -> i = j) ->
  NoDup (omap f l).*1.
Proof.
  induction l as [| x l IH]; intros H; [constructor |]. cbn.
  assert (forall i y, zget l i = Some y -> zget (x :: l) (1 + i) = Some y) as Hs.
  { intros i y Hi. pose proof (zget_app_r [x] l i) as E. cbn [app] in E. change (zlen [x]) with 1 in E.
    rewrite E. pose proof (zget_lt _ _ _ Hi). by replace (0 <=? i) with true by lia. }
  assert (NoDup (omap f l).*1) as Hl.
  { apply IH. intros i j y z k v w Hi Hj Hy Hz. enough (1 + i = 1 + j) by lia. by eapply H; eauto. }
  destruct (f x) as [[k v] |] eqn:Hx; [| done]. cbn. constructor; [| done].
  intros ([k' w] & -> & Hin)%list_elem_of_fmap. apply list_elem_of_omap in Hin as (y & Hy & Hf).
  apply zget_elem in Hy as [i Hi]. pose proof (zget_lt _ _ _ Hi).
  enough (0 = 1 + i) by lia. eapply H; [done | by apply Hs | done | done].
Qed.

Lemma NoDup_fields t : table_ok t -> NoDup (fields t).*1.
Proof.
  intros Ht. unfold fields. rewrite fmap_app. apply NoDup_app. split; [| split].
  - apply NoDup_omap_fst. intros i j [a va] [b vb] k v w Hi Hj Ha Hb.
    assert (forall n x y, zget (enumerate (array t)) n = Some (x, y) -> x = n) as Hen.
    { intros n x y Hn. apply zget_Some in Hn as [? Hn]. unfold enumerate in Hn.
      apply lookup_zip_Some in Hn as [Hn _]. rewrite list_lookup_fmap in Hn.
      destruct (seq 0 (length (array t)) !! Z.to_nat n) as [m |] eqn:Hm; [| done].
      apply lookup_seq in Hm as [-> _]. cbn in Hn. injection Hn as <-. lia. }
    destruct va, vb; try done. cbn in Ha, Hb. injection Ha as <- _. injection Hb as ? _.
    rewrite (Hen _ _ _ Hi), (Hen _ _ _ Hj) in *. lia.
  - intros k ([k1 v] & -> & Hv)%list_elem_of_fmap ([k2 w] & Hk & Hw)%list_elem_of_fmap. cbn in Hk. subst k2.
    apply elem_of_slot_fields in Hv as (i & -> & Hi). apply elem_of_bucket_fields in Hw as (j & key & Hj & Hkey & Hw).
    by apply (tk_disjoint _ Ht i v j key w).
  - apply NoDup_omap_fst. intros i j [[a va] |] [[b vb] |] k v w Hi Hj Ha Hb; try done. cbn in Ha, Hb.
    destruct (is_nil va), (is_nil vb); try done. injection Ha as Ha _. injection Hb as Hb _.
    eapply tk_unique; [done | exact Hi | exact Hj | congruence].
Qed.

Lemma contents_lookup t k v : table_ok t -> contents t !! k = Some v <-> holds t k v.
Proof.
  intros Ht. unfold contents. rewrite <- elem_of_list_to_map by (by apply NoDup_fields). apply elem_of_fields.
Qed.

Lemma contents_none t k : table_ok t -> contents t !! k = None <-> forall v, ~ holds t k v.
Proof.
  intros Ht. split.
  - intros Hn v Hv. apply contents_lookup in Hv; [congruence | done].
  - intros H. destruct (contents t !! k) as [v |] eqn:Hk; [| done]. apply contents_lookup in Hk; [by destruct (H v) | done].
Qed.

(** ** Probing *)

Lemma elem_of_probes start count i : 0 <= start < count -> i ∈ probes start count <-> 0 <= i < count.
Proof.
  intros Hs. unfold probes. rewrite list_elem_of_fmap. split.
  - intros (step & -> & Hstep). apply elem_of_seqZ in Hstep. unfold probe.
    destruct (Z.ltb_spec step (count - start)); lia.
  - intros Hi. destruct (Z.le_gt_cases start i).
    + exists (i - start). unfold probe. rewrite elem_of_seqZ.
      destruct (Z.ltb_spec (i - start) (count - start)); lia.
    + exists (i + (count - start)). unfold probe. rewrite elem_of_seqZ.
      destruct (Z.ltb_spec (i + (count - start)) (count - start)); lia.
Qed.

Lemma find_spec {A} (p : A -> bool) (l : list A) :
  match find p l with
  | Some x => x ∈ l /\ p x = true
  | None => forall x, x ∈ l -> p x = false
  end.
Proof.
  destruct (find p l) as [x |] eqn:Hf.
  - apply find_some in Hf as [Hin Hp]. split; [by apply list_elem_of_In | done].
  - intros x Hx. eapply find_none; [done | by apply list_elem_of_In].
Qed.

Section Hashing.
Context `{Hasher}.

Lemma hash_start_range seed items count : 0 < count -> 0 <= hash_start seed items count < count.
Proof. intros Hc. unfold hash_start. by apply Z.mod_pos_bound. Qed.

(** Probing looks at every bucket, so the hash function does not matter. *)
Lemma find_any_hash_spec t key :
  table_ok t -> key_ok key ->
  match find_any_hash t key with
  | Some i => exists stored v, zget (hash t) i = Some (Some (stored, v)) /\ key_id stored = key_id key
  | None => forall i stored v, zget (hash t) i = Some (Some (stored, v)) -> key_id stored <> key_id key
  end.
Proof.
  intros Ht Hk. unfold find_any_hash. destruct (Z.eqb_spec (zlen (hash t)) 0) as [H0 |].
  { intros i stored v Hi. apply zget_lt in Hi. lia. }
  pose proof (zlen_nonneg (hash t)).
  pose proof (find_spec (fun index => match bucket_key (zget (hash t) index) with
     | Some stored => key_eq stored key | None => false end)
     (probes (bucket t key (zlen (hash t))) (zlen (hash t)))) as Hf.
  destruct (find _ _) as [i |].
  - destruct Hf as [_ Hi]. unfold bucket_key in Hi. destruct (zget (hash t) i) as [[[stored v] |] |] eqn:Hg; try done.
    exists stored, v. split; [done |]. apply key_eq_id; [by eapply tk_keys | done | done].
  - intros i stored v Hi Heq. specialize (Hf i). rewrite Hi in Hf. cbn [bucket_key] in Hf.
    apply key_eq_id in Heq; [| by eapply tk_keys | done]. rewrite Hf in Heq; [done |].
    apply elem_of_probes; [apply hash_start_range; lia | by eapply zget_lt].
Qed.

Lemma find_hash_spec t key :
  table_ok t -> key_ok key ->
  match find_hash t key with
  | Some i => exists stored v, zget (hash t) i = Some (Some (stored, v)) /\ key_id stored = key_id key /\ v <> VNil
  | None => forall v, ~ in_hash t (key_id key) v
  end.
Proof.
  intros Ht Hk. pose proof (find_any_hash_spec t key Ht Hk) as Hf. unfold find_hash.
  destruct (find_any_hash t key) as [i |].
  - destruct Hf as (stored & v & Hi & Hs). rewrite Hi. cbn [live]. destruct (is_nil v) eqn:Hn; cbn [negb].
    + apply is_nil_true in Hn. subst v. intros w (j & key' & Hj & Hk' & Hw). rewrite <- Hs in Hk'.
      assert (j = i) as -> by (eapply tk_unique; eauto). congruence.
    + apply is_nil_false in Hn. eauto.
  - intros v (j & key' & Hj & Hk' & _). by eapply Hf.
Qed.

Lemma array_index_spec key i : array_index key = Some i <-> key_id key = AInteger (i + 1) /\ 0 <= i.
Proof.
  unfold array_index. destruct key; cbn [key_id]; try (split; [done | by intros [[=] _]]).
  destruct (Z.ltb_spec 0 n); split; try done.
  - intros [= <-]. split; [f_equal; lia | lia].
  - intros [[= ->] ?]. f_equal. lia.
  - intros [[= ->] ?]. lia.
Qed.

Lemma in_array_index t key v :
  in_array t (key_id key) v <-> exists i, array_index key = Some i /\ zget (array t) i = Some (Some v).
Proof.
  unfold in_array. split.
  - intros (i & Hk & Hi). exists i. split; [| done]. apply array_index_spec. split; [done | apply zget_lt in Hi; lia].
  - intros (i & Hk & Hi). exists i. split; [by apply array_index_spec in Hk as [? _] | done].
Qed.

Lemma hash_value_spec t key :
  table_ok t -> key_ok key -> (forall v, ~ in_array t (key_id key) v) ->
  hash_value t (find_hash t key) = default VNil (contents t !! key_id key).
Proof.
  intros Ht Hk Ha. pose proof (find_hash_spec t key Ht Hk) as Hf. unfold hash_value.
  destruct (find_hash t key) as [i |].
  - destruct Hf as (stored & v & Hi & Hs & Hv). rewrite Hi.
    assert (contents t !! key_id key = Some v) as ->; [| done].
    apply contents_lookup; [done |]. right. by exists i, stored.
  - assert (contents t !! key_id key = None) as ->; [| done].
    apply contents_none; [done |]. intros v [Hv | Hv]; [by eapply Ha | by eapply Hf].
Qed.

(** Lookup. *)
Lemma table_get_spec t key :
  table_ok t -> key_ok key -> table_get t key = default VNil (contents t !! key_id key).
Proof.
  intros Ht Hk. unfold table_get. destruct (array_index key) as [i |] eqn:Hix.
  - destruct (zget (array t) i) as [[v |] |] eqn:Hi.
    + assert (contents t !! key_id key = Some v) as ->; [| done]. apply contents_lookup; [done |].
      left. apply in_array_index. eauto.
    + apply hash_value_spec; [done.. |]. intros v (j & Hj & Hv)%in_array_index. congruence.
    + apply hash_value_spec; [done.. |]. intros v (j & Hj & Hv)%in_array_index. congruence.
  - apply hash_value_spec; [done.. |]. intros v (j & Hj & Hv)%in_array_index. congruence.
Qed.

End Hashing.
