(* ===== verification/TableSet.v ===== *)
(** Sets on tables: what each mutation does to the contents, and [raw_set] and
    [raw_get] as the insertion and the lookup of a finite map. *)

From Stdlib Require Import ZArith Lia SpecFloat.
From stdpp Require Import base list numbers gmap.
From S2P Require Import Prelude Float Number Lexer Table TableSpec.

Local Open Scope Z_scope.

(** ** The effect of one assignment *)

(** The assignment on contents: nil removes. *)
Definition assign (k : Key) (v : Value) (m : gmap Key Value) : gmap Key Value :=
  if is_nil v then delete k m else <[k := v]> m.

(** [t'] is a table, and holds what [t] holds but [v] at [k]. *)
Definition updates (t t' : Table) (k : Key) (v : Value) : Prop :=
  table_ok t' /\
  forall k' w, holds t' k' w <-> (k' = k /\ w = v /\ v <> VNil) \/ (k' <> k /\ holds t k' w).

Lemma updates_contents t t' k v : table_ok t -> updates t t' k v -> contents t' = assign k v (contents t).
Proof.
  intros Ht [Ht' H]. apply map_eq. intros k'. apply option_eq. intros w.
  rewrite contents_lookup, H, <- contents_lookup by done. clear H.
  unfold assign. destruct (is_nil v) eqn:Hn.
  - apply is_nil_true in Hn. rewrite lookup_delete_Some. naive_solver.
  - apply is_nil_false in Hn. rewrite lookup_insert_Some. naive_solver.
Qed.

(** The invariant and the contents depend on the two parts only. *)
Lemma table_ok_ext t t' : array t' = array t -> hash t' = hash t -> table_ok t -> table_ok t'.
Proof. intros Ha Hh []. constructor; rewrite ?Ha, ?Hh; done. Qed.

Lemma holds_ext t t' k v : array t' = array t -> hash t' = hash t -> holds t' k v <-> holds t k v.
Proof. intros Ha Hh. unfold holds, in_array, in_hash. by rewrite Ha, Hh. Qed.

Lemma updates_version t t' k v n : updates t t' k v -> updates t (with_version t' n) k v.
Proof.
  intros [Ht H]. split; [by apply (table_ok_ext t') |]. intros. rewrite <- H. by apply holds_ext.
Qed.

Lemma zget_zinsert_Some {A} (l : list A) i j x y :
  0 <= i -> zget (zinsert l i x) j = Some y <-> (j = i /\ y = x /\ i < zlen l) \/ (j <> i /\ zget l j = Some y).
Proof.
  intros Hi. destruct (decide (j = i)) as [-> | Hj].
  - destruct (decide (i < zlen l)).
    + rewrite zget_zinsert_eq by lia. naive_solver.
    + split; [intros H; apply zget_lt in H; rewrite zlen_zinsert in H; lia | naive_solver].
  - rewrite zget_zinsert_ne by done. naive_solver.
Qed.

(** Assignment to a slot of the array. *)
Lemma set_array t i v :
  table_ok t -> 0 <= i < zlen (array t) -> (forall w, ~ in_hash t (AInteger (i + 1)) w) ->
  updates t (with_array t (zinsert (array t) i (if is_nil v then None else Some v))) (AInteger (i + 1)) v.
Proof.
  intros Ht Hi Hh. set (t' := with_array _ _).
  assert (forall j w, zget (array t') j = Some (Some w) <->
            (j = i /\ w = v /\ v <> VNil) \/ (j <> i /\ zget (array t) j = Some (Some w))) as Ha.
  { intros j w. cbn. rewrite zget_zinsert_Some by lia. destruct (is_nil v) eqn:Hn.
    - apply is_nil_true in Hn. naive_solver.
    - apply is_nil_false in Hn. naive_solver. }
  split.
  - constructor.
    + cbn. rewrite zlen_zinsert. apply (tk_length _ Ht).
    + apply (tk_keys _ Ht).
    + apply (tk_unique _ Ht).
    + intros j Hj. apply Ha in Hj as [(-> & <- & ?) | [_ Hj]]; [done |]. by apply (tk_values _ Ht j).
    + intros j w n key u Hj Hn Hu. apply Ha in Hj as [(-> & _ & _) | [_ Hj]].
      * intros Hk. apply (Hh u). by exists n, key.
      * by eapply (tk_disjoint _ Ht).
  - intros k w. unfold holds. change (in_hash t' k w) with (in_hash t k w). unfold in_array.
    setoid_rewrite Ha. split.
    + intros [(j & -> & [(-> & -> & ?) | [Hj Hw]]) | Hw].
      * by left.
      * right. split; [intros [=]; lia |]. left. eauto.
      * right. split; [intros ->; by apply (Hh w) | by right].
    + intros [(-> & -> & Hv) | [Hk [(j & -> & Hj) | Hw]]]; [| | by right].
      * left. eauto 6.
      * left. exists j. split; [done |]. right. split; [congruence | done].
Qed.

(** Assignment to a bucket: the one that has the key, or an empty one when none has. *)
Lemma set_hash t i key v b :
  table_ok t -> key_ok key -> zget (hash t) i = Some b -> (forall w, ~ in_array t (key_id key) w) ->
  match b with
  | Some (old, _) => key_id old = key_id key
  | None => forall j old w, zget (hash t) j = Some (Some (old, w)) -> key_id old <> key_id key
  end ->
  updates t (with_hash t (zinsert (hash t) i (Some (key, v)))) (key_id key) v.
Proof.
  intros Ht Hk Hi Hno Hb. pose proof (zget_lt _ _ _ Hi) as Hlt. set (t' := with_hash _ _).
  assert (forall j k w, zget (hash t') j = Some (Some (k, w)) <->
            (j = i /\ k = key /\ w = v) \/ (j <> i /\ zget (hash t) j = Some (Some (k, w)))) as Hh.
  { intros j k w. cbn. rewrite zget_zinsert_Some by lia. naive_solver. }
  assert (forall j k w, j <> i -> zget (hash t) j = Some (Some (k, w)) -> key_id k <> key_id key) as Hne.
  { intros j k w Hj Hg Heq. destruct b as [[old u] |]; [| by eapply Hb].
    destruct Hj. eapply (tk_unique _ Ht); [exact Hg | exact Hi | congruence]. }
  split.
  - constructor.
    + apply (tk_length _ Ht).
    + intros j k w Hj. apply Hh in Hj as [(-> & -> & ->) | [_ Hj]]; [done | by eapply (tk_keys _ Ht)].
    + intros j n k w k' w' Hj Hn Heq. apply Hh in Hj, Hn.
      destruct Hj as [(-> & -> & ->) | [Hj Hj']], Hn as [(-> & -> & ->) | [Hn Hn']].
      * done.
      * by destruct (Hne _ _ _ Hn Hn').
      * by destruct (Hne _ _ _ Hj Hj').
      * by eapply (tk_unique _ Ht).
    + apply (tk_values _ Ht).
    + intros j w n k u Hj Hn Hu Heq. apply Hh in Hn as [(-> & -> & ->) | [_ Hn]].
      * apply (Hno w). exists j. by rewrite Heq.
      * by eapply (tk_disjoint _ Ht).
  - intros k w. unfold holds. change (in_array t' k w) with (in_array t k w). unfold in_hash.
    setoid_rewrite Hh. split.
    + intros [Hw | (j & k' & [(-> & -> & ->) | [Hj Hw]] & <- & Hv)].
      * right. split; [intros ->; by apply (Hno w) | by left].
      * by left.
      * right. split; [by eapply Hne | right; by exists j, k'].
    + intros [(-> & -> & Hv) | [Hne' [Hw | (j & k' & Hj & <- & Hv)]]]; [| by left |].
      * right. exists i, key. by split; [left |].
      * right. exists j, k'. split; [| done]. right. split; [| done]. intros ->.
        destruct b as [[old u] |]; congruence.
Qed.

(** A longer array with empty slots. *)
Lemma grow_array_ok t n :
  table_ok t -> zlen (array t ++ replicate n None) <= I64_MAX ->
  table_ok (with_array t (array t ++ replicate n None)) /\
  forall k v, holds (with_array t (array t ++ replicate n None)) k v <-> holds t k v.
Proof.
  intros Ht Hn.
  assert (forall j w, zget (array t ++ replicate n None) j = Some (Some w) <-> zget (array t) j = Some (Some w)) as Ha.
  { intros j w. destruct (decide (j < zlen (array t))); [by rewrite zget_app_l |].
    split; intros H; [exfalso | apply zget_lt in H; lia].
    replace j with (zlen (array t) + (j - zlen (array t))) in H by lia. rewrite zget_app_r in H.
    replace (0 <=? j - zlen (array t)) with true in H by lia. apply zget_Some in H as [_ H].
    by apply lookup_replicate in H as [? _]. }
  split.
  - constructor; cbn; [done | apply Ht.. | |].
    + intros i Hi. apply Ha in Hi. by apply (tk_values _ Ht i).
    + intros i v j key w Hi. apply Ha in Hi. by eapply (tk_disjoint _ Ht).
  - intros k v. unfold holds, in_array, in_hash. cbn. by setoid_rewrite Ha.
Qed.

(** ** Rehashing *)

Lemma fold_place {A} (l a b : list A) :
  (length l <= length b)%nat ->
  fold_res (E := VmError) place (a ++ b) (combine (map Z.of_nat (seq (length a) (length l))) l)
  = Ok (a ++ l ++ drop (length l) b).
Proof.
  revert a b. induction l as [| x l IH]; intros a b Hl; cbn [length seq map combine fold_res]; [done |].
  destruct b as [| y b]; cbn in Hl; [lia |]. unfold place. cbn [fst snd].
  assert (vset (E := VmError) (a ++ y :: b) (Z.of_nat (length a)) x = Ok ((a ++ [x]) ++ b)) as ->.
  { unfold vset. rewrite <- zlen_eq, zget_app_mid. unfold zinsert, zlen. rewrite Nat2Z.id.
    rewrite insert_app_r_alt by lia. rewrite Nat.sub_diag. cbn. by rewrite <- app_assoc. }
  cbn. replace (S (length a)) with (length (a ++ [x])) by (rewrite length_app; cbn; lia).
  unfold place in IH. rewrite IH by lia. by rewrite <- app_assoc.
Qed.

(** A rehash keeps the live buckets, in their order, and drops the dead keys. *)
Lemma rehash_spec old n :
  (length (filter (fun b => live b = true) old) <= n)%nat ->
  rehash old (replicate n None) =
  Ok (filter (fun b => live b = true) old ++ replicate (n - length (filter (fun b => live b = true) old)) None).
Proof.
  intros Hn. unfold rehash, enumerate.
  pose proof (fold_place (filter (fun b => live b = true) old) [] (replicate n None)) as H. cbn in H.
  rewrite H by (by rewrite length_replicate). by rewrite drop_replicate.
Qed.

Lemma zget_mono_filter {A} (P : A -> Prop) `{forall x, Decision (P x)} (l : list A) :
  exists f : Z -> Z,
    (forall i x, zget (filter P l) i = Some x -> zget l (f i) = Some x /\ P x) /\
    (forall i j, 0 <= i < zlen (filter P l) -> 0 <= j < zlen (filter P l) -> f i = f j -> i = j) /\
    (forall j x, zget l j = Some x -> P x -> exists i, zget (filter P l) i = Some x /\ f i = j).
Proof.
  assert (forall (x y : A) l i, zget (x :: l) i = Some y <-> (i = 0 /\ y = x) \/ zget l (i - 1) = Some y) as Hc.
  { intros x y k i. rewrite !zget_Some. destruct (decide (i = 0)) as [-> | Hi]; [split; [intros [_ [= ->]]; by left | intros [[_ ->] | [? _]]; [done | lia]] |].
    split.
    - intros [H1 H2]. right. split; [lia |]. replace (Z.to_nat i) with (S (Z.to_nat (i - 1))) in H2 by lia. done.
    - intros [? | [H1 H2]]; [lia |]. split; [lia |]. by replace (Z.to_nat i) with (S (Z.to_nat (i - 1))) by lia. }
  induction l as [| x l (f & H1 & H2 & H3)].
  - exists id. split; [| split]; [| done |]; intros i x Hi%zget_lt; change (0 <= i < 0) in Hi; lia.
  - rewrite filter_cons. destruct (decide (P x)) as [Hx | Hx].
    + exists (fun i => if i =? 0 then 0 else 1 + f (i - 1)).
      assert (forall i, 0 <= i < zlen (filter P l) -> 0 <= f i) as Hf.
      { intros i [y Hi]%zget_is_Some. apply H1 in Hi as [Hi _]. apply zget_lt in Hi. lia. }
      split; [| split].
      * intros i y [[-> ->] | Hi]%Hc; [done |]. pose proof (zget_lt _ _ _ Hi). apply H1 in Hi as [Hi ?].
        replace (i =? 0) with false by lia. split; [| done]. apply Hc. right. by replace (1 + f (i - 1) - 1) with (f (i - 1)) by lia.
      * intros i j. rewrite zlen_cons. intros Hi Hj.
        destruct (Z.eqb_spec i 0), (Z.eqb_spec j 0); intros Heq; [lia | | |].
        -- specialize (Hf (j - 1)). lia.
        -- specialize (Hf (i - 1)). lia.
        -- enough (i - 1 = j - 1) by lia. apply H2; lia.
      * intros j y [[-> ->] | Hj]%Hc Hy; [exists 0; split; [apply Hc; by left | done] |].
        destruct (H3 _ _ Hj Hy) as (i & Hi & Hfi). exists (1 + i). pose proof (zget_lt _ _ _ Hi). split.
        -- apply Hc. right. by replace (1 + i - 1) with i by lia.
        -- replace (1 + i =? 0) with false by lia. replace (1 + i - 1) with i by lia. lia.
    + exists (fun i => 1 + f i). split; [| split].
      * intros i y Hi. apply H1 in Hi as [Hi ?]. split; [| done]. apply Hc. right. by replace (1 + f i - 1) with (f i) by lia.
      * intros i j Hi Hj Heq. apply H2; lia.
      * intros j y [[-> ->] | Hj]%Hc Hy; [done |].
        destruct (H3 _ _ Hj Hy) as (i & Hi & Hfi). exists i. split; [done | lia].
Qed.

Definition rehashed (t : Table) (n : nat) : Table :=
  with_hash t (filter (fun b => live b = true) (hash t) ++ replicate n None).

Lemma rehashed_ok t n : table_ok t -> table_ok (rehashed t n) /\ forall k v, holds (rehashed t n) k v <-> holds t k v.
Proof.
  intros Ht. destruct (zget_mono_filter (fun b => live b = true) (hash t)) as (f & H1 & H2 & H3).
  set (kept := filter _ _) in *.
  assert (forall j b, zget (kept ++ replicate n None) j = Some (Some b) <-> zget kept j = Some (Some b)) as Hz.
  { intros j b. destruct (decide (j < zlen kept)); [by rewrite zget_app_l |].
    split; intros H; [exfalso | apply zget_lt in H; lia].
    replace j with (zlen kept + (j - zlen kept)) in H by lia. rewrite zget_app_r in H.
    replace (0 <=? j - zlen kept) with true in H by lia. apply zget_Some in H as [_ H].
    by apply lookup_replicate in H as [? _]. }
  assert (forall j key v, zget (hash (rehashed t n)) j = Some (Some (key, v)) ->
            zget (hash t) (f j) = Some (Some (key, v)) /\ v <> VNil) as Hback.
  { intros j key v Hj. apply Hz, H1 in Hj as [Hj Hl]. split; [done |]. cbn in Hl. intros ->. done. }
  split.
  - constructor; try apply Ht.
    + intros i key v Hi. apply Hback in Hi as [Hi _]. by eapply (tk_keys _ Ht).
    + intros i j key v key' v' Hi Hj Heq.
      apply H2; [apply Hz, zget_lt in Hi; done | apply Hz, zget_lt in Hj; done |].
      apply Hback in Hi as [Hi _], Hj as [Hj _]. by eapply (tk_unique _ Ht).
    + intros i v j key w Hi Hj. apply Hback in Hj as [Hj _]. by eapply (tk_disjoint _ Ht).
  - intros k v. unfold holds. change (in_array (rehashed t n) k v) with (in_array t k v).
    assert (in_hash (rehashed t n) k v <-> in_hash t k v) as ->; [| done]. split.
    + intros (i & key & Hi & Hk & Hv). apply Hback in Hi as [Hi _]. by exists (f i), key.
    + intros (i & key & Hi & Hk & Hv). destruct (H3 _ _ Hi) as (j & Hj & _).
      { cbn. by destruct v. }
      exists j, key. split; [by apply Hz | done].
Qed.

(** ** The ledger's promise

    Its functions return, with errors of a known set; a vector has at least the
    room that it was asked for; an [Option<Value>] has more than one byte. *)
Class LedgerLaws (L : Type) `{Ledger L} (refused : VmError -> Prop) := {
  reserve_at_returns : forall n p l, spec (reserve_at n p) l (fun _ _ => True) (fun e _ => refused e);
  reserve_excess_returns : forall n p l,
    spec (reserve_lua_backing_excess n p) l (fun _ _ => True) (fun e _ => refused e);
  checkpoint_returns : forall p l, spec (checkpoint p) l (fun _ _ => True) (fun e _ => refused e);
  try_reserve_exact_returns : forall n l, spec (try_reserve_exact n) l (fun _ _ => True) (fun e _ => refused e);
  commit_charge_returns : forall l, spec commit_charge l (fun _ _ => True) (fun e _ => refused e);
  slot_bytes : 2 <= size_of_slot;
  refused_overflow : refused ArithmeticOverflow
}.

Section Sets.
#[local] Set Default Proof Using "Type*".
Context `{Hasher} {L : Type} `{LedgerLaws L refused}.

(** A step of the ledger whose result does not matter, then the rest. *)
Lemma spec_then {A B} (m : ST L VmError A) (f : A -> ST L VmError B) l Q :
  spec m l (fun _ _ => True) (fun e _ => refused e) ->
  (forall a l', spec (f a) l' Q (fun e _ => refused e)) ->
  spec (m ≫= f) l Q (fun e _ => refused e).
Proof. intros Hm Hf. eapply spec_seq; [exact Hm | intros; apply Hf | done]. Qed.

Lemma checked_bytes_spec count size (l : L) :
  spec (checked_bytes count size) l (fun n _ => n = count * size /\ n <= USIZE_MAX) (fun e _ => refused e).
Proof.
  unfold checked_bytes. destruct (Z.leb_spec (count * size) USIZE_MAX); [by apply spec_ret |].
  apply spec_fail, refused_overflow.
Qed.

Lemma checked_mul2_spec n least (l : L) :
  spec (checked_mul2 n least) l (fun c _ => c = Z.max (n * 2) least) (fun e _ => refused e).
Proof.
  unfold checked_mul2. destruct (Z.leb_spec (n * 2) USIZE_MAX); [by apply spec_ret |].
  apply spec_fail, refused_overflow.
Qed.

Lemma checked_bytes_returns count size (l : L) :
  spec (checked_bytes count size) l (fun _ _ => True) (fun e _ => refused e).
Proof. eapply spec_weaken; [apply checked_bytes_spec | done..]. Qed.

Lemma reserve_vec_returns n size p (l : L) :
  spec (reserve_vec n size p) l (fun _ _ => True) (fun e _ => refused e).
Proof.
  unfold reserve_vec. apply spec_then; [apply checked_bytes_returns | intros].
  apply spec_then; [apply reserve_at_returns | intros].
  apply spec_then; [apply checkpoint_returns | intros]. apply try_reserve_exact_returns.
Qed.

Lemma copy_bytes_spec bytes (l : L) :
  spec (copy_bytes bytes) l (fun s _ => as_bytes s = bytes) (fun e _ => refused e).
Proof. apply spec_then; [apply reserve_vec_returns | intros; by apply spec_ret]. Qed.

Lemma make_dead_spec key (l : L) :
  key_ok key ->
  spec (make_dead key) l (fun dead _ => key_id dead = key_id key /\ key_ok dead) (fun e _ => refused e).
Proof.
  intros Hk. destruct key; try by apply spec_ret. cbn [make_dead].
  destruct (shared_external _); [| by apply spec_ret].
  eapply spec_seq; [apply copy_bytes_spec | | done]. intros s l' Hs.
  apply spec_then; [apply commit_charge_returns | intros; apply spec_ret]. cbn. by rewrite Hs.
Qed.

Lemma no_array t key : occupied_slot t key = None -> forall w, ~ in_array t (key_id key) w.
Proof.
  unfold occupied_slot. intros Ho w (i & Hi & Hw)%in_array_index. by rewrite Hi, Hw in Ho.
Qed.

(** The counts of the buckets. *)
Lemma live_count_bound t : 0 <= live_hash_count t <= zlen (hash t).
Proof. unfold live_hash_count, zlen. pose proof (length_filter (fun b => live b = true) (hash t)). lia. Qed.

Lemma occupied_full (h : list Bucket) : (forall i, zget h i <> Some None) -> filter is_Some h = h.
Proof.
  induction h as [| b h IH]; intros Hh; [done |]. rewrite filter_cons. destruct (decide (is_Some b)) as [Hb | Hb].
  - f_equal. apply IH. intros i Hi. apply (Hh (1 + i)). pose proof (zget_app_r [b] h i) as E.
    change ([b] ++ h) with (b :: h) in E. change (zlen [b]) with 1 in E. rewrite E.
    pose proof (zget_lt _ _ _ Hi). by replace (0 <=? i) with true by lia.
  - destruct b; [destruct Hb; eauto |]. by destruct (Hh 0).
Qed.

Lemma empty_bucket_spec t key :
  occupied_count t < zlen (hash t) -> exists i, empty_bucket t (hash t) key = Ok i /\ zget (hash t) i = Some None.
Proof.
  intros Ho. unfold empty_bucket. pose proof (zlen_nonneg (filter is_Some (hash t))).
  unfold occupied_count in Ho. replace (zlen (hash t) =? 0) with false by lia.
  pose proof (find_spec (fun index => match zget (hash t) index with Some None => true | _ => false end)
     (probes (bucket t key (zlen (hash t))) (zlen (hash t)))) as Hf.
  destruct (find _ _) as [i |].
  - exists i. split; [done |]. destruct Hf as [_ Hf]. by destruct (zget (hash t) i) as [[[] |] |].
  - rewrite occupied_full in Ho; [lia |]. intros i Hi. specialize (Hf i). rewrite Hi in Hf.
    discriminate Hf. apply elem_of_probes; [apply hash_start_range; lia | by eapply zget_lt].
Qed.

(** What a prepared mutation must do. *)
Definition achieves (m : PreparedTableMutation) (t : Table) (k : Key) (v : Value) : Prop :=
  exists t', apply_mutation m t = Ok t' /\ updates t t' k v /\
    metatable t' = metatable t /\ weak_mode t' = weak_mode t /\ hash_seed t' = hash_seed t.

Lemma achieves_bump t t1 m k v :
  apply_mutation m t = Ok (bump_mutation_version t1) -> updates t t1 k v ->
  metatable t1 = metatable t -> weak_mode t1 = weak_mode t -> hash_seed t1 = hash_seed t -> achieves m t k v.
Proof. intros Hm Hu. exists (bump_mutation_version t1). split; [done |]. split; [by apply updates_version | done]. Qed.

Lemma achieves_array t i v :
  table_ok t -> 0 <= i < zlen (array t) -> (forall w, ~ in_hash t (AInteger (i + 1)) w) ->
  achieves (ArraySlot i v) t (AInteger (i + 1)) v.
Proof.
  intros Ht Hi Hh. eapply achieves_bump; [| by apply (set_array t i v) | done..].
  cbn [apply_mutation]. unfold vset. by destruct (zget_is_Some _ _ Hi) as [x ->].
Qed.

Lemma achieves_hash t i key v b m :
  table_ok t -> key_ok key -> zget (hash t) i = Some b -> (forall w, ~ in_array t (key_id key) w) ->
  match b with
  | Some (old, _) => key_id old = key_id key
  | None => forall j old w, zget (hash t) j = Some (Some (old, w)) -> key_id old <> key_id key
  end ->
  apply_mutation m t = Ok (bump_mutation_version (with_hash t (zinsert (hash t) i (Some (key, v))))) ->
  achieves m t (key_id key) v.
Proof. intros. eapply achieves_bump; [done | by eapply set_hash | done..]. Qed.

Lemma prepare_array_growth_spec t v (l : L) :
  table_ok t -> v <> VNil -> (forall w, ~ in_hash t (AInteger (zlen (array t) + 1)) w) ->
  spec (prepare_array_growth t (zlen (array t)) v) l
    (fun m _ => achieves m t (AInteger (zlen (array t) + 1)) v) (fun e _ => refused e).
Proof.
  intros Ht Hv Hh. unfold prepare_array_growth.
  eapply spec_seq; [apply checked_mul2_spec | intros c l1 Hc; cbn beta in Hc | done].
  eapply spec_seq; [apply checked_bytes_spec | intros ? l2 [-> Hb] | done].
  assert (c <= I64_MAX) as Hmax.
  { pose proof (slot_bytes (L := L)) as Hs. cbn in Hb. assert (c * 2 <= c * size_of_slot) by nia. range_lia. }
  apply spec_then; [apply checked_bytes_returns | intros].
  apply spec_then; [apply reserve_vec_returns | intros].
  apply spec_then; [apply checkpoint_returns | intros; apply spec_ret].
  pose proof (zlen_nonneg (array t)). unfold grown_array.
  set (n := Z.to_nat (c - zlen (array t))).
  assert (zlen (array t ++ replicate n None) = c) as Hlen.
  { rewrite zlen_app. unfold zlen at 2. rewrite length_replicate. lia. }
  destruct (grow_array_ok t n Ht) as [Hg Hsame]; [lia |].
  destruct (set_array (with_array t (array t ++ replicate n None)) (zlen (array t)) v Hg) as [Hok Hup];
    [cbn; lia | done |].
  eapply achieves_bump; [done | | done..]. apply is_nil_false in Hv as Hn. rewrite Hn in Hok, Hup.
  split; [done |]. intros k w. rewrite <- Hsame. apply Hup.
Qed.

Lemma prepare_hash_insert_spec t key v (l : L) :
  table_ok t -> key_ok key -> v <> VNil -> (forall w, ~ holds t (key_id key) w) ->
  (find_any_hash t key = None \/ load_limit (zlen (hash t)) < live_hash_count t + 1) ->
  spec (prepare_hash_insert t key v) l (fun m _ => achieves m t (key_id key) v) (fun e _ => refused e).
Proof.
  intros Ht Hk Hv Hno Hroom. unfold prepare_hash_insert. pose proof (live_count_bound t) as Hlive.
  destruct ((zlen (hash t) =? 0) || _ || _) eqn:Hgrow.
  - eapply spec_seq; [apply checked_mul2_spec | intros c l1 Hc; cbn beta in Hc | done].
    assert (live_hash_count t < c) as Hfit by lia.
    replace (c <? live_hash_count t + 1) with false by lia.
    apply spec_then; [by apply spec_ret | intros _ l2].
    do 2 (apply spec_then; [apply checked_bytes_returns | intros]).
    apply spec_then; [apply reserve_vec_returns | intros].
    do 2 (apply spec_then; [apply checkpoint_returns | intros]). apply spec_ret.
    set (n := (Z.to_nat c - length (filter (fun b => live b = true) (hash t)))%nat).
    destruct (rehashed_ok t n Ht) as [Hr Hsame].
    assert (zget (hash (rehashed t n)) (live_hash_count t) = Some None) as Hfree.
    { cbn. unfold live_hash_count in *. rewrite <- (Z.add_0_r (zlen _)), zget_app_r. cbn [Z.leb Z.compare].
      unfold zlen in Hfit. apply zget_Some. split; [lia |]. apply lookup_replicate. split; [done |]. unfold n. lia. }
    destruct (set_hash (rehashed t n) (live_hash_count t) key v None) as [Hok Hup]; try done.
    + intros w Hw. apply (Hno w). apply Hsame. by left.
    + intros j old w Hj Heq. apply (Hno w). apply Hsame. right. exists j, old. split; [done | split; [done |]].
      intros ->. cbn in Hj. apply zget_Some in Hj as [_ Hj]. apply lookup_app_Some in Hj as [Hj | [_ Hj]].
      * apply list_elem_of_lookup_2, list_elem_of_filter in Hj as [? _]. done.
      * by apply lookup_replicate in Hj as [? _].
    + eapply achieves_bump; [| split; [exact Hok | intros; rewrite <- Hsame; apply Hup] | done..].
      cbn [apply_mutation]. rewrite rehash_spec by (unfold live_hash_count, zlen in Hfit; lia).
      cbn [mbind res_bind]. fold n. change (filter _ (hash t) ++ replicate n None) with (hash (rehashed t n)).
      unfold vset, Bucket in *. by rewrite Hfree.
  - bool_hyps. apply spec_then; [apply checkpoint_returns | intros _ l1].
    destruct (empty_bucket_spec t key) as (i & Hi & Hget); [lia |]. rewrite Hi. apply spec_bind. cbn.
    eapply (achieves_hash t i key v None); [done.. | | |].
    + intros w Hw. apply (Hno w). by left.
    + destruct Hroom as [Hf |]; [| lia]. pose proof (find_any_hash_spec t key Ht Hk) as Hs. by rewrite Hf in Hs.
    + cbn. unfold vset. by rewrite Hget.
Qed.

Lemma prepare_new_spec t key v (l : L) :
  table_ok t -> key_ok key -> v <> VNil -> (forall w, ~ holds t (key_id key) w) ->
  (find_any_hash t key = None \/ load_limit (zlen (hash t)) < live_hash_count t + 1) ->
  spec (prepare_new t key v) l (fun m _ => achieves m t (key_id key) v) (fun e _ => refused e).
Proof.
  intros Ht Hk Hv Hno Hroom. unfold prepare_new. destruct (array_index key) as [i |] eqn:Hi.
  - apply array_index_spec in Hi as [Hid Hi0].
    assert (forall w, ~ in_hash t (AInteger (i + 1)) w) as Hh.
    { intros w Hw. apply (Hno w). rewrite Hid. by right. }
    destruct (Z.ltb_spec i (zlen (array t))).
    { apply spec_then; [apply checkpoint_returns | intros; apply spec_ret]. rewrite Hid. by apply achieves_array. }
    destruct (Z.eqb_spec i (zlen (array t))) as [-> |]; [| by apply prepare_hash_insert_spec].
    rewrite Hid. by apply prepare_array_growth_spec.
  - by apply prepare_hash_insert_spec.
Qed.

Lemma prepare_set_spec t key v (l : L) :
  table_ok t -> key_ok key ->
  spec (prepare_set t key v) l (fun m _ => achieves m t (key_id key) v) (fun e _ => refused e).
Proof.
  intros Ht Hk. unfold prepare_set. destruct (occupied_slot t key) as [i |] eqn:Ho.
  { apply spec_ret. unfold occupied_slot in Ho. destruct (array_index key) as [j |] eqn:Hj; [| done].
    destruct (zget (array t) j) as [[w |] |] eqn:Hw; try done. injection Ho as <-.
    apply array_index_spec in Hj as [-> _]. apply achieves_array; [done | by eapply zget_lt |].
    intros u (n & old & Hn & Hold & Hu). by eapply (tk_disjoint _ Ht). }
  pose proof (no_array _ _ Ho) as Hno. pose proof (find_hash_spec t key Ht Hk) as Hf.
  destruct (find_hash t key) as [i |].
  - destruct Hf as (stored & w & Hget & Hid & Hw). destruct (is_nil v) eqn:Hn.
    + apply is_nil_true in Hn as ->. eapply spec_seq; [by apply make_dead_spec | | done].
      intros dead l' [Hd Hdk]. apply spec_ret. rewrite <- Hd.
      eapply (achieves_hash t i dead VNil _); [done | done | done | by rewrite Hd | cbn; congruence |].
      cbn. unfold vset. by rewrite Hget.
    + apply spec_ret. rewrite <- Hid.
      eapply (achieves_hash t i stored v _); [done | by eapply (tk_keys _ Ht) | done | by rewrite Hid | done |].
      cbn. rewrite Hn. unfold vget. rewrite Hget. cbn. unfold vset. by rewrite Hget.
  - assert (forall w, ~ holds t (key_id key) w) as Hnone.
    { intros w [Hw | Hw]; [by eapply Hno | by eapply Hf]. }
    destruct (is_nil v) eqn:Hn.
    { apply is_nil_true in Hn as ->. apply spec_ret. exists t. split; [done |]. split; [| done]. split; [done |].
      intros k w. split; [| naive_solver]. intros Hw. right. split; [| done]. intros ->. by eapply Hnone. }
    apply is_nil_false in Hn. pose proof (find_any_hash_spec t key Ht Hk) as Hany.
    destruct (find_any_hash t key) as [i |] eqn:Hfa; [| by apply prepare_new_spec; auto].
    destruct Hany as (stored & w & Hget & Hid).
    destruct (Z.leb_spec (live_hash_count t + 1) (load_limit (zlen (hash t)))).
    + apply spec_then; [apply checkpoint_returns | intros; apply spec_ret].
      eapply (achieves_hash t i key v _); [done | done | exact Hget | done | done |].
      cbn. unfold vset. by rewrite Hget.
    + apply prepare_new_spec; try done. right. lia.
Qed.

End Sets.
