(* ===== verification/TableKeys.v ===== *)
(** Values as keys: which values are one key, that [canonical_key] finds it, and
    that raw equality of values is equality of their keys. *)

From Stdlib Require Import ZArith Lia SpecFloat.
From stdpp Require Import base list numbers gmap.
From S2P Require Import Prelude Float Number Lexer Table TableSpec TableSet.

Local Open Scope Z_scope.

(** ** The heap's promise

    Its lookups return; an object of the kind byte string has bytes; two live
    references with one identity are one reference. *)
Class HeapLaws `{Heap} := {
  object_kind_total : forall o, total (object_kind o);
  byte_string_total : forall o, total (with_byte_string o);
  byte_string_of_kind : forall o, object_kind o = Ok ObjectKind.ByteString -> exists s, with_byte_string o = Ok s;
  live_identity : forall o k, object_kind o = Ok k -> exists id, identity o = Some id;
  same_identity : forall a b ka kb,
    object_kind a = Ok ka -> object_kind b = Ok kb -> identity a = identity b -> a = b
}.

(** ** Numbers as keys *)

Lemma integral_float_spec x :
  valid x -> float_integer x = if integral_float x then Some (f64_as_i64 x) else None.
Proof.
  intros Hv. pose proof ONE_pos as Hone. destruct valid_i64_min as [Vmin Vmax].
  unfold integral_float, float_integer. destruct (f64_is_finite x) eqn:Hf; cbn [andb]; [| done].
  change (f64_neg f64_two63) with f64_i64_min.
  rewrite f64_fract_zero, f64_geb_scaled, f64_ltb_scaled, scaled_i64_min, scaled_two63 by done.
  destruct (Z.eqb_spec (scaled x mod ONE) 0) as [Hm |]; cbn [andb]; [| by rewrite andb_false_r].
  assert (scaled x = scaled x / ONE * ONE) as Hs by (pose proof (Z.div_mod (scaled x) ONE); lia).
  set (n := scaled x / ONE) in *. rewrite andb_true_r.
  assert ((I64_MIN * ONE <=? scaled x) && (scaled x <? (I64_MAX + 1) * ONE) = (I64_MIN <=? n) && (n <=? I64_MAX)) as ->.
  { rewrite Hs. apply eq_bool_prop_intro. rewrite !Is_true_true, !andb_true_iff, !Z.leb_le, Z.ltb_lt. nia. }
  destruct (_ && _) eqn:Hr; [| done]. bool_hyps. symmetry. f_equal. apply f64_as_i64_exact; try done.
  range_lia.
Qed.

Definition number_key (n : Number) : option Key :=
  match n with
  | Integer n => Some (AInteger n)
  | Float x =>
      if f64_is_nan x then None
      else match float_integer x with Some n => Some (AInteger n) | None => Some (AFloat x) end
  end.

Lemma float_integer_Some x n : float_integer x = Some n <-> f64_is_finite x = true /\ scaled x = n * ONE /\ i64 n.
Proof.
  pose proof ONE_pos as Hone. unfold float_integer. split.
  - destruct (_ && _) eqn:Hc; [| done]. bool_hyps. intros [= <-].
    pose proof (Z.div_mod (scaled x) ONE). split; [done |]. split; [lia | range_lia].
  - intros (-> & -> & Hn). rewrite Z.mod_mul, Z.div_mul by lia.
    destruct (_ && _) eqn:Hc; [done |]. exfalso. cbn in Hc. range_lia.
Qed.

(** An infinity is equal to itself only. *)
Lemma equal_infinite x l :
  f64_is_finite x = false -> f64_is_nan x = false -> equal l (Float x) = bool_decide (l = Float x).
Proof.
  destruct x as [| s | |]; try done. intros _ _. destruct l as [n | [s' | s' | | s' m e]].
  - rewrite bool_decide_eq_false_2 by done. by destruct s.
  - rewrite bool_decide_eq_false_2 by done. by destruct s.
  - destruct s, s'; [by rewrite bool_decide_eq_true_2 | rewrite bool_decide_eq_false_2.. |
      by rewrite bool_decide_eq_true_2]; done.
  - rewrite bool_decide_eq_false_2 by done. by destruct s.
  - rewrite bool_decide_eq_false_2 by done. by destruct s, s'.
Qed.

Lemma equal_sym l r : equal l r = equal r l.
Proof.
  unfold equal. destruct (compare_total_but_nan l r) as [_ ->]. by destruct (compare l r) as [[] |].
Qed.

Lemma equal_key l r a b :
  number_ok l -> number_ok r -> number_key l = Some a -> number_key r = Some b -> equal l r = bool_decide (a = b).
Proof.
  intros Hl Hr Ha Hb. pose proof ONE_pos as Hone.
  assert (forall n k, number_key n = Some k -> finite n = false ->
            exists x, n = Float x /\ k = AFloat x /\ f64_is_finite x = false /\ f64_is_nan x = false) as Hinf.
  { intros [n | x] k Hk Hf; [done |]. cbn in Hk, Hf. destruct (f64_is_nan x) eqn:Hn; [done |].
    destruct (float_integer x) eqn:Hi; [apply float_integer_Some in Hi as [? _]; congruence |].
    injection Hk as <-. eauto. }
  assert (forall n x, number_key n = Some (AFloat x) -> n = Float x) as Hfl.
  { intros [n | y] x Hk; [done |]. cbn in Hk. destruct (f64_is_nan y), (float_integer y); congruence. }
  destruct (finite r) eqn:Fr.
  2:{ destruct (Hinf _ _ Hb Fr) as (x & -> & -> & Hx & Hn). rewrite equal_infinite by done.
      apply bool_decide_ext. split; [intros ->; congruence |]. intros ->. by apply Hfl. }
  destruct (finite l) eqn:Fl.
  2:{ destruct (Hinf _ _ Ha Fl) as (x & -> & -> & Hx & Hn). rewrite equal_sym, equal_infinite by done.
      apply bool_decide_ext. split; [intros ->; congruence |]. intros <-. by apply Hfl. }
  unfold equal. rewrite compare_exact by done.
  assert (forall n k, number_ok n -> number_key n = Some k -> finite n = true ->
            (exists i, k = AInteger i /\ exact n = i * ONE) \/
            (exists x, n = Float x /\ k = AFloat x /\ key_ok (KeyFloat x))) as Hfin.
  { intros [n | x] k Hn Hk Hf; cbn [number_ok number_key finite exact] in *; [injection Hk as <-; eauto |].
    destruct (f64_is_nan x) eqn:Hnan; [done |].
    destruct (float_integer x) as [i |] eqn:Hi; injection Hk as <-; [left | right; by exists x].
    apply float_integer_Some in Hi as (_ & Hs & _). eauto. }
  assert (forall x i, key_ok (KeyFloat x) -> f64_is_finite x = true -> i64 i -> scaled x <> i * ONE) as Hfrac.
  { intros x i (_ & _ & Hx) Hf Hi Hs. rewrite (proj2 (float_integer_Some x i)) in Hx; done. }
  assert (forall n i, number_ok n -> number_key n = Some (AInteger i) -> i64 i) as Hi64.
  { intros [n | x] i Hn Hk; cbn in Hk; [by injection Hk as <- |]. destruct (f64_is_nan x); [done |].
    destruct (float_integer x) eqn:Hx; [| done]. injection Hk as <-. by apply float_integer_Some in Hx as (_ & _ & ?). }
  assert (forall c, match Some c with Some Eq => true | _ => false end = bool_decide (c = Eq)) as -> by by intros [].
  apply bool_decide_ext. rewrite Z.compare_eq_iff.
  destruct (Hfin _ _ Hl Ha Fl) as [(i & -> & El) | (x & -> & -> & Kx)],
           (Hfin _ _ Hr Hb Fr) as [(j & -> & Er) | (y & -> & -> & Ky)]; cbn [exact finite] in *.
  - rewrite El, Er. split; [intros; f_equal; nia | by intros [= ->]].
  - rewrite El. split; [| done]. intros E. destruct (Hfrac y i); eauto.
  - rewrite Er. split; [| done]. intros E. destruct (Hfrac x j); eauto.
  - rewrite <- Z.compare_eq_iff. transitivity (f64_eqb x y = true).
    + unfold f64_eqb, SFeqb. fold (f64_partial_cmp x y). rewrite f64_partial_cmp_scaled by done.
      by destruct (scaled x ?= scaled y).
    + rewrite f64_eqb_same by done. split; congruence.
Qed.

(** ** Values as keys *)

Section Keys.
#[local] Set Default Proof Using "Type*".
Context `{HeapLaws}.

(** A value that the program can hold: numbers of their types, live objects of this VM. *)
Definition value_ok (v : Value) : Prop :=
  match v with
  | VInteger n => i64 n
  | VFloat x => valid x
  | VCFunction f => hf_vm f = heap_id
  | VObject o => exists k, object_kind o = Ok k
  | _ => True
  end.

(** The key that a value is: none for nil and NaN, the integer for a float that
    is equal to one, the bytes for a string. *)
Definition key_of (v : Value) : option Key :=
  match v with
  | VNil => None
  | VInteger n => number_key (Integer n)
  | VFloat x => number_key (Float x)
  | VBoolean b => Some (ABoolean b)
  | VLightUserdata a => Some (ALightUserdata a)
  | VCFunction f => Some (AFunction f)
  | VObject o =>
      match object_kind o with
      | Ok ObjectKind.ByteString => match with_byte_string o with Ok s => Some (AString (as_bytes s)) | _ => None end
      | Ok _ => AObject <$> identity o
      | _ => None
      end
  end.

Lemma key_of_object o :
  (exists k, object_kind o = Ok k) ->
  (exists s, object_kind o = Ok ObjectKind.ByteString /\ with_byte_string o = Ok s /\
     key_of (VObject o) = Some (AString (as_bytes s))) \/
  (exists k id, object_kind o = Ok k /\ k <> ObjectKind.ByteString /\ identity o = Some id /\
     key_of (VObject o) = Some (AObject id)).
Proof.
  intros [k Hk]. destruct (decide (k = ObjectKind.ByteString)) as [-> | Hne].
  - left. destruct (byte_string_of_kind o Hk) as [s Hs]. exists s. cbn [key_of]. by rewrite Hk, Hs.
  - right. destruct (live_identity o k Hk) as [id Hid]. exists k, id. cbn [key_of]. rewrite Hk, Hid. by destruct k.
Qed.

Definition is_number_key (k : Key) : bool := match k with AInteger _ | AFloat _ => true | _ => false end.

Lemma key_of_number v n : number_if v = Some n -> value_ok v -> number_ok n /\ key_of v = number_key n.
Proof. destruct v; try done; by intros [= <-]. Qed.

Lemma number_key_number n k : number_key n = Some k -> is_number_key k = true.
Proof. destruct n; cbn; [by intros [= <-] |]. destruct (f64_is_nan x), (float_integer x); by intros [= <-]. Qed.

Lemma key_of_other v k : number_if v = None -> key_of v = Some k -> is_number_key k = false.
Proof.
  destruct v; cbn; try done; try by intros _ [= <-].
  intros _. destruct (object_kind r) as [[] | |]; try done; try (destruct (identity r); by intros [= <-]).
  destruct (with_byte_string r); by intros [= <-].
Qed.

Lemma value_eq_mixed v w n :
  (number_if v = Some n /\ number_if w = None) \/ (number_if v = None /\ number_if w = Some n) -> value_eq v w = false.
Proof. destruct v, w; naive_solver. Qed.

Lemma raw_equal_objects o p a b :
  value_ok (VObject o) -> value_ok (VObject p) -> key_of (VObject o) = Some a -> key_of (VObject p) = Some b ->
  raw_equal (VObject o) (VObject p) = Ok (bool_decide (a = b)).
Proof.
  intros Ho Hp Ha Hb. unfold raw_equal.
  destruct (key_of_object o Ho) as [(s & Hk & Hs & Hko) | (k & id & Hk & Hne & Hid & Hko)];
    rewrite Hko in Ha; injection Ha as <-; rewrite Hk; cbn [mbind res_bind].
  - rewrite bool_decide_eq_true_2 by done.
    destruct (key_of_object p Hp) as [(s' & Hk' & Hs' & Hkp) | (k' & id' & Hk' & Hne' & Hid' & Hkp)];
      rewrite Hkp in Hb; injection Hb as <-; rewrite Hk'; cbn [mbind res_bind].
    + rewrite bool_decide_eq_true_2 by done. rewrite Hs, Hs'. cbn. f_equal. apply bool_decide_ext. split; congruence.
    + rewrite bool_decide_eq_false_2 by done. cbn. f_equal. rewrite !bool_decide_eq_false_2; congruence.
  - rewrite bool_decide_eq_false_2 by done. cbn. f_equal.
    destruct (key_of_object p Hp) as [(s' & Hk' & Hs' & Hkp) | (k' & id' & Hk' & Hne' & Hid' & Hkp)];
      rewrite Hkp in Hb; injection Hb as <-; apply bool_decide_ext.
    + split; congruence.
    + split; [congruence |]. intros [= ->]. eapply same_identity; [exact Hk | exact Hk' | congruence].
Qed.

(** Raw equality is equality of keys. *)
Lemma raw_equal_key v w a b :
  value_ok v -> value_ok w -> key_of v = Some a -> key_of w = Some b -> raw_equal v w = Ok (bool_decide (a = b)).
Proof.
  intros Hv Hw Ha Hb.
  assert ((exists o p, v = VObject o /\ w = VObject p) \/
          (raw_equal v w = Ok (equal_values v w) /\ forall o p, v = VObject o -> w <> VObject p))
    as [(o & p & -> & ->) | [-> Hno]].
  { destruct v, w; eauto 6; right; split; congruence. }
  { by apply raw_equal_objects. }
  unfold equal_values. destruct (number_if v) as [l |] eqn:Hl, (number_if w) as [r |] eqn:Hr.
  - destruct (key_of_number _ _ Hl Hv) as [Hlo Hlk], (key_of_number _ _ Hr Hw) as [Hro Hrk].
    f_equal. apply equal_key; congruence.
  - rewrite (value_eq_mixed v w l) by auto. destruct (key_of_number _ _ Hl Hv) as [_ Hlk]. rewrite Hlk in Ha.
    apply number_key_number in Ha. apply (key_of_other _ _ Hr) in Hb. rewrite bool_decide_eq_false_2; [done | congruence].
  - rewrite (value_eq_mixed v w r) by auto. destruct (key_of_number _ _ Hr Hw) as [_ Hrk]. rewrite Hrk in Hb.
    apply number_key_number in Hb. apply (key_of_other _ _ Hl) in Ha. rewrite bool_decide_eq_false_2; [done | congruence].
  - f_equal. destruct v, w; try done; try (by edestruct Hno);
      repeat match goal with
        | Hk : key_of (VObject ?o) = _, Ho : value_ok (VObject ?o) |- _ =>
            destruct (key_of_object o Ho) as [(? & _ & _ & E) | (? & ? & _ & _ & _ & E)]; rewrite E in Hk; clear Ho
        end;
      injection Ha as <-; injection Hb as <-; cbn [value_eq]; apply eq_bool_prop_intro;
      rewrite ?Is_true_true, ?eqb_true_iff, ?Z.eqb_eq, ?bool_decide_eq_true; split; congruence.
Qed.

(** ** [canonical_key] *)

Section Ledger.
Context {L : Type} `{LedgerLaws L refused}.

Lemma inline_bytes_padded source bytes :
  zlen bytes <= 8 ->
  inline_bytes {| isk_source := source; isk_len := zlen bytes; isk_bytes := bytes ++ replicate (8 - length bytes) 0 |} = bytes.
Proof.
  intros _. unfold inline_bytes. cbn [isk_len isk_bytes]. unfold zlen. rewrite Nat2Z.id. by rewrite take_app_length.
Qed.

Lemma long_string_key_spec source s (l : L) :
  spec (long_string_key source s) l
    (fun k _ => key_id k = AString (as_bytes s) /\ key_ok k /\ as_value k = VObject source) (fun e _ => refused e).
Proof.
  unfold long_string_key. eapply spec_seq with (P := fun b _ => as_bytes b = as_bytes s) (R := fun e _ => refused e); [| | done].
  - unfold shared_table_key. destruct (backing s); try by apply spec_ret.
    eapply spec_seq; [apply copy_bytes_spec | intros b l' Hb; cbn beta in Hb | done].
    apply spec_then; [apply commit_charge_returns | intros; by apply spec_ret].
  - intros b l1 Hb. cbn beta in Hb. apply spec_then; [apply reserve_vec_returns | intros capacity l2].
    apply spec_then.
    { destruct (capacity - 1 =? 0); [by apply spec_ret |].
      apply spec_then; [apply checked_bytes_returns | intros].
      apply spec_then; [apply reserve_excess_returns | intros; apply commit_charge_returns]. }
    intros _ l3. apply spec_then; [apply commit_charge_returns | intros; apply spec_ret]. cbn. by rewrite Hb.
Qed.

(** The key of a value, with the object that it came from. *)
Definition is_key_of (v : Value) (k : option CanonicalKey) : Prop :=
  match k with
  | Some k => key_of v = Some (key_id k) /\ key_ok k /\ (forall o, v = VObject o -> as_value k = v)
  | None => key_of v = None
  end.

Lemma canonical_key_spec v (l : L) :
  value_ok v -> spec (canonical_key v) l (fun k _ => is_key_of v k) (fun e _ => refused e).
Proof.
  intros Hv. unfold canonical_key. destruct v as [| b | n | x | a | f | o]; try by apply spec_ret.
  - cbn in Hv. cbn [is_key_of key_of number_key]. destruct (f64_is_nan x) eqn:Hn.
    { apply spec_ret. cbn. by rewrite Hn. }
    pose proof (integral_float_spec x Hv) as Hi. destruct (integral_float x); apply spec_ret; cbn; rewrite Hn, Hi.
    + split; [done |]. split; [| done]. by apply float_integer_Some in Hi as (_ & _ & ?).
    + done.
  - cbn in Hv. rewrite bool_decide_eq_true_2 by done. by apply spec_ret.
  - destruct (key_of_object o Hv) as [(s & Hk & Hs & Hko) | (k & id & Hk & Hne & Hid & Hko)];
      apply spec_bind; rewrite Hk; cbn [spec lift].
    + rewrite bool_decide_eq_true_2 by done. apply spec_bind. rewrite Hs. cbn [spec lift].
      unfold string_key. destruct (Z.leb_spec (zlen (as_bytes s)) 8).
      * apply spec_ret. cbn [is_key_of key_id]. rewrite inline_bytes_padded, Hko by done. split; [done |]. split; [done |].
        by intros o' [= <-].
      * eapply spec_seq; [apply long_string_key_spec | | done]. intros key l' (Hkid & Hok & Hval). apply spec_ret.
        cbn [is_key_of]. rewrite Hko, Hkid. split; [done |]. split; [done |]. by intros o' [= <-].
    + rewrite bool_decide_eq_false_2 by done. rewrite Hid. apply spec_ret. cbn [is_key_of]. rewrite Hko.
      split; [done |]. split; [done |]. by intros o' [= <-].
Qed.

(** ** Raw accesses *)

Context `{Hasher}.

Lemma key_of_absent v : is_nil v || is_nan_key v = true -> key_of v = None.
Proof. destruct v; cbn; try done. by intros ->. Qed.

Lemma raw_get_spec t k (l : L) :
  table_ok t -> value_ok k ->
  spec (raw_get t k) l (fun v _ => v = default VNil (key_of k ≫= fun key => contents t !! key)) (fun e _ => refused e).
Proof.
  intros Ht Hk. unfold raw_get. destruct (is_nil k || is_nan_key k) eqn:Habs.
  { apply spec_ret. by rewrite key_of_absent. }
  eapply spec_seq; [by apply canonical_key_spec | | done].
  intros [key |] l' Hkey; cbn in Hkey; apply spec_ret.
  - destruct Hkey as (-> & Hok & _). by apply table_get_spec.
  - by rewrite Hkey.
Qed.

(** Why a set is refused before the ledger is asked. *)
Definition bad_key (k : Value) (e : VmError) : Prop :=
  (k = VNil /\ e = NilTableKey) \/ (is_nan_key k = true /\ e = NaNTableKey).

Lemma raw_set_spec barrier t k v (l : L) :
  (forall a b l, spec (barrier a b) l (fun _ _ => True) (fun e _ => refused e)) ->
  table_ok t -> value_ok k -> value_ok v ->
  spec (raw_set barrier t k v) l
    (fun r _ => exists key, key_of k = Some key /\ updates t r.2 key v /\
       metatable r.2 = metatable t /\ weak_mode r.2 = weak_mode t /\ hash_seed r.2 = hash_seed t)
    (fun e _ => refused e \/ bad_key k e).
Proof.
  intros Hbar Ht Hk Hv. unfold raw_set.
  eapply spec_seq with (P := fun _ _ => True) (R := fun e _ => refused e); [| | by intros; left].
  { destruct v; try by apply spec_ret. cbn in Hv. rewrite bool_decide_eq_true_2 by done. by apply spec_ret. }
  intros _ l1 _. eapply spec_seq with (P := fun _ _ => is_nil k || is_nan_key k = false) (R := fun e _ => bad_key k e); [| | by intros; right].
  { unfold bad_key. destruct (is_nil k) eqn:Hn; [apply spec_fail; left; by rewrite <- is_nil_true |].
    destruct (is_nan_key k); [apply spec_fail; by right | by apply spec_ret]. }
  intros _ l2 Hp. eapply spec_weaken with (R := fun e _ => refused e); [| intros ? ? Hq; exact Hq | by intros; left].
  eapply spec_seq; [by apply canonical_key_spec | | done].
  intros [key |] l3 Hkey; cbn in Hkey.
  2:{ destruct k as [| | | x | | | o]; try done; cbn in Hkey, Hp.
      - rewrite Hp in Hkey. by destruct (float_integer x).
      - destruct (key_of_object o Hk) as [(? & _ & _ & E) | (? & ? & _ & _ & _ & E)]; cbn in E; congruence. }
  destruct Hkey as (Hid & Hok & _).
  eapply spec_seq; [by apply prepare_set_spec | intros m l4 (t' & Ht' & Hup & Hkeep) | done].
  apply spec_then; [apply Hbar | intros _ l5].
  apply spec_then; [destruct m; (apply commit_charge_returns || by apply spec_ret) | intros _ l6].
  apply spec_bind. rewrite Ht'. cbn. eauto.
Qed.

End Ledger.
End Keys.
