(* ===== verification/TableNext.v ===== *)
(** Traversal: [next] hands out the fields of a table in one order, each once. *)

From Stdlib Require Import ZArith Lia SpecFloat.
From stdpp Require Import base list numbers gmap.
From S2P Require Import Prelude Float Number Lexer Table TableSpec TableSet TableKeys.

Local Open Scope Z_scope.

(** ** The fields in the order of the traversal, with the values of their keys *)

Definition entry : Type := Value * Value.

Fixpoint slot_entries (start : Z) (a : list (option Value)) : list entry :=
  match a with
  | [] => []
  | Some v :: a => (VInteger (start + 1), v) :: slot_entries (start + 1) a
  | None :: a => slot_entries (start + 1) a
  end.

Definition bucket_entry (b : Bucket) : option entry :=
  match b with Some (key, v) => if is_nil v then None else Some (as_value key, v) | None => None end.

Definition entries (t : Table) : list entry := slot_entries 0 (array t) ++ omap bucket_entry (hash t).

Lemma slot_entries_app start a b : slot_entries start (a ++ b) = slot_entries start a ++ slot_entries (start + zlen a) b.
Proof.
  revert start. induction a as [| [v |] a IH]; intros start; cbn [slot_entries app].
  - by rewrite zlen_nil, Z.add_0_r.
  - rewrite IH, zlen_cons. cbn. by rewrite Z.add_assoc.
  - by rewrite IH, zlen_cons, Z.add_assoc.
Qed.

Lemma slot_entries_split start a pre k v post :
  slot_entries start a = pre ++ (k, v) :: post ->
  exists a1 a2, a = a1 ++ Some v :: a2 /\ k = VInteger (start + zlen a1 + 1) /\
    slot_entries (start + zlen a1 + 1) a2 = post.
Proof.
  revert start pre. induction a as [| [w |] a IH]; intros start pre; cbn [slot_entries].
  - by destruct pre.
  - destruct pre as [| e pre]; cbn; intros [= E1 E2].
    + subst. exists [], a. rewrite zlen_nil, Z.add_0_r. done.
    + intros. match goal with H : slot_entries _ _ = _ |- _ => apply IH in H as (a1 & a2 & -> & -> & <-) end.
      exists (Some w :: a1), a2. rewrite zlen_cons. split; [done |]. split; [f_equal; lia | f_equal; lia].
  - intros E. apply IH in E as (a1 & a2 & -> & -> & <-).
    exists (None :: a1), a2. rewrite zlen_cons. split; [done |]. split; [f_equal; lia | f_equal; lia].
Qed.

Lemma omap_split {A B} (f : A -> option B) l pre y post :
  omap f l = pre ++ y :: post -> exists l1 x l2, l = l1 ++ x :: l2 /\ f x = Some y /\ omap f l2 = post.
Proof.
  revert pre. induction l as [| x l IH]; intros pre; cbn; [by destruct pre |].
  destruct (f x) as [z |] eqn:Hx.
  - destruct pre as [| z' pre]; cbn; intros [= -> E]; [by exists [], x, l |].
    apply IH in E as (l1 & x' & l2 & -> & Hf & <-). by exists (x :: l1), x', l2.
  - intros E. apply IH in E as (l1 & x' & l2 & -> & Hf & <-). by exists (x :: l1), x', l2.
Qed.

(** ** Keys in a heap *)

Section Traversal.
#[local] Set Default Proof Using "Type*".
Context `{HeapLaws}.

(** The keys of a table, dead ones included, are of this heap; live ones can be
    looked up. *)
Definition bucket_ok (b : Bucket) : Prop :=
  match b with
  | Some (key, v) =>
      match key with
      | KeyCFunction f => hf_vm f = heap_id
      | KeyObject k => forall o, object_kind o = Ok ObjectKind.ByteString -> identity o <> Some (ok_id k)
      | _ => True
      end /\
      (v <> VNil -> value_ok (as_value key) /\ key_of (as_value key) = Some (key_id key))
  | None => True
  end.

Definition keys_ok (t : Table) : Prop := forall i b, zget (hash t) i = Some b -> bucket_ok b.

Lemma check_operand_ok v : value_ok v -> check_operand v = Ok tt.
Proof.
  destruct v; cbn; try done.
  - intros ->. by rewrite bool_decide_eq_true_2.
  - by intros [k ->].
Qed.

Lemma raw_equal_value_key v w a b :
  value_ok v -> value_ok w -> key_of v = Some a -> key_of w = Some b ->
  raw_equal_value v w = Ok (bool_decide (a = b)).
Proof.
  intros Hv Hw Ha Hb. unfold raw_equal_value. rewrite !check_operand_ok by done. by apply raw_equal_key.
Qed.

Lemma slot_key_ok i : 0 <= i -> i + 1 <= I64_MAX -> slot_key i = Ok (i + 1).
Proof. intros. unfold slot_key. destruct (_ && _) eqn:E; [done | range_lia]. Qed.

(** The search in the array finds the slot of an integer key. *)
Lemma find_slot_found p m a start :
  value_ok p -> key_of p = Some (AInteger m) -> 0 <= start -> start + zlen a <= I64_MAX -> start < m <= start + zlen a ->
  exists slot, zget a (m - 1 - start) = Some slot /\
    find_slot p a start = Ok (Some (m - 1, match slot with Some _ => true | None => false end)).
Proof.
  intros Hp Hk. revert start. induction a as [| slot a IH]; intros start Hs0 Hmax Hm.
  { rewrite zlen_nil in Hm. lia. }
  rewrite zlen_cons in Hm, Hmax. pose proof (zlen_nonneg a).
  cbn [find_slot]. rewrite slot_key_ok by lia. cbn [mbind res_bind].
  rewrite (raw_equal_value_key _ _ (AInteger (start + 1)) (AInteger m)); [| cbn; range_lia | done | done | done].
  cbn [mbind res_bind]. destruct (decide (m = start + 1)) as [-> | Hne].
  - rewrite bool_decide_eq_true_2 by done. exists slot. replace (start + 1 - 1 - start) with 0 by lia.
    split; [done |]. by replace (start + 1 - 1) with start by lia.
  - rewrite bool_decide_eq_false_2 by congruence.
    destruct (IH (start + 1)) as (s & Hs & Hf); [lia.. |]. exists s. split; [| done].
    pose proof (zget_app_r [slot] a (m - 1 - (start + 1))) as E. change (zlen [slot]) with 1 in E.
    replace (0 <=? m - 1 - (start + 1)) with true in E by lia.
    replace (m - 1 - start) with (1 + (m - 1 - (start + 1))) by lia. cbn [app] in E. by rewrite E.
Qed.

Lemma find_slot_absent p k a start :
  value_ok p -> key_of p = Some k -> 0 <= start -> start + zlen a <= I64_MAX ->
  (forall m, start < m <= start + zlen a -> k <> AInteger m) -> find_slot p a start = Ok None.
Proof.
  intros Hp Hk. revert start. induction a as [| slot a IH]; intros start Hs0 Hmax Hm; [done |].
  rewrite zlen_cons in Hm, Hmax. pose proof (zlen_nonneg a).
  cbn [find_slot]. rewrite slot_key_ok by lia. cbn [mbind res_bind].
  rewrite (raw_equal_value_key _ _ (AInteger (start + 1)) k); [| cbn; range_lia | done | done | done].
  rewrite bool_decide_eq_false_2 by (intros <-; by apply (Hm (start + 1)); [lia |]).
  apply IH; [lia.. |]. intros m Hm'. apply Hm. lia.
Qed.

Definition is_object_key (k : Key) : bool := match k with AString _ | AObject _ => true | _ => false end.

Lemma key_of_plain p k : (forall o, p <> VObject o) -> key_of p = Some k -> is_object_key k = false.
Proof.
  intros Hp. destruct p as [| | | x | | | o]; cbn; try (by intros [= <-]); [| by destruct (Hp o)].
  destruct (f64_is_nan x), (float_integer x); by intros [= <-].
Qed.

Lemma matches_string bytes key p k :
  string_bytes key = Some bytes -> value_ok p -> key_of p = Some k ->
  matches_previous key p = Ok (bool_decide (AString bytes = k)).
Proof.
  intros Hs Hp Hk. unfold matches_previous. rewrite Hs.
  destruct p as [| | | | | | o]; try (apply key_of_plain in Hk; [| done]; by rewrite bool_decide_eq_false_2 by (by intros <-)).
  destruct (key_of_object o Hp) as [(s & Ho & Hb & E) | (ko & id & Ho & Hne & Hid & E)];
    rewrite E in Hk; injection Hk as <-; rewrite Ho; cbn [mbind res_bind].
  - rewrite bool_decide_eq_true_2, Hb by done. cbn. f_equal. apply bool_decide_ext. split; congruence.
  - by rewrite !bool_decide_eq_false_2 by done.
Qed.

Lemma matches_object ok v p k :
  bucket_ok (Some (KeyObject ok, v)) -> value_ok p -> key_of p = Some k ->
  matches_previous (KeyObject ok) p = Ok (bool_decide (AObject (ok_id ok) = k)).
Proof.
  intros [Hb _] Hp Hk. unfold matches_previous. cbn [string_bytes].
  destruct p as [| | | | | | o]; try (apply key_of_plain in Hk; [| done]; by rewrite bool_decide_eq_false_2 by (by intros <-)).
  f_equal. apply bool_decide_ext.
  destruct (key_of_object o Hp) as [(s & Ho & _ & E) | (ko & id & Ho & Hne & Hid & E)]; rewrite E in Hk; injection Hk as <-.
  - split; [| done]. intros Hid. by destruct (Hb o Ho).
  - rewrite Hid. split; congruence.
Qed.

(** A key of the hash matches the values that are the same key. *)
Lemma matches_previous_key key v p k :
  key_ok key -> bucket_ok (Some (key, v)) -> value_ok p -> key_of p = Some k ->
  matches_previous key p = Ok (bool_decide (key_id key = k)).
Proof.
  intros Hkey Hb Hp Hk.
  destruct key; try (by apply (matches_string _ _ p k)); try (by apply (matches_object _ v));
    unfold matches_previous; cbn [string_bytes as_value]; apply raw_equal_value_key; try done.
  - by destruct Hkey.
  - destruct Hkey as (_ & Hn & Hi). cbn. by rewrite Hn, Hi.
  - by destruct Hb.
Qed.

(** The search in the hash finds the bucket, live or dead, of the key. *)
Lemma find_previous_found p k h1 key v h2 start :
  (forall old w, Some (old, w) ∈ h1 ++ Some (key, v) :: h2 -> key_ok old /\ bucket_ok (Some (old, w))) ->
  value_ok p -> key_of p = Some k -> key_id key = k ->
  (forall old w, Some (old, w) ∈ h1 -> key_id old <> k) ->
  find_previous p (h1 ++ Some (key, v) :: h2) start = Ok (Some (start + zlen h1)).
Proof.
  intros Hall Hp Hk Hid. revert start. induction h1 as [| [[old w] |] h1 IH]; intros start Hne; cbn [app find_previous].
  - destruct (Hall key v) as [Hok Hb]; [by left |]. rewrite (matches_previous_key _ v p k) by done. cbn [mbind res_bind].
    rewrite bool_decide_eq_true_2 by done. by rewrite zlen_nil, Z.add_0_r.
  - destruct (Hall old w) as [Hok Hb]; [by left |]. rewrite (matches_previous_key _ w p k) by done. cbn [mbind res_bind].
    rewrite bool_decide_eq_false_2 by (apply (Hne old w); by left).
    rewrite IH; [by rewrite zlen_cons, Z.add_assoc | intros; apply Hall; by right | intros; eapply Hne; by right].
  - rewrite IH; [by rewrite zlen_cons, Z.add_assoc | intros; apply Hall; by right | intros; eapply Hne; by right].
Qed.

Lemma find_previous_absent p k h start :
  (forall old w, Some (old, w) ∈ h -> key_ok old /\ bucket_ok (Some (old, w)) /\ key_id old <> k) ->
  value_ok p -> key_of p = Some k -> find_previous p h start = Ok None.
Proof.
  intros Hall Hp Hk. revert start. induction h as [| [[old w] |] h IH]; intros start; cbn [find_previous]; [done | |].
  - destruct (Hall old w) as (Hok & Hb & Hne); [by left |]. rewrite (matches_previous_key _ w p k) by done. cbn [mbind res_bind].
    rewrite bool_decide_eq_false_2 by done. apply IH. intros. apply Hall. by right.
  - apply IH. intros. apply Hall. by right.
Qed.

Lemma next_in_array_spec a start :
  0 <= start -> start + zlen a <= I64_MAX -> next_in_array a start = Ok (head (slot_entries start a)).
Proof.
  revert start. induction a as [| [v |] a IH]; intros start Hs Hmax; cbn [next_in_array slot_entries]; [done | |];
    rewrite zlen_cons in Hmax; pose proof (zlen_nonneg a).
  - by rewrite slot_key_ok by lia.
  - apply IH; lia.
Qed.

Lemma next_in_hash_spec h : next_in_hash h = head (omap bucket_entry h).
Proof.
  unfold next_in_hash. induction h as [| [[key v] |] h IH]; cbn [find]; [done | | exact IH].
  cbn. destruct (is_nil v); cbn; [exact IH | done].
Qed.

(** From the two places where the traversal goes on. *)
Lemma next_from t p a h :
  table_ok t -> 0 <= a <= zlen (array t) -> next_start t p = Ok (a, h) ->
  next_raw t p = Ok (head (slot_entries a (drop (Z.to_nat a) (array t)) ++ omap bucket_entry (drop (Z.to_nat h) (hash t)))).
Proof.
  intros Ht Ha Hs. unfold next_raw. rewrite Hs. cbn [mbind res_bind fst snd]. pose proof (tk_length _ Ht).
  rewrite next_in_array_spec by (unfold zlen in *; rewrite ?length_drop; lia).
  cbn [mbind res_bind]. rewrite next_in_hash_spec. by destruct (slot_entries _ _).
Qed.

Lemma drop_app_zlen {A} (l k : list A) : drop (Z.to_nat (zlen l)) (l ++ k) = k.
Proof. unfold zlen. by rewrite Nat2Z.id, drop_app_length. Qed.

Lemma drop_app_zlen_cons {A} (l k : list A) x : drop (Z.to_nat (zlen l + 1)) (l ++ x :: k) = k.
Proof.
  replace (l ++ x :: k) with ((l ++ [x]) ++ k) by (by rewrite <- app_assoc).
  replace (zlen l + 1) with (zlen (l ++ [x])) by (by rewrite zlen_app). apply drop_app_zlen.
Qed.

Lemma to_next_Ok {A} (r : res VmError A) a : r = Ok a -> to_next r = Ok a.
Proof. by intros ->. Qed.

Lemma buckets_ok t : table_ok t -> keys_ok t ->
  forall key w, Some (key, w) ∈ hash t -> key_ok key /\ bucket_ok (Some (key, w)).
Proof.
  intros Ht Hk key w [i Hi]%zget_elem. split; [by eapply (tk_keys _ Ht) | by eapply Hk].
Qed.

Lemma key_not_nil p k : key_of p = Some k -> is_nil p = false.
Proof. by destruct p. Qed.

Lemma find_slot_start p k a :
  value_ok p -> key_of p = Some k -> zlen a <= I64_MAX ->
  (exists m slot, k = AInteger m /\ zget a (m - 1) = Some slot /\
     find_slot p a 0 = Ok (Some (m - 1, match slot with Some _ => true | None => false end))) \/
  ((forall m, 0 < m <= zlen a -> k <> AInteger m) /\ find_slot p a 0 = Ok None).
Proof.
  intros Hp Hk Hmax.
  assert ((exists m, k = AInteger m /\ 0 < m <= zlen a) \/ (forall m, 0 < m <= zlen a -> k <> AInteger m)) as [(m & -> & Hm) | Hno].
  { destruct k as [n | | | | | |]; [| right; congruence..].
    destruct (decide (0 < n <= zlen a)); [left; eauto | right; congruence]. }
  - left. destruct (find_slot_found p m a 0) as (slot & Hs & Hf); [done.. | lia |].
    exists m, slot. rewrite Z.sub_0_r in Hs. done.
  - right. split; [done |]. eapply find_slot_absent; [done | exact Hk | lia | lia | intros; apply Hno; lia].
Qed.

Lemma next_start_slot t p a1 v a2 :
  table_ok t -> value_ok p -> array t = a1 ++ Some v :: a2 -> key_of p = Some (AInteger (zlen a1 + 1)) ->
  next_start t p = Ok (zlen a1 + 1, 0).
Proof.
  intros Ht Hp Ha Hk. unfold next_start. rewrite (key_not_nil _ _ Hk). pose proof (zlen_nonneg a1). pose proof (zlen_nonneg a2).
  destruct (find_slot_start p _ (array t) Hp Hk (tk_length _ Ht)) as [(m & slot & [= <-] & Hs & ->) | [Hno _]].
  - replace (zlen a1 + 1 - 1) with (zlen a1) in * by lia. rewrite Ha, zget_app_mid in Hs. injection Hs as <-. done.
  - destruct (Hno (zlen a1 + 1)); [| done]. rewrite Ha, zlen_app, zlen_cons. lia.
Qed.

Lemma next_start_bucket t p h1 key v h2 :
  table_ok t -> keys_ok t -> value_ok p -> hash t = h1 ++ Some (key, v) :: h2 -> v <> VNil ->
  key_of p = Some (key_id key) -> next_start t p = Ok (zlen (array t), zlen h1 + 1).
Proof.
  intros Ht Hkeys Hp Hh Hv Hk. unfold next_start. rewrite (key_not_nil _ _ Hk).
  assert (zget (hash t) (zlen h1) = Some (Some (key, v))) as Hget by (rewrite Hh; apply zget_app_mid).
  assert (find_previous p (hash t) 0 = Ok (Some (zlen h1))) as Hprev.
  { rewrite Hh. eapply find_previous_found; [| done | exact Hk | done |].
    - rewrite <- Hh. by apply buckets_ok.
    - intros old w Hin Heq. apply zget_elem in Hin as [i Hi]. pose proof (zget_lt _ _ _ Hi) as Hlt.
      assert (i = zlen h1); [| subst i; by apply (Z.lt_irrefl (zlen h1)), Hlt].
      eapply (tk_unique _ Ht); [| exact Hget | exact Heq].
      rewrite Hh, zget_app_l by apply Hlt. exact Hi. }
  destruct (find_slot_start p _ (array t) Hp Hk (tk_length _ Ht)) as [(m & slot & Hm & Hs & ->) | [_ ->]];
    cbn [to_next mbind res_bind].
  - destruct slot as [w |].
    + destruct (tk_disjoint _ Ht (m - 1) w (zlen h1) key v Hs Hget Hv). rewrite Hm. f_equal. lia.
    + rewrite Hprev. done.
  - rewrite Hprev. done.
Qed.

(** [next] gives the first field, after a key the field that follows it, and
    refuses a value that is no key of the table. *)
Lemma next_raw_first t : table_ok t -> next_raw t VNil = Ok (head (entries t)).
Proof.
  intros Ht. rewrite (next_from t VNil 0 0); [done | done | pose proof (zlen_nonneg (array t)); lia | done].
Qed.

Lemma next_raw_after t pre k v post p :
  table_ok t -> keys_ok t -> entries t = pre ++ (k, v) :: post -> value_ok p -> key_of p = key_of k ->
  next_raw t p = Ok (head post).
Proof.
  intros Ht Hkeys He Hp Hk. unfold entries in He.
  assert ((exists pre', slot_entries 0 (array t) = pre ++ (k, v) :: pre' /\ post = pre' ++ omap bucket_entry (hash t)) \/
          (exists pre', omap bucket_entry (hash t) = pre' ++ (k, v) :: post)) as [(pre' & Hs & ->) | (pre' & Hs)].
  { symmetry in He. apply app_eq_app in He as [l [[E1 E2] | [E1 E2]]].
    - right. by exists l.
    - destruct l as [| e l]; [right; by exists [] |]. injection E2 as <- E2. left. exists l. done. }
  - apply slot_entries_split in Hs as (a1 & a2 & Ha & -> & <-). cbn [Z.add] in *.
    rewrite (next_from t p (zlen a1 + 1) 0); [| done | | by eapply next_start_slot].
    + rewrite Ha, drop_app_zlen_cons. done.
    + rewrite Ha, zlen_app, zlen_cons. pose proof (zlen_nonneg a1). pose proof (zlen_nonneg a2). lia.
  - apply omap_split in Hs as (h1 & [[key w] |] & h2 & Hh & Hb & <-); [| done]. cbn in Hb.
    destruct (is_nil w) eqn:Hn; [done |]. injection Hb as <- <-. apply is_nil_false in Hn.
    assert (key_of (as_value key) = Some (key_id key)) as Hkey.
    { eapply (Hkeys (zlen h1) (Some (key, w))); [rewrite Hh; apply zget_app_mid | done]. }
    rewrite Hkey in Hk.
    rewrite (next_from t p (zlen (array t)) (zlen h1 + 1));
      [| done | pose proof (zlen_nonneg (array t)); lia | by eapply next_start_bucket].
    rewrite <- (app_nil_r (array t)) at 3. rewrite drop_app_zlen. cbn [slot_entries app]. by rewrite Hh, drop_app_zlen_cons.
Qed.

Lemma next_raw_unknown t p k :
  table_ok t -> keys_ok t -> value_ok p -> key_of p = Some k ->
  (forall m, 0 < m <= zlen (array t) -> k <> AInteger m) -> (forall key w, Some (key, w) ∈ hash t -> key_id key <> k) ->
  next_raw t p = Err InvalidNextKey.
Proof.
  intros Ht Hkeys Hp Hk Ha Hh. unfold next_raw, next_start. rewrite (key_not_nil _ _ Hk).
  pose proof (tk_length _ Ht). rewrite (find_slot_absent p k) by (done || lia || (intros; apply Ha; lia)).
  cbn [to_next mbind res_bind]. rewrite (find_previous_absent p k); [done | | done | done].
  intros old w Hin. destruct (buckets_ok t Ht Hkeys old w Hin). split; [done |]. split; [done | by eapply Hh].
Qed.

(** The entries are the fields. *)
Lemma slot_entries_fields start a k v :
  (k, v) ∈ slot_entries start a <-> exists i, k = VInteger (start + i + 1) /\ zget a i = Some (Some v).
Proof.
  revert start. induction a as [| s a IH]; intros start; cbn [slot_entries].
  { split; [by intros ?%elem_of_nil | intros (i & _ & Hi%zget_lt)]. change (0 <= i < 0) in Hi. lia. }
  assert ((exists i, k = VInteger (start + i + 1) /\ zget (s :: a) i = Some (Some v)) <->
          (k = VInteger (start + 1) /\ s = Some v) \/ (exists i, k = VInteger (start + 1 + i + 1) /\ zget a i = Some (Some v))) as ->.
  { split.
    - intros (i & -> & Hi). destruct (decide (i = 0)) as [-> | Hne].
      + left. cbn in Hi. injection Hi as ->. split; [f_equal; lia | done].
      + right. exists (i - 1). pose proof (zget_lt _ _ _ Hi). pose proof (zget_app_r [s] a (i - 1)) as E.
        change (zlen [s]) with 1 in E. replace (0 <=? i - 1) with true in E by lia. cbn [app] in E.
        replace (1 + (i - 1)) with i in E by lia. rewrite <- E. split; [f_equal; lia | done].
    - intros [[-> ->] | (i & -> & Hi)]; [exists 0; split; [f_equal; lia | done] |].
      exists (1 + i). pose proof (zget_lt _ _ _ Hi). pose proof (zget_app_r [s] a i) as E.
      change (zlen [s]) with 1 in E. replace (0 <=? i) with true in E by lia. cbn [app] in E.
      rewrite E. split; [f_equal; lia | done]. }
  destruct s as [w |]; [rewrite elem_of_cons, IH | rewrite IH]; naive_solver.
Qed.

(** The entries, key by key, are the fields. *)
Lemma slot_fields_cons start s a :
  slot_fields start (s :: a) = from_option (fun v : Value => [(AInteger (start + 1), v)]) [] s ++ slot_fields (start + 1) a.
Proof.
  unfold slot_fields.
  assert (enumerate (s :: a) = (0, s) :: ((fun p => (1 + p.1, p.2)) <$> enumerate a)) as ->.
  { unfold enumerate. cbn [length seq map combine]. f_equal. rewrite <- seq_shift, map_map.
    generalize (seq 0 (length a)). induction a as [| x a IH]; intros [| n l]; cbn; try done.
    f_equal; [f_equal; lia | apply IH]. }
  assert (forall l : list (Z * option Value),
     omap (fun '(i, slot) => (fun v : Value => (AInteger (start + i + 1), v)) <$> slot) ((fun p => (1 + p.1, p.2)) <$> l) =
     omap (fun '(i, slot) => (fun v : Value => (AInteger (start + 1 + i + 1), v)) <$> slot) l) as E.
  { induction l as [| [i [v |]] l IH]; cbn in *; [done | | done]. rewrite IH. do 3 f_equal. lia. }
  destruct s as [v |]; cbn in *; rewrite E; [do 3 f_equal; lia | done].
Qed.

Definition keyed (e : entry) : option Key * Value := (key_of e.1, e.2).

Lemma keyed_slots start a : keyed <$> slot_entries start a = prod_map Some id <$> slot_fields start a.
Proof.
  revert start. induction a as [| [v |] a IH]; intros start; [done | |];
    rewrite slot_fields_cons; cbn [slot_entries from_option app fmap list_fmap]; by rewrite <- IH.
Qed.

Lemma keyed_buckets h : Forall bucket_ok h -> keyed <$> omap bucket_entry h = prod_map Some id <$> omap bucket_field h.
Proof.
  induction 1 as [| b h Hb _ IH]; [done |]. destruct b as [[key v] |]; cbn; [| done]. destruct Hb as [_ Hb].
  destruct (is_nil v) eqn:Hn; [done |]. apply is_nil_false in Hn. destruct (Hb Hn) as [_ Hk].
  cbn. rewrite IH. unfold keyed, prod_map. cbn. by rewrite Hk.
Qed.

Lemma keyed_entries t : keys_ok t -> keyed <$> entries t = prod_map Some id <$> fields t.
Proof.
  intros Hk. unfold entries, fields. rewrite !fmap_app, keyed_slots, keyed_buckets; [done |].
  apply Forall_forall. intros b [i Hi]%zget_elem. by eapply Hk.
Qed.

Lemma entries_value_ok t k v : table_ok t -> keys_ok t -> (k, v) ∈ entries t -> value_ok k.
Proof.
  intros Ht Hk. unfold entries. rewrite elem_of_app, slot_entries_fields, list_elem_of_omap.
  intros [(i & -> & Hi) | ([[key w] |] & Hin & Hb)]; [| | done].
  - apply zget_lt in Hi. pose proof (tk_length _ Ht). cbn. range_lia.
  - apply zget_elem in Hin as [i Hi]. cbn in Hb. destruct (is_nil w) eqn:Hn; [done |]. injection Hb as <- <-.
    apply is_nil_false in Hn. by eapply (Hk i _ Hi).
Qed.

(** [for k, v in next, t do .. end], the body aside. *)
Fixpoint walk (fuel : nat) (t : Table) (previous : Value) : res NextError (list entry) :=
  match fuel with
  | O => Crash OutOfFuel
  | S fuel =>
      found ← next_raw t previous;
      match found with
      | Some (k, v) => rest ← walk fuel t k; Ok ((k, v) :: rest)
      | None => Ok []
      end
  end.

Lemma walk_from t pre post p :
  table_ok t -> keys_ok t -> entries t = pre ++ post -> next_raw t p = Ok (head post) ->
  walk (S (length post)) t p = Ok post.
Proof.
  intros Ht Hk. revert pre p. induction post as [| [k v] post IH]; intros pre p He Hp; cbn [walk];
    rewrite Hp; cbn [mbind res_bind head]; [done |]. change (length ((k, v) :: post)) with (S (length post)).
  rewrite (IH (pre ++ [(k, v)]) k); [done | by rewrite <- app_assoc |].
  eapply next_raw_after; [done | done | exact He | | done].
  eapply (entries_value_ok t k v); [done | done |]. rewrite He. apply elem_of_app. right. by left.
Qed.

Lemma walk_contents t :
  table_ok t -> keys_ok t ->
  exists es, walk (S (size (contents t))) t VNil = Ok es /\
    keyed <$> es ≡ₚ prod_map Some id <$> map_to_list (contents t).
Proof.
  intros Ht Hk. exists (entries t).
  assert (map_to_list (contents t) ≡ₚ fields t) as Hp by (apply map_to_list_to_map, NoDup_fields, Ht).
  assert (size (contents t) = length (entries t)) as ->.
  { rewrite <- length_map_to_list, Hp. pose proof (f_equal length (keyed_entries t Hk)) as E.
    by rewrite !length_fmap in E. }
  split; [apply (walk_from t [] _ VNil); [done.. | by apply next_raw_first] |].
  by rewrite keyed_entries, Hp.
Qed.
End Traversal.
