(* ===== verification/TableHeap.v ===== *)
(** The keys of a table stay in the heap: sets keep the invariant that traversal
    needs, so [next] after any sets goes through the map. *)

From Stdlib Require Import ZArith Lia SpecFloat.
From stdpp Require Import base list numbers gmap.
From S2P Require Import Prelude Float Number Lexer Table TableSpec TableSet TableKeys TableNext.

Local Open Scope Z_scope.

(** Drops the steps of a successful run whose results do not matter. *)
Ltac unbind H := repeat (apply bind_Ok in H as (? & ? & _ & H)).

(** ** Where the buckets of a table come from *)

Section Buckets.
#[local] Set Default Proof Using "Type*".
Context `{Hasher} {L : Type} `{LedgerLaws L refused}.

(** After [t[key] = v]: an old bucket, the new one, a live one with the new value,
    or the dead key. *)
Definition new_bucket (t : Table) (key : CanonicalKey) (v : Value) (b : Bucket) : Prop :=
  b = None \/ b ∈ hash t \/ b = Some (key, v) \/
  (exists dead (l l' : L), make_dead key l = (Ok dead, l') /\ b = Some (dead, VNil)) \/
  (exists old w, Some (old, w) ∈ hash t /\ w <> VNil /\ b = Some (old, v)).

Definition new_buckets (m : PreparedTableMutation) (t : Table) (key : CanonicalKey) (v : Value) : Prop :=
  forall t', apply_mutation m t = Ok t' -> forall b, b ∈ hash t' -> new_bucket t key v b.

Lemma elem_of_vset {A} (l : list A) i x l' y : vset (E := VmError) l i x = Ok l' -> y ∈ l' -> y = x \/ y ∈ l.
Proof.
  unfold vset. destruct (zget l i); [| done]. intros [= <-] Hy. unfold zinsert in Hy.
  apply list_elem_of_lookup in Hy as [j Hj]. apply list_lookup_insert_Some in Hj as [(_ & <- & _) | [_ Hj]];
    [by left | right; by eapply list_elem_of_lookup_2].
Qed.

(** A mutation that writes [b0] to one bucket. *)
Lemma new_buckets_write m t key v i b0 :
  new_bucket t key v b0 ->
  (forall t', apply_mutation m t = Ok t' -> exists h, vset (E := VmError) (hash t) i b0 = Ok h /\ hash t' = h) ->
  new_buckets m t key v.
Proof.
  intros Hb0 Hm t' Ht' b Hb. destruct (Hm t' Ht') as (h & Hh & E). rewrite E in Hb.
  destruct (elem_of_vset _ _ _ _ _ Hh Hb) as [-> | Hold]; [done | right; by left].
Qed.

Lemma new_buckets_same m t key v : (forall t', apply_mutation m t = Ok t' -> hash t' = hash t) -> new_buckets m t key v.
Proof. intros Hm t' Ht' b Hb. rewrite (Hm t' Ht') in Hb. right. by left. Qed.

Lemma rehash_elem old next h b : rehash old next = Ok h -> b ∈ h -> b ∈ next \/ b ∈ old.
Proof.
  intros Hr. revert b.
  refine (fold_res_Ok place (fun _ h => forall b, b ∈ h -> b ∈ next \/ b ∈ old) _ _ _ Hr _ _); [by left |].
  intros pre [n x] post a a' E Ha Hp y Hy. unfold place in Hp. cbn in Hp.
  destruct (elem_of_vset _ _ _ _ _ Hp Hy) as [-> |]; [| by apply Ha]. right.
  assert ((n, x) ∈ enumerate (filter (fun b => live b = true) old)) as Hin by (rewrite E; apply elem_of_app; right; by left).
  apply enumerate_elem, zget_Some in Hin as [_ Hin]. by apply list_elem_of_lookup_2, list_elem_of_filter in Hin as [_ Hin].
Qed.

Lemma prepare_hash_insert_buckets t key v (l l' : L) m :
  prepare_hash_insert t key v l = (Ok m, l') -> new_buckets m t key v.
Proof.
  intros Hm. unfold prepare_hash_insert in Hm. destruct (_ || _ || _).
  - unbind Hm. injection Hm as <- _. intros t' Ht'. cbn in Ht'.
    apply res_bind_Ok in Ht' as (h & Hr & Ht'). apply res_bind_Ok in Ht' as (h' & Hv & Ht'). injection Ht' as <-.
    intros b Hb. cbn in Hb. destruct (elem_of_vset _ _ _ _ _ Hv Hb) as [-> | Hold]; [right; right; by left |].
    destruct (rehash_elem _ _ _ _ Hr Hold) as [Hn | Ho]; [left | right; by left].
    by apply elem_of_replicate in Hn as [-> _].
  - unbind Hm. injection Hm as <- _. eapply new_buckets_write; [right; right; by left |].
    intros t' Ht'. cbn in Ht'. apply res_bind_Ok in Ht' as (h & Hv & Ht'). injection Ht' as <-. eauto.
Qed.

Lemma array_mutation_buckets t key v i w : new_buckets (ArraySlot i w) t key v.
Proof.
  apply new_buckets_same. intros t' Ht'. cbn in Ht'. apply res_bind_Ok in Ht' as (a & _ & Ht'). by injection Ht' as <-.
Qed.

Lemma prepare_new_buckets t key v (l l' : L) m :
  prepare_new t key v l = (Ok m, l') -> new_buckets m t key v.
Proof.
  unfold prepare_new. destruct (array_index key) as [i |]; [| apply prepare_hash_insert_buckets].
  destruct (i <? _).
  { intros Hm. unbind Hm. injection Hm as <- _. apply array_mutation_buckets. }
  destruct (i =? _); [| apply prepare_hash_insert_buckets].
  intros Hm. unfold prepare_array_growth in Hm. unbind Hm. injection Hm as <- _.
  apply new_buckets_same. intros t' Ht'. cbn in Ht'. by injection Ht' as <-.
Qed.

Lemma find_hash_live t key i :
  find_hash t key = Some i -> exists old w, zget (hash t) i = Some (Some (old, w)) /\ w <> VNil.
Proof.
  unfold find_hash. destruct (find_any_hash t key) as [j |]; [| done].
  destruct (zget (hash t) j) as [[[old w] |] |] eqn:Hj; cbn [live]; try done.
  destruct (is_nil w) eqn:Hn; [done |]. intros [= <-]. apply is_nil_false in Hn. eauto.
Qed.

Lemma prepare_set_buckets t key v (l l' : L) m :
  prepare_set t key v l = (Ok m, l') -> new_buckets m t key v.
Proof.
  unfold prepare_set. destruct (occupied_slot t key) as [i |].
  { intros [= <- _]. apply array_mutation_buckets. }
  destruct (find_hash t key) as [i |] eqn:Hf.
  - destruct (find_hash_live _ _ _ Hf) as (old & w & Hi & Hw). destruct (is_nil v) eqn:Hn.
    + intros Hm. apply bind_Ok in Hm as (dead & l1 & Hd & Hm). injection Hm as <- _.
      apply (new_buckets_write _ _ _ _ i (Some (dead, VNil))); [right; right; right; left; by exists dead, l, l1 |].
      intros t' Ht'. cbn in Ht'. rewrite Hn in Ht'. apply res_bind_Ok in Ht' as (h & Hv & Ht'). injection Ht' as <-. eauto.
    + intros [= <- _]. apply (new_buckets_write _ _ _ _ i (Some (old, v))).
      { do 4 right. exists old, w. split; [| done]. apply zget_elem. eauto. }
      intros t' Ht'. cbn in Ht'. rewrite Hn in Ht'. unfold vget in Ht'. rewrite Hi in Ht'. cbn in Ht'.
      apply res_bind_Ok in Ht' as (h & Hv & Ht'). injection Ht' as <-. eauto.
  - destruct (is_nil v).
    { intros [= <- _]. apply new_buckets_same. by intros t' [= <-]. }
    destruct (find_any_hash t key) as [i |]; [| apply prepare_new_buckets].
    destruct (_ <=? _); [| apply prepare_new_buckets].
    intros Hm. unbind Hm. injection Hm as <- _. eapply new_buckets_write; [right; right; by left |].
    intros t' Ht'. cbn in Ht'. apply res_bind_Ok in Ht' as (h & Hv & Ht'). injection Ht' as <-. eauto.
Qed.

End Buckets.

(** ** Sets keep the keys in the heap *)

Section Heaps.
#[local] Set Default Proof Using "Type*".
Context `{HeapLaws} `{Hasher} {L : Type} `{LedgerLaws L refused}.

Lemma as_value_key key : key_ok key -> is_object_key (key_id key) = false ->
  match key with KeyCFunction f => hf_vm f = heap_id | _ => True end ->
  value_ok (as_value key) /\ key_of (as_value key) = Some (key_id key).
Proof.
  intros Hk Ho Hf. destruct key; try done. destruct Hk as (Hv & Hn & Hi). cbn. by rewrite Hn, Hi.
Qed.

(** The key of a live value is a key of this heap. *)
Lemma key_bucket_ok kv key v : value_ok kv -> is_key_of kv (Some key) -> bucket_ok (Some (key, v)).
Proof.
  intros Hkv (Hkey & Hok & Hobj).
  assert ((exists o, kv = VObject o) \/ (forall o, kv <> VObject o)) as [[o ->] | Hno].
  { destruct kv; eauto; by right. }
  - specialize (Hobj o eq_refl). split; [| by rewrite Hobj].
    destruct (key_of_object o Hkv) as [(s & Ho & _ & E) | (k & id & Ho & Hne & Hid & E)]; rewrite E in Hkey; injection Hkey as Hkey.
    + destruct key; done.
    + destruct key; try done. cbn in Hkey. injection Hkey as ->. intros o' Ho' Hid'.
      assert (o' = o) as -> by (eapply same_identity; [exact Ho' | exact Ho | congruence]). congruence.
  - apply key_of_plain in Hkey as Hplain; [| done].
    assert (match key with KeyCFunction f => hf_vm f = heap_id | _ => True end) as Hf.
    { destruct key; try done. destruct kv as [| | | x | | | o]; cbn in Hkey; try done.
      - destruct (f64_is_nan x), (float_integer x); done.
      - injection Hkey as ->. done.
      - by destruct (Hno o). }
    split; [by destruct key | intros _; by apply as_value_key].
Qed.

Lemma dead_bucket_ok key v dead (l l' : L) :
  make_dead key l = (Ok dead, l') -> bucket_ok (Some (key, v)) -> bucket_ok (Some (dead, VNil)).
Proof.
  intros Hd [Hb _]. split; [| done]. destruct key; cbn in Hd; try (by injection Hd as <- _).
  destruct (shared_external _); [unbind Hd |]; by injection Hd as <- _.
Qed.

Lemma raw_set_keys_ok barrier t k v (l l' : L) src t' :
  keys_ok t -> value_ok k -> raw_set barrier t k v l = (Ok (src, t'), l') -> keys_ok t'.
Proof.
  intros Hkeys Hk Hset. unfold raw_set in Hset.
  apply bind_Ok in Hset as (_ & l1 & _ & Hset). apply bind_Ok in Hset as (_ & l2 & _ & Hset).
  apply bind_Ok in Hset as ([key |] & l3 & Hkey & Hset); [| done].
  apply bind_Ok in Hset as (m & l4 & Hm & Hset). apply bind_Ok in Hset as (_ & l5 & _ & Hset).
  apply bind_Ok in Hset as (_ & l6 & _ & Hset). apply bind_Ok in Hset as (t1 & l7 & Ht1 & Hset).
  injection Ht1 as Ht1 _. injection Hset as _ -> _.
  pose proof (spec_ok _ _ _ _ _ _ (canonical_key_spec k l2 Hk) Hkey) as Hk'.
  intros i b Hi. assert (b ∈ hash t') as Hb by (apply zget_elem; eauto).
  destruct (prepare_set_buckets _ _ _ _ _ _ Hm t' Ht1 b Hb)
    as [-> | [Hold | [-> | [(dead & d & d' & Hd & ->) | (old & w & Hold & Hw & ->)]]]].
  - done.
  - apply zget_elem in Hold as [j Hj]. by eapply Hkeys.
  - by eapply key_bucket_ok.
  - eapply (dead_bucket_ok key v); [exact Hd | by eapply key_bucket_ok].
  - apply zget_elem in Hold as [j Hj]. destruct (Hkeys j _ Hj) as [Hb1 Hb2]. split; [done | by intros _; apply Hb2].
Qed.

End Heaps.
