(* ===== verification/TableTheorems.v ===== *)
(** What tables promise: they are finite maps under raw sets and gets, equal
    values are one key, [next] visits each field once, the length is a border,
    and a remembered lookup is valid while the table's version is. *)

From Stdlib Require Import ZArith Lia SpecFloat.
From stdpp Require Import base list numbers gmap strings.
From S2P Require Import Prelude Float Number Lexer Table TableSpec TableSet TableKeys TableNext TableHeap.

Local Open Scope Z_scope.

(** ** Sequences of sets *)

Section Sequences.
#[local] Set Default Proof Using "Type*".
Context `{HeapLaws} {L : Type} `{LedgerLaws L refused} `{Hasher}.

Lemma reserve_vec_fits n size p (l : L) :
  spec (reserve_vec n size p) l (fun _ _ => n * size <= USIZE_MAX) (fun e _ => refused e).
Proof.
  unfold reserve_vec. eapply spec_seq; [apply checked_bytes_spec | intros b l1 [-> Hb] | done].
  apply spec_then; [apply reserve_at_returns | intros].
  apply spec_then; [apply checkpoint_returns | intros].
  eapply spec_weaken; [apply try_reserve_exact_returns | done..].
Qed.

Lemma zget_replicate {A} n (x y : A) i : zget (replicate n x) i = Some y -> y = x.
Proof. intros [_ Hi]%zget_Some. by apply lookup_replicate in Hi as [-> _]. Qed.

Lemma try_new_spec a h seed (l : L) :
  0 <= a -> spec (try_new a h seed) l (fun t _ => table_ok t /\ keys_ok t /\ contents t = ∅) (fun e _ => refused e).
Proof.
  intros Ha. unfold try_new. eapply spec_seq; [apply reserve_vec_fits | intros c l1 Hfit | done].
  apply spec_then; [apply reserve_vec_returns | intros; apply spec_ret]. cbn beta in Hfit.
  match goal with |- table_ok ?t /\ _ => set (t0 := t) end.
  assert (table_ok t0) as Ht.
  { pose proof (slot_bytes (L := L)). assert (a * 2 <= a * size_of_slot) by nia.
    constructor; cbn.
    - unfold zlen. rewrite length_replicate. range_lia.
    - intros i key v Hi. by apply zget_replicate in Hi.
    - intros i j key v key' v' Hi. by apply zget_replicate in Hi.
    - intros i Hi. by apply zget_replicate in Hi.
    - intros i v j key w Hi. by apply zget_replicate in Hi. }
  split; [done |]. split; [intros i b Hi; by apply zget_replicate in Hi as -> |]. apply map_eq. intros k. rewrite lookup_empty. apply contents_none; [done |].
  intros v [(i & _ & Hi) | (i & key & Hi & _)]; by apply zget_replicate in Hi.
Qed.

(** Values that raw equality identifies, and only those, are one key: the keys
    that [canonical_key] makes of two values are equal under [PartialEq for
    CanonicalKey] exactly when [raw_equal_value] says that the values are, so
    1 and 1.0, or two strings with the same bytes, index the same field. *)
Theorem equal_values_are_one_key v w a b (l1 l2 l1' l2' : L) :
  value_ok v -> value_ok w ->
  canonical_key v l1 = (Ok (Some a), l1') -> canonical_key w l2 = (Ok (Some b), l2') ->
  raw_equal_value v w = Ok (key_eq a b).
Proof.
  intros Hv Hw Ha Hb.
  pose proof (spec_ok _ _ _ _ _ _ (canonical_key_spec v l1 Hv) Ha) as (Hka & Hoa & _).
  pose proof (spec_ok _ _ _ _ _ _ (canonical_key_spec w l2 Hw) Hb) as (Hkb & Hob & _).
  rewrite (raw_equal_value_key v w _ _ Hv Hw Hka Hkb). f_equal.
  apply eq_bool_prop_intro. rewrite !Is_true_true, bool_decide_eq_true. symmetry. by apply key_eq_id.
Qed.

Context (barrier : option ObjectRef -> option ObjectRef -> ST L VmError unit).
Context (barrier_returns : forall a b l, spec (barrier a b) l (fun _ _ => True) (fun e _ => refused e)).

(** [t[k] = v] for each pair. *)
Fixpoint set_all (ops : list (Value * Value)) (t : Table) : ST L VmError Table :=
  match ops with
  | [] => mret t
  | (k, v) :: ops => r ← raw_set barrier t k v; set_all ops r.2
  end.

(** The same on finite maps. *)
Definition assign_all (ops : list (Value * Value)) (m : gmap Key Value) : gmap Key Value :=
  fold_left (fun m op => match key_of op.1 with Some k => assign k op.2 m | None => m end) ops m.

Lemma spec_with_run {S E A} (m : ST S E A) s (Q : A -> S -> Prop) R :
  spec m s Q R -> spec m s (fun a s' => Q a s' /\ m s = (Ok a, s')) R.
Proof. unfold spec. by destruct (m s) as [[] ?]. Qed.

Lemma set_all_spec ops t (l : L) :
  table_ok t -> keys_ok t -> Forall (fun op => value_ok op.1 /\ value_ok op.2) ops ->
  spec (set_all ops t) l (fun t' _ => table_ok t' /\ keys_ok t' /\ contents t' = assign_all ops (contents t))
    (fun e _ => refused e \/ exists op, op ∈ ops /\ bad_key op.1 e).
Proof using Type* barrier_returns.
  revert t l. induction ops as [| [k v] ops IH]; intros t l Ht Hkeys Hops; cbn [set_all]; [by apply spec_ret |].
  apply Forall_cons in Hops as [[Hk Hv] Hops].
  eapply spec_seq; [by apply spec_with_run, raw_set_spec | intros [src t1] l1 [(key & Hkey & Hup & _) Hrun]; cbn [snd] in * |].
  - eapply spec_weaken; [apply IH; [by destruct Hup | exact (raw_set_keys_ok barrier t k v l l1 src t1 Hkeys Hk Hrun) | done] | |].
    + intros t' l' (Hok & Hks & Hc). split; [done |]. split; [done |].
      rewrite Hc, (updates_contents t t1 key v) by done. cbn. by rewrite Hkey.
    + intros e l' [? | (op & Hop & Hbad)]; [by left | right]. exists op. split; [by right | done].
  - intros e l' [? | Hbad]; [by left | right]. exists (k, v). split; [by left | done].
Qed.

(** A new table, and sets. *)
Definition build (a h seed : Z) (ops : list (Value * Value)) : ST L VmError Table :=
  t ← try_new a h seed; set_all ops t.

Lemma build_spec a h seed ops (l : L) :
  0 <= a -> Forall (fun op => value_ok op.1 /\ value_ok op.2) ops ->
  spec (build a h seed ops) l (fun t _ => table_ok t /\ keys_ok t /\ contents t = assign_all ops ∅)
    (fun e _ => refused e \/ exists op, op ∈ ops /\ bad_key op.1 e).
Proof using Type* barrier_returns.
  intros Ha Hops. eapply spec_seq; [by apply try_new_spec | intros t l1 (Ht & Hk & He) | by intros; left].
  eapply spec_weaken; [by apply set_all_spec | cbn; by rewrite He | done].
Qed.

(** C26: A table is a finite map. Whatever the capacities and the seed it starts with,
    and whatever the hash function, after any sequence of raw sets a raw get
    returns what the same assignments on a finite map give, nil removing a field,
    an integral float being the integer, a string its bytes; the only errors are
    the ledger's and those of nil and NaN keys, and nothing panics. *)
Theorem table_refines_map a h seed ops k (l : L) :
  0 <= a -> Forall (fun op => value_ok op.1 /\ value_ok op.2) ops -> value_ok k ->
  spec (t ← build a h seed ops; raw_get t k) l
    (fun v _ => v = default VNil (key_of k ≫= fun key => assign_all ops ∅ !! key))
    (fun e _ => refused e \/ exists op, op ∈ ops /\ bad_key op.1 e).
Proof using Type* barrier_returns.
  intros Ha Hops Hk. eapply spec_seq; [by apply build_spec | intros t l1 (Ht & _ & Hc) | done]. rewrite <- Hc.
  eapply spec_weaken; [by apply raw_get_spec | done | by intros; left].
Qed.

(** C27: Going through a table with [next], from nil to the end, visits every field
    exactly once and nothing else: after any sequence of raw sets the walk ends
    after as many steps as the map has fields, and its keys and values are those of
    the map, a removed field, whose key is still in its bucket, not among them. *)
Theorem next_visits_each_field_once a h seed ops (l : L) :
  0 <= a -> Forall (fun op => value_ok op.1 /\ value_ok op.2) ops ->
  spec (build a h seed ops) l
    (fun t _ => exists es, walk (S (size (assign_all ops ∅))) t VNil = Ok es /\
       keyed <$> es ≡ₚ prod_map Some id <$> map_to_list (assign_all ops ∅))
    (fun e _ => refused e \/ exists op, op ∈ ops /\ bad_key op.1 e).
Proof using Type* barrier_returns.
  intros Ha Hops. eapply spec_weaken; [by apply build_spec | | done]. intros t l1 (Ht & Hk & Hc).
  rewrite <- Hc. by apply walk_contents.
Qed.

End Sequences.

(** ** The length *)

Lemma get_integer_spec `{Hasher} t n : table_ok t -> i64 n -> get_integer t n = default VNil (contents t !! AInteger n).
Proof. intros Ht Hn. by apply (table_get_spec t (KeyInteger n)). Qed.

Lemma get_integer_nil `{Hasher} t n : table_ok t -> i64 n -> is_nil (get_integer t n) = true <-> contents t !! AInteger n = None.
Proof.
  intros Ht Hn. rewrite get_integer_spec by done. destruct (contents t !! AInteger n) as [v |] eqn:Hv; cbn; [| done].
  apply contents_lookup, holds_not_nil in Hv; [| done..]. rewrite is_nil_true. by split.
Qed.

(** The fields 1 to [n] are at most all fields. *)
Lemma fields_bound t n :
  table_ok t -> (forall i, 1 <= i <= n -> is_Some (contents t !! AInteger i)) -> (Z.to_nat n <= length (fields t))%nat.
Proof.
  intros Ht Hn. transitivity (length (fields t).*1); [| by rewrite length_fmap].
  transitivity (length (AInteger <$> seqZ 1 n)); [by rewrite length_fmap, length_seqZ |].
  apply submseteq_length, NoDup_submseteq; [apply NoDup_fmap; [by intros ? ? [=] | apply NoDup_seqZ] |].
  intros k (i & -> & Hi)%list_elem_of_fmap. apply elem_of_seqZ in Hi.
  destruct (Hn i) as [v Hv]; [lia |]. apply contents_lookup, elem_of_fields in Hv; [| done].
  by apply (list_elem_of_fmap_2 fst) in Hv.
Qed.

Lemma length_omap {A B} (f : A -> option B) l : (length (omap f l) <= length l)%nat.
Proof. induction l as [| x l IH]; cbn; [done |]. destruct (f x); cbn; lia. Qed.

Lemma fields_length t : (length (fields t) <= length (array t) + length (hash t))%nat.
Proof.
  unfold fields, slot_fields. rewrite length_app. apply Nat.add_le_mono; [| apply length_omap].
  etransitivity; [apply length_omap |]. unfold enumerate. rewrite length_combine. lia.
Qed.

Lemma border_from_spec `{Hasher} t fuel n :
  table_ok t -> 0 <= n <= I64_MAX -> (forall i, 1 <= i <= n -> is_Some (contents t !! AInteger i)) ->
  (length (fields t) < fuel + Z.to_nat n)%nat ->
  exists m, border_from fuel t n = Ok m /\ 0 <= m <= I64_MAX /\
    (forall i, 1 <= i <= m -> is_Some (contents t !! AInteger i)) /\
    (m < I64_MAX -> contents t !! AInteger (m + 1) = None).
Proof.
  intros Ht. revert n. induction fuel as [| fuel IH]; intros n Hn Hdense Hfuel.
  { pose proof (fields_bound t n Ht Hdense). lia. }
  cbn [border_from]. unfold checked_add_i64. destruct (_ && _) eqn:Hc.
  2:{ exists n. split; [done |]. split; [done |]. split; [done |]. range_lia. }
  bool_hyps. assert (i64 (n + 1)) as Hi by range_lia.
  destruct (is_nil (get_integer t (n + 1))) eqn:Hnil.
  - apply get_integer_nil in Hnil; [| done..]. eauto 6.
  - apply IH; [lia | | lia]. intros i Hr. destruct (decide (i = n + 1)) as [-> |]; [| apply Hdense; lia].
    apply not_eq_None_Some. intros E. apply get_integer_nil in E; [congruence | done..].
Qed.

(** C30: The length of a table is the number of fields 1, 2, 3, .. up to the first
    that is missing: the search always ends, with every field up to the result
    present and, unless that is the largest integer, the next one absent; in
    particular the result is a border. *)
Theorem border_len_first_gap `{Hasher} t :
  table_ok t ->
  exists n, border_len t = Ok n /\ 0 <= n <= I64_MAX /\
    (forall i, 1 <= i <= n -> is_Some (contents t !! AInteger i)) /\
    (n < I64_MAX -> contents t !! AInteger (n + 1) = None).
Proof.
  intros Ht. apply border_from_spec; [done | range_lia | lia |]. pose proof (fields_length t). lia.
Qed.

(** ** A concrete heap

    One string object, an allocator that refuses nothing, a hash function that
    mixes nothing. *)

Module Demo.

Definition name_id : ObjectId :=
  {| oid_vm := {| vm_number := 1 |}; oid_slot := {| slot_index := 0 |}; oid_generation := {| generation_value := 1 |} |}.
Definition name_object : ObjectRef := Heap_ref name_id (Some 7).
Definition name_bytes : list Z := bytes_of_string "a long key".

#[export] Instance heap : Heap := {|
  heap_id := {| vm_number := 1 |};
  object_kind o := if bool_decide (o = name_object) then Ok ObjectKind.ByteString else Err StaleObject;
  with_byte_string o :=
    if bool_decide (o = name_object) then Ok {| backing := Owned; as_bytes := name_bytes |} else Err StaleObject
|}.

#[export] Instance ledger : Ledger unit := {|
  size_of_slot := 24; size_of_bucket := 64; size_of_string_key := 48;
  reserve_at _ _ := mret tt; reserve_lua_backing_excess _ _ := mret tt; checkpoint _ := mret tt; try_reserve_exact n := mret n; commit_charge := mret tt
|}.

#[export] Instance hasher : Hasher := {| hasher_finish items := zlen items |}.

#[export] Instance heap_laws : HeapLaws.
Proof.
  split; cbn.
  - intros o. by case_bool_decide.
  - intros o. by case_bool_decide.
  - intros o. case_bool_decide; [eauto | done].
  - intros o k. case_bool_decide as E; [rewrite E; intros _; by eexists | done].
  - intros a b ka kb. by do 2 case_bool_decide; subst.
Defined.

Definition refused (e : VmError) : Prop := e = ArithmeticOverflow.

#[export] Instance ledger_laws : LedgerLaws unit refused.
Proof. split; cbn; [by intros.. | done | done]. Defined.

Definition barrier (a b : option ObjectRef) : ST unit VmError unit := mret tt.

Lemma barrier_returns a b l : spec (barrier a b) l (fun _ _ => True) (fun e _ => refused e).
Proof. done. Defined.

End Demo.

Import Demo.

(** Integers, a float that is one, a string, a boolean, and a removal. *)
Definition demo_ops : list (Value * Value) :=
  [(VInteger 1, VBoolean true); (VFloat (f64_of_small false 2), VInteger 20); (VObject name_object, VInteger 5);
   (VInteger 2, VInteger 21); (VBoolean false, VInteger 6); (VInteger 1, VNil)].

Lemma demo_ops_ok : Forall (fun op => value_ok op.1 /\ value_ok op.2) demo_ops.
Proof. repeat constructor; cbn; try range_lia; by eexists. Defined.

Lemma table_refines_map_witness :
  spec (t ← build barrier 0 0 3 demo_ops; raw_get t (VInteger 2)) tt
    (fun v _ => v = default VNil (key_of (VInteger 2) ≫= fun key => assign_all demo_ops ∅ !! key))
    (fun e _ => refused e \/ exists op, op ∈ demo_ops /\ bad_key op.1 e).
Proof. apply table_refines_map; [exact barrier_returns | done | exact demo_ops_ok | cbn; range_lia]. Defined.

Lemma next_visits_each_field_once_witness :
  spec (build barrier 0 0 3 demo_ops) tt
    (fun t _ => exists es, walk (S (size (assign_all demo_ops ∅))) t VNil = Ok es /\
       keyed <$> es ≡ₚ prod_map Some id <$> map_to_list (assign_all demo_ops ∅))
    (fun e _ => refused e \/ exists op, op ∈ demo_ops /\ bad_key op.1 e).
Proof. apply next_visits_each_field_once; [exact barrier_returns | done | exact demo_ops_ok]. Defined.

Lemma equal_values_are_one_key_witness :
  raw_equal_value (VInteger 2) (VFloat (f64_of_small false 2)) = Ok (key_eq (KeyInteger 2) (KeyInteger 2)).
Proof.
  eapply (equal_values_are_one_key (L := unit) (VInteger 2) (VFloat (f64_of_small false 2)) (KeyInteger 2) (KeyInteger 2) tt tt tt tt);
    [cbn; range_lia | by vm_compute | reflexivity | vm_compute; reflexivity].
Defined.

Definition empty_table : Table :=
  {| metatable := None; weak_mode := WeakMode.Strong; hash_seed := 0; mutation_version := 0; array := []; hash := [] |}.

Definition demo_table : Table :=
  match build barrier 0 0 3 demo_ops tt with (Ok t, _) => t | _ => empty_table end.

Lemma demo_table_ok : table_ok demo_table.
Proof.
  refine (proj1 (spec_ok _ _ _ _ demo_table tt
    (build_spec barrier barrier_returns 0 0 3 demo_ops tt _ demo_ops_ok) _)); [done | vm_compute; reflexivity].
Defined.

Lemma border_len_first_gap_witness :
  exists n, border_len demo_table = Ok n /\ 0 <= n <= I64_MAX /\
    (forall i, 1 <= i <= n -> is_Some (contents demo_table !! AInteger i)) /\
    (n < I64_MAX -> contents demo_table !! AInteger (n + 1) = None).
Proof. apply (border_len_first_gap demo_table demo_table_ok). Defined.

(** ** Clearing fields while going through them *)

(** [for k in next, t do t[k] = nil end]. *)
Fixpoint clear_walk (fuel : nat) (t : Table) (previous : Value) : res NextError Table :=
  match fuel with
  | O => Crash OutOfFuel
  | S fuel =>
      found ← next_raw t previous;
      match found with
      | Some (k, _) =>
          match raw_set barrier t k VNil tt with
          | (Ok (_, t), _) => clear_walk fuel t k
          | (Err e, _) => Err (NextVm e)
          | (Crash c, _) => Crash c
          end
      | None => Ok t
      end
  end.

(** The second key enters the hash, dies there, and comes back in the array. *)
Definition revived_ops : list (Value * Value) :=
  [(VInteger 2, VInteger 1); (VBoolean true, VInteger 1); (VBoolean false, VInteger 1); (VInteger 2, VNil);
   (VLightUserdata 7, VInteger 1); (VInteger 1, VInteger 1); (VInteger 2, VInteger 1); (VInteger 3, VInteger 1)].

(** C40: Clearing each field as [next] returns it, which Lua allows, does not clear the
    table: when a key lives in the array and its old, dead bucket is still in the
    hash, the walk goes on behind that bucket and skips the rest of the array and
    the buckets before it, here the fields 3, true and false. *)
Theorem clearing_walk_skips_fields :
  exists t t', build barrier 0 0 0 revived_ops tt = (Ok t, tt) /\ clear_walk 9 t VNil = Ok t' /\
    contents t !! AInteger 3 = Some (VInteger 1) /\ contents t' !! AInteger 3 = Some (VInteger 1).
Proof. eexists _, _. split; [vm_compute; reflexivity |]. split; [vm_compute; reflexivity |]. split; vm_compute; reflexivity. Qed.
