(* ===== verification/TableWeak.v ===== *)
(** The sweep of a weak table: it removes the pairs with a dead key or value, and
    nothing else. *)

From Stdlib Require Import ZArith Lia.
From stdpp Require Import base list numbers gmap.
From S2P Require Import Prelude Float Number Lexer Table TableSpec TableSet TableHeap TableTheorems.

Local Open Scope Z_scope.

(** ** Loops over the places of a vector *)

Lemma seqZ_cons_len {A} i (x : A) l : seqZ i (zlen (x :: l)) = i :: seqZ (i + 1) (zlen l).
Proof. rewrite zlen_cons. rewrite seqZ_cons by (pose proof (zlen_nonneg l); lia). f_equal. f_equal; lia. Qed.

(** [for entry in &mut v { .. }]: a body that replaces the element at the place by
    one that is related to it. *)
Lemma each_place {S A} (body : Z -> ST S VmError unit) (vec : S -> list A) (rel : A -> A -> Prop)
    (P : S -> Prop) c (refused : VmError -> Prop) :
  (forall i x c, P c -> zget (vec c) i = Some x ->
     spec (body i) c (fun _ c' => P c' /\ exists x', rel x x' /\ vec c' = zinsert (vec c) i x') (fun e _ => refused e)) ->
  P c ->
  spec (each body (seqZ 0 (zlen (vec c)))) c (fun _ c' => P c' /\ Forall2 rel (vec c) (vec c')) (fun e _ => refused e).
Proof.
  intros Hbody HP.
  assert (forall post pre pre' c, Forall2 rel pre pre' -> P c -> vec c = pre' ++ post ->
    spec (each body (seqZ (zlen pre') (zlen post))) c
      (fun _ c' => P c' /\ Forall2 rel (pre ++ post) (vec c')) (fun e _ => refused e)) as G.
  { clear c HP. induction post as [| x post IH]; intros pre pre' c Hpre HP Hc.
    - apply spec_ret. split; [done |]. rewrite Hc, !app_nil_r. done.
    - rewrite seqZ_cons_len. cbn [each].
      eapply spec_seq; [apply (Hbody _ x); [done | rewrite Hc; apply zget_app_mid] | | done].
      intros _ c1 (HP1 & x' & Hx & Hc1).
      replace (pre ++ x :: post) with ((pre ++ [x]) ++ post) by (by rewrite <- app_assoc).
      replace (zlen pre' + 1) with (zlen (pre' ++ [x'])) by (by rewrite zlen_app).
      apply IH; [by apply Forall2_app; [| constructor] | done |].
      rewrite Hc1, Hc. unfold zinsert, zlen. rewrite Nat2Z.id, insert_app_r_alt, Nat.sub_diag by lia.
      by rewrite <- app_assoc. }
  by apply (G (vec c) [] []).
Qed.

(** ** What the sweep does to each slot and each bucket *)

Section Weak.
#[local] Set Default Proof Using "Type*".
Context {L : Type} `{LedgerLaws L refused}.
Context (is_dead is_live_key : ObjectRef -> res VmError bool) (values keys : bool).
(** The collector knows the objects that died by their identities. *)
Context (dead : option ObjectId -> bool) (live_key : ObjectRef -> bool).
Context (is_dead_identity : forall o, is_dead o = Ok (dead (identity o))).
Context (is_live_key_total : forall o, is_live_key o = Ok (live_key o)).

Definition dead_object (v : Value) : bool := match v with VObject o => dead (identity o) | _ => false end.
Definition dead_id (k : Key) : bool := match k with AObject id => dead (Some id) | _ => false end.

(** A field that must go. *)
Definition pair_dead (mode : WeakMode.WeakMode) (k : Key) (v : Value) : bool :=
  (weak_keys keys mode && dead_id k) || (weak_values values mode && dead_object v).

(** The objects that are keys are the ones that the keys name. *)
Definition key_source_ok (key : CanonicalKey) : Prop :=
  match key with KeyObject k => identity (ok_source k) = Some (ok_id k) | _ => True end.

Definition slot_swept (slot slot' : option Value) : Prop :=
  slot' = match slot with Some v => if dead_object v then None else Some v | None => None end.

(** Whether the key of a dead value is given up as well. *)
Definition key_given_up (mode : WeakMode.WeakMode) (key : CanonicalKey) : bool :=
  bool_decide (mode = WeakMode.All) && match source_object key with Some o => negb (live_key o) | None => false end.

Definition bucket_swept (mode : WeakMode.WeakMode) (b b' : Bucket) : Prop :=
  match b with
  | None => b' = None
  | Some (key, v) =>
      if values && is_nil v then b' = None
      else if pair_dead mode (key_id key) v then
        if (weak_keys keys mode && dead_id (key_id key)) || key_given_up mode key then b' = None
        else exists key', b' = Some (key', VNil) /\ key_id key' = key_id key /\ key_ok key' /\ key_source_ok key'
      else b' = Some (key, v)
  end.

Lemma clear_slot_spec i (c : @Clearing L) slot :
  zget (array (cl_table c)) i = Some slot ->
  spec (clear_slot is_dead i) c
    (fun _ c' => hash (cl_table c') = hash (cl_table c) /\ weak_mode (cl_table c') = weak_mode (cl_table c) /\
       exists slot', slot_swept slot slot' /\ array (cl_table c') = zinsert (array (cl_table c)) i slot')
    (fun e _ => refused e).
Proof.
  intros Hi. unfold spec, clear_slot. rewrite Hi. unfold slot_swept.
  assert (zinsert (array (cl_table c)) i slot = array (cl_table c)) as Hid.
  { apply list_insert_id. by apply zget_Some in Hi as [_ Hi]. }
  destruct slot as [[| | | | | | o] |]; try by eauto.
  rewrite is_dead_identity. cbn [dead_object]. destruct (dead (identity o)) eqn:Hd; cbn; rewrite ?Hd; eauto.
Qed.

Lemma dead_key_eq mode key : key_source_ok key ->
  dead_key is_dead keys mode key = Ok (weak_keys keys mode && dead_id (key_id key)).
Proof.
  intros Hs. unfold dead_key. destruct (weak_keys _ _); [| done]. destruct key; try done.
  cbn in *. by rewrite is_dead_identity, Hs.
Qed.

Lemma dead_value_eq mode v : dead_value is_dead values mode v = Ok (weak_values values mode && dead_object v).
Proof. unfold dead_value. destruct (weak_values _ _); [| done]. by destruct v. Qed.

Lemma key_is_dead_eq mode dk dv key :
  key_is_dead is_live_key mode dk dv key = Ok (negb dk && dv && key_given_up mode key).
Proof.
  unfold key_is_dead, key_given_up. destruct dk, dv; cbn; try done. case_bool_decide; [| done].
  destruct (source_object key); [| done]. by rewrite is_live_key_total.
Qed.

Lemma make_dead_source key key' (l l' : L) : make_dead key l = (Ok key', l') -> key_source_ok key -> key_source_ok key'.
Proof.
  intros Hd. destruct key; cbn in Hd; try (by injection Hd as <- _).
  destruct (shared_external _); [unbind Hd |]; by injection Hd as <- _.
Qed.

Lemma clear_bucket_spec i (c : @Clearing L) b :
  zget (hash (cl_table c)) i = Some b ->
  (forall key v, b = Some (key, v) -> key_ok key /\ key_source_ok key) ->
  spec (clear_bucket is_dead is_live_key values keys i) c
    (fun _ c' => array (cl_table c') = array (cl_table c) /\ weak_mode (cl_table c') = weak_mode (cl_table c) /\
       exists b', bucket_swept (weak_mode (cl_table c)) b b' /\ hash (cl_table c') = zinsert (hash (cl_table c)) i b')
    (fun e _ => refused e).
Proof.
  intros Hi Hb. unfold clear_bucket.
  assert (zinsert (hash (cl_table c)) i b = hash (cl_table c)) as Hid.
  { apply list_insert_id. by apply zget_Some in Hi as [_ Hi]. }
  unfold spec at 1. rewrite Hi.
  destruct b as [[key v] |]; [| cbn; split; [done |]; split; [done |]; by exists None].
  destruct (Hb key v eq_refl) as [Hok Hsrc]. cbn [bucket_swept].
  destruct (values && is_nil v); [cbn; by eauto |].
  change (spec (clear_pair is_dead is_live_key values keys (weak_mode (cl_table c)) i key v) c
    (fun _ c' => array (cl_table c') = array (cl_table c) /\ weak_mode (cl_table c') = weak_mode (cl_table c) /\
       exists b', (if pair_dead (weak_mode (cl_table c)) (key_id key) v then
          if (weak_keys keys (weak_mode (cl_table c)) && dead_id (key_id key)) || key_given_up (weak_mode (cl_table c)) key
          then b' = None
          else exists key', b' = Some (key', VNil) /\ key_id key' = key_id key /\ key_ok key' /\ key_source_ok key'
        else b' = Some (key, v)) /\ hash (cl_table c') = zinsert (hash (cl_table c)) i b')
    (fun e _ => refused e)).
  unfold clear_pair. apply spec_bind. rewrite dead_key_eq by done. cbn [spec lift].
  apply spec_bind. rewrite dead_value_eq. cbn [spec lift]. unfold pair_dead.
  destruct (weak_keys _ _ && _) eqn:Hdk; cbn [orb].
  { apply spec_bind. rewrite key_is_dead_eq. cbn. eauto. }
  destruct (weak_values _ _ && _) eqn:Hdv; [| cbn; by eauto].
  apply spec_bind. rewrite key_is_dead_eq. cbn [spec lift negb andb orb].
  destruct (key_given_up _ key) eqn:Hg; [cbn; by eauto |].
  unfold spec, bury. pose proof (make_dead_spec key (cl_ledger c) Hok) as Hd. unfold spec in Hd.
  destruct (make_dead key (cl_ledger c)) as [[key' | |] l'] eqn:Hmd; [| done | done].
  cbn. split; [done |]. split; [done |]. eexists. split; [| done]. exists key'. destruct Hd.
  eauto using make_dead_source.
Qed.

(** ** The whole sweep *)

Definition slots_swept (mode : WeakMode.WeakMode) (a a' : list (option Value)) : Prop :=
  if weak_values values mode then Forall2 slot_swept a a' else a' = a.

Definition sources_ok (h : list Bucket) : Prop :=
  forall i key v, zget h i = Some (Some (key, v)) -> key_ok key /\ key_source_ok key.

Lemma bucket_swept_source mode b b' key v :
  bucket_swept mode b b' -> (forall key v, b = Some (key, v) -> key_ok key /\ key_source_ok key) ->
  b' = Some (key, v) -> key_ok key /\ key_source_ok key.
Proof.
  intros Hs Hb ->. destruct b as [[old w] |]; [| done]. cbn in Hs. destruct (values && _); [done |].
  destruct (pair_dead _ _ _); [| apply (Hb _ _ (eq_sym Hs))].
  destruct (_ || _); [done |]. destruct Hs as (key' & [= -> ->] & _ & ? & ?). done.
Qed.

Lemma clear_slots_spec (c : @Clearing L) :
  spec (if weak_values values (weak_mode (cl_table c)) then each (clear_slot is_dead) (seqZ 0 (zlen (array (cl_table c))))
        else mret tt) c
    (fun _ c' => hash (cl_table c') = hash (cl_table c) /\ weak_mode (cl_table c') = weak_mode (cl_table c) /\
       slots_swept (weak_mode (cl_table c)) (array (cl_table c)) (array (cl_table c'))) (fun e _ => refused e).
Proof.
  unfold slots_swept. destruct (weak_values _ _); [| by apply spec_ret].
  eapply spec_weaken; [apply (each_place _ (fun c => array (cl_table c)) slot_swept
    (fun c' => hash (cl_table c') = hash (cl_table c) /\ weak_mode (cl_table c') = weak_mode (cl_table c)) c refused) | | done].
  - intros i slot c' [Hh Hm] Hi. eapply spec_weaken; [by apply clear_slot_spec | | done].
    intros _ c'' (Hh' & Hm' & Hs). split; [| done]. split; congruence.
  - done.
  - by intros _ c' [[? ?] ?].
Qed.

Lemma clear_buckets_spec (c : @Clearing L) :
  sources_ok (hash (cl_table c)) ->
  spec (each (clear_bucket is_dead is_live_key values keys) (seqZ 0 (zlen (hash (cl_table c))))) c
    (fun _ c' => array (cl_table c') = array (cl_table c) /\ weak_mode (cl_table c') = weak_mode (cl_table c) /\
       Forall2 (bucket_swept (weak_mode (cl_table c))) (hash (cl_table c)) (hash (cl_table c'))) (fun e _ => refused e).
Proof.
  intros Hsrc.
  eapply spec_weaken; [apply (each_place _ (fun c => hash (cl_table c)) (bucket_swept (weak_mode (cl_table c)))
    (fun c' => (array (cl_table c') = array (cl_table c) /\ weak_mode (cl_table c') = weak_mode (cl_table c)) /\
       sources_ok (hash (cl_table c'))) c refused) | | done].
  - intros i b c' [[Ha Hm] Hs] Hi.
    assert (forall key v, b = Some (key, v) -> key_ok key /\ key_source_ok key) as Hb by (intros key v ->; by eapply Hs).
    eapply spec_weaken; [apply clear_bucket_spec; [exact Hi | exact Hb] | | done].
    intros _ c'' (Ha' & Hm' & b' & Hsw & Hh'). rewrite Hm in Hsw. split; [| by exists b'].
    split; [split; congruence |]. intros j key v Hj. rewrite Hh' in Hj. pose proof (zget_lt _ _ _ Hi).
    apply zget_zinsert_Some in Hj as [(_ & E & _) | [_ Hj]]; [| by eapply Hs | lia].
    by eapply bucket_swept_source.
  - done.
  - by intros _ c' [[[? ?] _] ?].
Qed.

(** ** The contents after the sweep *)

Lemma Forall2_zget_r {A B} (R : A -> B -> Prop) l k i y :
  Forall2 R l k -> zget k i = Some y -> exists x, zget l i = Some x /\ R x y.
Proof.
  intros HF [Hi Hy]%zget_Some. destruct (Forall2_lookup_r _ _ _ _ _ HF Hy) as (x & Hx & HR).
  exists x. split; [by apply zget_Some | done].
Qed.

Lemma Forall2_zget_l {A B} (R : A -> B -> Prop) l k i x :
  Forall2 R l k -> zget l i = Some x -> exists y, zget k i = Some y /\ R x y.
Proof.
  intros HF [Hi Hx]%zget_Some. destruct (Forall2_lookup_l _ _ _ _ _ HF Hx) as (y & Hy & HR).
  exists y. split; [by apply zget_Some | done].
Qed.

(** The table before and after. *)
Context (t t' : Table).
Context (array_swept : slots_swept (weak_mode t) (array t) (array t')).
Context (hash_swept : Forall2 (bucket_swept (weak_mode t)) (hash t) (hash t')).

Lemma swept_slot i v :
  zget (array t') i = Some (Some v) <->
  zget (array t) i = Some (Some v) /\ weak_values values (weak_mode t) && dead_object v = false.
Proof using Type array_swept.
  unfold slots_swept in array_swept. destruct (weak_values _ _) eqn:Hw; cbn [andb]; [| rewrite array_swept; naive_solver].
  split.
  - intros Hi. destruct (Forall2_zget_r _ _ _ _ _ array_swept Hi) as ([w |] & Hw' & Hs); unfold slot_swept in Hs; [| done].
    destruct (dead_object w) eqn:Hd; [done |]. injection Hs as ->. done.
  - intros [Hi Hd]. destruct (Forall2_zget_l _ _ _ _ _ array_swept Hi) as (s & Hs & E). unfold slot_swept in E. rewrite Hd in E. by subst.
Qed.

(** A live bucket is one that was there and is not dead; a dead one has its key from before. *)
Lemma swept_bucket i key v :
  zget (hash t') i = Some (Some (key, v)) ->
  exists old w, zget (hash t) i = Some (Some (old, w)) /\ key_id key = key_id old /\
    ((v = VNil /\ (key_ok old -> key_ok key)) \/ (key = old /\ v = w /\ pair_dead (weak_mode t) (key_id old) w = false)) /\
    weak_keys keys (weak_mode t) && dead_id (key_id key) = false.
Proof using Type hash_swept.
  intros Hi. destruct (Forall2_zget_r _ _ _ _ _ hash_swept Hi) as ([[old w] |] & Ho & Hs); cbn in Hs; [| done].
  exists old, w. split; [done |]. destruct (values && _); [done |].
  destruct (pair_dead (weak_mode t) (key_id old) w) eqn:Hp.
  - destruct (weak_keys _ _ && _) eqn:Hk; cbn in Hs; [done |]. destruct (key_given_up _ _); [done |].
    destruct Hs as (key' & [= -> ->] & E & ? & _). rewrite E. by auto.
  - injection Hs as -> ->. unfold pair_dead in Hp. apply orb_false_elim in Hp as [Hk Hv]. split; [done |].
    split; [by right | done].
Qed.

Lemma kept_bucket i key v :
  zget (hash t) i = Some (Some (key, v)) -> v <> VNil -> pair_dead (weak_mode t) (key_id key) v = false ->
  zget (hash t') i = Some (Some (key, v)).
Proof using Type hash_swept.
  intros Hi Hv Hd. destruct (Forall2_zget_l _ _ _ _ _ hash_swept Hi) as (b & Hb & Hs). cbn in Hs.
  apply is_nil_false in Hv. rewrite Hv, andb_false_r, Hd in Hs. by subst.
Qed.

Lemma swept_length : zlen (array t') = zlen (array t).
Proof using Type array_swept.
  unfold slots_swept in array_swept. destruct (weak_values _ _); [| by rewrite array_swept].
  apply Forall2_length in array_swept as E. unfold zlen. by rewrite E.
Qed.

Lemma swept_ok : table_ok t -> table_ok t'.
Proof using Type array_swept hash_swept.
  intros Ht. constructor.
  - rewrite swept_length. apply Ht.
  - intros i key v Hi. destruct (swept_bucket _ _ _ Hi) as (old & w & Ho & _ & Hk & _). apply (tk_keys _ Ht) in Ho.
    destruct Hk as [[_ Hk] | (-> & _)]; auto.
  - intros i j key v key' v' Hi Hj E.
    destruct (swept_bucket _ _ _ Hi) as (old & w & Ho & Eo & _), (swept_bucket _ _ _ Hj) as (old' & w' & Ho' & Eo' & _).
    eapply (tk_unique _ Ht); [exact Ho | exact Ho' | congruence].
  - intros i [Hi _]%swept_slot. by apply (tk_values _ Ht i).
  - intros i v j key w [Hi _]%swept_slot Hj Hw E. destruct (swept_bucket _ _ _ Hj) as (old & u & Ho & Eo & Hk & _).
    destruct Hk as [[? _] | (-> & -> & _)]; [done |]. by eapply (tk_disjoint _ Ht i v j).
Qed.

Lemma swept_holds k v :
  table_ok t -> holds t' k v <-> holds t k v /\ pair_dead (weak_mode t) k v = false.
Proof using Type array_swept hash_swept.
  intros Ht. split.
  - intros [(i & -> & [Hi Hd]%swept_slot) | (i & key & Hi & <- & Hv)].
    + split; [left; by exists i |]. unfold pair_dead. change (dead_id (AInteger (i + 1))) with false. by rewrite andb_false_r, Hd.
    + destruct (swept_bucket _ _ _ Hi) as (old & w & Ho & Eo & Hk & _).
      destruct Hk as [[? _] | (-> & -> & Hd)]; [done |]. split; [| done]. right. by exists i, old.
  - intros [[(i & -> & Hi) | (i & key & Hi & <- & Hv)] Hd].
    + left. exists i. split; [done |]. apply swept_slot. split; [done |]. unfold pair_dead in Hd.
      by apply orb_false_elim in Hd as [_ Hd].
    + right. exists i, key. split; [| done]. by apply kept_bucket.
Qed.

Lemma swept_contents :
  table_ok t -> contents t' = filter (fun kv => pair_dead (weak_mode t) kv.1 kv.2 = false) (contents t).
Proof using Type array_swept hash_swept.
  intros Ht. apply map_eq. intros k. apply option_eq. intros v.
  rewrite map_lookup_filter_Some, !contents_lookup by auto using swept_ok. by apply swept_holds.
Qed.

End Weak.

Lemma zget_empty {A} i (x : A) : zget [] i = Some x -> False.
Proof. intros Hi%zget_lt. change (0 <= i < 0) in Hi. lia. Qed.

Lemma release_hash_spec t :
  table_ok t ->
  table_ok (release_hash t) /\ (forall k v, holds (release_hash t) k v <-> holds t k v) /\
  array (release_hash t) = array t /\
  (forall i b, zget (hash (release_hash t)) i = Some b -> zget (hash t) i = Some b).
Proof.
  intros Ht. unfold release_hash. destruct (_ && _) eqn:Hc; [| by split_and!].
  apply andb_prop in Hc as [_ Hall]. rewrite forallb_forall in Hall.
  assert (forall i key v, zget (hash t) i <> Some (Some (key, v))) as Hnone.
  { intros i key v Hi. assert (Some (key, v) ∈ hash t) as Hin by (apply zget_elem; eauto).
    by apply list_elem_of_In, Hall in Hin. }
  split_and!; [| | done | by intros i b Hi%zget_empty].
  - destruct Ht. constructor; cbn; try done.
    + intros i key v Hi. by apply zget_empty in Hi.
    + intros i j key v key' v' Hi. by apply zget_empty in Hi.
    + intros i v j key w _ Hj. by apply zget_empty in Hj.
  - intros k v. unfold holds, in_hash. cbn. split.
    + intros [? | (i & key & Hi & _)]; [by left | by apply zget_empty in Hi].
    + intros [? | (i & key & Hi & _)]; [by left | by apply Hnone in Hi].
Qed.

(** A table that no field, live or dead, ties to a dead object on its weak sides. *)
Definition forgets (values keys : bool) (dead : option ObjectId -> bool) (mode : WeakMode.WeakMode) (t : Table) : Prop :=
  (forall i v, zget (array t) i = Some (Some v) -> weak_values values mode && dead_object dead v = false) /\
  (forall i key v, zget (hash t) i = Some (Some (key, v)) ->
     weak_keys keys mode && dead_id dead (key_id key) = false /\ weak_values values mode && dead_object dead v = false).

(** C29: The sweep of a weak table removes exactly the fields with a dead weak key or a
    dead weak value: the other fields are untouched, no slot and no bucket, not
    even one of a removed field, keeps a dead object on a weak side, and the table
    stays a table; when it stops early, the ledger has refused. *)
Theorem weak_sweep_exact {L} `{LedgerLaws L refused} is_dead is_live_key dead live_key values keys t (l : L) :
  (forall o, is_dead o = Ok (dead (identity o))) -> (forall o, is_live_key o = Ok (live_key o)) ->
  table_ok t -> (forall i key v, zget (hash t) i = Some (Some (key, v)) -> key_source_ok key) ->
  weak_mode t <> WeakMode.Strong ->
  match clear_dead_weak_pairs is_dead is_live_key values keys t l with
  | (Ok _, t', _) =>
      table_ok t' /\ forgets values keys dead (weak_mode t) t' /\
      contents t' = filter (fun kv => pair_dead values keys dead (weak_mode t) kv.1 kv.2 = false) (contents t)
  | (Err e, _, _) => refused e
  | (Crash _, _, _) => False
  end.
Proof.
  intros Hdead Hlive Ht Hsrc Hmode. unfold clear_dead_weak_pairs. rewrite bool_decide_eq_false_2 by done.
  set (c0 := {| cl_table := t; cl_count := 0; cl_ledger := l |}).
  match goal with |- context [ (?m ≫= ?f) c0 ] => set (sweep := m ≫= f) end.
  assert (spec sweep c0 (fun _ c => exists t1, cl_table c = t1 /\
     slots_swept values dead (weak_mode t) (array t) (array t1) /\
     Forall2 (bucket_swept values keys dead live_key (weak_mode t)) (hash t) (hash t1)) (fun e _ => refused e)) as Hs.
  { eapply spec_seq; [apply (clear_slots_spec is_dead values dead Hdead c0) | | done].
    intros _ c1 (Hh & Hm & Hslots). cbn in Hh, Hm, Hslots.
    replace (zlen (hash t)) with (zlen (hash (cl_table c1))) by (by rewrite Hh).
    eapply spec_weaken; [apply (clear_buckets_spec is_dead is_live_key values keys dead live_key Hdead Hlive c1) | | done].
    - rewrite Hh. intros i key v Hi. split; [by eapply (tk_keys _ Ht) | by eapply Hsrc].
    - intros _ c2 (Ha & _ & Hb). exists (cl_table c2). rewrite Hh, Hm in Hb.
      split; [done |]. split; [by rewrite Ha | done]. }
  unfold spec in Hs. destruct (sweep c0) as [[[] | e | k] c]; [| done | done].
  destruct Hs as (t1 & -> & Hslots & Hbuckets).
  pose proof (swept_ok values keys dead live_key t t1 Hslots Hbuckets Ht) as Ht1.
  destruct (release_hash_spec t1 Ht1) as (Ht2 & Hholds & Harray & Hhash).
  split; [done |]. split.
  - split.
    + intros i v Hi. rewrite Harray in Hi. by apply (swept_slot values dead t t1 Hslots) in Hi as [_ ?].
    + intros i key v Hi%Hhash.
      destruct (swept_bucket values keys dead live_key t t1 Hbuckets _ _ _ Hi) as (old & w & _ & E & Hk & Hd).
      split; [done |]. destruct Hk as [[-> _] | (-> & -> & Hk)]; [cbn; apply andb_false_r |].
      unfold pair_dead in Hk. by apply orb_false_elim in Hk as [_ ?].
  - rewrite <- (swept_contents values keys dead live_key t t1 Hslots Hbuckets Ht).
    apply map_eq. intros k. apply option_eq. intros v. rewrite !contents_lookup by done. apply Hholds.
Qed.

Import Demo.

(** A table with weak values: one dead, one alive, one a number. *)
Definition object_at (n : Z) : ObjectRef :=
  Heap_ref {| oid_vm := {| vm_number := 1 |}; oid_slot := {| slot_index := n |}; oid_generation := {| generation_value := 1 |} |} (Some n).
Definition dead_demo (id : option ObjectId) : bool := bool_decide (id = identity (object_at 3)).
Definition weak_table : Table :=
  with_weak_mode
    (with_hash (with_array empty_table [Some (VObject (object_at 3)); Some (VInteger 9)])
       [Some (KeyBoolean true, VObject (object_at 4)); Some (KeyBoolean false, VObject (object_at 3))])
    WeakMode.Values.

Lemma weak_table_ok : table_ok weak_table.
Proof.
  assert (forall i b, zget (hash weak_table) i = Some (Some b) ->
            (i = 0 /\ b.1 = KeyBoolean true) \/ (i = 1 /\ b.1 = KeyBoolean false)) as Hh.
  { intros i b Hi. pose proof (zget_lt _ _ _ Hi) as Hr. change (zlen (hash weak_table)) with 2 in Hr.
    assert (i = 0 \/ i = 1) as [-> | ->] by lia; [left | right]; vm_compute in Hi; by injection Hi as <-. }
  constructor.
  - vm_compute. done.
  - intros i key v [[_ E] | [_ E]]%Hh; cbn in E; by subst.
  - intros i j key v key' v' [[-> E] | [-> E]]%Hh [[-> E'] | [-> E']]%Hh; cbn in E, E'; by subst.
  - intros i Hi. pose proof (zget_lt _ _ _ Hi) as Hr. change (zlen (array weak_table)) with 2 in Hr.
    assert (i = 0 \/ i = 1) as [-> | ->] by lia; by vm_compute in Hi.
  - intros i v j key w _ [[_ E] | [_ E]]%Hh _; cbn in E; by subst.
Defined.

Lemma weak_sweep_exact_witness :
  match clear_dead_weak_pairs (fun o => Ok (dead_demo (identity o))) (fun _ => Ok true) true true weak_table tt with
  | (Ok _, t', _) =>
      table_ok t' /\ forgets true true dead_demo (weak_mode weak_table) t' /\
      contents t' = filter (fun kv => pair_dead true true dead_demo (weak_mode weak_table) kv.1 kv.2 = false)
                      (contents weak_table)
  | (Err e, _, _) => refused e
  | (Crash _, _, _) => False
  end.
Proof.
  apply (weak_sweep_exact (fun o => Ok (dead_demo (identity o))) (fun _ => Ok true) dead_demo (fun _ => true));
    [done | done | exact weak_table_ok | | done].
  intros i key v Hi. pose proof (zget_lt _ _ _ Hi) as Hr. change (zlen (hash weak_table)) with 2 in Hr.
  assert (i = 0 \/ i = 1) as [-> | ->] by lia; vm_compute in Hi; by injection Hi as <- _.
Defined.

Example weak_sweep_removes_two :
  contents (clear_dead_weak_pairs (fun o => Ok (dead_demo (identity o))) (fun _ => Ok true) true true weak_table tt).1.2 =
  {[AInteger 2 := VInteger 9; ABoolean true := VObject (object_at 4)]}.
Proof. vm_compute. reflexivity. Qed.
