(* ===== verification/Alloc.v ===== *)
(** The ledger of logical allocations (crates/rivetlua-runtime/src/alloc.rs): reservations,
    charges that own committed bytes, collections of charges, injected failures and the
    admission by the host. *)

From Stdlib Require Import ZArith Lia String.
From stdpp Require Import base list numbers.
From S2P Require Import Prelude Table.

Local Open Scope Z_scope.

(** ** Points of failure and domains *)

#[export] Instance FailPoint_eq_dec : EqDecision FailPoint.
Proof. solve_decision. Defined.
#[export] Instance AllocationDomain_eq_dec : EqDecision AllocationDomain.
Proof. solve_decision. Defined.

Definition ends_with (s suffix : String.string) : bool :=
  let n := String.length s in
  let m := String.length suffix in
  (m <=? n)%nat && String.eqb (String.substring (n - m) m s) suffix.

Definition domain (point : FailPoint) : AllocationDomain :=
  match point with
  | SlotReserve | ObjectReserve | ModuleConstantsReserve | StringBytesReserve | UserdataBytesReserve
  | UserdataUservaluesReserve | TableArrayReserve | TableHashReserve | TableKeyReserve | TableArrayGrow
  | TableHashGrow | ChildReserve | ClosureCapturesReserve => LuaHeap
  | _ => Host
  end.

Definition domain_at (point : FailPoint) (site : AllocationSite) : AllocationDomain :=
  match point with
  | ClosureCapturesReserve => if ends_with (site_file site) "closure.rs" then domain point else Host
  | StringBytesReserve => if ends_with (site_file site) "string.rs" then domain point else Host
  | _ => domain point
  end.

(** ** The state of a ledger *)

Inductive AllocationFailureKind := Arithmetic | Budget | Injection | Admission | RustReserveFailure.
Record AllocationFailure := { failed_attempt : AllocationAttempt; failure_kind : AllocationFailureKind }.
Record AllocationTrace := {
  next_ordinal : Z; last_attempt : option AllocationAttempt; last_failure : option AllocationFailure
}.

Record LedgerSnapshot := {
  limit : Z; committed : Z; reserved : Z; lua_heap : Z; host_allocation : Z; shared_rss_observation : option Z
}.
#[export] Instance LedgerSnapshot_eta : Eta LedgerSnapshot := fun s =>
  Build_LedgerSnapshot (limit s) (committed s) (reserved s) (lua_heap s) (host_allocation s) (shared_rss_observation s).
Definition with_ledger_limit : LedgerSnapshot -> Z -> LedgerSnapshot := ltac:(set_field limit).
Definition with_committed : LedgerSnapshot -> Z -> LedgerSnapshot := ltac:(set_field committed).
Definition with_reserved : LedgerSnapshot -> Z -> LedgerSnapshot := ltac:(set_field reserved).
Definition with_lua_heap : LedgerSnapshot -> Z -> LedgerSnapshot := ltac:(set_field lua_heap).
Definition with_host_allocation : LedgerSnapshot -> Z -> LedgerSnapshot := ltac:(set_field host_allocation).
Definition with_rss : LedgerSnapshot -> option Z -> LedgerSnapshot := ltac:(set_field shared_rss_observation).

Record AllocationPeaks := { peak_committed : Z; peak_outstanding : Z; peak_lua_heap : Z; peak_host_allocation : Z }.

Record LedgerState := {
  snapshot : LedgerSnapshot; peaks : AllocationPeaks; fail_once : option FailPoint; poisoned : bool;
  lua_reserved : Z; host_reserved : Z; trace : AllocationTrace; fail_at_ordinal : option Z
}.
#[export] Instance LedgerState_eta : Eta LedgerState := fun s =>
  Build_LedgerState (snapshot s) (peaks s) (fail_once s) (poisoned s) (lua_reserved s) (host_reserved s) (trace s) (fail_at_ordinal s).
Definition with_snapshot : LedgerState -> LedgerSnapshot -> LedgerState := ltac:(set_field snapshot).
Definition with_peaks : LedgerState -> AllocationPeaks -> LedgerState := ltac:(set_field peaks).
Definition with_fail_once : LedgerState -> option FailPoint -> LedgerState := ltac:(set_field fail_once).
Definition with_poisoned : LedgerState -> bool -> LedgerState := ltac:(set_field poisoned).
Definition with_lua_reserved : LedgerState -> Z -> LedgerState := ltac:(set_field lua_reserved).
Definition with_host_reserved : LedgerState -> Z -> LedgerState := ltac:(set_field host_reserved).
Definition with_trace : LedgerState -> AllocationTrace -> LedgerState := ltac:(set_field trace).
Definition with_fail_at_ordinal : LedgerState -> option Z -> LedgerState := ltac:(set_field fail_at_ordinal).

Definition no_peaks : AllocationPeaks :=
  {| peak_committed := 0; peak_outstanding := 0; peak_lua_heap := 0; peak_host_allocation := 0 |}.
Definition ledger_state_new (max : Z) : LedgerState := {|
  snapshot := {| limit := max; committed := 0; reserved := 0; lua_heap := 0; host_allocation := 0; shared_rss_observation := None |};
  peaks := no_peaks; fail_once := None; poisoned := false; lua_reserved := 0; host_reserved := 0;
  trace := {| next_ordinal := 1; last_attempt := None; last_failure := None |}; fail_at_ordinal := None |}.

(** [usize::checked_sub]. *)
Definition checked_sub_usize (a b : Z) : option Z := if b <=? a then Some (a - b) else None.
Definition or_error {A} (e : VmError) (o : option A) : res VmError A := match o with Some a => Ok a | None => Err e end.

Definition record_peaks (s : LedgerState) : res VmError LedgerState :=
  let n := snapshot s in
  outstanding ← or_error ArithmeticOverflow (checked_add_usize (committed n) (reserved n));
  Ok (with_peaks s {|
    peak_committed := Z.max (peak_committed (peaks s)) (committed n);
    peak_outstanding := Z.max (peak_outstanding (peaks s)) outstanding;
    peak_lua_heap := Z.max (peak_lua_heap (peaks s)) (lua_heap n);
    peak_host_allocation := Z.max (peak_host_allocation (peaks s)) (host_allocation n) |}).

(** The two balances of a domain. *)
Definition domain_balance (d : AllocationDomain) (s : LedgerState) : Z :=
  match d with LuaHeap => lua_heap (snapshot s) | Host => host_allocation (snapshot s) end.
Definition with_domain_balance (d : AllocationDomain) (s : LedgerState) (n : Z) : LedgerState :=
  match d with
  | LuaHeap => with_snapshot s (with_lua_heap (snapshot s) n)
  | Host => with_snapshot s (with_host_allocation (snapshot s) n)
  end.
Definition domain_reserved (d : AllocationDomain) (s : LedgerState) : Z :=
  match d with LuaHeap => lua_reserved s | Host => host_reserved s end.
Definition with_domain_reserved (d : AllocationDomain) (s : LedgerState) (n : Z) : LedgerState :=
  match d with LuaHeap => with_lua_reserved s n | Host => with_host_reserved s n end.

(** A ledger, shared by all that it gave out, with the state of the admission. *)
Record AllocationLedger (A : Type) := {
  inner : LedgerState; admission : A; external_admission : bool
}.
Arguments Build_AllocationLedger {_}.
Arguments inner {_}.
Arguments admission {_}.
Arguments external_admission {_}.

(** ** The host's admission

    The host may refuse an allocation; an admitted one has a token, not zero, which is
    released with the same size. The ledger is shared, so the host's functions could
    reach it. *)
Class AllocationAdmission (A : Type) := {
  host_admit : Z -> AllocationLedger A -> option Z * AllocationLedger A;
  release : Z -> Z -> AllocationLedger A -> AllocationLedger A
}.

(** [InternalAdmission]. *)
#[export] Instance internal_admission : AllocationAdmission unit :=
  {| host_admit _ l := (Some 1, l); release _ _ l := l |}.

(** Whether [Vec::try_reserve_exact] finds so many bytes. *)
Class RustAllocator (A : Type) := room : Z -> A -> bool * A.

Record Reservation := {
  rs_bytes : Z; rs_domain : AllocationDomain; rs_attempt : AllocationAttempt; rs_token : option Z
}.
Record AllocationCharge := { ch_ledger : Z; ch_bytes : Z; ch_domain : AllocationDomain; ch_token : option Z }.

(** ** Operations *)

Section Operations.
Context {A : Type} `{AllocationAdmission A} `{RustAllocator A}.

(** The layout of an [AllocationCharge]. *)
Context (size_of_charge : Z).

Notation Ledger := (AllocationLedger A).
Notation M := (ST Ledger VmError).

Definition ledger_new (max : Z) (a : A) (external : bool) : Ledger :=
  {| inner := ledger_state_new max; admission := a; external_admission := external |}.

Definition get_inner : M LedgerState := fun l => (Ok (inner l), l).
Definition set_inner (s : LedgerState) : M unit := fun l =>
  (Ok tt, {| inner := s; admission := admission l; external_admission := external_admission l |}).
Definition modify_inner (f : LedgerState -> LedgerState) : M unit := s ← get_inner; set_inner (f s).

Definition admit_bytes (bytes : Z) : M (option Z) := fun l => let '(token, l) := host_admit bytes l in (Ok token, l).
Definition release_token (token : option Z) (bytes : Z) : M unit := fun l =>
  (Ok tt, match token with Some t => release t bytes l | None => l end).
Definition rust_try_reserve (bytes : Z) : M bool := fun l =>
  let '(found, a) := room bytes (admission l) in
  (Ok found, {| inner := inner l; admission := a; external_admission := external_admission l |}).

(** What is dropped when [m] fails. *)
Definition dropping {B} (m : M B) (drop : M unit) : M B := fun l =>
  match m l with (Err e, l) => (drop;; fail e) l | r => r end.

Definition observe_shared_rss (bytes : Z) : M unit := modify_inner (fun s => with_snapshot s (with_rss (snapshot s) (Some bytes))).
Definition fail_once_at_ordinal (ordinal : Z) : M unit := modify_inner (fun s => with_fail_at_ordinal s (Some ordinal)).
Definition set_limit (n : Z) : M unit := modify_inner (fun s => with_snapshot s (with_ledger_limit (snapshot s) n)).
Definition fail_once_at (point : FailPoint) : M unit := modify_inner (fun s => with_fail_once s (Some point)).

Definition with_failure (attempt : AllocationAttempt) (kind : AllocationFailureKind) (s : LedgerState) : LedgerState :=
  with_trace s {| next_ordinal := next_ordinal (trace s); last_attempt := last_attempt (trace s);
                  last_failure := Some {| failed_attempt := attempt; failure_kind := kind |} |}.
Definition record_failure (attempt : AllocationAttempt) (kind : AllocationFailureKind) : M unit :=
  modify_inner (with_failure attempt kind).

Definition with_attempt (ordinal : Z) (attempt : AllocationAttempt) (s : LedgerState) : LedgerState :=
  with_trace s {| next_ordinal := ordinal; last_attempt := Some attempt; last_failure := last_failure (trace s) |}.

Definition record_preflight_overflow (d : AllocationDomain) (p : FailPoint) (at_site : AllocationSite) : M unit :=
  s ← get_inner;
  let ordinal := next_ordinal (trace s) in
  let attempt := {| attempt_site := at_site; attempt_ordinal := ordinal; attempt_domain := d; attempt_bytes := USIZE_MAX; attempt_point := Some p |} in
  let s := if ordinal + 1 <=? U64_MAX then with_attempt (ordinal + 1) attempt s
           else with_attempt ordinal attempt (with_poisoned s true) in
  set_inner (with_failure attempt Arithmetic s).

Definition checkpoint (p : FailPoint) : M unit :=
  s ← get_inner;
  if poisoned s then fail LedgerInvariant else
  if bool_decide (fail_once s = Some p) then set_inner (with_fail_once s None);; fail (InjectedFailure p)
  else mret tt.

(** The bytes join the reserved ones. *)
Definition add_reserved (bytes : Z) (d : AllocationDomain) (s : LedgerState) : res VmError LedgerState :=
  total ← or_error ArithmeticOverflow (checked_add_usize (reserved (snapshot s)) bytes);
  let s := with_snapshot s (with_reserved (snapshot s) total) in
  balance ← or_error ArithmeticOverflow (checked_add_usize (domain_reserved d s) bytes);
  record_peaks (with_domain_reserved d s balance).

Definition reserve_at (bytes : Z) (d : AllocationDomain) (p : option FailPoint) (at_site : AllocationSite) : M Reservation :=
  s ← get_inner;
  if poisoned s then fail LedgerInvariant else
  let ordinal := next_ordinal (trace s) in
  if negb (ordinal + 1 <=? U64_MAX) then fail ArithmeticOverflow else
  let attempt := {| attempt_site := at_site; attempt_ordinal := ordinal; attempt_domain := d; attempt_bytes := bytes; attempt_point := p |} in
  let s := with_attempt (ordinal + 1) attempt s in
  match (outstanding ← checked_add_usize (committed (snapshot s)) (reserved (snapshot s)); checked_add_usize outstanding bytes) with
  | None => set_inner (with_failure attempt Arithmetic s);; fail ArithmeticOverflow
  | Some total =>
      if limit (snapshot s) <? total then set_inner (with_failure attempt Budget s);; fail AllocationFailed else
      if bool_decide (fail_at_ordinal s = Some ordinal) then
        set_inner (with_failure attempt Injection (with_fail_at_ordinal s None));; fail (InjectedAllocation attempt)
      else
      set_inner s;;
      token ← (if bytes =? 0 then mret None else
               t ← admit_bytes bytes;
               match t with
               | Some t => mret (Some t)
               | None => record_failure attempt Admission;; fail AllocationFailed
               end);
      dropping
        (s ← get_inner;
         if poisoned s then fail LedgerInvariant else
         s ← lift (add_reserved bytes d s);
         set_inner s)
        (release_token token bytes);;
      mret {| rs_bytes := bytes; rs_domain := d; rs_attempt := attempt; rs_token := token |}
  end.

Definition reserve (bytes : Z) (at_site : AllocationSite) : M Reservation := reserve_at bytes Host None at_site.

(** [Drop for Reservation], of one that is active. A ledger that does not balance is poisoned. *)
Definition drop_reserved (bytes : Z) (d : AllocationDomain) (s : LedgerState) : LedgerState :=
  match checked_sub_usize (reserved (snapshot s)) bytes with
  | Some total =>
      let s := with_snapshot s (with_reserved (snapshot s) total) in
      match checked_sub_usize (domain_reserved d s) bytes with
      | Some balance => with_domain_reserved d s balance
      | None => with_poisoned s true
      end
  | None => with_poisoned s true
  end.
Definition drop_reservation (r : Reservation) : M unit :=
  release_token (rs_token r) (rs_bytes r);;
  s ← get_inner;
  set_inner (drop_reserved (rs_bytes r) (rs_domain r) s).

Definition reserve_lua_backing_excess (bytes : Z) (p : FailPoint) (at_site : AllocationSite) : M Reservation :=
  ticket ← reserve_at bytes LuaHeap (Some p) at_site;
  dropping (checkpoint p) (record_failure (rs_attempt ticket) Injection;; drop_reservation ticket);;
  mret ticket.

Definition refund_domain (bytes : Z) (d : AllocationDomain) : M unit :=
  s ← get_inner;
  if poisoned s then fail LedgerInvariant else
  total ← lift (or_error LedgerInvariant (checked_sub_usize (committed (snapshot s)) bytes));
  balance ← lift (or_error LedgerInvariant (checked_sub_usize (domain_balance d s) bytes));
  set_inner (with_domain_balance d (with_snapshot s (with_committed (snapshot s) total)) balance).
Definition refund (bytes : Z) : M unit := refund_domain bytes Host.

Definition drop_committed (bytes : Z) (d : AllocationDomain) (s : LedgerState) : LedgerState :=
  match checked_sub_usize (committed (snapshot s)) bytes, checked_sub_usize (domain_balance d s) bytes with
  | Some total, Some balance =>
      if poisoned s then with_poisoned s true
      else with_domain_balance d (with_snapshot s (with_committed (snapshot s) total)) balance
  | _, _ => with_poisoned s true
  end.
Definition refund_on_drop_domain (bytes : Z) (d : AllocationDomain) : M unit := modify_inner (drop_committed bytes d).

(** [Drop for AllocationCharge]. *)
Definition drop_charge (c : AllocationCharge) : M unit :=
  release_token (ch_token c) (ch_bytes c);; refund_on_drop_domain (ch_bytes c) (ch_domain c).

(** A charge that has been emptied before it is dropped. *)
Definition emptied (c : AllocationCharge) : AllocationCharge :=
  {| ch_ledger := ch_ledger c; ch_bytes := 0; ch_domain := ch_domain c; ch_token := None |}.
Definition detach_internal (c : AllocationCharge) : M unit := drop_charge (emptied c).

Definition rust_reserve_failure (r : Reservation) : M VmError :=
  record_failure (rs_attempt r) RustReserveFailure;; mret AllocationFailed.

(** The bytes of a reservation become committed ones. *)
Definition move_reserved (bytes : Z) (d : AllocationDomain) (s : LedgerState) : res VmError LedgerState :=
  if poisoned s then Err LedgerInvariant else
  total_reserved ← or_error LedgerInvariant (checked_sub_usize (reserved (snapshot s)) bytes);
  total_committed ← or_error ArithmeticOverflow (checked_add_usize (committed (snapshot s)) bytes);
  left_reserved ← or_error LedgerInvariant (checked_sub_usize (domain_reserved d s) bytes);
  balance ← or_error ArithmeticOverflow (checked_add_usize (domain_balance d s) bytes);
  let s := with_domain_balance d (with_domain_reserved d s left_reserved) balance in
  record_peaks (with_snapshot s (with_committed (with_reserved (snapshot s) total_reserved) total_committed)).

Definition commit_charge (id : Z) (r : Reservation) : M AllocationCharge :=
  dropping (s ← get_inner; s ← lift (move_reserved (rs_bytes r) (rs_domain r) s); set_inner s) (drop_reservation r);;
  mret {| ch_ledger := id; ch_bytes := rs_bytes r; ch_domain := rs_domain r; ch_token := rs_token r |}.

Definition commit (id : Z) (r : Reservation) : M unit :=
  l ← get;
  if external_admission l then drop_reservation r;; fail LedgerInvariant
  else c ← commit_charge id r; detach_internal c.

Definition reserve_vec (additional size : Z) (p : FailPoint) (at_site : AllocationSite) : M Reservation :=
  let d := domain_at p at_site in
  if negb (additional * size <=? USIZE_MAX) then record_preflight_overflow d p at_site;; fail ArithmeticOverflow else
  ticket ← reserve_at (additional * size) d (Some p) at_site;
  dropping (checkpoint p) (record_failure (rs_attempt ticket) Injection;; drop_reservation ticket);;
  found ← rust_try_reserve (additional * size);
  if found : bool then mret ticket
  else e ← rust_reserve_failure ticket; drop_reservation ticket;; fail e.

(** ** Two charges of one object *)

Record LuaChargePart := { part_bytes : Z; part_token : option Z }.
Record PairedLuaCharges := { part_first : LuaChargePart; part_second : LuaChargePart }.
Definition no_part : LuaChargePart := {| part_bytes := 0; part_token := None |}.
Definition paired_new : PairedLuaCharges := {| part_first := no_part; part_second := no_part |}.

Definition take_part (c : AllocationCharge) : M LuaChargePart :=
  drop_charge (emptied c);; mret {| part_bytes := ch_bytes c; part_token := ch_token c |}.
Definition release_part (p : LuaChargePart) : M unit :=
  release_token (part_token p) (part_bytes p);; refund_on_drop_domain (part_bytes p) LuaHeap.

Definition replace_first (p : PairedLuaCharges) (c : AllocationCharge) : M PairedLuaCharges :=
  next ← take_part c; release_part (part_first p);; mret {| part_first := next; part_second := part_second p |}.
Definition replace_second (p : PairedLuaCharges) (c : AllocationCharge) : M PairedLuaCharges :=
  next ← take_part c; release_part (part_second p);; mret {| part_first := part_first p; part_second := next |}.
Definition clear_second (p : PairedLuaCharges) : M PairedLuaCharges :=
  release_part (part_second p);; mret {| part_first := part_first p; part_second := no_part |}.
Definition drop_paired (p : PairedLuaCharges) : M unit := release_part (part_first p);; release_part (part_second p).

(** ** Collections of charges *)

Definition AllocationCharges : Type := list AllocationCharge.

Fixpoint total_bytes_from (total : Z) (entries : AllocationCharges) : res VmError Z :=
  match entries with
  | [] => Ok total
  | c :: entries => total ← or_error ArithmeticOverflow (checked_add_usize total (ch_bytes c)); total_bytes_from total entries
  end.
Definition total_bytes (entries : AllocationCharges) : res VmError Z := total_bytes_from 0 entries.

Definition charges_try_reserve (additional : Z) : M unit :=
  found ← rust_try_reserve (additional * size_of_charge);
  if found : bool then mret tt else fail AllocationFailed.
Definition push_prepared (entries : AllocationCharges) (c : AllocationCharge) : AllocationCharges := entries ++ [c].

(** A charge of the same ledger and domain as the others. *)
Definition same_owner (entries : AllocationCharges) (c : AllocationCharge) : bool :=
  match entries with
  | first :: _ => (ch_ledger first =? ch_ledger c) && bool_decide (ch_domain first = ch_domain c)
  | [] => true
  end.

(** A charge that is not taken is given back. *)
Definition try_push (entries : AllocationCharges) (c : AllocationCharge) :
    M (AllocationCharges + (VmError * AllocationCharge)) :=
  if negb (same_owner entries c) then mret (inr (LedgerInvariant, c)) else
  found ← rust_try_reserve size_of_charge;
  if found : bool then mret (inl (entries ++ [c])) else mret (inr (AllocationFailed, c)).

(** The two collections afterwards. *)
Definition try_absorb (entries other : AllocationCharges) : M (AllocationCharges * AllocationCharges) :=
  if match other with c :: _ => negb (same_owner entries c) | [] => false end then fail LedgerInvariant else
  found ← rust_try_reserve (zlen other * size_of_charge);
  if found : bool then mret (entries ++ other, []) else fail AllocationFailed.

Fixpoint drop_charges (entries : AllocationCharges) : M unit :=
  match entries with [] => mret tt | c :: entries => drop_charge c;; drop_charges entries end.

Record PreparedPartialNormalization := {
  pn_ledger : Z; pn_actual : Z; pn_domain : AllocationDomain; pn_excess : Z; pn_before : LedgerState; pn_token : Z
}.
Inductive PreparedNormalization := Equal | Zero | Partial (p : PreparedPartialNormalization).

(** Nobody changed the balances meanwhile. *)
Definition same_balances (d : AllocationDomain) (before s : LedgerState) : bool :=
  negb (poisoned s) && (committed (snapshot s) =? committed (snapshot before)) &&
  (reserved (snapshot s) =? reserved (snapshot before)) && (domain_balance d s =? domain_balance d before).

Definition prepare_normalize (entries : AllocationCharges) (actual : Z) : M PreparedNormalization :=
  total ← lift (total_bytes entries);
  if total <? actual then fail ArithmeticOverflow else
  if actual =? total then mret Equal else
  if actual =? 0 then mret Zero else
  match entries with
  | [] => fail LedgerInvariant
  | first :: _ =>
      let d := ch_domain first in
      before ← get_inner;
      let excess := total - actual in
      if poisoned before || (committed (snapshot before) <? excess) || (domain_balance d before <? excess)
      then fail LedgerInvariant else
      t ← admit_bytes actual;
      match t with
      | None => fail AllocationFailed
      | Some token =>
          dropping
            (found ← rust_try_reserve size_of_charge;
             if negb found then fail AllocationFailed else
             s ← get_inner;
             if same_balances d before s then mret tt else fail LedgerInvariant)
            (release_token (Some token) actual);;
          mret (Partial {| pn_ledger := ch_ledger first; pn_actual := actual; pn_domain := d; pn_excess := excess;
                           pn_before := before; pn_token := token |})
      end
  end.

(** The tokens go; the bytes are settled at once afterwards. *)
Fixpoint release_entries (entries : AllocationCharges) : M unit :=
  match entries with
  | [] => mret tt
  | c :: entries => release_token (ch_token c) (ch_bytes c);; release_entries entries
  end.

Definition commit_normalize (entries : AllocationCharges) (prepared : PreparedNormalization) : M AllocationCharges :=
  match prepared with
  | Equal => mret entries
  | Zero => drop_charges entries;; mret []
  | Partial p =>
      release_entries entries;;
      drop_charges (map emptied entries);;
      now ← get_inner;
      let s := with_peaks (pn_before p) (peaks now) in
      let s := with_snapshot s (with_committed (snapshot s) (committed (snapshot s) - pn_excess p)) in
      set_inner (with_domain_balance (pn_domain p) s (domain_balance (pn_domain p) s - pn_excess p));;
      mret [{| ch_ledger := pn_ledger p; ch_bytes := pn_actual p; ch_domain := pn_domain p; ch_token := Some (pn_token p) |}]
  end.

Definition normalize (entries : AllocationCharges) (actual : Z) : M AllocationCharges :=
  prepared ← prepare_normalize entries actual; commit_normalize entries prepared.

End Operations.
