(* ===== verification/AllocBalance.v ===== *)
(** The balance of the ledger (alloc.rs): what every operation does to the sums over the
    live reservations and charges, and to the tokens of the host. *)

From Stdlib Require Import ZArith Lia.
From stdpp Require Import base list numbers.
From S2P Require Import Prelude Table Alloc.

Local Open Scope Z_scope.

(** ** What is held

    Reservations, charges and parts of a pair all hold bytes of a domain and a token. *)
Record Held := { held_bytes : Z; held_domain : AllocationDomain; held_token : option Z }.

Definition held_reservation (r : Reservation) : Held :=
  {| held_bytes := rs_bytes r; held_domain := rs_domain r; held_token := rs_token r |}.
Definition held_charge (c : AllocationCharge) : Held :=
  {| held_bytes := ch_bytes c; held_domain := ch_domain c; held_token := ch_token c |}.
Definition held_part (p : LuaChargePart) : Held :=
  {| held_bytes := part_bytes p; held_domain := LuaHeap; held_token := part_token p |}.
Definition held_paired (p : PairedLuaCharges) : list Held := [held_part (part_first p); held_part (part_second p)].

Definition bytes_in (d : AllocationDomain) (h : Held) : Z :=
  match d, held_domain h with LuaHeap, LuaHeap | Host, Host => held_bytes h | _, _ => 0 end.
Fixpoint sum (d : AllocationDomain) (hs : list Held) : Z :=
  match hs with [] => 0 | h :: hs => bytes_in d h + sum d hs end.
Definition token_of (h : Held) : list (Z * Z) := match held_token h with Some t => [(t, held_bytes h)] | None => [] end.
Definition tokens (hs : list Held) : list (Z * Z) := concat (token_of <$> hs).

#[export] Instance sum_permutation d : Proper ((≡ₚ) ==> (=)) (sum d).
Proof. intros hs hs'. induction 1; cbn; lia. Qed.
#[export] Instance tokens_permutation : Proper ((≡ₚ) ==> (≡ₚ)) tokens.
Proof. intros hs hs' Hp. unfold tokens. by rewrite Hp. Qed.

Lemma sum_app d hs hs' : sum d (hs ++ hs') = sum d hs + sum d hs'.
Proof. induction hs as [| h hs IH]; cbn; lia. Qed.
Lemma tokens_app hs hs' : tokens (hs ++ hs') = tokens hs ++ tokens hs'.
Proof. unfold tokens. by rewrite fmap_app, concat_app. Qed.
Lemma tokens_cons h hs : tokens (h :: hs) = token_of h ++ tokens hs.
Proof. done. Qed.
Lemma bytes_in_same d h : held_domain h = d -> bytes_in d h = held_bytes h.
Proof. intros <-. unfold bytes_in. by destruct (held_domain h). Qed.
Lemma sum_nonneg d hs : Forall (fun h => 0 <= held_bytes h) hs -> 0 <= sum d hs.
Proof. induction 1; cbn; [done |]. unfold bytes_in. destruct d, (held_domain _); lia. Qed.

(** ** The host's promise

    [lent a ts]: the host [a] has admitted the tokens and sizes [ts], and they are not
    yet released. Its functions and Rust's allocator leave the ledger alone. *)
Class AdmissionLaws (A : Type) `{AllocationAdmission A} `{RustAllocator A} (lent : A -> list (Z * Z) -> Prop) := {
  lent_permutation : forall a ts ts', ts ≡ₚ ts' -> lent a ts -> lent a ts';
  admit_quiet : forall b (l : AllocationLedger A), inner (host_admit b l).2 = inner l /\ external_admission (host_admit b l).2 = external_admission l;
  admit_lends : forall b (l : AllocationLedger A) ts, 0 < b -> lent (admission l) ts ->
    lent (admission (host_admit b l).2) match (host_admit b l).1 with Some t => (t, b) :: ts | None => ts end;
  release_quiet : forall t b (l : AllocationLedger A), inner (release t b l) = inner l /\ external_admission (release t b l) = external_admission l;
  release_returns : forall t b (l : AllocationLedger A) ts, lent (admission l) ((t, b) :: ts) -> lent (admission (release t b l)) ts;
  room_keeps : forall b a ts, lent a ts -> lent (room b a).2 ts
}.

(** ** The balances of a state *)

(** [fair s R H D]: live reservations [R], live charges [H], and [D d] bytes of the domain
    [d] committed without a charge. *)
Record fair (s : LedgerState) (R H : list Held) (D : AllocationDomain -> Z) : Prop := {
  fair_sound : poisoned s = false;
  fair_reservations : Forall (fun h => 0 <= held_bytes h) R;
  fair_charges : Forall (fun h => 0 <= held_bytes h) H;
  fair_detached : 0 <= D LuaHeap /\ 0 <= D Host;
  fair_lua_reserved : lua_reserved s = sum LuaHeap R;
  fair_host_reserved : host_reserved s = sum Host R;
  fair_reserved : reserved (snapshot s) = sum LuaHeap R + sum Host R;
  fair_lua_heap : lua_heap (snapshot s) = sum LuaHeap H + D LuaHeap;
  fair_host_allocation : host_allocation (snapshot s) = sum Host H + D Host;
  fair_committed : committed (snapshot s) = sum LuaHeap H + D LuaHeap + (sum Host H + D Host);
  fair_total : committed (snapshot s) + reserved (snapshot s) <= USIZE_MAX;
  fair_peak_committed : committed (snapshot s) <= peak_committed (peaks s);
  fair_peak_outstanding : committed (snapshot s) + reserved (snapshot s) <= peak_outstanding (peaks s);
  fair_peak_lua_heap : lua_heap (snapshot s) <= peak_lua_heap (peaks s);
  fair_peak_host_allocation : host_allocation (snapshot s) <= peak_host_allocation (peaks s)
}.

(** The balances are read off; the rest is arithmetic. *)
Ltac fair_facts F :=
  destruct F as [F1 F2 F3 F4 F5 F6 F7 F8 F9 F10 F11 F12 F13 F14 F15];
  repeat match goal with
  | Hf : Forall (fun h => 0 <= held_bytes h) ?hs |- _ =>
      lazymatch goal with
      | _ : 0 <= sum LuaHeap hs |- _ => fail
      | _ => pose proof (sum_nonneg LuaHeap hs Hf); pose proof (sum_nonneg Host hs Hf)
      end
  end.

Section States.
#[local] Set Default Proof Using "Type*".
Implicit Types (s : LedgerState) (h : Held) (R H : list Held) (D : AllocationDomain -> Z).

Lemma fair_permute s R R' H H' D : fair s R H D -> R ≡ₚ R' -> H ≡ₚ H' -> fair s R' H' D.
Proof. intros F HR HH. destruct F. split; by rewrite <- ?HR, <- ?HH. Qed.

(** What does not concern the balances. *)
Definition balances s : bool * Z * Z * (Z * Z * Z * Z) * AllocationPeaks :=
  (poisoned s, lua_reserved s, host_reserved s,
   (committed (snapshot s), reserved (snapshot s), lua_heap (snapshot s), host_allocation (snapshot s)), peaks s).

Lemma fair_same s s' R H D : balances s' = balances s -> fair s R H D -> fair s' R H D.
Proof. unfold balances. intros [= ? ? ? ? ? ? ? Hp] F. destruct F. split; congruence. Qed.

Lemma fair_new max D : (forall d, D d = 0) -> fair (ledger_state_new max) [] [] D.
Proof. intros HD. split; cbn; rewrite ?HD; try done. Qed.

Lemma bytes_in_le d h H : h ∈ H -> Forall (fun h => 0 <= held_bytes h) H -> bytes_in d h <= sum d H.
Proof.
  intros (l1 & l2 & ->)%list_elem_of_split HF. apply Forall_app in HF as [H1 HF]. apply Forall_cons_1 in HF as [_ H2].
  rewrite sum_app. cbn [sum].
  pose proof (sum_nonneg d l1 H1). pose proof (sum_nonneg d l2 H2). lia.
Qed.

Lemma record_peaks_ok s :
  committed (snapshot s) + reserved (snapshot s) <= USIZE_MAX ->
  record_peaks s = Ok (with_peaks s {|
    peak_committed := Z.max (peak_committed (peaks s)) (committed (snapshot s));
    peak_outstanding := Z.max (peak_outstanding (peaks s)) (committed (snapshot s) + reserved (snapshot s));
    peak_lua_heap := Z.max (peak_lua_heap (peaks s)) (lua_heap (snapshot s));
    peak_host_allocation := Z.max (peak_host_allocation (peaks s)) (host_allocation (snapshot s)) |}).
Proof. intros Hle. unfold record_peaks, checked_add_usize. cbn. destruct (Z.leb_spec (committed (snapshot s) + reserved (snapshot s)) USIZE_MAX); [done | lia]. Qed.

Lemma fair_add_reserved s R H D h :
  fair s R H D -> 0 <= held_bytes h -> committed (snapshot s) + reserved (snapshot s) + held_bytes h <= USIZE_MAX ->
  exists s', add_reserved (held_bytes h) (held_domain h) s = Ok s' /\ fair s' (h :: R) H D /\
    snapshot s' = with_reserved (snapshot s) (reserved (snapshot s) + held_bytes h) /\
    Alloc.trace s' = Alloc.trace s /\ fail_once s' = fail_once s.
Proof.
  intros F Hh Hle. fair_facts F. unfold add_reserved, checked_add_usize.
  destruct h as [b d t]. cbn in *.
  rewrite (proj2 (Z.leb_le (reserved (snapshot s) + b) _)) by lia. cbn.
  destruct d; cbn; (rewrite (proj2 (Z.leb_le _ _)) by (cbn; lia)); cbn;
    (rewrite record_peaks_ok by (cbn; lia)); (eexists; split; [done |]; split; [| done]); split; cbn;
    unfold bytes_in; cbn; try lia; try done; by constructor.
Qed.

Lemma fair_drop_reserved s R H D h :
  fair s (h :: R) H D -> fair (drop_reserved (held_bytes h) (held_domain h) s) R H D.
Proof.
  intros F. assert (0 <= held_bytes h /\ Forall (fun h => 0 <= held_bytes h) R) as [Hh HR] by (exact (Forall_cons_1 _ _ _ (fair_reservations _ _ _ _ F))).
  fair_facts F. unfold drop_reserved, checked_sub_usize. destruct h as [b d t]. cbn in *. unfold bytes_in in *. cbn in *.
  destruct d; cbn in *; (rewrite (proj2 (Z.leb_le b _)) by lia; cbn; rewrite (proj2 (Z.leb_le b _)) by lia);
    split; cbn; try lia; done.
Qed.

(** A reservation is committed: nothing can go wrong. *)
Lemma fair_move s R H D h :
  fair s (h :: R) H D -> exists s', move_reserved (held_bytes h) (held_domain h) s = Ok s' /\ fair s' R (h :: H) D.
Proof.
  intros F. assert (0 <= held_bytes h /\ Forall (fun h => 0 <= held_bytes h) R) as [Hh HR] by (exact (Forall_cons_1 _ _ _ (fair_reservations _ _ _ _ F))).
  fair_facts F. unfold move_reserved, checked_sub_usize, checked_add_usize. rewrite F1.
  destruct h as [b d t]. cbn in *. unfold bytes_in in *. cbn in *.
  destruct d; cbn in *;
    (repeat (rewrite (proj2 (Z.leb_le _ _)) by lia; cbn); rewrite record_peaks_ok by (cbn; lia); eexists; split; [done |];
     split; cbn; unfold bytes_in; cbn; try lia; try done; by constructor).
Qed.

(** A charge goes: its bytes are no longer committed. *)
Lemma fair_drop_committed s R H D h :
  fair s R (h :: H) D -> fair (drop_committed (held_bytes h) (held_domain h) s) R H D.
Proof.
  intros F. assert (0 <= held_bytes h /\ Forall (fun h => 0 <= held_bytes h) H) as [Hh HR] by (exact (Forall_cons_1 _ _ _ (fair_charges _ _ _ _ F))).
  fair_facts F. unfold drop_committed. rewrite F1.
  unfold checked_sub_usize. destruct h as [b d t]. cbn in *. unfold bytes_in in *. cbn in *.
  destruct d; cbn in *; (rewrite !(proj2 (Z.leb_le b _)) by lia); split; cbn; try lia; done.
Qed.

(** Nothing is held, or held without bytes. *)
Lemma fair_zero s R H D h : held_bytes h = 0 -> fair s R (h :: H) D <-> fair s R H D.
Proof.
  intros Hh. assert (forall d, sum d (h :: H) = sum d H) as Hsum.
  { intros d. cbn. unfold bytes_in. destruct d, (held_domain h); lia. }
  split; intros F; destruct F; split; rewrite ?Hsum in *; try done.
  - by eapply Forall_cons_1.
  - constructor; [lia | done].
Qed.

(** The charge of a commit is forgotten: its bytes stay committed. *)
Definition more (D : AllocationDomain -> Z) (h : Held) (d : AllocationDomain) : Z := bytes_in d h + D d.
Lemma fair_detach s R H D h : fair s R (h :: H) D -> fair s R H (more D h).
Proof.
  intros F. assert (0 <= held_bytes h /\ Forall (fun h => 0 <= held_bytes h) H) as [Hh HR] by (exact (Forall_cons_1 _ _ _ (fair_charges _ _ _ _ F))).
  unfold more. destruct F. cbn in *. unfold bytes_in in *. destruct (held_domain h); split; cbn; try lia; done.
Qed.

(** A refund of what was committed without a charge. *)
Definition less (D : AllocationDomain -> Z) (b : Z) (d' d : AllocationDomain) : Z :=
  match d', d with LuaHeap, LuaHeap | Host, Host => D d - b | _, _ => D d end.
Lemma fair_refund s R H D b d :
  fair s R H D -> 0 <= b <= D d ->
  checked_sub_usize (committed (snapshot s)) b = Some (committed (snapshot s) - b) /\
  checked_sub_usize (domain_balance d s) b = Some (domain_balance d s - b) /\
  fair (with_domain_balance d (with_snapshot s (with_committed (snapshot s) (committed (snapshot s) - b))) (domain_balance d s - b))
    R H (less D b d).
Proof.
  intros F Hb. fair_facts F. unfold checked_sub_usize, less.
  destruct d; cbn; (rewrite !(proj2 (Z.leb_le b _)) by lia); (split; [done |]; split; [done |]); split; cbn;
    try lia; try done.
Qed.

(** The charges [hs] of one domain become one charge of fewer bytes. *)
Lemma fair_shrink s R H D hs h :
  fair s R (hs ++ H) D -> Forall (fun h' => held_domain h' = held_domain h) hs ->
  0 <= held_bytes h <= sum (held_domain h) hs ->
  let excess := sum (held_domain h) hs - held_bytes h in
  0 <= excess <= committed (snapshot s) /\ excess <= domain_balance (held_domain h) s /\
  fair (with_domain_balance (held_domain h) (with_snapshot s (with_committed (snapshot s) (committed (snapshot s) - excess)))
          (domain_balance (held_domain h) s - excess)) R (h :: H) D.
Proof.
  intros F Hd Hb excess. assert (Forall (fun h => 0 <= held_bytes h) H) as HH by (apply (Forall_app _ hs), F).
  assert (forall d, d <> held_domain h -> sum d hs = 0) as Hother.
  { intros d Hne. clear - Hd Hne. induction Hd as [| h' hs E Hd IH]; cbn; [done |]. rewrite IH.
    unfold bytes_in. rewrite E. by destruct d, (held_domain h). }
  fair_facts F. destruct h as [b d t]. cbn in *. unfold excess, bytes_in in *.
  destruct d; cbn in *; [pose proof (Hother Host ltac:(done)) | pose proof (Hother LuaHeap ltac:(done))];
    rewrite ?sum_app in *; (split; [lia |]; split; [lia |]); split; cbn; unfold bytes_in; cbn; try lia; try done; (constructor; [cbn; lia | done]).
Qed.
End States.
