(* ===== verification/AllocTheorems.v ===== *)
(** The operations of the ledger (alloc.rs) keep it balanced, whatever the host admits and
    whatever is injected. *)

From Stdlib Require Import ZArith Lia.
From stdpp Require Import base list numbers relations.
From S2P Require Import Prelude Table Alloc AllocBalance.

Local Open Scope Z_scope.

Section Operations.
Context {A : Type} {host : AllocationAdmission A} {rust : RustAllocator A} {lent : A -> list (Z * Z) -> Prop} {laws : AdmissionLaws A lent}.
#[local] Set Default Proof Using "Type*".

Notation Ledger := (AllocationLedger A).
Notation M := (ST Ledger VmError).
Implicit Types (l : Ledger) (R H : list Held) (D : AllocationDomain -> Z).

(** [in_balance l R H D]: the balances are the sums over the live reservations [R] and
    charges [H], and the host has lent exactly their tokens. *)
Definition in_balance l R H D : Prop := fair (inner l) R H D /\ lent (admission l) (tokens (R ++ H)).

Lemma balanced_permute l R R' H H' D : in_balance l R H D -> R ≡ₚ R' -> H ≡ₚ H' -> in_balance l R' H' D.
Proof.
  intros [F L] HR HH. split; [by eapply fair_permute |]. eapply lent_permutation; [| exact L]. by rewrite HR, HH.
Qed.

(** ** Single steps *)

Lemma spec_get_inner {B} (f : LedgerState -> M B) l Q E : spec (f (inner l)) l Q E -> spec (get_inner ≫= f) l Q E.
Proof using Type. done. Qed.

Lemma spec_set_inner {B} s (f : unit -> M B) l Q E :
  spec (f tt) {| inner := s; admission := admission l; external_admission := external_admission l |} Q E ->
  spec (set_inner s ≫= f) l Q E.
Proof using Type. done. Qed.

Lemma spec_modify_ledger {B} f (k : unit -> M B) l Q E :
  spec (k tt) {| inner := f (inner l); admission := admission l; external_admission := external_admission l |} Q E ->
  spec (modify_inner f ≫= k) l Q E.
Proof using Type. done. Qed.

Lemma spec_release t b l ts (Q : unit -> Ledger -> Prop) E :
  lent (admission l) (token_of {| held_bytes := b; held_domain := Host; held_token := t |} ++ ts) ->
  (forall l', inner l' = inner l -> external_admission l' = external_admission l -> lent (admission l') ts -> Q tt l') ->
  spec (release_token t b) l Q E.
Proof.
  intros L HQ. destruct t as [t |]; [| by apply HQ].
  change (Q tt (release t b l)). destruct (release_quiet t b l). apply HQ; [done | done |]. by apply release_returns.
Qed.

Lemma spec_room b l ts (Q : bool -> Ledger -> Prop) E :
  lent (admission l) ts ->
  (forall found l', inner l' = inner l -> external_admission l' = external_admission l -> lent (admission l') ts -> Q found l') ->
  spec (rust_try_reserve b) l Q E.
Proof.
  intros L HQ. unfold spec, rust_try_reserve. pose proof (room_keeps b (admission l) ts L) as L'.
  destruct (room b (admission l)) as [found a]. by apply HQ.
Qed.

Lemma spec_admit b l ts (Q : option Z -> Ledger -> Prop) E :
  0 < b -> lent (admission l) ts ->
  (forall t l', inner l' = inner l -> external_admission l' = external_admission l ->
     lent (admission l') match t with Some t => (t, b) :: ts | None => ts end -> Q t l') ->
  spec (admit_bytes b) l Q E.
Proof.
  intros Hb L HQ. unfold spec, admit_bytes. pose proof (admit_lends b l ts Hb L) as L'. pose proof (admit_quiet b l) as [Hi He].
  destruct (host_admit b l) as [t l']. by apply HQ.
Qed.

(** When [m] fails, the drop runs and the error stays. *)
Lemma spec_dropping {B} (m : M B) (drop : M unit) l (Q : B -> Ledger -> Prop) (E E' : VmError -> Ledger -> Prop) :
  spec m l Q E' -> (forall e l', E' e l' -> spec drop l' (fun _ => E e) (fun _ _ => False)) -> spec (dropping m drop) l Q E.
Proof using Type.
  intros Hm Hd. unfold spec, dropping in *. destruct (m l) as [[b | e | k] l']; [done | | done].
  specialize (Hd e l' Hm). unfold mbind, st_bind. by destruct (drop l') as [[[] | e' | k] l''].
Qed.

(** ** Reservations *)

Lemma drop_reservation_spec r l R H D :
  in_balance l (held_reservation r :: R) H D ->
  spec (drop_reservation r) l (fun _ l' => in_balance l' R H D) (fun _ _ => False).
Proof.
  intros [F L]. apply spec_bind. eapply spec_release; [exact L |]. intros l1 Hi _ L1. apply spec_get_inner.
  split; [| exact L1]. rewrite Hi. exact (fair_drop_reserved _ _ _ _ _ F).
Qed.

(** Why a request is refused. *)
Definition refusal (s : LedgerState) (b : Z) (e : VmError) (s' : LedgerState) : Prop :=
  let outstanding := committed (snapshot s) + reserved (snapshot s) in
  match e with
  | ArithmeticOverflow => U64_MAX <= next_ordinal (Alloc.trace s) \/ USIZE_MAX < outstanding + b
  | AllocationFailed =>
      limit (snapshot s) < outstanding + b \/
      b <> 0 /\ exists attempt, last_failure (Alloc.trace s') = Some {| failed_attempt := attempt; failure_kind := Admission |}
  | InjectedAllocation _ => fail_at_ordinal s = Some (next_ordinal (Alloc.trace s))
  | _ => False
  end.

Lemma balanced_set l s R H D : in_balance l R H D -> balances s = balances (inner l) ->
  in_balance {| inner := s; admission := admission l; external_admission := external_admission l |} R H D.
Proof using Type. intros [F L] E. split; [by eapply fair_same | done]. Qed.

(** The bytes join the reserved ones, with the token in hand. *)
Lemma publish_spec b d t l R H D :
  let h := {| held_bytes := b; held_domain := d; held_token := t |} in
  fair (inner l) R H D -> 0 <= b -> committed (snapshot (inner l)) + reserved (snapshot (inner l)) + b <= USIZE_MAX ->
  lent (admission l) (token_of h ++ tokens (R ++ H)) ->
  spec (dropping (s ← get_inner; if poisoned s then fail LedgerInvariant else s ← lift (add_reserved b d s); set_inner s)
          (release_token t b)) l
    (fun _ l' => in_balance l' (h :: R) H D /\
       snapshot (inner l') = with_reserved (snapshot (inner l)) (reserved (snapshot (inner l)) + b) /\
       Alloc.trace (inner l') = Alloc.trace (inner l)) (fun _ _ => False).
Proof.
  intros h F Hb Ht L. destruct (fair_add_reserved _ _ _ _ h F Hb Ht) as (s' & E' & F' & Hs & Htr & _).
  eapply (spec_dropping _ _ _ _ _ (fun _ _ => False)); [| done].
  apply spec_get_inner. rewrite (fair_sound _ _ _ _ F). cbn in E'. rewrite E'. split; [by split |]. by split.
Qed.

Lemma reserve_at_spec b d p at_site l R H D :
  in_balance l R H D -> 0 <= b ->
  spec (reserve_at b d p at_site) l
    (fun r l' => in_balance l' (held_reservation r :: R) H D /\ rs_bytes r = b /\ rs_domain r = d /\
       snapshot (inner l') = with_reserved (snapshot (inner l)) (reserved (snapshot (inner l)) + b) /\
       committed (snapshot (inner l)) + reserved (snapshot (inner l)) + b <= limit (snapshot (inner l)))
    (fun e l' => in_balance l' R H D /\ snapshot (inner l') = snapshot (inner l) /\ refusal (inner l) b e (inner l')).
Proof.
  intros HB Hb. pose proof HB as [F L]. unfold reserve_at. apply spec_get_inner. rewrite (fair_sound _ _ _ _ F).
  destruct (Z.leb_spec (next_ordinal (Alloc.trace (inner l)) + 1) U64_MAX) as [Ho | Ho]; cbn [negb];
    [| apply spec_fail; split; [done |]; split; [done |]; left; lia].
  pose proof (fair_total _ _ _ _ F) as Ht. unfold checked_add_usize.
  cbn [snapshot with_attempt with_trace fail_at_ordinal limit]. rewrite (proj2 (Z.leb_le _ _) Ht). cbn [mbind option_bind].
  set (attempt := Build_AllocationAttempt _ _ _ _ _). set (s1 := with_attempt _ attempt (inner l)).
  destruct (Z.leb_spec (committed (snapshot (inner l)) + reserved (snapshot (inner l)) + b) USIZE_MAX) as [Hu | Hu];
    [| apply spec_set_inner, spec_fail; split; [by apply balanced_set |]; split; [done |]; right; lia].
  destruct (Z.ltb_spec (limit (snapshot (inner l))) (committed (snapshot (inner l)) + reserved (snapshot (inner l)) + b)) as [Hl | Hl];
    [apply spec_set_inner, spec_fail; split; [by apply balanced_set |]; split; [done |]; left; lia |].
  case_bool_decide as Hi; [apply spec_set_inner, spec_fail; split; [by apply balanced_set |]; by split |].
  apply spec_set_inner. set (l1 := Build_AllocationLedger _ _ _).
  assert (in_balance l1 R H D) as [F1 L1] by by apply balanced_set.
  eapply (spec_seq _ _ _ (fun t l2 => inner l2 = s1 /\ lent (admission l2) (token_of (Build_Held b d t) ++ tokens (R ++ H)))); [| | exact (fun _ _ X => X)].
  - destruct (Z.eqb_spec b 0) as [-> | Hne]; [by apply spec_ret |].
    apply spec_bind. eapply (spec_admit b l1); [lia | exact L1 |]. intros [t |] l2 H2 _ L2; [by apply spec_ret |].
    apply spec_modify_ledger, spec_fail. rewrite H2.
    split; [apply (balanced_set l2); [split; [by rewrite H2 | exact L2] | by rewrite H2] |].
    split; [done |]. right. split; [done |]. by eexists.
  - intros t l2 [H2 L2]. apply spec_bind. eapply spec_weaken; [apply publish_spec; rewrite ?H2; done | | done].
    intros _ l3 (HB3 & Hs & _). rewrite H2 in Hs. split; [exact HB3 |]. do 2 (split; [done |]). by split.
Qed.
Lemma checkpoint_spec p l R H D :
  in_balance l R H D ->
  spec (checkpoint p) l (fun _ l' => l' = l)
    (fun e l' => in_balance l' R H D /\ e = InjectedFailure p /\ fail_once (inner l) = Some p /\ fail_once (inner l') = None).
Proof.
  intros HB. unfold checkpoint. apply spec_get_inner. rewrite (fair_sound _ _ _ _ (proj1 HB)).
  case_bool_decide; [| by apply spec_ret]. apply spec_set_inner, spec_fail. split; [by apply balanced_set | done].
Qed.

Lemma checkpoint_or_drop p ticket l R H D :
  in_balance l (held_reservation ticket :: R) H D ->
  spec (dropping (checkpoint p) (record_failure (rs_attempt ticket) Injection;; drop_reservation ticket)) l
    (fun _ l' => l' = l) (fun e l' => in_balance l' R H D /\ e = InjectedFailure p /\ fail_once (inner l) = Some p).
Proof.
  intros HB. eapply spec_dropping; [by apply checkpoint_spec |]. intros e l1 (HB1 & -> & Hp & _).
  apply spec_modify_ledger. eapply spec_weaken; [by eapply drop_reservation_spec, balanced_set | | done]. done.
Qed.

Lemma reserve_lua_backing_excess_spec b p at_site l R H D :
  in_balance l R H D -> 0 <= b ->
  spec (reserve_lua_backing_excess b p at_site) l
    (fun r l' => in_balance l' (held_reservation r :: R) H D /\ rs_bytes r = b /\ rs_domain r = LuaHeap)
    (fun _ l' => in_balance l' R H D).
Proof.
  intros HB Hb. eapply spec_seq; [by apply reserve_at_spec | | by intros e l' [? _]].
  intros r l1 (HB1 & Hr & Hd & _). eapply spec_seq; [by apply checkpoint_or_drop | | by intros e l' [? _]].
  intros _ l2 ->. by apply spec_ret.
Qed.

(** Attempts are counted in 64 bits. *)
Definition attempts_left l : Prop := next_ordinal (Alloc.trace (inner l)) < U64_MAX.

Lemma reserve_vec_spec additional size p at_site l R H D :
  in_balance l R H D -> attempts_left l -> 0 <= additional -> 0 <= size ->
  spec (reserve_vec additional size p at_site) l
    (fun r l' => in_balance l' (held_reservation r :: R) H D /\ rs_bytes r = additional * size /\
       rs_domain r = domain_at p at_site /\ rs_bytes r <= USIZE_MAX /\
       committed (snapshot (inner l')) + reserved (snapshot (inner l')) <= limit (snapshot (inner l')))
    (fun e l' => in_balance l' R H D).
Proof.
  intros HB Ho Ha Hs. unfold reserve_vec. destruct (Z.leb_spec (additional * size) USIZE_MAX) as [Hu | Hu]; cbn [negb].
  - eapply spec_seq; [apply reserve_at_spec; [done | lia] | | by intros e l' [? _]].
    intros r l1 (HB1 & Hr & Hd & Hsn & Hl). eapply spec_seq; [by apply checkpoint_or_drop | | by intros e l' [? _]].
    intros _ l2 ->. apply spec_bind. destruct HB1 as [F1 L1]. eapply spec_room; [exact L1 |].
    intros [] l2 H2 _ L2.
    + apply spec_ret. split; [split; [by rewrite H2 | exact L2] |].
      split; [done |]. split; [done |]. split; [lia |]. rewrite H2, Hsn. cbn. lia.
    + unfold rust_reserve_failure. apply spec_bind, spec_modify_ledger, spec_ret. eapply spec_seq.
      * apply (drop_reservation_spec r _ R H D), (balanced_set l2); [split; [by rewrite H2 | exact L2] | done].
      * intros [] l3 HB3. apply spec_fail, HB3.
      * done.
  - unfold record_preflight_overflow. apply spec_bind, spec_get_inner.
    rewrite (proj2 (Z.leb_le _ _)) by (unfold attempts_left in Ho; lia).
    apply spec_fail. by apply balanced_set.
Qed.

(** ** Charges *)

(** A reservation that is live can always be committed. *)
Lemma commit_charge_spec id r l R H D :
  in_balance l (held_reservation r :: R) H D ->
  spec (commit_charge id r) l
    (fun c l' => in_balance l' R (held_charge c :: H) D /\ held_charge c = held_reservation r /\ ch_ledger c = id /\
       external_admission l' = external_admission l) (fun _ _ => False).
Proof.
  intros [F L]. destruct (fair_move _ _ _ _ _ F) as (s' & E' & F').
  apply spec_bind. eapply (spec_dropping _ _ _ _ _ (fun _ _ => False)); [| done].
  apply spec_get_inner. cbn in E'. rewrite E'. apply spec_ret. split; [| done].
  split; [exact F' |]. eapply lent_permutation; [| exact L]. cbn [app]. by rewrite Permutation_middle.
Qed.

Lemma drop_charge_spec c l R H D :
  in_balance l R (held_charge c :: H) D -> spec (drop_charge c) l (fun _ l' => in_balance l' R H D /\
    external_admission l' = external_admission l) (fun _ _ => False).
Proof.
  intros [F L]. apply spec_bind. eapply (spec_release _ _ _ (tokens (R ++ H))).
  { eapply lent_permutation; [| exact L]. rewrite <- Permutation_middle. done. }
  intros l1 Hi He L1. split; [| done]. split; [| exact L1]. cbn. rewrite Hi. exact (fair_drop_committed _ _ _ _ _ F).
Qed.
(** A charge without bytes leaves no trace. *)
Lemma drop_committed_zero d s : poisoned s = false -> 0 <= committed (snapshot s) -> 0 <= domain_balance d s -> drop_committed 0 d s = s.
Proof using Type.
  intros Hp Hc Hb. unfold drop_committed, checked_sub_usize. rewrite !(proj2 (Z.leb_le 0 _)) by done. rewrite Hp, !Z.sub_0_r.
  destruct s as [[] ? ? ? ? ? ? ?], d; done.
Qed.

Lemma fair_nonneg s R H D : fair s R H D -> 0 <= committed (snapshot s) /\ forall d, 0 <= domain_balance d s.
Proof using Type. intros F. fair_facts F. split; [lia | intros []; cbn; lia]. Qed.

Lemma drop_emptied c l R H D : fair (inner l) R H D -> drop_charge (emptied c) l = (Ok tt, l).
Proof using Type.
  intros F. destruct (fair_nonneg _ _ _ _ F) as [Hc Hb].
  assert (drop_charge (emptied c) l = (Ok tt, {| inner := drop_committed 0 (ch_domain c) (inner l); admission := admission l;
    external_admission := external_admission l |})) as -> by done.
  rewrite drop_committed_zero; [by destruct l | by destruct F | done | done].
Qed.

Lemma drop_all_emptied cs l R H D : fair (inner l) R H D -> drop_charges (map emptied cs) l = (Ok tt, l).
Proof using Type.
  intros F. induction cs as [| c cs IH]; [done |]. cbn [drop_charges map].
  unfold mbind, st_bind. by rewrite (drop_emptied c l R H D F).
Qed.

Lemma spec_run_ledger {B C} (m : M B) (f : B -> M C) b l l' Q E : m l = (Ok b, l') -> spec (f b) l' Q E -> spec (m ≫= f) l Q E.
Proof using Type. intros Hm Hf. apply spec_bind. unfold spec at 1. by rewrite Hm. Qed.

(** [commit]: the bytes stay committed, without a charge. Only a ledger without a host
    does that, whose tokens nobody counts. *)
Lemma commit_spec id r l R H D :
  in_balance l (held_reservation r :: R) H D -> external_admission l = true \/ (forall a ts, lent a ts) ->
  spec (commit id r) l (fun _ l' => in_balance l' R H (more D (held_reservation r)))
    (fun e l' => e = LedgerInvariant /\ external_admission l = true /\ in_balance l' R H D).
Proof.
  intros HB Hx. unfold commit. apply spec_bind, spec_get. destruct (external_admission l) eqn:He.
  - eapply spec_seq; [by apply drop_reservation_spec | | done]. intros [] l' HB'. by apply spec_fail.
  - destruct Hx as [? | Hx]; [done |]. eapply spec_seq; [by apply commit_charge_spec | | done].
    intros c l1 (HB1 & Hc & _). unfold detach_internal, spec. rewrite (drop_emptied c l1 _ _ _ (proj1 HB1)).
    destruct HB1 as [F1 L1]. rewrite <- Hc. split; [by apply fair_detach | apply Hx].
Qed.

Lemma refund_domain_spec b d l R H D :
  in_balance l R H D -> 0 <= b <= D d ->
  spec (refund_domain b d) l (fun _ l' => in_balance l' R H (less D b d)) (fun _ _ => False).
Proof.
  intros [F L] Hb. destruct (fair_refund _ _ _ _ b d F Hb) as (E1 & E2 & F'). unfold refund_domain.
  apply spec_get_inner. rewrite (fair_sound _ _ _ _ F), E1, E2. by split.
Qed.

(** ** Two charges of one object *)

Lemma release_part_spec p l R H D :
  in_balance l R (held_part p :: H) D -> spec (release_part p) l (fun _ l' => in_balance l' R H D) (fun _ _ => False).
Proof.
  intros HB. change (release_part p) with (drop_charge (Build_AllocationCharge 0 (part_bytes p) LuaHeap (part_token p))).
  eapply spec_weaken; [by apply drop_charge_spec | | done]. by intros _ l' [? _].
Qed.

Lemma take_part_spec c l R H D :
  in_balance l R (held_charge c :: H) D -> ch_domain c = LuaHeap ->
  spec (take_part c) l (fun part l' => l' = l /\ held_part part = held_charge c) (fun _ _ => False).
Proof.
  intros HB Hd. eapply spec_run_ledger; [eapply drop_emptied, HB |]. apply spec_ret. split; [done |].
  unfold held_part, held_charge. by rewrite Hd.
Qed.

Lemma replace_first_spec p c l R H D :
  in_balance l R (held_charge c :: held_paired p ++ H) D -> ch_domain c = LuaHeap ->
  spec (replace_first p c) l (fun p' l' => in_balance l' R (held_paired p' ++ H) D /\ held_part (part_first p') = held_charge c)
    (fun _ _ => False).
Proof.
  intros HB Hd. eapply spec_seq; [by eapply take_part_spec | | done]. intros next l1 [-> Hn].
  eapply spec_seq; [apply (release_part_spec _ _ R (held_charge c :: held_part (part_second p) :: H) D) | | done].
  { eapply balanced_permute; [exact HB | done |]. apply perm_swap. }
  intros [] l2 HB2. apply spec_ret. cbn. by rewrite Hn.
Qed.

Lemma replace_second_spec p c l R H D :
  in_balance l R (held_charge c :: held_paired p ++ H) D -> ch_domain c = LuaHeap ->
  spec (replace_second p c) l (fun p' l' => in_balance l' R (held_paired p' ++ H) D /\ held_part (part_second p') = held_charge c)
    (fun _ _ => False).
Proof.
  intros HB Hd. eapply spec_seq; [by eapply take_part_spec | | done]. intros next l1 [-> Hn].
  eapply spec_seq; [apply (release_part_spec _ _ R (held_part (part_first p) :: held_charge c :: H) D) | | done].
  { eapply balanced_permute; [exact HB | done |]. cbn. rewrite perm_swap. rewrite (perm_swap _ (held_charge c)). apply perm_swap. }
  intros [] l2 HB2. apply spec_ret. cbn. by rewrite Hn.
Qed.

Lemma balanced_no_part l R H D : in_balance l R H D <-> in_balance l R (held_part no_part :: H) D.
Proof.
  unfold in_balance. rewrite fair_zero by done.
  assert (tokens (R ++ held_part no_part :: H) = tokens (R ++ H)) as -> by (by rewrite !tokens_app, tokens_cons). done.
Qed.

Lemma clear_second_spec p l R H D :
  in_balance l R (held_paired p ++ H) D ->
  spec (clear_second p) l (fun p' l' => in_balance l' R (held_paired p' ++ H) D /\ part_first p' = part_first p) (fun _ _ => False).
Proof.
  intros HB. eapply spec_seq; [apply (release_part_spec _ _ R (held_part (part_first p) :: H) D) | | done].
  { eapply balanced_permute; [exact HB | done |]. apply perm_swap. }
  intros [] l2 HB2. apply spec_ret. split; [| done]. cbn. apply balanced_no_part in HB2.
  eapply balanced_permute; [exact HB2 | done |]. apply perm_swap.
Qed.

Lemma drop_paired_spec p l R H D :
  in_balance l R (held_paired p ++ H) D -> spec (drop_paired p) l (fun _ l' => in_balance l' R H D) (fun _ _ => False).
Proof.
  intros HB. eapply spec_seq; [eapply release_part_spec, HB | | done]. intros [] l' HB'. eapply release_part_spec, HB'.
Qed.

Lemma paired_new_balanced l R H D : in_balance l R H D -> in_balance l R (held_paired paired_new ++ H) D.
Proof. intros HB. change (in_balance l R (held_part no_part :: held_part no_part :: H) D). by rewrite <- !balanced_no_part. Qed.
End Operations.
