(* ===== verification/AllocNormalize.v ===== *)
(** Collections of charges (alloc.rs): normalisation gives back what is not used, once,
    and changes nothing when it fails. *)

From Stdlib Require Import ZArith Lia.
From stdpp Require Import base list numbers.
From S2P Require Import Prelude Table Alloc AllocBalance AllocTheorems.

Local Open Scope Z_scope.

Section Collections.
Context {A : Type} {host : AllocationAdmission A} {rust : RustAllocator A} {lent : A -> list (Z * Z) -> Prop} {laws : AdmissionLaws A lent}.
Context (size_of_charge : Z).
#[local] Set Default Proof Using "Type*".

Notation Ledger := (AllocationLedger A).
Notation M := (ST Ledger VmError).
Notation in_balance := (in_balance (lent := lent)).
Implicit Types (l : Ledger) (R H : list Held) (D : AllocationDomain -> Z) (cs : AllocationCharges).

Definition held cs : list Held := held_charge <$> cs.

(** All of one ledger and one domain. *)
Definition of_owner (id : Z) (d : AllocationDomain) cs : Prop := Forall (fun c => ch_ledger c = id /\ ch_domain c = d) cs.

Lemma of_owner_held id d cs : of_owner id d cs -> Forall (fun h => held_domain h = d) (held cs).
Proof using Type. unfold held. intros Hc. apply Forall_fmap. eapply Forall_impl; [| exact Hc]. by intros c [_ ?]. Qed.

(** ** The total *)

Lemma total_bytes_from_ok id d cs total :
  of_owner id d cs -> Forall (fun h => 0 <= held_bytes h) (held cs) -> total + sum d (held cs) <= USIZE_MAX ->
  total_bytes_from total cs = Ok (total + sum d (held cs)).
Proof using Type.
  intros Hc. revert total. induction Hc as [| c cs [_ Hd] Hc IH]; intros total Hb Hu; [cbn; by rewrite Z.add_0_r |].
  apply Forall_cons_1 in Hb as [Hb Hcs]. change (Forall (fun h => 0 <= held_bytes h) (held cs)) in Hcs.
  change (sum d (held (c :: cs))) with (bytes_in d (held_charge c) + sum d (held cs)) in *.
  rewrite (bytes_in_same d (held_charge c) Hd) in *. pose proof (sum_nonneg d _ Hcs). cbn [held_charge held_bytes] in *.
  cbn [total_bytes_from]. unfold checked_add_usize. rewrite (proj2 (Z.leb_le _ _)) by lia. cbn [or_error mbind res_bind].
  rewrite IH by (done || lia). f_equal. lia.
Qed.

Lemma total_bytes_ok id d cs l R H D :
  of_owner id d cs -> in_balance l R (held cs ++ H) D ->
  total_bytes cs = Ok (sum d (held cs)) /\ 0 <= sum d (held cs).
Proof using Type.
  intros Hc [F _]. assert (Forall (fun h => 0 <= held_bytes h) (held cs)) as Hb by (apply (Forall_app _ (held cs) H), F).
  pose proof (sum_nonneg d _ Hb) as Hs. split; [| done]. unfold total_bytes. rewrite (total_bytes_from_ok id d); [done.. |].
  fair_facts F. rewrite !sum_app in *. pose proof (sum_nonneg LuaHeap _ Hb). pose proof (sum_nonneg Host _ Hb).
  assert (Forall (fun h => 0 <= held_bytes h) H) as HH by (apply (Forall_app _ (held cs) H), F3).
  pose proof (sum_nonneg LuaHeap _ HH). pose proof (sum_nonneg Host _ HH). destruct d; lia.
Qed.

(** ** Dropping a collection *)

Lemma drop_charges_spec cs l R H D :
  in_balance l R (held cs ++ H) D -> spec (drop_charges cs) l (fun _ l' => in_balance l' R H D) (fun _ _ => False).
Proof.
  revert l. induction cs as [| c cs IH]; intros l HB; [by apply spec_ret |].
  eapply spec_seq; [eapply drop_charge_spec, HB | | done]. intros [] l' [HB' _]. by apply IH.
Qed.

Lemma release_entries_spec cs l ts :
  lent (admission l) (tokens (held cs) ++ ts) ->
  spec (release_entries cs) l (fun _ l' => inner l' = inner l /\ external_admission l' = external_admission l /\ lent (admission l') ts)
    (fun _ _ => False).
Proof.
  revert l. induction cs as [| c cs IH]; intros l L; [by apply spec_ret |].
  cbn [release_entries]. apply spec_bind. eapply (spec_release _ _ _ (tokens (held cs) ++ ts)).
  { change (lent (admission l) ((token_of (held_charge c) ++ tokens (held cs)) ++ ts)) in L. rewrite <- app_assoc in L. exact L. }
  intros l1 Hi He L1. eapply spec_weaken; [by apply IH | | done]. intros _ l2 (? & ? & ?). repeat split; congruence.
Qed.

(** ** Growing a collection *)

Lemma held_app cs cs' : held (cs ++ cs') = held cs ++ held cs'.
Proof using Type. apply fmap_app. Qed.

Lemma same_owner_spec id d cs c :
  of_owner id d cs -> ch_ledger c = id -> same_owner cs c = true -> exists d', of_owner id d' (cs ++ [c]).
Proof using Type.
  intros Hc Hid Hs. destruct Hc as [| first cs [Hf Hd] Hc]; [exists (ch_domain c); by repeat constructor |].
  cbn in Hs. apply andb_prop in Hs as [_ Hs%bool_decide_eq_true]. exists d.
  constructor; [done |]. apply Forall_app. split; [done |]. constructor; [| done]. split; [done | congruence].
Qed.

(** The charge is in the collection, or comes back with the reason. *)
Lemma try_push_spec id d cs c l R H D :
  of_owner id d cs -> ch_ledger c = id -> in_balance l R H D ->
  spec (try_push size_of_charge cs c) l
    (fun r l' => in_balance l' R H D /\ inner l' = inner l /\
       match r with
       | inl cs' => cs' = cs ++ [c] /\ exists d', of_owner id d' cs'
       | inr (e, c') => c' = c /\ (e = LedgerInvariant /\ same_owner cs c = false \/ e = AllocationFailed)
       end) (fun _ _ => False).
Proof.
  intros Hc Hid HB. unfold try_push. destruct (same_owner cs c) eqn:Hs; cbn [negb]; [| apply spec_ret; split; [done |]; auto].
  destruct HB as [F L]. apply spec_bind. eapply spec_room; [exact L |]. intros [] l' Hi _ L'; apply spec_ret.
  - split; [split; [by rewrite Hi | exact L'] |]. split; [done |]. split; [done |]. exact (same_owner_spec _ _ _ _ Hc Hid Hs).
  - split; [split; [by rewrite Hi | exact L'] |]. auto.
Qed.

Lemma try_absorb_spec id d d' cs cs' l R H D :
  of_owner id d cs -> of_owner id d' cs' -> in_balance l R H D ->
  spec (try_absorb size_of_charge cs cs') l
    (fun r l' => in_balance l' R H D /\ r = (cs ++ cs', []) /\ exists d', of_owner id d' (cs ++ cs'))
    (fun e l' => in_balance l' R H D /\ inner l' = inner l).
Proof.
  intros Hc Hc' [F L]. unfold try_absorb.
  destruct (match cs' with c :: _ => _ | [] => _ end) eqn:Hs; [by apply spec_fail |].
  apply spec_bind. eapply spec_room; [exact L |]. intros [] l' Hi _ L'; [apply spec_ret | apply spec_fail];
    (split; [split; [by rewrite Hi | exact L'] |]); [| done]. split; [done |].
  destruct Hc' as [| c cs' [Hid Hd] Hc']; [exists d; by rewrite app_nil_r |].
  apply negb_false_iff in Hs. destruct (same_owner_spec id d cs c Hc Hid Hs) as [d1 H1].
  exists d1. apply Forall_app in H1 as [H1 [[_ Hc1] _]%Forall_cons_1]. apply Forall_app. split; [done |].
  constructor; [done |]. eapply Forall_impl; [| exact Hc']. intros x [? ?]. split; congruence.
Qed.

(** ** Normalisation *)

(** What is prepared: nothing has happened but the host's admission of the new token. *)
Definition prepared_for (cs : AllocationCharges) actual id d l l' R H (p : PreparedNormalization) : Prop :=
  let total := sum d (held cs) in
  match p with
  | Equal => actual = total /\ l' = l
  | Zero => actual = 0 /\ l' = l
  | Partial p =>
      0 < actual <= total /\ pn_ledger p = id /\ pn_actual p = actual /\ pn_domain p = d /\ pn_excess p = total - actual /\
      pn_before p = inner l /\ inner l' = inner l /\
      lent (admission l') ((pn_token p, actual) :: tokens (R ++ held cs ++ H))
  end.

Lemma prepare_normalize_spec id d cs actual l R H D :
  of_owner id d cs -> in_balance l R (held cs ++ H) D -> 0 <= actual ->
  spec (prepare_normalize size_of_charge cs actual) l (fun p l' => prepared_for cs actual id d l l' R H p)
    (fun e l' => in_balance l' R (held cs ++ H) D /\ inner l' = inner l /\
       (e = ArithmeticOverflow /\ sum d (held cs) < actual \/ e = AllocationFailed)).
Proof.
  intros Hc HB Ha. destruct (total_bytes_ok id d cs l R H D Hc HB) as [Ht Hs]. unfold prepare_normalize.
  rewrite Ht. set (total := sum d (held cs)) in *. apply spec_bind. cbn [lift spec]. unfold spec at 1, lift.
  destruct (Z.ltb_spec total actual); [apply spec_fail; auto |].
  destruct (Z.eqb_spec actual total); [by apply spec_ret |].
  destruct (Z.eqb_spec actual 0); [by apply spec_ret |].
  destruct Hc as [| c cs [Hid Hd] Hc]; [unfold total in *; cbn in *; lia |].
  apply spec_get_inner. rewrite Hd. pose proof HB as [F L].
  destruct (fair_shrink (inner l) R H D (held (c :: cs)) (Build_Held actual d None)) as (Hx & Hy & _); [done | |
    cbn [held_bytes held_domain]; fold total; lia |].
  { eapply of_owner_held. constructor; [by split | exact Hc]. }
  cbn [held_bytes held_domain] in Hx, Hy. fold total in Hx, Hy.
  rewrite (fair_sound _ _ _ _ F), (proj2 (Z.ltb_ge (committed _) _)), (proj2 (Z.ltb_ge (domain_balance _ _) _)) by lia. cbn [orb].
  apply spec_bind. eapply spec_admit; [lia | exact L |]. intros [t |] l1 Hi He L1.
  2: { apply spec_fail. split; [split; [by rewrite Hi | exact L1] |]. auto. }
  eapply (spec_seq _ _ _ (fun _ l2 => inner l2 = inner l /\ lent (admission l2) ((t, actual) :: tokens (R ++ held (c :: cs) ++ H))));
    [| intros [] l2 [Hi2 L2]; apply spec_ret; cbn; fold total; repeat split; try done; lia | exact (fun _ _ X => X)].
  eapply (spec_dropping _ _ _ _ _ (fun e l2 => e = AllocationFailed /\ inner l2 = inner l /\
    lent (admission l2) ((t, actual) :: tokens (R ++ held (c :: cs) ++ H)))).
  - apply spec_bind. eapply spec_room; [exact L1 |]. intros [] l2 Hi2 _ L2; cbn [negb]; rewrite Hi in Hi2;
      [| by apply spec_fail]. apply spec_get_inner. rewrite Hi2.
    unfold same_balances. rewrite (fair_sound _ _ _ _ F), !Z.eqb_refl. by apply spec_ret.
  - intros e l2 (-> & Hi2 & L2). eapply (spec_release _ _ _ (tokens (R ++ held (c :: cs) ++ H))); [exact L2 |].
    intros l3 Hi3 _ L3. rewrite Hi2 in Hi3. split; [split; [by rewrite Hi3 | exact L3] |]. auto.
Qed.

(** With nothing in between, the commit settles the difference. *)
Lemma commit_normalize_spec id d cs actual l l' R H D p :
  of_owner id d cs -> in_balance l R (held cs ++ H) D -> prepared_for cs actual id d l l' R H p ->
  spec (commit_normalize cs p) l'
    (fun cs' l'' => in_balance l'' R (held cs' ++ H) D /\ of_owner id d cs' /\ sum d (held cs') = actual)
    (fun _ _ => False).
Proof.
  intros Hc HB Hp. destruct p as [| | p]; cbn [prepared_for commit_normalize] in *.
  - destruct Hp as [-> ->]. by apply spec_ret.
  - destruct Hp as [-> ->]. eapply spec_seq; [by apply drop_charges_spec | | done]. intros [] l1 HB1. apply spec_ret.
    split; [exact HB1 |]. by split; [constructor |].
  - destruct Hp as (Ha & Hid & Hact & Hd & Hx & Hb & Hi & L). pose proof HB as [F _].
    pose proof (fair_shrink (inner l) R H D (held cs) (Build_Held actual d (Some (pn_token p))) F (of_owner_held _ _ _ Hc)) as (_ & _ & F').
    { cbn. lia. }
    eapply spec_seq; [apply (release_entries_spec _ _ ((pn_token p, actual) :: tokens (R ++ H))) | | done].
    { eapply lent_permutation; [| exact L]. rewrite !tokens_app, (Permutation_app_comm (tokens R)), <- !app_assoc.
      rewrite Permutation_middle. apply Permutation_app_head. by rewrite Permutation_app_comm. }
    intros [] l1 (Hi1 & _ & L1). rewrite Hi in Hi1.
    apply spec_bind. unfold spec at 1. erewrite drop_all_emptied; [| rewrite Hi1; exact F].
    apply spec_get_inner, spec_set_inner, spec_ret. rewrite Hb, Hx, Hact, Hd, Hid, Hi1.
    split; [split |]; [| |].
    + exact F'.
    + eapply lent_permutation; [| exact L1]. cbn [held fmap list_fmap app]. by rewrite <- Permutation_middle.
    + split; [by repeat constructor |]. cbn. rewrite bytes_in_same by done. cbn. lia.
Qed.

Lemma normalize_spec id d cs actual l R H D :
  of_owner id d cs -> in_balance l R (held cs ++ H) D -> 0 <= actual ->
  spec (normalize size_of_charge cs actual) l
    (fun cs' l' => in_balance l' R (held cs' ++ H) D /\ of_owner id d cs' /\ sum d (held cs') = actual)
    (fun e l' => in_balance l' R (held cs ++ H) D /\ inner l' = inner l /\
       (e = ArithmeticOverflow /\ sum d (held cs) < actual \/ e = AllocationFailed)).
Proof.
  intros Hc HB Ha. eapply spec_seq; [by apply prepare_normalize_spec | | exact (fun _ _ X => X)].
  intros p l1 Hp. cbn beta in Hp. eapply spec_weaken; [eapply commit_normalize_spec; [exact Hc | exact HB | exact Hp] | done | by intros ? ? []].
Qed.
End Collections.
