(* ===== verification/AllocWorld.v ===== *)
(** A ledger with everything that it gave out (alloc.rs): whatever the callers do with
    their reservations, charges and collections, the ledger stays balanced. *)

From Stdlib Require Import ZArith Lia.
From stdpp Require Import base list numbers relations strings.
From S2P Require Import Prelude Table Alloc AllocBalance AllocTheorems AllocNormalize.

Local Open Scope Z_scope.

(** ** The world of a ledger

    The values that own bytes of it, wherever they are kept; the bytes that [commit]
    leaves committed without an owner. *)
Record World (A : Type) := {
  w_ledger : AllocationLedger A;
  w_reservations : list Reservation;
  w_charges : list AllocationCharge;
  w_collections : list AllocationCharges;
  w_paired : list PairedLuaCharges;
  w_detached : AllocationDomain -> Z
}.
Arguments Build_World {_}.
Arguments w_ledger {_}.
Arguments w_reservations {_}.
Arguments w_charges {_}.
Arguments w_collections {_}.
Arguments w_paired {_}.
Arguments w_detached {_}.

#[export] Instance World_eta A : Eta (World A) := fun w =>
  Build_World (w_ledger w) (w_reservations w) (w_charges w) (w_collections w) (w_paired w) (w_detached w).

Inductive LedgerOperation :=
  | SetLimit (n : Z) | FailOnceAt (p : FailPoint) | FailOnceAtOrdinal (n : Z) | ObserveSharedRss (n : Z)
  | Checkpoint (p : FailPoint)
  | ReserveAt (bytes : Z) (d : AllocationDomain) (p : option FailPoint) (at_site : AllocationSite)
  | ReserveVec (additional size : Z) (p : FailPoint) (at_site : AllocationSite)
  | ReserveExcess (bytes : Z) (p : FailPoint) (at_site : AllocationSite)
  | DropReservation (i : nat) | CommitCharge (i : nat) | Commit (i : nat)
  | DropCharge (i : nat) | Refund (bytes : Z)
  | NewCollection | TryPush (i k : nat) | PushPrepared (i k : nat) | TryAbsorb (k j : nat)
  | Normalize (k : nat) (actual : Z) | DropCollection (k : nat)
  | NewPaired | ReplaceFirst (i k : nat) | ReplaceSecond (i k : nat) | ClearSecond (k : nat) | DropPaired (k : nat).

Section World.
Context {A : Type} {host : AllocationAdmission A} {rust : RustAllocator A}.

(** The layout of a charge, and the name of this ledger. *)
Context (size_of_charge id : Z).

Notation World := (World A).
Notation M := (ST (AllocationLedger A) VmError).

Definition with_ledger : World -> AllocationLedger A -> World := ltac:(set_field (@w_ledger A)).
Definition with_reservations : World -> list Reservation -> World := ltac:(set_field (@w_reservations A)).
Definition with_charges : World -> list AllocationCharge -> World := ltac:(set_field (@w_charges A)).
Definition with_collections : World -> list AllocationCharges -> World := ltac:(set_field (@w_collections A)).
Definition with_paired : World -> list PairedLuaCharges -> World := ltac:(set_field (@w_paired A)).
Definition with_detached : World -> (AllocationDomain -> Z) -> World := ltac:(set_field (@w_detached A)).

Definition world_new (l : AllocationLedger A) : World := Build_World l [] [] [] [] (fun _ => 0).

(** [m] runs on the ledger; what it returns is put away by [k]. *)
Definition after {B} (w : World) (m : M B) (k : World -> res VmError B -> World) : World :=
  let '(r, l) := m (w_ledger w) in k (with_ledger w l) r.

(** An operation takes its arguments out of the world. *)
Definition taking {X} (o : option X) (w : World) (k : X -> World) : World := match o with Some x => k x | None => w end.

Definition keep_reservation (w : World) (r : res VmError Reservation) : World :=
  match r with Ok r => with_reservations w (r :: w_reservations w) | _ => w end.
Definition keep_charge (w : World) (r : res VmError AllocationCharge) : World :=
  match r with Ok c => with_charges w (c :: w_charges w) | _ => w end.
Definition keep_collection (cs : AllocationCharges) (w : World) : World := with_collections w (cs :: w_collections w).
Definition keep_paired (w : World) (r : res VmError PairedLuaCharges) : World :=
  match r with Ok p => with_paired w (p :: w_paired w) | _ => w end.

Definition run_operation (op : LedgerOperation) (w : World) : World :=
  match op with
  | SetLimit n => after w (set_limit n) (fun w _ => w)
  | FailOnceAt p => after w (fail_once_at p) (fun w _ => w)
  | FailOnceAtOrdinal n => after w (fail_once_at_ordinal n) (fun w _ => w)
  | ObserveSharedRss n => after w (observe_shared_rss n) (fun w _ => w)
  | Checkpoint p => after w (checkpoint p) (fun w _ => w)
  | ReserveAt b d p s => after w (reserve_at b d p s) keep_reservation
  | ReserveVec n size p s => after w (reserve_vec n size p s) keep_reservation
  | ReserveExcess b p s => after w (reserve_lua_backing_excess b p s) keep_reservation
  | DropReservation i => taking (w_reservations w !! i) w (fun r =>
      after (with_reservations w (delete i (w_reservations w))) (drop_reservation r) (fun w _ => w))
  | CommitCharge i => taking (w_reservations w !! i) w (fun r =>
      after (with_reservations w (delete i (w_reservations w))) (commit_charge id r) keep_charge)
  | Commit i => taking (w_reservations w !! i) w (fun r =>
      after (with_reservations w (delete i (w_reservations w))) (commit id r) (fun w result =>
        match result with Ok _ => with_detached w (more (w_detached w) (held_reservation r)) | _ => w end))
  | DropCharge i => taking (w_charges w !! i) w (fun c =>
      after (with_charges w (delete i (w_charges w))) (drop_charge c) (fun w _ => w))
  | Refund b => after w (refund b) (fun w r => match r with Ok _ => with_detached w (less (w_detached w) b Host) | _ => w end)
  | NewCollection => keep_collection [] w
  | TryPush i k => taking (w_charges w !! i) w (fun c => taking (w_collections w !! k) w (fun cs =>
      after (with_collections (with_charges w (delete i (w_charges w))) (delete k (w_collections w))) (try_push size_of_charge cs c)
        (fun w r => match r with Ok (inl cs') => keep_collection cs' w | _ => keep_charge (keep_collection cs w) (Ok c) end)))
  | PushPrepared i k => taking (w_charges w !! i) w (fun c => taking (w_collections w !! k) w (fun cs =>
      keep_collection (push_prepared cs c) (with_collections (with_charges w (delete i (w_charges w))) (delete k (w_collections w)))))
  | TryAbsorb k j => taking (w_collections w !! k) w (fun cs =>
      let w1 := with_collections w (delete k (w_collections w)) in
      taking (w_collections w1 !! j) w (fun cs' =>
        after (with_collections w1 (delete j (w_collections w1))) (try_absorb size_of_charge cs cs') (fun w r =>
          match r with
          | Ok (cs, cs') => keep_collection cs (keep_collection cs' w)
          | _ => keep_collection cs (keep_collection cs' w)
          end)))
  | Normalize k actual => taking (w_collections w !! k) w (fun cs =>
      after (with_collections w (delete k (w_collections w))) (normalize size_of_charge cs actual) (fun w r =>
        keep_collection match r with Ok cs' => cs' | _ => cs end w))
  | DropCollection k => taking (w_collections w !! k) w (fun cs =>
      after (with_collections w (delete k (w_collections w))) (drop_charges cs) (fun w _ => w))
  | NewPaired => keep_paired w (Ok paired_new)
  | ReplaceFirst i k => taking (w_charges w !! i) w (fun c => taking (w_paired w !! k) w (fun p =>
      after (with_paired (with_charges w (delete i (w_charges w))) (delete k (w_paired w))) (replace_first p c) keep_paired))
  | ReplaceSecond i k => taking (w_charges w !! i) w (fun c => taking (w_paired w !! k) w (fun p =>
      after (with_paired (with_charges w (delete i (w_charges w))) (delete k (w_paired w))) (replace_second p c) keep_paired))
  | ClearSecond k => taking (w_paired w !! k) w (fun p =>
      after (with_paired w (delete k (w_paired w))) (clear_second p) keep_paired)
  | DropPaired k => taking (w_paired w !! k) w (fun p =>
      after (with_paired w (delete k (w_paired w))) (drop_paired p) (fun w _ => w))
  end.

(** What the callers see to: sizes are not negative, fewer than 2^64 attempts, a refund is
    of what [commit] left, a prepared collection is of the charge's owner, a pair of the
    Lua heap; and a ledger with an admission of its own, which counts nothing, is the only
    one whose [commit] succeeds. *)
Definition allowed (lent : A -> list (Z * Z) -> Prop) (op : LedgerOperation) (w : World) : Prop :=
  match op with
  | ReserveAt b _ _ _ | ReserveExcess b _ _ | Normalize _ b => 0 <= b
  | ReserveVec n size _ _ => attempts_left (w_ledger w) /\ 0 <= n /\ 0 <= size
  | Commit _ => external_admission (w_ledger w) = true \/ forall a ts, lent a ts
  | Refund b => 0 <= b <= w_detached w Host
  | PushPrepared i k => forall c cs, w_charges w !! i = Some c -> w_collections w !! k = Some cs -> same_owner cs c = true
  | ReplaceFirst i _ | ReplaceSecond i _ => forall c, w_charges w !! i = Some c -> ch_domain c = LuaHeap
  | _ => True
  end.

(** An operation, or something outside that keeps what the host has lent. *)
Definition ledger_step (lent : A -> list (Z * Z) -> Prop) (w w' : World) : Prop :=
  (exists op, allowed lent op w /\ w' = run_operation op w) \/
  (exists a, (forall ts, lent (admission (w_ledger w)) ts -> lent a ts) /\
     w' = with_ledger w {| inner := inner (w_ledger w); admission := a; external_admission := external_admission (w_ledger w) |}).

(** All that is live besides reservations. *)
Definition live (w : World) : list Held :=
  held (w_charges w) ++ held (concat (w_collections w)) ++ concat (held_paired <$> w_paired w).

(** ** The invariant

    [in_hand rs hs w]: besides what the world keeps, the reservations [rs] and the
    charges [hs] are in the hands of an operation. *)
Record in_hand (lent : A -> list (Z * Z) -> Prop) (rs hs : list Held) (w : World) : Prop := {
  kept_balance : in_balance (lent := lent) (w_ledger w) (rs ++ (held_reservation <$> w_reservations w)) (hs ++ live w) (w_detached w);
  kept_charges : Forall (fun c => ch_ledger c = id) (w_charges w);
  kept_collections : Forall (fun cs => exists d, of_owner id d cs) (w_collections w)
}.
Definition well_kept (lent : A -> list (Z * Z) -> Prop) : World -> Prop := in_hand lent [] [].
End World.

Section Kept.
Context {A : Type} {host : AllocationAdmission A} {rust : RustAllocator A} {lent : A -> list (Z * Z) -> Prop} {laws : AdmissionLaws A lent}.
Context (size_of_charge id : Z).
#[local] Set Default Proof Using "Type*".

Notation World := (World A).
Notation M := (ST (AllocationLedger A) VmError).
Notation in_balance := (in_balance (lent := lent)).
Notation well_kept := (well_kept id lent).
Notation in_hand := (in_hand id lent).
Notation reserved_by w := (held_reservation <$> w_reservations w).
Implicit Types (w : World) (l : AllocationLedger A).

(** Running [m] and putting its result away. *)
Lemma after_spec {B} w (m : M B) (k : World -> res VmError B -> World) Q E :
  spec m (w_ledger w) Q E ->
  (forall b l, Q b l -> well_kept (k (with_ledger w l) (Ok b))) ->
  (forall e l, E e l -> well_kept (k (with_ledger w l) (Err e))) ->
  well_kept (after w m k).
Proof using Type. unfold spec, after. intros Hm HQ HE. destruct (m (w_ledger w)) as [[b | e | c] l]; [by apply HQ | by apply HE | done]. Qed.

Lemma taking_spec {X} (o : option X) w (k : X -> World) :
  well_kept w -> (forall x, o = Some x -> well_kept (k x)) -> well_kept (taking o w k).
Proof using Type. destruct o; cbn; auto. Qed.

Lemma delete_kept {X} (P : X -> Prop) (xs : list X) i : Forall P xs -> Forall P (delete i xs).
Proof using Type. intros HP. apply Forall_delete. exact HP. Qed.

(** ** What is live, when something is taken out *)

Lemma live_charge w i c :
  w_charges w !! i = Some c -> live w ≡ₚ held_charge c :: live (with_charges w (delete i (w_charges w))).
Proof using Type.
  intros Hi%delete_Permutation. unfold live. cbn [with_charges w_collections w_charges w_paired].
  rewrite app_comm_cons. apply Permutation_app_tail. by apply (fmap_Permutation held_charge) in Hi.
Qed.

Lemma live_collection w k cs :
  w_collections w !! k = Some cs -> live w ≡ₚ held cs ++ live (with_collections w (delete k (w_collections w))).
Proof using Type.
  intros Hk%delete_Permutation. unfold live. cbn [with_collections w_collections w_charges w_paired].
  etransitivity; [| apply Permutation_app_swap_app]. apply Permutation_app_head. rewrite app_assoc. apply Permutation_app_tail.
  rewrite <- held_app. apply (fmap_Permutation held_charge). change (cs ++ concat ?l) with (concat (cs :: l)).
  generalize dependent (delete k (w_collections w)). intros ks Hk. by rewrite Hk.
Qed.

Lemma live_paired w k p :
  w_paired w !! k = Some p -> live w ≡ₚ held_paired p ++ live (with_paired w (delete k (w_paired w))).
Proof using Type.
  intros Hk%delete_Permutation. unfold live. cbn [with_paired w_collections w_charges w_paired].
  etransitivity; [| apply Permutation_app_swap_app]. apply Permutation_app_head.
  etransitivity; [| apply Permutation_app_swap_app]. apply Permutation_app_head.
  apply (fmap_Permutation held_paired) in Hk. generalize dependent (delete k (w_paired w)). intros ps Hk. by rewrite Hk.
Qed.

Lemma live_keep_collection w cs : live (keep_collection cs w) ≡ₚ held cs ++ live w.
Proof using Type. unfold live. cbn [keep_collection with_collections w_collections w_charges w_paired concat]. rewrite held_app, <- app_assoc. apply Permutation_app_swap_app. Qed.

Lemma live_keep_paired w p : live (keep_paired w (Ok p)) ≡ₚ held_paired p ++ live w.
Proof using Type.
  unfold live. cbn [keep_paired with_paired w_collections w_charges w_paired]. rewrite fmap_cons. cbn [concat].
  etransitivity; [| apply Permutation_app_swap_app]. apply Permutation_app_head. apply Permutation_app_swap_app.
Qed.

(** ** Taking out and putting away *)

Lemma in_hand_ledger rs hs rs' hs' w l :
  in_hand rs hs w -> in_balance l (rs' ++ reserved_by w) (hs' ++ live w) (w_detached w) -> in_hand rs' hs' (with_ledger w l).
Proof using Type. intros [_ Hc Hk] HB. by split. Qed.

Lemma in_hand_permute rs rs' hs hs' w : in_hand rs hs w -> rs ≡ₚ rs' -> hs ≡ₚ hs' -> in_hand rs' hs' w.
Proof. intros [HB Hc Hk] Hr Hh. split; [| done..]. eapply balanced_permute; [exact HB | by rewrite Hr | by rewrite Hh]. Qed.

Lemma take_reservation rs hs w i r :
  in_hand rs hs w -> w_reservations w !! i = Some r ->
  in_hand (held_reservation r :: rs) hs (with_reservations w (delete i (w_reservations w))).
Proof.
  intros [HB Hc Hk] Hi%delete_Permutation. split; [| done..]. eapply balanced_permute; [exact HB | | done].
  apply (fmap_Permutation held_reservation) in Hi. cbn [with_reservations w_reservations app]. rewrite Permutation_middle.
  by apply Permutation_app_head.
Qed.

Lemma take_charge rs hs w i c :
  in_hand rs hs w -> w_charges w !! i = Some c ->
  in_hand rs (held_charge c :: hs) (with_charges w (delete i (w_charges w))) /\ ch_ledger c = id.
Proof.
  intros [HB Hc Hk] Hi. split; [| by eapply Forall_lookup_1 in Hc]. split; [| by apply delete_kept | done].
  eapply balanced_permute; [exact HB | done |]. apply live_charge in Hi. cbn [app]. rewrite Permutation_middle.
  by apply Permutation_app_head.
Qed.

Lemma take_collection rs hs w k cs :
  in_hand rs hs w -> w_collections w !! k = Some cs ->
  in_hand rs (held cs ++ hs) (with_collections w (delete k (w_collections w))) /\ exists d, of_owner id d cs.
Proof.
  intros [HB Hc Hk] Hi. split; [| by eapply Forall_lookup_1 in Hk]. split; [| done | by apply delete_kept].
  eapply balanced_permute; [exact HB | done |]. apply live_collection in Hi. rewrite <- app_assoc.
  etransitivity; [| apply Permutation_app_swap_app]. by apply Permutation_app_head.
Qed.

Lemma take_paired rs hs w k p :
  in_hand rs hs w -> w_paired w !! k = Some p ->
  in_hand rs (held_paired p ++ hs) (with_paired w (delete k (w_paired w))).
Proof.
  intros [HB Hc Hk] Hi. split; [| done..].
  eapply balanced_permute; [exact HB | done |]. apply live_paired in Hi. rewrite <- app_assoc.
  etransitivity; [| apply Permutation_app_swap_app]. by apply Permutation_app_head.
Qed.

Lemma put_reservation rs hs w r : in_hand (held_reservation r :: rs) hs w -> in_hand rs hs (keep_reservation w (Ok r)).
Proof.
  intros [HB Hc Hk]. split; [| done..]. eapply balanced_permute; [exact HB | | done]. cbn [app].
  rewrite Permutation_middle. done.
Qed.

Lemma put_charge rs hs w c : in_hand rs (held_charge c :: hs) w -> ch_ledger c = id -> in_hand rs hs (keep_charge w (Ok c)).
Proof.
  intros [HB Hc Hk] Hid. split; [| by constructor | done]. eapply balanced_permute; [exact HB | done |]. cbn [app].
  rewrite Permutation_middle. done.
Qed.

Lemma put_collection rs hs w cs d : in_hand rs (held cs ++ hs) w -> of_owner id d cs -> in_hand rs hs (keep_collection cs w).
Proof.
  intros [HB Hc Hk] Hd. split; [| done | constructor; [by exists d | done]]. eapply balanced_permute; [exact HB | done |].
  rewrite live_keep_collection, <- app_assoc. apply Permutation_app_swap_app.
Qed.

Lemma put_paired rs hs w p : in_hand rs (held_paired p ++ hs) w -> in_hand rs hs (keep_paired w (Ok p)).
Proof.
  intros [HB Hc Hk]. split; [| done..]. eapply balanced_permute; [exact HB | done |].
  rewrite live_keep_paired, <- app_assoc. apply Permutation_app_swap_app.
Qed.

(** ** Every operation keeps the invariant *)

(** The ledger moves from what is in hand to what its operation leaves. *)
Ltac on_ledger_of H := eapply in_hand_ledger; [exact H |].

Lemma setting_keeps w s : well_kept w -> balances s = balances (inner (w_ledger w)) ->
  well_kept (with_ledger w {| inner := s; admission := admission (w_ledger w); external_admission := external_admission (w_ledger w) |}).
Proof. intros Hw Hs. on_ledger_of Hw. apply balanced_set; [by destruct Hw | done]. Qed.

Lemma checkpoint_keeps w p : well_kept w -> well_kept (after w (checkpoint p) (fun w _ => w)).
Proof.
  intros Hw. eapply after_spec; [eapply checkpoint_spec, (kept_balance _ _ _ _ _ Hw) | |].
  - intros _ l ->. by destruct w.
  - intros e l [HB _]. by on_ledger_of Hw.
Qed.

(** A reservation, or nothing. *)
Lemma reserving_keeps w (m : M Reservation) :
  well_kept w ->
  (forall R H D, in_balance (w_ledger w) R H D ->
     spec m (w_ledger w) (fun r l => in_balance l (held_reservation r :: R) H D) (fun _ l => in_balance l R H D)) ->
  well_kept (after w m keep_reservation).
Proof.
  intros Hw Hm. eapply after_spec; [apply Hm, (kept_balance _ _ _ _ _ Hw) | |].
  - intros r l HB. apply put_reservation. by on_ledger_of Hw.
  - intros e l HB. by on_ledger_of Hw.
Qed.

Lemma drop_reservation_keeps w i : well_kept w -> well_kept (run_operation size_of_charge id (DropReservation i) w).
Proof.
  intros Hw. apply taking_spec; [done |]. intros r Hr%(take_reservation _ _ _ _ _ Hw).
  eapply after_spec; [apply drop_reservation_spec, (kept_balance _ _ _ _ _ Hr) | | done]. intros [] l HB. by on_ledger_of Hr.
Qed.

Lemma commit_charge_keeps w i : well_kept w -> well_kept (run_operation size_of_charge id (CommitCharge i) w).
Proof.
  intros Hw. apply taking_spec; [done |]. intros r Hr%(take_reservation _ _ _ _ _ Hw).
  eapply after_spec; [apply commit_charge_spec, (kept_balance _ _ _ _ _ Hr) | | done]. intros c l (HB & _ & Hc & _).
  apply put_charge; [| exact Hc]. by on_ledger_of Hr.
Qed.

Lemma commit_keeps_kept w i : well_kept w -> allowed lent (Commit i) w -> well_kept (run_operation size_of_charge id (Commit i) w).
Proof.
  intros Hw Ha. apply taking_spec; [done |]. intros r Hr%(take_reservation _ _ _ _ _ Hw).
  eapply after_spec; [apply commit_spec; [apply (kept_balance _ _ _ _ _ Hr) | exact Ha] | |].
  - intros [] l HB. destruct Hr as [_ Hc Hk]. by split.
  - intros e l (_ & _ & HB). by on_ledger_of Hr.
Qed.

Lemma drop_charge_keeps w i : well_kept w -> well_kept (run_operation size_of_charge id (DropCharge i) w).
Proof.
  intros Hw. apply taking_spec; [done |]. intros c [Hc _]%(take_charge _ _ _ _ _ Hw).
  eapply after_spec; [apply drop_charge_spec, (kept_balance _ _ _ _ _ Hc) | | done]. intros [] l [HB _]. by on_ledger_of Hc.
Qed.

Lemma refund_keeps w b : well_kept w -> 0 <= b <= w_detached w Host -> well_kept (run_operation size_of_charge id (Refund b) w).
Proof.
  intros Hw Hb. eapply after_spec; [apply refund_domain_spec; [apply (kept_balance _ _ _ _ _ Hw) | exact Hb] | | done].
  intros [] l HB. destruct Hw as [_ Hc Hk]. by split.
Qed.

Lemma try_push_keeps w i k : well_kept w -> well_kept (run_operation size_of_charge id (TryPush i k) w).
Proof.
  intros Hw. apply taking_spec; [done |]. intros c Hi. apply taking_spec; [done |]. intros cs Hk.
  destruct (take_charge _ _ _ _ _ Hw Hi) as [Hc Hid]. destruct (take_collection _ _ _ k _ Hc Hk) as [Hcs [d Hd]].
  eapply after_spec; [eapply try_push_spec; [exact Hd | exact Hid | apply (kept_balance _ _ _ _ _ Hcs)] | | done].
  intros [cs' | [e c']] l (HB & _ & Hr).
  - destruct Hr as [-> [d' Hd']]. eapply put_collection; [| exact Hd']. on_ledger_of Hcs.
    eapply balanced_permute; [exact HB | done |]. cbn. rewrite held_app, app_nil_r. done.
  - apply put_charge; [| exact Hid]. eapply put_collection; [| exact Hd]. by on_ledger_of Hcs.
Qed.

Lemma push_prepared_keeps w i k :
  well_kept w -> allowed lent (PushPrepared i k) w -> well_kept (run_operation size_of_charge id (PushPrepared i k) w).
Proof.
  intros Hw Ha. apply taking_spec; [done |]. intros c Hi. apply taking_spec; [done |]. intros cs Hk.
  destruct (take_charge _ _ _ _ _ Hw Hi) as [Hc Hid]. destruct (take_collection _ _ _ k _ Hc Hk) as [Hcs [d Hd]].
  destruct (same_owner_spec _ _ _ _ Hd Hid (Ha _ _ Hi Hk)) as [d' Hd'].
  eapply put_collection; [| exact Hd']. eapply in_hand_permute; [exact Hcs | done |].
  unfold push_prepared. rewrite held_app, app_nil_r. done.
Qed.

Lemma try_absorb_keeps w k j : well_kept w -> well_kept (run_operation size_of_charge id (TryAbsorb k j) w).
Proof.
  intros Hw. apply taking_spec; [done |]. intros cs Hk. destruct (take_collection _ _ _ k _ Hw Hk) as [Hcs [d Hd]].
  cbn zeta. apply taking_spec; [done |]. intros cs' Hj. destruct (take_collection _ _ _ j _ Hcs Hj) as [Hcs' [d' Hd']].
  eapply after_spec; [eapply try_absorb_spec; [exact Hd | exact Hd' | apply (kept_balance _ _ _ _ _ Hcs')] | |].
  - intros r l (HB & -> & d1 & H1). eapply put_collection; [| exact H1]. apply (put_collection _ _ _ [] LuaHeap); [| by constructor].
    on_ledger_of Hcs'. eapply balanced_permute; [exact HB | done |]. cbn. rewrite held_app, !app_nil_r.
    by rewrite (Permutation_app_comm (held cs)).
  - intros e l [HB _]. eapply put_collection; [| exact Hd]. eapply put_collection; [| exact Hd']. by on_ledger_of Hcs'.
Qed.

Lemma normalize_keeps w k actual :
  well_kept w -> 0 <= actual -> well_kept (run_operation size_of_charge id (Normalize k actual) w).
Proof.
  intros Hw Ha. apply taking_spec; [done |]. intros cs Hk. destruct (take_collection _ _ _ k _ Hw Hk) as [Hcs [d Hd]].
  eapply after_spec; [eapply normalize_spec; [exact Hd | | exact Ha] | |].
  - pose proof (kept_balance _ _ _ _ _ Hcs) as HB. rewrite app_nil_r in HB. exact HB.
  - intros cs' l (HB & Hd' & _). eapply put_collection; [| exact Hd']. on_ledger_of Hcs. by rewrite app_nil_r.
  - intros e l [HB _]. eapply put_collection; [| exact Hd]. on_ledger_of Hcs. by rewrite app_nil_r.
Qed.

Lemma drop_collection_keeps w k : well_kept w -> well_kept (run_operation size_of_charge id (DropCollection k) w).
Proof.
  intros Hw. apply taking_spec; [done |]. intros cs Hk. destruct (take_collection _ _ _ k _ Hw Hk) as [Hcs _].
  pose proof (kept_balance _ _ _ _ _ Hcs) as HB. rewrite app_nil_r in HB.
  eapply after_spec; [apply drop_charges_spec, HB | | done]. intros [] l HB'. by on_ledger_of Hcs.
Qed.

(** A pair takes a charge, or loses one. *)
Lemma replace_keeps (m : PairedLuaCharges -> AllocationCharge -> M PairedLuaCharges) w i k :
  well_kept w -> (forall c, w_charges w !! i = Some c -> ch_domain c = LuaHeap) ->
  (forall p c l R H D, in_balance l R (held_charge c :: held_paired p ++ H) D -> ch_domain c = LuaHeap ->
     spec (m p c) l (fun p' l' => in_balance l' R (held_paired p' ++ H) D) (fun _ _ => False)) ->
  well_kept (taking (w_charges w !! i) w (fun c => taking (w_paired w !! k) w (fun p =>
    after (with_paired (with_charges w (delete i (w_charges w))) (delete k (w_paired w))) (m p c) keep_paired))).
Proof.
  intros Hw Hl Hm. apply taking_spec; [done |]. intros c Hi. apply taking_spec; [done |]. intros p Hk.
  destruct (take_charge _ _ _ _ _ Hw Hi) as [Hc Hid]. pose proof (take_paired _ _ _ k _ Hc Hk) as Hp.
  eapply after_spec; [apply Hm; [| by apply Hl] | | done].
  - eapply balanced_permute; [exact (kept_balance _ _ _ _ _ Hp) | done |].
    rewrite <- app_assoc. symmetry. apply Permutation_middle.
  - intros p' l HB. apply put_paired. on_ledger_of Hp. by rewrite app_nil_r.
Qed.

Lemma clear_second_keeps w k : well_kept w -> well_kept (run_operation size_of_charge id (ClearSecond k) w).
Proof.
  intros Hw. apply taking_spec; [done |]. intros p Hp%(take_paired _ _ _ _ _ Hw).
  pose proof (kept_balance _ _ _ _ _ Hp) as HB. rewrite app_nil_r in HB.
  eapply after_spec; [apply clear_second_spec, HB | | done]. intros p' l [HB' _]. apply put_paired. on_ledger_of Hp.
  by rewrite app_nil_r.
Qed.

Lemma drop_paired_keeps w k : well_kept w -> well_kept (run_operation size_of_charge id (DropPaired k) w).
Proof.
  intros Hw. apply taking_spec; [done |]. intros p Hp%(take_paired _ _ _ _ _ Hw).
  pose proof (kept_balance _ _ _ _ _ Hp) as HB. rewrite app_nil_r in HB.
  eapply after_spec; [apply drop_paired_spec, HB | | done]. intros [] l HB'. by on_ledger_of Hp.
Qed.

Lemma operation_keeps op w : well_kept w -> allowed lent op w -> well_kept (run_operation size_of_charge id op w).
Proof.
  intros Hw Ha. destruct op; cbn [allowed] in Ha;
    try (by apply setting_keeps); try (by apply checkpoint_keeps).
  - apply reserving_keeps; [done |]. intros R H D HB. eapply spec_weaken; [by apply reserve_at_spec | |]; by intros ? ? [? _].
  - apply reserving_keeps; [done |]. intros R H D HB. destruct Ha as (? & ? & ?).
    eapply spec_weaken; [by apply reserve_vec_spec | | done]. by intros ? ? [? _].
  - apply reserving_keeps; [done |]. intros R H D HB. eapply spec_weaken; [by apply reserve_lua_backing_excess_spec | | done].
    by intros ? ? [? _].
  - by apply drop_reservation_keeps.
  - by apply commit_charge_keeps.
  - by apply commit_keeps_kept.
  - by apply drop_charge_keeps.
  - by apply refund_keeps.
  - apply (put_collection _ _ _ [] LuaHeap); [exact Hw | by constructor].
  - by apply try_push_keeps.
  - by apply push_prepared_keeps.
  - by apply try_absorb_keeps.
  - by apply normalize_keeps.
  - by apply drop_collection_keeps.
  - apply put_paired. destruct Hw as [HB Hc Hk]. split; [by apply paired_new_balanced | done..].
  - apply replace_keeps; [done.. |]. intros p c l R H D HB Hd. eapply spec_weaken; [by apply replace_first_spec | | done].
    by intros ? ? [? _].
  - apply replace_keeps; [done.. |]. intros p c l R H D HB Hd. eapply spec_weaken; [by apply replace_second_spec | | done].
    by intros ? ? [? _].
  - by apply clear_second_keeps.
  - by apply drop_paired_keeps.
Qed.

Lemma step_keeps w w' : ledger_step size_of_charge id lent w w' -> well_kept w -> well_kept w'.
Proof.
  intros [(op & Ha & ->) | (a & Ha & ->)] Hw; [by apply operation_keeps |].
  on_ledger_of Hw. destruct (kept_balance _ _ _ _ _ Hw) as [F L]. split; [exact F | by apply Ha].
Qed.

Lemma world_new_kept max a external : lent a [] -> well_kept (world_new (ledger_new max a external)).
Proof. intros Ha. split; [| constructor..]. split; [by apply fair_new | exact Ha]. Qed.

Definition reachable max a external w : Prop :=
  rtc (ledger_step size_of_charge id lent) (world_new (ledger_new max a external)) w.

Lemma reachable_kept max a external w : lent a [] -> reachable max a external w -> well_kept w.
Proof. 
  intros Ha Hw. 
  apply (rtc_ind_r (R := ledger_step size_of_charge id lent) well_kept (world_new (ledger_new max a external))); [by apply world_new_kept | | exact Hw].
  intros w1 w2 _ H12 H1. by eapply step_keeps.
Qed.

(** ** Properties *)

(** C23: Whatever is reserved, committed, moved between collections, normalised, dropped and
    injected, in any order and with any refusals of the host: the ledger is not poisoned,
    its balances are the sums over what is live, in each domain, and the host has lent
    exactly the tokens of what is live. *)
Theorem ledger_balanced max a external w :
  lent a [] -> reachable max a external w ->
  let s := inner (w_ledger w) in
  let total h d := sum d h + w_detached w d in
  poisoned s = false /\
  (forall d, domain_reserved d s = sum d (reserved_by w)) /\
  reserved (snapshot s) = sum LuaHeap (reserved_by w) + sum Host (reserved_by w) /\
  (forall d, domain_balance d s = total (live w) d) /\
  committed (snapshot s) = total (live w) LuaHeap + total (live w) Host /\
  committed (snapshot s) + reserved (snapshot s) <= USIZE_MAX /\
  lent (admission (w_ledger w)) (tokens (reserved_by w ++ live w)).
Proof.
  intros Ha Hw. destruct (kept_balance _ _ _ _ _ (reachable_kept _ _ _ _ Ha Hw)) as [F L]. destruct F.
  split; [done |]. split; [by intros [] |]. split; [done |]. split; [by intros [] |]. done.
Qed.

(** C24: Of a ledger that is kept so, a request is granted within the limit and its bytes join the
    reserved ones, or it is refused for its reason and no balance changes; what is
    reserved can always be committed, and then counts in its domain. *)
Theorem reserve_then_commit max a external w b d p at_site :
  lent a [] -> reachable max a external w -> 0 <= b ->
  let s := inner (w_ledger w) in
  match reserve_at b d p at_site (w_ledger w) with
  | (Ok r, l) =>
      committed (snapshot s) + reserved (snapshot s) + b <= limit (snapshot s) /\
      snapshot (inner l) = with_reserved (snapshot s) (reserved (snapshot s) + b) /\
      match commit_charge id r l with
      | (Ok c, l) => ch_bytes c = b /\ ch_domain c = d /\ reserved (snapshot (inner l)) = reserved (snapshot s) /\
          committed (snapshot (inner l)) = committed (snapshot s) + b /\
          domain_balance d (inner l) = domain_balance d s + b
      | _ => False
      end
  | (Err e, l) => snapshot (inner l) = snapshot s /\ refusal s b e (inner l)
  | (Crash _, _) => False
  end.
Proof.
  intros Ha Hw Hb s. pose proof (kept_balance _ _ _ _ _ (reachable_kept _ _ _ _ Ha Hw)) as HB.
  pose proof (reserve_at_spec b d p at_site _ _ _ _ HB Hb) as Hr. unfold spec in Hr.
  destruct (reserve_at b d p at_site (w_ledger w)) as [[r | e | k] l]; [| by destruct Hr as (_ & ? & ?) | done].
  destruct Hr as (HB1 & Hrb & Hrd & Hsn & Hl). split; [done |]. split; [done |].
  pose proof (commit_charge_spec id r l _ _ _ HB1) as Hc. unfold spec in Hc.
  destruct (commit_charge id r l) as [[c | e | k] l1]; [| done..]. destruct Hc as (HB2 & Hh & _).
  injection Hh as Hcb Hcd _. rewrite Hrb in Hcb. rewrite Hrd in Hcd. split; [done |]. split; [done |].
  destruct HB as [F _], HB2 as [F2 _]. clear Hsn. fold s in F. destruct F, F2. cbn in *. unfold bytes_in in *. cbn in *.
  rewrite Hcb, Hcd in *. destruct d; cbn in *; lia.
Qed.
End Kept.

(** ** A host that counts

    Tokens are numbered; a request of more than a thousand bytes is refused. *)
Module AllocDemo.

Definition Counter : Type := Z * list (Z * Z).

Fixpoint remove_one (x : Z * Z) (xs : list (Z * Z)) : list (Z * Z) :=
  match xs with [] => [] | y :: xs => if bool_decide (x = y) then xs else y :: remove_one x xs end.

Lemma remove_one_perm x xs ys : xs ≡ₚ x :: ys -> remove_one x xs ≡ₚ ys.
Proof.
  revert ys. induction xs as [| y xs IH]; intros ys Hp; [by apply Permutation_nil_cons in Hp |].
  cbn. case_bool_decide as E; [subst; by apply Permutation_cons_inv in Hp |].
  assert (y ∈ ys) as (ys1 & ys2 & ->)%list_elem_of_split.
  { assert (y ∈ x :: ys) as [? | ?]%elem_of_cons by (rewrite <- Hp; left); [congruence | done]. }
  rewrite <- Permutation_middle. apply Permutation_skip, IH.
  apply (Permutation_cons_inv (a := y)). rewrite Hp, perm_swap. apply Permutation_skip. by rewrite Permutation_middle.
Defined.

#[export] Instance counting_host : AllocationAdmission Counter := {|
  host_admit b l :=
    let '(next, ts) := admission l in
    if 1000 <? b then (None, l)
    else (Some next, {| inner := inner l; admission := (next + 1, (next, b) :: ts); external_admission := external_admission l |});
  release t b l :=
    let '(next, ts) := admission l in
    {| inner := inner l; admission := (next, remove_one (t, b) ts); external_admission := external_admission l |}
|}.
#[export] Instance enough_memory : RustAllocator Counter := fun _ a => (true, a).

Definition counted (a : Counter) (ts : list (Z * Z)) : Prop := a.2 ≡ₚ ts.

#[export] Instance counting_laws : AdmissionLaws Counter counted.
Proof.
  unfold counted. split.
  - intros a ts ts' Hp Ha. by rewrite Ha.
  - intros b [s [next us] e]. unfold host_admit, counting_host. cbn [admission]. by destruct (1000 <? b).
  - intros b [s [next us] e] ts _ Hl. unfold host_admit, counting_host. cbn [admission] in *. destruct (1000 <? b); [exact Hl |].
    cbn in *. by rewrite Hl.
  - by intros t b [s [next us] e].
  - intros t b [s [next us] e] ts Hl. cbn in *. by apply remove_one_perm.
  - done.
Defined.

Definition site : AllocationSite := {| site_file := "src/table.rs"; site_line := 1; site_column := 1 |}.

(** Two blocks of the Lua heap in one collection, of which 30 bytes are given back; a
    reservation that is dropped, one that the host refuses, one that is injected to
    fail; a pair; a charge of the host's own. *)
Definition demo_operations : list LedgerOperation :=
  [ReserveAt 100 LuaHeap None site; CommitCharge 0; NewCollection; TryPush 0 0;
   ReserveAt 50 LuaHeap None site; CommitCharge 0; TryPush 0 0; Normalize 0 120;
   ReserveVec 3 16 TableHashGrow site; DropReservation 0; ReserveAt 2000 Host None site;
   FailOnceAt TableArrayGrow; ReserveVec 4 8 TableArrayGrow site;
   NewPaired; ReserveAt 24 LuaHeap None site; CommitCharge 0; ReplaceFirst 0 0;
   ReserveAt 40 LuaHeap None site; CommitCharge 0; ReplaceSecond 0 0; ClearSecond 0;
   ReserveAt 7 Host None site; CommitCharge 0; ReserveAt 5 Host None site].

Definition demo_new : World Counter := world_new (ledger_new 5000 (1, []) true).
Definition demo_world : World Counter := fold_left (fun w op => run_operation 64 0 op w) demo_operations demo_new.

(** A run of operations that are all allowed. *)
Fixpoint all_allowed (ops : list LedgerOperation) (w : World Counter) : Prop :=
  match ops with [] => True | op :: ops => allowed counted op w /\ all_allowed ops (run_operation 64 0 op w) end.

Lemma run_reaches ops w : all_allowed ops w -> rtc (ledger_step 64 0 counted) w (fold_left (fun w op => run_operation 64 0 op w) ops w).
Proof.
  revert w. induction ops as [| op ops IH]; intros w; cbn; [reflexivity |]. intros [Ha Hops].
  apply (rtc_l _ _ (run_operation 64 0 op w)); [left; by exists op | by apply IH].
Defined.

Lemma demo_allowed : all_allowed demo_operations demo_new.
Proof. vm_compute. repeat split; try discriminate; intros c E; by injection E as <-. Defined.

Lemma demo_reachable : reachable (lent := counted) 64 0 5000 (1, []) true demo_world.
Proof. apply run_reaches, demo_allowed. Defined.

Lemma ledger_balanced_witness :
  let s := inner (w_ledger demo_world) in
  (lua_heap (snapshot s), host_allocation (snapshot s), reserved (snapshot s), poisoned s) = (144, 7, 5, false) /\
  counted (admission (w_ledger demo_world)) (tokens ((held_reservation <$> w_reservations demo_world) ++ live demo_world)).
Proof.
  split; [vm_compute; reflexivity |].
  destruct (ledger_balanced (lent := counted) 64 0 5000 (1, []) true demo_world) as (_ & _ & _ & _ & _ & _ & Hl);
    [exact (perm_nil _) | exact demo_reachable | exact Hl].
Defined.

(** Within the limit, and over it. *)
Lemma reserve_then_commit_witness :
  let s := inner (w_ledger demo_world) in
  match reserve_at 60 LuaHeap None site (w_ledger demo_world) with
  | (Ok r, l) => rs_bytes r = 60 /\ reserved (snapshot (inner l)) = reserved (snapshot s) + 60
  | _ => False
  end /\
  match reserve_at 5000 LuaHeap None site (w_ledger demo_world) with (Err e, _) => e = AllocationFailed | _ => False end.
Proof.
  split.
  - pose proof (reserve_then_commit (lent := counted) 64 0 5000 (1, []) true demo_world 60 LuaHeap None site) as Hr.
    destruct (reserve_at 60 LuaHeap None site (w_ledger demo_world)) as [[r | e | k] l] eqn:E.
    + destruct Hr as (_ & Hs & _); [exact (perm_nil _) | exact demo_reachable | lia |]. rewrite Hs. split; [| reflexivity].
      vm_compute in E. by injection E as <- _.
    + vm_compute in E. discriminate E.
    + vm_compute in E. discriminate E.
  - vm_compute. reflexivity.
Defined.
End AllocDemo.
