(* ===== verification/CAllocator.v ===== *)
(** The allocator of a C state (crates/rivetlua-capi/src/allocator.rs): the admission of
    allocations by the host's [lua_Alloc], and what it means for the ledger. *)

From Stdlib Require Import ZArith Lia String.
From stdpp Require Import base list numbers relations.
From S2P Require Import Prelude Table Alloc AllocBalance AllocTheorems AllocNormalize AllocWorld.

Local Open Scope Z_scope.

(** The host's functions and their user data, on the memory of the process: the function
    is called with the pointer (0 for NULL), the old and the new size. *)
Class LuaAlloc (F U Memory : Type) := { lua_alloc : F -> U -> Z -> Z -> Z -> Memory -> Z * Memory }.

(** [CAllocatorState], in the memory of the process; [aborted] when [abort] has ended it. *)
Record CAllocatorState (F U Memory : Type) := {
  function : option F; user_data : U; callback_active : bool; memory : Memory; aborted : bool
}.
Arguments Build_CAllocatorState {_ _ _}.
Arguments function {_ _ _}.
Arguments user_data {_ _ _}.
Arguments callback_active {_ _ _}.
Arguments memory {_ _ _}.
Arguments aborted {_ _ _}.

Section Admission.
Context {F U Memory : Type} `{LuaAlloc F U Memory}.

Notation State := (CAllocatorState F U Memory).

#[local] Instance CAllocatorState_eta : Eta State := fun a =>
  Build_CAllocatorState (function a) (user_data a) (callback_active a) (memory a) (aborted a).
Definition with_function : State -> option F -> State := ltac:(set_field (@function F U Memory)).
Definition with_user_data : State -> U -> State := ltac:(set_field (@user_data F U Memory)).
Definition with_callback_active : State -> bool -> State := ltac:(set_field (@callback_active F U Memory)).
Definition with_memory : State -> Memory -> State := ltac:(set_field (@memory F U Memory)).
Definition with_aborted : State -> bool -> State := ltac:(set_field (@aborted F U Memory)).

Definition c_new (f : F) (ud : U) (m : Memory) : State := Build_CAllocatorState (Some f) ud false m false.

Definition set_current (f : F) (ud : U) (a : State) : bool * State :=
  if callback_active a then (false, a) else (true, with_user_data (with_function a (Some f)) ud).

(** The function runs with the callback marked as active; the guard ends that. *)
Definition call_function (f : F) (ptr osize nsize : Z) (a : State) : Z * State :=
  let '(p, m) := lua_alloc f (user_data a) ptr osize nsize (memory (with_callback_active a true)) in
  (p, with_callback_active (with_memory a m) false).

Definition c_admit (bytes : Z) (a : State) : option Z * State :=
  if bytes =? 0 then (None, a) else
  if callback_active a then (None, with_callback_active a true) else
  match function a with
  | None => (None, with_callback_active a false)
  | Some f => let '(p, a) := call_function f 0 0 bytes a in ((if p =? 0 then None else Some p), a)
  end.

Definition c_release (token bytes : Z) (a : State) : State :=
  if callback_active a then with_aborted a true else
  match function a with
  | None => with_aborted a true
  | Some f => (call_function f token bytes 0 a).2
  end.

(** The host of a ledger is given only what is outside of it. *)
#[export] Instance c_admission : AllocationAdmission State := {|
  host_admit bytes l := let '(t, a) := c_admit bytes (admission l) in
    (t, {| inner := inner l; admission := a; external_admission := external_admission l |});
  release t bytes l := {| inner := inner l; admission := c_release t bytes (admission l); external_admission := external_admission l |}
|}.
End Admission.

(** ** The contract of [lua_Alloc]

    [blocks m bs]: the blocks [bs], with their sizes, are allocated in [m]. A function asked
    for a new block fails with NULL or allocates it; given a block with its size, and
    the new size 0, it frees it. *)
Class LuaAllocLaws (F U Memory : Type) `{LuaAlloc F U Memory} (blocks : Memory -> list (Z * Z) -> Prop) := {
  blocks_permutation : forall m bs bs', bs ≡ₚ bs' -> blocks m bs -> blocks m bs';
  alloc_new : forall f u n m bs, 0 < n -> blocks m bs ->
    let '(p, m') := lua_alloc f u 0 0 n m in blocks m' (if p =? 0 then bs else (p, n) :: bs);
  alloc_free : forall f u p n m bs, blocks m ((p, n) :: bs) -> blocks (lua_alloc f u p n 0 m).2 bs
}.

Section Laws.
Context {F U Memory : Type} {lua : LuaAlloc F U Memory} {blocks : Memory -> list (Z * Z) -> Prop}
  {laws : LuaAllocLaws F U Memory blocks}.
#[local] Set Default Proof Using "Type*".

Notation State := (CAllocatorState F U Memory).

(** What the state has lent: its process runs, no callback is active, there is a function,
    and the blocks are allocated. *)
Definition c_lent (a : State) (bs : list (Z * Z)) : Prop :=
  aborted a = false /\ callback_active a = false /\ (exists f, function a = Some f) /\ blocks (memory a) bs.

(** Rust's own allocations are of other memory. *)
Context {rust : RustAllocator State} (rust_apart : forall b a, (room b a).2 = a).

Lemma c_admit_lends b a ts :
  0 < b -> c_lent a ts -> c_lent (c_admit b a).2 match (c_admit b a).1 with Some t => (t, b) :: ts | None => ts end.
Proof.
  intros Hb (Hn & Hi & [f Hf] & Hbs). unfold c_admit, call_function.
  destruct (Z.eqb_spec b 0) as [-> | _]; [lia |]. rewrite Hi, Hf. cbn [with_callback_active memory].
  pose proof (alloc_new f (user_data a) b (memory a) ts Hb Hbs) as Ha.
  destruct (lua_alloc f (user_data a) 0 0 b (memory a)) as [p m]. cbn [fst snd].
  destruct (p =? 0); (split; [exact Hn |]; split; [done |]; split; [by exists f | exact Ha]).
Qed.

Lemma c_release_returns t b a ts : c_lent a ((t, b) :: ts) -> c_lent (c_release t b a) ts.
Proof.
  intros (Hn & Hi & [f Hf] & Hbs). unfold c_release, call_function. rewrite Hi, Hf. cbn [with_callback_active memory].
  pose proof (alloc_free f (user_data a) t b (memory a) ts Hbs) as Ha.
  destruct (lua_alloc f (user_data a) t b 0 (memory a)) as [p m].
  split; [exact Hn |]. split; [done |]. by split; [exists f |].
Qed.

#[export] Instance c_admission_laws : AdmissionLaws State c_lent.
Proof.
  split.
  - intros a ts ts' Hp (? & ? & ? & Hbs). split_and!; try done. by eapply blocks_permutation.
  - intros b l. cbn. by destruct (c_admit b (admission l)).
  - intros b l ts Hb Hl. pose proof (c_admit_lends b _ ts Hb Hl) as Ha. cbn. by destruct (c_admit b (admission l)).
  - done.
  - intros t b l ts. apply c_release_returns.
  - intros b a ts. by rewrite rust_apart.
Qed.

(** The host may change its allocator between two calls. *)
Lemma set_current_keeps f u a ts : c_lent a ts -> (set_current f u a).1 = true /\ c_lent (set_current f u a).2 ts.
Proof.
  intros (Hn & Hi & Hf & Hbs). unfold set_current. rewrite Hi. split; [done |]. split; [exact Hn |].
  split; [exact Hi |]. by split; [exists f |].
Qed.

(** C25: A state of the C API whose allocator keeps the contract of [lua_Alloc]: whatever the VM
    reserves, commits and drops, and however the host changes the allocator in between, the
    process never aborts, and the blocks that the host's functions have allocated are those of
    what is live, each with the size it was asked for; so none is freed twice, with another
    size, or never. *)
Theorem c_blocks_live size_of_charge id max f u m w :
  blocks m [] -> reachable (lent := c_lent) size_of_charge id max (c_new f u m) true w ->
  aborted (admission (w_ledger w)) = false /\
  blocks (memory (admission (w_ledger w))) (tokens ((held_reservation <$> w_reservations w) ++ live w)).
Proof.
  intros Hm Hw. assert (c_lent (c_new f u m) []) as Ha by (split_and!; try done; by exists f).
  destruct (kept_balance _ _ _ _ _ (reachable_kept _ _ _ _ _ _ Ha Hw)) as [_ Hl]. split; apply Hl.
Qed.
End Laws.

(** ** A host with a heap of numbered blocks *)
Module CAllocatorDemo.
Import AllocDemo.

Definition Heap : Type := Z * list (Z * Z).

(** [lua_Alloc]: a new block, or NULL for more than a thousand bytes; or a block is freed. *)
#[export] Instance demo_alloc : LuaAlloc unit unit Heap := {|
  lua_alloc _ _ ptr osize nsize m :=
    if nsize =? 0 then (0, (m.1, remove_one (ptr, osize) m.2)) else
    if 1000 <? nsize then (0, m) else (m.1, (m.1 + 1, (m.1, nsize) :: m.2))
|}.

Definition allocated (m : Heap) (bs : list (Z * Z)) : Prop := 0 < m.1 /\ m.2 ≡ₚ bs.

#[export] Instance demo_laws : LuaAllocLaws unit unit Heap allocated.
Proof.
  unfold allocated. split.
  - intros m bs bs' Hp [Hm Hb]. by rewrite <- Hp.
  - intros f u n [next ts] bs Hn [Hm Hb]. unfold lua_alloc, demo_alloc. cbn [fst snd] in *.
    destruct (Z.eqb_spec n 0); [lia |]. destruct (1000 <? n); cbn [fst snd]; [done |].
    destruct (Z.eqb_spec next 0); [lia |]. split; [lia | by rewrite Hb].
  - intros f u p n [next ts] bs [Hm Hb]. split; [done |]. by apply remove_one_perm.
Defined.

#[export] Instance demo_memory : RustAllocator (CAllocatorState unit unit Heap) := fun _ a => (true, a).

Definition start : CAllocatorState unit unit Heap := c_new tt tt (1, []).
Definition demo_new : World (CAllocatorState unit unit Heap) := world_new (ledger_new 5000 start true).
Definition demo_world : World (CAllocatorState unit unit Heap) :=
  fold_left (fun w op => run_operation 64 0 op w)
    [ReserveAt 100 LuaHeap None site; CommitCharge 0; ReserveAt 2000 Host None site; ReserveAt 30 Host None site; DropCharge 0]
    demo_new.

Lemma c_demo_reachable : reachable (lent := c_lent (blocks := allocated)) 64 0 5000 start true demo_world.
Proof.
  unfold demo_world. cbn [fold_left].
  repeat (eapply rtc_r; [| left; eexists; split; [| reflexivity]; cbn; try lia; exact I]). apply rtc_refl.
Defined.

(** The block of what was dropped is free again; one is left, of 30 bytes. *)
Lemma c_blocks_live_witness :
  aborted (admission (w_ledger demo_world)) = false /\ (memory (admission (w_ledger demo_world))).2 = [(2, 30)] /\
  allocated (memory (admission (w_ledger demo_world))) (tokens ((held_reservation <$> w_reservations demo_world) ++ live demo_world)).
Proof.
  destruct (c_blocks_live (F := unit) (U := unit) (blocks := allocated) (rust := demo_memory) (fun _ _ => eq_refl) 64 0 5000 tt tt (1, []) demo_world) as [Ha Hb];
    [split; [reflexivity | exact (perm_nil _)] | exact c_demo_reachable |].
  split; [exact Ha |]. split; [vm_compute; reflexivity | exact Hb].
Defined.
End CAllocatorDemo.
