(* ===== verification/ToNumber.v ===== *)
(** Strings as numbers in the standard library
    (crates/rivetlua-runtime/src/stdlib/basic.rs): [parse_number_bytes], the numerals of
    [tonumber] with a base, and floats as integers. *)

From Stdlib Require Import ZArith Lia SpecFloat.
From stdpp Require Import base list numbers strings.
From S2P Require Import Prelude Float Number Lexer Table.

Local Open Scope Z_scope.

(** ** Errors

    The kinds that the modelled functions of the library raise; a message, where there is
    one, is a value. *)
Inductive LibraryErrorKind :=
  | HeapError (e : VmError) | BasicArgument | StringArgument | Utf8Argument | Utf8Sequence | HostPolicyStringDump.
#[export] Instance LibraryErrorKind_eq_dec : EqDecision LibraryErrorKind.
Proof. unfold EqDecision, Decision. repeat decide equality. Defined.
Record RuntimeError := { error_kind : LibraryErrorKind; error_value : Value }.
Definition runtime_error (kind : LibraryErrorKind) : RuntimeError := {| error_kind := kind; error_value := VNil |}.

(** [?] on what the heap returns. *)
Definition from_heap {A} (r : res VmError A) : res RuntimeError A :=
  match r with Ok a => Ok a | Err e => Err (runtime_error (HeapError e)) | Crash c => Crash c end.

(** ** The standard library of Rust *)

Definition is_continuation (b : Z) : bool := (0x80 <=? b) && (b <=? 0xbf).

(** [core::str::from_utf8] succeeds. *)
Fixpoint valid_utf8 (bytes : list Z) : bool :=
  match bytes with
  | [] => true
  | b :: bytes =>
      if b <? 0x80 then valid_utf8 bytes else
      match bytes with
      | [] => false
      | c :: bytes =>
          if (0xc2 <=? b) && (b <=? 0xdf) then is_continuation c && valid_utf8 bytes else
          match bytes with
          | [] => false
          | d :: bytes =>
              if (0xe0 <=? b) && (b <=? 0xef) then
                ((if b =? 0xe0 then 0xa0 else 0x80) <=? c) && (c <=? (if b =? 0xed then 0x9f else 0xbf)) &&
                is_continuation d && valid_utf8 bytes
              else
              match bytes with
              | [] => false
              | e :: bytes =>
                  (0xf0 <=? b) && (b <=? 0xf4) &&
                  ((if b =? 0xf0 then 0x90 else 0x80) <=? c) && (c <=? (if b =? 0xf4 then 0x8f else 0xbf)) &&
                  is_continuation d && is_continuation e && valid_utf8 bytes
              end
          end
      end
  end.

(** [u8::is_ascii_whitespace]: unlike [isspace] of C it leaves out the vertical tab. *)
Definition is_ascii_whitespace (b : Z) : bool :=
  (b =? " "%u8) || (b =? TAB) || (b =? LF) || (b =? 12) || (b =? CR).

Fixpoint trim_start (p : Z -> bool) (bytes : list Z) : list Z :=
  match bytes with b :: rest => if p b then trim_start p rest else bytes | [] => [] end.
Definition trim (p : Z -> bool) (bytes : list Z) : list Z := rev (trim_start p (rev (trim_start p bytes))).

Definition ascii_lowercase (b : Z) : Z := if ("A"%u8 <=? b) && (b <=? "Z"%u8) then b + 32 else b.
Definition eq_ignore_ascii_case (bytes : list Z) (word : string) : bool :=
  bool_decide (map ascii_lowercase bytes = map ascii_lowercase (bytes_of_string word)).

Definition is_sign (b : Z) : bool := (b =? "-"%u8) || (b =? "+"%u8).
Definition starts_with_sign (bytes : list Z) : bool := some_and is_sign (head bytes).

(** [str::parse::<f64>]: a sign, then a word or a decimal. *)
Definition parse_float (bytes : list Z) : option f64 :=
  let negative := is_byte (head bytes) "-"%u8 in
  let body := if starts_with_sign bytes then tail bytes else bytes in
  let signed x := if negative then f64_neg x else x in
  if eq_ignore_ascii_case body "inf" || eq_ignore_ascii_case body "infinity" then Some (signed f64_infinity)
  else if eq_ignore_ascii_case body "nan" then Some (signed S754_nan)
  else signed <$> parse_f64 body.

(** ** Numerals *)

Section Numerals.

(** [f64::powi], whose precision the standard library leaves open. *)
Context (powi : f64 -> Z -> f64).

Definition hex_digit (b : Z) : option Z :=
  if ("0"%u8 <=? b) && (b <=? "9"%u8) then Some (b - "0"%u8)
  else if ("a"%u8 <=? b) && (b <=? "f"%u8) then Some (b - "a"%u8 + 10)
  else if ("A"%u8 <=? b) && (b <=? "F"%u8) then Some (b - "A"%u8 + 10)
  else None.

(** The locals of the loop over the digits. *)
Record HexScan := { hx_integer : Z; hx_number : f64; hx_digits : Z; hx_fraction : f64; hx_dot : bool }.
Definition hex_start : HexScan :=
  {| hx_integer := 0; hx_number := f64_zero; hx_digits := 0; hx_fraction := f64_one; hx_dot := false |}.

Definition hex_step (digit : Z) (h : HexScan) : HexScan :=
  let fraction := if hx_dot h then f64_div (hx_fraction h) f64_sixteen else hx_fraction h in
  {| hx_integer := wrap_u64 (wrap_u64 (hx_integer h * 16) + digit);
     hx_number := if hx_dot h then f64_add (hx_number h) (f64_mul (i64_as_f64 digit) fraction)
                  else f64_add (f64_mul (hx_number h) f64_sixteen) (i64_as_f64 digit);
     hx_digits := hx_digits h + 1; hx_fraction := fraction; hx_dot := hx_dot h |}.

Fixpoint hex_scan (bytes : list Z) (h : HexScan) : list Z * HexScan :=
  match bytes with
  | [] => ([], h)
  | b :: rest =>
      if (b =? "."%u8) && negb (hx_dot h) then
        hex_scan rest {| hx_integer := hx_integer h; hx_number := hx_number h; hx_digits := hx_digits h;
                         hx_fraction := hx_fraction h; hx_dot := true |}
      else match hex_digit b with Some digit => hex_scan rest (hex_step digit h) | None => (bytes, h) end
  end.

Definition has_hex_prefix (bytes : list Z) : bool :=
  is_byte (head bytes) "0"%u8 && (is_byte (head (tail bytes)) "x"%u8 || is_byte (head (tail bytes)) "X"%u8).

Definition lua_hex_number (text : list Z) : option Value :=
  let negative := is_byte (head text) "-"%u8 in
  let bytes := if starts_with_sign text then tail text else text in
  if negb (has_hex_prefix bytes) then None else
  let '(rest, h) := hex_scan (drop 2 bytes) hex_start in
  if hx_digits h =? 0 then None else
  if negb (hx_dot h) && bool_decide (rest = []) && (hx_digits h <=? 16) then
    Some (VInteger (wrap_i64 (if negative then wrap_u64 (0 - hx_integer h) else hx_integer h)))
  else
    number ← (if some_and (fun b => (b =? "p"%u8) || (b =? "P"%u8)) (head rest) then
                if negb (valid_utf8 (tail rest)) then None else
                exponent ← parse_int I32_MIN I32_MAX (tail rest);
                Some (f64_mul (hx_number h) (powi f64_two exponent))
              else if bool_decide (rest <> []) then None else Some (hx_number h));
    Some (VFloat (if negative then f64_neg number else number)).

Definition parse_number_bytes (bytes : list Z) : option Value :=
  if negb (valid_utf8 bytes) then None else
  let text := trim is_ascii_whitespace bytes in
  if has_hex_prefix text || has_hex_prefix (tail text) then lua_hex_number text else
  match parse_int I64_MIN I64_MAX text with
  | Some value => Some (VInteger value)
  | None =>
      let word := trim_start is_sign text in
      if eq_ignore_ascii_case word "nan" || eq_ignore_ascii_case word "inf" || eq_ignore_ascii_case word "infinity"
      then None else VFloat <$> parse_float text
  end.

(** ** [tonumber] *)

Definition lua_integer (value : Value) : option Z :=
  match value with
  | VInteger n => Some n
  | VFloat x =>
      if f64_is_finite x && f64_eqb (f64_fract x) f64_zero && f64_geb x f64_i64_min && f64_ltb x f64_two63
      then Some (f64_as_i64 x) else None
  | _ => None
  end.

(** The digit that a byte stands for, in any base. *)
Definition base_digit (b : Z) : option Z :=
  if is_ascii_digit b then Some (b - "0"%u8)
  else if is_ascii_alphabetic b then Some ((if ("a"%u8 <=? b) && (b <=? "z"%u8) then b - 32 else b) - "A"%u8 + 10)
  else None.

(** The digits of a base: the value so far, how many, and what follows them; [inr] when a
    letter or a digit is out of the base. *)
Fixpoint base_digits (base : Z) (input : list Z) (n digits : Z) : (list Z * Z * Z) + unit :=
  match input with
  | [] => inl (input, n, digits)
  | first :: rest =>
      match base_digit first with
      | None => inl (input, n, digits)
      | Some digit => if base <=? digit then inr tt else base_digits base rest (wrap_u64 (wrap_u64 (n * base) + digit)) (digits + 1)
      end
  end.

Definition number_in_base (base : Z) (bytes : list Z) : Value :=
  let input := trim_start is_ascii_whitespace bytes in
  let negative := is_byte (head input) "-"%u8 in
  let input := if starts_with_sign input then tail input else input in
  match base_digits base input 0 0 with
  | inr _ => VNil
  | inl (rest, n, digits) =>
      if (digits =? 0) || negb (forallb is_ascii_whitespace rest) then VNil
      else VInteger (wrap_i64 (if negative then wrap_u64 (0 - n) else n))
  end.

Context `{Heap}.

(** [None] and [Some(Nil)] are no base. *)
Definition given_base (base : option Value) : option Value :=
  match base with Some VNil => None | _ => base end.

Definition number (value : Value) (base : option Value) : res RuntimeError Value :=
  let none := match given_base base with None => Ok VNil | Some _ => Err (runtime_error BasicArgument) end in
  match given_base base, value with
  | None, VInteger _ | None, VFloat _ => Ok value
  | _, VObject o =>
      kind ← from_heap (object_kind o);
      if negb (bool_decide (kind = ObjectKind.ByteString)) then none else
      s ← from_heap (with_byte_string o);
      match given_base base with
      | Some base =>
          match lua_integer base with
          | None => Err (runtime_error BasicArgument)
          | Some base =>
              if (2 <=? base) && (base <=? 36) then Ok (number_in_base base (as_bytes s))
              else Err (runtime_error BasicArgument)
          end
      | None => Ok (default VNil (parse_number_bytes (as_bytes s)))
      end
  | _, _ => none
  end.

End Numerals.
