(* ===== verification/ToNumberTheorems.v ===== *)
(** Strings as numbers against the numerals of the language. *)

From Stdlib Require Import ZArith Lia SpecFloat.
From stdpp Require Import base list numbers strings.
From S2P Require Import Prelude Float Number Lexer LexerGrammar LexerTheorems Table ToNumber.

Local Open Scope Z_scope.

(** ** Trimming *)

Lemma trim_start_all p ws x : Forall (fun b => p b = true) ws -> some_and p (head x) = false -> trim_start p (ws ++ x) = x.
Proof.
  intros Hws Hx. induction Hws as [| b ws Hb Hws IH]; cbn; [| by rewrite Hb].
  destruct x as [| b x]; [done |]. cbn in *. by rewrite Hx.
Qed.

Lemma trim_inner p ws x ws' :
  Forall (fun b => p b = true) ws -> Forall (fun b => p b = true) ws' -> x <> [] -> Forall (fun b => p b = false) x ->
  trim p (ws ++ x ++ ws') = x.
Proof.
  intros Hws Hws' Hne Hx. unfold trim.
  assert (forall y, y <> [] -> Forall (fun b => p b = false) y -> forall z, some_and p (head (y ++ z)) = false) as Hhead.
  { intros y Hy Hall z. destruct Hall as [| b y Hb]; [done | exact Hb]. }
  rewrite trim_start_all by (done || by apply Hhead). rewrite rev_app_distr, trim_start_all; [apply rev_involutive | by apply Forall_rev |].
  rewrite <- (app_nil_r (rev x)). apply Hhead; [| by apply Forall_rev]. intros E. apply Hne.
  rewrite <- (rev_involutive x), E. done.
Qed.

Lemma ascii_valid bytes : Forall (fun b => b <? 0x80 = true) bytes -> valid_utf8 bytes = true.
Proof. induction 1 as [| b bytes Hb _ IH]; cbn; [done |]. by rewrite Hb. Qed.

(** ** Signs and digits *)

Definition sign_text (sg : list Z) : Prop := sg = [] \/ sg = ["+"%u8] \/ sg = ["-"%u8].
Definition signed (sg : list Z) (v : Z) : Z := if is_byte (head sg) "-"%u8 then - v else v.
Definition signed_float (sg : list Z) (x : f64) : f64 := if is_byte (head sg) "-"%u8 then f64_neg x else x.

(** A text that starts with none of the bytes of a sign. *)
Definition unsigned (body : list Z) : Prop := starts_with_sign body = false.

Lemma unsigned_minus body : unsigned body -> is_byte (head body) "-"%u8 = false /\ is_byte (head body) "+"%u8 = false.
Proof.
  unfold unsigned, starts_with_sign, is_byte. destruct body as [| b body]; cbn; [by split; apply bool_decide_eq_false |].
  unfold is_sign. intros H. split; apply bool_decide_eq_false; intros [= ->]; done.
Qed.

(** What the code does with a sign. *)
Lemma sign_split sg body :
  sign_text sg -> unsigned body ->
  is_byte (head (sg ++ body)) "-"%u8 = is_byte (head sg) "-"%u8 /\
  starts_with_sign (sg ++ body) = negb (bool_decide (sg = [])) /\
  (is_byte (head (sg ++ body)) "-"%u8 || is_byte (head (sg ++ body)) "+"%u8) = negb (bool_decide (sg = [])) /\
  trim_start is_sign (sg ++ body) = body /\
  (if negb (bool_decide (sg = [])) then tail (sg ++ body) else sg ++ body) = body.
Proof.
  intros [-> | [-> | ->]] Hu; pose proof (unsigned_minus _ Hu) as [Hm Hp]; cbn [app head tail].
  - rewrite Hm, Hp. change (trim_start is_sign body) with (trim_start is_sign ([] ++ body)).
    rewrite trim_start_all by (done || constructor). split_and!; done.
  - split_and!; try done. change ("+"%u8 :: body) with (["+"%u8] ++ body). by apply trim_start_all; [repeat constructor |].
  - split_and!; try done. change ("-"%u8 :: body) with (["-"%u8] ++ body). by apply trim_start_all; [repeat constructor |].
Qed.

Lemma digits_unsigned base ds v : digits_value base ds = Some v -> unsigned ds.
Proof.
  intros Hv. unfold unsigned, starts_with_sign. destruct ds as [| b ds]; [done |]. cbn.
  assert (hex_value b <> None) as Hb.
  { revert Hv. revert v. induction ds as [| c ds IH] using rev_ind; intros v Hv.
    - unfold digits_value in Hv. cbn in Hv. by destruct (hex_value b).
    - rewrite app_comm_cons, digits_value_snoc in Hv. destruct (digits_value base (b :: ds)) as [u |] eqn:E; [by eapply IH | done]. }
  revert Hb. unfold hex_value, is_ascii_digit, is_sign. destruct (Z.eqb_spec b "-"%u8) as [-> | _]; [done |].
  destruct (Z.eqb_spec b "+"%u8) as [-> | _]; done.
Qed.

Lemma hex_prefix_unsigned x ds : unsigned ("0"%u8 :: x :: ds).
Proof. done. Qed.

(** ** Decimal strings *)

Lemma signed_range sg v : sign_text sg -> 0 <= v ->
  ((I64_MIN <=? signed sg v) && (signed sg v <=? I64_MAX)) = true <-> i64 (signed sg v).
Proof. intros _ _. unfold i64. lia. Qed.

Lemma parse_int_signed sg ds v :
  sign_text sg -> ds <> [] -> digits_value 10 ds = Some v ->
  parse_int I64_MIN I64_MAX (sg ++ ds) =
    if (I64_MIN <=? signed sg v) && (signed sg v <=? I64_MAX) then Some (signed sg v) else None.
Proof.
  intros Hsg Hne Hv. pose proof (sign_split sg ds Hsg (digits_unsigned _ _ _ Hv)) as (Hm & _ & Hs & _ & Ht).
  unfold parse_int. rewrite Hs, Ht, Hm. destruct ds as [| d ds]; [done |]. rewrite Hv. done.
Qed.

Lemma digits_not_word ds v word :
  ds <> [] -> digits_value 10 ds = Some v -> some_and (fun b => "9"%u8 <? b) (head (map ascii_lowercase (bytes_of_string word))) = true ->
  eq_ignore_ascii_case ds word = false.
Proof.
  intros Hne Hv Hw. apply bool_decide_eq_false. intros E. rewrite <- E in Hw.
  destruct (decimal_digits _ _ Hv) as [| d ds Hd _]; [done |]. cbn in Hw. unfold ascii_lowercase, is_ascii_digit in *.
  destruct (_ && _) eqn:Hc; lia.
Qed.

Lemma parse_float_signed sg ds v :
  sign_text sg -> ds <> [] -> digits_value 10 ds = Some v ->
  parse_float (sg ++ ds) = Some (signed_float sg (decimal_to_f64 v 0)).
Proof.
  intros Hsg Hne Hv. pose proof (sign_split sg ds Hsg (digits_unsigned _ _ _ Hv)) as (Hm & Hs & _ & _ & Ht).
  unfold parse_float. rewrite Hs, Ht, Hm, !(digits_not_word _ _ _ Hne Hv) by done. cbn [orb].
  by rewrite (parse_f64_digits _ _ Hne Hv).
Qed.

(** ** Hexadecimal strings *)

Lemma hex_scan_digits ds h u :
  hx_dot h = false -> hex_u64 ds (hx_integer h) = Some u ->
  exists h', hex_scan ds h = ([], h') /\ hx_dot h' = false /\ hx_digits h' = hx_digits h + zlen ds /\ hx_integer h' = u.
Proof.
  revert h. induction ds as [| b ds IH]; intros h Hd; [intros [= <-]; exists h; cbn; split_and!; [done.. | unfold zlen; cbn; lia | done] |].
  cbn [hex_u64 hex_scan]. destruct (hex_value b) as [d |] eqn:Hb; [| done]. cbn [mbind option_bind]. intros Hu.
  assert ((b =? "."%u8) = false) as -> by (destruct (Z.eqb_spec b "."%u8) as [-> |]; [done | done]). cbn [andb].
  change (hex_digit b) with (hex_value b). rewrite Hb.
  destruct (IH (hex_step d h)) as (h' & E & Hd' & Hn & Hi); [by unfold hex_step; cbn | exact Hu |].
  exists h'. split_and!; [done.. | | done]. rewrite Hn, zlen_cons. cbn. lia.
Qed.

Lemma wrap_negative v : wrap_i64 (wrap_u64 (0 - wrap_u64 v)) = wrap_i64 (- v).
Proof. rewrite wrap_i64_u64. apply wrap_i64_eq. unfold wrap_u64. by rewrite Zminus_mod_idemp_r, Z.sub_0_l. Qed.

Section Numerals.
Context (powi : f64 -> Z -> f64).

Lemma lua_hex_number_digits sg x ds v :
  sign_text sg -> x = "x"%u8 \/ x = "X"%u8 -> ds <> [] -> digits_value 16 ds = Some v ->
  if zlen ds <=? 16 then lua_hex_number powi (sg ++ "0"%u8 :: x :: ds) = Some (VInteger (wrap_i64 (signed sg v)))
  else exists f, lua_hex_number powi (sg ++ "0"%u8 :: x :: ds) = Some (VFloat f).
Proof.
  intros Hsg Hx Hne Hv. pose proof (sign_split sg ("0"%u8 :: x :: ds) Hsg (hex_prefix_unsigned _ _)) as (Hm & Hs & _ & _ & Ht).
  unfold lua_hex_number. rewrite Hs, Ht, Hm.
  assert (has_hex_prefix ("0"%u8 :: x :: ds) = true) as -> by (by destruct Hx as [-> | ->]). cbn [negb]. change (drop 2 ("0"%u8 :: x :: ds)) with ds.
  destruct (hex_scan_digits ds hex_start (wrap_u64 v)) as (h & -> & -> & Hn & Hi); [done | by apply hex_u64_spec |].
  cbn [hx_digits hex_start] in Hn. rewrite Hn, Z.add_0_l.
  destruct (Z.eqb_spec (zlen ds) 0) as [E | _]; [destruct ds; [done |]; rewrite zlen_cons in E; pose proof (zlen_nonneg ds); lia |].
  cbn [negb andb bool_decide]. destruct (zlen ds <=? 16).
  - rewrite Hi. unfold signed. do 2 f_equal. destruct (is_byte (head sg) "-"%u8); [apply wrap_negative | apply wrap_i64_u64].
  - cbn. by eexists.
Qed.

(** A text of printable bytes that are not spaces. *)
Definition plain (b : Z) : bool := (32 <? b) && (b <? 128).

(** Trimmed, a text is hexadecimal by its prefix, or decimal. *)
Lemma parse_number_bytes_trimmed ws text ws' :
  all is_ascii_whitespace ws -> all is_ascii_whitespace ws' -> text <> [] -> all plain text ->
  parse_number_bytes powi (ws ++ text ++ ws') =
    if has_hex_prefix text || has_hex_prefix (tail text) then lua_hex_number powi text else
    match parse_int I64_MIN I64_MAX text with
    | Some value => Some (VInteger value)
    | None =>
        let word := trim_start is_sign text in
        if eq_ignore_ascii_case word "nan" || eq_ignore_ascii_case word "inf" || eq_ignore_ascii_case word "infinity"
        then None else VFloat <$> parse_float text
    end.
Proof.
  intros Hws Hws' Hne Ht.
  assert (forall b, plain b = true -> (b <? 128) = true /\ is_ascii_whitespace b = false) as Hp.
  { intros b. unfold plain, is_ascii_whitespace. lia. }
  assert (forall b, is_ascii_whitespace b = true -> (b <? 128) = true) as Hs.
  { intros b. unfold is_ascii_whitespace. lia. }
  unfold parse_number_bytes. rewrite ascii_valid; cbn [negb].
  - rewrite (trim_inner _ ws text ws'); [done.. |]. eapply Forall_impl; [exact Ht |]. intros b Hb. by apply Hp.
  - apply Forall_app; split; [by eapply Forall_impl |]. apply Forall_app; split; [| by eapply Forall_impl].
    eapply Forall_impl; [exact Ht |]. intros b Hb. by apply Hp.
Qed.

Lemma digit_plain base ds v : digits_value base ds = Some v -> all plain ds.
Proof.
  revert v. induction ds as [| b ds IH] using rev_ind; intros v; [constructor |].
  rewrite digits_value_snoc. destruct (digits_value base ds) as [u |]; [| done].
  destruct (hex_value b) as [d |] eqn:Hd; [| done]. intros _. apply Forall_app. split; [by eapply IH |].
  constructor; [| constructor]. revert Hd. unfold hex_value, is_ascii_digit, plain.
  repeat match goal with |- context [if ?c then _ else _] => destruct c eqn:? end; intros [= <-]; lia.
Qed.

Lemma sign_plain sg : sign_text sg -> all plain sg.
Proof. by intros [-> | [-> | ->]]; repeat constructor. Qed.

(** Decimals have no prefix. *)
Lemma decimal_no_prefix sg ds v :
  sign_text sg -> digits_value 10 ds = Some v ->
  has_hex_prefix (sg ++ ds) || has_hex_prefix (tail (sg ++ ds)) = false.
Proof.
  intros Hsg Hv. pose proof (decimal_digits _ _ Hv) as Hall.
  assert (forall ds, all is_ascii_digit ds -> has_hex_prefix ds = false) as Hd.
  { intros es He. unfold has_hex_prefix. rewrite !(is_byte_digits is_ascii_digit (tail es)) by (done || by apply all_tail).
    apply andb_false_r. }
  destruct Hsg as [-> | [-> | ->]]; cbn [app tail].
  - by rewrite !Hd by (done || by apply all_tail).
  - by rewrite (Hd ds Hall), orb_false_r.
  - by rewrite (Hd ds Hall), orb_false_r.
Qed.

Lemma hex_string ws sg x ds ws' v :
  all is_ascii_whitespace ws -> all is_ascii_whitespace ws' -> sign_text sg -> x = "x"%u8 \/ x = "X"%u8 -> digits_value 16 ds = Some v ->
  parse_number_bytes powi (ws ++ (sg ++ "0"%u8 :: x :: ds) ++ ws') = lua_hex_number powi (sg ++ "0"%u8 :: x :: ds).
Proof.
  intros Hws Hws' Hsg Hx Hv. rewrite parse_number_bytes_trimmed; [| done | done | by destruct sg |].
  - destruct Hsg as [-> | [-> | ->]], Hx as [-> | ->]; done.
  - apply Forall_app; split; [by apply sign_plain |].
    constructor; [done |]. constructor; [by destruct Hx as [-> | ->] | by eapply digit_plain].
Qed.

Lemma decimal_string ws sg ds ws' v :
  all is_ascii_whitespace ws -> all is_ascii_whitespace ws' -> sign_text sg -> ds <> [] -> digits_value 10 ds = Some v ->
  parse_number_bytes powi (ws ++ (sg ++ ds) ++ ws') =
    Some (if (I64_MIN <=? signed sg v) && (signed sg v <=? I64_MAX) then VInteger (signed sg v)
          else VFloat (signed_float sg (decimal_to_f64 v 0))).
Proof.
  intros Hws Hws' Hsg Hne Hv.
  rewrite parse_number_bytes_trimmed; [| done | done | by destruct sg, ds | apply Forall_app; split; [by apply sign_plain | by eapply digit_plain]].
  rewrite (decimal_no_prefix _ _ _ Hsg Hv), (parse_int_signed _ _ _ Hsg Hne Hv).
  destruct (_ && _); [done |]. cbn zeta.
  destruct (sign_split sg ds Hsg (digits_unsigned _ _ _ Hv)) as (_ & _ & _ & -> & _).
  rewrite !(digits_not_word _ _ _ Hne Hv) by done. by rewrite (parse_float_signed _ _ _ Hsg Hne Hv).
Qed.


(** Longer hexadecimals are no integers in a string, whatever their value, while the
    compiler reads the same numeral as an integer. *)
Theorem long_hex_string_is_float ds v :
  digits_value 16 ds = Some v -> 16 < zlen ds ->
  (exists f, parse_number_bytes powi ("0"%u8 :: "x"%u8 :: ds) = Some (VFloat f)) /\
  parse_number (E := Empty_set) powi ("0"%u8 :: "x"%u8 :: ds) tt = (Ok (Integer (wrap_i64 v)), tt).
Proof.
  intros Hv Hl. assert (ds <> []) as Hne by (intros ->; done). split; [| apply hexadecimal_numeral; [by left | done]].
  pose proof (hex_string [] [] "x"%u8 ds [] v) as E. cbn [app] in E. rewrite app_nil_r in E.
  rewrite E; [| by constructor | by constructor | by left | by left | done]. pose proof (lua_hex_number_digits [] "x"%u8 ds v) as Hh.
  rewrite (proj2 (Z.leb_gt _ _) Hl) in Hh. apply Hh; [by left | by left | done | done].
Qed.
End Numerals.

(** ** Numerals in a base *)

(** The value of digits of [base]. *)
Fixpoint value_in_base (base : Z) (ds : list Z) (v : Z) : option Z :=
  match ds with
  | [] => Some v
  | b :: ds => d ← base_digit b; if d <? base then value_in_base base ds (v * base + d) else None
  end.

Lemma base_digits_value base ds rest v n digits w :
  value_in_base base ds v = Some w -> n = wrap_u64 v -> some_and (fun b => bool_decide (base_digit b <> None)) (head rest) = false ->
  base_digits base (ds ++ rest) n digits = inl (rest, wrap_u64 w, digits + zlen ds).
Proof.
  revert v n digits. induction ds as [| b ds IH]; intros v n digits; cbn [value_in_base app base_digits].
  - intros [= <-] -> Hr. unfold zlen. destruct rest as [| b rest]; cbn in *; [by rewrite Z.add_0_r |].
    destruct (base_digit b); [done |]. by rewrite Z.add_0_r.
  - intros Hv Hn Hr. destruct (base_digit b) as [d |]; [| done]. cbn [mbind option_bind] in Hv.
    destruct (Z.ltb_spec d base) as [Hd | Hd]; [| done]. rewrite (proj2 (Z.leb_gt _ _) Hd).
    rewrite (IH (v * base + d) _ _ Hv); [| | exact Hr].
    + rewrite zlen_cons. f_equal. f_equal. lia.
    + subst n. unfold wrap_u64. by rewrite Zmult_mod_idemp_l, Zplus_mod_idemp_l.
Qed.

(** [tonumber] with a base: digits of the base, with a sign and spaces around them, are
    their value modulo 2^64; whatever else starts or follows is no number. *)
Theorem number_in_base_digits base ws sg ds ws' v :
  all is_ascii_whitespace ws -> all is_ascii_whitespace ws' -> sign_text sg -> ds <> [] -> value_in_base base ds 0 = Some v ->
  number_in_base base (ws ++ sg ++ ds ++ ws') = VInteger (wrap_i64 (signed sg v)).
Proof.
  intros Hws Hws' Hsg Hne Hv.
  assert (unsigned (ds ++ ws') /\ some_and is_ascii_whitespace (head (ds ++ ws')) = false) as [Hu Hs].
  { destruct ds as [| b ds]; [done |]. cbn in *. destruct (base_digit b) eqn:Hb; [| done]. unfold unsigned, starts_with_sign. cbn.
    revert Hb. unfold base_digit, is_ascii_digit, is_ascii_alphabetic, is_sign, is_ascii_whitespace.
    repeat match goal with |- context [if ?c then _ else _] => destruct c eqn:? end; intros [= <-]; lia. }
  unfold number_in_base. rewrite trim_start_all; [| done |].
  2: { destruct Hsg as [-> | [-> | ->]]; [exact Hs | done..]. }
  destruct (sign_split sg (ds ++ ws') Hsg Hu) as (-> & -> & _ & _ & ->).
  rewrite (base_digits_value base ds ws' 0 0 0 v Hv); [| done |].
  2: { destruct Hws' as [| b ws' Hb]; [done |]. cbn. apply bool_decide_eq_false. intros Hn. apply Hn.
       unfold base_digit, is_ascii_digit, is_ascii_alphabetic. unfold is_ascii_whitespace in Hb.
       repeat match goal with |- context [if ?c then _ else _] => destruct c eqn:? end; lia || done. }
  destruct (Z.eqb_spec (0 + zlen ds) 0) as [E | _]; [destruct ds; [done |]; rewrite zlen_cons in E; pose proof (zlen_nonneg ds); lia |].
  assert (forallb is_ascii_whitespace ws' = true) as ->.
  { clear - Hws'. induction Hws' as [| b l Hb _ IH]; cbn; [done | by rewrite Hb]. }
  cbn. unfold signed. f_equal. destruct (is_byte (head sg) "-"%u8); [apply wrap_negative | apply wrap_i64_u64].
Qed.

(** ** Examples *)


Lemma long_hex_string_is_float_witness :
  (exists f, parse_number_bytes (fun _ _ => f64_one) (bytes_of_string "0x00000000000000001") = Some (VFloat f)) /\
  parse_number (E := Empty_set) (fun _ _ => f64_one) (bytes_of_string "0x00000000000000001") tt = (Ok (Integer 1), tt).
Proof. apply (long_hex_string_is_float (fun _ _ => f64_one) (bytes_of_string "00000000000000001") 1); reflexivity. Defined.

Lemma number_in_base_digits_witness : number_in_base 36 (bytes_of_string " -zZ ") = VInteger (-1295).
Proof.
  apply (number_in_base_digits 36 (bytes_of_string " ") ["-"%u8] (bytes_of_string "zZ") (bytes_of_string " ") 1295);
    [by repeat constructor | by repeat constructor | by right; right | done | reflexivity].
Defined.

(** The vertical tab is a space of the language and of the compiler, but not of numeric
    strings. *)
Theorem vertical_tab_string_rejected powi :
  Lexer.is_space 11 = true /\ parse_number_bytes powi (bytes_of_string "5" ++ [11]) = None /\
  parse_number_bytes powi (bytes_of_string "5" ++ [12]) = Some (VInteger 5).
Proof. split_and!; by vm_compute. Qed.
