(* ===== verification/Strings.v ===== *)
(** The string library (crates/rivetlua-runtime/src/stdlib/string.rs): arguments, positions,
    and the functions that need no pattern and no format; the texts of integers, substrings,
    bytes and repetition against the manual. *)

From Stdlib Require Import ZArith Lia.
From stdpp Require Import base list numbers strings.
From S2P Require Import Prelude Float Number Lexer LexerGrammar LexerTheorems Table ToNumber ToNumberTheorems.

Local Open Scope Z_scope.

(** ** What the library asks of the machine

    The arguments are read from the heap as it is at the call ([Heap]). [S] is the
    machine that changes: the ledger, which may refuse, and the heap, which takes new
    strings. *)
Class Machine (S : Type) := {
  machine_profile : LuaProfile;
  reserve_bytes : Z -> ST S RuntimeError unit;
  reserve_results : Z -> ST S RuntimeError unit;
  allocate_byte_string : list Z -> ST S RuntimeError ObjectRef
}.

(** [ops::basic_number_bytes] of a float: the text of a float is formatted elsewhere. *)
Class FloatText := float_text : f64 -> LuaProfile -> res RuntimeError (list Z).

(** The decimal digits of a natural number, which [write!] of an integer prints. *)
Fixpoint decimal_digits_from (fuel : nat) (n : Z) (acc : list Z) : list Z :=
  match fuel with
  | O => acc
  | S fuel => if n <? 10 then n + "0"%u8 :: acc else decimal_digits_from fuel (n / 10) (n mod 10 + "0"%u8 :: acc)
  end.
Definition decimal_digits (n : Z) : list Z := decimal_digits_from (Z.to_nat (Z.log2 n + 1)) n [].
Definition write_integer_text (n : Z) : list Z := if n <? 0 then "-"%u8 :: decimal_digits (- n) else decimal_digits n.

Section Strings.
Context {S : Type} `{Machine S} `{Heap} `{FloatText}.
Context (powi : f64 -> Z -> f64).

Notation M := (ST S RuntimeError).

(** ** Arguments *)

Definition argument : RuntimeError := runtime_error StringArgument.

Definition arg (args : list Value) (index : Z) : res RuntimeError Value :=
  match zget args index with Some v => Ok v | None => Err argument end.

Definition basic_number_bytes (value : Value) (profile : LuaProfile) : res RuntimeError (list Z) :=
  match value with
  | VInteger n => Ok (write_integer_text n)
  | VFloat x => float_text x profile
  | _ => Err (runtime_error BasicArgument)
  end.

Definition integer (value : Value) : res RuntimeError Z :=
  number ← number powi value None;
  match lua_integer number with Some n => Ok n | None => Err argument end.

Definition optional_integer (value : option Value) (default : Z) : res RuntimeError Z :=
  match value with None | Some VNil => Ok default | Some value => integer value end.

(** The bytes that [f] is given. *)
Definition with_bytes (value : Value) : res RuntimeError (list Z) :=
  match value with
  | VObject o =>
      kind ← from_heap (object_kind o);
      if bool_decide (kind = ObjectKind.ByteString) then s ← from_heap (with_byte_string o); Ok (as_bytes s)
      else Err argument
  | VInteger _ | VFloat _ => basic_number_bytes value machine_profile
  | _ => Err argument
  end.

(** [string_len] of table.rs, whose errors are those of the basic library. *)
Definition string_len (value : Value) : res RuntimeError Z :=
  match value with
  | VObject o =>
      kind ← from_heap (object_kind o);
      if bool_decide (kind = ObjectKind.ByteString) then s ← from_heap (with_byte_string o); Ok (zlen (as_bytes s))
      else Err (runtime_error BasicArgument)
  | VInteger _ | VFloat _ => bytes ← basic_number_bytes value machine_profile; Ok (zlen bytes)
  | _ => Err (runtime_error BasicArgument)
  end.

Definition max_size (profile : LuaProfile) : Z := match profile with Lua54 => I32_MAX | Lua55 => I64_MAX end.

(** ** Positions *)

Definition start_position (position len : Z) : Z :=
  if 0 <? position then position
  else if position =? 0 then 1
  else let backward := - position in if len <? backward then 1 else len - backward + 1.

Definition end_position (position len : Z) : Z :=
  if 0 <=? position then Z.min position len
  else let backward := - position in if len <? backward then 0 else len - backward + 1.

Definition range (args : list Value) (len : Z) (byte : bool) : res RuntimeError (Z * Z) :=
  first ← optional_integer (zget args 1) 1;
  last ← optional_integer (zget args 2) (if byte then first else -1);
  Ok (start_position first len, end_position last len).

(** [source[first - 1..last]]: out of range it panics. *)
Definition sub_slice (source : list Z) (first last : Z) : res RuntimeError (list Z) :=
  if (0 <=? first - 1) && (first - 1 <=? last) && (last <=? zlen source)
  then Ok (take (Z.to_nat (last - (first - 1))) (drop (Z.to_nat (first - 1)) source))
  else Crash Panicked.

(** ** Repetition *)

Inductive RepLength := Length (n : Z) | TooLarge.

(** [u128] holds every product of a [u64] sum with an [i64]. *)
Definition rep_len (args : list Value) : res RuntimeError RepLength :=
  v ← arg args 1;
  count ← integer v;
  source ← arg args 0;
  source_len ← string_len source;
  separator_len ← (match zget args 2 with None | Some VNil => Ok 0 | Some value => string_len value end);
  if (count <=? 0) || (Z.lor source_len separator_len =? 0) then Ok (Length 0) else
  let total := (source_len + separator_len) * count in
  if max_size machine_profile <? total then Ok TooLarge else Ok (Length (total - separator_len)).

(** [for i in 0..count]: the source, and the separator but after the last. *)
Fixpoint repeated (n : nat) (source separator : list Z) : list Z :=
  match n with
  | O => []
  | Datatypes.S n => source ++ (match n with O => [] | _ => separator end) ++ repeated n source separator
  end.

(** ** Results *)

Definition values (vs : list Value) : M (list Value) := reserve_results (zlen vs);; mret vs.

(** [Buffer::new] with its bytes, and [string_result]. *)
Definition string_result (bytes : list Z) : M (list Value) :=
  o ← allocate_byte_string bytes;
  values [VObject o].

(** An error with a text for Lua. *)
Definition argument_with_message (message : list Z) : M RuntimeError :=
  o ← allocate_byte_string message;
  mret {| error_kind := StringArgument; error_value := VObject o |}.

Definition char_range_message (index : Z) : list Z :=
  bytes_of_string "bad argument #" ++ decimal_digits index ++ bytes_of_string " to 'char' (value out of range)".
Definition char_range_error (index : Z) : M RuntimeError := argument_with_message (char_range_message index).
Definition rep_too_large_error : M RuntimeError := argument_with_message (bytes_of_string "resulting string too large").

(** ** The functions *)

Definition byte (args : list Value) : M (list Value) :=
  v ← lift (arg args 0);
  source ← lift (with_bytes v);
  '(first, last) ← lift (range args (zlen source) true);
  if last <? first then values [] else
  let count := last - first + 1 in
  if I32_MAX <=? count then fail argument else
  reserve_results count;;
  part ← lift (sub_slice source first last);
  mret (map VInteger part).

(** The first argument that is no byte, from [index] on. *)
Fixpoint check_chars (args : list Value) (index : Z) : M unit :=
  match args with
  | [] => mret tt
  | v :: args =>
      n ← lift (integer v);
      if (0 <=? n) && (n <=? 255) then check_chars args (index + 1)
      else error ← char_range_error (index + 1); fail error
  end.
Fixpoint push_chars (args : list Value) : res RuntimeError (list Z) :=
  match args with
  | [] => Ok []
  | v :: args => n ← integer v; bytes ← push_chars args; Ok (n mod 256 :: bytes)
  end.
Definition char (args : list Value) : M (list Value) :=
  check_chars args 0;;
  reserve_bytes (zlen args);;
  bytes ← lift (push_chars args);
  string_result bytes.

Definition len (args : list Value) : M (list Value) :=
  v ← lift (arg args 0);
  n ← lift (string_len v);
  if n <=? I64_MAX then values [VInteger n] else fail (runtime_error (HeapError ArithmeticOverflow)).

(** [lower], [upper] and [reverse]. *)
Definition transformed (f : list Z -> list Z) (args : list Value) : M (list Value) :=
  v ← lift (arg args 0);
  source ← lift (with_bytes v);
  reserve_bytes (zlen source);;
  string_result (f source).

Definition to_ascii_uppercase (b : Z) : Z := if ("a"%u8 <=? b) && (b <=? "z"%u8) then b - 32 else b.
Definition lower : list Value -> M (list Value) := transformed (map ascii_lowercase).
Definition upper : list Value -> M (list Value) := transformed (map to_ascii_uppercase).
Definition reverse : list Value -> M (list Value) := transformed (@rev Z).

Definition sub (args : list Value) : M (list Value) :=
  v ← lift (arg args 0);
  source ← lift (with_bytes v);
  '(first, last) ← lift (range args (zlen source) false);
  part ← lift (if first <=? last then sub_slice source first last else Ok []);
  reserve_bytes (zlen part);;
  string_result part.

Definition rep (args : list Value) : M (list Value) :=
  v ← lift (arg args 1);
  count ← lift (integer v);
  total ← lift (rep_len args);
  match total with
  | TooLarge => error ← rep_too_large_error; fail error
  | Length total =>
      reserve_bytes total;;
      bytes ← lift (if 0 <? total then
                      v ← arg args 0;
                      source ← with_bytes v;
                      separator ← (match zget args 2 with None | Some VNil => Ok [] | Some value => with_bytes value end);
                      Ok (repeated (Z.to_nat count) source separator)
                    else Ok []);
      string_result bytes
  end.

Definition dump : M (list Value) := fail (runtime_error HostPolicyStringDump).

End Strings.

(** ** Decimal texts *)

Lemma hex_value_digit d : 0 <= d < 10 -> hex_value (d + "0"%u8) = Some d.
Proof. intros Hd. unfold hex_value, is_ascii_digit. destruct (_ && _) eqn:E; [f_equal; lia | lia]. Qed.

(** More digits in front of [acc]. *)
Lemma decimal_digits_from_value fuel n acc m :
  0 <= n -> n < 2 ^ Z.of_nat fuel -> (0 < fuel)%nat ->
  fold_left (fun a b => a ← a; d ← hex_value b; if d <? 10 then Some (a * 10 + d) else None) acc (Some n) = Some m ->
  digits_value 10 (decimal_digits_from fuel n acc) = Some m /\ decimal_digits_from fuel n acc <> [].
Proof.
  revert n acc. induction fuel as [| fuel IH]; intros n acc Hn Hlt Hf Hm; [lia |].
  cbn [decimal_digits_from]. destruct (Z.ltb_spec n 10) as [H10 | H10].
  - split; [| done]. unfold digits_value. cbn [fold_left mbind option_bind]. rewrite hex_value_digit by lia. cbn [mbind option_bind].
    rewrite (proj2 (Z.ltb_lt n 10)) by lia. by rewrite Z.mul_0_l, Z.add_0_l.
  - pose proof (Z.div_mod n 10 ltac:(lia)) as Hdm. pose proof (Z.mod_pos_bound n 10 ltac:(lia)) as Hmod.
    rewrite Nat2Z.inj_succ, Z.pow_succ_r in Hlt by lia. pose proof (Z.pow_pos_nonneg 2 (Z.of_nat fuel) ltac:(lia) ltac:(lia)).
    assert (n / 10 < 2 ^ Z.of_nat fuel) as Hlt' by (apply Z.div_lt_upper_bound; lia).
    assert (0 < fuel)%nat as Hf'. { destruct fuel; [change (2 ^ Z.of_nat 0) with 1 in Hlt; lia | lia]. }
    apply IH; [apply Z.div_pos; lia | done | done |].
    cbn [fold_left mbind option_bind]. rewrite hex_value_digit by lia. cbn [mbind option_bind].
    rewrite (proj2 (Z.ltb_lt (n mod 10) 10)) by lia. replace (n / 10 * 10 + n mod 10) with n by lia. exact Hm.
Qed.

Lemma decimal_digits_value n : 0 <= n -> digits_value 10 (decimal_digits n) = Some n /\ decimal_digits n <> [].
Proof.
  intros Hn. pose proof (Z.log2_nonneg n). apply decimal_digits_from_value; [done | | lia | done].
  destruct (Z.eq_dec n 0) as [-> | Hne]; [done |].
  pose proof (Z.log2_spec n ltac:(lia)) as [_ Hl]. rewrite Z2Nat.id by lia. exact Hl.
Qed.

Lemma write_integer_signed n : exists sg ds v,
  sign_text sg /\ write_integer_text n = sg ++ ds /\ ds <> [] /\ digits_value 10 ds = Some v /\ signed sg v = n.
Proof.
  unfold write_integer_text. destruct (Z.ltb_spec n 0) as [Hn | Hn].
  - destruct (decimal_digits_value (- n) ltac:(lia)) as [Hv Hne]. exists ["-"%u8], (decimal_digits (- n)), (- n).
    split_and!; [by right; right | done.. |]. unfold signed. change (is_byte (head ["-"%u8]) "-"%u8) with true. cbn iota. lia.
  - destruct (decimal_digits_value n ltac:(lia)) as [Hv Hne]. exists [], (decimal_digits n), n. by split_and!; [left | ..].
Qed.

(** The text of an integer, as it is printed and concatenated, reads back as that integer. *)
Theorem integer_text_round_trip powi n : i64 n -> parse_number_bytes powi (write_integer_text n) = Some (VInteger n).
Proof.
  intros Hn. destruct (write_integer_signed n) as (sg & ds & v & Hsg & -> & Hne & Hv & E).
  pose proof (decimal_string powi [] sg ds [] v) as Hd. rewrite app_nil_r, E in Hd.
  cbn [app] in Hd. rewrite Hd; [| by constructor | by constructor | done..].
  unfold i64 in Hn. replace ((I64_MIN <=? n) && (n <=? I64_MAX)) with true by lia. done.
Qed.

Lemma integer_text_round_trip_witness :
  parse_number_bytes (fun _ _ => f64_one) (write_integer_text I64_MIN) = Some (VInteger I64_MIN) /\
  write_integer_text (-120) = bytes_of_string "-120".
Proof. split; [apply integer_text_round_trip; range_lia | reflexivity]. Defined.

(** ** Substrings *)

(** The manual's reading of a position: a negative one counts from the end. *)
Definition translate (position len : Z) : Z := if position <? 0 then len + position + 1 else position.

(** The bytes of [source], numbered from [k], whose number is within [lo] and [hi]. *)
Fixpoint bytes_within (lo hi k : Z) (source : list Z) : list Z :=
  match source with
  | [] => []
  | b :: rest => (if (lo <=? k) && (k <=? hi) then [b] else []) ++ bytes_within lo hi (k + 1) rest
  end.
Definition substring (i j : Z) (source : list Z) : list Z :=
  bytes_within (translate i (zlen source)) (translate j (zlen source)) 1 source.

Lemma bytes_within_none lo hi k source : hi < k \/ hi < lo -> bytes_within lo hi k source = [].
Proof.
  revert k. induction source as [| b source IH]; intros k Hk; cbn [bytes_within]; [done |].
  rewrite IH by lia. destruct (_ && _) eqn:E; [lia | done].
Qed.

Lemma bytes_within_take lo hi k source : lo <= k -> k - 1 <= hi -> bytes_within lo hi k source = take (Z.to_nat (hi - k + 1)) source.
Proof.
  revert k. induction source as [| b source IH]; intros k Hlo Hhi; cbn [bytes_within]; [by rewrite take_nil |].
  destruct (decide (k <= hi)) as [Hk | Hk].
  - rewrite IH by lia. replace ((lo <=? k) && (k <=? hi)) with true by lia.
    replace (Z.to_nat (hi - k + 1)) with (Datatypes.S (Z.to_nat (hi - (k + 1) + 1))) by lia. done.
  - rewrite bytes_within_none by lia. replace ((lo <=? k) && (k <=? hi)) with false by lia.
    by replace (Z.to_nat (hi - k + 1)) with 0%nat by lia.
Qed.

Lemma bytes_within_drop lo hi k source : k <= lo -> lo - 1 <= hi ->
  bytes_within lo hi k source = take (Z.to_nat (hi - lo + 1)) (drop (Z.to_nat (lo - k)) source).
Proof.
  revert k. induction source as [| b source IH]; intros k Hlo Hhi.
  { by rewrite drop_nil, take_nil. }
  destruct (decide (k = lo)) as [-> | Hk].
  { rewrite bytes_within_take by lia. by rewrite Z.sub_diag. }
  cbn [bytes_within]. replace ((lo <=? k) && (k <=? hi)) with false by lia.
  rewrite IH by lia. by replace (Z.to_nat (lo - k)) with (Datatypes.S (Z.to_nat (lo - (k + 1)))) by lia.
Qed.

(** Only the part of the range inside the source matters. *)
Lemma bytes_within_clip lo hi lo' hi' k source :
  (forall x, k <= x < k + zlen source -> (lo <= x <= hi <-> lo' <= x <= hi')) ->
  bytes_within lo hi k source = bytes_within lo' hi' k source.
Proof.
  revert k. induction source as [| b source IH]; intros k Hk; cbn [bytes_within]; [done |].
  rewrite zlen_cons in Hk. pose proof (zlen_nonneg source). rewrite IH by (intros x Hx; apply Hk; lia).
  specialize (Hk k ltac:(lia)). by replace ((lo <=? k) && (k <=? hi)) with ((lo' <=? k) && (k <=? hi')) by lia.
Qed.

Lemma bytes_within_Forall (P : Z -> Prop) lo hi k source : Forall P source -> Forall P (bytes_within lo hi k source).
Proof.
  intros Hs. revert k. induction Hs as [| b source Hb _ IH]; intros k; cbn [bytes_within]; [constructor |].
  apply Forall_app. split; [case_match; by repeat constructor | apply IH].
Qed.

(** The positions the code computes are within the source, and select the substring. *)
Lemma start_position_spec i len : 0 <= len ->
  1 <= start_position i len /\ (forall x, 1 <= x -> translate i len <= x <-> start_position i len <= x).
Proof. intros Hlen. unfold start_position, translate. repeat case_match; split; lia. Qed.

Lemma end_position_spec j len : 0 <= len ->
  0 <= end_position j len <= len /\ (forall x, 1 <= x <= len -> x <= translate j len <-> x <= end_position j len).
Proof. intros Hlen. unfold end_position, translate. repeat case_match; split; lia. Qed.

Lemma sub_slice_substring i j source :
  (if start_position i (zlen source) <=? end_position j (zlen source)
   then sub_slice source (start_position i (zlen source)) (end_position j (zlen source)) else Ok []) = Ok (substring i j source).
Proof.
  destruct (start_position_spec i (zlen source) (zlen_nonneg _)) as [Hs Hs'].
  destruct (end_position_spec j (zlen source) (zlen_nonneg _)) as [He He'].
  set (first := start_position i (zlen source)) in *. set (last := end_position j (zlen source)) in *.
  unfold substring. rewrite (bytes_within_clip _ _ first last); [| intros x Hx; rewrite Hs', He' by lia; done].
  destruct (Z.leb_spec first last) as [Hle | Hle]; [| by rewrite bytes_within_none by lia].
  unfold sub_slice. replace ((0 <=? first - 1) && (first - 1 <=? last) && (last <=? zlen source)) with true by lia.
  rewrite bytes_within_drop by lia. do 3 f_equal; lia.
Qed.

(** ** Repetition *)

(** The manual's [string.rep]: [n] copies with the separator between them. *)
Definition joined (n : nat) (source separator : list Z) : list Z :=
  match n with O => [] | Datatypes.S n => source ++ concat (replicate n (separator ++ source)) end.

Lemma repeated_joined n source separator : repeated n source separator = joined n source separator.
Proof.
  induction n as [| [| n] IH]; [done | done |].
  change (repeated (Datatypes.S (Datatypes.S n)) source separator)
    with (source ++ separator ++ repeated (Datatypes.S n) source separator).
  rewrite IH. cbn [joined replicate concat]. by rewrite !app_assoc.
Qed.

Lemma joined_length n source separator :
  zlen (joined n source separator) = if (0 <? n)%nat then (zlen source + zlen separator) * Z.of_nat n - zlen separator else 0.
Proof.
  destruct n as [| n]; [done |]. cbn [joined]. rewrite zlen_app. change (0 <? Datatypes.S n)%nat with true. cbn iota.
  induction n as [| n IH]; [cbn; rewrite zlen_nil; lia |].
  cbn [replicate concat]. rewrite !zlen_app. rewrite (Nat2Z.inj_succ (Datatypes.S n)), Z.mul_succ_r. lia.
Qed.

(** ** The functions *)

Section Functions.
Context {S : Type} `{Machine S} `{Heap} `{FloatText}.
Context (powi : f64 -> Z -> f64).

Lemma string_len_bytes v bytes : with_bytes v = Ok bytes -> string_len v = Ok (zlen bytes).
Proof.
  destruct v; cbn; intros Hv; try done.
  - by injection Hv as <-.
  - by rewrite Hv.
  - unfold mbind, res_bind in *. repeat (case_match || case_bool_decide || simplify_eq); done.
Qed.

Lemma lift_Ok {E A B} (a : A) (f : A -> ST S E B) : lift (Ok a) ≫= f = f a.
Proof. done. Qed.

Lemma arg_Ok args i v : zget args i = Some v -> arg args i = Ok v.
Proof. unfold arg. by intros ->. Qed.

Lemma range_Ok args len (bytes : bool) i j :
  optional_integer powi (zget args 1) 1 = Ok i -> optional_integer powi (zget args 2) (if bytes then i else -1) = Ok j ->
  range powi args len bytes = Ok (start_position i len, end_position j len).
Proof. unfold range. intros -> Hj. cbn [mbind res_bind]. by rewrite Hj. Qed.

(** C34: [string.sub] allocates the bytes at the positions from the first to the last, as the manual counts them. *)
Theorem sub_substring args v source i j :
  zget args 0 = Some v -> with_bytes v = Ok source ->
  optional_integer powi (zget args 1) 1 = Ok i -> optional_integer powi (zget args 2) (-1) = Ok j ->
  sub powi args = (reserve_bytes (zlen (substring i j source));; string_result (substring i j source)).
Proof.
  intros Hargs Hv Hi Hj. unfold sub. rewrite (arg_Ok _ _ v) by done. rewrite lift_Ok, Hv, lift_Ok.
  rewrite (range_Ok _ _ _ i j) by done. by rewrite lift_Ok, sub_slice_substring.
Qed.

(** [byte], whose slice is never out of range. *)
Lemma byte_substring args v source i j :
  zget args 0 = Some v -> with_bytes v = Ok source ->
  optional_integer powi (zget args 1) 1 = Ok i -> optional_integer powi (zget args 2) i = Ok j ->
  byte powi args = if I32_MAX <=? zlen (substring i j source) then fail argument
                   else (reserve_results (zlen (substring i j source));; mret (map VInteger (substring i j source))).
Proof.
  intros Hargs Hv Hi Hj. unfold byte. rewrite (arg_Ok _ _ v) by done. rewrite lift_Ok, Hv, lift_Ok.
  rewrite (range_Ok _ _ _ i j) by done. rewrite lift_Ok.
  pose proof (sub_slice_substring i j source) as E.
  destruct (Z.leb_spec (start_position i (zlen source)) (end_position j (zlen source))) as [Hle | Hlt].
  - assert (end_position j (zlen source) - start_position i (zlen source) + 1 = zlen (substring i j source)) as ->.
    { revert E. unfold sub_slice. case_match; [| done]. intros [= <-]. rewrite (zlen_eq (take _ _)), length_take, length_drop.
      pose proof (zlen_eq source). lia. }
    replace (end_position j (zlen source) <? start_position i (zlen source)) with false by lia. case_match; [done |].
    by rewrite E, lift_Ok.
  - injection E as <-. replace (end_position j (zlen source) <? start_position i (zlen source)) with true by lia. done.
Qed.

Lemma char_bytes source :
  Forall (fun b => 0 <= b <= 255) source ->
  char powi (map VInteger source) = (reserve_bytes (zlen source);; string_result source).
Proof.
  intros Hs. unfold char.
  assert (forall k, check_chars powi (map VInteger source) k = mret tt) as ->.
  { induction Hs as [| b source Hb _ IH]; intros k; cbn [map check_chars]; [done |].
    change (integer powi (VInteger b)) with (@Ok RuntimeError Z b). rewrite lift_Ok.
    replace ((0 <=? b) && (b <=? 255)) with true by lia. apply IH. }
  assert (push_chars powi (map VInteger source) = Ok source) as ->.
  { induction Hs as [| b source Hb _ IH]; cbn [map push_chars]; [done |].
    change (integer powi (VInteger b)) with (@Ok RuntimeError Z b). cbn [mbind res_bind]. rewrite IH. cbn [mbind res_bind].
    by rewrite Z.mod_small by lia. }
  unfold zlen. rewrite length_map. done.
Qed.

(** [string.char] of what [string.byte] returned allocates the bytes that were asked for. *)
Theorem char_of_byte args v source i j st vs st' :
  zget args 0 = Some v -> with_bytes v = Ok source -> Forall (fun b => 0 <= b <= 255) source ->
  optional_integer powi (zget args 1) 1 = Ok i -> optional_integer powi (zget args 2) i = Ok j ->
  byte powi args st = (Ok vs, st') ->
  char powi vs = (reserve_bytes (zlen (substring i j source));; string_result (substring i j source)).
Proof.
  intros Hargs Hv Hs Hi Hj. rewrite (byte_substring args v source i j) by done. case_match; [done |].
  intros (u & s1 & _ & [= <- _])%bind_Ok. apply char_bytes.
  by apply bytes_within_Forall.
Qed.

(** C35: [string.rep] allocates the copies and separators of the manual, in a buffer reserved at exactly their length; a
    result above the largest size of the profile is an error, before anything is reserved. *)
Theorem rep_joined args v w source separator count :
  zget args 0 = Some v -> with_bytes v = Ok source ->
  zget args 1 = Some w -> integer powi w = Ok count ->
  (match zget args 2 with None | Some VNil => Ok [] | Some value => with_bytes value end) = Ok separator ->
  rep powi args =
    if max_size machine_profile <? (zlen source + zlen separator) * count then error ← rep_too_large_error; fail error
    else (reserve_bytes (zlen (joined (Z.to_nat count) source separator));;
          string_result (joined (Z.to_nat count) source separator)).
Proof.
  intros Hargs Hv Hw Hcount Hsep. unfold rep, rep_len.
  rewrite (arg_Ok _ 1 w), lift_Ok, Hcount, lift_Ok by done. cbn [mbind res_bind]. rewrite Hcount.
  rewrite (arg_Ok _ 0 v) by done. cbn [mbind res_bind]. rewrite (string_len_bytes v source) by done. cbn [mbind res_bind].
  assert ((match zget args 2 with None | Some VNil => Ok 0 | Some value => string_len value end) = Ok (zlen separator)) as ->.
  { destruct (zget args 2) as [[] |]; try (by apply string_len_bytes); by injection Hsep as <-. }
  cbn [mbind res_bind]. pose proof (zlen_nonneg source). pose proof (zlen_nonneg separator).
  assert (0 <= max_size machine_profile) as Hmax by (by destruct machine_profile).
  pose proof (joined_length (Z.to_nat count) source separator) as Hlen.
  destruct (Z.leb_spec count 0) as [Hc | Hc]; cbn [orb].
  - replace (max_size machine_profile <? _) with false by nia. rewrite lift_Ok.
    by replace (Z.to_nat count) with 0%nat by lia.
  - replace (0 <? Z.to_nat count)%nat with true in Hlen by (symmetry; apply Nat.ltb_lt; lia). rewrite Z2Nat.id in Hlen by lia.
    destruct (Z.eqb_spec (Z.lor (zlen source) (zlen separator)) 0) as [[Hs0 Hl0]%Z.lor_eq_0_iff | Hne].
    + replace (max_size machine_profile <? _) with false by nia. rewrite lift_Ok.
      assert (joined (Z.to_nat count) source separator = []) as ->; [| done].
      apply nil_length_inv. unfold zlen in *. nia.
    + destruct (max_size machine_profile <? _) eqn:E; [by rewrite lift_Ok |]. rewrite lift_Ok, <- Hlen.
      destruct (Z.ltb_spec 0 (zlen (joined (Z.to_nat count) source separator))) as [Hp | Hp].
      * cbn [mbind res_bind]. rewrite Hv. cbn [mbind res_bind]. rewrite Hsep. cbn [mbind res_bind]. rewrite repeated_joined. done.
      * assert (joined (Z.to_nat count) source separator = []) as ->; [| done].
        apply nil_length_inv. unfold zlen in *. lia.
Qed.

End Functions.

(** ** A concrete machine

    It counts the reserved bytes and values and keeps the new strings. *)
Module StringsDemo.

Record Demo := { reserved : Z; results : Z; strings : list (list Z) }.
Definition start : Demo := {| reserved := 0; results := 0; strings := [] |}.

#[export] Instance machine : Machine Demo := {|
  machine_profile := Lua54;
  reserve_bytes := fun n s => (Ok tt, {| reserved := reserved s + n; results := results s; strings := strings s |});
  reserve_results := fun n s => (Ok tt, {| reserved := reserved s; results := results s + n; strings := strings s |});
  allocate_byte_string := fun bytes s =>
    (Ok (Opaque_ref (zlen (strings s))), {| reserved := reserved s; results := results s; strings := strings s ++ [bytes] |})
|}.

#[export] Instance heap : Heap := {|
  heap_id := {| vm_number := 1 |};
  object_kind _ := Ok ObjectKind.ByteString;
  with_byte_string o := Ok {| backing := Owned; as_bytes := bytes_of_string (if bool_decide (o = Opaque_ref 0) then "rivet" else ", ") |}
|}.
#[export] Instance text : FloatText := fun _ _ => Ok [].

Definition powi (x : f64) (n : Z) : f64 := f64_one.
Definition rivet : Value := VObject (Opaque_ref 0).
Definition comma : Value := VObject (Opaque_ref 1).

(** What a run allocated, with what it reserved before. *)
Definition allocated {A} (m : ST Demo RuntimeError A) : list (list Z) * Z := let s := snd (m start) in (strings s, reserved s).

Lemma sub_substring_witness :
  sub powi [rivet; VInteger (-4); VInteger 3] = (reserve_bytes 2;; string_result (bytes_of_string "iv")) /\
  allocated (sub powi [rivet; VInteger (-4); VInteger 3]) = ([bytes_of_string "iv"], 2) /\
  allocated (sub powi [rivet; VInteger I64_MIN]) = ([bytes_of_string "rivet"], 5).
Proof. split; [by apply (sub_substring powi _ rivet (bytes_of_string "rivet") (-4) 3) | split; reflexivity]. Defined.

Lemma char_of_byte_witness :
  char powi [VInteger 118; VInteger 101; VInteger 116] = (reserve_bytes 3;; string_result (bytes_of_string "vet")).
Proof.
  apply (char_of_byte powi [rivet; VInteger 3; VInteger (-1)] rivet (bytes_of_string "rivet") 3 (-1) start _
    {| reserved := 0; results := 3; strings := [] |}); try reflexivity.
  by apply (bool_decide_unpack _).
Defined.

Lemma rep_joined_witness :
  rep powi [rivet; VInteger 2; comma] = (reserve_bytes 12;; string_result (bytes_of_string "rivet, rivet")) /\
  allocated (rep powi [rivet; VInteger 2; comma]) = ([bytes_of_string "rivet, rivet"], 12) /\
  allocated (rep powi [rivet; VInteger I32_MAX; comma]) = ([bytes_of_string "resulting string too large"], 0).
Proof.
  split; [exact (rep_joined powi [rivet; VInteger 2; comma] rivet (VInteger 2) (bytes_of_string "rivet") (bytes_of_string ", ") 2
      eq_refl eq_refl eq_refl eq_refl eq_refl) | split; reflexivity].
Defined.

End StringsDemo.
