(* ===== verification/LookupCache.v ===== *)
(** The cache of integer lookups (crates/rivetlua-runtime/src/vm/mod.rs): a table's
    version names its state, so a remembered value is the current one. *)

From Stdlib Require Import ZArith Lia.
From stdpp Require Import base list numbers gmap relations.
From S2P Require Import Prelude Float Number Lexer Table TableSpec TableTheorems.

Local Open Scope Z_scope.

(** ** [raw_read_table_cached] *)

Record LookupCacheEntry := {
  lc_vm_id : VmId;
  lc_profile : LuaProfile;
  lc_table : ObjectRef;
  lc_metatable : option ObjectRef;
  lc_key : Z;
  lc_version : Z;
  lc_value : Value
}.

#[export] Instance LuaProfile_eq_dec : EqDecision LuaProfile.
Proof. solve_decision. Defined.

(** [[None; 8]]. *)
Definition empty_cache : list (option LookupCacheEntry) := replicate 8 None.

(** [(integer as u64 as usize) & (len - 1)]. *)
Definition cache_index (cache : list (option LookupCacheEntry)) (integer : Z) : Z :=
  Z.land (wrap_u64 integer) (zlen cache - 1).

Section Reads.
Context `{Hasher} `{Heap} {L : Type} `{Ledger L} (profile : LuaProfile).

(** Whether a remembered lookup is this one. *)
Definition cache_hit (t : Table) (object : ObjectRef) (integer version : Z) (hit : LookupCacheEntry) : bool :=
  bool_decide (lc_vm_id hit = heap_id) && bool_decide (lc_profile hit = profile) &&
  bool_decide (lc_table hit = object) && bool_decide (lc_metatable hit = metatable t) &&
  (lc_key hit =? integer) && (lc_version hit =? version).

Definition cacheable (v : Value) : bool :=
  match v with VBoolean _ | VInteger _ | VFloat _ => true | _ => false end.

(** The value, and what to put in the slot of the cache. *)
Definition cached_lookup (t : Table) (object : ObjectRef) (integer : Z) (cached : option LookupCacheEntry)
    : Value * option (option LookupCacheEntry) :=
  match lookup_cache_version t integer with
  | None => (get_integer t integer, Some None)
  | Some version =>
      let miss :=
        let value := get_integer t integer in
        (value, Some (if cacheable value then
                        Some {| lc_vm_id := heap_id; lc_profile := profile; lc_table := object; lc_metatable := None;
                                lc_key := integer; lc_version := version; lc_value := value |}
                      else None)) in
      match cached with
      | Some hit => if cache_hit t object integer version hit then (lc_value hit, None) else miss
      | None => miss
      end
  end.

(** [table] is what [with_table] finds. *)
Definition raw_read_table_cached (table : res VmError Table) (object : ObjectRef) (key : Value)
    : ST (list (option LookupCacheEntry) * L) VmError Value := fun s =>
  match key with
  | VInteger integer =>
      match vget (E := VmError) s.1 (cache_index s.1 integer), table with
      | Ok cached, Ok t =>
          let found := cached_lookup t object integer cached in
          match found.2 with
          | Some replacement => (Ok found.1, (zinsert s.1 (cache_index s.1 integer) replacement, s.2))
          | None => (Ok found.1, s)
          end
      | Ok _, Err e => (Err e, s)
      | Ok _, Crash c | Crash c, _ => (Crash c, s)
      | Err e, _ => (Err e, s)
      end
  | _ =>
      match table with
      | Ok t => let r := raw_get t key s.2 in (r.1, (s.1, r.2))
      | Err e => (Err e, s)
      | Crash c => (Crash c, s)
      end
  end.

End Reads.

(** ** The version of a table *)

(** What the runtime does to a table. *)
Inductive table_step : Table -> Table -> Prop :=
  | step_mutation m t t' : apply_mutation m t = Ok t' -> table_step t t'
  | step_metatable t o : table_step t (set_metatable t o)
  | step_weak_mode t mode : table_step t (set_weak_mode t mode)
  | step_restore t name v t' : restore_existing_byte_key t name v = Ok t' -> table_step t t'
  | step_ref_pair p t t' : apply_ref_pair p t = Ok t' -> table_step t t'
  | step_clear L `(Ledger L) dead live_key values keys t (l : L) :
      table_step t (clear_dead_weak_pairs dead live_key values keys t l).1.2.

(** The version only grows, and while it stands still, below its maximum, so does the table. *)
Definition version_le (t t' : Table) : Prop :=
  mutation_version t <= mutation_version t' <= U64_MAX /\
  (mutation_version t' = mutation_version t -> mutation_version t' < U64_MAX -> t' = t).

Lemma version_le_refl t : mutation_version t <= U64_MAX -> version_le t t.
Proof. by split. Qed.

Lemma version_le_trans t1 t2 t3 : version_le t1 t2 -> version_le t2 t3 -> version_le t1 t3.
Proof.
  intros [H12 E12] [H23 E23]. split; [lia |]. intros E Hmax. rewrite E23 in * by lia. apply E12; lia.
Qed.

Lemma version_le_bump t t1 :
  mutation_version t <= U64_MAX -> mutation_version t1 = mutation_version t -> version_le t (bump_mutation_version t1).
Proof. intros Ht E. unfold version_le. cbn. rewrite E. lia. Qed.


Lemma apply_mutation_version m t t' :
  mutation_version t <= U64_MAX -> apply_mutation m t = Ok t' -> version_le t t'.
Proof.
  intros Ht. destruct m; cbn [apply_mutation];
    [by intros [= <-]; apply version_le_refl
    | intros H; repeat (apply res_bind_Ok in H as (? & _ & H)); injection H as <-; by apply version_le_bump..].
Qed.

Lemma set_metatable_version t o : mutation_version t <= U64_MAX -> version_le t (set_metatable t o).
Proof.
  intros Ht. unfold set_metatable. case_bool_decide as E.
  - subst o. apply version_le_refl in Ht. by destruct t.
  - by apply (version_le_bump t (with_metatable t o)).
Qed.

Lemma set_weak_mode_version t mode : mutation_version t <= U64_MAX -> version_le t (set_weak_mode t mode).
Proof.
  intros Ht. unfold set_weak_mode. case_bool_decide as E.
  - subst mode. apply version_le_refl in Ht. by destruct t.
  - by apply (version_le_bump t (with_weak_mode t mode)).
Qed.

Lemma restore_version t name v t' :
  mutation_version t <= U64_MAX -> restore_existing_byte_key t name v = Ok t' -> version_le t t'.
Proof.
  intros Ht. unfold restore_existing_byte_key. destruct (list_find _ _) as [[i b] |]; [| done].
  intros [= <-]. by apply version_le_bump.
Qed.

Lemma apply_entry_version t e t' : apply_entry t e = Ok t' -> mutation_version t' = mutation_version t.
Proof.
  unfold apply_entry. destruct (rp_slot e); intros H; apply res_bind_Ok in H as (x & _ & H).
  - by injection H as <-.
  - destruct x as [[key v] |]; [apply res_bind_Ok in H as (? & _ & H) |]; by injection H as <-.
  - by injection H as <-.
Qed.

Lemma apply_ref_pair_version p t t' :
  mutation_version t <= U64_MAX -> apply_ref_pair p t = Ok t' -> version_le t t'.
Proof.
  intros Ht H. unfold apply_ref_pair in H. apply res_bind_Ok in H as (t1 & H1 & H).
  apply res_bind_Ok in H as (t2 & H2 & H). injection H as <-. apply version_le_bump; [done |].
  assert (mutation_version t1 = mutation_version t) as <-.
  { destruct (rp_hash_growth p); [apply res_bind_Ok in H1 as (? & _ & H1) |]; injection H1 as <-;
      by destruct (rp_array_growth p). }
  eapply (fold_res_Ok apply_entry (fun _ t => mutation_version t = mutation_version t1)); [exact H2 | done |].
  intros _ e _ a a' _ Ha He. by rewrite (apply_entry_version _ _ _ He).
Qed.

(** The sweep of a weak table: each step that changes it bumps the version. *)
Lemma each_rel {S A} (visit : A -> ST S VmError unit) (R : S -> S -> Prop) `{!PreOrder R} l s :
  (forall x s, R s (visit x s).2) -> R s (each visit l s).2.
Proof.
  intros Hv. revert s. induction l as [| x l IH]; intros s; [reflexivity |]. cbn [each]. unfold mbind, st_bind.
  pose proof (Hv x s) as Hx. destruct (visit x s) as [[[] | |] s1]; cbn in *; [| done | done].
  etransitivity; [exact Hx | apply IH].
Qed.

Section Sweep.
Context {L : Type} `{Ledger L} (is_dead is_live_key : ObjectRef -> res VmError bool) (values keys : bool).

Definition sweep_le (c c' : @Clearing L) : Prop :=
  mutation_version (cl_table c) <= U64_MAX -> version_le (cl_table c) (cl_table c').

#[local] Instance sweep_le_preorder : PreOrder sweep_le.
Proof.
  split; [intros c Hc; by apply version_le_refl |].
  intros c1 c2 c3 H12 H23 Hc. specialize (H12 Hc). eapply version_le_trans; [done | apply H23; apply H12].
Qed.

Lemma sweep_le_refl (c : @Clearing L) t : cl_table c = t -> forall c', cl_table c' = t -> sweep_le c c'.
Proof. intros E c' E' Hc. rewrite E, E' in *. by apply version_le_refl. Qed.

Lemma sweep_le_bump (c c' : @Clearing L) t :
  cl_table c' = bump_mutation_version t -> mutation_version t = mutation_version (cl_table c) -> sweep_le c c'.
Proof. intros E E' Hc. rewrite E. by apply version_le_bump. Qed.

Lemma clear_slot_le i c : sweep_le c (clear_slot (L := L) is_dead i c).2.
Proof.
  unfold clear_slot. destruct (zget _ i) as [[[] |] |]; try reflexivity.
  destruct (is_dead r) as [[] | |]; try reflexivity. by eapply sweep_le_bump.
Qed.

Lemma clear_pair_le mode i key v c : sweep_le c (clear_pair (L := L) is_dead is_live_key values keys mode i key v c).2.
Proof.
  unfold clear_pair, mbind, st_bind, lift.
  destruct (dead_key _ _ mode key) as [dk | |]; [| reflexivity..].
  destruct (dead_value _ _ mode v) as [dv | |]; [| reflexivity..].
  destruct (dk || dv); [| reflexivity]. destruct (key_is_dead _ mode dk dv key) as [gone | |]; [| reflexivity..].
  destruct (dk || gone); [by eapply sweep_le_bump |].
  unfold bury. destruct (make_dead key (cl_ledger c)) as [[dead | e | k] l]; cbn [snd].
  - by eapply sweep_le_bump.
  - by eapply sweep_le_refl.
  - by eapply sweep_le_refl.
Qed.

Lemma clear_bucket_le i c : sweep_le c (clear_bucket (L := L) is_dead is_live_key values keys i c).2.
Proof.
  unfold clear_bucket. destruct (zget _ i) as [[[key v] |] |]; try reflexivity.
  destruct (values && is_nil v); [by eapply sweep_le_bump | apply clear_pair_le].
Qed.

Lemma release_hash_version t : mutation_version t <= U64_MAX -> version_le t (release_hash t).
Proof. intros Ht. unfold release_hash. destruct (_ && _); [by apply version_le_bump | by apply version_le_refl]. Qed.

Lemma clear_dead_weak_pairs_version t (l : L) :
  mutation_version t <= U64_MAX ->
  version_le t (clear_dead_weak_pairs is_dead is_live_key values keys t l).1.2.
Proof.
  intros Ht. unfold clear_dead_weak_pairs. case_bool_decide; [by apply version_le_refl |].
  set (c0 := {| cl_table := t; cl_count := 0; cl_ledger := l |}).
  match goal with |- context [ (?m ≫= ?f) c0 ] => set (sweep := m ≫= f) end.
  assert (sweep_le c0 (sweep c0).2) as Hs.
  { unfold sweep, mbind, st_bind. destruct (weak_values _ _); cbn.
    - pose proof (each_rel (clear_slot is_dead) sweep_le (seqZ 0 (zlen (array t))) c0 (fun x s => clear_slot_le x s)) as H1.
      destruct (each _ _ c0) as [[[] | |] c1]; cbn in *; [| done | done].
      etransitivity; [exact H1 | apply each_rel; [apply _ |]]. intros; apply clear_bucket_le.
    - apply each_rel; [apply _ |]. intros; apply clear_bucket_le. }
  specialize (Hs Ht). destruct (sweep c0) as [[[] | |] c1]; cbn in *; [| done | done].
  eapply version_le_trans; [exact Hs | apply release_hash_version, Hs].
Qed.
End Sweep.

Lemma table_step_version t t' : mutation_version t <= U64_MAX -> table_step t t' -> version_le t t'.
Proof.
  intros Ht. destruct 1; eauto using apply_mutation_version, set_metatable_version, set_weak_mode_version,
    restore_version, apply_ref_pair_version, clear_dead_weak_pairs_version.
Qed.

(** ** Executions

    The tables of a heap, the references given out so far, which are never given
    out again ([ObjectRef::new_runtime]), and the cache of one execution. *)

#[export] Instance ObjectRef_countable : Countable ObjectRef.
Proof.
  by refine (inj_countable' (fun r => match r with Opaque_ref n => inl n | Heap_ref id t => inr (id, t) end)
    (fun x => match x with inl n => Opaque_ref n | inr (id, t) => Heap_ref id t end) _); intros [].
Defined.

Record World (L : Type) := {
  tables : gmap ObjectRef Table;
  given_out : gset ObjectRef;
  cache_state : list (option LookupCacheEntry) * L
}.
Arguments tables {L} _.
Arguments given_out {L} _.
Arguments cache_state {L} _.

Section Executions.
Context `{Hasher} `{Heap} {L : Type} `{Ledger L}.

Definition find_table (w : World L) (object : ObjectRef) : res VmError Table :=
  match tables w !! object with Some t => Ok t | None => Err WrongObjectType end.

Definition read (profile : LuaProfile) (w : World L) (object : ObjectRef) (key : Value) :=
  raw_read_table_cached profile (find_table w object) object key (cache_state w).

Inductive world_step : World L -> World L -> Prop :=
  | world_change w object t t' :
      tables w !! object = Some t -> table_step t t' ->
      world_step w {| tables := <[object := t']> (tables w); given_out := given_out w; cache_state := cache_state w |}
  | world_create w object t :
      object ∉ given_out w -> mutation_version t = 0 ->
      world_step w {| tables := <[object := t]> (tables w); given_out := {[object]} ∪ given_out w;
                      cache_state := cache_state w |}
  | world_collect w object :
      world_step w {| tables := delete object (tables w); given_out := given_out w; cache_state := cache_state w |}
  | world_read w profile object key :
      world_step w {| tables := tables w; given_out := given_out w; cache_state := (read profile w object key).2 |}.

(** A remembered lookup is of a known table, and right while the version stands. *)
Definition entry_valid (w : World L) (e : LookupCacheEntry) : Prop :=
  lc_table e ∈ given_out w /\ lc_version e < U64_MAX /\
  forall t, tables w !! lc_table e = Some t ->
    lc_version e <= mutation_version t /\
    (mutation_version t = lc_version e -> lc_value e = get_integer t (lc_key e)).

Record world_ok (w : World L) : Prop := {
  wk_given : forall object t, tables w !! object = Some t -> object ∈ given_out w;
  wk_version : forall object t, tables w !! object = Some t -> mutation_version t <= U64_MAX;
  wk_cache : zlen (cache_state w).1 = 8;
  wk_entries : forall i e, zget (cache_state w).1 i = Some (Some e) -> entry_valid w e
}.

Lemma lookup_cache_version_Some t key n :
  lookup_cache_version t key = Some n -> metatable t = None /\ n = mutation_version t /\ n <> U64_MAX.
Proof.
  unfold lookup_cache_version. destruct (_ && _) eqn:E; [| done]. intros [= <-]. bool_hyps.
  split; [by eapply bool_decide_eq_true |]. split; [done | lia].
Qed.

Lemma entry_valid_change w object t t' e :
  world_ok w -> tables w !! object = Some t -> table_step t t' -> entry_valid w e ->
  entry_valid {| tables := <[object := t']> (tables w); given_out := given_out w; cache_state := cache_state w |} e.
Proof.
  intros Hw Ht Hstep (Hg & Hmax & Hv). split; [done |]. split; [done |]. cbn. intros u Hu.
  apply lookup_insert_Some in Hu as [[E <-] | [_ Hu]]; [| by apply Hv].
  rewrite <- E in Hv. destruct (Hv t Ht) as [Hle Hval].
  destruct (table_step_version t t' (wk_version _ Hw _ _ Ht) Hstep) as [[Hge _] Hsame].
  split; [lia |]. intros Ev. rewrite Hsame by lia. apply Hval. lia.
Qed.

Lemma cache_index_range cache integer : zlen cache = 8 -> 0 <= cache_index cache integer < zlen cache.
Proof.
  intros E. unfold cache_index. rewrite E. change (8 - 1) with (Z.ones 3). rewrite Z.land_ones by lia.
  apply Z.mod_pos_bound. lia.
Qed.

(** A hit returns the value that the lookup would find, and what is put into the
    cache is right. *)
Lemma cached_lookup_spec profile w t object integer cached :
  world_ok w -> tables w !! object = Some t -> (forall e, cached = Some e -> entry_valid w e) ->
  (cached_lookup profile t object integer cached).1 = get_integer t integer /\
  forall e, (cached_lookup profile t object integer cached).2 = Some (Some e) -> entry_valid w e.
Proof.
  intros Hw Ht Hc. unfold cached_lookup. destruct (lookup_cache_version t integer) as [version |] eqn:Hver; [| done].
  apply lookup_cache_version_Some in Hver as (Hmeta & -> & Hmax).
  pose proof (wk_version _ Hw _ _ Ht).
  assert (forall e, Some (if cacheable (get_integer t integer) then
            Some {| lc_vm_id := heap_id; lc_profile := profile; lc_table := object; lc_metatable := None;
                    lc_key := integer; lc_version := mutation_version t; lc_value := get_integer t integer |}
            else None) = Some (Some e) -> entry_valid w e) as Hmiss.
  { intros e. destruct (cacheable _); [| done]. intros [= <-]. split; [by eapply wk_given |]. cbn.
    split; [lia |]. intros u Hu. assert (u = t) as -> by congruence. done. }
  destruct cached as [hit |]; [| done]. destruct (cache_hit _ _ _ _ _ hit) eqn:Hhit; [| done].
  split; [| done]. unfold cache_hit in Hhit. bool_hyps.
  destruct (Hc hit eq_refl) as (_ & _ & Hv).
  repeat match goal with E : bool_decide _ = true |- _ => apply bool_decide_eq_true in E | E : (_ =? _) = true |- _ => apply Z.eqb_eq in E end.
  match goal with E : lc_table hit = object |- _ => rewrite E in Hv end.
  match goal with E : lc_key hit = integer |- _ => rewrite E in Hv end.
  apply (Hv t Ht). congruence.
Qed.

(** What a read returns, and the cache it leaves. *)
Lemma read_spec profile w object key :
  world_ok w ->
  zlen (read profile w object key).2.1 = 8 /\
  (forall i e, zget (read profile w object key).2.1 i = Some (Some e) -> entry_valid w e) /\
  (forall integer t, key = VInteger integer -> tables w !! object = Some t ->
     (read profile w object key).1 = Ok (get_integer t integer)).
Proof.
  intros Hw. unfold read, raw_read_table_cached.
  assert (zlen (cache_state w).1 = 8 /\ (forall i e, zget (cache_state w).1 i = Some (Some e) -> entry_valid w e)) as [Hlen Hold].
  { split; apply Hw. }
  destruct key as [| | integer | | | |]; 
    try (destruct (find_table w object); (split; [exact Hlen | split; [exact Hold | done]])).
  destruct (cache_index_range _ integer Hlen) as [Hi0 Hi1].
  destruct (zget_is_Some (cache_state w).1 (cache_index (cache_state w).1 integer)) as [cached Hcached]; [lia |].
  unfold vget. rewrite Hcached. unfold find_table. destruct (tables w !! object) as [t |] eqn:Ht.
  2:{ split; [exact Hlen | split; [exact Hold | congruence]]. }
  destruct (cached_lookup_spec profile w t object integer cached Hw Ht) as [Hval Hput].
  { intros e ->. by eapply Hold. }
  assert (forall integer' t', VInteger integer = VInteger integer' -> Some t = Some t' ->
            (Ok (E := VmError) (cached_lookup profile t object integer cached).1) = Ok (get_integer t' integer')) as Hres.
  { intros integer' t' [= <-] [= <-]. by rewrite Hval. }
  destruct (cached_lookup profile t object integer cached).2 as [replacement |]; cbn [fst snd]; [| done].
  split; [by rewrite zlen_zinsert |]. split; [| done].
  intros i e Hi. destruct (decide (i = cache_index (cache_state w).1 integer)) as [-> | Hne].
  - rewrite zget_zinsert_eq in Hi by lia. injection Hi as ->. by apply Hput.
  - rewrite zget_zinsert_ne in Hi by lia. by eapply Hold.
Qed.

Lemma world_step_ok w w' : world_ok w -> world_step w w' -> world_ok w'.
Proof.
  intros Hw Hs. destruct Hs as [w object t t' Ht Hstep | w object t Hnew Hver | w object | w profile object key].
  - constructor; cbn.
    + intros r u [[<- <-] | [_ Hu]]%lookup_insert_Some; by eapply (wk_given _ Hw).
    + intros r u [[<- <-] | [_ Hu]]%lookup_insert_Some; [| by eapply (wk_version _ Hw)].
      apply (table_step_version t t' (wk_version _ Hw _ _ Ht) Hstep).
    + apply Hw.
    + intros i e Hi. eapply entry_valid_change; eauto using wk_entries.
  - constructor; cbn.
    + intros r u [[<- <-] | [_ Hu]]%lookup_insert_Some; [set_solver |]. apply elem_of_union_r. by eapply (wk_given _ Hw).
    + intros r u [[<- <-] | [_ Hu]]%lookup_insert_Some; [rewrite Hver; range_lia | by eapply (wk_version _ Hw)].
    + apply Hw.
    + intros i e Hi. destruct (wk_entries _ Hw _ _ Hi) as (Hg & Hmax & Hv). split; [set_solver |]. split; [done |].
      cbn. intros u [[-> <-] | [_ Hu]]%lookup_insert_Some; [done | by apply Hv].
  - constructor; cbn.
    + intros r u [_ Hu]%lookup_delete_Some. by eapply (wk_given _ Hw).
    + intros r u [_ Hu]%lookup_delete_Some. by eapply (wk_version _ Hw).
    + apply Hw.
    + intros i e Hi. destruct (wk_entries _ Hw _ _ Hi) as (Hg & Hmax & Hv). split; [done |]. split; [done |].
      cbn. intros u [_ Hu]%lookup_delete_Some. by apply Hv.
  - destruct (read_spec profile w object key Hw) as (Hlen & Hent & _). constructor; cbn; [apply Hw | apply Hw | done |].
    intros i e Hi. by apply (Hent i e).
Qed.

Definition world_start (l : L) : World L := {| tables := ∅; given_out := ∅; cache_state := (empty_cache, l) |}.

Lemma world_start_ok l : world_ok (world_start l).
Proof.
  constructor; cbn; try done. intros i e [_ Hi]%zget_Some. by apply (lookup_replicate 8) in Hi as [? _].
Qed.

(** C28: Whatever happens to the tables, to the heap and to the cache in between, in
    any order, a cached read of an integer key returns the value that the table
    has now, the one an uncached lookup returns: a version never stands for two
    states of a table, saturated versions are not remembered, and references are
    not reused. *)
Theorem cached_read_is_current profile l w object t integer :
  rtc world_step (world_start l) w -> tables w !! object = Some t ->
  (read profile w object (VInteger integer)).1 = Ok (get_integer t integer).
Proof.
  intros Hrun Ht. assert (world_ok w) as Hw.
  { apply (rtc_ind_r (R := world_step) world_ok (world_start l)); [apply world_start_ok | | done].
    intros w1 w2 _ Hstep Hw1. by eapply world_step_ok. }
  by apply (read_spec profile w object (VInteger integer) Hw).
Qed.

End Executions.

(** ** An execution *)

Import Demo.

Definition demo_object : ObjectRef :=
  Heap_ref {| oid_vm := {| vm_number := 1 |}; oid_slot := {| slot_index := 1 |}; oid_generation := {| generation_value := 1 |} |} (Some 8).

(** A table with one field outside its array. *)
Definition cached_table : Table :=
  with_hash empty_table [Some (KeyInteger 5, VInteger 50)].

Definition world_created : World unit :=
  {| tables := {[demo_object := cached_table]}; given_out := {[demo_object]} ∪ ∅; cache_state := (empty_cache, tt) |}.
Definition world_cached : World unit :=
  {| tables := tables world_created; given_out := given_out world_created;
     cache_state := (read Lua55 world_created demo_object (VInteger 5)).2 |}.

Lemma cached_read_is_current_witness :
  (read Lua55 world_cached demo_object (VInteger 5)).1 = Ok (get_integer cached_table 5).
Proof.
  apply (cached_read_is_current Lua55 tt); [| reflexivity].
  eapply rtc_l; [by apply (world_create (world_start tt) demo_object cached_table) |].
  eapply rtc_l; [apply (world_read world_created Lua55 demo_object (VInteger 5)) | apply rtc_refl].
Defined.

(** The second read is a hit. *)
Example cached_read_hits :
  (cache_state world_cached).1 !! 5%nat =
  Some (Some {| lc_vm_id := {| vm_number := 1 |}; lc_profile := Lua55; lc_table := demo_object; lc_metatable := None;
                lc_key := 5; lc_version := 0; lc_value := VInteger 50 |}).
Proof. vm_compute. reflexivity. Qed.
