(* ===== verification/Pattern.v ===== *)
(** The pattern matcher of the string library
    (crates/rivetlua-runtime/src/stdlib/pattern.rs): a backtracking matcher with a
    bound on its depth and a budget of steps. *)

From Stdlib Require Import ZArith Lia.
From stdpp Require Import base list numbers strings.
From S2P Require Import Prelude Lexer.

Local Open Scope Z_scope.

Inductive PatternError := Malformed | TooComplex | Exhausted.

Record Capture := { cap_start : Z; cap_end : option Z; cap_position : bool }.
Definition Capture_default : Capture := {| cap_start := 0; cap_end := None; cap_position := false |}.

(** [State]: the captures begun so far. *)
Record Captures := { captures : list Capture; count : Z }.
Definition Captures_default : Captures := {| captures := replicate 32 Capture_default; count := 0 |}.

Record Found := { found_start : Z; found_end : Z; found_captures : list Capture; found_count : Z }.

(** ** Classes of bytes *)

Definition is_ascii_lowercase (b : Z) : bool := ("a"%u8 <=? b) && (b <=? "z"%u8).
Definition is_ascii_uppercase (b : Z) : bool := ("A"%u8 <=? b) && (b <=? "Z"%u8).
Definition is_ascii_alphanumeric (b : Z) : bool := is_ascii_alphabetic b || is_ascii_digit b.
Definition is_ascii_control (b : Z) : bool := (b <? 32) || (b =? 127).
Definition is_ascii_graphic (b : Z) : bool := (33 <=? b) && (b <=? 126).
Definition is_ascii_punctuation (b : Z) : bool := is_ascii_graphic b && negb (is_ascii_alphanumeric b).
Definition to_ascii_lowercase (b : Z) : Z := if is_ascii_uppercase b then b + 32 else b.
Definition is_space (b : Z) : bool := ((9 <=? b) && (b <=? 13)) || (b =? 32).

(** The class that a letter names. *)
Definition class_of (symbol : Z) : option (Z -> bool) :=
  match to_ascii_lowercase symbol with
  | "a"%u8 => Some is_ascii_alphabetic
  | "c"%u8 => Some is_ascii_control
  | "d"%u8 => Some is_ascii_digit
  | "g"%u8 => Some is_ascii_graphic
  | "l"%u8 => Some is_ascii_lowercase
  | "p"%u8 => Some is_ascii_punctuation
  | "s"%u8 => Some is_space
  | "u"%u8 => Some is_ascii_uppercase
  | "w"%u8 => Some is_ascii_alphanumeric
  | "x"%u8 => Some is_ascii_hexdigit
  | "z"%u8 => Some (fun b => b =? 0)
  | _ => None
  end.

(** [Matcher::class]. *)
Definition class (byte symbol : Z) : bool :=
  match class_of symbol with
  | Some hit => if is_ascii_lowercase symbol then hit byte else negb (hit byte)
  | None => byte =? symbol
  end.

(** ** The matcher

    Its state is the number of steps taken. *)

Section Matcher.
Context (source pattern : list Z) (limit : Z).

Definition M (A : Type) : Type := ST Z PatternError A.

Definition step : M unit := fun steps =>
  if limit <=? steps then (Err Exhausted, steps) else (Ok tt, steps + 1).

(** [pattern.get(p) == Some(&b)]. *)
Definition pattern_is (p b : Z) : bool := is_byte (zget pattern p) b.

(** The end of a set; each round moves the cursor. *)
Fixpoint set_end (fuel : nat) (cursor : Z) : M Z :=
  match fuel with
  | O => crash_with OutOfFuel
  | S fuel =>
      step;;
      match zget pattern cursor with
      | None => fail Malformed
      | Some byte =>
          let cursor := cursor + 1 in
          let cursor := if (byte =? "%"%u8) && (cursor <? zlen pattern) then cursor + 1 else cursor in
          if pattern_is cursor "]"%u8 then mret (cursor + 1) else set_end fuel cursor
      end
  end.

Definition class_end (p : Z) : M Z :=
  step;;
  match zget pattern p with
  | Some "%"%u8 => if p + 1 <? zlen pattern then mret (p + 2) else fail Malformed
  | Some "["%u8 => set_end (S (length pattern)) (if pattern_is (p + 1) "^"%u8 then p + 2 else p + 1)
  | Some _ => mret (p + 1)
  | None => fail Malformed
  end.

(** [while p < end - 1 { .. }] of a set: its elements from [p] on. *)
Fixpoint set_members (fuel : nat) (byte p stop : Z) (positive : bool) : M bool :=
  match fuel with
  | O => crash_with OutOfFuel
  | S fuel =>
      if p <? stop then
        step;;
        candidate ← lift (vget pattern p);
        if (candidate =? "%"%u8) && (p + 1 <? stop) then
          symbol ← lift (vget pattern (p + 1));
          if class byte symbol then mret positive else set_members fuel byte (p + 2) stop positive
        else if (p + 2 <? stop) && pattern_is (p + 1) "-"%u8 then
          high ← lift (vget pattern (p + 2));
          if (candidate <=? byte) && (byte <=? high) then mret positive else set_members fuel byte (p + 3) stop positive
        else if byte =? candidate then mret positive else set_members fuel byte (p + 1) stop positive
      else mret (negb positive)
  end.

Definition bracket (byte start stop : Z) : M bool :=
  if pattern_is (start + 1) "^"%u8
  then set_members (S (length pattern)) byte (start + 2) (stop - 1) false
  else set_members (S (length pattern)) byte (start + 1) (stop - 1) true.

Definition single (s p stop : Z) : M bool :=
  step;;
  match zget source s with
  | None => mret false
  | Some byte =>
      code ← lift (vget pattern p);
      match code with
      | "."%u8 => mret true
      | "%"%u8 => symbol ← lift (vget pattern (p + 1)); mret (class byte symbol)
      | "["%u8 => bracket byte p stop
      | literal => mret (byte =? literal)
      end
  end.

(** What a match gives: its end, if any, and the captures. *)
Definition Outcome : Type := option Z * Captures.

Definition no_match (state : Captures) : M Outcome := mret (None, state).

(** The arms of the loop of [match_at]: [continue] goes round the loop again. *)

Definition open_capture (continue : Z -> Z -> Captures -> M Outcome) (s p : Z) (state : Captures) : M Outcome :=
  if count state =? 32 then fail Malformed else
  let position := pattern_is (p + 1) ")"%u8 in
  list ← lift (vset (captures state) (count state)
    {| cap_start := s; cap_end := if position then Some s else None; cap_position := position |});
  continue s (if position then p + 2 else p + 1) {| captures := list; count := count state + 1 |}.

(** The last capture that is open: [(0..count).rev().find(..)]. *)
Definition open_index (state : Captures) : option Z :=
  find (fun i => match zget (captures state) i with Some c => bool_decide (cap_end c = None) | None => false end)
    (rev (seqZ 0 (count state))).

Definition close_capture (continue : Z -> Z -> Captures -> M Outcome) (s p : Z) (state : Captures) : M Outcome :=
  match open_index state with
  | None => fail Malformed
  | Some index =>
      c ← lift (vget (captures state) index);
      list ← lift (vset (captures state) index
        {| cap_start := cap_start c; cap_end := Some s; cap_position := cap_position c |});
      continue s (p + 1) {| captures := list; count := count state |}
  end.

(** [while s < source.len() { .. }] of a balanced match. *)
Fixpoint balance (fuel : nat) (s level open close : Z) : M (Z * Z) :=
  match fuel with
  | O => crash_with OutOfFuel
  | S fuel =>
      match zget source s with
      | None => mret (s, level)
      | Some byte =>
          step;;
          if byte =? close then
            if level - 1 =? 0 then mret (s + 1, 0) else balance fuel (s + 1) (level - 1) open close
          else balance fuel (s + 1) (if byte =? open then level + 1 else level) open close
      end
  end.

Definition balanced (continue : Z -> Z -> Captures -> M Outcome) (s p : Z) (state : Captures) : M Outcome :=
  match zget pattern (p + 2), zget pattern (p + 3) with
  | Some open, Some close =>
      if is_byte (zget source s) open then
        r ← balance (S (length source)) (s + 1) 1 open close;
        if r.2 =? 0 then continue r.1 (p + 4) state else no_match state
      else no_match state
  | _, _ => fail Malformed
  end.

Definition frontier (continue : Z -> Z -> Captures -> M Outcome) (s p : Z) (state : Captures) : M Outcome :=
  if negb (pattern_is (p + 2) "["%u8) then fail Malformed else
  stop ← class_end (p + 2);
  previous ← (if s =? 0 then mret 0 else lift (vget source (s - 1)));
  let current := default 0 (zget source s) in
  before ← bracket previous (p + 2) stop;
  if before : bool then no_match state else
  inside ← bracket current (p + 2) stop;
  if inside : bool then continue s stop state else no_match state.

(** [for offset in 0..length { .. }]: whether the bytes of the capture are at [s]. *)
Fixpoint same_bytes (offsets : list Z) (s start : Z) : M bool :=
  match offsets with
  | [] => mret true
  | offset :: offsets =>
      step;;
      a ← lift (vget source (s + offset));
      b ← lift (vget source (start + offset));
      if a =? b then same_bytes offsets s start else mret false
  end.

Definition back_reference (continue : Z -> Z -> Captures -> M Outcome) (code s p : Z) (state : Captures) : M Outcome :=
  let index := code - "1"%u8 in
  if index <? 0 then fail Malformed else
  match (if index <? count state then zget (captures state) index else None) with
  | None => fail Malformed
  | Some capture =>
      match cap_end capture with
      | None => fail Malformed
      | Some stop =>
          if cap_position capture then no_match state else
          if stop <? cap_start capture then fail Malformed else
          let length := stop - cap_start capture in
          if zlen source <? s + length then no_match state else
          same ← same_bytes (seqZ 0 length) s (cap_start capture);
          if same : bool then continue (s + length) (p + 2) state else no_match state
      end
  end.

(** [while self.single(last, p, end)? { last += 1 }]. *)
Fixpoint expand (fuel : nat) (last p stop : Z) : M Z :=
  match fuel with
  | O => crash_with OutOfFuel
  | S fuel =>
      matched ← single last p stop;
      if matched : bool then expand fuel (last + 1) p stop else mret last
  end.

(** The candidates of a greedy item, the longest first. *)
Fixpoint try_all (again : Z -> Captures -> M Outcome) (candidates : list Z) (state : Captures) : M Outcome :=
  match candidates with
  | [] => no_match state
  | candidate :: candidates =>
      step;;
      r ← again candidate state;
      match r.1 with
      | Some _ => mret r
      | None => try_all again candidates state
      end
  end.

(** The candidates of a lazy item, the shortest first. *)
Fixpoint try_lazy (fuel : nat) (again : Z -> Captures -> M Outcome) (candidate p stop : Z) (state : Captures) : M Outcome :=
  match fuel with
  | O => crash_with OutOfFuel
  | S fuel =>
      r ← again candidate state;
      match r.1 with
      | Some _ => mret r
      | None =>
          matched ← single candidate p stop;
          if matched : bool then step;; try_lazy fuel again (candidate + 1) p stop state else no_match state
      end
  end.

(** A single item with its suffix: [again] matches the rest one level deeper. *)
Definition item (continue : Z -> Z -> Captures -> M Outcome) (again : Z -> Z -> Captures -> M Outcome)
    (s p : Z) (state : Captures) : M Outcome :=
  stop ← class_end p;
  matched ← single s p stop;
  match zget pattern stop with
  | Some "?"%u8 =>
      if matched : bool then
        r ← again (s + 1) (stop + 1) state;
        match r.1 with
        | Some _ => mret r
        | None => continue s (stop + 1) state
        end
      else continue s (stop + 1) state
  | Some "-"%u8 => try_lazy (S (length source)) (fun s state => again s (stop + 1) state) s p stop state
  | Some "*"%u8 =>
      last ← expand (S (length source)) s p stop;
      try_all (fun s state => again s (stop + 1) state) (rev (seqZ s (last - s + 1))) state
  | Some "+"%u8 =>
      if negb matched then no_match state else
      last ← expand (S (length source)) (s + 1) p stop;
      try_all (fun s state => again s (stop + 1) state) (rev (seqZ (s + 1) (last - s))) state
  | _ => if matched : bool then continue (s + 1) stop state else no_match state
  end.

(** [loop { .. }] of [match_at]: every round and every deeper match is further in
    the pattern, so one more round than it has bytes is enough. *)
Fixpoint match_loop (fuel : nat) (s p : Z) (state : Captures) (depth : Z) : M Outcome :=
  match fuel with
  | O => crash_with OutOfFuel
  | S fuel =>
      let continue s p state := match_loop fuel s p state depth in
      let again s p state := if 200 <=? depth + 1 then fail TooComplex else match_loop fuel s p state (depth + 1) in
      step;;
      match zget pattern p with
      | None => mret (Some s, state)
      | Some "("%u8 => open_capture continue s p state
      | Some ")"%u8 => close_capture continue s p state
      | Some "$"%u8 =>
          if p + 1 =? zlen pattern
          then mret (if s =? zlen source then Some s else None, state)
          else item continue again s p state
      | Some "%"%u8 =>
          match zget pattern (p + 1) with
          | None => fail Malformed
          | Some "b"%u8 => balanced continue s p state
          | Some "f"%u8 => frontier continue s p state
          | Some code =>
              if is_ascii_digit code then back_reference continue code s p state else item continue again s p state
          end
      | Some _ => item continue again s p state
      end
  end.

Definition match_at (s p : Z) (state : Captures) : M Outcome := match_loop (S (length pattern)) s p state 0.

Definition found_at (position stop : Z) (state : Captures) : Found :=
  {| found_start := position; found_end := stop; found_captures := captures state; found_count := count state |}.

Fixpoint search_from (positions : list Z) (anchor : bool) (last : option Z) : M (option Found) :=
  match positions with
  | [] => mret None
  | position :: positions =>
      step;;
      r ← match_at position (if anchor then 1 else 0) Captures_default;
      match r.1 with
      | Some stop =>
          if negb (bool_decide (Some stop = last)) then mret (Some (found_at position stop r.2))
          else if anchor then mret None else search_from positions anchor last
      | None => if anchor then mret None else search_from positions anchor last
      end
  end.

Definition search (start : Z) (anchor : bool) (last : option Z) : M (option Found) :=
  if zlen source <? start then mret None else
  search_from (seqZ start (zlen source + 1 - start)) anchor last.

(** [Matcher::at]. *)
Definition at_position (start : Z) (anchor : bool) : M (option Found) :=
  if zlen source <? start then mret None else
  step;;
  r ← match_at start (if anchor then 1 else 0) Captures_default;
  match r.1 with
  | Some stop => mret (Some (found_at start stop r.2))
  | None => mret None
  end.

(** The bytes of the pattern against those at [position]. *)
Fixpoint equal_at (offsets : list Z) (position : Z) : M bool :=
  match offsets with
  | [] => mret true
  | offset :: offsets =>
      step;;
      a ← lift (vget source (position + offset));
      b ← lift (vget pattern offset);
      if a =? b then equal_at offsets position else mret false
  end.

Fixpoint plain_from (positions : list Z) : M (option Found) :=
  match positions with
  | [] => mret None
  | position :: positions =>
      step;;
      equal ← equal_at (seqZ 0 (zlen pattern)) position;
      if equal : bool then
        mret (Some {| found_start := position; found_end := position + zlen pattern;
                      found_captures := replicate 32 Capture_default; found_count := 0 |})
      else plain_from positions
  end.

Definition plain_find (start : Z) : M (option Found) :=
  if zlen source <? start then mret None else
  if zlen source - start <? zlen pattern then mret None else
  plain_from (seqZ start (zlen source - zlen pattern + 1 - start)).

End Matcher.

Definition special (pattern : list Z) : bool :=
  existsb (fun byte => contains (bytes_of_string "^$*+?.([%-") byte) pattern.
