(* ===== verification/PatternSpec.v ===== *)
(** What a pattern means: its items, the matches of a position in the order in
    which Lua prefers them; and that the matcher finds the first. *)

From Stdlib Require Import ZArith Lia.
From stdpp Require Import base list numbers strings.
From S2P Require Import Prelude Lexer Pattern.

Local Open Scope Z_scope.

(** ** Items of a pattern *)

Inductive element := EClass (symbol : Z) | ERange (low high : Z) | EByte (b : Z).

Definition in_element (b : Z) (e : element) : bool :=
  match e with
  | EClass symbol => class b symbol
  | ERange low high => (low <=? b) && (b <=? high)
  | EByte c => b =? c
  end.

(** A set of bytes: given by its elements, or by what is not in them. *)
Record byte_set := { elements : list element; positive : bool }.
Definition any_byte : byte_set := {| elements := []; positive := false |}.
Definition in_set (b : Z) (set : byte_set) : bool :=
  if existsb (in_element b) (elements set) then positive set else negb (positive set).

Inductive repetition := Once | Optional | Greedy | Greedy1 | Lazy.

Inductive pattern_item :=
  | IOpen
  | IPosition
  | IClose
  | IEnd
  | IBalance (open close : Z)
  | IFrontier (set : byte_set)
  | IBack (index : Z)
  | ISet (set : byte_set) (r : repetition).

(** The item at a place of the pattern, and where the next one begins. *)
Inductive reading := Finished | Broken_pattern | Item (i : pattern_item) (next : Z).

Section Items.
Context (pattern : list Z).

Fixpoint set_stop (fuel : nat) (cursor : Z) : option Z :=
  match fuel with
  | O => None
  | S fuel =>
      byte ← zget pattern cursor;
      let cursor := cursor + 1 in
      let cursor := if (byte =? "%"%u8) && (cursor <? zlen pattern) then cursor + 1 else cursor in
      if pattern_is pattern cursor "]"%u8 then Some (cursor + 1) else set_stop fuel cursor
  end.

Fixpoint set_elements (fuel : nat) (p stop : Z) : list element :=
  match fuel with
  | O => []
  | S fuel =>
      if stop <=? p then [] else
      match zget pattern p, zget pattern (p + 1), zget pattern (p + 2) with
      | Some candidate, second, third =>
          if (candidate =? "%"%u8) && (p + 1 <? stop)
          then EClass (default 0 second) :: set_elements fuel (p + 2) stop
          else if (p + 2 <? stop) && pattern_is pattern (p + 1) "-"%u8
          then ERange candidate (default 0 third) :: set_elements fuel (p + 3) stop
          else EByte candidate :: set_elements fuel (p + 1) stop
      | None, _, _ => []
      end
  end.

(** The set written between the brackets from [start] to before [stop]. *)
Definition bracket_set (start stop : Z) : byte_set :=
  if pattern_is pattern (start + 1) "^"%u8
  then {| elements := set_elements (S (length pattern)) (start + 2) (stop - 1); positive := false |}
  else {| elements := set_elements (S (length pattern)) (start + 1) (stop - 1); positive := true |}.

(** The set at [p], and its end. *)
Definition single_set (p : Z) : option (byte_set * Z) :=
  match zget pattern p with
  | Some "%"%u8 =>
      symbol ← zget pattern (p + 1); Some ({| elements := [EClass symbol]; positive := true |}, p + 2)
  | Some "["%u8 =>
      stop ← set_stop (S (length pattern)) (if pattern_is pattern (p + 1) "^"%u8 then p + 2 else p + 1);
      Some (bracket_set p stop, stop)
  | Some "."%u8 => Some (any_byte, p + 1)
  | Some b => Some ({| elements := [EByte b]; positive := true |}, p + 1)
  | None => None
  end.

Definition read_set (p : Z) : reading :=
  match single_set p with
  | None => Broken_pattern
  | Some (set, stop) =>
      match zget pattern stop with
      | Some "?"%u8 => Item (ISet set Optional) (stop + 1)
      | Some "*"%u8 => Item (ISet set Greedy) (stop + 1)
      | Some "+"%u8 => Item (ISet set Greedy1) (stop + 1)
      | Some "-"%u8 => Item (ISet set Lazy) (stop + 1)
      | _ => Item (ISet set Once) stop
      end
  end.

Definition read_item (p : Z) : reading :=
  match zget pattern p with
  | None => Finished
  | Some "("%u8 => if pattern_is pattern (p + 1) ")"%u8 then Item IPosition (p + 2) else Item IOpen (p + 1)
  | Some ")"%u8 => Item IClose (p + 1)
  | Some "$"%u8 => if p + 1 =? zlen pattern then Item IEnd (p + 1) else read_set p
  | Some "%"%u8 =>
      match zget pattern (p + 1) with
      | None => Broken_pattern
      | Some "b"%u8 =>
          match zget pattern (p + 2), zget pattern (p + 3) with
          | Some open, Some close => Item (IBalance open close) (p + 4)
          | _, _ => Broken_pattern
          end
      | Some "f"%u8 =>
          if pattern_is pattern (p + 2) "["%u8
          then match single_set (p + 2) with Some (set, stop) => Item (IFrontier set) stop | None => Broken_pattern end
          else Broken_pattern
      | Some code =>
          if is_ascii_digit code
          then if code =? "0"%u8 then Broken_pattern else Item (IBack (code - "1"%u8)) (p + 2)
          else read_set p
      end
  | Some _ => read_set p
  end.

End Items.

(** ** The matches at a position, the preferred first

    [Broken]: at this point of the search the pattern turns out to be malformed. *)
Inductive answer := Match (stop : Z) (state : Captures) | Broken.

Section Answers.
Context (source pattern : list Z).

Definition byte_in (set : byte_set) (s : Z) : bool :=
  match zget source s with Some b => in_set b set | None => false end.

(** How far the bytes of the set go from [s]. *)
Fixpoint run (fuel : nat) (set : byte_set) (s : Z) : Z :=
  match fuel with
  | O => s
  | S fuel => if byte_in set s then run fuel set (s + 1) else s
  end.
Definition run_end (set : byte_set) (s : Z) : Z := run (length source) set s.

(** The end of the balanced text that begins before [s], [level] deep. *)
Fixpoint balance_end (text : list Z) (s level open close : Z) : option Z :=
  match text with
  | [] => None
  | b :: text =>
      if b =? close then if level =? 1 then Some (s + 1) else balance_end text (s + 1) (level - 1) open close
      else balance_end text (s + 1) (if b =? open then level + 1 else level) open close
  end.

Definition opened (state : Captures) (c : Capture) : Captures :=
  {| captures := zinsert (captures state) (count state) c; count := count state + 1 |}.

Definition closed (state : Captures) (index s : Z) : Captures :=
  {| captures := zinsert (captures state) index
       (match zget (captures state) index with
        | Some c => {| cap_start := cap_start c; cap_end := Some s; cap_position := cap_position c |}
        | None => Capture_default
        end);
     count := count state |}.

(** The text of a closed capture: where it begins and how long it is; [None] for a
    capture that is not there or not closed. *)
Definition capture_of (state : Captures) (index : Z) : option Capture :=
  if index <? count state then zget (captures state) index else None.

Definition answers_item (rest : Z -> Captures -> list answer) (i : pattern_item) (s : Z) (state : Captures) : list answer :=
  match i with
  | IOpen =>
      if count state =? 32 then [Broken]
      else rest s (opened state {| cap_start := s; cap_end := None; cap_position := false |})
  | IPosition =>
      if count state =? 32 then [Broken]
      else rest s (opened state {| cap_start := s; cap_end := Some s; cap_position := true |})
  | IClose =>
      match open_index state with
      | Some index => rest s (closed state index s)
      | None => [Broken]
      end
  | IEnd => if s =? zlen source then [Match s state] else []
  | IBalance open close =>
      if is_byte (zget source s) open
      then match balance_end (drop (Z.to_nat (s + 1)) source) (s + 1) 1 open close with
           | Some stop => rest stop state
           | None => []
           end
      else []
  | IFrontier set =>
      let before := if s =? 0 then 0 else default 0 (zget source (s - 1)) in
      if negb (in_set before set) && in_set (default 0 (zget source s)) set then rest s state else []
  | IBack index =>
      match capture_of state index with
      | Some c =>
          match cap_end c with
          | Some stop =>
              let text := take (Z.to_nat (stop - cap_start c)) (drop (Z.to_nat (cap_start c)) source) in
              if negb (cap_position c)
                 && bool_decide (take (length text) (drop (Z.to_nat s) source) = text)
              then rest (s + zlen text) state else []
          | None => [Broken]
          end
      | None => [Broken]
      end
  | ISet set Once => if byte_in set s then rest (s + 1) state else []
  | ISet set Optional => (if byte_in set s then rest (s + 1) state else []) ++ rest s state
  | ISet set Greedy => flat_map (fun e => rest e state) (rev (seqZ s (run_end set s - s + 1)))
  | ISet set Greedy1 => flat_map (fun e => rest e state) (rev (seqZ (s + 1) (run_end set s - s)))
  | ISet set Lazy => flat_map (fun e => rest e state) (seqZ s (run_end set s - s + 1))
  end.

(** What a reading gives, with the matches of the rest of the pattern. *)
Definition meaning (rest : Z -> Z -> Captures -> list answer) (r : reading) (s : Z) (state : Captures) : list answer :=
  match r with
  | Finished => [Match s state]
  | Broken_pattern => [Broken]
  | Item i next => answers_item (rest next) i s state
  end.

(** Every item is further in the pattern, so its length bounds their number. *)
Fixpoint answers (fuel : nat) (p s : Z) (state : Captures) : list answer :=
  match fuel with
  | O => []
  | S fuel => meaning (answers fuel) (read_item pattern p) s state
  end.

Definition matches_at (s p : Z) : list answer := answers (S (length pattern)) p s Captures_default.

End Answers.

(** ** The search *)

Definition first_place (anchor : bool) : Z := if anchor then 1 else 0.

(** The positions a search may try. *)
Definition candidate (source : list Z) (anchor : bool) (start position : Z) : Prop :=
  start <= position <= zlen source /\ (anchor = true -> position = start).

(** There is no match, or the preferred one ends where the last one did. *)
Definition passed_over (last : option Z) (l : list answer) : Prop :=
  match head l with
  | None => True
  | Some (Match stop _) => last = Some stop
  | Some Broken => False
  end.

(** The pattern as a plain text is at [position]. *)
Definition occurs (source pattern : list Z) (position : Z) : Prop :=
  0 <= position <= zlen source /\ take (length pattern) (drop (Z.to_nat position) source) = pattern.

#[export] Instance occurs_decision source pattern position : Decision (occurs source pattern position).
Proof. unfold occurs. apply _. Defined.
