(* ===== verification/PatternTheorems.v ===== *)
(** The pattern matcher finds, at each position, the match that Lua prefers. *)

From Stdlib Require Import ZArith Lia.
From stdpp Require Import base list numbers strings.
From S2P Require Import Prelude Lexer Pattern PatternSpec.

Local Open Scope Z_scope.

Section Theorems.
Context (source pattern : list Z) (limit : Z).

(** An error is what it says: [Malformed] only where [P] holds, [TooComplex] only
    for long patterns, [Exhausted] only when the steps are used up. *)
Definition justified (P : Prop) (e : PatternError) (steps : Z) : Prop :=
  match e with
  | Malformed => P
  | TooComplex => 400 <= zlen pattern
  | Exhausted => limit <= steps
  end.

Lemma justified_mono (P P' : Prop) e steps : (P -> P') -> justified P e steps -> justified P' e steps.
Proof. destruct e; simpl; auto. Qed.

Lemma spec_step {A} (f : unit -> M A) steps (Q : A -> Z -> Prop) P :
  (forall steps, spec (f tt) steps Q (justified P)) -> spec (step limit ≫= f) steps Q (justified P).
Proof.
  intros H. apply spec_bind. unfold spec, step.
  destruct (Z.leb_spec limit steps); [done | apply H].
Qed.

(** Going on after a part that cannot report a malformed pattern. *)
Lemma spec_part {A B} (m : M A) (f : A -> M B) steps (P : A -> Prop) (Q : B -> Z -> Prop) X Y :
  (forall steps, spec m steps (fun a _ => P a) (justified X)) -> (X -> Y) ->
  (forall a steps, P a -> spec (f a) steps Q (justified Y)) ->
  spec (m ≫= f) steps Q (justified Y).
Proof.
  intros Hm HX Hf. eapply spec_seq; [apply Hm | intros a s' Ha; by apply Hf |].
  intros e s'. by apply justified_mono.
Qed.

Lemma spec_lift_vget {A B} (l : list A) i x (f : A -> M B) steps (Q : B -> Z -> Prop) R :
  zget l i = Some x -> spec (f x) steps Q R -> spec (lift (vget l i) ≫= f) steps Q R.
Proof. intros H Hf. apply spec_bind. unfold spec, lift, vget. by rewrite H. Qed.

Lemma spec_lift_vset {A B} (l : list A) i x (f : list A -> M B) steps (Q : B -> Z -> Prop) R :
  0 <= i < zlen l -> spec (f (zinsert l i x)) steps Q R -> spec (lift (vset l i x) ≫= f) steps Q R.
Proof.
  intros H Hf. apply zget_is_Some in H as [y Hy]. apply spec_bind. unfold spec, lift, vset. by rewrite Hy.
Qed.

Lemma is_byte_Some (o : option Z) b : is_byte o b = true <-> o = Some b.
Proof. unfold is_byte. apply bool_decide_eq_true. Qed.

(** ** Sets of bytes *)

Lemma set_end_spec fuel cursor steps :
  0 <= cursor <= zlen pattern -> zlen pattern - cursor < Z.of_nat fuel ->
  spec (set_end pattern limit fuel cursor) steps
    (fun stop _ => set_stop pattern fuel cursor = Some stop)
    (justified (set_stop pattern fuel cursor = None)).
Proof.
  revert cursor steps. induction fuel as [|fuel IH]; intros cursor steps H0 Hf; [lia |].
  cbn [set_end set_stop]. apply spec_step. intros steps'.
  destruct (zget pattern cursor) as [byte |] eqn:Hb; [| done].
  apply zget_lt in Hb. cbn [mbind option_bind]. set (next := if _ && _ then _ else _).
  assert (cursor < next <= zlen pattern).
  { subst next. destruct (Z.ltb_spec (cursor + 1) (zlen pattern)), (byte =? "%"%u8); cbn [andb]; lia. }
  destruct (pattern_is pattern next "]"%u8); [done |]. apply IH; lia.
Qed.

Lemma set_stop_bounds fuel cursor stop :
  0 <= cursor -> set_stop pattern fuel cursor = Some stop -> cursor + 2 <= stop <= zlen pattern.
Proof.
  revert cursor. induction fuel as [|fuel IH]; intros cursor H0; cbn [set_stop]; [done |].
  destruct (zget pattern cursor) as [byte |] eqn:Hb; [| done]. cbn [mbind option_bind].
  set (next := if _ && _ then _ else _).
  assert (cursor < next) by (subst next; destruct (_ && _); lia).
  destruct (pattern_is pattern next "]"%u8) eqn:Hn.
  - apply is_byte_Some, zget_lt in Hn. intros [= <-]. lia.
  - intros Hs. apply IH in Hs; lia.
Qed.

Lemma pattern_is_lt p b : pattern_is pattern p b = true -> 0 <= p < zlen pattern.
Proof. intros H%is_byte_Some. by apply zget_lt in H. Qed.

(** The first element of a set that the byte is in decides. *)
Lemma set_members_spec fuel byte p stop positive steps P :
  0 <= p -> stop <= zlen pattern -> Z.max 0 (stop - p) < Z.of_nat fuel ->
  spec (set_members pattern limit fuel byte p stop positive) steps
    (fun b _ => b = in_set byte {| elements := set_elements pattern fuel p stop; positive := positive |})
    (justified P).
Proof.
  revert p steps. induction fuel as [|fuel IH]; intros p steps H0 Hs Hf; [lia |].
  cbn [set_members set_elements]. rewrite Z.ltb_antisym.
  destruct (Z.leb_spec stop p); cbn [negb]; [done |].
  apply spec_step. intros steps'. destruct (zget_is_Some pattern p) as [candidate Hc]; [lia |].
  eapply spec_lift_vget; [done |]. rewrite Hc.
  assert (Hin : forall e es b p', p < p' ->
    (forall steps, spec (set_members pattern limit fuel byte p' stop positive) steps
       (fun b _ => b = in_set byte {| elements := es; positive := positive |}) (justified P)) ->
    b = in_element byte e ->
    forall steps, spec (if b : bool then mret positive else set_members pattern limit fuel byte p' stop positive) steps
      (fun b _ => b = in_set byte {| elements := e :: es; positive := positive |}) (justified P)).
  { intros e es b p' Hp IHp -> s. unfold in_set in *. cbn [elements PatternSpec.positive existsb] in *.
    destruct (in_element byte e); cbn [orb]; [done | apply IHp]. }
  destruct ((candidate =? "%"%u8) && (p + 1 <? stop)) eqn:H1.
  - bool_hyps. destruct (zget_is_Some pattern (p + 1)) as [symbol Hsym]; [lia |].
    eapply spec_lift_vget; [done |]. rewrite Hsym. eapply Hin; [lia | intros; apply IH; lia | done].
  - destruct ((p + 2 <? stop) && pattern_is pattern (p + 1) "-"%u8) eqn:H2.
    + bool_hyps. destruct (zget_is_Some pattern (p + 2)) as [high Hh]; [lia |].
      eapply spec_lift_vget; [done |]. rewrite Hh. eapply Hin; [| intros; apply IH; lia | done]; lia.
    + eapply Hin; [| intros; apply IH; lia | done]; lia.
Qed.

Lemma bracket_spec byte start stop steps P :
  0 <= start -> stop <= zlen pattern ->
  spec (bracket pattern limit byte start stop) steps
    (fun b _ => b = in_set byte (bracket_set pattern start stop)) (justified P).
Proof.
  intros H0 Hs. unfold bracket, bracket_set. unfold zlen in *.
  destruct (pattern_is _ _ _); apply set_members_spec; unfold zlen; lia.
Qed.

(** The end that the matcher finds of a single item is where its set ends. *)
Lemma class_end_spec p steps : 0 <= p ->
  spec (class_end pattern limit p) steps
    (fun stop _ => exists set, single_set pattern p = Some (set, stop))
    (justified (single_set pattern p = None)).
Proof.
  intros H0. unfold class_end, single_set. apply spec_step. intros steps'.
  destruct (zget pattern p) as [b |] eqn:Hp; [| done]. apply zget_lt in Hp.
  destruct (decide (b = "%"%u8)) as [-> |]; [| destruct (decide (b = "["%u8)) as [-> |]].
  - destruct (Z.ltb_spec (p + 1) (zlen pattern)).
    + destruct (zget_is_Some pattern (p + 1)) as [symbol ->]; [lia |]. by eexists.
    + replace (zget pattern (p + 1)) with (@None Z) by (symmetry; apply zget_None; lia). done.
  - eapply spec_weaken.
    + apply set_end_spec; [| unfold zlen in *; destruct (pattern_is _ _ _); lia].
      destruct (pattern_is pattern (p + 1) "^"%u8) eqn:Hc; [apply pattern_is_lt in Hc |]; lia.
    + cbn beta. intros stop s' ->. by eexists.
    + intros e s'. apply justified_mono. by intros ->.
  - match goal with |- spec ?m _ _ _ =>
      replace m with (mret (M := M) (p + 1)) by (repeat (case_match; try done)) end.
    repeat (case_match; try done); by eexists.
Qed.

Lemma single_set_bounds p set stop :
  single_set pattern p = Some (set, stop) -> 0 <= p < stop /\ stop <= zlen pattern.
Proof.
  unfold single_set. destruct (zget pattern p) as [b |] eqn:Hp; [| done]. apply zget_lt in Hp.
  destruct (decide (b = "%"%u8)) as [-> |]; [| destruct (decide (b = "["%u8)) as [-> |]].
  - destruct (zget pattern (p + 1)) eqn:H1; [| done]. apply zget_lt in H1. intros [= _ <-]. lia.
  - destruct (set_stop _ _ _) as [e |] eqn:He; [| done]. cbn [mbind option_bind]. intros [= _ <-].
    apply set_stop_bounds in He; destruct (pattern_is _ _ _); lia.
  - intros H. assert (stop = p + 1) by (repeat case_match; congruence). lia.
Qed.

Lemma class_end_known p set stop steps :
  single_set pattern p = Some (set, stop) ->
  spec (class_end pattern limit p) steps (fun e _ => e = stop) (justified False).
Proof.
  intros Hset. pose proof (single_set_bounds _ _ _ Hset).
  eapply spec_weaken; [apply class_end_spec; lia | |].
  - cbn beta. intros e s' [set' He]. congruence.
  - intros e s'. apply justified_mono. congruence.
Qed.

(** Whether the byte at [s] is in the set at [p]. *)
Lemma single_spec set s p stop steps P :
  single_set pattern p = Some (set, stop) ->
  spec (single source pattern limit s p stop) steps (fun b _ => b = byte_in source set s) (justified P).
Proof.
  intros Hset. pose proof (single_set_bounds _ _ _ Hset) as Hb. unfold single, byte_in.
  apply spec_step. intros steps'. destruct (zget source s) as [byte |]; [| done].
  destruct (zget_is_Some pattern p) as [code Hc]; [lia |]. eapply spec_lift_vget; [done |].
  unfold single_set in Hset. rewrite Hc in Hset.
  destruct (decide (code = "%"%u8)) as [-> |]; [| destruct (decide (code = "["%u8)) as [-> |]];
    [| | destruct (decide (code = "."%u8)) as [-> |]].
  - destruct (zget pattern (p + 1)) as [symbol |] eqn:H1; [| done].
    cbn [mbind option_bind] in Hset. injection Hset as <- <-.
    eapply spec_lift_vget; [done |]. apply spec_ret. unfold in_set. cbn. by destruct (class byte symbol).
  - destruct (set_stop _ _ _) as [e |]; [| done]. cbn [mbind option_bind] in Hset. injection Hset as <- <-.
    apply bracket_spec; lia.
  - by injection Hset as <- <-.
  - assert (set = {| elements := [EByte code]; positive := true |}) as -> by (repeat case_match; congruence).
    match goal with |- spec ?m _ _ _ =>
      replace m with (mret (M := M) (byte =? code)) by (repeat (case_match; try done)) end.
    apply spec_ret. unfold in_set. cbn. by destruct (byte =? code).
Qed.

(** ** Runs of bytes *)

Lemma byte_in_lt set s : byte_in source set s = true -> 0 <= s < zlen source.
Proof. unfold byte_in. destruct (zget source s) eqn:H; [| done]. intros _. by apply zget_lt in H. Qed.

Lemma run_fuel set fuel fuel' s :
  zlen source - s <= Z.of_nat fuel -> zlen source - s <= Z.of_nat fuel' ->
  run source fuel set s = run source fuel' set s.
Proof.
  revert fuel' s. induction fuel as [|fuel IH]; intros [|fuel'] s Hf Hf'; cbn [run]; try done.
  1, 2: destruct (byte_in source set s) eqn:Hb; [apply byte_in_lt in Hb; lia | done].
  destruct (byte_in source set s); [apply IH; lia | done].
Qed.

Lemma run_end_step set s : 0 <= s ->
  run_end source set s = if byte_in source set s then run_end source set (s + 1) else s.
Proof.
  intros Hs. unfold run_end. rewrite (run_fuel set (length source) (S (length source)) s) by (unfold zlen; lia).
  done.
Qed.

Lemma run_bounds set fuel s : 0 <= s <= zlen source -> s <= run source fuel set s <= zlen source.
Proof.
  revert s. induction fuel as [|fuel IH]; intros s Hs; cbn [run]; [lia |].
  destruct (byte_in source set s) eqn:Hb; [| lia]. apply byte_in_lt in Hb.
  specialize (IH (s + 1)). lia.
Qed.

Lemma run_end_bounds set s : 0 <= s <= zlen source -> s <= run_end source set s <= zlen source.
Proof. apply run_bounds. Qed.

Lemma expand_spec set p stop fuel last steps P :
  single_set pattern p = Some (set, stop) ->
  0 <= last <= zlen source -> zlen source - last < Z.of_nat fuel ->
  spec (expand source pattern limit fuel last p stop) steps
    (fun e _ => e = run_end source set last) (justified P).
Proof.
  intros Hset. revert last steps. induction fuel as [|fuel IH]; intros last steps H0 Hf; [lia |].
  cbn [expand]. rewrite run_end_step by lia.
  apply spec_part with (P := fun b => b = byte_in source set last) (X := P); [| done |].
  { intros. by apply single_spec. }
  intros b s' ->. destruct (byte_in source set last) eqn:Hb; [| done].
  apply byte_in_lt in Hb. apply IH; lia.
Qed.

(** ** Agreement of an outcome with the matches there are *)

Definition agrees (m : M Outcome) (l : list answer) : Prop := forall steps,
  spec m steps
    (fun r _ => match r.1 with Some stop => head l = Some (Match stop r.2) | None => l = [] end)
    (justified (head l = Some Broken)).

Lemma agrees_none state : agrees (no_match state) [].
Proof. done. Qed.

Lemma agrees_fail : agrees (fail Malformed) [Broken].
Proof. done. Qed.

Lemma agrees_step (f : unit -> M Outcome) l : agrees (f tt) l -> agrees (step limit ≫= f) l.
Proof. intros H steps. apply spec_step. intros s. apply H. Qed.

Lemma agrees_then {A} (m : M A) f (P : A -> Prop) X l :
  (forall steps, spec m steps (fun a _ => P a) (justified X)) -> (X -> head l = Some Broken) ->
  (forall a, P a -> agrees (f a) l) -> agrees (m ≫= f) l.
Proof. intros Hm HX Hf steps. eapply spec_part; [done | done |]. intros a s Ha. by apply Hf. Qed.

(** Trying one way first and, when it fails, the other. *)
Lemma agrees_or (m1 m2 : M Outcome) l1 l2 : agrees m1 l1 -> agrees m2 l2 ->
  agrees (r ← m1; match r.1 with Some _ => mret r | None => m2 end) (l1 ++ l2).
Proof.
  intros H1 H2 steps. eapply spec_seq; [apply H1 | |].
  - intros [[stop |] st] s'; cbn [fst snd].
    + intros H. apply spec_ret. cbn [fst snd]. by destruct l1.
    + intros ->. apply H2.
  - intros e s'. apply justified_mono. by destruct l1.
Qed.

Lemma agrees_try_all again rest candidates state :
  (forall c, In c candidates -> agrees (again c state) (rest c state)) ->
  agrees (try_all limit again candidates state) (flat_map (fun c => rest c state) candidates).
Proof.
  induction candidates as [|c candidates IH]; intros H; cbn [try_all flat_map]; [apply agrees_none |].
  apply agrees_step, agrees_or; [apply H; by left |]. apply IH. intros c' Hc. apply H. by right.
Qed.

Lemma agrees_try_lazy set p stop again rest fuel c state :
  single_set pattern p = Some (set, stop) ->
  0 <= c <= zlen source -> zlen source - c < Z.of_nat fuel ->
  (forall c', c <= c' <= run_end source set c -> agrees (again c' state) (rest c' state)) ->
  agrees (try_lazy source pattern limit fuel again c p stop state)
    (flat_map (fun c => rest c state) (seqZ c (run_end source set c - c + 1))).
Proof.
  intros Hset. revert c. induction fuel as [|fuel IH]; intros c H0 Hf H; [lia |].
  pose proof (run_end_bounds set c H0) as Hr.
  cbn [try_lazy]. rewrite seqZ_cons by lia. cbn [flat_map].
  apply agrees_or; [apply H; lia |].
  apply agrees_then with (P := fun b => b = byte_in source set c) (X := False); [| done |].
  { intros. by apply single_spec. }
  rewrite run_end_step in * by lia. intros b ->. destruct (byte_in source set c) eqn:Hb.
  - apply byte_in_lt in Hb. apply agrees_step.
    replace (Z.pred (run_end source set (c + 1) - c + 1)) with (run_end source set (c + 1) - (c + 1) + 1) by lia.
    apply IH; [lia | lia |]. intros c' Hc. apply H. lia.
  - rewrite seqZ_nil by lia. apply agrees_none.
Qed.

(** ** The invariant of the captures *)

(** Thirty-two places; those begun are texts before [s]. *)
Record caps_at (s : Z) (state : Captures) : Prop := {
  caps_len : zlen (captures state) = 32;
  caps_count : 0 <= count state <= 32;
  caps_in : forall i c, zget (captures state) i = Some c -> i < count state ->
    0 <= cap_start c <= s /\ forall e, cap_end c = Some e -> cap_start c <= e <= s;
}.

Lemma caps_at_default s : caps_at s Captures_default.
Proof.
  split; [done | simpl; lia |]. intros i c Hi%zget_lt. simpl. lia.
Qed.

Lemma caps_at_mono s s' state : s <= s' -> caps_at s state -> caps_at s' state.
Proof.
  intros Hs [Hl Hc Hin]. split; [done | done |]. intros i c Hi Hlt.
  destruct (Hin i c Hi Hlt) as [H1 H2]. split; [lia |]. intros e He. specialize (H2 e He). lia.
Qed.

Lemma caps_at_opened s state e position :
  0 <= s -> count state <> 32 -> caps_at s state -> (e = None \/ e = Some s) ->
  caps_at s (opened state {| cap_start := s; cap_end := e; cap_position := position |}).
Proof.
  intros Hs Hne [Hl Hc Hin] He. unfold opened. split; cbn [captures count].
  - by rewrite zlen_zinsert.
  - lia.
  - intros i c Hi Hlt. destruct (decide (i = count state)) as [-> |].
    + rewrite zget_zinsert_eq in Hi by lia. injection Hi as <-. cbn. split; [lia |].
      intros e' ->. destruct He as [| [= <-]]; [done | lia].
    + rewrite zget_zinsert_ne in Hi by lia. apply Hin in Hi; [done | lia].
Qed.

Lemma open_index_lt state i : open_index state = Some i -> 0 <= i < count state.
Proof.
  unfold open_index. intros [H _]%find_some. apply in_rev, list_elem_of_In, elem_of_seqZ in H. lia.
Qed.

Lemma caps_at_closed s state index :
  open_index state = Some index -> caps_at s state -> caps_at s (closed state index s).
Proof.
  intros Hi%open_index_lt [Hl Hc Hin]. unfold closed. split; cbn [captures count]; [by rewrite zlen_zinsert | done |].
  intros i c Hg Hlt. destruct (zget_is_Some (captures state) index) as [old Ho]; [lia |]. rewrite Ho in Hg.
  destruct (decide (i = index)) as [-> |].
  - rewrite zget_zinsert_eq in Hg by lia. injection Hg as <-. cbn.
    destruct (Hin index old Ho Hlt) as [H1 _]. split; [lia |]. intros e [= <-]. lia.
  - rewrite zget_zinsert_ne in Hg by lia. by apply Hin in Hg.
Qed.

(** ** Balanced texts and repeated texts *)

Lemma balance_spec fuel s level open close steps P :
  0 <= s -> 1 <= level -> zlen source - s < Z.of_nat fuel -> s <= zlen source ->
  spec (balance source limit fuel s level open close) steps
    (fun r _ => match balance_end (drop (Z.to_nat s) source) s level open close with
                | Some stop => r = (stop, 0) /\ s < stop <= zlen source
                | None => r.2 <> 0
                end) (justified P).
Proof.
  revert s level steps. induction fuel as [|fuel IH]; intros s level steps H0 Hl Hf Hs; [lia |].
  cbn [balance]. destruct (zget source s) as [b |] eqn:Hb.
  - apply spec_step. intros steps'. pose proof (zget_lt _ _ _ Hb) as Hlt.
    apply zget_Some in Hb as [_ Hb]. rewrite (drop_S _ _ _ Hb). cbn [balance_end].
    replace (S (Z.to_nat s)) with (Z.to_nat (s + 1)) by lia.
    assert (Hw : forall level', 1 <= level' ->
      spec (balance source limit fuel (s + 1) level' open close) steps'
        (fun r _ => match balance_end (drop (Z.to_nat (s + 1)) source) (s + 1) level' open close with
                    | Some stop => r = (stop, 0) /\ s < stop <= zlen source
                    | None => r.2 <> 0
                    end) (justified P)).
    { intros level' Hl'. eapply spec_weaken; [apply IH; lia | | done]. cbn beta. intros r s'.
      destruct (balance_end _ _ _ _ _); [| done]. intros [-> ?]. split; [done | lia]. }
    destruct (b =? close).
    + replace (level - 1 =? 0) with (level =? 1) by lia. destruct (Z.eqb_spec level 1).
      * apply spec_ret. split; [done | lia].
      * apply Hw. lia.
    + apply Hw. destruct (b =? open); lia.
  - apply zget_None in Hb. rewrite drop_ge by (unfold zlen in *; lia). apply spec_ret. cbn. lia.
Qed.

Lemma take_drop_step (l : list Z) i n x : 0 <= i -> zget l i = Some x ->
  take (S n) (drop (Z.to_nat i) l) = x :: take n (drop (Z.to_nat (i + 1)) l).
Proof.
  intros H0 [_ H]%zget_Some. rewrite (drop_S _ _ _ H). cbn [take].
  by replace (Z.to_nat (i + 1)) with (S (Z.to_nat i)) by lia.
Qed.

Lemma same_bytes_from n o s start steps P :
  0 <= o -> 0 <= s -> 0 <= start -> s + o + Z.of_nat n <= zlen source -> start + o + Z.of_nat n <= zlen source ->
  spec (same_bytes source limit (seqZ o (Z.of_nat n)) s start) steps
    (fun b _ => b = bool_decide (take n (drop (Z.to_nat (s + o)) source) = take n (drop (Z.to_nat (start + o)) source)))
    (justified P).
Proof.
  revert o steps. induction n as [|n IH]; intros o steps H0 H1 H2 H3 H4; [done |].
  rewrite seqZ_cons by lia. cbn [same_bytes]. apply spec_step. intros steps'.
  destruct (zget_is_Some source (s + o)) as [x Hx]; [lia |].
  destruct (zget_is_Some source (start + o)) as [y Hy]; [lia |].
  eapply spec_lift_vget; [done |]. eapply spec_lift_vget; [done |].
  rewrite (take_drop_step _ _ _ x), (take_drop_step _ _ _ y) by (done || lia).
  destruct (Z.eqb_spec x y) as [-> |].
  - replace (Z.pred (Z.of_nat (S n))) with (Z.of_nat n) by lia.
    eapply spec_weaken; [apply IH; lia | | done]. cbn beta. intros b s' ->.
    replace (s + o + 1) with (s + Z.succ o) by lia. replace (start + o + 1) with (start + Z.succ o) by lia.
    apply bool_decide_ext. split; [by intros -> | by intros [= ->]].
  - apply spec_ret. symmetry. apply bool_decide_false. congruence.
Qed.

Lemma same_bytes_spec n s start steps P :
  0 <= n -> 0 <= s -> 0 <= start -> s + n <= zlen source -> start + n <= zlen source ->
  spec (same_bytes source limit (seqZ 0 n) s start) steps
    (fun b _ => b = bool_decide (take (Z.to_nat n) (drop (Z.to_nat s) source)
                                 = take (Z.to_nat n) (drop (Z.to_nat start) source)))
    (justified P).
Proof.
  intros. pose proof (same_bytes_from (Z.to_nat n) 0 s start steps P) as Hf.
  rewrite Z2Nat.id, !Z.add_0_r in Hf by lia. apply Hf; lia.
Qed.

(** ** The arms of the matcher

    [goes_on k rest s p]: from place [p] of the pattern and [s] of the source on,
    [k] finds the first of the matches [rest]. *)
Definition goes_on (k : Z -> Z -> Captures -> M Outcome) (rest : Z -> Z -> Captures -> list answer) (s p : Z) : Prop :=
  forall s' p' state, p <= p' <= zlen pattern -> s <= s' <= zlen source -> caps_at s' state ->
  agrees (k s' p' state) (rest p' s' state).

Section Arms.
Context (continue : Z -> Z -> Captures -> M Outcome) (rest : Z -> Z -> Captures -> list answer).
Context (s p : Z) (state : Captures).
Hypothesis Hs : 0 <= s <= zlen source.
Hypothesis Hp : 0 <= p < zlen pattern.
Hypothesis Hcaps : caps_at s state.
Hypothesis Hgo : goes_on continue rest s (p + 1).
#[local] Set Default Proof Using "Type*".

Lemma agrees_open_capture : zget pattern p = Some "("%u8 ->
  agrees (open_capture pattern continue s p state) (meaning source rest (read_item pattern p) s state).
Proof.
  intros Hb. unfold open_capture, read_item. rewrite Hb.
  pose proof (caps_len _ _ Hcaps). pose proof (caps_count _ _ Hcaps).
  destruct (pattern_is pattern (p + 1) ")"%u8) eqn:Hpos; cbn [meaning answers_item];
    (destruct (Z.eqb_spec (count state) 32); [apply agrees_fail |]);
    intros steps; (eapply spec_lift_vset; [lia |]); apply Hgo; try lia.
  - apply pattern_is_lt in Hpos. lia.
  - apply caps_at_opened; auto with lia.
  - apply caps_at_opened; auto with lia.
Qed.

Lemma agrees_close_capture : zget pattern p = Some ")"%u8 ->
  agrees (close_capture continue s p state) (meaning source rest (read_item pattern p) s state).
Proof.
  intros Hb. unfold close_capture, read_item. rewrite Hb. cbn [meaning answers_item].
  destruct (open_index state) as [index |] eqn:Hi; [| apply agrees_fail].
  pose proof (open_index_lt _ _ Hi). pose proof (caps_len _ _ Hcaps). pose proof (caps_count _ _ Hcaps).
  destruct (zget_is_Some (captures state) index) as [c Hc]; [lia |].
  intros steps. eapply spec_lift_vget; [done |]. eapply spec_lift_vset; [lia |].
  pose proof (caps_at_closed s state index Hi Hcaps) as Hcl. unfold closed in *. rewrite Hc in *.
  apply Hgo; [lia | lia | done].
Qed.

Lemma agrees_balanced open close :
  read_item pattern p = Item (IBalance open close) (p + 4) ->
  zget pattern (p + 2) = Some open -> zget pattern (p + 3) = Some close ->
  agrees (balanced source pattern limit continue s p state) (meaning source rest (read_item pattern p) s state).
Proof.
  intros Hr Ho Hc. unfold balanced. rewrite Hr, Ho, Hc. cbn [meaning answers_item].
  destruct (is_byte (zget source s) open) eqn:Hb; [| apply agrees_none].
  apply is_byte_Some, zget_lt in Hb. apply zget_lt in Hc.
  apply agrees_then with (X := False)
    (P := fun r => match balance_end (drop (Z.to_nat (s + 1)) source) (s + 1) 1 open close with
                   | Some stop => r = (stop, 0) /\ s < stop <= zlen source
                   | None => r.2 <> 0
                   end); [| done |].
  - intros steps. eapply spec_weaken; [apply (balance_spec (S (length source)) (s + 1) 1); unfold zlen in *; lia | | done].
    cbn beta. intros r s'. destruct (balance_end _ _ _ _ _); [intros [-> ?]; split; [done | lia] | done].
  - intros r. destruct (balance_end _ _ _ _ _) as [stop |].
    + intros [-> Hstop]. cbn. apply Hgo; [lia | lia |]. eapply caps_at_mono; [| done]. lia.
    + intros H. replace (r.2 =? 0) with false by lia. apply agrees_none.
Qed.

Lemma agrees_frontier set stop :
  pattern_is pattern (p + 2) "["%u8 = true -> single_set pattern (p + 2) = Some (set, stop) ->
  read_item pattern p = Item (IFrontier set) stop ->
  agrees (frontier source pattern limit continue s p state) (meaning source rest (read_item pattern p) s state).
Proof.
  intros Hb Hset Hr. unfold frontier. rewrite Hr, Hb. cbn [meaning answers_item negb].
  pose proof (single_set_bounds _ _ _ Hset) as Hbd.
  apply agrees_then with (X := False) (P := fun e => e = stop); [| done | intros ? ->].
  { intros steps. by eapply class_end_known. }
  assert (Hbr : set = bracket_set pattern (p + 2) stop).
  { apply is_byte_Some in Hb. unfold single_set in Hset. rewrite Hb in Hset.
    destruct (set_stop _ _ _); [| done]. cbn [mbind option_bind] in Hset. congruence. }
  rewrite Hbr. set (before := if s =? 0 then 0 else _).
  apply agrees_then with (X := False) (P := fun e => e = before); [| done | intros ? ->].
  { intros steps. subst before. destruct (Z.eqb_spec s 0); [done |].
    destruct (zget_is_Some source (s - 1)) as [b Hb']; [lia |]. unfold spec, lift, vget. by rewrite Hb'. }
  apply agrees_then with (X := False) (P := fun b => b = in_set before (bracket_set pattern (p + 2) stop));
    [| done | intros ? ->].
  { intros steps. apply bracket_spec; lia. }
  destruct (in_set before _); cbn [negb andb]; [apply agrees_none |].
  apply agrees_then with (X := False)
    (P := fun b => b = in_set (default 0 (zget source s)) (bracket_set pattern (p + 2) stop));
    [| done | intros ? ->].
  { intros steps. apply bracket_spec; lia. }
  destruct (in_set (default 0 _) _); [| apply agrees_none].
  apply Hgo; [lia | lia | done].
Qed.

Lemma agrees_back_reference code :
  zget pattern (p + 1) = Some code ->
  read_item pattern p = (if code =? "0"%u8 then Broken_pattern else Item (IBack (code - "1"%u8)) (p + 2)) ->
  "0"%u8 <= code ->
  agrees (back_reference source limit continue code s p state) (meaning source rest (read_item pattern p) s state).
Proof.
  intros Hp1 Hr Hcode. unfold back_reference. rewrite Hr. apply zget_lt in Hp1.
  change "1"%u8 with 49 in *. change "0"%u8 with 48 in *.
  destruct (Z.eqb_spec code 48) as [-> |]; [apply agrees_fail |].
  replace (code - 49 <? 0) with false by lia. cbn [meaning answers_item]. unfold capture_of.
  destruct (Z.ltb_spec (code - 49) (count state)); [| apply agrees_fail].
  destruct (zget (captures state) (code - 49)) as [c |] eqn:Hc; [| apply agrees_fail].
  destruct (cap_end c) as [stop |] eqn:He; [| apply agrees_fail].
  edestruct (caps_in _ _ Hcaps) as [Hstart Hend]; [exact Hc | lia |]. specialize (Hend _ He).
  destruct (cap_position c); cbn [negb andb]; [apply agrees_none |].
  replace (stop <? cap_start c) with false by lia.
  set (text := take (Z.to_nat (stop - cap_start c)) _).
  assert (Hlen : zlen text = stop - cap_start c).
  { unfold text, zlen in *. rewrite length_take, length_drop. lia. }
  rewrite Hlen. destruct (Z.ltb_spec (zlen source) (s + (stop - cap_start c))).
  { rewrite bool_decide_false; [apply agrees_none |]. intros Ht. apply (f_equal length) in Ht.
    rewrite length_take, length_drop in Ht. unfold zlen in *. lia. }
  apply agrees_then with (X := False)
    (P := fun b => b = bool_decide (take (length text) (drop (Z.to_nat s) source) = text));
    [| done | intros ? ->].
  { intros steps. replace (length text) with (Z.to_nat (stop - cap_start c)) by (unfold zlen in Hlen; lia).
    unfold text. apply same_bytes_spec; lia. }
  destruct (bool_decide _); [| apply agrees_none].
  apply Hgo; [lia | lia |]. eapply caps_at_mono; [| done]. lia.
Qed.

Lemma agrees_item again : goes_on again rest s (p + 2) ->
  read_item pattern p = read_set pattern p ->
  agrees (item source pattern limit continue again s p state) (meaning source rest (read_item pattern p) s state).
Proof.
  intros Hagain Hr. unfold item. rewrite Hr. unfold read_set.
  destruct (single_set pattern p) as [[set stop] |] eqn:Hset.
  2: { apply agrees_then with (X := True) (P := fun _ => False); [| done | done].
       intros steps. eapply spec_weaken; [apply class_end_spec; lia | |].
       - cbn beta. intros e s' [set He]. congruence.
       - intros e s'. by apply justified_mono. }
  pose proof (single_set_bounds _ _ _ Hset) as Hbd.
  apply agrees_then with (X := False) (P := fun e => e = stop); [| done | intros ? ->].
  { intros steps. by eapply class_end_known. }
  apply agrees_then with (X := False) (P := fun b => b = byte_in source set s); [| done | intros ? ->].
  { intros steps. by apply single_spec. }
  pose proof (run_end_bounds set s Hs) as Hrun.
  assert (Honce : agrees (if byte_in source set s then continue (s + 1) stop state else no_match state)
    (meaning source rest (Item (ISet set Once) stop) s state)).
  { cbn [meaning answers_item]. destruct (byte_in source set s) eqn:Hb; [| apply agrees_none]. apply byte_in_lt in Hb.
    apply Hgo; [lia | lia |]. eapply caps_at_mono; [| done]. lia. }
  destruct (zget pattern stop) as [suffix |] eqn:Hsuf; [| exact Honce].
  assert (Ha : forall c, s <= c <= zlen source ->
    agrees (again c (stop + 1) state) (rest (stop + 1) c state)).
  { intros c Hc. apply zget_lt in Hsuf. apply Hagain; [lia | lia |]. eapply caps_at_mono; [| done]. lia. }
  apply zget_lt in Hsuf.
  destruct (decide (suffix = "?"%u8)) as [-> |]; [| destruct (decide (suffix = "-"%u8)) as [-> |];
    [| destruct (decide (suffix = "*"%u8)) as [-> |]; [| destruct (decide (suffix = "+"%u8)) as [-> |]]]].
  - cbn [meaning answers_item].
    assert (agrees (continue s (stop + 1) state) (rest (stop + 1) s state)) by (apply Hgo; [lia | lia | done]).
    destruct (byte_in source set s) eqn:Hb; [| done]. apply byte_in_lt in Hb.
    apply agrees_or; [apply Ha; lia | done].
  - apply agrees_try_lazy with (again := fun s state => again s (stop + 1) state) (set := set);
      [done | lia | unfold zlen; lia |]. intros c Hc. apply Ha. lia.
  - apply agrees_then with (X := False) (P := fun e => e = run_end source set s); [| done | intros ? ->].
    { intros steps. apply expand_spec; [done | lia | unfold zlen; lia]. }
    apply agrees_try_all. intros c Hc. apply in_rev, list_elem_of_In, elem_of_seqZ in Hc. apply Ha. lia.
  - cbn [meaning answers_item]. rewrite run_end_step in * by lia.
    destruct (byte_in source set s) eqn:Hb; cbn [negb].
    2: { rewrite seqZ_nil by lia. apply agrees_none. }
    apply byte_in_lt in Hb.
    apply agrees_then with (X := False) (P := fun e => e = run_end source set (s + 1)); [| done | intros ? ->].
    { intros steps. apply expand_spec; [done | lia | unfold zlen; lia]. }
    apply agrees_try_all. intros c Hc. apply in_rev, list_elem_of_In, elem_of_seqZ in Hc. apply Ha.
    lia.
  - clear Ha Hrun. revert Honce.
    generalize (if byte_in source set s then continue (s + 1) stop state else no_match state).
    intros once Honce. repeat (case_match; try done).
Qed.

(** The arms of [%]. *)
Lemma match_escape_agrees again : goes_on again rest s (p + 2) -> zget pattern p = Some "%"%u8 ->
  agrees
    (match zget pattern (p + 1) with
     | None => fail Malformed
     | Some "b"%u8 => balanced source pattern limit continue s p state
     | Some "f"%u8 => frontier source pattern limit continue s p state
     | Some code =>
         if is_ascii_digit code then back_reference source limit continue code s p state
         else item source pattern limit continue again s p state
     end)
    (meaning source rest (read_item pattern p) s state).
Proof.
  intros Hagain Hb.
  assert (Hitem : read_item pattern p = read_set pattern p ->
    agrees (item source pattern limit continue again s p state) (meaning source rest (read_item pattern p) s state)).
  { intros Hr. apply agrees_item; done || lia. }
  destruct (zget pattern (p + 1)) as [code |] eqn:H1.
  2: { unfold read_item. rewrite Hb, H1. apply agrees_fail. }
  destruct (decide (code = "b"%u8)) as [-> |]; [| destruct (decide (code = "f"%u8)) as [-> |]].
  - destruct (zget pattern (p + 2)) as [open |] eqn:H2.
    + destruct (zget pattern (p + 3)) as [close |] eqn:H3.
      * apply (agrees_balanced open close); try done. unfold read_item. by rewrite Hb, H1, H2, H3.
      * unfold balanced, read_item. rewrite Hb, H1, H2, H3. apply agrees_fail.
    + unfold balanced, read_item. rewrite Hb, H1, H2. apply agrees_fail.
  - destruct (pattern_is pattern (p + 2) "["%u8) eqn:H2.
    + destruct (single_set pattern (p + 2)) as [[set stop] |] eqn:H3.
      * apply (agrees_frontier set stop); try done. unfold read_item. by rewrite Hb, H1, H2, H3.
      * unfold frontier, read_item. rewrite Hb, H1, H2, H3. cbn [negb].
        apply agrees_then with (X := True) (P := fun _ => False); [| done | done].
        intros steps. eapply spec_weaken; [apply class_end_spec; lia | |].
        -- cbn beta. intros e s' [set He]. congruence.
        -- intros e s'. by apply justified_mono.
    + unfold frontier, read_item. rewrite Hb, H1, H2. apply agrees_fail.
  - assert (Hr : read_item pattern p = if is_ascii_digit code
        then (if code =? "0"%u8 then Broken_pattern else Item (IBack (code - "1"%u8)) (p + 2))
        else read_set pattern p).
    { unfold read_item. rewrite Hb, H1. repeat (case_match; try done). }
    assert (Hm : forall A (b f e : A), match code with "b"%u8 => b | "f"%u8 => f | _ => e end = e).
    { intros. repeat (case_match; try done). }
    rewrite Hm. destruct (is_ascii_digit code) eqn:Hdig; [| by apply Hitem].
    apply agrees_back_reference; [done | done |]. unfold is_ascii_digit in Hdig. bool_hyps. lia.
Qed.
End Arms.

(** ** The loop *)

(** Each level of recursion has two bytes of the pattern behind it: an item and its
    suffix; so [TooComplex] needs 400 of them. *)
Lemma match_loop_agrees fuel s p state depth :
  0 <= p <= zlen pattern -> zlen pattern - p < Z.of_nat fuel -> 0 <= s <= zlen source ->
  caps_at s state -> 0 <= 2 * depth <= p ->
  agrees (match_loop source pattern limit fuel s p state depth) (answers source pattern fuel p s state).
Proof.
  revert s p state depth. induction fuel as [|fuel IH]; intros s p state depth Hp Hf Hs Hcaps Hd; [lia |].
  cbn [match_loop answers]. apply agrees_step.
  set (continue := fun s p state => match_loop source pattern limit fuel s p state depth).
  set (again := fun s p state => if 200 <=? depth + 1 then fail TooComplex else match_loop source pattern limit fuel s p state (depth + 1)).
  set (rest := answers source pattern fuel).
  destruct (zget pattern p) as [b |] eqn:Hb; [| unfold read_item; rewrite Hb; done].
  pose proof (zget_lt _ _ _ Hb) as Hlt.
  assert (Hgo : goes_on continue rest s (p + 1)).
  { intros s' p' st' Hp' Hs' Hc'. apply IH; [lia | lia | lia | done | lia]. }
  assert (Hagain : goes_on again rest s (p + 2)).
  { intros s' p' st' Hp' Hs' Hc'. unfold again. destruct (Z.leb_spec 200 (depth + 1)).
    - intros steps. apply spec_fail. cbn. lia.
    - apply IH; [lia | lia | lia | done | lia]. }
  assert (Hitem : read_item pattern p = read_set pattern p ->
    agrees (item source pattern limit continue again s p state) (meaning source rest (read_item pattern p) s state)).
  { intros Hr. apply agrees_item; done || lia. }
  destruct (decide (b = "("%u8)) as [-> |]; [apply agrees_open_capture; done || lia |].
  destruct (decide (b = ")"%u8)) as [-> |]; [apply agrees_close_capture; done || lia |].
  destruct (decide (b = "$"%u8)) as [-> |].
  { destruct (Z.eqb_spec (p + 1) (zlen pattern)) as [He |].
    - unfold read_item. rewrite Hb, He, Z.eqb_refl. cbn [meaning answers_item].
      intros steps. apply spec_ret. cbn. by destruct (s =? zlen source).
    - apply Hitem. unfold read_item. rewrite Hb. by replace (p + 1 =? zlen pattern) with false by lia. }
  destruct (decide (b = "%"%u8)) as [-> |].
  2: { assert (Hr : read_item pattern p = read_set pattern p) by (unfold read_item; rewrite Hb; repeat case_match; done).
       specialize (Hitem Hr). repeat (case_match; try done). }
  apply match_escape_agrees; done || lia.
Qed.

(** ** Where the matches are *)

(** Every match among the answers ends in the source, at or after [s], with its
    captures before its end. *)
Definition within (s : Z) (l : list answer) : Prop :=
  forall stop state, In (Match stop state) l -> s <= stop <= zlen source /\ caps_at stop state.

Lemma within_nil s : within s [].
Proof. by intros stop state []. Qed.

Lemma within_broken s : within s [Broken].
Proof. by intros stop state [| []]. Qed.

Lemma within_mono s s' l : s <= s' -> within s' l -> within s l.
Proof. intros Hs H stop state Hin. destruct (H stop state Hin). split; [lia | done]. Qed.

Lemma within_app s l k : within s l -> within s k -> within s (l ++ k).
Proof. intros Hl Hk stop state [H | H]%in_app_or; auto. Qed.

Lemma within_flat_map {A} s (f : A -> list answer) l :
  (forall a, In a l -> within s (f a)) -> within s (flat_map f l).
Proof. intros H stop state (a & Ha & Hin)%in_flat_map. by apply (H a). Qed.

Lemma balance_end_bounds text s level open close stop :
  balance_end text s level open close = Some stop -> s < stop <= s + zlen text.
Proof.
  revert s level. induction text as [|b text IH]; intros s level; cbn [balance_end]; [done |].
  rewrite zlen_cons. destruct (b =? close); [destruct (level =? 1) |].
  - intros [= <-]. pose proof (zlen_nonneg text). lia.
  - intros H%IH. lia.
  - intros H%IH. lia.
Qed.

Lemma answers_item_within rest i s state :
  0 <= s <= zlen source -> caps_at s state ->
  (forall s' state, s <= s' <= zlen source -> caps_at s' state -> within s' (rest s' state)) ->
  within s (answers_item source rest i s state).
Proof.
  intros Hs Hcaps Hrest.
  assert (Hr : forall s' state', s <= s' <= zlen source -> caps_at s state' -> within s (rest s' state')).
  { intros s' state' H1 H2. apply within_mono with (s' := s'); [lia |]. apply Hrest; [done |].
    eapply caps_at_mono; [| done]. lia. }
  assert (Hset : forall set, within s (if byte_in source set s then rest (s + 1) state else [])).
  { intros set. destruct (byte_in source set s) eqn:Hb; [apply byte_in_lt in Hb; apply Hr; [lia | done] | apply within_nil]. }
  destruct i as [ | | | | open close | set | index | set r]; cbn [answers_item].
  - destruct (Z.eqb_spec (count state) 32); [apply within_broken |]. apply Hr; [lia |]. apply caps_at_opened; auto with lia.
  - destruct (Z.eqb_spec (count state) 32); [apply within_broken |]. apply Hr; [lia |]. apply caps_at_opened; auto with lia.
  - destruct (open_index state) eqn:Hi; [| apply within_broken]. apply Hr; [lia |]. by apply caps_at_closed.
  - destruct (Z.eqb_spec s (zlen source)); [| apply within_nil]. intros stop st [[= <- <-] | []]. split; [lia | done].
  - destruct (is_byte _ _) eqn:Hb; [| apply within_nil]. apply is_byte_Some, zget_lt in Hb.
    destruct (balance_end _ _ _ _ _) eqn:He; [| apply within_nil]. apply balance_end_bounds in He.
    unfold zlen in *. rewrite length_drop in He. apply Hr; [unfold zlen; lia | done].
  - destruct (_ && _); [apply Hr; [lia | done] | apply within_nil].
  - destruct (capture_of state index) as [c |]; [| apply within_broken].
    destruct (cap_end c) as [stop |]; [| apply within_broken].
    destruct (negb _); cbn [andb]; [| apply within_nil].
    case_bool_decide as Ht; [| apply within_nil]. apply Hr; [| done].
    apply (f_equal length) in Ht. rewrite length_take, length_drop in Ht. unfold zlen in *. lia.
  - pose proof (run_end_bounds set s Hs) as Hrun.
    destruct r; [apply Hset | apply within_app; [apply Hset | apply Hr; [lia | done]] | | | ];
      apply within_flat_map; intros c Hc; rewrite <- ?in_rev in Hc;
      apply list_elem_of_In, elem_of_seqZ in Hc; (apply Hr; [lia | done]).
Qed.

Lemma answers_within fuel p s state :
  0 <= s <= zlen source -> caps_at s state -> within s (answers source pattern fuel p s state).
Proof.
  revert p s state. induction fuel as [|fuel IH]; intros p s state Hs Hcaps; [apply within_nil |].
  cbn [answers]. destruct (read_item pattern p) as [| | i next]; cbn [meaning].
  - intros stop st [[= <- <-] | []]. split; [lia | done].
  - apply within_broken.
  - apply answers_item_within; [done | done |]. intros s' state' Hs' Hc'. apply IH; [lia | done].
Qed.
End Theorems.
