(* ===== verification/PatternSearch.v ===== *)
(** What the entry points of the pattern matcher give: the first match of a
    search, a match at a position, the first occurrence of a plain text. *)

From Stdlib Require Import ZArith Lia.
From stdpp Require Import base list sets numbers strings.
From S2P Require Import Prelude Lexer Pattern PatternSpec PatternTheorems.

Local Open Scope Z_scope.

Section Search.
Context (source pattern : list Z) (limit : Z).

Lemma match_at_agrees anchor position :
  (anchor = true -> 0 < zlen pattern) -> 0 <= position <= zlen source ->
  agrees pattern limit
    (match_at source pattern limit position (if anchor then 1 else 0) Captures_default)
    (matches_at source pattern position (first_place anchor)).
Proof.
  intros Ha Hp. unfold match_at, matches_at, first_place. pose proof (zlen_nonneg pattern).
  apply match_loop_agrees; [| | done | apply caps_at_default | ];
    destruct anchor; unfold zlen in *; try specialize (Ha eq_refl); lia.
Qed.

Definition found_is (anchor : bool) (f : Found) : Prop :=
  head (matches_at source pattern (found_start f) (first_place anchor))
  = Some (Match (found_end f) {| captures := found_captures f; count := found_count f |}).

Section Positions.
Context (start : Z) (anchor : bool) (last : option Z).

(** What a position tried gives. *)
Definition there (q : Z) : list answer := matches_at source pattern q (first_place anchor).
Definition passed_to (stop : Z) : Prop := forall q, start <= q < stop -> passed_over last (there q).

Lemma passed_to_step q : passed_to q -> passed_over last (there q) -> passed_to (q + 1).
Proof. intros H Hq r Hr. destruct (decide (r = q)) as [-> |]; [done | apply H; lia]. Qed.

Definition search_post (found : option Found) : Prop :=
  match found with
  | Some f =>
      candidate source anchor start (found_start f) /\ found_is anchor f /\ Some (found_end f) <> last
      /\ passed_to (found_start f)
  | None => forall q, candidate source anchor start q -> passed_over last (there q)
  end.
Definition search_broken : Prop :=
  exists q, candidate source anchor start q /\ head (there q) = Some Broken /\ passed_to q.

Lemma search_from_spec n a steps :
  0 <= start -> (anchor = true -> 0 < zlen pattern) ->
  start <= a -> a + Z.of_nat n = zlen source + 1 -> (anchor = true -> a = start) -> passed_to a ->
  spec (search_from source pattern limit (seqZ a (Z.of_nat n)) anchor last) steps
    (fun found _ => search_post found) (justified pattern limit search_broken).
Proof.
  intros H0 Ha. revert a steps. induction n as [|n IH]; intros a steps Hsa Hn Hanchor Hpassed.
  { apply spec_ret. intros q [Hq _]. apply Hpassed. lia. }
  rewrite seqZ_cons by lia. cbn [search_from]. apply spec_step. intros steps'.
  assert (Hc : candidate source anchor start a) by (split; [lia | done]).
  assert (Hnext : passed_over last (there a) -> forall s,
    spec (if anchor then mret None
          else search_from source pattern limit (seqZ (Z.succ a) (Z.pred (Z.of_nat (S n)))) anchor last) s
         (fun found _ => search_post found) (justified pattern limit search_broken)).
  { intros Hover s. destruct anchor eqn:He.
    - apply spec_ret. intros q [_ Hq]. by rewrite Hq, <- Hanchor.
    - replace (Z.pred (Z.of_nat (S n))) with (Z.of_nat n) by lia.
      apply IH; [lia | lia | done |]. replace (Z.succ a) with (a + 1) by lia. by apply passed_to_step. }
  eapply spec_seq; [apply match_at_agrees; [done | lia] | |].
  - fold (there a). intros [[stop |] st] s'; cbn [fst snd].
    + intros Hm. destruct (bool_decide _) eqn:Hd; cbn [negb].
      * apply bool_decide_eq_true in Hd. apply Hnext. unfold passed_over. by rewrite Hm.
      * apply bool_decide_eq_false in Hd. apply spec_ret. split; [done |]. split; [| done].
        unfold found_is. destruct st. exact Hm.
    + intros Hm. apply Hnext. unfold passed_over. by rewrite Hm.
  - intros e s'. apply justified_mono. intros Hb. by exists a.
Qed.
End Positions.

Lemma search_spec start anchor last steps :
  0 <= start -> (anchor = true -> 0 < zlen pattern) ->
  spec (search source pattern limit start anchor last) steps
    (fun found _ => search_post start anchor last found) (justified pattern limit (search_broken start anchor last)).
Proof.
  intros H0 Ha. unfold search.
  destruct (Z.ltb_spec (zlen source) start); [apply spec_ret; intros q [Hq _]; lia |].
  replace (zlen source + 1 - start) with (Z.of_nat (Z.to_nat (zlen source + 1 - start))) by lia.
  apply search_from_spec; try done || lia. intros q. lia.
Qed.

(** C31: A search finds the first position at which the match that Lua prefers (the
    first in the order of backtracking) is there and does not end where the last
    one did, and returns that match with its captures; it finds nothing exactly
    when every position it may try is passed over. It reports a malformed pattern
    only where the search, in that order, comes to a broken item, too complex a
    pattern only when it has 400 bytes, and exhaustion only with its steps used up;
    it never panics and never runs out of fuel. *)
Theorem search_finds_preferred (start : Z) (anchor : bool) (last : option Z) (steps : Z) :
  0 <= start -> (anchor = true -> 0 < zlen pattern) ->
  spec (search source pattern limit start anchor last) steps
    (fun found _ =>
       match found with
       | Some f =>
           candidate source anchor start (found_start f) /\ found_is anchor f /\ Some (found_end f) <> last
           /\ forall q, start <= q < found_start f ->
              passed_over last (matches_at source pattern q (first_place anchor))
       | None =>
           forall q, candidate source anchor start q ->
           passed_over last (matches_at source pattern q (first_place anchor))
       end)
    (justified pattern limit
       (exists q, candidate source anchor start q
          /\ head (matches_at source pattern q (first_place anchor)) = Some Broken
          /\ forall r, start <= r < q -> passed_over last (matches_at source pattern r (first_place anchor)))).
Proof. intros H0 Ha. by apply search_spec. Qed.

(** What a search returns lies in the source: the match begins at or after
    [start] and ends in the source, it has at most 32 captures, and every capture
    begun is a text (or a position) before the end of the match. *)
Theorem found_within_source (start : Z) (anchor : bool) (last : option Z) (steps : Z) :
  0 <= start -> (anchor = true -> 0 < zlen pattern) ->
  spec (search source pattern limit start anchor last) steps
    (fun found _ => forall f, found = Some f ->
       start <= found_start f <= found_end f /\ found_end f <= zlen source
       /\ zlen (found_captures f) = 32 /\ 0 <= found_count f <= 32
       /\ forall i c, zget (found_captures f) i = Some c -> i < found_count f ->
          0 <= cap_start c <= found_end f
          /\ forall e, cap_end c = Some e -> cap_start c <= e <= found_end f)
    (fun _ _ => True).
Proof.
  intros H0 Ha. eapply spec_weaken; [by apply search_spec | | done].
  cbn beta. intros found s' Hpost f ->. destruct Hpost as ([Hc _] & Hf & _).
  unfold found_is in Hf. apply head_Some_elem_of, list_elem_of_In in Hf.
  apply answers_within in Hf; [| lia | apply caps_at_default].
  destruct Hf as [Hstop [Hl Hn Hin]]. cbn in *. split; [lia |]. split; [lia |]. split; [done |]. split; [lia |].
  exact Hin.
Qed.

(** A match at one position is the one that Lua prefers, or there is none. *)
Theorem at_finds_preferred (start : Z) (anchor : bool) (steps : Z) :
  0 <= start -> (anchor = true -> 0 < zlen pattern) ->
  spec (at_position source pattern limit start anchor) steps
    (fun found _ =>
       match found with
       | Some f => found_start f = start /\ found_is anchor f
       | None => zlen source < start \/ there anchor start = []
       end)
    (justified pattern limit (head (there anchor start) = Some Broken)).
Proof.
  intros H0 Ha. unfold at_position. destruct (Z.ltb_spec (zlen source) start); [apply spec_ret; by left |].
  apply spec_step. intros steps'. eapply spec_seq; [apply match_at_agrees; [done | lia] | | done].
  intros [[stop |] st] s'; cbn [fst snd]; intros Hm; apply spec_ret; [| by right].
  split; [done |]. unfold found_is. destruct st. exact Hm.
Qed.
End Search.

(** ** Plain texts *)

Section Plain.
Context (source pattern : list Z) (limit : Z).

Definition out_of_steps (bound : Z) (e : PatternError) (_ : Z) : Prop := e = Exhausted /\ limit < bound.

Lemma spec_step_within {A} (f : unit -> M A) steps (Q : A -> Z -> Prop) bound :
  steps < bound -> spec (f tt) (steps + 1) Q (out_of_steps bound) ->
  spec (step limit ≫= f) steps Q (out_of_steps bound).
Proof.
  intros Hb H. apply spec_bind. unfold spec, step.
  destruct (Z.leb_spec limit steps); [split; [done | lia] | apply H].
Qed.

Lemma equal_at_from n o position steps bound :
  0 <= o -> 0 <= position -> position + o + Z.of_nat n <= zlen source -> o + Z.of_nat n <= zlen pattern ->
  steps + Z.of_nat n <= bound ->
  spec (equal_at source pattern limit (seqZ o (Z.of_nat n)) position) steps
    (fun b s' => b = bool_decide (take n (drop (Z.to_nat (position + o)) source) = take n (drop (Z.to_nat o) pattern))
                 /\ s' <= steps + Z.of_nat n)
    (out_of_steps bound).
Proof.
  revert o steps. induction n as [|n IH]; intros o steps H0 H1 H2 H3 Hb; [apply spec_ret; split; [done | lia] |].
  rewrite seqZ_cons by lia. cbn [equal_at]. apply spec_step_within; [lia |].
  destruct (zget_is_Some source (position + o)) as [x Hx]; [lia |].
  destruct (zget_is_Some pattern o) as [y Hy]; [lia |].
  eapply spec_lift_vget; [done |]. eapply spec_lift_vget; [done |].
  rewrite (take_drop_step _ _ _ x), (take_drop_step _ _ _ y) by (done || lia).
  destruct (Z.eqb_spec x y) as [-> |].
  - replace (Z.pred (Z.of_nat (S n))) with (Z.of_nat n) by lia.
    eapply spec_weaken; [apply IH; lia | | done]. cbn beta. intros b s' [-> Hs']. split; [| lia].
    replace (position + o + 1) with (position + Z.succ o) by lia. replace (o + 1) with (Z.succ o) by lia.
    apply bool_decide_ext. split; [by intros -> | by intros [= ->]].
  - apply spec_ret. split; [| lia]. symmetry. apply bool_decide_false. congruence.
Qed.

Lemma equal_at_spec position steps bound :
  0 <= position -> position + zlen pattern <= zlen source -> steps + zlen pattern <= bound ->
  spec (equal_at source pattern limit (seqZ 0 (zlen pattern)) position) steps
    (fun b s' => b = bool_decide (occurs source pattern position) /\ s' <= steps + zlen pattern)
    (out_of_steps bound).
Proof.
  intros H0 H1 H2. eapply spec_weaken; [apply (equal_at_from (length pattern) 0 position steps bound); unfold zlen in *; lia | | done].
  cbn beta. intros b s' [-> Hs']. split; [| done]. apply bool_decide_ext. unfold occurs.
  rewrite Z.add_0_r. cbn [Z.to_nat]. rewrite drop_0, (take_ge pattern) by lia. unfold zlen in *. split; [| tauto].
  intros H. split; [lia | done].
Qed.

Definition plain_post (start : Z) (found : option Found) : Prop :=
  match found with
  | Some f =>
      start <= found_start f /\ occurs source pattern (found_start f)
      /\ found_end f = found_start f + zlen pattern /\ found_count f = 0
      /\ found_captures f = captures Captures_default
      /\ forall q, start <= q < found_start f -> ~ occurs source pattern q
  | None => forall q, start <= q -> ~ occurs source pattern q
  end.

Lemma occurs_bound q : occurs source pattern q -> q + zlen pattern <= zlen source.
Proof.
  intros [Hq H]. apply (f_equal length) in H. rewrite length_take, length_drop in H. unfold zlen in *. lia.
Qed.

Lemma plain_from_spec start n a steps bound :
  0 <= start <= a -> a + Z.of_nat n = zlen source - zlen pattern + 1 ->
  steps + Z.of_nat n * (zlen pattern + 1) <= bound ->
  (forall q, start <= q < a -> ~ occurs source pattern q) ->
  spec (plain_from source pattern limit (seqZ a (Z.of_nat n))) steps
    (fun found _ => plain_post start found) (out_of_steps bound).
Proof.
  revert a steps. induction n as [|n IH]; intros a steps Ha Hn Hb Hbefore.
  { apply spec_ret. intros q Hq Ho. pose proof (occurs_bound q Ho). apply (Hbefore q); [lia | done]. }
  pose proof (zlen_nonneg pattern).
  rewrite seqZ_cons by lia. cbn [plain_from]. apply spec_step_within; [nia |].
  eapply spec_seq; [apply (equal_at_spec a (steps + 1) bound); nia | | done].
  cbn beta. intros b s' [-> Hs']. case_bool_decide as Ho.
  - apply spec_ret. cbn. repeat split; try done || lia; apply Ho.
  - replace (Z.pred (Z.of_nat (S n))) with (Z.of_nat n) by lia. apply IH; [lia | lia | nia |].
    intros q Hq. destruct (decide (q = a)) as [-> |]; [done | apply Hbefore; lia].
Qed.

Lemma plain_find_spec start steps :
  0 <= start ->
  spec (plain_find source pattern limit start) steps
    (fun found _ => plain_post start found)
    (out_of_steps (steps + (zlen source + 1 - start) * (zlen pattern + 1))).
Proof.
  intros H0. unfold plain_find. pose proof (zlen_nonneg pattern).
  destruct (Z.ltb_spec (zlen source) start).
  { apply spec_ret. intros q Hq [Ho _]. lia. }
  destruct (Z.ltb_spec (zlen source - start) (zlen pattern)).
  { apply spec_ret. intros q Hq Ho%occurs_bound. lia. }
  replace (zlen source - zlen pattern + 1 - start) with (Z.of_nat (Z.to_nat (zlen source - zlen pattern + 1 - start))) by lia.
  apply (plain_from_spec start); [lia | lia | nia | intros q; lia].
Qed.

(** A plain find returns the first occurrence of the text at or after [start],
    without captures, and nothing exactly when there is none; it fails only when its
    steps are fewer than (bytes of the source from [start], and one) times (bytes of
    the text, and one). *)
Theorem plain_find_first (start steps : Z) :
  0 <= start ->
  spec (plain_find source pattern limit start) steps
    (fun found _ =>
       match found with
       | Some f =>
           start <= found_start f /\ occurs source pattern (found_start f)
           /\ found_end f = found_start f + zlen pattern /\ found_count f = 0
           /\ found_captures f = captures Captures_default
           /\ forall q, start <= q < found_start f -> ~ occurs source pattern q
       | None => forall q, start <= q -> ~ occurs source pattern q
       end)
    (fun e _ => e = Exhausted /\ limit < steps + (zlen source + 1 - start) * (zlen pattern + 1)).
Proof. apply plain_find_spec. Qed.
End Plain.

(** ** Patterns without special bytes *)

Section Literal.
Context (source pattern : list Z).
Hypothesis Hspecial : special pattern = false.
Hypothesis Hclose : contains pattern ")"%u8 = false.
#[local] Set Default Proof Using "Type*".

Lemma literal_byte p b : zget pattern p = Some b ->
  contains (bytes_of_string "^$*+?.([%-)") b = false.
Proof.
  intros Hb. apply zget_Some in Hb as [_ Hb]. apply list_elem_of_lookup_2 in Hb.
  assert (H1 : contains (bytes_of_string "^$*+?.([%-") b = false).
  { destruct (contains _ b) eqn:Hc; [| done]. unfold special in Hspecial.
    rewrite <- Hspecial. symmetry. apply existsb_exists. exists b. split; [by apply list_elem_of_In | done]. }
  assert (H2 : b <> ")"%u8) by (intros ->; by apply contains_false in Hclose).
  apply contains_false. apply contains_false in H1. cbn in *. set_solver.
Qed.

Lemma literal_item p b : zget pattern p = Some b ->
  read_item pattern p = Item (ISet {| elements := [EByte b]; positive := true |} Once) (p + 1).
Proof.
  intros Hb. pose proof (literal_byte p b Hb) as Hl. apply contains_false in Hl. cbn in Hl.
  assert (Hset : single_set pattern p = Some ({| elements := [EByte b]; positive := true |}, p + 1)).
  { unfold single_set. rewrite Hb. repeat (case_match; try done); subst; set_solver. }
  assert (Hread : read_set pattern p = Item (ISet {| elements := [EByte b]; positive := true |} Once) (p + 1)).
  { unfold read_set. rewrite Hset. destruct (zget pattern (p + 1)) as [c |] eqn:Hc; [| done].
    pose proof (literal_byte _ c Hc) as Hlc. apply contains_false in Hlc. cbn in Hlc.
    repeat (case_match; try done); subst; set_solver. }
  unfold read_item. rewrite Hb. repeat (case_match; try done); subst; set_solver.
Qed.

Lemma literal_answers fuel p s state : 0 <= p <= zlen pattern -> zlen pattern - p < Z.of_nat fuel -> 0 <= s ->
  answers source pattern fuel p s state
  = if bool_decide (take (Z.to_nat (zlen pattern - p)) (drop (Z.to_nat s) source) = drop (Z.to_nat p) pattern)
    then [Match (s + (zlen pattern - p)) state] else [].
Proof.
  revert p s. induction fuel as [|fuel IH]; intros p s Hp Hf Hs; [lia |].
  cbn [answers]. destruct (zget pattern p) as [b |] eqn:Hb.
  - pose proof (zget_lt _ _ _ Hb) as Hlt. rewrite (literal_item p b Hb). cbn [meaning answers_item].
    replace (Z.to_nat (zlen pattern - p)) with (S (Z.to_nat (zlen pattern - (p + 1)))) by lia.
    apply zget_Some in Hb as [_ Hb]. rewrite (drop_S _ _ _ Hb).
    replace (S (Z.to_nat p)) with (Z.to_nat (p + 1)) by lia.
    unfold byte_in. destruct (zget source s) as [x |] eqn:Hx.
    + rewrite (take_drop_step _ _ _ x) by done. unfold in_set. cbn.
      destruct (Z.eqb_spec x b) as [-> |]; cbn.
      * rewrite IH by lia. replace (s + 1 + (zlen pattern - (p + 1))) with (s + (zlen pattern - p)) by lia.
        erewrite bool_decide_ext; [done |]. split; [by intros -> | by intros [= ->]].
      * rewrite bool_decide_false; [done |]. congruence.
    + apply zget_None in Hx. rewrite drop_ge by (unfold zlen in *; lia). by rewrite take_nil, bool_decide_false.
  - assert (p = zlen pattern) as -> by (apply zget_None in Hb; lia).
    unfold read_item. rewrite Hb. cbn [meaning].
    rewrite Z.sub_diag, (drop_ge pattern), bool_decide_true by (done || unfold zlen; lia). by rewrite Z.add_0_r.
Qed.

Lemma literal_matches_at s : 0 <= s <= zlen source ->
  matches_at source pattern s 0
  = if bool_decide (occurs source pattern s) then [Match (s + zlen pattern) Captures_default] else [].
Proof.
  intros Hs. unfold matches_at. rewrite literal_answers by (unfold zlen in *; lia).
  rewrite Z.sub_0_r. replace (Z.to_nat (zlen pattern)) with (length pattern) by (unfold zlen; lia). cbn [Z.to_nat]. rewrite drop_0.
  erewrite bool_decide_ext; [done |]. unfold occurs. tauto.
Qed.

(** C32: On a pattern without special bytes and without a closing parenthesis the
    two ways of [string.find] are the same function: when both have steps enough to
    return, the plain find returns what the search with patterns does. *)
Theorem plain_find_is_search (limit limit' steps steps' : Z) (start : Z) (found found' : option Found) :
  0 <= start ->
  fst (plain_find source pattern limit start steps) = Ok found ->
  fst (search source pattern limit' start false None steps') = Ok found' ->
  found = found'.
Proof.
  intros H0 H1 H2.
  pose proof (plain_find_spec source pattern limit start steps H0) as Hp.
  pose proof (search_spec source pattern limit' start false None steps' H0 ltac:(done)) as Hq.
  unfold spec in *. destruct (plain_find _ _ _ _ _) as [r1 ?], (search _ _ _ _ _ _ _) as [r2 ?].
  cbn [fst] in *. subst r1 r2. clear -Hp Hq Hspecial Hclose H0. unfold search_post, plain_post, passed_to, there in *.
  assert (Hpass : forall q, candidate source false start q ->
    passed_over None (matches_at source pattern q (first_place false)) -> ~ occurs source pattern q).
  { intros q [Hin _]. cbn [first_place]. rewrite literal_matches_at by lia. by case_bool_decide. }
  destruct found as [f |], found' as [f' |]; [| | | done].
  - destruct Hp as (Hs & Ho & He & Hn & Hc & Hbefore), Hq as ([Hs' Ha] & Hf & _ & Hbefore').
    unfold found_is in Hf. cbn [first_place] in Hf. rewrite literal_matches_at in Hf by lia.
    case_bool_decide as Ho'; [| done]. injection Hf as He' Hc' Hn'.
    assert (found_start f = found_start f') as Heq.
    { destruct (Z.lt_trichotomy (found_start f) (found_start f')) as [Hlt | [| Hlt]]; [| done |]; exfalso.
      - apply (Hpass (found_start f)); [split; [destruct Ho; lia | done] | apply Hbefore'; lia | done].
      - apply (Hbefore (found_start f')); [lia | done]. }
    destruct f, f'. cbn in *. f_equal. congruence.
  - destruct Hp as (Hs & Ho & _). exfalso. pose proof Ho as [Hle _].
    assert (candidate source false start (found_start f)) as Hcand by (split; [lia | done]).
    by apply (Hpass _ Hcand (Hq _ Hcand)).
  - destruct Hq as ([Hs' _] & Hf & _). exfalso.
    unfold found_is in Hf. cbn [first_place] in Hf. rewrite literal_matches_at in Hf by lia.
    case_bool_decide as Ho'; [| done]. by apply (Hp (found_start f')); [lia |].
Qed.
End Literal.

(** ** Concrete runs *)

(** [string.find("xaab", "(a-)b")]: from the second byte, with the capture [aa]. *)
Lemma search_finds_preferred_witness :
  exists f steps,
    search (bytes_of_string "xaab") (bytes_of_string "(a-)b") 1000 0 false None 0 = (Ok (Some f), steps)
    /\ found_start f = 1 /\ found_end f = 4
    /\ found_is (bytes_of_string "xaab") (bytes_of_string "(a-)b") false f.
Proof.
  pose proof (search_finds_preferred (bytes_of_string "xaab") (bytes_of_string "(a-)b") 1000 0 false None 0
    ltac:(lia) ltac:(done)) as H.
  eexists _, _. split; [vm_compute; reflexivity |]. split; [done |]. split; [done |].
  eapply spec_ok in H; [| vm_compute; reflexivity]. apply H.
Defined.

(** [string.find("aXXb", "()(.)%2")]: a position and a byte that is repeated. *)
Lemma found_within_source_witness :
  exists f steps,
    search (bytes_of_string "aXXb") (bytes_of_string "()(.)%2") 1000 0 false None 0 = (Ok (Some f), steps)
    /\ found_count f = 2 /\ found_end f <= 4.
Proof.
  pose proof (found_within_source (bytes_of_string "aXXb") (bytes_of_string "()(.)%2") 1000 0 false None 0
    ltac:(lia) ltac:(done)) as H.
  eexists _, _. split; [vm_compute; reflexivity |]. split; [done |].
  eapply spec_ok in H; [| vm_compute; reflexivity]. by destruct (H _ eq_refl) as (_ & Hend & _).
Defined.

Lemma at_finds_preferred_witness :
  exists f steps,
    at_position (bytes_of_string "f(a(b)c)d") (bytes_of_string "%b()") 1000 1 false 0 = (Ok (Some f), steps)
    /\ found_end f = 8 /\ found_is (bytes_of_string "f(a(b)c)d") (bytes_of_string "%b()") false f.
Proof.
  pose proof (at_finds_preferred (bytes_of_string "f(a(b)c)d") (bytes_of_string "%b()") 1000 1 false 0
    ltac:(lia) ltac:(done)) as H.
  eexists _, _. split; [vm_compute; reflexivity |]. split; [done |].
  eapply spec_ok in H; [| vm_compute; reflexivity]. apply H.
Defined.

Lemma plain_find_first_witness :
  exists f steps,
    plain_find (bytes_of_string "a.b.c") (bytes_of_string ".c") 100 0 0 = (Ok (Some f), steps)
    /\ found_start f = 3 /\ ~ occurs (bytes_of_string "a.b.c") (bytes_of_string ".c") 1.
Proof.
  pose proof (plain_find_first (bytes_of_string "a.b.c") (bytes_of_string ".c") 100 0 0 ltac:(lia)) as H.
  eexists _, _. split; [vm_compute; reflexivity |]. split; [done |].
  eapply spec_ok in H; [| vm_compute; reflexivity]. destruct H as (_ & _ & _ & _ & _ & H).
  apply H. cbn. lia.
Defined.

Lemma plain_find_is_search_witness :
  exists f, fst (plain_find (bytes_of_string "abcab") (bytes_of_string "ca") 100 0 0) = Ok (Some f)
    /\ fst (search (bytes_of_string "abcab") (bytes_of_string "ca") 100 0 false None 0) = Ok (Some f).
Proof.
  destruct (fst (search (bytes_of_string "abcab") (bytes_of_string "ca") 100 0 false None 0)) as [found' | | ] eqn:H2;
    [| by vm_compute in H2 ..].
  destruct (fst (plain_find (bytes_of_string "abcab") (bytes_of_string "ca") 100 0 0)) as [found | | ] eqn:H1;
    [| by vm_compute in H1 ..].
  assert (found = found') as <- by (apply (plain_find_is_search (bytes_of_string "abcab") (bytes_of_string "ca")
    ltac:(vm_compute; reflexivity) ltac:(vm_compute; reflexivity) 100 100 0 0 0 found found'); [lia | exact H1 | exact H2]).
  destruct found as [f |]; [by exists f | by vm_compute in H1].
Defined.
