(* ===== verification/Resolve.v ===== *)
(** The resolver of the compiler (crates/rivetlua-compiler/src/resolve/mod.rs):
    from the syntax tree to a tree in which every name is a binding, an upvalue or
    a global, and every exit from a scope lists the bindings it leaves. *)

From Stdlib Require Import ZArith Lia.
From stdpp Require Import base list gmap numbers strings.
From S2P Require Import Prelude Float Number Lexer Ast Parser.

Local Open Scope Z_scope.

(** ** The resolved tree

    The newtypes of [u32] are their numbers. *)

Abbreviation FunctionId := Z (only parsing).
Abbreviation UpvalueId := Z (only parsing).
Abbreviation ScopeId := Z (only parsing).

Record BindingId := { b_function : FunctionId; b_ordinal : Z }.
#[export] Instance BindingId_eq_dec : EqDecision BindingId.
Proof. intros [f o] [f' o']. unfold Decision. destruct (Z.eq_dec f f'), (Z.eq_dec o o'); [left | right ..]; congruence. Defined.
#[export] Instance BindingId_countable : Countable BindingId.
Proof.
  refine (inj_countable' (fun b => (b_function b, b_ordinal b)) (fun p => {| b_function := p.1; b_ordinal := p.2 |}) _).
  by intros [].
Defined.

Inductive UpvalueSource := ParentLocal (b : BindingId) | ParentUpvalue (u : UpvalueId).

Module BindingKind.
Inductive BindingKind :=
  | Local | Parameter_ | NumericFor | GenericFor | GenericForClose | LocalFunction | VarargTable
  | Environment | Global.
#[global] Instance BindingKind_eq_dec : EqDecision BindingKind.
Proof. solve_decision. Defined.
End BindingKind.

Record BindingMeta := {
  bm_id : BindingId; bm_name : list Z; bm_span : Span; bm_kind : BindingKind.BindingKind;
  bm_owner : FunctionId; bm_scope_depth : Z; bm_readonly : bool; bm_attribute : option Attribute;
  bm_close_marker : option Span
}.

Inductive ResolvedName :=
  | RLocal (b : BindingId)
  | RUpvalue (u : UpvalueId)
  | REnvField (env : BindingId) (name : list Z)
  | RGlobal (b : BindingId).

Module ExitKind.
Inductive ExitKind := Normal | Return | Break | Goto | Error.
End ExitKind.

Record ClosePath := {
  cp_kind : ExitKind.ExitKind; cp_span : Span; cp_from_scope : ScopeId; cp_target_scope : option ScopeId;
  cp_bindings : list BindingId; cp_exited_bindings : list BindingId
}.

Record ResolvedLocalName := {
  rl_binding : BindingId; rl_name : list Z; rl_attribute : option Attribute; rl_span : Span
}.

Record ResolvedGenericForClose := { gc_binding : BindingId; gc_span : Span }.
Record ResolvedVararg := { rv_table_binding : option BindingId; rv_span : Span }.

(** A [ResolvedIfClause] is the pair of its condition and its body. *)
Inductive ResolvedExpr :=
  | RExpr_Literal (literal : Literal.Literal) (span : Span)
  | RExpr_Nil (span : Span)
  | RExpr_Bool (value : bool) (span : Span)
  | RExpr_Name (name : list Z) (resolution : ResolvedName) (span : Span)
  | RExpr_Vararg (binding : option BindingId) (span : Span)
  | RExpr_Unary (op : UnaryOp) (expression : ResolvedExpr) (span : Span)
  | RExpr_Binary (op : BinaryOp.BinaryOp) (left right : ResolvedExpr) (span : Span)
  | RExpr_Paren (expression : ResolvedExpr) (span : Span)
  | RExpr_Index (base index : ResolvedExpr) (span : Span)
  | RExpr_Field (base : ResolvedExpr) (name : list Z) (span : Span)
  | RExpr_Call (callee : ResolvedExpr) (arguments : list ResolvedExpr) (span : Span)
  | RExpr_MethodCall (receiver : ResolvedExpr) (method : list Z) (arguments : list ResolvedExpr) (span : Span)
  | RExpr_Function (body : ResolvedFunctionBody) (span : Span)
  | RExpr_TableConstructor (fields : list ResolvedTableField) (span : Span)
with ResolvedTableField :=
  | RField_Array (value : ResolvedExpr) (separator : option FieldSeparator) (span : Span)
  | RField_Named (name : list Z) (value : ResolvedExpr) (separator : option FieldSeparator) (span : Span)
  | RField_Indexed (key value : ResolvedExpr) (separator : option FieldSeparator) (span : Span)
with ResolvedFunctionBody :=
  | RFunctionBody (function : FunctionId) (parameters : list ResolvedLocalName) (vararg : option ResolvedVararg)
      (body : ResolvedBlock) (span : Span)
with ResolvedBlock :=
  | RBlock (scope : ScopeId) (statements : list ResolvedStmt) (terminator : option Span) (span : Span)
      (normal_close_path error_close_path : ClosePath)
with ResolvedStmt :=
  | RStmt_Empty (span : Span)
  | RStmt_Return (values : list ResolvedExpr) (close_path : ClosePath) (span : Span)
  | RStmt_Assignment (targets values : list ResolvedExpr) (span : Span)
  | RStmt_Call (call : ResolvedExpr) (span : Span)
  | RStmt_Local (bindings : list BindingId) (names : list ResolvedLocalName) (values : list ResolvedExpr) (span : Span)
  | RStmt_Global (declaration : ResolvedGlobalDeclaration) (span : Span)
  | RStmt_Break (close_path : ClosePath) (span : Span)
  | RStmt_Goto (name : list Z) (name_span : Span) (close_path : ClosePath) (span : Span)
  | RStmt_Label (name : list Z) (name_span span : Span)
  | RStmt_Do (body : ResolvedBlock) (span : Span)
  | RStmt_If (clauses : list (ResolvedExpr * ResolvedBlock)) (else_block : option ResolvedBlock) (span : Span)
  | RStmt_While (condition : ResolvedExpr) (body : ResolvedBlock) (span : Span)
  | RStmt_Repeat (body : ResolvedBlock) (condition : ResolvedExpr) (span : Span)
  | RStmt_NumericFor (name : ResolvedLocalName) (initial limit : ResolvedExpr) (step : option ResolvedExpr)
      (body : ResolvedBlock) (span : Span)
  | RStmt_GenericFor (names : list ResolvedLocalName) (values : list ResolvedExpr)
      (closing : ResolvedGenericForClose) (body : ResolvedBlock) (close_path : ClosePath) (span : Span)
  | RStmt_Function (name : ResolvedExpr) (method : option MethodName) (body : ResolvedFunctionBody) (span : Span)
  | RStmt_LocalFunction (name : ResolvedLocalName) (body : ResolvedFunctionBody) (span : Span)
with ResolvedGlobalDeclaration :=
  | RGlobal_Names (names : list ResolvedLocalName) (values : list ResolvedExpr)
      (prefix_attribute : option Attribute) (span : Span)
  | RGlobal_Star (prefix_attribute : option Attribute) (span : Span)
  | RGlobal_Function (binding : BindingId) (name : list Z) (body : ResolvedFunctionBody) (span : Span).

Record ResolvedFunction := {
  rf_id : FunctionId; rf_parent : option FunctionId; rf_span : Span; rf_bindings : list BindingMeta;
  rf_upvalues : list UpvalueSource
}.

Record ResolvedModule := {
  rm_profile : LuaProfile; rm_span : Span; rm_root : ResolvedBlock; rm_functions : list ResolvedFunction
}.

(** ** The state of the resolver of one function

    A [HashMap] is a finite map; the vectors of scopes and loops are lists with the
    last element first. *)

Inductive GlobalMode := NamedOnly | Wildcard (readonly : bool).

Record LabelInfo := { lb_scope : ScopeId; lb_terminal : bool; lb_span : Span }.

Inductive ParentBinding := PDirect (b : BindingId) | PAncestor (b : BindingId) | PGlobal (b : BindingId).

Record ScopeFrame := {
  sf_id : ScopeId; sf_bindings : gmap (list Z) BindingId; sf_local_bindings : list BindingId;
  sf_close_bindings : list BindingId; sf_labels : gmap (list Z) LabelInfo; sf_declaration_spans : list Span;
  sf_global_mode : option GlobalMode
}.

Definition new_scope (id : ScopeId) : ScopeFrame := {|
  sf_id := id; sf_bindings := ∅; sf_local_bindings := []; sf_close_bindings := []; sf_labels := ∅;
  sf_declaration_spans := []; sf_global_mode := None
|}.

Record Resolver := {
  owner : FunctionId;
  next_binding : Z;
  next_function : Z;
  next_scope : Z;
  bindings : list BindingMeta;
  upvalues : list UpvalueSource;
  upvalue_ids : gmap BindingId UpvalueId;
  upvalue_bindings : list BindingId;
  pending_ancestor_captures : list (BindingId * UpvalueId);
  scopes : list ScopeFrame;
  loops : list ScopeId;
  parent_metadata : gmap BindingId bool;
  vararg_available : bool;
  vararg_binding : option BindingId;
  label_count : Z;
  goto_count : Z;
  parent_visible : option (gmap (list Z) ParentBinding);
  root_environment_binding : option BindingId;
  inherited_global_mode : option GlobalMode;
  implicit_globals : gmap (list Z) (option BindingId * option BindingId);
  completed_functions : list ResolvedFunction
}.

Definition with_bindings (r : Resolver) (n : Z) (l : list BindingMeta) : Resolver :=
  {| owner := owner r; next_binding := n; next_function := next_function r; next_scope := next_scope r;
     bindings := l; upvalues := upvalues r; upvalue_ids := upvalue_ids r;
     upvalue_bindings := upvalue_bindings r; pending_ancestor_captures := pending_ancestor_captures r;
     scopes := scopes r; loops := loops r; parent_metadata := parent_metadata r;
     vararg_available := vararg_available r; vararg_binding := vararg_binding r;
     label_count := label_count r; goto_count := goto_count r; parent_visible := parent_visible r;
     root_environment_binding := root_environment_binding r;
     inherited_global_mode := inherited_global_mode r; implicit_globals := implicit_globals r;
     completed_functions := completed_functions r |}.
Definition with_next_function (r : Resolver) (n : Z) : Resolver :=
  {| owner := owner r; next_binding := next_binding r; next_function := n; next_scope := next_scope r;
     bindings := bindings r; upvalues := upvalues r; upvalue_ids := upvalue_ids r;
     upvalue_bindings := upvalue_bindings r; pending_ancestor_captures := pending_ancestor_captures r;
     scopes := scopes r; loops := loops r; parent_metadata := parent_metadata r;
     vararg_available := vararg_available r; vararg_binding := vararg_binding r;
     label_count := label_count r; goto_count := goto_count r; parent_visible := parent_visible r;
     root_environment_binding := root_environment_binding r;
     inherited_global_mode := inherited_global_mode r; implicit_globals := implicit_globals r;
     completed_functions := completed_functions r |}.
Definition with_scopes (r : Resolver) (l : list ScopeFrame) : Resolver :=
  {| owner := owner r; next_binding := next_binding r; next_function := next_function r;
     next_scope := next_scope r; bindings := bindings r; upvalues := upvalues r;
     upvalue_ids := upvalue_ids r; upvalue_bindings := upvalue_bindings r;
     pending_ancestor_captures := pending_ancestor_captures r; scopes := l; loops := loops r;
     parent_metadata := parent_metadata r; vararg_available := vararg_available r;
     vararg_binding := vararg_binding r; label_count := label_count r; goto_count := goto_count r;
     parent_visible := parent_visible r; root_environment_binding := root_environment_binding r;
     inherited_global_mode := inherited_global_mode r; implicit_globals := implicit_globals r;
     completed_functions := completed_functions r |}.
Definition with_next_scope (r : Resolver) (n : Z) : Resolver :=
  {| owner := owner r; next_binding := next_binding r; next_function := next_function r;
     next_scope := n; bindings := bindings r; upvalues := upvalues r; upvalue_ids := upvalue_ids r;
     upvalue_bindings := upvalue_bindings r; pending_ancestor_captures := pending_ancestor_captures r;
     scopes := scopes r; loops := loops r; parent_metadata := parent_metadata r;
     vararg_available := vararg_available r; vararg_binding := vararg_binding r;
     label_count := label_count r; goto_count := goto_count r; parent_visible := parent_visible r;
     root_environment_binding := root_environment_binding r;
     inherited_global_mode := inherited_global_mode r; implicit_globals := implicit_globals r;
     completed_functions := completed_functions r |}.
Definition with_loops (r : Resolver) (l : list ScopeId) : Resolver :=
  {| owner := owner r; next_binding := next_binding r; next_function := next_function r;
     next_scope := next_scope r; bindings := bindings r; upvalues := upvalues r;
     upvalue_ids := upvalue_ids r; upvalue_bindings := upvalue_bindings r;
     pending_ancestor_captures := pending_ancestor_captures r; scopes := scopes r; loops := l;
     parent_metadata := parent_metadata r; vararg_available := vararg_available r;
     vararg_binding := vararg_binding r; label_count := label_count r; goto_count := goto_count r;
     parent_visible := parent_visible r; root_environment_binding := root_environment_binding r;
     inherited_global_mode := inherited_global_mode r; implicit_globals := implicit_globals r;
     completed_functions := completed_functions r |}.
Definition with_upvalues (r : Resolver) (sources : list UpvalueSource) (captured : list BindingId) (ids : gmap BindingId UpvalueId) : Resolver :=
  {| owner := owner r; next_binding := next_binding r; next_function := next_function r;
     next_scope := next_scope r; bindings := bindings r; upvalues := sources; upvalue_ids := ids;
     upvalue_bindings := captured; pending_ancestor_captures := pending_ancestor_captures r;
     scopes := scopes r; loops := loops r; parent_metadata := parent_metadata r;
     vararg_available := vararg_available r; vararg_binding := vararg_binding r;
     label_count := label_count r; goto_count := goto_count r; parent_visible := parent_visible r;
     root_environment_binding := root_environment_binding r;
     inherited_global_mode := inherited_global_mode r; implicit_globals := implicit_globals r;
     completed_functions := completed_functions r |}.
Definition with_pending (r : Resolver) (l : list (BindingId * UpvalueId)) : Resolver :=
  {| owner := owner r; next_binding := next_binding r; next_function := next_function r;
     next_scope := next_scope r; bindings := bindings r; upvalues := upvalues r;
     upvalue_ids := upvalue_ids r; upvalue_bindings := upvalue_bindings r;
     pending_ancestor_captures := l; scopes := scopes r; loops := loops r;
     parent_metadata := parent_metadata r; vararg_available := vararg_available r;
     vararg_binding := vararg_binding r; label_count := label_count r; goto_count := goto_count r;
     parent_visible := parent_visible r; root_environment_binding := root_environment_binding r;
     inherited_global_mode := inherited_global_mode r; implicit_globals := implicit_globals r;
     completed_functions := completed_functions r |}.
Definition with_vararg (r : Resolver) (available : bool) (binding : option BindingId) : Resolver :=
  {| owner := owner r; next_binding := next_binding r; next_function := next_function r;
     next_scope := next_scope r; bindings := bindings r; upvalues := upvalues r;
     upvalue_ids := upvalue_ids r; upvalue_bindings := upvalue_bindings r;
     pending_ancestor_captures := pending_ancestor_captures r; scopes := scopes r; loops := loops r;
     parent_metadata := parent_metadata r; vararg_available := available; vararg_binding := binding;
     label_count := label_count r; goto_count := goto_count r; parent_visible := parent_visible r;
     root_environment_binding := root_environment_binding r;
     inherited_global_mode := inherited_global_mode r; implicit_globals := implicit_globals r;
     completed_functions := completed_functions r |}.
Definition with_label_count (r : Resolver) (n : Z) : Resolver :=
  {| owner := owner r; next_binding := next_binding r; next_function := next_function r;
     next_scope := next_scope r; bindings := bindings r; upvalues := upvalues r;
     upvalue_ids := upvalue_ids r; upvalue_bindings := upvalue_bindings r;
     pending_ancestor_captures := pending_ancestor_captures r; scopes := scopes r; loops := loops r;
     parent_metadata := parent_metadata r; vararg_available := vararg_available r;
     vararg_binding := vararg_binding r; label_count := n; goto_count := goto_count r;
     parent_visible := parent_visible r; root_environment_binding := root_environment_binding r;
     inherited_global_mode := inherited_global_mode r; implicit_globals := implicit_globals r;
     completed_functions := completed_functions r |}.
Definition with_goto_count (r : Resolver) (n : Z) : Resolver :=
  {| owner := owner r; next_binding := next_binding r; next_function := next_function r;
     next_scope := next_scope r; bindings := bindings r; upvalues := upvalues r;
     upvalue_ids := upvalue_ids r; upvalue_bindings := upvalue_bindings r;
     pending_ancestor_captures := pending_ancestor_captures r; scopes := scopes r; loops := loops r;
     parent_metadata := parent_metadata r; vararg_available := vararg_available r;
     vararg_binding := vararg_binding r; label_count := label_count r; goto_count := n;
     parent_visible := parent_visible r; root_environment_binding := root_environment_binding r;
     inherited_global_mode := inherited_global_mode r; implicit_globals := implicit_globals r;
     completed_functions := completed_functions r |}.
Definition with_root_environment (r : Resolver) (b : option BindingId) : Resolver :=
  {| owner := owner r; next_binding := next_binding r; next_function := next_function r;
     next_scope := next_scope r; bindings := bindings r; upvalues := upvalues r;
     upvalue_ids := upvalue_ids r; upvalue_bindings := upvalue_bindings r;
     pending_ancestor_captures := pending_ancestor_captures r; scopes := scopes r; loops := loops r;
     parent_metadata := parent_metadata r; vararg_available := vararg_available r;
     vararg_binding := vararg_binding r; label_count := label_count r; goto_count := goto_count r;
     parent_visible := parent_visible r; root_environment_binding := b;
     inherited_global_mode := inherited_global_mode r; implicit_globals := implicit_globals r;
     completed_functions := completed_functions r |}.
Definition with_implicit_globals (r : Resolver) (m : gmap (list Z) (option BindingId * option BindingId)) : Resolver :=
  {| owner := owner r; next_binding := next_binding r; next_function := next_function r;
     next_scope := next_scope r; bindings := bindings r; upvalues := upvalues r;
     upvalue_ids := upvalue_ids r; upvalue_bindings := upvalue_bindings r;
     pending_ancestor_captures := pending_ancestor_captures r; scopes := scopes r; loops := loops r;
     parent_metadata := parent_metadata r; vararg_available := vararg_available r;
     vararg_binding := vararg_binding r; label_count := label_count r; goto_count := goto_count r;
     parent_visible := parent_visible r; root_environment_binding := root_environment_binding r;
     inherited_global_mode := inherited_global_mode r; implicit_globals := m;
     completed_functions := completed_functions r |}.
Definition with_completed (r : Resolver) (l : list ResolvedFunction) : Resolver :=
  {| owner := owner r; next_binding := next_binding r; next_function := next_function r;
     next_scope := next_scope r; bindings := bindings r; upvalues := upvalues r;
     upvalue_ids := upvalue_ids r; upvalue_bindings := upvalue_bindings r;
     pending_ancestor_captures := pending_ancestor_captures r; scopes := scopes r; loops := loops r;
     parent_metadata := parent_metadata r; vararg_available := vararg_available r;
     vararg_binding := vararg_binding r; label_count := label_count r; goto_count := goto_count r;
     parent_visible := parent_visible r; root_environment_binding := root_environment_binding r;
     inherited_global_mode := inherited_global_mode r; implicit_globals := implicit_globals r;
     completed_functions := l |}.

(** Whether [try_reserve] finds room for a number of further elements. *)
Class Reserver := try_reserve : Z -> bool.

(** A reserver that never fails. *)
Definition ample : Reserver := fun _ => true.

Abbreviation ResolveM := (ST Resolver Diagnostic).

Definition gets {A} (f : Resolver -> A) : ResolveM A := fun r => (Ok (f r), r).
Definition modify (f : Resolver -> Resolver) : ResolveM unit := fun r => (Ok tt, f r).

(** [let result = ..; cleanup; result]: the cleanup runs after an error too. *)
Definition finally {A} (m : ResolveM A) (cleanup : Resolver -> Resolver) : ResolveM A := fun r =>
  let '(result, r) := m r in (result, cleanup r).

(** [for x in list { results.push(f(x)?) }]. *)
Definition each {A B} (f : A -> ResolveM B) : list A -> ResolveM (list B) :=
  fix go (l : list A) : ResolveM (list B) :=
    match l with
    | [] => mret []
    | x :: l => y ← f x; ys ← go l; mret (y :: ys)
    end.

(** [self.scopes.last().expect(..)]. *)
Definition last_scope : ResolveM ScopeFrame := r ← get; unwrap (head (scopes r)).
Definition set_last_scope (f : ScopeFrame) : ResolveM unit :=
  modify (fun r => with_scopes r (f :: tail (scopes r))).
Definition pop_scope (r : Resolver) : Resolver := with_scopes r (tail (scopes r)).
Definition pop_loop (r : Resolver) : Resolver := with_loops r (tail (loops r)).

(** [option.transpose()?] of a computation on what may be there. *)
Definition optionally {A B} (f : A -> ResolveM B) (o : option A) : ResolveM (option B) :=
  match o with None => mret None | Some x => y ← f x; mret (Some y) end.

Definition is_label (s : Stmt) : bool := match s with Stmt_Label _ _ _ => true | _ => false end.
Definition is_goto (s : Stmt) : bool := match s with Stmt_Goto _ _ _ => true | _ => false end.
(** [Stmt::Empty { .. } | Stmt::Label { .. }]. *)
Definition is_void (s : Stmt) : bool := match s with Stmt_Empty _ | Stmt_Label _ _ _ => true | _ => false end.

Definition block_span (b : Block) : Span := let '(Block_ _ _ span) := b in span.
Definition declaration_span (d : GlobalDeclaration) : Span :=
  match d with Global_Names _ _ _ span | Global_Star _ span | Global_Function _ _ span => span end.

(** [statements.iter().rposition(|s| !is_void(s))]. *)
Definition last_non_void (statements : list Stmt) : option Z :=
  last (map fst (filter (fun p => is_void p.2 = false) (enumerate statements))).

Definition close_name : list Z := bytes_of_string "close".
Definition const_name : list Z := bytes_of_string "const".
Definition env_name : list Z := bytes_of_string "_ENV".
Definition self_name : list Z := bytes_of_string "self".
Definition is_close (attribute : option Attribute) : bool :=
  match attribute with Some a => bool_decide (attr_name a = close_name) | None => false end.

Section Resolving.
Context (lexed : LexedChunk) (limits : CompileLimits) (profile : LuaProfile) `{Reserver}.

Definition diagnostic_at_span (span : Span) (code : DiagnosticCode) (message : string) : Diagnostic :=
  let token :=
    match find (fun t => span_start (Lexer.span t) =? span_start span) (ch_tokens lexed) with
    | Some t => Some t
    | None => last (ch_tokens lexed)
    end in
  diagnostic token code message.

(** [Err(self.limit(span, message))], [Err(self.resolve_error(span, message))]. *)
Definition limit {A} (span : Span) (message : string) : ResolveM A :=
  fail (diagnostic_at_span span CompileLimit message).
Definition resolve_error {A} (span : Span) (message : string) : ResolveM A :=
  fail (diagnostic_at_span span Resolve message).

Definition reserve (n : Z) (span : Span) (message : string) : ResolveM unit :=
  if try_reserve n then mret tt else limit span message.

Definition enter_scope (span : Span) : ResolveM unit :=
  r ← get;
  if max_scope_depth limits <=? zlen (scopes r) then limit span "作用域深度超過編譯限制" else
  if U32_MAX <? next_scope r + 1 then limit span "作用域數超過編譯限制" else
  put (with_scopes (with_next_scope r (next_scope r + 1)) (new_scope (next_scope r) :: scopes r)).

Definition ensure_list (len : Z) (span : Span) : ResolveM unit :=
  if max_ast_nodes limits <? len then limit span "list 超過編譯限制" else mret tt.

Definition ensure_binding_capacity (count : Z) (span : Span) : ResolveM unit :=
  r ← get;
  if Z.max 0 (max_bindings_per_function limits - zlen (bindings r)) <? count
  then limit span "binding 數超過編譯限制" else mret tt.

Definition current_scope : ResolveM ScopeId := f ← last_scope; mret (sf_id f).

(** ** Bindings *)

Definition binding_flags (attribute : option Attribute) (requested_readonly : bool) (span : Span)
    : ResolveM (bool * option Span) :=
  match attribute with
  | None => mret (requested_readonly, None)
  | Some a =>
      if bool_decide (attr_name a = const_name) then mret (true, None)
      else if bool_decide (attr_name a = close_name) then mret (true, Some (attr_span a))
      else resolve_error span "未知 local attribute"
  end.

Definition allocate_binding (name : list Z) (span : Span) (attribute : option Attribute)
    (kind : BindingKind.BindingKind) (readonly : bool) (close_marker : option Span) (scope_depth : Z)
    : ResolveM BindingId :=
  r ← get;
  if max_bindings_per_function limits <=? zlen (bindings r) then limit span "binding 數超過編譯限制" else
  if U32_MAX <? next_binding r then limit span "binding 數超過編譯限制" else
  let id := {| b_function := owner r; b_ordinal := next_binding r |} in
  put (with_bindings r (next_binding r + 1)
    (bindings r ++ [{| bm_id := id; bm_name := name; bm_span := span; bm_kind := kind; bm_owner := owner r;
                       bm_scope_depth := scope_depth; bm_readonly := readonly; bm_attribute := attribute;
                       bm_close_marker := close_marker |}]));;
  mret id.

Definition is_lexical (kind : BindingKind.BindingKind) : bool :=
  match kind with BindingKind.Environment | BindingKind.Global => false | _ => true end.

Definition declare_binding (name : list Z) (span : Span) (attribute : option Attribute)
    (kind : BindingKind.BindingKind) (readonly : bool) : ResolveM BindingId :=
  flags ← binding_flags attribute readonly span;
  scope_depth ← gets (fun r => Z.max 0 (zlen (scopes r) - 1));
  id ← allocate_binding name span attribute kind flags.1 flags.2 scope_depth;
  f ← last_scope;
  set_last_scope {|
    sf_id := sf_id f; sf_bindings := <[name := id]> (sf_bindings f);
    sf_local_bindings := if is_lexical kind then sf_local_bindings f ++ [id] else sf_local_bindings f;
    sf_close_bindings := if flags.2 is Some _ then sf_close_bindings f ++ [id] else sf_close_bindings f;
    sf_labels := sf_labels f; sf_declaration_spans := sf_declaration_spans f; sf_global_mode := sf_global_mode f
  |};;
  mret id.

Definition declare_local (name : list Z) (span : Span) (attribute : option Attribute) : ResolveM BindingId :=
  declare_binding name span attribute BindingKind.Local false.

Definition declare_generic_for_close (span : Span) : ResolveM BindingId :=
  scope_depth ← gets (fun r => Z.max 0 (zlen (scopes r) - 1));
  id ← allocate_binding (bytes_of_string "<generic-for-close>") span None BindingKind.GenericForClose true
    (Some span) scope_depth;
  f ← last_scope;
  set_last_scope {|
    sf_id := sf_id f; sf_bindings := sf_bindings f; sf_local_bindings := sf_local_bindings f ++ [id];
    sf_close_bindings := sf_close_bindings f ++ [id]; sf_labels := sf_labels f;
    sf_declaration_spans := sf_declaration_spans f; sf_global_mode := sf_global_mode f
  |};;
  mret id.

Definition select_readonly {A} (p : A * A) (readonly : bool) : A := if readonly then p.2 else p.1.

Definition declare_implicit_global (name : list Z) (span : Span) (readonly : bool) : ResolveM BindingId :=
  r ← get;
  let known := default (None, None) (implicit_globals r !! name) in
  match select_readonly known readonly with
  | Some binding => mret binding
  | None =>
      binding ← allocate_binding name span None BindingKind.Global readonly None 0;
      modify (fun r =>
        let entry := default (None, None) (implicit_globals r !! name) in
        with_implicit_globals r
          (<[name := if readonly then (entry.1, Some binding) else (Some binding, entry.2)]> (implicit_globals r)));;
      mret binding
  end.

Definition find_meta (r : Resolver) (binding : BindingId) : option BindingMeta :=
  find (fun meta => bool_decide (bm_id meta = binding)) (bindings r).

Definition binding_kind (r : Resolver) (binding : BindingId) : option BindingKind.BindingKind :=
  bm_kind <$> find_meta r binding.

Definition binding_readonly (r : Resolver) (binding : BindingId) : option bool :=
  match find_meta r binding with
  | Some meta => Some (bm_readonly meta)
  | None => parent_metadata r !! binding
  end.

Definition is_global (r : Resolver) (binding : BindingId) : bool :=
  bool_decide (binding_kind r binding = Some BindingKind.Global).

(** What the functions inside this one may see. *)
Definition visible_binding_access (r : Resolver) : gmap BindingId bool :=
  foldl (fun visible meta => <[bm_id meta := bm_readonly meta]> visible) (parent_metadata r) (bindings r).

Definition visible_bindings (r : Resolver) : gmap (list Z) ParentBinding :=
  let inherited : gmap (list Z) ParentBinding :=
    (fun p => match p with PDirect b | PAncestor b => PAncestor b | PGlobal b => PGlobal b end)
      <$> default ∅ (parent_visible r) in
  foldr (fun f visible =>
    ((fun b => if is_global r b then PGlobal b else PDirect b) <$> sf_bindings f) ∪ visible)
    inherited (scopes r).

(** ** Names *)

(** [self.scopes.iter().rev().find_map(|scope| f(scope))]. *)
Fixpoint find_scope {A} (f : ScopeFrame -> option A) (l : list ScopeFrame) : option A :=
  match l with
  | [] => None
  | scope :: l => match f scope with Some x => Some x | None => find_scope f l end
  end.

Definition own_binding (r : Resolver) (name : list Z) : option BindingId :=
  find_scope (fun scope => sf_bindings scope !! name) (scopes r).

Definition parent_binding (r : Resolver) (name : list Z) : option ParentBinding :=
  visible ← parent_visible r; visible !! name.

Definition reserve_upvalue (binding : BindingId) (source : UpvalueSource) (span : Span) : ResolveM UpvalueId :=
  r ← get;
  match upvalue_ids r !! binding with
  | Some id => mret id
  | None =>
      if max_upvalues_per_function limits <=? zlen (upvalues r) then limit span "upvalue 數超過編譯限制" else
      if U32_MAX <? zlen (upvalues r) then limit span "upvalue 數超過編譯限制" else
      let id := zlen (upvalues r) in
      put (with_upvalues r (upvalues r ++ [source]) (upvalue_bindings r ++ [binding])
             (<[binding := id]> (upvalue_ids r)));;
      mret id
  end.

Definition capture_parent_local (binding : BindingId) (span : Span) : ResolveM UpvalueId :=
  reserve_upvalue binding (ParentLocal binding) span.

Definition capture_ancestor (binding : BindingId) (span : Span) : ResolveM UpvalueId :=
  r ← get;
  match upvalue_ids r !! binding with
  | Some id => mret id
  | None =>
      id ← reserve_upvalue binding (ParentLocal binding) span;
      modify (fun r => with_pending r (pending_ancestor_captures r ++ [(binding, id)]));;
      mret id
  end.

Definition is_capture_of (binding : BindingId) (p : ParentBinding) : bool :=
  match p with PDirect b | PAncestor b => bool_decide (b = binding) | PGlobal _ => false end.

Definition capture_for_child (binding : BindingId) (span : Span) : ResolveM UpvalueId :=
  r ← get;
  match (visible ← parent_visible r; find (is_capture_of binding) (map_to_list visible).*2) with
  | None => resolve_error span "upvalue 轉接來源不在父 function"
  | Some (PDirect binding) => capture_parent_local binding span
  | Some (PAncestor binding) => capture_ancestor binding span
  | Some (PGlobal _) => resolve_error span "global 不可作 upvalue 轉接"
  end.

Definition upvalue_binding (upvalue : UpvalueId) (span : Span) : ResolveM BindingId :=
  r ← get;
  match zget (upvalue_bindings r) upvalue with
  | Some binding => mret binding
  | None => resolve_error span "upvalue binding 索引不符"
  end.

Definition lookup (name : list Z) (span : Span) : ResolveM (option ResolvedName) :=
  r ← get;
  match own_binding r name with
  | Some binding => mret (Some (if is_global r binding then RGlobal binding else RLocal binding))
  | None =>
      match parent_binding r name with
      | Some (PDirect binding) => u ← capture_parent_local binding span; mret (Some (RUpvalue u))
      | Some (PAncestor binding) => u ← capture_ancestor binding span; mret (Some (RUpvalue u))
      | Some (PGlobal binding) => mret (Some (RGlobal binding))
      | None => mret None
      end
  end.

(** A mode found in the scopes from the innermost; whether a declaration of names was passed. *)
Fixpoint scope_mode (l : list ScopeFrame) (named : bool) : option GlobalMode * bool :=
  match l with
  | [] => (None, named)
  | scope :: l =>
      match sf_global_mode scope with
      | Some (Wildcard readonly) => (Some (Wildcard readonly), named)
      | Some NamedOnly => scope_mode l true
      | None => scope_mode l named
      end
  end.

Definition effective_global_mode (r : Resolver) : option GlobalMode :=
  match scope_mode (scopes r) false with
  | (Some mode, _) => Some mode
  | (None, named) =>
      match inherited_global_mode r with
      | Some mode => Some mode
      | None => if named then Some NamedOnly else None
      end
  end.

Definition lexical_environment_shadow (span : Span) : ResolveM (option BindingId) :=
  r ← get;
  let origin :=
    match own_binding r env_name with
    | Some binding => if is_global r binding then None else Some binding
    | None =>
        match parent_binding r env_name with
        | Some (PDirect binding | PAncestor binding) => Some binding
        | Some (PGlobal _) | None => None
        end
    end in
  if bool_decide (origin = None) || bool_decide (origin = root_environment_binding r) then mret None else
  resolved ← lookup env_name span;
  match resolved with
  | Some (RLocal env) => mret (Some env)
  | Some (RUpvalue upvalue) => env ← upvalue_binding upvalue span; mret (Some env)
  | _ => mret None
  end.

Definition is_readonly_wildcard (mode : option GlobalMode) : bool :=
  match mode with Some (Wildcard true) => true | _ => false end.

Definition resolve_free_name (name : list Z) (span : Span) : ResolveM (option ResolvedName) :=
  if bool_decide (name = env_name) then mret None else
  if global_declarations (rules profile) then
    mode ← gets effective_global_mode;
    match mode with
    | Some NamedOnly => mret None
    | _ =>
        shadow ← lexical_environment_shadow span;
        match shadow with
        | Some env => mret (Some (REnvField env name))
        | None => b ← declare_implicit_global name span (is_readonly_wildcard mode); mret (Some (RGlobal b))
        end
    end
  else
    resolved ← lookup env_name span;
    match resolved with
    | Some (RLocal env) => mret (Some (REnvField env name))
    | Some (RUpvalue upvalue) => env ← upvalue_binding upvalue span; mret (Some (REnvField env name))
    | Some (REnvField _ _ | RGlobal _) | None => mret None
    end.

(** The arm of [resolve_expr] for a name. *)
Definition resolve_name (name : list Z) (span : Span) : ResolveM ResolvedExpr :=
  found ← lookup name span;
  resolution ←
    match found with
    | Some (RGlobal binding) =>
        if global_declarations (rules profile) then
          shadow ← lexical_environment_shadow span;
          mret (Some (match shadow with Some env => REnvField env name | None => RGlobal binding end))
        else mret (Some (RGlobal binding))
    | Some resolution => mret (Some resolution)
    | None => resolve_free_name name span
    end;
  match resolution with
  | Some resolution => mret (RExpr_Name name resolution span)
  | None => resolve_error span "名稱尚未宣告"
  end.

Definition visible_named_global (r : Resolver) (name : list Z) : option BindingId :=
  match (match own_binding r name with
         | Some binding => if is_global r binding then Some binding else None
         | None => None
         end) with
  | Some binding => Some binding
  | None => match parent_binding r name with Some (PGlobal binding) => Some binding | _ => None end
  end.

Definition ensure_writable (resolution : ResolvedName) (span : Span) : ResolveM unit :=
  binding ←
    match resolution with
    | RLocal binding => mret (Some binding)
    | RUpvalue upvalue => b ← upvalue_binding upvalue span; mret (Some b)
    | RGlobal binding => mret (Some binding)
    | REnvField _ name =>
        if global_declarations (rules profile) then gets (fun r => visible_named_global r name) else mret None
    end;
  r ← get;
  if (match binding with Some b => default false (binding_readonly r b) | None => false end)
  then resolve_error span "不可指派 readonly binding" else
  if (match resolution with REnvField _ _ => true | _ => false end) && bool_decide (binding = None)
     && is_readonly_wildcard (effective_global_mode r)
  then resolve_error span "不可指派 readonly binding" else mret tt.

Definition global_attribute_readonly (attribute : option Attribute) (span : Span) : ResolveM bool :=
  match attribute with
  | None => mret false
  | Some a =>
      if bool_decide (attr_name a = const_name) then mret true
      else if bool_decide (attr_name a = close_name) then resolve_error span "global 不可為 close binding"
      else resolve_error span "未知 global attribute"
  end.

Definition with_global_mode (f : ScopeFrame) (mode : option GlobalMode) : ScopeFrame := {|
  sf_id := sf_id f; sf_bindings := sf_bindings f; sf_local_bindings := sf_local_bindings f;
  sf_close_bindings := sf_close_bindings f; sf_labels := sf_labels f;
  sf_declaration_spans := sf_declaration_spans f; sf_global_mode := mode
|}.

Definition set_named_global_mode : ResolveM unit :=
  f ← last_scope;
  match sf_global_mode f with
  | None => set_last_scope (with_global_mode f (Some NamedOnly))
  | Some _ => mret tt
  end.

Definition set_wildcard_global_mode (readonly : bool) : ResolveM unit :=
  f ← last_scope; set_last_scope (with_global_mode f (Some (Wildcard readonly))).

(** ** Labels and exits *)

(** [close_path]: the bindings of the scopes inside the target, the last declared first. *)
Definition exited_scopes (target_scope : option ScopeId) : list ScopeFrame -> list ScopeFrame :=
  fix go l :=
    match l with
    | [] => []
    | scope :: l => if bool_decide (Some (sf_id scope) = target_scope) then [] else scope :: go l
    end.

Definition close_path (kind : ExitKind.ExitKind) (target_scope : option ScopeId) (span : Span) : ResolveM ClosePath :=
  r ← get;
  from ← current_scope;
  let exited := exited_scopes target_scope (scopes r) in
  mret {|
    cp_kind := kind; cp_span := span; cp_from_scope := from; cp_target_scope := target_scope;
    cp_bindings := concat (map (fun scope => rev (sf_close_bindings scope)) exited);
    cp_exited_bindings := concat (map (fun scope => rev (sf_local_bindings scope)) exited)
  |}.

Definition find_label (r : Resolver) (name : list Z) : option LabelInfo :=
  find_scope (fun scope => sf_labels scope !! name) (scopes r).

(** [self.scopes.iter().find(|scope| scope.id == id)]. *)
Definition scope_of_id (r : Resolver) (id : ScopeId) : option ScopeFrame :=
  find (fun scope => bool_decide (sf_id scope = id)) (rev (scopes r)).

Definition declared_spans (s : Stmt) : list Span :=
  match s with
  | Stmt_Local names _ _ => map ln_span names
  | Stmt_LocalFunction name _ _ => [ln_span name]
  | _ => []
  end.

(** The loop of [register_labels] over the statements with their indices. *)
Fixpoint add_labels (scope : ScopeId) (terminal_from : option Z) (end_scope : bool) (l : list (Z * Stmt))
    (f : ScopeFrame) : ResolveM ScopeFrame :=
  match l with
  | [] => mret f
  | (index, s) :: l =>
      let f := {|
        sf_id := sf_id f; sf_bindings := sf_bindings f; sf_local_bindings := sf_local_bindings f;
        sf_close_bindings := sf_close_bindings f; sf_labels := sf_labels f;
        sf_declaration_spans := sf_declaration_spans f ++ declared_spans s; sf_global_mode := sf_global_mode f
      |} in
      match s with
      | Stmt_Label name name_span _ =>
          let info := {|
            lb_scope := scope;
            lb_terminal := end_scope && match terminal_from with Some last => last <? index | None => true end;
            lb_span := name_span
          |} in
          match sf_labels f !! name with
          | Some _ => resolve_error name_span "同一作用域的 label 重複"
          | None =>
              add_labels scope terminal_from end_scope l {|
                sf_id := sf_id f; sf_bindings := sf_bindings f; sf_local_bindings := sf_local_bindings f;
                sf_close_bindings := sf_close_bindings f; sf_labels := <[name := info]> (sf_labels f);
                sf_declaration_spans := sf_declaration_spans f; sf_global_mode := sf_global_mode f
              |}
          end
      | _ => add_labels scope terminal_from end_scope l f
      end
  end.

Definition register_labels (block : Block) (terminal_labels_end_scope : bool) : ResolveM unit :=
  let '(Block_ statements _ span) := block in
  scope ← current_scope;
  r ← get;
  let labels := zlen (filter (fun s => is_label s = true) statements) in
  if max_labels limits <? Z.min USIZE_MAX (label_count r + labels) then limit span "label 數超過編譯限制" else
  let declarations := zlen (concat (map declared_spans statements)) in
  ensure_binding_capacity declarations span;;
  f ← last_scope;
  reserve labels span "label 配置超過編譯限制";;
  reserve declarations span "local snapshot 配置超過編譯限制";;
  f ← add_labels scope (last_non_void statements) terminal_labels_end_scope (enumerate statements) f;
  set_last_scope f.

(** Whether a jump over the declarations enters the scope of one of them. *)
Definition enters_local (f : ScopeFrame) (from to : Span) : bool :=
  existsb (fun declaration =>
    (span_start from <? span_start declaration) && (span_start declaration <? span_start to))
    (sf_declaration_spans f).

Definition validate_goto (s : Stmt) : ResolveM unit :=
  match s with
  | Stmt_Goto name _ span =>
      r ← get;
      match find_label r name with
      | None => resolve_error span "找不到 goto label"
      | Some label =>
          let enters :=
            match scope_of_id r (lb_scope label) with
            | Some f => enters_local f span (lb_span label)
            | None => false
            end in
          if enters && negb (lb_terminal label) then resolve_error span "goto 不可跳入 local scope" else mret tt
      end
  | _ => mret tt
  end.

Definition validate_block_gotos (block : Block) : ResolveM unit :=
  let '(Block_ statements _ span) := block in
  r ← get;
  let gotos := zlen (filter (fun s => is_goto s = true) statements) in
  if max_gotos limits <? Z.min USIZE_MAX (goto_count r + gotos) then limit span "goto 數超過編譯限制" else
  each validate_goto statements;; mret tt.

(** [for binding in target.local_bindings.iter().rev() { .. }] of [goto_close_path]. *)
Fixpoint goto_exits (label : LabelInfo) (span : Span) (l : list BindingId) (path : ClosePath) : ResolveM ClosePath :=
  match l with
  | [] => mret path
  | binding :: l =>
      r ← get;
      match (meta ← zget (bindings r) (b_ordinal binding);
             if bool_decide (bm_id meta = binding) then Some meta else None) with
      | None => resolve_error span "goto binding 索引不符"
      | Some meta =>
          if negb (lb_terminal label) && (span_start (bm_span meta) <=? span_start (lb_span label)) then mret path else
          goto_exits label span l
            (if span_start (bm_span meta) <? span_start span then {|
               cp_kind := cp_kind path; cp_span := cp_span path; cp_from_scope := cp_from_scope path;
               cp_target_scope := cp_target_scope path;
               cp_bindings := if bm_close_marker meta is Some _ then cp_bindings path ++ [binding] else cp_bindings path;
               cp_exited_bindings := cp_exited_bindings path ++ [binding]
             |} else path)
      end
  end.

Definition goto_close_path (label : LabelInfo) (span : Span) : ResolveM ClosePath :=
  path ← close_path ExitKind.Goto (Some (lb_scope label)) span;
  if negb (lb_terminal label) && (span_start span <=? span_start (lb_span label)) then mret path else
  r ← get;
  match scope_of_id r (lb_scope label) with
  | None => resolve_error span "goto 目標作用域不符"
  | Some target => goto_exits label span (rev (sf_local_bindings target)) path
  end.

(** The arms of [resolve_statement] for jumps and labels. *)
Definition resolve_break (span : Span) : ResolveM ResolvedStmt :=
  r ← get;
  match head (loops r) with
  | None => resolve_error span "break 不在 loop 內"
  | Some target => path ← close_path ExitKind.Break (Some target) span; mret (RStmt_Break path span)
  end.

Definition resolve_goto (name : list Z) (name_span span : Span) : ResolveM ResolvedStmt :=
  r ← get;
  if max_gotos limits <=? goto_count r then limit span "goto 數超過編譯限制" else
  put (with_goto_count r (goto_count r + 1));;
  match find_label r name with
  | None => resolve_error span "找不到 goto label"
  | Some label => path ← goto_close_path label span; mret (RStmt_Goto name name_span path span)
  end.

Definition resolve_label (name : list Z) (name_span span : Span) : ResolveM ResolvedStmt :=
  r ← get;
  if max_labels limits <=? label_count r then limit span "label 數超過編譯限制" else
  put (with_label_count r (label_count r + 1));;
  mret (RStmt_Label name name_span span).

(** ** Declarations *)

Definition local_name (name : LocalName) (binding : BindingId) : ResolvedLocalName :=
  {| rl_binding := binding; rl_name := ln_name name; rl_attribute := ln_attribute name; rl_span := ln_span name |}.

(** [for name in names { .. }] of a local statement. *)
Fixpoint declare_locals (names : list LocalName) (close_count : Z) : ResolveM (list BindingId) :=
  match names with
  | [] => mret []
  | name :: names =>
      binding ← declare_local (ln_name name) (ln_span name) (ln_attribute name);
      let count := if is_close (ln_attribute name) then close_count + 1 else close_count in
      if is_close (ln_attribute name) && (1 <? count) then resolve_error (ln_span name) "local 宣告含多個 close 變數" else
      bindings ← declare_locals names count;
      mret (binding :: bindings)
  end.

Definition declare_named (kind : BindingKind.BindingKind) (readonly : bool) (name : LocalName) : ResolveM ResolvedLocalName :=
  binding ← declare_binding (ln_name name) (ln_span name) (ln_attribute name) kind readonly;
  mret (local_name name binding).

Definition declare_global_name (prefix_attribute : option Attribute) (name : LocalName) : ResolveM ResolvedLocalName :=
  let attribute := match ln_attribute name with Some a => Some a | None => prefix_attribute end in
  global_attribute_readonly attribute (ln_span name);;
  binding ← declare_binding (ln_name name) (ln_span name) attribute BindingKind.Global false;
  mret (local_name name binding).

Definition declare_generic_names (names : list LocalName) : ResolveM (list ResolvedLocalName) :=
  each (fun p => declare_named BindingKind.GenericFor ((p.1 =? 0) && readonly_for_control (rules profile)) p.2)
    (enumerate names).

(** The resolver of a function inside this one. *)
Definition child_resolver (r : Resolver) (function : FunctionId) : Resolver := {|
  owner := function; next_binding := 0; next_function := next_function r; next_scope := 0; bindings := [];
  upvalues := []; upvalue_ids := ∅; upvalue_bindings := []; pending_ancestor_captures := []; scopes := [];
  loops := []; parent_metadata := visible_binding_access r; vararg_available := false; vararg_binding := None;
  label_count := 0; goto_count := 0; parent_visible := Some (visible_bindings r);
  root_environment_binding := root_environment_binding r; inherited_global_mode := effective_global_mode r;
  implicit_globals := ∅; completed_functions := []
|}.

(** A computation of the child, after which the parent goes on with both. *)
Definition run_child {A} (child : Resolver) (m : ResolveM A) : ResolveM (A * Resolver) := fun r =>
  match m child with
  | (Ok a, child) => (Ok (a, child), r)
  | (Err e, _) => (Err e, r)
  | (Crash c, _) => (Crash c, r)
  end.

Definition declare_self (method : option MethodName) : ResolveM (list ResolvedLocalName) :=
  match method with
  | None => mret []
  | Some method =>
      binding ← declare_binding self_name (mn_colon_span method) None BindingKind.Parameter_ false;
      mret [{| rl_binding := binding; rl_name := self_name; rl_attribute := None; rl_span := mn_colon_span method |}]
  end.

Definition declare_vararg (vararg : option Vararg) : ResolveM (option ResolvedVararg) :=
  match vararg with
  | None => mret None
  | Some vararg =>
      if negb (named_vararg_rule (rules profile)) && (if table_name vararg is Some _ then true else false)
      then resolve_error (vararg_span vararg) "lua54 不支援 lua55 具名 vararg table" else
      table_binding ←
        match table_name vararg with
        | Some name =>
            ensure_binding_capacity 1 (ln_span name);;
            b ← declare_binding (ln_name name) (ln_span name) (ln_attribute name) BindingKind.VarargTable true;
            mret (Some b)
        | None => mret None
        end;
      mret (Some {| rv_table_binding := table_binding; rv_span := vararg_span vararg |})
  end.

(** What the child does: its parameters and its block; its scope is closed after it. *)
Definition child_body (parameters : list LocalName) (vararg : option Vararg) (span : Span)
    (method : option MethodName) (body : ResolveM ResolvedBlock)
    : ResolveM (list ResolvedLocalName * option ResolvedVararg * ResolvedBlock) :=
  enter_scope span;;
  ensure_list (zlen parameters) span;;
  match checked_add_usize (zlen parameters) (if method is Some _ then 1 else 0) with
  | None => limit span "參數超過編譯限制"
  | Some count =>
      if max_parameters limits <? count then limit span "參數超過編譯限制" else
      ensure_binding_capacity count span;;
      reserve count span "parameter 配置超過編譯限制";;
      self ← declare_self method;
      names ← each (declare_named BindingKind.Parameter_ false) parameters;
      vararg ← declare_vararg vararg;
      modify (fun r => with_vararg r (if vararg is Some _ then true else false) (vararg ≫= rv_table_binding));;
      block ← body;
      mret (self ++ names, vararg, block)
  end.

(** [for (binding, child_upvalue) in pending { .. }]: the child's upvalues that
    come from further out become those of this function. *)
Fixpoint link_captures (span : Span) (pending : list (BindingId * UpvalueId)) (sources : list UpvalueSource)
    : ResolveM (list UpvalueSource) :=
  match pending with
  | [] => mret sources
  | (binding, child_upvalue) :: pending =>
      parent_upvalue ← capture_for_child binding span;
      if zlen sources <=? child_upvalue then resolve_error span "upvalue 轉接索引不符" else
      sources ← lift (vset sources child_upvalue (ParentUpvalue parent_upvalue));
      link_captures span pending sources
  end.

Definition function_body (parameters : list LocalName) (vararg : option Vararg) (span : Span)
    (method : option MethodName) (body : ResolveM ResolvedBlock) : ResolveM ResolvedFunctionBody :=
  r ← get;
  let function := next_function r in
  if U32_MAX <? next_function r + 1 then limit span "function 數超過編譯限制" else
  put (with_next_function r (next_function r + 1));;
  r ← get;
  result ← run_child (child_resolver r function) (child_body parameters vararg span method body);
  let '((names, rest, block), child) := (result : _ * Resolver) in
  let child := pop_scope child in
  sources ← link_captures span (pending_ancestor_captures child) (upvalues child);
  modify (fun r => with_next_function r (next_function child));;
  modify (fun r => with_completed r (completed_functions r ++
    {| rf_id := function; rf_parent := Some (owner r); rf_span := span; rf_bindings := bindings child;
       rf_upvalues := sources |} :: completed_functions child));;
  mret (RFunctionBody function names rest block span).

(** ** Blocks and loops, around the computation of what is inside *)

Definition nested {A} (span : Span) (m : ResolveM A) : ResolveM A :=
  enter_scope span;; finally m pop_scope.

Definition in_loop {A} (target : ScopeId) (m : ResolveM A) : ResolveM A :=
  modify (fun r => with_loops r (target :: loops r));; finally m pop_loop.

Definition block_shell (block : Block) (terminal_labels_end_scope : bool) (resolve_statements : ResolveM (list ResolvedStmt))
    : ResolveM ResolvedBlock :=
  let '(Block_ statements terminator span) := block in
  if (max_statements limits <? zlen statements) || (max_ast_nodes limits <? zlen statements)
  then limit span "陳述式數超過編譯限制" else
  register_labels block terminal_labels_end_scope;;
  validate_block_gotos block;;
  reserve (zlen statements) span "陳述式配置超過編譯限制";;
  resolved ← resolve_statements;
  r ← get;
  let suffix := drop (Z.to_nat (match last_non_void statements with Some i => i + 1 | None => 0 end)) statements in
  let root_terminal_label := (zlen (scopes r) =? 1) && existsb is_label suffix in
  let target := if root_terminal_label then None else
    match scopes r with
    | [] => None
    | [scope] => Some (sf_id scope)
    | _ :: scope :: _ => Some (sf_id scope)
    end in
  scope ← current_scope;
  normal ← close_path ExitKind.Normal target span;
  error ← close_path ExitKind.Error None span;
  mret (RBlock scope resolved terminator span normal error).

(** The list of a statement or a call: its length, its room, its elements. *)
Definition checked_list {A B} (l : list A) (span : Span) (message : string) (m : ResolveM (list B)) : ResolveM (list B) :=
  ensure_list (zlen l) span;; reserve (zlen l) span message;; m.

Definition is_resolved_call (e : ResolvedExpr) : bool :=
  match e with RExpr_Call _ _ _ | RExpr_MethodCall _ _ _ _ => true | _ => false end.

(** [resolve_assignment_target], after its expression. *)
Definition assignment_target (target : Expr) (resolved : ResolvedExpr) : ResolveM ResolvedExpr :=
  match resolved with
  | RExpr_Name _ resolution span => ensure_writable resolution span;; mret resolved
  | RExpr_Index _ _ _ | RExpr_Field _ _ _ => mret resolved
  | _ => resolve_error (expr_span target) "assignment target 不可指派"
  end.

(** ** Loops, around the computations of their parts *)

Definition resolve_repeat (body_span : Span) (body : ResolveM ResolvedBlock) (condition : ResolveM ResolvedExpr) (span : Span)
    : ResolveM ResolvedStmt :=
  target ← current_scope;
  nested body_span (in_loop target (
    body ← body;
    condition ← condition;
    mret (RStmt_Repeat body condition span))).

Definition resolve_numeric_for (name : LocalName) (initial last : ResolveM ResolvedExpr)
    (step : ResolveM (option ResolvedExpr)) (body : ResolveM ResolvedBlock) (span : Span) : ResolveM ResolvedStmt :=
  initial ← initial;
  last ← last;
  step ← step;
  ensure_binding_capacity 1 span;;
  target ← current_scope;
  nested span (
    name ← declare_named BindingKind.NumericFor (readonly_for_control (rules profile)) name;
    body ← in_loop target body;
    mret (RStmt_NumericFor name initial last step body span)).

Definition resolve_generic_for (names : list LocalName) (values : list Expr) (resolve_values : ResolveM (list ResolvedExpr))
    (body : ResolveM ResolvedBlock) (span : Span) : ResolveM ResolvedStmt :=
  let closing_span := match values with _ :: _ :: _ :: fourth :: _ => expr_span fourth | _ => span end in
  values ← resolve_values;
  ensure_list (zlen names) span;;
  match checked_add_usize (zlen names) 1 with
  | None => limit span "generic-for binding 數超過編譯限制"
  | Some count =>
      ensure_binding_capacity count span;;
      target ← current_scope;
      nested span (
        closing ← declare_generic_for_close closing_span;
        reserve (zlen names) span "generic-for name 配置超過編譯限制";;
        names ← declare_generic_names names;
        body ← in_loop target body;
        path ← close_path ExitKind.Normal (Some target) span;
        mret (RStmt_GenericFor names values {| gc_binding := closing; gc_span := closing_span |} body path span))
  end.

(** ** The tree *)

Definition list_message : string := "運算式配置超過編譯限制".

Fixpoint resolve_expr (e : Expr) : ResolveM ResolvedExpr :=
  match e with
  | Expr_Literal literal span => mret (RExpr_Literal literal span)
  | Expr_Nil span => mret (RExpr_Nil span)
  | Expr_Bool value span => mret (RExpr_Bool value span)
  | Expr_Name name span => resolve_name name span
  | Expr_Unary op e span => e ← resolve_expr e; mret (RExpr_Unary op e span)
  | Expr_Binary op lhs rhs span =>
      lhs ← resolve_expr lhs; rhs ← resolve_expr rhs; mret (RExpr_Binary op lhs rhs span)
  | Expr_Paren e span => e ← resolve_expr e; mret (RExpr_Paren e span)
  | Expr_Index base index span =>
      base ← resolve_expr base; index ← resolve_expr index; mret (RExpr_Index base index span)
  | Expr_Field base name span => base ← resolve_expr base; mret (RExpr_Field base name span)
  | Expr_Call callee arguments span =>
      callee ← resolve_expr callee;
      arguments ← checked_list arguments span list_message (each resolve_expr arguments);
      mret (RExpr_Call callee arguments span)
  | Expr_MethodCall receiver method arguments span =>
      receiver ← resolve_expr receiver;
      arguments ← checked_list arguments span list_message (each resolve_expr arguments);
      mret (RExpr_MethodCall receiver method arguments span)
  | Expr_Function body span => body ← resolve_function_body body None; mret (RExpr_Function body span)
  | Expr_TableConstructor fields span =>
      fields ← checked_list fields span "table field 配置超過編譯限制" (each resolve_table_field fields);
      mret (RExpr_TableConstructor fields span)
  | Expr_Vararg span =>
      r ← get;
      if negb (vararg_available r) then resolve_error span "vararg 不在 function 內"
      else mret (RExpr_Vararg (vararg_binding r) span)
  end
with resolve_table_field (f : TableField) : ResolveM ResolvedTableField :=
  match f with
  | Field_Array value separator span => value ← resolve_expr value; mret (RField_Array value separator span)
  | Field_Named name value separator span =>
      value ← resolve_expr value; mret (RField_Named name value separator span)
  | Field_Indexed key value separator span =>
      key ← resolve_expr key; value ← resolve_expr value; mret (RField_Indexed key value separator span)
  end
with resolve_function_body (body : FunctionBody) (method : option MethodName) : ResolveM ResolvedFunctionBody :=
  match body with
  | FunctionBody_ parameters vararg block span =>
      function_body parameters vararg span method (resolve_block block true)
  end
with resolve_block (block : Block) (terminal_labels_end_scope : bool) : ResolveM ResolvedBlock :=
  match block with
  | Block_ statements terminator span =>
      block_shell (Block_ statements terminator span) terminal_labels_end_scope (each resolve_statement statements)
  end
with resolve_statement (s : Stmt) : ResolveM ResolvedStmt :=
  match s with
  | Stmt_Empty span => mret (RStmt_Empty span)
  | Stmt_Do body span =>
      body ← nested (block_span body) (resolve_block body true); mret (RStmt_Do body span)
  | Stmt_Local names values span =>
      ensure_list (zlen values) span;;
      ensure_list (zlen names) span;;
      ensure_binding_capacity (zlen names) span;;
      reserve (zlen values) span "運算式配置超過編譯限制";;
      values ← each resolve_expr values;
      reserve (zlen names) span "binding 配置超過編譯限制";;
      bindings ← declare_locals names 0;
      mret (RStmt_Local bindings (zip_with local_name names bindings) values span)
  | Stmt_LocalFunction name body span =>
      ensure_binding_capacity 1 span;;
      name ← declare_named BindingKind.LocalFunction false name;
      body ← resolve_function_body body None;
      mret (RStmt_LocalFunction name body span)
  | Stmt_Return values span =>
      values ← checked_list values span list_message (each resolve_expr values);
      path ← close_path ExitKind.Return None span;
      mret (RStmt_Return values path span)
  | Stmt_Assignment targets values span =>
      targets ← checked_list targets span "assignment target 配置超過編譯限制"
        (each (fun target => e ← resolve_expr target; assignment_target target e) targets);
      values ← checked_list values span list_message (each resolve_expr values);
      mret (RStmt_Assignment targets values span)
  | Stmt_Call call span =>
      call ← resolve_expr call;
      if is_resolved_call call then mret (RStmt_Call call span) else resolve_error span "獨立陳述式必須是 call"
  | Stmt_Break span => resolve_break span
  | Stmt_Goto name name_span span => resolve_goto name name_span span
  | Stmt_Label name name_span span => resolve_label name name_span span
  | Stmt_If clauses else_block span =>
      clauses ← checked_list clauses span "if clause 配置超過編譯限制"
        (each (fun clause =>
           condition ← resolve_expr clause.1;
           body ← nested (block_span clause.2) (resolve_block clause.2 true);
           mret (condition, body)) clauses);
      else_block ← optionally (fun body => nested (block_span body) (resolve_block body true)) else_block;
      mret (RStmt_If clauses else_block span)
  | Stmt_While condition body span =>
      condition ← resolve_expr condition;
      target ← current_scope;
      body ← in_loop target (nested (block_span body) (resolve_block body true));
      mret (RStmt_While condition body span)
  | Stmt_Repeat body condition span =>
      resolve_repeat (block_span body) (resolve_block body false) (resolve_expr condition) span
  | Stmt_NumericFor name initial limit step body span =>
      resolve_numeric_for name (resolve_expr initial) (resolve_expr limit) (optionally resolve_expr step)
        (nested (block_span body) (resolve_block body true)) span
  | Stmt_GenericFor names values body span =>
      resolve_generic_for names values (checked_list values span list_message (each resolve_expr values))
        (nested (block_span body) (resolve_block body true)) span
  | Stmt_Function name method body span =>
      target ← (e ← resolve_expr name; assignment_target name e);
      body ← resolve_function_body body method;
      mret (RStmt_Function target method body span)
  | Stmt_Global declaration span =>
      if negb (global_declarations (rules profile)) then resolve_error span "lua54 不支援 lua55 global declaration"
      else resolved ← resolve_global declaration; mret (RStmt_Global resolved (declaration_span declaration))
  end
with resolve_global (d : GlobalDeclaration) : ResolveM ResolvedGlobalDeclaration :=
  match d with
  | Global_Star prefix_attribute span =>
      readonly ← global_attribute_readonly prefix_attribute span;
      set_wildcard_global_mode readonly;;
      mret (RGlobal_Star prefix_attribute span)
  | Global_Names names values prefix_attribute span =>
      ensure_list (zlen names) span;;
      ensure_list (zlen values) span;;
      ensure_binding_capacity (zlen names) span;;
      set_named_global_mode;;
      reserve (zlen names) span "global name 配置超過編譯限制";;
      names ← each (declare_global_name prefix_attribute) names;
      values ← checked_list values span list_message (each resolve_expr values);
      mret (RGlobal_Names names values prefix_attribute span)
  | Global_Function name body span =>
      ensure_binding_capacity 1 span;;
      set_named_global_mode;;
      binding ← declare_binding name span None BindingKind.Global false;
      body ← resolve_function_body body None;
      mret (RGlobal_Function binding name body span)
  end.

End Resolving.

(** ** Modules *)

Definition root_resolver : Resolver := {|
  owner := 0; next_binding := 0; next_function := 1; next_scope := 0; bindings := []; upvalues := [];
  upvalue_ids := ∅; upvalue_bindings := []; pending_ancestor_captures := []; scopes := []; loops := [];
  parent_metadata := ∅; vararg_available := true; vararg_binding := None; label_count := 0; goto_count := 0;
  parent_visible := None; root_environment_binding := None; inherited_global_mode := None;
  implicit_globals := ∅; completed_functions := []
|}.

Definition validate_input (module : Module_) (lexed : LexedChunk) (expected_profile : LuaProfile) : res Diagnostic unit :=
  match last (ch_tokens lexed) with
  | None => Err (diagnostic None Resolve "token 串流缺少 EOF")
  | Some eof =>
      fail_if (negb (bool_decide (mod_profile module = expected_profile))
               || negb (bool_decide (ch_profile lexed = expected_profile)))
        (diagnostic (Some eof) Resolve "語言 profile 不符");;
      fail_if (negb (span_end (mod_span module) =? source_len lexed))
        (diagnostic (Some eof) Resolve "module 與來源長度不符");;
      fail_if (negb (is_kind TokenKind.Eof eof) || negb (span_start (Lexer.span eof) =? source_len lexed)
               || negb (span_end (Lexer.span eof) =? source_len lexed))
        (diagnostic (Some eof) Resolve "token 串流 EOF 不符")
  end.

Definition resolve_root `{Reserver} (module : Module_) (lexed : LexedChunk) (expected_profile : LuaProfile)
    (limits : CompileLimits) : ResolveM ResolvedBlock :=
  enter_scope lexed limits (mod_span module);;
  env ← declare_binding lexed limits env_name (mod_span module) None BindingKind.Environment false;
  modify (fun r => with_root_environment r (Some env));;
  resolve_block lexed limits expected_profile (root module) true.

Definition resolve `{Reserver} (module : Module_) (lexed : LexedChunk) (expected_profile : LuaProfile)
    (limits : CompileLimits) : res Diagnostic ResolvedModule :=
  validate_input module lexed expected_profile;;
  match resolve_root module lexed expected_profile limits root_resolver with
  | (Ok root, r) =>
      let r := pop_scope r in
      Ok {| rm_profile := expected_profile; rm_span := mod_span module; rm_root := root;
            rm_functions :=
              {| rf_id := owner r; rf_parent := None; rf_span := mod_span module; rf_bindings := bindings r;
                 rf_upvalues := upvalues r |} :: completed_functions r |}
  | (Err e, _) => Err e
  | (Crash c, _) => Crash c
  end.
