(* ===== verification/ResolveSpec.v ===== *)
(** Static scoping as a specification: environments, the rules by which a resolved
    tree follows from a syntax tree, and what an upvalue stands for. *)

From Stdlib Require Import ZArith Lia.
From stdpp Require Import base list gmap numbers strings.
From S2P Require Import Prelude Float Number Lexer Ast Parser Resolve.

Local Open Scope Z_scope.

(** ** Environments

    A scope lists its bindings with the last declared first; an environment lists
    the open scopes of the function, the innermost first, and then the bindings of
    the functions around it. *)

Record scope := {
  sc_id : ScopeId; sc_bindings : list BindingMeta; sc_labels : list (list Z * LabelInfo);
  sc_declared : list Span; sc_mode : option GlobalMode
}.

Record env := {
  e_function : FunctionId; e_scopes : list scope; e_outer : list BindingMeta; e_loops : list ScopeId;
  e_vararg : option (option BindingId); e_mode : option GlobalMode; e_root : BindingId
}.

Definition e_own (Γ : env) : list BindingMeta := concat (map sc_bindings (e_scopes Γ)).
Definition e_visible (Γ : env) : list BindingMeta := e_own Γ ++ e_outer Γ.

Definition with_env_scopes (Γ : env) (l : list scope) : env := {|
  e_function := e_function Γ; e_scopes := l; e_outer := e_outer Γ; e_loops := e_loops Γ;
  e_vararg := e_vararg Γ; e_mode := e_mode Γ; e_root := e_root Γ
|}.
Definition with_env_loops (Γ : env) (l : list ScopeId) : env := {|
  e_function := e_function Γ; e_scopes := e_scopes Γ; e_outer := e_outer Γ; e_loops := l;
  e_vararg := e_vararg Γ; e_mode := e_mode Γ; e_root := e_root Γ
|}.
Definition with_env_vararg (Γ : env) (v : option (option BindingId)) : env := {|
  e_function := e_function Γ; e_scopes := e_scopes Γ; e_outer := e_outer Γ; e_loops := e_loops Γ;
  e_vararg := v; e_mode := e_mode Γ; e_root := e_root Γ
|}.

Definition empty_scope (id : ScopeId) : scope :=
  {| sc_id := id; sc_bindings := []; sc_labels := []; sc_declared := []; sc_mode := None |}.

(** Changing the innermost scope. *)
Definition in_scope (f : scope -> scope) (Γ : env) : env :=
  with_env_scopes Γ (match e_scopes Γ with sc :: l => f sc :: l | [] => [] end).

Definition opened_scope (id : ScopeId) (Γ : env) : env := with_env_scopes Γ (empty_scope id :: e_scopes Γ).
Definition closed_scope (Γ : env) : env := with_env_scopes Γ (tail (e_scopes Γ)).
Definition opened_loop (Γ : env) (target : ScopeId) : env := with_env_loops Γ (target :: e_loops Γ).

Definition add_binding (m : BindingMeta) (sc : scope) : scope := {|
  sc_id := sc_id sc; sc_bindings := m :: sc_bindings sc; sc_labels := sc_labels sc;
  sc_declared := sc_declared sc; sc_mode := sc_mode sc
|}.
Definition set_mode (mode : option GlobalMode) (sc : scope) : scope := {|
  sc_id := sc_id sc; sc_bindings := sc_bindings sc; sc_labels := sc_labels sc;
  sc_declared := sc_declared sc; sc_mode := mode
|}.
Definition set_named (sc : scope) : scope :=
  set_mode (match sc_mode sc with None => Some NamedOnly | Some mode => Some mode end) sc.
Definition add_block_labels (labels : list (list Z * LabelInfo)) (declared : list Span) (sc : scope) : scope := {|
  sc_id := sc_id sc; sc_bindings := sc_bindings sc; sc_labels := sc_labels sc ++ labels;
  sc_declared := sc_declared sc ++ declared; sc_mode := sc_mode sc
|}.

(** The binding of a name: the last one declared, except the hidden ones. *)
Definition is_named (name : list Z) (m : BindingMeta) : bool :=
  bool_decide (bm_name m = name) && bool_decide (bm_kind m <> BindingKind.GenericForClose).
Definition lookup_binding (name : list Z) (l : list BindingMeta) : option BindingMeta := find (is_named name) l.

(** Whether it is of this function, and what it is. *)
Definition look (Γ : env) (name : list Z) : option (bool * BindingMeta) :=
  match lookup_binding name (e_own Γ) with
  | Some m => Some (true, m)
  | None => pair false <$> lookup_binding name (e_outer Γ)
  end.

Definition is_global_binding (m : BindingMeta) : bool := bool_decide (bm_kind m = BindingKind.Global).

(** A binding of [_ENV] other than the module's own. *)
Definition env_shadow (Γ : env) : option (bool * BindingMeta) :=
  match look Γ env_name with
  | Some (own, m) => if is_global_binding m || bool_decide (bm_id m = e_root Γ) then None else Some (own, m)
  | None => None
  end.

(** The mode of global names: the innermost wildcard of the function, else that of
    the functions around it, else named only if there is a declaration of names. *)
Definition is_wildcard (mode : option GlobalMode) : bool :=
  match mode with Some (Wildcard _) => true | _ => false end.
Definition global_mode (Γ : env) : option GlobalMode :=
  match find is_wildcard (map sc_mode (e_scopes Γ)) with
  | Some mode => mode
  | None =>
      match e_mode Γ with
      | Some mode => Some mode
      | None => if existsb (fun sc => if sc_mode sc is Some _ then true else false) (e_scopes Γ) then Some NamedOnly else None
      end
  end.

(** ** Exits *)

Definition is_lexical_binding (m : BindingMeta) : bool := is_lexical (bm_kind m).
Definition closes (m : BindingMeta) : bool := if bm_close_marker m is Some _ then true else false.

(** The scopes left on the way to the target, all of the function's without one. *)
Fixpoint left_scopes (target : option ScopeId) (l : list scope) : list scope :=
  match l with
  | [] => []
  | sc :: l => if bool_decide (Some (sc_id sc) = target) then [] else sc :: left_scopes target l
  end.

Definition left_bindings (target : option ScopeId) (Γ : env) : list BindingMeta :=
  concat (map sc_bindings (left_scopes target (e_scopes Γ))).

Definition inner_scope_id (Γ : env) : ScopeId := match e_scopes Γ with sc :: _ => sc_id sc | [] => 0 end.

Definition path_of (kind : ExitKind.ExitKind) (target : option ScopeId) (span : Span) (Γ : env)
    (left_ : list BindingMeta) : ClosePath := {|
  cp_kind := kind; cp_span := span; cp_from_scope := inner_scope_id Γ; cp_target_scope := target;
  cp_bindings := map bm_id (List.filter closes left_);
  cp_exited_bindings := map bm_id (List.filter is_lexical_binding left_)
|}.

Definition exit_path (kind : ExitKind.ExitKind) (target : option ScopeId) (span : Span) (Γ : env) : ClosePath :=
  path_of kind target span Γ (left_bindings target Γ).

Definition find_env_label (Γ : env) (name : list Z) : option LabelInfo :=
  snd <$> find (fun p => bool_decide (p.1 = name)) (concat (map sc_labels (e_scopes Γ))).

Definition env_scope (Γ : env) (id : ScopeId) : option scope :=
  find (fun sc => bool_decide (sc_id sc = id)) (e_scopes Γ).

Fixpoint take_while {A} (p : A -> bool) (l : list A) : list A :=
  match l with [] => [] | x :: l => if p x then x :: take_while p l else [] end.

(** The bindings of the label's own scope that a jump leaves: those declared after
    the label and before the jump; at the end of a block, all declared before it. *)
Definition left_in_target (label : LabelInfo) (span : Span) (sc : scope) : list BindingMeta :=
  if negb (lb_terminal label) && (span_start span <=? span_start (lb_span label)) then [] else
  List.filter (fun m => span_start (bm_span m) <? span_start span)
    (take_while (fun m => lb_terminal label || (span_start (lb_span label) <? span_start (bm_span m)))
       (List.filter is_lexical_binding (sc_bindings sc))).

Definition jump_path (label : LabelInfo) (span : Span) (Γ : env) (target : scope) : ClosePath :=
  path_of ExitKind.Goto (Some (lb_scope label)) span Γ
    (left_bindings (Some (lb_scope label)) Γ ++ left_in_target label span target).

(** ** Labels of a block *)

Fixpoint block_labels (scope : ScopeId) (end_scope : bool) (l : list Stmt) : list (list Z * LabelInfo) :=
  match l with
  | [] => []
  | Stmt_Label name name_span _ :: l =>
      (name, {| lb_scope := scope; lb_terminal := end_scope && forallb is_void l; lb_span := name_span |})
      :: block_labels scope end_scope l
  | _ :: l => block_labels scope end_scope l
  end.

(** A jump in the block to a label that is there, not over a declaration into its scope. *)
Definition good_goto (Γ : env) (s : Stmt) : Prop :=
  match s with
  | Stmt_Goto name _ span =>
      exists label target,
        find_env_label Γ name = Some label /\ env_scope Γ (lb_scope label) = Some target /\
        (lb_terminal label = true \/
         forall d, In d (sc_declared target) -> ~ (span_start span < span_start d < span_start (lb_span label)))
  | _ => True
  end.

(** Where the normal end of a block goes: the scope around it; a label that ends the
    outermost scope of a function leaves them all. *)
Definition ends_with_label (l : list Stmt) : bool :=
  existsb is_label (take_while is_void (rev l)).
Definition block_target (Γ : env) (statements : list Stmt) : option ScopeId :=
  match e_scopes Γ with
  | [sc] => if ends_with_label statements then None else Some (sc_id sc)
  | _ :: sc :: _ => Some (sc_id sc)
  | [] => None
  end.

(** ** Facts of the functions resolved

    [den f u b]: upvalue [u] of function [f] stands for binding [b];
    [known m]: [m] is in the table of its function;
    [compiled f p span]: [f] is a function of [p]. *)
Record facts := {
  den : FunctionId -> UpvalueId -> BindingId -> Prop;
  known : BindingMeta -> Prop;
  compiled : FunctionId -> FunctionId -> Span -> Prop
}.

(** A chain of upvalues, through the functions of [fs], ending with a local of the
    parent or, while the function [o] is being resolved, with a capture of [o]. *)
Inductive chain (fs : list ResolvedFunction) (o : FunctionId) (captured : list BindingId)
    : FunctionId -> UpvalueId -> BindingId -> Prop :=
  | chain_open u b : zget captured u = Some b -> chain fs o captured o u b
  | chain_local rf u b :
      In rf fs -> zget (rf_upvalues rf) u = Some (ParentLocal b) -> rf_parent rf = Some (b_function b) ->
      chain fs o captured (rf_id rf) u b
  | chain_upvalue rf p u v b :
      In rf fs -> zget (rf_upvalues rf) u = Some (ParentUpvalue v) -> rf_parent rf = Some p ->
      chain fs o captured p v b -> chain fs o captured (rf_id rf) u b.

Definition facts_of (fs : list ResolvedFunction) (o : FunctionId) (bs : list BindingMeta) (captured : list BindingId)
    : facts := {|
  den := chain fs o captured;
  known m := In m bs \/ exists rf, In rf fs /\ In m (rf_bindings rf);
  compiled f p span := exists rf, In rf fs /\ rf_id rf = f /\ rf_parent rf = Some p /\ rf_span rf = span
|}.

(** The facts of a resolved module. *)
Definition module_facts (m : ResolvedModule) : facts := facts_of (rm_functions m) 0 [] [].

Definition facts_le (F G : facts) : Prop :=
  (forall f u b, den F f u b -> den G f u b) /\ (forall m, known F m -> known G m) /\
  (forall f p span, compiled F f p span -> compiled G f p span).

(** ** Names and declarations *)

Section Rules.
Context (profile : LuaProfile) (F : facts).

Definition reachable (Γ : env) (own : bool) (m : BindingMeta) : Prop :=
  own = true \/ exists u, den F (e_function Γ) u (bm_id m).

Inductive refers (Γ : env) : bool -> BindingMeta -> ResolvedName -> Prop :=
  | refers_own m : refers Γ true m (RLocal (bm_id m))
  | refers_outer m u : den F (e_function Γ) u (bm_id m) -> refers Γ false m (RUpvalue u).

(** A free name of Lua 5.5 may be a global, unless only named globals are allowed. *)
Definition free_global (Γ : env) (name : list Z) : Prop :=
  look Γ name = None /\ name <> env_name /\ global_declarations (rules profile) = true
  /\ global_mode Γ <> Some NamedOnly.

Inductive scoped_name (Γ : env) (name : list Z) : ResolvedName -> Prop :=
  | name_variable own m res :
      look Γ name = Some (own, m) -> is_global_binding m = false -> refers Γ own m res ->
      scoped_name Γ name res
  | name_global own m :
      look Γ name = Some (own, m) -> is_global_binding m = true ->
      (global_declarations (rules profile) = true -> env_shadow Γ = None) ->
      scoped_name Γ name (RGlobal (bm_id m))
  | name_global_field own m own' e :
      look Γ name = Some (own, m) -> is_global_binding m = true ->
      global_declarations (rules profile) = true -> env_shadow Γ = Some (own', e) -> reachable Γ own' e ->
      scoped_name Γ name (REnvField (bm_id e) name)
  | name_field own e :
      look Γ name = None -> name <> env_name -> global_declarations (rules profile) = false ->
      look Γ env_name = Some (own, e) -> is_global_binding e = false -> reachable Γ own e ->
      scoped_name Γ name (REnvField (bm_id e) name)
  | name_free_field own e :
      free_global Γ name -> env_shadow Γ = Some (own, e) -> reachable Γ own e ->
      scoped_name Γ name (REnvField (bm_id e) name)
  | name_implicit m :
      free_global Γ name -> env_shadow Γ = None ->
      known F m -> bm_kind m = BindingKind.Global -> bm_name m = name ->
      bm_readonly m = is_readonly_wildcard (global_mode Γ) -> b_function (bm_id m) = e_function Γ ->
      scoped_name Γ name (RGlobal (bm_id m)).

(** A name may be assigned: its binding, or the mode of a free name, is not read-only. *)
Definition writable (Γ : env) (name : list Z) : Prop :=
  match look Γ name with
  | Some (_, m) => bm_readonly m = false
  | None => is_readonly_wildcard (global_mode Γ) = false
  end.

(** What an attribute makes of a declaration: whether it is read-only, and closed. *)
Definition flags_of (attribute : option Attribute) (requested : bool) : option (bool * option Span) :=
  match attribute with
  | None => Some (requested, None)
  | Some a =>
      if bool_decide (attr_name a = const_name) then Some (true, None)
      else if bool_decide (attr_name a = close_name) then Some (true, Some (attr_span a)) else None
  end.

(** A new binding of the innermost scope: recorded, and none that is visible. *)
Record fresh_binding (Γ : env) (kind : BindingKind.BindingKind) (name : list Z) (span : Span)
    (attribute : option Attribute) (flags : bool * option Span) (m : BindingMeta) : Prop := {
  fb_known : known F m;
  fb_name : bm_name m = name;
  fb_span : bm_span m = span;
  fb_kind : bm_kind m = kind;
  fb_owner : bm_owner m = e_function Γ;
  fb_function : b_function (bm_id m) = e_function Γ;
  fb_depth : bm_scope_depth m = zlen (e_scopes Γ) - 1;
  fb_attribute : bm_attribute m = attribute;
  fb_readonly : bm_readonly m = flags.1;
  fb_close : bm_close_marker m = flags.2;
  fb_fresh : forall m', In m' (e_visible Γ) -> bm_id m' <> bm_id m
}.

Inductive declares (Γ : env) (kind : BindingKind.BindingKind) (name : list Z) (span : Span)
    (attribute : option Attribute) (requested : bool) : BindingId -> env -> Prop :=
  | declares_intro m flags :
      flags_of attribute requested = Some flags -> fresh_binding Γ kind name span attribute flags m ->
      declares Γ kind name span attribute requested (bm_id m) (in_scope (add_binding m) Γ).

(** The names of a list, one after the other; [attribute] gives the attribute of
    each, [requested] says which are read-only without one. *)
Inductive declares_names (kind : BindingKind.BindingKind) (attribute : LocalName -> option Attribute)
    (requested : Z -> bool) : Z -> env -> list LocalName -> list ResolvedLocalName -> env -> Prop :=
  | declares_nil i Γ : declares_names kind attribute requested i Γ [] [] Γ
  | declares_cons i Γ Γ1 Γ2 name b names resolved :
      declares Γ kind (ln_name name) (ln_span name) (attribute name) (requested i) b Γ1 ->
      declares_names kind attribute requested (i + 1) Γ1 names resolved Γ2 ->
      declares_names kind attribute requested i Γ (name :: names) (local_name name b :: resolved) Γ2.

Inductive declares_self (Γ : env) : option MethodName -> list ResolvedLocalName -> env -> Prop :=
  | declares_no_self : declares_self Γ None [] Γ
  | declares_method method b Γ' :
      declares Γ BindingKind.Parameter_ self_name (mn_colon_span method) None false b Γ' ->
      declares_self Γ (Some method)
        [{| rl_binding := b; rl_name := self_name; rl_attribute := None; rl_span := mn_colon_span method |}] Γ'.

Inductive declares_vararg (Γ : env) : option Vararg -> option ResolvedVararg -> env -> Prop :=
  | declares_no_vararg : declares_vararg Γ None None (with_env_vararg Γ None)
  | declares_plain_vararg span :
      declares_vararg Γ (Some {| table_name := None; vararg_span := span |})
        (Some {| rv_table_binding := None; rv_span := span |}) (with_env_vararg Γ (Some None))
  | declares_named_vararg name span b Γ' :
      named_vararg_rule (rules profile) = true ->
      declares Γ BindingKind.VarargTable (ln_name name) (ln_span name) (ln_attribute name) true b Γ' ->
      declares_vararg Γ (Some {| table_name := Some name; vararg_span := span |})
        (Some {| rv_table_binding := Some b; rv_span := span |}) (with_env_vararg Γ' (Some (Some b))).

(** The environment in which the declarations of a function inside [Γ] begin. *)
Definition function_env (Γ : env) (f : FunctionId) : env := {|
  e_function := f; e_scopes := [empty_scope 0]; e_outer := e_visible Γ; e_loops := [];
  e_vararg := None; e_mode := global_mode Γ; e_root := e_root Γ
|}.

Definition global_attribute (prefix_attribute : option Attribute) (name : LocalName) : option Attribute :=
  match ln_attribute name with Some a => Some a | None => prefix_attribute end.

(** A global is [const] or has no attribute. *)
Definition global_readonly (attribute : option Attribute) : option bool :=
  match attribute with
  | None => Some false
  | Some a => if bool_decide (attr_name a = const_name) then Some true else None
  end.

Definition closing_span (values : list Expr) (span : Span) : Span :=
  match values with _ :: _ :: _ :: fourth :: _ => expr_span fourth | _ => span end.

Definition close_count (names : list LocalName) : Z :=
  zlen (List.filter (fun name => is_close (ln_attribute name)) names).

(** ** The rules *)

Inductive scoped_expr (Γ : env) : Expr -> ResolvedExpr -> Prop :=
  | scoped_Literal literal span : scoped_expr Γ (Expr_Literal literal span) (RExpr_Literal literal span)
  | scoped_Nil span : scoped_expr Γ (Expr_Nil span) (RExpr_Nil span)
  | scoped_Bool value span : scoped_expr Γ (Expr_Bool value span) (RExpr_Bool value span)
  | scoped_Name name res span :
      scoped_name Γ name res -> scoped_expr Γ (Expr_Name name span) (RExpr_Name name res span)
  | scoped_Vararg binding span :
      e_vararg Γ = Some binding -> scoped_expr Γ (Expr_Vararg span) (RExpr_Vararg binding span)
  | scoped_Unary op e r span :
      scoped_expr Γ e r -> scoped_expr Γ (Expr_Unary op e span) (RExpr_Unary op r span)
  | scoped_Binary op e1 e2 r1 r2 span :
      scoped_expr Γ e1 r1 -> scoped_expr Γ e2 r2 ->
      scoped_expr Γ (Expr_Binary op e1 e2 span) (RExpr_Binary op r1 r2 span)
  | scoped_Paren e r span : scoped_expr Γ e r -> scoped_expr Γ (Expr_Paren e span) (RExpr_Paren r span)
  | scoped_Index e1 e2 r1 r2 span :
      scoped_expr Γ e1 r1 -> scoped_expr Γ e2 r2 ->
      scoped_expr Γ (Expr_Index e1 e2 span) (RExpr_Index r1 r2 span)
  | scoped_Field e r name span :
      scoped_expr Γ e r -> scoped_expr Γ (Expr_Field e name span) (RExpr_Field r name span)
  | scoped_Call e r es rs span :
      scoped_expr Γ e r -> Forall2 (scoped_expr Γ) es rs ->
      scoped_expr Γ (Expr_Call e es span) (RExpr_Call r rs span)
  | scoped_MethodCall e r method es rs span :
      scoped_expr Γ e r -> Forall2 (scoped_expr Γ) es rs ->
      scoped_expr Γ (Expr_MethodCall e method es span) (RExpr_MethodCall r method rs span)
  | scoped_Function body resolved span :
      scoped_function Γ None body resolved ->
      scoped_expr Γ (Expr_Function body span) (RExpr_Function resolved span)
  | scoped_Table fields rs span :
      Forall2 (scoped_field Γ) fields rs ->
      scoped_expr Γ (Expr_TableConstructor fields span) (RExpr_TableConstructor rs span)
with scoped_field (Γ : env) : TableField -> ResolvedTableField -> Prop :=
  | scoped_Array e r separator span :
      scoped_expr Γ e r -> scoped_field Γ (Field_Array e separator span) (RField_Array r separator span)
  | scoped_Named name e r separator span :
      scoped_expr Γ e r -> scoped_field Γ (Field_Named name e separator span) (RField_Named name r separator span)
  | scoped_Indexed e1 e2 r1 r2 separator span :
      scoped_expr Γ e1 r1 -> scoped_expr Γ e2 r2 ->
      scoped_field Γ (Field_Indexed e1 e2 separator span) (RField_Indexed r1 r2 separator span)
with scoped_target (Γ : env) : Expr -> ResolvedExpr -> Prop :=
  | target_name name res span :
      scoped_name Γ name res -> writable Γ name ->
      scoped_target Γ (Expr_Name name span) (RExpr_Name name res span)
  | target_index e1 e2 r1 r2 span :
      scoped_expr Γ (Expr_Index e1 e2 span) (RExpr_Index r1 r2 span) ->
      scoped_target Γ (Expr_Index e1 e2 span) (RExpr_Index r1 r2 span)
  | target_field e r name span :
      scoped_expr Γ (Expr_Field e name span) (RExpr_Field r name span) ->
      scoped_target Γ (Expr_Field e name span) (RExpr_Field r name span)
with scoped_function (Γ : env) : option MethodName -> FunctionBody -> ResolvedFunctionBody -> Prop :=
  | scoped_body method parameters vararg block span f self names rest resolved Γ1 Γ2 Γ3 Γ4 :
      compiled F f (e_function Γ) span ->
      declares_self (function_env Γ f) method self Γ1 ->
      declares_names BindingKind.Parameter_ ln_attribute (fun _ => false) 0 Γ1 parameters names Γ2 ->
      declares_vararg Γ2 vararg rest Γ3 ->
      scoped_block Γ3 true block resolved Γ4 ->
      scoped_function Γ method (FunctionBody_ parameters vararg block span)
        (RFunctionBody f (self ++ names) rest resolved span)
with scoped_block (Γ : env) : bool -> Block -> ResolvedBlock -> env -> Prop :=
  | scoped_statements end_scope statements terminator span resolved Γ1 Γ2 :
      Γ1 = in_scope (add_block_labels (block_labels (inner_scope_id Γ) end_scope statements)
                       (concat (map declared_spans statements))) Γ ->
      NoDup (map fst (block_labels (inner_scope_id Γ) end_scope statements)) ->
      Forall (good_goto Γ1) statements ->
      scoped_stmts Γ1 statements resolved Γ2 ->
      scoped_block Γ end_scope (Block_ statements terminator span)
        (RBlock (inner_scope_id Γ) resolved terminator span
           (exit_path ExitKind.Normal (block_target Γ2 statements) span Γ2)
           (exit_path ExitKind.Error None span Γ2)) Γ2
with scoped_nested (Γ : env) : Block -> ResolvedBlock -> Prop :=
  | scoped_inner id block resolved Γ' :
      ~ In id (map sc_id (e_scopes Γ)) ->
      scoped_block (opened_scope id Γ) true block resolved Γ' ->
      scoped_nested Γ block resolved
with scoped_stmts (Γ : env) : list Stmt -> list ResolvedStmt -> env -> Prop :=
  | scoped_nil : scoped_stmts Γ [] [] Γ
  | scoped_cons s r l k Γ1 Γ2 :
      scoped_stmt Γ s r Γ1 -> scoped_stmts Γ1 l k Γ2 -> scoped_stmts Γ (s :: l) (r :: k) Γ2
with scoped_stmt (Γ : env) : Stmt -> ResolvedStmt -> env -> Prop :=
  | scoped_Empty span : scoped_stmt Γ (Stmt_Empty span) (RStmt_Empty span) Γ
  | scoped_Return es rs span :
      Forall2 (scoped_expr Γ) es rs ->
      scoped_stmt Γ (Stmt_Return es span) (RStmt_Return rs (exit_path ExitKind.Return None span Γ) span) Γ
  | scoped_Assignment targets rts es rs span :
      Forall2 (scoped_target Γ) targets rts -> Forall2 (scoped_expr Γ) es rs ->
      scoped_stmt Γ (Stmt_Assignment targets es span) (RStmt_Assignment rts rs span) Γ
  | scoped_Call_stmt e r span :
      scoped_expr Γ e r -> is_resolved_call r = true ->
      scoped_stmt Γ (Stmt_Call e span) (RStmt_Call r span) Γ
  | scoped_Local names es rs resolved span Γ' :
      Forall2 (scoped_expr Γ) es rs ->
      declares_names BindingKind.Local ln_attribute (fun _ => false) 0 Γ names resolved Γ' ->
      close_count names <= 1 ->
      scoped_stmt Γ (Stmt_Local names es span) (RStmt_Local (map rl_binding resolved) resolved rs span) Γ'
  | scoped_Global d r span Γ' :
      global_declarations (rules profile) = true -> scoped_global Γ d r Γ' ->
      scoped_stmt Γ (Stmt_Global d span) (RStmt_Global r (declaration_span d)) Γ'
  | scoped_Break target loops span :
      e_loops Γ = target :: loops ->
      scoped_stmt Γ (Stmt_Break span) (RStmt_Break (exit_path ExitKind.Break (Some target) span Γ) span) Γ
  | scoped_Goto name name_span span label target :
      find_env_label Γ name = Some label -> env_scope Γ (lb_scope label) = Some target ->
      scoped_stmt Γ (Stmt_Goto name name_span span) (RStmt_Goto name name_span (jump_path label span Γ target) span) Γ
  | scoped_Label name name_span span :
      scoped_stmt Γ (Stmt_Label name name_span span) (RStmt_Label name name_span span) Γ
  | scoped_Do block r span : scoped_nested Γ block r -> scoped_stmt Γ (Stmt_Do block span) (RStmt_Do r span) Γ
  | scoped_If clauses rs other r span :
      Forall2 (fun c rc => scoped_expr Γ c.1 rc.1 /\ scoped_nested Γ c.2 rc.2) clauses rs ->
      option_Forall2 (scoped_nested Γ) other r ->
      scoped_stmt Γ (Stmt_If clauses other span) (RStmt_If rs r span) Γ
  | scoped_While e r block resolved span :
      scoped_expr Γ e r -> scoped_nested (opened_loop Γ (inner_scope_id Γ)) block resolved ->
      scoped_stmt Γ (Stmt_While e block span) (RStmt_While r resolved span) Γ
  | scoped_Repeat id block resolved e r span Γ' :
      ~ In id (map sc_id (e_scopes Γ)) ->
      scoped_block (opened_loop (opened_scope id Γ) (inner_scope_id Γ)) false block resolved Γ' ->
      scoped_expr Γ' e r ->
      scoped_stmt Γ (Stmt_Repeat block e span) (RStmt_Repeat resolved r span) Γ
  | scoped_NumericFor id name b initial limit step r1 r2 r3 block resolved span Γ' :
      scoped_expr Γ initial r1 -> scoped_expr Γ limit r2 ->
      option_Forall2 (scoped_expr Γ) step r3 ->
      ~ In id (map sc_id (e_scopes Γ)) ->
      declares (opened_scope id Γ) BindingKind.NumericFor (ln_name name) (ln_span name) (ln_attribute name)
        (readonly_for_control (rules profile)) b Γ' ->
      scoped_nested (opened_loop Γ' (inner_scope_id Γ)) block resolved ->
      scoped_stmt Γ (Stmt_NumericFor name initial limit step block span)
        (RStmt_NumericFor (local_name name b) r1 r2 r3 resolved span) Γ
  | scoped_GenericFor id names es rs m rnames block resolved span Γ1 Γ2 :
      Forall2 (scoped_expr Γ) es rs ->
      ~ In id (map sc_id (e_scopes Γ)) ->
      fresh_binding (opened_scope id Γ) BindingKind.GenericForClose (bytes_of_string "<generic-for-close>")
        (closing_span es span) None (true, Some (closing_span es span)) m ->
      Γ1 = in_scope (add_binding m) (opened_scope id Γ) ->
      declares_names BindingKind.GenericFor ln_attribute
        (fun i => (i =? 0) && readonly_for_control (rules profile)) 0 Γ1 names rnames Γ2 ->
      scoped_nested (opened_loop Γ2 (inner_scope_id Γ)) block resolved ->
      scoped_stmt Γ (Stmt_GenericFor names es block span)
        (RStmt_GenericFor rnames rs {| gc_binding := bm_id m; gc_span := closing_span es span |} resolved
           (exit_path ExitKind.Normal (Some (inner_scope_id Γ)) span Γ2) span) Γ
  | scoped_Function_stmt name r method body resolved span :
      scoped_target Γ name r -> scoped_function Γ method body resolved ->
      scoped_stmt Γ (Stmt_Function name method body span) (RStmt_Function r method resolved span) Γ
  | scoped_LocalFunction name b body resolved span Γ' :
      declares Γ BindingKind.LocalFunction (ln_name name) (ln_span name) (ln_attribute name) false b Γ' ->
      scoped_function Γ' None body resolved ->
      scoped_stmt Γ (Stmt_LocalFunction name body span) (RStmt_LocalFunction (local_name name b) resolved span) Γ'
with scoped_global (Γ : env) : GlobalDeclaration -> ResolvedGlobalDeclaration -> env -> Prop :=
  | scoped_star attribute readonly span :
      global_readonly attribute = Some readonly ->
      scoped_global Γ (Global_Star attribute span) (RGlobal_Star attribute span)
        (in_scope (set_mode (Some (Wildcard readonly))) Γ)
  | scoped_global_names names prefix es rs resolved span Γ' :
      Forall (fun name => is_Some (global_readonly (global_attribute prefix name))) names ->
      declares_names BindingKind.Global (global_attribute prefix) (fun _ => false) 0 (in_scope set_named Γ)
        names resolved Γ' ->
      Forall2 (scoped_expr Γ') es rs ->
      scoped_global Γ (Global_Names names es prefix span) (RGlobal_Names resolved rs prefix span) Γ'
  | scoped_global_function name b body resolved span Γ' :
      declares (in_scope set_named Γ) BindingKind.Global name span None false b Γ' ->
      scoped_function Γ' None body resolved ->
      scoped_global Γ (Global_Function name body span) (RGlobal_Function b name resolved span) Γ'.

(** A module: its only scope begins with [_ENV]. *)
Definition root_env (m : BindingMeta) : env := {|
  e_function := 0; e_scopes := [add_binding m (empty_scope 0)]; e_outer := []; e_loops := [];
  e_vararg := Some None; e_mode := None; e_root := bm_id m
|}.

Inductive scoped_module (module : Module_) : ResolvedBlock -> Prop :=
  | scoped_root m resolved Γ :
      known F m -> bm_name m = env_name -> bm_kind m = BindingKind.Environment -> bm_readonly m = false ->
      bm_id m = {| b_function := 0; b_ordinal := 0 |} ->
      scoped_block (root_env m) true (root module) resolved Γ ->
      scoped_module module resolved.

End Rules.
