(* ===== verification/ResolveState.v ===== *)
(** The state of the resolver against the environments of the specification: its
    invariant, and what each operation on names, bindings and scopes does. *)

From Stdlib Require Import ZArith Lia.
From stdpp Require Import base list gmap numbers strings.
From S2P Require Import Prelude Float Number Lexer Ast Parser Resolve ResolveSpec.

Local Open Scope Z_scope.

(** ** Facts only grow *)

Definition facts_at (r : Resolver) : facts :=
  facts_of (completed_functions r) (owner r) (bindings r) (upvalue_bindings r).

Lemma facts_le_refl F : facts_le F F.
Proof. unfold facts_le. auto. Qed.

Lemma facts_le_trans F G K : facts_le F G -> facts_le G K -> facts_le F K.
Proof. intros (H1 & H2 & H3) (K1 & K2 & K3). split_and!; auto. Qed.

Lemma zget_prefix {A} (l k : list A) i x : l `prefix_of` k -> zget l i = Some x -> zget k i = Some x.
Proof. intros [k' ->] H. rewrite zget_app_l; [done |]. apply zget_lt in H. lia. Qed.

(** More functions, and another way to stand for what was captured. *)
Lemma chain_weaken fs fs' o o' captured captured' f u b :
  (forall rf, In rf fs -> In rf fs') ->
  (forall u b, zget captured u = Some b -> chain fs' o' captured' o u b) ->
  chain fs o captured f u b -> chain fs' o' captured' f u b.
Proof.
  intros Hfs Hc. induction 1 as [u b Hu | rf u b Hin Hu Hp | rf p u v b Hin Hu Hp _ IH].
  - by apply Hc.
  - apply chain_local; auto.
  - eapply chain_upvalue; eauto.
Qed.

Lemma chain_mono fs fs' o captured captured' f u b :
  fs `prefix_of` fs' -> captured `prefix_of` captured' ->
  chain fs o captured f u b -> chain fs' o captured' f u b.
Proof.
  intros [k ->] Hc. apply chain_weaken; [intros; apply in_or_app; by left |].
  intros u' b' Hu. apply chain_open. by eapply zget_prefix.
Qed.

(** What a step of the resolver leaves in place. *)
Record extends (r r' : Resolver) : Prop := {
  ext_owner : owner r' = owner r;
  ext_bindings : bindings r `prefix_of` bindings r';
  ext_captured : upvalue_bindings r `prefix_of` upvalue_bindings r';
  ext_completed : completed_functions r `prefix_of` completed_functions r'
}.

Lemma extends_here r : extends r r.
Proof. by split. Qed.

Lemma extends_then r1 r2 r3 : extends r1 r2 -> extends r2 r3 -> extends r1 r3.
Proof. intros [] []. split; [congruence | by etrans ..]. Qed.

Lemma extends_facts r r' : extends r r' -> facts_le (facts_at r) (facts_at r').
Proof.
  intros [Ho Hb Hc Hf]. unfold facts_at. rewrite Ho. split_and!; cbn.
  - intros f u b. by apply chain_mono.
  - destruct Hb as [kb ->], Hf as [kf ->]. intros m [Hm | (rf & Hrf & Hm)].
    + left. apply in_or_app. by left.
    + right. exists rf. split; [apply in_or_app; by left | done].
  - destruct Hf as [kf ->]. intros f p span (rf & Hrf & H). exists rf. split; [apply in_or_app; by left | done].
Qed.

(** ** The invariant *)

Record frame_matches (f : ScopeFrame) (sc : scope) : Prop := {
  fm_id : sf_id f = sc_id sc;
  fm_bindings : forall name, sf_bindings f !! name = bm_id <$> lookup_binding name (sc_bindings sc);
  fm_local : sf_local_bindings f = rev (map bm_id (List.filter is_lexical_binding (sc_bindings sc)));
  fm_close : sf_close_bindings f = rev (map bm_id (List.filter closes (sc_bindings sc)));
  fm_label_scope : forall name label, In (name, label) (sc_labels sc) -> lb_scope label = sc_id sc;
  fm_labels : forall name, sf_labels f !! name = snd <$> find (fun p => bool_decide (p.1 = name)) (sc_labels sc);
  fm_declared : sf_declaration_spans f = sc_declared sc;
  fm_mode : sf_global_mode f = sc_mode sc
}.

(** What a binding of the functions around is for this one, a function of [p]. *)
Definition parent_view (p : FunctionId) (m : BindingMeta) : ParentBinding :=
  if is_global_binding m then PGlobal (bm_id m)
  else if bool_decide (b_function (bm_id m) = p) then PDirect (bm_id m) else PAncestor (bm_id m).

Definition numbered (o : FunctionId) (bs : list BindingMeta) : Prop :=
  forall k m, zget bs k = Some m -> bm_id m = {| b_function := o; b_ordinal := k |} /\ bm_owner m = o.

Section State.
Context (lexed : LexedChunk) (limits : CompileLimits) (profile : LuaProfile) {alloc : Reserver}.

(** A finished function: its tables are within their limits, its bindings are
    numbered, and each of its upvalues stands for a binding of a function around it. *)
Record good_function (den : FunctionId -> UpvalueId -> BindingId -> Prop) (rf : ResolvedFunction) : Prop := {
  gf_bindings : numbered (rf_id rf) (rf_bindings rf);
  gf_limit : zlen (rf_bindings rf) <= Z.max 0 (max_bindings_per_function limits);
  gf_captures : zlen (rf_upvalues rf) <= Z.max 0 (max_upvalues_per_function limits);
  gf_parent : exists p, rf_parent rf = Some p /\ 0 <= p < rf_id rf;
  gf_upvalues : forall u, 0 <= u < zlen (rf_upvalues rf) ->
    exists b, den (rf_id rf) u b /\ 0 <= b_function b < rf_id rf
}.

Record inv (p : FunctionId) (Γ : env) (r : Resolver) : Prop := {
  inv_owner : owner r = e_function Γ;
  inv_parent_lt : p < owner r \/ e_outer Γ = [];
  inv_next : next_binding r = zlen (bindings r);
  inv_numbered : numbered (owner r) (bindings r);
  inv_limit : zlen (bindings r) <= Z.max 0 (max_bindings_per_function limits);
  inv_scopes : Forall2 frame_matches (scopes r) (e_scopes Γ);
  inv_in_scope : e_scopes Γ <> [];
  inv_scope_ids : NoDup (map sc_id (e_scopes Γ));
  inv_scope_range : Forall (fun sc => sc_id sc < next_scope r) (e_scopes Γ);
  inv_loops : loops r = e_loops Γ;
  inv_vararg : e_vararg Γ = if vararg_available r then Some (vararg_binding r) else None;
  inv_mode : inherited_global_mode r = e_mode Γ;
  inv_root : root_environment_binding r = Some (e_root Γ);
  inv_own : forall m, In m (e_own Γ) -> In m (bindings r);
  inv_outer : forall m, In m (e_outer Γ) ->
    0 <= b_function (bm_id m) < owner r /\ parent_metadata r !! bm_id m = Some (bm_readonly m);
  inv_metadata : forall b, is_Some (parent_metadata r !! b) -> b_function b < owner r;
  inv_visible : match parent_visible r with
    | Some visible => forall name, visible !! name = parent_view p <$> lookup_binding name (e_outer Γ)
    | None => e_outer Γ = []
    end;
  inv_upvalues : zlen (upvalues r) = zlen (upvalue_bindings r);
  inv_upvalue_limit : zlen (upvalues r) <= Z.max 0 (max_upvalues_per_function limits);
  inv_captured : forall u b, zget (upvalue_bindings r) u = Some b ->
    zget (upvalues r) u = Some (ParentLocal b) /\
    exists name m, lookup_binding name (e_outer Γ) = Some m /\ is_global_binding m = false /\ bm_id m = b
      /\ (b_function b = p \/ In (b, u) (pending_ancestor_captures r));
  inv_pending : forall u b, In (b, u) (pending_ancestor_captures r) ->
    zget (upvalue_bindings r) u = Some b /\ b_function b <> p;
  inv_upvalue_ids : forall u b, upvalue_ids r !! b = Some u <-> zget (upvalue_bindings r) u = Some b;
  inv_globals : forall name readonly b,
    select_readonly (default (None, None) (implicit_globals r !! name)) readonly = Some b ->
    exists m, In m (bindings r) /\ bm_id m = b /\ bm_kind m = BindingKind.Global /\ bm_name m = name
      /\ bm_readonly m = readonly;
  inv_functions : 0 <= owner r < next_function r;
  inv_completed : map rf_id (completed_functions r)
    = seqZ (owner r + 1) (next_function r - owner r - 1);
  inv_good : Forall (good_function (den (facts_at r))) (completed_functions r)
}.

(** Diagnostics of the source, never of the resolver's own bookkeeping, at a token. *)
Definition internal_messages : list string := [
  "upvalue 轉接來源不在父 function"; "upvalue 轉接索引不符"; "global 不可作 upvalue 轉接";
  "upvalue binding 索引不符"; "goto 目標作用域不符"; "goto binding 索引不符"
]%string.

Definition is_internal (message : string) : bool := existsb (String.eqb message) internal_messages.

Definition error_ok (d : Diagnostic) : Prop :=
  (d_code d = Lexer.Resolve \/ d_code d = CompileLimit) /\ is_internal (d_message d) = false /\
  exists t, In t (ch_tokens lexed) /\ d_span d = Lexer.span t /\ d_start d = Lexer.start t /\ d_end d = Lexer.stop t.

Context (Htokens : ch_tokens lexed <> []).

Lemma diagnostic_ok span code message :
  code = Lexer.Resolve \/ code = CompileLimit -> is_internal message = false ->
  error_ok (diagnostic_at_span lexed span code message).
Proof using Htokens.
  intros Hc Hm. unfold error_ok, diagnostic_at_span.
  destruct (find _ (ch_tokens lexed)) as [t |] eqn:Hf.
  - apply find_some in Hf as [Hin _]. cbn. split; [done |]. split; [done |]. by exists t.
  - destruct (last (ch_tokens lexed)) as [t |] eqn:Hl.
    + cbn. split; [done |]. split; [done |]. exists t. split; [| done].
      apply last_Some in Hl as [l ->]. apply in_or_app. right. by left.
    + by apply last_None in Hl.
Qed.

(** ** Computations that keep the invariant

    From a state that fits [Γ], [m] gives a state that fits some [Γ'] and a result
    with [P F a Γ'] for every [F] that has at least the facts known by then. *)
Definition runs {A} (p : FunctionId) (r : Resolver) (m : ResolveM A) (P : facts -> A -> env -> Prop) : Prop :=
  spec m r
    (fun a r' => exists Γ', inv p Γ' r' /\ extends r r' /\ forall F, facts_le (facts_at r') F -> P F a Γ')
    (fun e _ => error_ok e).

Definition yields {A} (p : FunctionId) (Γ : env) (m : ResolveM A) (P : facts -> A -> env -> Prop) : Prop :=
  forall r, inv p Γ r -> runs p r m P.

Lemma runs_ret {A} p Γ r (a : A) (P : facts -> A -> env -> Prop) :
  inv p Γ r -> (forall F, facts_le (facts_at r) F -> P F a Γ) -> runs p r (mret a) P.
Proof using Type. intros Hr HP. apply spec_ret. exists Γ. split; [done |]. split; [apply extends_here |]. auto. Qed.

(** A computation that ends in a known state. *)
Lemma runs_to {A} p Γ r r' (m : ResolveM A) (a : A) (P : facts -> A -> env -> Prop) :
  m r = (Ok a, r') -> inv p Γ r' -> extends r r' -> (forall F, facts_le (facts_at r') F -> P F a Γ) -> runs p r m P.
Proof using Type. intros Hm Hr He HP. unfold runs, spec. rewrite Hm. exists Γ. auto. Qed.

Lemma yields_ret {A} p Γ (a : A) (P : facts -> A -> env -> Prop) : (forall F, P F a Γ) -> yields p Γ (mret a) P.
Proof using Type. intros HP r Hr. by eapply runs_ret. Qed.

Lemma runs_bind {A B} p r (m : ResolveM A) (k : A -> ResolveM B) P (Q : facts -> B -> env -> Prop) :
  runs p r m P ->
  (forall a Γ' r', inv p Γ' r' -> P (facts_at r') a Γ' -> runs p r' (k a) (fun F b Γ'' => P F a Γ' -> Q F b Γ'')) ->
  runs p r (m ≫= k) Q.
Proof using Type.
  intros Hm Hk. eapply spec_seq; [by apply Hm | | done].
  intros a r1 (Γ1 & H1 & E1 & HP). eapply spec_weaken; [eapply (Hk a Γ1 r1); [done | apply HP, facts_le_refl] | | done].
  cbn beta. intros b r2 (Γ2 & H2 & E2 & HQ). exists Γ2. split; [done |]. split; [by eapply extends_then |].
  intros F HF. apply HQ; [done |]. apply HP. eapply facts_le_trans; [by apply extends_facts | done].
Qed.

Lemma yields_bind_at {A B} p Γ (m : ResolveM A) (k : A -> ResolveM B) P (Q : facts -> B -> env -> Prop) :
  yields p Γ m P ->
  (forall a Γ' r', inv p Γ' r' -> P (facts_at r') a Γ' -> runs p r' (k a) (fun F b Γ'' => P F a Γ' -> Q F b Γ'')) ->
  yields p Γ (m ≫= k) Q.
Proof using Type. intros Hm Hk r Hr. eapply runs_bind; [by apply Hm | done]. Qed.

Lemma yields_bind {A B} p Γ (m : ResolveM A) (k : A -> ResolveM B) P (Q : facts -> B -> env -> Prop) :
  yields p Γ m P ->
  (forall a Γ' F0, P F0 a Γ' -> yields p Γ' (k a) (fun F b Γ'' => P F a Γ' -> Q F b Γ'')) ->
  yields p Γ (m ≫= k) Q.
Proof using Type. intros Hm Hk. eapply yields_bind_at; [done |]. intros a Γ' r' Hr HP. by eapply Hk. Qed.

Lemma runs_weaken {A} p r (m : ResolveM A) (P Q : facts -> A -> env -> Prop) :
  runs p r m P -> (forall F a Γ', P F a Γ' -> Q F a Γ') -> runs p r m Q.
Proof using Type.
  intros Hm HPQ. eapply spec_weaken; [exact Hm | | done].
  cbn beta. intros a r' (Γ' & H1 & H2 & H3). exists Γ'. auto.
Qed.

Lemma yields_weaken {A} p Γ (m : ResolveM A) (P Q : facts -> A -> env -> Prop) :
  yields p Γ m P -> (forall F a Γ', P F a Γ' -> Q F a Γ') -> yields p Γ m Q.
Proof using Type.
  intros Hm HPQ r Hr. eapply runs_weaken; [by apply Hm | done].
Qed.

(** Steps that read the state, or leave it as it is. *)
Lemma yields_get {A} p Γ (k : Resolver -> ResolveM A) (P : facts -> A -> env -> Prop) :
  (forall r, inv p Γ r -> runs p r (k r) P) -> yields p Γ (r ← get; k r) P.
Proof using Type. intros H r Hr. apply spec_bind, spec_get. by apply H. Qed.

Lemma yields_gets {A B} p Γ (f : Resolver -> A) (k : A -> ResolveM B) (P : facts -> B -> env -> Prop) :
  (forall r, inv p Γ r -> runs p r (k (f r)) P) -> yields p Γ (a ← gets f; k a) P.
Proof using Type. intros H r Hr. apply spec_bind. unfold spec, gets. by apply H. Qed.

Lemma yields_fail {A} p Γ d (P : facts -> A -> env -> Prop) : error_ok d -> yields p Γ (fail d) P.
Proof using Type. intros Hd r Hr. by apply spec_fail. Qed.

Lemma yields_limit {A} p Γ span message (P : facts -> A -> env -> Prop) :
  is_internal message = false -> yields p Γ (limit lexed span message) P.
Proof using Htokens. intros Hm. apply yields_fail, diagnostic_ok; auto. Qed.

Lemma yields_error {A} p Γ span message (P : facts -> A -> env -> Prop) :
  is_internal message = false -> yields p Γ (resolve_error lexed span message) P.
Proof using Htokens. intros Hm. apply yields_fail, diagnostic_ok; auto. Qed.

(** A step without a result that does not change the environment. *)
Definition keeps (Γ : env) (F : facts) (_ : unit) (Γ' : env) : Prop := Γ' = Γ.

Lemma yields_reserve p Γ n span message :
  is_internal message = false -> yields p Γ (reserve lexed n span message) (keeps Γ).
Proof using Htokens.
  intros Hm. unfold reserve. destruct (try_reserve n); [by apply yields_ret | by apply yields_limit].
Qed.

Lemma yields_ensure_list p Γ n span : yields p Γ (ensure_list lexed limits n span) (keeps Γ).
Proof using Htokens.
  unfold ensure_list. destruct (_ <? _); [by apply yields_limit | by apply yields_ret].
Qed.

Lemma yields_ensure_binding_capacity p Γ n span :
  yields p Γ (ensure_binding_capacity lexed limits n span) (keeps Γ).
Proof using Htokens.
  unfold ensure_binding_capacity. apply yields_get. intros r Hr.
  destruct (_ <? _); [by eapply yields_limit | by eapply yields_ret].
Qed.
End State.
