(* ===== verification/ResolveNames.v ===== *)
(** The operations of the resolver on names and bindings, against environments. *)

From Stdlib Require Import ZArith Lia.
From stdpp Require Import base list gmap numbers strings.
From S2P Require Import Prelude Float Number Lexer Ast Parser Resolve ResolveSpec ResolveState.

Local Open Scope Z_scope.

(** ** Tables of bindings *)

Lemma zget_In {A} (l : list A) i x : zget l i = Some x -> In x l.
Proof. intros [_ H]%zget_Some. apply list_elem_of_In. by eapply list_elem_of_lookup_2. Qed.

Lemma In_zget {A} (l : list A) x : In x l -> exists i, zget l i = Some x.
Proof.
  intros H. apply list_elem_of_In, list_elem_of_lookup in H as [i Hi]. exists (Z.of_nat i).
  apply zget_Some. split; [lia |]. by rewrite Nat2Z.id.
Qed.

Lemma zlen_snoc {A} (l : list A) x : zlen (l ++ [x]) = zlen l + 1.
Proof. unfold zlen. rewrite length_app. cbn. lia. Qed.

Lemma zget_snoc {A} (l : list A) x i y :
  zget (l ++ [x]) i = Some y <-> zget l i = Some y \/ (i = zlen l /\ y = x).
Proof.
  split.
  - intros H. pose proof (zget_lt _ _ _ H) as Hl. rewrite zlen_snoc in Hl.
    destruct (decide (i = zlen l)) as [-> |].
    + rewrite zget_app_mid in H. right. by injection H as <-.
    + left. rewrite zget_app_l in H by lia. done.
  - intros [H | [-> ->]]; [| apply zget_app_mid].
    rewrite zget_app_l; [done |]. apply zget_lt in H. lia.
Qed.

Lemma numbered_snoc o bs m :
  numbered o bs -> bm_id m = {| b_function := o; b_ordinal := zlen bs |} -> bm_owner m = o ->
  numbered o (bs ++ [m]).
Proof. intros Hn Hi Ho k m' [H | [-> ->]]%zget_snoc; [by apply Hn | done]. Qed.

Lemma numbered_inj o bs m m' : numbered o bs -> In m bs -> In m' bs -> bm_id m = bm_id m' -> m = m'.
Proof.
  intros Hn [i Hi]%In_zget [j Hj]%In_zget He. destruct (Hn _ _ Hi) as [H1 _], (Hn _ _ Hj) as [H2 _].
  assert (i = j) as -> by congruence. congruence.
Qed.

Lemma numbered_function o bs m : numbered o bs -> In m bs -> b_function (bm_id m) = o.
Proof. intros Hn [i Hi]%In_zget. by destruct (Hn _ _ Hi) as [-> _]. Qed.

Lemma numbered_ordinal o bs m : numbered o bs -> In m bs -> 0 <= b_ordinal (bm_id m) < zlen bs.
Proof. intros Hn [i Hi]%In_zget. destruct (Hn _ _ Hi) as [-> _]. by apply zget_lt in Hi. Qed.

Lemma find_unique {A} (f : A -> bool) l x :
  In x l -> f x = true -> (forall y, In y l -> f y = true -> y = x) -> find f l = Some x.
Proof.
  intros Hin Hx Hu. destruct (find f l) as [y |] eqn:Hf.
  - apply find_some in Hf as [Hy Hfy]. by rewrite (Hu y Hy Hfy).
  - by rewrite (find_none _ _ Hf _ Hin) in Hx.
Qed.

Lemma find_app {A} (f : A -> bool) l k :
  find f (l ++ k) = match find f l with Some x => Some x | None => find f k end.
Proof. induction l as [| x l IH]; cbn [app find]; [done |]. by destruct (f x). Qed.

Lemma lookup_binding_In name l m : lookup_binding name l = Some m -> In m l /\ is_named name m = true.
Proof. apply find_some. Qed.

Lemma is_named_name name m : is_named name m = true -> bm_name m = name /\ bm_kind m <> BindingKind.GenericForClose.
Proof. unfold is_named. intros [H1 H2]%andb_prop. by apply bool_decide_eq_true in H1, H2. Qed.

Section Names.
Context (lexed : LexedChunk) (limits : CompileLimits) (profile : LuaProfile) {alloc : Reserver}.
Context (Htokens : ch_tokens lexed <> []).
Abbreviation inv := (inv limits).
Abbreviation yields := (yields lexed limits).
Abbreviation runs := (runs lexed limits).

(** ** Reading the state *)

Section Reading.
Context (p : FunctionId) (Γ : env) (r : Resolver) (Hr : inv p Γ r).

Lemma find_meta_known m : In m (bindings r) -> find_meta r (bm_id m) = Some m.
Proof using Hr.
  intros Hm. apply find_unique; [done | by apply bool_decide_eq_true |].
  intros y Hy Hid%bool_decide_eq_true. eapply numbered_inj; [apply Hr | done | done | done].
Qed.

Lemma is_global_known m : In m (bindings r) -> is_global r (bm_id m) = is_global_binding m.
Proof using Hr.
  intros Hm. unfold is_global, binding_kind, is_global_binding. rewrite (find_meta_known m Hm). cbn.
  apply bool_decide_ext. split; [by intros [= ->] | by intros ->].
Qed.

Lemma find_meta_outer m : In m (e_outer Γ) -> find_meta r (bm_id m) = None.
Proof using Hr.
  intros Hm. destruct (inv_outer _ _ _ _ Hr m Hm) as [Hlt _]. unfold find_meta.
  destruct (find _ _) as [m' |] eqn:Hf; [| done]. apply find_some in Hf as [Hin Hid%bool_decide_eq_true].
  apply (numbered_function _ _ _ (inv_numbered _ _ _ _ Hr)) in Hin. rewrite Hid in Hin. lia.
Qed.

Lemma readonly_visible m : In m (e_visible Γ) -> binding_readonly r (bm_id m) = Some (bm_readonly m).
Proof using Hr.
  intros [Hm | Hm]%in_app_or; unfold binding_readonly.
  - by rewrite find_meta_known by (by apply (inv_own _ _ _ _ Hr)).
  - rewrite (find_meta_outer m Hm). by apply (inv_outer _ _ _ _ Hr).
Qed.

Lemma own_binding_spec name : own_binding r name = bm_id <$> lookup_binding name (e_own Γ).
Proof using Hr.
  unfold own_binding, e_own. pose proof (inv_scopes _ _ _ _ Hr) as Hf. clear Hr.
  induction Hf as [| f sc l k Hm _ IH]; [done |]. cbn [find_scope map concat].
  rewrite (fm_bindings _ _ Hm). unfold lookup_binding in *. rewrite find_app.
  by destruct (find _ (sc_bindings sc)).
Qed.

Lemma parent_binding_spec name :
  parent_binding r name = parent_view p <$> lookup_binding name (e_outer Γ).
Proof using Hr.
  unfold parent_binding. pose proof (inv_visible _ _ _ _ Hr) as Hv.
  destruct (parent_visible r) as [visible |]; [apply Hv | by rewrite Hv].
Qed.

Lemma own_binding_global m : In m (e_own Γ) -> is_global r (bm_id m) = is_global_binding m.
Proof using Hr. intros Hm. by apply is_global_known, (inv_own _ _ _ _ Hr). Qed.

(** What a name is for the code, and for the environment. *)
Lemma look_own name m : look Γ name = Some (true, m) -> own_binding r name = Some (bm_id m) /\ In m (e_own Γ).
Proof using Hr.
  unfold look. rewrite own_binding_spec. destruct (lookup_binding name (e_own Γ)) as [m' |] eqn:Hl.
  - intros [= ->]. apply lookup_binding_In in Hl as [Hin _]. done.
  - by destruct (lookup_binding name (e_outer Γ)).
Qed.

Lemma look_outer name m : look Γ name = Some (false, m) ->
  own_binding r name = None /\ parent_binding r name = Some (parent_view p m)
  /\ lookup_binding name (e_outer Γ) = Some m /\ In m (e_outer Γ).
Proof using Hr.
  unfold look. rewrite own_binding_spec, parent_binding_spec.
  destruct (lookup_binding name (e_own Γ)) as [m' |] eqn:Hl; [done |].
  destruct (lookup_binding name (e_outer Γ)) as [m' |] eqn:Ho; [| done]. intros [= ->].
  apply lookup_binding_In in Ho as [Hin _]. done.
Qed.

Lemma look_none name : look Γ name = None -> own_binding r name = None /\ parent_binding r name = None.
Proof using Hr.
  unfold look. rewrite own_binding_spec, parent_binding_spec.
  destruct (lookup_binding name (e_own Γ)); [done |]. by destruct (lookup_binding name (e_outer Γ)).
Qed.

(** The mode of global names. *)
Lemma scope_mode_spec l k named : Forall2 frame_matches l k ->
  scope_mode l named =
    match find is_wildcard (map sc_mode k) with
    | Some mode => (mode, (scope_mode l named).2)
    | None => (None, named || existsb (fun sc => if sc_mode sc is Some _ then true else false) k)
    end.
Proof using Type.
  intros Hf. revert named. induction Hf as [| f sc l k Hm _ IH]; intros named; cbn [scope_mode map find existsb].
  { by rewrite orb_false_r. }
  rewrite (fm_mode _ _ Hm). destruct (sc_mode sc) as [[| readonly] |]; cbn [is_wildcard]; [| done |].
  - rewrite (IH true). destruct (find is_wildcard (map sc_mode k)); [done |]. cbn. by rewrite orb_true_r.
  - rewrite (IH named). by destruct (find is_wildcard (map sc_mode k)).
Qed.

Lemma effective_global_mode_spec : effective_global_mode r = global_mode Γ.
Proof using Hr.
  unfold effective_global_mode, global_mode.
  rewrite (scope_mode_spec _ _ false (inv_scopes _ _ _ _ Hr)), (inv_mode _ _ _ _ Hr).
  destruct (find is_wildcard (map sc_mode (e_scopes Γ))) as [mode |] eqn:Hf; [| done].
  apply find_some in Hf as [_ Hw]. by destruct mode as [[] |].
Qed.

End Reading.

(** ** Captures *)

Lemma good_mono (d d' : FunctionId -> UpvalueId -> BindingId -> Prop) rf :
  (forall f u b, d f u b -> d' f u b) -> good_function limits d rf -> good_function limits d' rf.
Proof using Type.
  intros Hd [H1 H2 H3 H4 H5]. split; [done | done | done | done |].
  intros u Hu. destruct (H5 u Hu) as (b & Hb & Hf). exists b. auto.
Qed.

Lemma good_extends r r' : extends r r' -> Forall (good_function limits (den (facts_at r))) (completed_functions r) ->
  Forall (good_function limits (den (facts_at r'))) (completed_functions r).
Proof using Type.
  intros He Hg. eapply Forall_impl; [done |]. intros rf. apply good_mono. intros f u b.
  apply (proj1 (extends_facts _ _ He)).
Qed.

(** A variable of the functions around, and from which of them it is taken. *)
Definition outer_variable (Γ : env) (b : BindingId) : Prop :=
  exists name m, lookup_binding name (e_outer Γ) = Some m /\ is_global_binding m = false /\ bm_id m = b.

Definition capture (r : Resolver) (b : BindingId) (pending : bool) : Resolver :=
  with_pending
    (with_upvalues r (upvalues r ++ [ParentLocal b]) (upvalue_bindings r ++ [b])
       (<[b := zlen (upvalues r)]> (upvalue_ids r)))
    (if pending then pending_ancestor_captures r ++ [(b, zlen (upvalues r))] else pending_ancestor_captures r).

Lemma capture_extends r b pending : extends r (capture r b pending).
Proof using Type. split; cbn; [done | done | by apply prefix_app_r | done]. Qed.

Lemma inv_capture p Γ r b (pending : bool) :
  inv p Γ r -> upvalue_ids r !! b = None -> zlen (upvalues r) < max_upvalues_per_function limits ->
  outer_variable Γ b -> (if pending then b_function b <> p else b_function b = p) ->
  inv p Γ (capture r b pending).
Proof using Type.
  intros Hr Hnone Hlt (name & m & Hl & Hg & Hid) Hp. pose proof (capture_extends r b pending) as He.
  destruct Hr. split; try done; cbn.
  - rewrite !zlen_snoc. lia.
  - rewrite zlen_snoc. lia.
  - intros u b' [Hu | [-> ->]]%zget_snoc.
    + destruct (inv_captured u b' Hu) as (Hs & name' & m' & Hl' & Hg' & Hid' & Hor).
      split; [apply zget_snoc; by left |]. exists name', m'. split_and!; [done | done | done |].
      destruct Hor as [| Hin]; [by left | right]. destruct pending; [apply in_or_app; by left | done].
    + split; [apply zget_snoc; right; by rewrite inv_upvalues |].
      exists name, m. split_and!; [done | done | done |]. destruct pending; [right | by left].
      rewrite inv_upvalues. apply in_or_app. right. by left.
  - intros u b' Hin. destruct pending.
    + apply in_app_or in Hin as [Hin | [[= <- <-] | []]].
      * destruct (inv_pending u b' Hin). split; [apply zget_snoc; by left | done].
      * split; [| done]. apply zget_snoc. right. by rewrite inv_upvalues.
    + destruct (inv_pending u b' Hin). split; [apply zget_snoc; by left | done].
  - intros u b'. rewrite zget_snoc. destruct (decide (b' = b)) as [-> |].
    + rewrite lookup_insert_eq. split.
      * intros [= <-]. right. by rewrite inv_upvalues.
      * intros [Hu | [-> _]]; [| by rewrite inv_upvalues].
        pose proof (proj2 (inv_upvalue_ids u b) Hu). congruence.
    + rewrite lookup_insert_ne by done. rewrite inv_upvalue_ids. split; [by left |].
      by intros [| [_ ->]].
  - exact (good_extends r _ He inv_good).
Qed.

Definition captures (Γ : env) (b : BindingId) (F : facts) (u : UpvalueId) (Γ' : env) : Prop :=
  Γ' = Γ /\ den F (e_function Γ) u b.

Lemma captured_already p Γ r b u F :
  inv p Γ r -> upvalue_ids r !! b = Some u -> facts_le (facts_at r) F -> den F (e_function Γ) u b.
Proof using Type.
  intros Hr Hu HF. apply HF. rewrite <- (inv_owner _ _ _ _ Hr). apply chain_open. by apply (inv_upvalue_ids _ _ _ _ Hr).
Qed.

Lemma captured_now p Γ r b pending F :
  inv p Γ r -> inv p Γ (capture r b pending) -> facts_le (facts_at (capture r b pending)) F ->
  den F (e_function Γ) (zlen (upvalues r)) b.
Proof using Type.
  intros Hr Hc HF. eapply captured_already; [exact Hc | | done]. cbn. by rewrite lookup_insert_eq.
Qed.

Definition b_captured (r : Resolver) (b : BindingId) : Resolver :=
  with_upvalues r (upvalues r ++ [ParentLocal b]) (upvalue_bindings r ++ [b])
    (<[b := zlen (upvalues r)]> (upvalue_ids r)).
Lemma b_captured_eq r b : b_captured r b = capture r b false.
Proof using Type. by destruct r. Qed.

Lemma yields_capture_parent_local p Γ b span :
  outer_variable Γ b -> b_function b = p ->
  yields p Γ (capture_parent_local lexed limits b span) (captures Γ b).
Proof using Htokens.
  intros Ho Hp. unfold capture_parent_local, reserve_upvalue. apply yields_get. intros r Hr.
  destruct (upvalue_ids r !! b) as [u |] eqn:Hu.
  { apply spec_ret. exists Γ. split; [done |]. split; [apply extends_here |]. intros F HF.
    split; [done | by eapply captured_already]. }
  destruct (Z.leb_spec (max_upvalues_per_function limits) (zlen (upvalues r))).
  { by apply (yields_limit lexed limits Htokens p Γ). }
  destruct (_ <? _); [by apply (yields_limit lexed limits Htokens p Γ) |].
  apply spec_bind, spec_put, spec_ret. fold (b_captured r b). rewrite b_captured_eq.
  assert (inv p Γ (capture r b false)) by (apply inv_capture; auto).
  exists Γ. split; [done |]. split; [apply capture_extends |]. intros F HF. split; [done |].
  by eapply captured_now.
Qed.

Lemma yields_capture_ancestor p Γ b span :
  outer_variable Γ b -> b_function b <> p -> yields p Γ (capture_ancestor lexed limits b span) (captures Γ b).
Proof using Htokens.
  intros Ho Hp. unfold capture_ancestor, reserve_upvalue. apply yields_get. intros r Hr.
  destruct (upvalue_ids r !! b) as [u |] eqn:Hu.
  { apply spec_ret. exists Γ. split; [done |]. split; [apply extends_here |]. intros F HF.
    split; [done | by eapply captured_already]. }
  apply spec_bind, spec_bind, spec_get. rewrite Hu.
  destruct (Z.leb_spec (max_upvalues_per_function limits) (zlen (upvalues r))).
  { apply spec_fail, diagnostic_ok; auto. }
  destruct (_ <? _); [apply spec_fail, diagnostic_ok; auto |].
  apply spec_bind, spec_put, spec_ret, spec_bind, spec_ret. cbn beta.
  assert (inv p Γ (capture r b true)) by (by apply inv_capture).
  exists Γ. split; [done |]. split; [apply (capture_extends r b true) |]. intros F HF. split; [done |].
  by eapply (captured_now _ _ _ b true).
Qed.

(** ** Looking names up *)

Definition looked (Γ : env) (name : list Z) (F : facts) (res : option ResolvedName) (Γ' : env) : Prop :=
  Γ' = Γ /\
  match look Γ name with
  | Some (own, m) =>
      if is_global_binding m then res = Some (RGlobal (bm_id m))
      else exists n, res = Some n /\ refers F Γ own m n
  | None => res = None
  end.

Lemma yields_lookup p Γ name span : yields p Γ (lookup lexed limits name span) (looked Γ name).
Proof using Htokens.
  apply yields_get. intros r Hr. destruct (look Γ name) as [[[] m] |] eqn:Hl.
  - destruct (look_own p Γ r Hr name m Hl) as [-> Hin]. rewrite (own_binding_global p Γ r Hr m Hin).
    eapply runs_ret; [done |]. intros F _. split; [done |]. rewrite Hl.
    destruct (is_global_binding m); [done |]. eexists. split; [done | constructor].
  - destruct (look_outer p Γ r Hr name m Hl) as (-> & -> & Ho & Hin). unfold parent_view.
    destruct (is_global_binding m) eqn:Hg.
    { eapply runs_ret; [done |]. intros F _. split; [done |]. by rewrite Hl, Hg. }
    assert (Hv : outer_variable Γ (bm_id m)) by (by exists name, m).
    assert (Hend : forall u Γ' r', inv p Γ' r' -> captures Γ (bm_id m) (facts_at r') u Γ' ->
      runs p r' (mret (Some (RUpvalue u))) (fun F b Γ'' => captures Γ (bm_id m) F u Γ' -> looked Γ name F b Γ'')).
    { intros u Γ' r' Hr' [-> _]. eapply runs_ret; [done |]. intros F _ [_ Hd]. split; [done |].
      rewrite Hl, Hg. eexists. split; [done | by constructor]. }
    case_bool_decide.
    + eapply runs_bind; [by eapply yields_capture_parent_local | exact Hend].
    + eapply runs_bind; [by eapply yields_capture_ancestor | exact Hend].
  - destruct (look_none p Γ r Hr name Hl) as [-> ->]. eapply runs_ret; [done |]. intros F _. split; [done |].
    by rewrite Hl.
Qed.

(** An upvalue of this function stands for the binding that it captured. *)
Lemma own_upvalue p Γ r u b : inv p Γ r -> den (facts_at r) (e_function Γ) u b -> zget (upvalue_bindings r) u = Some b.
Proof using Type.
  intros Hr. rewrite <- (inv_owner _ _ _ _ Hr). cbn. intros Hd.
  assert (Hno : forall rf, In rf (completed_functions r) -> rf_id rf <> owner r).
  { intros rf Hin%(in_map rf_id) He. rewrite (inv_completed _ _ _ _ Hr) in Hin.
    apply list_elem_of_In, elem_of_seqZ in Hin. lia. }
  remember (owner r) as o eqn:Ho in Hd at 2. destruct Hd as [| rf u b Hin | rf p' u v b Hin]; [done | |];
    by destruct (Hno _ Hin).
Qed.

Lemma upvalue_binding_eq p Γ r u b span : inv p Γ r -> den (facts_at r) (e_function Γ) u b ->
  upvalue_binding lexed u span r = (Ok b, r).
Proof using Type.
  intros Hr Hd. unfold upvalue_binding, mbind, st_bind, get. by rewrite (own_upvalue p Γ r u b Hr Hd).
Qed.

Lemma runs_upvalue_binding p Γ r u b span : inv p Γ r -> den (facts_at r) (e_function Γ) u b ->
  runs p r (upvalue_binding lexed u span) (fun F b' Γ' => Γ' = Γ /\ b' = b).
Proof using Type.
  intros Hr Hd. unfold upvalue_binding. apply spec_bind, spec_get.
  rewrite (own_upvalue p Γ r u b Hr Hd). by eapply runs_ret.
Qed.

(** [_ENV], as the code takes it from a lookup: the binding, captured if it is not own. *)
Definition env_found (Γ : env) (found : option (bool * BindingMeta)) (F : facts) (res : option BindingId) (Γ' : env) : Prop :=
  Γ' = Γ /\
  match found with
  | Some (own, e) => res = Some (bm_id e) /\ reachable F Γ own e
  | None => res = None
  end.

Definition take_env {A} (span : Span) (found : option ResolvedName) (k : option BindingId -> ResolveM A) : ResolveM A :=
  match found with
  | Some (RLocal env) => k (Some env)
  | Some (RUpvalue upvalue) => env ← upvalue_binding lexed upvalue span; k (Some env)
  | _ => k None
  end.

Lemma runs_take_env {A} p Γ r span own e found (k : option BindingId -> ResolveM A) (Q : facts -> A -> env -> Prop) :
  inv p Γ r -> look Γ env_name = Some (own, e) -> is_global_binding e = false ->
  looked Γ env_name (facts_at r) found Γ ->
  (forall r', inv p Γ r' -> runs p r' (k (Some (bm_id e))) (fun F a Γ' => reachable F Γ own e -> Q F a Γ')) ->
  runs p r (take_env span found k) (fun F a Γ' => looked Γ env_name F found Γ -> Q F a Γ').
Proof using Type.
  intros Hr Hl Hg [_ Hf] Hk. rewrite Hl, Hg in Hf. destruct Hf as (n & -> & Href).
  assert (Hweak : forall F a Γ', (reachable F Γ own e -> Q F a Γ') -> looked Γ env_name F (Some n) Γ -> Q F a Γ').
  { intros F a Γ' HQ [_ Hf]. rewrite Hl, Hg in Hf. destruct Hf as (n' & [= <-] & Href').
    apply HQ. destruct Href' as [| m u Hd]; [by left | right; by exists u]. }
  destruct Href as [m | m u Hd]; cbn [take_env].
  - eapply runs_weaken; [by apply Hk | done].
  - eapply runs_bind; [by eapply runs_upvalue_binding |]. intros b Γ' r' Hr' [-> ->].
    eapply runs_weaken; [by eapply Hk |]. auto.
Qed.

Lemma yields_environment_shadow p Γ span :
  yields p Γ (lexical_environment_shadow lexed limits span) (env_found Γ (env_shadow Γ)).
Proof using Htokens.
  apply yields_get. intros r Hr.
  set (origin := match own_binding r env_name with Some _ => _ | None => _ end).
  assert (Ho : origin = match look Γ env_name with
                        | Some (_, m) => if is_global_binding m then None else Some (bm_id m)
                        | None => None
                        end).
  { unfold origin. destruct (look Γ env_name) as [[[] m] |] eqn:Hl.
    - destruct (look_own p Γ r Hr env_name m Hl) as [-> Hin]. by rewrite (own_binding_global p Γ r Hr m Hin).
    - destruct (look_outer p Γ r Hr env_name m Hl) as (-> & -> & _). unfold parent_view.
      destruct (is_global_binding m); [done |]. by case_bool_decide.
    - by destruct (look_none p Γ r Hr env_name Hl) as [-> ->]. }
  rewrite (inv_root _ _ _ _ Hr), Ho. unfold env_shadow. clear origin Ho.
  destruct (look Γ env_name) as [[own m] |] eqn:Hl; [| by eapply runs_ret].
  destruct (is_global_binding m) eqn:Hg; cbn [orb]; [by eapply runs_ret |].
  rewrite (bool_decide_false (Some (bm_id m) = None)) by done. cbn [orb].
  destruct (decide (bm_id m = e_root Γ)) as [-> |].
  { rewrite !bool_decide_true by done. by eapply runs_ret. }
  rewrite !bool_decide_false by congruence.
  eapply runs_bind; [by apply yields_lookup |]. intros found Γ' r' Hr' Hf. assert (Γ' = Γ) as -> by apply Hf.
  eapply (runs_take_env p Γ r' span own m found mret); [done | done | done | done |].
  intros r1 H1. by eapply runs_ret.
Qed.

Lemma looked_same Γ name F res Γ' : looked Γ name F res Γ' -> Γ = Γ'.
Proof using Type. by intros [-> _]. Qed.

(** ** New bindings *)

Definition added (r : Resolver) (m : BindingMeta) : Resolver :=
  with_bindings r (next_binding r + 1) (bindings r ++ [m]).

Lemma added_extends r m : extends r (added r m).
Proof using Type. split; cbn; [done | by apply prefix_app_r | done | done]. Qed.

Lemma inv_added p Γ r m :
  inv p Γ r -> bm_id m = {| b_function := owner r; b_ordinal := zlen (bindings r) |} -> bm_owner m = owner r ->
  zlen (bindings r) < max_bindings_per_function limits -> inv p Γ (added r m).
Proof using Type.
  intros Hr Hid Ho Hlt. destruct Hr. split; try done; cbn.
  - rewrite zlen_snoc. lia.
  - by apply numbered_snoc.
  - rewrite zlen_snoc. lia.
  - intros m' Hm. apply in_or_app. left. by apply inv_own.
  - intros name readonly b Hb. destruct (inv_globals name readonly b Hb) as (m' & Hin & Hm').
    exists m'. split; [apply in_or_app; by left | done].
Qed.

Lemma allocate_spec p Γ r name span attribute kind readonly close_marker depth :
  inv p Γ r ->
  spec (allocate_binding lexed limits name span attribute kind readonly close_marker depth) r
    (fun id r' => exists m,
       m = {| bm_id := {| b_function := owner r; b_ordinal := zlen (bindings r) |}; bm_name := name; bm_span := span;
              bm_kind := kind; bm_owner := owner r; bm_scope_depth := depth; bm_readonly := readonly;
              bm_attribute := attribute; bm_close_marker := close_marker |}
       /\ id = bm_id m /\ r' = added r m /\ zlen (bindings r) < max_bindings_per_function limits)
    (fun e _ => error_ok lexed e).
Proof using Htokens.
  intros Hr. unfold allocate_binding. apply spec_bind, spec_get.
  destruct (Z.leb_spec (max_bindings_per_function limits) (zlen (bindings r)));
    [apply spec_fail, diagnostic_ok; auto |].
  destruct (_ <? _); [apply spec_fail, diagnostic_ok; auto |].
  apply spec_bind, spec_put, spec_ret. unfold added. rewrite (inv_next _ _ _ _ Hr). eauto 10.
Qed.

Lemma known_added r m : known (facts_at (added r m)) m.
Proof using Type. left. cbn. apply in_or_app. right. by left. Qed.

Definition implicit_global (Γ : env) (name : list Z) (readonly : bool) (F : facts) (b : BindingId) (Γ' : env) : Prop :=
  Γ' = Γ /\ exists m, b = bm_id m /\ known F m /\ bm_kind m = BindingKind.Global /\ bm_name m = name
    /\ bm_readonly m = readonly /\ b_function (bm_id m) = e_function Γ.

Lemma yields_declare_implicit_global p Γ name span readonly :
  yields p Γ (declare_implicit_global lexed limits name span readonly) (implicit_global Γ name readonly).
Proof using Htokens.
  apply yields_get. intros r Hr.
  destruct (select_readonly _ readonly) as [b |] eqn:Hk.
  { destruct (inv_globals _ _ _ _ Hr name readonly b Hk) as (m & Hin & <- & H1 & H2 & H3).
    eapply runs_ret; [done |]. intros F HF. split; [done |]. exists m. split_and!; try done.
    - apply HF. by left.
    - rewrite (numbered_function _ _ m (inv_numbered _ _ _ _ Hr) Hin). by apply Hr. }
  eapply spec_seq; [by apply (allocate_spec p Γ) | | done]. intros id r1 (m & Hm & -> & -> & Hlt).
  assert (H1 : inv p Γ (added r m)) by (apply inv_added; subst m; done).
  apply spec_bind. unfold modify at 1, spec at 1. apply spec_ret. exists Γ. split_and!.
  - destruct H1. split; try done; cbn. intros name' readonly' b. destruct (decide (name' = name)) as [-> |].
    + rewrite lookup_insert_eq. cbn. destruct (decide (readonly' = readonly)) as [-> |].
      * intros Hb. exists m. split; [apply in_or_app; right; by left |].
        subst m. destruct readonly; cbn in *; by injection Hb as <-.
      * intros Hb. apply inv_globals. by destruct readonly, readonly'.
    + rewrite lookup_insert_ne by done. apply inv_globals.
  - destruct (added_extends r m). by split.
  - intros F HF. split; [done |]. exists m. split_and!; try (by subst m).
    + apply HF, known_added.
    + subst m. apply Hr.
Qed.
(** ** Resolving a name *)

Definition free_name (Γ : env) (name : list Z) (F : facts) (res : option ResolvedName) (Γ' : env) : Prop :=
  Γ' = Γ /\ match res with Some n => scoped_name profile F Γ name n | None => True end.

Lemma yields_resolve_free_name p Γ name span : look Γ name = None ->
  yields p Γ (resolve_free_name lexed limits profile name span) (free_name Γ name).
Proof using Htokens.
  intros Hl. unfold resolve_free_name. case_bool_decide as He; [by apply yields_ret |].
  destruct (global_declarations (rules profile)) eqn:Hg.
  - apply yields_gets. intros r Hr. rewrite (effective_global_mode_spec p Γ r Hr).
    assert (Hsome : global_mode Γ <> Some NamedOnly ->
      runs p r (shadow ← lexical_environment_shadow lexed limits span;
                match shadow with
                | Some env => mret (Some (REnvField env name))
                | None => b ← declare_implicit_global lexed limits name span (is_readonly_wildcard (global_mode Γ));
                          mret (Some (RGlobal b))
                end) (free_name Γ name)).
    { intros Hm. assert (Hfree : free_global profile Γ name) by done.
      eapply runs_bind; [by apply yields_environment_shadow |]. intros shadow Γ' r' Hr' [-> Hs].
      destruct (env_shadow Γ) as [[own e] |] eqn:Hsh.
      - destruct Hs as [-> _]. eapply runs_ret; [done |]. intros F _ [_ Hs']. split; [done |].
        destruct Hs' as [_ Hreach]. by eapply name_free_field.
      - subst shadow. eapply runs_bind; [by apply yields_declare_implicit_global |].
        intros b Γ' r1 H1 [-> _]. eapply runs_ret; [done |]. intros F _ (_ & m & -> & H2) _. split; [done |].
        destruct H2 as (? & ? & ? & ? & ?). by apply name_implicit. }
    destruct (global_mode Γ) as [[| readonly] |] eqn:Hm; [by eapply runs_ret | by apply Hsome | by apply Hsome].
  - eapply yields_bind_at; [by apply yields_lookup |]. intros found Γ' r Hr Hf. destruct (looked_same _ _ _ _ _ Hf).
    destruct (look Γ env_name) as [[own e] |] eqn:Hle.
    + destruct (is_global_binding e) eqn:Hge.
      { destruct Hf as [_ Hf]. rewrite Hle, Hge in Hf. subst found. by eapply runs_ret. }
      eapply (runs_take_env p Γ r span own e found (fun o => mret (option_map (fun env => REnvField env name) o)));
        [done | done | done | done |].
      intros r1 H1. eapply runs_ret; [done |]. intros F _ Hreach. split; [done |]. by eapply name_field.
    + destruct Hf as [_ Hf]. rewrite Hle in Hf. subst found. by eapply runs_ret.
Qed.

Definition named (Γ : env) (name : list Z) (span : Span) (F : facts) (e : ResolvedExpr) (Γ' : env) : Prop :=
  Γ' = Γ /\ exists n, e = RExpr_Name name n span /\ scoped_name profile F Γ name n.

Lemma yields_resolve_name p Γ name span :
  yields p Γ (resolve_name lexed limits profile name span) (named Γ name span).
Proof using Htokens.
  unfold resolve_name. eapply yields_bind_at; [by apply yields_lookup |].
  intros found Γ' r Hr Hf. destruct (looked_same _ _ _ _ _ Hf).
  eapply runs_bind with (P := fun F res Γ1 => Γ1 = Γ /\ (looked Γ name F found Γ ->
      match res with Some n => scoped_name profile F Γ name n | None => True end)).
  - destruct (look Γ name) as [[own m] |] eqn:Hl.
    + destruct (is_global_binding m) eqn:Hg.
      * destruct Hf as [_ Hf]. rewrite Hl, Hg in Hf. subst found.
        destruct (global_declarations (rules profile)) eqn:Hd.
        -- eapply runs_bind; [by apply yields_environment_shadow |]. intros shadow Γ1 r' Hr' [-> Hs].
           eapply runs_ret; [done |]. intros F _ [_ Hs']. split; [done |]. intros _.
           destruct (env_shadow Γ) as [[own' e] |] eqn:Hsh.
           ++ destruct Hs' as [-> Hreach]. by eapply name_global_field.
           ++ subst shadow. by eapply name_global.
        -- eapply runs_ret; [done |]. intros F _. split; [done |]. intros _. eapply name_global; [done | done |]. congruence.
      * assert (exists n, found = Some n /\ forall b, n <> RGlobal b) as (n & -> & Hn).
        { destruct Hf as [_ Hf]. rewrite Hl, Hg in Hf. destruct Hf as (n & -> & Href). exists n. split; [done |].
          by destruct Href. }
        assert (Hend : runs p r (mret (Some n)) (fun F res Γ1 => Γ1 = Γ /\ (looked Γ name F (Some n) Γ ->
            match res with Some n => scoped_name profile F Γ name n | None => True end))).
        { eapply runs_ret; [done |]. intros F _. split; [done |]. intros [_ Hf'].
          rewrite Hl, Hg in Hf'. destruct Hf' as (n' & [= <-] & Href). by eapply name_variable. }
        destruct n; [exact Hend | exact Hend | exact Hend | by destruct (Hn b)].
    + destruct Hf as [_ Hf]. rewrite Hl in Hf. subst found.
      eapply runs_weaken; [by apply (yields_resolve_free_name p Γ name span Hl) |]. by intros F res Γ1 [-> H].
  - intros res Γ1 r' Hr' [-> _]. destruct res as [n |].
    + eapply runs_ret; [done |]. intros F _ [_ H] Hf'. split; [done |]. exists n. auto.
    + by apply (yields_error lexed limits Htokens p Γ).
Qed.

(** ** Assigning to a name *)

Lemma known_own p Γ r m : inv p Γ r -> known (facts_at r) m -> b_function (bm_id m) = e_function Γ -> In m (bindings r).
Proof using Type.
  intros Hr [Hin | (rf & Hrf & Hin)] Hf; [done | exfalso].
  pose proof (proj1 (List.Forall_forall _ _) (inv_good _ _ _ _ Hr) rf Hrf) as Hg.
  apply (numbered_function _ _ _ (gf_bindings _ _ _ Hg)) in Hin.
  apply (in_map rf_id) in Hrf. rewrite (inv_completed _ _ _ _ Hr) in Hrf.
  apply list_elem_of_In, elem_of_seqZ in Hrf. pose proof (inv_owner _ _ _ _ Hr). lia.
Qed.

Lemma named_global_spec p Γ r name : inv p Γ r ->
  visible_named_global r name =
    match look Γ name with Some (_, m) => if is_global_binding m then Some (bm_id m) else visible_named_global r name | None => None end.
Proof using Type.
  intros Hr. unfold visible_named_global. destruct (look Γ name) as [[[] m] |] eqn:Hl.
  - destruct (look_own p Γ r Hr name m Hl) as [-> Hin]. rewrite (own_binding_global p Γ r Hr m Hin).
    by destruct (is_global_binding m).
  - destruct (look_outer p Γ r Hr name m Hl) as (-> & -> & _). unfold parent_view. by destruct (is_global_binding m).
  - by destruct (look_none p Γ r Hr name Hl) as [-> ->].
Qed.

Definition assignable (Γ : env) (name : list Z) (F : facts) (_ : unit) (Γ' : env) : Prop := Γ' = Γ /\ writable Γ name.

Lemma runs_ensure_writable p Γ r name n span :
  inv p Γ r -> scoped_name profile (facts_at r) Γ name n ->
  runs p r (ensure_writable lexed profile n span) (assignable Γ name).
Proof using Htokens.
  intros Hr Hn.
  assert (Hcheck : forall m env_field, In m (e_visible Γ) \/ In m (bindings r) ->
    writable Γ name = (bm_readonly m = false) ->
    runs p r
      (if default false (binding_readonly r (bm_id m)) then resolve_error lexed span "不可指派 readonly binding"
       else if env_field && bool_decide (Some (bm_id m) = None) && is_readonly_wildcard (effective_global_mode r)
            then resolve_error lexed span "不可指派 readonly binding" else mret tt) (assignable Γ name)).
  { intros m env_field Hin Hw.
    assert (binding_readonly r (bm_id m) = Some (bm_readonly m)) as ->.
    { destruct Hin as [Hin | Hin]; [by apply (readonly_visible p Γ r Hr) |].
      unfold binding_readonly. by rewrite (find_meta_known p Γ r Hr m Hin). }
    cbn [default]. destruct (bm_readonly m) eqn:Hro; [by apply (yields_error lexed limits Htokens p Γ) |].
    rewrite (bool_decide_false (Some (bm_id m) = None)) by done. rewrite andb_false_r. cbn [andb].
    eapply runs_ret; [done |]. intros F _. split; [done |]. by rewrite Hw. }
  assert (Hfree : forall env_field, look Γ name = None ->
    runs p r (if env_field && bool_decide (@None BindingId = None) && is_readonly_wildcard (effective_global_mode r)
       then resolve_error lexed span "不可指派 readonly binding" else mret tt)
      (fun F u Γ' => assignable Γ name F u Γ' \/ env_field = false)).
  { intros env_field Hl. rewrite (effective_global_mode_spec p Γ r Hr), bool_decide_true by done. rewrite andb_true_r.
    destruct env_field; cbn [andb]; [| eapply runs_ret; [done | by right]].
    destruct (is_readonly_wildcard (global_mode Γ)) eqn:Hm; [by apply (yields_error lexed limits Htokens p Γ) |].
    eapply runs_ret; [done |]. intros F _. left. split; [done |]. unfold writable. by rewrite Hl. }
  assert (Hvis : forall own m, look Γ name = Some (own, m) -> In m (e_visible Γ) /\ writable Γ name = (bm_readonly m = false)).
  { intros own m Hl. split; [| unfold writable; by rewrite Hl]. apply in_or_app. destruct own.
    - left. apply (look_own p Γ r Hr name m Hl).
    - right. apply (look_outer p Γ r Hr name m Hl). }
  unfold ensure_writable.
  destruct Hn as [own m n Hl Hg Href | own m Hl Hg Hs | own m own' e Hl Hg Hd Hs Hreach | own e Hl Hne Hd Hle Hge Hreach
    | own e Hfr Hs Hreach | m Hfr Hs Hk Hkind Hname Hro Hfun].
  - destruct (Hvis own m Hl). destruct Href as [m | m u Hu].
    + by apply (Hcheck m false); [left |].
    + apply spec_bind, spec_bind. unfold spec at 1. rewrite (upvalue_binding_eq p Γ r u _ span Hr Hu).
      by apply (Hcheck m false); [left |].
  - destruct (Hvis own m Hl). by apply (Hcheck m false); [left |].
  - destruct (Hvis own m Hl). rewrite Hd. apply spec_bind. unfold gets, spec at 1.
    rewrite (named_global_spec p Γ r name Hr), Hl, Hg. by apply (Hcheck m true); [left |].
  - rewrite Hd. eapply runs_weaken; [by apply (Hfree true) |]. by intros F a Γ' [].
  - destruct Hfr as (Hl & _ & Hd & _). rewrite Hd. apply spec_bind. unfold gets, spec at 1.
    rewrite (named_global_spec p Γ r name Hr), Hl. eapply runs_weaken; [by apply (Hfree true) |]. by intros F a Γ' [].
  - destruct Hfr as (Hl & _). apply (Hcheck m false); [right; by eapply known_own |].
    unfold writable. by rewrite Hl, Hro.
Qed.
End Names.
