(* ===== verification/ResolveScopes.v ===== *)
(** The operations of the resolver on scopes, loops, declarations, labels and exits,
    against environments. *)

From Stdlib Require Import ZArith Lia.
From stdpp Require Import base list gmap numbers strings.
From S2P Require Import Prelude Float Number Lexer Ast Parser Resolve ResolveSpec ResolveState ResolveNames.

Local Open Scope Z_scope.

(** An environment in which only the innermost scope has changed. *)
Definition grows (Γ Γ' : env) : Prop :=
  exists sc sc' k, e_scopes Γ = sc :: k /\ sc_id sc' = sc_id sc /\ Γ' = with_env_scopes Γ (sc' :: k).

Lemma with_env_scopes_same Γ : with_env_scopes Γ (e_scopes Γ) = Γ.
Proof. by destruct Γ. Qed.

Lemma grows_refl Γ : e_scopes Γ <> [] -> grows Γ Γ.
Proof.
  intros H. destruct (e_scopes Γ) as [| sc k] eqn:He; [done |]. exists sc, sc, k. split; [done |]. split; [done |].
  rewrite <- He. by rewrite with_env_scopes_same.
Qed.

Lemma grows_trans Γ1 Γ2 Γ3 : grows Γ1 Γ2 -> grows Γ2 Γ3 -> grows Γ1 Γ3.
Proof.
  intros (sc & sc' & k & H1 & H2 & ->) (sc2 & sc3 & k' & H3 & H4 & ->). cbn in *. injection H3 as <- <-.
  exists sc, sc3, k. split; [done |]. split; [congruence | done].
Qed.

Lemma grows_inner Γ Γ' : grows Γ Γ' -> inner_scope_id Γ' = inner_scope_id Γ.
Proof. intros (sc & sc' & k & H1 & H2 & ->). unfold inner_scope_id. cbn. by rewrite H1. Qed.

Lemma in_scope_grows f Γ : e_scopes Γ <> [] -> (forall sc, sc_id (f sc) = sc_id sc) -> grows Γ (in_scope f Γ).
Proof.
  intros H Hf. destruct (e_scopes Γ) as [| sc k] eqn:He; [done |]. exists sc, (f sc), k.
  split; [done |]. split; [done |]. unfold in_scope. by rewrite He.
Qed.

Section Scopes.
Context (lexed : LexedChunk) (limits : CompileLimits) (profile : LuaProfile) {alloc : Reserver}.
Context (Htokens : ch_tokens lexed <> []).
Abbreviation inv := (inv limits).
Abbreviation yields := (yields lexed limits).
Abbreviation runs := (runs lexed limits).

(** ** The innermost scope *)

Lemma inv_last_scope p Γ r : inv p Γ r -> exists f l sc k,
  scopes r = f :: l /\ e_scopes Γ = sc :: k /\ frame_matches f sc /\ Forall2 frame_matches l k.
Proof using Type.
  intros Hr. pose proof (inv_scopes _ _ _ _ Hr) as Hf. pose proof (inv_in_scope _ _ _ _ Hr) as Hne.
  destruct Hf as [| f sc l k Hm Hl]; [done |]. by exists f, l, sc, k.
Qed.

Definition set_scope (r : Resolver) (f : ScopeFrame) : Resolver := with_scopes r (f :: tail (scopes r)).

Lemma set_scope_extends r f : extends r (set_scope r f).
Proof using Type. by split. Qed.

Lemma inv_set_scope p Γ r f f' sc sc' k l :
  inv p Γ r -> scopes r = f :: l -> e_scopes Γ = sc :: k -> frame_matches f' sc' -> sc_id sc' = sc_id sc ->
  (forall m, In m (sc_bindings sc') -> In m (bindings r)) ->
  inv p (with_env_scopes Γ (sc' :: k)) (set_scope r f').
Proof using Type.
  intros Hr Hs Hk Hm Hid Hb. destruct Hr. unfold set_scope. rewrite Hs. rewrite Hk in *. rewrite Hs in *.
  cbn [tail]. split; try done; cbn.
  - constructor; [done |]. by inversion inv_scopes.
  - by rewrite Hid.
  - inversion inv_scope_range as [| ? ? H1 H2]. constructor; [by rewrite Hid | done].
  - unfold e_own in *. rewrite Hk in inv_own. cbn in *. intros m [Hin | Hin]%in_app_or; [by apply Hb |].
    apply inv_own, in_or_app. by right.
Qed.

Lemma runs_last_scope {A} p Γ r (k : ScopeFrame -> ResolveM A) P :
  inv p Γ r ->
  (forall f l sc sk, scopes r = f :: l -> e_scopes Γ = sc :: sk -> frame_matches f sc -> runs p r (k f) P) ->
  runs p r (f ← last_scope; k f) P.
Proof using Type.
  intros Hr Hk. destruct (inv_last_scope p Γ r Hr) as (f & l & sc & sk & H1 & H2 & H3 & _).
  apply spec_bind. unfold last_scope. apply spec_bind, spec_get. rewrite H1. cbn. by eapply Hk.
Qed.

(** Setting the innermost scope, and then a result. *)
Lemma runs_set_scope {A} p Γ r (f' : ScopeFrame) (g : scope -> scope) (a : A) (P : facts -> A -> env -> Prop) :
  inv p Γ r ->
  (forall sc k, e_scopes Γ = sc :: k ->
     frame_matches f' (g sc) /\ sc_id (g sc) = sc_id sc /\ forall m, In m (sc_bindings (g sc)) -> In m (bindings r)) ->
  (forall F, facts_le (facts_at r) F -> P F a (in_scope g Γ)) ->
  runs p r (set_last_scope f';; mret a) P.
Proof using Type.
  intros Hr Hg HP. destruct (inv_last_scope p Γ r Hr) as (f & l & sc & k & H1 & H2 & H3 & _).
  destruct (Hg sc k H2) as (G1 & G2 & G3).
  apply (runs_to lexed limits p (in_scope g Γ) r (set_scope r f') _ a); [done | | apply set_scope_extends | done].
  unfold in_scope. rewrite H2. by eapply inv_set_scope.
Qed.

Lemma current_scope_eq p Γ r : inv p Γ r -> current_scope r = (Ok (inner_scope_id Γ), r).
Proof using Type.
  intros Hr. destruct (inv_last_scope p Γ r Hr) as (f & l & sc & k & H1 & H2 & H3 & _).
  unfold current_scope, last_scope, mbind, st_bind, get, inner_scope_id. rewrite H1, H2. cbn. by rewrite (fm_id _ _ H3).
Qed.

(** A read that always succeeds. *)
Lemma runs_read {A B} p r (m : ResolveM A) (k : A -> ResolveM B) (P : facts -> B -> env -> Prop) a :
  m r = (Ok a, r) -> runs p r (k a) P -> runs p r (m ≫= k) P.
Proof using Type. intros Hm Hk. apply spec_bind. unfold spec at 1. by rewrite Hm. Qed.

Lemma yields_read {A B} p Γ (m : ResolveM A) (k : A -> ResolveM B) (P : facts -> B -> env -> Prop) a :
  (forall r, inv p Γ r -> m r = (Ok a, r)) -> yields p Γ (k a) P -> yields p Γ (m ≫= k) P.
Proof using Type. intros Hm Hk r Hr. eapply runs_read; [by apply Hm | by apply Hk]. Qed.

Lemma grows_here p Γ r : inv p Γ r -> grows Γ Γ.
Proof using Type. intros Hr. apply grows_refl, Hr. Qed.

(** ** Declarations *)

Lemma binding_flags_spec p Γ r attribute requested span : inv p Γ r ->
  spec (binding_flags lexed attribute requested span) r
    (fun flags r' => r' = r /\ flags_of attribute requested = Some flags) (fun e _ => error_ok lexed e).
Proof using Htokens.
  intros Hr. unfold binding_flags, flags_of. destruct attribute as [a |]; [| by apply spec_ret].
  do 2 (case_bool_decide; [by apply spec_ret |]). apply spec_fail, diagnostic_ok; auto.
Qed.

Lemma frame_add_binding f sc m (id : BindingId) :
  frame_matches f sc -> id = bm_id m -> bm_kind m <> BindingKind.GenericForClose ->
  frame_matches {|
    sf_id := sf_id f; sf_bindings := <[bm_name m := id]> (sf_bindings f);
    sf_local_bindings := if is_lexical (bm_kind m) then sf_local_bindings f ++ [id] else sf_local_bindings f;
    sf_close_bindings := if bm_close_marker m is Some _ then sf_close_bindings f ++ [id] else sf_close_bindings f;
    sf_labels := sf_labels f; sf_declaration_spans := sf_declaration_spans f; sf_global_mode := sf_global_mode f
  |} (add_binding m sc).
Proof using Type.
  intros Hm -> Hk. destruct Hm. split; cbn; try done.
  - intros name. unfold lookup_binding. cbn [find]. unfold is_named at 1.
    rewrite (bool_decide_true (bm_kind m <> _)) by done. rewrite andb_true_r.
    case_bool_decide as Hn; [subst name; by rewrite lookup_insert_eq |]. by rewrite lookup_insert_ne.
  - change (is_lexical_binding m) with (is_lexical (bm_kind m)). destruct (is_lexical _); cbn; congruence.
  - unfold closes at 1. destruct (bm_close_marker m); cbn; congruence.
Qed.

Lemma frame_add_hidden f sc m :
  frame_matches f sc -> bm_kind m = BindingKind.GenericForClose -> closes m = true ->
  frame_matches {|
    sf_id := sf_id f; sf_bindings := sf_bindings f; sf_local_bindings := sf_local_bindings f ++ [bm_id m];
    sf_close_bindings := sf_close_bindings f ++ [bm_id m]; sf_labels := sf_labels f;
    sf_declaration_spans := sf_declaration_spans f; sf_global_mode := sf_global_mode f
  |} (add_binding m sc).
Proof using Type.
  intros Hm Hk Hc. destruct Hm. split; cbn; try done.
  - intros name. unfold lookup_binding. cbn [find]. unfold is_named at 1. rewrite Hk.
    rewrite (bool_decide_false (BindingKind.GenericForClose <> _)) by auto. by rewrite andb_false_r.
  - unfold is_lexical_binding at 1. rewrite Hk. cbn. congruence.
  - rewrite Hc. cbn. congruence.
Qed.

(** What is visible was declared before the next binding. *)
Lemma next_is_fresh p Γ r m m' : inv p Γ r -> In m' (e_visible Γ) ->
  bm_id m = {| b_function := owner r; b_ordinal := zlen (bindings r) |} -> bm_id m' <> bm_id m.
Proof using Type.
  intros Hr [Hin | Hin]%in_app_or Hm He; rewrite Hm in He.
  - apply (inv_own _ _ _ _ Hr) in Hin.
    pose proof (numbered_ordinal _ _ _ (inv_numbered _ _ _ _ Hr) Hin) as Ho. rewrite He in Ho. cbn in Ho. lia.
  - destruct (inv_outer _ _ _ _ Hr _ Hin) as [Ho _]. rewrite He in Ho. cbn in Ho. lia.
Qed.

Lemma depth_spec p Γ r : inv p Γ r -> Z.max 0 (zlen (scopes r) - 1) = zlen (e_scopes Γ) - 1.
Proof using Type.
  intros Hr. pose proof (Forall2_length _ _ _ (inv_scopes _ _ _ _ Hr)) as Hl. pose proof (inv_in_scope _ _ _ _ Hr) as Hne.
  unfold zlen. rewrite Hl. destruct (e_scopes Γ); [done | cbn; lia].
Qed.

(** A new binding of the innermost scope, put there by [g]. *)
Definition binds (Γ : env) (kind : BindingKind.BindingKind) (name : list Z) (span : Span)
    (attribute : option Attribute) (flags : bool * option Span) (F : facts) (b : BindingId) (Γ' : env) : Prop :=
  grows Γ Γ' /\ exists m, fresh_binding F Γ kind name span attribute flags m /\ b = bm_id m /\ Γ' = in_scope (add_binding m) Γ.

Lemma runs_allocate p Γ r name span attribute kind flags (frame : ScopeFrame -> BindingId -> ScopeFrame) :
  inv p Γ r ->
  (forall f sc m, frame_matches f sc -> bm_name m = name -> bm_kind m = kind -> bm_close_marker m = flags.2 ->
     frame_matches (frame f (bm_id m)) (add_binding m sc)) ->
  runs p r
    (scope_depth ← gets (fun r => Z.max 0 (zlen (scopes r) - 1));
     id ← allocate_binding lexed limits name span attribute kind flags.1 flags.2 scope_depth;
     f ← last_scope; set_last_scope (frame f id);; mret id)
    (binds Γ kind name span attribute flags).
Proof using Htokens.
  intros Hr Hframe. apply spec_bind. unfold gets, spec at 1. rewrite (depth_spec p Γ r Hr).
  eapply spec_seq; [by apply (allocate_spec lexed limits Htokens p Γ) | | done].
  cbn beta. intros id r1 (m & Hm & -> & -> & Hlt).
  assert (H1 : inv p Γ (added r m)) by (apply inv_added; subst m; done).
  assert (Hruns : runs p (added r m) (f ← last_scope; set_last_scope (frame f (bm_id m));; mret (bm_id m))
                    (binds Γ kind name span attribute flags)).
  { eapply runs_last_scope; [done |]. intros f l sc k Hs Hk Hf.
    eapply (runs_set_scope p Γ (added r m) _ (add_binding m)); [done | |].
    - rewrite Hk. intros sc' k' [= <- <-]. split; [apply Hframe; [done | by subst m ..] |]. split; [done |].
      intros m' [<- | Hin]; [cbn; apply in_or_app; right; by left |].
      apply (inv_own _ _ _ _ H1). unfold e_own. rewrite Hk. cbn. apply in_or_app. by left.
    - intros F HF. split; [apply in_scope_grows; [apply Hr | done] |]. exists m. split; [| done].
      assert (known F m) by (apply HF, known_added).
      split; try (by subst m); try (subst m; cbn; apply Hr).
      intros m' Hin. apply (next_is_fresh p Γ r); [done | done | by subst m]. }
  eapply spec_weaken; [exact Hruns | | done]. cbn beta. intros b r2 (Γ2 & H2 & E2 & HP).
  exists Γ2. split; [done |]. split; [| done]. eapply extends_then; [apply added_extends | done].
Qed.

Definition declared (Γ : env) (kind : BindingKind.BindingKind) (name : list Z) (span : Span)
    (attribute : option Attribute) (requested : bool) (F : facts) (b : BindingId) (Γ' : env) : Prop :=
  grows Γ Γ' /\ declares F Γ kind name span attribute requested b Γ'.

Lemma yields_declare_binding p Γ name span attribute kind requested :
  kind <> BindingKind.GenericForClose ->
  yields p Γ (declare_binding lexed limits name span attribute kind requested)
    (declared Γ kind name span attribute requested).
Proof using Htokens.
  intros Hk r Hr. unfold declare_binding.
  eapply spec_seq; [by apply (binding_flags_spec p Γ) | | done]. cbn beta. intros flags r' [-> Hflags].
  eapply runs_weaken; [apply (runs_allocate p Γ r name span attribute kind flags (fun f id => {|
    sf_id := sf_id f; sf_bindings := <[name := id]> (sf_bindings f);
    sf_local_bindings := if is_lexical kind then sf_local_bindings f ++ [id] else sf_local_bindings f;
    sf_close_bindings := if flags.2 is Some _ then sf_close_bindings f ++ [id] else sf_close_bindings f;
    sf_labels := sf_labels f; sf_declaration_spans := sf_declaration_spans f; sf_global_mode := sf_global_mode f
  |})); [done |] |].
  - intros f sc m Hf <- Hkm <-. subst kind. by apply frame_add_binding.
  - intros F b Γ' [Hg (m & Hm & -> & ->)]. split; [done |]. by eapply declares_intro.
Qed.

Lemma yields_declare_generic_for_close p Γ span :
  yields p Γ (declare_generic_for_close lexed limits span)
    (binds Γ BindingKind.GenericForClose (bytes_of_string "<generic-for-close>") span None (true, Some span)).
Proof using Htokens.
  intros r Hr. apply (runs_allocate p Γ r _ span None _ (true, Some span) (fun f id => {|
    sf_id := sf_id f; sf_bindings := sf_bindings f; sf_local_bindings := sf_local_bindings f ++ [id];
    sf_close_bindings := sf_close_bindings f ++ [id]; sf_labels := sf_labels f;
    sf_declaration_spans := sf_declaration_spans f; sf_global_mode := sf_global_mode f
  |})); [done |]. intros f sc m Hf _ Hk Hc. apply frame_add_hidden; [done | done |]. unfold closes. by rewrite Hc.
Qed.

(** Steps that keep the environment, and then the rest. *)
Lemma yields_then {A} p Γ (m : ResolveM unit) (k : ResolveM A) (P : facts -> A -> env -> Prop) :
  yields p Γ m (keeps Γ) -> yields p Γ k P -> yields p Γ (m;; k) P.
Proof using Type.
  intros Hm Hk. eapply yields_bind; [exact Hm |]. intros a Γ' F0 ->. eapply yields_weaken; [exact Hk | auto].
Qed.

(** A value computed in [Γ]. *)
Definition at_env {A} (Γ : env) (Q : facts -> A -> Prop) (F : facts) (a : A) (Γ' : env) : Prop := Γ' = Γ /\ Q F a.

Lemma yields_at {A B} p Γ (m : ResolveM A) (k : A -> ResolveM B) Q (P : facts -> B -> env -> Prop) :
  yields p Γ m (at_env Γ Q) ->
  (forall a, yields p Γ (k a) (fun F b Γ' => Q F a -> P F b Γ')) ->
  yields p Γ (m ≫= k) P.
Proof using Type.
  intros Hm Hk. eapply yields_bind; [exact Hm |]. intros a Γ' F0 [-> _].
  eapply yields_weaken; [apply Hk |]. intros F b Γ' HP [_ HQ]. auto.
Qed.

Lemma yields_each {A B} p Γ (f : A -> ResolveM B) (Q : facts -> A -> B -> Prop) l :
  Forall (fun x => yields p Γ (f x) (at_env Γ (fun F y => Q F x y))) l ->
  yields p Γ (each f l) (at_env Γ (fun F ys => Forall2 (Q F) l ys)).
Proof using Type.
  induction 1 as [| x l Hx _ IH]; cbn [each]; [by apply yields_ret |].
  eapply yields_at; [exact Hx |]. intros y. eapply yields_at; [exact IH |]. intros ys.
  apply yields_ret. intros F Hys Hy. split; [done | by constructor].
Qed.

Lemma yields_optionally {A B} p Γ (f : A -> ResolveM B) (Q : facts -> A -> B -> Prop) o :
  (forall x, o = Some x -> yields p Γ (f x) (at_env Γ (fun F y => Q F x y))) ->
  yields p Γ (optionally f o) (at_env Γ (fun F o' => option_Forall2 (Q F) o o')).
Proof using Type.
  intros Hf. destruct o as [x |]; cbn [optionally].
  - eapply yields_at; [by apply Hf |]. intros y. apply yields_ret. intros F Hy. split; [done | by constructor].
  - apply yields_ret. intros F. split; [done | constructor].
Qed.

Lemma yields_checked_list {A B} p Γ (l : list A) span message (m : ResolveM (list B)) P :
  is_internal message = false -> yields p Γ m P -> yields p Γ (checked_list lexed limits l span message m) P.
Proof using Htokens.
  intros Hi Hm. unfold checked_list. apply yields_then; [by apply yields_ensure_list |].
  apply yields_then; [by apply yields_reserve | done].
Qed.

(** ** Lists of declarations *)

Definition enumerate_from {A} (k : nat) (l : list A) : list (Z * A) := combine (map Z.of_nat (seq k (length l))) l.

Definition declared_names (Γ : env) (kind : BindingKind.BindingKind) (attribute : LocalName -> option Attribute)
    (requested : Z -> bool) (i : Z) (names : list LocalName) (F : facts) (resolved : list ResolvedLocalName) (Γ' : env) : Prop :=
  grows Γ Γ' /\ declares_names F kind attribute requested i Γ names resolved Γ'.

Lemma declared_names_cons Γ Γ1 kind attribute requested i name names F b resolved Γ' :
  declared Γ kind (ln_name name) (ln_span name) (attribute name) (requested i) F b Γ1 ->
  declared_names Γ1 kind attribute requested (i + 1) names F resolved Γ' ->
  declared_names Γ kind attribute requested i (name :: names) F (local_name name b :: resolved) Γ'.
Proof using Type.
  intros [G1 D1] [G2 D2]. split; [by eapply grows_trans |]. by eapply declares_cons.
Qed.

Lemma yields_declare_locals p Γ names (i count : Z) : count <= 1 ->
  yields p Γ (declare_locals lexed limits names count)
    (fun F bs Γ' =>
       declared_names Γ BindingKind.Local ln_attribute (fun _ => false) i names F (zip_with local_name names bs) Γ'
       /\ length bs = length names /\ count + close_count names <= 1).
Proof using Htokens.
  revert Γ i count. induction names as [| name names IH]; intros Γ i count Hc; cbn [declare_locals].
  { intros r Hr. eapply runs_ret; [done |]. intros F _. split; [split; [by eapply grows_here | constructor] |].
    split; [done |]. unfold close_count. cbn. rewrite zlen_nil. lia. }
  eapply yields_bind; [by apply yields_declare_binding |]. intros b Γ1 F0 Hd.
  destruct (is_close (ln_attribute name)) eqn:Hclose; cbn [andb].
  - destruct (Z.ltb_spec 1 (count + 1)); [by apply (yields_error lexed limits Htokens) |].
    eapply yields_bind; [apply (IH Γ1 (i + 1)); lia |]. intros bs Γ2 F1 _. apply yields_ret.
    intros F (D2 & Hl & Hcc) D1. split; [by eapply declared_names_cons |]. split; [cbn; lia |].
    unfold close_count in *. cbn [List.filter]. rewrite Hclose, zlen_cons. lia.
  - eapply yields_bind; [by apply (IH Γ1 (i + 1)) |]. intros bs Γ2 F1 _. apply yields_ret.
    intros F (D2 & Hl & Hcc) D1. split; [by eapply declared_names_cons |]. split; [cbn; lia |].
    unfold close_count in *. cbn [List.filter]. by rewrite Hclose.
Qed.

Lemma yields_declare_named p Γ kind requested name : kind <> BindingKind.GenericForClose ->
  yields p Γ (declare_named lexed limits kind requested name)
    (fun F rl Γ' => exists b, rl = local_name name b
       /\ declared Γ kind (ln_name name) (ln_span name) (ln_attribute name) requested F b Γ').
Proof using Htokens.
  intros Hk. eapply yields_bind; [by apply yields_declare_binding |]. intros b Γ1 F0 _. apply yields_ret. eauto.
Qed.

Lemma yields_declare_each p Γ kind (requested : Z -> bool) (k : nat) names : kind <> BindingKind.GenericForClose ->
  yields p Γ (each (fun p => declare_named lexed limits kind (requested p.1) p.2) (enumerate_from k names))
    (declared_names Γ kind ln_attribute requested (Z.of_nat k) names).
Proof using Htokens.
  intros Hk. revert Γ k. induction names as [| name names IH]; intros Γ k.
  { intros r Hr. eapply runs_ret; [done |]. intros F _. split; [by eapply grows_here | constructor]. }
  cbn [enumerate_from length seq map combine each fst snd]. eapply yields_bind; [by apply yields_declare_named |].
  intros rl Γ1 F0 _. eapply yields_bind; [apply (IH Γ1 (S k)) |]. intros rls Γ2 F1 _. apply yields_ret.
  intros F D2 (b & -> & D1). eapply declared_names_cons; [exact D1 |].
  by replace (Z.of_nat k + 1) with (Z.of_nat (S k)) by lia.
Qed.

Lemma yields_declare_parameters p Γ names (i : Z) :
  yields p Γ (each (declare_named lexed limits BindingKind.Parameter_ false) names)
    (declared_names Γ BindingKind.Parameter_ ln_attribute (fun _ => false) i names).
Proof using Htokens.
  revert Γ i. induction names as [| name names IH]; intros Γ i; cbn [each].
  { intros r Hr. eapply runs_ret; [done |]. intros F _. split; [by eapply grows_here | constructor]. }
  eapply yields_bind; [by apply yields_declare_named |].
  intros rl Γ1 F0 _. eapply yields_bind; [apply (IH Γ1 (i + 1)) |]. intros rls Γ2 F1 _. apply yields_ret.
  intros F D2 (b & -> & D1). by eapply declared_names_cons.
Qed.

Lemma yields_global_attribute_readonly p Γ attribute span :
  yields p Γ (global_attribute_readonly lexed attribute span)
    (at_env Γ (fun _ readonly => global_readonly attribute = Some readonly)).
Proof using Htokens.
  unfold global_attribute_readonly, global_readonly. destruct attribute as [a |]; [| by apply yields_ret].
  case_bool_decide; [by apply yields_ret |]. case_bool_decide; by apply (yields_error lexed limits Htokens).
Qed.

Lemma yields_declare_globals p Γ prefix names (i : Z) :
  yields p Γ (each (declare_global_name lexed limits prefix) names)
    (fun F resolved Γ' =>
       declared_names Γ BindingKind.Global (global_attribute prefix) (fun _ => false) i names F resolved Γ'
       /\ Forall (fun name => is_Some (global_readonly (global_attribute prefix name))) names).
Proof using Htokens.
  revert Γ i. induction names as [| name names IH]; intros Γ i; cbn [each].
  { intros r Hr. eapply runs_ret; [done |]. intros F _. split; [split; [by eapply grows_here | constructor] | constructor]. }
  eapply yields_bind with (P := fun F rl Γ' => is_Some (global_readonly (global_attribute prefix name)) /\
    exists b, rl = local_name name b /\
      declared Γ BindingKind.Global (ln_name name) (ln_span name) (global_attribute prefix name) false F b Γ').
  - unfold declare_global_name. eapply yields_at; [by apply yields_global_attribute_readonly |]. intros ro.
    eapply yields_bind; [by apply yields_declare_binding |]. intros b Γ1 F0 _. apply yields_ret.
    intros F D Hro. split; [by exists ro | eauto].
  - intros rl Γ1 F0 _. eapply yields_bind; [apply (IH Γ1 (i + 1)) |]. intros rls Γ2 F1 _. apply yields_ret.
    intros F [D2 Hall] (Hro & b & -> & D1). split; [by eapply declared_names_cons | by constructor].
Qed.

Lemma yields_declare_self p Γ method :
  yields p Γ (Resolve.declare_self lexed limits method)
    (fun F self Γ' => grows Γ Γ' /\ ResolveSpec.declares_self F Γ method self Γ').
Proof using Htokens.
  destruct method as [method |]; cbn [Resolve.declare_self].
  - eapply yields_bind; [by apply yields_declare_binding |]. intros b Γ1 F0 _. apply yields_ret.
    intros F [G D]. split; [done | by constructor].
  - intros r Hr. eapply runs_ret; [done |]. intros F _. split; [by eapply grows_here | constructor].
Qed.

(** The rest parameter, before the state of the function knows of it. *)
Lemma yields_declare_vararg p Γ vararg :
  yields p Γ (Resolve.declare_vararg lexed limits profile vararg)
    (fun F rest Γ' => grows Γ Γ' /\ declares_vararg profile F Γ vararg rest
       (with_env_vararg Γ' (rv_table_binding <$> rest))).
Proof using Htokens.
  unfold Resolve.declare_vararg. destruct vararg as [[[name |] span] |]; cbn [table_name vararg_span].
  - rewrite andb_true_r. destruct (named_vararg_rule (rules profile)) eqn:Hrule; cbn [negb];
      [| by apply (yields_error lexed limits Htokens)].
    eapply yields_bind with (P := fun F o Γ' => exists b, o = Some b /\
      declared Γ BindingKind.VarargTable (ln_name name) (ln_span name) (ln_attribute name) true F b Γ').
    + apply yields_then; [by apply yields_ensure_binding_capacity |].
      eapply yields_bind; [by apply yields_declare_binding |]. intros b Γ1 F0 _. apply yields_ret. eauto.
    + intros o Γ1 F0 _. apply yields_ret. intros F (b & -> & G & D). split; [done |]. by constructor.
  - rewrite andb_false_r. intros r Hr. eapply (runs_ret lexed limits p Γ); [done |]. intros F _. split; [by eapply grows_here | constructor].
  - intros r Hr. eapply runs_ret; [done |]. intros F _. split; [by eapply grows_here | constructor].
Qed.

(** ** The mode of global names *)

Lemma yields_set_named p Γ :
  yields p Γ set_named_global_mode (fun _ _ Γ' => grows Γ Γ' /\ Γ' = in_scope set_named Γ).
Proof using Type.
  intros r Hr. assert (G : grows Γ (in_scope set_named Γ)) by (apply in_scope_grows; [apply Hr | done]).
  eapply runs_last_scope; [done |]. intros f l sc k Hs Hk Hf.
  destruct (sf_global_mode f) as [mode |] eqn:Hm.
  - assert (in_scope set_named Γ = Γ) as HG.
    { unfold in_scope, set_named, set_mode. rewrite (fm_mode _ _ Hf) in Hm. rewrite Hk, Hm.
      destruct Γ, sc; cbn in *. by subst. }
    eapply runs_ret; [done |]. intros F _. by rewrite HG in *.
  - eapply (runs_set_scope p Γ r _ set_named tt (fun _ _ Γ' => grows Γ Γ' /\ Γ' = in_scope set_named Γ)); [done | | done].
    rewrite Hk. intros sc' k' [= <- <-]. destruct Hf as [? ? ? ? ? ? ? Hmode]. split; [| split; [done |]].
    + split; cbn; try done. by rewrite <- Hmode, Hm.
    + intros m Hin. apply (inv_own _ _ _ _ Hr). unfold e_own. rewrite Hk. apply in_or_app. by left.
Qed.

Lemma yields_set_wildcard p Γ readonly :
  yields p Γ (set_wildcard_global_mode readonly)
    (fun _ _ Γ' => grows Γ Γ' /\ Γ' = in_scope (set_mode (Some (Wildcard readonly))) Γ).
Proof using Type.
  intros r Hr. assert (G : grows Γ (in_scope (set_mode (Some (Wildcard readonly))) Γ)) by (apply in_scope_grows; [apply Hr | done]).
  eapply runs_last_scope; [done |]. intros f l sc k Hs Hk Hf.
  eapply (runs_set_scope p Γ r _ (set_mode (Some (Wildcard readonly))) tt
    (fun _ _ Γ' => grows Γ Γ' /\ Γ' = in_scope (set_mode (Some (Wildcard readonly))) Γ)); [done | | done].
  rewrite Hk. intros sc' k' [= <- <-]. destruct Hf. split; [by split |]. split; [done |].
  intros m Hin. apply (inv_own _ _ _ _ Hr). unfold e_own. rewrite Hk. apply in_or_app. by left.
Qed.
End Scopes.
