(* ===== verification/ResolveExits.v ===== *)
(** The operations of the resolver on nested scopes, loops, labels and exits, against
    environments. *)

From Stdlib Require Import ZArith Lia.
From stdpp Require Import base list gmap numbers strings.
From S2P Require Import Prelude Float Number Lexer Ast Parser Resolve ResolveSpec ResolveState ResolveNames ResolveScopes.

Local Open Scope Z_scope.

(** ** Lists of scopes *)

Lemma Forall2_rev_find {A} (f : A -> bool) l :
  (forall x y, In x l -> In y l -> f x = true -> f y = true -> x = y) -> find f (rev l) = find f l.
Proof.
  intros Hu. destruct (find f l) as [x |] eqn:Hf.
  - apply find_some in Hf as [Hin Hx]. apply find_unique; [by apply in_rev in Hin | done |].
    intros y Hy%in_rev Hfy. by apply Hu.
  - destruct (find f (rev l)) as [x |] eqn:Hr; [| done]. apply find_some in Hr as [Hin%in_rev Hx].
    by rewrite (find_none _ _ Hf _ Hin) in Hx.
Qed.

Lemma NoDup_map_inj {A B} (f : A -> B) l x y : NoDup (map f l) -> In x l -> In y l -> f x = f y -> x = y.
Proof.
  induction l as [| z l IH]; cbn; [done |]. intros [Hz Hl]%NoDup_cons [-> | Hx] [-> | Hy] He; auto.
  - destruct Hz. rewrite He. apply list_elem_of_In, in_map, Hy.
  - destruct Hz. rewrite <- He. apply list_elem_of_In, in_map, Hx.
Qed.

Lemma concat_map_map {A B C} (g : B -> C) (f : A -> list B) l : concat (map (fun x => map g (f x)) l) = map g (concat (map f l)).
Proof. induction l as [| x l IH]; cbn; [done |]. by rewrite map_app, IH. Qed.

Lemma filter_concat {A} (f : A -> bool) l : List.filter f (concat l) = concat (map (List.filter f) l).
Proof. induction l as [| x l IH]; cbn; [done |]. by rewrite List.filter_app, IH. Qed.

Section Exits.
Context (lexed : LexedChunk) (limits : CompileLimits) (profile : LuaProfile) {alloc : Reserver}.
Context (Htokens : ch_tokens lexed <> []).
Abbreviation inv := (inv limits).
Abbreviation yields := (yields lexed limits).
Abbreviation runs := (runs lexed limits).

(** ** Nested scopes *)

Definition entered (r : Resolver) : Resolver :=
  with_scopes (with_next_scope r (next_scope r + 1)) (new_scope (next_scope r) :: scopes r).

Lemma frame_new id : frame_matches (new_scope id) (empty_scope id).
Proof using Type. split; cbn; try done; intros; by rewrite lookup_empty. Qed.

Lemma scope_id_range p Γ r id : inv p Γ r -> In id (map sc_id (e_scopes Γ)) -> id < next_scope r.
Proof using Type.
  intros Hr (sc & <- & Hsc)%in_map_iff. by apply (proj1 (List.Forall_forall _ _) (inv_scope_range _ _ _ _ Hr)).
Qed.

Lemma inv_entered p Γ r : inv p Γ r -> inv p (opened_scope (next_scope r) Γ) (entered r).
Proof using Type.
  intros Hr. pose proof (scope_id_range p Γ r (next_scope r) Hr) as Hfresh. destruct Hr. split; try done; cbn.
  - constructor; [apply frame_new | done].
  - constructor; [| done]. intros Hin%list_elem_of_In. specialize (Hfresh Hin). lia.
  - constructor; [cbn; lia |]. eapply Forall_impl; [done |]. cbn. lia.
Qed.

Lemma enter_scope_spec r span :
  spec (enter_scope lexed limits span) r (fun _ r' => r' = entered r) (fun e _ => error_ok lexed e).
Proof using Htokens.
  unfold enter_scope. apply spec_bind, spec_get.
  destruct (_ <=? _); [apply spec_fail, diagnostic_ok; auto |].
  destruct (_ <? _); [apply spec_fail, diagnostic_ok; auto |]. by apply spec_put.
Qed.

Lemma inv_popped p Γ Γ' id r : e_scopes Γ <> [] -> grows (opened_scope id Γ) Γ' -> inv p Γ' r -> inv p Γ (pop_scope r).
Proof using Type.
  intros Hne (sc & sc' & k & H1 & H2 & ->) Hr. cbn in H1. injection H1 as <- <-.
  destruct Hr. unfold pop_scope. cbn in *.
  split; try done; cbn.
  - inversion inv_scopes; by subst.
  - by inversion inv_scope_ids.
  - by inversion inv_scope_range.
  - unfold e_own in *. cbn in *. intros m Hin. apply inv_own, in_or_app. by right.
Qed.

(** What a computation in a new scope gives, with the scope closed again. *)
Definition inside {A} (Γ : env) (Q : ScopeId -> facts -> A -> env -> Prop) : facts -> A -> env -> Prop :=
  fun F a Γ' => Γ' = Γ /\ exists id Γ1, ~ In id (map sc_id (e_scopes Γ)) /\ Q id F a Γ1.

Lemma yields_nested {A} p Γ span (m : ResolveM A) (Q : ScopeId -> facts -> A -> env -> Prop) :
  (forall id, ~ In id (map sc_id (e_scopes Γ)) ->
     yields p (opened_scope id Γ) m (fun F a Γ' => grows (opened_scope id Γ) Γ' /\ Q id F a Γ')) ->
  yields p Γ (nested lexed limits span m) (inside Γ Q).
Proof using Htokens.
  intros Hm r Hr. unfold nested. eapply spec_seq; [apply enter_scope_spec | | done].
  cbn beta. intros _ r1 ->.
  assert (Hfresh : ~ In (next_scope r) (map sc_id (e_scopes Γ))).
  { intros Hin%(scope_id_range p Γ r _ Hr). lia. }
  specialize (Hm _ Hfresh _ (inv_entered p Γ r Hr)). unfold ResolveState.runs, spec, finally in *.
  destruct (m (entered r)) as [[a | e | c] r2]; [| done | done].
  destruct Hm as (Γ2 & H2 & E2 & HP). exists Γ. split; [| split].
  - destruct (HP _ (facts_le_refl _)) as [G _]. eapply inv_popped; [apply Hr | exact G | done].
  - by destruct E2.
  - intros F HF. destruct (HP F HF) as [_ HQ]. split; [done | eauto].
Qed.

(** ** Loops *)

Lemma inv_loop p Γ r (target : ScopeId) : inv p Γ r -> inv p (opened_loop Γ target) (with_loops r (target :: loops r)).
Proof using Type. intros Hr. destruct Hr. split; try done; cbn. congruence. Qed.

Lemma grows_loop Γ Γ' target : grows (opened_loop Γ target) Γ' -> grows Γ (with_env_loops Γ' (e_loops Γ)).
Proof using Type.
  intros (sc & sc' & k & H1 & H2 & ->). exists sc, sc', k. split; [done |]. split; [done |]. by destruct Γ.
Qed.

Lemma inv_popped_loop p Γ Γ' target r :
  grows (opened_loop Γ target) Γ' -> inv p Γ' r -> inv p (with_env_loops Γ' (e_loops Γ)) (pop_loop r).
Proof using Type.
  intros (sc & sc' & k & H1 & H2 & ->) Hr. destruct Hr. unfold pop_loop. cbn in *.
  split; try done; cbn. by rewrite inv_loops.
Qed.

Lemma yields_in_loop {A} p Γ target (m : ResolveM A) (P : facts -> A -> env -> Prop) :
  yields p (opened_loop Γ target) m (fun F a Γ' => grows (opened_loop Γ target) Γ' /\ P F a Γ') ->
  yields p Γ (in_loop target m) (fun F a Γ' => grows Γ Γ' /\ exists Γ1,
    grows (opened_loop Γ target) Γ1 /\ Γ' = with_env_loops Γ1 (e_loops Γ) /\ P F a Γ1).
Proof using Type.
  intros Hm r Hr. specialize (Hm _ (inv_loop p Γ r target Hr)). unfold in_loop.
  apply spec_bind. unfold modify, spec at 1. unfold ResolveState.runs, spec, finally in *.
  destruct (m _) as [[a | e | c] r2]; [| done | done].
  destruct Hm as (Γ2 & H2 & E2 & HP). destruct (HP _ (facts_le_refl _)) as [G _].
  exists (with_env_loops Γ2 (e_loops Γ)). split; [by eapply inv_popped_loop |]. split; [by destruct E2 |].
  intros F HF. destruct (HP F HF) as [_ HQ]. split; [by eapply grows_loop | eauto].
Qed.

(** Around a nested block nothing changes. *)
Lemma yields_in_loop_at {A} p Γ target (m : ResolveM A) Q :
  yields p (opened_loop Γ target) m (at_env (opened_loop Γ target) Q) -> yields p Γ (in_loop target m) (at_env Γ Q).
Proof using Type.
  intros Hm r Hr. eapply runs_weaken.
  - apply yields_in_loop with (P := fun F a Γ' => Γ' = opened_loop Γ target /\ Q F a); [| exact Hr].
    intros r' Hr'. eapply runs_weaken; [by apply Hm |]. intros F a Γ' [-> HQ]. split; [by eapply grows_here | done].
  - cbn beta. intros F a Γ' (_ & Γ1 & _ & -> & -> & HQ). split; [by destruct Γ | done].
Qed.

(** ** Exits *)

Lemma exited_scopes_spec target l k : Forall2 frame_matches l k ->
  Forall2 frame_matches (exited_scopes target l) (left_scopes target k).
Proof using Type.
  induction 1 as [| f sc l k Hm _ IH]; cbn; [constructor |]. rewrite (fm_id _ _ Hm).
  case_bool_decide; constructor; done.
Qed.

Lemma exited_close l k : Forall2 frame_matches l k ->
  concat (map (fun f => rev (sf_close_bindings f)) l) = map bm_id (List.filter closes (concat (map sc_bindings k))).
Proof using Type.
  induction 1 as [| f sc l k Hm _ IH]; cbn; [done |].
  by rewrite List.filter_app, map_app, IH, (fm_close _ _ Hm), rev_involutive.
Qed.

Lemma exited_local l k : Forall2 frame_matches l k ->
  concat (map (fun f => rev (sf_local_bindings f)) l) = map bm_id (List.filter is_lexical_binding (concat (map sc_bindings k))).
Proof using Type.
  induction 1 as [| f sc l k Hm _ IH]; cbn; [done |].
  by rewrite List.filter_app, map_app, IH, (fm_local _ _ Hm), rev_involutive.
Qed.

Lemma close_path_eq p Γ r kind target span : inv p Γ r -> close_path kind target span r = (Ok (exit_path kind target span Γ), r).
Proof using Type.
  intros Hr. unfold close_path, mbind, st_bind, get. rewrite (current_scope_eq limits p Γ r Hr).
  pose proof (exited_scopes_spec target _ _ (inv_scopes _ _ _ _ Hr)) as He.
  cbn. by rewrite (exited_close _ _ He), (exited_local _ _ He).
Qed.

(** ** Labels *)

Lemma find_label_spec p Γ r name : inv p Γ r -> find_label r name = find_env_label Γ name.
Proof using Type.
  intros Hr. unfold find_label, find_env_label. pose proof (inv_scopes _ _ _ _ Hr) as Hf. clear Hr.
  induction Hf as [| f sc l k Hm _ IH]; [done |]. cbn [find_scope map concat].
  rewrite (fm_labels _ _ Hm), find_app, IH. by destruct (find _ (sc_labels sc)).
Qed.

Lemma scope_of_id_spec p Γ r id : inv p Γ r -> option_Forall2 frame_matches (scope_of_id r id) (env_scope Γ id).
Proof using Type.
  intros Hr. unfold scope_of_id, env_scope. rewrite Forall2_rev_find.
  - pose proof (inv_scopes _ _ _ _ Hr) as Hf. clear Hr. induction Hf as [| f sc l k Hm _ IH]; cbn; [constructor |].
    rewrite (fm_id _ _ Hm). case_bool_decide; [by constructor | done].
  - assert (map sf_id (scopes r) = map sc_id (e_scopes Γ)) as Hids.
    { pose proof (inv_scopes _ _ _ _ Hr) as Hf. clear Hr. induction Hf as [| f sc l k Hm _ IH]; cbn; [done |].
      by rewrite IH, (fm_id _ _ Hm). }
    pose proof (inv_scope_ids _ _ _ _ Hr) as Hnd. rewrite <- Hids in Hnd.
    intros x y Hx Hy Hix%bool_decide_eq_true Hiy%bool_decide_eq_true. eapply NoDup_map_inj; [done | done | done | congruence].
Qed.

(** The scope of a label is open. *)
Lemma label_scope p Γ r name label : inv p Γ r -> find_env_label Γ name = Some label ->
  exists target, env_scope Γ (lb_scope label) = Some target /\ In target (e_scopes Γ).
Proof using Type.
  intros Hr Hl. unfold find_env_label in Hl. destruct (find _ _) as [[n label'] |] eqn:Hf; [| done].
  cbn in Hl. injection Hl as ->. apply find_some in Hf as [Hin _].
  apply in_concat in Hin as (labels & (sc & <- & Hsc)%in_map_iff & Hin).
  pose proof (inv_scopes _ _ _ _ Hr) as Hs.
  pose proof (proj2 (list_elem_of_In _ _) Hsc) as [i Hi]%list_elem_of_lookup.
  destruct (Forall2_lookup_r _ _ _ _ _ Hs Hi) as (f & _ & Hm).
  rewrite (fm_label_scope _ _ Hm _ _ Hin). unfold env_scope.
  destruct (find _ (e_scopes Γ)) as [target |] eqn:Ht.
  - exists target. split; [done |]. by apply find_some in Ht as [Hin' _].
  - pose proof (find_none _ _ Ht _ Hsc) as Hno. cbn beta in Hno. by rewrite bool_decide_true in Hno.
Qed.

(** *** The labels of a block *)

Lemma enumerate_from_cons {A} k (x : A) l : enumerate_from k (x :: l) = (Z.of_nat k, x) :: enumerate_from (S k) l.
Proof using Type. done. Qed.

Lemma combine_snoc {A B} (l : list A) (k : list B) x y :
  length l = length k -> combine (l ++ [x]) (k ++ [y]) = combine l k ++ [(x, y)].
Proof using Type. revert k. induction l as [| z l IH]; intros [| w k] [=]; cbn; [done |]. by rewrite IH. Qed.

Lemma enumerate_snoc {A} (l : list A) x : enumerate (l ++ [x]) = enumerate l ++ [(zlen l, x)].
Proof using Type.
  unfold enumerate. rewrite length_app, seq_app, map_app. cbn [length seq map Nat.add].
  rewrite combine_snoc; [done |]. by rewrite length_map, length_seq.
Qed.

Lemma last_non_void_snoc l s : last_non_void (l ++ [s]) = if is_void s then last_non_void l else Some (zlen l).
Proof using Type.
  unfold last_non_void. rewrite enumerate_snoc, filter_app, filter_cons, filter_nil. cbn [snd].
  case_decide as Hs.
  - rewrite Hs, map_app. apply last_snoc.
  - apply not_false_is_true in Hs. by rewrite Hs, app_nil_r.
Qed.

Lemma last_non_void_range l i : last_non_void l = Some i -> 0 <= i < zlen l.
Proof using Type.
  induction l as [| s l IH] using rev_ind; [done |]. rewrite last_non_void_snoc, zlen_snoc.
  pose proof (zlen_nonneg l). destruct (is_void s); [intros Hi%IH; lia | intros [= <-]; lia].
Qed.

(** A label is terminal when only labels and empty statements follow it. *)
Lemma terminal_spec pre s post : is_void s = true ->
  match last_non_void (pre ++ s :: post) with Some i => i <? zlen pre | None => true end = forallb is_void post.
Proof using Type.
  intros Hs. induction post as [| x post IH] using rev_ind.
  - rewrite last_non_void_snoc, Hs. destruct (last_non_void pre) as [i |] eqn:Hi; [| done].
    apply last_non_void_range in Hi. cbn. lia.
  - replace (pre ++ s :: post ++ [x]) with ((pre ++ s :: post) ++ [x]) by (by rewrite <- app_assoc).
    rewrite last_non_void_snoc, forallb_app. cbn [forallb]. destruct (is_void x); cbn [andb].
    + by rewrite IH, andb_true_r.
    + rewrite andb_false_r, zlen_app, zlen_cons. pose proof (zlen_nonneg post). lia.
Qed.

(** The statements after the last one that is not void are the ones at the end. *)
Lemma suffix_label l :
  existsb is_label (drop (Z.to_nat (match last_non_void l with Some i => i + 1 | None => 0 end)) l) = ends_with_label l.
Proof using Type.
  unfold ends_with_label. induction l as [| s l IH] using rev_ind; [done |].
  rewrite last_non_void_snoc, rev_app_distr. cbn [rev app take_while].
  destruct (is_void s) eqn:Hs.
  - rewrite drop_app_le.
    + rewrite existsb_app, IH. cbn. by rewrite orb_false_r, orb_comm.
    + destruct (last_non_void l) as [i |] eqn:Hi; [| lia]. apply last_non_void_range in Hi.
      unfold zlen in Hi. lia.
  - rewrite drop_ge; [done |]. rewrite length_app. unfold zlen. cbn. lia.
Qed.

Lemma frame_add_declared f sc spans :
  frame_matches f sc ->
  frame_matches {|
    sf_id := sf_id f; sf_bindings := sf_bindings f; sf_local_bindings := sf_local_bindings f;
    sf_close_bindings := sf_close_bindings f; sf_labels := sf_labels f;
    sf_declaration_spans := sf_declaration_spans f ++ spans; sf_global_mode := sf_global_mode f
  |} (add_block_labels [] spans sc).
Proof using Type. intros []. split; cbn; try rewrite app_nil_r; try done. congruence. Qed.

Lemma frame_add_label f sc name label :
  frame_matches f sc -> sf_labels f !! name = None -> lb_scope label = sc_id sc ->
  frame_matches {|
    sf_id := sf_id f; sf_bindings := sf_bindings f; sf_local_bindings := sf_local_bindings f;
    sf_close_bindings := sf_close_bindings f; sf_labels := <[name := label]> (sf_labels f);
    sf_declaration_spans := sf_declaration_spans f; sf_global_mode := sf_global_mode f
  |} (add_block_labels [(name, label)] [] sc).
Proof using Type.
  intros [] Hnone Hl. split; cbn; try rewrite app_nil_r; try done.
  - intros name' label' [Hin | [[= <- <-] | []]]%in_app_or; [by eapply fm_label_scope | done].
  - intros name'. rewrite find_app, lookup_insert. rewrite fm_labels in Hnone. case_decide as He.
    + subst name'. destruct (find _ (sc_labels sc)); [done |]. cbn. by case_bool_decide.
    + clear Hnone. rewrite fm_labels. destruct (find _ (sc_labels sc)); [done |]. cbn. by case_bool_decide.
Qed.

Lemma add_block_labels_twice l1 l2 d1 d2 sc :
  add_block_labels l2 d2 (add_block_labels l1 d1 sc) = add_block_labels (l1 ++ l2) (d1 ++ d2) sc.
Proof using Type. unfold add_block_labels. cbn. by rewrite !app_assoc. Qed.

Lemma add_labels_spec pre l end_scope f sc r :
  frame_matches f sc ->
  spec (add_labels lexed (sc_id sc) (last_non_void (pre ++ l)) end_scope (enumerate_from (length pre) l) f) r
    (fun f' r' => r' = r /\
       frame_matches f' (add_block_labels (block_labels (sc_id sc) end_scope l) (concat (map declared_spans l)) sc) /\
       NoDup (map fst (block_labels (sc_id sc) end_scope l)) /\
       forall name, In name (map fst (block_labels (sc_id sc) end_scope l)) -> sf_labels f !! name = None)
    (fun e _ => error_ok lexed e).
Proof using Htokens.
  revert pre f sc. induction l as [| s l IH]; intros pre f sc Hf.
  { apply spec_ret. split; [done |]. split; [| by split; [constructor |]].
    unfold add_block_labels. cbn. rewrite !app_nil_r. by destruct sc. }
  rewrite enumerate_from_cons. cbn [add_labels block_labels map concat].
  assert (Hrest : forall f' labels spans, frame_matches f' (add_block_labels labels spans sc) ->
    spec (add_labels lexed (sc_id sc) (last_non_void (pre ++ s :: l)) end_scope (enumerate_from (S (length pre)) l) f') r
      (fun f'' r' => r' = r /\
         frame_matches f'' (add_block_labels (labels ++ block_labels (sc_id sc) end_scope l)
           (spans ++ concat (map declared_spans l)) sc) /\
         NoDup (map fst (block_labels (sc_id sc) end_scope l)) /\
         forall name, In name (map fst (block_labels (sc_id sc) end_scope l)) -> sf_labels f' !! name = None)
      (fun e _ => error_ok lexed e)).
  { intros f' labels spans Hf'. specialize (IH (pre ++ [s]) f' _ Hf'). rewrite <- app_assoc in IH.
    replace (length (pre ++ [s])) with (S (length pre)) in IH by (rewrite length_app; cbn; lia).
    rewrite <- add_block_labels_twice. exact IH. }
  set (f1 := {| sf_id := sf_id f |}).
  assert (H1 : frame_matches f1 (add_block_labels [] (declared_spans s) sc)) by (by apply frame_add_declared).
  destruct s as [| | | | | | | |name name_span lspan | | | | | | | |]; try exact (Hrest _ _ _ H1).
  rewrite <- (terminal_spec pre (Stmt_Label name name_span lspan) l) by done. unfold zlen.
  set (info := {| lb_scope := sc_id sc |}).
  destruct (sf_labels f1 !! name) as [other |] eqn:Hname; [apply spec_fail, diagnostic_ok; auto |].
  pose proof (frame_add_label f1 _ name info H1 Hname eq_refl) as H2. rewrite add_block_labels_twice in H2.
  eapply spec_weaken; [exact (Hrest _ _ _ H2) | | done].
  cbn beta. intros f' r' (-> & Hf' & Hnd & Hfresh). split; [done |]. split; [done |]. cbn [map fst].
  assert (Hnew : forall name', In name' (map fst (block_labels (sc_id sc) end_scope l)) -> name' <> name /\ sf_labels f !! name' = None).
  { intros name' Hin%Hfresh. cbn in Hin. by apply lookup_insert_None in Hin as [? ?]. }
  split.
  - constructor; [| done]. intros Hin%list_elem_of_In. by destruct (Hnew name Hin).
  - intros name' [<- | Hin]; [done | by apply Hnew].
Qed.

Definition labelled (Γ : env) (end_scope : bool) (statements : list Stmt) : env :=
  in_scope (add_block_labels (block_labels (inner_scope_id Γ) end_scope statements)
              (concat (map declared_spans statements))) Γ.

Lemma yields_register_labels p Γ statements terminator span end_scope :
  yields p Γ (register_labels lexed limits (Block_ statements terminator span) end_scope)
    (fun _ _ Γ' => grows Γ Γ' /\ Γ' = labelled Γ end_scope statements
       /\ NoDup (map fst (block_labels (inner_scope_id Γ) end_scope statements))).
Proof using Htokens.
  unfold register_labels. eapply yields_read; [by apply (current_scope_eq limits p Γ) |].
  apply yields_get. intros r Hr. destruct (_ <? _); [by apply (yields_limit lexed limits Htokens p Γ) |].
  revert r Hr. apply (yields_then lexed limits p Γ); [by apply yields_ensure_binding_capacity |]. intros r Hr.
  eapply runs_last_scope; [done |]. intros f l sc k Hs Hk Hf. revert r Hr Hs. intros r Hr _.
  revert r Hr. apply (yields_then lexed limits p Γ); [by apply yields_reserve |].
  apply (yields_then lexed limits p Γ); [by apply yields_reserve |]. intros r Hr.
  assert (inner_scope_id Γ = sc_id sc) as Hid by (unfold inner_scope_id; by rewrite Hk).
  rewrite Hid. eapply spec_seq; [apply (add_labels_spec [] statements end_scope f sc r Hf) | | done].
  cbn beta. intros f' r' (-> & Hf' & Hnd & _).
  eapply (runs_set_scope lexed limits p Γ r f' (add_block_labels _ _) tt); [done | |].
  - rewrite Hk. intros sc' k' [= <- <-]. split; [exact Hf' |]. split; [done |].
    intros m Hin. apply (inv_own _ _ _ _ Hr). unfold e_own. rewrite Hk. apply in_or_app. by left.
  - intros F _. unfold labelled. rewrite Hid. split; [| done]. by apply in_scope_grows; [apply Hr |].
Qed.

(** *** Jumps *)

Lemma enters_local_spec f from to :
  enters_local f from to = false <->
  forall d, In d (sf_declaration_spans f) -> ~ (span_start from < span_start d < span_start to).
Proof using Type.
  unfold enters_local. split.
  - intros He d Hin Hd. assert (existsb (fun declaration =>
      (span_start from <? span_start declaration) && (span_start declaration <? span_start to)) (sf_declaration_spans f) = true).
    { apply existsb_exists. exists d. split; [done |]. lia. }
    congruence.
  - intros H. apply not_true_is_false. intros (d & Hin & Hd)%existsb_exists. apply (H d Hin). lia.
Qed.

Lemma yields_validate_goto p Γ s :
  yields p Γ (validate_goto lexed s) (at_env Γ (fun _ _ => good_goto Γ s)).
Proof using Htokens.
  destruct s; try by apply yields_ret. apply yields_get. intros r Hr. rewrite (find_label_spec p Γ r name Hr).
  destruct (find_env_label Γ name) as [label |] eqn:Hl; [| by apply (yields_error lexed limits Htokens p Γ)].
  destruct (label_scope p Γ r name label Hr Hl) as (target & Ht & _).
  pose proof (scope_of_id_spec p Γ r (lb_scope label) Hr) as Hf. rewrite Ht in Hf. inversion Hf as [f sc Hm Hs |]; subst.
  cbv zeta. destruct (enters_local f span (lb_span label) && negb (lb_terminal label)) eqn:He; [by apply (yields_error lexed limits Htokens p Γ) |].
  eapply runs_ret; [done |]. intros F _. split; [done |]. exists label, target. split; [done |]. split; [done |].
  apply andb_false_iff in He as [He | He]; [right | left; by destruct (lb_terminal label)].
  rewrite <- (fm_declared _ _ Hm). by apply enters_local_spec.
Qed.

Lemma yields_validate_block_gotos p Γ statements terminator span :
  yields p Γ (validate_block_gotos lexed limits (Block_ statements terminator span))
    (at_env Γ (fun _ _ => Forall (good_goto Γ) statements)).
Proof using Htokens.
  unfold validate_block_gotos. apply yields_get. intros r Hr.
  destruct (_ <? _); [by apply (yields_limit lexed limits Htokens p Γ) |].
  revert r Hr. eapply yields_at.
  - apply (yields_each lexed limits p Γ _ (fun _ s (_ : unit) => good_goto Γ s)).
    apply List.Forall_forall. intros s _. apply yields_validate_goto.
  - intros l. apply yields_ret. intros F Hall. split; [done |]. clear -Hall. by induction Hall; constructor.
Qed.

(** The bindings of the target that a jump leaves, as the code goes through them. *)
Lemma goto_exits_spec p Γ r label span l path :
  inv p Γ r -> Forall (fun m => In m (bindings r)) l ->
  let exits := List.filter (fun m => span_start (bm_span m) <? span_start span)
    (take_while (fun m => lb_terminal label || (span_start (lb_span label) <? span_start (bm_span m))) l) in
  goto_exits lexed label span (map bm_id l) path r = (Ok {|
    cp_kind := cp_kind path; cp_span := cp_span path; cp_from_scope := cp_from_scope path;
    cp_target_scope := cp_target_scope path;
    cp_bindings := cp_bindings path ++ map bm_id (List.filter closes exits);
    cp_exited_bindings := cp_exited_bindings path ++ map bm_id exits |}, r).
Proof using Type.
  intros Hr Hl. revert path. induction Hl as [| m l Hm _ IH]; intros path.
  { cbn. rewrite !app_nil_r. by destruct path. }
  cbn [goto_exits map take_while]. unfold mbind at 1, st_bind, get.
  destruct (In_zget _ _ Hm) as [i Hi]. destruct (inv_numbered _ _ _ _ Hr _ _ Hi) as [Hid _].
  assert (zget (bindings r) (b_ordinal (bm_id m)) = Some m) as -> by (by rewrite Hid).
  cbn [mbind option_bind]. rewrite bool_decide_true by done.
  replace (lb_terminal label || _) with (negb (negb (lb_terminal label) && (span_start (bm_span m) <=? span_start (lb_span label))))
    by (destruct (lb_terminal label); cbn; lia).
  destruct (negb (lb_terminal label) && _) eqn:Hstop; cbn [negb].
  { cbn. rewrite !app_nil_r. by destruct path. }
  rewrite IH. cbn [List.filter]. destruct (_ <? _); [| done].
  cbn [cp_kind cp_span cp_from_scope cp_target_scope cp_bindings cp_exited_bindings List.filter map].
  unfold closes at 2. destruct (bm_close_marker m); cbn [map]; by rewrite <- ?app_assoc.
Qed.

Lemma filter_all {A} (f : A -> bool) l : (forall x, In x l -> f x = true) -> List.filter f l = l.
Proof using Type.
  induction l as [| x l IH]; cbn; [done |]. intros H. rewrite (H x) by (by left). rewrite IH; auto.
Qed.

Lemma take_while_In {A} (f : A -> bool) l x : In x (take_while f l) -> In x l.
Proof using Type. induction l as [| y l IH]; cbn; [done |]. destruct (f y); [| done]. intros [-> |]; auto. Qed.

Lemma goto_close_path_eq p Γ r label span target :
  inv p Γ r -> env_scope Γ (lb_scope label) = Some target -> In target (e_scopes Γ) ->
  goto_close_path lexed label span r = (Ok (jump_path label span Γ target), r).
Proof using Type.
  intros Hr Ht Hin. unfold goto_close_path, mbind at 1, st_bind. rewrite (close_path_eq p Γ r _ _ _ Hr).
  unfold jump_path, left_in_target. destruct (negb (lb_terminal label) && _); [by rewrite app_nil_r |].
  unfold mbind at 1, st_bind, get.
  pose proof (scope_of_id_spec p Γ r (lb_scope label) Hr) as Hf. rewrite Ht in Hf. inversion Hf as [f sc Hm Hs |]; subst.
  rewrite (fm_local _ _ Hm), rev_involutive. rewrite (goto_exits_spec p Γ).
  - unfold exit_path, path_of. cbn. rewrite !List.filter_app, !map_app.
    rewrite (filter_all is_lexical_binding (List.filter (fun m => span_start (bm_span m) <? span_start span) _)); [done |].
    intros m [Hm1 _]%filter_In. apply take_while_In, filter_In in Hm1. by destruct Hm1.
  - done.
  - apply List.Forall_forall. intros m [Hm' _]%filter_In. apply (inv_own _ _ _ _ Hr). unfold e_own.
    apply in_concat. exists (sc_bindings target). split; [by apply in_map | done].
Qed.

(** ** Statements that jump *)

Definition stated (Γ : env) (s : Stmt) (F : facts) (rs : ResolvedStmt) (Γ' : env) : Prop :=
  grows Γ Γ' /\ scoped_stmt profile F Γ s rs Γ'.

Lemma runs_stated p Γ r s rs : inv p Γ r -> (forall F, scoped_stmt profile F Γ s rs Γ) -> runs p r (mret rs) (stated Γ s).
Proof using Type. intros Hr Hs. eapply runs_ret; [done |]. intros F _. split; [by eapply grows_here | done]. Qed.

Lemma yields_resolve_break p Γ span : yields p Γ (resolve_break lexed span) (stated Γ (Stmt_Break span)).
Proof using Htokens.
  apply yields_get. intros r Hr. rewrite (inv_loops _ _ _ _ Hr).
  destruct (e_loops Γ) as [| target loops] eqn:Hl; cbn [head]; [by apply (yields_error lexed limits Htokens p Γ) |].
  eapply runs_read; [by apply (close_path_eq p Γ) |]. apply runs_stated; [done |]. intros F. by eapply scoped_Break.
Qed.

Lemma inv_with_goto_count p Γ r n : inv p Γ r -> inv p Γ (with_goto_count r n).
Proof using Type. by intros []. Qed.

Lemma inv_with_label_count p Γ r n : inv p Γ r -> inv p Γ (with_label_count r n).
Proof using Type. by intros []. Qed.

(** A step to a state that also fits, with the same bindings, captures and functions. *)
Lemma runs_step {A} p r r' (m : ResolveM A) (P : facts -> A -> env -> Prop) :
  extends r r' -> runs p r' m P -> runs p r (put r';; m) P.
Proof using Type.
  intros He Hm. apply spec_bind, spec_put. eapply spec_weaken; [exact Hm | | done].
  cbn beta. intros a r2 (Γ2 & H2 & E2 & HP). exists Γ2. split; [done |]. split; [by eapply extends_then | done].
Qed.

Lemma yields_resolve_goto p Γ name name_span span :
  yields p Γ (resolve_goto lexed limits name name_span span) (stated Γ (Stmt_Goto name name_span span)).
Proof using Htokens.
  apply yields_get. intros r Hr. destruct (_ <=? _); [by apply (yields_limit lexed limits Htokens p Γ) |].
  apply runs_step; [by split |]. change (find_label r name) with (find_label (with_goto_count r (goto_count r + 1)) name).
  apply (inv_with_goto_count p Γ r (goto_count r + 1)) in Hr. revert Hr. generalize (with_goto_count r (goto_count r + 1)). clear r.
  intros r Hr. rewrite (find_label_spec p Γ r name Hr).
  destruct (find_env_label Γ name) as [label |] eqn:Hl; [| by apply (yields_error lexed limits Htokens p Γ)].
  destruct (label_scope p Γ r name label Hr Hl) as (target & Ht & Hin).
  eapply runs_read; [by apply (goto_close_path_eq p Γ r label span target) |]. apply runs_stated; [done |]. intros F. by eapply scoped_Goto.
Qed.

Lemma yields_resolve_label p Γ name name_span span :
  yields p Γ (resolve_label lexed limits name name_span span) (stated Γ (Stmt_Label name name_span span)).
Proof using Htokens.
  apply yields_get. intros r Hr. destruct (_ <=? _); [by apply (yields_limit lexed limits Htokens p Γ) |].
  apply (runs_step p r (with_label_count r (label_count r + 1)) _ (stated Γ (Stmt_Label name name_span span))); [by split |].
  apply (runs_stated p Γ); [by apply inv_with_label_count |]. intros F. constructor.
Qed.

(** ** Blocks *)

Lemma block_target_spec p Γ r statements : inv p Γ r ->
  (if (zlen (scopes r) =? 1)
      && existsb is_label (drop (Z.to_nat (match last_non_void statements with Some i => i + 1 | None => 0 end)) statements)
   then None else
   match scopes r with
   | [] => None
   | [scope] => Some (sf_id scope)
   | _ :: scope :: _ => Some (sf_id scope)
   end) = block_target Γ statements.
Proof using Type.
  intros Hr. rewrite suffix_label. unfold block_target. pose proof (inv_scopes _ _ _ _ Hr) as Hf.
  destruct Hf as [| f sc l k Hm Hf]; [by rewrite andb_false_l |].
  destruct Hf as [| f' sc' l k Hm' Hf].
  - cbn [zlen length]. cbn. by rewrite (fm_id _ _ Hm).
  - replace (zlen (f :: f' :: l) =? 1) with false by (rewrite !zlen_cons; pose proof (zlen_nonneg l); lia).
    cbn. by rewrite (fm_id _ _ Hm').
Qed.

Definition blocked (Γ : env) (end_scope : bool) (b : Block) (F : facts) (rb : ResolvedBlock) (Γ' : env) : Prop :=
  grows Γ Γ' /\ scoped_block profile F Γ end_scope b rb Γ'.

Definition all_stated (Γ : env) (l : list Stmt) (F : facts) (rs : list ResolvedStmt) (Γ' : env) : Prop :=
  grows Γ Γ' /\ scoped_stmts profile F Γ l rs Γ'.

Lemma yields_block_shell p Γ statements terminator span end_scope (m : ResolveM (list ResolvedStmt)) :
  (forall Γ1, yields p Γ1 m (all_stated Γ1 statements)) ->
  yields p Γ (block_shell lexed limits (Block_ statements terminator span) end_scope m)
    (blocked Γ end_scope (Block_ statements terminator span)).
Proof using Htokens.
  intros Hm. unfold block_shell. destruct (_ || _); [by apply yields_limit |].
  eapply yields_bind; [apply yields_register_labels |]. intros u Γ1 F0 _.
  eapply yields_at; [apply yields_validate_block_gotos |]. intros v.
  apply yields_then; [by apply yields_reserve |].
  eapply yields_bind; [apply Hm |]. intros rs Γ2 F1 _.
  apply yields_get. intros r Hr. rewrite (block_target_spec p Γ2 r statements Hr).
  eapply runs_read; [by apply (current_scope_eq limits p Γ2) |].
  do 2 (eapply runs_read; [by apply (close_path_eq p Γ2) |]).
  eapply runs_ret; [done |]. intros F _ [G2 Hs] Hgoto (G1 & -> & Hnd).
  split; [by eapply grows_trans |]. rewrite (grows_inner _ _ G2), (grows_inner _ _ G1).
  by eapply scoped_statements.
Qed.
End Exits.
