(* ===== verification/ResolveFunctions.v ===== *)
(** Functions inside functions: what the resolver of one sees of the functions
    around it, and how what it captures reaches them. *)

From Stdlib Require Import ZArith Lia.
From stdpp Require Import base list gmap numbers strings.
From S2P Require Import Prelude Float Number Lexer Ast Parser Resolve ResolveSpec ResolveState ResolveNames ResolveScopes ResolveExits.

Local Open Scope Z_scope.

Lemma zget_nil {A} i (x : A) : zget [] i = Some x -> False.
Proof. intros H%zget_lt. unfold zlen in H. cbn in H. lia. Qed.

Section Functions.
Context (lexed : LexedChunk) (limits : CompileLimits) (profile : LuaProfile) {alloc : Reserver}.
Context (Htokens : ch_tokens lexed <> []).
Abbreviation inv := (inv limits).
Abbreviation yields := (yields lexed limits).
Abbreviation runs := (runs lexed limits).

(** ** What a child sees *)

Section Child.
Context (p : FunctionId) (Γ : env) (r : Resolver) (Hr : inv p Γ r).

Lemma foldl_access l (acc : gmap BindingId bool) b :
  foldl (fun visible meta => <[bm_id meta := bm_readonly meta]> visible) acc l !! b =
    match find (fun m => bool_decide (bm_id m = b)) (rev l) with Some m => Some (bm_readonly m) | None => acc !! b end.
Proof using Type.
  induction l as [| m l IH] using rev_ind; [done |]. rewrite foldl_snoc, rev_app_distr. cbn [rev app find].
  rewrite lookup_insert. case_decide; case_bool_decide; done.
Qed.

Lemma visible_binding_access_spec b : visible_binding_access r !! b = binding_readonly r b.
Proof using Hr.
  unfold visible_binding_access, binding_readonly, find_meta. rewrite foldl_access, Forall2_rev_find; [done |].
  intros x y Hx Hy Hix%bool_decide_eq_true Hiy%bool_decide_eq_true.
  eapply numbered_inj; [apply Hr | done | done | congruence].
Qed.

Lemma own_function m : In m (e_own Γ) -> b_function (bm_id m) = owner r.
Proof using Hr. intros Hm. eapply numbered_function; [apply Hr | by apply (inv_own _ _ _ _ Hr)]. Qed.

Lemma outer_function m : In m (e_outer Γ) -> 0 <= b_function (bm_id m) < owner r.
Proof using Hr. intros Hm. apply (inv_outer _ _ _ _ Hr _ Hm). Qed.

Lemma foldr_visible {A B} (g : A -> B) (l : list ScopeFrame) (inherited : gmap (list Z) B)
    (field : ScopeFrame -> gmap (list Z) A) name :
  foldr (fun f visible => (g <$> field f) ∪ visible) inherited l !! name =
    match find_scope (fun f => field f !! name) l with Some b => Some (g b) | None => inherited !! name end.
Proof using Type.
  induction l as [| f l IH]; cbn [foldr find_scope]; [done |]. rewrite lookup_union, lookup_fmap, IH.
  by destruct (field f !! name), (find_scope _ l), (inherited !! name).
Qed.

Lemma visible_bindings_spec name :
  visible_bindings r !! name = parent_view (owner r) <$> lookup_binding name (e_visible Γ).
Proof using Hr.
  unfold visible_bindings. rewrite foldr_visible. fold (own_binding r name).
  rewrite (own_binding_spec limits p Γ r Hr). unfold e_visible, lookup_binding at 2. rewrite find_app.
  fold (lookup_binding name (e_own Γ)) (lookup_binding name (e_outer Γ)).
  destruct (lookup_binding name (e_own Γ)) as [m |] eqn:Hl; cbn.
  - apply lookup_binding_In in Hl as [Hin _]. rewrite (own_binding_global limits p Γ r Hr m Hin). unfold parent_view.
    by rewrite (bool_decide_true _ (own_function m Hin)).
  - rewrite lookup_fmap. transitivity ((fun p => match p with PDirect b | PAncestor b => PAncestor b | PGlobal b => PGlobal b end)
      <$> parent_binding r name).
    { unfold parent_binding. destruct (parent_visible r); cbn; [done |]. by rewrite lookup_empty. }
    rewrite (parent_binding_spec limits p Γ r Hr). destruct (lookup_binding name (e_outer Γ)) as [m |] eqn:Ho; [| done].
    apply lookup_binding_In in Ho as [Hin _]. apply outer_function in Hin. cbn. unfold parent_view. f_equal.
    destruct (is_global_binding m); [done |]. rewrite (bool_decide_false (b_function (bm_id m) = owner r)) by lia.
    by case_bool_decide.
Qed.

Lemma inv_child :
  inv (owner r) (function_env Γ (next_function r))
    (entered (child_resolver (with_next_function r (next_function r + 1)) (next_function r))).
Proof using Hr.
  pose proof (inv_functions _ _ _ _ Hr) as Hn. split; cbn; try done.
  - left. lia.
  - by intros k m Hk%zget_nil.
  - unfold zlen. cbn. lia.
  - constructor; [apply frame_new | constructor].
  - apply NoDup_singleton.
  - constructor; [cbn; lia | constructor].
  - apply (effective_global_mode_spec limits p Γ r Hr).
  - apply (inv_root _ _ _ _ Hr).
  - intros m Hin. split.
    + apply in_app_or in Hin as [Hin | Hin]; [apply own_function in Hin | apply outer_function in Hin]; lia.
    + change (visible_binding_access r !! bm_id m = Some (bm_readonly m)).
      rewrite visible_binding_access_spec. by apply (readonly_visible limits p Γ r Hr).
  - change (forall b, is_Some (visible_binding_access r !! b) -> b_function b < next_function r).
    intros b. rewrite visible_binding_access_spec. unfold binding_readonly, find_meta.
    destruct (find _ _) as [m |] eqn:Hf.
    + intros _. apply find_some in Hf as [Hin <-%bool_decide_eq_true].
      rewrite (numbered_function _ _ _ (inv_numbered _ _ _ _ Hr) Hin). lia.
    + intros Hb%(inv_metadata _ _ _ _ Hr). lia.
  - apply visible_bindings_spec.
  - unfold zlen. cbn. lia.
  - by intros u b Hu%zget_nil.
  - intros u b. rewrite lookup_empty. split; [done |]. by intros Hu%zget_nil.
  - intros name readonly b. rewrite lookup_empty. by destruct readonly.
  - lia.
  - by replace (next_function r + 1 - next_function r - 1) with 0 by lia.
Qed.

(** ** Captures for a child *)

Lemma outer_of_visible b :
  (exists name m, lookup_binding name (e_visible Γ) = Some m /\ is_global_binding m = false /\ bm_id m = b) ->
  b_function b <> owner r -> outer_variable Γ b.
Proof using Hr.
  intros (name & m & Hl & Hg & Hid) Hne. exists name, m. split; [| done].
  unfold e_visible, lookup_binding in Hl. rewrite find_app in Hl.
  destruct (find _ (e_own Γ)) as [m' |] eqn:Ho; [| done]. injection Hl as ->.
  apply find_some in Ho as [Hin _]. apply own_function in Hin. congruence.
Qed.

Lemma capture_source b : outer_variable Γ b ->
  (visible ← parent_visible r; find (is_capture_of b) (map_to_list visible).*2)
    = Some (if bool_decide (b_function b = p) then PDirect b else PAncestor b).
Proof using Hr.
  intros (name & m & Hl & Hg & Hid). pose proof (inv_visible _ _ _ _ Hr) as Hv.
  destruct (parent_visible r) as [visible |]; cbn [mbind option_bind]; [| by rewrite Hv in Hl].
  destruct (find _ _) as [x |] eqn:Hf.
  - apply find_some in Hf as [Hin Hc]. apply list_elem_of_In, list_elem_of_fmap in Hin as ([name' x'] & -> & Hin%elem_of_map_to_list).
    rewrite Hv in Hin. destruct (lookup_binding name' (e_outer Γ)) as [m' |]; [| done]. cbn in Hin.
    injection Hin as <-. cbn [snd] in Hc |- *. unfold parent_view in *.
    destruct (is_global_binding m'); [done |].
    assert (bm_id m' = b) as <- by (case_bool_decide; by apply bool_decide_eq_true in Hc).
    by case_bool_decide.
  - exfalso. specialize (Hv name). rewrite Hl in Hv. cbn in Hv.
    apply elem_of_map_to_list, (list_elem_of_fmap_2 snd), list_elem_of_In in Hv.
    pose proof (find_none _ _ Hf _ Hv) as Hc. cbn [snd] in Hc. unfold parent_view in Hc. rewrite Hg, Hid in Hc.
    case_bool_decide; cbn in Hc; by rewrite bool_decide_true in Hc.
Qed.
End Child.

Lemma yields_capture_for_child p Γ b span :
  (exists name m, lookup_binding name (e_visible Γ) = Some m /\ is_global_binding m = false /\ bm_id m = b) ->
  b_function b <> e_function Γ ->
  yields p Γ (capture_for_child lexed limits b span) (captures Γ b).
Proof using Htokens.
  intros Hb Hne. unfold capture_for_child. apply yields_get. intros r Hr. rewrite <- (inv_owner _ _ _ _ Hr) in Hne.
  pose proof (outer_of_visible p Γ r Hr b Hb Hne) as Ho. rewrite (capture_source p Γ r Hr b Ho).
  case_bool_decide; [by apply yields_capture_parent_local | by apply yields_capture_ancestor].
Qed.

(** ** Linking the captures of a child *)

(** What a child's upvalue is after the captures [pending] are linked. *)
Definition linked (Γ : env) (pending : list (BindingId * UpvalueId)) (before after : list UpvalueSource) (F : facts) : Prop :=
  zlen after = zlen before /\
  forall u, (zget after u = zget before u /\ forall b, ~ In (b, u) pending) \/
    exists b v, In (b, u) pending /\ zget after u = Some (ParentUpvalue v) /\ den F (e_function Γ) v b.

Lemma yields_link_captures p Γ span pending sources :
  (forall b u, In (b, u) pending -> 0 <= u < zlen sources /\ b_function b <> e_function Γ /\
     exists name m, lookup_binding name (e_visible Γ) = Some m /\ is_global_binding m = false /\ bm_id m = b) ->
  yields p Γ (link_captures lexed limits span pending sources)
    (at_env Γ (fun F after => linked Γ pending sources after F)).
Proof using Htokens.
  revert sources. induction pending as [| [b u] pending IH]; intros sources Hp; cbn [link_captures].
  { apply yields_ret. intros F. split; [done |]. split; [done |]. intros u. left. auto. }
  destruct (Hp b u) as (Hu & Hne & Hb); [by left |].
  eapply yields_bind; [by apply yields_capture_for_child |]. intros v Γ' F0 [-> _].
  destruct (Z.leb_spec (zlen sources) u); [lia |].
  eapply yields_read with (a := zinsert sources u (ParentUpvalue v)).
  { intros r _. unfold lift, vset. by destruct (zget_is_Some sources u Hu) as [x ->]. }
  eapply yields_weaken; [apply IH |].
  - intros b' u' Hin. rewrite zlen_zinsert. apply Hp. by right.
  - intros F after Γ' [-> [Hlen Hl]] [_ Hd]. split; [done |]. rewrite zlen_zinsert in Hlen. split; [done |].
    intros u'. destruct (Hl u') as [[Hg Hno] | (b' & v' & Hin & Hg & Hd')].
    + destruct (decide (u' = u)) as [-> |].
      * right. exists b, v. split; [by left |]. rewrite zget_zinsert_eq in Hg by done. by split.
      * left. rewrite zget_zinsert_ne in Hg by (done || lia). split; [done |]. intros b' [[= _ ->] | Hin]; [done |]. by apply (Hno b').
    + right. exists b', v'. split; [by right | done].
Qed.

(** The captures do not touch the number of functions. *)
Definition unaffected {A} (n : Z) (m : ResolveM A) : Prop :=
  forall r, m (with_next_function r n) = (let '(x, r') := m r in (x, with_next_function r' n)).

Lemma unaffected_bind {A B} n (m : ResolveM A) (k : A -> ResolveM B) :
  unaffected n m -> (forall a, unaffected n (k a)) -> unaffected n (m ≫= k).
Proof using Type.
  intros Hm Hk r. unfold mbind, st_bind. rewrite Hm. destruct (m r) as [[a | e | c] r']; [apply Hk | done | done].
Qed.

Lemma unaffected_reserve_upvalue n b source span : unaffected n (reserve_upvalue lexed limits b source span).
Proof using Type.
  intros r. unfold reserve_upvalue, mbind, st_bind, get. cbn.
  destruct (upvalue_ids r !! b); [done |]. destruct (_ <=? _); [done |]. by destruct (_ <? _).
Qed.

(** The state is read, but not its number of functions. *)
Lemma unaffected_get {A} n (k : Resolver -> ResolveM A) :
  (forall r, k (with_next_function r n) = k r) -> (forall r, unaffected n (k r)) -> unaffected n (r ← get; k r).
Proof using Type. intros Hk Hu r. unfold mbind, st_bind, get. rewrite Hk. apply Hu. Qed.

Lemma unaffected_capture_ancestor n b span : unaffected n (capture_ancestor lexed limits b span).
Proof using Type.
  apply unaffected_get; [done |]. intros r. destruct (upvalue_ids r !! b); [done |].
  apply unaffected_bind; [apply unaffected_reserve_upvalue | done].
Qed.

Lemma unaffected_capture_for_child n b span : unaffected n (capture_for_child lexed limits b span).
Proof using Type.
  apply unaffected_get; [done |]. intros r.
  destruct (_ ≫= _) as [[b' | b' | b'] |]; [apply unaffected_reserve_upvalue | apply unaffected_capture_ancestor | done | done].
Qed.

Lemma unaffected_link_captures n span pending sources : unaffected n (link_captures lexed limits span pending sources).
Proof using Type.
  revert sources. induction pending as [| [b u] pending IH]; intros sources; cbn [link_captures]; [done |].
  apply unaffected_bind; [apply unaffected_capture_for_child |]. intros v.
  destruct (_ <=? _); [done |]. apply unaffected_bind; [done | auto].
Qed.

Lemma unaffected_next {A} (m : ResolveM A) r a r' :
  (forall n, unaffected n m) -> m r = (Ok a, r') -> next_function r' = next_function r.
Proof using Type.
  intros Hm Hr. pose proof (Hm (next_function r) r) as H. rewrite Hr in H.
  replace (with_next_function r (next_function r)) with r in H by (by destruct r). rewrite Hr in H.
  by injection H as ->.
Qed.

(** ** The parameters and the block of a function *)

Lemma inv_with_vararg p Γ r available binding :
  inv p Γ r -> inv p (with_env_vararg Γ (if available : bool then Some binding else None)) (with_vararg r available binding).
Proof using Type. intros Hr. by destruct Hr. Qed.

Definition in_child (Γ : env) (f : FunctionId) (method : option MethodName) (parameters : list LocalName)
    (vararg : option Vararg) (block : Block) (F : facts)
    (x : list ResolvedLocalName * option ResolvedVararg * ResolvedBlock) (Γ4 : env) : Prop :=
  e_outer Γ4 = e_visible Γ /\
  let '(names, rest, resolved) := x in
  exists self params Γ1 Γ2 Γ3,
    names = self ++ params /\
    declares_self F (function_env Γ f) method self Γ1 /\
    declares_names F BindingKind.Parameter_ ln_attribute (fun _ => false) 0 Γ1 parameters params Γ2 /\
    declares_vararg profile F Γ2 vararg rest Γ3 /\
    scoped_block profile F Γ3 true block resolved Γ4.

Lemma grows_outer Γ Γ' : grows Γ Γ' -> e_outer Γ' = e_outer Γ.
Proof using Type. by intros (sc & sc' & k & _ & _ & ->). Qed.

Lemma child_body_spec p Γ f child parameters vararg span method block (m : ResolveM ResolvedBlock) :
  inv p (function_env Γ f) (entered child) ->
  (forall Γ1, yields p Γ1 m (blocked profile Γ1 true block)) ->
  spec (child_body lexed limits profile parameters vararg span method m) child
    (fun x child' => exists Γ4, inv p Γ4 child' /\ extends (entered child) child' /\
       forall F, facts_le (facts_at child') F -> in_child Γ f method parameters vararg block F x Γ4)
    (fun e _ => error_ok lexed e).
Proof using Htokens.
  intros Hc Hm. unfold child_body. eapply spec_seq; [by apply (enter_scope_spec lexed limits Htokens) | | done].
  cbn beta. intros _ r ->. revert Hc. generalize (entered child). clear child.
  refine (_ : yields p (function_env Γ f) _ (in_child Γ f method parameters vararg block)).
  apply yields_then; [by apply yields_ensure_list |].
  destruct (checked_add_usize _ _) as [count |]; [| by apply yields_limit].
  destruct (_ <? _); [by apply yields_limit |].
  apply yields_then; [by apply yields_ensure_binding_capacity |].
  apply yields_then; [by apply yields_reserve |].
  eapply yields_bind; [by apply yields_declare_self |]. intros self Γ1 F0 _.
  eapply yields_bind; [by apply (yields_declare_parameters lexed limits Htokens p Γ1 parameters 0) |]. intros params Γ2 F1 _.
  eapply yields_bind_at; [by apply yields_declare_vararg |]. intros rest Γ3 r Hr _.
  apply spec_bind. unfold modify, spec at 1.
  apply (inv_with_vararg _ _ _ (if rest is Some _ then true else false) (rest ≫= rv_table_binding)) in Hr.
  replace (if if rest is Some _ then true else false then Some (rest ≫= rv_table_binding) else None)
    with (rv_table_binding <$> rest) in Hr by (by destruct rest).
  set (r' := with_vararg r _ _) in *.
  assert (Hext : extends r r') by (by split).
  assert (Hruns : runs p r' (block ← m; mret (self ++ params, rest, block)) (fun F x Γ4 =>
    grows (with_env_vararg Γ3 (rv_table_binding <$> rest)) Γ4 /\
    exists rb, x = (self ++ params, rest, rb) /\
      scoped_block profile F (with_env_vararg Γ3 (rv_table_binding <$> rest)) true block rb Γ4)).
  { eapply runs_bind; [by apply Hm |]. intros rb Γ4 r4 H4 _. eapply runs_ret; [done |].
    intros F _ [G4 Hb]. split; [done |]. eauto. }
  eapply spec_weaken; [exact Hruns | | done]. cbn beta. intros x r4 (Γ4 & H4 & E4 & HP).
  exists Γ4. split; [done |]. split; [by eapply extends_then |].
  intros F HF [G3 D3] [G2 D2] [G1 D1]. destruct (HP F HF) as (G4 & rb & -> & Hb).
  split; [| eauto 10]. rewrite (grows_outer _ _ G4). cbn.
  by rewrite (grows_outer _ _ G3), (grows_outer _ _ G2), (grows_outer _ _ G1).
Qed.

(** ** The parent takes the child in *)

Definition taken (r child : Resolver) (rf : ResolvedFunction) : Resolver :=
  with_completed (with_next_function r (next_function child)) (completed_functions r ++ rf :: completed_functions child).

Section Taken.
Context (p : FunctionId) (Γ Γ4 : env) (r child : Resolver) (span : Span) (sources : list UpvalueSource).
Context (Hr : inv p Γ r) (Hc : inv (owner r) Γ4 child).
Context (Howner : owner child = next_function r) (Houter : e_outer Γ4 = e_visible Γ).
Context (Hlinked : linked Γ (pending_ancestor_captures child) (upvalues child) sources (facts_at r)).

Definition record : ResolvedFunction := {|
  rf_id := owner child; rf_parent := Some (owner r); rf_span := span; rf_bindings := bindings child;
  rf_upvalues := sources
|}.

(** What the child captured is now reached from its record. *)
Lemma child_capture u b : zget (upvalue_bindings child) u = Some b -> den (facts_at (taken r child record)) (owner child) u b.
Proof using Hr Hc Hlinked.
  intros Hu. destruct (inv_captured _ _ _ _ Hc u b Hu) as (Hsrc & name & m & Hl & Hg & Hid & Hor).
  assert (Hin : In record (completed_functions (taken r child record))).
  { cbn. apply in_or_app. right. by left. }
  change (owner child) with (rf_id record).
  destruct (proj2 Hlinked u) as [[Hz Hno] | (b' & v & Hp & Hz & Hd)].
  - destruct Hor as [Hb | Hp]; [| by destruct (Hno b)].
    apply chain_local; [done | by cbn; rewrite Hz | cbn; congruence].
  - destruct (inv_pending _ _ _ _ Hc u b' Hp) as [Hu' _]. assert (b' = b) as -> by congruence.
    eapply chain_upvalue with (p := owner r); [done | done | done |]. cbn [owner taken with_completed with_next_function].
    apply chain_open. cbn. by eapply (own_upvalue limits p Γ r).
Qed.

Lemma taken_facts : facts_le (facts_at child) (facts_at (taken r child record)).
Proof using Hr Hc Hlinked.
  split_and!; cbn.
  - intros f u b. apply chain_weaken; [intros rf Hin; apply in_or_app; right; by right |].
    intros u' b' Hu. by apply child_capture.
  - intros m [Hin | (rf & Hrf & Hin)]; right.
    + exists record. split; [apply in_or_app; right; by left | done].
    + exists rf. split; [apply in_or_app; right; by right | done].
  - intros f q s (rf & Hrf & H). exists rf. split; [apply in_or_app; right; by right | done].
Qed.

Lemma taken_extends : extends r (taken r child record).
Proof using Type. split; cbn; try done. by apply prefix_app_r. Qed.

Lemma good_record : good_function limits (den (facts_at (taken r child record))) record.
Proof using Hr Hc Hlinked Howner Houter.
  pose proof (proj1 Hlinked) as Hlen. pose proof (inv_functions _ _ _ _ Hr) as Hn. split; cbn [rf_id rf_bindings rf_upvalues rf_parent record].
  - apply Hc.
  - apply Hc.
  - rewrite Hlen. apply Hc.
  - exists (owner r). split; [done | lia].
  - intros u Hu. rewrite Hlen, (inv_upvalues _ _ _ _ Hc) in Hu. destruct (zget_is_Some _ _ Hu) as [b Hb].
    exists b. split; [by apply child_capture |].
    destruct (inv_captured _ _ _ _ Hc u b Hb) as (_ & name & m & Hl & _ & <- & _).
    apply lookup_binding_In in Hl as [Hin _]. apply (inv_outer _ _ _ _ Hc _ Hin).
Qed.

Lemma inv_taken : inv p Γ (taken r child record).
Proof using Hr Hc Hlinked Howner Houter.
  pose proof good_record as Hgood. pose proof taken_facts as Hfacts. pose proof taken_extends as Hext.
  pose proof (good_extends limits _ _ Hext (inv_good _ _ _ _ Hr)) as Hgr.
  pose proof (inv_functions _ _ _ _ Hc) as Hn. pose proof (inv_functions _ _ _ _ Hr) as Hn'.
  destruct Hr. split; try done; cbn.
  - lia.
  - rewrite map_app. cbn [map rf_id record]. rewrite inv_completed, (ResolveState.inv_completed _ _ _ _ Hc), Howner.
    replace (next_function child - owner r - 1)
      with ((next_function r - owner r - 1) + Z.succ (next_function child - next_function r - 1)) by lia.
    rewrite seqZ_app by lia. f_equal. rewrite (seqZ_cons (owner r + 1 + _)) by lia. f_equal; [lia |].
    f_equal; lia.
  - apply Forall_app. split; [exact Hgr |]. constructor; [exact Hgood |].
    eapply Forall_impl; [apply (ResolveState.inv_good _ _ _ _ Hc) |]. intros rf. apply good_mono. apply Hfacts.
Qed.
End Taken.

Definition functioned (Γ : env) (method : option MethodName) (body : FunctionBody) : facts -> ResolvedFunctionBody -> env -> Prop :=
  at_env Γ (fun F resolved => scoped_function profile F Γ method body resolved).

Lemma function_body_state p Γ r r1 child span names rest resolved method parameters vararg block Γ4 sources :
  inv p Γ r1 -> extends r r1 -> inv (owner r1) Γ4 child -> owner child = next_function r1 ->
  linked Γ (pending_ancestor_captures child) (upvalues child) sources (facts_at r1) ->
  (forall F, facts_le (facts_at child) F ->
     in_child Γ (owner child) method parameters vararg block F (names, rest, resolved) Γ4) ->
  let r' := taken r1 child (record r1 child span sources) in
  inv p Γ r' /\ extends r r' /\ forall F, facts_le (facts_at r') F ->
    functioned Γ method (FunctionBody_ parameters vararg block span)
      F (RFunctionBody (owner child) names rest resolved span) Γ.
Proof using Type.
  intros H1 He Hc Ho Hl HP r'.
  destruct (HP _ (facts_le_refl _)) as [Houter _].
  split; [by eapply inv_taken |]. split; [eapply extends_then; [exact He | apply taken_extends] |].
  intros F HF. split; [done |].
  assert (Hcomp : compiled F (owner child) (e_function Γ) span).
  { apply HF. exists (record r1 child span sources). split; [cbn; apply in_or_app; right; by left |].
    by rewrite <- (inv_owner _ _ _ _ H1). }
  destruct (HP F) as [_ (self & params & Γ1 & Γ2 & Γ3 & -> & D1 & D2 & D3 & Hb)].
  { eapply facts_le_trans; [by apply (taken_facts p Γ Γ4 r1 child span sources H1 Hc Hl) | done]. }
  by eapply scoped_body.
Qed.

Lemma yields_function_body p Γ parameters vararg span method block (m : ResolveM ResolvedBlock) :
  (forall q Γ1, yields q Γ1 m (blocked profile Γ1 true block)) ->
  yields p Γ (function_body lexed limits profile parameters vararg span method m)
    (functioned Γ method (FunctionBody_ parameters vararg block span)).
Proof using Htokens.
  intros Hm. apply yields_get. intros r Hr. destruct (_ <? _); [by apply (yields_limit lexed limits Htokens p Γ) |].
  apply spec_bind, spec_put, spec_bind, spec_get, spec_bind. unfold spec at 1, run_child.
  pose proof (child_body_spec (owner r) Γ (next_function r) _ parameters vararg span method block m
    (inv_child p Γ r Hr) (Hm _)) as Hchild. unfold spec in Hchild.
  destruct (child_body _ _ _ _ _ _ _ _ _) as [[[[names rest] resolved] | e | c] child]; [| done | done].
  destruct Hchild as (Γ4 & Hc & Ec & HP). cbv zeta.
  assert (Ho : owner child = next_function r) by apply (ext_owner _ _ Ec).
  destruct (HP _ (facts_le_refl _)) as [Houter _].
  assert (Hlink : runs p r (link_captures lexed limits span (pending_ancestor_captures child) (upvalues child))
    (at_env Γ (fun F after => linked Γ (pending_ancestor_captures child) (upvalues child) after F))).
  { apply yields_link_captures; [| done]. intros b u Hin. destruct (inv_pending _ _ _ _ Hc u b Hin) as [Hu Hne].
    rewrite (inv_upvalues _ _ _ _ Hc), <- (inv_owner _ _ _ _ Hr), <- Houter. split; [by eapply zget_lt |]. split; [done |].
    destruct (inv_captured _ _ _ _ Hc u b Hu) as (_ & name & k & Hl & Hg & Hid & _). eauto. }
  apply spec_bind. unfold spec at 1.
  cbn [pop_scope with_scopes pending_ancestor_captures upvalues].
  rewrite (unaffected_link_captures (next_function r + 1)).
  unfold ResolveState.runs, spec in Hlink.
  destruct (link_captures _ _ _ _ _ r) as [[sources | e | c] r1] eqn:Hr1; [| done | done].
  destruct Hlink as (Γ' & H1 & E1 & HP1). destruct (HP1 _ (facts_le_refl _)) as [-> Hl].
  assert (Hn1 : next_function r1 = next_function r).
  { eapply unaffected_next; [| exact Hr1]. intros n. apply unaffected_link_captures. }
  rewrite <- (ext_owner _ _ E1) in Hc. rewrite <- Hn1 in Ho.
  exists Γ. pose proof (function_body_state p Γ r r1 child span names rest resolved method parameters vararg block Γ4 sources
    H1 E1 Hc Ho Hl) as Hend.
  unfold record in Hend. rewrite Ho, Hn1 in Hend. exact (Hend HP).
Qed.
End Functions.
