(* ===== verification/ResolveTree.v ===== *)
(** The resolver on the whole tree: induction over syntax trees, and every construct
    against its rule of static scoping. *)

From Stdlib Require Import ZArith Lia.
From stdpp Require Import base list gmap numbers strings.
From S2P Require Import Prelude Float Number Lexer Ast Parser Resolve ResolveSpec ResolveState ResolveNames ResolveScopes ResolveExits ResolveFunctions.

Local Open Scope Z_scope.

(** ** Induction over syntax trees

    A property of each kind of tree that follows from that of its parts holds. *)

Definition Forall_all {A} {P : A -> Prop} (f : forall x, P x) : forall l, Forall P l :=
  fix go l := match l with [] => @List.Forall_nil A P | x :: l => @List.Forall_cons A P x l (f x) (go l) end.

Definition option_holds {A} (P : A -> Prop) (o : option A) : Prop := match o with Some x => P x | None => True end.

Definition option_all {A} {P : A -> Prop} (f : forall x, P x) (o : option A) : option_holds P o :=
  match o with Some x => f x | None => I end.

Section Induction.
Context (PE : Expr -> Prop) (PF : TableField -> Prop) (PB : FunctionBody -> Prop) (PK : Block -> Prop)
  (PS : Stmt -> Prop) (PG : GlobalDeclaration -> Prop).

Definition expr_parts (e : Expr) : Prop :=
  match e with
  | Expr_Unary _ e _ | Expr_Paren e _ | Expr_Field e _ _ => PE e
  | Expr_Binary _ a b _ | Expr_Index a b _ => PE a /\ PE b
  | Expr_Call f es _ | Expr_MethodCall f _ es _ => PE f /\ Forall PE es
  | Expr_Function b _ => PB b
  | Expr_TableConstructor fs _ => Forall PF fs
  | _ => True
  end.

Definition field_parts (f : TableField) : Prop :=
  match f with
  | Field_Array v _ _ | Field_Named _ v _ _ => PE v
  | Field_Indexed k v _ _ => PE k /\ PE v
  end.

Definition stmt_parts (s : Stmt) : Prop :=
  match s with
  | Stmt_Return es _ | Stmt_Local _ es _ => Forall PE es
  | Stmt_Assignment ts es _ => Forall PE ts /\ Forall PE es
  | Stmt_Call e _ => PE e
  | Stmt_Global d _ => PG d
  | Stmt_Do b _ => PK b
  | Stmt_If cs o _ => Forall (fun c => PE c.1 /\ PK c.2) cs /\ option_holds PK o
  | Stmt_While e b _ | Stmt_Repeat b e _ => PE e /\ PK b
  | Stmt_NumericFor _ a l o b _ => PE a /\ PE l /\ option_holds PE o /\ PK b
  | Stmt_GenericFor _ es b _ => Forall PE es /\ PK b
  | Stmt_Function e _ b _ => PE e /\ PB b
  | Stmt_LocalFunction _ b _ => PB b
  | _ => True
  end.

Definition global_parts (d : GlobalDeclaration) : Prop :=
  match d with
  | Global_Names _ es _ _ => Forall PE es
  | Global_Star _ _ => True
  | Global_Function _ b _ => PB b
  end.

Context (HE : forall e, expr_parts e -> PE e) (HF : forall f, field_parts f -> PF f)
  (HB : forall b, PK (body_block b) -> PB b) (HK : forall b, Forall PS (block_statements b) -> PK b)
  (HS : forall s, stmt_parts s -> PS s) (HG : forall d, global_parts d -> PG d).

Fixpoint expr_all (e : Expr) : PE e :=
  HE e match e return expr_parts e with
  | Expr_Literal _ _ | Expr_Nil _ | Expr_Bool _ _ | Expr_Name _ _ | Expr_Vararg _ => I
  | Expr_Unary _ e _ | Expr_Paren e _ | Expr_Field e _ _ => expr_all e
  | Expr_Binary _ a b _ | Expr_Index a b _ => conj (expr_all a) (expr_all b)
  | Expr_Call f es _ | Expr_MethodCall f _ es _ => conj (expr_all f) (Forall_all expr_all es)
  | Expr_Function b _ => body_all b
  | Expr_TableConstructor fs _ => Forall_all field_all fs
  end
with field_all (f : TableField) : PF f :=
  HF f match f return field_parts f with
  | Field_Array v _ _ | Field_Named _ v _ _ => expr_all v
  | Field_Indexed k v _ _ => conj (expr_all k) (expr_all v)
  end
with body_all (b : FunctionBody) : PB b :=
  HB b match b return PK (body_block b) with FunctionBody_ _ _ k _ => block_all k end
with block_all (b : Block) : PK b :=
  HK b match b return Forall PS (block_statements b) with Block_ ss _ _ => Forall_all stmt_all ss end
with stmt_all (s : Stmt) : PS s :=
  HS s match s return stmt_parts s with
  | Stmt_Empty _ | Stmt_Break _ | Stmt_Goto _ _ _ | Stmt_Label _ _ _ => I
  | Stmt_Return es _ | Stmt_Local _ es _ => Forall_all expr_all es
  | Stmt_Assignment ts es _ => conj (Forall_all expr_all ts) (Forall_all expr_all es)
  | Stmt_Call e _ => expr_all e
  | Stmt_Global d _ => global_all d
  | Stmt_Do b _ => block_all b
  | Stmt_If cs o _ =>
      conj (Forall_all (fun c : Expr * Block => match c return PE c.1 /\ PK c.2 with (e, b) => conj (expr_all e) (block_all b) end) cs)
        (option_all block_all o)
  | Stmt_While e b _ | Stmt_Repeat b e _ => conj (expr_all e) (block_all b)
  | Stmt_NumericFor _ a l o b _ => conj (expr_all a) (conj (expr_all l) (conj (option_all expr_all o) (block_all b)))
  | Stmt_GenericFor _ es b _ => conj (Forall_all expr_all es) (block_all b)
  | Stmt_Function e _ b _ => conj (expr_all e) (body_all b)
  | Stmt_LocalFunction _ b _ => body_all b
  end
with global_all (d : GlobalDeclaration) : PG d :=
  HG d match d return global_parts d with
  | Global_Names _ es _ _ => Forall_all expr_all es
  | Global_Star _ _ => I
  | Global_Function _ b _ => body_all b
  end.
End Induction.

(** ** Every construct *)

Section Tree.
Context (lexed : LexedChunk) (limits : CompileLimits) (profile : LuaProfile) {alloc : Reserver}.
Context (Htokens : ch_tokens lexed <> []).
Abbreviation inv := (inv limits).
Abbreviation yields := (yields lexed limits).
Abbreviation runs := (runs lexed limits).
Abbreviation resolve_expr := (resolve_expr lexed limits profile).
Abbreviation resolve_block := (resolve_block lexed limits profile).
Abbreviation stated := (stated profile).

Definition expr_ok (e : Expr) : Prop :=
  forall p Γ, yields p Γ (resolve_expr e) (at_env Γ (fun F r => scoped_expr profile F Γ e r)).
Definition field_ok (f : TableField) : Prop :=
  forall p Γ, yields p Γ (resolve_table_field lexed limits profile f) (at_env Γ (fun F r => scoped_field profile F Γ f r)).
Definition body_ok (b : FunctionBody) : Prop :=
  forall p Γ method, yields p Γ (resolve_function_body lexed limits profile b method) (functioned profile Γ method b).
Definition block_ok (b : Block) : Prop :=
  forall p Γ end_scope, yields p Γ (resolve_block b end_scope) (blocked profile Γ end_scope b).
Definition stmt_ok (s : Stmt) : Prop :=
  forall p Γ, yields p Γ (resolve_statement lexed limits profile s) (stated Γ s).
Definition global_ok (d : GlobalDeclaration) : Prop :=
  forall p Γ, yields p Γ (resolve_global lexed limits profile d)
    (fun F r Γ' => grows Γ Γ' /\ scoped_global profile F Γ d r Γ').

Lemma yields_exprs p Γ es : Forall expr_ok es ->
  yields p Γ (each resolve_expr es) (at_env Γ (fun F rs => Forall2 (scoped_expr profile F Γ) es rs)).
Proof using Type. intros H. apply yields_each. eapply Forall_impl; [exact H |]. auto. Qed.

Lemma yields_expr_list p Γ span message es : is_internal message = false -> Forall expr_ok es ->
  yields p Γ (checked_list lexed limits es span message (each resolve_expr es))
    (at_env Γ (fun F rs => Forall2 (scoped_expr profile F Γ) es rs)).
Proof using Htokens. intros Hi H. apply yields_checked_list; [done | done |]. by apply yields_exprs. Qed.

Lemma expr_step e : expr_parts expr_ok field_ok body_ok e -> expr_ok e.
Proof using Htokens.
  intros H p Γ. destruct e; cbn [Resolve.resolve_expr] in *; cbn in H.
  - apply yields_ret. intros F. split; [done | constructor].
  - apply yields_ret. intros F. split; [done | constructor].
  - apply yields_ret. intros F. split; [done | constructor].
  - eapply yields_weaken; [by apply yields_resolve_name |]. intros F r Γ' [-> (n & -> & Hn)]. split; [done | by constructor].
  - apply yields_get. intros r Hr. destruct (vararg_available r) eqn:Hv; cbn [negb]; [| by apply (yields_error lexed limits Htokens p Γ)].
    eapply runs_ret; [done |]. intros F _. split; [done |]. constructor. by rewrite (inv_vararg _ _ _ _ Hr), Hv.
  - eapply yields_at; [apply H |]. intros r. apply yields_ret. intros F Hr. split; [done | by constructor].
  - destruct H as [H1 H2]. eapply yields_at; [apply H1 |]. intros r1. eapply yields_at; [apply H2 |]. intros r2.
    apply yields_ret. intros F Hr2 Hr1. split; [done | by constructor].
  - eapply yields_at; [apply H |]. intros r. apply yields_ret. intros F Hr. split; [done | by constructor].
  - destruct H as [H1 H2]. eapply yields_at; [apply H1 |]. intros r1. eapply yields_at; [apply H2 |]. intros r2.
    apply yields_ret. intros F Hr2 Hr1. split; [done | by constructor].
  - eapply yields_at; [apply H |]. intros r. apply yields_ret. intros F Hr. split; [done | by constructor].
  - destruct H as [H1 H2]. eapply yields_at; [apply H1 |]. intros r1. eapply yields_at; [by apply yields_expr_list |]. intros rs.
    apply yields_ret. intros F Hr2 Hr1. split; [done | by constructor].
  - destruct H as [H1 H2]. eapply yields_at; [apply H1 |]. intros r1. eapply yields_at; [by apply yields_expr_list |]. intros rs.
    apply yields_ret. intros F Hr2 Hr1. split; [done | by constructor].
  - eapply yields_at; [apply (H p Γ None) |]. intros b. apply yields_ret. intros F Hb. split; [done | by constructor].
  - eapply yields_at.
    { apply yields_checked_list; [done | done |]. apply (yields_each lexed limits p Γ _ (fun F f r => scoped_field profile F Γ f r)).
      eapply Forall_impl; [exact H |]. auto. }
    intros rs. apply yields_ret. intros F Hrs. split; [done | by constructor].
Qed.

Lemma field_step f : field_parts expr_ok f -> field_ok f.
Proof using Type.
  intros H p Γ. destruct f; cbn [resolve_table_field] in *; cbn in H; [| | destruct H as [H1 H2]].
  - eapply yields_at; [apply H |]. intros r. apply yields_ret. intros F Hr. split; [done | by constructor].
  - eapply yields_at; [apply H |]. intros r. apply yields_ret. intros F Hr. split; [done | by constructor].
  - eapply yields_at; [apply H1 |]. intros r1. eapply yields_at; [apply H2 |]. intros r2.
    apply yields_ret. intros F Hr2 Hr1. split; [done | by constructor].
Qed.

Lemma body_step b : block_ok (body_block b) -> body_ok b.
Proof using Htokens.
  destruct b as [parameters vararg block span]. cbn [body_block]. intros H p Γ method.
  apply (yields_function_body lexed limits profile Htokens). intros q Γ1. apply H.
Qed.

Lemma block_step b : Forall stmt_ok (block_statements b) -> block_ok b.
Proof using Htokens.
  destruct b as [statements terminator span]. cbn [block_statements]. intros H p Γ end_scope.
  apply (yields_block_shell lexed limits profile Htokens). clear Γ. intros Γ.
  revert Γ. induction H as [| s l Hs _ IH]; intros Γ; cbn [each].
  - intros r Hr. eapply runs_ret; [done |]. intros F _. split; [by eapply grows_here | constructor].
  - eapply yields_bind; [apply Hs |]. intros rs Γ1 F0 _. eapply yields_bind; [apply IH |]. intros rl Γ2 F1 _.
    apply yields_ret. intros F [G2 H2] [G1 H1]. split; [by eapply grows_trans | by econstructor].
Qed.

Lemma global_step d : global_parts expr_ok body_ok d -> global_ok d.
Proof using Htokens.
  intros H p Γ. destruct d as [names es prefix span | prefix span | name body span]; cbn [resolve_global]; cbn in H.
  - do 2 (apply yields_then; [by apply yields_ensure_list |]). apply yields_then; [by apply yields_ensure_binding_capacity |].
    eapply yields_bind; [apply yields_set_named |]. intros u Γ1 F0 [_ ->]. apply yields_then; [by apply yields_reserve |].
    eapply yields_bind; [by apply (yields_declare_globals lexed limits Htokens p _ prefix names 0) |]. intros resolved Γ2 F1 _.
    eapply yields_at; [by apply yields_expr_list |]. intros rs. apply yields_ret.
    intros F Hes [[G2 D] Hall] [G1 _]. split; [by eapply grows_trans | by constructor].
  - eapply yields_at; [by apply yields_global_attribute_readonly |]. intros readonly.
    eapply yields_bind; [apply yields_set_wildcard |]. intros u Γ1 F0 _. apply yields_ret.
    intros F [G ->] Hro. split; [done | by constructor].
  - apply yields_then; [by apply yields_ensure_binding_capacity |].
    eapply yields_bind; [apply yields_set_named |]. intros u Γ1 F0 [_ ->].
    eapply yields_bind; [by apply yields_declare_binding |]. intros b Γ2 F1 _.
    eapply yields_at; [apply (H p Γ2 None) |]. intros resolved. apply yields_ret.
    intros F Hb [G2 D] [G1 _]. split; [by eapply grows_trans | by econstructor].
Qed.

(** ** Statements *)

Lemma yields_open {A} p Γ (m : ResolveM A) P : (grows Γ Γ -> yields p Γ m P) -> yields p Γ m P.
Proof using Type. intros H r Hr. apply H; [by eapply grows_here | done]. Qed.

Lemma yields_nested_block p Γ b : block_ok b ->
  yields p Γ (nested lexed limits (block_span b) (resolve_block b true)) (at_env Γ (fun F r => scoped_nested profile F Γ b r)).
Proof using Htokens.
  intros Hb. eapply yields_weaken.
  - apply (yields_nested lexed limits Htokens) with (Q := fun id F r Γ1 => scoped_block profile F (opened_scope id Γ) true b r Γ1).
    intros id _. apply Hb.
  - intros F r Γ' [-> (id & Γ1 & Hid & Hs)]. split; [done | by econstructor].
Qed.

Lemma yields_loop_block p Γ target b : block_ok b ->
  yields p Γ (in_loop target (nested lexed limits (block_span b) (resolve_block b true)))
    (at_env Γ (fun F r => scoped_nested profile F (opened_loop Γ target) b r)).
Proof using Htokens. intros Hb. apply yields_in_loop_at. by apply yields_nested_block. Qed.

Lemma yields_target p Γ e : expr_ok e ->
  yields p Γ (r ← resolve_expr e; assignment_target lexed profile e r) (at_env Γ (fun F r => scoped_target profile F Γ e r)).
Proof using Htokens.
  intros He. eapply yields_bind_at; [apply He |]. intros resolved Γ' r Hr [-> Hs].
  destruct resolved; cbn [assignment_target]; try by apply (yields_error lexed limits Htokens p Γ).
  - inversion Hs as [| | | name' res' span' Hn | | | | | | | | | |]; subst.
    eapply runs_bind; [by apply (runs_ensure_writable lexed limits profile Htokens p Γ r name) |]. intros u Γ' r' Hr' [-> Hw].
    eapply runs_ret; [done |]. intros F _ _ [_ Hs']. split; [done |]. inversion Hs'; subst. by constructor.
  - eapply runs_ret; [done |]. intros F _ [_ Hs']. split; [done |]. inversion Hs'; subst. by constructor.
  - eapply runs_ret; [done |]. intros F _ [_ Hs']. split; [done |]. inversion Hs'; subst. by constructor.
Qed.

Lemma yields_targets p Γ es : Forall expr_ok es ->
  yields p Γ (each (fun e => r ← resolve_expr e; assignment_target lexed profile e r) es)
    (at_env Γ (fun F rs => Forall2 (scoped_target profile F Γ) es rs)).
Proof using Htokens.
  intros H. apply (yields_each lexed limits p Γ _ (fun F e r => scoped_target profile F Γ e r)).
  eapply Forall_impl; [exact H |]. intros e He. by apply yields_target.
Qed.

Lemma map_local_names names bs : length bs = length names -> map rl_binding (zip_with local_name names bs) = bs.
Proof using Type. revert bs. induction names as [| name names IH]; intros [| b bs] [=]; cbn; [done |]. by rewrite IH. Qed.

Lemma local_step names es span : Forall expr_ok es -> stmt_ok (Stmt_Local names es span).
Proof using Htokens.
  intros H p Γ. cbn [Resolve.resolve_statement].
  do 2 (apply yields_then; [by apply yields_ensure_list |]). apply yields_then; [by apply yields_ensure_binding_capacity |].
  apply yields_then; [by apply yields_reserve |]. eapply yields_at; [by apply yields_exprs |]. intros rs.
  apply yields_then; [by apply yields_reserve |].
  eapply yields_bind; [by apply (yields_declare_locals lexed limits Htokens p Γ names 0 0) |]. intros bs Γ1 F0 _.
  apply yields_ret. intros F ([G D] & Hl & Hc) Hes. split; [done |].
  rewrite <- (map_local_names names bs Hl) at 1. by eapply scoped_Local.
Qed.

Lemma if_step clauses other span :
  Forall (fun c => expr_ok c.1 /\ block_ok c.2) clauses -> option_holds block_ok other -> stmt_ok (Stmt_If clauses other span).
Proof using Htokens.
  intros Hc Ho p Γ. cbn [Resolve.resolve_statement]. apply yields_open. intros G.
  eapply yields_at.
  { apply yields_checked_list; [done | done |].
    apply (yields_each lexed limits p Γ _ (fun F c rc => scoped_expr profile F Γ c.1 rc.1 /\ scoped_nested profile F Γ c.2 rc.2)).
    eapply Forall_impl; [exact Hc |]. intros c [He Hb]. eapply yields_at; [apply He |]. intros r.
    eapply yields_at; [by apply yields_nested_block |]. intros b. apply yields_ret. intros F Hb' He'. by split. }
  intros rs. eapply yields_at.
  { apply (yields_optionally lexed limits p Γ _ (fun F b r => scoped_nested profile F Γ b r)).
    intros b ->. by apply yields_nested_block. }
  intros o. apply yields_ret. intros F Ho' Hc'. split; [done | by constructor].
Qed.

Lemma while_step e b span : expr_ok e -> block_ok b -> stmt_ok (Stmt_While e b span).
Proof using Htokens.
  intros He Hb p Γ. cbn [Resolve.resolve_statement]. apply yields_open. intros G.
  eapply yields_at; [apply He |]. intros r. eapply yields_read; [by apply (current_scope_eq limits p Γ) |].
  eapply yields_at; [by apply yields_loop_block |]. intros resolved. apply yields_ret.
  intros F Hb' He'. split; [done | by constructor].
Qed.

Lemma repeat_step b e span : block_ok b -> expr_ok e -> stmt_ok (Stmt_Repeat b e span).
Proof using Htokens.
  intros Hb He p Γ. cbn [Resolve.resolve_statement]. unfold resolve_repeat. apply yields_open. intros G.
  eapply yields_read; [by apply (current_scope_eq limits p Γ) |].
  eapply yields_weaken.
  - apply (yields_nested lexed limits Htokens) with (Q := fun id F rs Γ1 => exists resolved r Γ',
      rs = RStmt_Repeat resolved r span /\
      scoped_block profile F (opened_loop (opened_scope id Γ) (inner_scope_id Γ)) false b resolved Γ' /\
      scoped_expr profile F Γ' e r).
    intros id _. eapply yields_weaken.
    + apply yields_in_loop with (P := fun F rs Γ' => exists resolved r, rs = RStmt_Repeat resolved r span /\
        scoped_block profile F (opened_loop (opened_scope id Γ) (inner_scope_id Γ)) false b resolved Γ' /\
        scoped_expr profile F Γ' e r).
      eapply yields_bind; [apply Hb |]. intros resolved Γ' F0 _. eapply yields_at; [apply He |]. intros r.
      apply yields_ret. intros F He' [G' Hb']. split; [done |]. eauto.
    + intros F rs Γ' (G' & Γ1 & _ & -> & resolved & r & -> & Hb' & He'). split; [done |]. eauto 10.
  - intros F rs Γ0 (-> & id & Γ1 & Hid & resolved & r & Γ' & -> & Hb' & He'). split; [done | by econstructor].
Qed.

Lemma numeric_for_step name initial limit step b span :
  expr_ok initial -> expr_ok limit -> option_holds expr_ok step -> block_ok b ->
  stmt_ok (Stmt_NumericFor name initial limit step b span).
Proof using Htokens.
  intros H1 H2 H3 Hb p Γ. cbn [Resolve.resolve_statement]. unfold resolve_numeric_for. apply yields_open. intros G.
  eapply yields_at; [apply H1 |]. intros r1. eapply yields_at; [apply H2 |]. intros r2.
  eapply yields_at.
  { apply (yields_optionally lexed limits p Γ _ (fun F e r => scoped_expr profile F Γ e r)). intros e ->. apply H3. }
  intros r3. apply yields_then; [by apply yields_ensure_binding_capacity |].
  eapply yields_read; [by apply (current_scope_eq limits p Γ) |].
  eapply yields_weaken.
  - apply (yields_nested lexed limits Htokens) with (Q := fun id F rs Γ1 => exists b' resolved,
      rs = RStmt_NumericFor (local_name name b') r1 r2 r3 resolved span /\
      declares F (opened_scope id Γ) BindingKind.NumericFor (ln_name name) (ln_span name) (ln_attribute name)
        (readonly_for_control (rules profile)) b' Γ1 /\
      scoped_nested profile F (opened_loop Γ1 (inner_scope_id Γ)) b resolved).
    intros id _. eapply yields_bind; [by apply yields_declare_named |]. intros rl Γ1 F0 _.
    eapply yields_at; [by apply yields_loop_block |]. intros resolved. apply yields_ret.
    intros F Hb' (b' & -> & G1 & D). split; [done |]. eauto.
  - intros F rs Γ' (-> & id & Γ1 & Hid & b' & resolved & -> & D & Hb') H3' H2' H1'. split; [done | by econstructor].
Qed.

Lemma generic_for_step names es b span : Forall expr_ok es -> block_ok b -> stmt_ok (Stmt_GenericFor names es b span).
Proof using Htokens.
  intros H Hb p Γ. cbn [Resolve.resolve_statement]. unfold resolve_generic_for. apply yields_open. intros G.
  eapply yields_at; [by apply yields_expr_list |]. intros rs. apply yields_then; [by apply yields_ensure_list |].
  destruct (checked_add_usize _ _) as [count |]; [| by apply yields_limit].
  apply yields_then; [by apply yields_ensure_binding_capacity |].
  eapply yields_read; [by apply (current_scope_eq limits p Γ) |]. fold (closing_span es span).
  eapply yields_weaken.
  - apply (yields_nested lexed limits Htokens) with (Q := fun id F st Γ2 => exists m rnames resolved,
      st = RStmt_GenericFor rnames rs {| gc_binding := bm_id m; gc_span := closing_span es span |} resolved
             (exit_path ExitKind.Normal (Some (inner_scope_id Γ)) span Γ2) span /\
      fresh_binding F (opened_scope id Γ) BindingKind.GenericForClose (bytes_of_string "<generic-for-close>")
        (closing_span es span) None (true, Some (closing_span es span)) m /\
      declares_names F BindingKind.GenericFor ln_attribute (fun i => (i =? 0) && readonly_for_control (rules profile)) 0
        (in_scope (add_binding m) (opened_scope id Γ)) names rnames Γ2 /\
      scoped_nested profile F (opened_loop Γ2 (inner_scope_id Γ)) b resolved).
    intros id _. eapply yields_bind; [by apply yields_declare_generic_for_close |]. intros closing Γ1 F0 _.
    apply yields_then; [by apply yields_reserve |].
    eapply yields_bind.
    { by apply (yields_declare_each lexed limits Htokens p Γ1 BindingKind.GenericFor
        (fun i => (i =? 0) && readonly_for_control (rules profile)) 0 names). }
    intros rnames Γ2 F1 _. eapply yields_at; [by apply yields_loop_block |]. intros resolved.
    eapply yields_read; [intros r4 H4; exact (close_path_eq limits p Γ2 r4 _ _ _ H4) |]. apply yields_ret.
    intros F Hb' [G2 D2] (G1 & m & Hm & -> & ->). split; [by eapply grows_trans |]. eauto 10.
  - intros F st Γ' (-> & id & Γ2 & Hid & m & rnames & resolved & -> & Hm & D & Hb') Hes. split; [done | by econstructor].
Qed.

(** A value of the same environment, and the statement it makes. *)
Lemma yields_stated {A} p Γ s (m : ResolveM A) (k : A -> ResolvedStmt) Q :
  yields p Γ m (at_env Γ Q) -> (forall F a, Q F a -> scoped_stmt profile F Γ s (k a) Γ) ->
  yields p Γ (a ← m; mret (k a)) (stated Γ s).
Proof using Type.
  intros Hm Hs. apply yields_open. intros G. eapply yields_at; [exact Hm |]. intros a. apply yields_ret.
  intros F HQ. split; [done | by apply Hs].
Qed.

Lemma call_step e span : expr_ok e -> stmt_ok (Stmt_Call e span).
Proof using Htokens.
  intros H p Γ. cbn [Resolve.resolve_statement]. apply yields_open. intros G. eapply yields_at; [apply H |]. intros r.
  destruct (is_resolved_call r) eqn:Hc; [| by apply yields_error]. apply yields_ret. intros F Hr. split; [done | by constructor].
Qed.

Lemma return_step es span : Forall expr_ok es -> stmt_ok (Stmt_Return es span).
Proof using Htokens.
  intros H p Γ. cbn [Resolve.resolve_statement]. apply yields_open. intros G.
  eapply yields_at; [by apply yields_expr_list |]. intros rs.
  eapply yields_read; [intros r Hr; exact (close_path_eq limits p Γ r _ _ _ Hr) |]. apply yields_ret.
  intros F Hes. split; [done | by constructor].
Qed.

Lemma assignment_step targets es span : Forall expr_ok targets -> Forall expr_ok es -> stmt_ok (Stmt_Assignment targets es span).
Proof using Htokens.
  intros Ht He p Γ. cbn [Resolve.resolve_statement]. apply yields_open. intros G.
  eapply yields_at; [apply yields_checked_list; [done | done | by apply yields_targets] |]. intros rts.
  eapply yields_at; [by apply yields_expr_list |]. intros rs. apply yields_ret.
  intros F Hes Hts. split; [done | by constructor].
Qed.

Lemma function_step e method b span : expr_ok e -> body_ok b -> stmt_ok (Stmt_Function e method b span).
Proof using Htokens.
  intros He Hb p Γ. cbn [Resolve.resolve_statement]. apply yields_open. intros G.
  eapply yields_at; [by apply yields_target |]. intros r. eapply yields_at; [apply Hb |]. intros rb.
  apply yields_ret. intros F Hb' He'. split; [done | by constructor].
Qed.

Lemma local_function_step name b span : body_ok b -> stmt_ok (Stmt_LocalFunction name b span).
Proof using Htokens.
  intros Hb p Γ. cbn [Resolve.resolve_statement]. apply yields_then; [by apply yields_ensure_binding_capacity |].
  eapply yields_bind; [by apply yields_declare_named |]. intros rl Γ1 F0 _. eapply yields_at; [apply Hb |]. intros rb.
  apply yields_ret. intros F Hb' (b' & -> & G & D). split; [done | by econstructor].
Qed.

Lemma global_stmt_step d span : global_ok d -> stmt_ok (Stmt_Global d span).
Proof using Htokens.
  intros Hd p Γ. refine (_ : yields p Γ (if negb (global_declarations (rules profile)) then _ else
    resolved ← resolve_global lexed limits profile d; mret (RStmt_Global resolved (declaration_span d))) _).
  destruct (global_declarations (rules profile)) eqn:Hg; cbn [negb]; [| by apply yields_error].
  eapply yields_bind; [apply Hd |]. intros r Γ1 F0 _. apply yields_ret. intros F [G D]. split; [done | by constructor].
Qed.

Lemma stmt_step s : stmt_parts expr_ok body_ok block_ok global_ok s -> stmt_ok s.
Proof using Htokens.
  destruct s as [span | es span | targets es span | e span | names es span | d span | span | name name_span span
    | name name_span span | b span | clauses other span | e b span | b e span | name initial limit step b span
    | names es b span | e method b span | name b span]; cbn [stmt_parts]; intros H.
  - intros p Γ. apply yields_open. intros G. apply yields_ret. intros F. split; [done | constructor].
  - by apply return_step.
  - destruct H. by apply assignment_step.
  - by apply call_step.
  - by apply local_step.
  - by apply global_stmt_step.
  - intros p Γ. by apply yields_resolve_break.
  - intros p Γ. by apply yields_resolve_goto.
  - intros p Γ. by apply yields_resolve_label.
  - intros p Γ. eapply yields_stated; [by apply yields_nested_block |]. intros F r Hr. by constructor.
  - destruct H. by apply if_step.
  - destruct H. by apply while_step.
  - destruct H. by apply repeat_step.
  - destruct H as (H1 & H2 & H3 & H4). by apply numeric_for_step.
  - destruct H. by apply generic_for_step.
  - destruct H. by apply function_step.
  - by apply local_function_step.
Qed.

Lemma yields_block b : block_ok b.
Proof using Htokens.
  apply (block_all expr_ok field_ok body_ok block_ok stmt_ok global_ok);
    [exact expr_step | exact field_step | exact body_step | exact block_step | exact stmt_step | exact global_step].
Qed.

(** ** The root *)

Definition env_meta (m : Module_) : BindingMeta := {|
  bm_id := {| b_function := 0; b_ordinal := 0 |}; bm_name := env_name; bm_span := mod_span m;
  bm_kind := BindingKind.Environment; bm_owner := 0; bm_scope_depth := 0; bm_readonly := false;
  bm_attribute := None; bm_close_marker := None
|}.

Definition root_state (m : Module_) : Resolver :=
  with_root_environment
    (set_scope (added (entered root_resolver) (env_meta m)) {|
      sf_id := 0; sf_bindings := <[env_name := bm_id (env_meta m)]> ∅; sf_local_bindings := [];
      sf_close_bindings := []; sf_labels := ∅; sf_declaration_spans := []; sf_global_mode := None |})
    (Some (bm_id (env_meta m))).

Lemma declare_env_spec (m : Module_) :
  spec (env ← declare_binding lexed limits env_name (mod_span m) None BindingKind.Environment false;
        modify (fun r => with_root_environment r (Some env))) (entered root_resolver)
    (fun _ r => r = root_state m /\ 0 < max_bindings_per_function limits) (fun e _ => error_ok lexed e).
Proof using Htokens.
  unfold declare_binding, binding_flags, allocate_binding.
  apply spec_bind, spec_bind, spec_ret, spec_bind. unfold gets, spec at 1.
  apply spec_bind, spec_bind, spec_get. cbn [bindings entered root_resolver with_scopes with_next_scope].
  destruct (Z.leb_spec (max_bindings_per_function limits) (zlen (@nil BindingMeta))); [apply spec_fail, diagnostic_ok; auto |].
  destruct (_ <? _); [apply spec_fail, diagnostic_ok; auto |].
  split; [done |]. unfold zlen in *. cbn in *. lia.
Qed.

(** The outermost function has no parent: its environment is [root_env]. *)
Lemma inv_root_state m : 0 < max_bindings_per_function limits -> inv (-1) (root_env (env_meta m)) (root_state m).
Proof using Type.
  intros Hlim. assert (Hnone : forall (u : Z) (b : BindingId), zget [] u = Some b -> False) by (intros u b; apply zget_nil).
  split; cbn; try done.
  - by right.
  - intros k m' Hk. apply (zget_snoc []) in Hk as [Hk | [-> ->]]; [by apply zget_nil in Hk | done].
  - unfold zlen. cbn. lia.
  - constructor; [| constructor]. pose proof (frame_add_binding (new_scope 0) (empty_scope 0) (env_meta m) _ (frame_new 0) eq_refl) as Hf.
    apply Hf. done.
  - apply NoDup_singleton.
  - constructor; [cbn; lia | constructor].
  - intros b [x Hx]. by rewrite lookup_empty in Hx.
  - unfold zlen. cbn. lia.
  - by intros u b Hu%Hnone.
  - intros u b. rewrite lookup_empty. split; [done |]. by intros Hu%Hnone.
  - intros name readonly b. rewrite lookup_empty. by destruct readonly.
Qed.

Lemma resolve_root_spec m :
  spec (resolve_root m lexed profile limits) root_resolver
    (fun rb r => exists Γ, inv (-1) Γ r /\ e_outer Γ = [] /\ e_function Γ = 0 /\ extends (root_state m) r /\
       forall F, facts_le (facts_at r) F -> scoped_block profile F (root_env (env_meta m)) true (root m) rb Γ)
    (fun e _ => error_ok lexed e).
Proof using Htokens.
  unfold resolve_root. eapply spec_seq; [by apply (enter_scope_spec lexed limits Htokens) | | done]. cbn beta. intros _ r ->.
  assert (Hassoc : forall {A B C} (a : ResolveM A) (f : A -> ResolveM B) (k : ResolveM C) s Q R,
    spec (x ← a; f x) s (fun _ s' => spec k s' Q R) R -> spec (x ← a; f x;; k) s Q R).
  { intros A B C a f k s Q R. unfold spec, mbind, st_bind. destruct (a s) as [[x | e | c] s']; [| done | done].
    by destruct (f x s') as [[y | e | c] s'']. }
  apply Hassoc. eapply spec_weaken; [apply declare_env_spec | | done]. cbn beta. intros _ r [-> Hlim].
  eapply spec_weaken; [exact (yields_block (root m) (-1) (root_env (env_meta m)) true (root_state m) (inv_root_state m Hlim)) | | done].
  cbn beta. intros rb r (Γ & Hr & He & HP). exists Γ. split; [done |].
  destruct (HP _ (facts_le_refl _)) as [G _].
  split; [by rewrite (grows_outer _ _ G) |]. split; [by destruct G as (? & ? & ? & _ & _ & ->) |].
  split; [done |]. intros F HF. apply HP, HF.
Qed.
End Tree.
