(* ===== verification/ResolveTheorems.v ===== *)
(** What the resolver promises: static scoping, totality, its tables of functions, and
    the composition of the front end. *)

From Stdlib Require Import ZArith Lia.
From stdpp Require Import base list gmap numbers strings.
From S2P Require Import Prelude Float Number Lexer LexerGrammar LexerSpec LexerTheorems Ast Parser ParserGrammar ParserSpec ParserTheorems.
From S2P Require Import Resolve ResolveSpec ResolveState ResolveNames ResolveScopes ResolveExits ResolveFunctions ResolveTree.

Local Open Scope Z_scope.

(** ** The tables of a module *)

Lemma rf_unique (l : list ResolvedFunction) rf rf' :
  NoDup (map rf_id l) -> In rf l -> In rf' l -> rf_id rf = rf_id rf' -> rf = rf'.
Proof. intros Hnd H H' He. by eapply NoDup_map_inj. Qed.

(** An upvalue stands for one binding only. *)
Lemma chain_functional fs o f u b b' :
  NoDup (map rf_id fs) -> chain fs o [] f u b -> chain fs o [] f u b' -> b = b'.
Proof.
  intros Hnd H. revert b'. induction H as [u b Hu | rf u b Hin Hu Hp | rf p u v b Hin Hu Hp _ IH]; intros b' H'.
  { by apply zget_nil in Hu. }
  all: inversion H' as [u' b1 Hu' | rf' u' b1 Hin' Hu' Hp' He | rf' p' u' v' b1 Hin' Hu' Hp' Hc' He]; subst;
    [by apply zget_nil in Hu' | |].
  - assert (rf' = rf) as -> by (by eapply rf_unique). congruence.
  - assert (rf' = rf) as -> by (by eapply rf_unique). congruence.
  - assert (rf' = rf) as -> by (by eapply rf_unique). congruence.
  - assert (rf' = rf) as -> by (by eapply rf_unique). apply IH. congruence.
Qed.

(** The tables of one function of a module: its bindings are numbered from 0 and it
    owns them, its tables are within the limits, and each upvalue stands for exactly
    one binding, which belongs to a function numbered before it. *)
Record function_ok (limits : CompileLimits) (rm : ResolvedModule) (rf : ResolvedFunction) : Prop := {
  fo_bindings : forall k m, zget (rf_bindings rf) k = Some m ->
    bm_id m = {| b_function := rf_id rf; b_ordinal := k |} /\ bm_owner m = rf_id rf;
  fo_binding_limit : zlen (rf_bindings rf) <= Z.max 0 (max_bindings_per_function limits);
  fo_upvalue_limit : zlen (rf_upvalues rf) <= Z.max 0 (max_upvalues_per_function limits);
  fo_parent : match rf_parent rf with
    | Some p => 0 <= p < rf_id rf
    | None => rf_id rf = 0 /\ rf_upvalues rf = []
    end;
  fo_upvalues : forall u, 0 <= u < zlen (rf_upvalues rf) -> exists b,
    den (module_facts rm) (rf_id rf) u b /\ 0 <= b_function b < rf_id rf /\
    forall b', den (module_facts rm) (rf_id rf) u b' -> b' = b
}.

Section Module_.
Context (module : Module_) (chunk : LexedChunk) (profile : LuaProfile) (limits : CompileLimits) {alloc : Reserver}.

Definition resolved_module (rb : ResolvedBlock) (r : Resolver) : ResolvedModule := {|
  rm_profile := profile; rm_span := mod_span module; rm_root := rb;
  rm_functions := {| rf_id := owner r; rf_parent := None; rf_span := mod_span module; rf_bindings := bindings r;
                     rf_upvalues := upvalues r |} :: completed_functions r
|}.

(** What is known at the end of the root is in the module. *)
Lemma module_facts_le rb r : owner r = 0 -> upvalue_bindings r = [] -> facts_le (facts_at r) (module_facts (resolved_module rb r)).
Proof using Type.
  intros Ho Hu. unfold facts_at, module_facts. rewrite Ho, Hu. split_and!; cbn.
  - intros f u b. apply chain_weaken; [intros rf Hin; by right |]. by intros u' b' H%zget_nil.
  - intros m [Hin | (rf & Hrf & Hin)]; right; [eexists; split; [by left |] | exists rf; split; [by right |]]; done.
  - intros f p span (rf & Hrf & H). exists rf. split; [by right | done].
Qed.

Lemma root_captures_nothing p Γ r : inv limits p Γ r -> e_outer Γ = [] -> upvalue_bindings r = [].
Proof using Type.
  intros Hr Ho. destruct (upvalue_bindings r) as [| b l] eqn:Hu; [done |].
  destruct (inv_captured _ _ _ _ Hr 0 b) as (_ & name & m & Hl & _).
  - rewrite Hu. by apply (zget_app_mid [] b l).
  - by rewrite Ho in Hl.
Qed.

(** A diagnostic of the source, at a token if there is one. *)
Definition reported (d : Diagnostic) : Prop :=
  (d_code d = Lexer.Resolve \/ d_code d = CompileLimit) /\ is_internal (d_message d) = false /\
  (ch_tokens chunk <> [] -> error_ok chunk d).

Lemma validate_input_spec :
  match validate_input module chunk profile with
  | Ok _ => ch_tokens chunk <> []
  | Err d => reported d
  | Crash _ => False
  end.
Proof using Type.
  unfold validate_input. destruct (last (ch_tokens chunk)) as [eof |] eqn:Hlast.
  2: { split; [by left |]. split; [done |]. intros Ht. by apply last_None in Hlast. }
  assert (Heof : In eof (ch_tokens chunk)) by (apply last_Some in Hlast as [l ->]; apply in_or_app; right; by left).
  assert (Hin : forall message, is_internal message = false -> reported (diagnostic (Some eof) Lexer.Resolve message)).
  { intros message Hm. split; [by left |]. split; [done |]. intros _. split; [by left |]. split; [done |]. by exists eof. }
  unfold fail_if. destruct (_ || negb (bool_decide (ch_profile chunk = profile))); [by apply Hin |].
  destruct (negb (span_end (mod_span module) =? _)); [by apply Hin |].
  destruct (_ || _ || _); [by apply Hin |]. intros He. by rewrite He in Heof.
Qed.

(** What [resolve] returns. *)
Lemma resolve_spec :
  match resolve module chunk profile limits with
  | Ok rm =>
      exists rb r Γ, rm = resolved_module rb r /\ inv limits (-1) Γ r /\ e_outer Γ = [] /\ e_function Γ = 0 /\
        scoped_block profile (module_facts rm) (root_env (env_meta module)) true (root module) rb Γ /\
        known (module_facts rm) (env_meta module)
  | Err d => reported d
  | Crash _ => False
  end.
Proof using Type.
  pose proof validate_input_spec as Hv. unfold resolve.
  destruct (validate_input module chunk profile) as [u | d | c]; [| done | done]. cbn [mbind res_bind].
  pose proof (resolve_root_spec chunk limits profile Hv module) as Hs. unfold spec in Hs.
  destruct (resolve_root _ _ _ _ _) as [[rb | d | c] r]; [| split; [apply Hs |]; split; [apply Hs | done] | done].
  destruct Hs as (Γ & Hr & Ho & Hf & He & Hb). exists rb, r, Γ.
  assert (Hle : facts_le (facts_at r) (module_facts (resolved_module rb r))).
  { apply module_facts_le; [by rewrite (inv_owner _ _ _ _ Hr) | by eapply root_captures_nothing]. }
  split; [done |]. split; [done |]. split; [done |]. split; [done |]. split; [by apply Hb |].
  apply Hle. left. destruct (ext_bindings _ _ He) as [k ->]. by left.
Qed.
End Module_.

(** C19: The resolver is static scoping. The tree it returns follows from the syntax
    tree by the rules of [ResolveSpec]: every name stands for the binding that the
    innermost enclosing declaration before it gives, as a local of its own function,
    as an upvalue that leads through the functions in between to a local of another,
    as a field of the [_ENV] in scope, or as a global; constants, loop variables and
    read-only globals are not assigned; a jump goes to a label that is visible and
    not into the scope of a local; and every exit lists the bindings it leaves and
    those among them that are closed, the last declared first. *)
Theorem resolve_scoped `{Reserver} module chunk profile limits rm :
  resolve module chunk profile limits = Ok rm ->
  scoped_module profile (module_facts rm) module (rm_root rm) /\
  rm_profile rm = profile /\ rm_span rm = mod_span module.
Proof.
  intros Hok. pose proof (resolve_spec module chunk profile limits) as Hs. rewrite Hok in Hs.
  destruct Hs as (rb & r & Γ & -> & _ & _ & _ & Hb & Hk). split; [| done]. by eapply (scoped_root _ _ _ (env_meta module)).
Qed.

(** C20: The resolver is total: on every tree and every list of tokens, whatever the
    limits and the memory there is, it returns a module or a diagnostic. A diagnostic
    is a semantic error or an exceeded limit, at a token if there is one, and never
    one of those for a broken table of the resolver itself. *)
Theorem resolve_total `{Reserver} module chunk profile limits :
  total (resolve module chunk profile limits) /\
  forall d, resolve module chunk profile limits = Err d ->
    reported chunk d.
Proof.
  pose proof (resolve_spec module chunk profile limits) as Hs.
  destruct (resolve module chunk profile limits) as [rm | d | c]; [done | | done]. split; [done |]. by intros d' [= <-].
Qed.

(** C21: The tables of a resolved module are well formed: its functions are numbered
    from 0 in their order; the bindings of each are numbered, owned by it and within
    the limit, and so are its upvalues; the parent of a function comes before it; and
    every upvalue stands for exactly one binding, of a function that comes before. *)
Theorem resolve_functions `{Reserver} module chunk profile limits rm :
  resolve module chunk profile limits = Ok rm ->
  map rf_id (rm_functions rm) = seqZ 0 (zlen (rm_functions rm)) /\
  Forall (function_ok limits rm) (rm_functions rm).
Proof.
  intros Hok. pose proof (resolve_spec module chunk profile limits) as Hs. rewrite Hok in Hs.
  destruct Hs as (rb & r & Γ & -> & Hr & Ho & Hf & _ & _).
  assert (Hown : owner r = 0) by (by rewrite (inv_owner _ _ _ _ Hr)).
  pose proof (root_captures_nothing limits _ _ _ Hr Ho) as Hcap.
  pose proof (inv_completed _ _ _ _ Hr) as Hids. pose proof (inv_functions _ _ _ _ Hr) as Hn. rewrite Hown in Hids, Hn.
  assert (Hup : upvalues r = []).
  { pose proof (inv_upvalues _ _ _ _ Hr) as Hlen. rewrite Hcap in Hlen. by destruct (upvalues r). }
  assert (Hnum : map rf_id (rm_functions (resolved_module module profile rb r)) = seqZ 0 (next_function r)).
  { cbn. rewrite Hids, Hown. rewrite (seqZ_cons 0) by lia. f_equal. f_equal; lia. }
  assert (Hlen : zlen (rm_functions (resolved_module module profile rb r)) = next_function r).
  { unfold zlen. rewrite <- (length_map rf_id), Hnum, length_seqZ. lia. }
  split; [by rewrite Hlen |].
  assert (Hnd : NoDup (map rf_id (rm_functions (resolved_module module profile rb r)))) by (rewrite Hnum; apply NoDup_seqZ).
  pose proof (module_facts_le module profile rb r Hown Hcap) as Hle.
  constructor.
  - split; cbn [rf_id rf_bindings rf_upvalues rf_parent].
    + apply (inv_numbered _ _ _ _ Hr).
    + apply Hr.
    + apply Hr.
    + by rewrite Hup.
    + rewrite Hup. unfold zlen. cbn. lia.
  - eapply Forall_impl; [apply (inv_good _ _ _ _ Hr) |]. intros rf [Hb Hbl Hul (p & Hp & Hlt) Hu]. split; try done.
    + by rewrite Hp.
    + intros u Hu'. destruct (Hu u Hu') as (b & Hd & Hbf). exists b. split; [by apply Hle |]. split; [done |].
      intros b' Hb'. eapply chain_functional; [exact Hnd | exact Hb' | by apply Hle].
Qed.

(** ** The front end *)

Lemma tokens_end_of profile value pre post ts :
  tokens_of profile value pre post ts -> exists ts', ts = ts' ++ [token_at (pre ++ post) [] TokenKind.Eof None].
Proof.
  induction 1 as [pre | pre mid post ts _ _ [ts' ->] | pre mid post k l ts _ _ [ts' ->]].
  - exists []. by rewrite app_nil_r.
  - exists ts'. by rewrite app_assoc.
  - eexists (_ :: ts'). by rewrite app_assoc.
Qed.

(** C22: The parts of the front end fit together: what the lexer and then the parser
    return for a source text, the resolver accepts as its input. Profile, length and
    end of input agree, so that a refusal of the resolver is about the program. *)
Theorem front_end_accepted powi input profile limits chunk module :
  zlen input <= USIZE_MAX -> limits_ok limits ->
  lex powi input profile limits = Ok chunk -> parse chunk profile limits = Ok module ->
  validate_input module chunk profile = Ok tt.
Proof.
  intros Hi Hlim Hlex Hparse. pose proof (lex_spec powi input profile limits Hi) as Hs. rewrite Hlex in Hs.
  destruct Hs as (Ht & Hp & Hlen & _). apply tokens_end_of in Ht as (ts & Ht).
  assert (Hchunk : lexed chunk) by (by exists powi, input, profile, limits).
  pose proof (parse_spec chunk profile limits (lexed_ok _ Hchunk) Hlim) as Hm. unfold parse in Hparse.
  destruct (parse_with_metrics chunk profile limits) as [[m nodes] | d | k]; [| done | done]. injection Hparse as ->.
  destruct Hm as (_ & Hmp & Hsp & _).
  unfold validate_input. rewrite Ht, last_snoc, Hp, Hmp, Hsp. cbn [span_end]. rewrite !bool_decide_true by done.
  rewrite Z.eqb_refl. cbn [negb orb fail_if mbind res_bind].
  assert (Hoff : offset_of (chars input) = source_len chunk) by (unfold offset_of; by rewrite concat_chars, Hlen).
  cbn [token_at Lexer.span span_start span_end kind app]. rewrite app_nil_r, Hoff, Z.eqb_refl. done.
Qed.

(** ** Instances *)

Definition demo_resolver_source : string :=
  "local a <const>, b = 1, 2 function f(n) local c <close> = n return function() b = a + c + n return g end end goto e ::e::".

Definition demo_resolver_chunk : LexedChunk :=
  match lex_source demo_resolver_source with
  | Ok chunk => chunk
  | _ => {| ch_profile := Lua55; source_len := 0; ch_tokens := [] |}
  end.

Definition demo_module : Module_ :=
  match parse demo_resolver_chunk Lua55 CompileLimits_default with
  | Ok m => m
  | _ => {| mod_profile := Lua55; mod_span := {| span_start := 0; span_end := 0 |}; root := Block_ [] None {| span_start := 0; span_end := 0 |} |}
  end.

(** The innermost function takes [b], [a], [c] and [n]: the first two through the
    function around it, which takes them from the module. *)
Lemma resolve_scoped_witness :
  exists rm, @resolve ample demo_module demo_resolver_chunk Lua55 CompileLimits_default = Ok rm /\
    map (fun rf => (rf_id rf, rf_parent rf, rf_upvalues rf)) (rm_functions rm)
      = [(0, None, []);
         (1, Some 0, [ParentLocal {| b_function := 0; b_ordinal := 2 |}; ParentLocal {| b_function := 0; b_ordinal := 1 |}]);
         (2, Some 1, [ParentUpvalue 0; ParentUpvalue 1; ParentLocal {| b_function := 1; b_ordinal := 1 |};
                      ParentLocal {| b_function := 1; b_ordinal := 0 |}])] /\
    scoped_module Lua55 (module_facts rm) demo_module (rm_root rm).
Proof.
  eexists. split; [vm_compute; reflexivity |]. split; [vm_compute; reflexivity |].
  apply (@resolve_scoped ample demo_module demo_resolver_chunk Lua55 CompileLimits_default). vm_compute. reflexivity.
Defined.

Lemma resolve_functions_witness :
  exists rm, @resolve ample demo_module demo_resolver_chunk Lua55 CompileLimits_default = Ok rm /\
    map rf_id (rm_functions rm) = [0; 1; 2] /\ Forall (function_ok CompileLimits_default rm) (rm_functions rm).
Proof.
  eexists. split; [vm_compute; reflexivity |]. split; [vm_compute; reflexivity |].
  apply (@resolve_functions ample demo_module demo_resolver_chunk Lua55 CompileLimits_default). vm_compute. reflexivity.
Defined.

Lemma front_end_accepted_witness : validate_input demo_module demo_resolver_chunk Lua55 = Ok tt.
Proof.
  apply (front_end_accepted no_powi (bytes_of_string demo_resolver_source) Lua55 CompileLimits_default);
    [vm_compute; discriminate | apply default_limits_ok | vm_compute; reflexivity | vm_compute; reflexivity].
Defined.
