(* ===== verification/GcState.v ===== *)
(** The state of the collector (crates/rivetlua-runtime/src/gc/mod.rs): the phases
    of a cycle, the colour of each slot in pages of 64, the encoded parameters and
    what a cycle resets. *)

From Stdlib Require Import ZArith Lia.
From stdpp Require Import base list numbers.
From S2P Require Import Prelude Float Number Table.

Local Open Scope Z_scope.

(** ** Enumerations *)

Inductive GcPhase := Pause | RootMark | Propagate | Atomic | Sweep.
Inductive GcColor := White | Gray | Black.
Inductive GcAge := Young | Survivor | Old.
Inductive GcMode := Incremental | Generational.
Inductive GcCycleKind := Full | Minor | Major.
Inductive GcParameter := PauseParameter | StepMultiplier.
Inductive FinalizerState := Unregistered | Registered | Pending | Running | Finalized.
Inductive AtomicFinalizerStage := BeforeWeakValues | BeforeSeparation | AfterSeparation.

#[export] Instance GcPhase_eq_dec : EqDecision GcPhase.
Proof. solve_decision. Defined.
#[export] Instance GcColor_eq_dec : EqDecision GcColor.
Proof. solve_decision. Defined.
#[export] Instance GcAge_eq_dec : EqDecision GcAge.
Proof. solve_decision. Defined.
#[export] Instance GcMode_eq_dec : EqDecision GcMode.
Proof. solve_decision. Defined.
#[export] Instance GcCycleKind_eq_dec : EqDecision GcCycleKind.
Proof. solve_decision. Defined.
#[export] Instance FinalizerState_eq_dec : EqDecision FinalizerState.
Proof. solve_decision. Defined.
#[export] Instance AtomicFinalizerStage_eq_dec : EqDecision AtomicFinalizerStage.
Proof. solve_decision. Defined.

(** What a profile's collector can be asked. *)
Module GcControl.
Inductive GcControl :=
  | Stop | Restart | Collect | Count | CountBytes
  | Step (bytes : Z)
  | SetPause (value : Z)
  | SetStepMultiplier (value : Z)
  | IsRunning
  | Generational (minor_mul minor_major : Z)
  | Incremental (pause step_mul step_size : Z)
  | SetParameter (index value : Z).
End GcControl.

(** ** Encoded parameters *)

Definition saturating_add (a b : Z) : Z := Z.min USIZE_MAX (a + b).
Definition saturating_sub (a b : Z) : Z := Z.max 0 (a - b).
Definition saturating_mul (a b : Z) : Z := Z.min USIZE_MAX (a * b).

(** [as u8] *)
Definition as_u8 (z : Z) : Z := z mod 256.

(** A number in a byte: below 16 itself, else 4 bits of mantissa and an exponent. *)
Definition code_param (value : Z) : Z :=
  let value := Z.max value 0 in
  if 396800 <=? value then 255 else
  let scaled := (value * 128 + 99) / 100 in
  if scaled <? 16 then as_u8 scaled else
  let log := Z.log2 scaled + 1 - 5 in
  Z.lor (as_u8 (Z.shiftr scaled log - 16)) (as_u8 (Z.shiftl (as_u8 (log + 1)) 4)).

Definition apply_param (code : Z) : Z :=
  let high := Z.shiftr code 4 in
  let mantissa := if high =? 0 then code else Z.shiftl (Z.land code 15 + 16) (high - 1) in
  saturating_mul mantissa 100 / 128.

(** ** The state *)

(** 64 slots: which hold an object, which are free to be used again, and the colours. *)
Record GcSlotBits := { occupied : Z; reusable_free : Z; gray : Z; black : Z }.
Definition no_slot_bits : GcSlotBits := {| occupied := 0; reusable_free := 0; gray := 0; black := 0 |}.

Record GcState := {
  automatic_running : bool;
  pause_code : Z; stepmul_code : Z; stepsize_code : Z;
  minor_mul_code : Z; major_minor_code : Z; minor_major_code : Z; stepsize_exponent : Z;
  major_followup : bool; major_threshold_override : bool;
  last_major_lua_heap_bytes : Z; cycle_start_lua_heap_bytes : Z; cycle_start_reclaimed : Z;
  debt_threshold_override : option Z;
  phase : GcPhase; mode : GcMode; cycle : GcCycleKind;
  slot_bits : list GcSlotBits;
  occupied_slots : Z;
  work_capacity : Z;
  work : list ObjectRef;
  gc_roots : list ObjectRef;
  root_cursor : Z; remembered_cursor : Z; sweep_cursor : Z;
  debt_bytes : Z; debt_threshold : Z; incremental_debt_threshold : Z;
  major_debt_bytes : Z; major_threshold_bytes : Z; promotion_survivals : Z;
  remembered : list ObjectRef; remembered_charge : Z;
  barrier_count : Z; reclaimed_bytes : Z; reclaimed_objects : Z; transition_count : Z;
  ephemeron_cursor : Z; ephemeron_iterations : Z; ephemeron_last_key : option ObjectRef;
  ephemeron_converged : bool;
  weak_cleared_pairs : Z;
  atomic_finalizer_stage : AtomicFinalizerStage;
  gc_charge : Z;
  growth_slots : list Z
}.

#[export] Instance GcState_eta : Eta GcState := fun g =>
  Build_GcState (automatic_running g)
    (pause_code g) (stepmul_code g) (stepsize_code g)
    (minor_mul_code g) (major_minor_code g) (minor_major_code g) (stepsize_exponent g)
    (major_followup g) (major_threshold_override g)
    (last_major_lua_heap_bytes g) (cycle_start_lua_heap_bytes g) (cycle_start_reclaimed g)
    (debt_threshold_override g)
    (phase g) (mode g) (cycle g)
    (slot_bits g) (occupied_slots g) (work_capacity g) (work g) (gc_roots g)
    (root_cursor g) (remembered_cursor g) (sweep_cursor g)
    (debt_bytes g) (debt_threshold g) (incremental_debt_threshold g)
    (major_debt_bytes g) (major_threshold_bytes g) (promotion_survivals g)
    (remembered g) (remembered_charge g)
    (barrier_count g) (reclaimed_bytes g) (reclaimed_objects g) (transition_count g)
    (ephemeron_cursor g) (ephemeron_iterations g) (ephemeron_last_key g) (ephemeron_converged g)
    (weak_cleared_pairs g) (atomic_finalizer_stage g) (gc_charge g) (growth_slots g).

Definition with_automatic_running : GcState -> bool -> GcState := ltac:(set_field automatic_running).
Definition with_pause_code : GcState -> Z -> GcState := ltac:(set_field pause_code).
Definition with_stepmul_code : GcState -> Z -> GcState := ltac:(set_field stepmul_code).
Definition with_stepsize_code : GcState -> Z -> GcState := ltac:(set_field stepsize_code).
Definition with_minor_mul_code : GcState -> Z -> GcState := ltac:(set_field minor_mul_code).
Definition with_major_minor_code : GcState -> Z -> GcState := ltac:(set_field major_minor_code).
Definition with_minor_major_code : GcState -> Z -> GcState := ltac:(set_field minor_major_code).
Definition with_stepsize_exponent : GcState -> Z -> GcState := ltac:(set_field stepsize_exponent).
Definition with_major_followup : GcState -> bool -> GcState := ltac:(set_field major_followup).
Definition with_major_threshold_override : GcState -> bool -> GcState := ltac:(set_field major_threshold_override).
Definition with_last_major_lua_heap_bytes : GcState -> Z -> GcState := ltac:(set_field last_major_lua_heap_bytes).
Definition with_cycle_start_lua_heap_bytes : GcState -> Z -> GcState := ltac:(set_field cycle_start_lua_heap_bytes).
Definition with_cycle_start_reclaimed : GcState -> Z -> GcState := ltac:(set_field cycle_start_reclaimed).
Definition with_debt_threshold_override : GcState -> option Z -> GcState := ltac:(set_field debt_threshold_override).
Definition with_phase : GcState -> GcPhase -> GcState := ltac:(set_field phase).
Definition with_mode : GcState -> GcMode -> GcState := ltac:(set_field mode).
Definition with_cycle : GcState -> GcCycleKind -> GcState := ltac:(set_field cycle).
Definition with_slot_bits : GcState -> list GcSlotBits -> GcState := ltac:(set_field slot_bits).
Definition with_occupied_slots : GcState -> Z -> GcState := ltac:(set_field occupied_slots).
Definition with_work_capacity : GcState -> Z -> GcState := ltac:(set_field work_capacity).
Definition with_work : GcState -> list ObjectRef -> GcState := ltac:(set_field work).
Definition with_gc_roots : GcState -> list ObjectRef -> GcState := ltac:(set_field gc_roots).
Definition with_root_cursor : GcState -> Z -> GcState := ltac:(set_field root_cursor).
Definition with_remembered_cursor : GcState -> Z -> GcState := ltac:(set_field remembered_cursor).
Definition with_sweep_cursor : GcState -> Z -> GcState := ltac:(set_field sweep_cursor).
Definition with_debt_bytes : GcState -> Z -> GcState := ltac:(set_field debt_bytes).
Definition with_debt_threshold : GcState -> Z -> GcState := ltac:(set_field debt_threshold).
Definition with_incremental_debt_threshold : GcState -> Z -> GcState := ltac:(set_field incremental_debt_threshold).
Definition with_major_debt_bytes : GcState -> Z -> GcState := ltac:(set_field major_debt_bytes).
Definition with_major_threshold_bytes : GcState -> Z -> GcState := ltac:(set_field major_threshold_bytes).
Definition with_promotion_survivals : GcState -> Z -> GcState := ltac:(set_field promotion_survivals).
Definition with_remembered : GcState -> list ObjectRef -> GcState := ltac:(set_field remembered).
Definition with_remembered_charge : GcState -> Z -> GcState := ltac:(set_field remembered_charge).
Definition with_barrier_count : GcState -> Z -> GcState := ltac:(set_field barrier_count).
Definition with_reclaimed_bytes : GcState -> Z -> GcState := ltac:(set_field reclaimed_bytes).
Definition with_reclaimed_objects : GcState -> Z -> GcState := ltac:(set_field reclaimed_objects).
Definition with_transition_count : GcState -> Z -> GcState := ltac:(set_field transition_count).
Definition with_ephemeron_cursor : GcState -> Z -> GcState := ltac:(set_field ephemeron_cursor).
Definition with_ephemeron_iterations : GcState -> Z -> GcState := ltac:(set_field ephemeron_iterations).
Definition with_ephemeron_last_key : GcState -> option ObjectRef -> GcState := ltac:(set_field ephemeron_last_key).
Definition with_ephemeron_converged : GcState -> bool -> GcState := ltac:(set_field ephemeron_converged).
Definition with_weak_cleared_pairs : GcState -> Z -> GcState := ltac:(set_field weak_cleared_pairs).
Definition with_atomic_finalizer_stage : GcState -> AtomicFinalizerStage -> GcState := ltac:(set_field atomic_finalizer_stage).
Definition with_gc_charge : GcState -> Z -> GcState := ltac:(set_field gc_charge).
Definition with_growth_slots : GcState -> list Z -> GcState := ltac:(set_field growth_slots).

(** [GcState::new]. *)
Definition gc_state_new (p : LuaProfile) : GcState := {|
  automatic_running := true;
  pause_code := match p with Lua54 => 200 / 4 | Lua55 => code_param 250 end;
  stepmul_code := match p with Lua54 => 100 / 4 | Lua55 => code_param 200 end;
  stepsize_code := code_param 9600;
  minor_mul_code := match p with Lua54 => 20 | Lua55 => code_param 20 end;
  major_minor_code := code_param 50;
  minor_major_code := match p with Lua54 => 100 / 4 | Lua55 => code_param 70 end;
  stepsize_exponent := 13;
  major_followup := false; major_threshold_override := false;
  last_major_lua_heap_bytes := 0; cycle_start_lua_heap_bytes := 0; cycle_start_reclaimed := 0;
  debt_threshold_override := None;
  phase := Pause; mode := Generational; cycle := Full;
  slot_bits := []; occupied_slots := 0; work_capacity := 0; work := []; gc_roots := [];
  root_cursor := 0; remembered_cursor := 0; sweep_cursor := 0;
  debt_bytes := 0; debt_threshold := 1024 * 1024; incremental_debt_threshold := 1024 * 1024;
  major_debt_bytes := 0; major_threshold_bytes := 4 * 1024 * 1024; promotion_survivals := 2;
  remembered := []; remembered_charge := 0;
  barrier_count := 0; reclaimed_bytes := 0; reclaimed_objects := 0; transition_count := 0;
  ephemeron_cursor := 0; ephemeron_iterations := 0; ephemeron_last_key := None; ephemeron_converged := false;
  weak_cleared_pairs := 0;
  atomic_finalizer_stage := BeforeWeakValues;
  gc_charge := 0; growth_slots := []
|}.

(** ** Slot bits *)

(** [1u64 << (index % 64)] *)
Definition slot_mask (index : Z) : Z := Z.shiftl 1 (index mod 64).

Definition has_bit (word mask : Z) : bool := negb (Z.land word mask =? 0).

Definition color (g : GcState) (index : Z) : option GcColor :=
  page ← zget (slot_bits g) (index / 64);
  let mask := slot_mask index in
  if negb (has_bit (occupied page) mask) then None
  else if has_bit (gray page) mask then Some Gray
  else if has_bit (black page) mask then Some Black
  else Some White.

(** [let page = &mut self.slot_bits[index / 64]], changed in place. *)
Definition update_page (g : GcState) (index : Z) (f : GcSlotBits -> GcSlotBits) : res VmError GcState :=
  page ← vget (slot_bits g) (index / 64);
  Ok (with_slot_bits g (zinsert (slot_bits g) (index / 64) (f page))).

Definition paint (mask : Z) (c : GcColor) (page : GcSlotBits) : GcSlotBits :=
  let gray_rest := Z.ldiff (gray page) mask in
  let black_rest := Z.ldiff (black page) mask in
  {| occupied := occupied page; reusable_free := reusable_free page;
     gray := match c with Gray => Z.lor gray_rest mask | White | Black => gray_rest end;
     black := match c with Black => Z.lor black_rest mask | White | Gray => black_rest end |}.

Definition set_color (g : GcState) (index : Z) (c : GcColor) : res VmError GcState :=
  update_page g index (paint (slot_mask index) c).

Definition clear_colors (g : GcState) : GcState :=
  with_slot_bits g (map (fun page => {| occupied := occupied page; reusable_free := reusable_free page;
                                        gray := 0; black := 0 |}) (slot_bits g)).

Definition publish_occupied (g : GcState) (index : Z) : res VmError GcState :=
  let mask := slot_mask index in
  g ← update_page g index (fun page =>
        {| occupied := Z.lor (occupied page) mask; reusable_free := Z.ldiff (reusable_free page) mask;
           gray := Z.ldiff (gray page) mask; black := Z.ldiff (black page) mask |});
  Ok (with_occupied_slots g (occupied_slots g + 1)).

Definition retire_or_free (g : GcState) (index : Z) (reusable : bool) : res VmError GcState :=
  let mask := slot_mask index in
  g ← update_page g index (fun page =>
        {| occupied := Z.ldiff (occupied page) mask;
           reusable_free := if reusable then Z.lor (reusable_free page) mask else Z.ldiff (reusable_free page) mask;
           gray := Z.ldiff (gray page) mask; black := Z.ldiff (black page) mask |});
  Ok (with_occupied_slots g (occupied_slots g - 1)).

(** [bits.trailing_zeros()] *)
Definition trailing_zeros (bits : Z) : Z :=
  match list_find (fun i => Z.testbit bits i = true) (seqZ 0 64) with Some (_, i) => i | None => 64 end.

(** The pages from the one at [base] on; [offset] bits of the first are skipped. *)
Fixpoint next_bit_in (free : bool) (stop : Z) (pages : list GcSlotBits) (base offset : Z) : option Z :=
  match pages with
  | [] => None
  | page :: pages =>
      if stop <=? base then None else
      let bits := if free then reusable_free page else occupied page in
      let bits := Z.land bits (Z.land (Z.shiftl U64_MAX offset) U64_MAX) in
      let remaining := stop - base in
      let bits := if remaining <? 64 then Z.land bits (Z.shiftl 1 remaining - 1) else bits in
      if negb (bits =? 0) then Some (base + trailing_zeros bits)
      else next_bit_in free stop pages (base + 64) 0
  end.

Definition next_bit (g : GcState) (start stop : Z) (free : bool) : option Z :=
  if stop <=? start then None
  else next_bit_in free stop (drop (Z.to_nat (start / 64)) (slot_bits g)) (start / 64 * 64) (start mod 64).

Definition next_occupied (g : GcState) (start stop : Z) : option Z := next_bit g start stop false.
Definition next_reusable_free (g : GcState) (start stop : Z) : option Z := next_bit g start stop true.

(** [slots / 64], rounded up. *)
Definition pages_for (physical_slots : Z) : Z :=
  physical_slots / 64 + (if physical_slots mod 64 =? 0 then 0 else 1).

Definition truncate_slot_pages (g : GcState) (physical_slots : Z) : GcState :=
  let kept := take (Z.to_nat (pages_for physical_slots)) (slot_bits g) in
  if physical_slots mod 64 =? 0 then with_slot_bits g kept else
  match zget kept (zlen kept - 1) with
  | None => with_slot_bits g kept
  | Some page =>
      let valid := Z.shiftl 1 (physical_slots mod 64) - 1 in
      with_slot_bits g (zinsert kept (zlen kept - 1)
        {| occupied := occupied page; reusable_free := Z.land (reusable_free page) valid;
           gray := Z.land (gray page) valid; black := Z.land (black page) valid |})
  end.

(** ** Cycles *)

Definition transition (g : GcState) (next : GcPhase) : GcState :=
  if bool_decide (phase g = next) then g
  else with_transition_count (with_phase g next) (transition_count g + 1).

(** [clear_cycle]: back to [Pause]. *)
Definition clear_cycle (g : GcState) : GcState :=
  let g := clear_colors g in
  let g := with_work g [] in
  let g := with_gc_roots g [] in
  let g := with_growth_slots g [] in
  let g := with_gc_charge g 0 in
  let g := with_work_capacity g 0 in
  let g := with_root_cursor g 0 in
  let g := with_remembered_cursor g 0 in
  let g := with_sweep_cursor g 0 in
  let g := with_ephemeron_cursor g 0 in
  let g := with_atomic_finalizer_stage g BeforeWeakValues in
  let g := with_debt_bytes g 0 in
  let g := if bool_decide (cycle g = Minor) then g else with_major_debt_bytes g 0 in
  transition g Pause.

Definition clear_remembered (g : GcState) : GcState :=
  let g := with_remembered g [] in
  let g := with_remembered_charge g 0 in
  with_remembered_cursor g 0.
