(* ===== verification/GcBits.v ===== *)
(** What the operations of GcState do: the slot bits are a map from slots to colours
    and a set of free slots, the scans find the least slot, and the one-byte parameters
    round down by less than a seventeenth. *)

From Stdlib Require Import ZArith Lia.
From stdpp Require Import base list numbers.
From S2P Require Import Prelude Float Number Table GcState.

Local Open Scope Z_scope.

(** ** Bits of words *)

Lemma has_bit_mask word index : 0 <= index -> has_bit word (slot_mask index) = Z.testbit word (index mod 64).
Proof.
  intros Hi. unfold has_bit, slot_mask. pose proof (Z.mod_pos_bound index 64 ltac:(lia)) as Hm.
  set (k := index mod 64) in *. rewrite Z.shiftl_1_l.
  destruct (Z.testbit word k) eqn:Hb.
  - destruct (Z.land word (2 ^ k) =? 0) eqn:Hz; [| done]. apply Z.eqb_eq in Hz.
    assert (Z.testbit (Z.land word (2 ^ k)) k = false) as Hf by (rewrite Hz; apply Z.bits_0).
    rewrite Z.land_spec, Z.pow2_bits_true, Hb in Hf by lia. done.
  - apply negb_false_iff, Z.eqb_eq. apply Z.bits_inj'. intros j Hj.
    rewrite Z.land_spec, Z.bits_0. destruct (decide (j = k)) as [-> |]; [by rewrite Hb |].
    rewrite Z.pow2_bits_false by lia. apply andb_false_r.
Qed.

Lemma testbit_mask index j : 0 <= index -> 0 <= j < 64 ->
  Z.testbit (slot_mask index) j = bool_decide (j = index mod 64).
Proof.
  intros Hi Hj. unfold slot_mask. pose proof (Z.mod_pos_bound index 64 ltac:(lia)).
  rewrite Z.shiftl_1_l. case_bool_decide as E; [subst; apply Z.pow2_bits_true; lia |].
  apply Z.pow2_bits_false. lia.
Qed.

Lemma testbit_low n k : 0 <= n -> 0 <= k -> Z.testbit (Z.shiftl 1 n - 1) k = (k <? n).
Proof.
  intros Hn Hk. replace (Z.shiftl 1 n - 1) with (Z.ones n) by (rewrite Z.ones_equiv, Z.shiftl_1_l; lia).
  rewrite Z.testbit_ones by lia. by replace (0 <=? k) with true by (symmetry; apply Z.leb_le; lia).
Qed.

Definition word (w : Z) : Prop := 0 <= w < 2 ^ 64.

Lemma word_high w j : word w -> 64 <= j -> Z.testbit w j = false.
Proof.
  intros [H0 H1] Hj. destruct (decide (w = 0)) as [-> |]; [apply Z.bits_0 |].
  apply Z.bits_above_log2; [done |]. assert (Z.log2 w < 64) by (apply Z.log2_lt_pow2; lia). lia.
Qed.

Lemma word_by_bits w : 0 <= w -> (forall j, 64 <= j -> Z.testbit w j = false) -> word w.
Proof.
  intros H0 Hj. split; [done |]. destruct (decide (w = 0)) as [-> |]; [done |].
  apply Z.log2_lt_pow2; [lia |]. destruct (decide (64 <= Z.log2 w)) as [Hl |]; [| lia].
  specialize (Hj _ Hl). rewrite Z.bit_log2 in Hj by lia. done.
Qed.

Lemma word_land a b : word a -> 0 <= b -> word (Z.land a b).
Proof.
  intros Ha Hb. apply word_by_bits; [apply Z.land_nonneg; left; apply Ha |].
  intros j Hj. by rewrite Z.land_spec, word_high.
Qed.

Lemma word_mask index : 0 <= index -> word (slot_mask index).
Proof.
  intros Hi. unfold slot_mask. pose proof (Z.mod_pos_bound index 64 ltac:(lia)).
  rewrite Z.shiftl_1_l. split; [lia |]. apply Z.pow_lt_mono_r; lia.
Qed.

Lemma word_lor a b : word a -> word b -> word (Z.lor a b).
Proof.
  intros Ha Hb. apply word_by_bits; [apply Z.lor_nonneg; split; [apply Ha | apply Hb] |].
  intros j Hj. by rewrite Z.lor_spec, !word_high.
Qed.

Lemma word_ldiff a b : word a -> word (Z.ldiff a b).
Proof.
  intros Ha. apply word_by_bits; [apply Z.ldiff_nonneg; left; apply Ha |].
  intros j Hj. by rewrite Z.ldiff_spec, word_high.
Qed.

Lemma word_0 : word 0.
Proof. done. Qed.

#[export] Hint Resolve word_lor word_ldiff word_mask word_0 : rivet.

(** ** The bits of a slot *)

Definition slot_bit (field : GcSlotBits -> Z) (g : GcState) (index : Z) : bool :=
  match zget (slot_bits g) (index / 64) with
  | Some page => Z.testbit (field page) (index mod 64)
  | None => false
  end.

(** Every page is a word in each field. *)
Definition page_ok (page : GcSlotBits) : Prop :=
  word (occupied page) /\ word (reusable_free page) /\ word (gray page) /\ word (black page).
Definition pages_ok (g : GcState) : Prop := Forall page_ok (slot_bits g).

Lemma color_bits g index : 0 <= index ->
  color g index =
  if slot_bit occupied g index
  then Some (if slot_bit gray g index then Gray else if slot_bit black g index then Black else White)
  else None.
Proof.
  intros Hi. unfold color, slot_bit. destruct (zget _ _) as [page |]; [| done]. cbn.
  rewrite !has_bit_mask by done.
  by destruct (Z.testbit (occupied page) (index mod 64)), (Z.testbit (gray page) (index mod 64)),
    (Z.testbit (black page) (index mod 64)).
Qed.

(** An index outside the page of [index], or [index] itself, or another of its page. *)
Lemma same_page index j : 0 <= index -> 0 <= j -> index / 64 = j / 64 -> j mod 64 = index mod 64 -> j = index.
Proof.
  intros Hi Hj Hd Hm. rewrite (Z.div_mod j 64), (Z.div_mod index 64) by lia. congruence.
Qed.

Lemma update_page_inv g index f g' :
  update_page g index f = Ok g' ->
  exists page, zget (slot_bits g) (index / 64) = Some page /\
    g' = with_slot_bits g (zinsert (slot_bits g) (index / 64) (f page)).
Proof.
  unfold update_page, vget. destruct (zget _ _) as [page |]; [| done]. intros [= <-]. eauto.
Qed.

Lemma update_page_ok g index f : 0 <= index -> index / 64 < zlen (slot_bits g) ->
  exists g', update_page g index f = Ok g'.
Proof.
  intros Hi Hl. destruct (zget_is_Some (slot_bits g) (index / 64)) as [page Hp]; [split; [by apply Z.div_pos | done] |].
  unfold update_page, vget. rewrite Hp. cbn. eauto.
Qed.

(** An update whose effect on a field is, for each bit, [h] at [index] and nothing elsewhere. *)
Lemma slot_bit_update field (h : bool -> bool) g index f g' :
  update_page g index f = Ok g' -> 0 <= index ->
  (forall page k, 0 <= k < 64 -> Z.testbit (field (f page)) k =
     if bool_decide (k = index mod 64) then h (Z.testbit (field page) k) else Z.testbit (field page) k) ->
  forall j, 0 <= j -> slot_bit field g' j = if bool_decide (j = index) then h (slot_bit field g j) else slot_bit field g j.
Proof.
  intros (page & Hp & ->)%update_page_inv Hi Hf j Hj. unfold slot_bit. cbn [slot_bits with_slot_bits].
  pose proof (zget_lt _ _ _ Hp) as Hlt. pose proof (Z.mod_pos_bound j 64 ltac:(lia)).
  destruct (decide (j / 64 = index / 64)) as [E |].
  - rewrite E, zget_zinsert_eq, Hp, Hf by done. do 2 case_bool_decide; try done.
    + exfalso. by apply H1, same_page.
    + subst. done.
  - rewrite zget_zinsert_ne by lia. case_bool_decide; [by subst |]. done.
Qed.

Lemma pages_ok_update g index f g' :
  update_page g index f = Ok g' -> (forall page, page_ok page -> page_ok (f page)) -> pages_ok g -> pages_ok g'.
Proof.
  intros (page & Hp & ->)%update_page_inv Hf Hg. unfold pages_ok in *. cbn [slot_bits with_slot_bits].
  apply Forall_lookup. intros i x Hx. rewrite Forall_lookup in Hg. apply zget_Some in Hp as [_ Hp].
  unfold zinsert in Hx. apply list_lookup_insert_Some in Hx as [(_ & <- & _) | [_ Hx]]; eauto.
Qed.

(** How each operation treats a bit. *)
Ltac bit_update :=
  intros page k Hk; cbn;
  rewrite ?Z.lor_spec, ?Z.ldiff_spec, ?testbit_mask by (lia || assumption);
  case_bool_decide; rewrite ?orb_true_r, ?orb_false_r, ?andb_true_r, ?andb_false_r; reflexivity.

(** ** Colours *)

Lemma set_color_bits g index c g' : set_color g index c = Ok g' -> 0 <= index ->
  forall j, 0 <= j ->
    slot_bit occupied g' j = slot_bit occupied g j /\
    slot_bit reusable_free g' j = slot_bit reusable_free g j /\
    slot_bit gray g' j = (if bool_decide (j = index) then bool_decide (c = Gray) else slot_bit gray g j) /\
    slot_bit black g' j = (if bool_decide (j = index) then bool_decide (c = Black) else slot_bit black g j).
Proof.
  intros Hg Hi j Hj.
  assert (forall b : bool, (if b then slot_bit occupied g j else slot_bit occupied g j) = slot_bit occupied g j) as Ho by by intros [].
  repeat split.
  - rewrite (slot_bit_update occupied (fun b => b) _ _ _ _ Hg Hi); [by case_bool_decide | bit_update | done].
  - rewrite (slot_bit_update reusable_free (fun b => b) _ _ _ _ Hg Hi); [by case_bool_decide | bit_update | done].
  - rewrite (slot_bit_update gray (fun _ => bool_decide (c = Gray)) _ _ _ _ Hg Hi); [done | destruct c; bit_update | done].
  - rewrite (slot_bit_update black (fun _ => bool_decide (c = Black)) _ _ _ _ Hg Hi); [done | destruct c; bit_update | done].
Qed.

Lemma color_set_color g index c g' j :
  set_color g index c = Ok g' -> 0 <= index -> 0 <= j ->
  color g' j = if bool_decide (j = index) then (fun _ => c) <$> color g index else color g j.
Proof.
  intros Hg Hi Hj. destruct (set_color_bits _ _ _ _ Hg Hi j Hj) as (Ho & _ & Hgr & Hb).
  rewrite !color_bits, Ho, Hgr, Hb by done. case_bool_decide; [subst j |]; [| done].
  destruct (slot_bit occupied g index); cbn; [| done]. by destruct c.
Qed.

Lemma slot_bit_clear_colors g j :
  slot_bit occupied (clear_colors g) j = slot_bit occupied g j /\
  slot_bit reusable_free (clear_colors g) j = slot_bit reusable_free g j /\
  slot_bit gray (clear_colors g) j = false /\ slot_bit black (clear_colors g) j = false.
Proof.
  unfold slot_bit, clear_colors. cbn [slot_bits with_slot_bits].
  assert (forall f : GcSlotBits -> GcSlotBits, zget (map f (slot_bits g)) (j / 64) = f <$> zget (slot_bits g) (j / 64)) as ->.
  { intros f. unfold zget, zlen. rewrite length_map. destruct (_ && _); [| done]. by rewrite <- list_lookup_fmap. }
  destruct (zget _ _); cbn; by rewrite ?Z.bits_0.
Qed.

Lemma color_clear_colors g j : 0 <= j -> color (clear_colors g) j = (fun _ => White) <$> color g j.
Proof.
  intros Hj. destruct (slot_bit_clear_colors g j) as (Ho & _ & Hgr & Hb).
  rewrite !color_bits, Ho, Hgr, Hb by done. by destruct (slot_bit occupied g j).
Qed.

(** ** Publishing and freeing a slot *)

Lemma publish_bits g index g' : publish_occupied g index = Ok g' -> 0 <= index ->
  forall j, 0 <= j ->
    color g' j = (if bool_decide (j = index) then Some White else color g j) /\
    slot_bit reusable_free g' j = (if bool_decide (j = index) then false else slot_bit reusable_free g j).
Proof.
  unfold publish_occupied. intros Hg Hi j Hj. apply res_bind_Ok in Hg as (g1 & Hg & [= <-]).
  assert (forall field, slot_bit field (with_occupied_slots g1 (occupied_slots g1 + 1)) j = slot_bit field g1 j) as E by done.
  rewrite !color_bits, !E by done.
  rewrite (slot_bit_update occupied (fun _ => true) _ _ _ _ Hg Hi) by (done || bit_update).
  rewrite (slot_bit_update reusable_free (fun _ => false) _ _ _ _ Hg Hi) by (done || bit_update).
  rewrite (slot_bit_update gray (fun _ => false) _ _ _ _ Hg Hi) by (done || bit_update).
  rewrite (slot_bit_update black (fun _ => false) _ _ _ _ Hg Hi) by (done || bit_update).
  by case_bool_decide.
Qed.

Lemma retire_bits g index reusable g' : retire_or_free g index reusable = Ok g' -> 0 <= index ->
  forall j, 0 <= j ->
    color g' j = (if bool_decide (j = index) then None else color g j) /\
    slot_bit reusable_free g' j = (if bool_decide (j = index) then reusable else slot_bit reusable_free g j).
Proof.
  unfold retire_or_free. intros Hg Hi j Hj. apply res_bind_Ok in Hg as (g1 & Hg & [= <-]).
  assert (forall field, slot_bit field (with_occupied_slots g1 (occupied_slots g1 - 1)) j = slot_bit field g1 j) as E by done.
  rewrite !color_bits, !E by done.
  rewrite (slot_bit_update occupied (fun _ => false) _ _ _ _ Hg Hi) by (done || bit_update).
  rewrite (slot_bit_update reusable_free (fun _ => reusable) _ _ _ _ Hg Hi) by (done || destruct reusable; bit_update).
  rewrite (slot_bit_update gray (fun _ => false) _ _ _ _ Hg Hi) by (done || bit_update).
  rewrite (slot_bit_update black (fun _ => false) _ _ _ _ Hg Hi) by (done || bit_update).
  by case_bool_decide.
Qed.

Lemma set_color_pages_ok g index c g' : set_color g index c = Ok g' -> 0 <= index -> pages_ok g -> pages_ok g'.
Proof.
  intros Hg Hi. apply (pages_ok_update _ _ _ _ Hg). intros page (Ho & Hf & Hgr & Hb).
  repeat split; try apply Ho; try apply Hf; destruct c; apply word_lor || apply word_ldiff; auto with rivet.
Qed.

Lemma publish_pages_ok g index g' : publish_occupied g index = Ok g' -> 0 <= index -> pages_ok g -> pages_ok g'.
Proof.
  intros Hg Hi Hok. apply res_bind_Ok in Hg as (g1 & Hg & [= <-]). change (pages_ok g1).
  apply (pages_ok_update _ _ _ _ Hg); [| done]. intros page (Ho & Hf & Hgr & Hb). unfold page_ok. cbn. auto with rivet.
Qed.

Lemma retire_pages_ok g index r g' : retire_or_free g index r = Ok g' -> 0 <= index -> pages_ok g -> pages_ok g'.
Proof.
  intros Hg Hi Hok. apply res_bind_Ok in Hg as (g1 & Hg & [= <-]). change (pages_ok g1).
  apply (pages_ok_update _ _ _ _ Hg); [| done]. intros page (Ho & Hf & Hgr & Hb). unfold page_ok. destruct r; cbn; auto with rivet.
Qed.

Lemma clear_colors_pages_ok g : pages_ok g -> pages_ok (clear_colors g).
Proof.
  unfold pages_ok, clear_colors. cbn. rewrite Forall_map. apply Forall_impl.
  intros page (Ho & Hf & _). by repeat split; try apply Ho; try apply Hf.
Qed.

(** ** Scans *)

Lemma trailing_zeros_spec bits : word bits -> bits <> 0 ->
  0 <= trailing_zeros bits < 64 /\ Z.testbit bits (trailing_zeros bits) = true /\
  forall j, 0 <= j < trailing_zeros bits -> Z.testbit bits j = false.
Proof.
  intros Hw Hne. unfold trailing_zeros. destruct (list_find _ _) as [[n i] |] eqn:Hf.
  - apply list_find_Some in Hf as (Hn & Hi & Hbefore). apply lookup_seqZ in Hn as [-> Hlt].
    rewrite Z.add_0_l in *. split; [lia |]. split; [done |]. intros j Hj. apply not_true_is_false.
    apply (Hbefore (Z.to_nat j) j); [apply lookup_seqZ; lia | lia].
  - exfalso. apply list_find_None in Hf. rewrite Forall_forall in Hf. apply Hne, Z.bits_inj'. intros j Hj.
    rewrite Z.bits_0. destruct (decide (j < 64)); [| apply word_high; [done | lia]].
    apply not_true_is_false, Hf, list_elem_of_In, elem_of_seqZ. lia.
Qed.

(** The bit that a scan looks for. *)
Definition scanned (free : bool) : GcSlotBits -> Z := if free then reusable_free else occupied.

Lemma scan_bits (free : bool) page offset remaining k :
  page_ok page -> 0 <= offset < 64 -> 0 < remaining -> 0 <= k ->
  let bits := Z.land (scanned free page) (Z.land (Z.shiftl U64_MAX offset) U64_MAX) in
  let bits := if remaining <? 64 then Z.land bits (Z.shiftl 1 remaining - 1) else bits in
  word bits /\
  Z.testbit bits k = Z.testbit (scanned free page) k && (offset <=? k) && (k <? 64) && (k <? remaining).
Proof.
  intros (Ho & Hf & _) Hoff Hrem Hk. cbn zeta.
  assert (word (scanned free page)) as Hw by by destruct free.
  change U64_MAX with (Z.ones 64).
  replace (Z.shiftl 1 remaining - 1) with (Z.ones remaining)
    by (rewrite Z.ones_equiv, Z.shiftl_1_l; lia).
  assert (0 <= Z.land (Z.shiftl (Z.ones 64) offset) (Z.ones 64)) as Hmask by (apply Z.land_nonneg; by right).
  assert (word (Z.land (scanned free page) (Z.land (Z.shiftl (Z.ones 64) offset) (Z.ones 64)))) as Hb by by apply word_land.
  assert (Z.testbit (Z.land (scanned free page) (Z.land (Z.shiftl (Z.ones 64) offset) (Z.ones 64))) k =
    Z.testbit (scanned free page) k && (offset <=? k) && (k <? 64)) as E.
  { rewrite !Z.land_spec, Z.shiftl_spec, !Z.testbit_ones by lia. rewrite <- !andb_assoc. f_equal.
    destruct (offset <=? k) eqn:?, (0 <=? k - offset) eqn:?, (k - offset <? 64) eqn:?, (0 <=? k) eqn:?, (k <? 64) eqn:?;
      cbn; lia. }
  destruct (remaining <? 64) eqn:Hr.
  - split; [apply word_land; [done | pose proof (Z.pow_pos_nonneg 2 remaining); rewrite Z.ones_equiv; lia] |]. rewrite Z.land_spec, E, Z.testbit_ones by lia.
    by replace (0 <=? k) with true by lia.
  - split; [done |]. rewrite E. destruct (k <? 64) eqn:?, (k <? remaining) eqn:?; try lia; by rewrite ?andb_true_r, ?andb_false_r.
Qed.

Lemma next_bit_in_spec free stop pages base offset :
  Forall page_ok pages -> 0 <= offset < 64 ->
  let bit j := match zget pages (j / 64) with Some page => Z.testbit (scanned free page) (j mod 64) | None => false end in
  match next_bit_in free stop pages base offset with
  | Some i => offset <= i - base /\ i < stop /\ bit (i - base) = true /\ forall j, offset <= j < i - base -> bit j = false
  | None => forall j, offset <= j < stop - base -> bit j = false
  end.
Proof.
  intros Hok. revert base offset. induction Hok as [| page pages Hp Hok IH]; intros base offset Hoff bit.
  { cbn [next_bit_in]. intros j _. unfold bit.
    assert (zget (@nil GcSlotBits) (j / 64) = None) as -> by (apply zget_None; unfold zlen; cbn; lia). done. }
  assert (forall j, 0 <= j < 64 -> bit j = Z.testbit (scanned free page) j) as Hfirst.
  { intros j Hj. unfold bit. by rewrite Z.div_small, Z.mod_small by lia. }
  assert (forall j, 64 <= j -> bit j =
     match zget pages ((j - 64) / 64) with Some page => Z.testbit (scanned free page) ((j - 64) mod 64) | None => false end) as Hrest.
  { intros j Hj. unfold bit. replace ((j - 64) mod 64) with (j mod 64) by (rewrite <- (Z.mod_add (j - 64) 1 64); f_equal; lia).
    replace (j / 64) with (1 + (j - 64) / 64) by (rewrite <- (Z.div_add_l 1 64) by lia; f_equal; lia).
    pose proof (Z.div_pos (j - 64) 64 ltac:(lia) ltac:(lia)).
    unfold zget. rewrite zlen_cons. replace (Z.to_nat (1 + (j - 64) / 64)) with (S (Z.to_nat ((j - 64) / 64))) by lia.
    destruct (0 <=? 1 + (j - 64) / 64) eqn:?, (0 <=? (j - 64) / 64) eqn:?; try lia.
    by destruct (1 + (j - 64) / 64 <? 1 + zlen pages) eqn:?, ((j - 64) / 64 <? zlen pages) eqn:?; try lia. }
  cbn [next_bit_in]. destruct (stop <=? base) eqn:Hstop; [intros j Hj; lia |].
  pose proof (fun k Hk => scan_bits free page offset (stop - base) k Hp Hoff ltac:(lia) Hk) as Hbits. cbn zeta in Hbits.
  replace (if free then reusable_free page else occupied page) with (scanned free page) by by destruct free.
  set (bits := if stop - base <? 64 then _ else _) in *.
  destruct (negb (bits =? 0)) eqn:Hz.
  - apply negb_true_iff, Z.eqb_neq in Hz.
    destruct (trailing_zeros_spec bits) as (Ht & Hset & Hbefore); [apply (Hbits 0); lia | done |].
    replace (base + trailing_zeros bits - base) with (trailing_zeros bits) by lia.
    rewrite (proj2 (Hbits _ (proj1 Ht))) in Hset. bool_hyps.
    split; [lia |]. split; [lia |]. split; [by rewrite Hfirst |].
    intros j Hj. rewrite Hfirst by lia. specialize (Hbefore j ltac:(lia)).
    rewrite (proj2 (Hbits j ltac:(lia))) in Hbefore.
    by destruct (Z.testbit (scanned free page) j); [cbn in Hbefore; lia |].
  - apply negb_false_iff, Z.eqb_eq in Hz.
    assert (forall j, offset <= j < 64 -> j < stop - base -> bit j = false) as Hnone.
    { intros j Hj Hlt. rewrite Hfirst by lia. pose proof (proj2 (Hbits j ltac:(lia))) as Hb. rewrite Hz, Z.bits_0 in Hb.
      by destruct (Z.testbit (scanned free page) j); [cbn in Hb; lia |]. }
    specialize (IH (base + 64) 0 ltac:(lia)). cbn zeta in IH.
    destruct (next_bit_in free stop pages (base + 64) 0) as [i |].
    + destruct IH as (H1 & H2 & H3 & H4). replace (i - (base + 64)) with (i - base - 64) in * by lia.
      split; [lia |]. split; [done |]. split; [by rewrite Hrest by lia |].
      intros j Hj. destruct (decide (j < 64)); [apply Hnone; lia |]. rewrite Hrest by lia. apply H4. lia.
    + intros j Hj. destruct (decide (j < 64)); [apply Hnone; lia |]. rewrite Hrest by lia. apply IH. lia.
Qed.

(** [next_bit] finds the least slot of the range whose bit is set. *)
Lemma next_bit_spec g start stop free :
  pages_ok g -> 0 <= start ->
  match next_bit g start stop free with
  | Some i => start <= i < stop /\ slot_bit (scanned free) g i = true /\
              forall j, start <= j < i -> slot_bit (scanned free) g j = false
  | None => forall j, start <= j < stop -> slot_bit (scanned free) g j = false
  end.
Proof.
  intros Hok Hs. unfold next_bit. destruct (stop <=? start) eqn:Hr; [intros j Hj; lia |].
  pose proof (Z.mod_pos_bound start 64 ltac:(lia)) as Hm. pose proof (Z.div_mod start 64 ltac:(lia)) as Hdm.
  pose proof (Z.div_pos start 64 ltac:(lia) ltac:(lia)) as Hd.
  pose proof (next_bit_in_spec free stop (drop (Z.to_nat (start / 64)) (slot_bits g)) (start / 64 * 64) (start mod 64)
    (Forall_drop _ _ _ Hok) ltac:(lia)) as H. cbn zeta in H.
  assert (forall j, start mod 64 <= j ->
    match zget (drop (Z.to_nat (start / 64)) (slot_bits g)) (j / 64) with
    | Some page => Z.testbit (scanned free page) (j mod 64) | None => false end
    = slot_bit (scanned free) g (start / 64 * 64 + j)) as E.
  { intros j Hj. unfold slot_bit. rewrite Z.div_add_l by lia.
    replace ((start / 64 * 64 + j) mod 64) with (j mod 64) by (rewrite Z.add_comm, Z.mod_add; lia).
    pose proof (Z.div_pos j 64 ltac:(lia) ltac:(lia)). unfold zget, zlen. rewrite length_drop, lookup_drop.
    rewrite Z2Nat.inj_add by lia.
    destruct (0 <=? j / 64) eqn:?, (0 <=? start / 64 + j / 64) eqn:?; try lia. cbn [andb].
    clear H Hok Hdm Hm Hs Hr Hj. set (a := start / 64) in *. set (b := j / 64) in *.
    assert ((b <? Z.of_nat (length (slot_bits g) - Z.to_nat a)) = (a + b <? Z.of_nat (length (slot_bits g)))) as ->; [| done].
    apply eq_true_iff_eq. rewrite !Z.ltb_lt. lia. }
  destruct (next_bit_in _ _ _ _ _) as [i |].
  - destruct H as (H1 & H2 & H3 & H4). rewrite E in H3 by lia.
    replace (start / 64 * 64 + (i - start / 64 * 64)) with i in H3 by lia.
    split; [lia |]. split; [done |]. intros j Hj. specialize (H4 (j - start / 64 * 64) ltac:(lia)).
    rewrite E in H4 by lia. by replace (start / 64 * 64 + (j - start / 64 * 64)) with j in H4 by lia.
  - intros j Hj. specialize (H (j - start / 64 * 64) ltac:(lia)). rewrite E in H by lia.
    by replace (start / 64 * 64 + (j - start / 64 * 64)) with j in H by lia.
Qed.

(** ** Truncation *)

Lemma pages_for_le index slots : 0 <= index < slots -> index / 64 < pages_for slots.
Proof.
  intros H. unfold pages_for. pose proof (Z.div_mod slots 64 ltac:(lia)). pose proof (Z.mod_pos_bound slots 64 ltac:(lia)).
  pose proof (Z.div_mod index 64 ltac:(lia)). pose proof (Z.mod_pos_bound index 64 ltac:(lia)).
  destruct (slots mod 64 =? 0) eqn:?; nia.
Qed.

Lemma zget_take {A} (l : list A) n i : zget (take (Z.to_nat n) l) i = if i <? n then zget l i else None.
Proof.
  unfold zget, zlen. rewrite length_take. destruct (0 <=? i) eqn:H0; cbn; [| by destruct (i <? n)].
  destruct (i <? n) eqn:Hn.
  - assert ((i <? Z.of_nat (Z.to_nat n `min` length l)) = (i <? Z.of_nat (length l))) as ->
      by (apply eq_true_iff_eq; rewrite !Z.ltb_lt; lia).
    destruct (i <? Z.of_nat (length l)); [| done]. apply lookup_take_lt. lia.
  - assert (~ i < Z.of_nat (Z.to_nat n `min` length l)) as Hi%Z.ltb_nlt by lia. by rewrite Hi.
Qed.

(** Truncating to [slots] slots: the pages beyond go, and in the last page everything but
    [occupied] is cleared from [slots] on. *)
Lemma truncate_bits g slots j : 0 <= slots -> pages_for slots <= zlen (slot_bits g) -> 0 <= j ->
  slot_bit occupied (truncate_slot_pages g slots) j = slot_bit occupied g j && (j / 64 <? pages_for slots) /\
  (forall field, field = reusable_free \/ field = gray \/ field = black ->
     slot_bit field (truncate_slot_pages g slots) j = slot_bit field g j && (j <? slots)).
Proof.
  intros Hs Hlen Hj. pose proof (Z.mod_pos_bound slots 64 ltac:(lia)) as Hms. pose proof (Z.div_mod slots 64 ltac:(lia)) as Hds.
  pose proof (Z.mod_pos_bound j 64 ltac:(lia)) as Hmj. pose proof (Z.div_mod j 64 ltac:(lia)) as Hdj.
  assert (0 <= slots / 64) as Hs64 by (apply Z.div_pos; lia).
  unfold truncate_slot_pages. set (kept := take (Z.to_nat (pages_for slots)) (slot_bits g)).
  assert (zlen kept = pages_for slots) as Hk.
  { unfold kept, zlen in *. rewrite length_take. unfold pages_for in *. destruct (slots mod 64 =? 0); lia. }
  assert (forall field, slot_bit field (with_slot_bits g kept) j = slot_bit field g j && (j / 64 <? pages_for slots)) as Hkept.
  { intros field. unfold slot_bit. cbn [slot_bits with_slot_bits]. unfold kept. rewrite zget_take.
    destruct (j / 64 <? pages_for slots); by rewrite ?andb_true_r, ?andb_false_r. }
  destruct (slots mod 64 =? 0) eqn:Hz.
  { assert (pages_for slots = slots / 64) as Hp by (unfold pages_for; rewrite Hz; lia).
    assert ((j / 64 <? pages_for slots) = (j <? slots)) as E by (apply eq_true_iff_eq; rewrite !Z.ltb_lt; lia).
    split; [apply Hkept | intros field _; by rewrite Hkept, E]. }
  assert (pages_for slots = slots / 64 + 1) as Hp by (unfold pages_for; rewrite Hz; lia).
  destruct (zget kept (zlen kept - 1)) as [page |] eqn:Hl; [| apply zget_None in Hl; lia].
  set (final := {| occupied := _ |}).
  assert (forall field, slot_bit field (with_slot_bits g (zinsert kept (zlen kept - 1) final)) j =
      if bool_decide (j / 64 = slots / 64) then Z.testbit (field final) (j mod 64)
      else slot_bit field (with_slot_bits g kept) j) as Hb.
  { intros field. unfold slot_bit. cbn [slot_bits with_slot_bits]. case_bool_decide as E.
    - by replace (j / 64) with (zlen kept - 1) by lia; rewrite zget_zinsert_eq by lia.
    - by rewrite zget_zinsert_ne by lia. }
  assert (j / 64 = slots / 64 -> forall field, Z.testbit (field page) (j mod 64) = slot_bit field g j) as Hpage.
  { intros E field. rewrite <- (andb_true_r (slot_bit field g j)).
    replace true with (j / 64 <? pages_for slots) by (apply Z.ltb_lt; lia). rewrite <- Hkept. unfold slot_bit. cbn [slot_bits with_slot_bits].
    by replace (j / 64) with (zlen kept - 1) by lia; rewrite Hl. }
  split.
  - rewrite Hb, Hkept. case_bool_decide as E; [| done]. cbn [final occupied]. rewrite (Hpage E).
    by replace (j / 64 <? pages_for slots) with true by (symmetry; apply Z.ltb_lt; lia); rewrite andb_true_r.
  - intros field Hfield. rewrite Hb, Hkept. case_bool_decide as E.
    + assert (Z.testbit (field final) (j mod 64) = Z.testbit (field page) (j mod 64) && (j mod 64 <? slots mod 64)) as ->.
      { by destruct Hfield as [-> | [-> | ->]]; cbn [final reusable_free gray black]; rewrite Z.land_spec, testbit_low by lia. }
      rewrite (Hpage E). f_equal. apply eq_true_iff_eq. rewrite !Z.ltb_lt. lia.
    + f_equal. apply eq_true_iff_eq. rewrite !Z.ltb_lt. nia.
Qed.

(** ** Parameters *)

Lemma code_param_u8 v : u8 (code_param v).
Proof.
  unfold code_param. destruct (396800 <=? _) eqn:Hmax; [done |]. set (w := Z.max v 0) in *.
  assert (forall z, u8 (as_u8 z)) as Hu by (intros z; unfold as_u8; pose proof (Z.mod_pos_bound z 256); range_lia).
  destruct (_ <? 16); [apply Hu |]. set (a := as_u8 _). set (b := as_u8 (Z.shiftl _ _)).
  assert (forall z, u8 z -> forall k, 8 <= k -> Z.testbit z k = false) as Hbits.
  { intros z [H0 H1] k Hk. destruct (decide (z = 0)) as [-> |]; [apply Z.bits_0 |].
    apply Z.bits_above_log2; [done |]. assert (Z.log2 z < 8) by (apply Z.log2_lt_pow2; lia). lia. }
  assert (0 <= Z.lor a b) as H0 by (apply Z.lor_nonneg; split; apply Hu).
  split; [done |]. destruct (decide (Z.lor a b <= 255)); [done |]. exfalso.
  assert (8 <= Z.log2 (Z.lor a b)) as Hl by (apply Z.log2_le_pow2; lia).
  pose proof (Z.bit_log2 (Z.lor a b) ltac:(lia)) as Hb. rewrite Z.lor_spec, !Hbits in Hb; done || apply Hu || lia.
Qed.

Lemma code_fields m log : 16 <= m < 32 -> 0 <= log < 15 ->
  let code := Z.lor (as_u8 (m - 16)) (as_u8 (Z.shiftl (as_u8 (log + 1)) 4)) in
  Z.shiftr code 4 = log + 1 /\ Z.land code 15 = m - 16.
Proof.
  intros Hm Hl. unfold as_u8. rewrite (Z.mod_small (m - 16)), (Z.mod_small (log + 1)) by lia.
  rewrite Z.shiftl_mul_pow2, Z.mod_small by lia. cbn zeta. split.
  - rewrite Z.shiftr_lor, Z.shiftr_div_pow2, (Z.shiftr_div_pow2 (_ * _)) by lia.
    rewrite Z.div_small, Z.div_mul by lia. apply Z.lor_0_l.
  - rewrite Z.land_lor_distr_l. change 15 with (Z.ones 4). rewrite !Z.land_ones by lia.
    rewrite Z.mod_small, Z.mod_mul by lia. apply Z.lor_0_r.
Qed.

(** Decoding what was encoded gives the value up to one seventeenth, never more. *)
Lemma apply_code_param v : 0 <= v < 396800 ->
  apply_param (code_param v) <= v /\ 16 * v < 17 * (apply_param (code_param v) + 1).
Proof.
  intros Hv. unfold code_param. rewrite Z.max_l by lia. destruct (396800 <=? v) eqn:Hmax; [lia |].
  set (s := (v * 128 + 99) / 100).
  pose proof (Z.div_mod (v * 128 + 99) 100 ltac:(lia)) as Hd. pose proof (Z.mod_pos_bound (v * 128 + 99) 100 ltac:(lia)) as Hr.
  fold s in Hd. assert (0 <= s < 2 ^ 19) as Hs by (change (2 ^ 19) with 524288; lia).
  assert (forall mantissa, 0 <= mantissa <= s -> 16 * s <= 17 * mantissa ->
     mantissa * 100 / 128 <= v /\ 16 * v < 17 * (mantissa * 100 / 128 + 1)) as Hround.
  { intros mantissa Hm1 Hm2. pose proof (Z.div_mod (mantissa * 100) 128 ltac:(lia)).
    pose proof (Z.mod_pos_bound (mantissa * 100) 128 ltac:(lia)). lia. }
  assert (forall mantissa, 0 <= mantissa <= s -> saturating_mul mantissa 100 = mantissa * 100) as Hsat.
  { intros mantissa Hm. unfold saturating_mul, USIZE_MAX, U64_MAX. change (2 ^ 19) with 524288 in Hs. lia. }
  destruct (s <? 16) eqn:H16.
  - unfold apply_param, as_u8. rewrite Z.mod_small by lia.
    assert (Z.shiftr s 4 = 0) as -> by (rewrite Z.shiftr_div_pow2, Z.div_small by lia; done).
    cbn [Z.eqb]. rewrite Hsat by lia. apply Hround; lia.
  - set (log := Z.log2 s + 1 - 5). pose proof (Z.log2_spec s ltac:(lia)) as [Hlo Hhi].
    assert (4 <= Z.log2 s) as H4 by (apply Z.log2_le_pow2; lia).
    assert (Z.log2 s < 19) as H19 by (apply Z.log2_lt_pow2; lia).
    set (m := Z.shiftr s log). assert (m = s / 2 ^ log) as Em by (apply Z.shiftr_div_pow2; lia).
    assert (0 < 2 ^ log) as Hp by (apply Z.pow_pos_nonneg; lia).
    pose proof (Z.div_mod s (2 ^ log) ltac:(lia)) as Hdm. pose proof (Z.mod_pos_bound s (2 ^ log) Hp) as Hmm.
    rewrite <- Em in Hdm.
    replace (Z.log2 s) with (log + 4) in Hlo by lia. replace (Z.succ (Z.log2 s)) with (log + 5) in Hhi by lia.
    rewrite Z.pow_add_r in Hlo, Hhi by lia. change (2 ^ 4) with 16 in Hlo. change (2 ^ 5) with 32 in Hhi.
    assert (16 <= m < 32) as Hm by nia.
    destruct (code_fields m log Hm ltac:(lia)) as [Hhigh Hlow]. unfold apply_param.
    rewrite Hhigh, Hlow. replace (log + 1 =? 0) with false by lia. replace (log + 1 - 1) with log by lia.
    replace (m - 16 + 16) with m by lia. rewrite Z.shiftl_mul_pow2 by lia.
    rewrite Hsat by nia. apply Hround; nia.
Qed.

(** the parameters of the collector are kept in one byte: a percentage read back
    after it was set is never above the one that was set and below it by less than one
    seventeenth and one; from 396800 on it is 396800, the largest. *)
Theorem gc_parameters_round_down v :
  0 <= v ->
  u8 (code_param v) /\
  (396800 <= v -> apply_param (code_param v) = 396800) /\
  (v < 396800 -> apply_param (code_param v) <= v /\ 16 * v < 17 * (apply_param (code_param v) + 1)).
Proof.
  intros Hv. split; [apply code_param_u8 |]. split; [| by intros; apply apply_code_param].
  intros Hmax. unfold code_param. rewrite Z.max_l by lia. by replace (396800 <=? v) with true by lia.
Qed.

Lemma gc_parameters_round_down_witness :
  u8 (code_param 250) /\ apply_param (code_param 250) = 250 /\ apply_param (code_param 27) = 26 /\
  (396800 <= 30 -> apply_param (code_param 30) = 396800) /\
  (30 < 396800 -> apply_param (code_param 30) <= 30 /\ 16 * 30 < 17 * (apply_param (code_param 30) + 1)).
Proof. split; [| split; [| split]]; [done | vm_compute; done | vm_compute; done |]. apply (gc_parameters_round_down 30). lia. Defined.
