(* ===== verification/ShortStrings.v ===== *)
(** The index of interned short strings (ShortStringIndex of
    crates/rivetlua-runtime/src/heap.rs): an open-addressing table from hashes to
    objects, whose removed entries stay as deleted buckets. *)

From Stdlib Require Import ZArith Lia.
From stdpp Require Import base list numbers.
From S2P Require Import Prelude Float Number Table.

Local Open Scope Z_scope.

Definition MAX_SHORT_STRING_LEN : Z := 40.

Inductive ShortStringBucket :=
  | BucketEmpty
  | BucketDeleted
  | BucketOccupied (hash : Z) (object : ObjectRef).

Record ShortStringIndex := { buckets : list ShortStringBucket; index_occupied : Z; index_deleted : Z }.
Definition empty_index : ShortStringIndex := {| buckets := []; index_occupied := 0; index_deleted := 0 |}.

(** [ShortStringIndex::hash]. *)
Definition short_hash `{Hasher} (bytes : list Z) (seed : Z) : Z :=
  hasher_finish ((if seed =? 0 then [] else [HashWord seed]) ++ [HashBytes bytes]).

(** [(hash as usize).wrapping_add(offset) % capacity] *)
Definition short_probe (hash capacity offset : Z) : Z := wrap_u64 (hash + offset) mod capacity.
Definition short_probes (hash capacity : Z) : list Z := map (short_probe hash capacity) (seqZ 0 capacity).

(** The search of [insert] from the bucket at hand on; the first deleted one is kept. *)
Fixpoint free_bucket (bs : list ShortStringBucket) (probes : list Z) (first_deleted : option Z) : option (Z * bool) :=
  match probes with
  | [] => None
  | index :: probes =>
      match zget bs index with
      | Some BucketEmpty =>
          Some (match first_deleted with Some target => (target, true) | None => (index, false) end)
      | Some BucketDeleted =>
          free_bucket bs probes (match first_deleted with Some _ => first_deleted | None => Some index end)
      | _ => free_bucket bs probes first_deleted
      end
  end.

Definition short_insert (s : ShortStringIndex) (hash : Z) (object : ObjectRef) : res VmError ShortStringIndex :=
  if zlen (buckets s) =? 0 then Err LedgerInvariant else
  match free_bucket (buckets s) (short_probes hash (zlen (buckets s))) None with
  | Some (target, reused) =>
      Ok {| buckets := zinsert (buckets s) target (BucketOccupied hash object);
            index_occupied := index_occupied s + 1;
            index_deleted := if reused : bool then index_deleted s - 1 else index_deleted s |}
  | None => Err LedgerInvariant
  end.

(** The bucket of an object, up to the first empty one. *)
Fixpoint object_bucket (bs : list ShortStringBucket) (probes : list Z) (hash : Z) (object : ObjectRef) : option Z :=
  match probes with
  | [] => None
  | index :: probes =>
      match zget bs index with
      | Some BucketEmpty => None
      | Some (BucketOccupied stored_hash stored) =>
          if (stored_hash =? hash) && bool_decide (stored = object) then Some index
          else object_bucket bs probes hash object
      | _ => object_bucket bs probes hash object
      end
  end.

Definition short_remove (s : ShortStringIndex) (hash : Z) (object : ObjectRef) : ShortStringIndex :=
  match object_bucket (buckets s) (short_probes hash (zlen (buckets s))) hash object with
  | None => s
  | Some index =>
      if index_occupied s - 1 =? 0 then empty_index
      else {| buckets := zinsert (buckets s) index BucketDeleted;
              index_occupied := index_occupied s - 1; index_deleted := index_deleted s + 1 |}
  end.

(** The first object with the hash for which [same] holds, up to the first empty bucket
    ([Vm::find_short_string]). *)
Fixpoint find_short (same : ObjectRef -> res VmError bool) (bs : list ShortStringBucket) (probes : list Z) (hash : Z)
    : res VmError (option ObjectRef) :=
  match probes with
  | [] => Ok None
  | index :: probes =>
      match zget bs index with
      | Some BucketEmpty => Ok None
      | Some (BucketOccupied stored_hash object) =>
          if stored_hash =? hash then
            found ← same object;
            if found : bool then Ok (Some object) else find_short same bs probes hash
          else find_short same bs probes hash
      | _ => find_short same bs probes hash
      end
  end.

Section Growth.
Context {L : Type} `{Ledger L} (size_of_short_bucket : Z).

Definition checked_add {S} (a b : Z) : ST S VmError Z :=
  if a + b <=? USIZE_MAX then mret (a + b) else fail ArithmeticOverflow.

Definition occupied_entries (bs : list ShortStringBucket) : list (Z * ObjectRef) :=
  omap (fun b => match b with BucketOccupied hash object => Some (hash, object) | _ => None end) bs.

Definition insert_all (entries : list (Z * ObjectRef)) (s : ShortStringIndex) : res VmError ShortStringIndex :=
  fold_res (fun s e => short_insert s e.1 e.2) s entries.

(** [reserve_slot]: room for one more; a new index, with the old one returned. *)
Definition reserve_slot (s : ShortStringIndex) : ST L VmError (ShortStringIndex * option ShortStringIndex) :=
  let capacity := zlen (buckets s) in
  used ← checked_add (index_occupied s) (index_deleted s);
  used ← checked_add used 1;
  if negb (capacity =? 0) && (used <=? capacity / 2) then mret (s, None) else
  live ← checked_add (index_occupied s) 1;
  target ← (if capacity =? 0 then mret 16
            else if live <=? capacity / 2 then mret capacity
            else if capacity * 2 <=? USIZE_MAX then mret (capacity * 2) else fail ArithmeticOverflow);
  reserve_vec target size_of_short_bucket WorkReserve;;
  commit_charge;;
  next ← lift (insert_all (occupied_entries (buckets s))
     {| buckets := replicate (Z.to_nat target) BucketEmpty; index_occupied := 0; index_deleted := 0 |});
  mret (next, Some s).

End Growth.
