(* ===== verification/Heap.v ===== *)
(** The heap of a VM (crates/rivetlua-runtime/src/heap.rs, roots.rs, gc/trace.rs and
    the traversals of closure.rs, upvalue.rs, coroutine.rs and call.rs): slots with
    generations, objects and the references they hold, the root table, marking, the
    write barriers and the operations that store references. *)

From Stdlib Require Import ZArith Lia.
From stdpp Require Import base list numbers.
From S2P Require Import Prelude Float Number Table GcState ShortStrings.

Local Open Scope Z_scope.

(** ** The references that objects hold

    [x.trace_children(visit)] visits the references of [x] in order and stops at the
    first error: it is [each visit] of the list given here. *)

Definition value_edges (v : Value) : list ObjectRef := match v with VObject o => [o] | _ => [] end.
Definition option_edges (o : option ObjectRef) : list ObjectRef := match o with Some o => [o] | None => [] end.
Definition option_value_edges (v : option Value) : list ObjectRef := match v with Some v => value_edges v | None => [] end.

Record UserdataPayload := {
  bytes_charge : Z; requested_len : Z;
  uservalues : list Value; uservalues_charge : Z;
  userdata_metatable : option ObjectRef
}.
Definition userdata_edges (u : UserdataPayload) : list ObjectRef :=
  option_edges (userdata_metatable u) ++ concat (map value_edges (uservalues u)).

Record Closure := {
  closure_module : ObjectRef; closure_prototype : Z; closure_upvalues : list ObjectRef;
  environment : option Value; environment_cell : option ObjectRef
}.
Definition closure_edges (c : Closure) : list ObjectRef :=
  closure_module c :: option_value_edges (environment c) ++ option_edges (environment_cell c) ++ closure_upvalues c.

Record CClosure := { cclosure_function : HostFunctionId; cclosure_upvalues : list ObjectRef }.
Definition cclosure_edges (c : CClosure) : list ObjectRef := cclosure_upvalues c.

Inductive UpvalueState :=
  | UpvalueOpen (thread : VmId) (coroutine : option ObjectRef) (slot : Z)
  | UpvalueClosed (v : Value).
Record Upvalue := { upvalue_state : UpvalueState; upvalue_identity : option ObjectRef }.
Definition upvalue_edges (u : Upvalue) : list ObjectRef :=
  option_edges (upvalue_identity u) ++
  match upvalue_state u with
  | UpvalueClosed v => value_edges v
  | UpvalueOpen _ coroutine _ => option_edges coroutine
  end.

(** The builtins that hold references, and those that hold none. *)
Inductive LoadBuiltin :=
  | LoadIn (environment : ObjectRef)
  | Require (package : ObjectRef)
  | PreloadSearcher | SearchPath
  | LuaSearcher (package environment : ObjectRef)
  | NativeSearcher (package environment : ObjectRef) (root : bool).

Definition load_owner (b : LoadBuiltin) : option ObjectRef :=
  match b with
  | LoadIn environment => Some environment
  | Require package | LuaSearcher package _ | NativeSearcher package _ _ => Some package
  | PreloadSearcher | SearchPath => None
  end.
Definition load_environment (b : LoadBuiltin) : option ObjectRef :=
  match b with LuaSearcher _ environment | NativeSearcher _ environment _ => Some environment | _ => None end.

Inductive Builtin :=
  | HostCallback (id : Z)
  | CoroutineWrapped (coroutine : ObjectRef)
  | Utf8Codes (strict lax : ObjectRef)
  | Load (kind : LoadBuiltin)
  | LinesIterator (file formats : ObjectRef)
  | StringIterator (source pattern : Value) (next : Z) (last : option Z) (upvalue_identities : list ObjectRef)
  | PlainBuiltin.

Definition builtin_edges (b : Builtin) : list ObjectRef :=
  match b with
  | CoroutineWrapped coroutine => [coroutine]
  | Utf8Codes strict lax => [strict; lax]
  | Load kind => option_edges (load_owner kind) ++ option_edges (load_environment kind)
  | LinesIterator file formats => [file; formats]
  | StringIterator source pattern _ _ identities => value_edges source ++ value_edges pattern ++ identities
  | HostCallback _ | PlainBuiltin => []
  end.

(** Native calls in progress (gc/trace.rs). *)
Inductive NativeProtected := ProtectedPCall (depth : Z) | ProtectedXPCall (handler : Value).
Inductive NativeCompletion :=
  | NativePCall (depth : Z)
  | XPCallBody (handler : Value) (errors : Z)
  | XPCallHandler (handler : Value) (errors : Z)
  | NativeResume (outer : ObjectRef) (parent : option ObjectRef) (protected : option NativeProtected).

Definition protected_edges (p : NativeProtected) : list ObjectRef :=
  match p with ProtectedPCall _ => [] | ProtectedXPCall handler => value_edges handler end.
Definition native_edges (n : NativeCompletion) : list ObjectRef :=
  match n with
  | NativePCall _ => []
  | XPCallBody handler _ | XPCallHandler handler _ => value_edges handler
  | NativeResume outer parent protected =>
      outer :: option_edges parent ++ match protected with Some p => protected_edges p | None => [] end
  end.

(** Frames of a thread that is not running. *)
Record CallFrame := {
  frame_module : option ObjectRef; frame_closure : option ObjectRef;
  registers : list Value; varargs : list Value; debug_vararg_table : Value;
  open_upvalues : list ObjectRef; close_values : list Value
}.
Definition frame_edges (f : CallFrame) : list ObjectRef :=
  option_edges (frame_module f) ++ option_edges (frame_closure f) ++
  concat (map value_edges (registers f ++ varargs f)) ++ value_edges (debug_vararg_table f) ++
  open_upvalues f ++ concat (map value_edges (close_values f)).

(** What the interpreter keeps in a suspended thread besides frames: the operations in
    progress ([PendingStack] of pending_op.rs) and executions parked by the host
    ([ExternalSuspended] of vm/mod.rs), as the collector sees them. *)
Class Suspended := {
  PendingStack : Type;
  pending_edges : PendingStack -> list ObjectRef;
  ExternalSuspended : Type;
  external_edges : ExternalSuspended -> list ObjectRef
}.

Section Threads.
Context `{Suspended}.

Record ThreadContext := {
  context_frame : CallFrame; callers : list CallFrame; pending_ops : PendingStack;
  protected_handlers : list (option Value);
  close_unwind : option Value; suspended_close_for_handler : list Value
}.
Definition context_edges (c : ThreadContext) : list ObjectRef :=
  frame_edges (context_frame c) ++ concat (map frame_edges (callers c)) ++ pending_edges (pending_ops c) ++
  concat (map option_value_edges (protected_handlers c)) ++
  option_value_edges (close_unwind c) ++ concat (map value_edges (suspended_close_for_handler c)).

Record Coroutine := {
  entry : Value; context : option ThreadContext; unwind_context : option ThreadContext;
  coroutine_error : option Value; native : option NativeCompletion; native_bridge : option ObjectRef;
  external_suspended : option ExternalSuspended; debug_hook : option ObjectRef
}.
Definition coroutine_edges (c : Coroutine) : list ObjectRef :=
  value_edges (entry c) ++ option_value_edges (coroutine_error c) ++ option_edges (native_bridge c) ++
  option_edges (debug_hook c) ++
  match context c with Some c => context_edges c | None => [] end ++
  match unwind_context c with Some c => context_edges c | None => [] end ++
  match native c with Some n => native_edges n | None => [] end ++
  match external_suspended c with Some e => external_edges e | None => [] end.

(** ** Objects and slots *)

Record FilePayload := { file_open : bool; file_metatable : option ObjectRef; standard : bool }.

Inductive HeapPayload :=
  | PValue (v : Value)
  | PByteString (s : ByteString)
  | PTable (t : Table)
  | PUserdata (u : UserdataPayload)
  | PClosure (c : Closure)
  | PCClosure (c : CClosure)
  | PBuiltin (b : Builtin)
  | PCoroutine (c : Coroutine)
  | PUpvalue (u : Upvalue)
  | PModule (constant_charge : Z)
  | PFile (f : FilePayload).

Record HeapObject := { payload : HeapPayload; children : list ObjectRef }.

Definition payload_kind (p : HeapPayload) : ObjectKind.ObjectKind :=
  match p with
  | PValue _ => ObjectKind.Value | PByteString _ => ObjectKind.ByteString | PTable _ => ObjectKind.Table
  | PUserdata _ => ObjectKind.Userdata | PClosure _ => ObjectKind.Closure | PCClosure _ => ObjectKind.CClosure
  | PBuiltin _ => ObjectKind.Builtin | PCoroutine _ => ObjectKind.Coroutine | PUpvalue _ => ObjectKind.Upvalue
  | PModule _ => ObjectKind.Module | PFile _ => ObjectKind.File
  end.

(** The references of a payload that is not a table. *)
Definition payload_edges (p : HeapPayload) : list ObjectRef :=
  match p with
  | PValue v => value_edges v
  | PByteString _ | PTable _ | PModule _ => []
  | PUserdata u => userdata_edges u
  | PClosure c => closure_edges c
  | PCClosure c => cclosure_edges c
  | PBuiltin b => builtin_edges b
  | PCoroutine c => coroutine_edges c
  | PUpvalue u => upvalue_edges u
  | PFile f => option_edges (file_metatable f)
  end.

(** [HeapObject::trace_children], [HeapObject::trace_gc_children]. *)
Definition trace_object {S} (visit : ObjectRef -> ST S VmError unit) (o : HeapObject) : ST S VmError unit :=
  (match payload o with
   | PTable t => trace_children visit t
   | p => each visit (payload_edges p)
   end);;
  each visit (children o).

Definition trace_gc_object_children {S} (is_string : ObjectRef -> res VmError bool)
    (visit : ObjectRef -> ST S VmError unit) (o : HeapObject) : ST S VmError unit :=
  match payload o with
  | PTable t => trace_gc_children visit is_string t;; each visit (children o)
  | _ => trace_object visit o
  end.

Record OccupiedSlot := {
  generation : Generation; reference : ObjectRef;
  age : GcAge; survivals : Z;
  finalizer : FinalizerState; finalizer_order : Z; finalizer_remarked : bool;
  object : HeapObject
}.
#[export] Instance OccupiedSlot_eta : Eta OccupiedSlot := fun s =>
  Build_OccupiedSlot (generation s) (reference s) (age s) (survivals s) (finalizer s) (finalizer_order s)
    (finalizer_remarked s) (object s).
Definition with_age : OccupiedSlot -> GcAge -> OccupiedSlot := ltac:(set_field age).
Definition with_survivals : OccupiedSlot -> Z -> OccupiedSlot := ltac:(set_field survivals).
Definition with_finalizer : OccupiedSlot -> FinalizerState -> OccupiedSlot := ltac:(set_field finalizer).
Definition with_finalizer_order : OccupiedSlot -> Z -> OccupiedSlot := ltac:(set_field finalizer_order).
Definition with_finalizer_remarked : OccupiedSlot -> bool -> OccupiedSlot := ltac:(set_field finalizer_remarked).
Definition with_object : OccupiedSlot -> HeapObject -> OccupiedSlot := ltac:(set_field object).

Inductive Slot :=
  | Occupied (s : OccupiedSlot)
  | Free (generation : Generation)
  | Retired.

Record FinalizerEntry := { fe_object : ObjectRef; fe_order : Z }.

End Threads.

(** ** Roots (roots.rs) *)

Module RootKind.
Inductive RootKind := Stack | Registry | Global | Temporary | Coroutine | Host.
#[global] Instance RootKind_eq_dec : EqDecision RootKind.
Proof. solve_decision. Defined.
End RootKind.

Record RootId := { root_vm : VmId; root_sequence : Z }.
#[export] Instance RootId_eq_dec : EqDecision RootId.
Proof. solve_decision. Defined.

(** A lease is shared with a handle of the host, which can end it: it is an index in the
    store of leases. *)
Record RootEntry := { root_id : RootId; root_kind : RootKind.RootKind; root_object : ObjectRef; lease : option Z }.
Record RootSet := { entries : list RootEntry; next_sequence : Z; leases : list bool }.
Definition no_roots : RootSet := {| entries := []; next_sequence := 1; leases := [] |}.

Definition lease_active (r : RootSet) (l : Z) : bool := match zget (leases r) l with Some b => b | None => false end.
Definition root_active (r : RootSet) (e : RootEntry) : bool :=
  match lease e with None => true | Some l => lease_active r l end.
Definition active_entries (r : RootSet) : list RootEntry := filter (fun e => root_active r e = true) (entries r).
Definition compact (r : RootSet) : RootSet :=
  {| entries := active_entries r; next_sequence := next_sequence r; leases := leases r |}.
Definition total_count (r : RootSet) : Z := zlen (active_entries r).
Definition root_objects (r : RootSet) : list ObjectRef := map root_object (active_entries r).
Definition active_object (r : RootSet) (id : RootId) : option ObjectRef :=
  root_object <$> head (filter (fun e => root_id e = id) (active_entries r)).

(** [RootLease::deactivate] on a lease of the store. *)
Definition deactivate (r : RootSet) (l : Z) : RootSet :=
  {| entries := entries r; next_sequence := next_sequence r; leases := zinsert (leases r) l false |}.

(** [v.swap_remove(index)]: the last element takes the place of the removed one. *)
Definition swap_remove {A} (l : list A) (index : nat) : list A :=
  match l !! (length l - 1)%nat with
  | Some final => take (length l - 1) (<[index := final]> l)
  | None => l
  end.

(** ** The VM *)

(** The ledger, as the heap looks at it: sizes of what is charged, the requests without
    a place of failure, room in vectors of charges, and the bytes of the Lua heap. *)
Class HeapLedger (L : Type) := {
  heap_ledger :: Ledger L;
  size_of_object_ref : Z; size_of_heap_object : Z; size_of_heap_slot : Z; size_of_gc_slot_bits : Z;
  size_of_finalizer_entry : Z; size_of_root_entry : Z; size_of_root_lease : Z;
  indirect_charge : ObjectKind.ObjectKind -> Z;
  managed_payload_len : ByteString -> Z;
  reserve : Z -> ST L VmError unit;
  reserve_charges : Z -> ST L VmError unit;
  normalize_charges : Z -> ST L VmError unit;
  lua_heap_bytes : L -> Z;
  committed_bytes : L -> Z
}.

(** The fields of [Vm] that the heap and the collector use. The last is the counter of
    runtime tokens, which the code shares between VMs. *)
Record Vm `{Suspended} (L : Type) := {
  vm_id : VmId;
  profile : LuaProfile;
  vm_hash_seed : Z;
  slots : list Slot;
  short_strings : ShortStringIndex;
  gc_scan_end : Z;
  roots : RootSet;
  ledger : L;
  gc : GcState;
  gc_restart_pending_debt_bytes : Z;
  collect_every_allocation : bool;
  finalizer_queue : list FinalizerEntry;
  finalizer_queue_charge : Z;
  finalizer_next_order : Z;
  shutdown_closing : bool;
  finalizer_warnings : Z;
  finalizer_deferred_terminals : Z;
  finalizer_running : bool;
  execution_running : bool;
  gc_control_collecting : bool;
  native_warning_bridge : option (HostFunctionId * ObjectRef);
  callbacks : list (option (list Value));
  next_runtime_token : Z
}.
Arguments Build_Vm {_ _}.
Arguments vm_id {_ _} _.
Arguments profile {_ _} _.
Arguments vm_hash_seed {_ _} _.
Arguments slots {_ _} _.
Arguments short_strings {_ _} _.
Arguments gc_scan_end {_ _} _.
Arguments roots {_ _} _.
Arguments ledger {_ _} _.
Arguments gc {_ _} _.
Arguments gc_restart_pending_debt_bytes {_ _} _.
Arguments collect_every_allocation {_ _} _.
Arguments finalizer_queue {_ _} _.
Arguments finalizer_queue_charge {_ _} _.
Arguments finalizer_next_order {_ _} _.
Arguments shutdown_closing {_ _} _.
Arguments finalizer_warnings {_ _} _.
Arguments finalizer_deferred_terminals {_ _} _.
Arguments finalizer_running {_ _} _.
Arguments execution_running {_ _} _.
Arguments gc_control_collecting {_ _} _.
Arguments native_warning_bridge {_ _} _.
Arguments callbacks {_ _} _.
Arguments next_runtime_token {_ _} _.

Section Operations.
Context `{Suspended} {L : Type} `{HeapLedger L} `{Hasher}.

Notation Vm := (Vm L).
Notation HeapM := (ST Vm VmError).

#[export] Instance Vm_eta : Eta Vm := fun vm =>
  Build_Vm (vm_id vm) (profile vm) (vm_hash_seed vm) (slots vm) (short_strings vm) (gc_scan_end vm) (roots vm)
    (ledger vm) (gc vm) (gc_restart_pending_debt_bytes vm) (collect_every_allocation vm) (finalizer_queue vm)
    (finalizer_queue_charge vm) (finalizer_next_order vm) (shutdown_closing vm) (finalizer_warnings vm)
    (finalizer_deferred_terminals vm) (finalizer_running vm) (execution_running vm) (gc_control_collecting vm)
    (native_warning_bridge vm) (callbacks vm) (next_runtime_token vm).
Definition with_slots : Vm -> list Slot -> Vm := ltac:(set_field (@slots _ L)).
Definition with_short_strings : Vm -> ShortStringIndex -> Vm := ltac:(set_field (@short_strings _ L)).
Definition with_gc_scan_end : Vm -> Z -> Vm := ltac:(set_field (@gc_scan_end _ L)).
Definition with_roots : Vm -> RootSet -> Vm := ltac:(set_field (@roots _ L)).
Definition with_ledger : Vm -> L -> Vm := ltac:(set_field (@ledger _ L)).
Definition with_gc : Vm -> GcState -> Vm := ltac:(set_field (@gc _ L)).
Definition with_gc_restart_pending_debt_bytes : Vm -> Z -> Vm := ltac:(set_field (@gc_restart_pending_debt_bytes _ L)).
Definition with_collect_every_allocation : Vm -> bool -> Vm := ltac:(set_field (@collect_every_allocation _ L)).
Definition with_finalizer_queue : Vm -> list FinalizerEntry -> Vm := ltac:(set_field (@finalizer_queue _ L)).
Definition with_finalizer_queue_charge : Vm -> Z -> Vm := ltac:(set_field (@finalizer_queue_charge _ L)).
Definition with_finalizer_next_order : Vm -> Z -> Vm := ltac:(set_field (@finalizer_next_order _ L)).
Definition with_shutdown_closing : Vm -> bool -> Vm := ltac:(set_field (@shutdown_closing _ L)).
Definition with_finalizer_running : Vm -> bool -> Vm := ltac:(set_field (@finalizer_running _ L)).
Definition with_gc_control_collecting : Vm -> bool -> Vm := ltac:(set_field (@gc_control_collecting _ L)).
Definition with_callbacks : Vm -> list (option (list Value)) -> Vm := ltac:(set_field (@callbacks _ L)).
Definition with_next_runtime_token : Vm -> Z -> Vm := ltac:(set_field (@next_runtime_token _ L)).

(** ** Parts of the state *)

Definition on_ledger {A} (m : ST L VmError A) : HeapM A := fun vm =>
  let '(r, l) := m (ledger vm) in (r, with_ledger vm l).
Definition on_gc {A} (m : ST GcState VmError A) : HeapM A := fun vm =>
  let '(r, g) := m (gc vm) in (r, with_gc vm g).
Definition modify (f : Vm -> Vm) : HeapM unit := fun vm => (Ok tt, f vm).
Definition modify_gc (f : GcState -> GcState) : HeapM unit := modify (fun vm => with_gc vm (f (gc vm))).
(** An operation of the collector's state that may fail or panic. *)
Definition update_gc (f : GcState -> res VmError GcState) : HeapM unit :=
  vm ← get; g ← lift (f (gc vm)); put (with_gc vm g).
Definition ok_or {S A} (e : VmError) (o : option A) : ST S VmError A :=
  match o with Some a => mret a | None => fail e end.

(** [if let Err(error) = m { undo; return Err(error) }] *)
Definition or_else {A} (m : HeapM A) (undo : VmError -> HeapM A) : HeapM A := fun vm =>
  match m vm with (Err e, vm) => undo e vm | r => r end.

(** [let result = m;]: an error is a value. *)
Definition attempt {A} (m : HeapM A) : HeapM (A + VmError) := fun vm =>
  match m vm with
  | (Ok a, vm) => (Ok (inl a), vm)
  | (Err e, vm) => (Ok (inr e), vm)
  | (Crash k, vm) => (Crash k, vm)
  end.

(** ** Checked access *)

(** The check of a reference against the slots, shared by [gc_mark_slot], [gc_is_string]
    and [Vm::checked_slot]: the VM, the generation and the whole reference. *)
Definition checked_in (slots : list Slot) (vm : VmId) (o : ObjectRef) : res VmError (Z * OccupiedSlot) :=
  match identity o with
  | None => Err StaleObject
  | Some id =>
      if negb (bool_decide (oid_vm id = vm)) then Err WrongVm else
      match zget slots (slot_index (oid_slot id)) with
      | Some (Occupied s) =>
          if bool_decide (generation_value (generation s) = generation_value (oid_generation id))
             && bool_decide (reference s = o)
          then Ok (slot_index (oid_slot id), s) else Err StaleObject
      | _ => Err StaleObject
      end
  end.

Definition checked_slot (vm : Vm) (o : ObjectRef) : res VmError (Z * OccupiedSlot) := checked_in (slots vm) (vm_id vm) o.

Definition object_kind (vm : Vm) (o : ObjectRef) : res VmError ObjectKind.ObjectKind :=
  found ← checked_slot vm o; Ok (payload_kind (payload (object found.2))).
Definition gc_age (vm : Vm) (o : ObjectRef) : res VmError GcAge := found ← checked_slot vm o; Ok (age found.2).
Definition finalizer_state (vm : Vm) (o : ObjectRef) : res VmError FinalizerState :=
  found ← checked_slot vm o; Ok (finalizer found.2).
Definition gc_color (vm : Vm) (o : ObjectRef) : res VmError GcColor :=
  found ← checked_slot vm o;
  match color (gc vm) found.1 with Some c => Ok c | None => Err LedgerInvariant end.

Definition with_byte_string (vm : Vm) (o : ObjectRef) : res VmError ByteString :=
  found ← checked_slot vm o;
  match payload (object found.2) with PByteString s => Ok s | _ => Err WrongObjectType end.
Definition with_table (vm : Vm) (o : ObjectRef) : res VmError Table :=
  found ← checked_slot vm o;
  match payload (object found.2) with PTable t => Ok t | _ => Err WrongObjectType end.
Definition with_userdata (vm : Vm) (o : ObjectRef) : res VmError UserdataPayload :=
  found ← checked_slot vm o;
  match payload (object found.2) with PUserdata u => Ok u | _ => Err WrongObjectType end.

(** The heap of a VM is what its tables ask of a heap. *)
Definition heap_of (vm : Vm) : Heap := {|
  heap_id := vm_id vm;
  Table.object_kind := object_kind vm;
  Table.with_byte_string := with_byte_string vm
|}.

(** [&mut self.slots[index]] that must be occupied. *)
Definition update_slot (e : VmError) (index : Z) (f : OccupiedSlot -> OccupiedSlot) : HeapM unit :=
  vm ← get;
  slot ← lift (vget (slots vm) index);
  match slot with
  | Occupied s => put (with_slots vm (zinsert (slots vm) index (Occupied (f s))))
  | _ => fail e
  end.

Definition with_payload (s : OccupiedSlot) (p : HeapPayload) : OccupiedSlot :=
  with_object s {| payload := p; children := children (object s) |}.

(** The payload of a checked object, changed in place: [with_table_mut],
    [with_userdata_mut], [with_upvalue_mut], [with_coroutine_mut] and the like. *)
Definition update_payload (o : ObjectRef) (f : HeapPayload -> res VmError HeapPayload) : HeapM unit :=
  vm ← get;
  found ← lift (checked_slot vm o);
  p ← lift (f (payload (object found.2)));
  update_slot StaleObject found.1 (fun s => with_payload s p).

Definition on_table (f : Table -> Table) (p : HeapPayload) : res VmError HeapPayload :=
  match p with PTable t => Ok (PTable (f t)) | _ => Err WrongObjectType end.
Definition on_userdata (f : UserdataPayload -> UserdataPayload) (p : HeapPayload) : res VmError HeapPayload :=
  match p with PUserdata u => Ok (PUserdata (f u)) | _ => Err WrongObjectType end.
Definition on_upvalue (f : Upvalue -> Upvalue) (p : HeapPayload) : res VmError HeapPayload :=
  match p with PUpvalue u => Ok (PUpvalue (f u)) | _ => Err WrongObjectType end.
Definition on_coroutine (f : Coroutine -> Coroutine) (p : HeapPayload) : res VmError HeapPayload :=
  match p with PCoroutine c => Ok (PCoroutine (f c)) | _ => Err WrongObjectType end.
Definition on_closure (f : Closure -> Closure) (p : HeapPayload) : res VmError HeapPayload :=
  match p with PClosure c => Ok (PClosure (f c)) | _ => Err WrongObjectType end.
Definition on_file (f : FilePayload -> FilePayload) (p : HeapPayload) : res VmError HeapPayload :=
  match p with PFile p => Ok (PFile (f p)) | _ => Err WrongObjectType end.

(** ** Marking *)

(** The last part of [gc_mark_slot]: a white object of a cycle in progress becomes gray and
    joins the work list; during the sweep the cycle goes back to propagation. *)
Definition mark_white (index : Z) (o : ObjectRef) : ST GcState VmError unit :=
  g ← get;
  if bool_decide (phase g = Pause) then mret tt else
  c ← ok_or LedgerInvariant (color g index);
  if negb (bool_decide (c = White)) then mret tt else
  if zlen (work g) =? work_capacity g then fail AllocationFailed else
  g ← lift (set_color g index Gray);
  let g := with_work g (work g ++ [o]) in
  put (if bool_decide (phase g = Sweep) then transition g Propagate else g).

Definition gc_mark_slot (slots : list Slot) (vm : VmId) (o : ObjectRef) : ST GcState VmError unit :=
  found ← lift (checked_in slots vm o);
  mark_white found.1 o.

Definition gc_is_string (slots : list Slot) (vm : VmId) (o : ObjectRef) : res VmError bool :=
  found ← checked_in slots vm o;
  Ok (match payload (object found.2) with PByteString _ => true | _ => false end).

Definition mark_gc_object (o : ObjectRef) : HeapM unit :=
  vm ← get; on_gc (gc_mark_slot (slots vm) (vm_id vm) o).

Definition trace_gc_object (o : ObjectRef) : HeapM unit :=
  vm ← get;
  on_gc (gc_mark_slot (slots vm) (vm_id vm) o;;
         found ← lift (checked_in (slots vm) (vm_id vm) o);
         trace_gc_object_children (gc_is_string (slots vm) (vm_id vm)) (gc_mark_slot (slots vm) (vm_id vm))
           (object found.2)).

(** ** Roots *)

Definition next_root_id (r : RootSet) (vm : VmId) : res VmError RootId :=
  if next_sequence r + 1 <=? U64_MAX then Ok {| root_vm := vm; root_sequence := next_sequence r |}
  else Err RootIdExhausted.

(** [RootSet::add]. *)
Definition root_add (kind : RootKind.RootKind) (o : ObjectRef) : HeapM RootId :=
  modify (fun vm => with_roots vm (compact (roots vm)));;
  vm ← get;
  id ← lift (next_root_id (roots vm) (vm_id vm));
  on_ledger (reserve size_of_root_entry;; checkpoint RootReserve;; try_reserve_exact 1;; commit_charge);;
  modify (fun vm => with_roots vm
    {| entries := entries (roots vm) ++ [{| root_id := id; root_kind := kind; root_object := o; lease := None |}];
       next_sequence := next_sequence (roots vm) + 1; leases := leases (roots vm) |});;
  mret id.

(** [RootSet::add_host]: the lease is a new index of the store. *)
Definition root_add_host (o : ObjectRef) : HeapM (RootId * Z) :=
  modify (fun vm => with_roots vm (compact (roots vm)));;
  vm ← get;
  id ← lift (next_root_id (roots vm) (vm_id vm));
  host_cost ← checked_add (8 * 2) size_of_root_lease;
  charge ← checked_add size_of_root_entry host_cost;
  on_ledger (reserve charge;; checkpoint RootReserve;; try_reserve_exact 1;; checkpoint HostLease;; commit_charge);;
  let l := zlen (leases (roots vm)) in
  modify (fun vm => with_roots vm
    {| entries := entries (roots vm) ++ [{| root_id := id; root_kind := RootKind.Host; root_object := o; lease := Some l |}];
       next_sequence := next_sequence (roots vm) + 1; leases := leases (roots vm) ++ [true] |});;
  mret (id, l).

(** [RootSet::remove]. *)
Definition remove_root (id : RootId) : HeapM ObjectRef :=
  vm ← get;
  if negb (bool_decide (root_vm id = vm_id vm)) then fail WrongVm else
  match list_find (fun e => root_id e = id) (entries (roots vm)) with
  | None => fail StaleRoot
  | Some (index, e) =>
      let was_active := root_active (roots vm) e in
      let r := match lease e with Some l => deactivate (roots vm) l | None => roots vm end in
      put (with_roots vm {| entries := swap_remove (entries r) index; next_sequence := next_sequence r; leases := leases r |});;
      if was_active then mret (root_object e) else fail StaleRoot
  end.

Definition add_root (kind : RootKind.RootKind) (o : ObjectRef) : HeapM RootId :=
  vm ← get;
  lift (checked_slot vm o);;
  root ← root_add kind o;
  or_else (mark_gc_object o) (fun e => remove_root root;; fail e);;
  mret root.

Definition add_host_root (o : ObjectRef) : HeapM (RootId * Z) :=
  vm ← get;
  lift (checked_slot vm o);;
  root ← root_add_host o;
  or_else (mark_gc_object o) (fun e => remove_root root.1;; fail e);;
  mret root.

(** A handle of the host is dropped. *)
Definition drop_lease (l : Z) : HeapM unit := modify (fun vm => with_roots vm (deactivate (roots vm) l)).

End Operations.
