(* ===== verification/Barrier.v ===== *)
(** Storing references and giving objects back (crates/rivetlua-runtime/src/heap.rs,
    table.rs, metamethod.rs): the write barrier and the prepared barrier of tables, the
    operations that store into an object, finalizer registration and order, reclaiming. *)

From Stdlib Require Import ZArith Lia.
From stdpp Require Import base list numbers sorting.
From S2P Require Import Prelude Float Number Table GcState ShortStrings Heap.

Local Open Scope Z_scope.

Inductive RefField :=
  | FieldChild | FieldTableKey | FieldTableValue | FieldMetatable | FieldUserValue | FieldUpvalue | FieldCoroutine.

Definition earlier (a b : FinalizerEntry) : Prop := fe_order a <= fe_order b.
#[export] Instance earlier_dec a b : Decision (earlier a b).
Proof. unfold earlier. apply _. Defined.

Section Barrier.
Context `{Suspended} {L : Type} `{HeapLedger L} `{Hasher}.

Notation Vm := (Vm L).
Notation HeapM := (ST Vm VmError).

(** ** The barrier of one reference *)

Definition remember_gc_owner (owner : ObjectRef) : HeapM unit :=
  vm ← get;
  if contains (remembered (gc vm)) owner then mret tt else
  next_charge ← checked_add (remembered_charge (gc vm)) size_of_object_ref;
  on_ledger (reserve_charges 1;; reserve_vec 1 size_of_object_ref RememberedReserve;; commit_charge);;
  modify_gc (fun g => with_remembered_charge (with_remembered g (remembered g ++ [owner])) next_charge).

(** Whether a reference in a field of the table keeps its target alive by itself. *)
Definition weak_edge (mode : WeakMode.WeakMode) (field : RefField) (string : bool) : bool :=
  match field with
  | FieldTableKey => (bool_decide (mode = WeakMode.Keys) || bool_decide (mode = WeakMode.All)) && negb string
  | FieldTableValue => negb (bool_decide (mode = WeakMode.Strong))
  | _ => false
  end.

Definition weak_table_edge (vm : Vm) (owner : ObjectRef) (field : RefField) (child : ObjectRef) : res VmError bool :=
  match field with
  | FieldTableKey | FieldTableValue =>
      t ← with_table vm owner;
      kind ← object_kind vm child;
      Ok (weak_edge (weak_mode t) field (bool_decide (kind = ObjectKind.ByteString)))
  | _ => Ok false
  end.

Definition is_old (vm : Vm) (o : ObjectRef) : res VmError bool := a ← gc_age vm o; Ok (bool_decide (a = Old)).

(** [Vm::write_ref]. *)
Definition write_ref (owner : ObjectRef) (field : RefField) (child : ObjectRef) : HeapM unit :=
  vm ← get;
  o ← lift (checked_slot vm owner);
  c ← lift (checked_slot vm child);
  (if bool_decide (mode (gc vm) = Generational) && bool_decide (age o.2 = Old) && negb (bool_decide (age c.2 = Old))
   then remember_gc_owner owner else mret tt);;
  weak ← lift (weak_table_edge vm owner field child);
  if weak : bool then mret tt else
  vm ← get;
  if bool_decide (phase (gc vm) = Pause) then mret tt else
  owner_color ← ok_or LedgerInvariant (color (gc vm) o.1);
  child_color ← (if bool_decide (owner_color = Black) then ok_or LedgerInvariant (color (gc vm) c.1) else mret Black);
  if bool_decide (child_color = White) then
    mark_gc_object child;; modify_gc (fun g => with_barrier_count g (barrier_count g + 1))
  else mret tt.

(** ** The prepared barrier of tables *)

Record PreparedTableBarrier := {
  pb_owner : ObjectRef;
  pb_remembered_charge : option Z;
  pb_marks : list (ObjectRef * Z);
  pb_barrier_count : Z
}.

(** One edge of the loop of [prepare_table_write_barrier_edges]. *)
Definition prepare_edge (vm : Vm) (mode : WeakMode.WeakMode) (owner_old owner_black : bool)
    (acc : bool * list (ObjectRef * Z)) (edge : RefField * option ObjectRef) : res VmError (bool * list (ObjectRef * Z)) :=
  match edge.2 with
  | None => Ok acc
  | Some child =>
      c ← checked_slot vm child;
      let remember := acc.1 || (owner_old && negb (bool_decide (age c.2 = Old))) in
      kind ← object_kind vm child;
      if weak_edge mode edge.1 (bool_decide (kind = ObjectKind.ByteString)) || negb owner_black then Ok (remember, acc.2) else
      match color (gc vm) c.1 with
      | None => Err LedgerInvariant
      | Some White =>
          if existsb (fun m => bool_decide (m.1 = child)) acc.2 then Ok (remember, acc.2)
          else Ok (remember, acc.2 ++ [(child, c.1)])
      | Some _ => Ok (remember, acc.2)
      end
  end.

Definition prepare_table_write_barrier_edges (owner : ObjectRef) (edges : list (RefField * option ObjectRef))
    : HeapM PreparedTableBarrier :=
  vm ← get;
  o ← lift (checked_slot vm owner);
  t ← lift (with_table vm owner);
  let owner_old := bool_decide (mode (gc vm) = Generational) && bool_decide (age o.2 = Old) in
  owner_black ← (if bool_decide (phase (gc vm) = Pause) then mret false
                 else c ← ok_or LedgerInvariant (color (gc vm) o.1); mret (bool_decide (c = Black)));
  found ← lift (fold_res (prepare_edge vm (weak_mode t) owner_old owner_black) (false, []) edges);
  let marks := found.2 in
  if saturating_sub (work_capacity (gc vm)) (zlen (work (gc vm))) <? zlen marks then fail AllocationFailed else
  count ← checked_add (barrier_count (gc vm)) (zlen marks);
  (if bool_decide (phase (gc vm) = Sweep) && (0 <? zlen marks)
   then checked_add (transition_count (gc vm)) 1;; mret tt else mret tt);;
  charge ← (if found.1 && negb (contains (remembered (gc vm)) owner) then
              charge ← checked_add (remembered_charge (gc vm)) size_of_object_ref;
              on_ledger (reserve_charges 1;; reserve_vec 1 size_of_object_ref RememberedReserve);;
              mret (Some charge)
            else mret None);
  mret {| pb_owner := owner; pb_remembered_charge := charge; pb_marks := marks; pb_barrier_count := count |}.

Definition prepare_table_write_barrier (owner : ObjectRef) (key value : option ObjectRef) : HeapM PreparedTableBarrier :=
  prepare_table_write_barrier_edges owner [(FieldTableKey, key); (FieldTableValue, value)].
Definition prepare_table_ref_barrier (owner : ObjectRef) (first second : option ObjectRef) : HeapM PreparedTableBarrier :=
  prepare_table_write_barrier_edges owner [(FieldTableValue, first); (FieldTableValue, second)].

Definition apply_mark (g : GcState) (m : ObjectRef * Z) : res VmError GcState :=
  g ← set_color g m.2 Gray;
  let g := with_work g (work g ++ [m.1]) in
  Ok (if bool_decide (phase g = Sweep) then transition g Propagate else g).

(** [PreparedTableBarrier::apply]. *)
Definition barrier_apply (b : PreparedTableBarrier) (g : GcState) : res VmError GcState :=
  let g := match pb_remembered_charge b with
           | Some charge => with_remembered_charge (with_remembered g (remembered g ++ [pb_owner b])) charge
           | None => g
           end in
  g ← fold_res apply_mark g (pb_marks b);
  Ok (with_barrier_count g (pb_barrier_count b)).

Definition apply_to_table (m : PreparedTableMutation) (p : HeapPayload) : res VmError HeapPayload :=
  match p with PTable t => t ← apply_mutation m t; Ok (PTable t) | _ => Err WrongObjectType end.

Definition commit_prepared_table_write (owner : ObjectRef) (b : PreparedTableBarrier) (m : PreparedTableMutation)
    : HeapM unit :=
  vm ← get;
  lift (with_table vm owner);;
  on_ledger ((match pb_remembered_charge b with Some _ => commit_charge | None => mret tt end);; commit_accounting m);;
  update_gc (barrier_apply b);;
  update_payload owner (apply_to_table m).

(** [Vm::raw_set_with_new_key_source]. *)
Definition vm_raw_set (table : ObjectRef) (key value : Value) : HeapM (option ObjectRef) :=
  vm ← get;
  kind ← lift (object_kind vm table);
  if negb (bool_decide (kind = ObjectKind.Table)) then fail WrongObjectType else
  (match value with
   | VCFunction f => if bool_decide (hf_vm f = vm_id vm) then mret tt else fail WrongVm
   | _ => mret tt
   end);;
  (if is_nil key then fail NilTableKey else if is_nan_key key then fail NaNTableKey else mret tt);;
  canonical ← on_ledger (@canonical_key (heap_of vm) L _ key);
  canonical ← ok_or LedgerInvariant canonical;
  t ← lift (with_table vm table);
  mutation ← on_ledger (prepare_set t canonical value);
  let edges := new_edges mutation in
  barrier ← prepare_table_write_barrier table edges.1 edges.2;
  commit_prepared_table_write table barrier mutation;;
  mret edges.1.

(** ** Storing into other objects *)

(** [Vm::add_child]. *)
Definition add_child (parent child : ObjectRef) : HeapM unit :=
  write_ref parent FieldChild child;;
  vm ← get;
  p ← lift (checked_slot vm parent);
  needed ← checked_add (zlen (children (object p.2))) 1;
  on_ledger (reserve_vec needed size_of_object_ref ChildReserve;; commit_charge);;
  update_slot StaleObject p.1 (fun s =>
    with_object s {| payload := payload (object s); children := children (object s) ++ [child] |}).

Definition write_value (owner : ObjectRef) (field : RefField) (v : Value) : HeapM unit :=
  match v with VObject child => write_ref owner field child | _ => mret tt end.

(** [Vm::set_uservalue]: indices count from 1. *)
Definition set_uservalue (o : ObjectRef) (index : Z) (v : Value) : HeapM bool :=
  vm ← get;
  u ← lift (with_userdata vm o);
  if negb ((1 <=? index) && (index - 1 <? zlen (uservalues u))) then mret false else
  write_value o FieldUserValue v;;
  update_payload o (on_userdata (fun u =>
    {| bytes_charge := bytes_charge u; requested_len := requested_len u;
       uservalues := zinsert (uservalues u) (index - 1) v; uservalues_charge := uservalues_charge u;
       userdata_metatable := userdata_metatable u |}));;
  mret true.

(** [Vm::close_upvalue] and [Vm::set_closed_upvalue]. *)
Definition close_upvalue (o : ObjectRef) (v : Value) : HeapM unit :=
  write_value o FieldUpvalue v;;
  update_payload o (on_upvalue (fun u => {| upvalue_state := UpvalueClosed v; upvalue_identity := upvalue_identity u |})).

(** [Closure::set_environment_cell] behind [Vm::replace_closure_environment_cell]. *)
Definition replace_closure_environment_cell (closure cell : ObjectRef) : HeapM unit :=
  vm ← get;
  found ← lift (checked_slot vm cell);
  (match payload (object found.2) with PUpvalue _ => mret tt | _ => fail WrongObjectType end);;
  found ← lift (checked_slot vm closure);
  (match payload (object found.2) with
   | PClosure c => if bool_decide (is_Some (environment c)) || bool_decide (is_Some (environment_cell c)) then mret tt
                   else fail WrongObjectType
   | _ => fail WrongObjectType
   end);;
  write_ref closure FieldUpvalue cell;;
  update_payload closure (on_closure (fun c =>
    {| closure_module := closure_module c; closure_prototype := closure_prototype c; closure_upvalues := closure_upvalues c;
       environment := None; environment_cell := Some cell |})).

(** [Vm::with_coroutine_mut]: the new references are written first. *)
Definition with_coroutine_mut (o : ObjectRef) (new_refs : list ObjectRef) (f : Coroutine -> Coroutine) : HeapM unit :=
  vm ← get;
  found ← lift (checked_slot vm o);
  (match payload (object found.2) with PCoroutine _ => mret tt | _ => fail WrongObjectType end);;
  each (fun child => write_ref o FieldCoroutine child) new_refs;;
  update_payload o (on_coroutine f).

(** ** Metatables and finalizers *)

Definition get_metatable (vm : Vm) (o : ObjectRef) : res VmError (option ObjectRef) :=
  found ← checked_slot vm o;
  match payload (object found.2) with
  | PTable t => Ok (metatable t)
  | PUserdata u => Ok (userdata_metatable u)
  | PFile f => Ok (file_metatable f)
  | _ => Err WrongObjectType
  end.

(** A registration that [register_finalizer] makes, when it is a new one. *)
Definition new_registration (s : OccupiedSlot) : bool :=
  match finalizer s with
  | Registered | Pending => false
  | Running => negb (finalizer_remarked s)
  | Unregistered | Finalized => true
  end.

Definition preflight_finalizer_registration (o : ObjectRef) : HeapM unit :=
  vm ← get;
  found ← lift (checked_slot vm o);
  if shutdown_closing vm || negb (new_registration found.2) then mret tt else
  if finalizer_next_order vm + 1 <=? U64_MAX then mret tt else fail ArithmeticOverflow.

Definition registered_slot (order : Z) (s : OccupiedSlot) : OccupiedSlot :=
  let marked :=
    match finalizer s with
    | Registered | Pending => s
    | Running => with_finalizer_remarked s true
    | Unregistered | Finalized => with_finalizer s Registered
    end in
  if new_registration s then with_finalizer_order marked order else marked.

Definition register_finalizer (o : ObjectRef) : HeapM unit :=
  vm ← get;
  found ← lift (checked_slot vm o);
  if shutdown_closing vm then mret tt else
  let next := finalizer_next_order vm + (if new_registration found.2 then 1 else 0) in
  if U64_MAX <? next then fail ArithmeticOverflow else
  update_slot StaleObject found.1 (registered_slot (finalizer_next_order vm));;
  modify (fun vm => with_finalizer_next_order vm next).

Definition set_metatable_of (m : option ObjectRef) (p : HeapPayload) : res VmError HeapPayload :=
  match p with
  | PTable t => Ok (PTable (set_metatable t m))
  | PUserdata u =>
      Ok (PUserdata {| bytes_charge := bytes_charge u; requested_len := requested_len u; uservalues := uservalues u;
                       uservalues_charge := uservalues_charge u; userdata_metatable := m |})
  | PFile f => Ok (PFile {| file_open := file_open f; file_metatable := m; standard := standard f |})
  | _ => Err WrongObjectType
  end.

(** [Vm::set_metatable]. *)
Definition vm_set_metatable (o : ObjectRef) (m : option ObjectRef) : HeapM unit :=
  vm ← get;
  kind ← lift (object_kind vm o);
  (match kind with
   | ObjectKind.Table | ObjectKind.Userdata | ObjectKind.File => mret tt
   | _ => fail WrongObjectType
   end);;
  register ← (match m with
              | Some reference => t ← lift (with_table vm reference); mret (negb (is_nil (finalizer_value t)))
              | None => mret false
              end);
  (if register then preflight_finalizer_registration o else mret tt);;
  (match m with Some reference => write_ref o FieldMetatable reference | None => mret tt end);;
  update_payload o (set_metatable_of m);;
  (if register : bool then register_finalizer o else mret tt).

(** The entry at the end of the queue is the next to run. *)
Definition next_entry (vm : Vm) : option FinalizerEntry := zget (finalizer_queue vm) (zlen (finalizer_queue vm) - 1).

Definition pending_finalizer (vm : Vm) : res VmError (option (ObjectRef * Value)) :=
  match next_entry vm with
  | None => Ok None
  | Some e =>
      m ← get_metatable vm (fe_object e);
      callback ← (match m with Some m => t ← with_table vm m; Ok (finalizer_value t) | None => Ok VNil end);
      Ok (Some (fe_object e, callback))
  end.

(** [let Slot::Occupied { .. } = &mut self.slots[index] else { return Err }] of a reference
    that is only looked up by its slot. *)
Definition slot_of (o : ObjectRef) : HeapM (Z * OccupiedSlot) :=
  id ← ok_or StaleObject (identity o);
  vm ← get;
  slot ← lift (vget (slots vm) (slot_index (oid_slot id)));
  match slot with Occupied s => mret (slot_index (oid_slot id), s) | _ => fail StaleObject end.

Definition start_finalizer (o : ObjectRef) : HeapM unit :=
  vm ← get;
  if finalizer_running vm || negb (bool_decide (fe_object <$> next_entry vm = Some o)) then fail FinalizerGcReentry else
  found ← slot_of o;
  if negb (bool_decide (finalizer found.2 = Pending)) then fail LedgerInvariant else
  update_slot StaleObject found.1 (fun s => with_finalizer s Running);;
  modify (fun vm => with_finalizer_running vm true).

Definition pause_finalizer_start (o : ObjectRef) : HeapM unit :=
  found ← slot_of o;
  if negb (bool_decide (finalizer found.2 = Running)) then fail LedgerInvariant else
  update_slot StaleObject found.1 (fun s => with_finalizer s Pending);;
  modify (fun vm => with_finalizer_running vm false).

Definition finish_finalizer (o : ObjectRef) : HeapM unit :=
  vm ← get;
  if negb (finalizer_running vm) || negb (bool_decide (fe_object <$> next_entry vm = Some o)) then fail LedgerInvariant else
  found ← slot_of o;
  if negb (bool_decide (finalizer found.2 = Running)) then fail LedgerInvariant else
  update_slot StaleObject found.1 (fun s =>
    with_finalizer_remarked (with_finalizer s (if finalizer_remarked s then Registered else Finalized)) false);;
  modify (fun vm =>
    let queue := take (length (finalizer_queue vm) - 1) (finalizer_queue vm) in
    let vm := with_finalizer_running (with_finalizer_queue vm queue) false in
    if zlen queue =? 0 then with_finalizer_queue_charge vm 0 else vm).

(** The queue is kept in the order of registration. *)
Definition sort_queue (q : list FinalizerEntry) : list FinalizerEntry := merge_sort earlier q.

(** ** Giving objects back *)

(** [self.roots.retain(..)] and the number of removed entries before the cursor. *)
Definition remove_before (roots : list ObjectRef) (cursor : Z) (o : ObjectRef) : Z :=
  zlen (filter (fun r => r = o) (take (Z.to_nat cursor) roots)).

Definition forget_in_cycle (o : ObjectRef) (g : GcState) : GcState :=
  let cursor := root_cursor g - remove_before (gc_roots g) (root_cursor g) o in
  let g := with_work g (filter (fun w => w <> o) (work g)) in
  with_root_cursor (with_gc_roots g (filter (fun r => r <> o) (gc_roots g))) cursor.

Definition remove_unpublished_gc_reference (o : ObjectRef) : HeapM unit :=
  vm ← get;
  (match list_find (fun r => r = o) (remembered (gc vm)) with
   | Some (index, _) =>
       let next_len := zlen (remembered (gc vm)) - 1 in
       remaining ← checked_bytes next_len size_of_object_ref;
       on_ledger (checkpoint RememberedReserve;; try_reserve_exact next_len;; normalize_charges remaining);;
       modify_gc (fun g =>
         let cursor := remembered_cursor g in
         let g := with_remembered_charge (with_remembered g (delete index (remembered g))) remaining in
         if Z.of_nat index <? cursor then with_remembered_cursor g (cursor - 1) else g)
   | None => mret tt
   end);;
  modify_gc (forget_in_cycle o).

Fixpoint retreat (slots : list Slot) (stop : nat) : nat :=
  match stop with
  | O => O
  | S n => match slots !! n with Some (Free _) => retreat slots n | _ => stop end
  end.

Definition retreat_gc_scan_end : HeapM unit :=
  modify (fun vm =>
    let stop := Z.min (gc_scan_end vm) (zlen (slots vm)) in
    with_gc_scan_end vm (Z.of_nat (retreat (slots vm) (Z.to_nat stop)))).

(** What [reclaim] does outside the heap's slots: the index of short strings and the
    callback of a host function. *)
Definition release_payload (o : ObjectRef) (p : HeapPayload) (vm : Vm) : Vm :=
  match p with
  | PByteString s =>
      if zlen (as_bytes s) <=? MAX_SHORT_STRING_LEN
      then with_short_strings vm (short_remove (short_strings vm) (short_hash (as_bytes s) (vm_hash_seed vm)) o)
      else vm
  | _ => vm
  end.
Definition release_callback (p : HeapPayload) (vm : Vm) : Vm :=
  match p with
  | PBuiltin (HostCallback id) => if id <? zlen (callbacks vm) then with_callbacks vm (zinsert (callbacks vm) id None) else vm
  | _ => vm
  end.

(** [Vm::reclaim]. *)
Definition reclaim (o : ObjectRef) : HeapM unit :=
  vm ← get;
  found ← lift (checked_slot vm o);
  remove_unpublished_gc_reference o;;
  modify (release_payload o (payload (object found.2)));;
  let next := generation_next (generation found.2) in
  vm ← get;
  slots' ← lift (vset (slots vm) found.1 (match next with Some g => Free g | None => Retired end));
  put (with_slots vm slots');;
  update_gc (fun g => retire_or_free g found.1 (bool_decide (is_Some next)));;
  retreat_gc_scan_end;;
  modify (release_callback (payload (object found.2))).

Definition reclaim_unpublished_object (o : ObjectRef) : HeapM unit :=
  remove_unpublished_gc_reference o;; reclaim o.

End Barrier.
