(* ===== verification/Collector.v ===== *)
(** The collector (crates/rivetlua-runtime/src/heap.rs): how a cycle begins, each of its
    phases, the sweep, whole collections, modes and parameters, and the allocation of
    objects with the collection that it drives. *)

From Stdlib Require Import ZArith Lia.
From stdpp Require Import base list numbers.
From S2P Require Import Prelude Float Number Table GcState ShortStrings Heap Barrier.

Local Open Scope Z_scope.

(** What a step of the collector reports. *)
Record GcTrace := {
  tr_phase : GcPhase; tr_mode : GcMode; tr_cycle : GcCycleKind;
  tr_white : Z; tr_gray : Z; tr_black : Z;
  worklist_len : Z; tr_debt_bytes : Z; tr_barrier_count : Z; tr_reclaimed_bytes : Z; tr_transition_count : Z;
  tr_young : Z; tr_survivor : Z; tr_old : Z;
  remembered_len : Z; tr_major_debt_bytes : Z; tr_major_threshold_bytes : Z; tr_promotion_survivals : Z;
  tr_ephemeron_iterations : Z; tr_ephemeron_last_key : option ObjectRef; tr_ephemeron_converged : bool;
  tr_weak_cleared_pairs : Z;
  tr_finalizer_pending : Z; tr_finalizer_warnings : Z; tr_finalizer_deferred_terminals : Z
}.

Section Collector.
Context `{Suspended} {L : Type} `{HeapLedger L} `{Hasher}.

Notation Vm := (Vm L).
Notation HeapM := (ST Vm VmError).

(** ** Loops over the occupied slots

    [while let Some(index) = next_occupied(cursor, stop) { cursor = index + 1; .. }]: no body
    of such a loop occupies or frees a slot, so the indices are those of its start. *)

Fixpoint occupied_from (fuel : nat) (g : GcState) (cursor stop : Z) : list Z :=
  match fuel with
  | O => []
  | S fuel =>
      match next_occupied g cursor stop with
      | Some index => index :: occupied_from fuel g (index + 1) stop
      | None => []
      end
  end.

Definition occupied_indices (vm : Vm) (stop : Z) : list Z := occupied_from (Z.to_nat stop) (gc vm) 0 stop.

Definition for_occupied (body : Z -> HeapM unit) : HeapM unit :=
  vm ← get; each body (occupied_indices vm (gc_scan_end vm)).

(** [if let Slot::Occupied { .. } = &self.slots[index]] *)
Definition occupied_slot (vm : Vm) (index : Z) : res VmError (option OccupiedSlot) :=
  slot ← vget (slots vm) index;
  Ok (match slot with Occupied s => Some s | _ => None end).

Definition work_left (vm : Vm) : bool := negb (zlen (work (gc vm)) =? 0).

(** ** The beginning of a cycle *)

(** [bytes.split(|byte| *byte == 0).next()] *)
Fixpoint before_zero (bytes : list Z) : list Z :=
  match bytes with [] => [] | b :: bytes => if b =? 0 then [] else b :: before_zero bytes end.

Definition weak_mode_of_bytes (bytes : list Z) : WeakMode.WeakMode :=
  match contains bytes 107, contains bytes 118 with
  | false, false => WeakMode.Strong
  | true, false => WeakMode.Keys
  | false, true => WeakMode.Values
  | true, true => WeakMode.All
  end.

(** The mode that the metatable of a table asks for now. *)
Definition current_weak_mode (vm : Vm) (t : Table) : res VmError WeakMode.WeakMode :=
  mode ← (match metatable t with Some m => t ← with_table vm m; Ok (mode_value t) | None => Ok VNil end);
  match mode with
  | VObject o =>
      kind ← object_kind vm o;
      if negb (bool_decide (kind = ObjectKind.ByteString)) then Ok WeakMode.Strong else
      s ← with_byte_string vm o;
      Ok (if bool_decide (profile vm = Lua54) && (40 <? zlen (as_bytes s)) then WeakMode.Strong
          else weak_mode_of_bytes (before_zero (as_bytes s)))
  | _ => Ok WeakMode.Strong
  end.

Definition snapshot_weak_mode (index : Z) : HeapM unit :=
  vm ← get;
  s ← lift (occupied_slot vm index);
  match s with
  | Some s =>
      match payload (object s) with
      | PTable t =>
          m ← lift (current_weak_mode vm t);
          update_payload (reference s) (on_table (fun t => set_weak_mode t m))
      | _ => mret tt
      end
  | None => mret tt
  end.

Definition snapshot_weak_modes : HeapM unit := for_occupied snapshot_weak_mode.

Definition blacken_old (index : Z) : HeapM unit :=
  vm ← get;
  s ← lift (occupied_slot vm index);
  match s with
  | Some s => if bool_decide (age s = Old) then update_gc (fun g => set_color g index Black) else mret tt
  | None => mret tt
  end.

(** The state of the collector at the beginning of a cycle. *)
Definition cycle_started (kind : GcCycleKind) (live : Z) (root_list : list ObjectRef) (charge heap_bytes : Z) (g : GcState)
    : GcState :=
  let g := with_work g [] in
  let g := with_work_capacity g live in
  let g := with_gc_roots g root_list in
  let g := with_root_cursor g 0 in
  let g := with_remembered_cursor g 0 in
  let g := with_sweep_cursor g 0 in
  let g := with_ephemeron_cursor g 0 in
  let g := with_ephemeron_iterations g 0 in
  let g := with_ephemeron_last_key g None in
  let g := with_ephemeron_converged g false in
  let g := with_weak_cleared_pairs g 0 in
  let g := with_atomic_finalizer_stage g BeforeWeakValues in
  let g := with_gc_charge g charge in
  let g := with_cycle_start_lua_heap_bytes g heap_bytes in
  let g := with_cycle_start_reclaimed g (reclaimed_bytes g) in
  transition (with_cycle g kind) RootMark.

Definition begin_gc_cycle_kind (kind : GcCycleKind) : HeapM unit :=
  vm ← get;
  if negb (bool_decide (phase (gc vm) = Pause)) then fail WrongGcPhase else
  let live := occupied_slots (gc vm) in
  on_ledger (reserve_vec live size_of_object_ref WorkReserve);;
  root_count ← checked_add (total_count (roots vm)) (zlen (finalizer_queue vm));
  on_ledger (reserve_vec root_count size_of_object_ref WorkReserve);;
  let root_list := root_objects (roots vm) ++ map fe_object (finalizer_queue vm) in
  each (fun o => lift (checked_slot vm o);; mret tt) root_list;;
  snapshot_weak_modes;;
  work_bytes ← checked_bytes live size_of_object_ref;
  root_bytes ← checked_bytes root_count size_of_object_ref;
  charge ← checked_add work_bytes root_bytes;
  on_ledger (reserve_charges 2;; commit_charge;; commit_charge);;
  modify_gc clear_colors;;
  (if bool_decide (kind = Minor) then for_occupied blacken_old else mret tt);;
  modify (fun vm => with_gc vm (cycle_started kind live root_list charge (lua_heap_bytes (ledger vm)) (gc vm))).

Definition cycle_kind (g : GcState) : GcCycleKind :=
  match mode g with
  | Incremental => Full
  | Generational => if major_followup g || (major_threshold_bytes g <=? major_debt_bytes g) then Major else Minor
  end.

Definition begin_gc_cycle : HeapM unit := vm ← get; begin_gc_cycle_kind (cycle_kind (gc vm)).

(** ** The atomic phase *)

(** A pair of an ephemeron table: a live key keeps its value alive. *)
Definition ephemeron_pair (slots : list Slot) (vm : VmId) (key : option ObjectRef) (value : ObjectRef)
    : ST GcState VmError unit :=
  live_key ← (match key with
              | Some k =>
                  id ← ok_or StaleObject (identity k);
                  lift (gc_is_string slots vm k);;
                  g ← get;
                  mret (negb (bool_decide (color g (slot_index (oid_slot id)) = Some White)))
              | None => mret true
              end);
  if negb live_key then mret tt else
  id ← ok_or StaleObject (identity value);
  g ← get;
  if bool_decide (color g (slot_index (oid_slot id)) = Some White) then
    gc_mark_slot slots vm value;;
    g ← get; put (with_ephemeron_last_key g key)
  else mret tt.

Definition ephemeron_slot (index : Z) : HeapM unit :=
  vm ← get;
  s ← lift (occupied_slot vm index);
  match s with
  | Some s =>
      if bool_decide (color (gc vm) index = Some White) then mret tt else
      match payload (object s) with
      | PTable t => on_gc (visit_ephemeron_pairs (ephemeron_pair (slots vm) (vm_id vm)) t)
      | _ => mret tt
      end
  | None => mret tt
  end.

(** Old objects were black from the start of a minor cycle; they are traced here. *)
Definition retrace_old (index : Z) : HeapM unit :=
  vm ← get;
  s ← lift (occupied_slot vm index);
  match s with
  | Some s =>
      if bool_decide (age s = Old) && negb (bool_decide (color (gc vm) index = Some White))
      then trace_gc_object (reference s) else mret tt
  | None => mret tt
  end.

(** The slot that the sweep of weak tables reads for a reference that is not the table's
    own, behind [split_at_mut]. *)
Definition split_slot (vm : Vm) (index i : Z) : option Slot :=
  zget (slots vm) (if i <? index then i else index + 1 + saturating_sub i (index + 1)).

Definition checked_beside (vm : Vm) (index : Z) (o : ObjectRef) (id : ObjectId) : res VmError OccupiedSlot :=
  match split_slot vm index (slot_index (oid_slot id)) with
  | Some (Occupied s) =>
      if bool_decide (generation_value (generation s) = generation_value (oid_generation id))
         && bool_decide (reference s = o) then Ok s else Err StaleObject
  | _ => Err StaleObject
  end.

Definition identified (vm : Vm) (o : ObjectRef) : res VmError ObjectId :=
  match identity o with
  | None => Err StaleObject
  | Some id => if bool_decide (oid_vm id = vm_id vm) then Ok id else Err WrongVm
  end.

(** The two questions of [clear_dead_weak_pairs] about a reference, asked for the table
    [owner] at [index]. *)
Definition weak_is_dead (vm : Vm) (index : Z) (owner o : ObjectRef) : res VmError bool :=
  id ← identified vm o;
  if bool_decide (o = owner) then Ok (bool_decide (color (gc vm) index = Some White)) else
  s ← checked_beside vm index o id;
  match payload (object s) with
  | PByteString _ => Ok false
  | _ => Ok (bool_decide (color (gc vm) (slot_index (oid_slot id)) = Some White))
  end.

Definition weak_is_live_key (vm : Vm) (index : Z) (owner o : ObjectRef) : res VmError bool :=
  id ← identified vm o;
  i ← (if bool_decide (o = owner) then Ok index else s ← checked_beside vm index o id; Ok (slot_index (oid_slot id)));
  match color (gc vm) i with Some c => Ok (negb (bool_decide (c = White))) | None => Err LedgerInvariant end.

Definition clear_weak_slot (clear_values clear_keys : bool) (index : Z) : HeapM unit :=
  vm ← get;
  s ← lift (occupied_slot vm index);
  match s with
  | Some s =>
      match payload (object s) with
      | PTable t =>
          let '(r, t, l) :=
            Table.clear_dead_weak_pairs (weak_is_dead vm index (reference s)) (weak_is_live_key vm index (reference s))
              clear_values clear_keys t (ledger vm) in
          put (with_ledger (with_slots vm (zinsert (slots vm) index (Occupied (with_payload s (PTable t))))) l);;
          cleared ← lift r;
          modify_gc (fun g => with_weak_cleared_pairs g (weak_cleared_pairs g + cleared))
      | _ => mret tt
      end
  | None => mret tt
  end.

(** [Vm::clear_dead_weak_pairs]. *)
Definition clear_weak_pairs (clear_values clear_keys : bool) : HeapM unit :=
  for_occupied (clear_weak_slot clear_values clear_keys).

Definition mark_weak_string_keys_slot (index : Z) : HeapM unit :=
  vm ← get;
  s ← lift (occupied_slot vm index);
  match s with
  | Some s =>
      c ← ok_or LedgerInvariant (color (gc vm) index);
      if bool_decide (c = White) then mret tt else
      match payload (object s) with
      | PTable t => on_gc (visit_live_weak_string_keys (gc_mark_slot (slots vm) (vm_id vm)) t)
      | _ => mret tt
      end
  | None => mret tt
  end.

Definition mark_live_weak_string_keys : HeapM unit := for_occupied mark_weak_string_keys_slot.

Definition finalizer_candidate (vm : Vm) (index : Z) : bool :=
  match zget (slots vm) index with
  | Some (Occupied s) => bool_decide (finalizer s = Registered) && bool_decide (color (gc vm) index = Some White)
  | _ => false
  end.

Definition reserve_finalizer_candidates : HeapM unit :=
  vm ← get;
  let candidates := zlen (filter (fun i => finalizer_candidate vm i = true) (occupied_indices vm (gc_scan_end vm))) in
  if candidates =? 0 then mret tt else
  charge ← checked_bytes candidates size_of_finalizer_entry;
  next_charge ← checked_add (finalizer_queue_charge vm) charge;
  on_ledger (reserve_charges 1;; reserve_vec candidates size_of_finalizer_entry WorkReserve;; commit_charge);;
  modify (fun vm => with_finalizer_queue_charge vm next_charge).

Definition separate_slot (index : Z) : HeapM unit :=
  vm ← get;
  s ← lift (occupied_slot vm index);
  match s with
  | Some s =>
      if finalizer_candidate vm index then
        mark_gc_object (reference s);;
        update_slot LedgerInvariant index (fun s => with_finalizer s Pending);;
        modify (fun vm => with_finalizer_queue vm
          (finalizer_queue vm ++ [{| fe_object := reference s; fe_order := finalizer_order s |}]))
      else mret tt
  | None => mret tt
  end.

Definition separate_dead_finalizers : HeapM unit :=
  for_occupied separate_slot;;
  modify (fun vm => with_finalizer_queue vm (sort_queue (finalizer_queue vm))).

(** ** Generations *)

(** [future_gc_age_at]: the age after the cycle, or none for an object that it reclaims. *)
Definition future_gc_age_at (vm : Vm) (index : Z) : res VmError (option GcAge) :=
  match zget (slots vm) index with
  | Some (Occupied s) =>
      if bool_decide (cycle (gc vm) = Minor) && bool_decide (age s = Old) then Ok (Some Old) else
      match color (gc vm) index with
      | None => Err LedgerInvariant
      | Some White => Ok None
      | Some _ =>
          if bool_decide (age s = Old) || bool_decide (mode (gc vm) = Incremental) then Ok (Some (age s)) else
          Ok (Some (if promotion_survivals (gc vm) <=? Z.min 255 (survivals s + 1) then Old else Survivor))
      end
  | _ => Ok None
  end.

(** A young child, and a child that would be reclaimed. *)
Definition old_owner_child (vm : Vm) (child : ObjectRef) : ST (bool * option ObjectRef) VmError unit :=
  found ← lift (checked_slot vm child);
  future ← lift (future_gc_age_at vm found.1);
  acc ← get;
  match future with
  | Some Old => mret tt
  | Some _ => put (true, acc.2)
  | None => put (acc.1, Some child)
  end.

Definition old_owner_has_young_child (vm : Vm) (index : Z) : res VmError (bool * option ObjectRef) :=
  s ← occupied_slot vm index;
  match s with
  | Some s =>
      match trace_object (old_owner_child vm) (object s) (false, None) with
      | (Ok _, acc) => Ok acc
      | (Err e, _) => Err e
      | (Crash k, _) => Crash k
      end
  | None => Ok (false, None)
  end.

(** The first pass of [rebuild_remembered_set]: how many owners, or a white child. *)
Fixpoint count_remembered (vm : Vm) (indices : list Z) (count : Z) : res VmError (Z + ObjectRef) :=
  match indices with
  | [] => Ok (inl count)
  | index :: indices =>
      future ← future_gc_age_at vm index;
      if negb (bool_decide (future = Some Old)) then count_remembered vm indices count else
      found ← old_owner_has_young_child vm index;
      match found.2 with
      | Some child => Ok (inr child)
      | None => count_remembered vm indices (count + (if found.1 : bool then 1 else 0))
      end
  end.

(** The second pass: the owners. *)
Fixpoint collect_remembered (vm : Vm) (indices : list Z) (next : list ObjectRef) : res VmError (list ObjectRef) :=
  match indices with
  | [] => Ok next
  | index :: indices =>
      future ← future_gc_age_at vm index;
      if negb (bool_decide (future = Some Old)) then collect_remembered vm indices next else
      found ← old_owner_has_young_child vm index;
      if found.1 : bool then
        s ← occupied_slot vm index;
        match s with
        | Some s => collect_remembered vm indices (next ++ [reference s])
        | None => Err LedgerInvariant
        end
      else collect_remembered vm indices next
  end.

Definition rebuild_remembered_set : HeapM bool :=
  vm ← get;
  let indices := occupied_indices vm (gc_scan_end vm) in
  counted ← lift (count_remembered vm indices 0);
  match counted with
  | inr child => mark_gc_object child;; mret false
  | inl count =>
      if count =? 0 then modify_gc clear_remembered;; mret true else
      next_bytes ← checked_bytes count size_of_object_ref;
      let grows := remembered_charge (gc vm) <? next_bytes in
      (if grows then on_ledger (reserve_charges 1;; reserve_vec count size_of_object_ref RememberedReserve;; mret tt)
       else on_ledger (checkpoint RememberedReserve;; try_reserve_exact count;; mret tt));;
      next ← lift (collect_remembered vm indices []);
      (if grows then on_ledger commit_charge else on_ledger (normalize_charges next_bytes));;
      modify_gc (fun g => with_remembered_cursor (with_remembered_charge (with_remembered g next) next_bytes) 0);;
      mret true
  end.

Definition promote_slot (index : Z) : HeapM unit :=
  vm ← get;
  s ← lift (occupied_slot vm index);
  match s with
  | Some s =>
      if bool_decide (age s = Old) || negb (bool_decide (color (gc vm) index = Some Black)) then mret tt else
      update_slot LedgerInvariant index (fun s =>
        let survived := Z.min 255 (survivals s + 1) in
        with_age (with_survivals s survived)
          (if promotion_survivals (gc vm) <=? survived then Old else Survivor))
  | None => mret tt
  end.

Definition promote_gc_survivors : HeapM unit :=
  vm ← get;
  if bool_decide (mode (gc vm) = Generational) then for_occupied promote_slot else mret tt.

(** ** One step of the atomic phase *)

Definition back_to_propagate : HeapM unit := modify_gc (fun g => transition (with_ephemeron_cursor g 0) Propagate).

(** Values of weak tables are cleared once a cycle, then dead objects with finalizers are
    separated; both say whether there is more to propagate. *)
Definition weak_values_stage : HeapM bool :=
  vm ← get;
  if negb (bool_decide (atomic_finalizer_stage (gc vm) = BeforeWeakValues)) then mret false else
  reserve_finalizer_candidates;;
  clear_weak_pairs true false;;
  mark_live_weak_string_keys;;
  modify_gc (fun g => with_atomic_finalizer_stage g BeforeSeparation);;
  vm ← get; mret (work_left vm).

Definition separation_stage : HeapM bool :=
  vm ← get;
  if negb (bool_decide (atomic_finalizer_stage (gc vm) = BeforeSeparation)) then mret false else
  separate_dead_finalizers;;
  modify_gc (fun g => with_atomic_finalizer_stage g AfterSeparation);;
  vm ← get; mret (work_left vm).

Definition resume_propagation : HeapM unit :=
  modify_gc (fun g => with_ephemeron_converged g false);; back_to_propagate.

Definition finish_atomic : HeapM unit :=
  modify_gc (fun g => with_ephemeron_converged g true);;
  more ← weak_values_stage;
  if more : bool then resume_propagation else
  more ← separation_stage;
  if more : bool then resume_propagation else
  clear_weak_pairs false true;;
  vm ← get;
  complete ← (if bool_decide (mode (gc vm) = Generational) then rebuild_remembered_set else mret true);
  if complete : bool then modify_gc (fun g => transition g Sweep) else resume_propagation.

Definition step_gc_atomic : HeapM unit :=
  vm ← get;
  if work_left vm then back_to_propagate else
  (if ephemeron_cursor (gc vm) =? 0 then modify_gc (fun g => with_ephemeron_iterations g (ephemeron_iterations g + 1)) else mret tt);;
  match next_occupied (gc vm) (ephemeron_cursor (gc vm)) (gc_scan_end vm) with
  | Some index =>
      modify_gc (fun g => with_ephemeron_cursor g (index + 1));;
      ephemeron_slot index;;
      vm ← get; if work_left vm then back_to_propagate else mret tt
  | None =>
      modify_gc (fun g => with_ephemeron_cursor g (gc_scan_end vm));;
      (if bool_decide (mode (gc vm) = Generational) then for_occupied retrace_old else mret tt);;
      vm ← get;
      if bool_decide (mode (gc vm) = Generational) && work_left vm then back_to_propagate else finish_atomic
  end.

(** ** Thresholds and parameters *)

Definition encode_gc_percent (p : LuaProfile) (value : Z) : Z :=
  match p with
  | Lua54 => as_u8 (Z.quot ((value + 2147483648) mod 4294967296 - 2147483648) 4)
  | Lua55 => code_param value
  end.
Definition decode_gc_percent (p : LuaProfile) (code : Z) : Z :=
  match p with Lua54 => code * 4 | Lua55 => apply_param code end.
Definition gc_step_size_bytes (p : LuaProfile) (g : GcState) : Z :=
  match p with
  | Lua54 => if stepsize_exponent g <? 64 then Z.shiftl 1 (stepsize_exponent g) else USIZE_MAX
  | Lua55 => apply_param (stepsize_code g)
  end.
Definition gc_minor_mul_percent (p : LuaProfile) (g : GcState) : Z :=
  match p with Lua54 => minor_mul_code g | Lua55 => apply_param (minor_mul_code g) end.
Definition gc_minor_major_percent (p : LuaProfile) (g : GcState) : Z :=
  match p with Lua54 => minor_major_code g * 4 | Lua55 => apply_param (minor_major_code g) end.
Definition gc_param (p : LuaProfile) (parameter : GcParameter) (g : GcState) : Z :=
  decode_gc_percent p (match parameter with PauseParameter => pause_code g | StepMultiplier => stepmul_code g end).
Definition set_gc_param (p : LuaProfile) (parameter : GcParameter) (value : Z) (g : GcState) : GcState :=
  let code := encode_gc_percent p value in
  match parameter with PauseParameter => with_pause_code g code | StepMultiplier => with_stepmul_code g code end.

Definition scaled_gc_work (bytes multiplier : Z) : Z :=
  if multiplier =? 0 then USIZE_MAX
  else Z.max 1 (saturating_add (saturating_mul bytes multiplier) 99 / 100).

Definition refresh_major_threshold (p : LuaProfile) (g : GcState) : GcState :=
  if major_threshold_override g then g else
  let percent := gc_minor_major_percent p g in
  with_major_threshold_bytes g
    (if percent =? 0 then USIZE_MAX else Z.max 1 (saturating_mul (last_major_lua_heap_bytes g) percent / 100)).

Definition refresh_minor_debt_threshold (p : LuaProfile) (g : GcState) : GcState :=
  match debt_threshold_override g with
  | Some _ => g
  | None => with_debt_threshold g (Z.max 1 (saturating_mul (last_major_lua_heap_bytes g) (gc_minor_mul_percent p g) / 100))
  end.

(** The bookkeeping after a major cycle: whether it freed too little. *)
Definition after_major (p : LuaProfile) (heap_bytes : Z) (g : GcState) : GcState :=
  let reclaimed := saturating_sub (reclaimed_bytes g) (cycle_start_reclaimed g) in
  let added := saturating_sub (cycle_start_lua_heap_bytes g) (last_major_lua_heap_bytes g) in
  let required := saturating_mul added (apply_param (major_minor_code g)) / 100 in
  let g := with_major_followup g (negb (required =? 0) && (reclaimed <? required)) in
  let g := with_last_major_lua_heap_bytes g heap_bytes in
  refresh_minor_debt_threshold p (refresh_major_threshold p g).

(** ** Steps *)

(** The end of the sweep: ages, thresholds, and back to [Pause]. *)
Definition finish_sweep : HeapM unit :=
  vm ← get;
  modify_gc (fun g => with_sweep_cursor g (gc_scan_end vm));;
  modify (fun vm => with_roots vm (compact (roots vm)));;
  promote_gc_survivors;;
  modify (fun vm =>
    if bool_decide (mode (gc vm) = Generational) && bool_decide (cycle (gc vm) = Major)
    then with_gc vm (after_major (profile vm) (lua_heap_bytes (ledger vm)) (gc vm)) else vm);;
  modify_gc clear_cycle;;
  modify (fun vm => with_gc_restart_pending_debt_bytes vm 0);;
  modify (fun vm =>
    if bool_decide (mode (gc vm) = Incremental) then
      let pause := decode_gc_percent (profile vm) (pause_code (gc vm)) in
      with_gc vm (with_incremental_debt_threshold (gc vm)
        (Z.max 1 (saturating_mul (lua_heap_bytes (ledger vm)) (saturating_sub pause 100) / 100)))
    else vm).

(** One slot of the sweep. *)
Definition sweep_slot (index : Z) : HeapM unit :=
  modify_gc (fun g => with_sweep_cursor g (index + 1));;
  vm ← get;
  s ← lift (occupied_slot vm index);
  match s with
  | Some s =>
      c ← ok_or LedgerInvariant (color (gc vm) index);
      a ← (if bool_decide (c = White) && bool_decide (cycle (gc vm) = Minor)
           then lift (gc_age vm (reference s)) else mret Young);
      if bool_decide (c = White) && negb (bool_decide (a = Old)) then
        let before := lua_heap_bytes (ledger vm) in
        reclaim (reference s);;
        modify (fun vm =>
          let after := lua_heap_bytes (ledger vm) in
          let g := with_reclaimed_bytes (gc vm) (reclaimed_bytes (gc vm) + saturating_sub before after) in
          with_gc vm (with_reclaimed_objects g (reclaimed_objects g + 1)))
      else mret tt
  | None => mret tt
  end.

Definition step_root_mark : HeapM unit :=
  vm ← get;
  match zget (gc_roots (gc vm)) (root_cursor (gc vm)) with
  | Some root => mark_gc_object root;; modify_gc (fun g => with_root_cursor g (root_cursor g + 1))
  | None =>
      match (if bool_decide (cycle (gc vm) = Minor) then zget (remembered (gc vm)) (remembered_cursor (gc vm)) else None) with
      | Some owner => trace_gc_object owner;; modify_gc (fun g => with_remembered_cursor g (remembered_cursor g + 1))
      | None => modify_gc (fun g => transition g Propagate)
      end
  end.

(** The last of the work list is traced and black; an error puts it back. *)
Definition step_propagate : HeapM unit :=
  vm ← get;
  match zget (work (gc vm)) (zlen (work (gc vm)) - 1) with
  | Some o =>
      modify_gc (fun g => with_work g (take (length (work g) - 1) (work g)));;
      or_else (trace_gc_object o) (fun e => modify_gc (fun g => with_work g (work g ++ [o]));; fail e);;
      id ← ok_or StaleObject (identity o);
      update_gc (fun g => set_color g (slot_index (oid_slot id)) Black)
  | None => modify_gc (fun g => transition g Atomic)
  end.

Definition step_sweep : HeapM unit :=
  vm ← get;
  if work_left vm then modify_gc (fun g => transition g Propagate) else
  match next_occupied (gc vm) (sweep_cursor (gc vm)) (gc_scan_end vm) with
  | Some index => sweep_slot index
  | None => finish_sweep
  end.

(** One round of the loop of [incremental_step]; [began] is its local. *)
Definition gc_round (began : bool) : HeapM (bool + unit) :=
  vm ← get;
  match phase (gc vm) with
  | Pause => if began then mret (inr tt) else begin_gc_cycle;; mret (inl true)
  | RootMark => step_root_mark;; mret (inl began)
  | Propagate => step_propagate;; mret (inl began)
  | Atomic => step_gc_atomic;; mret (inl began)
  | Sweep => step_sweep;; mret (inl began)
  end.

Definition count_slots (vm : Vm) (p : OccupiedSlot -> Z -> bool) : Z :=
  zlen (filter (fun i => match zget (slots vm) i with Some (Occupied s) => p s i | _ => false end = true)
               (occupied_indices vm (gc_scan_end vm))).
Definition has_age (a : GcAge) (s : OccupiedSlot) (i : Z) : bool := bool_decide (age s = a).
Definition has_color (g : GcState) (c : GcColor) (s : OccupiedSlot) (i : Z) : bool :=
  bool_decide (default White (color g i) = c).

(** [gc_trace]. *)
Definition gc_trace (vm : Vm) : GcTrace :=
  let g := gc vm in {|
  tr_phase := phase g; tr_mode := mode g; tr_cycle := cycle g;
  tr_white := count_slots vm (has_color g White);
  tr_gray := count_slots vm (has_color g Gray);
  tr_black := count_slots vm (has_color g Black);
  worklist_len := zlen (work g); tr_debt_bytes := debt_bytes g; tr_barrier_count := barrier_count g;
  tr_reclaimed_bytes := reclaimed_bytes g; tr_transition_count := transition_count g;
  tr_young := count_slots vm (has_age Young); tr_survivor := count_slots vm (has_age Survivor);
  tr_old := count_slots vm (has_age Old);
  remembered_len := zlen (remembered g); tr_major_debt_bytes := major_debt_bytes g;
  tr_major_threshold_bytes := major_threshold_bytes g; tr_promotion_survivals := promotion_survivals g;
  tr_ephemeron_iterations := ephemeron_iterations g; tr_ephemeron_last_key := ephemeron_last_key g;
  tr_ephemeron_converged := ephemeron_converged g; tr_weak_cleared_pairs := weak_cleared_pairs g;
  tr_finalizer_pending := zlen (finalizer_queue vm); tr_finalizer_warnings := finalizer_warnings vm;
  tr_finalizer_deferred_terminals := finalizer_deferred_terminals vm |}.

End Collector.

(** The interpreter runs the finalizers of the queue. *)
Class Finalizers `{Suspended} (L : Type) := { run_pending_finalizers : ST (Vm L) VmError unit }.

Section Steps.
Context `{Suspended} {L : Type} `{HeapLedger L} `{Hasher} `{!Finalizers L}.

Notation Vm := (Vm L).
Notation HeapM := (ST Vm VmError).

(** [Vm::incremental_step]. *)
Definition incremental_step (budget : Z) : HeapM GcTrace :=
  vm ← get;
  if finalizer_running vm then fail FinalizerGcReentry else
  if budget =? 0 then fail InvalidGcStepBudget else
  loop_times gc_round budget (negb (bool_decide (phase (gc vm) = Pause)));;
  vm ← get;
  (if bool_decide (phase (gc vm) = Pause) && negb (execution_running vm) && negb (gc_control_collecting vm)
      && bool_decide (native_warning_bridge vm = None)
   then run_pending_finalizers else mret tt);;
  vm ← get;
  mret (gc_trace vm).

(** ** Whole cycles

    A bound on the rounds left in a cycle that nothing interrupts: an object turns gray at
    most once and black at most once, and between two such events a round moves a cursor
    or goes on to the next phase. *)

Definition white_slots (vm : Vm) : Z :=
  zlen (filter (fun i => color (gc vm) i = Some White) (seqZ 0 (zlen (slots vm)))).

Definition left_of (stop cursor : Z) : Z := Z.max 0 (stop - cursor).

Definition phase_rank (vm : Vm) : Z :=
  let g := gc vm in
  let stop := gc_scan_end vm in
  match phase g with
  | Pause => 0
  | RootMark => 2 * stop + 6 + left_of (zlen (gc_roots g)) (root_cursor g) + left_of (zlen (remembered g)) (remembered_cursor g)
  | Propagate => 2 * stop + 5
  | Atomic => if work_left vm then 2 * stop + 6 else stop + 3 + left_of stop (ephemeron_cursor g)
  | Sweep => if work_left vm then 2 * stop + 6 else 1 + left_of stop (sweep_cursor g)
  end.

Definition cycle_measure (vm : Vm) : Z :=
  (2 * white_slots vm + zlen (work (gc vm))) * (2 * gc_scan_end vm + 7) + phase_rank vm.

(** [while self.gc.phase != GcPhase::Pause { self.incremental_step(1024)?; }] *)
Fixpoint finish_cycle (fuel : nat) : HeapM unit :=
  vm ← get;
  if bool_decide (phase (gc vm) = Pause) then mret tt else
  match fuel with
  | O => crash_with OutOfFuel
  | S fuel => incremental_step 1024;; finish_cycle fuel
  end.

Definition run_cycle : HeapM unit := vm ← get; finish_cycle (Z.to_nat (cycle_measure vm)).

Definition whole_cycle (kind : GcCycleKind) : HeapM unit := begin_gc_cycle_kind kind;; run_cycle.

Definition major_kind (g : GcState) : GcCycleKind := if bool_decide (mode g = Generational) then Major else Full.

(** How many objects [m] reclaimed. *)
Definition counting_reclaimed (m : HeapM unit) : HeapM Z :=
  vm ← get; m;; vm' ← get; mret (reclaimed_objects (gc vm') - reclaimed_objects (gc vm)).

Definition collect_minor : HeapM Z :=
  vm ← get;
  if finalizer_running vm then fail FinalizerGcReentry else
  if negb (bool_decide (mode (gc vm) = Generational)) || negb (bool_decide (phase (gc vm) = Pause)) then fail WrongGcPhase else
  counting_reclaimed (whole_cycle Minor).

Definition collect_major : HeapM Z :=
  vm ← get;
  if finalizer_running vm then fail FinalizerGcReentry else
  if negb (bool_decide (phase (gc vm) = Pause)) then fail WrongGcPhase else
  counting_reclaimed (whole_cycle (major_kind (gc vm))).

(** [Vm::collect]: the cycle in progress first, then a whole one. *)
Definition collect : HeapM Z :=
  vm ← get;
  if finalizer_running vm then fail FinalizerGcReentry else
  counting_reclaimed (run_cycle;; vm ← get; whole_cycle (major_kind (gc vm))).

(** ** Modes and configuration *)

Definition rejuvenate_slot (index : Z) : HeapM unit :=
  vm ← get;
  s ← lift (occupied_slot vm index);
  match s with
  | Some _ => update_slot LedgerInvariant index (fun s => with_survivals (with_age s Young) 0)
  | None => mret tt
  end.

Definition set_gc_mode (m : GcMode) : HeapM unit :=
  vm ← get;
  if negb (bool_decide (phase (gc vm) = Pause)) then fail WrongGcPhase else
  if bool_decide (mode (gc vm) = m) then mret tt else
  modify_gc clear_remembered;;
  vm ← get;
  each rejuvenate_slot (occupied_indices vm (zlen (slots vm)));;
  modify_gc (fun g => with_major_debt_bytes (with_cycle (with_mode g m) Full) 0).

Definition set_gc_promotion_survivals (n : Z) : HeapM unit :=
  vm ← get;
  if n =? 0 then fail InvalidGcConfig else
  if negb (bool_decide (phase (gc vm) = Pause)) then fail WrongGcPhase else
  modify_gc (fun g => with_promotion_survivals g n).

Definition set_gc_major_threshold (bytes : Z) : HeapM unit :=
  vm ← get;
  if bytes =? 0 then fail InvalidGcConfig else
  if negb (bool_decide (phase (gc vm) = Pause)) then fail WrongGcPhase else
  modify_gc (fun g => with_major_threshold_override (with_major_threshold_bytes g bytes) true).

Definition set_gc_debt_threshold (bytes : Z) : HeapM unit :=
  modify_gc (fun g => with_debt_threshold_override (with_debt_threshold g (Z.max 1 bytes)) (Some (Z.max 1 bytes))).

Definition stop_automatic_gc : HeapM unit := modify_gc (fun g => with_automatic_running g false).

Definition restart_automatic_gc : HeapM unit :=
  modify (fun vm => with_gc_restart_pending_debt_bytes vm
    (saturating_add (gc_restart_pending_debt_bytes vm) (debt_bytes (gc vm))));;
  modify_gc (fun g => with_debt_bytes (with_automatic_running g true) 0).

Definition explicit_gc_step_bytes (bytes : Z) : HeapM bool :=
  vm ← get;
  let bytes := if bytes =? 0 then 1024 else bytes in
  trace ← incremental_step (scaled_gc_work bytes (decode_gc_percent (profile vm) (stepmul_code (gc vm))));
  mret (bool_decide (tr_phase trace = Pause) && negb (bool_decide (tr_cycle trace = Minor))).

Definition explicit_gc_step (size : Z) : HeapM bool :=
  vm ← get;
  explicit_gc_step_bytes
    (if size <=? 0 then 1024 else
     match profile vm with Lua54 => saturating_mul size 1024 | Lua55 => size end).

(** [with_gc_control_collection]: finalizers wait for the caller. *)
Definition controlled {A} (m : HeapM A) : HeapM A := fun vm =>
  let '(r, vm') := m (with_gc_control_collecting vm true) in
  (r, with_gc_control_collecting vm' (gc_control_collecting vm)).

Definition gc_mode_command (p : LuaProfile) (m : GcMode) : Z :=
  match p, m with
  | Lua54, Generational => 10 | Lua54, Incremental => 11 | Lua55, Generational => 7 | Lua55, Incremental => 8
  end.

(** [as i32] *)
Definition as_i32 (z : Z) : Z := (z + 2147483648) mod 4294967296 - 2147483648.

(** The parameter of an index, and the state with a code for it. *)
Definition parameter_of (index : Z) (g : GcState) : option (Z * (Z -> GcState)) :=
  if index =? 0 then Some (minor_mul_code g, with_minor_mul_code g)
  else if index =? 1 then Some (major_minor_code g, with_major_minor_code g)
  else if index =? 2 then Some (minor_major_code g, with_minor_major_code g)
  else if index =? 3 then Some (pause_code g, with_pause_code g)
  else if index =? 4 then Some (stepmul_code g, with_stepmul_code g)
  else if index =? 5 then Some (stepsize_code g, with_stepsize_code g)
  else None.

Definition set_percent (p : GcParameter) (value : Z) : HeapM Z :=
  vm ← get;
  modify_gc (set_gc_param (profile vm) p value);;
  mret (as_i32 (gc_param (profile vm) p (gc vm))).

Definition set_parameter (index value : Z) : HeapM Z :=
  vm ← get;
  match parameter_of index (gc vm) with
  | None => fail InvalidGcConfig
  | Some (old, write) =>
      (if 0 <=? value then
         modify_gc (fun _ => write (code_param value));;
         (if index =? 2 then modify_gc (refresh_major_threshold (profile vm)) else mret tt)
       else mret tt);;
      mret (as_i32 (apply_param old))
  end.

Definition enter_generational (minor_mul minor_major : Z) : HeapM Z :=
  vm ← get;
  let p := profile vm in
  let entering := bool_decide (mode (gc vm) = Incremental) in
  (match p with
   | Lua54 =>
       modify_gc (fun g => if minor_mul =? 0 then g else with_minor_mul_code g (as_u8 minor_mul));;
       modify_gc (fun g => if minor_major =? 0 then g
                           else refresh_major_threshold p (with_minor_major_code g (encode_gc_percent p minor_major)))
   | Lua55 => mret tt
   end);;
  controlled run_cycle;;
  set_gc_mode Generational;;
  modify_gc (fun g => with_major_followup g false);;
  (if entering then modify (fun vm => with_gc vm
      (refresh_major_threshold p (with_last_major_lua_heap_bytes (gc vm) (lua_heap_bytes (ledger vm))))) else mret tt);;
  (if entering || (bool_decide (p = Lua54) && negb (minor_mul =? 0))
   then modify_gc (refresh_minor_debt_threshold p) else mret tt);;
  mret (gc_mode_command p (mode (gc vm))).

Definition enter_incremental (pause step_mul step_size : Z) : HeapM Z :=
  vm ← get;
  let p := profile vm in
  (match p with
   | Lua54 =>
       modify_gc (fun g => if pause =? 0 then g else set_gc_param p PauseParameter pause g);;
       modify_gc (fun g => if step_mul =? 0 then g else set_gc_param p StepMultiplier step_mul g);;
       modify_gc (fun g => if step_size =? 0 then g else with_stepsize_exponent g (as_u8 step_size))
   | Lua55 => mret tt
   end);;
  controlled run_cycle;;
  set_gc_mode Incremental;;
  mret (gc_mode_command p (mode (gc vm))).

(** [Vm::gc_control]. *)
Definition gc_control (control : GcControl.GcControl) : HeapM Z :=
  vm ← get;
  if finalizer_running vm then fail FinalizerGcReentry else
  match control, profile vm with
  | GcControl.Stop, _ => stop_automatic_gc;; mret 0
  | GcControl.Restart, _ => restart_automatic_gc;; mret 0
  | GcControl.Collect, _ => controlled collect;; mret 0
  | GcControl.Count, _ => mret (as_i32 (committed_bytes (ledger vm) / 1024))
  | GcControl.CountBytes, _ => mret (as_i32 (committed_bytes (ledger vm) mod 1024))
  | GcControl.Step bytes, p =>
      let bytes := if bytes =? 0 then Z.max 1 (gc_step_size_bytes p (gc vm)) else bytes in
      done ← controlled (explicit_gc_step_bytes bytes); mret (if done : bool then 1 else 0)
  | GcControl.SetPause value, Lua54 => set_percent PauseParameter value
  | GcControl.SetStepMultiplier value, Lua54 => set_percent StepMultiplier value
  | GcControl.IsRunning, _ => mret (if automatic_running (gc vm) then 1 else 0)
  | GcControl.Generational minor_mul minor_major, _ => enter_generational minor_mul minor_major
  | GcControl.Incremental pause step_mul step_size, _ => enter_incremental pause step_mul step_size
  | GcControl.SetParameter index value, Lua55 => set_parameter index value
  | _, _ => fail InvalidGcConfig
  end.

(** ** Allocation *)

(** [HeapObject::debt_bytes]. *)
Definition payload_bytes (p : HeapPayload) : ST L VmError Z :=
  match p with
  | PByteString s => mret (managed_payload_len s)
  | PTable t => charge_bytes t
  | PUserdata u =>
      bytes ← checked_add (bytes_charge u) (uservalues_charge u);
      checked_add (indirect_charge ObjectKind.Userdata) bytes
  | PModule constants => checked_add (indirect_charge ObjectKind.Module) constants
  | PClosure _ => mret (indirect_charge ObjectKind.Closure)
  | PBuiltin _ => mret (indirect_charge ObjectKind.Builtin)
  | PCoroutine _ => mret (indirect_charge ObjectKind.Coroutine)
  | PValue _ | PCClosure _ | PUpvalue _ | PFile _ => mret 0
  end.

Definition object_debt_bytes (o : HeapObject) : ST L VmError Z :=
  bytes ← payload_bytes (payload o); checked_add size_of_heap_object bytes.

Definition automatic_threshold (g : GcState) : Z :=
  default (match mode g with Incremental => incremental_debt_threshold g | Generational => debt_threshold g end)
    (debt_threshold_override g).

(** The rounds of the collector that an allocation of [object_debt] bytes pays for. *)
Definition automatic_work (vm : Vm) (object_debt : Z) : option Z :=
  let g := gc vm in
  if automatic_running g && negb (finalizer_running vm) && negb (collect_every_allocation vm)
     && (automatic_threshold g <=? saturating_add (debt_bytes g) (gc_restart_pending_debt_bytes vm))
  then
    let scaled := scaled_gc_work (Z.max object_debt (gc_step_size_bytes (profile vm) g))
                    (decode_gc_percent (profile vm) (stepmul_code g)) in
    let scaled := if bool_decide (mode g = Generational) then Z.max scaled 4 else scaled in
    Some (if bool_decide (phase g = Atomic) || (bool_decide (mode g = Generational) && bool_decide (phase g = Sweep))
          then
            let full_scan := saturating_add (saturating_add (saturating_mul (occupied_slots g) 2) (zlen (slot_bits g))) 1 in
            Z.max scaled (saturating_add (saturating_add full_scan (zlen (work g))) 8)
          else scaled)
  else None.

(** The slot for a new object: a free one below the bound of the scans, the one at the
    bound, or a new one. *)
Definition free_slot (vm : Vm) : option Z :=
  match next_reusable_free (gc vm) 0 (gc_scan_end vm) with
  | Some index => Some index
  | None => if gc_scan_end vm <? zlen (slots vm) then Some (gc_scan_end vm) else None
  end.

Definition slot_generation (vm : Vm) (free : option Z) : res VmError (Z * Generation) :=
  match free with
  | Some index =>
      slot ← vget (slots vm) index;
      match slot with Free g => Ok (index, g) | _ => Crash Panicked end
  | None => Ok (zlen (slots vm), {| generation_value := 0 |})
  end.

(** [ObjectRef::new_runtime] with the shared counter. *)
Definition fresh_reference (id : ObjectId) : HeapM ObjectRef := fun vm =>
  let '(o, counter) := new_runtime id (next_runtime_token vm) in
  (match o with Some o => Ok o | None => Err IdentityExhausted end, with_next_runtime_token vm counter).

(** Room for one more object in the work list of a cycle in progress. *)
Definition needs_work_growth (g : GcState) : bool :=
  negb (bool_decide (phase g = Pause)) && (work_capacity g <=? occupied_slots g).

Definition reserve_work_growth : HeapM unit :=
  vm ← get;
  checked_add (gc_charge (gc vm)) size_of_object_ref;;
  on_ledger (reserve_charges 1;; reserve size_of_object_ref;; checkpoint WorkReserve);;
  needed ← checked_add (work_capacity (gc vm)) 1;
  if needed <? zlen (work (gc vm)) then fail LedgerInvariant else
  on_ledger (try_reserve_exact (needed - zlen (work (gc vm)));; mret tt).

Definition new_slot (id : ObjectId) (o : ObjectRef) (obj : HeapObject) : OccupiedSlot := {|
  generation := oid_generation id; reference := o; age := Young; survivals := 0;
  finalizer := Unregistered; finalizer_order := 0; finalizer_remarked := false; object := obj |}.

Definition place_slot (free : option Z) (s : OccupiedSlot) : HeapM unit :=
  vm ← get;
  match free with
  | Some index => slots' ← lift (vset (slots vm) index (Occupied s)); put (with_slots vm slots')
  | None => put (with_slots vm (slots vm ++ [Occupied s]))
  end.

Definition grow_work (index : Z) (g : GcState) : GcState :=
  let g := with_growth_slots g (growth_slots g ++ [index]) in
  let g := with_gc_charge g (gc_charge g + size_of_object_ref) in
  with_work_capacity g (work_capacity g + 1).

(** The part of [allocate_payload_with_charge] up to the published object: what is returned
    is the reference, its slot and generation, and whether the slot is new. *)
Definition publish_payload (p : HeapPayload) (free : option Z) : HeapM (ObjectRef * Z * Generation) :=
  vm ← get;
  let candidate_index := default (zlen (slots vm)) free in
  candidate_end ← checked_add candidate_index 1;
  if zlen (slot_bits (gc vm)) <? candidate_index / 64 then fail LedgerInvariant else
  let new_page := candidate_index / 64 =? zlen (slot_bits (gc vm)) in
  (match free with
   | None => on_ledger (reserve_vec 1 size_of_heap_slot SlotReserve;; mret tt)
   | Some _ => mret tt
   end);;
  on_ledger (reserve_vec 1 size_of_heap_object ObjectReserve;; checkpoint ObjectInitialize);;
  (if new_page then on_ledger (reserve_charges 1;; reserve_vec 1 size_of_gc_slot_bits MarkReserve;; mret tt) else mret tt);;
  let grows := needs_work_growth (gc vm) in
  (if grows then reserve_work_growth else mret tt);;
  found ← lift (slot_generation vm free);
  let id := {| oid_vm := vm_id vm; oid_slot := {| slot_index := found.1 |}; oid_generation := found.2 |} in
  o ← fresh_reference id;
  on_ledger commit_charge;;
  (if new_page then
     on_ledger commit_charge;; modify_gc (fun g => with_slot_bits g (slot_bits g ++ [no_slot_bits]))
   else mret tt);;
  place_slot free (new_slot id o {| payload := p; children := [] |});;
  update_gc (fun g => publish_occupied g candidate_index);;
  modify (fun vm => with_gc_scan_end vm (Z.max (gc_scan_end vm) candidate_end));;
  (if grows then on_ledger commit_charge;; modify_gc (grow_work found.1) else mret tt);;
  mret (o, found.1, found.2).

(** [release_gc_growth_for_slot]. *)
Definition release_gc_growth_for_slot (index : Z) : HeapM unit :=
  vm ← get;
  match list_find (fun i => i = index) (growth_slots (gc vm)) with
  | None => mret tt
  | Some (position, _) =>
      if gc_charge (gc vm) <? size_of_object_ref then fail LedgerInvariant else
      modify_gc (fun g => with_gc_charge g (gc_charge g - size_of_object_ref));;
      if work_capacity (gc vm) <? 1 then fail LedgerInvariant else
      modify_gc (fun g => with_growth_slots (with_work_capacity g (work_capacity g - 1)) (swap_remove (growth_slots g) position))
  end.

Definition not_in_slot (index : Z) (o : ObjectRef) : Prop :=
  match identity o with Some id => slot_index (oid_slot id) <> index | None => True end.
#[export] Instance not_in_slot_dec index o : Decision (not_in_slot index o).
Proof using Type. unfold not_in_slot. destruct (identity o); apply _. Defined.

(** [rollback_new_object]. *)
Definition rollback_new_object (index : Z) (free : option Z) (g : Generation) : HeapM unit :=
  vm ← get;
  (if bool_decide (phase (gc vm) = Pause) then mret tt
   else modify_gc (fun gc => with_work gc (filter (not_in_slot index) (work gc)));; release_gc_growth_for_slot index);;
  update_gc (fun gc => retire_or_free gc index true);;
  vm ← get;
  (match free with
   | Some _ => slots' ← lift (vset (slots vm) index (Free g)); put (with_slots vm slots')
   | None =>
       put (with_slots vm (take (length (slots vm) - 1) (slots vm)));;
       modify_gc (fun gc => truncate_slot_pages gc (zlen (slots vm) - 1))
   end);;
  retreat_gc_scan_end.

(** The new object is undone, and the error returned. *)
Definition undo_new {A} (index : Z) (free : option Z) (g : Generation) (e : VmError) : HeapM A :=
  rollback_new_object index free g;; fail e.
Definition forget_new {A} (o : ObjectRef) (index : Z) (free : option Z) (g : Generation) (e : VmError) : HeapM A :=
  remove_unpublished_gc_reference o;; undo_new index free g e.

(** The collection that an allocation drives, with the new object as a root. *)
Definition collect_with_root (o : ObjectRef) (index : Z) (free : option Z) (g : Generation) (work : option Z) : HeapM unit :=
  temporary ← or_else (add_root RootKind.Temporary o) (undo_new index free g);
  vm ← get;
  collection ← attempt (if collect_every_allocation vm then collect;; mret tt
                        else match work with Some work => incremental_step work;; mret tt | None => mret tt end);
  or_else (remove_root temporary;; mret tt) (forget_new o index free g);;
  match collection with inr e => forget_new o index free g e | inl _ => mret tt end.

(** [allocate_payload_with_charge]. *)
Definition allocate_payload (p : HeapPayload) : HeapM ObjectRef :=
  vm ← get;
  trace_object (fun child => lift (checked_slot vm child);; mret tt) {| payload := p; children := [] |};;
  object_debt ← on_ledger (object_debt_bytes {| payload := p; children := [] |});
  let work := automatic_work vm object_debt in
  let free := free_slot vm in
  debt_charge ← checked_add object_debt (match free with None => size_of_heap_slot | Some _ => 0 end);
  published ← publish_payload p free;
  let '(o, index, g) := published in
  (match free with
   | None => or_else (on_ledger (reserve_charges 1)) (fun _ => undo_new index free g AllocationFailed)
   | Some _ => mret tt
   end);;
  (if automatic_running (gc vm) && negb (finalizer_running vm)
      && (collect_every_allocation vm || bool_decide (is_Some work))
   then collect_with_root o index free g work else mret tt);;
  (match free with None => on_ledger commit_charge | Some _ => mret tt end);;
  modify_gc (fun gc => with_debt_bytes gc (saturating_add (debt_bytes gc) debt_charge));;
  modify_gc (fun gc => if bool_decide (mode gc = Generational)
                       then with_major_debt_bytes gc (saturating_add (major_debt_bytes gc) debt_charge) else gc);;
  mret o.

(** [Vm::allocate]: a value by itself. *)
Definition allocate (v : Value) : HeapM ObjectRef :=
  vm ← get;
  (match v with
   | VObject child => lift (checked_slot vm child);; mret tt
   | VCFunction f => if bool_decide (hf_vm f = vm_id vm) then mret tt else fail WrongVm
   | _ => mret tt
   end);;
  allocate_payload (PValue v).

Definition allocate_table_with_capacity (array_capacity hash_capacity : Z) : HeapM ObjectRef :=
  vm ← get;
  t ← on_ledger (t ← try_new array_capacity hash_capacity (vm_hash_seed vm); commit_charge;; commit_charge;; mret t);
  allocate_payload (PTable t).

(** [upvalue_identity]: an object of its own for an upvalue, made when it is first asked for. *)
Definition upvalue_identity_of (reference : ObjectRef) : HeapM ObjectRef :=
  vm ← get;
  found ← lift (checked_slot vm reference);
  match payload (object found.2) with
  | PUpvalue u =>
      match upvalue_identity u with
      | Some identity => mret identity
      | None =>
          owner_root ← add_root RootKind.Temporary reference;
          result ← attempt (
            identity ← allocate VNil;
            identity_root ← add_root RootKind.Temporary identity;
            linked ← attempt (
              write_ref reference FieldUpvalue identity;;
              update_payload reference (on_upvalue (fun u =>
                {| upvalue_state := upvalue_state u; upvalue_identity := Some identity |})));
            remove_root identity_root;;
            match linked with inl _ => mret identity | inr e => fail e end);
          remove_root owner_root;;
          match result with inl o => mret o | inr e => fail e end
      end
  | _ => fail WrongObjectType
  end.

(** The queue of the finalizers when the VM closes. *)
Definition registered_entries (slots : list Slot) : list FinalizerEntry :=
  omap (fun slot => match slot with
                    | Occupied s => if bool_decide (finalizer s = Registered)
                                    then Some {| fe_object := reference s; fe_order := finalizer_order s |} else None
                    | _ => None
                    end) slots.

Definition make_pending (slot : Slot) : Slot :=
  match slot with
  | Occupied s => Occupied (if bool_decide (finalizer s = Registered) then with_finalizer s Pending else s)
  | _ => slot
  end.

Definition is_registered (s : OccupiedSlot) (i : Z) : bool := bool_decide (finalizer s = Registered).
Definition shutdown_registered_count (vm : Vm) : Z := count_slots vm is_registered.

(** [preflight_shutdown_finalizers]; that the vector's capacity may spare the request is
    not modelled: the reservation is asked for whenever the charge is too small. *)
Definition preflight_shutdown_finalizers : HeapM unit :=
  vm ← get;
  if execution_running vm || finalizer_running vm then fail FinalizerGcReentry else
  let candidates := shutdown_registered_count vm in
  if candidates =? 0 then mret tt else
  needed ← checked_add (zlen (finalizer_queue vm)) candidates;
  let charged := finalizer_queue_charge vm / size_of_finalizer_entry in
  if needed <=? charged then mret tt else
  charge ← checked_bytes (saturating_sub needed charged) size_of_finalizer_entry;
  next_charge ← checked_add (finalizer_queue_charge vm) charge;
  on_ledger (reserve_charges 1;; reserve_vec candidates size_of_finalizer_entry WorkReserve;; commit_charge);;
  modify (fun vm => with_finalizer_queue_charge vm next_charge).

Definition queue_shutdown_finalizers : HeapM unit :=
  preflight_shutdown_finalizers;;
  modify (fun vm =>
    let queue := sort_queue (finalizer_queue vm ++ registered_entries (slots vm)) in
    with_finalizer_queue (with_slots (with_shutdown_closing vm true) (map make_pending (slots vm))) queue).

End Steps.

(** A new VM. *)
Definition new_vm `{Suspended} {L : Type} (id : VmId) (p : LuaProfile) (seed : Z) (l : L) (token : Z) : Vm L := {|
  vm_id := id; profile := p; vm_hash_seed := seed; slots := []; short_strings := empty_index; gc_scan_end := 0;
  roots := no_roots; ledger := l; gc := gc_state_new p; gc_restart_pending_debt_bytes := 0;
  collect_every_allocation := false; finalizer_queue := []; finalizer_queue_charge := 0; finalizer_next_order := 1;
  shutdown_closing := false; finalizer_warnings := 0; finalizer_deferred_terminals := 0; finalizer_running := false;
  execution_running := false; gc_control_collecting := false; native_warning_bridge := None; callbacks := [];
  next_runtime_token := token |}.
