(* ===== verification/HeapEdges.v ===== *)
(** The references of objects as lists: what the collector visits in an object
    ([strong_edges]), all that an object holds ([held_edges]), and how the operations on
    tables change both. *)

From Stdlib Require Import ZArith Lia.
From stdpp Require Import base list numbers.
From S2P Require Import Prelude Float Number Table TableSpec TableSet TableKeys TableHeap GcState ShortStrings Heap.

Local Open Scope Z_scope.

(** ** Visits

    [visits l m]: [m] keeps the invariant [I], after a success every reference of [l]
    satisfies [P], and [P] is never lost. *)

Section Visits.
Context {S : Type} (I : S -> Prop) (P : ObjectRef -> S -> Prop).

Definition visits (l : list ObjectRef) (m : ST S VmError unit) : Prop :=
  forall s, I s ->
    spec m s (fun _ s' => I s' /\ (forall c, c ∈ l -> P c s') /\ (forall c, P c s -> P c s'))
      (fun _ s' => I s' /\ forall c, P c s -> P c s').

Lemma visits_ret : visits [] (mret tt).
Proof. intros s Hs. apply spec_ret. split; [done |]. split; [by intros c ?%elem_of_nil | done]. Qed.

Lemma visits_seq l1 l2 m1 m2 : visits l1 m1 -> visits l2 m2 -> visits (l1 ++ l2) (m1;; m2).
Proof.
  intros H1 H2 s Hs. eapply spec_seq; [by apply H1 | | done].
  intros _ s1 (Hs1 & Hl1 & Hm1). eapply spec_weaken; [by apply H2 | |].
  - intros _ s2 (Hs2 & Hl2 & Hm2). split; [done |]. split; [| auto].
    intros c [Hc | Hc]%elem_of_app; auto.
  - intros e s2 [Hs2 Hm2]. auto.
Qed.

Lemma visits_sub l l' m : visits l m -> l' ⊆ l -> visits l' m.
Proof.
  intros H Hsub s Hs. eapply spec_weaken; [by apply H | | done]. intros _ s' (Hs' & Hl & Hm). auto.
Qed.

Lemma visits_each {A} (f : A -> ST S VmError unit) (edges : A -> list ObjectRef) l :
  (forall x, x ∈ l -> visits (edges x) (f x)) -> visits (concat (map edges l)) (each f l).
Proof.
  induction l as [| x l IH]; intros Hf; cbn [each map concat]; [apply visits_ret |].
  apply visits_seq; [apply Hf; left | apply IH; intros; apply Hf; by right].
Qed.

Lemma visits_lift {A} (r : res VmError A) l (f : A -> ST S VmError unit) :
  total r -> (forall a, r = Ok a -> visits l (f a)) -> visits l (lift r ≫= f).
Proof.
  intros Ht Hf s Hs. unfold spec, mbind, st_bind, lift. destruct r as [a | e | k]; [by apply Hf | done |].
  by destruct (Ht k).
Qed.

Context (visit : ObjectRef -> ST S VmError unit) (visit_one : forall o, visits [o] (visit o)).

Lemma visits_list l : visits l (each visit l).
Proof using visit_one.
  eapply visits_sub; [apply (visits_each visit (fun o => [o])); intros; apply visit_one |].
  intros c Hc. by rewrite <- flat_map_concat_map, list_elem_of_In, in_flat_map; exists c; rewrite <- list_elem_of_In; repeat split; try left.
Qed.

Lemma visits_option o : visits (option_edges o) (visit_option visit o).
Proof using visit_one. destruct o; [apply visit_one | apply visits_ret]. Qed.

Lemma visits_value v : visits (value_edges v) (visit_value visit v).
Proof using visit_one. destruct v; try apply visits_ret. apply visit_one. Qed.

End Visits.

(** ** The references of a table *)

Definition slot_held (slot : option Value) : list ObjectRef := option_value_edges slot.
Definition bucket_held (b : Bucket) : list ObjectRef :=
  match b with
  | Some (key, v) => if is_nil v then [] else option_edges (source_object key) ++ value_edges v
  | None => []
  end.
Definition table_held (t : Table) : list ObjectRef :=
  option_edges (metatable t) ++ concat (map slot_held (array t)) ++ concat (map bucket_held (hash t)).

(** The references that keep their target alive by themselves; [str] tells strings. *)
Section Strong.
Context (str : ObjectRef -> bool).

Definition slot_strong (mode : WeakMode.WeakMode) (slot : option Value) : list ObjectRef :=
  match mode with
  | WeakMode.Strong | WeakMode.Keys => slot_held slot
  | WeakMode.Values | WeakMode.All => filter (fun o => str o = true) (slot_held slot)
  end.
Definition key_strong (mode : WeakMode.WeakMode) (key : CanonicalKey) : list ObjectRef :=
  if bool_decide (mode = WeakMode.Strong) || strong_key mode key then option_edges (source_object key) else [].
Definition value_strong (mode : WeakMode.WeakMode) (key : CanonicalKey) (v : Value) : list ObjectRef :=
  match mode with
  | WeakMode.Strong => value_edges v
  | WeakMode.Keys => if live_key_without_scan key then value_edges v else []
  | WeakMode.Values | WeakMode.All => filter (fun o => str o = true) (value_edges v)
  end.
Definition bucket_strong (mode : WeakMode.WeakMode) (b : Bucket) : list ObjectRef :=
  match b with
  | Some (key, v) => if is_nil v then [] else key_strong mode key ++ value_strong mode key v
  | None => []
  end.
Definition table_strong (t : Table) : list ObjectRef :=
  option_edges (metatable t) ++ concat (map (slot_strong (weak_mode t)) (array t)) ++
  concat (map (bucket_strong (weak_mode t)) (hash t)).

Context `{Suspended}.

Definition strong_edges (o : HeapObject) : list ObjectRef :=
  match payload o with PTable t => table_strong t | p => payload_edges p end ++ children o.

End Strong.

Definition held_edges `{Suspended} (o : HeapObject) : list ObjectRef :=
  match payload o with PTable t => table_held t | p => payload_edges p end ++ children o.

Lemma elem_of_concat_map {A B} (f : A -> list B) l y : y ∈ concat (map f l) <-> exists x, x ∈ l /\ y ∈ f x.
Proof.
  rewrite <- flat_map_concat_map, list_elem_of_In, in_flat_map.
  split; intros (x & H1 & H2); exists x; by rewrite ?list_elem_of_In, <- ?list_elem_of_In in *.
Qed.

Lemma slot_strong_held str mode slot : slot_strong str mode slot ⊆ slot_held slot.
Proof. destruct mode; cbn; intros c Hc; try done; by apply list_elem_of_filter in Hc as [_ Hc]. Qed.

Lemma bucket_strong_held str mode b : bucket_strong str mode b ⊆ bucket_held b.
Proof.
  destruct b as [[key v] |]; [| done]. cbn. destruct (is_nil v); [done |]. intros c [Hc | Hc]%elem_of_app; apply elem_of_app.
  - left. unfold key_strong in Hc. by destruct (_ || _); [| apply elem_of_nil in Hc].
  - right. destruct mode; cbn in Hc; try done; try by apply list_elem_of_filter in Hc as [_ Hc].
    by destruct (live_key_without_scan key); [| apply elem_of_nil in Hc].
Qed.

Lemma table_strong_held str t : table_strong str t ⊆ table_held t.
Proof.
  unfold table_strong, table_held. intros c. rewrite !elem_of_app, !elem_of_concat_map.
  intros [Hc | [(x & Hx & Hc) | (x & Hx & Hc)]]; [by left | right; left | right; right]; exists x; split; try done.
  - by eapply slot_strong_held.
  - by eapply bucket_strong_held.
Qed.

Lemma strong_edges_held `{Suspended} str o : strong_edges str o ⊆ held_edges o.
Proof.
  unfold strong_edges, held_edges. intros c [Hc | Hc]%elem_of_app; apply elem_of_app; [left | by right].
  destruct (payload o); try done. by eapply table_strong_held.
Qed.

(** The references that a change of which strings are known does not add. *)
Lemma table_strong_mono (str str' : ObjectRef -> bool) t :
  (forall c, c ∈ table_held t -> str c = true -> str' c = true) -> table_strong str t ⊆ table_strong str' t.
Proof.
  intros Hstr c. unfold table_strong. rewrite !elem_of_app, !elem_of_concat_map.
  assert (forall slot, slot ∈ array t -> forall c, c ∈ slot_held slot -> c ∈ table_held t) as Ha.
  { intros slot Hs d Hd. apply elem_of_app. right. apply elem_of_app. left. apply elem_of_concat_map. eauto. }
  assert (forall b, b ∈ hash t -> forall c, c ∈ bucket_held b -> c ∈ table_held t) as Hb.
  { intros b Hbt d Hd. apply elem_of_app. right. apply elem_of_app. right. apply elem_of_concat_map. eauto. }
  intros [Hc | [(x & Hx & Hc) | (x & Hx & Hc)]]; [by left | right; left | right; right]; exists x; (split; [done |]).
  - unfold slot_strong in *. destruct (weak_mode t); try done; apply list_elem_of_filter in Hc as [H1 H2];
      apply list_elem_of_filter; split; try done; eapply Hstr; eauto.
  - destruct x as [[key v] |]; [| done]. cbn in *. destruct (is_nil v) eqn:Hn; [done |].
    apply elem_of_app in Hc as [Hc | Hc]; apply elem_of_app; [by left | right].
    assert (forall o, o ∈ value_edges v -> o ∈ table_held t) as Hv.
    { intros o Ho. apply (Hb _ Hx). cbn. rewrite Hn. apply elem_of_app. by right. }
    destruct (weak_mode t); cbn in *; try done; apply list_elem_of_filter in Hc as [H1 H2];
      apply list_elem_of_filter; split; try done; eapply Hstr; eauto.
Qed.

Lemma strong_edges_mono `{Suspended} (str str' : ObjectRef -> bool) o :
  (forall c, c ∈ held_edges o -> str c = true -> str' c = true) -> strong_edges str o ⊆ strong_edges str' o.
Proof.
  intros Hstr c. unfold strong_edges. rewrite !elem_of_app. intros [Hc | Hc]; [left | by right].
  unfold held_edges in Hstr. destruct (payload o); try done. eapply table_strong_mono; [| done].
  intros d Hd. apply Hstr. apply elem_of_app. by left.
Qed.

(** ** What the collector visits *)

Section Traces.
Context `{Suspended} {S : Type} (I : S -> Prop) (P : ObjectRef -> S -> Prop).
Context (visit : ObjectRef -> ST S VmError unit) (visit_one : forall o, visits I P [o] (visit o)).

Lemma trace_children_visits t : visits I P (table_held t) (trace_children visit t).
Proof using visit_one.
  unfold trace_children, table_held. apply visits_seq; [by apply visits_option |]. apply visits_seq; apply visits_each.
  - intros slot _. destruct slot; [by apply visits_value | apply visits_ret].
  - intros b _. destruct b as [[key v] |]; cbn; [| apply visits_ret]. destruct (is_nil v); [apply visits_ret |].
    apply visits_seq; [by apply visits_option | by apply visits_value].
Qed.

Lemma trace_object_visits o : visits I P (held_edges o) (trace_object visit o).
Proof using visit_one.
  unfold trace_object, held_edges. apply visits_seq; [| by apply visits_list].
  destruct (payload o); try by apply visits_list. apply trace_children_visits.
Qed.

Context (is_string : ObjectRef -> res VmError bool) (is_string_total : forall o, total (is_string o)).

(** A string, as the collector finds out. *)
Definition known_string (o : ObjectRef) : bool := match is_string o with Ok b => b | _ => false end.

Lemma visits_if_string o l : (forall c, c ∈ l -> c = o /\ known_string o = true) ->
  visits I P l (strong ← lift (is_string o); if strong : bool then visit o else mret tt).
Proof using visit_one is_string_total.
  intros Hl. apply visits_lift; [done |]. intros strong Hs. destruct strong.
  - eapply visits_sub; [apply visit_one |]. intros c Hc. destruct (Hl c Hc) as [-> _]. by left.
  - eapply visits_sub; [apply visits_ret |]. intros c Hc. destruct (Hl c Hc) as [_ Hk].
    unfold known_string in Hk. by rewrite Hs in Hk.
Qed.

Lemma elem_of_filter_string c o : c ∈ filter (fun o => known_string o = true) [o] -> c = o /\ known_string o = true.
Proof using Type. intros [Hk Hc]%list_elem_of_filter. apply list_elem_of_singleton in Hc. by subst. Qed.

Lemma slot_visits mode slot : mode <> WeakMode.Strong ->
  visits I P (slot_strong known_string mode slot)
    match slot with
    | Some (VObject o) =>
        strong ← (if bool_decide (mode = WeakMode.Keys) then mret true else lift (is_string o));
        if strong : bool then visit o else mret tt
    | _ => mret tt
    end.
Proof using visit_one is_string_total.
  intros Hm. destruct slot as [[] |]; try (destruct mode; exact (visits_ret I P)).
  destruct mode; [congruence | ..]; cbn.
  - exact (visit_one r).
  - exact (visits_if_string _ _ (fun c => elem_of_filter_string c _)).
  - exact (visits_if_string _ _ (fun c => elem_of_filter_string c _)).
Qed.

Lemma bucket_visits mode b : mode <> WeakMode.Strong ->
  visits I P (bucket_strong known_string mode b)
    match b with
    | Some (key, v) =>
        if is_nil v then mret tt else
        (match source_object key with
         | Some o => if strong_key mode key then visit o else mret tt
         | None => mret tt
         end);;
        match v with
        | VObject o =>
            strong ← lift (strong_value is_string mode key o);
            if strong : bool then visit o else mret tt
        | _ => mret tt
        end
    | None => mret tt
    end.
Proof using visit_one is_string_total.
  intros Hm. destruct b as [[key v] |]; [| apply visits_ret]. cbn. destruct (is_nil v); [apply visits_ret |].
  apply visits_seq.
  - unfold key_strong. rewrite bool_decide_eq_false_2 by done. cbn [orb].
    destruct (source_object key); [| by destruct (strong_key mode key); apply visits_ret].
    destruct (strong_key mode key); [apply visit_one | apply visits_ret].
  - destruct v; try (destruct mode; cbn; try destruct (live_key_without_scan key); exact (visits_ret I P)).
    destruct mode; [congruence | ..]; cbn.
    + destruct (live_key_without_scan key); [apply visit_one | apply visits_ret].
    + exact (visits_if_string _ _ (fun c => elem_of_filter_string c _)).
    + exact (visits_if_string _ _ (fun c => elem_of_filter_string c _)).
Qed.

Lemma trace_gc_children_visits t : visits I P (table_strong known_string t) (trace_gc_children visit is_string t).
Proof using visit_one is_string_total.
  unfold trace_gc_children. case_bool_decide as Hm.
  - eapply visits_sub; [apply trace_children_visits | apply table_strong_held].
  - unfold table_strong. apply visits_seq; [by apply visits_option |]. apply visits_seq; apply visits_each.
    + intros slot _. by apply slot_visits.
    + intros b _. by apply bucket_visits.
Qed.

Lemma trace_gc_object_visits o : visits I P (strong_edges known_string o) (trace_gc_object_children is_string visit o).
Proof using visit_one is_string_total.
  unfold trace_gc_object_children, strong_edges. pose proof (trace_object_visits o) as Ho. unfold held_edges in Ho.
  destruct (payload o) eqn:Hp; try exact Ho. apply visits_seq; [apply trace_gc_children_visits | by apply visits_list].
Qed.

End Traces.
