(* ===== verification/TableEdges.v ===== *)
(** The references of a table after an operation: a set adds those that its barrier is
    told of, a sweep of weak pairs adds none. *)

From Stdlib Require Import ZArith Lia.
From stdpp Require Import base list numbers.
From S2P Require Import Prelude Float Number Table TableSpec TableSet TableKeys TableHeap TableWeak GcState ShortStrings Heap HeapEdges.

Local Open Scope Z_scope.

(** ** Sets *)

(** A mutation that [prepare_set] makes for [t]. *)
Definition prepared_for (t : Table) (m : PreparedTableMutation) : Prop :=
  match m with
  | HashSlot i v _ => is_nil v = true \/ exists k w, zget (hash t) i = Some (Some (k, w)) /\ is_nil w = false
  | GrowArray next v => forall slot, slot ∈ next -> slot = None \/ slot ∈ array t \/ slot = Some v
  | GrowHash next _ _ _ => forall b, b ∈ next -> b = None
  | _ => True
  end.

Section Sets.
Context `{Hasher} {L : Type} `{Ledger L}.

Lemma prepare_hash_insert_prepared t key v (l l' : L) m : prepare_hash_insert t key v l = (Ok m, l') -> prepared_for t m.
Proof.
  intros Hm. unfold prepare_hash_insert in Hm. destruct (_ || _ || _); unbind Hm; injection Hm as <- _; [| done].
  by intros b [-> _]%elem_of_replicate.
Qed.

Lemma prepare_new_prepared t key v (l l' : L) m : prepare_new t key v l = (Ok m, l') -> prepared_for t m.
Proof.
  unfold prepare_new. destruct (array_index key) as [i |]; [| apply prepare_hash_insert_prepared].
  destruct (i <? _); [intros Hm; unbind Hm; by injection Hm as <- _ |].
  destruct (i =? _); [| apply prepare_hash_insert_prepared].
  intros Hm. unfold prepare_array_growth in Hm. unbind Hm. injection Hm as <- _.
  intros slot Hs. unfold zinsert in Hs. apply list_elem_of_lookup in Hs as [j Hj].
  apply list_lookup_insert_Some in Hj as [(_ & <- & _) | [_ Hj]]; [by right; right |].
  apply list_elem_of_lookup_2, elem_of_app in Hj as [Hj | [-> _]%elem_of_replicate]; [by right; left | by left].
Qed.

Lemma prepare_set_prepared t key v (l l' : L) m : prepare_set t key v l = (Ok m, l') -> prepared_for t m.
Proof.
  unfold prepare_set. destruct (occupied_slot t key) as [i |]; [by intros [= <- _] |].
  destruct (find_hash t key) as [i |] eqn:Hf.
  - destruct (find_hash_live _ _ _ Hf) as (old & w & Hi & Hw). destruct (is_nil v) eqn:Hn.
    + intros Hm. apply bind_Ok in Hm as (dead & l1 & Hd & Hm). injection Hm as <- _. by left.
    + intros [= <- _]. right. exists old, w. split; [done |]. by destruct w.
  - destruct (is_nil v); [by intros [= <- _] |].
    destruct (find_any_hash t key) as [i |]; [| apply prepare_new_prepared].
    destruct (_ <=? _); [| apply prepare_new_prepared]. intros Hm. unbind Hm. by injection Hm as <- _.
Qed.

End Sets.

(** An applied mutation: what is new refers to what the barrier was told. *)
Record stores (m : PreparedTableMutation) (t t' : Table) : Prop := {
  st_metatable : metatable t' = metatable t;
  st_mode : weak_mode t' = weak_mode t;
  st_slot : forall slot, slot ∈ array t' -> slot = None \/ slot ∈ array t \/ exists v, slot = Some v /\ object_of v = (new_edges m).2;
  st_bucket : forall k v, Some (k, v) ∈ hash t' -> is_nil v = true \/ Some (k, v) ∈ hash t \/
    object_of v = (new_edges m).2 /\ (source_object k = (new_edges m).1 \/ exists w, is_nil w = false /\ Some (k, w) ∈ hash t)
}.

Lemma apply_mutation_stores m t t' : prepared_for t m -> apply_mutation m t = Ok t' -> stores m t t'.
Proof.
  intros Hp Ht. destruct m as [| i v | i v dead | i k v | i k v | next v | next n k v]; cbn in Ht.
  - injection Ht as <-. split; auto.
  - apply res_bind_Ok in Ht as (a & Ha & Ht). injection Ht as <-. split; auto. cbn. intros slot Hs.
    destruct (elem_of_vset _ _ _ _ _ Ha Hs) as [-> | Hold]; [| auto].
    destruct (is_nil v); [by left | right; right; eauto].
  - apply res_bind_Ok in Ht as (h & Hh & Ht). injection Ht as <-. split; auto. cbn. intros k w Hb.
    destruct (is_nil v) eqn:Hn.
    + destruct (elem_of_vset _ _ _ _ _ Hh Hb) as [E | Hold]; [| auto]. destruct dead; [| done]. injection E as -> ->. by left.
    + destruct Hp as [Hp | (k' & w' & Hz & Hw)]; [congruence |]. unfold vget in Hh. rewrite Hz in Hh. cbn in Hh.
      destruct (elem_of_vset _ _ _ _ _ Hh Hb) as [E | Hold]; [| auto]. injection E as -> ->. right. right.
      split; [done |]. right. exists w'. split; [done |]. apply zget_elem. eauto.
  - apply res_bind_Ok in Ht as (h & Hh & Ht). injection Ht as <-. split; auto. cbn. intros k' w Hb.
    destruct (elem_of_vset _ _ _ _ _ Hh Hb) as [E | Hold]; [| auto]. injection E as -> ->. right. right. auto.
  - apply res_bind_Ok in Ht as (h & Hh & Ht). injection Ht as <-. split; auto. cbn. intros k' w Hb.
    destruct (elem_of_vset _ _ _ _ _ Hh Hb) as [E | Hold]; [| auto]. injection E as -> ->. right. right. auto.
  - injection Ht as <-. split; auto. cbn. intros slot Hs. destruct (Hp slot Hs) as [-> | [? | ->]]; eauto.
  - apply res_bind_Ok in Ht as (h & Hr & Ht). apply res_bind_Ok in Ht as (h' & Hh & Ht). injection Ht as <-.
    split; auto. cbn. intros k' w Hb. destruct (elem_of_vset _ _ _ _ _ Hh Hb) as [E | Hold].
    + injection E as -> ->. right. right. auto.
    + destruct (rehash_elem _ _ _ _ Hr Hold) as [Hn | Ho]; [by apply Hp in Hn | auto].
Qed.

Lemma value_edges_object v c : c ∈ value_edges v <-> object_of v = Some c.
Proof. destruct v; cbn; rewrite ?elem_of_nil, ?list_elem_of_singleton; naive_solver. Qed.

Lemma option_edges_elem o c : c ∈ option_edges o <-> o = Some c.
Proof. destruct o; cbn; rewrite ?elem_of_nil, ?list_elem_of_singleton; naive_solver. Qed.

Lemma value_strong_edges str mode key v c : c ∈ value_strong str mode key v -> object_of v = Some c.
Proof.
  intros Hc. apply value_edges_object. destruct mode; cbn in Hc; try done; try by apply list_elem_of_filter in Hc as [_ Hc].
  by destruct (live_key_without_scan key); [| apply elem_of_nil in Hc].
Qed.

Lemma key_strong_edges mode key c : c ∈ key_strong mode key -> source_object key = Some c.
Proof. intros Hc. apply option_edges_elem. unfold key_strong in Hc. by destruct (_ || _); [| apply elem_of_nil in Hc]. Qed.

(** References of the slots and buckets of a table, by any way to look at them. *)
Definition scanned_edges (slot_refs : option Value -> list ObjectRef) (bucket_refs : Bucket -> list ObjectRef) (t : Table)
    : list ObjectRef :=
  option_edges (metatable t) ++ concat (map slot_refs (array t)) ++ concat (map bucket_refs (hash t)).

Lemma scanned_edges_elem fs fb t c : c ∈ scanned_edges fs fb t <->
  metatable t = Some c \/ (exists slot, slot ∈ array t /\ c ∈ fs slot) \/ (exists b, b ∈ hash t /\ c ∈ fb b).
Proof. unfold scanned_edges. by rewrite !elem_of_app, !elem_of_concat_map, option_edges_elem. Qed.

Definition edge_of (m : PreparedTableMutation) (c : ObjectRef) : Prop :=
  (new_edges m).1 = Some c \/ (new_edges m).2 = Some c.

Lemma stores_strong str m t t' c : stores m t t' ->
  c ∈ table_strong str t' -> c ∈ table_strong str t \/ edge_of m c.
Proof.
  intros [Hmt Hmode Hslot Hbucket]. change (table_strong str t') with (scanned_edges (slot_strong str (weak_mode t')) (bucket_strong str (weak_mode t')) t').
  change (table_strong str t) with (scanned_edges (slot_strong str (weak_mode t)) (bucket_strong str (weak_mode t)) t).
  rewrite !scanned_edges_elem, Hmt, Hmode. intros [Hc | [(slot & Hs & Hc) | ([[k v] |] & Hb & Hc)]]; [by left; left | | | by apply elem_of_nil in Hc].
  - destruct (Hslot slot Hs) as [-> | [Hold | (v & -> & Hv)]].
    + by apply slot_strong_held, elem_of_nil in Hc.
    + left. right. left. eauto.
    + right. right. rewrite <- Hv. apply slot_strong_held in Hc. by apply value_edges_object.
  - cbn in Hc. destruct (is_nil v) eqn:Hn; [by apply elem_of_nil in Hc |].
    destruct (Hbucket k v Hb) as [? | [Hold | [Hv Hk]]]; [congruence | |].
    + left. right. right. exists (Some (k, v)). split; [done |]. cbn. by rewrite Hn.
    + apply elem_of_app in Hc as [Hc | Hc].
      * destruct Hk as [Hk | (w & Hw & Hin)]; [right; left; rewrite <- Hk; by apply key_strong_edges in Hc |].
        left. right. right. exists (Some (k, w)). split; [done |]. cbn. rewrite Hw. apply elem_of_app. by left.
      * right. right. rewrite <- Hv. by apply value_strong_edges in Hc.
Qed.

Lemma stores_held m t t' c : stores m t t' -> c ∈ table_held t' -> c ∈ table_held t \/ edge_of m c.
Proof.
  intros [Hmt Hmode Hslot Hbucket]. change (table_held t') with (scanned_edges slot_held bucket_held t').
  change (table_held t) with (scanned_edges slot_held bucket_held t).
  rewrite !scanned_edges_elem, Hmt. intros [Hc | [(slot & Hs & Hc) | ([[k v] |] & Hb & Hc)]]; [by left; left | | | by apply elem_of_nil in Hc].
  - destruct (Hslot slot Hs) as [-> | [Hold | (v & -> & Hv)]]; [by apply elem_of_nil in Hc | left; right; left; eauto |].
    right. right. rewrite <- Hv. by apply value_edges_object.
  - cbn in Hc. destruct (is_nil v) eqn:Hn; [by apply elem_of_nil in Hc |].
    destruct (Hbucket k v Hb) as [? | [Hold | [Hv Hk]]]; [congruence | |].
    + left. right. right. exists (Some (k, v)). split; [done |]. cbn. by rewrite Hn.
    + apply elem_of_app in Hc as [Hc | Hc].
      * destruct Hk as [Hk | (w & Hw & Hin)]; [right; left; rewrite <- Hk; by apply option_edges_elem in Hc |].
        left. right. right. exists (Some (k, w)). split; [done |]. cbn. rewrite Hw. apply elem_of_app. by left.
      * right. right. rewrite <- Hv. by apply value_edges_object in Hc.
Qed.

(** ** Sweeps of weak pairs *)

(** [t'] has nothing that [t] does not have. *)
Record lesser (t t' : Table) : Prop := {
  ls_metatable : metatable t' = metatable t;
  ls_mode : weak_mode t' = weak_mode t;
  ls_slot : forall slot, slot ∈ array t' -> slot = None \/ slot ∈ array t;
  ls_bucket : forall k v, Some (k, v) ∈ hash t' -> is_nil v = true \/ Some (k, v) ∈ hash t
}.

Lemma lesser_refl t : lesser t t.
Proof. split; auto. Qed.

Lemma lesser_trans t1 t2 t3 : lesser t1 t2 -> lesser t2 t3 -> lesser t1 t3.
Proof.
  intros [E1 F1 S1 B1] [E2 F2 S2 B2]. split; try congruence.
  - intros slot Hs. destruct (S2 slot Hs) as [-> | Hs2]; auto.
  - intros k v Hb. destruct (B2 k v Hb) as [? | Hb2]; auto.
Qed.

Lemma lesser_strong str t t' : lesser t t' -> table_strong str t' ⊆ table_strong str t.
Proof.
  intros [E F Hs Hb] c. change (table_strong str t') with (scanned_edges (slot_strong str (weak_mode t')) (bucket_strong str (weak_mode t')) t').
  change (table_strong str t) with (scanned_edges (slot_strong str (weak_mode t)) (bucket_strong str (weak_mode t)) t).
  rewrite !scanned_edges_elem, E, F. intros [Hc | [(slot & Hin & Hc) | ([[k v] |] & Hin & Hc)]]; [by left | | | by apply elem_of_nil in Hc].
  - destruct (Hs slot Hin) as [-> | Hold]; [by apply slot_strong_held, elem_of_nil in Hc | eauto].
  - destruct (Hb k v Hin) as [Hn | Hold]; [| eauto]. cbn in Hc. rewrite Hn in Hc. by apply elem_of_nil in Hc.
Qed.

Lemma lesser_held t t' : lesser t t' -> table_held t' ⊆ table_held t.
Proof.
  intros [E F Hs Hb] c. change (table_held t') with (scanned_edges slot_held bucket_held t').
  change (table_held t) with (scanned_edges slot_held bucket_held t).
  rewrite !scanned_edges_elem, E. intros [Hc | [(slot & Hin & Hc) | ([[k v] |] & Hin & Hc)]]; [by left | | | by apply elem_of_nil in Hc].
  - destruct (Hs slot Hin) as [-> | Hold]; [by apply elem_of_nil in Hc | eauto].
  - destruct (Hb k v Hin) as [Hn | Hold]; [| eauto]. cbn in Hc. rewrite Hn in Hc. by apply elem_of_nil in Hc.
Qed.

Section Sweeps.
#[local] Set Default Proof Using "Type*".
Context {L : Type} `{LedgerLaws L refused}.
Context (is_dead is_live_key : ObjectRef -> res VmError bool) (values keys : bool).
Context (is_dead_total : forall o, total (is_dead o)) (is_live_key_total : forall o, total (is_live_key o)).

Definition sweeping (t : Table) (c : @Clearing L) : Prop := lesser t (cl_table c).

Lemma elem_of_zinsert {A} (l : list A) i x y : y ∈ zinsert l i x -> y = x \/ y ∈ l.
Proof using Type.
  unfold zinsert. intros [j Hj]%list_elem_of_lookup. apply list_lookup_insert_Some in Hj as [(_ & <- & _) | [_ Hj]]; [by left |].
  right. by eapply list_elem_of_lookup_2.
Qed.

Lemma clear_slot_keeps t i : keeps (sweeping t) (@clear_slot L is_dead i).
Proof.
  intros c Hc. unfold spec, clear_slot. destruct (zget _ _) as [[[] |] |]; try done.
  destruct (is_dead _) as [[] | |] eqn:E; try done; [| by apply is_dead_total in E].
  eapply lesser_trans; [exact Hc |]. split; auto. cbn. intros slot Hs. by apply elem_of_zinsert in Hs.
Qed.

(** A bucket that loses its value. *)
Lemma lesser_set_bucket t i b : (forall k v, b = Some (k, v) -> is_nil v = true) -> lesser t (bump_mutation_version (set_bucket t i b)).
Proof.
  intros Hb. split; auto. cbn. intros k v Hin. destruct (elem_of_zinsert _ _ _ _ Hin) as [E | Hold]; [left; by eapply Hb | auto].
Qed.

Lemma make_dead_total key (l : L) : spec (make_dead key) l (fun _ _ => True) (fun _ _ => True).
Proof.
  destruct key; try done. cbn [make_dead]. destruct (shared_external _); [| done].
  eapply spec_seq; [apply copy_bytes_spec | | done]. intros s l' _.
  eapply spec_seq; [apply commit_charge_returns | | done]. done.
Qed.

Lemma clear_pair_keeps t mode i key v : keeps (sweeping t) (@clear_pair L _ is_dead is_live_key values keys mode i key v).
Proof.
  unfold clear_pair. apply keeps_bind; [intros c Hc; unfold spec, lift; destruct (dead_key _ _ _ _) as [| | k] eqn:E; try done |].
  { unfold dead_key in E. destruct (weak_keys _ _); [| done]. destruct key; try done. by apply is_dead_total in E. }
  intros dk. apply keeps_bind; [intros c Hc; unfold spec, lift; destruct (dead_value _ _ _ _) as [| | k] eqn:E; try done |].
  { unfold dead_value in E. destruct (weak_values _ _); [| done]. destruct v; try done. by apply is_dead_total in E. }
  intros dv. apply keeps_if; [| apply keeps_ret].
  apply keeps_bind; [intros c Hc; unfold spec, lift; destruct (key_is_dead _ _ _ _ _) as [| | k] eqn:E; try done |].
  { unfold key_is_dead in E. destruct (_ && _); [| done]. destruct (source_object key); [| done].
    destruct (is_live_key _) eqn:E'; try done. by apply is_live_key_total in E'. }
  intros gone. apply keeps_if.
  - intros c Hc. unfold spec, drop_bucket. eapply lesser_trans; [exact Hc |]. by apply lesser_set_bucket.
  - intros c Hc. unfold spec, bury. pose proof (make_dead_total key (cl_ledger c)) as Hm. unfold spec in Hm.
    destruct (make_dead key (cl_ledger c)) as [[dead | e | k] l']; [| done | done].
    eapply lesser_trans; [exact Hc |]. apply lesser_set_bucket. by intros k' v' [= _ <-].
Qed.

Lemma clear_bucket_keeps t i : keeps (sweeping t) (@clear_bucket L _ is_dead is_live_key values keys i).
Proof.
  intros c Hc. unfold spec, clear_bucket. destruct (zget (hash (cl_table c)) i) as [[[k v] |] |]; try done.
  destruct (values && is_nil v).
  - eapply lesser_trans; [exact Hc |]. by apply lesser_set_bucket.
  - exact (clear_pair_keeps t (weak_mode (cl_table c)) i k v c Hc).
Qed.

Lemma keeps_each {S A} (I : S -> Prop) (f : A -> ST S VmError unit) l : (forall x, x ∈ l -> keeps I (f x)) -> keeps I (each f l).
Proof using Type.
  induction l as [| x l IH]; intros Hf; cbn; [apply keeps_ret |].
  apply keeps_bind; [apply Hf; left | intros _; apply IH; intros; apply Hf; by right].
Qed.

(** The sweep of a table does not panic, and adds nothing to it, whether it succeeds or fails. *)
Lemma clear_dead_weak_pairs_lesser t (l : L) :
  let '(r, t', _) := clear_dead_weak_pairs is_dead is_live_key values keys t l in total r /\ lesser t t'.
Proof.
  unfold clear_dead_weak_pairs. case_bool_decide; [split; [done | apply lesser_refl] |].
  set (m := (if weak_values values (weak_mode t) then _ else _);; each _ _).
  assert (keeps (sweeping t) m) as Hm.
  { apply keeps_bind; [apply keeps_if; [| apply keeps_ret] | intros _]; apply keeps_each; intros i _;
      [apply clear_slot_keeps | apply clear_bucket_keeps]. }
  specialize (Hm {| cl_table := t; cl_count := 0; cl_ledger := l |} (lesser_refl t)). unfold spec in Hm.
  destruct (m _) as [[[] | e | k] c]; [| done | done]. split; [done |].
  eapply lesser_trans; [exact Hm |]. unfold release_hash. destruct (_ && _); [| apply lesser_refl].
  split; auto. cbn. by intros k v ?%elem_of_nil.
Qed.

End Sweeps.
