(* ===== verification/HeapInv.v ===== *)
(** The invariant of the heap during a collection: which references are valid, which
    objects a reference keeps alive, and what holds of slots, colours, work list and
    roots between any two steps. *)

From Stdlib Require Import ZArith Lia.
From stdpp Require Import base list numbers relations.
From S2P Require Import Prelude Float Number Table GcState GcBits ShortStrings Heap Barrier Collector HeapEdges.

Local Open Scope Z_scope.

Section References.
Context `{Suspended}.
Implicit Types (slots : list Slot) (vm : VmId) (o c : ObjectRef).

(** ** Valid references *)

Definition valid_ref slots vm o : Prop := exists i s, checked_in slots vm o = Ok (i, s).

(** The slot of a reference is the one that its identity names. *)
Definition names vm o (i : Z) (g : Generation) : Prop :=
  exists id, identity o = Some id /\ oid_vm id = vm /\ slot_index (oid_slot id) = i /\
    generation_value (oid_generation id) = generation_value g.

Lemma checked_in_spec slots vm o i s :
  checked_in slots vm o = Ok (i, s) <->
  zget slots i = Some (Occupied s) /\ reference s = o /\ names vm o i (generation s).
Proof.
  unfold checked_in, names. split.
  - destruct (identity o) as [id |]; [| done]. case_bool_decide as Hvm; cbn; [| done].
    destruct (zget slots _) as [[t | |] |] eqn:Hz; try done.
    case_bool_decide as Hg; [| done]. case_bool_decide as Hr; [| done]. cbn. intros [= <- <-].
    split; [done |]. split; [done |]. exists id. done.
  - intros (Hz & Hr & id & -> & <- & <- & Hg). rewrite bool_decide_eq_true_2 by done. cbn. rewrite Hz.
    by rewrite !bool_decide_eq_true_2.
Qed.

Lemma checked_in_total slots vm o : total (checked_in slots vm o).
Proof.
  intros k. unfold checked_in. destruct (identity o); [| done]. destruct (negb _); [done |].
  destruct (zget _ _) as [[] |]; try done. by destruct (_ && _).
Qed.

Lemma checked_in_fun slots vm o i s j t : checked_in slots vm o = Ok (i, s) -> checked_in slots vm o = Ok (j, t) -> i = j /\ s = t.
Proof. intros H1 H2. rewrite H1 in H2. by injection H2. Qed.

Definition self_checked slots vm : Prop :=
  forall i s, zget slots i = Some (Occupied s) -> checked_in slots vm (reference s) = Ok (i, s).

Lemma gc_is_string_total slots vm o : total (gc_is_string slots vm o).
Proof. unfold gc_is_string. apply total_bind; [apply checked_in_total | done]. Qed.

Definition string_in slots vm : ObjectRef -> bool := known_string (gc_is_string slots vm).

Lemma string_in_checked slots vm o i s : checked_in slots vm o = Ok (i, s) ->
  string_in slots vm o = match payload (object s) with PByteString _ => true | _ => false end.
Proof. intros Hc. unfold string_in, known_string, gc_is_string. by rewrite Hc. Qed.

Lemma string_in_valid slots vm o : string_in slots vm o = true -> valid_ref slots vm o.
Proof.
  unfold string_in, known_string, gc_is_string. destruct (checked_in slots vm o) as [[i s] | |] eqn:E; try done.
  by exists i, s.
Qed.

(** ** What a reference keeps alive *)

Definition edge slots vm o c : Prop :=
  exists i s, checked_in slots vm o = Ok (i, s) /\ c ∈ strong_edges (string_in slots vm) (object s).

(** Everything that is reached from [o] is valid. *)
Definition intact slots vm o : Prop := forall c, rtc (edge slots vm) o c -> valid_ref slots vm c.

Lemma intact_valid slots vm o : intact slots vm o -> valid_ref slots vm o.
Proof. intros Ho. apply Ho. apply rtc_refl. Qed.

Lemma intact_edge slots vm o c : intact slots vm o -> edge slots vm o c -> intact slots vm c.
Proof. intros Ho Hc d Hd. apply Ho. by eapply rtc_l. Qed.

Lemma intact_reached slots vm o c : intact slots vm o -> rtc (edge slots vm) o c -> intact slots vm c.
Proof. intros Ho Hc d Hd. apply Ho. by etrans. Qed.

(** A set of valid references that the edges do not leave is intact. *)
Lemma intact_closed slots vm (P : ObjectRef -> Prop) :
  (forall o, P o -> valid_ref slots vm o) -> (forall o c, P o -> edge slots vm o c -> P c) ->
  forall o, P o -> intact slots vm o.
Proof.
  intros Hv He o Ho c Hc. apply Hv. induction Hc as [| o d c Hod _ IH]; [done |]. apply IH. by eapply He.
Qed.

Lemma intact_intro slots vm o :
  valid_ref slots vm o -> (forall c, edge slots vm o c -> intact slots vm c) -> intact slots vm o.
Proof. intros Hv He c Hc. inversion Hc as [| ? d ? Hod Hdc]; subst; [done |]. by apply (He d). Qed.

(** ** Slots that change in place

    [reslot R slots slots']: the same slots, each occupied one by the same object, whose
    contents are related by [R]. *)
Definition reslot (R : Z -> OccupiedSlot -> OccupiedSlot -> Prop) slots slots' : Prop :=
  zlen slots' = zlen slots /\
  forall i, match zget slots i with
            | Some (Occupied s) =>
                exists s', zget slots' i = Some (Occupied s') /\
                  generation s' = generation s /\ reference s' = reference s /\ R i s s'
            | slot => zget slots' i = slot
            end.

Lemma reslot_refl R slots : (forall i s, R i s s) -> reslot R slots slots.
Proof. intros HR. split; [done |]. intros i. destruct (zget slots i) as [[s | |] |]; try done. exists s. auto. Qed.

Lemma reslot_weaken (R R' : Z -> OccupiedSlot -> OccupiedSlot -> Prop) slots slots' :
  (forall i s s', zget slots i = Some (Occupied s) -> zget slots' i = Some (Occupied s') -> R i s s' -> R' i s s') ->
  reslot R slots slots' -> reslot R' slots slots'.
Proof.
  intros HR [Hl Hs]. split; [done |]. intros i. specialize (Hs i).
  destruct (zget slots i) as [[s | |] |] eqn:Hz; try done. destruct Hs as (s' & Hz' & Hg & Hr & HRs).
  exists s'. repeat split; try done. eapply HR; eauto.
Qed.

Lemma reslot_trans R1 R2 (R : Z -> OccupiedSlot -> OccupiedSlot -> Prop) slots slots' slots'' :
  (forall i s s' s'', R1 i s s' -> R2 i s' s'' -> R i s s'') ->
  reslot R1 slots slots' -> reslot R2 slots' slots'' -> reslot R slots slots''.
Proof.
  intros HR [Hl1 H1] [Hl2 H2]. split; [congruence |]. intros i. specialize (H1 i). specialize (H2 i).
  destruct (zget slots i) as [[s | |] |] eqn:Hz.
  - destruct H1 as (s' & Hz' & Hg & Hr & HR1). rewrite Hz' in H2. destruct H2 as (s'' & Hz'' & Hg' & Hr' & HR2).
    exists s''. repeat split; try congruence. eauto.
  - by rewrite H1 in H2.
  - by rewrite H1 in H2.
  - by rewrite H1 in H2.
Qed.

Lemma reslot_insert (R : Z -> OccupiedSlot -> OccupiedSlot -> Prop) slots i s s' :
  (forall j t, R j t t) -> zget slots i = Some (Occupied s) ->
  generation s' = generation s -> reference s' = reference s -> R i s s' ->
  reslot R slots (zinsert slots i (Occupied s')).
Proof.
  intros Hrefl Hz Hg Hr HR. assert (0 <= i < zlen slots) as Hi by by apply zget_lt in Hz.
  split; [by rewrite zlen_zinsert |]. intros j. destruct (decide (i = j)) as [-> | Hne].
  - rewrite Hz, zget_zinsert_eq by done. eauto.
  - rewrite zget_zinsert_ne by lia. destruct (zget slots j) as [[t | |] |]; try done. exists t. auto.
Qed.

Section Reslot.
Context {R : Z -> OccupiedSlot -> OccupiedSlot -> Prop} {slots slots' : list Slot} {vm : VmId} (Hre : reslot R slots slots').

Lemma reslot_occupied i s : zget slots i = Some (Occupied s) ->
  exists s', zget slots' i = Some (Occupied s') /\ generation s' = generation s /\ reference s' = reference s /\ R i s s'.
Proof using Hre. intros Hz. destruct Hre as [_ Hs]. specialize (Hs i). by rewrite Hz in Hs. Qed.

Lemma reslot_occupied_inv i s' : zget slots' i = Some (Occupied s') ->
  exists s, zget slots i = Some (Occupied s) /\ generation s' = generation s /\ reference s' = reference s /\ R i s s'.
Proof using Hre.
  intros Hz'. destruct Hre as [_ Hs]. specialize (Hs i). destruct (zget slots i) as [[s | |] |] eqn:Hz.
  - destruct Hs as (s1 & Hz1 & Hg & Hr & HR). rewrite Hz' in Hz1. injection Hz1 as <-. eauto.
  - by rewrite Hz' in Hs.
  - by rewrite Hz' in Hs.
  - by rewrite Hz' in Hs.
Qed.

Lemma reslot_free i g : zget slots i = Some (Free g) -> zget slots' i = Some (Free g).
Proof using Hre. intros Hz. destruct Hre as [_ Hs]. specialize (Hs i). by rewrite Hz in Hs. Qed.

Lemma reslot_checked o i s : checked_in slots vm o = Ok (i, s) ->
  exists s', checked_in slots' vm o = Ok (i, s') /\ reference s' = reference s /\ R i s s'.
Proof using Hre.
  intros (Hz & Hr & Hn)%checked_in_spec. destruct (reslot_occupied _ _ Hz) as (s' & Hz' & Hg' & Hr' & HR).
  exists s'. split; [| done]. apply checked_in_spec. rewrite Hg', Hr'. done.
Qed.

Lemma reslot_checked_inv o i s' : checked_in slots' vm o = Ok (i, s') ->
  exists s, checked_in slots vm o = Ok (i, s) /\ R i s s'.
Proof using Hre.
  intros (Hz & Hr & Hn)%checked_in_spec. destruct (reslot_occupied_inv _ _ Hz) as (s & Hz' & Hg' & Hr' & HR).
  exists s. split; [| done]. apply checked_in_spec. rewrite <- Hg', <- Hr'. done.
Qed.

Lemma reslot_valid o : valid_ref slots vm o <-> valid_ref slots' vm o.
Proof using Hre.
  split; intros (i & s & Hc).
  - destruct (reslot_checked _ _ _ Hc) as (s' & Hc' & _). by exists i, s'.
  - destruct (reslot_checked_inv _ _ _ Hc) as (s' & Hc' & _). by exists i, s'.
Qed.

Lemma reslot_self : self_checked slots vm -> self_checked slots' vm.
Proof using Hre.
  intros Hself i s' Hz'. destruct (reslot_occupied_inv _ _ Hz') as (s & Hz & Hg & Hr & _).
  destruct (reslot_checked _ _ _ (Hself _ _ Hz)) as (s1 & Hc & _). rewrite Hr.
  apply checked_in_spec in Hc as Hz1. destruct Hz1 as (Hz1 & _). rewrite Hz' in Hz1. by injection Hz1 as <-.
Qed.

(** Strings stay strings. *)
Definition keeps_kind (s s' : OccupiedSlot) : Prop := payload_kind (payload (object s')) = payload_kind (payload (object s)).

Lemma reslot_string o : (forall i s s', R i s s' -> keeps_kind s s') -> string_in slots' vm o = string_in slots vm o.
Proof using Hre.
  intros HR. destruct (checked_in slots vm o) as [[i s] | |] eqn:Hc.
  - destruct (reslot_checked _ _ _ Hc) as (s' & Hc' & _ & HRs).
    rewrite (string_in_checked _ _ _ _ _ Hc), (string_in_checked _ _ _ _ _ Hc').
    specialize (HR _ _ _ HRs). unfold keeps_kind in HR. by destruct (payload (object s)), (payload (object s')).
  - destruct (string_in slots' vm o) eqn:Hs; [| by destruct (string_in slots vm o) eqn:Hs'; [apply string_in_valid in Hs' as (i & s & Hc'); congruence |]].
    apply string_in_valid, reslot_valid in Hs as (i & s & Hc'). congruence.
  - by apply checked_in_total in Hc.
Qed.

End Reslot.

(** An object that stays intact when objects change in place: new references are intact. *)
Lemma intact_reslot R slots slots' vm o : reslot R slots slots' ->
  (forall i s s', R i s s' -> keeps_kind s s') ->
  (forall i s s' c, zget slots i = Some (Occupied s) -> R i s s' ->
     c ∈ strong_edges (string_in slots vm) (object s') ->
     c ∈ strong_edges (string_in slots vm) (object s) \/ intact slots vm c) ->
  intact slots vm o -> intact slots' vm o.
Proof.
  intros Hre Hk He. apply intact_closed.
  - intros d Hd. apply (reslot_valid Hre). by apply intact_valid.
  - intros d c Hd (i & s' & Hc' & Hin). destruct (reslot_checked_inv Hre _ _ _ Hc') as (s & Hc & HRs).
    apply checked_in_spec in Hc as Hz. destruct Hz as (Hz & _).
    apply (strong_edges_mono _ (string_in slots vm)) in Hin; [| intros e _; by rewrite (reslot_string Hre)].
    destruct (He _ _ _ _ Hz HRs Hin) as [Hold | Hnew]; [| done]. eapply intact_edge; [done |]. by exists i, s.
Qed.

(** ** Objects that come and go *)

(** Every object of [slots'] is one of [slots]. *)
Definition subheap slots' slots vm : Prop :=
  forall o i s, checked_in slots' vm o = Ok (i, s) -> checked_in slots vm o = Ok (i, s).

Lemma subheap_valid slots' slots vm o : subheap slots' slots vm -> valid_ref slots' vm o -> valid_ref slots vm o.
Proof. intros Hsub (i & s & Hc). exists i, s. by apply Hsub. Qed.

Lemma subheap_string slots' slots vm o : subheap slots' slots vm -> string_in slots' vm o = true -> string_in slots vm o = true.
Proof.
  intros Hsub Hs. destruct (string_in_valid _ _ _ Hs) as (i & s & Hc).
  rewrite (string_in_checked _ _ _ _ _ Hc) in Hs. by rewrite (string_in_checked _ _ _ _ _ (Hsub _ _ _ Hc)).
Qed.

Lemma subheap_edge slots' slots vm o c : subheap slots' slots vm -> edge slots' vm o c -> edge slots vm o c.
Proof.
  intros Hsub (i & s & Hc & Hin). exists i, s. split; [by apply Hsub |].
  eapply strong_edges_mono; [| exact Hin]. intros d _. by apply subheap_string.
Qed.

(** Freeing: what is intact among what stays is intact afterwards. *)
Lemma intact_subheap slots' slots vm (P : ObjectRef -> Prop) : subheap slots' slots vm ->
  (forall o, P o -> valid_ref slots' vm o) -> (forall o c, P o -> edge slots vm o c -> P c) ->
  forall o, P o -> intact slots' vm o.
Proof. intros Hsub Hv He. apply intact_closed; [done |]. intros o c Ho Hc. eapply He; [done |]. by eapply subheap_edge. Qed.

(** The references that were made before the counter reached [token]. *)
Definition older (token : Z) o : Prop := forall t, runtime_token o = Some t -> t < token.

Lemma older_le token token' o : token <= token' -> older token o -> older token' o.
Proof. intros Hle Ho t Ht. specialize (Ho t Ht). lia. Qed.

Definition held_ok slots (token : Z) : Prop :=
  forall i s, zget slots i = Some (Occupied s) ->
    older token (reference s) /\ forall c, c ∈ held_edges (object s) -> older token c.

(** A new object: the only one that [slots] does not have. *)
Definition extended slots slots' vm (new : ObjectRef) : Prop :=
  subheap slots slots' vm /\
  forall o i s, checked_in slots' vm o = Ok (i, s) -> o = new \/ checked_in slots vm o = Ok (i, s).

Section Extended.
Context {slots slots' : list Slot} {vm : VmId} {new : ObjectRef} {token : Z}.
Context (Hext : extended slots slots' vm new) (Hself : self_checked slots vm) (Hheld : held_ok slots token)
  (Hnew : ~ older token new).

Lemma extended_string c : c <> new -> string_in slots' vm c = string_in slots vm c.
Proof using Hext.
  intros Hne. destruct Hext as [Hsub Hinv]. destruct (string_in slots vm c) eqn:Hs.
  - by eapply subheap_string.
  - destruct (string_in slots' vm c) eqn:Hs'; [| done]. destruct (string_in_valid _ _ _ Hs') as (i & s & Hc).
    destruct (Hinv _ _ _ Hc) as [-> | Hc']; [done |].
    rewrite (string_in_checked _ _ _ _ _ Hc) in Hs'. rewrite (string_in_checked _ _ _ _ _ Hc') in Hs. congruence.
Qed.

Lemma extended_strong i s : zget slots i = Some (Occupied s) ->
  strong_edges (string_in slots' vm) (object s) ⊆ strong_edges (string_in slots vm) (object s).
Proof using All.
  intros Hz. apply strong_edges_mono. intros c Hc. rewrite extended_string; [done |]. intros ->.
  apply Hnew. by eapply (proj2 (Hheld _ _ Hz)).
Qed.

Lemma intact_extended o : intact slots vm o -> intact slots' vm o.
Proof using All.
  apply intact_closed.
  - intros d Hd. destruct Hext as [Hsub _]. eapply subheap_valid; [exact Hsub |]. by apply intact_valid.
  - intros d c Hd (i & s & Hc & Hin). destruct (intact_valid _ _ _ Hd) as (j & t & Hd').
    destruct Hext as [Hsub _]. pose proof (Hsub _ _ _ Hd') as Hc'. destruct (checked_in_fun _ _ _ _ _ _ _ Hc Hc') as [-> ->].
    eapply intact_edge; [done |]. exists j, t. split; [done |].
    apply checked_in_spec in Hd' as Hz. destruct Hz as (Hz & _). by apply (extended_strong _ _ Hz).
Qed.

End Extended.

(** ** The invariant *)

(** A reference whose object is marked. *)
Definition marked slots vm (col : Z -> option GcColor) o : Prop :=
  exists i s, checked_in slots vm o = Ok (i, s) /\ col i <> Some White.

(** Slots, their bits and the bound of the scans. *)
Record heap_ok vm slots (stop pages : Z) (col : Z -> option GcColor) (free : Z -> bool) : Prop := {
  ho_self : self_checked slots vm;
  ho_color : forall i, 0 <= i -> is_Some (col i) <-> exists s, zget slots i = Some (Occupied s);
  ho_free : forall i, 0 <= i -> free i = true -> exists g, zget slots i = Some (Free g);
  ho_stop : 0 <= stop <= zlen slots;
  ho_tail : forall i, stop <= i < zlen slots -> exists g, zget slots i = Some (Free g);
  ho_pages : pages = pages_for (zlen slots)
}.

(** Pages are words, and the scans do not start before the first slot. *)
Definition scans_ok (g : GcState) : Prop := pages_ok g /\ 0 <= ephemeron_cursor g /\ 0 <= sweep_cursor g.

Definition heap_at vm slots stop (g : GcState) : Prop :=
  heap_ok vm slots stop (zlen (slot_bits g)) (color g) (slot_bit reusable_free g) /\ scans_ok g.

(** The work list holds the gray objects, each once. *)
Record work_ok vm slots (col : Z -> option GcColor) (work : list ObjectRef) (phase : GcPhase) : Prop := {
  wo_nodup : NoDup work;
  wo_gray : forall o, o ∈ work -> exists i s, checked_in slots vm o = Ok (i, s) /\ col i = Some Gray;
  wo_work : forall i s, zget slots i = Some (Occupied s) -> col i = Some Gray -> reference s ∈ work;
  wo_idle : phase = Pause \/ phase = Sweep -> work = []
}.

(** Black objects whose references are all marked: old ones are black from the start of a
    minor cycle, and traced only before its sweep. *)
Definition settled (cycle : GcCycleKind) (phase : GcPhase) (s : OccupiedSlot) : Prop :=
  phase = Sweep \/ ~ (cycle = Minor /\ age s = Old).

Definition marking (phase : GcPhase) : Prop := phase <> Pause /\ phase <> RootMark.

(** The three colours: no settled black object refers to a white one, and the roots are
    marked, or still to be marked. *)
Record cycle_ok vm slots (col : Z -> option GcColor) (roots : list ObjectRef)
    (phase : GcPhase) (mode : GcMode) (cycle : GcCycleKind) (stage : AtomicFinalizerStage)
    (gc_roots : list ObjectRef) (cursor : Z) : Prop := {
  co_minor : phase <> Pause -> cycle = Minor -> mode = Generational;
  co_black : phase <> Pause -> forall i s, zget slots i = Some (Occupied s) -> col i = Some Black ->
    settled cycle phase s -> forall c, c ∈ strong_edges (string_in slots vm) (object s) -> marked slots vm col c;
  co_cursor : 0 <= cursor;
  co_pending : phase = RootMark -> forall r, r ∈ roots -> marked slots vm col r \/ r ∈ drop (Z.to_nat cursor) gc_roots;
  co_roots : marking phase -> forall r, r ∈ roots -> marked slots vm col r;
  co_stage : phase = Sweep -> stage = AfterSeparation;
  co_early : phase = RootMark -> stage <> AfterSeparation;
  co_registered : marking phase -> stage = AfterSeparation ->
    forall i s, zget slots i = Some (Occupied s) -> finalizer s = Registered -> col i <> Some White
}.

(** What the program can still reach: the roots, and the objects with a finalizer to run. *)
Definition kept slots (roots : list ObjectRef) o : Prop :=
  o ∈ roots \/ exists i s, zget slots i = Some (Occupied s) /\ finalizer s = Registered /\ reference s = o.

Definition anchored vm slots (roots : list ObjectRef) : Prop := forall o, kept slots roots o -> intact slots vm o.

End References.

Definition roots_ok (r : RootSet) : Prop := forall e, e ∈ entries r -> root_sequence (root_id e) < next_sequence r.

Section Invariant.
Context `{Suspended} {L : Type} `{HeapLedger L} `{Hasher}.

Notation Vm := (Vm L).

(** The roots of a collection: the active entries of the root table, and the queue of
    finalizers. *)
Definition root_list (vm : Vm) : list ObjectRef := root_objects (roots vm) ++ map fe_object (finalizer_queue vm).

Definition heap_inv (vm : Vm) : Prop := heap_at (vm_id vm) (slots vm) (gc_scan_end vm) (gc vm).
Definition work_inv (vm : Vm) : Prop := work_ok (vm_id vm) (slots vm) (color (gc vm)) (work (gc vm)) (phase (gc vm)).
Definition cycle_inv (vm : Vm) : Prop :=
  cycle_ok (vm_id vm) (slots vm) (color (gc vm)) (root_list vm) (phase (gc vm)) (mode (gc vm)) (cycle (gc vm))
    (atomic_finalizer_stage (gc vm)) (GcState.gc_roots (gc vm)) (root_cursor (gc vm)).

(** The counters are ahead of the references and of the identities of the roots. *)
Definition held_inv (vm : Vm) : Prop := held_ok (slots vm) (next_runtime_token vm) /\ roots_ok (roots vm).

Definition gc_inv (vm : Vm) : Prop :=
  heap_inv vm /\ work_inv vm /\ cycle_inv vm /\ anchored (vm_id vm) (slots vm) (root_list vm) /\ held_inv vm.

Lemma gc_inv_new id p seed (l : L) token : gc_inv (new_vm id p seed l token).
Proof.
  assert (forall i s, zget (A := Slot) [] i = Some (Occupied s) -> False) as Hnil.
  { intros i s Hz%zget_lt. change (0 <= i < 0) in Hz. lia. }
  split; [| split; [| split; [| split]]].
  - split; [| by split; [apply Forall_nil |]]. split; cbn.
    + intros i s Hz. by apply Hnil in Hz.
    + intros i Hi. split; [by intros [c Hc]; unfold color in Hc; cbn in Hc; unfold zget in Hc; destruct (_ && _) in Hc; rewrite ?lookup_nil in Hc |].
      by intros [s Hs%Hnil].
    + intros i _. unfold slot_bit. cbn. unfold zget. destruct (_ && _); by rewrite ?lookup_nil.
    + done.
    + unfold zlen; cbn. lia.
    + done.
  - split; cbn; try done; [apply NoDup_nil_2 | by intros o ?%elem_of_nil | by intros i s ?%Hnil].
  - split; cbn; try done; by intros [? _].
  - intros o [Ho | (i & s & Hz & _)]; [by apply elem_of_nil in Ho | by apply Hnil in Hz].
  - split; [intros i s Hz; by apply Hnil in Hz |]. by intros e ?%elem_of_nil.
Qed.

End Invariant.
