(* ===== verification/HeapMark.v ===== *)
(** Marking: what any run of marks does to the collector's state, and that it keeps the
    invariant of the heap. *)

From Stdlib Require Import ZArith Lia.
From stdpp Require Import base list numbers relations.
From S2P Require Import Prelude Float Number Table GcState GcBits ShortStrings Heap Barrier Collector HeapEdges HeapInv.

Local Open Scope Z_scope.

Section Marks.
Context `{Suspended} (slots : list Slot) (vm : VmId).
Implicit Types (g : GcState) (o : ObjectRef).

(** ** Runs of marks *)

(** Some white objects became gray and joined the work list; a mark during the sweep
    goes back to propagation. *)
Record marks g g' : Prop := {
  mk_color : forall i, 0 <= i -> color g' i = color g i \/ (color g i = Some White /\ color g' i = Some Gray);
  mk_work : exists new, work g' = work g ++ new /\ NoDup new /\
    (forall o, o ∈ new <-> exists i s, checked_in slots vm o = Ok (i, s) /\ color g i = Some White /\ color g' i = Some Gray) /\
    (new = [] -> phase g' = phase g) /\
    (new <> [] -> phase g <> Pause /\ phase g' = if bool_decide (phase g = Sweep) then Propagate else phase g);
  mk_frame : g' = with_ephemeron_last_key (with_transition_count (with_phase (with_work (with_slot_bits g (slot_bits g'))
    (work g')) (phase g')) (transition_count g')) (ephemeron_last_key g');
  mk_pages : pages_ok g -> pages_ok g';
  mk_length : zlen (slot_bits g') = zlen (slot_bits g);
  mk_free : forall i, 0 <= i -> slot_bit reusable_free g' i = slot_bit reusable_free g i
}.

Lemma checked_in_nonneg o i s : checked_in slots vm o = Ok (i, s) -> 0 <= i.
Proof. intros (Hz & _)%checked_in_spec. apply zget_lt in Hz. lia. Qed.

Lemma marks_refl g : marks g g.
Proof.
  split; try done; [by left | | by destruct g]. exists []. rewrite app_nil_r.
  split; [done |]. split; [apply NoDup_nil_2 |]. split; [| done].
  intros o. rewrite elem_of_nil. split; [done |]. intros (i & s & _ & Hw & Hg). congruence.
Qed.

Lemma marks_same_color g g' i : marks g g' -> 0 <= i -> color g i <> Some White -> color g' i = color g i.
Proof. intros Hm Hi Hc. destruct (mk_color _ _ Hm i Hi) as [? | [? _]]; [done | congruence]. Qed.

Lemma marks_nonwhite g g' i : marks g g' -> 0 <= i -> color g i <> Some White -> color g' i <> Some White.
Proof. intros Hm Hi Hc. by rewrite (marks_same_color _ _ _ Hm Hi Hc). Qed.

Lemma marks_trans g1 g2 g3 : marks g1 g2 -> marks g2 g3 -> marks g1 g3.
Proof.
  intros H12 H23.
  destruct (mk_work _ _ H12) as (new1 & Hw1 & Hnd1 & Hin1 & Hp1 & Hq1).
  destruct (mk_work _ _ H23) as (new2 & Hw2 & Hnd2 & Hin2 & Hp2 & Hq2). split.
  - intros i Hi. destruct (mk_color _ _ H12 i Hi) as [E1 | [E1 E1']], (mk_color _ _ H23 i Hi) as [E2 | [E2 E2']];
      rewrite ?E1 in *; rewrite ?E2 in *; auto.
  - exists (new1 ++ new2). split; [by rewrite Hw2, Hw1, app_assoc |]. split; [| split; [| split]].
    + apply NoDup_app. split; [done |]. split; [| done]. intros o Ho1 Ho2.
      apply Hin1 in Ho1 as (i & s & Hc & _ & Hg). apply Hin2 in Ho2 as (j & t & Hc' & Hw & _).
      destruct (checked_in_fun _ _ _ _ _ _ _ Hc Hc') as [-> _]. congruence.
    + intros o. rewrite elem_of_app, Hin1, Hin2. split.
      * intros [(i & s & Hc & Hw & Hg) | (i & s & Hc & Hw & Hg)]; exists i, s; (split; [done |]);
          pose proof (checked_in_nonneg _ _ _ Hc).
        -- split; [done |]. by rewrite (marks_same_color _ _ _ H23) by congruence.
        -- split; [| done]. destruct (mk_color _ _ H12 i ltac:(done)) as [E | [E _]]; congruence.
      * intros (i & s & Hc & Hw & Hg). pose proof (checked_in_nonneg _ _ _ Hc).
        destruct (mk_color _ _ H12 i ltac:(done)) as [E | [E E']]; [right | left]; exists i, s; repeat split; congruence.
    + intros [-> ->]%app_eq_nil. by rewrite Hp2, Hp1.
    + intros Hne. destruct (decide (new1 = [])) as [-> | Hne1].
      * rewrite <- (Hp1 eq_refl). apply Hq2. intros ->. by apply Hne.
      * destruct (Hq1 Hne1) as [HP E]. split; [done |]. destruct (decide (new2 = [])) as [-> | Hne2]; [by rewrite Hp2 |].
        destruct (Hq2 Hne2) as [_ E2]. rewrite E2, E. destruct (phase g1); done.
  - rewrite (mk_frame _ _ H23), (mk_frame _ _ H12). done.
  - intros Hp. by apply (mk_pages _ _ H23), (mk_pages _ _ H12).
  - by rewrite (mk_length _ _ H23), (mk_length _ _ H12).
  - intros i Hi. by rewrite (mk_free _ _ H23), (mk_free _ _ H12).
Qed.

(** What marks leave alone. *)
Lemma marks_fields g g' : marks g g' ->
  mode g' = mode g /\ cycle g' = cycle g /\ atomic_finalizer_stage g' = atomic_finalizer_stage g /\
  GcState.gc_roots g' = GcState.gc_roots g /\ root_cursor g' = root_cursor g.
Proof. intros Hm. rewrite (mk_frame _ _ Hm). done. Qed.

Lemma marks_phase g g' : marks g g' -> phase g' = phase g \/ phase g = Sweep /\ phase g' = Propagate /\ work g' <> [].
Proof.
  intros Hm. destruct (mk_work _ _ Hm) as (new & Hw & _ & _ & Hp & Hq).
  destruct (decide (new = [])) as [-> | Hne]; [left; auto |]. destruct (Hq Hne) as [_ E].
  destruct (decide (phase g = Sweep)) as [Es | Es]; [| left; by rewrite bool_decide_eq_false_2 in E].
  right. rewrite bool_decide_eq_true_2 in E by done. repeat split; try done. rewrite Hw. by destruct (work g).
Qed.

Lemma marks_pause g g' : marks g g' -> phase g' = Pause <-> phase g = Pause.
Proof. intros Hm. destruct (marks_phase _ _ Hm) as [-> | (E & E' & _)]; [done |]. rewrite E, E'. done. Qed.

Lemma marks_marking g g' : marks g g' -> marking (phase g') <-> marking (phase g).
Proof. intros Hm. unfold marking. destruct (marks_phase _ _ Hm) as [-> | (E & E' & _)]; [done |]. by rewrite E, E'. Qed.

(** Without a new gray object nothing was marked. *)
Lemma marks_idle g g' : self_checked slots vm -> marks g g' -> work g' = work g ->
  (forall i s, zget slots i = Some (Occupied s) -> color g' i = color g i) /\ phase g' = phase g.
Proof.
  intros Hself Hm E. destruct (mk_work _ _ Hm) as (new & Hw & _ & Hin & Hp & _).
  assert (new = []) as -> by (apply (app_inv_head (work g)); rewrite app_nil_r; congruence).
  split; [| by apply Hp]. intros i s Hz. apply zget_lt in Hz as Hi.
  destruct (mk_color _ _ Hm i ltac:(lia)) as [| [Hwh Hg]]; [done |]. exfalso.
  apply (elem_of_nil (reference s)), Hin. exists i, s. split; [by apply Hself | done].
Qed.

Lemma marks_heap stop g g' : heap_at vm slots stop g -> marks g g' -> heap_at vm slots stop g'.
Proof.
  intros [Hh [Hp Hcur]] Hm.
  split; [| split; [by apply (mk_pages _ _ Hm) | rewrite (mk_frame _ _ Hm); exact Hcur]].
  destruct Hh as [Hself Hcol Hfree Hstop Htail Hpages]. split; try done.
  - intros i Hi. rewrite <- Hcol by done. destruct (mk_color _ _ Hm i Hi) as [-> | [-> ->]]; [done |].
    split; by intros _; eexists.
  - intros i Hi. rewrite (mk_free _ _ Hm) by done. by apply Hfree.
  - by rewrite (mk_length _ _ Hm).
Qed.

Lemma marks_marked g g' o : marks g g' -> marked slots vm (color g) o -> marked slots vm (color g') o.
Proof.
  intros Hm (i & s & Hc & Hw). exists i, s. split; [done |].
  apply (marks_nonwhite _ _ _ Hm); [by eapply checked_in_nonneg | done].
Qed.

Lemma marks_black g g' i : marks g g' -> 0 <= i -> color g' i = Some Black -> color g i = Some Black.
Proof. intros Hm Hi Hb. destruct (mk_color _ _ Hm i Hi) as [<- | [_ E]]; [done | congruence]. Qed.

(** ** The operations *)

Lemma update_page_total g i f : 0 <= i -> i / 64 < zlen (slot_bits g) -> exists g', update_page g i f = Ok g'.
Proof. apply update_page_ok. Qed.

Lemma heap_page stop g i : heap_at vm slots stop g -> 0 <= i < zlen slots -> i / 64 < zlen (slot_bits g).
Proof. intros [Hh _] Hi. rewrite (ho_pages _ _ _ _ _ _ Hh). by apply pages_for_le. Qed.

Lemma heap_color stop g i s : heap_at vm slots stop g -> zget slots i = Some (Occupied s) -> exists c, color g i = Some c.
Proof.
  intros [Hh _] Hz. apply zget_lt in Hz as Hi. destruct (proj2 (ho_color _ _ _ _ _ _ Hh i ltac:(lia))) as [c Hc]; eauto.
Qed.

(** [set_color] changes one colour. *)
Lemma set_color_spec stop g i c : heap_at vm slots stop g -> 0 <= i < zlen slots ->
  exists g', set_color g i c = Ok g' /\ g' = with_slot_bits g (slot_bits g') /\
    (forall j, 0 <= j -> color g' j = if bool_decide (j = i) then (fun _ => c) <$> color g i else color g j) /\
    (pages_ok g -> pages_ok g') /\ zlen (slot_bits g') = zlen (slot_bits g) /\
    forall j, 0 <= j -> slot_bit reusable_free g' j = slot_bit reusable_free g j.
Proof.
  intros Hh Hi. destruct (update_page_ok g i (paint (slot_mask i) c) ltac:(lia) (heap_page _ _ _ Hh Hi)) as [g' Hg].
  exists g'. split; [done |]. destruct (update_page_inv _ _ _ _ Hg) as (page & _ & E).
  split; [by rewrite E |]. split; [intros j Hj; eapply color_set_color; try done; lia |].
  split; [intros Hp; eapply set_color_pages_ok; try done; lia |].
  split; [by rewrite E; cbn; rewrite zlen_zinsert |].
  intros j Hj. by destruct (set_color_bits _ _ _ _ Hg ltac:(lia) j Hj) as (_ & E' & _).
Qed.

(** A white object becomes gray and joins the work list. *)
Definition grayed (g : GcState) (o : ObjectRef) : GcState :=
  let g := with_work g (work g ++ [o]) in if bool_decide (phase g = Sweep) then transition g Propagate else g.

Lemma grayed_marks stop g i s o : heap_at vm slots stop g -> checked_in slots vm o = Ok (i, s) ->
  phase g <> Pause -> color g i = Some White ->
  exists g1, set_color g i Gray = Ok g1 /\ marks g (grayed g1 o) /\ color (grayed g1 o) i <> Some White.
Proof.
  intros Hh Hc Hp Hcol. apply checked_in_spec in Hc as Hz. destruct Hz as (Hz & Ho & _).
  apply zget_lt in Hz as Hi.
  destruct (set_color_spec _ g i Gray Hh Hi) as (g1 & Hg1 & E & Hcol1 & Hpages & Hlen & Hfree).
  exists g1. split; [done |].
  unfold grayed. set (g2 := if bool_decide (phase _ = Sweep) then _ else _).
  assert (forall j, color g2 j = color g1 j) as Ec2 by (intros j; subst g2; unfold transition; repeat case_bool_decide; done).
  assert (work g2 = work g ++ [o]) as Ew by (subst g2; unfold transition; rewrite E; repeat case_bool_decide; done).
  assert (phase g2 = if bool_decide (phase g = Sweep) then Propagate else phase g) as Ep.
  { assert (phase g1 = phase g) as Eph by by rewrite E. subst g2. unfold transition.
    change (phase (with_work g1 (work g1 ++ [o]))) with (phase g1). rewrite Eph.
    repeat case_bool_decide; try done; congruence. }
  assert (slot_bits g2 = slot_bits g1) as Eb by (subst g2; unfold transition; repeat case_bool_decide; done).
  assert (forall j, 0 <= j -> color g2 j = if bool_decide (j = i) then Some Gray else color g j) as Hcol2.
  { intros j Hj. rewrite Ec2, Hcol1 by done. by rewrite Hcol. }
  split; [split |].
  - intros j Hj. rewrite Hcol2 by done. destruct (decide (j = i)) as [-> | Hji];
      [right; by rewrite bool_decide_eq_true_2 | left; by rewrite bool_decide_eq_false_2].
  - exists [o]. split; [done |]. split; [apply NoDup_singleton |]. split; [| split; [done |]].
    + intros o'. rewrite list_elem_of_singleton. split.
      * intros ->. exists i, s. rewrite Hcol2 by lia. by rewrite bool_decide_eq_true_2.
      * intros (j & t & Hc' & Hwj & Hgj). pose proof (checked_in_nonneg _ _ _ Hc'). rewrite Hcol2 in Hgj by done.
        destruct (decide (j = i)) as [-> | Hji]; [| rewrite bool_decide_eq_false_2 in Hgj by done; congruence].
        apply checked_in_spec in Hc' as (Hz' & <- & _). rewrite Hz in Hz'. by injection Hz' as <-.
    + by intros _.
  - subst g2. unfold transition. rewrite E. repeat case_bool_decide; done.
  - intros Hok. unfold pages_ok. rewrite Eb. by apply Hpages.
  - by rewrite Eb.
  - intros j Hj. unfold slot_bit. rewrite Eb. by apply Hfree.
  - rewrite Hcol2 by lia. by rewrite bool_decide_eq_true_2.
Qed.

Lemma mark_white_spec stop g i s o : heap_at vm slots stop g -> checked_in slots vm o = Ok (i, s) ->
  spec (mark_white i o) g
    (fun _ g' => marks g g' /\ (phase g <> Pause -> color g' i <> Some White)) (fun _ g' => g' = g).
Proof.
  intros Hh Hc. apply spec_bind, spec_get. apply checked_in_spec in Hc as Hz. destruct Hz as (Hz & _).
  case_bool_decide as Hp; [apply spec_ret; split; [apply marks_refl | done] |].
  destruct (heap_color _ _ _ _ Hh Hz) as [c Hcol]. rewrite Hcol. cbn [ok_or]. apply spec_bind, spec_ret.
  case_bool_decide as Hw; cbn [negb]; [subst c | apply spec_ret; split; [apply marks_refl | congruence]].
  destruct (zlen (work g) =? work_capacity g); [by apply spec_fail |]. apply spec_bind.
  destruct (grayed_marks _ _ _ _ _ Hh Hc Hp Hcol) as (g1 & -> & Hm & Hnw).
  cbn. change (spec (put ?x) ?s ?Q ?R) with (Q tt x). done.
Qed.


Lemma gc_mark_slot_spec stop g o : heap_at vm slots stop g ->
  spec (gc_mark_slot slots vm o) g
    (fun _ g' => marks g g' /\ (phase g <> Pause -> marked slots vm (color g') o)) (fun _ g' => g' = g).
Proof.
  intros Hh. unfold gc_mark_slot. apply spec_bind. unfold spec at 1, lift.
  destruct (checked_in slots vm o) as [[i s] | e | k] eqn:Hc; [| done | by apply checked_in_total in Hc].
  eapply spec_weaken; [by eapply mark_white_spec | | done]. intros _ g' [Hm Hw]. split; [done |].
  intros Hp. exists i, s. auto.
Qed.

(** ** Marking from a state on *)

Section From.
Context (stop : Z) (g0 : GcState) (Hheap : heap_at vm slots stop g0).

Lemma keeps_mark o : keeps (marks g0) (gc_mark_slot slots vm o).
Proof using Hheap.
  intros g Hg. eapply spec_weaken; [eapply gc_mark_slot_spec, marks_heap; [apply Hheap | done] | |].
  - intros _ g' [Hm _]. by eapply marks_trans.
  - by intros e g' ->.
Qed.

Lemma visits_mark o : phase g0 <> Pause -> visits (marks g0) (fun c g => marked slots vm (color g) c) [o] (gc_mark_slot slots vm o).
Proof using Hheap.
  intros Hp g Hg. eapply spec_weaken; [eapply gc_mark_slot_spec, marks_heap; [apply Hheap | done] | |].
  - intros _ g' [Hm Hmk]. split; [by eapply marks_trans |]. split; [| intros c; by apply marks_marked].
    intros c ->%list_elem_of_singleton. apply Hmk. by rewrite (marks_pause _ _ Hg).
  - by intros e g' ->.
Qed.

(** A traced object: its strong references are marked. *)
Lemma trace_marks obj : phase g0 <> Pause ->
  visits (marks g0) (fun c g => marked slots vm (color g) c) (strong_edges (string_in slots vm) obj)
    (trace_gc_object_children (gc_is_string slots vm) (gc_mark_slot slots vm) obj).
Proof using Hheap.
  intros Hp. apply trace_gc_object_visits; [intros o; by apply visits_mark | intros o; apply gc_is_string_total].
Qed.

End From.

(** ** Marks keep the invariants *)

Lemma new_gray g g' new : marks g g' -> work g' = work g ++ new ->
  NoDup new /\ (forall o, o ∈ new <-> exists i s, checked_in slots vm o = Ok (i, s) /\ color g i = Some White /\ color g' i = Some Gray).
Proof.
  intros Hm Hw. destruct (mk_work _ _ Hm) as (new' & Hw' & Hnd & Hin & _).
  assert (new' = new) as -> by (apply (app_inv_head (work g)); congruence). done.
Qed.

(** Also when an object is held back from the work list. *)
Lemma marks_work_ok g g' w new : self_checked slots vm -> work_ok vm slots (color g) w (phase g) ->
  marks g g' -> work g' = work g ++ new -> work_ok vm slots (color g') (w ++ new) (phase g').
Proof.
  intros Hself [Hnd Hgray Hwork Hidle] Hm Hw. destruct (new_gray _ _ _ Hm Hw) as [Hnd' Hin]. split.
  - apply NoDup_app. split; [done |]. split; [| done]. intros o Ho (i & s & Hc & Hwh & _)%Hin.
    destruct (Hgray o Ho) as (j & t & Hc' & Hg). destruct (checked_in_fun _ _ _ _ _ _ _ Hc Hc') as [-> _]. congruence.
  - intros o [Ho | Ho]%elem_of_app.
    + destruct (Hgray o Ho) as (i & s & Hc & Hg). exists i, s. split; [done |].
      rewrite (marks_same_color _ _ _ Hm); [done | by eapply checked_in_nonneg | congruence].
    + apply Hin in Ho as (i & s & Hc & _ & Hg). eauto.
  - intros i s Hz Hg. apply zget_lt in Hz as Hi. apply elem_of_app.
    destruct (mk_color _ _ Hm i ltac:(lia)) as [E | [Hwh _]].
    + left. apply Hwork with i; [done | congruence].
    + right. apply Hin. exists i, s. split; [by apply Hself | done].
  - intros Hp. destruct (mk_work _ _ Hm) as (new' & Hw' & _ & _ & Hp0 & Hp1).
    assert (new' = new) as -> by (apply (app_inv_head (work g)); congruence).
    destruct (decide (new = [])) as [-> | Hne].
    + rewrite app_nil_r. apply Hidle. by rewrite <- (Hp0 eq_refl).
    + destruct (Hp1 Hne) as [Hne0 E]. exfalso. rewrite E in Hp. case_bool_decide; intuition congruence.
Qed.

Lemma marks_settled g g' s : marks g g' -> settled (cycle g') (phase g') s -> settled (cycle g) (phase g) s.
Proof.
  intros Hm. destruct (marks_fields _ _ Hm) as (_ & -> & _). unfold settled.
  destruct (marks_phase _ _ Hm) as [-> | (-> & -> & _)]; [done | by left].
Qed.

Lemma marks_cycle_ok g g' rs :
  cycle_ok vm slots (color g) rs (phase g) (mode g) (cycle g) (atomic_finalizer_stage g) (GcState.gc_roots g) (root_cursor g) ->
  marks g g' ->
  cycle_ok vm slots (color g') rs (phase g') (mode g') (cycle g') (atomic_finalizer_stage g') (GcState.gc_roots g') (root_cursor g').
Proof.
  intros [Hminor Hblack Hcursor Hpend Hroots Hstage Hearly Hreg] Hm.
  pose proof (marks_pause _ _ Hm) as Hpause. pose proof (marks_marking _ _ Hm) as Hmarking.
  assert (forall s, settled (cycle g') (phase g') s -> settled (cycle g) (phase g) s) as Hset by (intros s; by apply marks_settled).
  destruct (marks_fields _ _ Hm) as (Em & Ec & Es & Er & Ek). rewrite Em, Es, Er, Ek. split; try done.
  - intros Hp. rewrite Ec. apply Hminor. tauto.
  - intros Hp i s Hz Hb Hs c Hc. apply (marks_marked _ _ _ Hm), (Hblack ltac:(tauto) i s Hz); [| by apply Hset | done].
    apply (marks_black _ _ _ Hm); [apply zget_lt in Hz; lia | done].
  - intros Hp r Hr. destruct (marks_phase _ _ Hm) as [E | (_ & E & _)]; [| congruence].
    destruct (Hpend ltac:(congruence) r Hr); [left; by apply (marks_marked _ _ _ Hm) | by right].
  - intros Hp r Hr. apply (marks_marked _ _ _ Hm), Hroots; tauto.
  - intros Hp. destruct (marks_phase _ _ Hm) as [E | (_ & E & _)]; [apply Hstage |]; congruence.
  - intros Hp. destruct (marks_phase _ _ Hm) as [E | (_ & E & _)]; [apply Hearly |]; congruence.
  - intros Hp Hst i s Hz Hf. apply (marks_nonwhite _ _ _ Hm); [apply zget_lt in Hz; lia |].
    apply (Hreg ltac:(tauto) Hst i s Hz Hf).
Qed.

End Marks.

(** ** Marking in a VM *)

Section Vms.
Context `{Suspended} {L : Type} `{HeapLedger L} `{Hasher}.

Notation Vm := (Vm L).

Definition marking_vm (vm0 vm : Vm) : Prop := exists g, vm = with_gc vm0 g /\ marks (slots vm0) (vm_id vm0) (gc vm0) g.

Lemma marking_vm_refl (vm : Vm) : marking_vm vm vm.
Proof. exists (gc vm). split; [by destruct vm | apply marks_refl]. Qed.

Lemma marking_vm_trans (vm1 vm2 vm3 : Vm) : marking_vm vm1 vm2 -> marking_vm vm2 vm3 -> marking_vm vm1 vm3.
Proof. intros (g2 & -> & H12) (g3 & -> & H23). exists g3. split; [done |]. by eapply marks_trans. Qed.

Lemma gc_inv_marking (vm0 vm : Vm) : gc_inv vm0 -> marking_vm vm0 vm -> gc_inv vm.
Proof.
  intros (Hheap & Hwork & Hcycle & Hanch & Hheld) (g & -> & Hm). split; [| split; [| split]]; try done.
  - by eapply marks_heap.
  - destruct (mk_work _ _ _ _ Hm) as (new & Hw & _). unfold work_inv. cbn. rewrite Hw.
    eapply marks_work_ok; try done. apply Hheap.
  - by eapply marks_cycle_ok.
Qed.

(** An operation of the collector's state, in a VM. *)
Lemma keeps_on_gc (vm0 : Vm) {A} (m : ST GcState VmError A) :
  keeps (marks (slots vm0) (vm_id vm0) (gc vm0)) m -> keeps (marking_vm vm0) (on_gc m).
Proof.
  intros Hm vm (g & -> & Hg). unfold spec, on_gc. cbn. specialize (Hm g Hg). unfold spec in Hm.
  destruct (m g) as [[a | e | k] g']; try done; by exists g'.
Qed.

Lemma with_gc_same (vm : Vm) : with_gc vm (gc vm) = vm.
Proof. by destruct vm. Qed.

(** A run of the collector's state in a VM. *)
Lemma spec_on_gc (vm : Vm) {A} (m : ST GcState VmError A) (Q : A -> GcState -> Prop) R (Q' : A -> Vm -> Prop) R' :
  spec m (gc vm) Q R -> (forall a g, Q a g -> Q' a (with_gc vm g)) -> (forall e g, R e g -> R' e (with_gc vm g)) ->
  spec (on_gc m) vm Q' R'.
Proof.
  unfold spec, on_gc. intros Hm HQ HR. destruct (m (gc vm)) as [[a | e | k] g]; auto.
Qed.

Definition marked_in (vm : Vm) (o : ObjectRef) : Prop := marked (slots vm) (vm_id vm) (color (gc vm)) o.

Lemma marking_vm_marked (vm vm' : Vm) o : marking_vm vm vm' -> marked_in vm o -> marked_in vm' o.
Proof. intros (g & -> & Hm). by apply marks_marked. Qed.

Lemma marking_vm_heap (vm vm' : Vm) : heap_inv vm -> marking_vm vm vm' -> heap_inv vm'.
Proof. intros Hh (g & -> & Hm). by eapply marks_heap. Qed.

Lemma marking_vm_frame (vm vm' : Vm) : marking_vm vm vm' -> slots vm' = slots vm /\ vm_id vm' = vm_id vm.
Proof. by intros (g & -> & _). Qed.

Lemma mark_gc_object_spec (vm : Vm) o : heap_inv vm ->
  spec (mark_gc_object o) vm
    (fun _ vm' => marking_vm vm vm' /\ (phase (gc vm) <> Pause -> marked_in vm' o)) (fun _ vm' => vm' = vm).
Proof.
  intros Hh. apply spec_bind, spec_get. eapply spec_on_gc; [by eapply gc_mark_slot_spec | |].
  - intros _ g [Hm Hmk]. split; [by exists g | done].
  - intros e g ->. apply with_gc_same.
Qed.

Lemma trace_gc_object_spec (vm : Vm) o : heap_inv vm -> phase (gc vm) <> Pause ->
  spec (trace_gc_object o) vm
    (fun _ vm' => marking_vm vm vm' /\ marked_in vm' o /\ forall i s, checked_slot vm o = Ok (i, s) ->
       forall c, c ∈ strong_edges (string_in (slots vm) (vm_id vm)) (object s) -> marked_in vm' c)
    (fun _ vm' => marking_vm vm vm').
Proof.
  intros Hh Hp. apply spec_bind, spec_get.
  apply (spec_on_gc _ _ (fun _ g => marks (slots vm) (vm_id vm) (gc vm) g /\ marked (slots vm) (vm_id vm) (color g) o /\
      forall i s, checked_slot vm o = Ok (i, s) -> forall c, c ∈ strong_edges (string_in (slots vm) (vm_id vm)) (object s) ->
        marked (slots vm) (vm_id vm) (color g) c)
    (fun _ g => marks (slots vm) (vm_id vm) (gc vm) g)).
  - eapply spec_seq; [by eapply gc_mark_slot_spec | | intros e g ->; apply marks_refl].
    intros _ g1 [Hm1 Hmk]. specialize (Hmk Hp). apply spec_bind, spec_lift; [apply checked_in_total | | done].
    intros [i s] Hc. eapply spec_weaken; [by eapply trace_marks; [exact Hh | exact Hp | exact Hm1] | |].
    + intros _ g2 (Hm2 & Hl & Hmono). split; [done |]. split; [by apply Hmono |].
      intros j t Hc' c Hin. cbn in Hl. unfold checked_slot in Hc'. rewrite Hc in Hc'. injection Hc' as <- <-. by apply Hl.
    + intros e g2 [Hm2 _]. done.
  - intros _ g (Hm & Ho & Hc). split; [by exists g | done].
  - intros e g Hm. by exists g.
Qed.

Lemma keeps_mark_gc_object (vm0 : Vm) o : heap_inv vm0 -> keeps (marking_vm vm0) (mark_gc_object o).
Proof.
  intros Hh. apply keeps_read. intros vm Hvm. eapply keeps_spec; [| done].
  assert (slots vm = slots vm0 /\ vm_id vm = vm_id vm0) as [-> ->] by by destruct Hvm as (g & -> & _).
  apply keeps_on_gc. by eapply keeps_mark.
Qed.

End Vms.
