(* ===== verification/HeapLive.v ===== *)
(** What a full cycle may keep: the objects that live by the references of the heap at its
    start, ephemeron pairs and finalizers included, and that marking finds no others. *)

From Stdlib Require Import ZArith Lia.
From stdpp Require Import base list numbers relations.
From S2P Require Import Prelude Float Number Table TableSpec TableEdges GcState GcBits ShortStrings Heap Barrier Collector HeapEdges HeapInv HeapMark.

Local Open Scope Z_scope.

(** ** Operations that uphold a property when they succeed *)

Definition upholds {S E A} (I : S -> Prop) (m : ST S E A) : Prop :=
  forall s a s', I s -> m s = (Ok a, s') -> I s'.

Section Upholds.
Context {S E : Type} (I : S -> Prop).

Lemma ok_bind {A B} (m : ST S E A) (f : A -> ST S E B) s b s' :
  (m ≫= f) s = (Ok b, s') -> exists a s1, m s = (Ok a, s1) /\ f a s1 = (Ok b, s').
Proof. unfold mbind, st_bind. destruct (m s) as [[a | e | k] s1]; [eauto | done | done]. Qed.

Lemma ok_lift {A} (r : res E A) (s s' : S) a : lift r s = (Ok a, s') -> r = Ok a /\ s' = s.
Proof. unfold lift. by destruct r; intros [= -> ->]. Qed.

Lemma upholds_ret {A} (a : A) : upholds (E := E) I (mret a).
Proof. by intros s a' s' Hs [= _ <-]. Qed.

Lemma upholds_bind {A B} (m : ST S E A) (f : A -> ST S E B) : upholds I m -> (forall a, upholds I (f a)) -> upholds I (m ≫= f).
Proof. intros Hm Hf s b s' Hs (a & s1 & E1 & E2)%ok_bind. eapply Hf; [by eapply Hm | exact E2]. Qed.

Lemma upholds_read {B} (f : S -> ST S E B) : (forall s b s', I s -> f s s = (Ok b, s') -> I s') -> upholds I (get ≫= f).
Proof. intros Hf s b s' Hs (a & s1 & [= <- <-] & E2)%ok_bind. by eapply Hf. Qed.

Lemma upholds_if {A} (b : bool) (m n : ST S E A) : upholds I m -> upholds I n -> upholds I (if b then m else n).
Proof. by destruct b. Qed.

Lemma upholds_lift {A B} (r : res E A) (f : A -> ST S E B) : (forall a, r = Ok a -> upholds I (f a)) -> upholds I (lift r ≫= f).
Proof. intros Hf s b s' Hs (a & s1 & [E1 ->]%ok_lift & E2)%ok_bind. by eapply Hf. Qed.

Lemma upholds_keeps {A} (m : ST S E A) : keeps I m -> upholds I m.
Proof. intros Hm s a s' Hs E1. exact (spec_ok _ _ _ _ _ _ (Hm s Hs) E1). Qed.

(** What is known after the operation helps to show that a second property is upheld. *)
Lemma upholds_and (J : S -> Prop) {A} (m : ST S E A) : upholds I m ->
  (forall s a s', I s -> J s -> I s' -> m s = (Ok a, s') -> J s') -> upholds (fun s => I s /\ J s) m.
Proof. intros Hm HJ s a s' [Hs Hj] E1. split; [by eapply Hm | eapply HJ; eauto]. Qed.

End Upholds.

Lemma upholds_each {S A} (I : S -> Prop) (f : A -> ST S VmError unit) l : (forall x, x ∈ l -> upholds I (f x)) -> upholds I (each f l).
Proof.
  induction l as [| x l IH]; intros Hf; cbn [each]; [apply upholds_ret |].
  apply upholds_bind; [apply Hf; left | intros _; apply IH; intros; apply Hf; by right].
Qed.

(** ** What the collector visits, and nothing else *)

Section Traces.
Context `{Suspended} {S : Type} (I : S -> Prop) (visit : ObjectRef -> ST S VmError unit).

Lemma upholds_list l : (forall c, c ∈ l -> upholds I (visit c)) -> upholds I (each visit l).
Proof. apply upholds_each. Qed.

Lemma upholds_option o : (forall c, c ∈ option_edges o -> upholds I (visit c)) -> upholds I (visit_option visit o).
Proof. destruct o; intros Hv; [apply Hv; left | apply upholds_ret]. Qed.

Lemma upholds_value v : (forall c, c ∈ value_edges v -> upholds I (visit c)) -> upholds I (visit_value visit v).
Proof. destruct v; intros Hv; try apply upholds_ret. apply Hv. left. Qed.

Lemma trace_children_only t : (forall c, c ∈ table_held t -> upholds I (visit c)) -> upholds I (trace_children visit t).
Proof.
  intros Hv. unfold trace_children. apply upholds_bind.
  { apply upholds_option. intros c Hc. apply Hv, elem_of_app. by left. }
  intros _. apply upholds_bind; [| intros _]; apply upholds_each.
  - intros slot Hs. assert (forall c, c ∈ slot_held slot -> upholds I (visit c)) as Hslot.
    { intros c Hc. apply Hv, elem_of_app. right. apply elem_of_app. left. apply elem_of_concat_map. eauto. }
    destruct slot; [by apply upholds_value | apply upholds_ret].
  - intros b Hb. assert (forall c, c ∈ bucket_held b -> upholds I (visit c)) as Hbucket.
    { intros c Hc. apply Hv, elem_of_app. right. apply elem_of_app. right. apply elem_of_concat_map. eauto. }
    destruct b as [[key v] |]; cbn in Hbucket |- *; [| apply upholds_ret]. destruct (is_nil v); [apply upholds_ret |].
    apply upholds_bind; [apply upholds_option | intros _; apply upholds_value]; intros c Hc; apply Hbucket, elem_of_app; auto.
Qed.

Lemma trace_object_only o : (forall c, c ∈ held_edges o -> upholds I (visit c)) -> upholds I (trace_object visit o).
Proof.
  intros Hv. unfold held_edges in Hv. unfold trace_object. apply upholds_bind.
  - assert (forall c, c ∈ match payload o with PTable t => table_held t | p => payload_edges p end -> upholds I (visit c)) as Hp.
    { intros c Hc. apply Hv, elem_of_app. by left. }
    destruct (payload o); try by apply upholds_list. by apply trace_children_only.
  - intros _. apply upholds_list. intros c Hc. apply Hv, elem_of_app. by right.
Qed.

Context (is_string : ObjectRef -> res VmError bool).

Lemma if_string_only o (l : list ObjectRef) : (known_string is_string o = true -> o ∈ l) -> (forall c, c ∈ l -> upholds I (visit c)) ->
  upholds I (strong ← lift (is_string o); if strong : bool then visit o else mret tt).
Proof.
  intros Hl Hv. apply upholds_lift. intros strong Hs. destruct strong; [| apply upholds_ret].
  apply Hv, Hl. unfold known_string. by rewrite Hs.
Qed.

Lemma filter_string o : known_string is_string o = true -> o ∈ filter (fun o => known_string is_string o = true) [o].
Proof. intros Ho. apply list_elem_of_filter. split; [done | left]. Qed.

Lemma slot_only mode slot : mode <> WeakMode.Strong ->
  (forall c, c ∈ slot_strong (known_string is_string) mode slot -> upholds I (visit c)) ->
  upholds I match slot with
    | Some (VObject o) =>
        strong ← (if bool_decide (mode = WeakMode.Keys) then mret true else lift (is_string o));
        if strong : bool then visit o else mret tt
    | _ => mret tt
    end.
Proof.
  intros Hm Hv. destruct slot as [[] |]; try apply upholds_ret. destruct mode; [congruence | ..]; cbn in Hv |- *.
  - apply upholds_bind; [apply upholds_ret | intros strong]. apply upholds_if; [apply Hv; left | apply upholds_ret].
  - by apply (if_string_only _ _ (filter_string r)).
  - by apply (if_string_only _ _ (filter_string r)).
Qed.

Lemma bucket_only mode b : mode <> WeakMode.Strong ->
  (forall c, c ∈ bucket_strong (known_string is_string) mode b -> upholds I (visit c)) ->
  upholds I match b with
    | Some (key, v) =>
        if is_nil v then mret tt else
        (match source_object key with
         | Some o => if strong_key mode key then visit o else mret tt
         | None => mret tt
         end);;
        match v with
        | VObject o =>
            strong ← lift (strong_value is_string mode key o);
            if strong : bool then visit o else mret tt
        | _ => mret tt
        end
    | None => mret tt
    end.
Proof.
  intros Hm Hv. destruct b as [[key v] |]; [| apply upholds_ret]. cbn in Hv |- *. destruct (is_nil v); [apply upholds_ret |].
  apply upholds_bind.
  - unfold key_strong in Hv. rewrite bool_decide_eq_false_2 in Hv by done. cbn [orb] in Hv.
    destruct (source_object key); [| apply upholds_ret]. destruct (strong_key mode key); [| apply upholds_ret].
    apply Hv, elem_of_app. left. left.
  - intros _. assert (forall c, c ∈ value_strong (known_string is_string) mode key v -> upholds I (visit c)) as Hvalue.
    { intros c Hc. apply Hv, elem_of_app. by right. }
    destruct v; try apply upholds_ret. destruct mode; [congruence | ..]; cbn in Hvalue |- *.
    + apply upholds_lift. intros strong [= <-]. destruct (live_key_without_scan key); [apply Hvalue; left | apply upholds_ret].
    + by apply (if_string_only _ _ (filter_string r)).
    + by apply (if_string_only _ _ (filter_string r)).
Qed.

Lemma trace_gc_object_only o : (forall c, c ∈ strong_edges (known_string is_string) o -> upholds I (visit c)) ->
  upholds I (trace_gc_object_children is_string visit o).
Proof.
  intros Hv. unfold trace_gc_object_children.
  assert ((forall t, payload o <> PTable t) -> upholds I (trace_object visit o)) as Hother.
  { intros Hno. apply trace_object_only. intros c Hc. apply Hv. unfold strong_edges, held_edges in *.
    destruct (payload o) as [| | t | | | | | | | |]; try exact Hc. by destruct (Hno t). }
  unfold strong_edges in Hv. destruct (payload o) as [| | t | | | | | | | |]; try by apply Hother. clear Hother.
  apply upholds_bind; [| intros _; apply upholds_list; intros c Hc; apply Hv, elem_of_app; by right].
  assert (forall c, c ∈ table_strong (known_string is_string) t -> upholds I (visit c)) as Ht.
  { intros c Hc. apply Hv, elem_of_app. by left. }
  unfold trace_gc_children. case_bool_decide as Hm.
  - apply trace_children_only. intros c Hc. apply Ht. unfold table_strong. by rewrite Hm.
  - unfold table_strong in Ht. apply upholds_bind.
    { apply upholds_option. intros c Hc. apply Ht, elem_of_app. by left. }
    intros _. apply upholds_bind; [| intros _]; apply upholds_each.
    + intros slot Hs. apply slot_only; [done |]. intros c Hc. apply Ht, elem_of_app. right. apply elem_of_app. left. apply elem_of_concat_map. eauto.
    + intros b Hb. apply bucket_only; [done |]. intros c Hc. apply Ht, elem_of_app. right. apply elem_of_app. right. apply elem_of_concat_map. eauto.
Qed.

End Traces.

(** ** The objects that live

    From the roots and the objects with a registered finalizer, along strong references, to
    the values of ephemeron pairs whose keys live, and to the string keys of all-weak tables. *)
Inductive lives `{Suspended} (slots : list Slot) (vm : VmId) (roots : list ObjectRef) : ObjectRef -> Prop :=
  | lives_kept o : kept slots roots o -> lives slots vm roots o
  | lives_edge o c : lives slots vm roots o -> edge slots vm o c -> lives slots vm roots c
  | lives_ephemeron o i s t key v :
      lives slots vm roots o -> checked_in slots vm o = Ok (i, s) -> payload (object s) = PTable t ->
      weak_mode t = WeakMode.Keys -> Some (key, VObject v) ∈ hash t ->
      (forall k, key = KeyObject k -> lives slots vm roots (ok_source k)) -> lives slots vm roots v
  | lives_string_key o i s t key v c :
      lives slots vm roots o -> checked_in slots vm o = Ok (i, s) -> payload (object s) = PTable t ->
      weak_mode t = WeakMode.All -> Some (key, v) ∈ hash t -> is_nil v = false ->
      class key = CanonicalKeyClass.ByteString -> source_object key = Some c -> lives slots vm roots c.

(** ** Marks of live objects *)

Section Sound.
Context `{Suspended} (slots : list Slot) (vm : VmId) (live : ObjectRef -> Prop).

(** What is not white lives. *)
Definition sound (g : GcState) : Prop :=
  forall i s, zget slots i = Some (Occupied s) -> color g i <> Some White -> live (reference s).

Lemma sound_color g g' : (forall i, 0 <= i -> color g' i = color g i) -> sound g -> sound g'.
Proof. intros Hc Hs i s Hz Hw. apply (Hs i s Hz). rewrite <- Hc; [done |]. apply zget_lt in Hz. lia. Qed.

Lemma sound_set_color g g' i s c : zget slots i = Some (Occupied s) -> live (reference s) ->
  set_color g i c = Ok g' -> sound g -> sound g'.
Proof.
  intros Hz Hl Hg Hs j t Hzj Hw. apply zget_lt in Hz as Hi. apply zget_lt in Hzj as Hj.
  destruct (decide (j = i)) as [-> | Hne]; [rewrite Hz in Hzj; by injection Hzj as <- |].
  apply (Hs j t Hzj). rewrite (color_set_color _ _ _ _ _ Hg) in Hw by lia. by rewrite bool_decide_eq_false_2 in Hw.
Qed.

Lemma gc_mark_slot_sound o : live o -> upholds sound (gc_mark_slot slots vm o).
Proof.
  intros Hl. unfold gc_mark_slot. apply upholds_lift. intros [i s] (Hz & Ho & _)%checked_in_spec. subst o. cbn [fst].
  apply upholds_read. intros g a g' Hs. case_bool_decide; [by intros [= _ <-] |].
  destruct (color g i) as [c |]; cbn [ok_or]; [| by intros (x & g1 & E & _)%ok_bind].
  intros (x & g1 & [= _ <-] & E)%ok_bind. revert E.
  destruct (negb _); [by intros [= _ <-] |]. destruct (_ =? _); [by intros E |].
  intros (g2 & g3 & [E ->]%ok_lift & [= _ <-])%ok_bind.
  pose proof (sound_set_color _ _ _ _ _ Hz Hl E Hs) as Hs2.
  case_bool_decide; [| exact Hs2]. unfold transition. case_bool_decide; exact Hs2.
Qed.

Lemma ephemeron_pair_sound key v : (match key with Some k => live k | None => True end -> live v) ->
  upholds sound (ephemeron_pair slots vm key v).
Proof.
  intros Hv g a g' Hs. unfold ephemeron_pair. intros (b & g1 & Eb & E)%ok_bind.
  assert (g1 = g /\ (b = true -> match key with Some k => live k | None => True end)) as [-> Hb].
  { destruct key as [k |]; [| by injection Eb as <- <-].
    apply ok_bind in Eb as (id & g2 & Eid & Eb). destruct (identity k) as [kid |] eqn:Ek; [| done]. injection Eid as <- <-.
    apply ok_bind in Eb as (str & g2 & [Estr ->]%ok_lift & Eb). apply ok_bind in Eb as (g3 & g4 & [= <- <-] & Eb).
    injection Eb as <- <-. split; [done |]. intros Hw%negb_true_iff%bool_decide_eq_false.
    unfold gc_is_string in Estr. destruct (checked_in slots vm k) as [[i s] | |] eqn:Hc; try done.
    apply checked_in_spec in Hc as (Hz & <- & id & Hid & _ & Hi & _). rewrite Ek in Hid. injection Hid as <-.
    apply (Hs i s Hz). by rewrite <- Hi. }
  destruct b; cbn [negb] in E; [| by injection E as _ <-]. specialize (Hv (Hb eq_refl)).
  apply ok_bind in E as (id & g2 & Eid & E). destruct (identity v); [| done]. injection Eid as <- <-.
  apply ok_bind in E as (g2 & g3 & [= <- <-] & E). destruct (bool_decide _); [| by injection E as _ <-].
  apply ok_bind in E as (u & g2 & Em & E). apply ok_bind in E as (g3 & g4 & [= <- <-] & [= _ <-]).
  exact (gc_mark_slot_sound _ Hv _ _ _ Hs Em).
Qed.

(** Marking sound marks of one state of the slots. *)
Lemma trace_sound o : (forall c, c ∈ strong_edges (string_in slots vm) o -> live c) ->
  upholds sound (trace_gc_object_children (gc_is_string slots vm) (gc_mark_slot slots vm) o).
Proof. intros Hl. apply trace_gc_object_only. intros c Hc. by apply gc_mark_slot_sound, Hl. Qed.

End Sound.
