(* ===== verification/HeapChange.v ===== *)
(** Objects that change in place: what a change has to respect to keep the invariant,
    shared by the stores of the program, the weak sweep and the finalizers. *)

From Stdlib Require Import ZArith Lia.
From stdpp Require Import base list numbers relations.
From S2P Require Import Prelude Float Number Table GcState GcBits ShortStrings Heap Barrier Collector HeapEdges HeapInv HeapMark.

Local Open Scope Z_scope.

Section Change.
Context `{Suspended}.
Implicit Types (slots : list Slot) (vm : VmId).

(** The change of one object: its references are old ones, or of intact objects which are
    marked when it is black; a finalizer is registered for intact, marked objects. *)
Record changed slots vm (g : GcState) (token : Z) (i : Z) (s s' : OccupiedSlot) : Prop := {
  ch_kind : keeps_kind s s';
  ch_settled : phase g <> Pause -> settled (cycle g) (phase g) s' -> settled (cycle g) (phase g) s;
  ch_strong : forall c, c ∈ strong_edges (string_in slots vm) (object s') ->
    c ∈ strong_edges (string_in slots vm) (object s) \/
    intact slots vm c /\
    (phase g <> Pause -> color g i = Some Black -> settled (cycle g) (phase g) s -> marked slots vm (color g) c);
  ch_finalizer : finalizer s' = Registered -> finalizer s = Registered \/
    intact slots vm (reference s) /\
    (marking (phase g) -> atomic_finalizer_stage g = AfterSeparation -> color g i <> Some White);
  ch_held : forall c, c ∈ held_edges (object s') -> c ∈ held_edges (object s) \/ older token c
}.

(** A change that adds no reference and registers no finalizer. *)
Record lessened slots vm (s s' : OccupiedSlot) : Prop := {
  le_kind : keeps_kind s s';
  le_age : age s' = age s;
  le_strong : strong_edges (string_in slots vm) (object s') ⊆ strong_edges (string_in slots vm) (object s);
  le_finalizer : finalizer s' = Registered -> finalizer s = Registered;
  le_held : held_edges (object s') ⊆ held_edges (object s)
}.

Lemma lessened_refl slots vm s : lessened slots vm s s.
Proof. by split. Qed.

Lemma lessened_changed slots vm g token i s s' : lessened slots vm s s' -> changed slots vm g token i s s'.
Proof.
  intros [Hk Ha Hs Hf Hh]. split; auto. unfold settled. by rewrite Ha.
Qed.

Lemma changed_refl slots vm g token i s : changed slots vm g token i s s.
Proof. apply lessened_changed, lessened_refl. Qed.

Section Reslot.
Context {R : Z -> OccupiedSlot -> OccupiedSlot -> Prop} {slots slots' : list Slot} {vm : VmId}.
Context (Hre : reslot R slots slots').

Lemma reslot_zget_iff i : (exists s, zget slots i = Some (Occupied s)) <-> exists s', zget slots' i = Some (Occupied s').
Proof using Hre.
  split; intros [s Hz].
  - destruct (reslot_occupied Hre _ _ Hz) as (s' & Hz' & _). eauto.
  - destruct (reslot_occupied_inv Hre _ _ Hz) as (s' & Hz' & _). eauto.
Qed.

Lemma heap_at_reslot stop g : heap_at vm slots stop g -> heap_at vm slots' stop g.
Proof using Hre.
  intros [[Hself Hcol Hfree Hstop Htail Hpages] Hp]. split; [| done].
  destruct Hre as [Hlen _]. split; try done.
  - by apply (reslot_self Hre).
  - intros i Hi. rewrite Hcol by done. apply reslot_zget_iff.
  - intros i Hi Hf. destruct (Hfree i Hi Hf) as [gen Hz]. exists gen. by apply (reslot_free Hre).
  - by rewrite Hlen.
  - intros i Hi. rewrite Hlen in Hi. destruct (Htail i Hi) as [gen Hz]. exists gen. by apply (reslot_free Hre).
  - by rewrite Hlen.
Qed.

Lemma marked_reslot col o : marked slots vm col o <-> marked slots' vm col o.
Proof using Hre.
  split; intros (i & s & Hc & Hw); exists i.
  - destruct (reslot_checked Hre _ _ _ Hc) as (s' & Hc' & _). eauto.
  - destruct (reslot_checked_inv Hre _ _ _ Hc) as (s' & Hc' & _). eauto.
Qed.

Lemma work_ok_reslot col w p : work_ok vm slots col w p -> work_ok vm slots' col w p.
Proof using Hre.
  intros [Hnd Hgray Hwork Hidle]. split; try done.
  - intros o Ho. destruct (Hgray o Ho) as (i & s & Hc & Hg). destruct (reslot_checked Hre _ _ _ Hc) as (s' & Hc' & _). eauto.
  - intros i s' Hz' Hg. destruct (reslot_occupied_inv Hre _ _ Hz') as (s & Hz & _ & -> & _). eauto.
Qed.

End Reslot.

Section Kept.
Context {slots slots' : list Slot} {vm : VmId} {g : GcState} {token : Z}.
Context (Hre : reslot (changed slots vm g token) slots slots').

Lemma changed_string o : string_in slots' vm o = string_in slots vm o.
Proof using Hre. apply (reslot_string Hre). intros i s s' Hc. by apply ch_kind in Hc. Qed.

Lemma changed_intact o : intact slots vm o -> intact slots' vm o.
Proof using Hre.
  apply (intact_reslot _ _ _ _ _ Hre); [by intros i s s' ?%ch_kind |].
  intros i s s' c _ Hc Hin. destruct (ch_strong _ _ _ _ _ _ _ Hc c Hin) as [| [? _]]; auto.
Qed.

(** The new edges of an occupied slot, with the strings of before. *)
Lemma changed_edges i s' c : zget slots' i = Some (Occupied s') -> c ∈ strong_edges (string_in slots' vm) (object s') ->
  exists s, zget slots i = Some (Occupied s) /\ changed slots vm g token i s s' /\
    c ∈ strong_edges (string_in slots vm) (object s').
Proof using Hre.
  intros Hz' Hin. destruct (reslot_occupied_inv Hre _ _ Hz') as (s & Hz & _ & _ & Hc). exists s.
  split; [done |]. split; [done |]. eapply strong_edges_mono; [| exact Hin]. intros d _. by rewrite changed_string.
Qed.

Lemma changed_anchored rs : anchored vm slots rs -> anchored vm slots' rs.
Proof using Hre.
  intros Ha o Hk. apply changed_intact. destruct Hk as [Ho | (i & s' & Hz' & Hf & <-)]; [by apply Ha; left |].
  destruct (reslot_occupied_inv Hre _ _ Hz') as (s & Hz & _ & -> & Hc).
  destruct (ch_finalizer _ _ _ _ _ _ _ Hc Hf) as [Hf' | [Hi _]]; [| done]. apply Ha. right. eauto.
Qed.

Lemma changed_cycle_ok rs :
  cycle_ok vm slots (color g) rs (phase g) (mode g) (cycle g) (atomic_finalizer_stage g) (GcState.gc_roots g) (root_cursor g) ->
  cycle_ok vm slots' (color g) rs (phase g) (mode g) (cycle g) (atomic_finalizer_stage g) (GcState.gc_roots g) (root_cursor g).
Proof using Hre.
  intros [Hminor Hblack Hcursor Hpend Hroots Hstage Hearly Hreg]. split; try done.
  - intros Hp i s' Hz' Hb Hset c Hin. apply (marked_reslot Hre).
    destruct (changed_edges _ _ _ Hz' Hin) as (s & Hz & Hc & Hin').
    pose proof (ch_settled _ _ _ _ _ _ _ Hc Hp Hset) as Hset0.
    destruct (ch_strong _ _ _ _ _ _ _ Hc c Hin') as [Hold | [_ Hm]]; [by eapply Hblack | by apply Hm].
  - intros Hp r Hr. destruct (Hpend Hp r Hr); [left; by apply (marked_reslot Hre) | by right].
  - intros Hp r Hr. by apply (marked_reslot Hre), Hroots.
  - intros Hp Hst i s' Hz' Hf. destruct (reslot_occupied_inv Hre _ _ Hz') as (s & Hz & _ & _ & Hc).
    destruct (ch_finalizer _ _ _ _ _ _ _ Hc Hf) as [Hf' | [_ Hi]]; [by apply (Hreg Hp Hst i s) | by apply Hi].
Qed.

Lemma changed_held : held_ok slots token -> held_ok slots' token.
Proof using Hre.
  intros Hh i s' Hz'. destruct (reslot_occupied_inv Hre _ _ Hz') as (s & Hz & _ & -> & Hc).
  destruct (Hh i s Hz) as [Hr Hheld]. split; [done |]. intros c Hin.
  destruct (ch_held _ _ _ _ _ _ _ Hc c Hin); auto.
Qed.

End Kept.
End Change.

Section Vms.
Context `{Suspended} {L : Type} `{HeapLedger L} `{Hasher}.

Notation Vm := (Vm L).

Definition vm_changed (vm : Vm) : Z -> OccupiedSlot -> OccupiedSlot -> Prop :=
  changed (slots vm) (vm_id vm) (gc vm) (next_runtime_token vm).

Lemma gc_inv_changed (vm : Vm) slots' : gc_inv vm -> reslot (vm_changed vm) (slots vm) slots' -> gc_inv (with_slots vm slots').
Proof.
  intros (Hheap & Hwork & Hcycle & Hanch & Hheld) Hre. split; [| split; [| split; [| split]]].
  - by apply (heap_at_reslot Hre).
  - by apply (work_ok_reslot Hre).
  - by apply (changed_cycle_ok Hre).
  - by apply (changed_anchored Hre).
  - destruct Hheld as [Hheld Hroots]. split; [by apply (changed_held Hre) | done].
Qed.

Lemma gc_inv_ids (vm : Vm) : gc_inv vm -> roots_ok (roots vm).
Proof. by intros (_ & _ & _ & _ & _ & ?). Qed.

(** Other roots: the new ones are intact, and marked in a cycle. *)
Lemma gc_inv_roots (vm vm' : Vm) : gc_inv vm ->
  (forall r, r ∈ root_list vm' -> r ∈ root_list vm \/
     intact (slots vm) (vm_id vm) r /\ (phase (gc vm) <> Pause -> marked_in vm r)) ->
  roots_ok (roots vm') ->
  slots vm' = slots vm -> vm_id vm' = vm_id vm -> gc vm' = gc vm ->
  gc_scan_end vm' = gc_scan_end vm -> next_runtime_token vm' = next_runtime_token vm -> gc_inv vm'.
Proof.
  intros (Hheap & Hwork & Hcycle & Hanch & [Hheld _]) Hsub Hids E1 E2 E3 E4 E5. unfold gc_inv, heap_inv, work_inv, cycle_inv, held_inv.
  rewrite E1, E2, E3, E4, E5. split; [| split; [| split; [| split]]]; try done.
  - destruct Hcycle as [Hminor Hblack Hcursor Hpend Hroots Hstage Hearly Hreg]. split; try done.
    + intros Hp r Hr. destruct (Hsub r Hr) as [? | [_ Hm]]; [by apply Hpend | left; apply Hm; congruence].
    + intros Hp r Hr. destruct (Hsub r Hr) as [? | [_ Hm]]; [by apply Hroots | apply Hm, Hp].
  - intros o [Ho | Ho]; [| apply Hanch; by right]. destruct (Hsub o Ho) as [? | [Hi _]]; [apply Hanch; by left | done].
Qed.

End Vms.
