(* ===== verification/HeapRounds.v ===== *)
(** The rounds of the collector keep the invariant of the heap: marking from the roots
    and from the work list. *)

From Stdlib Require Import ZArith Lia.
From stdpp Require Import base list numbers relations.
From S2P Require Import Prelude Float Number Table TableSpec TableSet TableEdges GcState GcBits ShortStrings Heap Barrier Collector HeapEdges HeapInv HeapMark.

Local Open Scope Z_scope.

(** The ledger may refuse any request, and nothing else. *)
Class HeapLedgerLaws (L : Type) `{HeapLedger L} (refused : VmError -> Prop) := {
  heap_ledger_laws :: LedgerLaws L refused;
  reserve_returns : forall n l, spec (reserve n) l (fun _ _ => True) (fun e _ => refused e);
  reserve_charges_returns : forall n l, spec (reserve_charges n) l (fun _ _ => True) (fun e _ => refused e);
  normalize_charges_returns : forall n l, spec (normalize_charges n) l (fun _ _ => True) (fun e _ => refused e)
}.

(** A loop that establishes something of each element. *)
Lemma each_establish {S A} (I : S -> Prop) (P : A -> S -> Prop) (f : A -> ST S VmError unit) l :
  (forall x s, x ∈ l -> I s ->
     spec (f x) s (fun _ s' => I s' /\ P x s' /\ (forall y, P y s -> P y s')) (fun _ s' => I s')) ->
  forall s, I s -> spec (each f l) s (fun _ s' => I s' /\ forall x, x ∈ l -> P x s') (fun _ s' => I s').
Proof.
  intros Hf.
  assert (forall l', l' ⊆ l -> forall s, I s ->
    spec (each f l') s (fun _ s' => I s' /\ (forall x, x ∈ l' -> P x s') /\ (forall y, P y s -> P y s')) (fun _ s' => I s')) as G.
  { induction l' as [| x l' IH]; intros Hsub s Hs; cbn [each].
    - apply spec_ret. split; [done |]. split; [by intros x ?%elem_of_nil | done].
    - eapply spec_seq; [apply Hf; [apply Hsub; left | done] | | done]. intros _ s1 (Hs1 & Hx & Hm1).
      eapply spec_weaken; [apply IH; [intros y Hy; apply Hsub; by right | done] | | done].
      intros _ s2 (Hs2 & Hl & Hm2). split; [done |]. split; [| auto].
      intros y [-> | Hy]%elem_of_cons; auto. }
  intros s Hs. eapply spec_weaken; [by apply G | | done]. intros _ s' (Hs' & Hl & _). done.
Qed.

Section Rounds.
Context `{Suspended} {L : Type} `{HeapLedgerLaws L refused} `{Hasher}.
#[local] Set Default Proof Using "Type*".

Notation Vm := (Vm L).
Notation HeapM := (ST Vm VmError).

(** ** Requests to the ledger *)

Lemma keeps_on_ledger {A} (I : Vm -> Prop) (m : ST L VmError A) :
  (forall vm l, I vm -> I (with_ledger vm l)) -> returns m -> keeps I (on_ledger m).
Proof using Type.
  intros HI Hm vm Hvm. unfold spec, on_ledger. specialize (Hm (ledger vm) Logic.I). unfold spec in Hm.
  destruct (m (ledger vm)) as [[a | e | k] l]; by try apply HI.
Qed.

Lemma keeps_ledger {A} (I : Vm -> Prop) (m : ST L VmError A) {B} (f : A -> HeapM B) (vm : Vm) Q R :
  (forall vm l, I vm -> I (with_ledger vm l)) -> returns m -> I vm ->
  (forall a vm', I vm' -> spec (f a) vm' Q R) -> (forall e vm', I vm' -> R e vm') -> spec (on_ledger m ≫= f) vm Q R.
Proof using Type. intros HI Hm Hvm Hf HR. eapply spec_seq; [by apply (keeps_on_ledger I) | done | done]. Qed.

Lemma returns_reserve n : returns (reserve (L := L) n).
Proof. eapply spec_returns, reserve_returns. Qed.
Lemma returns_reserve_charges n : returns (reserve_charges (L := L) n).
Proof. eapply spec_returns, reserve_charges_returns. Qed.
Lemma returns_normalize n : returns (normalize_charges (L := L) n).
Proof. eapply spec_returns, normalize_charges_returns. Qed.
Lemma returns_reserve_vec n size p : returns (reserve_vec (L := L) n size p).
Proof. eapply spec_returns, reserve_vec_returns. Qed.
Lemma returns_checkpoint p : returns (checkpoint (L := L) p).
Proof. eapply spec_returns, checkpoint_returns. Qed.
Lemma returns_try_reserve n : returns (try_reserve_exact (L := L) n).
Proof. eapply spec_returns, try_reserve_exact_returns. Qed.
Lemma returns_commit : returns (commit_charge (L := L)).
Proof. eapply spec_returns, commit_charge_returns. Qed.
Lemma returns_checked_add {S} a b : returns (checked_add (S := S) a b).
Proof using Type. unfold checked_add. by apply keeps_if; [apply keeps_ret | apply keeps_fail]. Qed.
Lemma returns_checked_bytes {S} a b : returns (@checked_bytes S a b).
Proof using Type. unfold checked_bytes. by apply keeps_if; [apply keeps_ret | apply keeps_fail]. Qed.
Lemma keeps_checked_add {S} (I : S -> Prop) a b : keeps I (checked_add a b).
Proof using Type. unfold checked_add. by apply keeps_if; [apply keeps_ret | apply keeps_fail]. Qed.
Lemma keeps_checked_bytes {S} (I : S -> Prop) a b : keeps I (@checked_bytes S a b).
Proof using Type. unfold checked_bytes. by apply keeps_if; [apply keeps_ret | apply keeps_fail]. Qed.

Lemma spec_modify_gc (vm : Vm) f (Q : unit -> Vm -> Prop) R : Q tt (with_gc vm (f (gc vm))) -> spec (modify_gc f) vm Q R.
Proof using Type. done. Qed.

Lemma spec_modify (vm : Vm) f (Q : unit -> Vm -> Prop) R : Q tt (f vm) -> spec (modify f) vm Q R.
Proof using Type. done. Qed.

(** ** Reading the heap *)

Lemma heap_occupied (vm : Vm) i s : heap_inv vm -> zget (slots vm) i = Some (Occupied s) ->
  checked_slot vm (reference s) = Ok (i, s).
Proof using Type. intros [Hh _] Hz. by apply (ho_self _ _ _ _ _ _ Hh). Qed.

Lemma inv_self (vm : Vm) : heap_inv vm -> self_checked (slots vm) (vm_id vm).
Proof using Type. intros [Hh _]. apply (ho_self _ _ _ _ _ _ Hh). Qed.

Lemma gc_inv_heap (vm : Vm) : gc_inv vm -> heap_inv vm.
Proof using Type. by intros (Hh & _). Qed.

(** ** Root marking *)

Lemma transition_phase g p : phase (transition g p) = p.
Proof using Type. unfold transition. by case_bool_decide. Qed.

Lemma transition_frame g p : transition g p = with_transition_count (with_phase g p) (transition_count (transition g p)).
Proof using Type. unfold transition. case_bool_decide as E; [| done]. subst p. by destruct g. Qed.

(** A change of phase: what the new phase asks for. *)
Lemma gc_inv_transition (vm : Vm) p : gc_inv vm ->
  work_ok (vm_id vm) (slots vm) (color (gc vm)) (work (gc vm)) p ->
  cycle_ok (vm_id vm) (slots vm) (color (gc vm)) (root_list vm) p (mode (gc vm)) (cycle (gc vm))
    (atomic_finalizer_stage (gc vm)) (GcState.gc_roots (gc vm)) (root_cursor (gc vm)) ->
  gc_inv (with_gc vm (transition (gc vm) p)).
Proof using Type.
  intros (Hheap & _ & _ & Hanch & Hheld) Hw Hc. rewrite transition_frame.
  split; [| split; [| split; [| split]]]; done.
Qed.

Lemma marking_vm_fields (vm vm' : Vm) : marking_vm vm vm' ->
  mode (gc vm') = mode (gc vm) /\ cycle (gc vm') = cycle (gc vm) /\
  atomic_finalizer_stage (gc vm') = atomic_finalizer_stage (gc vm) /\
  GcState.gc_roots (gc vm') = GcState.gc_roots (gc vm) /\ root_cursor (gc vm') = root_cursor (gc vm).
Proof using Type. intros (g & -> & Hm). by apply marks_fields in Hm. Qed.

Lemma marking_vm_phase (vm vm' : Vm) : marking_vm vm vm' -> phase (gc vm) <> Sweep -> phase (gc vm') = phase (gc vm).
Proof using Type. intros (g & -> & Hm) Hp. by destruct (marks_phase _ _ _ _ Hm) as [E | (E & _)]. Qed.

Lemma drop_zget {A} (l : list A) i x : zget l i = Some x -> drop (Z.to_nat i) l = x :: drop (Z.to_nat (i + 1)) l.
Proof using Type.
  intros [Hi Hl]%zget_Some. rewrite (drop_S _ _ _ Hl). do 2 f_equal. rewrite Z2Nat.inj_add by lia. lia.
Qed.

Lemma drop_zget_None {A} (l : list A) i : 0 <= i -> zget l i = None -> drop (Z.to_nat i) l = [].
Proof using Type.
  intros Hi [? | Hl]%zget_None; [lia |]. apply drop_ge. unfold zlen in Hl. lia.
Qed.

Lemma step_root_mark_keeps (vm : Vm) : gc_inv vm -> phase (gc vm) = RootMark ->
  spec step_root_mark vm (fun _ vm' => gc_inv vm') (fun _ vm' => gc_inv vm').
Proof.
  intros Hinv Hphase. pose proof (gc_inv_heap _ Hinv) as Hheap. unfold step_root_mark. apply spec_bind, spec_get.
  destruct (zget (GcState.gc_roots (gc vm)) (root_cursor (gc vm))) as [root |] eqn:Hroot.
  { eapply spec_seq; [by apply mark_gc_object_spec | | by intros e vm' ->].
    intros _ vm' [Hm Hmarked]. specialize (Hmarked ltac:(congruence)).
    destruct (gc_inv_marking _ _ Hinv Hm) as (Hheap' & Hwork' & Hcycle' & Hanch' & Hheld').
    split; [| split; [| split; [| split]]]; try done.
    destruct (marking_vm_fields _ _ Hm) as (_ & _ & _ & Er & Ek).
    destruct Hcycle' as [Hminor Hblack Hcursor Hpend Hroots Hstage Hearly Hreg]. split; try done.
    - change (0 <= root_cursor (gc vm') + 1). lia.
    - intros Hp r Hr. destruct (Hpend Hp r Hr) as [? | Hin]; [by left |].
      rewrite Ek, Er, (drop_zget _ _ _ Hroot) in Hin. apply elem_of_cons in Hin as [-> | Hin]; [by left | right].
      change (r ∈ drop (Z.to_nat (root_cursor (gc vm') + 1)) (GcState.gc_roots (gc vm'))). by rewrite Ek, Er. }
  assert (forall owner, spec (trace_gc_object owner;; modify_gc (fun g => with_remembered_cursor g (remembered_cursor g + 1)))
    vm (fun _ vm' => gc_inv vm') (fun _ vm' => gc_inv vm')) as Htrace.
  { intros owner. eapply spec_seq; [apply trace_gc_object_spec; [done | congruence] | |].
    - intros _ vm' (Hm & _). exact (gc_inv_marking _ _ Hinv Hm).
    - intros e vm' Hm. exact (gc_inv_marking _ _ Hinv Hm). }
  destruct (if bool_decide _ then _ else _) as [owner |]; [apply Htrace |]. clear Htrace.
  apply spec_modify_gc, gc_inv_transition; [done | |].
  - destruct Hinv as (_ & [Hnd Hgray Hwork _] & _). split; try done. by intros [|].
  - destruct Hinv as (_ & _ & [Hminor Hblack Hcursor Hpend Hroots Hstage Hearly Hreg] & _). split; try done.
    + intros _. by apply Hminor; rewrite Hphase.
    + intros _ i s Hz Hb [? | Hs]; [done |]. apply (Hblack ltac:(congruence) i s Hz Hb). by right.
    + intros _ r Hr. destruct (Hpend Hphase r Hr) as [| Hin]; [done |].
      rewrite (drop_zget_None _ _ Hcursor Hroot) in Hin. by apply elem_of_nil in Hin.
    + intros _ Hst. by destruct (Hearly Hphase).
Qed.

(** ** Propagation *)

Lemma spec_or_else {A} (m : HeapM A) undo (vm : Vm) (Q : A -> Vm -> Prop) R :
  spec m vm Q (fun e vm' => spec (undo e) vm' Q R) -> spec (or_else m undo) vm Q R.
Proof using Type. unfold spec, or_else. by destruct (m vm) as [[a | e | k] vm']. Qed.

Lemma spec_update_gc (vm : Vm) f (Q : unit -> Vm -> Prop) R g :
  f (gc vm) = Ok g -> Q tt (with_gc vm g) -> spec (update_gc f) vm Q R.
Proof using Type. intros Hf HQ. unfold update_gc. apply spec_bind, spec_get. rewrite Hf. exact HQ. Qed.

Lemma work_ok_perm {slots vm col w w' p} : w ≡ₚ w' -> work_ok slots vm col w p -> work_ok slots vm col w' p.
Proof using Type.
  intros Hw [Hnd Hgray Hwork Hidle]. split.
  - by rewrite <- Hw.
  - intros o Ho. apply Hgray. by rewrite Hw.
  - intros i s Hz Hg. rewrite <- Hw. eauto.
  - intros Hp. specialize (Hidle Hp). subst w. by apply Permutation_nil.
Qed.

(** A gray object turns black and leaves the list. *)
Lemma work_ok_black slots vm col col' o w p i s : self_checked slots vm ->
  work_ok vm slots col (o :: w) p -> checked_in slots vm o = Ok (i, s) ->
  (forall j, 0 <= j -> col' j = if bool_decide (j = i) then Some Black else col j) ->
  work_ok vm slots col' w p.
Proof using Type.
  intros Hself [Hnd Hgray Hwork Hidle] Hc Hcol. apply NoDup_cons in Hnd as [Hno Hnd]. split; [done | | |].
  - intros o' Ho'. destruct (Hgray o' ltac:(by right)) as (j & t & Hc' & Hg). exists j, t. split; [done |].
    rewrite Hcol by by eapply checked_in_nonneg. rewrite bool_decide_eq_false_2; [done |]. intros ->.
    apply checked_in_spec in Hc as (Hz & <- & _). apply checked_in_spec in Hc' as (Hz' & <- & _).
    rewrite Hz in Hz'. by injection Hz' as <-.
  - intros j t Hz Hg. apply zget_lt in Hz as Hj. rewrite Hcol in Hg by lia. case_bool_decide as Hji; [done |].
    specialize (Hwork j t Hz Hg). apply elem_of_cons in Hwork as [E |]; [| done].
    specialize (Hself j t Hz). rewrite E in Hself. by destruct (checked_in_fun _ _ _ _ _ _ _ Hc Hself) as [-> _].
  - intros Hp. by specialize (Hidle Hp).
Qed.

Lemma set_color_marked {slots vm} {col col' : Z -> option GcColor} {i c} o : c <> White ->
  (forall j, 0 <= j -> col' j = if bool_decide (j = i) then Some c else col j) ->
  marked slots vm col o -> marked slots vm col' o.
Proof using Type.
  intros Hc Hcol (j & t & Ho & Hw). exists j, t. split; [done |]. rewrite Hcol by by eapply checked_in_nonneg.
  case_bool_decide; congruence.
Qed.

(** An object whose references are marked turns black. *)
Lemma cycle_ok_black {slots vm} {col col' : Z -> option GcColor} {rs p m cy st gr cu} i s :
  zget slots i = Some (Occupied s) ->
  (forall j, 0 <= j -> col' j = if bool_decide (j = i) then Some Black else col j) ->
  (forall c, c ∈ strong_edges (string_in slots vm) (object s) -> marked slots vm col c) ->
  cycle_ok vm slots col rs p m cy st gr cu -> cycle_ok vm slots col' rs p m cy st gr cu.
Proof using Type.
  intros Hz Hcol Hs [Hminor Hblack Hcursor Hpend Hroots Hstage Hearly Hreg].
  assert (forall o, marked slots vm col o -> marked slots vm col' o) as Hmono by (intros o; by apply (@set_color_marked _ _ _ _ i Black)).
  split; try done.
  - intros Hp j t Hzj Hb Hset c Hc. apply Hmono. apply zget_lt in Hzj as Hj. rewrite Hcol in Hb by lia.
    destruct (decide (j = i)) as [-> | Hne].
    + rewrite Hz in Hzj. injection Hzj as <-. by apply Hs.
    + rewrite bool_decide_eq_false_2 in Hb by done. by apply (Hblack Hp j t).
  - intros Hp r Hr. destruct (Hpend Hp r Hr); [left; by apply Hmono | by right].
  - intros Hp r Hr. by apply Hmono, Hroots.
  - intros Hp Hst j t Hzj Hf. apply zget_lt in Hzj as Hj. rewrite Hcol by lia. case_bool_decide; [done |]. by apply (Hreg Hp Hst j t).
Qed.

Lemma zlen_nil_inv {A} (l : list A) : zlen l <= 0 -> l = [].
Proof using Type. destruct l; [done |]. rewrite zlen_cons. pose proof (zlen_nonneg l). lia. Qed.

Lemma work_last (l : list ObjectRef) o : zget l (zlen l - 1) = Some o -> l = take (length l - 1) l ++ [o].
Proof using Type.
  intros [_ Ho]%zget_Some. unfold zlen in Ho. destruct l as [| x l _] using rev_ind; [done |].
  rewrite length_app, Nat.add_sub in *. cbn in *. rewrite take_app_length.
  replace (Z.to_nat (Z.of_nat (length l + 1) - 1)) with (length l) in Ho by lia.
  rewrite lookup_app_r, Nat.sub_diag in Ho by lia. by injection Ho as ->.
Qed.

Lemma step_propagate_keeps (vm : Vm) : gc_inv vm -> phase (gc vm) = Propagate ->
  spec step_propagate vm (fun _ vm' => gc_inv vm') (fun _ vm' => gc_inv vm').
Proof.
  intros Hinv Hphase. pose proof (gc_inv_heap _ Hinv) as Hheap. pose proof (inv_self _ Hheap) as Hself.
  unfold step_propagate. apply spec_bind, spec_get.
  destruct (zget (work (gc vm)) (zlen (work (gc vm)) - 1)) as [o |] eqn:Ho.
  - apply work_last in Ho. set (w := take _ _) in *.
    apply spec_bind, spec_modify_gc. fold w. set (vm1 := with_gc vm _).
    destruct Hinv as (_ & Hwork & Hcycle & Hanch & Hheld).
    assert (forall vm2, marking_vm vm1 vm2 -> exists new,
      work (gc vm2) = w ++ new /\ work_ok (vm_id vm) (slots vm) (color (gc vm2)) (o :: w ++ new) (phase (gc vm2))) as Hafter.
    { intros vm2 (g & -> & Hm). destruct (mk_work _ _ _ _ Hm) as (new & Hw & _). exists new. split; [exact Hw |].
      unfold work_inv in Hwork. rewrite Ho in Hwork.
      apply (work_ok_perm (w := (w ++ [o]) ++ new)); [by rewrite <- app_assoc, Permutation_middle |].
      exact (marks_work_ok _ _ (gc vm1) g _ _ Hself Hwork Hm Hw). }
    assert (forall vm2, marking_vm vm1 vm2 -> cycle_inv vm2) as Hcycle2.
    { intros vm2 (g & -> & Hm). exact (marks_cycle_ok _ _ (gc vm1) g _ Hcycle Hm). }
    assert (exists i s, checked_slot vm o = Ok (i, s)) as (i & s & Hc).
    { destruct (wo_gray _ _ _ _ _ Hwork o) as (i & s & Hc & _); [rewrite Ho; apply elem_of_app; right; left | eauto]. }
    eapply spec_seq; [apply spec_or_else; eapply spec_weaken; [apply trace_gc_object_spec; [done | by cbn; congruence] | |] | |].
    + intros a vm2 Hm. exact Hm.
    + intros e vm2 Hm. apply spec_bind, spec_modify_gc. apply (spec_fail e _ _ (fun _ => gc_inv)).
      destruct (Hafter _ Hm) as (new & Hw & Hok). pose proof (marking_vm_heap vm1 _ Hheap Hm) as Hheap2.
      pose proof (Hcycle2 _ Hm) as Hc2. destruct Hm as (g & -> & Hm).
      split; [exact Hheap2 |]. split; [| done]. cbn in Hw. unfold work_inv. cbn. rewrite Hw.
      eapply work_ok_perm; [| exact Hok]. apply Permutation_cons_append.
    + intros _ vm2 (Hm & Hmk & Hedges). apply checked_in_spec in Hc as Hz. destruct Hz as (Hz & Hro & id & Hid & _ & Hi & _).
      rewrite Hid. cbn [ok_or]. apply spec_bind, spec_ret. rewrite Hi. apply zget_lt in Hz as Hlt.
      pose proof (marking_vm_heap vm1 _ Hheap Hm) as Hheap2. pose proof (Hcycle2 _ Hm) as Hc2.
      destruct (Hafter _ Hm) as (new & Hw & Hok). specialize (Hedges i s Hc).
      destruct Hm as (g & -> & Hm). cbn in Hw, Hok.
      destruct (set_color_spec _ _ _ g i Black Hheap2 Hlt) as (g3 & Hg3 & Efr & Hcol & Hpages & Hlen & Hfree).
      apply (spec_update_gc _ _ _ _ g3 Hg3).
      assert (forall j, 0 <= j -> color g3 j = if bool_decide (j = i) then Some Black else color g j) as Hcol'.
      { intros j Hj. rewrite Hcol by done. destruct (heap_color _ _ _ _ _ _ Hheap2 Hz) as [c Ec]. change (color g i = Some c) in Ec. by rewrite Ec. }
      split; [| split; [| split; [| split]]]; try done.
      * destruct Hheap2 as [[H1' H2' H3' H4' H5' H6'] [Hp2 Hcur2]].
        split; [| split; [by apply Hpages | by rewrite Efr]]. split; try done.
        -- intros j Hj. rewrite Hcol' by done. destruct (decide (j = i)) as [-> | Hne].
           ++ rewrite bool_decide_eq_true_2 by done. split; [eauto | done].
           ++ rewrite bool_decide_eq_false_2 by done. by apply H2'.
        -- intros j Hj. cbn. rewrite Hfree by done. by apply H3'.
        -- cbn. by rewrite Hlen.
      * unfold work_inv. cbn. rewrite Efr. cbn. rewrite Hw. rewrite <- Efr.
        by eapply work_ok_black.
      * unfold cycle_inv. cbn. rewrite Efr. cbn. rewrite <- Efr.
        by eapply cycle_ok_black.
    + intros e vm2 Hm. exact Hm.
  - assert (work (gc vm) = []) as Hnil.
    { apply zget_None in Ho. pose proof (zlen_nonneg (work (gc vm))). by apply zlen_nil_inv; lia. }
    apply spec_modify_gc, gc_inv_transition; [done | |].
    + destruct Hinv as (_ & [Hnd Hgray Hwork _] & _). split; try done.
    + destruct Hinv as (_ & _ & [Hminor Hblack Hcursor Hpend Hroots Hstage Hearly Hreg] & _).
      assert (marking (phase (gc vm))) as Hmk by (rewrite Hphase; done). split; try done.
      * intros _. apply Hminor. congruence.
      * intros _ i s Hz Hb Hs. apply (Hblack ltac:(congruence) i s Hz Hb). destruct Hs as [? | Hs]; [done | by right].
      * intros _. by apply Hroots.
      * intros _. by apply Hreg.
Qed.

End Rounds.
