(* ===== verification/HeapProgress.v ===== *)
(** Progress of a cycle: marking turns white objects gray, and every white object that is
    lost is a gray one more in the work list. *)

From Stdlib Require Import ZArith Lia.
From stdpp Require Import base list numbers relations.
From S2P Require Import Prelude Float Number Table GcState GcBits ShortStrings Heap Barrier Collector HeapEdges HeapInv HeapMark HeapChange HeapRounds.

Local Open Scope Z_scope.

(** ** White slots *)

Definition whites (n : Z) (g : GcState) : Z := zlen (filter (fun i => color g i = Some White) (seqZ 0 n)).

Lemma whites_le n g g' : (forall i, 0 <= i -> color g' i = Some White -> color g i = Some White) -> whites n g' <= whites n g.
Proof.
  intros Hc. unfold whites, zlen. apply inj_le, NoDup_incl_length; [apply NoDup_ListNoDup, NoDup_filter, NoDup_seqZ |].
  intros i Hi. rewrite <- list_elem_of_In in Hi |- *. apply list_elem_of_filter in Hi as [Hw Hi]. apply list_elem_of_filter.
  split; [| done]. apply Hc; [apply elem_of_seqZ in Hi; lia | done].
Qed.

Section Whites.
Context `{Suspended} {slots : list Slot} {vm : VmId}.

Definition index_of (o : ObjectRef) : Z := match identity o with Some id => slot_index (oid_slot id) | None => -1 end.

Lemma index_of_checked o i s : checked_in slots vm o = Ok (i, s) -> index_of o = i.
Proof. intros (_ & _ & id & Hid & _ & Hi & _)%checked_in_spec. unfold index_of. by rewrite Hid. Qed.

Lemma checked_index_inj o o' i s s' : checked_in slots vm o = Ok (i, s) -> checked_in slots vm o' = Ok (i, s') -> o = o'.
Proof. intros (Hz & <- & _)%checked_in_spec (Hz' & <- & _)%checked_in_spec. congruence. Qed.

(** The new gray objects were white, each in a slot of its own. *)
Lemma marks_whites g g' : marks slots vm g g' ->
  whites (zlen slots) g' + zlen (work g') <= whites (zlen slots) g + zlen (work g) /\ zlen (work g) <= zlen (work g').
Proof.
  intros Hm. destruct (mk_work _ _ _ _ Hm) as (new & Hw & Hnd & Hin & _).
  rewrite Hw, zlen_app. pose proof (zlen_nonneg new). split; [| lia].
  assert (zlen new + whites (zlen slots) g' <= whites (zlen slots) g); [| lia].
  unfold whites. set (w' := filter _ (seqZ 0 (zlen slots))). set (w := filter (fun i => color g i = Some White) _).
  assert (length (map index_of new ++ w') <= length w)%nat as Hle.
  { apply NoDup_incl_length.
    - apply NoDup_ListNoDup, NoDup_app. split; [| split].
      + clear -Hnd Hin. assert (forall l, NoDup l -> (forall o, o ∈ l -> o ∈ new) -> NoDup (map index_of l)) as G; [| by apply G].
        intros l. induction l as [| o l IH]; intros Hnd' Hsub; [apply NoDup_nil_2 |].
        apply NoDup_cons in Hnd' as [Ho Hnd']. cbn. apply NoDup_cons. split; [| apply IH; [done |]; intros x Hx; apply Hsub; by right].
        intros Hi. apply list_elem_of_fmap in Hi as (x & Ex & Hx). apply Ho.
        destruct (proj1 (Hin o) (Hsub o ltac:(left))) as (i & s & Hc & _). destruct (proj1 (Hin x) (Hsub x ltac:(by right))) as (j & t & Hc' & _).
        rewrite (index_of_checked _ _ _ Hc), (index_of_checked _ _ _ Hc') in Ex. subst j. by rewrite (checked_index_inj _ _ _ _ _ Hc Hc').
      + intros i Hi Hw'. apply list_elem_of_fmap in Hi as (o & -> & Ho). apply Hin in Ho as (i & s & Hc & _ & Hg).
        rewrite (index_of_checked _ _ _ Hc) in Hw'. apply list_elem_of_filter in Hw' as [Hw' _]. congruence.
      + apply NoDup_filter, NoDup_seqZ.
    - intros i Hi. rewrite <- list_elem_of_In in Hi |- *. apply list_elem_of_filter.
      apply elem_of_app in Hi as [Hi | Hi].
      + apply list_elem_of_fmap in Hi as (o & -> & Ho). apply Hin in Ho as (i & s & Hc & Hwh & _).
        rewrite (index_of_checked _ _ _ Hc). split; [done |]. apply checked_in_spec in Hc as (Hz & _). apply zget_lt in Hz. apply elem_of_seqZ. lia.
      + apply list_elem_of_filter in Hi as [Hwh Hi]. split; [| done]. apply elem_of_seqZ in Hi as Hi'.
        destruct (mk_color _ _ _ _ Hm i ltac:(lia)) as [E | [E E']]; congruence. }
  rewrite length_app, length_map in Hle. unfold zlen. lia.
Qed.

(** Marking a white object makes the work list longer. *)
Lemma marks_grows g g' o i s : marks slots vm g g' -> checked_in slots vm o = Ok (i, s) ->
  color g i = Some White -> color g' i <> Some White -> zlen (work g) < zlen (work g').
Proof.
  intros Hm Hc Hw Hnw. destruct (mk_work _ _ _ _ Hm) as (new & Ew & _ & Hin & _). rewrite Ew, zlen_app.
  pose proof (checked_in_nonneg _ _ _ _ _ Hc) as Hi.
  assert (o ∈ new) as Ho.
  { apply Hin. exists i, s. destruct (mk_color _ _ _ _ Hm i Hi) as [E | [_ E]]; [congruence | done]. }
  destruct new as [| x new]; [by apply elem_of_nil in Ho |]. rewrite zlen_cons. pose proof (zlen_nonneg new). lia.
Qed.

End Whites.

Section Progress.
Context `{Suspended} {L : Type} `{HeapLedgerLaws L refused} `{Hasher}.
#[local] Set Default Proof Using "Type*".

Notation Vm := (Vm L).

(** What a part of a round leaves: no more white objects than before without as many gray
    ones more. *)
Definition progress (vm0 vm : Vm) : Prop :=
  gc_scan_end vm = gc_scan_end vm0 /\
  white_slots vm + zlen (work (gc vm)) <= white_slots vm0 + zlen (work (gc vm0)) /\
  zlen (work (gc vm0)) <= zlen (work (gc vm)).

Lemma progress_refl (vm : Vm) : progress vm vm.
Proof using Type. unfold progress. lia. Qed.

Lemma progress_trans (vm0 vm1 vm2 : Vm) : progress vm0 vm1 -> progress vm1 vm2 -> progress vm0 vm2.
Proof using Type. unfold progress. intros (E1 & H1' & H2') (E2 & H3' & H4'). split; [congruence |]. lia. Qed.

Lemma progress_marking (vm vm' : Vm) : marking_vm vm vm' -> progress vm vm'.
Proof using Type. intros (g & -> & Hm). split; [done |]. exact (marks_whites _ _ Hm). Qed.

(** A change that leaves colours, work list and slots alone. *)
Lemma progress_same (vm vm' : Vm) : gc_scan_end vm' = gc_scan_end vm -> zlen (slots vm') = zlen (slots vm) ->
  (forall i, color (gc vm') i = color (gc vm) i) -> work (gc vm') = work (gc vm) -> progress vm vm'.
Proof using Type.
  intros E1 E2 E3 E4. split; [done |]. rewrite E4. unfold white_slots. rewrite E2.
  assert (filter (fun i => color (gc vm') i = Some White) (seqZ 0 (zlen (slots vm))) =
    filter (fun i => color (gc vm) i = Some White) (seqZ 0 (zlen (slots vm)))) as ->; [| lia].
  apply list_filter_iff. intros i. by rewrite E3.
Qed.

End Progress.
