(* ===== verification/HeapAtomic.v ===== *)
(** The atomic phase keeps the invariant of the heap: ephemeron tables, the weak sweep,
    finalizers, the remembered set; and when it goes on to the sweep, no marked object
    refers to a white one. *)

From Stdlib Require Import ZArith Lia.
From stdpp Require Import base list numbers relations.
From S2P Require Import Prelude Float Number Table TableSpec TableSet TableEdges GcState GcBits ShortStrings Heap Barrier Collector HeapEdges HeapInv HeapMark HeapChange HeapRounds HeapProgress.

Local Open Scope Z_scope.

Section Atomic.
Context `{Suspended} {L : Type} `{HeapLedgerLaws L refused} `{Hasher}.
#[local] Set Default Proof Using "Type*".

Notation Vm := (Vm L).
Notation HeapM := (ST Vm VmError).

(** ** Loops over the occupied slots *)

Lemma occupied_from_spec g fuel cursor stop i : pages_ok g -> 0 <= cursor -> stop - cursor <= Z.of_nat fuel ->
  i ∈ occupied_from fuel g cursor stop <-> cursor <= i < stop /\ slot_bit occupied g i = true.
Proof using Type.
  intros Hp. revert cursor. induction fuel as [| fuel IH]; intros cursor Hc Hf; cbn [occupied_from].
  { rewrite elem_of_nil. split; [done | lia]. }
  pose proof (next_bit_spec g cursor stop false Hp Hc) as Hn. unfold next_occupied.
  destruct (next_bit g cursor stop false) as [j |]; cbn [scanned] in Hn.
  - destruct Hn as (Hj & Hbit & Hbefore). rewrite elem_of_cons, IH by lia. split.
    + intros [-> | [Hi Hb]]; [split; [lia | done] | split; [lia | done]].
    + intros [Hi Hb]. destruct (decide (i = j)) as [-> | Hne]; [by left | right]. split; [| done].
      destruct (decide (i < j)); [| lia]. rewrite Hbefore in Hb by lia. done.
  - rewrite elem_of_nil. split; [done |]. intros [Hi Hb]. rewrite Hn in Hb by lia. done.
Qed.

Lemma color_occupied g i : 0 <= i -> is_Some (color g i) <-> slot_bit occupied g i = true.
Proof using Type. intros Hi. rewrite color_bits by done. destruct (slot_bit occupied g i); [by split; eauto | by split; [intros [? ?] |]]. Qed.

Lemma occupied_indices_elem (vm : Vm) i : heap_inv vm ->
  i ∈ occupied_indices vm (gc_scan_end vm) <-> exists s, zget (slots vm) i = Some (Occupied s).
Proof using Type.
  intros [[Hself Hcol Hfree Hstop Htail Hpages] [Hp _]]. unfold occupied_indices. rewrite occupied_from_spec by (try done; lia).
  split.
  - intros [Hi Hb]. apply Hcol; [lia |]. apply color_occupied; [lia | done].
  - intros [s Hz]. apply zget_lt in Hz as Hi. split.
    + destruct (decide (i < gc_scan_end vm)); [lia |]. destruct (Htail i ltac:(lia)) as [gen Hz']. congruence.
    + apply color_occupied; [lia |]. apply Hcol; [lia | eauto].
Qed.

(** The loop reads the slots of its start; its body sees the state of its turn. *)
Lemma spec_for_occupied (vm : Vm) body (I : Vm -> Prop) : heap_inv vm -> I vm ->
  (forall i s, zget (slots vm) i = Some (Occupied s) -> keeps I (body i)) ->
  spec (for_occupied body) vm (fun _ vm' => I vm') (fun _ vm' => I vm').
Proof using Type.
  intros Hh HI Hbody. unfold for_occupied. apply spec_bind, spec_get. eapply keeps_spec; [| done].
  apply keeps_each. intros i Hi. apply occupied_indices_elem in Hi as [s Hz]; [| done]. eauto.
Qed.

Lemma establish_for_occupied (vm : Vm) body (I : Vm -> Prop) (P : Z -> Vm -> Prop) : heap_inv vm -> I vm ->
  (forall i s vm', zget (slots vm) i = Some (Occupied s) -> I vm' ->
     spec (body i) vm' (fun _ vm'' => I vm'' /\ P i vm'' /\ forall j, P j vm' -> P j vm'') (fun _ vm'' => I vm'')) ->
  spec (for_occupied body) vm
    (fun _ vm' => I vm' /\ forall i s, zget (slots vm) i = Some (Occupied s) -> P i vm') (fun _ vm' => I vm').
Proof using Type.
  intros Hh HI Hbody. unfold for_occupied. apply spec_bind, spec_get.
  eapply spec_weaken; [apply (each_establish I P) | | done].
  - intros i vm' Hi HI'. apply occupied_indices_elem in Hi as [s Hz]; [| done]. eauto.
  - done.
  - intros _ vm' [HI' Hall]. split; [done |]. intros i s Hz. apply Hall, occupied_indices_elem; eauto.
Qed.

Lemma occupied_slot_eq (vm : Vm) i s : zget (slots vm) i = Some (Occupied s) -> Collector.occupied_slot vm i = Ok (Some s).
Proof using Type. intros Hz. unfold Collector.occupied_slot, vget. by rewrite Hz. Qed.

(** ** Going back to propagation *)

Lemma gc_inv_phase (vm : Vm) p : gc_inv vm -> marking (phase (gc vm)) -> phase (gc vm) <> Sweep -> p = Propagate \/ p = Atomic ->
  gc_inv (with_gc vm (transition (gc vm) p)).
Proof using Type.
  intros Hinv Hm Hs Hp. destruct Hinv as (Hheap & Hwork & Hcycle & Hrest). apply gc_inv_transition; [done | |].
  - destruct Hwork as [Hnd Hgray Hwk _]. split; try done. destruct Hp as [-> | ->]; by intros [|].
  - destruct Hcycle as [Hminor Hblack Hcursor Hpend Hroots Hstage Hearly Hreg].
    assert (marking p /\ p <> Sweep /\ p <> RootMark) as (Hmp & Hsp & Hrp) by (destruct Hp as [-> | ->]; done).
    split; try done.
    + intros _. apply Hminor, Hm.
    + intros _ i s Hz Hb Hset. apply (Hblack (proj1 Hm) i s Hz Hb). destruct Hset as [? | Hset]; [done | by right].
    + by intros _; apply Hroots.
    + by intros _; apply Hreg.
Qed.

Lemma gc_inv_ephemeron_cursor (vm : Vm) n : 0 <= n -> gc_inv vm -> gc_inv (with_gc vm (with_ephemeron_cursor (gc vm) n)).
Proof using Type.
  intros Hn ([Hh [Hp [_ Hs]]] & Hrest). split; [| exact Hrest]. split; [exact Hh |]. by split.
Qed.

Lemma back_to_propagate_keeps (vm : Vm) : gc_inv vm -> phase (gc vm) = Atomic ->
  spec back_to_propagate vm (fun _ vm' => gc_inv vm') (fun _ vm' => gc_inv vm').
Proof using Type.
  intros Hinv Hp. apply spec_modify_gc.
  apply (gc_inv_phase (with_gc vm (with_ephemeron_cursor (gc vm) 0)) Propagate); [by apply gc_inv_ephemeron_cursor | | | by left];
    change (phase (gc (with_gc vm _))) with (phase (gc vm)); by rewrite Hp.
Qed.

Lemma marking_vm_phase_atomic (vm vm' : Vm) : marking_vm vm vm' -> phase (gc vm) = Atomic -> phase (gc vm') = Atomic.
Proof using Type. intros Hm Hp. rewrite (marking_vm_phase _ _ Hm); congruence. Qed.

(** ** Ephemeron tables *)

Lemma marks_last_key sl vm g g' key : marks sl vm g g' -> marks sl vm g (with_ephemeron_last_key g' key).
Proof using Type.
  intros [Hcol Hwork Hframe Hp Hl Hf]. split; try done. rewrite Hframe. done.
Qed.

Lemma ephemeron_pair_keeps sl vm stop g0 key value : heap_at vm sl stop g0 -> keeps (marks sl vm g0) (ephemeron_pair sl vm key value).
Proof using Type.
  intros Hh. assert (forall e (o : option ObjectId), keeps (marks sl vm g0) (ok_or e o)) as Hok.
  { intros e [id |]; [apply keeps_ret | apply keeps_fail]. }
  unfold ephemeron_pair. apply keeps_bind.
  - destruct key as [k |]; [| apply keeps_ret]. apply keeps_bind; [apply Hok | intros id].
    apply keeps_bind; [apply keeps_lift, gc_is_string_total | intros _]. apply keeps_bind; [apply keeps_get | intros g; apply keeps_ret].
  - intros live. apply keeps_if; [apply keeps_ret |]. apply keeps_bind; [apply Hok | intros id].
    apply keeps_bind; [apply keeps_get | intros g]. apply keeps_if; [| apply keeps_ret].
    apply keeps_bind; [by eapply keeps_mark | intros _]. apply keeps_read. intros g' Hg'. apply spec_put. by apply marks_last_key.
Qed.

Lemma visit_ephemeron_pairs_keeps {S} (I : S -> Prop) pair t : (forall k o, keeps I (pair k o)) -> keeps I (visit_ephemeron_pairs pair t).
Proof using Type.
  intros Hp. unfold visit_ephemeron_pairs. apply keeps_if; [apply keeps_ret |]. apply keeps_each.
  intros [[k v] |] _; [| apply keeps_ret]. destruct v; try apply keeps_ret. apply Hp.
Qed.

(** Marking runs keep the slots, so that an index of the start is still occupied. *)
Lemma marking_occupied (vm vm' : Vm) i s : marking_vm vm vm' -> zget (slots vm) i = Some (Occupied s) ->
  Collector.occupied_slot vm' i = Ok (Some s).
Proof using Type. intros [E _]%marking_vm_frame Hz. apply occupied_slot_eq. by rewrite E. Qed.

Lemma ephemeron_slot_keeps (vm : Vm) i s : heap_inv vm -> zget (slots vm) i = Some (Occupied s) ->
  keeps (marking_vm vm) (ephemeron_slot i).
Proof using Type.
  intros Hh Hz. apply keeps_read. intros vm' Hm. rewrite (marking_occupied _ _ _ _ Hm Hz). apply spec_bind, spec_lift; try done.
  intros o [= <-]. destruct (bool_decide _); [by apply spec_ret |]. destruct (payload (object s)); try by apply spec_ret.
  eapply keeps_spec; [| done]. destruct (marking_vm_frame _ _ Hm) as [-> ->]. apply keeps_on_gc.
  apply visit_ephemeron_pairs_keeps. intros k o. by eapply ephemeron_pair_keeps.
Qed.

(** ** Tracing the old objects again *)

(** No black object refers to a white one. *)
Definition black_ok (vm : Vm) : Prop :=
  forall i s, zget (slots vm) i = Some (Occupied s) -> color (gc vm) i = Some Black ->
  forall c, c ∈ strong_edges (string_in (slots vm) (vm_id vm)) (object s) -> marked_in vm c.

Lemma marking_vm_black (vm vm' : Vm) i : marking_vm vm vm' -> 0 <= i -> color (gc vm') i = Some Black -> color (gc vm) i = Some Black.
Proof using Type. intros (g & -> & Hm). by apply (marks_black _ _ _ _ _ Hm). Qed.

Lemma black_ok_marking (vm vm' : Vm) : marking_vm vm vm' -> black_ok vm -> black_ok vm'.
Proof using Type.
  intros Hm Hb i s Hz Hc c Hin. destruct (marking_vm_frame _ _ Hm) as [E1 E2]. rewrite E1, E2 in *.
  apply (marking_vm_marked _ _ _ Hm). apply (Hb i s Hz); [| done].
  apply (marking_vm_black _ _ _ Hm); [apply zget_lt in Hz; lia | done].
Qed.

Lemma black_ok_full (vm : Vm) : gc_inv vm -> phase (gc vm) <> Pause -> cycle (gc vm) <> Minor -> black_ok vm.
Proof using Type.
  intros (_ & _ & Hc & _) Hp Hm i s Hz Hb. apply (co_black _ _ _ _ _ _ _ _ _ _ Hc Hp i s Hz Hb). right. tauto.
Qed.

Lemma retrace_old_spec (vm0 : Vm) : gc_inv vm0 -> phase (gc vm0) = Atomic ->
  spec (for_occupied retrace_old) vm0 (fun _ vm => marking_vm vm0 vm /\ black_ok vm) (fun _ vm => marking_vm vm0 vm).
Proof using Type.
  intros Hinv Hp. pose proof (gc_inv_heap _ Hinv) as Hh.
  set (P i (vm : Vm) := marking_vm vm0 vm -> forall s, zget (slots vm0) i = Some (Occupied s) -> age s = Old ->
    color (gc vm) i = Some Black -> forall c, c ∈ strong_edges (string_in (slots vm0) (vm_id vm0)) (object s) -> marked_in vm c).
  eapply spec_weaken; [apply (establish_for_occupied _ _ (marking_vm vm0) P); [done | apply marking_vm_refl |] | | done].
  - intros i s vm Hz Hm. unfold retrace_old. apply spec_bind, spec_get. rewrite (marking_occupied _ _ _ _ Hm Hz).
    apply spec_bind, spec_lift; try done. intros o [= <-].
    assert (forall j vm', marking_vm vm vm' -> P j vm -> P j vm') as Hmono.
    { intros j vm' Hm' HP Hm0 t Hzj Hold Hb c Hin. apply (marking_vm_marked _ _ _ Hm'). apply (HP Hm t Hzj Hold); [| done].
      apply (marking_vm_black _ _ _ Hm'); [apply zget_lt in Hzj; lia | done]. }
    case_bool_decide as Hold; cbn [andb].
    2: { apply spec_ret. split; [done |]. split; [| auto]. intros _ t Hzt Ht. congruence. }
    case_bool_decide as Hw; cbn [negb].
    { apply spec_ret. split; [done |]. split; [| auto]. intros _ t _ _ Hb. congruence. }
    destruct (marking_vm_frame _ _ Hm) as [E1 E2]. pose proof (marking_vm_heap _ _ Hh Hm) as Hh'.
    eapply spec_weaken; [apply trace_gc_object_spec; [done |] | |].
    + by rewrite (marking_vm_phase_atomic _ _ Hm Hp).
    + intros _ vm' (Hm' & _ & Hedges). split; [by eapply marking_vm_trans |]. split; [| intros j; by apply Hmono].
      intros _ t Hzt _ _ c Hin. rewrite Hz in Hzt. injection Hzt as <-.
      rewrite E1, E2 in Hedges. apply (Hedges i s); [| done].
      unfold checked_slot. rewrite E1, E2. by apply (inv_self _ Hh).
    + intros e vm' Hm'. by eapply marking_vm_trans.
  - intros _ vm [Hm Hall]. split; [done |]. intros i s Hz Hb c Hin.
    destruct (marking_vm_frame _ _ Hm) as [E1 E2]. rewrite E1, E2 in *.
    destruct (decide (age s = Old)) as [Hold | Hyoung]; [by apply (Hall i s Hz Hm s) |].
    pose proof (gc_inv_marking _ _ Hinv Hm) as (_ & _ & Hc & _).
    apply (co_black _ _ _ _ _ _ _ _ _ _ Hc) with i s; rewrite ?E1, ?E2; try done.
    + by rewrite (marking_vm_phase_atomic _ _ Hm Hp).
    + right. tauto.
Qed.

(** ** Clearing weak pairs *)

Lemma identified_total (vm : Vm) o : total (identified vm o).
Proof using Type. intros k. unfold identified. destruct (identity o); [| done]. by destruct (bool_decide _). Qed.

Lemma checked_beside_total (vm : Vm) i o id : total (checked_beside vm i o id).
Proof using Type. intros k. unfold checked_beside. destruct (split_slot _ _ _) as [[] |]; try done. by destruct (_ && _). Qed.

Lemma weak_is_dead_total (vm : Vm) i owner o : total (weak_is_dead vm i owner o).
Proof using Type.
  unfold weak_is_dead. apply total_bind; [apply identified_total | intros id _]. destruct (bool_decide _); [done |].
  apply total_bind; [apply checked_beside_total | intros s _]. by destruct (payload (object s)).
Qed.

Lemma weak_is_live_key_total (vm : Vm) i owner o : total (weak_is_live_key vm i owner o).
Proof using Type.
  unfold weak_is_live_key. apply total_bind; [apply identified_total | intros id _].
  apply total_bind; [| intros j _; by destruct (color _ j)]. destruct (bool_decide _); [done |].
  apply total_bind; [apply checked_beside_total | intros s _; done].
Qed.

(** What the atomic phase keeps while it goes on: the same objects in the same slots, and
    the invariant with no black object that refers to a white one. *)
Record at_atomic (vm0 vm : Vm) : Prop := {
  aa_inv : gc_inv vm;
  aa_black : black_ok vm;
  aa_phase : phase (gc vm) = Atomic;
  aa_stage : atomic_finalizer_stage (gc vm) = atomic_finalizer_stage (gc vm0);
  aa_slots : reslot (fun _ _ _ => True) (slots vm0) (slots vm);
  aa_progress : progress vm0 vm
}.

Lemma at_atomic_refl (vm : Vm) : gc_inv vm -> black_ok vm -> phase (gc vm) = Atomic -> at_atomic vm vm.
Proof using Type. intros Hi Hb Hp. split; try done. by apply reslot_refl. Qed.

Lemma at_atomic_marking (vm0 vm vm' : Vm) : at_atomic vm0 vm -> marking_vm vm vm' -> at_atomic vm0 vm'.
Proof using Type.
  intros [Hi Hb Hp Hst Hs Hpr] Hm. split.
  - by eapply gc_inv_marking.
  - by eapply black_ok_marking.
  - by eapply marking_vm_phase_atomic.
  - by destruct (marking_vm_fields _ _ Hm) as (_ & _ & -> & _).
  - by destruct (marking_vm_frame _ _ Hm) as [-> _].
  - eapply progress_trans; [exact Hpr | by apply progress_marking].
Qed.

Lemma at_atomic_trans (vm0 vm1 vm2 : Vm) : at_atomic vm0 vm1 -> at_atomic vm1 vm2 -> at_atomic vm0 vm2.
Proof using Type.
  intros [_ _ _ S1 R1 P1] [Hi Hb Hp S2 R2 P2]. split; try done; [congruence | | by eapply progress_trans].
  by eapply reslot_trans; [| exact R1 | exact R2].
Qed.

Lemma at_atomic_occupied (vm0 vm : Vm) i s0 : at_atomic vm0 vm -> zget (slots vm0) i = Some (Occupied s0) ->
  exists s, zget (slots vm) i = Some (Occupied s).
Proof using Type. intros Ha Hz. destruct (reslot_occupied (aa_slots _ _ Ha) _ _ Hz) as (s & Hz' & _). eauto. Qed.

Lemma at_atomic_ledger (vm0 vm : Vm) l : at_atomic vm0 vm -> at_atomic vm0 (with_ledger vm l).
Proof using Type. intros [Hi Hb Hp Hst Hs Hpr]. split; done. Qed.

(** An object that loses references, or its registration. *)
Lemma at_atomic_lessened (vm0 vm : Vm) slots' : at_atomic vm0 vm ->
  reslot (fun _ => lessened (slots vm) (vm_id vm)) (slots vm) slots' -> at_atomic vm0 (with_slots vm slots').
Proof using Type.
  intros [Hi Hb Hp Hst Hs Hpr] Hre.
  assert (reslot (vm_changed vm) (slots vm) slots') as Hch.
  { eapply reslot_weaken; [| exact Hre]. intros i s s' _ _ Hl. by apply lessened_changed. }
  split; try done.
  - by apply gc_inv_changed.
  - intros i s' Hz' Hc c Hin. cbn in Hz', Hin. destruct (changed_edges Hch _ _ _ Hz' Hin) as (s & Hz & _ & Hin').
    apply (marked_reslot Hch). apply (Hb i s Hz Hc). destruct (reslot_occupied Hre _ _ Hz) as (s1 & Hz1 & _ & _ & Hl).
    rewrite Hz' in Hz1. injection Hz1 as <-. by apply (le_strong _ _ _ _ Hl).
  - eapply reslot_trans; [| exact Hs | exact Hre]. done.
  - eapply progress_trans; [exact Hpr |]. apply progress_same; try done. by destruct Hre.
Qed.

Lemma lessened_table sl vm s t t' : payload (object s) = PTable t -> lesser t t' ->
  lessened sl vm s (with_payload s (PTable t')).
Proof using Type.
  intros Hp Hl. split; try done.
  - unfold keeps_kind. by rewrite Hp.
  - intros c. unfold strong_edges. rewrite Hp. cbn. rewrite !elem_of_app. intros [Hc |]; [left | by right].
    by apply (lesser_strong _ _ _ Hl).
  - intros c. unfold held_edges. rewrite Hp. cbn. rewrite !elem_of_app. intros [Hc |]; [left | by right].
    by apply (lesser_held _ _ Hl).
Qed.

Lemma clear_weak_slot_keeps (vm0 : Vm) values keys i s0 : zget (slots vm0) i = Some (Occupied s0) ->
  keeps (fun vm => at_atomic vm0 vm /\ work (gc vm) = work (gc vm0)) (clear_weak_slot values keys i).
Proof.
  intros Hz0. apply keeps_read. intros vm [Ha Hw]. destruct (at_atomic_occupied _ _ _ _ Ha Hz0) as [s Hz].
  rewrite (occupied_slot_eq _ _ _ Hz). apply spec_bind, spec_lift; try done. intros o [= <-].
  destruct (payload (object s)) as [| | t | | | | | | | |] eqn:Hp; try (apply spec_ret; done).
  pose proof (clear_dead_weak_pairs_lesser (weak_is_dead vm i (reference s)) (weak_is_live_key vm i (reference s)) values keys
    (weak_is_dead_total vm i _) (weak_is_live_key_total vm i _) t (ledger vm)) as Hcl.
  destruct (Table.clear_dead_weak_pairs _ _ _ _ _ _) as [[r t'] l]. destruct Hcl as [Hr Hl].
  apply spec_bind, spec_put. set (vm1 := with_ledger _ l).
  assert (at_atomic vm0 vm1) as Ha1.
  { apply at_atomic_ledger, at_atomic_lessened; [done |]. apply (reslot_insert _ _ _ s); try done.
    by eapply lessened_table. }
  apply spec_bind, spec_lift; [done | | intros e _; done]. intros cleared _. apply spec_modify_gc. split; [| done].
  destruct Ha1 as [H1' H2' H3' H4' H5' H6']. split; done.
Qed.

Lemma clear_weak_pairs_spec (vm0 : Vm) values keys : at_atomic vm0 vm0 ->
  spec (clear_weak_pairs values keys) vm0
    (fun _ vm => at_atomic vm0 vm /\ work (gc vm) = work (gc vm0)) (fun _ vm => gc_inv vm).
Proof.
  intros Ha. eapply spec_weaken; [apply (spec_for_occupied _ _ (fun vm => at_atomic vm0 vm /\ work (gc vm) = work (gc vm0))) | |].
  - apply gc_inv_heap, (aa_inv _ _ Ha).
  - done.
  - intros i s Hz. by eapply clear_weak_slot_keeps.
  - done.
  - intros e vm [Ha' _]. apply (aa_inv _ _ Ha').
Qed.

(** ** Keys that are strings *)

Lemma visit_live_weak_string_keys_keeps {S} (I : S -> Prop) visit t : (forall o, keeps I (visit o)) -> keeps I (visit_live_weak_string_keys visit t).
Proof using Type.
  intros Hp. unfold visit_live_weak_string_keys. apply keeps_if; [apply keeps_ret |]. apply keeps_each.
  intros [[k v] |] _; [| apply keeps_ret]. apply keeps_if; [| apply keeps_ret]. destruct (source_object k); [apply Hp | apply keeps_ret].
Qed.

Lemma keeps_ok_or {S A} (I : S -> Prop) e (o : option A) : keeps I (ok_or e o).
Proof using Type. destruct o; [apply keeps_ret | apply keeps_fail]. Qed.

Lemma mark_live_weak_string_keys_spec (vm0 : Vm) : heap_inv vm0 ->
  spec mark_live_weak_string_keys vm0 (fun _ vm => marking_vm vm0 vm) (fun _ vm => marking_vm vm0 vm).
Proof using Type.
  intros Hh. apply spec_for_occupied; [done | apply marking_vm_refl |]. intros i s Hz.
  apply keeps_read. intros vm Hm. rewrite (marking_occupied _ _ _ _ Hm Hz). apply spec_bind, spec_lift; try done.
  intros o [= <-]. eapply keeps_spec; [| done]. apply keeps_bind; [apply keeps_ok_or | intros c].
  apply keeps_if; [apply keeps_ret |]. destruct (payload (object s)); try apply keeps_ret.
  destruct (marking_vm_frame _ _ Hm) as [-> ->]. apply keeps_on_gc.
  apply visit_live_weak_string_keys_keeps. intros o. by eapply keeps_mark.
Qed.

End Atomic.
