(* ===== verification/HeapFinish.v ===== *)
(** The end of the atomic phase: separating the dead objects with finalizers, the
    remembered set, and the way to the sweep. *)

From Stdlib Require Import ZArith Lia.
From stdpp Require Import base list numbers relations sorting.
From S2P Require Import Prelude Float Number Table TableSpec TableSet TableEdges GcState GcBits ShortStrings Heap Barrier Collector HeapEdges HeapInv HeapMark HeapChange HeapRounds HeapProgress HeapAtomic.

Local Open Scope Z_scope.

Section Finish.
Context `{Suspended} {L : Type} `{HeapLedgerLaws L refused} `{Hasher}.
#[local] Set Default Proof Using "Type*".

Notation Vm := (Vm L).
Notation HeapM := (ST Vm VmError).

(** ** Separation *)

Lemma spec_update_slot e i (f : OccupiedSlot -> OccupiedSlot) (vm : Vm) s (Q : unit -> Vm -> Prop) R :
  zget (slots vm) i = Some (Occupied s) -> Q tt (with_slots vm (zinsert (slots vm) i (Occupied (f s)))) ->
  spec (update_slot e i f) vm Q R.
Proof using Type.
  intros Hz HQ. unfold update_slot. apply spec_bind, spec_get. unfold vget. rewrite Hz. exact HQ.
Qed.

(** The objects that are registered are marked; [i] ranges over their slots. *)
Definition registered_marked (i : Z) (vm : Vm) : Prop :=
  forall s, zget (slots vm) i = Some (Occupied s) -> finalizer s = Registered -> color (gc vm) i <> Some White.

Lemma registered_marked_marking (vm vm' : Vm) i : marking_vm vm vm' -> registered_marked i vm -> registered_marked i vm'.
Proof using Type.
  intros (g & -> & Hm) Hr s Hz Hf. cbn in *. apply (marks_nonwhite _ _ _ _ _ Hm); [apply zget_lt in Hz; lia | by eapply Hr].
Qed.

Lemma lessened_finalizer sl vm s f : f <> Registered -> lessened sl vm s (with_finalizer s f).
Proof using Type. by split. Qed.

Lemma separate_slot_spec (vm0 vm : Vm) i s0 : at_atomic vm0 vm -> zget (slots vm0) i = Some (Occupied s0) ->
  spec (separate_slot i) vm
    (fun _ vm' => at_atomic vm0 vm' /\ registered_marked i vm' /\ forall j, registered_marked j vm -> registered_marked j vm')
    (fun _ vm' => at_atomic vm0 vm').
Proof.
  intros Ha Hz0. destruct (at_atomic_occupied _ _ _ _ Ha Hz0) as [s Hz]. unfold separate_slot.
  apply spec_bind, spec_get. rewrite (occupied_slot_eq _ _ _ Hz). apply spec_bind, spec_lift; try done. intros o [= <-].
  pose proof (gc_inv_heap _ (aa_inv _ _ Ha)) as Hh. unfold finalizer_candidate. rewrite Hz.
  destruct (decide (finalizer s = Registered)) as [Hf | Hf].
  2: { rewrite (bool_decide_eq_false_2 (finalizer s = _)) by done. apply spec_ret. split; [done |]. split; [| auto].
       intros t Hzt Hft. congruence. }
  rewrite (bool_decide_eq_true_2 (finalizer s = _)) by done. cbn [andb].
  case_bool_decide as Hw.
  2: { apply spec_ret. split; [done |]. split; [| auto]. intros t Hzt _ Hc. by rewrite Hc in Hw. }
  assert (intact (slots vm) (vm_id vm) (reference s)) as Hintact.
  { destruct (aa_inv _ _ Ha) as (_ & _ & _ & Hanch & _). apply Hanch. right. eauto. }
  eapply spec_seq; [by apply mark_gc_object_spec | | by intros e vm' ->].
  intros _ vm1 [Hm Hmk]. specialize (Hmk ltac:(by rewrite (aa_phase _ _ Ha))).
  destruct (marking_vm_frame _ _ Hm) as [E1 E2]. pose proof (at_atomic_marking _ _ _ Ha Hm) as Ha1.
  apply spec_bind. eapply spec_update_slot; [by rewrite E1 |]. apply spec_modify.
  set (vm2 := with_slots vm1 _). set (vm3 := with_finalizer_queue vm2 _).
  assert (reslot (fun _ => lessened (slots vm1) (vm_id vm1)) (slots vm1) (slots vm2)) as Hre.
  { eapply reslot_insert; [intros; apply lessened_refl | by rewrite E1 | done | done | by apply lessened_finalizer]. }
  pose proof (at_atomic_lessened _ _ _ Ha1 Hre) as Ha2. fold vm2 in Ha2.
  assert (reslot (vm_changed vm1) (slots vm1) (slots vm2)) as Hch.
  { eapply reslot_weaken; [| exact Hre]. intros j t t' _ _ Hl. by apply lessened_changed. }
  assert (at_atomic vm0 vm3) as Ha3.
  { destruct Ha2 as [Hi2 Hb2 Hp2 Hs2 Hr2 Hpr2]. split; try done. apply (gc_inv_roots vm2); try done; [| by apply (gc_inv_ids vm2)]. intros r.
    unfold root_list. cbn. rewrite map_app, !elem_of_app. cbn. rewrite list_elem_of_singleton.
    intros [Hr | [Hr | ->]]; [left; by left | left; by right | right]. split.
    - apply (changed_intact Hch). by rewrite E1, E2.
    - intros _. by apply (marked_reslot Hch). }
  assert (forall t, zget (slots vm3) i = Some (Occupied t) -> finalizer t = Registered -> False) as Hno.
  { intros t Hzt Hft. cbn in Hzt. rewrite E1 in Hzt. rewrite zget_zinsert_eq in Hzt by by apply zget_lt in Hz.
    injection Hzt as <-. done. }
  split; [done |]. split; [intros t Hzt Hft; by destruct (Hno t Hzt Hft) |].
  intros j Hj t Hzt Hft. destruct (decide (j = i)) as [-> | Hne]; [by destruct (Hno t Hzt Hft) |].
  cbn in Hzt. rewrite zget_zinsert_ne in Hzt by (try congruence; apply zget_lt in Hz; lia).
  exact (registered_marked_marking _ _ _ Hm Hj t Hzt Hft).
Qed.

Lemma at_atomic_queue (vm0 vm : Vm) q : (forall e, e ∈ q -> e ∈ finalizer_queue vm) -> at_atomic vm0 vm -> at_atomic vm0 (with_finalizer_queue vm q).
Proof using Type.
  intros Hq [Hi Hb Hp Hs Hr Hpr]. split; try done. apply (gc_inv_roots vm); try done; [| by apply (gc_inv_ids vm)]. intros r. unfold root_list. cbn.
  rewrite !elem_of_app. intros [Hin | Hin]; left; [by left | right].
  apply list_elem_of_fmap in Hin as (e & -> & He). apply list_elem_of_fmap. eauto.
Qed.

Lemma separate_dead_finalizers_spec (vm0 : Vm) : at_atomic vm0 vm0 ->
  spec separate_dead_finalizers vm0
    (fun _ vm => at_atomic vm0 vm /\ forall i, registered_marked i vm) (fun _ vm => gc_inv vm).
Proof.
  intros Ha. unfold separate_dead_finalizers. eapply spec_seq.
  - apply (establish_for_occupied _ _ (at_atomic vm0) registered_marked); [apply gc_inv_heap, (aa_inv _ _ Ha) | done |].
    intros i s vm Hz Ha'. by eapply separate_slot_spec.
  - intros _ vm [Ha' Hall]. apply spec_modify. split.
    + apply at_atomic_queue; [| done]. intros e. unfold sort_queue. by rewrite merge_sort_Permutation.
    + intros i s Hz Hf. destruct (reslot_occupied_inv (aa_slots _ _ Ha') _ _ Hz) as (s0 & Hz0 & _). exact (Hall i s0 Hz0 s Hz Hf).
  - intros e vm Ha'. apply (aa_inv _ _ Ha').
Qed.

(** ** Requests of the atomic phase *)

(** A part of the atomic phase that leaves objects, colours and work list alone. *)
Definition quiet (vm0 vm : Vm) : Prop := at_atomic vm0 vm /\ work (gc vm) = work (gc vm0).

Lemma keeps_quiet_ledger (vm0 : Vm) {A} (m : ST L VmError A) : returns m -> keeps (quiet vm0) (on_ledger m).
Proof using Type. intros Hm. apply keeps_on_ledger; [| done]. intros vm l [Ha Hw]. split; [by apply at_atomic_ledger | done]. Qed.

Lemma reserve_finalizer_candidates_spec (vm0 : Vm) : keeps (quiet vm0) reserve_finalizer_candidates.
Proof.
  apply keeps_read. intros vm Hq. eapply keeps_spec; [| done]. apply keeps_if; [apply keeps_ret |].
  apply keeps_bind; [apply keeps_checked_bytes | intros charge].
  apply keeps_bind; [apply keeps_checked_add | intros next].
  apply keeps_bind; [apply keeps_quiet_ledger | intros _].
  - apply returns_bind; [apply returns_reserve_charges | intros _].
    apply returns_bind; [apply returns_reserve_vec | intros _]. apply returns_commit.
  - intros vm1 [[H1' H2' H3' H4' H5' H6'] Hw]. by apply spec_modify.
Qed.

(** ** The remembered set *)

Lemma future_gc_age_total (vm : Vm) i : total (future_gc_age_at vm i).
Proof using Type.
  unfold future_gc_age_at. destruct (zget _ _) as [[s | |] |]; try done. destruct (_ && _); [done |].
  destruct (color _ _) as [[] |]; try done; by destruct (_ || _).
Qed.

Lemma old_owner_child_visits (vm : Vm) o :
  visits (fun _ => True) (fun _ _ => True) [o] (old_owner_child vm o).
Proof using Type.
  assert (returns (old_owner_child vm o)) as Hr.
  { unfold old_owner_child. apply keeps_bind; [apply keeps_lift, checked_in_total | intros found].
    apply keeps_bind; [apply keeps_lift, future_gc_age_total | intros future].
    apply keeps_read. intros acc _. by destruct future as [[] |]. }
  intros acc _. by eapply spec_weaken; [apply Hr | |].
Qed.

Lemma old_owner_total (vm : Vm) i s : zget (slots vm) i = Some (Occupied s) -> total (old_owner_has_young_child vm i).
Proof using Type.
  intros Hz k. unfold old_owner_has_young_child. rewrite (occupied_slot_eq _ _ _ Hz). cbn.
  pose proof (trace_object_visits _ _ _ (old_owner_child_visits vm) (object s) (false, None) Logic.I) as Ht. unfold spec in Ht.
  by destruct (trace_object _ _ _) as [[[] | e | k'] acc].
Qed.

Definition all_occupied (vm : Vm) (indices : list Z) : Prop := forall i, i ∈ indices -> exists s, zget (slots vm) i = Some (Occupied s).

Lemma count_remembered_total (vm : Vm) indices n : all_occupied vm indices -> total (count_remembered vm indices n).
Proof using Type.
  revert n. induction indices as [| i indices IH]; intros n Hall; cbn; [done |].
  assert (all_occupied vm indices) as Hall' by (intros j Hj; apply Hall; by right).
  destruct (Hall i ltac:(left)) as [s Hz]. apply total_bind; [apply future_gc_age_total | intros future _].
  destruct (negb _); [by apply IH |]. apply total_bind; [by eapply old_owner_total | intros found _].
  destruct found.2; [done | by apply IH].
Qed.

Lemma collect_remembered_total (vm : Vm) indices next : all_occupied vm indices -> total (collect_remembered vm indices next).
Proof using Type.
  revert next. induction indices as [| i indices IH]; intros next Hall; cbn; [done |].
  assert (all_occupied vm indices) as Hall' by (intros j Hj; apply Hall; by right).
  destruct (Hall i ltac:(left)) as [s Hz]. apply total_bind; [apply future_gc_age_total | intros future _].
  destruct (negb _); [by apply IH |]. apply total_bind; [by eapply old_owner_total | intros found _].
  destruct found.1; [| by apply IH]. rewrite (occupied_slot_eq _ _ _ Hz). cbn. by apply IH.
Qed.

Lemma occupied_indices_all (vm : Vm) : heap_inv vm -> all_occupied vm (occupied_indices vm (gc_scan_end vm)).
Proof using Type. intros Hh i Hi. by apply occupied_indices_elem. Qed.

(** A child that stops the count is white. *)
Definition white_in (vm : Vm) (o : ObjectRef) : Prop := exists i s, checked_slot vm o = Ok (i, s) /\ color (gc vm) i = Some White.

Lemma old_owner_child_white (vm : Vm) o :
  visits (fun acc => forall c, acc.2 = Some c -> white_in vm c) (fun _ _ => True) [o] (old_owner_child vm o).
Proof using Type.
  intros acc Hacc. unfold old_owner_child.
  apply spec_bind, spec_lift; [apply checked_in_total | intros [i s] Hc | by intros; split].
  apply spec_bind, spec_lift; [apply future_gc_age_total | intros future Hf | by intros; split].
  apply spec_bind, spec_get.
  destruct future as [[] |]; try by apply spec_put.
  { by apply spec_ret. }
  apply spec_put. split; [| done]. intros c [= <-]. exists i, s. split; [done |].
  apply checked_in_spec in Hc as (Hz & _). unfold future_gc_age_at in Hf. cbn [fst] in Hf. rewrite Hz in Hf.
  destruct (_ && _); [done |]. destruct (color (gc vm) i) as [[] |]; try done; by destruct (_ || _).
Qed.

Lemma count_remembered_white (vm : Vm) indices n child : count_remembered vm indices n = Ok (inr child) -> white_in vm child.
Proof using Type.
  revert n. induction indices as [| i indices IH]; intros n; cbn; [done |]. intros Hr.
  apply res_bind_Ok in Hr as (future & _ & Hr). destruct (negb _); [by eapply IH |].
  apply res_bind_Ok in Hr as (found & Hf & Hr). destruct found.2 as [c |] eqn:E; [| by eapply IH]. injection Hr as <-.
  unfold old_owner_has_young_child in Hf. apply res_bind_Ok in Hf as (s & _ & Hf).
  destruct s as [s |]; [| by injection Hf as <-].
  pose proof (trace_object_visits _ _ _ (old_owner_child_white vm) (object s) (false, None) ltac:(done)) as Ht. unfold spec in Ht.
  destruct (trace_object _ _ _) as [[[] | e | k'] acc]; try done. injection Hf as <-. destruct Ht as [Ht _]. by apply Ht.
Qed.

Lemma rebuild_remembered_set_spec (vm0 : Vm) : at_atomic vm0 vm0 ->
  spec rebuild_remembered_set vm0
    (fun complete vm => at_atomic vm0 vm /\ if complete : bool then work (gc vm) = work (gc vm0) else work (gc vm) <> [])
    (fun _ vm => gc_inv vm).
Proof.
  intros Ha. pose proof (gc_inv_heap _ (aa_inv _ _ Ha)) as Hh. pose proof (occupied_indices_all _ Hh) as Hall.
  unfold rebuild_remembered_set. apply spec_bind, spec_get.
  apply spec_bind, spec_lift; [by apply count_remembered_total | | intros e _; apply (aa_inv _ _ Ha)].
  intros [count | child] Hcount.
  2: { eapply spec_seq; [by apply mark_gc_object_spec | | intros e vm ->; apply (aa_inv _ _ Ha)].
       intros _ vm [Hm Hmk]. apply spec_ret. split; [by eapply at_atomic_marking |].
       apply count_remembered_white in Hcount as (i & s & Hc & Hw).
       destruct (Hmk ltac:(by rewrite (aa_phase _ _ Ha))) as (j & t & Hc' & Hnw). destruct Hm as (g & -> & Hm).
       destruct (checked_in_fun _ _ _ _ _ _ _ Hc Hc') as [<- _]. pose proof (marks_grows _ _ _ _ _ Hm Hc Hw Hnw) as Hlt.
       cbn. intros E. rewrite E in Hlt. pose proof (zlen_nonneg (work (gc vm0))). change (zlen []) with 0 in Hlt. lia. }
  set (Q := fun (complete : bool) vm => at_atomic vm0 vm /\ if complete : bool then work (gc vm) = work (gc vm0) else work (gc vm) <> []).
  assert (forall A (m : HeapM A) (f : A -> HeapM bool) vm, keeps (quiet vm0) m -> quiet vm0 vm ->
    (forall a vm', quiet vm0 vm' -> spec (f a) vm' Q (fun _ => gc_inv)) -> spec (m ≫= f) vm Q (fun _ => gc_inv)) as Hstep.
  { intros A m f vm Hm Hvm Hf. eapply spec_seq; [by apply (keeps_spec (quiet vm0)) | done |]. intros e vm' [Ha' _]. apply (aa_inv _ _ Ha'). }
  assert (quiet vm0 vm0) as Hq by by split.
  assert (forall f, (forall g, color (f g) = color g /\ work (f g) = work g) ->
    (forall vm, at_atomic vm0 vm -> at_atomic vm0 (with_gc vm (f (gc vm)))) -> keeps (quiet vm0) (modify_gc f)) as Hmod.
  { intros f Hf Hat vm [Ha' Hw]. apply spec_modify_gc. split; [by apply Hat |]. cbn. by rewrite (proj2 (Hf _)). }
  destruct (count =? 0).
  - apply Hstep; [| done | intros _ vm' [Ha' Hw]; by apply spec_ret]. by apply Hmod; [| intros vm [H1' H2' H3' H4' H5' H6']].
  - apply Hstep; [apply keeps_checked_bytes | done |]. intros bytes vm1 Hq1.
    apply Hstep; [| done |].
    { apply keeps_if; apply keeps_quiet_ledger.
      - apply returns_bind; [apply returns_reserve_charges | intros _].
        apply returns_bind; [apply returns_reserve_vec | intros _; apply keeps_ret].
      - apply returns_bind; [apply returns_checkpoint | intros _].
        apply returns_bind; [apply returns_try_reserve | intros _; apply keeps_ret]. }
    intros _ vm2 Hq2. apply Hstep; [by apply keeps_lift, collect_remembered_total | done |]. intros next vm3 Hq3.
    apply Hstep; [apply keeps_if; apply keeps_quiet_ledger; [apply returns_commit | apply returns_normalize] | done |].
    intros _ vm4 Hq4. apply Hstep; [| done | intros _ vm' [Ha' Hw]; by apply spec_ret].
    by apply Hmod; [| intros vm [H1' H2' H3' H4' H5' H6']].
Qed.

(** ** To the sweep *)

(** A part of [finish_atomic]: whether there is more to propagate. *)
Definition goes_on (vm0 : Vm) (stage_ok : AtomicFinalizerStage -> Prop) (more : bool) (vm : Vm) : Prop :=
  gc_inv vm /\ phase (gc vm) = Atomic /\ progress vm0 vm /\ (more = true -> work (gc vm) <> []) /\
  (more = false -> black_ok vm /\ work (gc vm) = [] /\ stage_ok (atomic_finalizer_stage (gc vm))).

Lemma gc_inv_stage (vm : Vm) st : gc_inv vm -> phase (gc vm) = Atomic ->
  (st = AfterSeparation -> forall i, registered_marked i vm) ->
  gc_inv (with_gc vm (with_atomic_finalizer_stage (gc vm) st)).
Proof using Type.
  intros (Hheap & Hwork & Hcycle & Hrest) Hp Hst. split; [| split; [| split]]; try done.
  destruct Hcycle as [Hminor Hblack Hcursor Hpend Hroots Hstage Hearly Hreg]. split; try done; intros Hp'; cbn in Hp'; congruence.
Qed.

Lemma work_left_false (vm : Vm) : work_left vm = false <-> work (gc vm) = [].
Proof using Type.
  unfold work_left. rewrite negb_false_iff, Z.eqb_eq. split; [intros E; apply zlen_nil_inv; lia | by intros ->].
Qed.

Lemma work_left_true (vm : Vm) : work_left vm = true -> work (gc vm) <> [].
Proof using Type. intros Hw E. by rewrite (proj2 (work_left_false vm) E) in Hw. Qed.

Lemma weak_values_stage_spec (vm0 : Vm) : at_atomic vm0 vm0 -> work (gc vm0) = [] ->
  spec weak_values_stage vm0 (fun more vm => goes_on vm0 (fun st => st <> BeforeWeakValues) more vm) (fun _ vm => gc_inv vm).
Proof.
  intros Ha Hw. unfold weak_values_stage. apply spec_bind, spec_get. case_bool_decide as Hst; cbn [negb].
  2: { apply spec_ret. split; [apply (aa_inv _ _ Ha) |]. split; [apply (aa_phase _ _ Ha) |].
       split; [apply progress_refl |]. split; [done |]. intros _. split; [apply (aa_black _ _ Ha) | done]. }
  eapply spec_seq; [apply (keeps_spec (quiet vm0)); [apply reserve_finalizer_candidates_spec | by split] | |
    intros e vm [Ha' _]; apply (aa_inv _ _ Ha')].
  intros _ vm1 [Ha1 Hw1]. pose proof Ha1 as [Hi1 Hb1 Hp1 Hs1 Hr1 Hpr1].
  eapply spec_seq; [apply clear_weak_pairs_spec; by apply at_atomic_refl | | done].
  intros _ vm2 [Ha2 Hw2]. pose proof (at_atomic_trans _ _ _ Ha1 Ha2) as Ha02.
  eapply spec_seq; [apply mark_live_weak_string_keys_spec, gc_inv_heap, (aa_inv _ _ Ha2) | |].
  2: { intros e vm Hm. eapply gc_inv_marking; [apply (aa_inv _ _ Ha2) | done]. }
  intros [] vm3 Hm. pose proof (at_atomic_marking _ _ _ Ha02 Hm) as Ha3.
  apply spec_bind, spec_modify_gc. apply spec_bind, spec_get, spec_ret. split; [| split; [| split; [| split]]].
  - apply gc_inv_stage; [apply (aa_inv _ _ Ha3) | apply (aa_phase _ _ Ha3) | done].
  - apply (aa_phase _ _ Ha3).
  - exact (aa_progress _ _ Ha3).
  - by apply work_left_true.
  - intros Hno%work_left_false. split; [| split; [exact Hno | done]]. exact (aa_black _ _ Ha3).
Qed.

Lemma separation_stage_spec (vm0 : Vm) : at_atomic vm0 vm0 -> work (gc vm0) = [] ->
  atomic_finalizer_stage (gc vm0) <> BeforeWeakValues ->
  spec separation_stage vm0 (fun more vm => goes_on vm0 (fun st => st = AfterSeparation) more vm) (fun _ vm => gc_inv vm).
Proof.
  intros Ha Hw Hne. unfold separation_stage. apply spec_bind, spec_get. case_bool_decide as Hst; cbn [negb].
  2: { apply spec_ret. split; [apply (aa_inv _ _ Ha) |]. split; [apply (aa_phase _ _ Ha) |].
       split; [apply progress_refl |]. split; [done |]. intros _. split; [apply (aa_black _ _ Ha) |]. split; [done |]. by destruct (atomic_finalizer_stage (gc vm0)). }
  eapply spec_seq; [by apply separate_dead_finalizers_spec | | done].
  intros _ vm1 [Ha1 Hreg]. apply spec_bind, spec_modify_gc. apply spec_bind, spec_get, spec_ret. split; [| split; [| split; [| split]]].
  - apply gc_inv_stage; [apply (aa_inv _ _ Ha1) | apply (aa_phase _ _ Ha1) | done].
  - apply (aa_phase _ _ Ha1).
  - exact (aa_progress _ _ Ha1).
  - by apply work_left_true.
  - intros Hno%work_left_false. split; [| split; [exact Hno | done]]. exact (aa_black _ _ Ha1).
Qed.

(** How a part of the atomic phase ends: with more to propagate, or in the sweep. *)
Definition left_atomic (vm0 vm : Vm) : Prop :=
  gc_inv vm /\ progress vm0 vm /\
  (phase (gc vm) = Propagate /\ work (gc vm) <> [] \/ phase (gc vm) = Sweep /\ work (gc vm) = []).

Lemma back_to_propagate_left (vm0 vm : Vm) : gc_inv vm -> phase (gc vm) = Atomic -> progress vm0 vm -> work (gc vm) <> [] ->
  spec back_to_propagate vm (fun _ vm' => left_atomic vm0 vm') (fun _ vm' => gc_inv vm').
Proof using Type.
  intros Hi Hp Hpr Hw. pose proof (back_to_propagate_keeps _ Hi Hp) as Hk. unfold spec in Hk |- *.
  destruct (back_to_propagate vm) as [[[] | e | k] vm'] eqn:E; try done. injection E as <-.
  rewrite transition_frame in Hk |- *. split; [exact Hk |]. split; [exact Hpr |]. by left.
Qed.

Lemma resume_propagation_left (vm0 vm : Vm) : gc_inv vm -> phase (gc vm) = Atomic -> progress vm0 vm -> work (gc vm) <> [] ->
  spec resume_propagation vm (fun _ vm' => left_atomic vm0 vm') (fun _ vm' => gc_inv vm').
Proof using Type.
  intros Hi Hp Hpr Hw. unfold resume_propagation. apply spec_bind, spec_modify_gc.
  by apply (back_to_propagate_left vm0 (with_gc vm (with_ephemeron_converged (gc vm) false))).
Qed.

Lemma gc_inv_sweep (vm : Vm) : gc_inv vm -> phase (gc vm) = Atomic -> black_ok vm -> work (gc vm) = [] ->
  atomic_finalizer_stage (gc vm) = AfterSeparation -> gc_inv (with_gc vm (transition (gc vm) Sweep)).
Proof using Type.
  intros Hinv Hp Hb Hw Hst. pose proof Hinv as (Hheap & Hwork & Hcycle & Hrest). apply gc_inv_transition; [done | |].
  - destruct Hwork as [Hnd Hgray Hwk _]. by split.
  - destruct Hcycle as [Hminor Hblack Hcursor Hpend Hroots Hstage Hearly Hreg]. rewrite Hp in *. split; try done.
    + intros _. by apply Hminor.
    + intros _ i s Hz Hc _ c Hin. by apply (Hb i s Hz Hc c Hin).
    + intros _. by apply Hroots.
    + intros _. by apply Hreg.
Qed.

Lemma finish_atomic_left (vm0 : Vm) : gc_inv vm0 -> phase (gc vm0) = Atomic -> black_ok vm0 -> work (gc vm0) = [] ->
  spec finish_atomic vm0 (fun _ vm => left_atomic vm0 vm) (fun _ vm => gc_inv vm).
Proof.
  intros Hi0 Hp0 Hb0 Hw0. unfold finish_atomic. apply spec_bind, spec_modify_gc.
  set (vm1 := with_gc vm0 _). assert (at_atomic vm1 vm1) as Ha1 by by apply at_atomic_refl.
  eapply spec_seq; [by apply weak_values_stage_spec | | done].
  intros more vm2 (Hi2 & Hp2 & Hpr2 & Hleft2 & Hmore2). change (progress vm0 vm2) in Hpr2.
  destruct more; [by apply resume_propagation_left; auto |]. destruct (Hmore2 eq_refl) as (Hb2 & Hw2 & Hst2).
  eapply spec_seq; [apply separation_stage_spec; [by apply at_atomic_refl | done | done] | | done].
  intros more vm3 (Hi3 & Hp3 & Hpr3 & Hleft3 & Hmore3). pose proof (progress_trans _ _ _ Hpr2 Hpr3) as Hpr03.
  destruct more; [by apply resume_propagation_left; auto |]. destruct (Hmore3 eq_refl) as (Hb3 & Hw3 & Hst3).
  eapply spec_seq; [apply clear_weak_pairs_spec; by apply at_atomic_refl | | done].
  intros _ vm4 [Ha4 Hw4]. pose proof (progress_trans _ _ _ Hpr03 (aa_progress _ _ Ha4)) as Hpr04. apply spec_bind, spec_get.
  apply (spec_seq _ _ _ (fun complete vm => at_atomic vm4 vm /\ if complete : bool then work (gc vm) = [] else work (gc vm) <> []) _ (fun _ => gc_inv)).
  - destruct Ha4 as [Hi4 Hb4 Hp4 Hs4 Hr4 _]. destruct (bool_decide _).
    + eapply spec_weaken; [apply rebuild_remembered_set_spec; by apply at_atomic_refl | | done].
      intros complete vm [Ha Hw]. split; [done |]. destruct complete; [congruence | done].
    + apply spec_ret. split; [by apply at_atomic_refl | congruence].
  - intros complete vm5 [[Hi5 Hb5 Hp5 Hs5 Hr5 Hpr5] Hw5]. pose proof (progress_trans _ _ _ Hpr04 Hpr5) as Hpr05.
    destruct complete; [| by apply resume_propagation_left].
    apply spec_modify_gc. assert (gc_inv (with_gc vm5 (transition (gc vm5) Sweep))) as Hi6.
    { apply gc_inv_sweep; auto. rewrite Hs5, (aa_stage _ _ Ha4). done. }
    split; [exact Hi6 |]. rewrite transition_frame. split; [exact Hpr05 |]. by right.
  - done.
Qed.

(** The slot that a scan stops at. *)
Lemma next_occupied_slot (vm : Vm) start i : heap_inv vm -> 0 <= start ->
  next_occupied (gc vm) start (gc_scan_end vm) = Some i -> start <= i < gc_scan_end vm /\ exists s, zget (slots vm) i = Some (Occupied s).
Proof using Type.
  intros [Hh [Hp _]] Hs Hn. pose proof (next_bit_spec (gc vm) start (gc_scan_end vm) false Hp Hs) as Hspec.
  unfold next_occupied in Hn. rewrite Hn in Hspec. destruct Hspec as (Hi & Hb & _). split; [done |].
  apply (ho_color _ _ _ _ _ _ Hh); [lia |]. apply color_occupied; [lia | done].
Qed.

Lemma next_occupied_none (vm : Vm) start : heap_inv vm -> 0 <= start ->
  next_occupied (gc vm) start (gc_scan_end vm) = None -> forall i s, start <= i -> zget (slots vm) i = Some (Occupied s) -> False.
Proof using Type.
  intros [Hh [Hp _]] Hs Hn i s Hi Hz. pose proof (next_bit_spec (gc vm) start (gc_scan_end vm) false Hp Hs) as Hspec.
  unfold next_occupied in Hn. rewrite Hn in Hspec. cbn in Hspec. apply zget_lt in Hz as Hlt.
  destruct (decide (i < gc_scan_end vm)) as [Hlt' |].
  - specialize (Hspec i ltac:(lia)). assert (is_Some (color (gc vm) i)) as Hc by (apply (ho_color _ _ _ _ _ _ Hh); [lia | eauto]).
    apply color_occupied in Hc; [congruence | lia].
  - destruct (ho_tail _ _ _ _ _ _ Hh i ltac:(lia)) as [g Hg]. congruence.
Qed.

(** A step of the atomic phase: it goes on with the next slot, or ends; gray objects that
    are left from outside go first. *)
Definition stepped_atomic (vm0 vm : Vm) : Prop :=
  gc_inv vm /\ progress vm0 vm /\
  match phase (gc vm) with
  | Propagate => work (gc vm) <> []
  | Atomic => work (gc vm) = [] /\ work (gc vm0) = [] /\ ephemeron_cursor (gc vm0) < ephemeron_cursor (gc vm) <= gc_scan_end vm0
  | Sweep => work (gc vm) = []
  | _ => False
  end.

Lemma left_stepped (vm0 vm : Vm) : left_atomic vm0 vm -> stepped_atomic vm0 vm.
Proof using Type. intros (Hi & Hpr & Hend). split; [done |]. split; [done |]. by destruct Hend as [[-> Hw] | [-> Hw]]. Qed.

Lemma step_gc_atomic_stepped (vm : Vm) : gc_inv vm -> phase (gc vm) = Atomic ->
  spec step_gc_atomic vm (fun _ vm' => stepped_atomic vm vm') (fun _ vm' => gc_inv vm').
Proof.
  intros Hi Hp. unfold step_gc_atomic. apply spec_bind, spec_get.
  assert (forall (m : HeapM unit) vm', spec m vm' (fun _ => left_atomic vm) (fun _ => gc_inv) ->
    spec m vm' (fun _ => stepped_atomic vm) (fun _ => gc_inv)) as Hleft.
  { intros m vm' Hm. eapply spec_weaken; [exact Hm | intros u vm''; apply left_stepped | done]. }
  destruct (work_left vm) eqn:Hw.
  { apply Hleft, back_to_propagate_left; try done. by apply work_left_true. }
  apply work_left_false in Hw.
  set (count := if _ =? 0 then _ else _).
  apply (spec_seq _ _ _ (fun _ vm' => gc_inv vm' /\ phase (gc vm') = Atomic /\ work (gc vm') = [] /\
    slots vm' = slots vm /\ mode (gc vm') = mode (gc vm) /\ progress vm vm') _ (fun _ => gc_inv)); [| | done].
  { subst count. destruct (_ =? 0); (split; [exact Hi |]; split; [exact Hp |]; split; [exact Hw |]; split; [done |]; split; [done | exact (progress_refl vm)]). }
  intros _ vm1 (Hi1 & Hp1 & Hw1 & E1 & Em & Hpr1). clear count. pose proof (gc_inv_heap _ Hi) as Hh.
  assert (0 <= ephemeron_cursor (gc vm)) as Hcur by by destruct Hh as [_ (_ & ? & _)].
  destruct (next_occupied _ _ _) as [i |] eqn:Hn.
  - destruct (next_occupied_slot _ _ _ Hh Hcur Hn) as (Hlt & s & Hz). apply spec_bind, spec_modify_gc.
    pose proof (gc_inv_ephemeron_cursor vm1 (i + 1) ltac:(lia) Hi1) as Hi2. set (vm2 := with_gc vm1 _) in *.
    assert (zget (slots vm2) i = Some (Occupied s)) as Hz2 by (cbn; by rewrite E1).
    eapply spec_seq; [eapply keeps_spec; [by eapply ephemeron_slot_keeps; [apply gc_inv_heap |] | apply marking_vm_refl] | |].
    + intros [] vm3 Hm. pose proof (gc_inv_marking _ _ Hi2 Hm) as Hi3. apply spec_bind, spec_get.
      pose proof (marking_vm_phase_atomic _ _ Hm Hp1) as Hp3.
      assert (progress vm vm3) as Hpr3 by exact (progress_trans _ _ _ Hpr1 (progress_marking vm2 vm3 Hm)).
      destruct (work_left vm3) eqn:Hleft3; [apply Hleft, back_to_propagate_left; try done; by apply work_left_true |].
      apply spec_ret. split; [done |]. split; [done |]. rewrite Hp3. split; [by apply work_left_false |]. split; [done |].
      destruct Hm as (g & -> & Hm). cbn. rewrite (mk_frame _ _ _ _ Hm). cbn. lia.
    + intros e vm3 Hm. by eapply gc_inv_marking.
  - apply spec_bind, spec_modify_gc.
    pose proof (gc_inv_ephemeron_cursor vm1 (gc_scan_end vm) ltac:(destruct Hh as [Hh _]; apply (ho_stop _ _ _ _ _ _ Hh)) Hi1) as Hi2.
    set (vm2 := with_gc vm1 _) in *.
    assert (phase (gc vm2) = Atomic) as Hp2 by exact Hp1.
    apply (spec_seq _ _ _ (fun _ vm3 => gc_inv vm3 /\ phase (gc vm3) = Atomic /\ black_ok vm3 /\
      (mode (gc vm3) = Incremental -> work (gc vm3) = []) /\ progress vm vm3) _ (fun _ => gc_inv)); [| | done].
    { case_bool_decide as Hmode.
      - eapply spec_weaken; [by apply retrace_old_spec | |].
        + intros _ vm3 [Hm Hb]. split; [by eapply gc_inv_marking |]. split; [by apply (marking_vm_phase_atomic _ _ Hm) |].
          split; [done |]. split; [| exact (progress_trans _ _ _ Hpr1 (progress_marking vm2 vm3 Hm))].
          destruct (marking_vm_fields _ _ Hm) as (-> & _). intros E. change (mode (gc vm1) = Incremental) in E. congruence.
        + intros e vm3 Hm. by eapply gc_inv_marking.
      - apply spec_ret. split; [done |]. split; [done |]. split; [| done]. apply black_ok_full; [done | congruence |].
        intros Hc. apply Hmode. rewrite <- Em. destruct Hi2 as (_ & _ & Hcyc & _).
        exact (co_minor _ _ _ _ _ _ _ _ _ _ Hcyc ltac:(by rewrite Hp2) Hc). }
    intros _ vm3 (Hi3 & Hp3 & Hb3 & Hw3 & Hpr3). apply spec_bind, spec_get.
    assert (work (gc vm3) = [] -> spec finish_atomic vm3 (fun _ => stepped_atomic vm) (fun _ => gc_inv)) as Hfin.
    { intros Hnil. apply Hleft. eapply spec_weaken; [by apply finish_atomic_left | | done].
      intros _ vm4 (Hi4 & Hpr4 & Hend). split; [done |]. split; [exact (progress_trans _ _ _ Hpr3 Hpr4) | done]. }
    case_bool_decide as Hmode; cbn [andb].
    + destruct (work_left vm3) eqn:Hl; [apply Hleft, back_to_propagate_left; try done; by apply work_left_true |].
      by apply Hfin, work_left_false.
    + apply Hfin, Hw3. by destruct (mode (gc vm3)).
Qed.

Lemma step_gc_atomic_keeps (vm : Vm) : gc_inv vm -> phase (gc vm) = Atomic ->
  spec step_gc_atomic vm (fun _ vm' => gc_inv vm') (fun _ vm' => gc_inv vm').
Proof. intros Hi Hp. eapply spec_weaken; [by apply step_gc_atomic_stepped | by intros u vm' (Hi' & _) | done]. Qed.

End Finish.
