(* ===== verification/HeapSweep.v ===== *)
(** Giving objects back keeps the invariant of the heap: [reclaim], the sweep, and the
    end of a cycle. *)

From Stdlib Require Import ZArith Lia.
From stdpp Require Import base list numbers relations.
From S2P Require Import Prelude Float Number Table TableSpec TableSet TableEdges GcState GcBits ShortStrings Heap Barrier Collector HeapEdges HeapInv HeapMark HeapChange HeapRounds HeapAtomic HeapFinish.

Local Open Scope Z_scope.

(** ** A freed slot *)

Section Freed.
Context `{Suspended} {slots : list Slot} {vm : VmId} {o : ObjectRef} {i : Z} {s : OccupiedSlot} {slot : Slot}.
Context (Hself : self_checked slots vm) (Ho : checked_in slots vm o = Ok (i, s)) (Hslot : forall t, slot <> Occupied t).

Notation freed := (zinsert slots i slot).

Lemma freed_index : 0 <= i < zlen slots.
Proof using Ho. apply checked_in_spec in Ho as (Hz & _). by apply zget_lt in Hz. Qed.

Lemma freed_zget j : zget freed j = if bool_decide (j = i) then Some slot else zget slots j.
Proof using Ho.
  pose proof freed_index as Hi. case_bool_decide as Hj; [subst; by apply zget_zinsert_eq |]. apply zget_zinsert_ne; [lia | congruence].
Qed.

Lemma freed_occupied j t : zget freed j = Some (Occupied t) -> j <> i /\ zget slots j = Some (Occupied t).
Proof using Ho Hslot. rewrite freed_zget. case_bool_decide; [intros [= E]; by destruct (Hslot t) | done]. Qed.

Lemma freed_subheap : subheap freed slots vm.
Proof using Ho Hslot.
  intros c j t (Hz & Hr & Hn)%checked_in_spec. apply freed_occupied in Hz as [_ Hz]. by apply checked_in_spec.
Qed.

(** Only [o] is in the slot. *)
Lemma same_slot c t : checked_in slots vm c = Ok (i, t) -> c = o.
Proof using Ho.
  intros (Hz & <- & _)%checked_in_spec. apply checked_in_spec in Ho as (Hz' & <- & _). rewrite Hz in Hz'. by injection Hz' as <-.
Qed.

Lemma freed_checked c j t : c <> o -> checked_in slots vm c = Ok (j, t) -> checked_in freed vm c = Ok (j, t).
Proof using Ho.
  intros Hne Hc. assert (j <> i) as Hji by (intros ->; by apply Hne, (same_slot _ _ Hc)).
  apply checked_in_spec in Hc as (Hz & Hr & Hn). apply checked_in_spec. rewrite freed_zget. by rewrite bool_decide_eq_false_2.
Qed.

Lemma freed_valid c : c <> o -> valid_ref slots vm c -> valid_ref freed vm c.
Proof using Ho. intros Hne (j & t & Hc). exists j, t. by apply freed_checked. Qed.

Lemma freed_self : self_checked freed vm.
Proof using Hself Ho Hslot.
  intros j t Hz. apply freed_occupied in Hz as [Hji Hz]. apply freed_checked; [| by apply Hself].
  intros E. apply Hji. specialize (Hself _ _ Hz). rewrite E in Hself. by destruct (checked_in_fun _ _ _ _ _ _ _ Ho Hself) as [-> _].
Qed.

Lemma freed_marked (col col' : Z -> option GcColor) c : (forall j, 0 <= j -> j <> i -> col' j = col j) ->
  c <> o -> marked slots vm col c -> marked freed vm col' c.
Proof using Ho.
  intros Hcol Hne (j & t & Hc & Hw). exists j, t. split; [by apply freed_checked |].
  rewrite Hcol; [done | by eapply checked_in_nonneg |]. intros ->. by apply Hne, (same_slot _ _ Hc).
Qed.

End Freed.

Section Sweep.
Context `{Suspended} {L : Type} `{HeapLedgerLaws L refused} `{Hasher}.
#[local] Set Default Proof Using "Type*".

Notation Vm := (Vm L).
Notation HeapM := (ST Vm VmError).

(** ** When an object may be given back

    Nothing that is kept reaches it, no black object refers to it, and it is no root. *)
Record releasable (vm : Vm) (o : ObjectRef) : Prop := {
  rl_root : o ∉ root_list vm;
  rl_kept : exists K : ObjectRef -> Prop,
    (forall c, K c -> valid_ref (slots vm) (vm_id vm) c /\ c <> o) /\
    (forall c d, K c -> edge (slots vm) (vm_id vm) c d -> K d) /\
    (forall c, kept (slots vm) (root_list vm) c -> c <> o -> K c);
  rl_black : forall i s, zget (slots vm) i = Some (Occupied s) -> reference s <> o ->
    phase (gc vm) <> Pause -> color (gc vm) i = Some Black -> settled (cycle (gc vm)) (phase (gc vm)) s ->
    o ∉ strong_edges (string_in (slots vm) (vm_id vm)) (object s)
}.

(** A white object during the sweep. *)
Lemma white_releasable (vm : Vm) o i s : gc_inv vm -> phase (gc vm) = Sweep ->
  checked_slot vm o = Ok (i, s) -> color (gc vm) i = Some White -> releasable vm o.
Proof using Type.
  intros (Hheap & Hwork & Hcycle & Hanch & Hheld) Hp Ho Hw.
  destruct Hcycle as [Hminor Hblack Hcursor Hpend Hroots Hstage Hearly Hreg]. rewrite Hp in *.
  assert (marking Sweep) as Hms by done.
  assert (forall c, marked_in vm c -> c <> o) as Hne.
  { intros c (j & t & Hc & Hwj) ->. destruct (checked_in_fun _ _ _ _ _ _ _ Ho Hc) as [-> _]. congruence. }
  split.
  - intros Hr. by destruct (Hne o (Hroots Hms o Hr)).
  - exists (marked_in vm). split; [| split].
    + intros c Hc. split; [| by apply Hne]. destruct Hc as (j & t & Hc & _). by exists j, t.
    + intros c d (j & t & Hc & Hwj) (j' & t' & Hc' & Hin). destruct (checked_in_fun _ _ _ _ _ _ _ Hc Hc') as [<- <-].
      apply checked_in_spec in Hc as Hz. destruct Hz as (Hz & _). apply (Hblack ltac:(done) j t Hz); [| by left | done].
      destruct (heap_color _ _ _ _ _ _ Hheap Hz) as [k Ek]. rewrite Ek. destruct k; [congruence | | done].
      pose proof (wo_work _ _ _ _ _ Hwork j t Hz Ek) as Hin'. rewrite (wo_idle _ _ _ _ _ Hwork) in Hin' by (rewrite Hp; by right).
      by apply elem_of_nil in Hin'.
    + intros c [Hc | (j & t & Hz & Hf & <-)] _; [by apply Hroots |].
      exists j, t. split; [by apply (inv_self _ Hheap) |]. by apply (Hreg Hms (Hstage eq_refl) j t).
  - intros j t Hz _ Hp' Hb Hset Hin. apply (Hne o); [| done]. apply (Hblack ltac:(done) j t Hz Hb); [by left | done].
Qed.

(** ** The end of the scans *)

Lemma retreat_spec (slots : list Slot) stop : (stop <= length slots)%nat ->
  (retreat slots stop <= stop)%nat /\ forall i, (retreat slots stop <= i < stop)%nat -> exists g, slots !! i = Some (Free g).
Proof using Type.
  induction stop as [| n IH]; intros Hl; cbn; [split; [lia |]; intros; lia |].
  destruct (slots !! n) as [[s | g |] |] eqn:Hn; try (split; [lia |]; intros; lia).
  destruct (IH ltac:(lia)) as [Hle Hfree]. split; [lia |]. intros i Hi.
  destruct (decide (i = n)) as [-> | Hne]; [eauto |]. apply Hfree. lia.
Qed.

Lemma retreat_gc_scan_end_spec (vm : Vm) : 0 <= gc_scan_end vm ->
  (forall i, gc_scan_end vm <= i < zlen (slots vm) -> exists g, zget (slots vm) i = Some (Free g)) ->
  exists stop', retreat_gc_scan_end vm = (Ok tt, with_gc_scan_end vm stop') /\ 0 <= stop' <= zlen (slots vm) /\ stop' <= gc_scan_end vm /\
    forall i, stop' <= i < zlen (slots vm) -> exists g, zget (slots vm) i = Some (Free g).
Proof using Type.
  intros Hs Htail. set (stop := Z.min (gc_scan_end vm) (zlen (slots vm))).
  exists (Z.of_nat (retreat (slots vm) (Z.to_nat stop))). split; [done |].
  pose proof (zlen_nonneg (slots vm)). assert (0 <= stop <= zlen (slots vm)) as Hst by lia.
  destruct (retreat_spec (slots vm) (Z.to_nat stop)) as [Hle Hfree]; [unfold zlen in *; lia |].
  split; [unfold zlen in *; lia |]. split; [lia |]. intros i Hi.
  destruct (decide (i < stop)) as [Hlt |].
  - destruct (Hfree (Z.to_nat i)) as [g Hg]; [lia |]. exists g. unfold zget.
    rewrite (proj2 (Z.leb_le 0 i)), (proj2 (Z.ltb_lt i (zlen (slots vm)))) by lia. done.
  - apply Htail. lia.
Qed.

(** ** The objects that are left *)

(** The state after [o] is gone from slot [i]: its bits, its place in the lists of the
    collector and the bound of the scans. *)
Record released (vm : Vm) (o : ObjectRef) (i : Z) (slot : Slot) (vm' : Vm) : Prop := {
  re_id : vm_id vm' = vm_id vm;
  re_slots : slots vm' = zinsert (slots vm) i slot;
  re_slot : (exists g, slot = Free g) \/ slot = Retired;
  re_color : forall j, 0 <= j -> color (gc vm') j = if bool_decide (j = i) then None else color (gc vm) j;
  re_free : forall j, 0 <= j -> slot_bit reusable_free (gc vm') j =
    if bool_decide (j = i) then match slot with Free _ => true | _ => false end else slot_bit reusable_free (gc vm) j;
  re_length : zlen (slot_bits (gc vm')) = zlen (slot_bits (gc vm));
  re_scans : scans_ok (gc vm');
  re_stop : 0 <= gc_scan_end vm' <= zlen (slots vm);
  re_retreat : gc_scan_end vm' <= gc_scan_end vm;
  re_tail : forall j, gc_scan_end vm' <= j < zlen (slots vm') -> exists g, zget (slots vm') j = Some (Free g);
  re_work : work (gc vm') = filter (fun w => w <> o) (work (gc vm));
  re_phase : phase (gc vm') = phase (gc vm);
  re_mode : mode (gc vm') = mode (gc vm);
  re_cycle : cycle (gc vm') = cycle (gc vm);
  re_stage : atomic_finalizer_stage (gc vm') = atomic_finalizer_stage (gc vm);
  re_roots : GcState.gc_roots (gc vm') = filter (fun r => r <> o) (GcState.gc_roots (gc vm));
  re_cursor : root_cursor (gc vm') = root_cursor (gc vm) - remove_before (GcState.gc_roots (gc vm)) (root_cursor (gc vm)) o;
  re_table : roots vm' = roots vm;
  re_list : root_list vm' = root_list vm;
  re_token : next_runtime_token vm' = next_runtime_token vm;
  re_sweep : sweep_cursor (gc vm') = sweep_cursor (gc vm)
}.

Lemma remove_before_bounds roots cursor o : 0 <= cursor -> 0 <= remove_before roots cursor o <= cursor.
Proof using Type.
  intros Hc. unfold remove_before. pose proof (zlen_nonneg (filter (fun r => r = o) (take (Z.to_nat cursor) roots))).
  split; [done |]. unfold zlen. pose proof (length_filter (fun r => r = o) (take (Z.to_nat cursor) roots)).
  rewrite length_take in *. lia.
Qed.

(** The entries at and after the cursor stay there. *)
Lemma filter_after_cursor (roots : list ObjectRef) o cursor r : 0 <= cursor -> r <> o ->
  r ∈ drop (Z.to_nat cursor) roots -> r ∈ drop (Z.to_nat (cursor - remove_before roots cursor o)) (filter (fun r => r <> o) roots).
Proof using Type.
  intros Hc Hne Hr. set (n := Z.to_nat cursor) in *.
  rewrite <- (take_drop n roots) at 2. rewrite filter_app.
  pose proof (remove_before_bounds roots cursor o Hc) as Hb.
  destruct (decide (n <= length roots)%nat) as [Hle | Hgt]; [| rewrite drop_ge in Hr by lia; by apply elem_of_nil in Hr].
  assert (length (filter (fun r => r <> o) (take n roots)) + length (filter (fun r => r = o) (take n roots)) = n)%nat as Hsum.
  { rewrite <- (length_take_le roots n) at 3 by done. induction (take n roots) as [| x l IH]; [done |].
    rewrite !filter_cons. destruct (decide (x = o)), (decide (x <> o)); cbn; try done; lia. }
  rewrite drop_app_le.
  - apply elem_of_app. right. by apply list_elem_of_filter.
  - unfold remove_before, zlen. fold n. lia.
Qed.

Lemma gc_inv_released (vm vm' : Vm) o i s slot : gc_inv vm -> checked_slot vm o = Ok (i, s) -> releasable vm o ->
  released vm o i slot vm' -> gc_inv vm'.
Proof using Type.
  intros (Hheap & Hwork & Hcycle & Hanch & Hheld) Ho [Hroot (K & HK1 & HK2 & HK3) Hblack0] Hre.
  pose proof (inv_self _ Hheap) as Hself. destruct Hre. unfold checked_slot in Ho.
  assert (forall t, slot <> Occupied t) as Hslot by (intros t ->; destruct re_slot0 as [[g Hg] | Hg]; done).
  assert (forall j, 0 <= j -> j <> i -> color (gc vm') j = color (gc vm) j) as Hcol.
  { intros j Hj Hne. rewrite re_color0 by done. by rewrite bool_decide_eq_false_2. }
  pose proof (freed_subheap Ho Hslot) as Hsub.
  assert (forall c, c <> o -> marked_in vm c -> marked (slots vm') (vm_id vm') (color (gc vm')) c) as Hmark.
  { intros c Hne. rewrite re_slots0, re_id0. by apply (freed_marked Ho). }
  split; [| split; [| split; [| split]]].
  - split; [| done]. destruct Hheap as [[Hs1 Hs2 Hs3 Hs4 Hs5 Hs6] _]. rewrite re_id0, re_length0. split.
    + rewrite re_slots0. by apply (freed_self Hself Ho).
    + intros j Hj. rewrite re_color0, re_slots0, (freed_zget Ho) by done.
      case_bool_decide; [| by apply Hs2]. split; [by intros [? ?] | intros [t [= E]]; by destruct (Hslot t)].
    + intros j Hj. rewrite re_free0, re_slots0, (freed_zget Ho) by done. case_bool_decide; [| by apply Hs3].
      destruct slot; try done. eauto.
    + rewrite re_slots0, zlen_zinsert. done.
    + done.
    + by rewrite re_slots0, zlen_zinsert.
  - destruct Hwork as [Hnd Hgray Hwk Hidle]. unfold work_inv. rewrite re_work0, re_phase0. split.
    + by apply NoDup_filter.
    + intros c [Hne Hc]%list_elem_of_filter. destruct (Hgray c Hc) as (j & t & Hcj & Hg). exists j, t.
      rewrite re_id0, re_slots0. split; [by apply (freed_checked Ho) |]. rewrite Hcol; [done | by eapply checked_in_nonneg |].
      intros ->. by apply Hne, (same_slot Ho _ t).
    + intros j t Hz Hg. rewrite re_slots0 in Hz. apply (freed_occupied Ho Hslot) in Hz as [Hji Hz].
      apply zget_lt in Hz as Hj. rewrite Hcol in Hg by lia. apply list_elem_of_filter. split; [| by eapply Hwk].
      intros E. specialize (Hself _ _ Hz). rewrite E in Hself. by destruct (checked_in_fun _ _ _ _ _ _ _ Ho Hself) as [-> _].
    + intros Hp. by rewrite (Hidle Hp).
  - destruct Hcycle as [Hminor Hblack Hcursor Hpend Hroots Hstage Hearly Hreg].
    unfold cycle_inv. rewrite re_phase0, re_mode0, re_cycle0, re_stage0, re_roots0, re_cursor0, re_list0.
    pose proof (remove_before_bounds (GcState.gc_roots (gc vm)) _ o Hcursor) as Hb. split; try done.
    + intros Hp j t Hz Hbl Hset c Hin. rewrite re_slots0 in Hz. apply (freed_occupied Ho Hslot) in Hz as [Hji Hz].
      apply zget_lt in Hz as Hj. rewrite Hcol in Hbl by lia.
      assert (c ∈ strong_edges (string_in (slots vm) (vm_id vm)) (object t)) as Hin'.
      { eapply strong_edges_mono; [| exact Hin]. intros d _ Hd. rewrite re_slots0, re_id0 in Hd. by apply (subheap_string _ _ _ _ Hsub). }
      apply Hmark; [| by apply (Hblack Hp j t Hz Hbl Hset)]. intros ->.
      apply (Hblack0 j t Hz); try done. intros E. specialize (Hself _ _ Hz). rewrite E in Hself.
      by destruct (checked_in_fun _ _ _ _ _ _ _ Ho Hself) as [-> _].
    + lia.
    + intros Hp r Hr. assert (r <> o) as Hne by (intros ->; done). destruct (Hpend Hp r Hr) as [Hm | Hd].
      * left. by apply Hmark.
      * right. by apply filter_after_cursor.
    + intros Hp r Hr. apply Hmark; [intros ->; done | by apply Hroots].
    + intros Hp Hst j t Hz Hf. rewrite re_slots0 in Hz. apply (freed_occupied Ho Hslot) in Hz as [Hji Hz].
      apply zget_lt in Hz as Hj. rewrite Hcol by lia. by apply (Hreg Hp Hst j t).
  - intros c Hc. rewrite re_slots0, re_id0. apply (intact_subheap _ _ _ K Hsub).
    + intros d Hd. destruct (HK1 d Hd) as [Hv Hne]. by apply (freed_valid Ho).
    + exact HK2.
    + destruct Hc as [Hc | (j & t & Hz & Hf & <-)].
      * rewrite re_list0 in Hc. apply HK3; [by left |]. intros ->. done.
      * rewrite re_slots0 in Hz. apply (freed_occupied Ho Hslot) in Hz as [Hji Hz]. apply HK3; [right; eauto |].
        intros E. specialize (Hself _ _ Hz). rewrite E in Hself. by destruct (checked_in_fun _ _ _ _ _ _ _ Ho Hself) as [-> _].
  - destruct Hheld as [Hheld Hids]. split; [| by rewrite re_table0].
    intros j t Hz. rewrite re_slots0 in Hz. apply (freed_occupied Ho Hslot) in Hz as [Hji Hz]. rewrite re_token0. by apply Hheld with j.
Qed.

(** ** [reclaim] *)

Lemma retire_or_free_spec stop (vm : Vm) i r g : heap_at (vm_id vm) (slots vm) stop g -> 0 <= i < zlen (slots vm) ->
  exists g', retire_or_free g i r = Ok g' /\ g' = with_occupied_slots (with_slot_bits g (slot_bits g')) (occupied_slots g') /\
    (forall j, 0 <= j -> color g' j = (if bool_decide (j = i) then None else color g j) /\
       slot_bit reusable_free g' j = (if bool_decide (j = i) then r else slot_bit reusable_free g j)) /\
    pages_ok g' /\ zlen (slot_bits g') = zlen (slot_bits g).
Proof using Type.
  intros Hh Hi. pose proof (heap_page _ _ _ _ _ Hh Hi) as Hp.
  destruct (update_page_ok g i (fun page =>
        {| occupied := Z.ldiff (occupied page) (slot_mask i);
           reusable_free := if r then Z.lor (reusable_free page) (slot_mask i) else Z.ldiff (reusable_free page) (slot_mask i);
           gray := Z.ldiff (gray page) (slot_mask i); black := Z.ldiff (black page) (slot_mask i) |}) ltac:(lia) Hp) as [g1 Hg1].
  exists (with_occupied_slots g1 (occupied_slots g1 - 1)).
  assert (retire_or_free g i r = Ok (with_occupied_slots g1 (occupied_slots g1 - 1))) as E.
  { unfold retire_or_free. by rewrite Hg1. }
  destruct (update_page_inv _ _ _ _ Hg1) as (page & _ & Eg).
  split; [done |]. split; [by rewrite Eg |]. split; [intros j Hj; by apply (retire_bits _ _ _ _ E); lia |].
  split; [eapply retire_pages_ok; [exact E | lia | by destruct Hh as [_ [? _]]] |].
  rewrite Eg. cbn. apply zlen_zinsert.
Qed.

(** What is left of a reference in the lists of the collector. *)
Definition forgotten (vm : Vm) (o : ObjectRef) (vm' : Vm) : Prop :=
  exists l r c k, vm' = with_gc (with_ledger vm l)
    (forget_in_cycle o (with_remembered_cursor (with_remembered_charge (with_remembered (gc vm) r) c) k)).

Lemma remove_unpublished_spec (vm : Vm) o :
  spec (remove_unpublished_gc_reference o) vm
    (fun _ vm' => forgotten vm o vm') (fun _ vm' => exists l, vm' = with_ledger vm l).
Proof.
  assert (forall vm' : Vm, vm' = vm -> exists l, vm' = with_ledger vm l) as Hsame by (intros vm' ->; exists (ledger vm); by destruct vm).
  unfold remove_unpublished_gc_reference. apply spec_bind, spec_get.
  apply (spec_seq _ _ _ (fun _ vm' => exists l r c k, vm' = with_gc (with_ledger vm l)
    (with_remembered_cursor (with_remembered_charge (with_remembered (gc vm) r) c) k)) _ (fun _ vm' => exists l, vm' = with_ledger vm l)).
  - destruct (list_find _ _) as [[index w] |].
    + eapply spec_seq; [apply (keeps_spec (fun vm' => vm' = vm)); [apply keeps_checked_bytes | done] | | intros e vm' ->; by apply Hsame].
      intros remaining vm' ->. eapply spec_seq; [apply (keeps_spec (fun vm' => exists l, vm' = with_ledger vm l)) | | done].
      * apply keeps_on_ledger; [intros vm' l [l' ->]; by exists l |].
        apply returns_bind; [apply returns_checkpoint | intros _]. apply returns_bind; [apply returns_try_reserve | intros _].
        apply returns_normalize.
      * by apply Hsame.
      * intros _ vm' [l ->]. apply spec_modify_gc. exists l. cbn.
        destruct (_ <? _); [by eexists _, _, _ | exists (delete index (remembered (gc vm))), remaining, (remembered_cursor (gc vm))].
        by destruct (gc vm).
    + apply spec_ret. exists (ledger vm), (remembered (gc vm)), (remembered_charge (gc vm)), (remembered_cursor (gc vm)).
      destruct vm as [? ? ? ? ? ? ? ? g]. by destruct g.
  - intros _ vm' (l & r & c & k & ->). apply spec_modify_gc. by exists l, r, c, k.
  - done.
Qed.

Lemma release_payload_frame o p (vm : Vm) : exists x, release_payload o p vm = with_short_strings vm x.
Proof using Type.
  assert (exists x, vm = with_short_strings vm x) as Hs by (exists (short_strings vm); by destruct vm).
  destruct p; try done. cbn. destruct (_ <=? _); [by eexists | done].
Qed.

Lemma release_callback_frame p (vm : Vm) : exists x, release_callback p vm = with_callbacks vm x.
Proof using Type.
  assert (exists x, vm = with_callbacks vm x) as Hs by (exists (callbacks vm); by destruct vm).
  destruct p as [| | | | | | b | | | |]; try done. destruct b; try done. cbn. destruct (_ <? _); [by eexists | done].
Qed.

Lemma reclaim_spec (vm : Vm) o i s : gc_inv vm -> checked_slot vm o = Ok (i, s) ->
  spec (reclaim o) vm (fun _ vm' => exists slot, released vm o i slot vm') (fun _ vm' => exists l, vm' = with_ledger vm l).
Proof.
  intros Hinv Ho. pose proof (gc_inv_heap _ Hinv) as Hheap. apply checked_in_spec in Ho as Hz. destruct Hz as (Hz & _).
  apply zget_lt in Hz as Hi. unfold reclaim. apply spec_bind, spec_get. apply spec_bind, spec_lift; [apply checked_in_total | | congruence].
  intros found Hf. rewrite Ho in Hf. injection Hf as <-.
  eapply spec_seq; [apply remove_unpublished_spec | | done].
  intros _ vm1 (l & r & c & k & ->). apply spec_bind, spec_modify.
  destruct (release_payload_frame o (payload (object (i, s).2)) (with_gc (with_ledger vm l)
     (forget_in_cycle o (with_remembered_cursor (with_remembered_charge (with_remembered (gc vm) r) c) k)))) as [x ->].
  set (g1 := forget_in_cycle _ _). set (next := generation_next _). set (slot := match next with Some g => Free g | None => Retired end).
  apply spec_bind, spec_get. cbn [fst snd]. change (slots (with_short_strings _ x)) with (slots vm).
  unfold vset. rewrite Hz. apply spec_bind. change (spec (lift (Ok ?a)) ?s ?Q ?R) with (Q a s). apply spec_bind, spec_put.
  destruct (retire_or_free_spec (gc_scan_end vm) vm i (bool_decide (is_Some next)) g1 Hheap Hi) as (g2 & Hg2 & Efr & Hbits & Hpages & Hlen).
  apply spec_bind. eapply spec_update_gc; [exact Hg2 |]. set (vm2 := with_gc _ g2).
  assert (0 <= gc_scan_end vm) as Hstop by by destruct Hheap as [[_ _ _ [? _] _ _] _].
  destruct (retreat_gc_scan_end_spec vm2 Hstop) as (stop & Hret & Hs & Hle & Htail).
  { intros j Hj. cbn in Hj |- *. rewrite zlen_zinsert in Hj. destruct Hheap as [Hh _].
    destruct (ho_tail _ _ _ _ _ _ Hh j Hj) as [g Hg]. exists g. rewrite zget_zinsert_ne; [done | lia | intros ->; congruence]. }
  apply spec_bind. unfold spec at 1. rewrite Hret. apply spec_modify.
  destruct (release_callback_frame (payload (object s)) (with_gc_scan_end vm2 stop)) as [y ->].
  exists slot. assert ((exists g, slot = Free g) \/ slot = Retired) as Hslot by (subst slot; destruct next; eauto).
  split; try done.
  - intros j Hj. by apply Hbits.
  - intros j Hj. destruct (Hbits j Hj) as [_ E]. etrans; [exact E |]. case_bool_decide; [| done].
    subst slot. by destruct next.
  - split; [exact Hpages |]. change (gc (with_callbacks (with_gc_scan_end vm2 stop) y)) with g2. rewrite Efr.
    by destruct Hheap as [_ [_ Hcur]].
  - cbn in Hs. by rewrite zlen_zinsert in Hs.
  - change (gc (with_callbacks (with_gc_scan_end vm2 stop) y)) with g2. by rewrite Efr.
  - change (gc (with_callbacks (with_gc_scan_end vm2 stop) y)) with g2. by rewrite Efr.
  - change (gc (with_callbacks (with_gc_scan_end vm2 stop) y)) with g2. by rewrite Efr.
  - change (gc (with_callbacks (with_gc_scan_end vm2 stop) y)) with g2. by rewrite Efr.
  - change (gc (with_callbacks (with_gc_scan_end vm2 stop) y)) with g2. by rewrite Efr.
  - change (gc (with_callbacks (with_gc_scan_end vm2 stop) y)) with g2. by rewrite Efr.
  - change (gc (with_callbacks (with_gc_scan_end vm2 stop) y)) with g2. by rewrite Efr.
  - change (gc (with_callbacks (with_gc_scan_end vm2 stop) y)) with g2. by rewrite Efr.
Qed.

End Sweep.
