(* ===== verification/HeapCycle.v ===== *)
(** The sweep, the end and the beginning of a cycle, and with them every round of the
    collector, keep the invariant of the heap. *)

From Stdlib Require Import ZArith Lia.
From stdpp Require Import base list numbers relations.
From S2P Require Import Prelude Float Number Table TableSpec TableSet TableEdges GcState GcBits ShortStrings Heap Barrier Collector HeapEdges HeapInv HeapMark HeapChange HeapRounds HeapProgress HeapAtomic HeapFinish HeapSweep.

Local Open Scope Z_scope.

Section Cycle.
Context `{Suspended} {L : Type} `{HeapLedgerLaws L refused} `{Hasher}.
#[local] Set Default Proof Using "Type*".

Notation Vm := (Vm L).
Notation HeapM := (ST Vm VmError).

(** ** The sweep *)

Lemma gc_inv_sweep_cursor (vm : Vm) n : 0 <= n -> gc_inv vm -> gc_inv (with_gc vm (with_sweep_cursor (gc vm) n)).
Proof using Type.
  intros Hn ([Hh [Hp [He _]]] & Hrest). split; [| exact Hrest]. split; [exact Hh |]. by split.
Qed.

(** The slot is behind the sweep. *)
Record slot_swept (vm : Vm) (i : Z) (vm' : Vm) : Prop := {
  ss_inv : gc_inv vm';
  ss_phase : phase (gc vm') = Sweep;
  ss_cursor : sweep_cursor (gc vm') = i + 1;
  ss_stop : gc_scan_end vm' <= gc_scan_end vm;
  ss_white : white_slots vm' <= white_slots vm
}.

Lemma slot_swept_skip (vm : Vm) i : gc_inv vm -> phase (gc vm) = Sweep -> sweep_cursor (gc vm) = i + 1 -> slot_swept vm i vm.
Proof using Type. by split. Qed.

Lemma slot_swept_released (vm vm' : Vm) o i s j slot : gc_inv vm -> phase (gc vm) = Sweep -> sweep_cursor (gc vm) = i + 1 ->
  checked_slot vm o = Ok (j, s) -> color (gc vm) j = Some White -> released vm o j slot vm' -> slot_swept vm i vm'.
Proof using Type.
  intros Hinv Hp Hcur Hc Hw Hre.
  pose proof (gc_inv_released _ _ _ _ _ _ Hinv Hc (white_releasable _ _ _ _ Hinv Hp Hc Hw) Hre) as Hinv'.
  split; [done | rewrite (re_phase _ _ _ _ _ Hre); done | rewrite (re_sweep _ _ _ _ _ Hre); done | apply (re_retreat _ _ _ _ _ Hre) |].
  change (whites (zlen (slots vm')) (gc vm') <= whites (zlen (slots vm)) (gc vm)). rewrite (re_slots _ _ _ _ _ Hre), zlen_zinsert.
  apply whites_le. intros k Hk. rewrite (re_color _ _ _ _ _ Hre) by done. by case_bool_decide.
Qed.

Lemma sweep_slot_swept (vm : Vm) i s : gc_inv vm -> phase (gc vm) = Sweep -> zget (slots vm) i = Some (Occupied s) ->
  spec (sweep_slot i) vm (fun _ vm' => slot_swept vm i vm') (fun _ vm' => gc_inv vm').
Proof.
  intros Hinv Hp Hz. unfold sweep_slot. apply spec_bind, spec_modify_gc. apply zget_lt in Hz as Hi.
  pose proof (gc_inv_sweep_cursor vm (i + 1) ltac:(lia) Hinv) as Hinv1. set (vm1 := with_gc vm _) in *.
  assert (forall vm', slot_swept vm1 i vm' -> slot_swept vm i vm') as Hfrom by by intros vm' [].
  assert (sweep_cursor (gc vm1) = i + 1) as Hcur by done.
  change (zget (slots vm1) i = Some (Occupied s)) in Hz. change (phase (gc vm1) = Sweep) in Hp. clearbody vm1.
  pose proof (gc_inv_heap _ Hinv1) as Hheap. pose proof (heap_occupied _ _ _ Hheap Hz) as Hc.
  apply spec_bind, spec_get. rewrite (occupied_slot_eq _ _ _ Hz). apply spec_bind, spec_lift; try done. intros o [= <-].
  destruct (heap_color _ _ _ _ _ _ Hheap Hz) as [c Hcol]. rewrite Hcol. cbn [ok_or]. apply spec_bind, spec_ret.
  apply (spec_seq _ _ _ (fun _ vm' => vm' = vm1) _ (fun _ vm' => vm' = vm1)); [| | by intros e vm' ->].
  { destruct (_ && _); [| by apply spec_ret]. apply spec_lift; try done. apply total_bind; [apply checked_in_total | done]. }
  intros a vm' ->. pose proof (slot_swept_skip _ _ Hinv1 Hp Hcur) as Hskip.
  destruct (bool_decide (c = White)) eqn:Hw; cbn [andb]; [| by apply spec_ret, Hfrom].
  apply bool_decide_eq_true in Hw. subst c. destruct (negb _); [| by apply spec_ret, Hfrom].
  eapply spec_seq; [by eapply reclaim_spec | |].
  - intros _ vm' [slot Hre]. apply spec_modify.
    apply Hfrom. by destruct (slot_swept_released _ _ _ _ _ _ _ Hinv1 Hp Hcur Hc Hcol Hre).
  - intros e vm' [l ->]. exact Hinv1.
Qed.

Lemma filter_twice {A} (P : A -> bool) (l : list A) :
  filter (fun x => P x = true) (filter (fun x => P x = true) l) = filter (fun x => P x = true) l.
Proof using Type.
  induction l as [| x l IH]; [done |]. rewrite filter_cons. destruct (decide (P x = true)) as [Hx |]; [| done].
  rewrite filter_cons, decide_True by done. by rewrite IH.
Qed.

Lemma compact_roots (r : RootSet) : root_objects (compact r) = root_objects r.
Proof using Type. unfold root_objects. f_equal. apply (filter_twice (root_active r)). Qed.

Lemma promote_slot_keeps (vm0 : Vm) i s0 : zget (slots vm0) i = Some (Occupied s0) ->
  keeps (fun vm : Vm => gc_inv vm /\ phase (gc vm) = Sweep /\ reslot (fun _ _ _ => True) (slots vm0) (slots vm)) (promote_slot i).
Proof using Type.
  intros Hz0. apply keeps_read. intros vm (Hinv & Hp & Hre). destruct (reslot_occupied Hre _ _ Hz0) as (s & Hz & _).
  rewrite (occupied_slot_eq _ _ _ Hz). apply spec_bind, spec_lift; try done. intros o [= <-].
  destruct (_ || _); [by apply spec_ret |]. eapply spec_update_slot; [exact Hz |].
  set (s' := with_age _ _). assert (reslot (vm_changed vm) (slots vm) (zinsert (slots vm) i (Occupied s'))) as Hch.
  { eapply reslot_insert; [intros; apply changed_refl | exact Hz | done | done |]. split; try done; [intros _; by left | | intros Hf; by left |]; intros c Hc; by left. }
  split; [by apply gc_inv_changed |]. split; [exact Hp |]. by eapply reslot_trans; [| exact Hre | exact Hch].
Qed.

Lemma promote_gc_survivors_keeps (vm : Vm) : gc_inv vm -> phase (gc vm) = Sweep ->
  spec promote_gc_survivors vm (fun _ vm' => gc_inv vm') (fun _ vm' => gc_inv vm').
Proof using Type.
  intros Hinv Hp. unfold promote_gc_survivors. apply spec_bind, spec_get. destruct (bool_decide _); [| by apply spec_ret].
  eapply spec_weaken; [apply (spec_for_occupied _ _ (fun vm' => gc_inv vm' /\ phase (gc vm') = Sweep /\ reslot (fun _ _ _ => True) (slots vm) (slots vm'))) | |].
  - by apply gc_inv_heap.
  - split; [done |]. split; [done |]. by apply reslot_refl.
  - intros i s Hz. by eapply promote_slot_keeps.
  - by intros _ vm' (Hi & _).
  - by intros e vm' (Hi & _).
Qed.

Lemma gc_inv_after_major (vm : Vm) p bytes : gc_inv vm -> gc_inv (with_gc vm (after_major p bytes (gc vm))).
Proof using Type.
  intros Hinv. unfold after_major, refresh_minor_debt_threshold, refresh_major_threshold.
  set (g := with_last_major_lua_heap_bytes _ _). destruct (major_threshold_override g); destruct (debt_threshold_override _); exact Hinv.
Qed.

(** All objects white and nothing to do: the state of the collector at [Pause]. *)
Lemma gc_inv_paused (vm : Vm) g : gc_inv vm -> phase g = Pause -> work g = [] ->
  slot_bits g = slot_bits (clear_colors (gc vm)) -> 0 <= ephemeron_cursor g /\ 0 <= sweep_cursor g -> 0 <= root_cursor g ->
  gc_inv (with_gc vm g).
Proof using Type.
  intros (Hheap & _ & _ & Hanch & Hheld) Hp Hw Hb He Hc. destruct Hheap as [[Hs1 Hs2 Hs3 Hs4 Hs5 Hs6] [Hpages _]].
  assert (forall j, 0 <= j -> color g j = (fun _ => White) <$> color (gc vm) j) as Hcol.
  { intros j Hj. rewrite <- color_clear_colors by done. unfold color. by rewrite Hb. }
  split; [| split; [| split; [| split]]]; try done.
  - split; [split |]; try done.
    + intros j Hj. cbn. rewrite Hcol by done. rewrite fmap_is_Some. by apply Hs2.
    + intros j Hj Hf. apply Hs3; [done |]. rewrite <- Hf. cbn. unfold slot_bit. rewrite Hb. symmetry. by apply slot_bit_clear_colors.
    + cbn. rewrite Hb. unfold zlen. cbn. rewrite length_map. exact Hs6.
    + split; [| done]. unfold pages_ok. cbn. rewrite Hb. by apply clear_colors_pages_ok.
  - unfold work_inv. cbn. rewrite Hw. split; try done; [apply NoDup_nil_2 | by intros o ?%elem_of_nil |].
    intros i s Hz Hg. apply zget_lt in Hz as Hi. rewrite Hcol in Hg by lia. by destruct (color (gc vm) i).
  - unfold cycle_inv. cbn. rewrite Hp. split; try done; by intros [? _].
Qed.

Lemma transition_fields g p :
  phase (transition g p) = p /\ work (transition g p) = work g /\ slot_bits (transition g p) = slot_bits g /\
  ephemeron_cursor (transition g p) = ephemeron_cursor g /\ sweep_cursor (transition g p) = sweep_cursor g /\
  root_cursor (transition g p) = root_cursor g.
Proof using Type. unfold transition. by case_bool_decide. Qed.

(** The end of a cycle. *)
Lemma gc_inv_clear_cycle (vm : Vm) : gc_inv vm -> gc_inv (with_gc vm (clear_cycle (gc vm))).
Proof using Type.
  intros Hinv. unfold clear_cycle. cbv zeta. set (b := bool_decide _). set (g := if b then _ else _).
  destruct (transition_fields g Pause) as (E1 & E2 & E3 & E4 & E5 & E6).
  apply gc_inv_paused; rewrite ?E1, ?E2, ?E3, ?E4, ?E5, ?E6; subst g; by destruct b.
Qed.

Lemma finish_sweep_pauses (vm : Vm) : gc_inv vm -> phase (gc vm) = Sweep ->
  spec finish_sweep vm (fun _ vm' => gc_inv vm' /\ phase (gc vm') = Pause) (fun _ vm' => gc_inv vm').
Proof using Type.
  intros Hinv Hp. unfold finish_sweep. apply spec_bind, spec_get. apply spec_bind, spec_modify_gc.
  assert (0 <= gc_scan_end vm) as Hs by by destruct Hinv as ([[_ _ _ [? _] _ _] _] & _).
  pose proof (gc_inv_sweep_cursor vm _ Hs Hinv) as Hinv1. apply spec_bind, spec_modify.
  set (vm1 := with_gc vm _) in *. set (vm2 := with_roots vm1 _).
  assert (gc_inv vm2) as Hinv2.
  { apply (gc_inv_roots vm1); try done; [| intros e [_ He]%list_elem_of_filter; by apply (gc_inv_ids vm1)]. intros r.
    change (root_list vm2) with (root_objects (compact (roots vm1)) ++ map fe_object (finalizer_queue vm1)). rewrite compact_roots. by left. }
  eapply spec_seq; [by apply promote_gc_survivors_keeps | | done].
  intros u vm3 Hinv3. cbn beta in Hinv3. clear u. apply spec_bind, spec_modify.
  match goal with |- spec _ ?vm _ _ => assert (gc_inv vm) as Hinv4; [destruct (_ && _); [by apply gc_inv_after_major | done] |]; generalize vm, Hinv4; clear Hinv4 end.
  intros vm4 Hinv4.
  apply spec_bind, spec_modify_gc. generalize (gc_inv_clear_cycle _ Hinv4).
  assert (phase (gc (with_gc vm4 (clear_cycle (gc vm4)))) = Pause) as Hpause by apply transition_phase. revert Hpause.
  generalize (with_gc vm4 (clear_cycle (gc vm4))). intros vm5 Hp5 Hinv5. apply spec_bind, spec_modify. apply spec_modify. cbv beta. destruct (bool_decide _); (split; [exact Hinv5 | exact Hp5]).
Qed.

(** A step of the sweep: the next slot, or the end of the cycle. *)
Definition stepped_sweep (vm vm' : Vm) : Prop :=
  gc_inv vm' /\ (phase (gc vm') = Pause \/
    exists i, sweep_cursor (gc vm) <= i < gc_scan_end vm /\ slot_swept vm i vm').

Lemma step_sweep_stepped (vm : Vm) : gc_inv vm -> phase (gc vm) = Sweep ->
  spec step_sweep vm (fun _ vm' => stepped_sweep vm vm') (fun _ vm' => gc_inv vm').
Proof.
  intros Hinv Hp. pose proof (gc_inv_heap _ Hinv) as Hh. unfold step_sweep. apply spec_bind, spec_get.
  assert (work_left vm = false) as ->.
  { apply work_left_false. destruct Hinv as (_ & Hw & _). apply (wo_idle _ _ _ _ _ Hw). by right. }
  destruct (next_occupied _ _ _) as [i |] eqn:Hn; [| eapply spec_weaken; [by apply finish_sweep_pauses | by intros _ vm' [? ?]; split; [| left] | done]].
  destruct (next_occupied_slot vm (sweep_cursor (gc vm)) i Hh) as (Hi & s & Hz); [by destruct Hh as [_ (_ & _ & ?)] | done |].
  eapply spec_weaken; [by eapply sweep_slot_swept | | done].
  intros u vm' Hs. cbn beta in Hs. split; [by apply ss_inv in Hs |]. right. by exists i.
Qed.

Lemma step_sweep_keeps (vm : Vm) : gc_inv vm -> phase (gc vm) = Sweep ->
  spec step_sweep vm (fun _ vm' => gc_inv vm') (fun _ vm' => gc_inv vm').
Proof. intros Hi Hp. eapply spec_weaken; [by apply step_sweep_stepped | by intros u vm' [? _] | done]. Qed.

End Cycle.
