(* ===== verification/HeapBegin.v ===== *)
(** The beginning of a cycle keeps the invariant of the heap, and with it every round of
    the collector does; rounds never panic. *)

From Stdlib Require Import ZArith Lia.
From stdpp Require Import base list numbers relations.
From S2P Require Import Prelude Float Number Table TableSpec TableSet TableEdges GcState GcBits ShortStrings Heap Barrier Collector HeapEdges HeapInv HeapMark HeapChange HeapRounds HeapAtomic HeapFinish HeapSweep HeapCycle.

Local Open Scope Z_scope.

Section Begin.
Context `{Suspended} {L : Type} `{HeapLedgerLaws L refused} `{Hasher}.
#[local] Set Default Proof Using "Type*".

Notation Vm := (Vm L).
Notation HeapM := (ST Vm VmError).

(** ** The weak modes that a cycle begins with *)

(** A table whose metatable asks for another mode than its last one: what only the new
    mode holds by itself is intact. A mode that never changes asks for nothing, and
    neither does one that makes a table weak. *)
Definition modes_ok (vm : Vm) : Prop := forall i s t m c,
  zget (slots vm) i = Some (Occupied s) -> payload (object s) = PTable t -> current_weak_mode vm t = Ok m ->
  c ∈ table_strong (string_in (slots vm) (vm_id vm)) (set_weak_mode t m) ->
  c ∈ table_strong (string_in (slots vm) (vm_id vm)) t \/ intact (slots vm) (vm_id vm) c.

Lemma set_weak_mode_fields t m : metatable (set_weak_mode t m) = metatable t /\
  array (set_weak_mode t m) = array t /\ hash (set_weak_mode t m) = hash t /\ weak_mode (set_weak_mode t m) = m.
Proof using Type. unfold set_weak_mode. by case_bool_decide. Qed.

Lemma set_weak_mode_held t m : table_held (set_weak_mode t m) = table_held t.
Proof using Type. unfold table_held. by destruct (set_weak_mode_fields t m) as (-> & -> & -> & _). Qed.

Lemma set_weak_mode_same str t : table_strong str (set_weak_mode t (weak_mode t)) = table_strong str t.
Proof using Type. unfold table_strong. by destruct (set_weak_mode_fields t (weak_mode t)) as (-> & -> & -> & ->). Qed.

(** Tables whose mode is up to date, or strong, are all right. *)
Lemma modes_ok_steady (vm : Vm) :
  (forall i s t m, zget (slots vm) i = Some (Occupied s) -> payload (object s) = PTable t -> current_weak_mode vm t = Ok m ->
     m = weak_mode t \/ weak_mode t = WeakMode.Strong) -> modes_ok vm.
Proof using Type.
  intros Hs i s t m c Hz Hp Hm Hc. left. destruct (Hs i s t m Hz Hp Hm) as [-> | Ht]; [by rewrite set_weak_mode_same in Hc |].
  apply table_strong_held in Hc. rewrite set_weak_mode_held in Hc. unfold table_strong. by rewrite Ht.
Qed.

(** One table after the snapshot. *)
Definition snapshot (vm : Vm) (i : Z) (s s' : OccupiedSlot) : Prop :=
  s' = s \/ exists t m, payload (object s) = PTable t /\ current_weak_mode vm t = Ok m /\
    s' = with_payload s (PTable (set_weak_mode t m)).

Lemma snapshot_kind (vm : Vm) i s s' : snapshot vm i s s' -> keeps_kind s s'.
Proof using Type. intros [-> | (t & m & Hp & _ & ->)]; [done |]. unfold keeps_kind. cbn. by rewrite Hp. Qed.

(** The slots of [vm'] are those of [vm] after some snapshots. *)
Definition snapped (vm vm' : Vm) : Prop :=
  vm' = with_slots vm (slots vm') /\ reslot (snapshot vm) (slots vm) (slots vm').

Lemma snapped_payload (vm vm' : Vm) o : snapped vm vm' ->
  match checked_slot vm o with
  | Ok (i, s) => exists s', checked_slot vm' o = Ok (i, s') /\ snapshot vm i s s'
  | r => checked_slot vm' o = r
  end.
Proof using Type.
  intros [E Hre]. unfold checked_slot. replace (vm_id vm') with (vm_id vm) by by rewrite E.
  destruct (checked_in (slots vm) (vm_id vm) o) as [[i s] | e | k] eqn:Hc.
  - destruct (reslot_checked Hre _ _ _ Hc) as (s' & Hc' & _ & Hs). eauto.
  - destruct (checked_in (slots vm') (vm_id vm) o) as [[i s'] | e' | k] eqn:Hc'.
    + destruct (reslot_checked_inv Hre _ _ _ Hc') as (s & Hc1 & _). congruence.
    + revert Hc Hc'. unfold checked_in. destruct (identity o) as [id |]; [| congruence]. destruct (negb _); [congruence |].
      destruct (zget (slots vm) (slot_index (oid_slot id))) as [[s | |] |];
        destruct (zget (slots vm') (slot_index (oid_slot id))) as [[s' | |] |];
        repeat case_bool_decide; cbn; congruence.
    + by apply checked_in_total in Hc'.
  - by apply checked_in_total in Hc.
Qed.

(** The snapshot of one table does not change what another one's metatable asks for. *)
Lemma snapped_mode (vm vm' : Vm) t : snapped vm vm' -> current_weak_mode vm' t = current_weak_mode vm t.
Proof using Type.
  intros Hs. unfold current_weak_mode.
  assert ((match metatable t with Some m => t ← with_table vm' m; Ok (mode_value t) | None => Ok VNil end) =
          (match metatable t with Some m => t ← with_table vm m; Ok (mode_value t) | None => Ok VNil end)) as ->.
  { destruct (metatable t) as [m |]; [| done]. unfold with_table. pose proof (snapped_payload _ _ m Hs) as Hm.
    destruct (checked_slot vm m) as [[i s] | e | k]; [| by rewrite Hm | by rewrite Hm].
    destruct Hm as (s' & -> & Hsn). destruct Hsn as [-> | (u & w & Hp & _ & ->)]; [done |].
    cbn. rewrite Hp. cbn. unfold mode_value. by destruct (set_weak_mode_fields u w) as (_ & _ & -> & _). }
  destruct (match metatable t with Some m => _ | None => _ end) as [v | |]; [| done | done]. cbn.
  destruct v as [| | | | | | o]; try done. unfold object_kind, with_byte_string. pose proof (snapped_payload _ _ o Hs) as Ho.
  destruct (checked_slot vm o) as [[i s] | e | k]; [| by rewrite Ho | by rewrite Ho].
  destruct Ho as (s' & -> & Hsn). destruct Hsn as [-> | (u & w & Hp & _ & ->)]; [by destruct Hs as [-> _] |].
  cbn. rewrite Hp. done.
Qed.

Lemma snapped_gc_inv (vm vm' : Vm) : gc_inv vm -> phase (gc vm) = Pause -> modes_ok vm -> snapped vm vm' -> gc_inv vm'.
Proof using Type.
  intros Hinv Hp Hmodes [-> Hre]. apply gc_inv_changed; [done |]. eapply reslot_weaken; [| exact Hre].
  intros i s s' Hz _ Hs. split.
  - by eapply snapshot_kind.
  - destruct Hs as [-> | (t & m & _ & _ & ->)]; done.
  - destruct Hs as [-> | (t & m & Ht & Hm & ->)]; [by left |]. intros c Hc. unfold strong_edges in *. cbn in Hc. rewrite Ht.
    apply elem_of_app in Hc as [Hc | Hc]; [| left; apply elem_of_app; by right].
    destruct (Hmodes i s t m c Hz Ht Hm Hc) as [|]; [left; apply elem_of_app; by left | right; by split].
  - destruct Hs as [-> | (t & m & _ & _ & ->)]; by left.
  - destruct Hs as [-> | (t & m & Ht & Hm & ->)]; [by left |]. intros c Hc. left. unfold held_edges in *. cbn in Hc.
    rewrite Ht. by rewrite set_weak_mode_held in Hc.
Qed.

(** ** The loops of the beginning *)

Lemma with_table_total (vm : Vm) o : total (with_table vm o).
Proof using Type. apply total_bind; [apply checked_in_total |]. intros [i s] _. cbn. by destruct (payload _). Qed.

Lemma current_weak_mode_total (vm : Vm) t : total (current_weak_mode vm t).
Proof using Type.
  apply total_bind; [destruct (metatable t); [apply total_bind; [apply with_table_total | done] | done] |].
  intros v _. destruct v as [| | | | | | o]; try done. apply total_bind; [apply total_bind; [apply checked_in_total | done] |].
  intros k _. destruct (negb _); [done |]. apply total_bind; [| done].
  apply total_bind; [apply checked_in_total |]. intros [i s] _. cbn. by destruct (payload _).
Qed.

Lemma current_weak_mode_set (vm : Vm) t m : current_weak_mode vm (set_weak_mode t m) = current_weak_mode vm t.
Proof using Type. unfold current_weak_mode. by destruct (set_weak_mode_fields t m) as (-> & _). Qed.

Lemma set_weak_mode_twice t m : set_weak_mode (set_weak_mode t m) m = set_weak_mode t m.
Proof using Type.
  unfold set_weak_mode at 1. destruct (set_weak_mode_fields t m) as (_ & _ & _ & ->). rewrite bool_decide_eq_true_2 by done.
  unfold set_weak_mode. by case_bool_decide.
Qed.

Lemma snapshot_weak_mode_keeps (vm0 : Vm) i s0 : heap_inv vm0 -> zget (slots vm0) i = Some (Occupied s0) ->
  keeps (snapped vm0) (snapshot_weak_mode i).
Proof using Type.
  intros Hheap Hz0. apply keeps_read. intros vm Hs. pose proof Hs as [E Hre].
  destruct (reslot_occupied Hre _ _ Hz0) as (s & Hz & _ & _ & Hsn).
  rewrite (occupied_slot_eq _ _ _ Hz). apply spec_bind, spec_lift; try done. intros o [= <-].
  destruct (payload (object s)) as [| | t | | | | | | | |] eqn:Hp; try by apply spec_ret.
  apply spec_bind, spec_lift; [apply current_weak_mode_total | | done].
  intros m Hm. rewrite (snapped_mode _ _ _ Hs) in Hm.
  assert (self_checked (slots vm) (vm_id vm)) as Hself.
  { replace (vm_id vm) with (vm_id vm0) by by rewrite E. apply (reslot_self Hre). by apply inv_self. }
  unfold update_payload. apply spec_bind, spec_get. unfold checked_slot. rewrite (Hself _ _ Hz). apply spec_bind, spec_lift; try done.
  intros f [= <-]. cbn [fst snd]. rewrite Hp. cbn [on_table]. apply spec_bind, spec_lift; try done. intros p [= <-].
  eapply spec_update_slot; [exact Hz |]. split; [by rewrite E |]. cbn. split.
  { rewrite zlen_zinsert. apply Hre. }
  intros j. pose proof (proj2 Hre j) as Hj. apply zget_lt in Hz as Hi. destruct (decide (j = i)) as [-> | Hne].
  - rewrite Hz0, Hz in *. destruct Hj as (s1 & [= <-] & Hg & Hr & _). rewrite zget_zinsert_eq by done.
    eexists. split; [done |]. split; [done |]. split; [done |]. right.
    destruct Hsn as [-> | (t0 & m0 & Hp0 & Hm0 & ->)]; [by exists t, m |].
    cbn in Hp. injection Hp as <-. rewrite current_weak_mode_set, Hm0 in Hm. injection Hm as <-.
    exists t0, m0. rewrite set_weak_mode_twice. done.
  - by rewrite zget_zinsert_ne by lia.
Qed.

Lemma snapshot_weak_modes_spec (vm : Vm) : heap_inv vm ->
  spec snapshot_weak_modes vm (fun _ vm' => snapped vm vm') (fun _ vm' => snapped vm vm').
Proof using Type.
  intros Hh. apply spec_for_occupied; [done | | intros i s Hz; by eapply snapshot_weak_mode_keeps].
  split; [by destruct vm |]. apply reslot_refl. by left.
Qed.

(** At [Pause] only the gray colour means anything. *)
Lemma gc_inv_pause_color (vm : Vm) i : gc_inv vm -> phase (gc vm) = Pause -> 0 <= i < zlen (slots vm) ->
  exists g, set_color (gc vm) i Black = Ok g /\ gc_inv (with_gc vm g) /\ g = with_slot_bits (gc vm) (slot_bits g) /\
    (forall j, 0 <= j -> color g j = if bool_decide (j = i) then (fun _ => Black) <$> color (gc vm) i else color (gc vm) j).
Proof using Type.
  intros (Hheap & Hwork & Hcycle & Hrest) Hp Hi.
  destruct (set_color_spec _ _ _ (gc vm) i Black Hheap Hi) as (g & Hg & E & Hcol & Hpages & Hlen & Hfree).
  exists g. split; [done |]. split; [| done]. split; [| split; [| split]]; try done.
  - destruct Hheap as [[Hs1 Hs2 Hs3 Hs4 Hs5 Hs6] [Hpg Hcur]]. split; [| split; [by apply Hpages | by rewrite E]]. split; try done.
    + intros j Hj. cbn. rewrite Hcol by done. case_bool_decide; [subst; rewrite fmap_is_Some |]; by apply Hs2.
    + intros j Hj. cbn. rewrite Hfree by done. by apply Hs3.
    + cbn. by rewrite Hlen.
  - destruct Hwork as [Hnd Hgray Hwk Hidle]. unfold work_inv. cbn. rewrite E. cbn. rewrite <- E.
    assert (work (gc vm) = []) as Hnil by (apply Hidle; by left). rewrite Hnil. split; [apply NoDup_nil_2 | by intros o ?%elem_of_nil | | done].
    intros j t Hz Hc. apply zget_lt in Hz as Hj. rewrite Hcol in Hc by lia. case_bool_decide.
    + by destruct (color (gc vm) i).
    + specialize (Hwk j t Hz Hc). rewrite Hnil in Hwk. by apply elem_of_nil in Hwk.
  - unfold cycle_inv. cbn. rewrite E. cbn. rewrite <- E, Hp. destruct Hcycle. split; try done; by intros [? _].
Qed.

(** What is black when a cycle begins. *)
Record beginning (vm0 : Vm) (kind : GcCycleKind) (vm : Vm) : Prop := {
  bg_inv : gc_inv vm;
  bg_phase : phase (gc vm) = Pause;
  bg_slots : slots vm = slots vm0;
  bg_mode : mode (gc vm) = mode (gc vm0);
  bg_roots : root_list vm = root_list vm0;
  bg_black : forall i s, zget (slots vm) i = Some (Occupied s) -> color (gc vm) i = Some Black -> kind = Minor /\ age s = Old;
}.

Lemma blacken_old_keeps (vm0 : Vm) i s0 : zget (slots vm0) i = Some (Occupied s0) -> keeps (beginning vm0 Minor) (blacken_old i).
Proof using Type.
  intros Hz0. apply keeps_read. intros vm [Hinv Hp Hs Hm Hr Hblack].
  assert (zget (slots vm) i = Some (Occupied s0)) as Hz by congruence.
  rewrite (occupied_slot_eq _ _ _ Hz). apply spec_bind, spec_lift; try done. intros o [= <-].
  case_bool_decide as Hage; [| by apply spec_ret]. apply zget_lt in Hz as Hi.
  destruct (gc_inv_pause_color vm i Hinv Hp Hi) as (g & Hg & Hinv' & E & Hcol). apply (spec_update_gc _ _ _ _ _ Hg).
  split; try done; [by cbn; rewrite E | by cbn; rewrite E |].
  intros j t Hzj Hc. cbn in Hzj, Hc. split; [done |]. apply zget_lt in Hzj as Hj. rewrite Hcol in Hc by lia.
  case_bool_decide as Hji; [subst; congruence |]. by apply (Hblack j t).
Qed.

(** ** The beginning *)

Lemma gc_inv_started (vm0 vm : Vm) kind live charge bytes : beginning vm0 kind vm ->
  (kind = Minor -> mode (gc vm0) = Generational) ->
  gc_inv (with_gc vm (cycle_started kind live (root_list vm0) charge bytes (gc vm))).
Proof using Type.
  intros [Hinv Hp Hs Hm Hr Hblack] Hkind. unfold cycle_started. cbv zeta. set (g := with_cycle _ kind).
  rewrite transition_frame. generalize (transition_count (transition g RootMark)). intros n. subst g.
  destruct Hinv as ([Hheap [Hpages Hcur]] & Hwork & Hcycle & Hanch & Hheld).
  assert (forall i s, zget (slots vm) i = Some (Occupied s) -> color (gc vm) i <> Some Gray) as Hgray.
  { intros i s Hz Hc. pose proof (wo_work _ _ _ _ _ Hwork i s Hz Hc) as Hin.
    rewrite (wo_idle _ _ _ _ _ Hwork) in Hin by (rewrite Hp; by left). by apply elem_of_nil in Hin. }
  split; [| split; [| split; [| split]]]; try done.
  - split; try done; [apply NoDup_nil_2 | by intros o ?%elem_of_nil |]. intros i s Hz Hc. by destruct (Hgray i s Hz).
  - split; try done.
    + intros _ E. cbn. rewrite Hm. by apply Hkind.
    + intros _ i s Hz Hc [? | Hset]; [done |]. by destruct (Hset (Hblack i s Hz Hc)).
    + intros _ r Hin. right. change (r ∈ root_list vm) in Hin. rewrite Hr in Hin. exact Hin.
    + by intros [_ ?].
Qed.

(** A cycle of this kind is at its start: the roots are to be marked, and nothing is but the
    old objects of a minor cycle. *)
Record started (kind : GcCycleKind) (m : GcMode) (vm : Vm) : Prop := {
  sd_inv : gc_inv vm;
  sd_phase : phase (gc vm) = RootMark;
  sd_mode : mode (gc vm) = m;
  sd_cycle : cycle (gc vm) = kind;
  sd_roots : GcState.gc_roots (gc vm) = root_list vm;
  sd_sweep : sweep_cursor (gc vm) = 0;
  sd_color : forall i s, zget (slots vm) i = Some (Occupied s) -> color (gc vm) i <> Some White -> kind = Minor /\ age s = Old
}.

Lemma beginning_started (vm0 vm : Vm) kind live charge bytes : beginning vm0 kind vm -> (kind = Minor -> mode (gc vm0) = Generational) ->
  started kind (mode (gc vm0)) (with_gc vm (cycle_started kind live (root_list vm0) charge bytes (gc vm))).
Proof using Type.
  intros Hb Hkind. pose proof (gc_inv_started _ _ _ live charge bytes Hb Hkind) as Hinv. destruct Hb as [Hinv0 Hp Hs Hm Hr Hblack].
  split; [exact Hinv | | | | | |]; unfold cycle_started; cbv zeta; rewrite transition_frame; try done.
  intros i s Hz Hc. change (zget (slots vm) i = Some (Occupied s)) in Hz. change (color (gc vm) i <> Some White) in Hc.
  apply (Hblack i s Hz). destruct (heap_color _ _ _ _ _ _ (gc_inv_heap _ Hinv0) Hz) as [[] E]; [congruence | | done].
  destruct Hinv0 as (_ & Hw & _). pose proof (wo_work _ _ _ _ _ Hw i s Hz E) as Hin.
  rewrite (wo_idle _ _ _ _ _ Hw) in Hin by by left. by apply elem_of_nil in Hin.
Qed.

Lemma begin_gc_cycle_kind_starts (vm : Vm) kind : gc_inv vm -> modes_ok vm -> (kind = Minor -> mode (gc vm) = Generational) ->
  spec (begin_gc_cycle_kind kind) vm (fun _ vm' => started kind (mode (gc vm)) vm') (fun _ vm' => gc_inv vm').
Proof.
  intros Hinv Hmodes Hkind. unfold begin_gc_cycle_kind. apply spec_bind, spec_get.
  case_bool_decide as Hp; cbn [negb]; [| by apply spec_fail].
  set (I0 := fun vm' : Vm => exists l, vm' = with_ledger vm l).
  assert (forall vm' l, I0 vm' -> I0 (with_ledger vm' l)) as HI0 by (intros vm' l [l' ->]; by exists l).
  assert (forall (e : VmError) vm', I0 vm' -> gc_inv vm') as Hend by by intros e vm' [l ->].
  apply (keeps_ledger I0); [done | apply returns_reserve_vec | exists (ledger vm); by destruct vm | | done]. intros _ vm1 Hvm1.
  eapply spec_seq; [by apply (keeps_checked_add I0) | | done]. clear vm1 Hvm1. intros count vm1 Hvm1.
  apply (keeps_ledger I0); [done | apply returns_reserve_vec | done | | done]. clear vm1 Hvm1. intros _ vm1 Hvm1.
  eapply spec_seq; [apply (keeps_each I0 _ _) with (s := vm1); [| done] | | done].
  { intros r _. apply keeps_bind; [apply keeps_lift, checked_in_total | intros _; apply keeps_ret]. }
  clear vm1 Hvm1. intros _ vm1 [l ->].
  set (I1 := fun vm' : Vm => gc_inv vm' /\ phase (gc vm') = Pause /\ mode (gc vm') = mode (gc vm) /\ root_list vm' = root_list vm).
  assert (forall vm' l, I1 vm' -> I1 (with_ledger vm' l)) as HI1 by by intros vm' l' (? & ? & ? & ?).
  assert (forall (e : VmError) vm', I1 vm' -> gc_inv vm') as Hend1 by by intros e vm' (? & _).
  assert (forall vm', snapped (with_ledger vm l) vm' -> I1 vm') as Hsnap.
  { intros vm' Hs. split; [by apply (snapped_gc_inv (with_ledger vm l)) |]. by destruct Hs as [-> _]. }
  eapply spec_seq; [apply (snapshot_weak_modes_spec (with_ledger vm l)); by apply gc_inv_heap | |
    intros e vm' Hs; by apply (Hend1 e), Hsnap].
  intros _ vm2 Hvm2%Hsnap.
  eapply spec_seq; [by apply (keeps_checked_bytes I1) | | done]. clear vm2 Hvm2. intros work_bytes vm2 Hvm2.
  eapply spec_seq; [by apply (keeps_checked_bytes I1) | | done]. clear vm2 Hvm2. intros root_bytes vm2 Hvm2.
  eapply spec_seq; [by apply (keeps_checked_add I1) | | done]. clear vm2 Hvm2. intros charge vm2 Hvm2.
  apply (keeps_ledger I1); [done | | done | | done].
  { apply returns_bind; [apply returns_reserve_charges | intros _]. apply returns_bind; [apply returns_commit | intros _; apply returns_commit]. }
  clear vm2 Hvm2. intros _ vm2 (Hinv2 & Hp2 & Hm2 & Hr2). apply spec_bind, spec_modify_gc.
  set (vm3 := with_gc vm2 _). assert (beginning vm3 kind vm3) as Hb.
  { split; try done.
    - assert (work (gc vm2) = []) as Hw by (destruct Hinv2 as (_ & Hw & _); apply (wo_idle _ _ _ _ _ Hw); by left).
      pose proof Hinv2 as (Hheap2 & _ & Hc2 & _). apply gc_inv_paused; try done; [apply Hheap2 | apply (co_cursor _ _ _ _ _ _ _ _ _ _ Hc2)].
    - intros i s Hz Hc. apply zget_lt in Hz as Hi. cbn in Hc. rewrite color_clear_colors in Hc by lia. destruct (color (gc vm2) i); discriminate. }
  eapply (spec_seq _ _ _ (fun _ vm' => beginning vm3 kind vm') _ (fun _ vm' => beginning vm3 kind vm')).
  - case_bool_decide as Hk; [subst kind | by apply spec_ret].
    apply spec_for_occupied; [apply gc_inv_heap, (bg_inv _ _ _ Hb) | done |]. intros i s Hz. by eapply blacken_old_keeps.
  - intros _ vm4 Hb4. apply spec_modify.
    replace (root_objects (roots vm) ++ map fe_object (finalizer_queue vm)) with (root_list vm3) by done.
    rewrite <- Hm2. apply (beginning_started vm3); [done |]. intros Hk. change (mode (gc vm2) = Generational). rewrite Hm2. by apply Hkind.
  - intros e vm4 Hb4. apply (bg_inv _ _ _ Hb4).
Qed.

Lemma begin_gc_cycle_kind_keeps (vm : Vm) kind : gc_inv vm -> modes_ok vm -> (kind = Minor -> mode (gc vm) = Generational) ->
  spec (begin_gc_cycle_kind kind) vm (fun _ vm' => gc_inv vm') (fun _ vm' => gc_inv vm').
Proof. intros Hinv Hm Hk. eapply spec_weaken; [by apply begin_gc_cycle_kind_starts | by intros _ vm' [] | done]. Qed.

Lemma cycle_kind_minor g : cycle_kind g = Minor -> mode g = Generational.
Proof using Type. unfold cycle_kind. by destruct (mode g). Qed.

Lemma begin_gc_cycle_keeps (vm : Vm) : gc_inv vm -> modes_ok vm ->
  spec begin_gc_cycle vm (fun _ vm' => gc_inv vm') (fun _ vm' => gc_inv vm').
Proof.
  intros Hinv Hm. apply spec_bind, spec_get. apply begin_gc_cycle_kind_keeps; [done | done |]. apply cycle_kind_minor.
Qed.

(** ** A round *)

Lemma gc_round_keeps (vm : Vm) began : gc_inv vm -> (phase (gc vm) = Pause -> began = false -> modes_ok vm) ->
  spec (gc_round began) vm (fun _ vm' => gc_inv vm') (fun _ vm' => gc_inv vm').
Proof.
  intros Hinv Hmodes. unfold gc_round. apply spec_bind, spec_get.
  destruct (phase (gc vm)) eqn:Hp; [destruct began; [by apply spec_ret |] | | | |].
  - eapply spec_seq; [by apply begin_gc_cycle_keeps; auto | | done]. intros u vm' Hinv'. by apply spec_ret.
  - eapply spec_seq; [by apply step_root_mark_keeps | | done]. intros u vm' Hinv'. by apply spec_ret.
  - eapply spec_seq; [by apply step_propagate_keeps | | done]. intros u vm' Hinv'. by apply spec_ret.
  - eapply spec_seq; [by apply step_gc_atomic_keeps | | done]. intros u vm' Hinv'. by apply spec_ret.
  - eapply spec_seq; [by apply step_sweep_keeps | | done]. intros u vm' Hinv'. by apply spec_ret.
Qed.

(** ** The mode of the collector

    A change of mode makes every object young. *)

Lemma rejuvenate_slot_keeps (vm0 : Vm) i s0 : zget (slots vm0) i = Some (Occupied s0) ->
  keeps (fun vm : Vm => gc_inv vm /\ phase (gc vm) = Pause /\ reslot (fun _ _ _ => True) (slots vm0) (slots vm)) (rejuvenate_slot i).
Proof using Type.
  intros Hz0. apply keeps_read. intros vm (Hinv & Hp & Hre). destruct (reslot_occupied Hre _ _ Hz0) as (s & Hz & _).
  rewrite (occupied_slot_eq _ _ _ Hz). apply spec_bind, spec_lift; try done. intros o [= <-].
  eapply spec_update_slot; [exact Hz |]. set (s' := with_survivals _ _).
  assert (reslot (vm_changed vm) (slots vm) (zinsert (slots vm) i (Occupied s'))) as Hch.
  { eapply reslot_insert; [intros; apply changed_refl | exact Hz | done | done |]. split; try done; [| intros Hf; by left |];
      intros c Hc; by left. }
  split; [by apply gc_inv_changed |]. split; [exact Hp |]. by eapply reslot_trans; [| exact Hre | exact Hch].
Qed.

Lemma set_gc_mode_keeps (vm : Vm) m : gc_inv vm -> spec (set_gc_mode m) vm (fun _ vm' => gc_inv vm') (fun _ vm' => gc_inv vm').
Proof using Type.
  intros Hinv. unfold set_gc_mode. apply spec_bind, spec_get. case_bool_decide as Hp; cbn [negb]; [| by apply spec_fail].
  destruct (bool_decide (mode (gc vm) = m)); [by apply spec_ret |]. apply spec_bind, spec_modify_gc.
  assert (gc_inv (with_gc vm (clear_remembered (gc vm)))) as Hinv1 by exact Hinv. set (vm1 := with_gc vm _) in *.
  apply spec_bind, spec_get.
  eapply (spec_seq _ _ _ (fun _ vm' => gc_inv vm' /\ phase (gc vm') = Pause) _ (fun _ => gc_inv)); [| | done].
  - eapply spec_weaken; [eapply keeps_spec; [apply keeps_each |] | |].
    + intros i Hi. unfold occupied_indices in Hi. rewrite occupied_from_spec in Hi by (try lia; apply Hinv1). destruct Hi as [Hi Hb].
      assert (exists s, zget (slots vm1) i = Some (Occupied s)) as [s Hz].
      { destruct Hinv1 as ([Hh _] & _). apply (ho_color _ _ _ _ _ _ Hh); [lia |]. apply color_occupied; [lia | done]. }
      by eapply rejuvenate_slot_keeps.
    + split; [exact Hinv1 |]. split; [exact Hp | by apply reslot_refl].
    + by intros u vm' (? & ? & _).
    + by intros e vm' (? & _).
  - intros u vm2 [(Hheap & Hwork & Hcycle & Hrest) Hp2]. apply spec_modify_gc. split; [exact Hheap |]. split; [exact Hwork |]. split; [| exact Hrest].
    destruct Hcycle. unfold cycle_inv. cbn. rewrite Hp2 in *. split; try done; by intros [? _].
Qed.

End Begin.
