(* ===== verification/HeapReclaim.v ===== *)
(** A full cycle reclaims what does not live: every mark is of an object that lives by the
    heap at the start of the cycle, and the sweep leaves nothing else. *)

From Stdlib Require Import ZArith Lia.
From stdpp Require Import base list numbers relations.
From S2P Require Import Prelude Float Number Table TableSpec TableSet TableEdges GcState GcBits ShortStrings Heap Barrier Collector HeapEdges HeapInv HeapMark HeapLive HeapChange HeapRounds HeapProgress HeapAtomic HeapFinish HeapSweep HeapCycle HeapBegin.

Local Open Scope Z_scope.

Section Reclaim.
Context `{Suspended} {L : Type} `{HeapLedgerLaws L refused} `{Hasher}.
#[local] Set Default Proof Using "Type*".

Notation Vm := (Vm L).
Notation HeapM := (ST Vm VmError).

(** ** Successful runs *)

Lemma ok_on_gc {A} (m : ST GcState VmError A) (vm : Vm) a vm' : on_gc m vm = (Ok a, vm') ->
  exists g, m (gc vm) = (Ok a, g) /\ vm' = with_gc vm g.
Proof using Type. unfold on_gc. destruct (m (gc vm)) as [r g]. intros [= -> <-]. eauto. Qed.

Lemma ok_get {B} (f : Vm -> HeapM B) (vm : Vm) b vm' : (get ≫= f) vm = (Ok b, vm') -> f vm vm = (Ok b, vm').
Proof using Type. done. Qed.

Lemma ok_or_else_fail {A} (m : HeapM A) undo (vm : Vm) a vm' :
  (forall e vm a vm', undo e vm <> (Ok a, vm')) -> or_else m undo vm = (Ok a, vm') -> m vm = (Ok a, vm').
Proof using Type. intros Hu. unfold or_else. destruct (m vm) as [[b | e | k] vm1]; [done | | done]. intros E. by destruct (Hu _ _ _ _ E). Qed.

Lemma ok_for_occupied (I : Vm -> Prop) body (vm : Vm) u vm' : heap_inv vm -> I vm ->
  (forall i s, zget (slots vm) i = Some (Occupied s) -> upholds I (body i)) -> for_occupied body vm = (Ok u, vm') -> I vm'.
Proof using Type.
  intros Hh HI Hb E. unfold for_occupied in E. apply ok_get in E. revert HI E. apply upholds_each. intros i Hi. apply occupied_indices_elem in Hi as [s Hz]; eauto.
Qed.

(** ** An object that lost references, or its registration *)

Record fewer (s0 s : OccupiedSlot) : Prop := {
  fw_object : object s = object s0 \/ exists t0 t, payload (object s0) = PTable t0 /\
    object s = {| payload := PTable t; children := children (object s0) |} /\ lesser t0 t;
  fw_finalizer : finalizer s = Registered -> finalizer s0 = Registered
}.

Lemma fewer_refl s : fewer s s.
Proof using Type. split; [by left | done]. Qed.

Lemma fewer_trans s0 s1 s2 : fewer s0 s1 -> fewer s1 s2 -> fewer s0 s2.
Proof using Type.
  intros [O1 F1] [O2 F2]. split; [| auto]. destruct O2 as [-> | (t1 & t2 & Hp & Ho & Hl)]; [done |]. right.
  destruct O1 as [E | (t0 & t1' & Hp0 & Ho1 & Hl1)].
  - exists t1, t2. by rewrite <- E.
  - rewrite Ho1 in Hp, Ho. cbn in Hp, Ho. injection Hp as ->. exists t0, t2. split; [done |]. split; [done |].
    by eapply lesser_trans.
Qed.

Lemma fewer_table s0 s t : fewer s0 s -> payload (object s) = PTable t -> exists t0, payload (object s0) = PTable t0 /\ lesser t0 t.
Proof using Type.
  intros [[E | (t0 & t' & Hp & Ho & Hl)] _] Ht; [exists t; rewrite <- E; split; [done | apply lesser_refl] |].
  rewrite Ho in Ht. cbn in Ht. injection Ht as ->. eauto.
Qed.

Lemma fewer_kind s0 s : fewer s0 s -> keeps_kind s0 s.
Proof using Type. unfold keeps_kind. intros [[-> | (t0 & t & Hp & Ho & _)] _]; [done |]. by rewrite Hp, Ho. Qed.

Lemma fewer_strong str s0 s : fewer s0 s -> strong_edges str (object s) ⊆ strong_edges str (object s0).
Proof using Type.
  intros [[-> | (t0 & t & Hp & Ho & Hl)] _]; [done |]. intros c. unfold strong_edges. rewrite Hp, Ho. cbn.
  rewrite !elem_of_app. intros [Hc |]; [left; by apply (lesser_strong _ _ _ Hl) | by right].
Qed.

Lemma lesser_pair t0 t key v : lesser t0 t -> Some (key, v) ∈ hash t -> is_nil v = false -> Some (key, v) ∈ hash t0.
Proof using Type. intros Hl Hin Hv. destruct (ls_bucket _ _ Hl _ _ Hin); [congruence | done]. Qed.

(** ** A cycle in progress *)

Section From.
Context (vm0 : Vm).

Definition live : ObjectRef -> Prop := lives (slots vm0) (vm_id vm0) (root_list vm0).

(** The objects are those of [vm0], with what they hold or less; marked ones live; the
    sweep has left no white one behind it. *)
Record collecting (vm : Vm) : Prop := {
  cg_id : vm_id vm = vm_id vm0;
  cg_mode : mode (gc vm) = Incremental;
  cg_cycle : cycle (gc vm) = Full;
  cg_slots : forall i s, zget (slots vm) i = Some (Occupied s) -> exists s0, zget (slots vm0) i = Some (Occupied s0) /\
    generation s = generation s0 /\ reference s = reference s0 /\ fewer s0 s;
  cg_sound : sound (slots vm) live (gc vm);
  cg_roots : forall r, r ∈ GcState.gc_roots (gc vm) -> live r;
  cg_swept : forall i s, zget (slots vm) i = Some (Occupied s) -> i < sweep_cursor (gc vm) -> color (gc vm) i <> Some White
}.

Lemma collecting_checked (vm : Vm) o i s : collecting vm -> checked_slot vm o = Ok (i, s) ->
  exists s0, checked_slot vm0 o = Ok (i, s0) /\ fewer s0 s.
Proof using Type.
  intros Hc (Hz & Ho & Hn)%checked_in_spec. destruct (cg_slots _ Hc _ _ Hz) as (s0 & Hz0 & Hg & Hr & Hf).
  exists s0. split; [| done]. apply checked_in_spec. rewrite <- Hg, <- Hr, <- (cg_id _ Hc). done.
Qed.

Lemma collecting_string (vm : Vm) o : collecting vm -> string_in (slots vm) (vm_id vm) o = true -> string_in (slots vm0) (vm_id vm0) o = true.
Proof using Type.
  intros Hc Hs. destruct (string_in_valid _ _ _ Hs) as (i & s & Ho). destruct (collecting_checked _ _ _ _ Hc Ho) as (s0 & Ho0 & Hf).
  rewrite (string_in_checked _ _ _ _ _ Ho) in Hs. rewrite (string_in_checked _ _ _ _ _ Ho0).
  pose proof (fewer_kind _ _ Hf) as Hk. unfold keeps_kind in Hk. by destruct (payload (object s)), (payload (object s0)).
Qed.

Section Live.
Context (vm : Vm) (Hc : collecting vm) (o : ObjectRef) (i : Z) (s : OccupiedSlot).
Context (Ho : checked_slot vm o = Ok (i, s)) (Hl : live o).

Lemma live_edges c : c ∈ strong_edges (string_in (slots vm) (vm_id vm)) (object s) -> live c.
Proof using Hc Ho Hl.
  intros Hin. destruct (collecting_checked _ _ _ _ Hc Ho) as (s0 & Ho0 & Hf). apply (lives_edge _ _ _ o); [done |].
  exists i, s0. split; [done |]. apply (fewer_strong _ _ _ Hf). eapply strong_edges_mono; [| exact Hin].
  intros d _. by apply collecting_string.
Qed.

Lemma live_pair t key v : payload (object s) = PTable t -> weak_mode t = WeakMode.Keys -> Some (key, VObject v) ∈ hash t ->
  (forall k, key = KeyObject k -> live (ok_source k)) -> live v.
Proof using Hc Ho Hl.
  intros Hp Hm Hin Hk. destruct (collecting_checked _ _ _ _ Hc Ho) as (s0 & Ho0 & Hf).
  destruct (fewer_table _ _ _ Hf Hp) as (t0 & Hp0 & Hle). apply (lives_ephemeron _ _ _ o i s0 t0 key); try done.
  - by rewrite <- (ls_mode _ _ Hle).
  - by apply (lesser_pair t0 t).
Qed.

Lemma live_string_key t key v c : payload (object s) = PTable t -> weak_mode t = WeakMode.All -> Some (key, v) ∈ hash t ->
  is_nil v = false -> class key = CanonicalKeyClass.ByteString -> source_object key = Some c -> live c.
Proof using Hc Ho Hl.
  intros Hp Hm Hin Hv Hk Hs. destruct (collecting_checked _ _ _ _ Hc Ho) as (s0 & Ho0 & Hf).
  destruct (fewer_table _ _ _ Hf Hp) as (t0 & Hp0 & Hle). apply (lives_string_key _ _ _ o i s0 t0 key v); try done.
  - by rewrite <- (ls_mode _ _ Hle).
  - by apply (lesser_pair t0 t).
Qed.

End Live.

(** What is marked lives. *)
Lemma collecting_live (vm : Vm) i s : collecting vm -> zget (slots vm) i = Some (Occupied s) -> color (gc vm) i <> Some White -> live (reference s).
Proof using Type. intros Hc Hz Hw. exact (cg_sound _ Hc i s Hz Hw). Qed.

(** ** Marks *)

Lemma collecting_marks (vm vm' : Vm) : collecting vm -> marking_vm vm vm' -> sound (slots vm) live (gc vm') -> collecting vm'.
Proof using Type.
  intros [Hid Hm Hcy Hs _ Hr Hsw] (g & -> & Hmk) Hsound. cbn in Hsound.
  destruct (marks_fields _ _ _ _ Hmk) as (Em & Ec & _ & Er & _). split; cbn; rewrite ?Em, ?Ec, ?Er; try done.
  intros i s Hz Hi. apply (marks_nonwhite _ _ _ _ _ Hmk); [apply zget_lt in Hz; lia |]. apply (Hsw i s Hz).
  rewrite (mk_frame _ _ _ _ Hmk) in Hi. exact Hi.
Qed.

(** A run of the collector's state that marks, and marks only what lives. *)
Lemma ok_marks (vm : Vm) (m : ST GcState VmError unit) u vm' : collecting vm ->
  keeps (marks (slots vm) (vm_id vm) (gc vm)) m -> upholds (sound (slots vm) live) m -> on_gc m vm = (Ok u, vm') ->
  marking_vm vm vm' /\ collecting vm'.
Proof using Type.
  intros Hc Hk Hu (g & E & ->)%ok_on_gc. assert (marking_vm vm (with_gc vm g)) as Hm.
  { exists g. split; [done |]. exact (spec_ok _ _ _ _ _ _ (Hk (gc vm) (marks_refl _ _ _)) E). }
  split; [done |]. apply (collecting_marks vm); [done | done |]. exact (Hu _ _ _ (cg_sound _ Hc) E).
Qed.

Lemma ok_mark (vm : Vm) o u vm' : heap_inv vm -> collecting vm -> live o -> mark_gc_object o vm = (Ok u, vm') ->
  marking_vm vm vm' /\ collecting vm'.
Proof using Type.
  intros Hh Hc Hl E. unfold mark_gc_object in E. apply ok_get in E. apply (ok_marks vm (gc_mark_slot (slots vm) (vm_id vm) o) u); [done | by eapply keeps_mark | by apply gc_mark_slot_sound | exact E].
Qed.

Lemma ok_trace (vm : Vm) o u vm' : heap_inv vm -> phase (gc vm) <> Pause -> collecting vm -> live o ->
  trace_gc_object o vm = (Ok u, vm') -> marking_vm vm vm' /\ collecting vm'.
Proof using Type.
  intros Hh Hp Hc Hl E. pose proof (spec_ok _ _ _ _ _ _ (trace_gc_object_spec vm o Hh Hp) E) as (Hm & _).
  split; [done |]. apply (collecting_marks vm); [done | done |]. unfold trace_gc_object in E. apply ok_get, ok_on_gc in E as (g & E & ->).
  revert E. apply (upholds_bind (sound (slots vm) live)); [by apply gc_mark_slot_sound | | exact (cg_sound _ Hc)].
  intros _. apply upholds_lift. intros [i s] Ho. apply trace_sound. intros c. by apply (live_edges vm Hc o i s).
Qed.

(** A change of other parts of the collector's state. *)
Lemma collecting_gc (vm : Vm) g : collecting vm -> (forall i, color g i = color (gc vm) i) -> mode g = mode (gc vm) ->
  cycle g = cycle (gc vm) -> GcState.gc_roots g = GcState.gc_roots (gc vm) -> sweep_cursor g = sweep_cursor (gc vm) ->
  collecting (with_gc vm g).
Proof using Type.
  intros [Hid Hm Hcy Hs Hso Hr Hsw] Ec Em Ecy Er Es. split; cbn; rewrite ?Em, ?Ecy, ?Er, ?Es; try done.
  - apply (sound_color _ _ (gc vm)); [intros i _; apply Ec | done].
  - intros i s. rewrite Ec. apply Hsw.
Qed.

Lemma collecting_transition (vm : Vm) p : collecting vm -> collecting (with_gc vm (transition (gc vm) p)).
Proof using Type. intros Hc. apply collecting_gc; try done; unfold transition; by case_bool_decide. Qed.

(** ** Root marking and propagation *)

Lemma root_mark_collecting (vm vm' : Vm) u : gc_inv vm -> phase (gc vm) = RootMark -> collecting vm ->
  step_root_mark vm = (Ok u, vm') -> collecting vm' /\ phase (gc vm') <> Pause.
Proof.
  intros Hinv Hp Hc E. unfold step_root_mark in E. apply ok_get in E.
  destruct (zget (GcState.gc_roots (gc vm)) (root_cursor (gc vm))) as [root |] eqn:Hroot.
  - apply ok_bind in E as (u1 & vm1 & E1 & [= _ <-]). apply ok_mark in E1 as [Hm Hc1]; [| by apply gc_inv_heap | done |].
    + split; [by apply collecting_gc |]. change (phase (gc vm1) <> Pause). rewrite (marking_vm_phase _ _ Hm); congruence.
    + apply (cg_roots _ Hc). apply zget_Some in Hroot as [_ Hroot]. by eapply list_elem_of_lookup_2.
  - rewrite (cg_cycle _ Hc) in E. injection E as _ <-. split; [by apply collecting_transition |]. cbn. by rewrite transition_phase.
Qed.

(** A live object turns black. *)
Lemma collecting_black (vm : Vm) i s g : heap_inv vm -> collecting vm -> zget (slots vm) i = Some (Occupied s) -> live (reference s) ->
  set_color (gc vm) i Black = Ok g -> collecting (with_gc vm g) /\ phase g = phase (gc vm).
Proof using Type.
  intros Hh Hc Hz Hl Hg. apply zget_lt in Hz as Hi.
  destruct (set_color_spec _ _ _ (gc vm) i Black Hh Hi) as (g' & Hg' & Efr & Hcol & _). rewrite Hg in Hg'. injection Hg' as <-.
  pose proof (sound_set_color _ _ _ _ _ _ _ Hz Hl Hg (cg_sound _ Hc)) as Hs.
  assert (mode g = mode (gc vm) /\ cycle g = cycle (gc vm) /\ GcState.gc_roots g = GcState.gc_roots (gc vm) /\
    sweep_cursor g = sweep_cursor (gc vm)) as (Em & Ec & Er & Es) by by rewrite Efr.
  split; [| by rewrite Efr]. destruct Hc as [Hid Hm Hcy Hsl _ Hr Hsw]. split; cbn; rewrite ?Em, ?Ec, ?Er, ?Es; try done.
  intros j t Hzj Hj. apply zget_lt in Hzj as Hlt. rewrite Hcol by lia. case_bool_decide; [by destruct (color (gc vm) i) |].
  by apply (Hsw j t Hzj).
Qed.

Lemma propagate_collecting (vm vm' : Vm) u : gc_inv vm -> phase (gc vm) = Propagate -> collecting vm ->
  step_propagate vm = (Ok u, vm') -> collecting vm' /\ phase (gc vm') <> Pause.
Proof.
  intros Hinv Hp Hc E. pose proof (gc_inv_heap _ Hinv) as Hh. unfold step_propagate in E. apply ok_get in E.
  destruct (zget (work (gc vm)) (zlen (work (gc vm)) - 1)) as [o |] eqn:Ho.
  - destruct Hinv as (_ & Hwork & _). apply zget_Some in Ho as [_ Ho%list_elem_of_lookup_2].
    destruct (wo_gray _ _ _ _ _ Hwork o Ho) as (i & s & Hck & Hgray).
    apply checked_in_spec in Hck as (Hz & Hr & id & Hid & _ & Hi & _).
    assert (live o) as Hl by (rewrite <- Hr; apply (collecting_live vm i s Hc Hz); congruence).
    apply ok_bind in E as (u1 & vm1 & [= _ <-] & E). set (vm1 := with_gc vm _) in *.
    assert (collecting vm1) as Hc1 by by apply collecting_gc.
    apply ok_bind in E as (u2 & vm2 & Et & E). apply ok_or_else_fail in Et; [| by intros].
    apply ok_trace in Et as [Hm Hc2]; [| done | by cbn; rewrite Hp | done | done].
    rewrite Hid in E. apply ok_bind in E as (id' & vm3 & [= <- <-] & E). rewrite Hi in E.
    unfold update_gc in E. apply ok_get, ok_bind in E as (g & vm4 & [Hg ->]%ok_lift & [= _ <-]).
    destruct (marking_vm_frame _ _ Hm) as [E1 _]. change (slots vm2 = slots vm) in E1.
    destruct (collecting_black vm2 i s g) as [Hc3 Ep]; [by apply (marking_vm_heap vm1) | done | by rewrite E1 | by rewrite Hr | done |].
    split; [done |]. cbn. rewrite Ep, (marking_vm_phase _ _ Hm); cbn; congruence.
  - injection E as _ <-. split; [by apply collecting_transition |]. cbn. by rewrite transition_phase.
Qed.

(** ** The atomic phase *)

Lemma back_to_propagate_collecting (vm vm' : Vm) u : collecting vm -> back_to_propagate vm = (Ok u, vm') -> collecting vm'.
Proof using Type. intros Hc [= _ <-]. apply (collecting_transition (with_gc vm (with_ephemeron_cursor (gc vm) 0))). by apply collecting_gc. Qed.

Lemma resume_propagation_collecting (vm vm' : Vm) u : collecting vm -> resume_propagation vm = (Ok u, vm') -> collecting vm'.
Proof using Type.
  intros Hc (u1 & vm1 & [= _ <-] & E)%ok_bind. revert E. apply back_to_propagate_collecting. by apply collecting_gc.
Qed.

Lemma ephemeron_slot_collecting (vm : Vm) i s : heap_inv vm -> zget (slots vm) i = Some (Occupied s) ->
  upholds (fun vm' => marking_vm vm vm' /\ collecting vm') (ephemeron_slot i).
Proof.
  intros Hh Hz. apply upholds_read. intros vm1 u vm2 [Hm Hc] E. rewrite (marking_occupied _ _ _ _ Hm Hz) in E.
  apply ok_bind in E as (o & vm3 & [[= <-] ->]%ok_lift & E). destruct (marking_vm_frame _ _ Hm) as [E1 E2].
  case_bool_decide as Hw; [by injection E as _ <- |].
  destruct (payload (object s)) as [| | t | | | | | | | |] eqn:Hp; try by injection E as _ <-.
  assert (zget (slots vm1) i = Some (Occupied s)) as Hz1 by by rewrite E1.
  pose proof (marking_vm_heap _ _ Hh Hm) as Hh1. pose proof (heap_occupied _ _ _ Hh1 Hz1) as Ho.
  pose proof (collecting_live _ _ _ Hc Hz1 Hw) as Hl.
  apply (ok_marks vm1) in E as [Hm2 Hc2].
  - split; [by eapply marking_vm_trans | done].
  - done.
  - apply visit_ephemeron_pairs_keeps. intros k v. by eapply ephemeron_pair_keeps.
  - unfold visit_ephemeron_pairs. case_bool_decide as Hk; cbn [negb]; [| apply upholds_ret].
    apply upholds_each. intros [[key v] |] Hin; [| apply upholds_ret]. destruct v as [| | | | | | v]; try apply upholds_ret.
    apply ephemeron_pair_sound. intros Hkey. eapply (live_pair vm1 Hc _ _ _ Ho Hl t key v); try done.
    intros k ->. exact Hkey.
Qed.

(** Clearing weak pairs leaves less in the tables. *)
Lemma collecting_fewer (vm : Vm) i s s' : collecting vm -> zget (slots vm) i = Some (Occupied s) ->
  generation s' = generation s -> reference s' = reference s -> fewer s s' ->
  collecting (with_slots vm (zinsert (slots vm) i (Occupied s'))).
Proof using Type.
  intros [Hid Hm Hcy Hs Hso Hr Hsw] Hz Hg Href Hf. apply zget_lt in Hz as Hi.
  assert (forall j t, zget (zinsert (slots vm) i (Occupied s')) j = Some (Occupied t) -> exists t1, zget (slots vm) j = Some (Occupied t1) /\
    generation t = generation t1 /\ reference t = reference t1 /\ fewer t1 t) as Hold.
  { intros j t Hzj. destruct (decide (j = i)) as [-> | Hne].
    - rewrite zget_zinsert_eq in Hzj by done. injection Hzj as <-. by exists s.
    - rewrite zget_zinsert_ne in Hzj by (try congruence; lia). exists t. split; [done |]. split; [done |]. split; [done |]. apply fewer_refl. }
  split; try done; cbn.
  - intros j t (t1 & Hz1 & Hg1 & Hr1 & Hf1)%Hold. destruct (Hs j t1 Hz1) as (t0 & Hz0 & Hg0 & Hr0 & Hf0).
    exists t0. split; [done |]. split; [congruence |]. split; [congruence |]. by eapply fewer_trans.
  - intros j t (t1 & Hz1 & _ & Hr1 & _)%Hold Hw. rewrite Hr1. by apply (Hso j t1).
  - intros j t (t1 & Hz1 & _)%Hold. by apply (Hsw j t1).
Qed.

Lemma collecting_ledger (vm : Vm) l : collecting vm -> collecting (with_ledger vm l).
Proof using Type. by intros [Hid Hm Hcy Hs Hso Hr Hsw]. Qed.

Lemma clear_weak_slot_collecting values keys i : upholds collecting (clear_weak_slot values keys i).
Proof.
  apply upholds_read. intros vm u vm' Hc E. apply ok_bind in E as (s & vm1 & [Hs ->]%ok_lift & E).
  destruct s as [s |]; [| by injection E as _ <-]. unfold Collector.occupied_slot, vget in Hs.
  destruct (zget (slots vm) i) as [[s1 | |] |] eqn:Hz; try done. injection Hs as ->.
  destruct (payload (object s)) as [| | t | | | | | | | |] eqn:Hp; try by injection E as _ <-.
  pose proof (clear_dead_weak_pairs_lesser (weak_is_dead vm i (reference s)) (weak_is_live_key vm i (reference s)) values keys
    (weak_is_dead_total vm i _) (weak_is_live_key_total vm i _) t (ledger vm)) as Hcl.
  destruct (Table.clear_dead_weak_pairs _ _ _ _ _ _) as [[r t'] l]. destruct Hcl as [_ Hl].
  apply ok_bind in E as (u1 & vm1 & [= _ <-] & E). apply ok_bind in E as (n & vm2 & [_ ->]%ok_lift & [= _ <-]).
  apply collecting_gc; try done. apply collecting_ledger. apply (collecting_fewer vm i s); try done.
  split; [| done]. right. by exists t, t'.
Qed.

(** In the atomic phase: with the invariant of the heap. *)
Definition atomic (vm : Vm) : Prop := gc_inv vm /\ phase (gc vm) = Atomic /\ collecting vm.

Lemma atomic_at (vm : Vm) : atomic vm -> at_atomic vm vm.
Proof using Type.
  intros (Hinv & Hp & Hc). apply at_atomic_refl; [done | | done]. apply black_ok_full; [done | by rewrite Hp |]. by rewrite (cg_cycle _ Hc).
Qed.

Lemma at_collecting (vm1 vm : Vm) : at_atomic vm1 vm -> collecting vm -> atomic vm.
Proof using Type. intros [Hi _ Hp _ _ _] Hc. by split. Qed.

Lemma collecting_on_ledger {A} (m : ST L VmError A) : upholds collecting (on_ledger m).
Proof using Type.
  intros vm a vm' Hc. unfold on_ledger. destruct (m (ledger vm)) as [r l]. intros [= _ <-]. by apply collecting_ledger.
Qed.

Lemma collecting_pure {A} (m : HeapM A) : (forall vm a vm', m vm = (Ok a, vm') -> vm' = vm) -> upholds collecting m.
Proof using Type. intros Hm vm a vm' Hc E. by rewrite (Hm _ _ _ E). Qed.

Lemma reserve_candidates_collecting : upholds collecting reserve_finalizer_candidates.
Proof using Type.
  apply (upholds_bind collecting); [apply collecting_pure; by intros vm a vm' [= _ <-] | intros vm]. cbv zeta.
  apply upholds_if; [apply upholds_ret |]. apply upholds_bind.
  { apply collecting_pure. intros vm1 a vm2. unfold checked_bytes. by destruct (_ <=? _); intros [= _ <-]. }
  intros charge. apply upholds_bind.
  { apply collecting_pure. intros vm1 a vm2. unfold checked_add. by destruct (_ <=? _); intros [= _ <-]. }
  intros next. apply upholds_bind; [apply collecting_on_ledger | intros _].
  intros vm1 a vm2 [Hid Hm Hcy Hs Hso Hr Hsw] [= _ <-]. by split.
Qed.

Lemma ok_clear_weak_pairs (vm : Vm) values keys u vm' : atomic vm -> clear_weak_pairs values keys vm = (Ok u, vm') -> atomic vm'.
Proof.
  intros Ha E. pose proof (spec_ok _ _ _ _ _ _ (clear_weak_pairs_spec vm values keys (atomic_at _ Ha)) E) as [Hat _].
  apply (at_collecting vm); [done |]. destruct Ha as (Hinv & _ & Hc).
  eapply (ok_for_occupied collecting); [by apply gc_inv_heap | exact Hc | | exact E]. intros i s _. apply clear_weak_slot_collecting.
Qed.

Lemma mark_weak_string_keys_slot_collecting (vm : Vm) i s : heap_inv vm -> zget (slots vm) i = Some (Occupied s) ->
  upholds (fun vm' => marking_vm vm vm' /\ collecting vm') (mark_weak_string_keys_slot i).
Proof.
  intros Hh Hz. apply upholds_read. intros vm1 u vm2 [Hm Hc] E. rewrite (marking_occupied _ _ _ _ Hm Hz) in E.
  apply ok_bind in E as (o & vm3 & [[= <-] ->]%ok_lift & E). destruct (marking_vm_frame _ _ Hm) as [E1 E2].
  assert (zget (slots vm1) i = Some (Occupied s)) as Hz1 by by rewrite E1.
  pose proof (marking_vm_heap _ _ Hh Hm) as Hh1. pose proof (heap_occupied _ _ _ Hh1 Hz1) as Ho.
  apply ok_bind in E as (c & vm3 & Ec & E). destruct (color (gc vm1) i) as [c' |] eqn:Hcol; [| done]. injection Ec as <- <-.
  case_bool_decide as Hw; [by injection E as _ <- |].
  pose proof (collecting_live _ _ _ Hc Hz1 ltac:(rewrite Hcol; congruence)) as Hl.
  destruct (payload (object s)) as [| | t | | | | | | | |] eqn:Hp; try by injection E as _ <-.
  apply (ok_marks vm1) in E as [Hm2 Hc2].
  - split; [by eapply marking_vm_trans | done].
  - done.
  - apply visit_live_weak_string_keys_keeps. intros o. by eapply keeps_mark.
  - unfold visit_live_weak_string_keys. case_bool_decide as Hk; cbn [negb]; [| apply upholds_ret].
    apply upholds_each. intros [[key v] |] Hin; [| apply upholds_ret].
    destruct (negb (is_nil v) && bool_decide (class key = CanonicalKeyClass.ByteString)) eqn:Hkey; [| apply upholds_ret].
    apply andb_true_iff in Hkey as [Hv%negb_true_iff Hcl%bool_decide_eq_true]. apply upholds_option.
    intros d Hd. apply gc_mark_slot_sound. destruct (source_object key) as [x |] eqn:Hs; [| by apply elem_of_nil in Hd].
    apply list_elem_of_singleton in Hd as ->. by apply (live_string_key vm1 Hc _ _ _ Ho Hl t key v).
Qed.

Lemma ok_mark_live_weak_string_keys (vm : Vm) u vm' : atomic vm -> mark_live_weak_string_keys vm = (Ok u, vm') -> atomic vm'.
Proof.
  intros (Hinv & Hp & Hc) E. pose proof (gc_inv_heap _ Hinv) as Hh.
  assert (marking_vm vm vm' /\ collecting vm') as [Hm Hc'].
  { eapply (ok_for_occupied (fun vm' => marking_vm vm vm' /\ collecting vm')); [exact Hh | | | exact E].
    - split; [apply marking_vm_refl | done].
    - intros i s Hz. by eapply mark_weak_string_keys_slot_collecting. }
  split; [by eapply gc_inv_marking |]. split; [by apply (marking_vm_phase_atomic vm) | done].
Qed.

(** Objects with a registered finalizer live, and are separated. *)
Lemma separate_slot_collecting (vm1 : Vm) i s1 : zget (slots vm1) i = Some (Occupied s1) ->
  upholds (fun vm => at_atomic vm1 vm /\ collecting vm) (separate_slot i).
Proof.
  intros Hz1. apply upholds_and.
  { intros vm u vm' Ha E. by destruct (spec_ok _ _ _ _ _ _ (separate_slot_spec vm1 vm i s1 Ha Hz1) E). }
  intros vm u vm' Ha Hc _ E. destruct (at_atomic_occupied _ _ _ _ Ha Hz1) as [s Hz].
  unfold separate_slot in E. apply ok_get in E. rewrite (occupied_slot_eq _ _ _ Hz) in E.
  apply ok_bind in E as (o & vm3 & [[= <-] ->]%ok_lift & E).
  destruct (finalizer_candidate vm i) eqn:Hcand; [| by injection E as _ <-].
  unfold finalizer_candidate in Hcand. rewrite Hz in Hcand. apply andb_true_iff in Hcand as [Hf%bool_decide_eq_true _].
  assert (live (reference s)) as Hl.
  { destruct (cg_slots _ Hc _ _ Hz) as (s0 & Hz0 & _ & Hr & Hfw). rewrite Hr. apply lives_kept. right.
    exists i, s0. split; [done |]. split; [by apply (fw_finalizer _ _ Hfw) | done]. }
  apply ok_bind in E as (u1 & vm2 & Em & E).
  apply ok_mark in Em as [Hm Hc2]; [| apply gc_inv_heap, (aa_inv _ _ Ha) | done | done].
  destruct (marking_vm_frame _ _ Hm) as [E1 _].
  apply ok_bind in E as (u2 & vm3 & Eu & [= _ <-]). unfold update_slot in Eu. apply ok_get in Eu.
  unfold vget in Eu. rewrite E1, Hz in Eu. injection Eu as _ <-.
  assert (collecting (with_slots vm2 (zinsert (slots vm2) i (Occupied (with_finalizer s Pending))))) as Hc3.
  { apply (collecting_fewer vm2 i s); try done; [by rewrite E1 |]. split; [by left | done]. }
  rewrite E1 in Hc3. destruct Hc3 as [Hid Hmo Hcy Hs Hso Hr Hsw]. by split.
Qed.

Lemma ok_separate (vm : Vm) u vm' : atomic vm -> separate_dead_finalizers vm = (Ok u, vm') -> atomic vm'.
Proof.
  intros Ha E. pose proof (spec_ok _ _ _ _ _ _ (separate_dead_finalizers_spec vm (atomic_at _ Ha)) E) as [Hat _].
  apply (at_collecting vm); [done |]. unfold separate_dead_finalizers in E. apply ok_bind in E as (u1 & vm1 & E1 & [= _ <-]).
  assert (at_atomic vm vm1 /\ collecting vm1) as [_ Hc1].
  { eapply (ok_for_occupied (fun vm1 => at_atomic vm vm1 /\ collecting vm1)); [apply gc_inv_heap, Ha | | | exact E1].
    - split; [by apply atomic_at | apply Ha].
    - intros i s Hz. by eapply separate_slot_collecting. }
  destruct Hc1 as [Hid Hmo Hcy Hs Hso Hr Hsw]. by split.
Qed.

Lemma atomic_stage (vm : Vm) st : (st = AfterSeparation -> forall i, registered_marked i vm) -> atomic vm ->
  atomic (with_gc vm (with_atomic_finalizer_stage (gc vm) st)).
Proof using Type. intros Hst (Hinv & Hp & Hc). split; [by apply gc_inv_stage |]. split; [done |]. by apply collecting_gc. Qed.

Lemma ok_weak_values_stage (vm : Vm) more vm' : atomic vm -> weak_values_stage vm = (Ok more, vm') -> atomic vm'.
Proof.
  intros Ha E. unfold weak_values_stage in E. apply ok_get in E. destruct (negb _); [by injection E as _ <- |].
  apply ok_bind in E as (u1 & vm1 & E1 & E).
  assert (atomic vm1) as Ha1.
  { destruct (spec_ok _ _ _ _ _ _ (reserve_finalizer_candidates_spec vm vm (conj (atomic_at _ Ha) eq_refl)) E1) as [Hat _].
    apply (at_collecting vm); [done |]. by eapply reserve_candidates_collecting; [apply Ha |]. }
  apply ok_bind in E as (u2 & vm2 & E2 & E). apply (ok_clear_weak_pairs _ _ _ _ _ Ha1) in E2.
  apply ok_bind in E as (u3 & vm3 & E3 & E). apply (ok_mark_live_weak_string_keys _ _ _ E2) in E3.
  apply ok_bind in E as (u4 & vm4 & [= _ <-] & E). injection E as _ <-. by apply atomic_stage.
Qed.

Lemma ok_separation_stage (vm : Vm) more vm' : atomic vm -> separation_stage vm = (Ok more, vm') -> atomic vm'.
Proof.
  intros Ha E. unfold separation_stage in E. apply ok_get in E. destruct (negb _); [by injection E as _ <- |].
  apply ok_bind in E as (u1 & vm1 & E1 & E).
  pose proof (spec_ok _ _ _ _ _ _ (separate_dead_finalizers_spec vm (atomic_at _ Ha)) E1) as [_ Hreg].
  apply (ok_separate _ _ _ Ha) in E1. apply ok_bind in E as (u2 & vm2 & [= _ <-] & E). injection E as _ <-. by apply atomic_stage.
Qed.

Lemma finish_atomic_collecting (vm vm' : Vm) u : atomic vm -> finish_atomic vm = (Ok u, vm') -> collecting vm'.
Proof.
  intros Ha E. unfold finish_atomic in E. apply ok_bind in E as (u1 & vm1 & [= _ <-] & E).
  set (vm1 := with_gc vm _) in *. assert (atomic vm1) as Ha1.
  { destruct Ha as (Hinv & Hp & Hc). split; [exact Hinv |]. split; [exact Hp |]. by apply collecting_gc. }
  apply ok_bind in E as (more & vm2 & E2 & E). apply (ok_weak_values_stage _ _ _ Ha1) in E2.
  destruct more; [by eapply resume_propagation_collecting; [apply E2 |] |].
  apply ok_bind in E as (more & vm3 & E3 & E). apply (ok_separation_stage _ _ _ E2) in E3.
  destruct more; [by eapply resume_propagation_collecting; [apply E3 |] |].
  apply ok_bind in E as (u3 & vm4 & E4 & E). apply (ok_clear_weak_pairs _ _ _ _ _ E3) in E4 as (Hi4 & Hp4 & Hc4).
  apply ok_get in E. rewrite (cg_mode _ Hc4) in E. cbn in E. injection E as _ <-. by apply collecting_transition.
Qed.

Lemma step_atomic_collecting (vm vm' : Vm) u : atomic vm -> step_gc_atomic vm = (Ok u, vm') -> collecting vm'.
Proof.
  intros (Hinv & Hp & Hc) E. pose proof (gc_inv_heap _ Hinv) as Hh. unfold step_gc_atomic in E. apply ok_get in E.
  destruct (work_left vm); [by eapply back_to_propagate_collecting |].
  apply ok_bind in E as (u1 & vm1 & E1 & E).
  assert (gc_inv vm1 /\ phase (gc vm1) = Atomic /\ collecting vm1 /\ slots vm1 = slots vm) as (Hi1 & Hp1 & Hc1 & Es1).
  { destruct (_ =? 0); injection E1 as _ <-; [| done]. split; [exact Hinv |]. split; [exact Hp |]. split; [| done]. by apply collecting_gc. }
  assert (0 <= ephemeron_cursor (gc vm)) as Hcur by by destruct Hh as [_ (_ & ? & _)].
  destruct (next_occupied _ _ _) as [i |] eqn:Hn.
  - destruct (next_occupied_slot _ _ _ Hh Hcur Hn) as (Hlt & s & Hz).
    apply ok_bind in E as (u2 & vm2 & [= _ <-] & E). pose proof (gc_inv_ephemeron_cursor vm1 (i + 1) ltac:(lia) Hi1) as Hi2.
    set (vm2 := with_gc vm1 _) in *. assert (collecting vm2) as Hc2 by by apply collecting_gc.
    apply ok_bind in E as (u3 & vm3 & E3 & E).
    assert (marking_vm vm2 vm3 /\ collecting vm3) as [_ Hc3].
    { eapply (ephemeron_slot_collecting vm2 i s); [by apply gc_inv_heap | by cbn; rewrite Es1 | | exact E3].
      split; [apply marking_vm_refl | done]. }
    apply ok_get in E. destruct (work_left vm3); [by eapply back_to_propagate_collecting | by injection E as _ <-].
  - apply ok_bind in E as (u2 & vm2 & [= _ <-] & E).
    pose proof (gc_inv_ephemeron_cursor vm1 (gc_scan_end vm) ltac:(destruct Hh as [Hh' _]; apply (ho_stop _ _ _ _ _ _ Hh')) Hi1) as Hi2.
    set (vm2 := with_gc vm1 _) in *. assert (collecting vm2) as Hc2 by by apply collecting_gc.
    apply ok_bind in E as (u3 & vm3 & E3 & E). rewrite (cg_mode _ Hc) in E3. injection E3 as _ <-.
    apply ok_get in E. rewrite (cg_mode _ Hc2) in E. cbn [andb bool_decide] in E. by apply (finish_atomic_collecting vm2 vm' u).
Qed.

(** ** The sweep *)

(** Slots go, the others stay as they are. *)
Lemma collecting_subset (vm vm' : Vm) : collecting vm ->
  vm_id vm' = vm_id vm -> mode (gc vm') = mode (gc vm) -> cycle (gc vm') = cycle (gc vm) ->
  (forall r, r ∈ GcState.gc_roots (gc vm') -> r ∈ GcState.gc_roots (gc vm)) ->
  (forall j t, zget (slots vm') j = Some (Occupied t) -> zget (slots vm) j = Some (Occupied t) /\ color (gc vm') j = color (gc vm) j) ->
  (forall j t, zget (slots vm') j = Some (Occupied t) -> j < sweep_cursor (gc vm') -> color (gc vm) j <> Some White) ->
  collecting vm'.
Proof using Type.
  intros [Hid Hm Hcy Hs Hso Hr Hsw] Eid Em Ec Er Hslots Hswept. split; try congruence; auto.
  - intros j t [Hz _]%Hslots. by apply Hs.
  - intros j t [Hz Ecol]%Hslots Hw. apply (Hso j t Hz). congruence.
  - intros j t Hz Hj. destruct (Hslots _ _ Hz) as [_ ->]. by eapply Hswept.
Qed.

(** The scan has passed no object. *)
Lemma next_occupied_between (vm : Vm) start i j s : heap_inv vm -> 0 <= start ->
  next_occupied (gc vm) start (gc_scan_end vm) = Some i -> start <= j < i -> zget (slots vm) j = Some (Occupied s) -> False.
Proof using Type.
  intros [Hh [Hp _]] Hs Hn Hj Hz. pose proof (next_bit_spec (gc vm) start (gc_scan_end vm) false Hp Hs) as Hspec.
  unfold next_occupied in Hn. rewrite Hn in Hspec. destruct Hspec as (_ & _ & Hbefore). specialize (Hbefore j Hj).
  assert (is_Some (color (gc vm) j)) as Hc by (apply (ho_color _ _ _ _ _ _ Hh); [lia | eauto]).
  apply color_occupied in Hc; [cbn in Hbefore; congruence | lia].
Qed.

Lemma released_collecting (vm1 vm' : Vm) o i s slot : checked_slot vm1 o = Ok (i, s) -> released vm1 o i slot vm' ->
  (forall t, slot <> Occupied t) /\
  forall j t, zget (slots vm') j = Some (Occupied t) -> j <> i /\ zget (slots vm1) j = Some (Occupied t) /\ color (gc vm') j = color (gc vm1) j.
Proof using Type.
  intros Ho Hre. assert (forall t, slot <> Occupied t) as Hslot by by destruct (re_slot _ _ _ _ _ Hre) as [[g ->] | ->].
  split; [done |]. intros j t Hz. rewrite (re_slots _ _ _ _ _ Hre) in Hz. apply (freed_occupied Ho Hslot) in Hz as [Hji Hz].
  split; [done |]. split; [done |]. apply zget_lt in Hz. rewrite (re_color _ _ _ _ _ Hre) by lia. by rewrite bool_decide_eq_false_2.
Qed.

Lemma sweep_slot_collecting (vm vm' : Vm) i s u : gc_inv vm -> phase (gc vm) = Sweep -> collecting vm ->
  next_occupied (gc vm) (sweep_cursor (gc vm)) (gc_scan_end vm) = Some i -> zget (slots vm) i = Some (Occupied s) ->
  sweep_slot i vm = (Ok u, vm') -> collecting vm'.
Proof.
  intros Hinv Hp Hc Hn Hz E. pose proof (gc_inv_heap _ Hinv) as Hh. apply zget_lt in Hz as Hi.
  assert (0 <= sweep_cursor (gc vm)) as Hcur by by destruct Hh as [_ (_ & _ & ?)].
  assert (forall j t, zget (slots vm) j = Some (Occupied t) -> j < i + 1 -> j <> i -> color (gc vm) j <> Some White) as Hbehind.
  { intros j t Hzj Hj Hne. destruct (decide (j < sweep_cursor (gc vm))) as [|]; [by apply (cg_swept _ Hc j t) |].
    by destruct (next_occupied_between vm _ i j t Hh Hcur Hn ltac:(lia) Hzj). }
  unfold sweep_slot in E. apply ok_bind in E as (u1 & vm1 & [= _ <-] & E).
  pose proof (gc_inv_sweep_cursor vm (i + 1) ltac:(lia) Hinv) as Hinv1. set (vm1 := with_gc vm _) in *.
  apply ok_get in E. change (slots vm) with (slots vm1) in Hz. rewrite (occupied_slot_eq vm1 _ _ Hz) in E.
  apply ok_bind in E as (o & vm2 & [[= <-] ->]%ok_lift & E).
  apply ok_bind in E as (c & vm2 & Ec & E). destruct (color (gc vm1) i) as [c' |] eqn:Hcol; [| done]. injection Ec as <- <-.
  change (color (gc vm) i = Some c') in Hcol.
  apply ok_bind in E as (a & vm2 & Ea & E). rewrite (bool_decide_eq_false_2 (cycle (gc vm1) = Minor)) in Ea by (cbn; by rewrite (cg_cycle _ Hc)).
  rewrite andb_false_r in Ea. injection Ea as <- <-.
  destruct (bool_decide (c' = White)) eqn:Hw; cbn [andb] in E; revert E.
  - apply bool_decide_eq_true in Hw. subst c'. cbn [negb bool_decide]. intros (u2 & vm2 & Er & [= _ <-])%ok_bind.
    pose proof (heap_occupied _ _ _ (gc_inv_heap _ Hinv1) Hz) as Ho.
    destruct (spec_ok _ _ _ _ _ _ (reclaim_spec vm1 _ i s Hinv1 Ho) Er) as [slot Hre].
    destruct (released_collecting _ _ _ _ _ _ Ho Hre) as [_ Hleft].
    apply collecting_gc; try done. apply (collecting_subset vm); [done | apply (re_id _ _ _ _ _ Hre) | apply (re_mode _ _ _ _ _ Hre) | apply (re_cycle _ _ _ _ _ Hre) | ..].
    + intros r. rewrite (re_roots _ _ _ _ _ Hre). by intros [_ ?]%list_elem_of_filter.
    + intros j t Hzj. by destruct (Hleft j t Hzj) as (_ & ? & ?).
    + intros j t Hzj Hj. destruct (Hleft j t Hzj) as (Hne & Hzj' & _). rewrite (re_sweep _ _ _ _ _ Hre) in Hj. by apply (Hbehind j t).
  - apply bool_decide_eq_false in Hw. intros [= _ <-]. apply (collecting_subset vm); try done.
    intros j t Hzj Hj. destruct (decide (j = i)) as [-> | Hne]; [congruence | by apply (Hbehind j t)].
Qed.

(** Everything that is left lives, and was there when the cycle began. *)
Definition all_live (vm : Vm) : Prop := forall i s, zget (slots vm) i = Some (Occupied s) -> live (reference s).

Lemma finish_sweep_live (vm vm' : Vm) u : gc_inv vm -> collecting vm ->
  next_occupied (gc vm) (sweep_cursor (gc vm)) (gc_scan_end vm) = None -> finish_sweep vm = (Ok u, vm') -> all_live vm'.
Proof.
  intros Hinv Hc Hn E. pose proof (gc_inv_heap _ Hinv) as Hh.
  assert (all_live vm) as Hall.
  { intros i s Hz. apply (collecting_live vm i s Hc Hz). apply (cg_swept _ Hc i s Hz).
    destruct (decide (i < sweep_cursor (gc vm))) as [|]; [done |].
    exfalso. apply (next_occupied_none vm (sweep_cursor (gc vm)) Hh ltac:(by destruct Hh as [_ (_ & _ & ?)]) Hn i s); [lia | done]. }
  assert (slots vm' = slots vm) as Es; [| unfold all_live; by rewrite Es].
  unfold finish_sweep in E. apply ok_get in E. apply ok_bind in E as (u1 & vm1 & [= _ <-] & E).
  apply ok_bind in E as (u2 & vm2 & [= _ <-] & E). apply ok_bind in E as (u3 & vm3 & E3 & E).
  unfold promote_gc_survivors in E3. apply ok_get in E3. cbn in E3. rewrite (cg_mode _ Hc) in E3. cbn in E3. injection E3 as _ <-.
  apply ok_bind in E as (u4 & vm4 & [= _ E4] & E). apply ok_bind in E as (u5 & vm5 & [= _ E5] & E).
  apply ok_bind in E as (u6 & vm6 & [= _ E6] & [= _ E7]).
  assert (slots vm4 = slots vm) as Es4 by (rewrite <- E4; by destruct (_ && _)).
  rewrite <- Es4. change (slots vm4) with (slots (with_gc vm4 (clear_cycle (gc vm4)))). rewrite E5.
  change (slots vm5) with (slots (with_gc_restart_pending_debt_bytes vm5 0)). rewrite E6, <- E7. by destruct (bool_decide (mode (gc vm6) = Incremental)).
Qed.

(** ** Rounds *)

Definition gc_step (vm vm' : Vm) : Prop := phase (gc vm) <> Pause /\ exists began r, gc_round began vm = (Ok r, vm').

(** In the cycle, or at its end. *)
Definition on_course (vm : Vm) : Prop :=
  gc_inv vm /\ (phase (gc vm) <> Pause /\ collecting vm \/ phase (gc vm) = Pause /\ all_live vm).

Lemma gc_step_on_course (vm vm' : Vm) : on_course vm -> gc_step vm vm' -> on_course vm'.
Proof.
  intros [Hinv [[_ Hc] | [Hp _]]] [Hphase (began & r & E)]; [| done].
  split.
  { pose proof (gc_round_keeps vm began Hinv ltac:(done)) as Hk. by apply (spec_ok _ _ _ _ _ _ Hk E). }
  unfold gc_round in E. apply ok_get in E. destruct (phase (gc vm)) eqn:Hp; [done | | | |]; apply ok_bind in E as (u & vm1 & E & [= _ <-]).
  - left. apply and_comm. by eapply root_mark_collecting.
  - left. apply and_comm. by eapply propagate_collecting.
  - left. pose proof (spec_ok _ _ _ _ _ _ (step_gc_atomic_stepped vm Hinv Hp) E) as (_ & _ & Hst).
    split; [intros Hq; by rewrite Hq in Hst |]. eapply step_atomic_collecting; [by split | exact E].
  - pose proof (spec_ok _ _ _ _ _ _ (step_sweep_stepped vm Hinv Hp) E) as (_ & Hst).
    unfold step_sweep in E. apply ok_get in E.
    assert (work_left vm = false) as Hw.
    { apply work_left_false. destruct Hinv as (_ & Hw & _). apply (wo_idle _ _ _ _ _ Hw). by right. }
    rewrite Hw in E. destruct (next_occupied _ _ _) as [i |] eqn:Hn.
    + destruct (next_occupied_slot vm (sweep_cursor (gc vm)) i (gc_inv_heap _ Hinv)) as (_ & s & Hz); [by destruct Hinv as ([_ (_ & _ & ?)] & _) | done |].
      left. split; [| by eapply sweep_slot_collecting].
      pose proof (spec_ok _ _ _ _ _ _ (sweep_slot_swept vm i s Hinv Hp Hz) E) as Hss. by rewrite (ss_phase _ _ _ Hss).
    + right. pose proof (spec_ok _ _ _ _ _ _ (finish_sweep_pauses vm Hinv Hp) E) as [_ Hpause]. split; [done |].
      by eapply finish_sweep_live.
Qed.

Lemma gc_steps_on_course (vm vm' : Vm) : on_course vm -> rtc gc_step vm vm' -> on_course vm'.
Proof. intros Ho Hs. induction Hs as [| vm vm1 vm' Hstep _ IH]; [done |]. by eapply IH, gc_step_on_course. Qed.

End From.

(** At its start. *)
Lemma started_on_course (vm : Vm) : started Full Incremental vm -> on_course vm vm.
Proof using Type.
  intros [Hinv Hp Hm Hc Hr Hs Hcol]. split; [done |]. left. split; [by rewrite Hp |]. split; try done.
  - intros i s Hz. exists s. split; [done |]. split; [done |]. split; [done | apply fewer_refl].
  - intros i s Hz Hw. by destruct (Hcol i s Hz Hw).
  - intros r. rewrite Hr. intros Hin. apply lives_kept. by left.
  - intros i s Hz. rewrite Hs. apply zget_lt in Hz. lia.
Qed.

End Reclaim.
