(* ===== verification/HeapTermination.v ===== *)
(** Cycles end: every round of a cycle in progress decreases [cycle_measure] or ends the
    cycle, so that [run_cycle] does not run out of fuel. *)

From Stdlib Require Import ZArith Lia.
From stdpp Require Import base list numbers relations.
From S2P Require Import Prelude Float Number Table TableSpec TableSet GcState GcBits ShortStrings Heap Barrier Collector HeapEdges HeapInv HeapMark HeapChange HeapRounds HeapProgress HeapAtomic HeapFinish HeapSweep HeapCycle HeapBegin.

Local Open Scope Z_scope.

(** What the finalizers keep that run at the end of a cycle: they run with the collector
    switched off. *)
Class FinalizersLaws `{Suspended} (L : Type) `{!Finalizers L} := {
  run_pending_finalizers_keeps : forall vm : Vm L, gc_inv vm -> phase (gc vm) = Pause ->
    spec run_pending_finalizers vm (fun _ vm' => gc_inv vm' /\ phase (gc vm') = Pause) (fun _ vm' => gc_inv vm')
}.

Section Termination.
Context `{Suspended} {L : Type} `{HeapLedgerLaws L refused} `{Hasher}.
#[local] Set Default Proof Using "Type*".

Notation Vm := (Vm L).
Notation HeapM := (ST Vm VmError).

(** ** The measure *)

Definition weight (vm : Vm) : Z := 2 * white_slots vm + zlen (work (gc vm)).

Lemma cycle_measure_weight (vm : Vm) : cycle_measure vm = weight vm * (2 * gc_scan_end vm + 7) + phase_rank vm.
Proof using Type. done. Qed.

Lemma white_slots_nonneg (vm : Vm) : 0 <= white_slots vm.
Proof using Type. apply zlen_nonneg. Qed.

Lemma weight_nonneg (vm : Vm) : 0 <= weight vm.
Proof using Type. unfold weight. pose proof (white_slots_nonneg vm). pose proof (zlen_nonneg (work (gc vm))). lia. Qed.

Lemma left_of_nonneg stop cursor : 0 <= left_of stop cursor.
Proof using Type. unfold left_of. lia. Qed.

(** A round makes the work lighter, or as heavy and of a lower rank; the scans do not get
    longer. *)
Definition closer (vm vm' : Vm) : Prop :=
  gc_scan_end vm' <= gc_scan_end vm /\
  (weight vm' < weight vm /\ phase_rank vm' < phase_rank vm + 2 * gc_scan_end vm + 7 \/
   weight vm' <= weight vm /\ phase_rank vm' < phase_rank vm).

Lemma closer_measure (vm vm' : Vm) : 0 <= gc_scan_end vm' -> closer vm vm' -> cycle_measure vm' < cycle_measure vm.
Proof using Type.
  intros H0' [Hs Hc]. rewrite !cycle_measure_weight. pose proof (weight_nonneg vm'). pose proof (weight_nonneg vm). nia.
Qed.

(** What marks do to the weight. *)
Lemma progress_weight (vm vm' : Vm) : progress vm vm' ->
  gc_scan_end vm' = gc_scan_end vm /\ weight vm' <= weight vm /\
  (zlen (work (gc vm)) < zlen (work (gc vm')) -> weight vm' < weight vm).
Proof using Type. unfold progress, weight. intros (? & ? & ?). split; [done |]. split; lia. Qed.

Lemma stop_nonneg (vm : Vm) : gc_inv vm -> 0 <= gc_scan_end vm.
Proof using Type. intros ([Hh _] & _). by destruct (ho_stop _ _ _ _ _ _ Hh). Qed.

Lemma rank_bound (vm : Vm) : gc_inv vm -> phase (gc vm) <> RootMark -> 0 <= phase_rank vm <= 2 * gc_scan_end vm + 6.
Proof using Type.
  intros Hinv Hp. pose proof (stop_nonneg _ Hinv). destruct Hinv as ([_ (_ & He & Hs)] & _).
  unfold phase_rank, left_of. destruct (phase (gc vm)); try done; try destruct (work_left vm); lia.
Qed.

Lemma rank_positive (vm : Vm) : gc_inv vm -> phase (gc vm) <> Pause -> 0 < cycle_measure vm.
Proof using Type.
  intros Hinv Hp. pose proof (stop_nonneg _ Hinv). pose proof (weight_nonneg vm). rewrite cycle_measure_weight.
  assert (0 < phase_rank vm); [| nia]. unfold phase_rank, left_of. destruct (phase (gc vm)); try done; try destruct (work_left vm); lia.
Qed.

(** ** The rounds *)

Definition advanced (vm vm' : Vm) : Prop := gc_inv vm' /\ (phase (gc vm') = Pause \/ closer vm vm').

Lemma step_root_mark_advances (vm : Vm) : gc_inv vm -> phase (gc vm) = RootMark ->
  spec step_root_mark vm (fun _ vm' => advanced vm vm') (fun _ vm' => gc_inv vm').
Proof.
  intros Hinv Hphase. pose proof (gc_inv_heap _ Hinv) as Hheap.
  eapply spec_weaken; [apply (spec_conj _ _ (fun _ => gc_inv) (fun _ => closer vm) (fun _ => gc_inv) (fun _ _ => True)); [by apply step_root_mark_keeps |] | |].
  2: { intros u vm' [Hi Hc]. split; [exact Hi | by right]. }
  2: { by intros e vm' [Hi _]. }
  unfold step_root_mark. apply spec_bind, spec_get.
  assert (forall vm1 : Vm, marking_vm vm vm1 -> gc_scan_end vm1 = gc_scan_end vm /\ weight vm1 <= weight vm /\ phase (gc vm1) = RootMark /\
    GcState.gc_roots (gc vm1) = GcState.gc_roots (gc vm) /\ root_cursor (gc vm1) = root_cursor (gc vm) /\
    remembered (gc vm1) = remembered (gc vm) /\ remembered_cursor (gc vm1) = remembered_cursor (gc vm)) as Hmark.
  { intros vm1 Hm. destruct (progress_weight _ _ (progress_marking _ _ Hm)) as (E & Hw & _). split; [done |]. split; [done |].
    split; [rewrite (marking_vm_phase _ _ Hm); congruence |]. destruct Hm as (g & -> & Hm). cbn. rewrite (mk_frame _ _ _ _ Hm). done. }
  destruct (zget (GcState.gc_roots (gc vm)) (root_cursor (gc vm))) as [root |] eqn:Hroot.
  { apply zget_lt in Hroot. eapply spec_seq; [by apply mark_gc_object_spec | | done].
    intros u vm1 [Hm _]. destruct (Hmark vm1 Hm) as (E1 & Hw & E2 & E3 & E4 & E5 & E6). apply spec_modify_gc.
    split; [cbn; lia |]. right. split; [exact Hw |]. unfold phase_rank. cbn. rewrite Hphase, E1, E2, E3, E4, E5, E6. unfold left_of. lia. }
  destruct (if bool_decide _ then _ else _) as [owner |] eqn:Howner.
  { assert (remembered_cursor (gc vm) < zlen (remembered (gc vm))) as Hlt.
    { revert Howner. case_bool_decide; [intros ?%zget_lt; lia | done]. }
    eapply spec_seq; [apply trace_gc_object_spec; [done | congruence] | | done].
    intros u vm1 (Hm & _). destruct (Hmark vm1 Hm) as (E1 & Hw & E2 & E3 & E4 & E5 & E6). apply spec_modify_gc.
    split; [cbn; lia |]. right. split; [exact Hw |]. unfold phase_rank. cbn. rewrite Hphase, E1, E2, E3, E4, E5, E6. unfold left_of. lia. }
  apply spec_modify_gc. rewrite transition_frame. split; [done |]. right. split; [unfold weight; done |].
  unfold phase_rank. cbn. rewrite Hphase. unfold left_of. lia.
Qed.

Lemma step_propagate_advances (vm : Vm) : gc_inv vm -> phase (gc vm) = Propagate ->
  spec step_propagate vm (fun _ vm' => advanced vm vm') (fun _ vm' => gc_inv vm').
Proof.
  intros Hinv Hphase. pose proof (gc_inv_heap _ Hinv) as Hheap.
  eapply spec_weaken; [apply (spec_conj _ _ (fun _ => gc_inv) (fun _ => closer vm) (fun _ => gc_inv) (fun _ _ => True)); [by apply step_propagate_keeps |] | |].
  2: { intros u vm' [Hi Hc]. split; [exact Hi | by right]. }
  2: { by intros e vm' [Hi _]. }
  unfold step_propagate. apply spec_bind, spec_get.
  destruct (zget (work (gc vm)) (zlen (work (gc vm)) - 1)) as [o |] eqn:Ho.
  - apply work_last in Ho. set (w := take _ _) in *. apply spec_bind, spec_modify_gc. fold w. set (vm1 := with_gc vm _).
    assert (zlen (work (gc vm)) = zlen w + 1) as Hlen by (rewrite Ho, zlen_app; done).
    pose proof (stop_nonneg _ Hinv) as Hstop. destruct Hinv as (_ & Hwork & _).
    destruct (wo_gray _ _ _ _ _ Hwork o) as (i & s & Hc & Hgray); [rewrite Ho; apply elem_of_app; right; left |].
    apply checked_in_spec in Hc as Hz. destruct Hz as (Hz & _ & id & Hid & _ & Hi & _). apply zget_lt in Hz as Hlt.
    apply (spec_seq _ _ _ (fun _ vm2 => marking_vm vm1 vm2) _ (fun _ _ => True)); [| | done].
    { apply spec_or_else. eapply spec_weaken; [apply trace_gc_object_spec; [done | by cbn; congruence] | by intros a vm2 [? _] |].
      intros e vm2 _. by apply spec_bind, spec_modify_gc, spec_fail. }
    intros a vm2 Hm. cbn beta in Hm. rewrite Hid. cbn [ok_or]. apply spec_bind, spec_ret. rewrite Hi.
    pose proof (marking_vm_heap vm1 _ Hheap Hm) as Hheap2.
    destruct (progress_weight _ _ (progress_marking _ _ Hm)) as (E & Hw & _).
    assert (phase (gc vm2) = Propagate) as Hp2 by (rewrite (marking_vm_phase _ _ Hm); cbn; congruence).
    destruct (marking_vm_frame _ _ Hm) as [E1 _].
    assert (0 <= i < zlen (slots vm2)) as Hlt2 by by rewrite E1.
    destruct (set_color_spec _ _ _ _ i Black Hheap2 Hlt2) as (g3 & Hg3 & Efr & Hcol & _).
    apply (spec_update_gc _ _ _ _ g3 Hg3). change (gc_scan_end vm2 = gc_scan_end vm) in E. split; [cbn; lia |]. left. split.
    + assert (white_slots (with_gc vm2 g3) <= white_slots vm2) as Hle.
      { apply (whites_le (zlen (slots vm2))). intros j Hj. rewrite Hcol by done. case_bool_decide; [| done]. by destruct (color (gc vm2) i). }
      assert (work g3 = work (gc vm2)) as Ew by by rewrite Efr.
      unfold weight in *. change (work (gc (with_gc vm2 g3))) with (work g3). rewrite Ew.
      change (white_slots vm1) with (white_slots vm) in Hw. change (work (gc vm1)) with w in Hw. lia.
    + unfold phase_rank. cbn. rewrite Efr. cbn. rewrite Hp2, Hphase, E. cbn. lia.
  - apply spec_modify_gc. rewrite transition_frame. split; [done |]. right. split; [unfold weight; done |].
    unfold phase_rank. cbn. rewrite Hphase. pose proof (stop_nonneg _ Hinv).
    destruct Hheap as [_ (_ & He & _)]. unfold work_left, left_of. cbn.
    assert (work (gc vm) = []) as ->; [| rewrite zlen_nil; cbn; lia]. apply zget_None in Ho. pose proof (zlen_nonneg (work (gc vm))). apply zlen_nil_inv. lia.
Qed.

Lemma step_gc_atomic_advances (vm : Vm) : gc_inv vm -> phase (gc vm) = Atomic ->
  spec step_gc_atomic vm (fun _ vm' => advanced vm vm') (fun _ vm' => gc_inv vm').
Proof.
  intros Hinv Hphase. eapply spec_weaken; [by apply step_gc_atomic_stepped | | done].
  intros u vm' (Hi & Hpr & Hend). split; [done |]. right. destruct (progress_weight _ _ Hpr) as (E & Hw & Hlt).
  pose proof (stop_nonneg _ Hinv) as Hs. destruct Hinv as ([_ (_ & He & _)] & _). split; [lia |].
  unfold phase_rank. rewrite Hphase, E. unfold work_left, left_of.
  assert (forall w : list ObjectRef, w <> [] -> 0 < zlen w) as Hpos.
  { intros [| x w] Hw'; [done |]. rewrite zlen_cons. pose proof (zlen_nonneg w). lia. }
  destruct (phase (gc vm')) eqn:Hp'; try done.
  - (* to propagation *)
    destruct (negb (zlen (work (gc vm)) =? 0)) eqn:Hwl; [right; lia | left].
    apply negb_false_iff, Z.eqb_eq in Hwl. specialize (Hpos _ Hend). split; [apply Hlt |]; lia.
  - destruct Hend as (-> & -> & Hcur). rewrite zlen_nil. cbn. right. lia.
  - rewrite Hend, zlen_nil. destruct Hi as ([_ (_ & _ & Hsw)] & _). right. cbn.
    destruct (negb _); lia.
Qed.

Lemma step_sweep_advances (vm : Vm) : gc_inv vm -> phase (gc vm) = Sweep ->
  spec step_sweep vm (fun _ vm' => advanced vm vm') (fun _ vm' => gc_inv vm').
Proof.
  intros Hinv Hphase. eapply spec_weaken; [by apply step_sweep_stepped | | done].
  intros u vm' (Hi & Hend). split; [done |]. destruct Hend as [Hp | (i & Hri & Hs)]; [by left | right].
  assert (forall vm : Vm, gc_inv vm -> phase (gc vm) = Sweep -> work (gc vm) = []) as Hidle.
  { intros vm0 (_ & Hw & _) Hp. apply (wo_idle _ _ _ _ _ Hw). by right. }
  pose proof (Hidle _ Hinv Hphase) as Hw0. pose proof (Hidle _ Hi (ss_phase _ _ _ Hs)) as Hw1.
  pose proof (ss_stop _ _ _ Hs). pose proof (ss_white _ _ _ Hs). split; [done |]. right.
  unfold weight, phase_rank, work_left, left_of. rewrite Hphase, (ss_phase _ _ _ Hs), Hw0, Hw1, (ss_cursor _ _ _ Hs), zlen_nil. cbn. lia.
Qed.

(** A round of a cycle in progress: it advances, or ends the cycle. *)
Lemma gc_round_advances (vm : Vm) began : gc_inv vm -> phase (gc vm) <> Pause ->
  spec (gc_round began) vm (fun r vm' => r = inl began /\ advanced vm vm') (fun _ vm' => gc_inv vm').
Proof.
  intros Hinv Hp. unfold gc_round. apply spec_bind, spec_get.
  destruct (phase (gc vm)) eqn:Hphase; [done | | | |];
    (apply (spec_seq _ _ _ (fun _ vm' => advanced vm vm') _ (fun _ => gc_inv)); [| intros u vm' Hadv; by apply spec_ret | done]).
  - by apply step_root_mark_advances.
  - by apply step_propagate_advances.
  - by apply step_gc_atomic_advances.
  - by apply step_sweep_advances.
Qed.

(** ** Runs of rounds *)

(** At the end of the cycle, or ahead of where [vm0] was. *)
Definition ahead (vm0 vm : Vm) : Prop := gc_inv vm /\ (phase (gc vm) = Pause \/ cycle_measure vm < cycle_measure vm0).

Lemma rounds_advance (vm0 : Vm) n : gc_inv vm0 -> phase (gc vm0) <> Pause ->
  spec (loop_pos gc_round n true) vm0 (fun _ vm => ahead vm0 vm) (fun _ vm => gc_inv vm).
Proof.
  intros Hinv Hp.
  eapply spec_weaken; [apply (spec_loop_pos gc_round
    (fun began vm => began = true /\ gc_inv vm /\ (phase (gc vm) = Pause \/ cycle_measure vm <= cycle_measure vm0))
    (fun began vm => began = true /\ ahead vm0 vm) (fun _ vm => ahead vm0 vm) (fun _ => gc_inv)) | | done].
  - intros began vm (-> & Hi & Hm). destruct (decide (phase (gc vm) = Pause)) as [Hpause | Hpause].
    + unfold gc_round. apply spec_bind, spec_get. rewrite Hpause. apply spec_ret. split; [done | by left].
    + eapply spec_weaken; [by apply gc_round_advances | | done]. intros r vm' [-> [Hi' Hadv]]. split; [done |]. split; [done |].
      destruct Hadv as [Hp' | Hc]; [by left | right]. destruct Hm as [? | Hm]; [done |].
      pose proof (closer_measure _ _ (stop_nonneg _ Hi') Hc). lia.
  - intros began vm [-> [Hi Hm]]. split; [done |]. split; [done |]. destruct Hm; [by left | right; lia].
  - split; [done |]. split; [done |]. right. lia.
  - by intros [began | []] vm [].
Qed.

Context `{!Finalizers L} `{!FinalizersLaws L}.

Lemma incremental_step_ahead (vm : Vm) p : gc_inv vm -> phase (gc vm) <> Pause ->
  spec (incremental_step (Zpos p)) vm (fun _ vm' => ahead vm vm') (fun _ vm' => gc_inv vm').
Proof.
  intros Hinv Hp. unfold incremental_step. apply spec_bind, spec_get. destruct (finalizer_running vm); [by apply spec_fail |].
  cbn [Z.eqb]. rewrite (bool_decide_eq_false_2 (phase (gc vm) = Pause)) by done. cbn [negb loop_times].
  eapply spec_seq; [by apply rounds_advance | | done]. intros r vm1 Ha1. apply spec_bind, spec_get.
  apply (spec_seq _ _ _ (fun _ => ahead vm) _ (fun _ => gc_inv)); [| | done].
  - destruct (bool_decide (phase (gc vm1) = Pause)) eqn:Hp1; cbn [andb]; [| by apply spec_ret].
    apply bool_decide_eq_true in Hp1. destruct Ha1 as [Hi1 _]. destruct (_ && _ && _); [| apply spec_ret; split; [done | by left]].
    eapply spec_weaken; [by apply run_pending_finalizers_keeps | | done]. intros u vm2 [? ?]. split; [done | by left].
  - intros u vm2 Ha2. by apply spec_bind, spec_get, spec_ret.
Qed.

(** [run_cycle] and [whole_cycle]. *)
Lemma finish_cycle_ends fuel : forall vm : Vm, gc_inv vm -> phase (gc vm) = Pause \/ cycle_measure vm <= Z.of_nat fuel ->
  spec (finish_cycle fuel) vm (fun _ vm' => gc_inv vm' /\ phase (gc vm') = Pause) (fun _ vm' => gc_inv vm').
Proof.
  induction fuel as [| fuel IH]; intros vm Hinv Hm; cbn [finish_cycle]; apply spec_bind, spec_get.
  - case_bool_decide as Hp; [by apply spec_ret |]. pose proof (rank_positive _ Hinv Hp). destruct Hm; [done | lia].
  - case_bool_decide as Hp; [by apply spec_ret |]. eapply spec_seq; [by apply incremental_step_ahead | | done].
    intros tr vm1 [Hi1 Hm1]. apply IH; [done |]. destruct Hm1; [by left | right]. destruct Hm; [done | lia].
Qed.

Lemma run_cycle_spec (vm : Vm) : gc_inv vm ->
  spec run_cycle vm (fun _ vm' => gc_inv vm' /\ phase (gc vm') = Pause) (fun _ vm' => gc_inv vm').
Proof.
  intros Hinv. unfold run_cycle. apply spec_bind, spec_get, finish_cycle_ends; [done |]. lia.
Qed.

Lemma whole_cycle_spec (vm : Vm) kind : gc_inv vm -> modes_ok vm -> (kind = Minor -> mode (gc vm) = Generational) ->
  spec (whole_cycle kind) vm (fun _ vm' => gc_inv vm' /\ phase (gc vm') = Pause) (fun _ vm' => gc_inv vm').
Proof.
  intros Hinv Hm Hk. unfold whole_cycle. eapply spec_seq; [by apply begin_gc_cycle_kind_keeps | | done].
  intros u vm1 Hi1. by apply run_cycle_spec.
Qed.

End Termination.
