(* ===== verification/HeapStores.v ===== *)
(** The stores of the program keep the invariant of the heap: the write barrier, and each
    operation that stores a reference behind it. *)

From Stdlib Require Import ZArith Lia.
From stdpp Require Import base list numbers relations.
From S2P Require Import Prelude Float Number Table TableSpec TableSet TableEdges GcState GcBits ShortStrings Heap Barrier Collector HeapEdges HeapInv HeapMark HeapChange HeapRounds HeapAtomic HeapFinish.

Local Open Scope Z_scope.

Section Stores.
Context `{Suspended} {L : Type} `{HeapLedgerLaws L refused} `{Hasher}.
#[local] Set Default Proof Using "Type*".

Notation Vm := (Vm L).
Notation HeapM := (ST Vm VmError).

Notation vm_intact vm := (intact (slots vm) (vm_id vm)).

(** ** Before a store

    [wrote vm vm']: the objects of [vm], some of them marked. *)
Record wrote (vm vm' : Vm) : Prop := {
  wr_inv : gc_inv vm';
  wr_slots : slots vm' = slots vm;
  wr_id : vm_id vm' = vm_id vm;
  wr_roots : root_list vm' = root_list vm;
  wr_token : next_runtime_token vm' = next_runtime_token vm;
  wr_pause : phase (gc vm') = Pause <-> phase (gc vm) = Pause;
  wr_black : forall i, 0 <= i -> color (gc vm') i = Some Black -> color (gc vm) i = Some Black;
  wr_marked : forall o, marked_in vm o -> marked_in vm' o
}.

Lemma wrote_refl (vm : Vm) : gc_inv vm -> wrote vm vm.
Proof using Type. by split. Qed.

Lemma wrote_trans (vm1 vm2 vm3 : Vm) : wrote vm1 vm2 -> wrote vm2 vm3 -> wrote vm1 vm3.
Proof using Type.
  intros [I1 S1 D1 R1 T1 P1 B1 M1] [I2 S2 D2 R2 T2 P2 B2 M2].
  split; [done | congruence | congruence | congruence | congruence | by rewrite P2 | auto | auto].
Qed.

Lemma wrote_marking (vm vm' : Vm) : gc_inv vm -> marking_vm vm vm' -> wrote vm vm'.
Proof using Type.
  intros Hinv Hm. pose proof (gc_inv_marking _ _ Hinv Hm) as Hinv'. destruct Hm as (g & -> & Hm). split; try done.
  - by apply (marks_pause _ _ _ _ Hm).
  - intros i Hi. by apply (marks_black _ _ _ _ _ Hm).
  - intros o. by apply (marks_marked _ _ _ _ _ Hm).
Qed.

Lemma wrote_ledger (vm vm' : Vm) l : wrote vm vm' -> wrote vm (with_ledger vm' l).
Proof using Type. by intros []. Qed.

Lemma wrote_remembered (vm vm' : Vm) r c : wrote vm vm' ->
  wrote vm (with_gc vm' (with_remembered_charge (with_remembered (gc vm') r) c)).
Proof using Type. by intros []. Qed.

Lemma wrote_barrier_count (vm vm' : Vm) n : wrote vm vm' -> wrote vm (with_gc vm' (with_barrier_count (gc vm') n)).
Proof using Type. by intros []. Qed.

Lemma keeps_wrote_ledger (vm : Vm) {A} (m : ST L VmError A) : returns m -> keeps (wrote vm) (on_ledger m).
Proof using Type. intros Hm. apply keeps_on_ledger; [| done]. intros vm' l. apply wrote_ledger. Qed.

(** The child of a store at slot [i] is marked if a black object gets it. *)
Definition guarded (vm : Vm) (i : Z) (child : ObjectRef) : Prop :=
  phase (gc vm) <> Pause -> color (gc vm) i = Some Black -> marked_in vm child.

Lemma wrote_guarded (vm vm' : Vm) i child : 0 <= i -> wrote vm vm' -> guarded vm i child -> guarded vm' i child.
Proof using Type.
  intros Hi [_ _ _ _ _ Hp Hb Hm] Hg Hp' Hb'. apply Hm, Hg; [by rewrite <- Hp | by apply Hb].
Qed.

Lemma remember_gc_owner_keeps (vm : Vm) owner : keeps (wrote vm) (remember_gc_owner owner).
Proof.
  apply keeps_read. intros vm1 Hvm1. eapply keeps_spec; [| done]. apply keeps_if; [apply keeps_ret |].
  apply keeps_bind; [apply keeps_checked_add | intros charge].
  apply keeps_bind; [apply keeps_wrote_ledger | intros _].
  - apply returns_bind; [apply returns_reserve_charges | intros _].
    apply returns_bind; [apply returns_reserve_vec | intros _; apply returns_commit].
  - intros vm2 Hvm2. apply spec_modify_gc. by apply wrote_remembered.
Qed.

Lemma object_kind_total (vm : Vm) o : total (object_kind vm o).
Proof using Type. apply total_bind; [apply checked_in_total | done]. Qed.

Lemma weak_table_edge_total (vm : Vm) owner field child : total (weak_table_edge vm owner field child).
Proof using Type.
  unfold weak_table_edge. destruct field; try done; (apply total_bind; [apply total_bind; [apply checked_in_total |] | intros t _]);
    try (intros [i s] _; cbn; by destruct (payload _)); (apply total_bind; [apply object_kind_total | done]).
Qed.

(** [Vm::write_ref]: the barrier has marked what a black owner is to hold. *)
Lemma write_ref_spec (vm : Vm) owner field child i s : gc_inv vm -> checked_slot vm owner = Ok (i, s) ->
  spec (write_ref owner field child) vm
    (fun _ vm' => wrote vm vm' /\ is_Some (identity child) /\
       (weak_table_edge vm owner field child = Ok false -> guarded vm' i child))
    (fun _ vm' => wrote vm vm').
Proof.
  intros Hinv Ho. unfold write_ref. apply spec_bind, spec_get. rewrite Ho. apply spec_bind, spec_lift; try done.
  intros f [= <-]. apply spec_bind, spec_lift; [apply checked_in_total | | intros; by apply wrote_refl]. intros [j t] Hc. cbn [fst snd].
  assert (is_Some (identity child)) as Hid by (apply checked_in_spec in Hc as (_ & _ & id & -> & _); eauto).
  assert (0 <= i) as Hi by by eapply checked_in_nonneg. assert (0 <= j) as Hj by by eapply checked_in_nonneg.
  apply (spec_seq _ _ _ (fun _ => wrote vm) _ (fun _ => wrote vm)); [| | done].
  { apply (keeps_spec (wrote vm)); [| by apply wrote_refl]. apply keeps_if; [apply remember_gc_owner_keeps | apply keeps_ret]. }
  intros _ vm1 Hvm1. apply spec_bind, spec_lift; [apply weak_table_edge_total | | done].
  intros weak Hweak. destruct weak; [apply spec_ret; split; [done |]; split; [done | congruence] |].
  apply spec_bind, spec_get. case_bool_decide as Hp.
  { apply spec_ret. split; [done |]. split; [done |]. by intros _ Hp'. }
  pose proof (wr_inv _ _ Hvm1) as Hinv1. pose proof (gc_inv_heap _ Hinv1) as Hheap1.
  assert (checked_slot vm1 child = Ok (j, t)) as Hc1 by (unfold checked_slot; by rewrite (wr_slots _ _ Hvm1), (wr_id _ _ Hvm1)).
  assert (checked_slot vm1 owner = Ok (i, s)) as Ho1 by (unfold checked_slot; by rewrite (wr_slots _ _ Hvm1), (wr_id _ _ Hvm1)).
  apply checked_in_spec in Hc1 as Hzj. destruct Hzj as (Hzj & _). apply checked_in_spec in Ho1 as Hzi. destruct Hzi as (Hzi & _).
  destruct (heap_color _ _ _ _ _ _ Hheap1 Hzi) as [oc Eoc]. rewrite Eoc. cbn [ok_or]. apply spec_bind, spec_ret.
  destruct (heap_color _ _ _ _ _ _ Hheap1 Hzj) as [cc Ecc].
  destruct (bool_decide (oc = Black)) eqn:Eb.
  - rewrite Ecc. cbn [ok_or]. apply spec_bind, spec_ret. destruct (bool_decide (cc = White)) eqn:Hw.
    + eapply spec_seq; [by apply mark_gc_object_spec | | by intros e vm2 ->].
      intros _ vm2 [Hm Hmk]. apply spec_modify_gc.
      pose proof (wrote_trans _ _ _ Hvm1 (wrote_marking _ _ Hinv1 Hm)) as Hvm2.
      split; [by apply wrote_barrier_count |]. split; [done |]. intros _ _ _. exact (Hmk Hp).
    + apply spec_ret. split; [done |]. split; [done |]. intros _ _ _. exists j, t.
      apply bool_decide_eq_false in Hw. split; [done |]. congruence.
  - cbn. apply spec_bind, spec_ret. rewrite bool_decide_eq_false_2 by done. apply spec_ret. split; [done |]. split; [done |].
    intros _ _ Hb. apply bool_decide_eq_false in Eb. congruence.
Qed.

(** ** After the barrier *)

Lemma write_ref_guards (vm : Vm) owner field child : gc_inv vm ->
  field <> FieldTableKey -> field <> FieldTableValue ->
  spec (write_ref owner field child) vm
    (fun _ vm' => wrote vm vm' /\ forall i s, checked_slot vm owner = Ok (i, s) -> guarded vm' i child)
    (fun _ vm' => wrote vm vm').
Proof.
  intros Hinv Hk Hv. destruct (checked_slot vm owner) as [[i s] | e | k] eqn:Ho.
  - eapply spec_weaken; [by eapply write_ref_spec | | done]. intros _ vm' (Hw & _ & Hg). split; [done |].
    intros j t [= <- <-]. apply Hg. by destruct field.
  - unfold write_ref. apply spec_bind, spec_get. rewrite Ho. apply spec_bind, spec_lift; try done.
  - by apply checked_in_total in Ho.
Qed.

Lemma write_value_guards (vm : Vm) owner field v : gc_inv vm ->
  field <> FieldTableKey -> field <> FieldTableValue ->
  spec (write_value owner field v) vm
    (fun _ vm' => wrote vm vm' /\ forall i s c, checked_slot vm owner = Ok (i, s) -> c ∈ value_edges v -> guarded vm' i c)
    (fun _ vm' => wrote vm vm').
Proof.
  intros Hinv Hk Hv. unfold write_value.
  destruct v as [| | | | | | child]; try (apply spec_ret; split; [by apply wrote_refl | by intros ? ? ? _ ?%elem_of_nil]).
  eapply spec_weaken; [by apply write_ref_guards | | done]. intros _ vm' [Hw Hg]. split; [done |].
  intros i s c Ho Hc. apply list_elem_of_singleton in Hc as ->. eauto.
Qed.

Lemma valid_older (vm : Vm) o : gc_inv vm -> valid_ref (slots vm) (vm_id vm) o -> older (next_runtime_token vm) o.
Proof using Type.
  intros (_ & _ & _ & _ & Hheld) (i & s & Hc). apply checked_in_spec in Hc as (Hz & <- & _). exact (proj1 (proj1 Hheld i s Hz)).
Qed.

(** Intact references behind the barrier, stored into the object of one slot. *)
Lemma gc_inv_store (vm : Vm) i s s' (cs : list ObjectRef) : gc_inv vm -> zget (slots vm) i = Some (Occupied s) ->
  generation s' = generation s -> reference s' = reference s -> keeps_kind s s' -> age s' = age s -> finalizer s' = finalizer s ->
  (forall str c, c ∈ strong_edges str (object s') -> c ∈ strong_edges str (object s) \/ c ∈ cs) ->
  (forall c, c ∈ held_edges (object s') -> c ∈ held_edges (object s) \/ c ∈ cs) ->
  (forall c, c ∈ cs -> vm_intact vm c /\ guarded vm i c) ->
  gc_inv (with_slots vm (zinsert (slots vm) i (Occupied s'))).
Proof using Type.
  intros Hinv Hz Hg Hr Hk Ha Hf Hstrong Hheld Hcs. apply gc_inv_changed; [done |].
  apply (reslot_insert _ _ _ s); try done; [intros; apply changed_refl |]. split; try done.
  - unfold settled. by rewrite Ha.
  - intros c Hc. destruct (Hstrong _ c Hc) as [| Hin]; [by left | right]. destruct (Hcs c Hin) as [Hi Hgd]. split; [done |]. intros Hp Hb _. by apply Hgd.
  - rewrite Hf. by left.
  - intros c Hc. destruct (Hheld c Hc) as [| Hin]; [by left | right]. apply valid_older; [done |]. by apply intact_valid, Hcs.
Qed.

Lemma spec_update_payload (vm : Vm) o f (Q : unit -> Vm -> Prop) R i s : checked_slot vm o = Ok (i, s) ->
  total (f (payload (object s))) ->
  (forall p, f (payload (object s)) = Ok p -> Q tt (with_slots vm (zinsert (slots vm) i (Occupied (with_payload s p))))) ->
  (forall e, R e vm) -> spec (update_payload o f) vm Q R.
Proof using Type.
  intros Hc Ht HQ HR. unfold update_payload. apply spec_bind, spec_get. rewrite Hc. apply spec_bind, spec_lift; try done.
  intros x [= <-]. apply spec_bind, spec_lift; [done | | done]. intros p Hp. cbn [fst].
  apply checked_in_spec in Hc as (Hz & _). eapply spec_update_slot; [exact Hz |]. by apply HQ.
Qed.

Definition is_table (p : HeapPayload) : bool := match p with PTable _ => true | _ => false end.

(** The contents of an object that is no table are replaced. *)
Lemma update_payload_keeps (vm0 vm : Vm) o f (cs : list ObjectRef) : wrote vm0 vm -> (forall p, total (f p)) ->
  (forall p p', f p = Ok p' -> is_table p = false /\ payload_kind p' = payload_kind p /\
     forall c, c ∈ payload_edges p' -> c ∈ payload_edges p \/ c ∈ cs) ->
  (forall i s c, checked_slot vm0 o = Ok (i, s) -> c ∈ cs -> vm_intact vm0 c /\ guarded vm i c) ->
  spec (update_payload o f) vm (fun _ vm' => gc_inv vm') (fun _ vm' => gc_inv vm').
Proof using Type.
  intros Hw Ht Hf Hcs. pose proof (wr_inv _ _ Hw) as Hinv.
  assert (checked_slot vm o = checked_slot vm0 o) as Ec by (unfold checked_slot; by rewrite (wr_slots _ _ Hw), (wr_id _ _ Hw)).
  destruct (checked_slot vm o) as [[i s] | e | k] eqn:Hc.
  - eapply spec_update_payload; [exact Hc | apply Ht | | done]. intros p Hp. destruct (Hf _ _ Hp) as (Htab & Hk & He).
    assert (is_table p = false) as Htab' by by destruct p, (payload (object s)).
    assert (forall q str, is_table q = false -> strong_edges str {| payload := q; children := children (object s) |} =
        payload_edges q ++ children (object s)) as Hse by by intros [].
    apply checked_in_spec in Hc as (Hz & _). apply (gc_inv_store vm i s _ cs); try done.
    + intros str c. change (object (with_payload s p)) with {| payload := p; children := children (object s) |}. rewrite Hse by done. unfold strong_edges. rewrite !elem_of_app.
      intros [Hin | Hin]; [| left; by right]. destruct (He c Hin) as [Ho |]; [left; left | by right].
      by destruct (payload (object s)).
    + intros c. unfold held_edges. cbn. rewrite !elem_of_app. intros [Hin | Hin]; [| left; by right].
      assert (c ∈ payload_edges p) as Hin' by by destruct p.
      destruct (He c Hin') as [Ho |]; [left; left | by right]. by destruct (payload (object s)).
    + intros c Hin. rewrite (wr_slots _ _ Hw), (wr_id _ _ Hw). eapply Hcs; eauto.
  - unfold update_payload. apply spec_bind, spec_get. rewrite Hc. by apply spec_bind, spec_lift.
  - by apply checked_in_total in Hc.
Qed.

(** ** The operations *)

Definition value_intact (vm : Vm) (v : Value) : Prop := forall c, c ∈ value_edges v -> vm_intact vm c.

Lemma set_uservalue_keeps (vm : Vm) o index v : gc_inv vm -> value_intact vm v ->
  spec (set_uservalue o index v) vm (fun _ vm' => gc_inv vm') (fun _ vm' => gc_inv vm').
Proof.
  intros Hinv Hv. unfold set_uservalue. apply spec_bind, spec_get.
  apply spec_bind, spec_lift; [| | done].
  { apply total_bind; [apply checked_in_total |]. intros [i s] _. cbn. by destruct (payload _). }
  intros u _. destruct (negb _); [by apply spec_ret |].
  eapply spec_seq; [by apply write_value_guards | | by intros e vm' ?%wr_inv].
  intros _ vm1 [Hw Hg]. apply (spec_seq _ _ _ (fun _ => gc_inv) _ (fun _ => gc_inv)); [| by intros _ vm2 Hinv2; apply spec_ret | done].
  eapply (update_payload_keeps vm vm1 _ _ (value_edges v)); [done | by intros [] | |].
  - intros [] p' [= <-]. split; [done |]. split; [done |]. cbn. intros c. unfold userdata_edges. cbn.
    rewrite !elem_of_app, !elem_of_concat_map. intros [Hc | (x & [-> | Hx]%elem_of_zinsert & Hc)]; eauto.
  - intros i s c Ho Hc. split; [by apply Hv | by eapply Hg].
Qed.

Lemma close_upvalue_keeps (vm : Vm) o v : gc_inv vm -> value_intact vm v ->
  spec (close_upvalue o v) vm (fun _ vm' => gc_inv vm') (fun _ vm' => gc_inv vm').
Proof.
  intros Hinv Hv. unfold close_upvalue.
  eapply spec_seq; [by apply write_value_guards | | by intros e vm' ?%wr_inv].
  intros _ vm1 [Hw Hg]. eapply (update_payload_keeps vm vm1 _ _ (value_edges v)); [done | by intros [] | |].
  - intros [] p' [= <-]. split; [done |]. split; [done |]. cbn. intros c. unfold upvalue_edges. cbn.
    rewrite !elem_of_app. intros [Hc | Hc]; eauto.
  - intros i s c Ho Hc. split; [by apply Hv | by eapply Hg].
Qed.

Lemma replace_closure_environment_cell_keeps (vm : Vm) closure cell : gc_inv vm -> vm_intact vm cell ->
  spec (replace_closure_environment_cell closure cell) vm (fun _ vm' => gc_inv vm') (fun _ vm' => gc_inv vm').
Proof.
  intros Hinv Hv. unfold replace_closure_environment_cell. apply spec_bind, spec_get.
  apply spec_bind, spec_lift; [apply checked_in_total | | done]. intros [i s] _.
  apply (spec_seq _ _ _ (fun _ vm' => vm' = vm) _ (fun _ vm' => vm' = vm)); [| | by intros e vm' ->].
  { cbn. destruct (payload (object s)); try (by apply spec_fail). by apply spec_ret. }
  intros _ vm' ->. apply spec_bind, spec_lift; [apply checked_in_total | | done]. intros [j t] _.
  apply (spec_seq _ _ _ (fun _ vm' => vm' = vm) _ (fun _ vm' => vm' = vm)); [| | by intros e vm' ->].
  { cbn. destruct (payload (object t)); try (by apply spec_fail). destruct (_ || _); [by apply spec_ret | by apply spec_fail]. }
  intros _ vm' ->. eapply spec_seq; [by apply write_ref_guards | | by intros e vm' ?%wr_inv].
  intros _ vm1 [Hw Hg]. apply (update_payload_keeps vm vm1 _ _ [cell]); [done | by intros [] | |].
  - intros [] p' [= <-]. split; [done |]. split; [done |]. cbn. intros d. unfold closure_edges. cbn.
    rewrite !elem_of_cons, !elem_of_app. tauto.
  - intros k r d Ho ->%list_elem_of_singleton. split; [done | by eapply Hg].
Qed.

Lemma with_coroutine_mut_keeps (vm : Vm) o (new_refs : list ObjectRef) f : gc_inv vm ->
  (forall c, c ∈ new_refs -> vm_intact vm c) ->
  (forall co c, c ∈ coroutine_edges (f co) -> c ∈ coroutine_edges co \/ c ∈ new_refs) ->
  spec (with_coroutine_mut o new_refs f) vm (fun _ vm' => gc_inv vm') (fun _ vm' => gc_inv vm').
Proof.
  intros Hinv Hv Hf. unfold with_coroutine_mut. apply spec_bind, spec_get.
  apply spec_bind, spec_lift; [apply checked_in_total | | done]. intros [i s] Ho.
  apply (spec_seq _ _ _ (fun _ vm' => vm' = vm) _ (fun _ vm' => vm' = vm)); [| | by intros e vm' ->].
  { cbn. destruct (payload (object s)); try (by apply spec_fail). by apply spec_ret. }
  intros _ vm' ->. eapply (spec_seq _ _ _ (fun _ vm' => wrote vm vm' /\ forall c, c ∈ new_refs -> guarded vm' i c)
    _ (fun _ vm' => wrote vm vm')); [apply each_establish with (P := fun c vm' => guarded vm' i c); [| by apply wrote_refl] | |
      by intros e vm' ?%wr_inv].
  - intros c vm1 Hc Hw. assert (checked_slot vm1 o = Ok (i, s)) as Ho1 by (unfold checked_slot; by rewrite (wr_slots _ _ Hw), (wr_id _ _ Hw)).
    eapply spec_weaken; [apply write_ref_guards; [by apply wr_inv in Hw | done | done] | |].
    + intros _ vm2 [Hw2 Hg]. split; [by eapply wrote_trans |]. split; [by eapply Hg |].
      intros d. apply wrote_guarded; [by eapply checked_in_nonneg | done].
    + intros e vm2 Hw2. by eapply wrote_trans.
  - intros _ vm1 [Hw Hg]. apply (update_payload_keeps vm vm1 _ _ new_refs); [done | by intros [] | |].
    + intros [] p' [= <-]. split; [done |]. split; [done |]. cbn. apply Hf.
    + intros k r d Hk Hd. unfold checked_slot in Ho, Hk. destruct (checked_in_fun _ _ _ _ _ _ _ Ho Hk) as [<- _]. split; [by apply Hv | by apply Hg].
Qed.

Lemma add_child_keeps (vm : Vm) parent child : gc_inv vm -> vm_intact vm child ->
  spec (add_child parent child) vm (fun _ vm' => gc_inv vm') (fun _ vm' => gc_inv vm').
Proof.
  intros Hinv Hv. unfold add_child. eapply spec_seq; [by apply write_ref_guards | | by intros e vm' ?%wr_inv].
  intros _ vm1 [Hw Hg]. apply spec_bind, spec_get.
  assert (checked_slot vm1 parent = checked_slot vm parent) as Ec by (unfold checked_slot; by rewrite (wr_slots _ _ Hw), (wr_id _ _ Hw)).
  apply spec_bind, spec_lift; [apply checked_in_total | | by intros; apply wr_inv in Hw].
  intros [i s] Ho. cbn [fst snd]. rewrite Ec in Ho. specialize (Hg i s Ho).
  assert (zget (slots vm1) i = Some (Occupied s)) as Hz by (apply checked_in_spec in Ho as (Hz & _); by rewrite (wr_slots _ _ Hw)).
  set (I := fun vm' : Vm => exists l, vm' = with_ledger vm1 l).
  assert (forall (e : VmError) vm', I vm' -> gc_inv vm') as Hend by (intros e vm' [l ->]; apply (wr_inv _ _ (wrote_ledger _ _ l Hw))).
  assert (I vm1) as HI by (exists (ledger vm1); by destruct vm1).
  eapply spec_seq; [by apply (keeps_checked_add I) | | done]. intros n vm2 Hvm2.
  apply (keeps_ledger I); [intros vm' l [l' ->]; by exists l | | done | | done].
  { apply returns_bind; [apply returns_reserve_vec | intros _; apply returns_commit]. }
  clear vm2 Hvm2. intros _ vm2 [l ->]. eapply spec_update_slot; [exact Hz |].
  pose proof (wrote_ledger _ _ l Hw) as Hw'. apply (gc_inv_store (with_ledger vm1 l) i s _ [child]); try done.
  - by apply wr_inv in Hw'.
  - intros str c. unfold strong_edges. cbn. rewrite !elem_of_app. tauto.
  - intros c. unfold held_edges. cbn. rewrite !elem_of_app. tauto.
  - intros c ->%list_elem_of_singleton. rewrite (wr_slots _ _ Hw'), (wr_id _ _ Hw'). done.
Qed.

End Stores.
