(* ===== verification/HeapPublish.v ===== *)
(** A new object: the slot that is found for it, its publication, and that both keep the
    invariant of the heap. *)

From Stdlib Require Import ZArith Lia.
From stdpp Require Import base list numbers relations.
From S2P Require Import Prelude Float Number Table TableSpec TableSet GcState GcBits ShortStrings Heap Barrier Collector HeapEdges HeapInv HeapMark HeapChange HeapRounds HeapStores.

Local Open Scope Z_scope.

(** ** One more occupied slot *)

Section Placed.
Context `{Suspended} {slots slots' : list Slot} {vm : VmId} {i : Z} {s : OccupiedSlot} {token : Z}.

(** [slots'] has [s] in slot [i], which was free or did not exist. *)
Record placed : Prop := {
  pl_range : 0 <= i;
  pl_length : zlen slots' = Z.max (zlen slots) (i + 1);
  pl_get : forall j, zget slots' j = if bool_decide (j = i) then Some (Occupied s) else zget slots j;
  pl_free : forall t, zget slots i <> Some (Occupied t);
  pl_names : names vm (reference s) i (generation s);
  pl_token : runtime_token (reference s) = Some token
}.

Context (Hpl : placed) (Hself : self_checked slots vm) (Hheld : held_ok slots token).

Lemma placed_checked o j t : checked_in slots' vm o = Ok (j, t) <->
  j = i /\ t = s /\ o = reference s \/ checked_in slots vm o = Ok (j, t).
Proof using Hpl.
  destruct Hpl as [_ _ Hget Hfree Hn _]. rewrite !checked_in_spec, Hget. case_bool_decide as E.
  - subst j. split.
    + intros ([= <-] & <- & _). by left.
    + intros [(_ & -> & ->) | (Hz & _)]; [done | by destruct (Hfree t)].
  - split; [by right |]. by intros [(? & _) |].
Qed.

Lemma placed_new : checked_in slots' vm (reference s) = Ok (i, s).
Proof using Hpl. apply placed_checked. by left. Qed.

Lemma placed_extended : extended slots slots' vm (reference s).
Proof using Hpl.
  split.
  - intros o j t Hc. apply placed_checked. by right.
  - intros o j t [(_ & _ & ->) | Hc]%placed_checked; [by left | by right].
Qed.

Lemma placed_younger : ~ older token (reference s).
Proof using Hpl. intros Ho. specialize (Ho token (pl_token Hpl)). lia. Qed.

Lemma placed_intact o : intact slots vm o -> intact slots' vm o.
Proof using All. by apply (intact_extended placed_extended Hself Hheld placed_younger). Qed.

Lemma placed_self : self_checked slots' vm.
Proof using Hpl Hself.
  intros j t Hz. apply placed_checked. rewrite (pl_get Hpl) in Hz. case_bool_decide as E; [injection Hz as <-; by left |].
  right. by apply Hself.
Qed.

Lemma placed_marked (col col' : Z -> option GcColor) o : (forall j, 0 <= j -> j <> i -> col' j = col j) ->
  marked slots vm col o -> marked slots' vm col' o.
Proof using Hpl.
  intros Hcol (j & t & Hc & Hw). exists j, t. split; [apply placed_checked; by right |].
  apply checked_in_spec in Hc as (Hz & _). apply zget_lt in Hz as Hj. rewrite Hcol; [done | lia |].
  intros ->. by destruct (pl_free Hpl t).
Qed.

(** The strong references of the objects of before. *)
Lemma placed_strong j t : j <> i -> zget slots' j = Some (Occupied t) -> zget slots j = Some (Occupied t) /\
  strong_edges (string_in slots' vm) (object t) ⊆ strong_edges (string_in slots vm) (object t).
Proof using All.
  intros Hne Hz. rewrite (pl_get Hpl), bool_decide_eq_false_2 in Hz by done.
  split; [done |]. by apply (extended_strong placed_extended Hself Hheld placed_younger _ _ Hz).
Qed.

(** The new object is intact when what it holds was. *)
Lemma placed_new_intact : (forall c, c ∈ held_edges (object s) -> intact slots vm c) -> intact slots' vm (reference s).
Proof using All.
  intros Hs. apply intact_intro; [exists i, s; apply placed_new |].
  intros c (j & t & Hc & Hin). rewrite placed_new in Hc. injection Hc as <- <-.
  apply placed_intact, Hs. by eapply strong_edges_held.
Qed.

Lemma placed_held : (forall c, c ∈ held_edges (object s) -> older token c) -> held_ok slots' (token + 1).
Proof using Hpl Hheld.
  intros Hs j t Hz. rewrite (pl_get Hpl) in Hz. case_bool_decide as E.
  - injection Hz as <-. split; [intros k; rewrite (pl_token Hpl); intros [= <-]; lia |].
    intros c Hc. apply (older_le token); [lia | by apply Hs].
  - destruct (Hheld j t Hz) as [Hr Hin]. split; [apply (older_le token); [lia | done] |].
    intros c Hc. apply (older_le token); [lia | by apply Hin].
Qed.

End Placed.
Arguments placed {_} _ _ _ _ _ _.

Section Publish.
Context `{Suspended} {L : Type} `{HeapLedgerLaws L refused} `{Hasher}.
#[local] Set Default Proof Using "Type*".

Notation Vm := (Vm L).
Notation HeapM := (ST Vm VmError).
Notation vm_intact vm := (intact (slots vm) (vm_id vm)).

(** ** The slot of a new object *)

Definition free_at (vm : Vm) (free : option Z) : Prop :=
  match free with Some i => exists g, zget (slots vm) i = Some (Free g) | None => True end.

(** A free slot below the bound of the scans is found, or there is none. *)
Lemma free_slot_free (vm : Vm) : gc_inv vm -> free_at vm (free_slot vm).
Proof using Type.
  intros ([Hh [Hp _]] & _). unfold free_slot, next_reusable_free.
  pose proof (next_bit_spec (gc vm) 0 (gc_scan_end vm) true Hp ltac:(lia)) as Hn.
  destruct (next_bit (gc vm) 0 (gc_scan_end vm) true) as [i |].
  - destruct Hn as (Hi & Hbit & _). by apply (ho_free _ _ _ _ _ _ Hh); [lia |].
  - destruct (_ <? _) eqn:Hlt; [| done]. apply (ho_tail _ _ _ _ _ _ Hh). destruct (ho_stop _ _ _ _ _ _ Hh). lia.
Qed.

Lemma free_slot_none (vm : Vm) : gc_inv vm -> free_slot vm = None ->
  gc_scan_end vm = zlen (slots vm) /\ forall j, 0 <= j < zlen (slots vm) -> slot_bit reusable_free (gc vm) j = false.
Proof using Type.
  intros ([Hh [Hp _]] & _). unfold free_slot, next_reusable_free.
  pose proof (next_bit_spec (gc vm) 0 (gc_scan_end vm) true Hp ltac:(lia)) as Hn.
  destruct (next_bit (gc vm) 0 (gc_scan_end vm) true) as [i |]; [done |].
  destruct (_ <? _) eqn:Hlt; [done |]. intros _. pose proof (ho_stop _ _ _ _ _ _ Hh) as Hst. apply Z.ltb_ge in Hlt.
  assert (gc_scan_end vm = zlen (slots vm)) as E by lia. split; [done |]. rewrite <- E. exact Hn.
Qed.

(** ** Publication *)

(** The state after slot [i] has got the object [s]. *)
Record published (vm : Vm) (i : Z) (s : OccupiedSlot) (vm' : Vm) : Prop := {
  pu_id : vm_id vm' = vm_id vm;
  pu_placed : placed (slots vm) (slots vm') (vm_id vm) i s (next_runtime_token vm);
  pu_color : forall j, 0 <= j -> color (gc vm') j = if bool_decide (j = i) then Some White else color (gc vm) j;
  pu_free : forall j, 0 <= j -> slot_bit reusable_free (gc vm') j =
    if bool_decide (j = i) then false else slot_bit reusable_free (gc vm) j;
  pu_length : zlen (slot_bits (gc vm')) = pages_for (zlen (slots vm'));
  pu_scans : scans_ok (gc vm');
  pu_stop : gc_scan_end vm' = Z.max (gc_scan_end vm) (i + 1);
  pu_work : work (gc vm') = work (gc vm);
  pu_phase : phase (gc vm') = phase (gc vm);
  pu_mode : mode (gc vm') = mode (gc vm);
  pu_cycle : cycle (gc vm') = cycle (gc vm);
  pu_stage : atomic_finalizer_stage (gc vm') = atomic_finalizer_stage (gc vm);
  pu_roots : GcState.gc_roots (gc vm') = GcState.gc_roots (gc vm);
  pu_cursor : root_cursor (gc vm') = root_cursor (gc vm);
  pu_table : roots vm' = roots vm;
  pu_list : root_list vm' = root_list vm;
  pu_token : next_runtime_token vm' = next_runtime_token vm + 1
}.

Lemma published_intact (vm vm' : Vm) i s : gc_inv vm -> published vm i s vm' ->
  forall o, vm_intact vm o -> vm_intact vm' o.
Proof using Type.
  intros (Hheap & _ & _ & _ & [Hheld _]) Hpu o Ho. rewrite (pu_id _ _ _ _ Hpu).
  apply (placed_intact (pu_placed _ _ _ _ Hpu) (inv_self _ Hheap) Hheld). done.
Qed.

Lemma gc_inv_published (vm vm' : Vm) i s : gc_inv vm -> published vm i s vm' -> finalizer s = Unregistered ->
  (forall c, c ∈ held_edges (object s) -> vm_intact vm c) -> (forall c, c ∈ held_edges (object s) -> older (next_runtime_token vm) c) ->
  gc_inv vm' /\ vm_intact vm' (reference s).
Proof using Type.
  intros Hinv Hpu Hfin Hedges Hold. pose proof (published_intact _ _ _ _ Hinv Hpu) as Hint.
  destruct Hinv as (Hheap & Hwork & Hcycle & Hanch & [Hheld Hids]). destruct Hpu as [? Hpl ? ? ? ? Hstop' ? ? ? ? ? ? ? Hroots' ? ?].
  pose proof (inv_self _ Hheap) as Hself.
  assert (forall j, 0 <= j -> j <> i -> color (gc vm') j = color (gc vm) j) as Hcol.
  { intros j Hj Hne. rewrite pu_color0 by done. by rewrite bool_decide_eq_false_2. }
  assert (forall c, marked_in vm c -> marked (slots vm') (vm_id vm') (color (gc vm')) c) as Hmark.
  { intros c. rewrite pu_id0. by apply (placed_marked Hpl). }
  assert (forall j t, zget (slots vm') j = Some (Occupied t) -> j = i /\ t = s \/ j <> i /\ zget (slots vm) j = Some (Occupied t)) as Hocc.
  { intros j t. rewrite (pl_get Hpl). case_bool_decide; [intros [= <-]; by left | by right]. }
  split.
  2: { rewrite pu_id0. by apply (placed_new_intact Hpl Hself Hheld). }
  split; [| split; [| split; [| split]]].
  - split; [| done]. destruct Hheap as [[Hs1 Hs2 Hs3 Hs4 Hs5 Hs6] _]. rewrite pu_id0, Hstop'. pose proof (pl_range Hpl). split.
    + by apply (placed_self Hpl).
    + intros j Hj. rewrite pu_color0, (pl_get Hpl) by done. case_bool_decide; [split; eauto | by apply Hs2].
    + intros j Hj. rewrite pu_free0, (pl_get Hpl) by done. case_bool_decide; [done | by apply Hs3].
    + rewrite (pl_length Hpl). lia.
    + intros j Hj. rewrite (pl_length Hpl) in Hj. rewrite (pl_get Hpl), bool_decide_eq_false_2 by lia. apply Hs5. lia.
    + done.
  - destruct Hwork as [Hnd Hgray Hw Hidle]. unfold work_inv. rewrite pu_id0, pu_work0, pu_phase0. split; try done.
    + intros o Ho. destruct (Hgray o Ho) as (j & t & Hc & Hg). exists j, t.
      split; [apply (placed_checked Hpl); by right |]. apply checked_in_spec in Hc as (Hz & _). apply zget_lt in Hz as Hj.
      rewrite Hcol; [done | lia |]. intros ->. by destruct (pl_free Hpl t).
    + intros j t Hz Hg. apply zget_lt in Hz as Hj. rewrite pu_color0 in Hg by lia.
      destruct (Hocc j t Hz) as [[-> ->] | [Hne Hz']]; [by rewrite bool_decide_eq_true_2 in Hg |].
      rewrite bool_decide_eq_false_2 in Hg by done. by apply (Hw j).
  - destruct Hcycle as [Hminor Hblack Hcursor Hpend Hroots Hstage Hearly Hreg]. unfold cycle_inv.
    rewrite pu_phase0, pu_mode0, pu_cycle0, pu_stage0, pu_roots0, pu_cursor0, pu_list0. split; try done.
    + intros Hp j t Hz Hb Hset c Hc. apply Hmark. apply zget_lt in Hz as Hj. rewrite pu_color0 in Hb by lia.
      destruct (Hocc j t Hz) as [[-> ->] | [Hne Hz']]; [by rewrite bool_decide_eq_true_2 in Hb |].
      rewrite bool_decide_eq_false_2 in Hb by done. apply (Hblack Hp j t Hz' Hb Hset).
      rewrite pu_id0 in Hc. by apply (placed_strong Hpl Hself Hheld j t Hne Hz).
    + intros Hp r Hr. destruct (Hpend Hp r Hr); [left; by apply Hmark | by right].
    + intros Hp r Hr. by apply Hmark, Hroots.
    + intros Hp Hst j t Hz Hf. destruct (Hocc j t Hz) as [[-> ->] | [Hne Hz']]; [congruence |].
      apply zget_lt in Hz' as Hj. rewrite Hcol by lia || done. by apply (Hreg Hp Hst j t).
  - intros o Hk. apply Hint, Hanch. destruct Hk as [Ho | (j & t & Hz & Hf & <-)]; [left; by rewrite <- pu_list0 |].
    destruct (Hocc j t Hz) as [[-> ->] | [Hne Hz']]; [congruence |]. right. eauto.
  - split; [| by rewrite Hroots']. rewrite pu_token0. by apply (placed_held Hpl Hheld).
Qed.

(** ** [publish_payload] *)

Lemma gc_inv_token (vm : Vm) l t : gc_inv vm -> next_runtime_token vm <= t -> gc_inv (with_next_runtime_token (with_ledger vm l) t).
Proof using Type.
  intros (Hheap & Hwork & Hcycle & Hanch & [Hheld Hids]) Ht. split; [| split; [| split; [| split]]]; try done.
  split; [| done]. intros j s Hz. destruct (Hheld j s Hz) as [Hr Hin]. split; [by apply (older_le (next_runtime_token vm)) |].
  intros c Hc. apply (older_le (next_runtime_token vm)); [done | by apply Hin].
Qed.

Lemma slot_generation_ok (vm : Vm) free : free_at vm free ->
  exists g, slot_generation vm free = Ok (default (zlen (slots vm)) free, g).
Proof using Type.
  destruct free as [i |]; [| by eexists]. intros [g Hz]. exists g. unfold slot_generation, vget. by rewrite Hz.
Qed.

(** The counter moves on, and the reference carries the token that it had. *)
Lemma fresh_reference_spec (vm : Vm) id :
  spec (fresh_reference id) vm
    (fun o vm' => o = Heap_ref id (Some (next_runtime_token vm)) /\ vm' = with_next_runtime_token vm (next_runtime_token vm + 1))
    (fun _ vm' => exists t, next_runtime_token vm <= t /\ vm' = with_next_runtime_token vm t).
Proof using Type.
  unfold spec, fresh_reference, new_runtime, next_unique_id.
  destruct (_ <=? _); [destruct (_ =? _) |]; [| done |]; (eexists; split; [| reflexivity]; lia).
Qed.

(** A free slot, or the next one: it fits in the pages, or in one more. *)
Definition with_page (g : GcState) (new_page : bool) : GcState :=
  if new_page then with_slot_bits g (slot_bits g ++ [no_slot_bits]) else g.

Lemma with_page_bits g b j : 0 <= j -> color (with_page g b) j = color g j /\
  slot_bit reusable_free (with_page g b) j = slot_bit reusable_free g j.
Proof using Type.
  intros Hj. destruct b; [| done]. pose proof (Z.div_pos j 64 Hj ltac:(lia)) as Hd.
  assert (forall field, field no_slot_bits = 0 -> slot_bit field (with_page g true) j = slot_bit field g j) as E.
  { intros field Hf. unfold slot_bit, with_page. cbn [slot_bits with_slot_bits].
    destruct (Z.lt_total (j / 64) (zlen (slot_bits g))) as [Hlt | [-> | Hgt]].
    - by rewrite zget_app_l.
    - rewrite zget_app_mid, Hf. rewrite (proj2 (zget_None (slot_bits g) (zlen (slot_bits g)))) by lia. apply Z.bits_0.
    - rewrite (proj2 (zget_None (slot_bits g) (j / 64))) by lia.
      rewrite (proj2 (zget_None _ (j / 64))); [done |]. rewrite zlen_app. unfold zlen at 2. cbn. lia. }
  by rewrite !color_bits, !E.
Qed.

Lemma with_page_length g i n : 0 <= i <= n -> zlen (slot_bits g) = pages_for n ->
  zlen (slot_bits (with_page g (i / 64 =? zlen (slot_bits g)))) = pages_for (Z.max n (i + 1)) /\
  i / 64 < zlen (slot_bits (with_page g (i / 64 =? zlen (slot_bits g)))).
Proof using Type.
  intros Hi Hl. assert (i / 64 < pages_for (Z.max n (i + 1))) as Hlt by (apply pages_for_le; lia).
  assert (zlen (slot_bits (with_page g (i / 64 =? zlen (slot_bits g)))) = pages_for (Z.max n (i + 1))) as E; [| split; [done |]; lia].
  destruct (decide (i < n)) as [Hin |].
  - pose proof (pages_for_le i n ltac:(lia)). assert ((i / 64 =? zlen (slot_bits g)) = false) as -> by (apply Z.eqb_neq; lia). cbn. rewrite Hl. f_equal. lia.
  - replace (Z.max n (i + 1)) with (n + 1) by lia. replace i with n by lia. clear Hlt.
    pose proof (Z.div_mod n 64 ltac:(lia)). pose proof (Z.mod_pos_bound n 64 ltac:(lia)). rewrite Hl.
    pose proof (Z.div_mod (n + 1) 64 ltac:(lia)). pose proof (Z.mod_pos_bound (n + 1) 64 ltac:(lia)).
    unfold pages_for in *. destruct (n mod 64 =? 0) eqn:Hm, ((n + 1) mod 64 =? 0) eqn:Hm1; unfold with_page;
      destruct (n / 64 =? _) eqn:Hp; cbn [slot_bits with_slot_bits]; rewrite ?zlen_app, ?zlen_cons, ?zlen_nil; lia.
Qed.

(** The steps that place the object, without those of the ledger. *)
Lemma place_published (vm : Vm) free gen p l {A} (rest : HeapM A) Q R : let i := default (zlen (slots vm)) free in
  let id := {| oid_vm := vm_id vm; oid_slot := {| slot_index := i |}; oid_generation := gen |} in
  let s := new_slot id (Heap_ref id (Some (next_runtime_token vm))) {| payload := p; children := [] |} in
  let vm1 := with_gc (with_next_runtime_token (with_ledger vm l) (next_runtime_token vm + 1))
               (with_page (gc vm) (i / 64 =? zlen (slot_bits (gc vm)))) in
  gc_inv vm -> free_at vm free -> (forall vm', published vm i s vm' -> spec rest vm' Q R) ->
  spec (place_slot free s;; update_gc (fun g => publish_occupied g i);;
        modify (fun vm => with_gc_scan_end vm (Z.max (gc_scan_end vm) (i + 1)));; rest) vm1 Q R.
Proof using Type.
  intros i id s vm1 ([Hh Hscans] & _) Hfree Hrest.
  pose proof (zlen_nonneg (slots vm)) as Hlen.
  assert (0 <= i <= zlen (slots vm) /\ forall t, zget (slots vm) i <> Some (Occupied t)) as [Hi Hnot].
  { subst i. destruct free as [i |]; cbn.
    - destruct Hfree as [g Hz]. apply zget_lt in Hz as Hi. split; [lia | congruence].
    - split; [lia |]. intros t Hz%zget_lt. lia. }
  destruct (with_page_length (gc vm) i (zlen (slots vm)) Hi (ho_pages _ _ _ _ _ _ Hh)) as [Hpages Hpage].
  set (g1 := with_page _ _) in *.
  assert (exists slots', place_slot free s vm1 = (Ok tt, with_slots vm1 slots') /\ zlen slots' = Z.max (zlen (slots vm)) (i + 1) /\
    forall j, zget slots' j = if bool_decide (j = i) then Some (Occupied s) else zget (slots vm) j) as (slots' & Hput & Hlen' & Hget).
  { unfold place_slot. destruct free as [k |]; cbn in i.
    - destruct Hfree as [g Hz]. apply zget_lt in Hz as Hk. exists (zinsert (slots vm) k (Occupied s)).
      split; [unfold mbind, st_bind, get, lift, vset; cbn; by rewrite Hz |]. rewrite zlen_zinsert. split; [subst i; lia |].
      intros j. subst i. case_bool_decide as E; [subst j; by apply zget_zinsert_eq | apply zget_zinsert_ne; lia].
    - exists (slots vm ++ [Occupied s]). split; [done |]. split; [rewrite zlen_app, zlen_cons, zlen_nil; subst i; lia |].
      intros j. subst i. case_bool_decide as E; [subst j; apply zget_app_mid |].
      destruct (decide (j < zlen (slots vm))); [by apply zget_app_l |].
      trans (@None Slot); [| symmetry]; apply zget_None; [rewrite zlen_app; change (zlen [Occupied s]) with 1 |]; lia. }
  apply spec_bind. unfold spec. rewrite Hput.
  destruct (update_page_ok g1 i (fun page =>
        {| occupied := Z.lor (occupied page) (slot_mask i); reusable_free := Z.ldiff (reusable_free page) (slot_mask i);
           gray := Z.ldiff (gray page) (slot_mask i); black := Z.ldiff (black page) (slot_mask i) |}) ltac:(lia) Hpage) as [g2 Hg2].
  assert (publish_occupied g1 i = Ok (with_occupied_slots g2 (occupied_slots g2 + 1))) as Hpub by (unfold publish_occupied; by rewrite Hg2).
  set (g3 := with_occupied_slots _ _) in *. destruct (update_page_inv _ _ _ _ Hg2) as (page & _ & Eg2).
  apply spec_bind. eapply spec_update_gc; [exact Hpub |]. apply spec_bind, spec_modify, Hrest.
  assert (pages_ok g1) as Hpok.
  { subst g1. unfold with_page. destruct Hscans as [Hpok _]. destruct (_ =? _); [| done].
    apply Forall_app. split; [done |]. by repeat constructor. }
  assert (forall X, 0 <= ephemeron_cursor (with_page (gc vm) X) /\ 0 <= sweep_cursor (with_page (gc vm) X)) as Hcur
    by (intros []; apply Hscans).
  assert (g3 = with_occupied_slots (with_slot_bits g1 (slot_bits g2)) (occupied_slots g3)) as Eg3 by (subst g3; by rewrite Eg2).
  assert (work g1 = work (gc vm) /\ phase g1 = phase (gc vm) /\ mode g1 = mode (gc vm) /\ cycle g1 = cycle (gc vm) /\
    atomic_finalizer_stage g1 = atomic_finalizer_stage (gc vm) /\ GcState.gc_roots g1 = GcState.gc_roots (gc vm) /\
    root_cursor g1 = root_cursor (gc vm)) as (F1 & F2 & F3 & F4 & F5 & F6 & F7) by (subst g1; by destruct (_ =? _)).
  split; cbn -[g3 pages_for]; try (by rewrite Eg3); try done.
  - split; try done; [lia |]. cbn. eexists. by repeat split.
  - intros j Hj. rewrite (proj1 (publish_bits _ _ _ Hpub ltac:(lia) j Hj)). case_bool_decide; [done |]. by apply with_page_bits.
  - intros j Hj. rewrite (proj2 (publish_bits _ _ _ Hpub ltac:(lia) j Hj)). case_bool_decide; [done |]. by apply with_page_bits.
  - rewrite Eg3, Hlen', Eg2. cbn. by rewrite zlen_zinsert.
  - split; [by apply (publish_pages_ok _ _ _ Hpub); [lia |] |]. rewrite Eg3. apply Hcur.
Qed.

Lemma reserve_work_growth_keeps (I : Vm -> Prop) : (forall vm l, I vm -> I (with_ledger vm l)) -> keeps I reserve_work_growth.
Proof.
  intros HI. apply keeps_read. intros vm. apply keeps_bind; [apply keeps_checked_add | intros _].
  apply keeps_bind; [| intros _].
  { apply keeps_on_ledger; [done |]. apply returns_bind; [apply returns_reserve_charges | intros _].
    apply returns_bind; [apply returns_reserve | intros _; apply returns_checkpoint]. }
  apply keeps_bind; [apply keeps_checked_add | intros needed]. apply keeps_if; [apply keeps_fail |].
  apply keeps_on_ledger; [done |]. apply returns_bind; [apply returns_try_reserve | intros _; apply keeps_ret].
Qed.

(** Publication keeps the invariant and what was intact, and the new object is intact: a
    young, white one that only the caller knows. *)
Definition new_object (vm : Vm) (p : HeapPayload) (o : ObjectRef) (vm' : Vm) : Prop :=
  gc_inv vm' /\ vm_id vm' = vm_id vm /\ vm_intact vm' o /\ (forall c, vm_intact vm c -> vm_intact vm' c) /\ root_list vm' = root_list vm /\
  phase (gc vm') = phase (gc vm) /\
  exists i s, checked_slot vm' o = Ok (i, s) /\ object s = {| payload := p; children := [] |} /\ finalizer s = Unregistered /\
    color (gc vm') i = Some White.

Lemma new_object_published (vm vm' : Vm) i gen p : let id := {| oid_vm := vm_id vm; oid_slot := {| slot_index := i |}; oid_generation := gen |} in
  let o := Heap_ref id (Some (next_runtime_token vm)) in
  gc_inv vm -> (forall c, c ∈ held_edges {| payload := p; children := [] |} -> vm_intact vm c) ->
  published vm i (new_slot id o {| payload := p; children := [] |}) vm' -> new_object vm p o vm'.
Proof using Type.
  intros id o Hinv Hedges Hpu. destruct (gc_inv_published _ _ _ _ Hinv Hpu) as [Hinv' Hi]; try done.
  { intros c Hc. apply valid_older; [done |]. by apply intact_valid, Hedges. }
  split; [done |]. split; [by apply pu_id in Hpu |]. split; [done |]. split; [by apply (published_intact _ _ _ _ Hinv Hpu) |].
  split; [by apply pu_list in Hpu |]. split; [by apply pu_phase in Hpu |]. exists i, (new_slot id o {| payload := p; children := [] |}). split; [| split; [| split]]; try done.
  - unfold checked_slot. rewrite (pu_id _ _ _ _ Hpu). apply (placed_new (pu_placed _ _ _ _ Hpu)).
  - pose proof (pl_range (pu_placed _ _ _ _ Hpu)). rewrite (pu_color _ _ _ _ Hpu) by done. by rewrite bool_decide_eq_true_2.
Qed.

Lemma publish_payload_keeps (vm : Vm) p free : gc_inv vm -> free_at vm free ->
  (forall c, c ∈ held_edges {| payload := p; children := [] |} -> vm_intact vm c) ->
  spec (publish_payload p free) vm (fun r vm' => new_object vm p r.1.1 vm') (fun _ vm' => gc_inv vm').
Proof.
  intros Hinv Hfree Hedges. unfold publish_payload. apply spec_bind, spec_get. set (i := default (zlen (slots vm)) free).
  set (I := fun vm' : Vm => exists l, vm' = with_ledger vm l).
  assert (I vm) as HI by by exists (ledger vm); destruct vm.
  assert (forall vm' l, I vm' -> I (with_ledger vm' l)) as HIl by (intros vm' l [l' ->]; by exists l).
  assert (forall (e : VmError) vm', I vm' -> gc_inv vm') as Hend by by intros e vm' [l ->].
  assert (forall A (m : ST L VmError A), returns m -> keeps I (on_ledger m)) as Hled by (intros A m; by apply keeps_on_ledger).
  apply (spec_seq _ _ _ (fun r vm' => r = i + 1 /\ I vm') _ (fun _ => gc_inv)); [| | done].
  { unfold checked_add. destruct (_ <=? _); [by apply spec_ret | exact Hinv]. }
  intros stop vm1 [-> Hvm1]. destruct (_ <? _); [by apply spec_fail, (Hend LedgerInvariant) |].
  set (new_page := i / 64 =? zlen (slot_bits (gc vm))). set (grows := needs_work_growth (gc vm)).
  assert (forall (m : HeapM unit) {B} (f : unit -> HeapM B) vm' Q, keeps I m -> I vm' -> (forall vm', I vm' -> spec (f tt) vm' Q (fun _ => gc_inv)) ->
    spec (m ≫= f) vm' Q (fun _ => gc_inv)) as Hseq.
  { intros m B f vm' Q Hm Hvm' Hf. eapply spec_seq; [by apply (keeps_spec I) | | done]. intros [] vm2 Hvm2. by apply Hf. }
  apply Hseq; [| done |].
  { destruct free; [apply keeps_ret |]. apply Hled, returns_bind; [apply returns_reserve_vec | intros _; apply keeps_ret]. }
  clear vm1 Hvm1. intros vm1 Hvm1. apply Hseq; [| done |].
  { apply Hled, returns_bind; [apply returns_reserve_vec | intros _; apply returns_checkpoint]. }
  clear vm1 Hvm1. intros vm1 Hvm1. apply Hseq; [| done |].
  { apply keeps_if; [| apply keeps_ret]. apply Hled, returns_bind; [apply returns_reserve_charges | intros _].
    apply returns_bind; [apply returns_reserve_vec | intros _; apply keeps_ret]. }
  clear vm1 Hvm1. intros vm1 Hvm1. apply Hseq; [| done |].
  { apply keeps_if; [by apply reserve_work_growth_keeps | apply keeps_ret]. }
  clear vm1 Hvm1. intros vm1 [l1 ->]. clear Hseq.
  destruct (slot_generation_ok _ _ Hfree) as [gen ->]. fold i.
  apply spec_bind. change (spec (lift (Ok ?x)) ?s ?Q ?R) with (Q x s). cbn beta iota delta [fst snd].
  eapply spec_seq; [apply fresh_reference_spec | | intros e vm2 (t & Ht & ->); by apply gc_inv_token].
  intros o vm2 [-> ->]. cbn [next_runtime_token with_ledger].
  set (I2 := fun vm' : Vm => exists l, vm' = with_next_runtime_token (with_ledger vm l) (next_runtime_token vm + 1)).
  assert (forall vm' l, I2 vm' -> I2 (with_ledger vm' l)) as HI2 by (intros vm' l [l' ->]; by exists l).
  assert (forall (e : VmError) vm', I2 vm' -> gc_inv vm') as Hend2 by (intros e vm' [l ->]; apply gc_inv_token; [done | lia]).
  apply (keeps_ledger I2); [done | apply returns_commit | by exists l1 | | done]. intros _ vm2 Hvm2.
  apply (spec_seq _ _ _ (fun _ vm' => exists l, vm' = with_gc (with_next_runtime_token (with_ledger vm l) (next_runtime_token vm + 1))
    (with_page (gc vm) new_page)) _ (fun _ => gc_inv)); [| | done].
  { unfold with_page. destruct new_page.
    - apply (keeps_ledger I2); [done | apply returns_commit | done | | done]. intros _ vm3 [l ->]. apply spec_modify_gc. by exists l.
    - apply spec_ret. destruct Hvm2 as [l ->]. by exists l. }
  intros _ vm3 [l ->]. apply (place_published vm free gen p l); [done | done |]. intros vm' Hpu. fold i in Hpu.
  set (o := Heap_ref _ _) in *. assert (new_object vm p o vm') as Hnew by by apply (new_object_published vm vm' i gen). clear Hpu.
  destruct grows; [| by apply spec_bind, spec_ret, spec_ret].
  apply spec_bind. apply (keeps_ledger (new_object vm p o)); [by intros vm4 l' Hvm4 | apply returns_commit | exact Hnew | |].
  - intros _ vm4 Hvm4. apply spec_modify_gc, spec_ret. exact Hvm4.
  - intros e vm4 Hvm4. apply Hvm4.
Qed.

End Publish.
