(* ===== verification/HeapTables.v ===== *)
(** Sets of table entries keep the invariant of the heap: what the barrier that is
    prepared before the write marks, and what the write then adds to the table. *)

From Stdlib Require Import ZArith Lia.
From stdpp Require Import base list numbers relations.
From S2P Require Import Prelude Float Number Table TableSpec TableSet TableHeap TableEdges GcState GcBits ShortStrings Heap Barrier Collector HeapEdges HeapInv HeapMark HeapChange HeapRounds HeapAtomic HeapFinish HeapStores.

Local Open Scope Z_scope.

(** ** Partial correctness

    What holds when an operation returns: tables that are not well formed may panic. *)
Section Post.
Context {S E : Type}.

Definition post {A} (m : ST S E A) (s : S) (Q : A -> S -> Prop) (R : E -> S -> Prop) : Prop :=
  match m s with (Ok a, s') => Q a s' | (Err e, s') => R e s' | (Crash _, _) => True end.

Lemma post_spec {A} (m : ST S E A) s (Q : A -> S -> Prop) R : spec m s Q R -> post m s Q R.
Proof. unfold spec, post. by destruct (m s) as [[] ?]. Qed.

Lemma post_seq {A B} (m : ST S E A) (f : A -> ST S E B) s (P : A -> S -> Prop) R' (Q : B -> S -> Prop) R :
  post m s P R' -> (forall a s', P a s' -> post (f a) s' Q R) -> (forall e s', R' e s' -> R e s') -> post (m ≫= f) s Q R.
Proof.
  unfold post, mbind, st_bind. intros Hm Hf HR. destruct (m s) as [[a | e | k] s']; [by apply Hf | by apply HR | done].
Qed.

Lemma post_get {B} (f : S -> ST S E B) s (Q : B -> S -> Prop) R : post (f s) s Q R -> post (get ≫= f) s Q R.
Proof. done. Qed.

Lemma post_lift {A B} (r : res E A) (f : A -> ST S E B) s (Q : B -> S -> Prop) R :
  (forall a, r = Ok a -> post (f a) s Q R) -> (forall e, R e s) -> post (lift r ≫= f) s Q R.
Proof. unfold post, mbind, st_bind, lift. intros Hf HR. destruct r; [by apply Hf | apply HR | done]. Qed.

(** A step that leaves the state alone. *)
Lemma post_still {A B} (m : ST S E A) (f : A -> ST S E B) s (Q : B -> S -> Prop) R :
  (snd (m s) = s) -> (forall a, post (f a) s Q R) -> (forall e, R e s) -> post (m ≫= f) s Q R.
Proof.
  unfold post, mbind, st_bind. destruct (m s) as [[a | e | k] s']; cbn; intros -> Hf HR; [apply Hf | apply HR | done].
Qed.

End Post.

(** ** Keys and mutations *)

Section Sources.
Context `{Hasher} `{Table.Heap} {L : Type} `{Ledger L}.

(** The key of a value comes from its object. *)
Lemma canonical_key_source v key (l l' : L) : canonical_key v l = (Ok (Some key), l') -> source_object key = object_of v.
Proof.
  destruct v as [| | | x | | f | o]; cbn [canonical_key]; try by intros [= <- _].
  - destruct (f64_is_nan x); [done |]. destruct (integral_float x); by intros [= <- _].
  - destruct (bool_decide _); [by intros [= <- _] | done].
  - intros Hk. apply bind_Ok in Hk as (k & l1 & Hkind & Hk). destruct (bool_decide _).
    + apply bind_Ok in Hk as (s & l2 & _ & Hk). apply bind_Ok in Hk as (key' & l3 & Hs & Hk). injection Hk as <- _.
      unfold string_key in Hs. destruct (_ <=? _); [by injection Hs as <- _ |].
      unfold long_string_key in Hs. unbind Hs. by injection Hs as <- _.
    + destruct (identity o) as [id |]; [| done]. by injection Hk as <- _.
Qed.

(** The barrier of a set is told of the key and the value only. *)
Lemma prepare_set_edges t key v (l l' : L) m : prepare_set t key v l = (Ok m, l') ->
  forall c, edge_of m c -> source_object key = Some c \/ object_of v = Some c.
Proof.
  assert (forall c, edge_of (ArraySlot 0 v) c -> source_object key = Some c \/ object_of v = Some c) as Hval by (intros c [? | ?]; [done | by right]).
  assert (forall i c, edge_of (HashInsert i key v) c -> source_object key = Some c \/ object_of v = Some c) as Hboth by (intros i c [? | ?]; [by left | by right]).
  assert (forall l l' m, prepare_hash_insert t key v l = (Ok m, l') -> forall c, edge_of m c -> source_object key = Some c \/ object_of v = Some c) as Hins.
  { intros k k' m' Hm. unfold prepare_hash_insert in Hm. destruct (_ || _ || _); unbind Hm; injection Hm as <- _; [apply (Hboth 0) | apply Hboth]. }
  assert (forall l l' m, prepare_new t key v l = (Ok m, l') -> forall c, edge_of m c -> source_object key = Some c \/ object_of v = Some c) as Hnew.
  { intros k k' m' Hm. unfold prepare_new in Hm. destruct (array_index key) as [i |]; [| by eapply Hins].
    destruct (i <? _); [unbind Hm; by injection Hm as <- _ |]. destruct (i =? _); [| by eapply Hins].
    unfold prepare_array_growth in Hm. unbind Hm. by injection Hm as <- _. }
  unfold prepare_set. destruct (Table.occupied_slot t key) as [i |]; [by intros [= <- _] |].
  destruct (find_hash t key) as [i |].
  - destruct (is_nil v); intros Hm; unbind Hm; by injection Hm as <- _.
  - destruct (is_nil v); [intros [= <- _]; by intros c [|] |].
    destruct (find_any_hash t key) as [i |]; [| apply Hnew]. destruct (_ <=? _); [| apply Hnew].
    intros Hm. unbind Hm. injection Hm as <- _. exact (Hboth i).
Qed.

End Sources.

Section Tables.
Context `{Suspended} {L : Type} `{HeapLedgerLaws L refused} `{Hasher}.
#[local] Set Default Proof Using "Type*".

Notation Vm := (Vm L).
Notation HeapM := (ST Vm VmError).
Notation vm_intact vm := (intact (slots vm) (vm_id vm)).

(** ** The prepared barrier *)

(** What a barrier is to mark: white objects in their slots, each once. *)
Record ready (vm : Vm) (ms : list (ObjectRef * Z)) : Prop := {
  rd_nodup : NoDup (map fst ms);
  rd_white : forall m, m ∈ ms -> exists s, checked_slot vm m.1 = Ok (m.2, s) /\ color (gc vm) m.2 = Some White;
  rd_phase : ms <> [] -> phase (gc vm) <> Pause
}.

Lemma ready_nil (vm : Vm) : ready vm [].
Proof using Type. split; [apply NoDup_nil_2 | by intros m ?%elem_of_nil | done]. Qed.

Lemma apply_mark_wrote (vm : Vm) m ms : gc_inv vm -> ready vm (m :: ms) ->
  exists g, apply_mark (gc vm) m = Ok g /\ wrote vm (with_gc vm g) /\ marked_in (with_gc vm g) m.1 /\ ready (with_gc vm g) ms.
Proof using Type.
  intros Hinv [Hnd Hw Hp]. cbn in Hnd. apply NoDup_cons in Hnd as [Hm Hnd].
  destruct (Hw m ltac:(left)) as (s & Hc & Hcol).
  pose proof (gc_inv_heap _ Hinv) as Hheap. specialize (Hp ltac:(done)).
  destruct (grayed_marks _ _ _ _ _ _ _ Hheap Hc Hp Hcol) as (g1 & Hg1 & Hmk & Hnw).
  exists (grayed g1 m.1). split; [unfold apply_mark; by rewrite Hg1 |].
  split; [apply wrote_marking; [done |]; by eexists |]. split; [by exists m.2, s |]. split; [done | |].
  - intros n Hn. destruct (Hw n ltac:(by right)) as (t & Hct & Hcolt). exists t. split; [done |].
    pose proof (checked_in_nonneg _ _ _ _ _ Hct) as Hn0. cbn.
    destruct (mk_color _ _ _ _ Hmk n.2 Hn0) as [-> | [_ Hgray]]; [done |]. exfalso.
    assert (n.2 <> m.2) as Hne.
    { intros E. apply Hm. apply list_elem_of_fmap. exists n. split; [| done]. unfold checked_slot in *. rewrite E in Hct.
      apply checked_in_spec in Hc as (Hz & <- & _). apply checked_in_spec in Hct as (Hz' & <- & _). congruence. }
    (* only the slot of [m] changes its colour *)
    destruct (mk_work _ _ _ _ Hmk) as (new & Hwork & _ & Hin & _).
    assert (work (grayed g1 m.1) = work (gc vm) ++ [m.1]) as E.
    { unfold apply_mark in *. destruct (update_page_inv _ _ _ _ Hg1) as (page & _ & ->). unfold grayed, transition. cbn. by repeat case_bool_decide. }
    rewrite E in Hwork. apply app_inv_head in Hwork as <-.
    assert (n.1 ∈ [m.1]) as Hn1 by (apply Hin; by exists n.2, t).
    apply list_elem_of_singleton in Hn1. apply Hne. rewrite Hn1 in Hct. unfold checked_slot in *. congruence.
  - intros _. cbn. intros Hp'. by apply Hp, (marks_pause _ _ _ _ Hmk).
Qed.

Lemma apply_marks_wrote ms : forall vm : Vm, gc_inv vm -> ready vm ms ->
  exists g, fold_res apply_mark (gc vm) ms = Ok g /\ wrote vm (with_gc vm g) /\ forall m, m ∈ ms -> marked_in (with_gc vm g) m.1.
Proof using Type.
  induction ms as [| m ms IH]; intros vm Hinv Hr.
  - exists (gc vm). split; [done |]. rewrite with_gc_same. split; [by apply wrote_refl | by intros m ?%elem_of_nil].
  - destruct (apply_mark_wrote _ _ _ Hinv Hr) as (g1 & Hg1 & Hw1 & Hm & Hr1).
    destruct (IH (with_gc vm g1) (wr_inv _ _ Hw1) Hr1) as (g2 & Hg2 & Hw2 & Hms). exists g2.
    split; [cbn; by rewrite Hg1 |]. split; [exact (wrote_trans _ _ _ Hw1 Hw2) |].
    intros n [-> | Hn]%elem_of_cons; [exact (wr_marked _ _ Hw2 _ Hm) | by apply Hms].
Qed.

Lemma barrier_apply_wrote (vm : Vm) b : gc_inv vm -> ready vm (pb_marks b) ->
  exists g, barrier_apply b (gc vm) = Ok g /\ wrote vm (with_gc vm g) /\ forall m, m ∈ pb_marks b -> marked_in (with_gc vm g) m.1.
Proof using Type.
  intros Hinv Hr. unfold barrier_apply. set (g0 := match pb_remembered_charge b with Some _ => _ | None => _ end).
  assert (wrote vm (with_gc vm g0)) as Hw0.
  { subst g0. destruct (pb_remembered_charge b); [by apply wrote_remembered, wrote_refl | rewrite with_gc_same; by apply wrote_refl]. }
  assert (ready (with_gc vm g0) (pb_marks b)) as Hr0.
  { destruct Hr as [Hnd Hwh Hp]. subst g0. by destruct (pb_remembered_charge b). }
  destruct (apply_marks_wrote _ _ (wr_inv _ _ Hw0) Hr0) as (g & Hg & Hw & Hm). cbn in Hg. rewrite Hg. cbn.
  exists (with_barrier_count g (pb_barrier_count b)). split; [done |].
  split; [apply (wrote_barrier_count vm (with_gc vm g)); exact (wrote_trans _ _ _ Hw0 Hw) | exact Hm].
Qed.

(** The loop of the preparation. *)
Lemma prepare_edge_ready (vm : Vm) mode old black acc edge acc' : (black = true -> phase (gc vm) <> Pause) ->
  prepare_edge vm mode old black acc edge = Ok acc' -> ready vm acc.2 ->
  ready vm acc'.2 /\ acc.2 ⊆ acc'.2 /\
  (black = true -> mode = WeakMode.Strong -> forall c, edge.2 = Some c -> marked_in vm c \/ c ∈ map fst acc'.2).
Proof using Type.
  intros Hp He Hr. unfold prepare_edge in He. destruct edge.2 as [child |]; [| by injection He as <-].
  apply res_bind_Ok in He as ([j t] & Hc & He). apply res_bind_Ok in He as (kind & _ & He). cbn in He.
  assert (mode = WeakMode.Strong -> forall s, weak_edge mode edge.1 s = false) as Hw by by intros -> []; destruct edge.1.
  destruct (weak_edge _ _ _) eqn:Ew; cbn in He.
  { injection He as <-. split; [done |]. split; [done |]. intros _ Hm. by rewrite Hw in Ew. }
  destruct black; cbn in He; [| by injection He as <-].
  destruct (color (gc vm) j) as [k |] eqn:Ec; [| done].
  assert (k <> White -> marked_in vm child) as Hmarked by (intros Hk; exists j, t; split; [done | congruence]).
  destruct k; [| injection He as <-; split; [done |]; split; [done |]; intros _ _ c [= <-]; left; by apply Hmarked
    | injection He as <-; split; [done |]; split; [done |]; intros _ _ c [= <-]; left; by apply Hmarked].
  destruct (existsb _ acc.2) eqn:Ex; injection He as <-; cbn.
  - split; [done |]. split; [done |]. intros _ _ c [= <-]. right.
    apply existsb_exists in Ex as (m & Hm & E). apply bool_decide_eq_true in E as <-. apply list_elem_of_fmap. exists m. by rewrite list_elem_of_In.
  - destruct Hr as [Hnd Hwh Hph]. split; [split | split].
    + rewrite map_app. apply NoDup_app. split; [done |]. split; [| apply NoDup_singleton].
      intros o Ho Hoc. apply list_elem_of_singleton in Hoc. cbn in Hoc. subst o. apply list_elem_of_fmap in Ho as (m & -> & Hm).
      apply not_true_iff_false in Ex. apply Ex, existsb_exists. exists m. rewrite <- list_elem_of_In. by rewrite bool_decide_eq_true_2.
    + intros m [Hm | Hm]%elem_of_app; [by apply Hwh | apply list_elem_of_singleton in Hm; subst m; by exists t].
    + intros _. by apply Hp.
    + intros m Hm. apply elem_of_app. by left.
    + intros _ _ c [= <-]. right. rewrite map_app. apply elem_of_app. right. by apply list_elem_of_singleton.
Qed.

Lemma prepare_edges_ready (vm : Vm) mode old black edges : (black = true -> phase (gc vm) <> Pause) ->
  forall acc acc', fold_res (prepare_edge vm mode old black) acc edges = Ok acc' -> ready vm acc.2 ->
  ready vm acc'.2 /\ acc.2 ⊆ acc'.2 /\
  (black = true -> mode = WeakMode.Strong -> forall e c, e ∈ edges -> e.2 = Some c -> marked_in vm c \/ c ∈ map fst acc'.2).
Proof using Type.
  intros Hp. induction edges as [| e edges IH]; intros acc acc' Hf Hr; cbn in Hf.
  { injection Hf as <-. split; [done |]. split; [done |]. by intros _ _ e c ?%elem_of_nil. }
  apply res_bind_Ok in Hf as (acc1 & He & Hf). destruct (prepare_edge_ready _ _ _ _ _ _ _ Hp He Hr) as (Hr1 & Hs1 & Hm1).
  destruct (IH _ _ Hf Hr1) as (Hr2 & Hs2 & Hm2). split; [done |]. split; [intros x Hx; by apply Hs2, Hs1 |].
  intros Hb Hst f c [-> | Hin]%elem_of_cons Hc; [| by eapply Hm2].
  destruct (Hm1 Hb Hst c Hc) as [| Hin]; [by left | right].
  apply list_elem_of_fmap in Hin as (m & -> & Hm). apply list_elem_of_fmap. exists m. auto.
Qed.

(** Only the ledger changes while the barrier is prepared. *)
Definition charged (vm vm' : Vm) : Prop := exists l, vm' = with_ledger vm l.

Lemma charged_refl (vm : Vm) : charged vm vm.
Proof using Type. exists (ledger vm). by destruct vm. Qed.

Lemma post_ledger {A B} (vm vm' : Vm) (m : ST L VmError A) (f : A -> HeapM B) Q R : charged vm vm' ->
  (forall a l l', m l = (Ok a, l') -> post (f a) (with_ledger vm l') Q R) -> (forall e vm'', charged vm vm'' -> R e vm'') ->
  post (on_ledger m ≫= f) vm' Q R.
Proof using Type.
  intros [l ->] Hf HR. unfold post, mbind, st_bind, on_ledger. cbn. destruct (m l) as [[a | e | k] l'] eqn:E; [| | done].
  - exact (Hf a l l' E).
  - apply HR. by exists l'.
Qed.

(** Every strong edge is marked, or about to be. *)
Definition covers (vm : Vm) (i : Z) (edges : list (RefField * option ObjectRef)) (b : PreparedTableBarrier) : Prop :=
  phase (gc vm) <> Pause -> color (gc vm) i = Some Black ->
  forall e c, e ∈ edges -> e.2 = Some c -> marked_in vm c \/ c ∈ map fst (pb_marks b).

Lemma prepare_barrier_covers (vm vm' : Vm) owner edges i s t : charged vm vm' -> checked_slot vm owner = Ok (i, s) ->
  payload (object s) = PTable t ->
  post (prepare_table_write_barrier_edges owner edges) vm'
    (fun b vm'' => charged vm vm'' /\ ready vm (pb_marks b) /\ (weak_mode t = WeakMode.Strong -> covers vm i edges b))
    (fun _ vm'' => charged vm vm'').
Proof using Type.
  intros Hch Ho Hpt. unfold prepare_table_write_barrier_edges. apply post_get.
  destruct Hch as [l ->]. change (checked_slot (with_ledger vm l) owner) with (checked_slot vm owner). rewrite Ho.
  apply post_lift; [intros o [= <-] | by intros; exists l].
  assert (with_table (with_ledger vm l) owner = Ok t) as Ht.
  { unfold with_table. change (checked_slot (with_ledger vm l) owner) with (checked_slot vm owner). rewrite Ho. cbn. by rewrite Hpt. }
  rewrite Ht. apply post_lift; [intros t' [= <-] | by intros; exists l]. cbn [fst snd gc with_ledger].
  apply (post_seq _ _ _ (fun black vm'' => charged vm vm'' /\ (black = true <-> phase (gc vm) <> Pause /\ color (gc vm) i = Some Black))
    (fun _ vm'' => charged vm vm'')); [| | done].
  { case_bool_decide as Hp; [split; [by exists l |]; split; [done | by intros [? _]] |].
    destruct (color (gc vm) i) as [c |]; [| by exists l]. split; [by exists l |].
    rewrite bool_decide_eq_true. split; [intros ->; done | by intros [_ [= ->]]]. }
  intros black vm1 [[l1 ->] Hblack]. apply post_lift; [| by intros; exists l1]. intros found Hfound.
  destruct (prepare_edges_ready vm _ _ _ _ (fun H => proj1 (proj1 Hblack H)) _ _ Hfound (ready_nil vm)) as (Hr & _ & Hm).
  assert (forall b, pb_marks b = found.2 -> ready vm (pb_marks b) /\ (weak_mode t = WeakMode.Strong -> covers vm i edges b)) as Hend.
  { intros b E. unfold covers. rewrite E. split; [done |]. intros Hst Hp Hb. apply Hm; [by apply Hblack | done]. }
  destruct (_ <? _); [by exists l1 |]. apply post_still; [by unfold checked_add; destruct (_ <=? _) | | by intros; exists l1]. intros count.
  apply post_still; [unfold checked_add; destruct (bool_decide _ && (0 <? _)); [by destruct (_ <=? _) | done] | | by intros; exists l1].
  intros _. apply (post_seq _ _ _ (fun _ => charged vm) (fun _ => charged vm)); [| | done].
  - destruct (found.1 && negb _); [| by exists l1].
    apply post_still; [by unfold checked_add; destruct (_ <=? _) | | by intros; exists l1]. intros charge.
    apply (post_ledger vm); [by exists l1 | intros a l2 l3 _; by exists l3 | done].
  - intros charge vm2 Hvm2. split; [done |]. by apply Hend.
Qed.

(** ** The write *)

Lemma apply_to_table_edges m t t' s : prepared_for t m -> payload (object s) = PTable t -> apply_mutation m t = Ok t' ->
  (forall str c, c ∈ strong_edges str (object (with_payload s (PTable t'))) -> c ∈ strong_edges str (object s) \/ edge_of m c) /\
  (forall c, c ∈ held_edges (object (with_payload s (PTable t'))) -> c ∈ held_edges (object s) \/ edge_of m c).
Proof using Type.
  intros Hp Hpt Ht. pose proof (apply_mutation_stores _ _ _ Hp Ht) as Hst. unfold strong_edges, held_edges. cbn. rewrite Hpt.
  split; [intros str c | intros c]; rewrite !elem_of_app.
  - intros [Hc | Hc]; [| left; by right]. destruct (stores_strong str _ _ _ _ Hst Hc); [left; by left | by right].
  - intros [Hc | Hc]; [| left; by right]. destruct (stores_held _ _ _ _ Hst Hc); [left; by left | by right].
Qed.

Definition edge_list (m : PreparedTableMutation) : list ObjectRef := option_edges (new_edges m).1 ++ option_edges (new_edges m).2.

Lemma edge_list_elem m c : c ∈ edge_list m <-> edge_of m c.
Proof using Type. unfold edge_list, edge_of. by rewrite elem_of_app, !option_edges_elem. Qed.

(** The commit behind a barrier that covers the edges. *)
Lemma commit_keeps (vm vm' : Vm) owner b m i s t : charged vm vm' -> gc_inv vm -> checked_slot vm owner = Ok (i, s) ->
  payload (object s) = PTable t -> prepared_for t m -> ready vm (pb_marks b) ->
  (forall c, edge_of m c -> vm_intact vm c /\ (phase (gc vm) <> Pause -> color (gc vm) i = Some Black -> marked_in vm c \/ c ∈ map fst (pb_marks b))) ->
  post (commit_prepared_table_write owner b m) vm' (fun _ => gc_inv) (fun _ => gc_inv).
Proof using Type.
  intros Hch Hinv Ho Hpt Hprep Hr Hedges. unfold commit_prepared_table_write. apply post_get.
  assert (forall (e : VmError) vm'', charged vm vm'' -> gc_inv vm'') as Hend by by intros e vm'' [l ->].
  apply post_lift; [intros _ _ | intros e; by apply Hend]. apply (post_ledger vm); [done | | done]. intros _ _ l _.
  destruct (barrier_apply_wrote (with_ledger vm l) b) as (g & Hg & Hw & Hm); [done | by destruct Hr |].
  apply (post_seq _ _ _ (fun _ vm'' => vm'' = with_gc (with_ledger vm l) g) (fun _ _ => False)); [| | done].
  { apply post_spec. by eapply spec_update_gc. }
  intros _ vm1 ->. set (vm1 := with_gc (with_ledger vm l) g) in *.
  assert (checked_slot vm1 owner = Ok (i, s)) as Ho1 by exact Ho.
  unfold update_payload. apply post_get. rewrite Ho1. apply post_lift; [intros f [= <-] | intros e; exact (wr_inv _ _ Hw)]. cbn [fst snd].
  rewrite Hpt. apply post_lift; [| intros e; exact (wr_inv _ _ Hw)]. intros p Hp. apply res_bind_Ok in Hp as (t' & Ht & Hp). injection Hp as <-.
  apply checked_in_spec in Ho1 as (Hz & _). apply post_spec. eapply spec_update_slot; [exact Hz |].
  destruct (apply_to_table_edges _ _ _ s Hprep Hpt Ht) as [Hstrong Hheld].
  apply (gc_inv_store vm1 i s _ (edge_list m)); try done; [exact (wr_inv _ _ Hw) | unfold keeps_kind; cbn; by rewrite Hpt | | |].
  - intros str c Hc. rewrite edge_list_elem. by apply Hstrong.
  - intros c Hc. rewrite edge_list_elem. by apply Hheld.
  - intros c Hc. rewrite edge_list_elem in Hc. destruct (Hedges c Hc) as [Hi Hmk]. split; [exact Hi |].
    intros Hp' Hb. destruct Hmk as [Hmk | Hin].
    + intros Hpz. by apply Hp', (wr_pause _ _ Hw).
    + apply (wr_black _ _ Hw); [apply zget_lt in Hz; lia | done].
    + exact (wr_marked _ _ Hw _ Hmk).
    + apply list_elem_of_fmap in Hin as (n & -> & Hn). by apply Hm.
Qed.

(** [Vm::raw_set]: key and value are intact; a weak table is written between cycles, or
    gets what is marked. *)
Definition settable (vm : Vm) (table : ObjectRef) (key value : Value) : Prop := forall t c,
  with_table vm table = Ok t -> object_of key = Some c \/ object_of value = Some c ->
  vm_intact vm c /\ (weak_mode t = WeakMode.Strong \/ phase (gc vm) = Pause \/ marked_in vm c).

Lemma vm_raw_set_keeps (vm : Vm) table key value : gc_inv vm -> settable vm table key value ->
  post (vm_raw_set table key value) vm (fun _ => gc_inv) (fun _ => gc_inv).
Proof using Type.
  intros Hinv Hset. unfold vm_raw_set. apply post_get. apply post_lift; [intros kind _ | done].
  destruct (negb _); [done |]. apply post_still; [by destruct value as [| | | | | f |]; try done; cbn; case_bool_decide | intros _ | done].
  apply post_still; [by destruct (is_nil key); [| destruct (is_nan_key key)] | intros _ | done].
  assert (forall (e : VmError) vm'', charged vm vm'' -> gc_inv vm'') as Hend by by intros e vm'' [l ->].
  apply (post_ledger vm); [by apply charged_refl | | done]. intros canonical l0 l1 Hkey.
  destruct canonical as [ck |]; [| done]. apply canonical_key_source in Hkey.
  change (post (t ← lift (with_table vm table); mutation ← on_ledger (prepare_set t ck value);
    barrier ← prepare_table_write_barrier table (new_edges mutation).1 (new_edges mutation).2;
    commit_prepared_table_write table barrier mutation;; mret (new_edges mutation).1) (with_ledger vm l1) (fun _ => gc_inv) (fun _ => gc_inv)).
  apply post_lift; [intros t Ht | done]. apply (post_ledger vm); [by exists l1 | | done]. intros m l2 l3 Hm.
  destruct (checked_slot vm table) as [[i s] | |] eqn:Ho; [| unfold with_table in Ht; by rewrite Ho in Ht ..].
  assert (payload (object s) = PTable t) as Hpt.
  { unfold with_table in Ht. rewrite Ho in Ht. cbn in Ht. destruct (payload (object s)); try done. by injection Ht as ->. }
  assert (forall c, edge_of m c -> vm_intact vm c /\ (weak_mode t = WeakMode.Strong \/ phase (gc vm) = Pause \/ marked_in vm c)) as Hc.
  { intros c Hc. apply (Hset t c Ht). rewrite <- Hkey. by eapply prepare_set_edges. }
  eapply post_seq; [apply (prepare_barrier_covers vm _ _ _ i s t); [by exists l3 | done | done] | | done].
  intros b vm1 (Hvm1 & Hr & Hcov). apply (post_seq _ _ _ (fun _ => gc_inv) (fun _ => gc_inv)); [| intros _ vm2 Hvm2; exact Hvm2 | done].
  apply (commit_keeps vm _ _ _ _ i s t); try done; [by eapply prepare_set_prepared |].
  intros c He. destruct (Hc c He) as [Hi Hmode]. split; [done |]. intros Hp Hb.
  destruct Hmode as [Hst | [Hp' | Hmk]]; [| done | by left].
  destruct He as [He | He]; eapply (Hcov Hst Hp Hb (_, Some c)); rewrite <- ?He; try done; [left | right; left].
Qed.

End Tables.
