(* ===== verification/HeapRoots.v ===== *)
(** Roots and finalizers keep the invariant of the heap: adding and removing roots, the
    handles of the host, metatables with finalizers, and the states of a finalizer. *)

From Stdlib Require Import ZArith Lia.
From stdpp Require Import base list numbers relations.
From S2P Require Import Prelude Float Number Table TableSpec TableSet TableEdges GcState GcBits ShortStrings Heap Barrier Collector HeapEdges HeapInv HeapMark HeapChange HeapRounds HeapAtomic HeapFinish HeapSweep HeapCycle HeapBegin HeapStores.

Local Open Scope Z_scope.

(** ** Root tables *)

Lemma root_objects_elem r x : x ∈ root_objects r <-> exists e, e ∈ entries r /\ root_active r e = true /\ root_object e = x.
Proof.
  unfold root_objects, active_entries. rewrite list_elem_of_fmap. setoid_rewrite list_elem_of_filter. naive_solver.
Qed.

(** A new entry at the end of a compacted table, perhaps with a new lease. *)
Definition with_entry (r : RootSet) (e : RootEntry) (ls : list bool) : RootSet :=
  {| entries := entries (compact r) ++ [e]; next_sequence := next_sequence r + 1; leases := ls |}.

Record new_entry (r : RootSet) (vm : VmId) (e : RootEntry) (ls : list bool) : Prop := {
  ne_id : root_id e = {| root_vm := vm; root_sequence := next_sequence r |};
  ne_lease : lease e = None /\ ls = leases r \/ lease e = Some (zlen (leases r)) /\ ls = leases r ++ [true]
}.

Section Entry.
Context {r : RootSet} {vm : VmId} {e : RootEntry} {ls : list bool} (Hids : roots_ok r) (Hnew : new_entry r vm e ls).

Lemma compact_ok : roots_ok (compact r).
Proof using Hids. intros f [_ Hf]%list_elem_of_filter. by apply Hids. Qed.

Lemma with_entry_ok : roots_ok (with_entry r e ls).
Proof using Hids Hnew.
  intros f [Hf | ->%list_elem_of_singleton]%elem_of_app; cbn.
  - apply compact_ok in Hf. cbn in Hf. lia.
  - destruct Hnew as [-> _]. cbn. lia.
Qed.

(** Leases that were there keep their state. *)
Lemma old_lease l : is_Some (zget (leases r) l) -> zget ls l = zget (leases r) l.
Proof using Hnew.
  intros [b Hb]. destruct Hnew as [_ [[_ ->] | [_ ->]]]; [done |]. apply zget_app_l. apply zget_lt in Hb. lia.
Qed.

Lemma with_entry_objects x : x ∈ root_objects (with_entry r e ls) -> x ∈ root_objects r \/ x = root_object e.
Proof using Hnew.
  rewrite !root_objects_elem. intros (f & [Hf | ->%list_elem_of_singleton]%elem_of_app & _ & <-); [left | by right].
  cbn in Hf. apply list_elem_of_filter in Hf as [Ha Hf]. eauto.
Qed.

Lemma entry_find : list_find (fun f => root_id f = root_id e) (entries (with_entry r e ls)) = Some (length (entries (compact r)), e).
Proof using Hids Hnew.
  apply list_find_Some. cbn. split; [by apply list_lookup_middle |]. split; [done |].
  intros j f Hj Hlt. rewrite lookup_app_l in Hj by done. apply list_elem_of_lookup_2 in Hj.
  apply compact_ok in Hj. cbn in Hj. destruct Hnew as [-> _]. intros E. rewrite E in Hj. cbn in Hj. lia.
Qed.

End Entry.

Lemma swap_remove_elem {A} (l : list A) n x : x ∈ swap_remove l n -> x ∈ l.
Proof.
  unfold swap_remove. destruct (l !! _) as [y |] eqn:Hy; [| done]. intros Hx.
  apply elem_of_take in Hx as (j & Hj & _). destruct (decide (j = n)) as [-> | Hne].
  - apply list_lookup_insert_Some in Hj as [(_ & <- & _) | [? _]]; [by apply list_elem_of_lookup_2 in Hy | done].
  - rewrite list_lookup_insert_ne in Hj by done. by apply list_elem_of_lookup_2 in Hj.
Qed.

Lemma swap_remove_last {A} (l : list A) x : swap_remove (l ++ [x]) (length l) = l.
Proof.
  unfold swap_remove. rewrite length_app, Nat.add_sub. cbn. rewrite list_lookup_middle by done.
  rewrite insert_app_r_alt, Nat.sub_diag by done. cbn. by rewrite take_app_length.
Qed.

(** Ending a lease ends no other entry's. *)
Lemma deactivate_active r l e : root_active (deactivate r l) e = true -> root_active r e = true.
Proof.
  unfold root_active, lease_active. cbn. destruct (lease e) as [k |]; [| done]. unfold zget. rewrite zlen_zinsert. unfold zinsert.
  destruct (_ && _); [| done]. destruct (decide (Z.to_nat l = Z.to_nat k)) as [E | Hne]; [| by rewrite list_lookup_insert_ne].
  rewrite E. destruct (<[_ := false]> (leases r) !! _) as [b |] eqn:Hb; [| done]. apply list_lookup_insert_Some in Hb as [(_ & <- & _) | [? _]]; done.
Qed.

Section Roots.
Context `{Suspended} {L : Type} `{HeapLedgerLaws L refused} `{Hasher}.
#[local] Set Default Proof Using "Type*".

Notation Vm := (Vm L).
Notation HeapM := (ST Vm VmError).
Notation vm_intact vm := (intact (slots vm) (vm_id vm)).

(** Fewer roots. *)
Lemma gc_inv_fewer_roots (vm : Vm) r : gc_inv vm -> roots_ok r -> (forall x, x ∈ root_objects r -> x ∈ root_objects (roots vm)) ->
  gc_inv (with_roots vm r).
Proof using Type.
  intros Hinv Hids Hsub. apply (gc_inv_roots vm); try done. intros x. unfold root_list. cbn. rewrite !elem_of_app.
  intros [Hx | Hx]; left; [left; by apply Hsub | by right].
Qed.

(** [RootSet::remove]: an inactive entry is an error, and goes too. *)
Lemma remove_root_keeps (vm : Vm) id : gc_inv vm -> spec (remove_root id) vm (fun _ vm' => gc_inv vm') (fun _ vm' => gc_inv vm').
Proof using Type.
  intros Hinv. pose proof (gc_inv_ids _ Hinv) as Hids. unfold remove_root. apply spec_bind, spec_get.
  destruct (negb _); [by apply spec_fail |]. destruct (list_find _ _) as [[index e] |]; [| by apply spec_fail].
  apply spec_bind, spec_put. set (r' := {| entries := _ |}).
  assert (gc_inv (with_roots vm r')) as Hinv'.
  { assert (forall f, f ∈ entries r' -> f ∈ entries (roots vm)) as Hsub.
    { intros f Hf%swap_remove_elem. by destruct (lease e). }
    apply gc_inv_fewer_roots; [done | |].
    - intros f Hf. apply Hsub, Hids in Hf. by destruct (lease e).
    - intros x. rewrite !root_objects_elem. intros (f & Hf & Ha & <-). exists f. split; [by apply Hsub |]. split; [| done].
      destruct (lease e) as [l |]; [| done]. by apply (deactivate_active _ l). }
  destruct (root_active _ _); [by apply spec_ret | by apply spec_fail].
Qed.

Lemma drop_lease_keeps (vm : Vm) l : gc_inv vm -> spec (drop_lease l) vm (fun _ vm' => gc_inv vm') (fun _ vm' => gc_inv vm').
Proof using Type.
  intros Hinv. apply spec_modify. apply gc_inv_fewer_roots; [done | by apply (gc_inv_ids _ Hinv) |].
  intros x. rewrite !root_objects_elem. intros (f & Hf & Ha & <-). exists f. split; [done |]. split; [| done]. by apply (deactivate_active _ l).
Qed.

(** ** A new root

    It is in the table before its object is marked; when the mark fails, it goes. *)

Definition rooted (vm : Vm) (l : L) (e : RootEntry) (ls : list bool) : Vm :=
  with_roots (with_ledger vm l) (with_entry (roots vm) e ls).

Lemma remove_new_root (vm : Vm) l e ls : gc_inv vm -> new_entry (roots vm) (vm_id vm) e ls ->
  spec (remove_root (root_id e)) (rooted vm l e ls) (fun _ vm' => gc_inv vm') (fun _ vm' => gc_inv vm').
Proof using Type.
  intros Hinv Hnew. pose proof (gc_inv_ids _ Hinv) as Hids. unfold remove_root. apply spec_bind, spec_get.
  change (vm_id (rooted vm l e ls)) with (vm_id vm). rewrite (ne_id _ _ _ _ Hnew). rewrite bool_decide_eq_true_2 by done. cbn [negb].
  rewrite <- (ne_id _ _ _ _ Hnew). change (roots (rooted vm l e ls)) with (with_entry (roots vm) e ls).
  rewrite (entry_find Hids Hnew). apply spec_bind, spec_put. set (r' := {| entries := _ |}).
  assert (entries r' = entries (compact (roots vm))) as He.
  { subst r'. destruct (lease e); cbn; apply swap_remove_last. }
  assert (gc_inv (with_roots (rooted vm l e ls) r')) as Hinv'.
  { apply (gc_inv_fewer_roots (with_ledger vm l) r'); [done | |].
    - intros f. rewrite He. intros Hf. apply (compact_ok Hids) in Hf. cbn in Hf |- *. destruct (lease e); cbn; lia.
    - intros x. rewrite !root_objects_elem, He. intros (f & Hf & _ & <-). apply list_elem_of_filter in Hf as [Ha Hf]. eauto. }
  destruct (root_active _ _); [by apply spec_ret | by apply spec_fail].
Qed.

Lemma mark_new_root (vm : Vm) l e ls : gc_inv vm -> new_entry (roots vm) (vm_id vm) e ls -> vm_intact vm (root_object e) ->
  spec (or_else (mark_gc_object (root_object e)) (fun err => remove_root (root_id e);; fail err)) (rooted vm l e ls)
    (fun _ vm' => gc_inv vm') (fun _ vm' => gc_inv vm').
Proof.
  intros Hinv Hnew Hi. apply spec_or_else. eapply spec_weaken; [apply mark_gc_object_spec; by apply gc_inv_heap in Hinv | |].
  - intros _ vm' [Hm Hmk]. destruct Hm as (g & -> & Hm).
    assert (gc_inv (with_gc vm g)) as Hinv'.
    { apply (gc_inv_marking vm); [done |]. by exists g. }
    apply (gc_inv_roots (with_gc (with_ledger vm l) g)); try done; [| apply (with_entry_ok (gc_inv_ids _ Hinv) Hnew)].
    intros x. unfold root_list. cbn. rewrite !elem_of_app. intros [Hx | Hx]; [| left; by right].
    apply (with_entry_objects Hnew) in Hx as [Hx | ->]; [left; by left | right]. split; [done |].
    intros Hp. apply Hmk. intros Hp'. apply Hp. by apply (marks_pause _ _ _ _ Hm).
  - intros err vm' ->. eapply spec_seq; [by apply remove_new_root | | done]. intros u vm' Hvm'. by apply spec_fail.
Qed.

Lemma next_root_id_total (r : RootSet) vm : total (next_root_id r vm).
Proof using Type. unfold next_root_id. by destruct (_ <=? _). Qed.

Lemma returns_root_request n (m : ST L VmError unit) : returns m ->
  returns (reserve (L := L) n;; checkpoint RootReserve;; try_reserve_exact 1;; m).
Proof.
  intros Hm. apply returns_bind; [apply returns_reserve | intros _]. apply returns_bind; [apply returns_checkpoint | intros _].
  apply returns_bind; [apply returns_try_reserve | intros _]. done.
Qed.

Lemma gc_inv_compact (vm : Vm) : gc_inv vm -> gc_inv (with_roots vm (compact (roots vm))).
Proof using Type.
  intros Hinv. apply gc_inv_fewer_roots; [done | by apply compact_ok, gc_inv_ids |]. intros x. by rewrite compact_roots.
Qed.

Lemma add_root_keeps (vm : Vm) kind o : gc_inv vm -> vm_intact vm o ->
  spec (add_root kind o) vm (fun _ vm' => gc_inv vm') (fun _ vm' => gc_inv vm').
Proof.
  intros Hinv Hi. unfold add_root. apply spec_bind, spec_get.
  apply spec_bind, spec_lift; [apply checked_in_total | intros _ _ | done].
  eapply (spec_seq _ _ _ (fun id vm' => exists l e, vm' = rooted vm l e (leases (roots vm)) /\ id = root_id e /\ root_object e = o /\
    new_entry (roots vm) (vm_id vm) e (leases (roots vm))) _ (fun _ vm' => gc_inv vm')); [| | done].
  - unfold root_add. apply spec_bind, spec_modify. set (vm1 := with_roots vm _).
    pose proof (gc_inv_compact _ Hinv) as Hinv1. fold vm1 in Hinv1. apply spec_bind, spec_get.
    apply spec_bind, spec_lift; [apply next_root_id_total | | done]. intros id Hid.
    apply (keeps_ledger (fun vm' => exists l, vm' = with_ledger vm1 l)).
    + intros vm' l [l' ->]. by exists l.
    + apply returns_root_request, returns_commit.
    + by exists (ledger vm).
    + intros _ vm' [l ->]. apply spec_bind, spec_modify. apply spec_ret.
      exists l, {| root_id := id; root_kind := kind; root_object := o; lease := None |}.
      split; [done |]. split; [done |]. split; [done |]. split; [| by left]. cbn.
      unfold next_root_id in Hid. destruct (_ <=? _); [by injection Hid as <- | done].
    + by intros e vm' [l ->].
  - intros id vm' (l & e & -> & -> & <- & Hnew). eapply spec_seq; [by apply mark_new_root | | done].
    intros u vm' Hvm'. by apply spec_ret.
Qed.

Lemma add_host_root_keeps (vm : Vm) o : gc_inv vm -> vm_intact vm o ->
  spec (add_host_root o) vm (fun _ vm' => gc_inv vm') (fun _ vm' => gc_inv vm').
Proof.
  intros Hinv Hi. unfold add_host_root. apply spec_bind, spec_get.
  apply spec_bind, spec_lift; [apply checked_in_total | intros _ _ | done].
  eapply (spec_seq _ _ _ (fun id vm' => exists l e, vm' = rooted vm l e (leases (roots vm) ++ [true]) /\ id.1 = root_id e /\ root_object e = o /\
    new_entry (roots vm) (vm_id vm) e (leases (roots vm) ++ [true])) _ (fun _ vm' => gc_inv vm')); [| | done].
  - unfold root_add_host. apply spec_bind, spec_modify. set (vm1 := with_roots vm _).
    pose proof (gc_inv_compact _ Hinv) as Hinv1. fold vm1 in Hinv1. apply spec_bind, spec_get.
    apply spec_bind, spec_lift; [apply next_root_id_total | | done]. intros id Hid.
    set (I := fun vm' : Vm => exists l, vm' = with_ledger vm1 l).
    assert (I vm1) as HI by by exists (ledger vm).
    assert (forall (e : VmError) vm', I vm' -> gc_inv vm') as Hend by by intros e vm' [l ->].
    eapply spec_seq; [by apply (keeps_checked_add I) | | done]. intros cost vm2 Hvm2.
    eapply spec_seq; [by apply (keeps_checked_add I) | | done]. clear vm2 Hvm2. intros charge vm2 Hvm2.
    apply (keeps_ledger I); [intros vm' l [l' ->]; by exists l | | done | | done].
    { apply returns_root_request, returns_bind; [apply returns_checkpoint | intros _; apply returns_commit]. }
    clear vm2 Hvm2. intros _ vm' [l ->]. apply spec_bind, spec_modify. apply spec_ret.
    exists l, {| root_id := id; root_kind := RootKind.Host; root_object := o; lease := Some (zlen (leases (roots vm))) |}.
    split; [done |]. split; [done |]. split; [done |]. split; [| by right]. cbn.
    unfold next_root_id in Hid. destruct (_ <=? _); [by injection Hid as <- | done].
  - intros [id k] vm' (l & e & -> & Eid & <- & Hnew). cbn in Eid. subst id.
    eapply spec_seq; [by apply mark_new_root | | done]. intros u vm' Hvm'. by apply spec_ret.
Qed.

End Roots.
