(* ===== verification/HeapFinalizers.v ===== *)
(** Metatables and finalizers keep the invariant of the heap: registration, the states of a
    finalizer that runs, and the queue of the shutdown. *)

From Stdlib Require Import ZArith Lia.
From stdpp Require Import base list numbers relations sorting.
From S2P Require Import Prelude Float Number Table TableSpec TableSet TableEdges GcState GcBits ShortStrings Heap Barrier Collector HeapEdges HeapInv HeapMark HeapChange HeapRounds HeapAtomic HeapFinish HeapStores.

Local Open Scope Z_scope.

Section Finalizers.
Context `{Suspended} {L : Type} `{HeapLedgerLaws L refused} `{Hasher}.
#[local] Set Default Proof Using "Type*".

Notation Vm := (Vm L).
Notation HeapM := (ST Vm VmError).
Notation vm_intact vm := (intact (slots vm) (vm_id vm)).

(** ** Registration *)

(** Only the state of a finalizer differs. *)
Definition finalizer_differs (s s' : OccupiedSlot) : Prop :=
  generation s' = generation s /\ reference s' = reference s /\ age s' = age s /\ object s' = object s.

(** The finalizer of a root may change in any way, others may not become registered. *)
Lemma gc_inv_finalizer (vm : Vm) i s s' : gc_inv vm -> zget (slots vm) i = Some (Occupied s) -> finalizer_differs s s' ->
  (finalizer s' = Registered -> finalizer s = Registered \/ reference s ∈ root_list vm) ->
  gc_inv (with_slots vm (zinsert (slots vm) i (Occupied s'))).
Proof using Type.
  intros Hinv Hz (Hg & Hr & Ha & Ho) Hreg. apply gc_inv_changed; [done |].
  apply (reslot_insert _ _ _ s); try done; [intros; apply changed_refl |]. split.
  - unfold keeps_kind. by rewrite Ho.
  - unfold settled. by rewrite Ha.
  - intros c. rewrite Ho. by left.
  - intros Hf. destruct (Hreg Hf) as [| Hroot]; [by left | right]. pose proof Hinv as (Hheap & _ & Hcycle & Hanch & _).
    split; [by apply Hanch; left |]. intros Hp _. destruct (co_roots _ _ _ _ _ _ _ _ _ _ Hcycle Hp _ Hroot) as (j & t & Hc & Hw).
    pose proof (heap_occupied _ _ _ Hheap Hz) as Hc'. unfold checked_slot in Hc'.
    by destruct (checked_in_fun _ _ _ _ _ _ _ Hc Hc') as [-> _].
  - intros c. rewrite Ho. by left.
Qed.

Lemma registered_slot_differs order s : finalizer_differs s (registered_slot order s).
Proof using Type.
  unfold finalizer_differs, registered_slot. destruct (new_registration s), (finalizer s); done.
Qed.

(** [register_finalizer]: the object is one that the program holds. *)
Lemma register_finalizer_keeps (vm : Vm) o : gc_inv vm -> o ∈ root_list vm ->
  spec (register_finalizer o) vm (fun _ vm' => gc_inv vm') (fun _ vm' => gc_inv vm').
Proof using Type.
  intros Hinv Ho. unfold register_finalizer. apply spec_bind, spec_get.
  apply spec_bind, spec_lift; [apply checked_in_total | | done]. intros [i s] Hc. cbn [fst snd].
  destruct (shutdown_closing vm); [by apply spec_ret |]. destruct (_ <? _); [by apply spec_fail |].
  apply checked_in_spec in Hc as (Hz & Hr & _). apply spec_bind. eapply spec_update_slot; [exact Hz |].
  apply spec_modify. apply (gc_inv_finalizer vm i s); [done | done | apply registered_slot_differs |].
  intros _. right. by rewrite Hr.
Qed.

Lemma set_metatable_fields t m : metatable (set_metatable t m) = m /\ array (set_metatable t m) = array t /\
  hash (set_metatable t m) = hash t /\ weak_mode (set_metatable t m) = weak_mode t.
Proof using Type. unfold set_metatable. by case_bool_decide. Qed.

(** [Vm::set_metatable]: an object gets a finalizer only while the program holds it. *)
Lemma vm_set_metatable_keeps (vm : Vm) o m : gc_inv vm -> (forall r, m = Some r -> vm_intact vm r) ->
  (forall r t, m = Some r -> with_table vm r = Ok t -> finalizer_value t <> VNil -> o ∈ root_list vm) ->
  spec (vm_set_metatable o m) vm (fun _ vm' => gc_inv vm') (fun _ vm' => gc_inv vm').
Proof.
  intros Hinv Hi Hroot. unfold vm_set_metatable. apply spec_bind, spec_get.
  apply spec_bind, spec_lift; [apply object_kind_total | intros kind _ | done].
  set (same := fun vm' : Vm => vm' = vm). assert (forall (e : VmError) vm', same vm' -> gc_inv vm') as Hend by by intros e vm' ->.
  apply (spec_seq _ _ _ (fun _ => same) _ (fun _ => same)); [destruct kind; (by apply spec_ret) || by apply spec_fail | | done].
  intros _ vm' ->.
  apply (spec_seq _ _ _ (fun register vm' => same vm' /\ (register = true -> o ∈ root_list vm)) _ (fun _ => same)); [| | done].
  { destruct m as [r |]; [| by apply spec_ret]. apply spec_bind, spec_lift; [| | done].
    - apply total_bind; [apply checked_in_total |]. intros [i s] _. cbn. by destruct (payload _).
    - intros t Ht. apply spec_ret. split; [done |]. intros Hr. apply (Hroot r t); [done | done |]. intros E. by rewrite E in Hr. }
  intros register vm' [-> Hreg].
  apply (spec_seq _ _ _ (fun _ => same) _ (fun _ => same)); [| | done].
  { destruct register; [| by apply spec_ret]. unfold preflight_finalizer_registration. apply spec_bind, spec_get.
    apply spec_bind, spec_lift; [apply checked_in_total | intros [i s] _ | done].
    destruct (_ || _); [by apply spec_ret |]. destruct (_ <=? _); [by apply spec_ret | by apply spec_fail]. }
  intros _ vm' ->.
  eapply (spec_seq _ _ _ (fun _ vm' => wrote vm vm' /\ forall i s r, checked_slot vm o = Ok (i, s) -> m = Some r -> guarded vm' i r)
    _ (fun _ vm' => wrote vm vm')); [| | by intros e vm' ?%wr_inv].
  { destruct m as [r |]; [| apply spec_ret; split; [by apply wrote_refl | done]].
    eapply spec_weaken; [by apply write_ref_guards | | done]. intros _ vm' [Hw Hg]. split; [done |]. intros i s r' Ho [= <-]. eauto. }
  intros _ vm1 [Hw Hg].
  apply (spec_seq _ _ _ (fun _ vm' => gc_inv vm' /\ root_list vm' = root_list vm) _ (fun _ => gc_inv)); [| | done].
  - pose proof (wr_inv _ _ Hw) as Hinv1.
    assert (checked_slot vm1 o = checked_slot vm o) as Ec by (unfold checked_slot; by rewrite (wr_slots _ _ Hw), (wr_id _ _ Hw)).
    destruct (checked_slot vm o) as [[i s] | e | k] eqn:Hc; [| | by apply checked_in_total in Hc].
    2: { unfold update_payload. apply spec_bind, spec_get. rewrite Ec. by apply spec_bind, spec_lift. }
    eapply spec_update_payload; [exact Ec | by destruct (payload (object s)) | | done].
    intros p Hp. split; [| exact (wr_roots _ _ Hw)]. specialize (Hg i s).
    apply checked_in_spec in Ec as (Hz & _). apply (gc_inv_store vm1 i s _ (option_edges m)); try done.
    + unfold keeps_kind. cbn. destruct (payload (object s)); try done; by injection Hp as <-.
    + intros str c. unfold strong_edges. cbn. destruct (payload (object s)) as [| | t | u | | | | | | | f]; try done; injection Hp as <-; cbn.
      * unfold table_strong. destruct (set_metatable_fields t m) as (-> & -> & -> & ->). rewrite !elem_of_app. tauto.
      * unfold userdata_edges. cbn. rewrite !elem_of_app. tauto.
      * rewrite !elem_of_app. tauto.
    + intros c. unfold held_edges. cbn. destruct (payload (object s)) as [| | t | u | | | | | | | f]; try done; injection Hp as <-; cbn.
      * unfold table_held. destruct (set_metatable_fields t m) as (-> & -> & -> & _). rewrite !elem_of_app. tauto.
      * unfold userdata_edges. cbn. rewrite !elem_of_app. tauto.
      * rewrite !elem_of_app. tauto.
    + intros c Hc'. apply option_edges_elem in Hc'. rewrite (wr_slots _ _ Hw), (wr_id _ _ Hw). split; [by apply Hi | by apply Hg].
  - intros _ vm2 [Hinv2 Hr2]. destruct register; [| by apply spec_ret].
    apply register_finalizer_keeps; [done |]. rewrite Hr2. by apply Hreg.
Qed.

(** ** A finalizer that runs *)

(** The object of the next entry of the queue is a root, and so in its slot. *)
Lemma next_entry_root (vm : Vm) o : fe_object <$> next_entry vm = Some o -> o ∈ root_list vm.
Proof using Type.
  unfold next_entry. destruct (zget _ _) as [e |] eqn:He; [| done]. intros [= <-]. apply elem_of_app. right.
  apply zget_Some in He as [_ He]. apply list_elem_of_lookup_2 in He. apply list_elem_of_fmap. eauto.
Qed.

Lemma root_slot_of (vm : Vm) o : gc_inv vm -> o ∈ root_list vm ->
  spec (slot_of o) vm (fun found vm' => vm' = vm /\ checked_slot vm o = Ok found) (fun _ vm' => vm' = vm).
Proof using Type.
  intros (_ & _ & _ & Hanch & _) Ho. destruct (intact_valid _ _ _ (Hanch o (or_introl Ho))) as (i & s & Hc).
  pose proof Hc as (Hz & _ & id & Hid & _ & Hi & _)%checked_in_spec. unfold slot_of. rewrite Hid. cbn [ok_or].
  apply spec_bind, spec_ret. apply spec_bind, spec_get. unfold vget. rewrite Hi, Hz. apply spec_bind, spec_lift; try done.
  intros x [= <-]. by apply spec_ret.
Qed.

Lemma start_finalizer_keeps (vm : Vm) o : gc_inv vm -> spec (start_finalizer o) vm (fun _ vm' => gc_inv vm') (fun _ vm' => gc_inv vm').
Proof using Type.
  intros Hinv. unfold start_finalizer. apply spec_bind, spec_get.
  destruct (_ || _) eqn:Hg; [by apply spec_fail |]. apply orb_false_elim in Hg as [_ Hg]. apply negb_false_iff, bool_decide_eq_true in Hg.
  eapply spec_seq; [apply root_slot_of; [done | by apply next_entry_root] | | by intros e vm' ->].
  intros [i s] vm' [-> Hc]. cbn [fst snd]. destruct (negb _); [by apply spec_fail |].
  apply checked_in_spec in Hc as (Hz & _). apply spec_bind. eapply spec_update_slot; [exact Hz |]. apply spec_modify.
  by apply (gc_inv_finalizer vm i s).
Qed.

(** [pause_finalizer_start]: the finalizer of a root that is still running. *)
Lemma pause_finalizer_start_keeps (vm : Vm) o : gc_inv vm -> o ∈ root_list vm ->
  spec (pause_finalizer_start o) vm (fun _ vm' => gc_inv vm') (fun _ vm' => gc_inv vm').
Proof using Type.
  intros Hinv Ho. unfold pause_finalizer_start. eapply spec_seq; [by apply root_slot_of | | by intros e vm' ->].
  intros [i s] vm' [-> Hc]. cbn [fst snd]. destruct (negb _); [by apply spec_fail |].
  apply checked_in_spec in Hc as (Hz & _). apply spec_bind. eapply spec_update_slot; [exact Hz |]. apply spec_modify.
  by apply (gc_inv_finalizer vm i s).
Qed.

(** A finalizer that ends is registered again only if it was marked anew; its object
    leaves the queue. *)
Lemma finish_finalizer_keeps (vm : Vm) o : gc_inv vm -> spec (finish_finalizer o) vm (fun _ vm' => gc_inv vm') (fun _ vm' => gc_inv vm').
Proof using Type.
  intros Hinv. unfold finish_finalizer. apply spec_bind, spec_get.
  destruct (_ || _) eqn:Hg; [by apply spec_fail |]. apply orb_false_elim in Hg as [_ Hg]. apply negb_false_iff, bool_decide_eq_true in Hg.
  apply next_entry_root in Hg as Hroot.
  eapply spec_seq; [by apply root_slot_of | | by intros e vm' ->].
  intros [i s] vm' [-> Hc]. cbn [fst snd]. destruct (negb _); [by apply spec_fail |].
  apply checked_in_spec in Hc as (Hz & Hr & _). apply spec_bind. eapply spec_update_slot; [exact Hz |]. apply spec_modify.
  set (s' := with_finalizer_remarked _ false). set (vm1 := with_slots vm _).
  assert (gc_inv vm1) as Hinv1 by (apply (gc_inv_finalizer vm i s); [done | done | done |]; intros _; right; by rewrite Hr).
  set (q := take _ _). assert (gc_inv (with_finalizer_running (with_finalizer_queue vm1 q) false)) as Hinv2.
  { apply (gc_inv_roots vm1); try done; [| by apply (gc_inv_ids vm1)]. intros x. unfold root_list. rewrite !elem_of_app.
    intros [Hx | Hx]; left; [by left | right]. cbn in Hx |- *. apply list_elem_of_fmap in Hx as (e & -> & He).
    apply list_elem_of_fmap. exists e. split; [done |]. subst q. by apply elem_of_take in He as (j & Hj & _); apply list_elem_of_lookup_2 in Hj. }
  destruct (_ =? _); exact Hinv2.
Qed.

(** ** The queue of the shutdown *)

Lemma registered_entries_elem (sl : list Slot) e : e ∈ registered_entries sl ->
  exists i s, zget sl i = Some (Occupied s) /\ finalizer s = Registered /\ fe_object e = reference s.
Proof using Type.
  unfold registered_entries. rewrite list_elem_of_omap. intros (slot & Hin & He). apply list_elem_of_lookup in Hin as [n Hn].
  destruct slot as [s | |]; try done. case_bool_decide as Hf; [| done]. injection He as <-.
  exists (Z.of_nat n), s. split; [| done]. apply zget_Some. rewrite Nat2Z.id. split; [lia | done].
Qed.

Lemma make_pending_reslot (vm : Vm) : reslot (vm_changed vm) (slots vm) (map make_pending (slots vm)).
Proof using Type.
  split; [unfold zlen; by rewrite length_map |]. intros i.
  assert (zget (map make_pending (slots vm)) i = make_pending <$> zget (slots vm) i) as ->.
  { unfold zget, zlen. rewrite length_map. destruct (_ && _); [| done]. apply list_lookup_fmap. }
  destruct (zget (slots vm) i) as [[s | |] |]; try done. cbn. eexists. split; [done |].
  case_bool_decide as Hf; [| split; [done |]; split; [done | apply changed_refl]].
  split; [done |]. split; [done |]. by apply lessened_changed, lessened_finalizer.
Qed.

(** [queue_shutdown_finalizers] between two cycles. *)
Lemma queue_shutdown_finalizers_keeps (vm : Vm) : gc_inv vm -> phase (gc vm) = Pause ->
  spec queue_shutdown_finalizers vm (fun _ vm' => gc_inv vm') (fun _ vm' => gc_inv vm').
Proof.
  intros Hinv Hp. unfold queue_shutdown_finalizers.
  set (I := fun vm' : Vm => gc_inv vm' /\ phase (gc vm') = Pause).
  assert (forall (e : VmError) vm', I vm' -> gc_inv vm') as Hend by by intros e vm' [? _].
  assert (forall vm' l, I vm' -> I (with_ledger vm' l)) as HI by by intros vm' l [? ?].
  apply (spec_seq _ _ _ (fun _ => I) _ (fun _ => I)); [| | done].
  - apply (keeps_spec I); [| done]. unfold preflight_shutdown_finalizers. apply keeps_read. intros vm1 Hvm1. eapply keeps_spec; [| done].
    apply keeps_if; [apply keeps_fail |]. apply keeps_if; [apply keeps_ret |].
    apply keeps_bind; [apply keeps_checked_add | intros needed]. apply keeps_if; [apply keeps_ret |].
    apply keeps_bind; [apply keeps_checked_bytes | intros charge]. apply keeps_bind; [apply keeps_checked_add | intros next].
    apply keeps_bind; [apply keeps_on_ledger; [done |] | intros _].
    + apply returns_bind; [apply returns_reserve_charges | intros _]. apply returns_bind; [apply returns_reserve_vec | intros _; apply returns_commit].
    + intros vm2 Hvm2. apply spec_modify. exact Hvm2.
  - intros _ vm1 [Hinv1 Hp1]. apply spec_modify.
    pose proof (gc_inv_changed _ _ Hinv1 (make_pending_reslot vm1)) as Hinv2.
    set (vm2 := with_slots vm1 _) in Hinv2. set (vm3 := with_finalizer_queue _ _).
    apply (gc_inv_roots vm2); try done; [| by apply (gc_inv_ids vm2)]. intros x. unfold root_list at 1. rewrite elem_of_app.
    intros [Hx | Hx]; [left; apply elem_of_app; by left |].
    change (finalizer_queue vm3) with (sort_queue (finalizer_queue vm1 ++ registered_entries (slots vm1))) in Hx.
    apply list_elem_of_fmap in Hx as (e & -> & He). unfold sort_queue in He. rewrite merge_sort_Permutation in He.
    apply elem_of_app in He as [He | He].
    + left. apply elem_of_app. right. apply list_elem_of_fmap. by exists e.
    + right. apply registered_entries_elem in He as (i & s & Hz & Hf & ->). split; [| by intros ?].
      apply (changed_intact (make_pending_reslot vm1)). destruct Hinv1 as (_ & _ & _ & Hanch & _). apply Hanch. right. eauto.
Qed.

End Finalizers.
