(* ===== verification/HeapSteps.v ===== *)
(** The heap at work: the operations of the program and the rounds of the collector in any
    order, from a new VM on, and what the program can rely on. *)

From Stdlib Require Import ZArith Lia.
From stdpp Require Import base list numbers relations.
From S2P Require Import Prelude Float Number Table TableSpec TableSet TableKeys TableTheorems GcState GcBits ShortStrings Heap Barrier Collector HeapEdges HeapInv HeapMark HeapLive HeapChange HeapRounds HeapBegin HeapReclaim HeapTermination HeapStores HeapPublish HeapTables HeapRoots HeapFinalizers.

Local Open Scope Z_scope.

Section Steps.
Context `{Suspended} {L : Type} `{HeapLedger L} `{Hasher}.

Notation Vm := (Vm L).
Notation HeapM := (ST Vm VmError).
Notation vm_intact vm := (intact (slots vm) (vm_id vm)).

(** ** Operations *)

Inductive HeapOperation :=
  | OpRound (began : bool)
  | OpPublish (p : HeapPayload)
  | OpRawSet (table : ObjectRef) (key value : Value)
  | OpSetUservalue (o : ObjectRef) (index : Z) (v : Value)
  | OpCloseUpvalue (o : ObjectRef) (v : Value)
  | OpEnvironmentCell (closure cell : ObjectRef)
  | OpCoroutine (o : ObjectRef) (new_refs : list ObjectRef) (f : Coroutine -> Coroutine)
  | OpAddChild (parent child : ObjectRef)
  | OpSetMetatable (o : ObjectRef) (m : option ObjectRef)
  | OpRoot (kind : RootKind.RootKind) (o : ObjectRef)
  | OpHostRoot (o : ObjectRef)
  | OpUnroot (id : RootId)
  | OpDropLease (l : Z)
  | OpStartFinalizer (o : ObjectRef)
  | OpPauseFinalizer (o : ObjectRef)
  | OpFinishFinalizer (o : ObjectRef)
  | OpSetMode (m : GcMode)
  | OpShutdown.

Definition ignoring {A} (m : HeapM A) : HeapM unit := m;; mret tt.

Definition run (op : HeapOperation) : HeapM unit :=
  match op with
  | OpRound began => ignoring (gc_round began)
  | OpPublish p => vm ← get; ignoring (publish_payload p (free_slot vm))
  | OpRawSet table key value => ignoring (vm_raw_set table key value)
  | OpSetUservalue o index v => ignoring (set_uservalue o index v)
  | OpCloseUpvalue o v => close_upvalue o v
  | OpEnvironmentCell closure cell => replace_closure_environment_cell closure cell
  | OpCoroutine o new_refs f => with_coroutine_mut o new_refs f
  | OpAddChild parent child => add_child parent child
  | OpSetMetatable o m => vm_set_metatable o m
  | OpRoot kind o => ignoring (add_root kind o)
  | OpHostRoot o => ignoring (add_host_root o)
  | OpUnroot id => ignoring (remove_root id)
  | OpDropLease l => drop_lease l
  | OpStartFinalizer o => start_finalizer o
  | OpPauseFinalizer o => pause_finalizer_start o
  | OpFinishFinalizer o => finish_finalizer o
  | OpSetMode m => set_gc_mode m
  | OpShutdown => queue_shutdown_finalizers
  end.

(** What the callers see to: the references that they store, or make roots, are of intact
    objects, as those are that they read from their roots; a weak table is written between
    cycles or gets what is marked; no weak mode gets stronger on the way into a cycle; a
    coroutine's new references are declared; an object gets a finalizer while it is a root;
    the queue of the shutdown is made between
    cycles. *)
Definition permitted (vm : Vm) (op : HeapOperation) : Prop :=
  match op with
  | OpRound began => phase (gc vm) = Pause -> began = false -> modes_ok vm
  | OpPublish p => forall c, c ∈ held_edges {| payload := p; children := [] |} -> vm_intact vm c
  | OpRawSet table key value => settable vm table key value
  | OpSetUservalue _ _ v | OpCloseUpvalue _ v => value_intact vm v
  | OpEnvironmentCell _ o | OpAddChild _ o | OpRoot _ o | OpHostRoot o => vm_intact vm o
  | OpCoroutine _ new_refs f => (forall c, c ∈ new_refs -> vm_intact vm c) /\
      forall co c, c ∈ coroutine_edges (f co) -> c ∈ coroutine_edges co \/ c ∈ new_refs
  | OpSetMetatable o m => (forall r, m = Some r -> vm_intact vm r) /\
      forall r t, m = Some r -> with_table vm r = Ok t -> finalizer_value t <> VNil -> o ∈ root_list vm
  | OpPauseFinalizer o => o ∈ root_list vm
  | OpShutdown => phase (gc vm) = Pause
  | OpUnroot _ | OpDropLease _ | OpStartFinalizer _ | OpFinishFinalizer _ | OpSetMode _ => True
  end.

(** One step: a permitted operation that returns, with a value or an error. *)
Definition heap_step (vm vm' : Vm) : Prop :=
  exists op, permitted vm op /\ (run op vm).2 = vm' /\ total (run op vm).1.

End Steps.

Section Sound.
Context `{Suspended} {L : Type} `{HeapLedgerLaws L refused} `{Hasher}.
#[local] Set Default Proof Using "Type*".

Notation Vm := (Vm L).
Notation HeapM := (ST Vm VmError).

Lemma ignoring_keeps {A} (m : HeapM A) (vm : Vm) (I : Vm -> Prop) :
  spec m vm (fun _ => I) (fun _ => I) -> spec (ignoring m) vm (fun _ => I) (fun _ => I).
Proof using Type. intros Hm. eapply spec_seq; [exact Hm | | done]. intros a vm' Hvm'. by apply spec_ret. Qed.

(** All operations but the write of a table entry are total. *)
Lemma run_total (vm : Vm) op : gc_inv vm -> permitted vm op -> (forall table key value, op <> OpRawSet table key value) ->
  spec (run op) vm (fun _ => gc_inv) (fun _ => gc_inv).
Proof.
  intros Hinv Hp Hop.
  destruct op as [began | p | table key value | o index v | o v | closure cell | o refs f | parent child | o m | kind o | o | id | l | o | o | o | mo |];
    cbn [run permitted] in *;
    try (match goal with |- spec (ignoring _) _ _ _ => apply ignoring_keeps end).
  - by apply gc_round_keeps.
  - apply spec_bind, spec_get. apply ignoring_keeps. eapply spec_weaken; [by apply publish_payload_keeps; [| apply free_slot_free |] | | done].
    by intros r vm' [? _].
  - by destruct (Hop table key value).
  - by apply set_uservalue_keeps.
  - by apply close_upvalue_keeps.
  - by apply replace_closure_environment_cell_keeps.
  - destruct Hp. by apply with_coroutine_mut_keeps.
  - by apply add_child_keeps.
  - destruct Hp. by apply vm_set_metatable_keeps.
  - by apply add_root_keeps.
  - by apply add_host_root_keeps.
  - by apply remove_root_keeps.
  - by apply drop_lease_keeps.
  - by apply start_finalizer_keeps.
  - by apply pause_finalizer_start_keeps.
  - by apply finish_finalizer_keeps.
  - by apply set_gc_mode_keeps.
  - by apply queue_shutdown_finalizers_keeps.
Qed.

Lemma classic_op op : (exists table key value, op = OpRawSet table key value) \/ forall table key value, op <> OpRawSet table key value.
Proof using Type. destruct op; try (by right); left; eauto. Qed.

Lemma run_keeps (vm : Vm) op : gc_inv vm -> permitted vm op -> post (run op) vm (fun _ => gc_inv) (fun _ => gc_inv).
Proof.
  intros Hinv Hp. destruct (classic_op op) as [(table & key & value & ->) | Hop]; [| by apply post_spec, run_total].
  eapply post_seq; [by apply vm_raw_set_keeps | | done]. intros a vm' Hvm'. exact Hvm'.
Qed.

Lemma heap_step_keeps (vm vm' : Vm) : gc_inv vm -> heap_step vm vm' -> gc_inv vm'.
Proof.
  intros Hinv (op & Hp & <- & Ht). pose proof (run_keeps _ _ Hinv Hp) as Hpost. unfold post in Hpost.
  destruct (run op vm) as [[[] | e | k] vm']; [done | done |]. by destruct (Ht k).
Qed.

Lemma heap_steps_keep (vm vm' : Vm) : gc_inv vm -> rtc heap_step vm vm' -> gc_inv vm'.
Proof. intros Hinv Hs. induction Hs as [| vm vm1 vm' Hstep _ IH]; [done |]. by eapply IH, heap_step_keeps. Qed.

(** What is kept, and what it reaches, is in its slot. *)
Lemma kept_reaches_valid (vm : Vm) r o : gc_inv vm -> kept (slots vm) (root_list vm) r ->
  rtc (edge (slots vm) (vm_id vm)) r o -> exists i s, checked_slot vm o = Ok (i, s).
Proof using Type. intros (_ & _ & _ & Hanch & _) Hr Ho. exact (Hanch r Hr o Ho). Qed.

(** ** Properties *)

(** C2: After any permitted operations and rounds of the collector, from a new VM on, every
    object that the program can reach - along the references that keep objects alive, from the
    active roots, the queue of finalizers and the objects with a registered finalizer - is
    still in its slot, with its own generation and reference: it was not reclaimed, and its
    slot was not given to another object. *)
Theorem reachable_not_reclaimed (id : VmId) (p : LuaProfile) (seed : Z) (l : L) (token : Z) (vm : Vm) (r o : ObjectRef) :
  rtc heap_step (new_vm id p seed l token) vm ->
  kept (slots vm) (root_list vm) r -> rtc (edge (slots vm) (vm_id vm)) r o ->
  exists i s, checked_slot vm o = Ok (i, s).
Proof.
  intros Hs. apply kept_reaches_valid. eapply heap_steps_keep; [apply gc_inv_new | exact Hs].
Qed.


(** C3: A full cycle of the incremental mode that ends with success has reclaimed all
    garbage, cyclic garbage included: what is still in its slot at the end lives by the
    references of the heap at the start of the cycle - from the roots and the objects with a
    registered finalizer, along strong references, to the values of ephemeron pairs whose
    keys live and to the string keys of all-weak tables. *)
Theorem unreachable_reclaimed (vm vm1 vm2 : Vm) (o : ObjectRef) (i : Z) (s : OccupiedSlot) :
  gc_inv vm -> modes_ok vm -> mode (gc vm) = Incremental ->
  begin_gc_cycle vm = (Ok tt, vm1) -> rtc gc_step vm1 vm2 -> phase (gc vm2) = Pause ->
  checked_slot vm2 o = Ok (i, s) -> lives (slots vm1) (vm_id vm1) (root_list vm1) o.
Proof.
  intros Hinv Hm Hmode E Hs Hp (Hz & <- & _)%checked_in_spec.
  unfold begin_gc_cycle in E. apply ok_get in E. unfold cycle_kind in E. rewrite Hmode in E.
  pose proof (spec_ok _ _ _ _ _ _ (begin_gc_cycle_kind_starts vm Full Hinv Hm ltac:(done)) E) as Hst. rewrite Hmode in Hst.
  destruct (gc_steps_on_course vm1 vm1 vm2 (started_on_course vm1 Hst) Hs) as [_ [[? _] | [_ Hall]]]; [done |].
  exact (Hall i s Hz).
Qed.

Context `{!Finalizers L} `{!FinalizersLaws L}.


End Sound.

(** ** Computed checks

    References and modes of a heap at hand, checked by evaluation. *)

Section Checks.
Context `{Suspended} {L : Type} `{HeapLedger L} `{Hasher}.

(** The references of the list are valid, and lead to references of the list only. *)
Definition closed_list (slots : list Slot) (vm : VmId) (l : list ObjectRef) : bool :=
  forallb (fun o => match checked_in slots vm o with
                    | Ok (_, s) => forallb (fun c => bool_decide (c ∈ l)) (strong_edges (string_in slots vm) (object s))
                    | _ => false
                    end) l.

Lemma closed_list_intact slots vm l o : closed_list slots vm l = true -> o ∈ l -> intact slots vm o.
Proof.
  intros Hl. assert (forall o, o ∈ l -> exists i s, checked_in slots vm o = Ok (i, s) /\
    forall c, c ∈ strong_edges (string_in slots vm) (object s) -> c ∈ l) as Hcl.
  { intros x Hx. unfold closed_list in Hl. rewrite forallb_forall in Hl. specialize (Hl x). rewrite <- list_elem_of_In in Hl. specialize (Hl Hx).
    destruct (checked_in slots vm x) as [[i s] | |]; try done. exists i, s. split; [done |]. intros c Hc.
    rewrite forallb_forall in Hl. specialize (Hl c). rewrite <- list_elem_of_In in Hl. specialize (Hl Hc). by apply bool_decide_eq_true in Hl. }
  apply (intact_closed slots vm (fun o => o ∈ l)).
  - intros x Hx. destruct (Hcl x Hx) as (i & s & Hc & _). by exists i, s.
  - intros x c Hx (i & s & Hc & Hin). destruct (Hcl x Hx) as (j & t & Hc' & Hall).
    destruct (checked_in_fun _ _ _ _ _ _ _ Hc Hc') as [-> ->]. by apply Hall.
Qed.

(** No table asks for another weak mode than its last. *)
Definition steady (vm : Vm L) : bool :=
  forallb (fun slot => match slot with
    | Occupied s =>
        match payload (object s) with
        | PTable t => match current_weak_mode vm t with Ok m => bool_decide (m = weak_mode t) | _ => true end
        | _ => true
        end
    | _ => true
    end) (slots vm).

Lemma steady_modes_ok (vm : Vm L) : steady vm = true -> modes_ok vm.
Proof.
  intros Hs. apply modes_ok_steady. intros i s t m Hz Hp Hm. left. unfold steady in Hs. rewrite forallb_forall in Hs.
  specialize (Hs (Occupied s)). rewrite <- list_elem_of_In in Hs. assert (Occupied s ∈ slots vm) as Hin by (apply zget_elem; eauto).
  specialize (Hs Hin). cbn in Hs. rewrite Hp, Hm in Hs. by apply bool_decide_eq_true in Hs.
Qed.

End Checks.

(** ** A run

    Two tables, the second in the first, which is a root; a cycle of the collector goes
    through root marking, propagation and the atomic phase to the sweep. *)
Module HeapDemo.
Import TableTheorems.Demo.

#[export] Instance suspended : Suspended := {|
  PendingStack := list ObjectRef; pending_edges l := l; ExternalSuspended := list ObjectRef; external_edges l := l |}.

#[export] Instance heap_ledger : HeapLedger unit := {|
  Heap.heap_ledger := ledger; size_of_object_ref := 8; size_of_heap_object := 64; size_of_heap_slot := 96;
  size_of_gc_slot_bits := 32; size_of_finalizer_entry := 16; size_of_root_entry := 48; size_of_root_lease := 32;
  indirect_charge _ := 128; managed_payload_len s := zlen (as_bytes s);
  reserve _ := mret tt; reserve_charges _ := mret tt; normalize_charges _ := mret tt;
  lua_heap_bytes _ := 0; committed_bytes _ := 0 |}.

#[export] Instance heap_ledger_laws : HeapLedgerLaws unit refused.
Proof. split; [exact ledger_laws | by intros ..]. Defined.

#[export] Instance finalizers : Finalizers unit := {| run_pending_finalizers := mret tt |}.

#[export] Instance finalizers_laws : FinalizersLaws unit.
Proof. split. intros vm Hinv Hp. by apply spec_ret. Defined.

Definition start : Vm unit := new_vm {| vm_number := 1 |} Lua55 0 tt 1.
Definition reference_of (slot token : Z) : ObjectRef :=
  Heap_ref {| oid_vm := {| vm_number := 1 |}; oid_slot := {| slot_index := slot |}; oid_generation := {| generation_value := 0 |} |}
    (Some token).
Definition outer : ObjectRef := reference_of 0 1.
Definition inner : ObjectRef := reference_of 1 2.
Definition empty : HeapPayload := match try_new 0 0 0 tt with (Ok t, _) => PTable t | _ => PModule 0 end.

Definition with_outer : Vm unit := Eval vm_compute in (run (OpPublish empty) start).2.
Definition rooted_outer : Vm unit := Eval vm_compute in (run (OpRoot RootKind.Host outer) with_outer).2.
Definition with_inner : Vm unit := Eval vm_compute in (run (OpPublish empty) rooted_outer).2.
Definition linked : Vm unit := Eval vm_compute in (run (OpRawSet outer (VInteger 1) (VObject inner)) with_inner).2.
Definition begun : Vm unit := Eval vm_compute in (run (OpRound false) linked).2.

(** The rounds of a cycle that has begun. *)
Fixpoint rounds (n : nat) (vm : Vm unit) : Vm unit :=
  match n with O => vm | S n => rounds n (run (OpRound true) vm).2 end.
Definition swept : Vm unit := Eval vm_compute in rounds 9 begun.

(** A VM in incremental mode, with an object that nothing refers to. *)
Definition lost : ObjectRef := reference_of 2 3.
Definition incremental : Vm unit := Eval vm_compute in (run (OpSetMode Incremental) linked).2.
Definition with_lost : Vm unit := Eval vm_compute in (run (OpPublish empty) incremental).2.
Definition full : Vm unit := Eval vm_compute in (begin_gc_cycle with_lost).2.
Definition collected : Vm unit := Eval vm_compute in rounds 13 full.

Lemma rounds_steps n : forall vm : Vm unit, gc_inv vm -> rtc heap_step vm (rounds n vm).
Proof.
  induction n as [| n IH]; intros vm Hinv; [apply rtc_refl |].
  assert (permitted vm (OpRound true)) as Hp by done.
  pose proof (run_total vm _ Hinv Hp ltac:(done)) as Hr. cbn [rounds].
  assert (heap_step vm (run (OpRound true) vm).2) as Hs.
  { exists (OpRound true). split; [done |]. split; [done |]. intros k. unfold spec in Hr. by destruct (run (OpRound true) vm) as [[[] | |] ?]. }
  eapply rtc_l; [exact Hs |]. apply IH. by eapply heap_step_keeps.
Qed.

Lemma linked_steps : rtc heap_step start linked.
Proof.
  apply (rtc_l _ _ with_outer).
  { exists (OpPublish empty). split; [by intros c ?%elem_of_nil |]. split; [vm_compute; reflexivity | by vm_compute]. }
  apply (rtc_l _ _ rooted_outer).
  { exists (OpRoot RootKind.Host outer). split; [| split; [vm_compute; reflexivity | by vm_compute]].
    apply (closed_list_intact _ _ [outer]); [by vm_compute | left]. }
  apply (rtc_l _ _ with_inner).
  { exists (OpPublish empty). split; [by intros c ?%elem_of_nil |]. split; [vm_compute; reflexivity | by vm_compute]. }
  apply rtc_once. exists (OpRawSet outer (VInteger 1) (VObject inner)).
  split; [| split; [vm_compute; reflexivity | by vm_compute]].
  intros t c Ht [Hc | Hc]; [done |]. injection Hc as <-. split; [| right; left; by vm_compute].
  apply (closed_list_intact _ _ [inner]); [by vm_compute | left].
Qed.

Lemma linked_inv : gc_inv linked.
Proof. eapply heap_steps_keep; [apply gc_inv_new | exact linked_steps]. Qed.

Lemma begun_steps : rtc heap_step start begun.
Proof.
  eapply rtc_r; [exact linked_steps |]. exists (OpRound false).
  split; [| split; [vm_compute; reflexivity | by vm_compute]]. intros _ _. apply steady_modes_ok. by vm_compute.
Qed.

Lemma swept_steps : rtc heap_step start swept.
Proof.
  etrans; [exact begun_steps |]. change swept with (rounds 9 begun). apply rounds_steps.
  eapply heap_steps_keep; [apply gc_inv_new | exact begun_steps].
Qed.

Lemma reachable_not_reclaimed_witness :
  phase (gc swept) = Sweep /\ exists i s, checked_slot swept inner = Ok (i, s).
Proof.
  split; [by vm_compute |].
  apply (reachable_not_reclaimed {| vm_number := 1 |} Lua55 0 tt 1 swept outer inner); [exact swept_steps | |].
  - left. apply (bool_decide_unpack _). by vm_compute.
  - apply rtc_once. eexists _, _. split; [vm_compute; reflexivity |]. apply (bool_decide_unpack _). by vm_compute.
Defined.

Lemma with_lost_steps : rtc heap_step start with_lost.
Proof.
  eapply rtc_r; [eapply rtc_r; [exact linked_steps |] |].
  - exists (OpSetMode Incremental). split; [done |]. split; [vm_compute; reflexivity | by vm_compute].
  - exists (OpPublish empty). split; [by intros c ?%elem_of_nil |]. split; [vm_compute; reflexivity | by vm_compute].
Qed.

(** The rounds of the cycle, each of which succeeds. *)
Fixpoint all_succeed (n : nat) (vm : Vm unit) : bool :=
  match n with
  | O => true
  | S n => negb (bool_decide (phase (gc vm) = Pause)) &&
      match gc_round true vm with (Ok _, vm') => all_succeed n vm' | _ => false end
  end.

Lemma all_succeed_steps n : forall vm, all_succeed n vm = true -> rtc gc_step vm (rounds n vm).
Proof.
  induction n as [| n IH]; intros vm Hs; [apply rtc_refl |]. cbn [all_succeed rounds] in *.
  apply andb_true_iff in Hs as [Hp%negb_true_iff%bool_decide_eq_false Hs].
  destruct (gc_round true vm) as [[r | |] vm'] eqn:E; try done.
  assert ((run (OpRound true) vm).2 = vm') as ->.
  { cbn. unfold ignoring, mbind, st_bind. by rewrite E. }
  eapply rtc_l; [| by apply IH]. split; [done |]. by exists true, r.
Qed.

Lemma unreachable_reclaimed_witness :
  (exists s, checked_slot with_lost lost = Ok (2, s)) /\ checked_slot collected lost = Err StaleObject /\
  lives (slots full) (vm_id full) (root_list full) inner.
Proof.
  split; [eexists; vm_compute; reflexivity |]. split; [by vm_compute |].
  assert (exists i s, checked_slot collected inner = Ok (i, s)) as (i & s & Hc) by (eexists _, _; vm_compute; reflexivity).
  apply (unreachable_reclaimed with_lost full collected inner i s).
  - eapply heap_steps_keep; [apply gc_inv_new | exact with_lost_steps].
  - apply steady_modes_ok. by vm_compute.
  - by vm_compute.
  - vm_compute. reflexivity.
  - change collected with (rounds 13 full). apply all_succeed_steps. by vm_compute.
  - by vm_compute.
  - exact Hc.
Defined.



(** The cycle that has begun does end in success. *)
Lemma run_cycle_example : (run_cycle (L := unit) begun).1 = Ok tt.
Proof. by vm_compute. Qed.

End HeapDemo.
