(* ===== verification/HeapFindings.v ===== *)
(** Three runs of the heap in which the collector takes what a live object holds: the
    conditions of [permitted] that they break are needed. *)

From Stdlib Require Import ZArith Lia String.
From stdpp Require Import base list numbers.
From S2P Require Import Prelude Float Number Table TableSpec TableTheorems GcState GcBits ShortStrings Heap Barrier Collector HeapSteps.
Import TableTheorems.Demo HeapDemo.

Local Open Scope Z_scope.

Notation HeapM := (ST (Vm unit) VmError).

Definition new_table : HeapM ObjectRef := allocate_table_with_capacity 0 0.
Definition new_string (s : String.string) : HeapM ObjectRef :=
  allocate_payload (PByteString {| backing := Owned; as_bytes := bytes_of_string s |}).

(** A metatable with one field. *)
Definition new_metatable (name : String.string) (v : Value) : HeapM ObjectRef :=
  key ← new_string name; meta ← new_table; vm_raw_set meta (VObject key) v;; mret meta.

Definition mode_metatable (mode : String.string) : HeapM ObjectRef := s ← new_string mode; new_metatable "__mode" (VObject s).

(** ** A value in the array of a table with weak keys

    The table is black, the value is white when it moves there from its only other place. *)
Definition weak_keys_run : HeapM (ObjectRef * ObjectRef) :=
  set_gc_mode Incremental;;
  meta ← mode_metatable "k";
  table ← new_table; vm_set_metatable table (Some meta);;
  box ← new_table; add_root RootKind.Host box;; add_root RootKind.Host table;;
  v ← new_table; vm_raw_set box (VInteger 1) (VObject v);;
  incremental_step 5;;
  vm_raw_set table (VInteger 1) (VObject v);; vm_raw_set box (VInteger 1) VNil;;
  run_cycle;;
  mret (table, v).

(** C39: The barrier of a table with weak keys does not mark a value that is stored while the
    table is black, although the collector traces the values of the array part of such a
    table as strong: after the cycle the table, still a root, holds a reference to an object
    that was reclaimed. *)
Theorem weak_keys_store_reclaimed : exists table v t vm,
  weak_keys_run start = (Ok (table, v), vm) /\ table ∈ root_objects (roots vm) /\
  with_table vm table = Ok t /\ weak_mode t = WeakMode.Keys /\ get_integer t 1 = VObject v /\
  checked_slot vm v = Err StaleObject.
Proof.
  eexists _, _, _, _. split; [vm_compute; reflexivity |]. split; [by left || (apply (bool_decide_unpack _); by vm_compute) |].
  split; [vm_compute; reflexivity |]. by vm_compute.
Qed.

(** ** A long string that is the key of a pair with a live value

    The all-weak table is reached only from an object whose finalizer is to run. *)
Definition weak_string_run : HeapM (ObjectRef * ObjectRef * ObjectRef) :=
  set_gc_mode Incremental;;
  live ← new_table; add_root RootKind.Host live;;
  finalizing ← new_metatable "__gc" (VBoolean true);
  meta ← mode_metatable "kv";
  table ← new_table; vm_set_metatable table (Some meta);;
  name ← new_string "a long enough key"; vm_raw_set table (VObject name) (VObject live);;
  holder ← new_table; vm_raw_set holder (VInteger 1) (VObject table);; vm_set_metatable holder (Some finalizing);;
  collect;;
  mret (table, name, live).

(** [mark_live_weak_string_keys] runs once, before the separation of dead objects with
    finalizers: the key of a pair in an all-weak table that only such an object reaches is
    reclaimed, while the pair stays in the table. *)
Theorem weak_string_key_reclaimed : exists table name live t k vm,
  weak_string_run start = (Ok (table, name, live), vm) /\
  with_table vm table = Ok t /\ Some (k, VObject live) ∈ hash t /\ source_object k = Some name /\
  checked_slot vm name = Err StaleObject.
Proof.
  eexists _, _, _, _, _, _. split; [vm_compute; reflexivity |]. split; [vm_compute; reflexivity |].
  split; [vm_compute; left |]. by vm_compute.
Qed.

(** ** The queue of the shutdown in a cycle *)
Definition shutdown_run : HeapM ObjectRef :=
  set_gc_mode Incremental;;
  finalizing ← new_metatable "__gc" (VBoolean true);
  o ← new_table; root ← add_root RootKind.Host o; vm_set_metatable o (Some finalizing);; remove_root root;;
  incremental_step 3;;
  queue_shutdown_finalizers;;
  run_cycle;;
  mret o.

(** [queue_shutdown_finalizers] in a cycle queues objects that are not marked, as roots
    are then no more: the sweep reclaims the object, and the next finalizer fails. *)
Theorem shutdown_queue_reclaimed : exists o vm,
  shutdown_run start = (Ok o, vm) /\ map fe_object (finalizer_queue vm) = [o] /\
  checked_slot vm o = Err StaleObject /\ pending_finalizer vm = Err StaleObject.
Proof. eexists _, _. split; [vm_compute; reflexivity |]. by vm_compute. Qed.
